(* ===== verification/_CoqProject ===== *)
-Q . S2P
Prelude.v
RustStr.v
SeekSequence.v
PatchParser.v
StreamingParser.v
PatchRoundtrip.v
RustPath.v
AbsolutePath.v
ApplyPatch.v
PatchFs.v
Invocation.v
ExecPolicy.v
ExecPolicyParser.v
ExecPolicyAmend.v
StreamText.v
AssistantText.v
Utf8Stream.v
MachineInt.v
Protocol.v
Truncate.v
Fragments.v
History.v
Json.v
AnthropicWire.v
AnthropicRequest.v
StreamAccumulator.v
PathPrefix.v
ShellSafety.v
Permissions.v
PermissionFacts.v
PermissionChanges.v
Profiles.v
ExecApproval.v
PatchSafety.v
Orchestrator.v
McpNames.v
MessagesSse.v
IpAddr.v
DomainPolicy.v
ProxyConfig.v
MitmHooks.v
ProxyState.v
NetworkProxy.v
ProxyTasks.v
ProxyHandlers.v
ConfigLayers.v
PermissionsToml.v
PermissionsConfig.v
NetworkLoader.v
NetworkApproval.v
ApprovalPools.v
SchemaSanitize.v
ToolRegistry.v
GeminiRequest.v
GeminiStream.v
