(* ===== verification/Prelude.v ===== *)
(** * A verification of the xli (codex-rs) agent harness: root of the library

    The program is a coding agent.  A session keeps the history of a
    conversation, sends it to a model, receives a stream of events, and runs the
    commands and patches the model asks for, after a policy or the user let it.
    Everything verified here is under [src/codex-rs].

    ** The parts and how they meet

    - _Patches_ ([apply-patch]).  The text of a patch is parsed while it
      streams ([StreamingPatchParser], for display) and as a whole
      ([parse_patch]); the hunks are verified against the files (the changes
      shown for approval) and applied to them, with a record of what was
      committed.
    - _Command policy_ ([execpolicy], [shell-command], [core/src/exec_policy.rs]).
      Rules files give prefix and network rules.  A command line is split into
      the commands of its script; each is matched against the rules, and an
      unmatched one is judged by the lists of safe and of dangerous commands.
      The strictest decision becomes an approval requirement, together with a
      rule that would make the question superfluous; an accepted rule is appended
      to the policy file and added to the policy in memory.
    - _Permissions_ ([protocol/src/permissions.rs], [models.rs], [sandboxing]).
      A policy lists what may be read and written below which paths; it is turned
      into the roots, carve-outs and globs that the platform sandboxes enforce, and
      changed by grants, working directories and older policies.
    - _Running tools_ ([core/src/tools/orchestrator.rs], [core/src/safety.rs]).  A
      call is approved, run in the sandbox its policy asks for and, when the
      sandbox stops it, perhaps approved again and run without one; a patch that
      stays within the policy needs no question.
    - _Streamed text_ ([utils/stream-parser]).  Bytes are decoded, citation tags
      and plan blocks are taken out of the visible text.
    - _History_ ([core/src/context_manager], [utils/output-truncation], data of
      [protocol]).  Items are recorded with their outputs truncated, normalised
      into a prompt, rolled back by turns.
    - _The wire_ ([provider-anthropic], [provider-gemini], [codex-api/src/sse]).  A
      history becomes the request of the [/messages] or of the [generateContent] API,
      the schemas of the tools are cut down to what the latter takes; the events of
      the answer become response events on a channel and finished items of the
      history.
    - _Tool names_ ([codex-mcp/src/tools.rs], [core/src/tools/registry.rs]).  Tools of
      MCP servers are renamed for the model; the wire flattens the names and reads
      them back, and the registry finds the tool of a call.
    - _Network proxy_ ([network-proxy]).  Commands reach the network through a proxy
      that decides on every host, method and socket, shares its state between tasks,
      and records what it refused.
    - _Network approval_ ([core/src/tools/network_approval.rs]).  A refusal of the
      proxy becomes a question to the user or the guardian, one for all concurrent
      requests of a host, and the answer a rule of the session or of the policy file.
    - _Configuration_ ([config], [core/src/config]).  Layers of settings are merged,
      permission profiles are resolved along their parents and compiled to policies,
      and the settings and constraints of the proxy are loaded and reloaded.

    ** Files

    Foundations:
    - [Prelude]: outcomes of fallible code ([comp]: [Ok], [Err], [Panic], [Loop]),
      checked slices, [Vec::insert] and [Vec::remove], shared tactics, hints, lists.
    - [RustStr], [RustPath], [MachineInt], [Json]: what the code uses of
      [std::str], [std::path] (Unix), 64-bit integers and [serde_json::Value].

    Patches, [src/codex-rs/apply-patch/src]:
    - [SeekSequence] ([seek_sequence.rs]), [PatchParser] ([parser.rs]),
      [StreamingParser] ([streaming_parser.rs]), [ApplyPatch] (the text side of
      [lib.rs]), [PatchFs] (its file side, over the trait [ExecutorFileSystem]),
      [Invocation] ([invocation.rs]); [PatchRoundtrip] relates both parsers to
      the grammar; [AbsolutePath] is [utils/absolute-path].

    Policy:
    - [ExecPolicy], [ExecPolicyParser], [ExecPolicyAmend]: [execpolicy/src]
      ([decision.rs], [rule.rs], [policy.rs]; [parser.rs]; [amend.rs]).
    - [ShellSafety]: [shell-command/src] ([bash.rs], [shell_detect.rs],
      [command_safety]).  [ExecApproval]: [core/src/exec_policy.rs], which
      composes the previous four.

    Permissions and tools:
    - [PathPrefix]: [Path::starts_with], [strip_prefix], [ancestors] and order.
    - [Permissions]: [protocol/src/permissions.rs] with [SandboxPolicy] and
      [WritableRoot] of [protocol.rs]; [PermissionFacts] specifies the access of a
      path and relates the sandbox roots to it; [PermissionChanges] is about the
      operations that build and change policies and the matcher of denied reads.
    - [Profiles]: the permission profiles of [protocol/src/models.rs] and
      [sandboxing/src/policy_transforms.rs].
    - [PatchSafety]: [core/src/safety.rs], [core/src/apply_patch.rs] and the
      choice of a sandbox of [sandboxing/src/manager.rs].
    - [Orchestrator]: [core/src/tools/orchestrator.rs], [tools/sandboxing.rs] and
      [network_policy_decision.rs].

    Streamed text, [utils/stream-parser/src]:
    - [StreamText] ([inline_hidden_tag.rs], [citation.rs] and the interface
      [StreamTextParser]), [AssistantText] ([tagged_line_parser.rs],
      [proposed_plan.rs], [assistant_text.rs]), [Utf8Stream] ([utf8_stream.rs]).

    History:
    - [Protocol] (items, truncation policy, counters), [Truncate]
      ([utils/string], [utils/output-truncation]), [Fragments] (injected context,
      [core/src/context], [event_mapping.rs]), [History]
      ([context_manager/normalize.rs], [history.rs]).

    The wire, [provider-anthropic/src]:
    - [AnthropicWire] ([wire.rs]), [AnthropicRequest] ([request.rs], [model.rs]),
      [StreamAccumulator] ([stream_invariants.rs], [stream_accumulator.rs]).
    - [MessagesSse]: [codex-api/src/sse] ([messages_wire_types.rs], [messages.rs],
      [usage.rs], [response_projection.rs]); [McpNames]: [codex-mcp/src/tools.rs].
    - [SchemaSanitize], [GeminiRequest]: [provider-gemini/src]
      ([schema_sanitize.rs]; [request.rs], [model.rs], with [wire/tool_name.rs] of
      [codex-api]); [GeminiStream]: [codex-api/src/sse]
      ([generate_content_wire_types.rs], [generate_content.rs]).
    - [ToolRegistry]: the lookup of [core/src/tools/registry.rs].

    The network proxy, [network-proxy/src]:
    - [IpAddr], [DomainPolicy] ([policy.rs]), [ProxyConfig] ([config.rs]), [MitmHooks]
      ([mitm_hook.rs]), [ProxyState] ([state.rs]), [NetworkProxy] (the decisions of
      [runtime.rs], [network_policy.rs] and [responses.rs]).
    - [ProxyTasks]: the operations of [runtime.rs] as tasks over the shared state, a
      logic of weakest preconditions for them and pools of tasks.  [ProxyHandlers]:
      [http_proxy.rs], [mitm.rs], [socks5.rs], [upstream.rs].
    - [NetworkApproval]: [core/src/tools/network_approval.rs] with the amendments of
      [session/mod.rs]; [ApprovalPools]: concurrent requests and calls.

    Configuration:
    - [ConfigLayers] (the merge and the stack of layers of [config/src]),
      [PermissionsToml] (profiles and their parents), [PermissionsConfig] (profiles
      as policies, [core/src/config/permissions.rs]), [NetworkLoader]
      ([core/src/network_proxy_loader.rs]).

    A struct is a [Record], an enum an [Inductive] with the constructors of the
    source, a [HashMap] or [HashSet] a [gmap] or [gset], a method that takes
    [&mut self] returns the new state with its result, also on an error.

    ** What the theorems show

    - Patches: printing and parsing are inverse, for the batch parser and for any
      cut of the text into deltas; both are total.  [seek_sequence] is the least
      match of the first matching strictness, at the end of a file the last window
      only.  The index arithmetic of the replacements is a left-to-right edit of
      disjoint regions, one for each chunk, and never panics.  Over any file system
      with the stated laws, the delta accounts for every change, also on error
      paths; every hunk of a patch is shown for approval, and what is shown is what
      happens, when no path is used twice; a move onto the same path deletes the
      file.
    - Policy: a forbidding rule cannot be overridden, an overlay cannot relax a
      base policy, the examples of an accepted file hold, appends of concurrent
      processes linearise.  A script is safe only if all commands of its tree
      are; nothing runs unasked that neither a rule nor the heuristic lets
      through; an accepted rule suffices next time.
    - Permissions: the access of a path is that of the deepest and strongest entry
      above it; the roots for the sandboxes agree with it, for a restricted policy
      and on a host without symbolic links; protected metadata is written only
      through entries that name it or the whole disk; policies stay well formed under
      every sequence of operations; denied reads survive a rebuild and grants take
      nothing away; a grant gives no more than was asked for and granted.
    - Tools: the orchestrator is refined to its courses, which fix questions,
      attempts, the retry and the result, kept as a ghost log; nothing that needs a
      sandbox runs without one unless somebody said so; a patch approved unasked
      changes only files that the policy lets be written, which composes verification
      and application of patches with the permissions.
    - Streams: the result never depends on the cut, and equals a one-shot reading
      of the whole text.  The class laws [StreamTextParser] and [CutLaw] carry
      this from one layer to the next.
    - History: a prompt is the history with outputs for exactly the calls that have
      none and without the outputs that have no call; removals and rollbacks keep the
      invariant, truncation keeps its byte budget at character boundaries.
    - Wire: messages pair [tool_use] with [tool_result] in adjacent messages for
      every history, say each text once and in order, send only recorded thinking,
      and carry at most four cache breakpoints.  A finished streamed block is the
      concatenation of its own pieces; the guards reject exactly the events that
      refer to no open block.  The event parser of [codex-api] ends every stream
      with exactly one last event, gives the items that the same message gives
      when it is not streamed, up to the layout of arguments, searches and empty
      messages, reports a call that was cut off as such and else the provider's
      reason, and normalises the counters without loss.
      Every schema is sanitised; the nodes that the sanitiser visits conform, and the
      result is a fixed point, but for what an [allOf] brings back.  The turns of a
      Gemini request alternate, say what the history says and sign their calls; what
      its stream sends is fixed by the chunks that arrive, signed parts are replayed
      once and as they came, and the marks of citations leave the text as it is.
    - Tool names: unique, bounded, and read back from the wire exactly when the
      server name has no double underscore; flat names of two servers can collide.
      A name that two tools share is routed to neither.
    - Network proxy: the decision on a host in terms of the lists; settings that pass
      validation stay within the constraints; in every interleaving the state stays
      consistent and nothing goes out that was not decided on.
    - Network approval: in every interleaving a request passes only if its host,
      protocol and port were approved; every request is answered.
    - Configuration: a setting is that of the highest layer that has it, under
      whatever spelling of a host or legacy name, the reloader hands out the state of
      the layers it read and reports no change exactly when no recorded file came,
      went or has a later time, a profile the overlay of its chain of parents, a
      compiled profile denies what it says, and users cannot change the constraints
      of the proxy.

    ** Fuel

    [while] loops that are not structural run on fuel and return [Loop] when it
    ends; that [Loop] and [Panic] do not occur is part of the theorems.  The
    parser of hunks takes one unit per line and one more; every round consumes a
    line.  [InlineHiddenTagParser::push_str] takes the length of the pending text
    and one more, since every round that continues consumes a delimiter.  The
    walks of a syntax tree take its number of nodes; each node is popped once.
    [detect_shell_type] takes the length of the path, and a file stem is shorter
    than the path it is taken from or ends the recursion.  UTF-8 validation takes
    the number of bytes.  The search for an unused tool name takes the number of
    names in use and one more: attempts with different hashes make different
    names, so one of them is unused.  The ancestors of a path take one unit for
    each component.  The loops of the proxy and of the approvals that try again after
    a concurrent change take a number of rounds; a task that is not disturbed needs
    one, and what is shown of pools of tasks holds for every number.  The wait for a
    decision takes two rounds, since a decision is set before the waiters are
    notified.  Resolving a profile takes the number of
    profiles and two more, since a name that comes twice is a cycle.  Inlining
    references takes three hops for each definition, which has three spellings, since
    no spelling comes twice in a chain.  Sanitising takes the cap on the depth.  The
    loops of the Gemini request take the number of items or turns; every round
    consumes one.  Rust integers are 64 bits wide; where an operation
    saturates or overflows, [MachineInt] says so.

    ** Parameters

    Code outside the repository is an argument, given by a class, with its laws
    where a theorem needs them: the file system and the output streams
    ([ExecutorFileSystem], [FileSystemLaws], [PathOps], [Writer]; [map_fs] is an
    instance; the laws leave out two paths that are one file through symbolic or hard
    links), the process ([ProcessEnv]), tree-sitter ([TreeSitterBash],
    [BashGrammar]), Starlark and its rendering ([StarlarkInterp], [Rendering]),
    policy file operations ([PolicyIo], [PolicyIoLaws]), JSON text and hashes
    ([JsonText], [WireCodec]), hook fragments in XML ([Codec]), shell quoting
    ([Shlex]), sizes of serialised items and images ([Estimator]), Unicode lower
    case, the JSON of command outputs and tool schemas ([RequestEnv]), SHA-1
    ([McpEnv]), the text of JSON values ([ValueText]), canonical paths and
    metadata of the host ([HostFs], with [PlainHost] for a host without symbolic
    links and [ProcessEnvOk]), compiled globs ([GlobLib]), a tool with the session
    services it runs under ([ToolRuntime]), the platform ([TargetOs]), compiled host
    patterns, URLs and connections of the proxy ([GlobSetLib], [UrlHostLib], [UrlLib],
    [MitmLib], [MitmStateLib], [RamaLib], with [GlobSetLaws] and [UrlHostLaws]) and
    what its tasks await, SHA-256 ([Sha256]).  The layers, policies and file times that
    the loaders read, the shared counter of Gemini's calls and the clock are arguments.

    ** Not modelled, and why

    Logging, tracing and metrics.  Concurrent appends to a policy file that fail: their
    errors are modelled one at a time, and the interleavings are of appends that
    succeed.  The text of error messages where no caller reads it.  The Windows builds.  Task scheduling, sockets, processes and the
    terminal ([core] sessions and tool handlers, [exec], [tui], [app-server],
    [login]): they are I/O around the parts above.  Of the proxy the listeners, the
    certificates, TLS and the forwarding of bytes.  Of the configuration the reading
    of files, the requirements and the record of settings.  Rendering of injected
    context, the command lines of the platform sandboxes, the serialised forms of
    permissions.  Data bases and session files ([state], [rollout]).  [vendor] is
    third-party code.

    ** Plan

    Left are the parser of the Responses stream ([codex-api/src/sse/responses.rs]),
    [provider-copilot] and compaction. *)
From Stdlib Require Export Lia.
From stdpp Require Export base option numbers gmap strings list.

#[global] Set Default Goal Selector "!".

(** ** Outcomes of Rust computations

    A fallible Rust function of type [Result<A, E>] is modelled by a function
    into [comp E A].  [Panic] is a slice or index out of range, an [expect] on
    [None] or any other unwinding; [Loop] is the exhaustion of the fuel of a
    [while] loop.  Both are ordinary values, so that "never panics" and
    "terminates" are theorems about the definitions. *)

Inductive comp (E A : Type) : Type :=
| Ok (a : A)
| Err (e : E)
| Panic
| Loop.
Arguments Ok {E A} a.
Arguments Err {E A} e.
Arguments Panic {E A}.
Arguments Loop {E A}.

Declare Scope comp_scope.
Delimit Scope comp_scope with comp.

Definition comp_bind {E A B} (c : comp E A) (k : A -> comp E B) : comp E B :=
  match c with
  | Ok a => k a
  | Err e => Err e
  | Panic => Panic
  | Loop => Loop
  end.

Definition comp_map_err {E F A} (f : E -> F) (c : comp E A) : comp F A :=
  match c with
  | Ok a => Ok a
  | Err e => Err (f e)
  | Panic => Panic
  | Loop => Loop
  end.

(** The [?] operator of Rust. *)
Notation "'let?' x := c 'in' k" := (comp_bind c (fun x => k))
  (at level 200, x name, c at level 100, k at level 200, right associativity)
  : comp_scope.
Notation "'let?' ' p := c 'in' k" := (comp_bind c (fun x => match x with p => k end))
  (at level 200, p pattern, c at level 100, k at level 200, right associativity)
  : comp_scope.

Open Scope comp_scope.

Definition is_ok {E A} (c : comp E A) : bool :=
  match c with Ok _ => true | _ => false end.

(** A computation that ran to a Rust value: an [Ok] or an [Err]. *)
Definition returns {E A} (c : comp E A) : Prop :=
  match c with Ok _ | Err _ => True | Panic | Loop => False end.

Lemma returns_bind {E A B} (c : comp E A) (k : A -> comp E B) :
  returns c -> (forall a, c = Ok a -> returns (k a)) -> returns (comp_bind c k).
Proof. destruct c; simpl; auto. Qed.

Lemma comp_bind_Ok {E A B} (c : comp E A) (k : A -> comp E B) (b : B) :
  comp_bind c k = Ok b -> exists a, c = Ok a /\ k a = Ok b.
Proof. destruct c; simpl; intros; try discriminate; eauto. Qed.

(** ** Rust slices

    [&l[n..]] and [&l[a..b]] panic when the bounds are not in order or run past
    the end. *)

Definition slice_from {E A} (n : nat) (l : list A) : comp E (list A) :=
  if decide (n <= length l) then Ok (drop n l) else Panic.

Definition slice {E A} (a b : nat) (l : list A) : comp E (list A) :=
  if decide (a <= b /\ b <= length l) then Ok (take (b - a) (drop a l)) else Panic.

(** [l[i]] *)
Definition index {E A} (l : list A) (i : nat) : comp E A :=
  match l !! i with Some x => Ok x | None => Panic end.

(** [l.insert(i, x)] and [l.remove(i)] of [Vec]. *)
Definition vec_insert {E A} (i : nat) (x : A) (l : list A) : comp E (list A) :=
  if decide (i <= length l) then Ok (take i l ++ x :: drop i l) else Panic.

Definition vec_remove {E A} (i : nat) (l : list A) : comp E (list A) :=
  if decide (i < length l) then Ok (take i l ++ drop (S i) l) else Panic.

(** ** Automation *)

Create HintDb rust.

(** Split every [match] and [if] of the goal and the hypotheses, closing the
    absurd cases. *)
Ltac split_matches :=
  repeat (case_match; simplify_eq/=; try done).

(** Turn an equation [let? x := c in k = Ok b] into its two halves. *)
Ltac inv_comp H :=
  let a := fresh "a" in let Ha := fresh "Hc" in
  apply comp_bind_Ok in H as (a & Ha & H); simpl in H.

Ltac solve_len := rewrite ?length_app, ?length_take, ?length_drop, ?length_cons in *; simpl in *; lia.

(** ** Generic lemmas *)

Lemma slice_from_Ok {E A} n (l l' : list A) :
  @slice_from E A n l = Ok l' -> n <= length l /\ l' = drop n l.
Proof. unfold slice_from. case_decide; intros; simplify_eq; auto. Qed.

Lemma slice_from_returns {E A} n (l : list A) :
  n <= length l -> @slice_from E A n l = Ok (drop n l).
Proof. intros. unfold slice_from. by rewrite decide_True. Qed.

Lemma slice_returns {E A} a b (l : list A) :
  a <= b -> b <= length l -> @slice E A a b l = Ok (take (b - a) (drop a l)).
Proof. intros. unfold slice. by rewrite decide_True. Qed.

Lemma vec_insert_Ok {E A} i x (l : list A) :
  i <= length l -> @vec_insert E A i x l = Ok (take i l ++ x :: drop i l).
Proof. intros. unfold vec_insert. by rewrite decide_True. Qed.

Lemma vec_remove_Ok {E A} i (l : list A) :
  i < length l -> @vec_remove E A i l = Ok (take i l ++ drop (S i) l).
Proof. intros. unfold vec_remove. by rewrite decide_True. Qed.

#[export] Hint Resolve returns_bind : rust.

Lemma forallb_Forall {A} (f : A -> bool) l : forallb f l = true <-> Forall (fun x => f x = true) l.
Proof.
  induction l as [|x l IH]; simpl; [by split|].
  by rewrite andb_true_iff, Forall_cons, IH.
Qed.

Lemma elem_of_filterb {A} (f : A -> bool) l x : x ∈ List.filter f l <-> x ∈ l /\ f x = true.
Proof. rewrite !list_elem_of_In. apply filter_In. Qed.

Lemma existsb_elem {A} (f : A -> bool) l : existsb f l = true <-> exists x, x ∈ l /\ f x = true.
Proof. rewrite existsb_exists. by setoid_rewrite list_elem_of_In. Qed.

Lemma existsb_none {A} (f : A -> bool) l : existsb f l = false <-> forall x, x ∈ l -> f x = false.
Proof.
  rewrite <- not_true_iff_false, existsb_elem. split.
  - intros H x Hx. apply not_true_iff_false. intros Hf. apply H. by exists x.
  - intros H (x & Hx & Hf). by rewrite H in Hf.
Qed.

Lemma map_reverse {A B} (f : A -> B) l : map f (reverse l) = reverse (map f l).
Proof. apply (fmap_reverse f l). Qed.
