(* ===== verification/RustStr.v ===== *)
(** * Rust strings

    A Rust [String] or [&str] is a sequence of Unicode scalar values, modelled
    as the list of its code points.  The functions below are the methods of
    [str] that the modelled crates call; where a Rust method counts bytes,
    [utf8_len] gives the size of the UTF-8 encoding. *)
From Stdlib Require Import Ascii String DecimalString DecimalNat NArith.
From S2P Require Import Prelude.

Abbreviation char := N.
Abbreviation str := (list N).

(** String literals: [&"abc"]. *)
Fixpoint lit (s : string) : str :=
  match s with
  | EmptyString => []
  | String c s' => N_of_ascii c :: lit s'
  end.

Declare Scope str_scope.
Delimit Scope str_scope with str.
Notation "& s" := (lit s%string) (at level 1, s at level 0) : str_scope.
Open Scope str_scope.

Definition nl : char := 10%N.
Definition cr : char := 13%N.

(** [==] on strings *)
Definition str_eqb (a b : str) : bool := bool_decide (a = b).

(** [char::is_whitespace]: the Unicode property White_Space. *)
Definition is_whitespace (c : char) : bool :=
  ((9 <=? c) && (c <=? 13) || (c =? 32) || (c =? 133) || (c =? 160) ||
   (c =? 5760) || (8192 <=? c) && (c <=? 8202) || (c =? 8232) || (c =? 8233) ||
   (c =? 8239) || (c =? 8287) || (c =? 12288))%N.

(** [str::trim_start], [str::trim_end], [str::trim] *)
Fixpoint trim_start (s : str) : str :=
  match s with
  | c :: s' => if is_whitespace c then trim_start s' else s
  | [] => []
  end.

Definition trim_end (s : str) : str := reverse (trim_start (reverse s)).

Definition trim (s : str) : str := trim_end (trim_start s).

(** [str::strip_prefix], [str::starts_with] *)
Fixpoint strip_prefix (p s : str) : option str :=
  match p, s with
  | [], _ => Some s
  | c :: p', d :: s' => if (c =? d)%N then strip_prefix p' s' else None
  | _ :: _, [] => None
  end.

Definition starts_with (p s : str) : bool :=
  match strip_prefix p s with Some _ => true | None => false end.

(** [str::strip_suffix], [str::ends_with] *)
Definition strip_suffix (p s : str) : option str :=
  reverse <$> strip_prefix (reverse p) (reverse s).

Definition ends_with (p s : str) : bool :=
  match strip_suffix p s with Some _ => true | None => false end.

(** [str::split(c)] for a character [c]: always at least one piece. *)
Fixpoint split_char (c : char) (s : str) : list str :=
  match s with
  | [] => [[]]
  | d :: s' =>
      if (d =? c)%N then [] :: split_char c s'
      else match split_char c s' with
           | p :: ps => (d :: p) :: ps
           | [] => [[d]]
           end
  end.

(** [str::split_inclusive]-style segmentation at line feeds: the pieces before
    each line feed, and what follows the last one. *)
Fixpoint split_nl (s : str) : list str * str :=
  match s with
  | [] => ([], [])
  | d :: s' =>
      let '(ls, rest) := split_nl s' in
      if (d =? nl)%N then ([] :: ls, rest)
      else match ls with
           | l :: ls' => ((d :: l) :: ls', rest)
           | [] => ([], d :: rest)
           end
  end.

(** A carriage return just before the line feed is part of the line ending. *)
Definition strip_cr (l : str) : str := default l (strip_suffix [cr] l).

(** [str::lines]: the last piece counts only when it is not empty, and keeps a
    trailing carriage return. *)
Definition lines (s : str) : list str :=
  let '(ls, rest) := split_nl s in
  map strip_cr ls ++ (match rest with [] => [] | _ => [rest] end).

(** [[T]::join] *)
Fixpoint join (sep : str) (l : list str) : str :=
  match l with
  | [] => []
  | [x] => x
  | x :: l' => x ++ sep ++ join sep l'
  end.

(** [to_string] of an unsigned integer *)
Definition show_nat (n : nat) : str := lit (NilZero.string_of_uint (Nat.to_uint n)).

(** Size of the UTF-8 encoding, [char::len_utf8] and [str::len]. *)
Definition len_utf8 (c : char) : nat :=
  if (c <? 128)%N then 1 else if (c <? 2048)%N then 2 else if (c <? 65536)%N then 3 else 4.

Definition utf8_len (s : str) : nat := sum_list_with len_utf8 s.

(** [u8::to_ascii_lowercase] and the string methods built on it *)
Definition char_to_ascii_lowercase (c : char) : char :=
  if ((65 <=? c) && (c <=? 90))%N then (c + 32)%N else c.

Definition to_ascii_lowercase (s : str) : str := map char_to_ascii_lowercase s.

Definition eq_ignore_ascii_case (a b : str) : bool :=
  str_eqb (to_ascii_lowercase a) (to_ascii_lowercase b).

(** ** Lemmas *)

(** [trim_start_matches(c)] and [trim_end_matches(c)] for a character *)
Fixpoint trim_start_char (c : char) (s : str) : str :=
  match s with
  | d :: s' => if N.eqb d c then trim_start_char c s' else s
  | [] => []
  end.
Definition trim_end_char (c : char) (s : str) : str := reverse (trim_start_char c (reverse s)).

(** [split_once(c)] and [rsplit_once(c)] *)
Fixpoint split_once (c : char) (s : str) : option (str * str) :=
  match s with
  | [] => None
  | d :: s' =>
      if N.eqb d c then Some ([], s')
      else match split_once c s' with Some (a, b) => Some (d :: a, b) | None => None end
  end.
Fixpoint rsplit_once (c : char) (s : str) : option (str * str) :=
  match s with
  | [] => None
  | d :: s' =>
      match rsplit_once c s' with
      | Some (a, b) => Some (d :: a, b)
      | None => if N.eqb d c then Some ([], s') else None
      end
  end.

(** [contains] for a character and for a text; [matches(c).count()] *)
Definition contains_char (c : char) (s : str) : bool := existsb (N.eqb c) s.
Fixpoint contains_str (p s : str) : bool :=
  starts_with p s || match s with [] => false | _ :: s' => contains_str p s' end.
Definition count_char (c : char) (s : str) : nat := length (filter (fun d => N.eqb c d) s).

Definition is_ascii_digit (c : char) : bool := (48 <=? c)%N && (c <=? 57)%N.

Lemma str_eqb_eq a b : str_eqb a b = true <-> a = b.
Proof. apply bool_decide_eq_true. Qed.

Lemma str_eqb_refl a : str_eqb a a = true.
Proof. by apply str_eqb_eq. Qed.

Lemma str_eqb_neq a b : str_eqb a b = false <-> a <> b.
Proof. apply bool_decide_eq_false. Qed.

Lemma strip_prefix_Some p s r : strip_prefix p s = Some r <-> s = p ++ r.
Proof.
  revert s; induction p as [|c p IH]; intros s; simpl.
  { split; intros; simplify_eq; auto. }
  destruct s as [|d s]; [done|].
  destruct (N.eqb_spec c d) as [->|Hne].
  - rewrite IH. split; intros; simplify_eq; auto.
  - split; intros; simplify_eq.
Qed.

Lemma strip_prefix_app p r : strip_prefix p (p ++ r) = Some r.
Proof. by apply strip_prefix_Some. Qed.

Lemma starts_with_spec p s : starts_with p s = true <-> exists r, s = p ++ r.
Proof.
  unfold starts_with. destruct (strip_prefix p s) eqn:E.
  - apply strip_prefix_Some in E. naive_solver.
  - split; [done|]. intros [r ->]. by rewrite strip_prefix_app in E.
Qed.

Lemma strip_suffix_Some p s r : strip_suffix p s = Some r <-> s = r ++ p.
Proof.
  unfold strip_suffix. rewrite fmap_Some. split.
  - intros (x & Hx & ->). apply strip_prefix_Some in Hx.
    apply (f_equal reverse) in Hx. by rewrite reverse_app, !reverse_involutive in Hx.
  - intros ->. exists (reverse r). by rewrite reverse_app, strip_prefix_app, reverse_involutive.
Qed.

Lemma strip_suffix_app p r : strip_suffix p (r ++ p) = Some r.
Proof. by apply strip_suffix_Some. Qed.

(** Strings that no trimming changes at the left end. *)
Definition trimmed_l (s : str) : bool :=
  match s with c :: _ => negb (is_whitespace c) | [] => true end.
Definition trimmed_r (s : str) : bool := trimmed_l (reverse s).

Lemma trim_start_id s : trimmed_l s = true -> trim_start s = s.
Proof. destruct s as [|c s]; simpl; [done|]. by destruct (is_whitespace c). Qed.

Lemma trim_start_trimmed s : trimmed_l (trim_start s) = true.
Proof. induction s as [|c s IH]; simpl; [done|]. destruct (is_whitespace c) eqn:E; simpl; rewrite ?E; done. Qed.

Lemma trim_end_id s : trimmed_r s = true -> trim_end s = s.
Proof.
  unfold trimmed_r, trim_end. intros H. by rewrite trim_start_id, reverse_involutive.
Qed.

Lemma trim_end_trimmed s : trimmed_r (trim_end s) = true.
Proof. unfold trimmed_r, trim_end. rewrite reverse_involutive. apply trim_start_trimmed. Qed.

Lemma trim_start_idem s : trim_start (trim_start s) = trim_start s.
Proof. apply trim_start_id, trim_start_trimmed. Qed.

Lemma trim_end_idem s : trim_end (trim_end s) = trim_end s.
Proof. apply trim_end_id, trim_end_trimmed. Qed.

Lemma trim_id s : trimmed_l s = true -> trimmed_r s = true -> trim s = s.
Proof. intros. unfold trim. by rewrite trim_start_id, trim_end_id. Qed.

Lemma trim_start_suffix s : exists p, s = p ++ trim_start s /\ forallb is_whitespace p = true.
Proof.
  induction s as [|c s (p & Hp & Hw)]; simpl; [by exists []|].
  destruct (is_whitespace c) eqn:E.
  - exists (c :: p). simpl. rewrite E, Hw. split; [by f_equal|done].
  - by exists [].
Qed.

Lemma trim_end_prefix s : exists p, s = trim_end s ++ p.
Proof.
  unfold trim_end. destruct (trim_start_suffix (reverse s)) as (p & Hp & _).
  exists (reverse p). rewrite <- reverse_app, <- Hp. by rewrite reverse_involutive.
Qed.

(** Trimming stops at a character that is not white space. *)
Lemma trim_start_stop c l r :
  is_whitespace c = false -> trim_start (l ++ c :: r) = trim_start l ++ c :: r.
Proof.
  intros Hc. induction l as [|d l IH]; simpl; [by rewrite Hc|].
  by destruct (is_whitespace d).
Qed.

Lemma trim_end_stop c l r :
  is_whitespace c = false -> trim_end (l ++ c :: r) = l ++ c :: trim_end r.
Proof.
  intros Hc. unfold trim_end. rewrite reverse_app, reverse_cons, <- app_assoc. simpl.
  rewrite trim_start_stop by done.
  by rewrite reverse_app, reverse_cons, reverse_involutive, <- app_assoc.
Qed.

Lemma trim_end_cons c s : is_whitespace c = false -> trim_end (c :: s) = c :: trim_end s.
Proof. apply (trim_end_stop c []). Qed.

Lemma trim_start_ws p s : forallb is_whitespace p = true -> trim_start (p ++ s) = trim_start s.
Proof. induction p as [|c p IH]; simpl; [done|]. intros [-> ?]%andb_prop. auto. Qed.

Lemma trim_end_ws s : forallb is_whitespace s = true -> trim_end s = [].
Proof.
  intros Hs. unfold trim_end. rewrite <- (app_nil_r (reverse s)), trim_start_ws; [done|].
  rewrite <- Hs. apply eq_true_iff_eq. rewrite !forallb_forall.
  setoid_rewrite <- list_elem_of_In. by setoid_rewrite elem_of_reverse.
Qed.

Lemma trim_start_end_comm s : trim_start (trim_end s) = trim_end (trim_start s).
Proof.
  destruct (trim_start_suffix s) as (p & Hs & Hp).
  pose proof (trim_start_trimmed s) as Ht.
  destruct (trim_start s) as [|x r]; simpl in Ht.
  - rewrite app_nil_r in Hs. subst. by rewrite trim_end_ws.
  - apply negb_true_iff in Ht. rewrite Hs, trim_end_stop, trim_start_ws by done.
    simpl. by rewrite Ht, trim_end_cons.
Qed.

(** What trimming keeps of a text stays in front when text is appended. *)
Lemma trim_start_app s r : trim_start s <> [] -> trim_start (s ++ r) = trim_start s ++ r.
Proof.
  intros Hne. destruct (trim_start_suffix s) as (p & Hs & Hp). pose proof (trim_start_trimmed s) as Ht.
  destruct (trim_start s) as [|c t]; [done|]. simpl in Ht. apply negb_true_iff in Ht.
  rewrite Hs, <- (assoc_L (++)), trim_start_ws by done. simpl. by rewrite Ht.
Qed.

Lemma trim_end_app_prefix s r : trim_end s `prefix_of` trim_end (s ++ r).
Proof.
  destruct (trim_end_prefix s) as [w Hw]. pose proof (trim_end_trimmed s) as Ht.
  destruct (trim_end s) as [|c t _] using rev_ind; [apply prefix_nil|].
  unfold trimmed_r in Ht. rewrite reverse_snoc in Ht. simpl in Ht. apply negb_true_iff in Ht.
  rewrite Hw, <- !(assoc_L (++)). simpl. rewrite trim_end_stop by done.
  exists (trim_end (w ++ r)). by rewrite <- (assoc_L (++)).
Qed.

Lemma trim_as_trim_end s : trim s = trim_start (trim_end s).
Proof. unfold trim. by rewrite trim_start_end_comm. Qed.

Lemma trim_snoc_ws s c : is_whitespace c = true -> trim (s ++ [c]) = trim s.
Proof.
  intros Hc. rewrite !trim_as_trim_end. f_equal. unfold trim_end. rewrite reverse_snoc. simpl. by rewrite Hc.
Qed.

#[export] Hint Resolve str_eqb_refl strip_prefix_app trim_start_trimmed trim_end_trimmed : rust.

(** Literals and tests against them are evaluated only on demand. *)
#[global] Arguments strip_prefix : simpl never.
#[global] Arguments lit : simpl never.

(** ** Lines *)

Lemma split_nl_line x s :
  nl ∉ x -> split_nl (x ++ nl :: s) = (x :: (split_nl s).1, (split_nl s).2).
Proof.
  induction x as [|d x IH]; intros Hx; simpl.
  - by destruct (split_nl s).
  - apply not_elem_of_cons in Hx as [Hd Hx]. rewrite IH by done.
    by destruct (N.eqb_spec d nl).
Qed.

Lemma split_nl_last x : nl ∉ x -> split_nl x = ([], x).
Proof.
  induction x as [|d x IH]; intros Hx; simpl; [done|].
  apply not_elem_of_cons in Hx as [Hd Hx]. rewrite IH by done.
  by destruct (N.eqb_spec d nl).
Qed.

Lemma split_nl_free s : Forall (fun l => nl ∉ l) (split_nl s).1 /\ nl ∉ (split_nl s).2.
Proof.
  induction s as [|d s [IH1 IH2]]; simpl; [split; [done|apply not_elem_of_nil]|].
  destruct (split_nl s) as [ls r]; simpl in *. destruct (N.eqb_spec d nl) as [->|Hd]; simpl.
  { split; [|done]. constructor; [apply not_elem_of_nil|done]. }
  destruct ls as [|l ls]; simpl.
  - split; [done|]. by apply not_elem_of_cons.
  - apply Forall_cons in IH1 as [Hl IH1]. split; [|done].
    constructor; [by apply not_elem_of_cons|done].
Qed.

Lemma strip_cr_incl c l : c ∈ strip_cr l -> c ∈ l.
Proof.
  unfold strip_cr. destruct (strip_suffix [cr] l) eqn:E; simpl; [|done].
  apply strip_suffix_Some in E. subst. set_solver.
Qed.

(** No line of a text contains a line feed. *)
Lemma lines_free s : Forall (fun l => nl ∉ l) (lines s).
Proof.
  unfold lines. destruct (split_nl s) as [ls r] eqn:E.
  pose proof (split_nl_free s) as [H1 H2]. rewrite E in H1, H2. simpl in *.
  apply Forall_app. split.
  - apply Forall_map. eapply Forall_impl; [exact H1|]. simpl. intros l Hl Hc.
    apply Hl. by apply strip_cr_incl.
  - destruct r; by constructor.
Qed.

(** A line that survives [lines] when a line feed follows it. *)
Definition line_ok (l : str) : bool := bool_decide (nl ∉ l) && negb (ends_with [cr] l).

Lemma line_ok_strip l : line_ok l = true -> strip_cr l = l /\ nl ∉ l.
Proof.
  unfold line_ok, ends_with, strip_cr. intros [H1%bool_decide_eq_true H2]%andb_prop.
  by destruct (strip_suffix [cr] l).
Qed.

Lemma split_nl_join ls e :
  Forall (fun l => nl ∉ l) ls -> nl ∉ e -> split_nl (join [nl] (ls ++ [e])) = (ls, e).
Proof.
  intros Hls He. induction Hls as [|l ls Hl Hls IH]; simpl; [by apply split_nl_last|].
  destruct (ls ++ [e]) eqn:E; [by destruct ls|]. rewrite <- E in *.
  change (l ++ nl :: join [nl] (ls ++ [e])) with (l ++ [nl] ++ join [nl] (ls ++ [e])) in *.
  simpl. rewrite split_nl_line by done. by rewrite IH.
Qed.

(** Joining lines with line feeds and splitting the text again gives the lines back. *)
Lemma lines_join ls e :
  Forall (fun l => line_ok l = true) ls -> nl ∉ e -> e <> [] ->
  lines (join [nl] (ls ++ [e])) = ls ++ [e].
Proof.
  intros Hls He Hne. unfold lines. rewrite split_nl_join; [|by eapply Forall_impl; [exact Hls|]; intros l Hl; apply line_ok_strip|done].
  destruct e as [|c e]; [done|]. f_equal.
  induction Hls as [|l ls Hl _ IH]; simpl; [done|]. f_equal; [by apply line_ok_strip|done].
Qed.

Lemma trim_start_incl c s : c ∈ trim_start s -> c ∈ s.
Proof. destruct (trim_start_suffix s) as (p & Hp & _). rewrite Hp at 2. set_solver. Qed.

Lemma trim_end_incl c s : c ∈ trim_end s -> c ∈ s.
Proof. destruct (trim_end_prefix s) as (p & Hp). rewrite Hp at 2. set_solver. Qed.

Lemma trim_incl c s : c ∈ trim s -> c ∈ s.
Proof. unfold trim. intros H. apply trim_start_incl. by apply trim_end_incl. Qed.

Lemma strip_prefix_incl c p s r : strip_prefix p s = Some r -> c ∈ r -> c ∈ s.
Proof. intros ->%strip_prefix_Some. set_solver. Qed.

#[export] Hint Resolve trim_incl trim_start_incl trim_end_incl strip_prefix_incl : rust.

Lemma split_nl_concat s :
  s = concat (map (fun l => l ++ [nl]) (split_nl s).1) ++ (split_nl s).2.
Proof.
  induction s as [|d s IH]; simpl; [done|].
  destruct (split_nl s) as [ls r]; simpl in *. rewrite IH at 1.
  destruct (N.eqb_spec d nl) as [->|]; simpl; [done|]. by destruct ls.
Qed.

(** ** Searching and splitting at a character *)

Lemma contains_char_elem c s : contains_char c s = true <-> c ∈ s.
Proof.
  unfold contains_char. rewrite existsb_exists, list_elem_of_In. split.
  - intros (x & Hx & ->%N.eqb_eq). done.
  - intros Hx. exists c. by rewrite N.eqb_refl.
Qed.

Lemma rsplit_once_spec c s a b : rsplit_once c s = Some (a, b) -> s = a ++ c :: b /\ c ∉ b.
Proof.
  revert a. induction s as [|d s IH]; intros a; simpl; [done|].
  destruct (rsplit_once c s) as [[a' b']|] eqn:E.
  - intros [= <- <-]. destruct (IH a' eq_refl) as [-> ?]. done.
  - destruct (N.eqb_spec d c) as [->|]; [|done]. intros [= <- <-]. split; [done|].
    intros Hin. clear IH. induction s as [|x s IH]; [by apply not_elem_of_nil in Hin|]. simpl in E.
    destruct (rsplit_once c s) as [[]|]; [done|]. destruct (N.eqb_spec x c); [done|].
    apply elem_of_cons in Hin as [?|?]; [congruence|by apply IH].
Qed.

Lemma split_once_spec c s a b : split_once c s = Some (a, b) -> s = a ++ c :: b /\ c ∉ a.
Proof.
  revert a. induction s as [|d s IH]; intros a; simpl; [done|].
  destruct (N.eqb_spec d c) as [->|Hd].
  - intros [= <- <-]. split; [done|apply not_elem_of_nil].
  - destruct (split_once c s) as [[a' b']|] eqn:E; [|done]. intros [= <- <-].
    destruct (IH a' eq_refl) as [-> ?]. split; [done|]. by apply not_elem_of_cons.
Qed.

Lemma trim_start_char_suffix c s : exists p, s = p ++ trim_start_char c s.
Proof.
  induction s as [|d s [p IH]]; simpl; [by exists []|]. destruct (N.eqb_spec d c).
  - exists (d :: p). by rewrite IH at 1.
  - by exists [].
Qed.

Lemma trim_end_char_prefix c s : exists p, s = trim_end_char c s ++ p.
Proof.
  unfold trim_end_char. destruct (trim_start_char_suffix c (reverse s)) as [p Hp].
  exists (reverse p). by rewrite <- reverse_app, <- Hp, reverse_involutive.
Qed.
