(* ===== verification/SeekSequence.v ===== *)
(** * apply-patch/src/seek_sequence.rs: fuzzy search for a block of lines

    [seek_sequence] looks for [pattern] among [lines] with four decreasing
    levels of strictness.  Indexing is checked, so that the theorem
    [seek_sequence_total] is a proof that no slice is out of range. *)
From S2P Require Import Prelude RustStr.

(** ** Definitions *)

(** [for i in lo..lo+n { if p(i) { return Some(i) } }] *)
Fixpoint find_from {E} (p : nat -> comp E bool) (i n : nat) : comp E (option nat) :=
  match n with
  | 0 => Ok None
  | S n' => let? b := p i in if b : bool then Ok (Some i) else find_from p (S i) n'
  end.

(** [for i in lo..=hi] *)
Definition find_in_range {E} (p : nat -> comp E bool) (lo hi : nat) : comp E (option nat) :=
  find_from p lo (S hi - lo).

(** The inner loop of the lenient passes: [lines[i + p_idx]] against the
    pattern, stopping at the first difference of the images under [f]. *)
Fixpoint lines_agree {E} (f : str -> str) (lines : list str) (i : nat) (pattern : list str)
  : comp E bool :=
  match pattern with
  | [] => Ok true
  | pat :: pattern' =>
      let? line := index lines i in
      if str_eqb (f line) (f pat) then lines_agree f lines (S i) pattern' else Ok false
  end.

(** The first pass compares slices. *)
Definition exact_at {E} (lines pattern : list str) (i : nat) : comp E bool :=
  let? window := slice i (i + length pattern) lines in
  Ok (bool_decide (window = pattern)).

Definition normalise_char (c : char) : char :=
  if decide (c ∈ [0x2010; 0x2011; 0x2012; 0x2013; 0x2014; 0x2015; 0x2212])%N then 45%N
  else if decide (c ∈ [0x2018; 0x2019; 0x201A; 0x201B])%N then 39%N
  else if decide (c ∈ [0x201C; 0x201D; 0x201E; 0x201F])%N then 34%N
  else if decide (c ∈ [0x00A0; 0x2002; 0x2003; 0x2004; 0x2005; 0x2006; 0x2007; 0x2008;
                       0x2009; 0x200A; 0x202F; 0x205F; 0x3000])%N then 32%N
  else c.

Definition normalise (s : str) : str := map normalise_char (trim s).

Definition search_start (lines pattern : list str) (start : nat) (eof : bool) : nat :=
  if eof && bool_decide (length pattern <= length lines)
  then length lines - length pattern else start.

Definition seek_sequence {E} (lines pattern : list str) (start : nat) (eof : bool)
  : comp E (option nat) :=
  match pattern with
  | [] => Ok (Some start)
  | _ =>
    if bool_decide (length lines < length pattern) then Ok None else
    let lo := search_start lines pattern start eof in
    let hi := length lines - length pattern in
    let? r := find_in_range (exact_at lines pattern) lo hi in
    match r with Some i => Ok (Some i) | None =>
    let? r := find_in_range (fun i => lines_agree trim_end lines i pattern) lo hi in
    match r with Some i => Ok (Some i) | None =>
    let? r := find_in_range (fun i => lines_agree trim lines i pattern) lo hi in
    match r with Some i => Ok (Some i) | None =>
    find_in_range (fun i => lines_agree normalise lines i pattern) lo hi
    end end end
  end.

(** ** Specification *)

(** The window of [lines] at [i] and the pattern have the same image under [f]. *)
Definition matches_at (f : str -> str) (lines pattern : list str) (i : nat) : Prop :=
  i + length pattern <= length lines /\
  map f (take (length pattern) (drop i lines)) = map f pattern.

(** [i] is the least index of [lo..] where the level [f] matches. *)
Definition least_match (f : str -> str) (lines pattern : list str) (lo i : nat) : Prop :=
  lo <= i /\ matches_at f lines pattern i /\
  forall j, lo <= j -> j < i -> ~ matches_at f lines pattern j.

Definition no_match (f : str -> str) (lines pattern : list str) (lo : nat) : Prop :=
  forall j, lo <= j -> ~ matches_at f lines pattern j.

(** The levels in the order they are tried: the result is the least match of
    the first level that matches anywhere. *)
Definition levels : list (str -> str) := [id; trim_end; trim; normalise].

Fixpoint first_level (ls : list (str -> str)) (lines pattern : list str) (lo : nat)
    (r : option nat) : Prop :=
  match ls with
  | [] => r = None
  | f :: ls' =>
      (exists i, r = Some i /\ least_match f lines pattern lo i) \/
      (no_match f lines pattern lo /\ first_level ls' lines pattern lo r)
  end.

(** ** Lemmas *)

Lemma find_from_spec {E} (p : nat -> comp E bool) (q : nat -> bool) i n :
  (forall j, i <= j < i + n -> p j = Ok (q j)) ->
  (find_from p i n = Ok None /\ forall j, i <= j < i + n -> q j = false) \/
  (exists k, find_from p i n = Ok (Some k) /\ i <= k < i + n /\ q k = true /\
     forall j, i <= j < k -> q j = false).
Proof.
  revert i; induction n as [|n IH]; intros i Hp; simpl; [left; split; [done|intros; lia]|].
  rewrite (Hp i) by lia; simpl. destruct (q i) eqn:Hq.
  - right. exists i. split_and!; [done|lia|lia|done|]. intros; lia.
  - destruct (IH (S i)) as [[-> Hn]|(k & -> & Hk & Hqk & Hn)]; [intros; apply Hp; lia|..].
    + left. split; [done|]. intros j Hj. destruct (decide (j = i)) as [->|]; [done|apply Hn; lia].
    + right. exists k. split_and!; [done|lia|lia|done|].
      intros j Hj. destruct (decide (j = i)) as [->|]; [done|apply Hn; lia].
Qed.

Lemma lines_agree_spec {E} f lines i pattern :
  i + length pattern <= length lines ->
  @lines_agree E f lines i pattern =
    Ok (bool_decide (map f (take (length pattern) (drop i lines)) = map f pattern)).
Proof.
  revert i; induction pattern as [|pat ps IH]; intros i Hi; simpl in *; [done|].
  unfold index. destruct (lines !! i) as [l|] eqn:Hl.
  2: { apply lookup_ge_None in Hl. lia. }
  simpl. rewrite (drop_S _ _ _ Hl). simpl.
  destruct (str_eqb (f l) (f pat)) eqn:Ef.
  - apply str_eqb_eq in Ef. rewrite IH by lia. f_equal. apply bool_decide_ext.
    rewrite Ef. split; [by intros ->|by intros [=]].
  - apply str_eqb_neq in Ef. symmetry. f_equal. apply bool_decide_eq_false_2. by intros [=].
Qed.

Lemma exact_at_spec {E} lines pattern i :
  i + length pattern <= length lines ->
  @exact_at E lines pattern i =
    Ok (bool_decide (map id (take (length pattern) (drop i lines)) = map id pattern)).
Proof.
  intros Hi. unfold exact_at. rewrite slice_returns by lia. simpl.
  rewrite !list_fmap_id. by replace (i + length pattern - i) with (length pattern) by lia.
Qed.

(** One pass: it stops at the least match of its level, or hands over to the
    passes after it. *)
Lemma pass_spec {E} f p ls lines pattern lo (k : comp E (option nat)) :
  length pattern <= length lines ->
  (forall i, i + length pattern <= length lines ->
     p i = Ok (bool_decide (map f (take (length pattern) (drop i lines)) = map f pattern))) ->
  (exists r, k = Ok r /\ first_level ls lines pattern lo r) ->
  exists r,
    (let? r := find_in_range p lo (length lines - length pattern) in
     match r with Some i => Ok (Some i) | None => k end) = Ok r /\
    first_level (f :: ls) lines pattern lo r.
Proof.
  intros Hlen Hp (r & -> & Hr). unfold find_in_range.
  destruct (find_from_spec p
    (fun i => bool_decide (map f (take (length pattern) (drop i lines)) = map f pattern))
    lo (S (length lines - length pattern) - lo)) as [[-> Hn]|(i & -> & Hi & Hq & Hn)].
  { intros j Hj. apply Hp. lia. }
  - exists r. split; [done|]. right. split; [|done]. intros j Hj [Hb Hm].
    specialize (Hn j). rewrite bool_decide_eq_false in Hn. apply Hn; [lia|done].
  - exists (Some i). split; [done|]. left. exists i. split; [done|].
    apply bool_decide_eq_true in Hq. split_and!; [lia|split; [lia|done]|].
    intros j Hj Hji [Hb Hm].
    specialize (Hn j). rewrite bool_decide_eq_false in Hn. apply Hn; [lia|done].
Qed.

Lemma find_in_range_last {E} (p : nat -> comp E bool) lo hi :
  find_in_range p lo hi =
  (let? r := find_in_range p lo hi in match r with Some i => Ok (Some i) | None => Ok None end).
Proof. by destruct (find_in_range p lo hi) as [[]| | |]. Qed.

(** The four passes together. *)
Lemma seek_sequence_first_level {E} lines pattern start eof :
  pattern <> [] -> length pattern <= length lines ->
  exists r, @seek_sequence E lines pattern start eof = Ok r /\
    first_level levels lines pattern (search_start lines pattern start eof) r.
Proof.
  intros Hne Hlen. unfold seek_sequence. destruct pattern as [|p0 ps] eqn:Ep; [done|].
  rewrite <- Ep in *. clear Ep Hne. rewrite bool_decide_eq_false_2 by lia.
  rewrite (find_in_range_last (fun i => lines_agree normalise lines i pattern)).
  unfold levels.
  apply pass_spec; [done|intros; by apply exact_at_spec|].
  do 3 (apply pass_spec; [done|intros; by apply lines_agree_spec|]).
  by exists None.
Qed.

(** The specification determines the result. *)
Lemma least_match_unique f lines pattern lo i j :
  least_match f lines pattern lo i -> least_match f lines pattern lo j -> i = j.
Proof.
  intros (Hi & Mi & Li) (Hj & Mj & Lj).
  destruct (decide (i < j)) as [H|]; [by destruct (Lj i)|].
  destruct (decide (j < i)) as [H|]; [by destruct (Li j)|lia].
Qed.

Lemma first_level_unique ls lines pattern lo r r' :
  first_level ls lines pattern lo r -> first_level ls lines pattern lo r' -> r = r'.
Proof.
  induction ls as [|f ls IH]; simpl; [naive_solver|].
  intros [(i & -> & Hi)|[Hn Hr]] [(j & -> & Hj)|[Hn' Hr']].
  - by rewrite (least_match_unique _ _ _ _ _ _ Hi Hj).
  - destruct Hi as (H & Hm & _). by destruct (Hn' i).
  - destruct Hj as (H & Hm & _). by destruct (Hn j).
  - auto.
Qed.

(** Each level is coarser than the one before it. *)
Lemma matches_at_coarser (f g : str -> str) lines pattern i :
  (forall a b, f a = f b -> g a = g b) ->
  matches_at f lines pattern i -> matches_at g lines pattern i.
Proof.
  intros Hfg [Hb Hm]. split; [done|].
  revert Hm. generalize (take (length pattern) (drop i lines)). intros w.
  revert pattern Hb; induction w as [|x w IH]; intros [|y p] Hb Hm; simplify_eq/=; [done|].
  f_equal; [by apply Hfg|]. apply IH; [lia|done].
Qed.

Lemma level_implies_normalise g lines pattern i :
  g ∈ levels -> matches_at g lines pattern i -> matches_at normalise lines pattern i.
Proof.
  unfold levels. intros Hg. apply matches_at_coarser. intros a b Hab. unfold normalise.
  rewrite !elem_of_cons in Hg. destruct Hg as [-> |[-> |[-> |[-> |Hg]]]].
  - unfold id in Hab. by subst.
  - by rewrite !trim_as_trim_end, Hab.
  - by rewrite Hab.
  - done.
  - by apply elem_of_nil in Hg.
Qed.

Lemma seek_sequence_first_level_iff {E} lines pattern start eof r :
  pattern <> [] -> length pattern <= length lines ->
  @seek_sequence E lines pattern start eof = Ok r <->
  first_level levels lines pattern (search_start lines pattern start eof) r.
Proof.
  intros Hne Hfit.
  destruct (@seek_sequence_first_level E lines pattern start eof Hne Hfit) as (r' & -> & Hl).
  split; intros H; [by simplify_eq|]. f_equal. by eapply first_level_unique.
Qed.

Lemma first_level_Some ls lines pattern lo i :
  first_level ls lines pattern lo (Some i) ->
  exists f, f ∈ ls /\ least_match f lines pattern lo i.
Proof.
  induction ls as [|f ls IH]; simpl; [done|].
  intros [(j & [= ->] & Hj)|[_ Hr]].
  - exists f. split; [apply list_elem_of_here|done].
  - destruct (IH Hr) as (g & Hg & Hi). exists g. split; [by apply list_elem_of_further|done].
Qed.

Lemma first_level_None ls lines pattern lo :
  first_level ls lines pattern lo None -> forall f, f ∈ ls -> no_match f lines pattern lo.
Proof.
  induction ls as [|f ls IH]; simpl; intros H g Hg; [by apply elem_of_nil in Hg|].
  destruct H as [(j & ? & _)|[Hn Hr]]; [done|].
  apply elem_of_cons in Hg as [->|Hg]; [done|]. by apply IH.
Qed.

(** [seek_sequence] never indexes out of range. *)
Lemma seek_sequence_ok {E} lines pattern start eof :
  exists r, @seek_sequence E lines pattern start eof = Ok r.
Proof.
  destruct pattern as [|p ps] eqn:Ep; [by eexists|]. rewrite <- Ep.
  destruct (decide (length lines < length pattern)) as [Hlt|Hge].
  - exists None. unfold seek_sequence. rewrite Ep, bool_decide_eq_true_2; [done|by rewrite <- Ep].
  - destruct (@seek_sequence_first_level E lines pattern start eof) as (r & Hr & _); subst; try done; eauto. lia.
Qed.

(** Where a found index lies. *)
Lemma seek_sequence_bound {E} lines pattern start eof i :
  @seek_sequence E lines pattern start eof = Ok (Some i) ->
  (pattern = [] /\ i = start) \/ (pattern <> [] /\ i + length pattern <= length lines).
Proof.
  intros H. destruct (decide (pattern = [])) as [->|Hne]; [simplify_eq/=; auto|right].
  split; [done|]. destruct (decide (length lines < length pattern)) as [Hlt|Hge].
  - unfold seek_sequence in H. rewrite bool_decide_eq_true_2 in H by done. by destruct pattern.
  - destruct (@seek_sequence_first_level E lines pattern start eof) as (r & Hr & Hl);
      [done|lia|]. rewrite H in Hr. simplify_eq.
    apply first_level_Some in Hl as (f & _ & _ & [Hb _] & _). done.
Qed.

(** ** Properties *)

(** At the end of a file only the last window counts. *)
Lemma last_window_level lines pattern ls r :
  length pattern <= length lines ->
  first_level ls lines pattern (length lines - length pattern) r <->
  (r = Some (length lines - length pattern) /\ exists f, f ∈ ls /\ matches_at f lines pattern (length lines - length pattern)) \/
  (r = None /\ forall f, f ∈ ls -> ~ matches_at f lines pattern (length lines - length pattern)).
Proof.
  intros Hfit. set (last := length lines - length pattern).
  assert (forall f i, matches_at f lines pattern i -> last <= i -> i = last) as Hlast by (intros f i [Hb _]; lia).
  assert (forall f, no_match f lines pattern last <-> ~ matches_at f lines pattern last) as Hno.
  { intros f. split; [intros H; by apply H|]. intros H k Hk Hm. by rewrite (Hlast f k Hm Hk) in Hm. }
  assert (forall f i, least_match f lines pattern last i <-> i = last /\ matches_at f lines pattern last) as Hleast.
  { intros f k. split.
    - intros (Hk & Hm & _). pose proof (Hlast f k Hm Hk). by subst.
    - intros [-> Hm]. split_and!; [done|done|lia]. }
  induction ls as [|f ls IH]; cbn [first_level].
  { split; [intros ->; right; split; [done|]; by intros f ?%elem_of_nil|]. by intros [(_ & f & ?%elem_of_nil & _)|[-> _]]. }
  rewrite Hno, IH. setoid_rewrite Hleast. setoid_rewrite elem_of_cons. split.
  - intros [(k & -> & -> & Hm)|[Hn [[-> (g & Hg & Hm)]|[-> Hall]]]]; [left; eauto|left; eauto|right]. split; [done|].
    intros g [->|Hg]; eauto.
  - intros [[-> (g & [->|Hg] & Hm)]|[-> Hall]].
    + left. eauto.
    + destruct (decide (map f (take (length pattern) (drop last lines)) = map f pattern)) as [He|He].
      * left. exists last. split; [done|]. split; [done|]. split; [|done]. destruct Hm as [Hb _]. done.
      * right. split; [by intros [_ ?]|left; eauto].
    + right. split; [by apply Hall; left|right]. split; [done|]. intros g Hg. apply Hall. by right.
Qed.

(** C38: [seek_sequence] returns on every input, with no index out of range.  An empty pattern
    is found at the start and one that is longer than the text nowhere.  Any other is found
    at the least match, at or after the start, of the first level of strictness (equal, equal
    up to trailing white space, up to surrounding white space, up to typographic
    punctuation) that matches anywhere there; at the end of a file it is found at the last
    window if that matches at any level, and nowhere otherwise: the start is not tried. *)
Theorem seek_sequence_refines {E} (lines pattern : list str) (start : nat) :
  (forall eof, pattern = [] -> @seek_sequence E lines pattern start eof = Ok (Some start)) /\
  (forall eof, pattern <> [] -> length lines < length pattern -> @seek_sequence E lines pattern start eof = Ok None) /\
  (pattern <> [] -> length pattern <= length lines ->
     (forall r, @seek_sequence E lines pattern start false = Ok r <-> first_level levels lines pattern start r) /\
     (forall r, @seek_sequence E lines pattern start true = Ok r <->
        let last := length lines - length pattern in
        (r = Some last /\ exists f, f ∈ levels /\ matches_at f lines pattern last) \/
        (r = None /\ forall f, f ∈ levels -> ~ matches_at f lines pattern last))).
Proof.
  split_and!.
  - by intros eof ->.
  - intros eof Hne Hlt. unfold seek_sequence. rewrite bool_decide_eq_true_2 by done. by destruct pattern.
  - intros Hne Hfit. split; intros r; rewrite seek_sequence_first_level_iff by done; [done|].
    unfold search_start. rewrite bool_decide_eq_true_2 by done. by apply last_window_level.
Qed.

Lemma seek_sequence_refines_witness :
  @seek_sequence Empty_set [&"a"; &"foo  "; &"bar"] [&"foo"; &"bar"] 0 false = Ok (Some 1) /\
  first_level levels [&"a"; &"foo  "; &"bar"] [&"foo"; &"bar"]
    (search_start [&"a"; &"foo  "; &"bar"] [&"foo"; &"bar"] 0 false) (Some 1).
Proof.
  split; [vm_compute; reflexivity|].
  apply (@seek_sequence_refines Empty_set); [discriminate|simpl; lia|vm_compute; reflexivity].
Defined.

(** [seek_sequence] gives up exactly when no window at or after the start of
    the search agrees with the pattern even after normalisation (or the pattern
    is longer than the file): the earlier, stricter passes lose nothing. *)
Theorem seek_sequence_None_iff {E} lines pattern start eof (Hne : pattern <> []) :
  @seek_sequence E lines pattern start eof = Ok None <->
  no_match normalise lines pattern (search_start lines pattern start eof).
Proof.
  destruct (decide (length pattern <= length lines)) as [Hfit|Hlong].
  - rewrite seek_sequence_first_level_iff by done. split.
    + intros H. apply (first_level_None _ _ _ _ H). unfold levels. set_solver.
    + intros Hn. assert (forall g, g ∈ levels -> no_match g lines pattern
        (search_start lines pattern start eof)) as Hall.
      { intros g Hg j Hj Hm. eapply Hn; [done|]. by eapply level_implies_normalise. }
      revert Hall. generalize levels. induction l as [|f ls IH]; intros Hall; simpl; [done|].
      right. split; [apply Hall, list_elem_of_here|]. apply IH. intros g Hg. by apply Hall, list_elem_of_further.
  - split.
    + intros _ j Hj [Hb _]. lia.
    + intros _. unfold seek_sequence. destruct pattern; [done|].
      rewrite bool_decide_eq_true_2; [done|simpl in *; lia].
Qed.

Lemma seek_sequence_None_iff_witness :
  no_match normalise [&"a"] [&"b"] (search_start [&"a"] [&"b"] 0 false).
Proof. apply (@seek_sequence_None_iff Empty_set); [discriminate|vm_compute; reflexivity]. Defined.

(** With the end-of-file flag the search looks at the last window only: the
    result does not depend on [start], and a found index is the last possible
    one, even when it lies before [start]. *)
Theorem seek_sequence_eof {E} lines pattern start start' (Hne : pattern <> []) :
  @seek_sequence E lines pattern start true = @seek_sequence E lines pattern start' true /\
  forall i, @seek_sequence E lines pattern start true = Ok (Some i) ->
    i = length lines - length pattern.
Proof.
  destruct (decide (length pattern <= length lines)) as [Hfit|Hlong].
  - assert (forall s, search_start lines pattern s true = length lines - length pattern) as Hs.
    { intros s. unfold search_start. by rewrite bool_decide_eq_true_2 by done. }
    split.
    + unfold seek_sequence. rewrite (Hs start), (Hs start'). by destruct pattern.
    + intros i Hi. apply seek_sequence_first_level_iff in Hi; [|done..].
      apply first_level_Some in Hi as (f & _ & Hlo & [Hb _] & _). rewrite Hs in Hlo. lia.
  - unfold seek_sequence. destruct pattern; [done|].
    rewrite bool_decide_eq_true_2 by (simpl in *; lia). split; [done|]. intros; simplify_eq.
Qed.

Lemma seek_sequence_eof_witness :
  @seek_sequence Empty_set [&"a"; &"b"] [&"b"] 5 true = Ok (Some 1) /\
  @seek_sequence Empty_set [&"a"; &"b"] [&"b"] 5 true =
  @seek_sequence Empty_set [&"a"; &"b"] [&"b"] 0 true.
Proof.
  split; [vm_compute; reflexivity|].
  apply (@seek_sequence_eof Empty_set [&"a"; &"b"] [&"b"] 5 0). discriminate.
Defined.

(** The documentation says that a search at the end of the file falls back to the start. *)
Lemma eof_search_does_not_fall_back :
  @seek_sequence Empty_set [&"a"; &"b"] [&"a"] 0 false = Ok (Some 0) /\
  @seek_sequence Empty_set [&"a"; &"b"] [&"a"] 0 true = Ok None.
Proof. split; vm_compute; reflexivity. Qed.
