(* ===== verification/PatchParser.v ===== *)
(** * apply-patch/src/parser.rs: from patch text to hunks

    The batch parser.  Slices and indices are checked ([Panic]) and the [while]
    loops run on fuel ([Loop]); [parse_patch_returns] shows that neither
    happens.  A [PathBuf] is its text. *)
From S2P Require Import Prelude RustStr.

(** ** Data *)

Definition BEGIN_PATCH_MARKER : str := &"*** Begin Patch".
Definition ENVIRONMENT_ID_MARKER : str := &"*** Environment ID: ".
Definition END_PATCH_MARKER : str := &"*** End Patch".
Definition ADD_FILE_MARKER : str := &"*** Add File: ".
Definition DELETE_FILE_MARKER : str := &"*** Delete File: ".
Definition UPDATE_FILE_MARKER : str := &"*** Update File: ".
Definition MOVE_TO_MARKER : str := &"*** Move to: ".
Definition EOF_MARKER : str := &"*** End of File".
Definition CHANGE_CONTEXT_MARKER : str := &"@@ ".
Definition EMPTY_CHANGE_CONTEXT_MARKER : str := &"@@".

Definition PARSE_IN_STRICT_MODE : bool := false.

Inductive ParseError :=
| InvalidPatchError (message : str)
| InvalidHunkError (message : str) (line_number : nat).

#[export] Instance ParseError_eq_dec : EqDecision ParseError.
Proof. solve_decision. Defined.

Record UpdateFileChunk := {
  change_context : option str;
  old_lines : list str;
  new_lines : list str;
  is_end_of_file : bool
}.

#[export] Instance UpdateFileChunk_eq_dec : EqDecision UpdateFileChunk.
Proof. solve_decision. Defined.

Inductive Hunk :=
| AddFile (path : str) (contents : str)
| DeleteFile (path : str)
| UpdateFile (path : str) (move_path : option str) (chunks : list UpdateFileChunk).

#[export] Instance Hunk_eq_dec : EqDecision Hunk.
Proof. solve_decision. Defined.

(** [Hunk::path]: the move destination for a rename. *)
Definition hunk_path (h : Hunk) : str :=
  match h with
  | AddFile path _ => path
  | DeleteFile path => path
  | UpdateFile _ (Some path) _ => path
  | UpdateFile path None _ => path
  end.

(** [Hunk::resolve_path] resolves the source path of an update, whatever its
    destination; [resolve] is [AbsolutePathBuf::resolve_path_against_base]. *)
Definition hunk_source_path (h : Hunk) : str :=
  match h with
  | UpdateFile path _ _ => path
  | AddFile _ _ | DeleteFile _ => hunk_path h
  end.

Definition resolve_path {P} (resolve : str -> P -> P) (h : Hunk) (cwd : P) : P :=
  resolve (hunk_source_path h) cwd.

Record ApplyPatchArgs := {
  patch : str;
  hunks : list Hunk;
  workdir : option str;
  environment_id : option str
}.

Inductive ParseMode := Strict | Lenient.

(** ** Operations *)

Definition check_start_and_end_lines_strict (first_line last_line : option str)
  : comp ParseError unit :=
  let first_line := trim <$> first_line in
  let last_line := trim <$> last_line in
  match first_line, last_line with
  | Some first, Some last_ =>
      if str_eqb first BEGIN_PATCH_MARKER && str_eqb last_ END_PATCH_MARKER then Ok tt
      else if negb (str_eqb first BEGIN_PATCH_MARKER)
      then Err (InvalidPatchError &"The first line of the patch must be '*** Begin Patch'")
      else Err (InvalidPatchError &"The last line of the patch must be '*** End Patch'")
  | Some first, None =>
      if negb (str_eqb first BEGIN_PATCH_MARKER)
      then Err (InvalidPatchError &"The first line of the patch must be '*** Begin Patch'")
      else Err (InvalidPatchError &"The last line of the patch must be '*** End Patch'")
  | None, _ => Err (InvalidPatchError &"The last line of the patch must be '*** End Patch'")
  end.

Definition check_patch_boundaries_strict (lines : list str)
  : comp ParseError (list str * list str) :=
  let '(first_line, last_line) :=
    match lines with
    | [] => (None, None)
    | [first] => (Some first, Some first)
    | first :: _ => (Some first, last lines)
    end in
  let? _ := check_start_and_end_lines_strict first_line last_line in
  let? inner := slice 1 (length lines - 1) lines in
  Ok (lines, inner).

Definition check_patch_boundaries_lenient (original_lines : list str)
  : comp ParseError (list str * list str) :=
  match check_patch_boundaries_strict original_lines with
  | Err original_parse_error =>
      match original_lines, last original_lines with
      | first :: _ :: _, Some last_ =>
          if (str_eqb first &"<<EOF" || str_eqb first &"<<'EOF'" ||
              str_eqb first (&"<<" ++ [34%N] ++ &"EOF" ++ [34%N])) &&
             ends_with &"EOF" last_ && (4 <=? length original_lines)
          then let? inner_lines := slice 1 (length original_lines - 1) original_lines in
               check_patch_boundaries_strict inner_lines
          else Err original_parse_error
      | _, _ => Err original_parse_error
      end
  | r => r
  end.

Definition parse_environment_id_preamble (hunk_lines : list str)
  : comp ParseError (option str * list str * nat) :=
  match hunk_lines with
  | [] => Ok (None, hunk_lines, 2)
  | first_line :: rest =>
      match strip_prefix ENVIRONMENT_ID_MARKER (trim_start first_line) with
      | None => Ok (None, hunk_lines, 2)
      | Some environment_id =>
          let environment_id := trim environment_id in
          match environment_id with
          | [] => Err (InvalidPatchError &"apply_patch environment_id cannot be empty")
          | _ => Ok (Some environment_id, rest, 3)
          end
      end
  end.

Definition push_old (s : str) (c : UpdateFileChunk) : UpdateFileChunk :=
  {| change_context := change_context c; old_lines := old_lines c ++ [s];
     new_lines := new_lines c; is_end_of_file := is_end_of_file c |}.

Definition push_new (s : str) (c : UpdateFileChunk) : UpdateFileChunk :=
  {| change_context := change_context c; old_lines := old_lines c;
     new_lines := new_lines c ++ [s]; is_end_of_file := is_end_of_file c |}.

Definition set_eof (c : UpdateFileChunk) : UpdateFileChunk :=
  {| change_context := change_context c; old_lines := old_lines c;
     new_lines := new_lines c; is_end_of_file := true |}.

Definition empty_chunk (ctx : option str) : UpdateFileChunk :=
  {| change_context := ctx; old_lines := []; new_lines := []; is_end_of_file := false |}.

Definition unexpected_line_message (line : str) : str :=
  &"Unexpected line found in update hunk: '" ++ line ++
  &"'. Every line should start with ' ' (context line), '+' (added line), or '-' (removed line)".

(** The [for line in &lines[start_index..]] loop of [parse_update_file_chunk];
    the result is the chunk and [parsed_lines]. *)
Fixpoint chunk_loop (line_number : nat) (lines : list str) (chunk : UpdateFileChunk)
    (parsed_lines : nat) : comp ParseError (UpdateFileChunk * nat) :=
  match lines with
  | [] => Ok (chunk, parsed_lines)
  | line :: lines' =>
      if str_eqb line EOF_MARKER then
        if parsed_lines =? 0
        then Err (InvalidHunkError &"Update hunk does not contain any lines" (line_number + 1))
        else Ok (set_eof chunk, parsed_lines + 1)
      else
        match line with
        | [] => chunk_loop line_number lines' (push_new [] (push_old [] chunk)) (parsed_lines + 1)
        | c :: tl =>
            if (c =? 32)%N
            then chunk_loop line_number lines' (push_new tl (push_old tl chunk)) (parsed_lines + 1)
            else if (c =? 43)%N
            then chunk_loop line_number lines' (push_new tl chunk) (parsed_lines + 1)
            else if (c =? 45)%N
            then chunk_loop line_number lines' (push_old tl chunk) (parsed_lines + 1)
            else if parsed_lines =? 0
            then Err (InvalidHunkError (unexpected_line_message line) (line_number + 1))
            else Ok (chunk, parsed_lines)
        end
  end.

Definition parse_update_file_chunk (lines : list str) (line_number : nat)
    (allow_missing_context : bool) : comp ParseError (UpdateFileChunk * nat) :=
  match lines with
  | [] => Err (InvalidHunkError &"Update hunk does not contain any lines" line_number)
  | line0 :: _ =>
      let? '(change_context, start_index) :=
        if str_eqb line0 EMPTY_CHANGE_CONTEXT_MARKER then Ok (None, 1)
        else match strip_prefix CHANGE_CONTEXT_MARKER line0 with
             | Some context => Ok (Some context, 1)
             | None =>
                 if negb allow_missing_context
                 then Err (InvalidHunkError
                        (&"Expected update hunk to start with a @@ context marker, got: '" ++
                         line0 ++ &"'") line_number)
                 else Ok (None, 0)
             end in
      if length lines <=? start_index
      then Err (InvalidHunkError &"Update hunk does not contain any lines" (line_number + 1))
      else
        let? body := slice_from start_index lines in
        let? '(chunk, parsed_lines) := chunk_loop line_number body (empty_chunk change_context) 0 in
        Ok (chunk, parsed_lines + start_index)
  end.

(** The loop over [&lines[1..]] of an add hunk: contents and [parsed_lines]. *)
Fixpoint add_loop (lines : list str) (contents : str) (parsed_lines : nat) : str * nat :=
  match lines with
  | [] => (contents, parsed_lines)
  | add_line :: lines' =>
      match strip_prefix &"+" add_line with
      | Some line_to_add => add_loop lines' (contents ++ line_to_add ++ [nl]) (parsed_lines + 1)
      | None => (contents, parsed_lines)
      end
  end.

(** The [while !remaining_lines.is_empty()] loop of an update hunk. *)
Fixpoint update_loop (fuel line_number : nat) (remaining_lines : list str) (parsed_lines : nat)
    (chunks : list UpdateFileChunk) : comp ParseError (list UpdateFileChunk * nat) :=
  match fuel with
  | 0 => Loop
  | S fuel' =>
      match remaining_lines with
      | [] => Ok (chunks, parsed_lines)
      | line :: rest =>
          if str_eqb (trim line) [] then
            update_loop fuel' line_number rest (parsed_lines + 1) chunks
          else if starts_with &"*" line then Ok (chunks, parsed_lines)
          else
            let? '(chunk, chunk_lines) :=
              parse_update_file_chunk remaining_lines (line_number + parsed_lines)
                (bool_decide (chunks = [])) in
            let? remaining_lines' := slice_from chunk_lines remaining_lines in
            update_loop fuel' line_number remaining_lines' (parsed_lines + chunk_lines)
              (chunks ++ [chunk])
      end
  end.

Definition hunk_header_message (first_line : str) : str :=
  &"'" ++ first_line ++
  &"' is not a valid hunk header. Valid hunk headers: '*** Add File: {path}', '*** Delete File: {path}', '*** Update File: {path}'".

Definition empty_update_message (path : str) : str :=
  &"Update file hunk for path '" ++ path ++ &"' is empty".

Definition parse_one_hunk (lines : list str) (line_number : nat) : comp ParseError (Hunk * nat) :=
  let? line0 := index lines 0 in
  let first_line := trim line0 in
  match strip_prefix ADD_FILE_MARKER first_line with
  | Some path =>
      let? rest := slice_from 1 lines in
      let '(contents, parsed_lines) := add_loop rest [] 1 in
      Ok (AddFile path contents, parsed_lines)
  | None =>
  match strip_prefix DELETE_FILE_MARKER first_line with
  | Some path => Ok (DeleteFile path, 1)
  | None =>
  match strip_prefix UPDATE_FILE_MARKER first_line with
  | Some path =>
      let? remaining_lines := slice_from 1 lines in
      let move_path := head remaining_lines ≫= strip_prefix MOVE_TO_MARKER in
      let? '(remaining_lines, parsed_lines) :=
        match move_path with
        | Some _ => let? r := slice_from 1 remaining_lines in Ok (r, 2)
        | None => Ok (remaining_lines, 1)
        end in
      let? '(chunks, parsed_lines) :=
        update_loop (S (length remaining_lines)) line_number remaining_lines parsed_lines [] in
      match chunks with
      | [] => Err (InvalidHunkError (empty_update_message path) line_number)
      | _ => Ok (UpdateFile path move_path chunks, parsed_lines)
      end
  | None => Err (InvalidHunkError (hunk_header_message first_line) line_number)
  end end end.

(** The [while] loop of [parse_patch_text]. *)
Fixpoint hunks_loop (fuel : nat) (remaining_lines : list str) (line_number : nat)
    (hunks : list Hunk) : comp ParseError (list Hunk) :=
  match fuel with
  | 0 => Loop
  | S fuel' =>
      match remaining_lines with
      | [] => Ok hunks
      | _ =>
          let? '(hunk, hunk_lines) := parse_one_hunk remaining_lines line_number in
          let? remaining_lines' := slice_from hunk_lines remaining_lines in
          hunks_loop fuel' remaining_lines' (line_number + hunk_lines) (hunks ++ [hunk])
      end
  end.

Definition parse_patch_text (patch : str) (mode : ParseMode) : comp ParseError ApplyPatchArgs :=
  let lines := lines (trim patch) in
  let? '(patch_lines, hunk_lines) :=
    match mode with
    | Strict => check_patch_boundaries_strict lines
    | Lenient => check_patch_boundaries_lenient lines
    end in
  let? '(environment_id, remaining_lines, line_number) :=
    parse_environment_id_preamble hunk_lines in
  let? hunks := hunks_loop (S (length remaining_lines)) remaining_lines line_number [] in
  Ok {| patch := join [nl] patch_lines; hunks := hunks; workdir := None;
        environment_id := environment_id |}.

Definition parse_patch (patch : str) : comp ParseError ApplyPatchArgs :=
  let mode := if PARSE_IN_STRICT_MODE then Strict else Lenient in
  parse_patch_text patch mode.

(** ** Totality and progress *)

Lemma chunk_loop_returns ln ls c n : returns (chunk_loop ln ls c n).
Proof.
  revert c n; induction ls as [|l ls IH]; intros c n; simpl; [done|].
  repeat case_match; simpl; auto.
Qed.

Lemma chunk_loop_progress ln ls c n c' n' :
  chunk_loop ln ls c n = Ok (c', n') ->
  n <= n' <= n + length ls /\ (n = 0 -> ls <> [] -> 1 <= n').
Proof.
  revert c n; induction ls as [|l ls IH]; intros c n H; simpl in *; [simplify_eq; by intuition lia|].
  repeat case_match; simplify_eq; try (apply IH in H; intuition lia);
    repeat match goal with E : (_ =? 0) = false |- _ => apply Nat.eqb_neq in E end;
    intuition lia.
Qed.

Lemma parse_update_file_chunk_returns ls ln b : returns (parse_update_file_chunk ls ln b).
Proof.
  unfold parse_update_file_chunk. destruct ls as [|l ls]; [done|].
  apply returns_bind; [by repeat case_match|]. intros [ctx start] _.
  destruct (length (l :: ls) <=? start) eqn:E; [done|]. apply Nat.leb_gt in E.
  rewrite slice_from_returns by lia. cbn [comp_bind].
  apply returns_bind; [apply chunk_loop_returns|]. by intros [].
Qed.

Lemma parse_update_file_chunk_progress ls ln b c n :
  parse_update_file_chunk ls ln b = Ok (c, n) -> 1 <= n <= length ls.
Proof.
  unfold parse_update_file_chunk. destruct ls as [|l ls]; [done|]. intros H.
  apply comp_bind_Ok in H as ([ctx start] & Hs & H).
  assert (start <= 1) by (repeat case_match; simplify_eq; lia).
  destruct (length (l :: ls) <=? start) eqn:E; [done|]. apply Nat.leb_gt in E.
  rewrite slice_from_returns in H by lia. simpl in H.
  apply comp_bind_Ok in H as ([c' k] & Hk & H). simplify_eq.
  apply chunk_loop_progress in Hk as [Hk Hk']. rewrite length_drop in Hk.
  destruct start as [|start]; [|lia]. simpl in *. assert (1 <= k) by auto. lia.
Qed.

Lemma update_loop_returns fuel ln ls n cs :
  length ls < fuel -> returns (update_loop fuel ln ls n cs).
Proof.
  revert ls n cs; induction fuel as [|fuel IH]; intros ls n cs Hf; [lia|].
  simpl. destruct ls as [|l ls]; [done|]. simpl in Hf.
  repeat case_match; try done; [apply IH; lia|].
  apply returns_bind; [apply parse_update_file_chunk_returns|]. intros [c k] Hk.
  apply parse_update_file_chunk_progress in Hk.
  rewrite slice_from_returns by lia. simpl. apply IH. rewrite length_drop. simpl in *. lia.
Qed.

Lemma update_loop_progress fuel ln ls n cs cs' n' :
  update_loop fuel ln ls n cs = Ok (cs', n') -> n <= n' <= n + length ls.
Proof.
  revert ls n cs; induction fuel as [|fuel IH]; intros ls n cs H; [done|].
  simpl in H. destruct ls as [|l ls]; [simplify_eq; lia|].
  repeat case_match; simplify_eq; [apply IH in H; simpl; lia|lia|].
  apply comp_bind_Ok in H as ([c k] & Hk & H).
  apply parse_update_file_chunk_progress in Hk.
  rewrite slice_from_returns in H by lia. simpl in H. apply IH in H.
  rewrite length_drop in H. simpl in *. lia.
Qed.

Lemma add_loop_progress ls contents n contents' n' :
  add_loop ls contents n = (contents', n') -> n <= n' <= n + length ls.
Proof.
  revert contents n; induction ls as [|l ls IH]; intros contents n H; simpl in *; [simplify_eq; lia|].
  case_match; [apply IH in H; lia|simplify_eq; lia].
Qed.

(** [parse_one_hunk] on a first line, with its slices discharged. *)
Lemma parse_one_hunk_cons l ls ln :
  parse_one_hunk (l :: ls) ln =
  match strip_prefix ADD_FILE_MARKER (trim l) with
  | Some path => let '(contents, n) := add_loop ls [] 1 in Ok (AddFile path contents, n)
  | None =>
  match strip_prefix DELETE_FILE_MARKER (trim l) with
  | Some path => Ok (DeleteFile path, 1)
  | None =>
  match strip_prefix UPDATE_FILE_MARKER (trim l) with
  | Some path =>
      let move_path := head ls ≫= strip_prefix MOVE_TO_MARKER in
      let '(rest, k) := match move_path with Some _ => (tail ls, 2) | None => (ls, 1) end in
      let? '(chunks, n) := update_loop (S (length rest)) ln rest k [] in
      match chunks with
      | [] => Err (InvalidHunkError (empty_update_message path) ln)
      | _ => Ok (UpdateFile path move_path chunks, n)
      end
  | None => Err (InvalidHunkError (hunk_header_message (trim l)) ln)
  end end end.
Proof.
  unfold parse_one_hunk. rewrite slice_from_returns by (simpl; lia).
  change (index (l :: ls) 0) with (@Ok ParseError _ l). cbn [comp_bind drop].
  rewrite drop_0.
  destruct (strip_prefix ADD_FILE_MARKER _); [done|].
  destruct (strip_prefix DELETE_FILE_MARKER _); [done|].
  destruct (strip_prefix UPDATE_FILE_MARKER _); [|done].
  destruct (head ls ≫= _) eqn:E; [|done].
  destruct ls as [|l' ls]; [done|]. rewrite slice_from_returns by (simpl; lia).
  cbn [comp_bind drop tail]. by rewrite drop_0.
Qed.

Lemma parse_one_hunk_returns ls ln : ls <> [] -> returns (parse_one_hunk ls ln).
Proof.
  destruct ls as [|l ls]; [done|]. intros _. rewrite parse_one_hunk_cons.
  destruct (strip_prefix ADD_FILE_MARKER _); [by destruct (add_loop _ _ _)|].
  destruct (strip_prefix DELETE_FILE_MARKER _); [done|].
  destruct (strip_prefix UPDATE_FILE_MARKER _); [|done]. cbv zeta.
  destruct (match head ls ≫= _ with Some _ => _ | None => _ end) as [rest k].
  apply returns_bind; [apply update_loop_returns; lia|].
  intros [cs k'] _. by destruct cs.
Qed.

Lemma parse_one_hunk_progress ls ln h n :
  parse_one_hunk ls ln = Ok (h, n) -> 1 <= n <= length ls.
Proof.
  destruct ls as [|l ls]; [done|]. rewrite parse_one_hunk_cons. cbn [length].
  destruct (strip_prefix ADD_FILE_MARKER _).
  { destruct (add_loop ls [] 1) eqn:E. intros; simplify_eq. apply add_loop_progress in E. lia. }
  destruct (strip_prefix DELETE_FILE_MARKER _); [intros; simplify_eq; lia|].
  destruct (strip_prefix UPDATE_FILE_MARKER _); [|done]. cbv zeta.
  destruct (match head ls ≫= _ with Some _ => _ | None => _ end) as [rest k] eqn:Hr.
  intros H. apply comp_bind_Ok in H as ([cs k'] & Hu & H).
  apply update_loop_progress in Hu.
  assert (k + length rest <= S (length ls) /\ 1 <= k) as [].
  { destruct (head ls ≫= strip_prefix MOVE_TO_MARKER) eqn:E; simplify_eq; [|lia].
    destruct ls as [|l' ls]; [done|]. simpl. lia. }
  destruct cs; simplify_eq. lia.
Qed.

Lemma hunks_loop_returns fuel ls ln hs :
  length ls < fuel -> returns (hunks_loop fuel ls ln hs).
Proof.
  revert ls ln hs; induction fuel as [|fuel IH]; intros ls ln hs Hf; [lia|].
  cbn [hunks_loop]. destruct ls as [|l ls]; [done|].
  apply returns_bind; [by apply parse_one_hunk_returns|]. intros [h n] Hn.
  apply parse_one_hunk_progress in Hn. rewrite slice_from_returns by lia.
  simpl. apply IH. rewrite length_drop. simpl in *. lia.
Qed.

Lemma check_start_and_end_lines_strict_Ok a b :
  check_start_and_end_lines_strict a b = Ok tt ->
  trim <$> a = Some BEGIN_PATCH_MARKER /\ trim <$> b = Some END_PATCH_MARKER.
Proof.
  unfold check_start_and_end_lines_strict. intros H. repeat case_match; simplify_eq.
  repeat match goal with E : _ && _ = true |- _ => apply andb_prop in E as [E1%str_eqb_eq E2%str_eqb_eq] end.
  by subst.
Qed.

(** The boundary check accepts only two or more lines, so its slice is in range. *)
Lemma check_patch_boundaries_strict_slice ls :
  returns (check_patch_boundaries_strict ls) /\
  forall r, check_patch_boundaries_strict ls = Ok r ->
    r = (ls, take (length ls - 2) (drop 1 ls)) /\ 2 <= length ls.
Proof.
  unfold check_patch_boundaries_strict.
  destruct ls as [|a [|b ls]]; [by split| |].
  - destruct (check_start_and_end_lines_strict (Some a) (Some a)) as [[]| | |] eqn:E.
    + apply check_start_and_end_lines_strict_Ok in E as [E1 E2]. rewrite E1 in E2. done.
    + by split.
    + unfold check_start_and_end_lines_strict in E. by repeat case_match.
    + unfold check_start_and_end_lines_strict in E. by repeat case_match.
  - rewrite slice_returns by (simpl; lia).
    destruct (check_start_and_end_lines_strict _ _) as [[]| | |] eqn:E; simpl.
    + split; [done|]. intros; simplify_eq. simpl. split; [|lia].
      repeat f_equal; lia.
    + by split.
    + unfold check_start_and_end_lines_strict in E. by repeat case_match.
    + unfold check_start_and_end_lines_strict in E. by repeat case_match.
Qed.

Lemma check_patch_boundaries_lenient_returns ls :
  returns (check_patch_boundaries_lenient ls).
Proof.
  unfold check_patch_boundaries_lenient.
  destruct (check_patch_boundaries_strict_slice ls) as [H _].
  destruct (check_patch_boundaries_strict ls); try done.
  repeat case_match; try done.
  rewrite slice_returns by (simpl; lia). apply check_patch_boundaries_strict_slice.
Qed.

Lemma parse_environment_id_preamble_returns ls : returns (parse_environment_id_preamble ls).
Proof. unfold parse_environment_id_preamble. by repeat case_match. Qed.

Lemma parse_patch_total text mode : returns (parse_patch_text text mode).
Proof.
  unfold parse_patch_text. apply returns_bind.
  { destruct mode; [apply check_patch_boundaries_strict_slice|apply check_patch_boundaries_lenient_returns]. }
  intros [pl hl] _. apply returns_bind; [apply parse_environment_id_preamble_returns|].
  intros [[env rest] ln] _. apply returns_bind; [by apply hunks_loop_returns; lia|done].
Qed.

(** The patch parser is total: on every text, in both modes, it returns an
    [Ok] or a [ParseError]; no slice or index of the source is out of range and
    both [while] loops end (each iteration consumes at least one line). *)
Theorem parse_patch_returns (text : str) (mode : ParseMode) :
  returns (parse_patch_text text mode).
Proof. apply parse_patch_total. Qed.

(** ** What a parsed patch looks like *)

(** Every chunk has a line to remove or to add, and its lines are lines. *)
Definition chunk_ok (c : UpdateFileChunk) : Prop :=
  (old_lines c <> [] \/ new_lines c <> []) /\
  Forall (fun l => nl ∉ l) (old_lines c) /\ Forall (fun l => nl ∉ l) (new_lines c) /\
  (forall ctx, change_context c = Some ctx -> nl ∉ ctx).

Definition hunk_ok (h : Hunk) : Prop :=
  match h with
  | AddFile path contents =>
      nl ∉ path /\
      exists ls, contents = concat (map (fun l => l ++ [nl]) ls) /\ Forall (fun l => nl ∉ l) ls
  | DeleteFile path => nl ∉ path
  | UpdateFile path move_path chunks =>
      nl ∉ path /\ (forall p, move_path = Some p -> nl ∉ p) /\
      chunks <> [] /\ Forall chunk_ok chunks
  end.

Lemma chunk_loop_ok ln ls c n c' n' :
  chunk_loop ln ls c n = Ok (c', n') ->
  Forall (fun l => nl ∉ l) ls ->
  Forall (fun l => nl ∉ l) (old_lines c) -> Forall (fun l => nl ∉ l) (new_lines c) ->
  (1 <= n -> old_lines c <> [] \/ new_lines c <> []) ->
  change_context c' = change_context c /\
  Forall (fun l => nl ∉ l) (old_lines c') /\ Forall (fun l => nl ∉ l) (new_lines c') /\
  (1 <= n' -> old_lines c' <> [] \/ new_lines c' <> []).
Proof.
  revert c n; induction ls as [|l ls IH]; intros c n H Hls Ho Hn Hne; simpl in H; [by simplify_eq|].
  apply Forall_cons in Hls as [Hl Hls].
  destruct (str_eqb l EOF_MARKER).
  { destruct (n =? 0) eqn:En; [done|]. apply Nat.eqb_neq in En. simplify_eq/=.
    split_and!; [done..|]. intros _. apply Hne. lia. }
  assert (forall x (ys : list str), ys ++ [x] <> []) as Happ by (intros x []; done).
  destruct l as [|d tl].
  { apply IH in H; simpl in *; auto; rewrite ?Forall_app, ?Forall_singleton; auto using not_elem_of_nil. }
  apply not_elem_of_cons in Hl as [_ Hl].
  repeat case_match; simplify_eq/=; try done;
    apply IH in H; simpl in *; auto; by rewrite Forall_app, Forall_singleton.
Qed.

Lemma parse_update_file_chunk_ok ls ln b c n :
  parse_update_file_chunk ls ln b = Ok (c, n) -> Forall (fun l => nl ∉ l) ls -> chunk_ok c.
Proof.
  unfold parse_update_file_chunk. destruct ls as [|l ls]; [done|]. intros H Hls.
  apply comp_bind_Ok in H as ([ctx start] & Hs & H).
  destruct (length (l :: ls) <=? start) eqn:E; [done|]. apply Nat.leb_gt in E.
  rewrite slice_from_returns in H by lia. simpl in H.
  apply comp_bind_Ok in H as ([c' k] & Hk & H). simplify_eq.
  pose proof (chunk_loop_progress _ _ _ _ _ _ Hk) as [_ Hpos].
  apply chunk_loop_ok in Hk as (Hc & Ho & Hn & Hne); simpl; [|by apply Forall_drop|done|done|lia].
  split_and!; [|done|done|].
  - apply Hne, Hpos; [done|]. intros Hd. apply (f_equal length) in Hd. rewrite length_drop in Hd. simpl in *. lia.
  - intros x Hx. rewrite Hc in Hx. simpl in Hx. subst ctx. apply Forall_cons in Hls as [Hl _].
    repeat case_match; simplify_eq. intros Hin. apply Hl. by eapply strip_prefix_incl.
Qed.

Lemma update_loop_ok fuel ln ls n cs cs' n' :
  update_loop fuel ln ls n cs = Ok (cs', n') ->
  Forall (fun l => nl ∉ l) ls -> Forall chunk_ok cs -> Forall chunk_ok cs'.
Proof.
  revert ls n cs; induction fuel as [|fuel IH]; intros ls n cs H Hls Hcs; [done|].
  simpl in H. destruct ls as [|l ls]; [by simplify_eq|].
  destruct (str_eqb (trim l) []); [apply IH in H; [done|by apply Forall_cons in Hls as []|done]|].
  destruct (starts_with _ _); [by simplify_eq|].
  apply comp_bind_Ok in H as ([c k] & Hk & H).
  apply comp_bind_Ok in H as (rest & [_ ->]%slice_from_Ok & H).
  apply parse_update_file_chunk_ok in Hk; [|done].
  apply IH in H; [done|by apply Forall_drop|by rewrite Forall_app, Forall_singleton].
Qed.

Lemma add_loop_ok ls contents n contents' n' acc :
  add_loop ls contents n = (contents', n') ->
  Forall (fun l => nl ∉ l) ls -> Forall (fun l => nl ∉ l) acc ->
  contents = concat (map (fun l => l ++ [nl]) acc) ->
  exists acc', contents' = concat (map (fun l => l ++ [nl]) acc') /\ Forall (fun l => nl ∉ l) acc'.
Proof.
  revert contents n acc; induction ls as [|l ls IH]; intros contents n acc H Hls Hacc ->; simpl in H.
  { simplify_eq. eauto. }
  apply Forall_cons in Hls as [Hl Hls].
  destruct (strip_prefix &"+" l) as [x|] eqn:E; [|simplify_eq; eauto].
  apply IH with (acc := acc ++ [x]) in H; [done|done| |].
  - rewrite Forall_app, Forall_singleton. split; [done|]. intros Hin. apply Hl. by eapply strip_prefix_incl.
  - by rewrite map_app, concat_app; simpl; rewrite app_nil_r.
Qed.

Lemma parse_one_hunk_ok ls ln h n :
  parse_one_hunk ls ln = Ok (h, n) -> Forall (fun l => nl ∉ l) ls -> hunk_ok h.
Proof.
  destruct ls as [|l ls]; [done|]. rewrite parse_one_hunk_cons. intros H [Hl Hls]%Forall_cons.
  assert (forall p r, strip_prefix p (trim l) = Some r -> nl ∉ r) as Hp.
  { intros p r Hr Hin. apply Hl. apply trim_incl. by eapply strip_prefix_incl. }
  destruct (strip_prefix ADD_FILE_MARKER _) eqn:E1.
  { destruct (add_loop ls [] 1) eqn:E. simplify_eq. simpl. split; [eauto|].
    eapply add_loop_ok with (acc := []); [exact E|done|done|done]. }
  destruct (strip_prefix DELETE_FILE_MARKER _) eqn:E2; [simplify_eq; simpl; eauto|].
  destruct (strip_prefix UPDATE_FILE_MARKER _) eqn:E3; [|done]. cbv zeta in H.
  destruct (match head ls ≫= _ with Some _ => _ | None => _ end) as [rest k] eqn:Hr.
  apply comp_bind_Ok in H as ([cs k'] & Hu & H).
  assert (Forall (fun l => nl ∉ l) rest) as Hrest.
  { destruct (head ls ≫= strip_prefix MOVE_TO_MARKER) eqn:E; simplify_eq; [|done].
    destruct ls; [done|]. by apply Forall_cons in Hls as []. }
  apply update_loop_ok in Hu; [|done|done].
  destruct cs as [|c cs]; simplify_eq. simpl. split_and!; [eauto| |done|done].
  intros p Hm. destruct ls as [|l' ls]; [done|]. simpl in Hm. apply Forall_cons in Hls as [Hl' _].
  intros Hin. apply Hl'. by eapply strip_prefix_incl.
Qed.

Lemma hunks_loop_ok fuel ls ln hs hs' :
  hunks_loop fuel ls ln hs = Ok hs' ->
  Forall (fun l => nl ∉ l) ls -> Forall hunk_ok hs -> Forall hunk_ok hs'.
Proof.
  revert ls ln hs; induction fuel as [|fuel IH]; intros ls ln hs H Hls Hhs; [done|].
  cbn [hunks_loop] in H. destruct ls as [|l ls]; [by simplify_eq|].
  apply comp_bind_Ok in H as ([h n] & Hh & H).
  apply comp_bind_Ok in H as (rest & [_ ->]%slice_from_Ok & H).
  apply parse_one_hunk_ok in Hh; [|done].
  apply IH in H; [done|by apply Forall_drop|by rewrite Forall_app, Forall_singleton].
Qed.

Lemma check_patch_boundaries_sub (P : str -> Prop) mode ls pl hl :
  match mode with
  | Strict => check_patch_boundaries_strict ls
  | Lenient => check_patch_boundaries_lenient ls
  end = Ok (pl, hl) -> Forall P ls -> Forall P hl.
Proof.
  intros H Hls.
  assert (forall ls, check_patch_boundaries_strict ls = Ok (pl, hl) -> Forall P ls -> Forall P hl) as Hst.
  { intros ls' H' Hls'. apply check_patch_boundaries_strict_slice in H' as [? _]. simplify_eq.
    by apply Forall_take, Forall_drop. }
  destruct mode; [by eapply Hst|]. unfold check_patch_boundaries_lenient in H.
  destruct (check_patch_boundaries_strict ls) eqn:E; [eapply Hst; [|done]; congruence| |done|done].
  repeat case_match; simplify_eq.
  rewrite slice_returns in H by (simpl; lia). cbn [comp_bind] in H.
  eapply Hst; [exact H|]. by apply Forall_take, Forall_drop.
Qed.

Lemma parse_environment_id_preamble_sub (P : str -> Prop) ls env rest ln :
  parse_environment_id_preamble ls = Ok (env, rest, ln) -> Forall P ls -> Forall P rest.
Proof.
  unfold parse_environment_id_preamble. intros H Hls. repeat case_match; simplify_eq; try done.
  by apply Forall_cons in Hls as [].
Qed.

(** The shape of a parsed patch: every update hunk has at least one chunk,
    every chunk removes or adds at least one line, the contents of an added file
    are complete lines, and no path, context or chunk line contains a line feed. *)
Theorem parse_patch_shape (text : str) (mode : ParseMode) (args : ApplyPatchArgs)
  (Hparse : parse_patch_text text mode = Ok args) : Forall hunk_ok (hunks args).
Proof.
  unfold parse_patch_text in Hparse.
  apply comp_bind_Ok in Hparse as ([pl hl] & Hb & H).
  apply comp_bind_Ok in H as ([[env rest] ln] & He & H).
  apply comp_bind_Ok in H as (hs & Hh & H). simplify_eq. simpl.
  eapply hunks_loop_ok; [exact Hh| |done].
  eapply parse_environment_id_preamble_sub; [exact He|].
  eapply check_patch_boundaries_sub; [exact Hb|]. apply lines_free.
Qed.

Definition sample_patch : str :=
  join [nl] [&"*** Begin Patch"; &"*** Update File: a.txt"; &"@@"; &"-x"; &"+y"; &"*** End Patch"].

Lemma parse_patch_shape_witness :
  Forall hunk_ok [UpdateFile &"a.txt" None
    [{| change_context := None; old_lines := [&"x"]; new_lines := [&"y"]; is_end_of_file := false |}]].
Proof.
  apply (parse_patch_shape sample_patch Strict
    {| patch := sample_patch; hunks := [UpdateFile &"a.txt" None
        [{| change_context := None; old_lines := [&"x"]; new_lines := [&"y"]; is_end_of_file := false |}]];
       workdir := None; environment_id := None |}).
  vm_compute. reflexivity.
Defined.
