(* ===== verification/StreamingParser.v ===== *)
(** * apply-patch/src/streaming_parser.rs: the incremental patch parser

    [StreamingPatchParser] receives the patch text in arbitrary pieces.  Its
    methods take the parser state and return the result with the state after
    the call; an error is returned with the state the Rust code leaves behind. *)
From S2P Require Import Prelude RustStr PatchParser.

(** ** Data *)

Inductive StreamingParserMode :=
| NotStarted
| StartedPatch
| ModeAddFile
| ModeDeleteFile
| ModeUpdateFile (hunk_line_number : nat)
| EndedPatch.

#[export] Instance StreamingParserMode_eq_dec : EqDecision StreamingParserMode.
Proof. solve_decision. Defined.

(** [StreamingPatchParser] with its [StreamingParserState] inlined. *)
Record StreamingPatchParser := {
  line_buffer : str;
  mode : StreamingParserMode;
  s_hunks : list Hunk;
  line_number : nat
}.

Definition default_parser : StreamingPatchParser :=
  {| line_buffer := []; mode := NotStarted; s_hunks := []; line_number := 0 |}.

Definition set_mode (m : StreamingParserMode) (p : StreamingPatchParser) : StreamingPatchParser :=
  {| line_buffer := line_buffer p; mode := m; s_hunks := s_hunks p; line_number := line_number p |}.

Definition set_hunks (hs : list Hunk) (p : StreamingPatchParser) : StreamingPatchParser :=
  {| line_buffer := line_buffer p; mode := mode p; s_hunks := hs; line_number := line_number p |}.

(** A write through [hunks.last_mut()] or [chunks.last_mut()]. *)
Definition update_last {A} (f : A -> A) (l : list A) : list A :=
  match reverse l with
  | x :: r => reverse r ++ [f x]
  | [] => []
  end.

(** ** Operations *)

Definition is_environment_id_preamble_line (line : str) : bool :=
  starts_with ENVIRONMENT_ID_MARKER line.

(** [chunk.old_lines.is_empty() && chunk.new_lines.is_empty()] *)
Definition chunk_is_empty (c : UpdateFileChunk) : bool :=
  bool_decide (old_lines c = []) && bool_decide (new_lines c = []).

(** [chunks.last().is_some_and(..)] *)
Definition last_chunk_empty (chunks : list UpdateFileChunk) : bool :=
  match last chunks with Some c => chunk_is_empty c | None => false end.

Definition last_chunk_nonempty (chunks : list UpdateFileChunk) : bool :=
  match last chunks with Some c => negb (chunk_is_empty c) | None => false end.

Definition ensure_update_hunk_is_not_empty (p : StreamingPatchParser) (line : str)
  : comp ParseError unit :=
  match last (s_hunks p) with
  | Some (UpdateFile path _ chunks) =>
      match chunks, mode p with
      | [], ModeUpdateFile hunk_line_number =>
          Err (InvalidHunkError (empty_update_message path) hunk_line_number)
      | _, _ =>
          if last_chunk_empty chunks then
            if str_eqb line END_PATCH_MARKER
            then Err (InvalidHunkError &"Update hunk does not contain any lines" (line_number p))
            else Err (InvalidHunkError (unexpected_line_message line) (line_number p))
          else Ok tt
      end
  | _ => Ok tt
  end.

Definition push_hunk (h : Hunk) (m : StreamingParserMode) (p : StreamingPatchParser)
  : StreamingPatchParser := set_mode m (set_hunks (s_hunks p ++ [h]) p).

(** [Ok(true)] is [Some p'] with the new state, [Ok(false)] is [None]. *)
Definition handle_hunk_headers_and_end_patch (p : StreamingPatchParser) (trimmed : str)
  : comp ParseError (option StreamingPatchParser) :=
  if str_eqb trimmed END_PATCH_MARKER then
    let? _ := ensure_update_hunk_is_not_empty p trimmed in
    Ok (Some (set_mode EndedPatch p))
  else
  match strip_prefix ADD_FILE_MARKER trimmed with
  | Some path =>
      let? _ := ensure_update_hunk_is_not_empty p trimmed in
      Ok (Some (push_hunk (AddFile path []) ModeAddFile p))
  | None =>
  match strip_prefix DELETE_FILE_MARKER trimmed with
  | Some path =>
      let? _ := ensure_update_hunk_is_not_empty p trimmed in
      Ok (Some (push_hunk (DeleteFile path) ModeDeleteFile p))
  | None =>
  match strip_prefix UPDATE_FILE_MARKER trimmed with
  | Some path =>
      let? _ := ensure_update_hunk_is_not_empty p trimmed in
      Ok (Some (push_hunk (UpdateFile path None []) (ModeUpdateFile (line_number p)) p))
  | None => Ok None
  end end end.

(** The chunk list with a chunk to write to: a fresh one when there is none. *)
Definition ensure_chunk (chunks : list UpdateFileChunk) : list UpdateFileChunk :=
  match chunks with [] => [empty_chunk None] | _ => chunks end.

(** The body of [process_line] in update mode, once the last hunk is known to
    be [UpdateFile path move_path chunks]: its new destination and chunks. *)
Definition process_update_line (p : StreamingPatchParser) (line update_line : str)
    (move_path : option str) (chunks : list UpdateFileChunk)
  : comp ParseError (option str * list UpdateFileChunk) :=
  let is_context :=
    str_eqb update_line EMPTY_CHANGE_CONTEXT_MARKER || starts_with CHANGE_CONTEXT_MARKER update_line in
  match
    (if bool_decide (chunks = []) && bool_decide (move_path = None)
     then strip_prefix MOVE_TO_MARKER update_line else None)
  with
  | Some move_to_path => Ok (Some move_to_path, chunks)
  | None =>
  if is_context && last_chunk_empty chunks then
    Err (InvalidHunkError (unexpected_line_message line) (line_number p))
  else if str_eqb update_line EMPTY_CHANGE_CONTEXT_MARKER then
    Ok (move_path, chunks ++ [empty_chunk None])
  else
  match strip_prefix CHANGE_CONTEXT_MARKER update_line with
  | Some change_context => Ok (move_path, chunks ++ [empty_chunk (Some change_context)])
  | None =>
  if str_eqb update_line EOF_MARKER then
    if last_chunk_empty chunks
    then Err (InvalidHunkError &"Update hunk does not contain any lines" (line_number p))
    else Ok (move_path, update_last set_eof chunks)
  else
  match line with
  | [] => Ok (move_path, update_last (fun c => push_new [] (push_old [] c)) (ensure_chunk chunks))
  | _ =>
  match strip_prefix &" " line with
  | Some l => Ok (move_path, update_last (fun c => push_new l (push_old l c)) (ensure_chunk chunks))
  | None =>
  match strip_prefix &"+" line with
  | Some l => Ok (move_path, update_last (push_new l) (ensure_chunk chunks))
  | None =>
  match strip_prefix &"-" line with
  | Some l => Ok (move_path, update_last (push_old l) (ensure_chunk chunks))
  | None =>
  if last_chunk_nonempty chunks then
    Err (InvalidHunkError
      (&"Expected update hunk to start with a @@ context marker, got: '" ++ line ++ &"'")
      (line_number p))
  else Err (InvalidHunkError (unexpected_line_message line) (line_number p))
  end end end end end end.

Definition process_line (p : StreamingPatchParser) (line : str)
  : comp ParseError StreamingPatchParser :=
  let trimmed := trim line in
  let header_error := Err (InvalidHunkError (hunk_header_message trimmed) (line_number p)) in
  match mode p with
  | NotStarted =>
      if str_eqb trimmed BEGIN_PATCH_MARKER then Ok (set_mode StartedPatch p)
      else Err (InvalidPatchError &"The first line of the patch must be '*** Begin Patch'")
  | StartedPatch =>
      if is_environment_id_preamble_line line then Ok p
      else
        let? r := handle_hunk_headers_and_end_patch p trimmed in
        match r with Some p' => Ok p' | None => header_error end
  | ModeAddFile =>
      let? r := handle_hunk_headers_and_end_patch p trimmed in
      match r with
      | Some p' => Ok p'
      | None =>
          match strip_prefix &"+" line, last (s_hunks p) with
          | Some line_to_add, Some (AddFile path contents) =>
              Ok (set_hunks
                (update_last (fun _ => AddFile path (contents ++ line_to_add ++ [nl])) (s_hunks p)) p)
          | _, _ => header_error
          end
      end
  | ModeDeleteFile =>
      let? r := handle_hunk_headers_and_end_patch p trimmed in
      match r with Some p' => Ok p' | None => header_error end
  | ModeUpdateFile hunk_line_number =>
      let update_line := trim_end line in
      let? r := handle_hunk_headers_and_end_patch p update_line in
      match r with
      | Some p' => Ok p'
      | None =>
          match last (s_hunks p) with
          | Some (UpdateFile path move_path chunks) =>
              let? '(move_path', chunks') := process_update_line p line update_line move_path chunks in
              Ok (set_mode (ModeUpdateFile hunk_line_number)
                (set_hunks (update_last (fun _ => UpdateFile path move_path' chunks') (s_hunks p)) p))
          | _ => Err (InvalidHunkError (unexpected_line_message line) (line_number p))
          end
      end
  | EndedPatch => Ok p
  end.

(** [mem::take(&mut self.line_buffer)] and [self.line_number += 1] *)
Definition take_line (p : StreamingPatchParser) : StreamingPatchParser :=
  {| line_buffer := []; mode := mode p; s_hunks := s_hunks p; line_number := S (line_number p) |}.

Definition push_char (ch : char) (p : StreamingPatchParser) : StreamingPatchParser :=
  {| line_buffer := line_buffer p ++ [ch]; mode := mode p; s_hunks := s_hunks p;
     line_number := line_number p |}.

Fixpoint push_delta (p : StreamingPatchParser) (delta : str)
  : comp ParseError (list Hunk) * StreamingPatchParser :=
  match delta with
  | [] => (Ok (s_hunks p), p)
  | ch :: delta' =>
      if (ch =? nl)%N then
        let line := strip_cr (line_buffer p) in
        let p1 := take_line p in
        match process_line p1 line with
        | Ok p2 => push_delta p2 delta'
        | Err e => (Err e, p1)
        | Panic => (Panic, p1)
        | Loop => (Loop, p1)
        end
      else push_delta (push_char ch p) delta'
  end.

Definition finish (p : StreamingPatchParser) : comp ParseError (list Hunk) * StreamingPatchParser :=
  let '(r, p2) :=
    match line_buffer p with
    | [] => (Ok tt, p)
    | line =>
        let p1 := take_line p in
        if str_eqb (trim line) END_PATCH_MARKER then
          match ensure_update_hunk_is_not_empty p1 (trim line) with
          | Ok _ => (Ok tt, set_mode EndedPatch p1)
          | e => (e, p1)
          end
        else
          match process_line p1 line with
          | Ok p2 => (Ok tt, p2)
          | Err e => (Err e, p1)
          | Panic => (Panic, p1)
          | Loop => (Loop, p1)
          end
    end in
  match r with
  | Ok _ =>
      if bool_decide (mode p2 = EndedPatch) then (Ok (s_hunks p2), p2)
      else (Err (InvalidPatchError &"The last line of the patch must be '*** End Patch'"), p2)
  | Err e => (Err e, p2)
  | Panic => (Panic, p2)
  | Loop => (Loop, p2)
  end.

(** A caller that pushes pieces one after the other and stops at an error. *)
Fixpoint push_deltas (p : StreamingPatchParser) (deltas : list str)
  : comp ParseError (list Hunk) * StreamingPatchParser :=
  match deltas with
  | [] => (Ok (s_hunks p), p)
  | d :: ds =>
      match push_delta p d with
      | (Ok _, p') => push_deltas p' ds
      | r => r
      end
  end.

(** ** Lemmas *)

Lemma update_last_snoc {A} (f : A -> A) l x : update_last f (l ++ [x]) = l ++ [f x].
Proof. unfold update_last. rewrite reverse_snoc. simpl. by rewrite reverse_involutive. Qed.

Lemma list_snoc_cases {A} (l : list A) : l = [] \/ exists l' x, l = l' ++ [x].
Proof. induction l using rev_ind; eauto. Qed.

Lemma push_delta_app p a b :
  push_delta p (a ++ b) =
  match push_delta p a with
  | (Ok _, p') => push_delta p' b
  | r => r
  end.
Proof.
  revert p; induction a as [|c a IH]; intros p; simpl; [done|].
  destruct (c =? nl)%N; [|apply IH].
  destruct (process_line _ _); [apply IH|done..].
Qed.

Lemma push_deltas_flat p ds : push_deltas p ds = push_delta p (concat ds).
Proof.
  revert p; induction ds as [|d ds IH]; intros p; simpl; [done|].
  rewrite push_delta_app. destruct (push_delta p d) as [[] p']; [apply IH|done..].
Qed.

(** A complete hunk: an update has at least one chunk and no chunk is empty. *)
Definition hunk_full (h : Hunk) : Prop :=
  match h with
  | UpdateFile _ _ chunks => chunks <> [] /\ Forall (fun c => chunk_is_empty c = false) chunks
  | _ => True
  end.

(** Only the last chunk of an update in progress may be empty. *)
Definition chunks_open (chunks : list UpdateFileChunk) : Prop :=
  chunks = [] \/
  exists cs c, chunks = cs ++ [c] /\ Forall (fun c => chunk_is_empty c = false) cs.

(** The state invariant: the mode names the kind of the last hunk, and every
    hunk before it is complete. *)
Definition parser_inv (p : StreamingPatchParser) : Prop :=
  match mode p with
  | NotStarted | StartedPatch => s_hunks p = []
  | ModeAddFile => exists hs path c, s_hunks p = hs ++ [AddFile path c] /\ Forall hunk_full hs
  | ModeDeleteFile => exists hs path, s_hunks p = hs ++ [DeleteFile path] /\ Forall hunk_full hs
  | ModeUpdateFile _ => exists hs path mv cs,
      s_hunks p = hs ++ [UpdateFile path mv cs] /\ Forall hunk_full hs /\ chunks_open cs
  | EndedPatch => Forall hunk_full (s_hunks p)
  end.

Lemma parser_inv_take_line p : parser_inv p -> parser_inv (take_line p).
Proof. done. Qed.

Lemma parser_inv_push_char c p : parser_inv p -> parser_inv (push_char c p).
Proof. done. Qed.

Lemma ensure_update_hunk_full p line :
  parser_inv p -> ensure_update_hunk_is_not_empty p line = Ok tt -> Forall hunk_full (s_hunks p).
Proof.
  unfold parser_inv, ensure_update_hunk_is_not_empty. intros Hi H.
  destruct (mode p) eqn:Em; [by rewrite Hi..|destruct Hi as (hs & path & c & Hs & Hf)
    |destruct Hi as (hs & path & Hs & Hf)|destruct Hi as (hs & path & mv & cs & Hs & Hf & Ho)|done];
    rewrite Hs in *; apply Forall_app_2; try done; constructor; try done.
  simpl. rewrite last_snoc in H. destruct Ho as [-> |(cs' & c & -> & Hc)]; [done|].
  assert (last_chunk_empty (cs' ++ [c]) = false) as He.
  { destruct (cs' ++ [c]) eqn:E; [by destruct cs'|]. rewrite <- E in *.
    by destruct (last_chunk_empty _); [case_match|]. }
  unfold last_chunk_empty in He. rewrite last_snoc in He.
  split; [by destruct cs'|]. rewrite Forall_app, Forall_singleton. done.
Qed.

Lemma handle_headers_inv p t p' :
  parser_inv p -> handle_hunk_headers_and_end_patch p t = Ok (Some p') -> parser_inv p'.
Proof.
  intros Hi. unfold handle_hunk_headers_and_end_patch.
  assert (forall q, (let? _ := ensure_update_hunk_is_not_empty p t in Ok (Some q)) = Ok (Some p') ->
    p' = q /\ Forall hunk_full (s_hunks p)) as He.
  { intros q H. apply comp_bind_Ok in H as ([] & H1 & H2). simplify_eq.
    split; [done|]. by eapply ensure_update_hunk_full. }
  repeat case_match; intros Hq; simplify_eq; apply He in Hq as [-> Hf]; simpl; try done;
    unfold parser_inv; simpl; eauto 10.
  do 4 eexists. split_and!; [done|done|]. by left.
Qed.

Lemma chunk_push_nonempty a b c :
  chunk_is_empty (push_new a (push_old b c)) = false /\
  chunk_is_empty (push_new a c) = false /\ chunk_is_empty (push_old b c) = false.
Proof.
  unfold chunk_is_empty; simpl.
  assert (forall (l : list str) x, l ++ [x] <> []) as H by (by intros []).
  split_and!; apply andb_false_iff; rewrite ?bool_decide_eq_false; auto.
Qed.

Lemma ensure_chunk_open cs :
  chunks_open cs -> exists cs' c, ensure_chunk cs = cs' ++ [c] /\
    Forall (fun c => chunk_is_empty c = false) cs'.
Proof.
  intros [-> |(cs' & c & -> & Hc)]; [by exists [], (empty_chunk None)|].
  exists cs', c. split; [|done]. by destruct cs'.
Qed.

Lemma process_update_line_open p line ul mv cs mv' cs' :
  process_update_line p line ul mv cs = Ok (mv', cs') -> chunks_open cs -> chunks_open cs'.
Proof.
  intros H Ho. unfold process_update_line in H.
  destruct (if bool_decide (cs = []) && bool_decide (mv = None) then strip_prefix MOVE_TO_MARKER ul else None); [by simplify_eq|].
  destruct (_ && last_chunk_empty cs) eqn:Ectx; [done|].
  assert (forall ctx, str_eqb ul EMPTY_CHANGE_CONTEXT_MARKER || starts_with CHANGE_CONTEXT_MARKER ul = true ->
    chunks_open (cs ++ [empty_chunk ctx])) as Hctx.
  { intros ctx Hc. rewrite Hc in Ectx. right. exists cs, (empty_chunk ctx). split; [done|].
    destruct Ho as [-> |(cs0 & c & -> & Hcs)]; [done|].
    unfold last_chunk_empty in Ectx. rewrite last_snoc in Ectx.
    by rewrite Forall_app, Forall_singleton. }
  assert (forall f, chunks_open (update_last f (ensure_chunk cs))) as Hup.
  { intros f. destruct (ensure_chunk_open cs Ho) as (cs0 & c & -> & Hcs).
    rewrite update_last_snoc. right. eauto. }
  destruct (str_eqb ul EMPTY_CHANGE_CONTEXT_MARKER) eqn:E1; [simplify_eq; by apply Hctx|].
  destruct (strip_prefix CHANGE_CONTEXT_MARKER ul) eqn:E2.
  { simplify_eq. apply Hctx. unfold starts_with. by rewrite E2. }
  destruct (str_eqb ul EOF_MARKER).
  { destruct (last_chunk_empty cs); simplify_eq.
    destruct Ho as [-> |(cs0 & c & -> & Hcs)]; [by left|]. rewrite update_last_snoc. right. eauto. }
  repeat case_match; simplify_eq; apply Hup.
Qed.

Lemma process_line_inv p line p' :
  parser_inv p -> process_line p line = Ok p' -> parser_inv p'.
Proof.
  intros Hi H. unfold process_line in H.
  destruct (mode p) eqn:Em.
  - case_match; simplify_eq. unfold parser_inv in *. simpl. by rewrite Em in Hi.
  - case_match; simplify_eq; [done|].
    apply comp_bind_Ok in H as ([p1|] & H1 & H2); simplify_eq. by eapply handle_headers_inv.
  - apply comp_bind_Ok in H as ([p1|] & H1 & H2); simplify_eq; [by eapply handle_headers_inv|].
    pose proof Hi as Hi0. unfold parser_inv in Hi0. rewrite Em in Hi0.
    destruct Hi0 as (hs & path & c & Hs & Hf). rewrite Hs, last_snoc in H2.
    destruct (strip_prefix _ line); simplify_eq. rewrite update_last_snoc.
    unfold parser_inv. simpl. rewrite Em. eauto 10.
  - apply comp_bind_Ok in H as ([p1|] & H1 & H2); simplify_eq. by eapply handle_headers_inv.
  - apply comp_bind_Ok in H as ([p1|] & H1 & H2); simplify_eq; [by eapply handle_headers_inv|].
    pose proof Hi as Hi0. unfold parser_inv in Hi0. rewrite Em in Hi0.
    destruct Hi0 as (hs & path & mv & cs & Hs & Hf & Ho). rewrite Hs, last_snoc in H2.
    apply comp_bind_Ok in H2 as ([mv' cs'] & H2 & H3). simplify_eq.
    apply process_update_line_open in H2; [|done].
    unfold parser_inv. simpl. rewrite update_last_snoc. eauto 10.
  - by simplify_eq.
Qed.

Lemma ensure_returns p line : returns (ensure_update_hunk_is_not_empty p line).
Proof. unfold ensure_update_hunk_is_not_empty. by repeat case_match. Qed.

Lemma handle_headers_returns p t : returns (handle_hunk_headers_and_end_patch p t).
Proof.
  unfold handle_hunk_headers_and_end_patch.
  repeat case_match; try done; (apply returns_bind; [apply ensure_returns|done]).
Qed.

Lemma process_update_line_returns p line ul mv cs : returns (process_update_line p line ul mv cs).
Proof. unfold process_update_line. by repeat case_match. Qed.

Lemma process_line_returns p line : returns (process_line p line).
Proof.
  unfold process_line. destruct (mode p); try done; [by case_match|case_match; [done|]|..];
    (apply returns_bind; [apply handle_headers_returns|]); intros [p'|] _; try done;
    [by repeat case_match|].
  repeat case_match; try done.
  apply returns_bind; [apply process_update_line_returns|]. by intros [].
Qed.

Lemma push_delta_returns p d : returns (push_delta p d).1.
Proof.
  revert p; induction d as [|c d IH]; intros p; simpl; [done|].
  case_match; [|apply IH].
  pose proof (process_line_returns (take_line p) (strip_cr (line_buffer p))) as Hr.
  destruct (process_line _ _); [apply IH|done..].
Qed.

Lemma push_delta_inv p d : parser_inv p -> parser_inv (push_delta p d).2.
Proof.
  revert p; induction d as [|c d IH]; intros p Hi; simpl; [done|].
  case_match; [|by apply IH].
  destruct (process_line (take_line p) _) eqn:E; [|done..].
  apply IH. by eapply process_line_inv; [|exact E].
Qed.

(** What later input can change: hunks are only added at the end, and among the
    hunks already there only the last one. *)
Definition extends (hs hs' : list Hunk) : Prop :=
  length hs <= length hs' /\ take (length hs - 1) hs' = take (length hs - 1) hs.

#[export] Instance extends_preorder : PreOrder extends.
Proof.
  split; [by intros hs; split|].
  intros a b c [Hl Et] [Hl' Et']. split; [lia|].
  rewrite <- Et. apply (f_equal (take (length a - 1))) in Et'.
  by rewrite !take_take, !Nat.min_l in Et' by lia.
Qed.

Lemma extends_snoc hs h : extends hs (hs ++ [h]).
Proof. split; [rewrite length_app; lia|]. by rewrite take_app_le by lia. Qed.

Lemma extends_update_last hs f : extends hs (update_last f hs).
Proof.
  destruct (list_snoc_cases hs) as [-> |(l & x & ->)]; [done|].
  rewrite update_last_snoc. split; rewrite !length_app; simpl; [lia|].
  by rewrite !take_app_le by lia.
Qed.

Lemma handle_headers_extends p t p' :
  handle_hunk_headers_and_end_patch p t = Ok (Some p') -> extends (s_hunks p) (s_hunks p').
Proof.
  unfold handle_hunk_headers_and_end_patch.
  assert (forall q, (let? _ := ensure_update_hunk_is_not_empty p t in Ok (Some q)) = Ok (Some p') ->
    p' = q) as He.
  { intros q H. apply comp_bind_Ok in H as ([] & H1 & H2). by simplify_eq. }
  repeat case_match; intros Hq; simplify_eq; apply He in Hq as ->; simpl;
    [done|apply extends_snoc..].
Qed.

Lemma process_line_extends p line p' :
  process_line p line = Ok p' -> extends (s_hunks p) (s_hunks p').
Proof.
  intros H. unfold process_line in H. destruct (mode p).
  - case_match; by simplify_eq.
  - case_match; simplify_eq; [done|].
    apply comp_bind_Ok in H as ([p1|] & H1 & H2); simplify_eq. by eapply handle_headers_extends.
  - apply comp_bind_Ok in H as ([p1|] & H1 & H2); simplify_eq; [by eapply handle_headers_extends|].
    repeat case_match; simplify_eq. apply extends_update_last.
  - apply comp_bind_Ok in H as ([p1|] & H1 & H2); simplify_eq. by eapply handle_headers_extends.
  - apply comp_bind_Ok in H as ([p1|] & H1 & H2); simplify_eq; [by eapply handle_headers_extends|].
    repeat case_match; simplify_eq.
    apply comp_bind_Ok in H2 as ([mv' cs'] & H2 & H3). simplify_eq. apply extends_update_last.
  - by simplify_eq.
Qed.

(** ** Properties *)

(** The streaming parser does not depend on how the text is cut: pushing the
    pieces one after the other gives the same result, the same error and the
    same parser state as pushing their concatenation at once. *)
Theorem push_deltas_concat (p : StreamingPatchParser) (deltas : list str) :
  push_deltas p deltas = push_delta p (concat deltas).
Proof. apply push_deltas_flat. Qed.

(** Streaming is total and keeps its state invariant on every input, from
    any reachable state: no call panics, the mode always names the kind of the
    last hunk, and every hunk before the last is complete (an update has chunks
    and none of them is empty). *)
Theorem push_deltas_invariant (deltas : list str) :
  returns (push_deltas default_parser deltas).1 /\
  parser_inv (push_deltas default_parser deltas).2.
Proof.
  rewrite push_deltas_flat.
  split; [apply push_delta_returns|by apply push_delta_inv].
Qed.

(** The preview is stable: whatever text is pushed next, the hunks already
    reported stay, in order and unchanged, except that the last one may grow. *)
Theorem push_delta_extends (p : StreamingPatchParser) (delta : str) :
  extends (s_hunks p) (s_hunks (push_delta p delta).2).
Proof.
  revert p; induction delta as [|c d IH]; intros p; simpl; [done|].
  case_match; [|apply (IH (push_char c p))].
  destruct (process_line (take_line p) _) eqn:E; [|done..].
  apply process_line_extends in E. simpl in E. etrans; [exact E|apply IH].
Qed.

(** A patch that [finish] accepts was terminated by its end marker, and all
    its hunks are complete: the streaming parser cannot report a finished patch
    with an empty update hunk or an empty chunk. *)
Theorem finish_complete (p : StreamingPatchParser) (hs : list Hunk) (p' : StreamingPatchParser)
  (Hinv : parser_inv p) (Hfin : finish p = (Ok hs, p')) :
  mode p' = EndedPatch /\ s_hunks p' = hs /\ Forall hunk_full hs.
Proof.
  unfold finish in Hfin.
  assert (forall q, parser_inv q ->
    (if bool_decide (mode q = EndedPatch) then (Ok (s_hunks q), q)
     else (Err (InvalidPatchError &"The last line of the patch must be '*** End Patch'"), q)) =
    (Ok hs, p') -> mode p' = EndedPatch /\ s_hunks p' = hs /\ Forall hunk_full hs) as Hend.
  { intros q Hq H. case_bool_decide as Hm; simplify_eq. split_and!; [done|done|].
    unfold parser_inv in Hq. by rewrite Hm in Hq. }
  destruct (line_buffer p) as [|ch buf]; [by eapply Hend|].
  destruct (str_eqb _ _).
  - destruct (ensure_update_hunk_is_not_empty _ _) as [[]| | |] eqn:E; simplify_eq.
    apply (Hend (set_mode EndedPatch (take_line p))); [|done].
    by eapply ensure_update_hunk_full in E.
  - destruct (process_line (take_line p) (ch :: buf)) eqn:E; simplify_eq.
    eapply Hend; [|exact Hfin]. by eapply process_line_inv; [|exact E].
Qed.

Definition sample_stream : StreamingPatchParser :=
  (push_deltas default_parser [sample_patch]).2.

Lemma finish_complete_witness :
  mode (finish sample_stream).2 = EndedPatch /\
  s_hunks (finish sample_stream).2 =
    [UpdateFile &"a.txt" None [{| change_context := None; old_lines := [&"x"];
       new_lines := [&"y"]; is_end_of_file := false |}]] /\
  Forall hunk_full [UpdateFile &"a.txt" None [{| change_context := None; old_lines := [&"x"];
       new_lines := [&"y"]; is_end_of_file := false |}]].
Proof.
  apply (finish_complete sample_stream).
  - vm_compute. eexists [], _, _, _. split; [reflexivity|]. split; [constructor|].
    right. eexists [], _. split; [reflexivity|constructor].
  - vm_compute. reflexivity.
Defined.
