(* ===== verification/PatchRoundtrip.v ===== *)
(** * Printing a patch and parsing it back

    [print_patch] writes hunks in the grammar at the top of
    apply-patch/src/parser.rs.  The batch parser and the streaming parser both
    read it back: they agree with each other and with the grammar on every
    well-formed patch. *)
From S2P Require Import Prelude RustStr PatchParser StreamingParser.

(** ** The printer *)

Definition minus (l : str) : str := 45%N :: l.
Definition plus (l : str) : str := 43%N :: l.
Definition blank (l : str) : str := 32%N :: l.

(** A line of a chunk: kept, removed or inserted. *)
Inductive op := Keep (l : str) | Remove (l : str) | Insert (l : str).

Definition print_op (o : op) : str :=
  match o with Keep l => blank l | Remove l => minus l | Insert l => plus l end.
Definition op_old (o : op) : option str :=
  match o with Keep l | Remove l => Some l | Insert _ => None end.
Definition op_new (o : op) : option str :=
  match o with Keep l | Insert l => Some l | Remove _ => None end.

(** A layout writes the lines of a chunk in some order of kept, removed and
    inserted lines; everything below holds for each of them. *)
Definition lays_out (layout : UpdateFileChunk -> list op) : Prop :=
  forall c, omap op_old (layout c) = old_lines c /\ omap op_new (layout c) = new_lines c.

Section printing.
Variable layout : UpdateFileChunk -> list op.
Hypothesis layout_ok : lays_out layout.

Definition print_context (ctx : option str) : str :=
  match ctx with
  | None => EMPTY_CHANGE_CONTEXT_MARKER
  | Some c => CHANGE_CONTEXT_MARKER ++ c
  end.

Definition print_body (c : UpdateFileChunk) : list str :=
  map print_op (layout c).

Definition print_eof (eof : bool) : list str := if eof then [EOF_MARKER] else [].

Definition print_chunk (c : UpdateFileChunk) : list str :=
  print_context (change_context c) :: print_body c ++ print_eof (is_end_of_file c).

Definition print_hunk (h : Hunk) : list str :=
  match h with
  | AddFile path contents => (ADD_FILE_MARKER ++ path) :: map plus (split_nl contents).1
  | DeleteFile path => [DELETE_FILE_MARKER ++ path]
  | UpdateFile path move_path chunks =>
      (UPDATE_FILE_MARKER ++ path) ::
      (match move_path with Some m => [MOVE_TO_MARKER ++ m] | None => [] end) ++
      concat (map print_chunk chunks)
  end.

Definition print_lines (hs : list Hunk) : list str := concat (map print_hunk hs).

Definition print_patch (env : option str) (hs : list Hunk) : str :=
  join [nl] ((BEGIN_PATCH_MARKER ::
    (match env with Some e => [ENVIRONMENT_ID_MARKER ++ e] | None => [] end) ++ print_lines hs)
    ++ [END_PATCH_MARKER]).

(** ** Well-formed hunks *)

(** Text that can follow a marker: not empty, one line, no trailing space. *)
Definition wf_text (s : str) : bool :=
  negb (bool_decide (s = [])) && bool_decide (nl ∉ s) && trimmed_r s.

Definition wf_chunk (c : UpdateFileChunk) : bool :=
  (match change_context c with Some x => wf_text x | None => true end) &&
  negb (chunk_is_empty c) && forallb line_ok (old_lines c) && forallb line_ok (new_lines c).

Definition wf_hunk (h : Hunk) : bool :=
  match h with
  | AddFile path contents =>
      wf_text path && bool_decide ((split_nl contents).2 = []) &&
      forallb line_ok (split_nl contents).1
  | DeleteFile path => wf_text path
  | UpdateFile path move_path chunks =>
      wf_text path && (match move_path with Some m => wf_text m | None => true end) &&
      negb (bool_decide (chunks = [])) && forallb wf_chunk chunks
  end.

Definition wf_env (env : option str) : bool :=
  match env with Some e => wf_text e && trimmed_l e | None => true end.

(** ** Markers *)

Lemma wf_text_spec s : wf_text s = true <-> s <> [] /\ nl ∉ s /\ trimmed_r s = true.
Proof.
  unfold wf_text. rewrite !andb_true_iff, negb_true_iff, bool_decide_eq_true, bool_decide_eq_false.
  tauto.
Qed.

Lemma trimmed_r_app p s : s <> [] -> trimmed_r s = true -> trimmed_r (p ++ s) = true.
Proof.
  unfold trimmed_r. intros Hne H. rewrite reverse_app.
  destruct (reverse s) eqn:E; [|done].
  apply (f_equal reverse) in E. by rewrite reverse_involutive in E.
Qed.

(** A marker line is not changed by trimming. *)
Lemma trim_marker m s : trimmed_l m = true -> m <> [] -> wf_text s = true -> trim (m ++ s) = m ++ s.
Proof.
  intros Hm Hne (Hs & _ & Hr)%wf_text_spec. apply trim_id; [by destruct m|by apply trimmed_r_app].
Qed.

Lemma trim_end_marker m s : wf_text s = true -> trim_end (m ++ s) = m ++ s.
Proof. intros (Hs & _ & Hr)%wf_text_spec. by apply trim_end_id, trimmed_r_app. Qed.

Lemma trimmed_r_no_cr s : s <> [] -> trimmed_r s = true -> ends_with [cr] s = false.
Proof.
  intros Hne Hr. unfold ends_with. destruct (strip_suffix [cr] s) as [x|] eqn:E; [|done].
  apply strip_suffix_Some in E. subst. unfold trimmed_r in Hr. by rewrite reverse_snoc in Hr.
Qed.

Lemma line_ok_marker m s : nl ∉ m -> wf_text s = true -> line_ok (m ++ s) = true.
Proof.
  intros Hm (Hs & Hn & Hr)%wf_text_spec. unfold line_ok.
  rewrite bool_decide_eq_true_2 by set_solver.
  rewrite trimmed_r_no_cr; [done|by destruct m|by apply trimmed_r_app].
Qed.

Lemma line_ok_cons c l : c <> nl -> c <> cr -> line_ok l = true -> line_ok (c :: l) = true.
Proof.
  unfold line_ok. rewrite !andb_true_iff, !bool_decide_eq_true, !negb_true_iff.
  intros Hc Hr [Hl He]. split; [by apply not_elem_of_cons|].
  unfold ends_with in *. destruct (strip_suffix [cr] (c :: l)) as [x|] eqn:E; [|done].
  apply strip_suffix_Some in E. destruct x as [|d x]; simplify_eq/=.
  by rewrite strip_suffix_app in He.
Qed.

(** ** The printed text is made of lines *)

Lemma minus_line_ok l : line_ok l = true -> line_ok (minus l) = true.
Proof. by apply line_ok_cons. Qed.

Lemma plus_line_ok l : line_ok l = true -> line_ok (plus l) = true.
Proof. by apply line_ok_cons. Qed.

Lemma map_line_ok (f : str -> str) ls :
  (forall l, line_ok l = true -> line_ok (f l) = true) ->
  forallb line_ok ls = true -> Forall (fun l => line_ok l = true) (map f ls).
Proof. intros Hf Hls%forallb_Forall. apply Forall_map. by eapply Forall_impl. Qed.

Ltac not_nl := intros Hin; vm_compute in Hin; set_solver.

Lemma op_line_ok o :
  (forall l, op_old o = Some l \/ op_new o = Some l -> line_ok l = true) -> line_ok (print_op o) = true.
Proof. destruct o as [l|l|l]; intros H; apply line_ok_cons; (done || (apply H; simpl; auto)). Qed.

Lemma print_chunk_line_ok c : wf_chunk c = true -> Forall (fun l => line_ok l = true) (print_chunk c).
Proof.
  unfold wf_chunk. rewrite !andb_true_iff, !forallb_Forall. intros [[[Hc _] Ho] Hn].
  rewrite Forall_forall in Ho, Hn. constructor.
  - unfold print_context. destruct (change_context c); [|done].
    apply line_ok_marker; [not_nl|done].
  - unfold print_body. rewrite Forall_app. destruct (layout_ok c) as [Eo En]. rewrite <- Eo in Ho. rewrite <- En in Hn. split.
    + apply Forall_map, Forall_forall. intros o Hin. apply op_line_ok.
      intros l [Hl|Hl]; [apply Ho|apply Hn]; apply list_elem_of_omap; eauto.
    + destruct (is_end_of_file c); by repeat constructor.
Qed.

Lemma print_hunk_line_ok h : wf_hunk h = true -> Forall (fun l => line_ok l = true) (print_hunk h).
Proof.
  destruct h as [path contents|path|path mv cs]; cbn [wf_hunk print_hunk]; rewrite ?andb_true_iff.
  - intros [[Hp _] Hl]. constructor; [apply line_ok_marker; [not_nl|done]|].
    by apply map_line_ok; [apply plus_line_ok|].
  - intros Hp. repeat constructor. apply line_ok_marker; [not_nl|done].
  - intros [[[Hp Hm] _] Hc%forallb_Forall]. constructor; [apply line_ok_marker; [not_nl|done]|].
    apply Forall_app. split.
    + destruct mv; repeat constructor. apply line_ok_marker; [not_nl|done].
    + apply Forall_concat, Forall_map. eapply Forall_impl; [exact Hc|]. apply print_chunk_line_ok.
Qed.

Lemma print_lines_line_ok hs :
  forallb wf_hunk hs = true -> Forall (fun l => line_ok l = true) (print_lines hs).
Proof.
  intros H%forallb_Forall. apply Forall_concat, Forall_map.
  eapply Forall_impl; [exact H|]. apply print_hunk_line_ok.
Qed.

(** ** The batch parser reads the printed lines *)

Definition append_lines (old new : list str) (c : UpdateFileChunk) : UpdateFileChunk :=
  {| change_context := change_context c; old_lines := old_lines c ++ old;
     new_lines := new_lines c ++ new; is_end_of_file := is_end_of_file c |}.

Lemma append_lines_app o w o' w' c :
  append_lines o' w' (append_lines o w c) = append_lines (o ++ o') (w ++ w') c.
Proof. unfold append_lines; simpl. by rewrite !app_assoc. Qed.

Lemma append_lines_nil c : append_lines [] [] c = c.
Proof. destruct c. unfold append_lines; simpl. by rewrite !app_nil_r. Qed.

(** What one line does to a chunk. *)
Definition push_op (o : op) (c : UpdateFileChunk) : UpdateFileChunk :=
  append_lines (option_list (op_old o)) (option_list (op_new o)) c.

Lemma push_op_app o ops c :
  append_lines (omap op_old ops) (omap op_new ops) (push_op o c) =
  append_lines (omap op_old (o :: ops)) (omap op_new (o :: ops)) c.
Proof. unfold push_op. rewrite append_lines_app. by destruct o. Qed.

Lemma chunk_loop_ops ln ops rest c n :
  chunk_loop ln (map print_op ops ++ rest) c n =
  chunk_loop ln rest (append_lines (omap op_old ops) (omap op_new ops) c) (n + length ops).
Proof.
  revert c n; induction ops as [|o ops IH]; intros c n.
  - by rewrite append_lines_nil, Nat.add_0_r.
  - rewrite <- push_op_app. cbn [length]. replace (n + S (length ops)) with (n + 1 + length ops) by lia.
    rewrite <- IH. destruct c as [ctx x y e]. unfold push_op, append_lines.
    destruct o; simpl; rewrite ?app_nil_r; done.
Qed.

(** Lines that end a chunk: nothing, a context line, or a marker line. *)
Definition stops (rest : list str) : Prop :=
  match rest with
  | [] => True
  | l :: _ => l <> EOF_MARKER /\ exists c tl, l = c :: tl /\ c ∉ [32; 43; 45]%N
  end.

Lemma chunk_loop_stops ln rest c n : n <> 0 -> stops rest -> chunk_loop ln rest c n = Ok (c, n).
Proof.
  intros Hn Hs. destruct rest as [|l rest]; [done|]. destruct Hs as (Hl & d & tl & -> & Hd).
  cbn [chunk_loop]. rewrite (proj2 (str_eqb_neq _ _) Hl).
  rewrite !not_elem_of_cons in Hd. destruct Hd as (H1 & H2 & H3 & _).
  by rewrite !(proj2 (N.eqb_neq _ _)), (proj2 (Nat.eqb_neq _ _)).
Qed.

Lemma chunk_loop_printed ln c rest :
  chunk_is_empty c = false -> (is_end_of_file c = false -> stops rest) ->
  chunk_loop ln (print_body c ++ print_eof (is_end_of_file c) ++ rest) (empty_chunk (change_context c)) 0 =
  Ok (c, length (print_body c ++ print_eof (is_end_of_file c))).
Proof.
  intros Hne Hstop. unfold print_body. rewrite chunk_loop_ops.
  destruct (layout_ok c) as [Ho Hn]. rewrite Ho, Hn, length_app, length_map.
  assert (length (layout c) <> 0) as Hlen.
  { unfold chunk_is_empty in Hne. rewrite <- Ho, <- Hn in Hne. by destruct (layout c). }
  destruct c as [ctx o w e]; simpl in *. unfold append_lines; simpl.
  destruct e; simpl.
  - rewrite (proj2 (Nat.eqb_neq _ _) Hlen). unfold set_eof; simpl. by repeat f_equal; lia.
  - rewrite chunk_loop_stops by auto. by rewrite Nat.add_0_r.
Qed.

Lemma parse_printed_chunk c rest ln b :
  chunk_is_empty c = false -> (is_end_of_file c = false -> stops rest) ->
  parse_update_file_chunk (print_chunk c ++ rest) ln b = Ok (c, length (print_chunk c)).
Proof.
  intros Hne Hstop. unfold print_chunk, parse_update_file_chunk. cbn [app].
  assert (print_body c <> []) as Hb.
  { unfold print_body. unfold chunk_is_empty in Hne. destruct (layout_ok c) as [Ho Hn].
    rewrite <- Ho, <- Hn in Hne. by destruct (layout c). }
  replace (if str_eqb (print_context (change_context c)) EMPTY_CHANGE_CONTEXT_MARKER then _ else _)
    with (@Ok ParseError _ (change_context c, 1)).
  2: { destruct (change_context c); [|done]. cbn [print_context].
       replace (str_eqb _ _) with false by done. by rewrite strip_prefix_app. }
  cbn [comp_bind]. rewrite <- app_assoc.
  replace (_ <=? 1) with false.
  2: { symmetry. apply Nat.leb_gt. destruct (print_body c); [done|]. simpl. lia. }
  rewrite slice_from_returns by (simpl; lia). cbn [comp_bind drop]. rewrite drop_0.
  rewrite chunk_loop_printed by done. cbn [comp_bind]. do 2 f_equal. simpl. lia.
Qed.

(** Where an update hunk ends: at the end of the patch or at the next header. *)
Definition ends_hunk (rest : list str) : Prop :=
  match rest with
  | [] => True
  | l :: _ => l <> EOF_MARKER /\ exists tl, l = 42%N :: tl
  end.

Lemma ends_hunk_stops rest : ends_hunk rest -> stops rest.
Proof.
  destruct rest as [|l rest]; [done|]. intros (Hl & tl & ->). split; [done|].
  eexists _, _. split; [done|]. set_solver.
Qed.

Lemma print_chunks_stop cs rest : ends_hunk rest -> stops (concat (map print_chunk cs) ++ rest).
Proof.
  destruct cs as [|c cs]; [apply ends_hunk_stops|]. intros _. simpl.
  destruct (change_context c); simpl; (split; [done|]); eexists _, _; (split; [done|]); vm_compute; set_solver.
Qed.

Lemma trim_context ctx : str_eqb (trim (print_context ctx)) [] = false.
Proof.
  apply str_eqb_neq. destruct ctx as [s|]; [|done]. cbn [print_context].
  unfold trim, CHANGE_CONTEXT_MARKER. change (&"@@ " ++ s) with (64%N :: 64%N :: 32%N :: s).
  rewrite trim_start_id by done. by rewrite trim_end_cons.
Qed.

Lemma context_not_star ctx : starts_with &"*" (print_context ctx) = false.
Proof. by destruct ctx. Qed.

Lemma update_loop_printed fuel ln cs rest n acc :
  forallb wf_chunk cs = true -> ends_hunk rest ->
  length (concat (map print_chunk cs) ++ rest) < fuel ->
  update_loop fuel ln (concat (map print_chunk cs) ++ rest) n acc =
  Ok (acc ++ cs, n + length (concat (map print_chunk cs))).
Proof.
  revert cs n acc; induction fuel as [|fuel IH]; intros cs n acc Hwf Hr Hf; [lia|].
  destruct cs as [|c cs]; cbn [concat map app] in *.
  - rewrite app_nil_r, Nat.add_0_r. destruct rest as [|l rest]; [done|].
    cbn [update_loop]. destruct Hr as (_ & tl & ->).
    assert (str_eqb (trim (42%N :: tl)) [] = false) as ->.
    { apply str_eqb_neq. unfold trim. rewrite trim_start_id by done. by rewrite trim_end_cons. }
    done.
  - cbn [forallb] in Hwf. apply andb_prop in Hwf as [Hc Hwf].
    pose proof Hc as Hc'. unfold wf_chunk in Hc'. rewrite !andb_true_iff, negb_true_iff in Hc'.
    destruct Hc' as [[[_ Hne] _] _].
    rewrite <- app_assoc in *.
    change (print_chunk c ++ concat (map print_chunk cs) ++ rest) with
      (print_context (change_context c) :: (print_body c ++ print_eof (is_end_of_file c)) ++ concat (map print_chunk cs) ++ rest) at 1.
    cbn [update_loop]. rewrite trim_context, context_not_star.
    change (print_context (change_context c) :: (print_body c ++ print_eof (is_end_of_file c)) ++ concat (map print_chunk cs) ++ rest)
      with (print_chunk c ++ concat (map print_chunk cs) ++ rest).
    rewrite parse_printed_chunk; [|done|intros; by apply print_chunks_stop].
    cbn [comp_bind]. rewrite slice_from_returns by (rewrite length_app; lia).
    cbn [comp_bind]. rewrite drop_app_length, IH; [|done|done|].
    + rewrite length_app, <- app_assoc. do 2 f_equal. lia.
    + rewrite length_app in Hf. simpl in Hf. lia.
Qed.

Lemma add_loop_printed ls rest contents n :
  (match rest with [] => True | l :: _ => strip_prefix &"+" l = None end) ->
  add_loop (map plus ls ++ rest) contents n =
  (contents ++ concat (map (fun l => l ++ [nl]) ls), n + length ls).
Proof.
  intros Hr. revert contents n; induction ls as [|l ls IH]; intros contents n; simpl.
  - rewrite app_nil_r, Nat.add_0_r. destruct rest as [|r rest]; [done|]. simpl. by rewrite Hr.
  - replace (strip_prefix &"+" (plus l)) with (Some l) by done.
    rewrite IH. rewrite <- !app_assoc. f_equal. lia.
Qed.

Lemma parse_printed_hunk h rest ln :
  wf_hunk h = true -> ends_hunk rest ->
  parse_one_hunk (print_hunk h ++ rest) ln = Ok (h, length (print_hunk h)).
Proof.
  intros Hwf Hr. destruct h as [path contents|path|path mv cs]; cbn [wf_hunk print_hunk app] in *;
    rewrite parse_one_hunk_cons; rewrite ?andb_true_iff in Hwf.
  - destruct Hwf as [[Hp Hc%bool_decide_eq_true] _].
    rewrite trim_marker, strip_prefix_app by done.
    rewrite add_loop_printed.
    2: { destruct rest as [|l rest]; [done|]. by destruct Hr as (_ & tl & ->). }
    pose proof (split_nl_concat contents) as Hs. rewrite Hc, app_nil_r in Hs.
    cbn [length app]. by rewrite length_map, <- Hs.
  - rewrite trim_marker by done. replace (strip_prefix ADD_FILE_MARKER _) with (@None str) by done.
    by rewrite strip_prefix_app.
  - destruct Hwf as [[[Hp Hm] Hne] Hcs]. rewrite trim_marker by done.
    replace (strip_prefix ADD_FILE_MARKER _) with (@None str) by done.
    replace (strip_prefix DELETE_FILE_MARKER _) with (@None str) by done.
    rewrite strip_prefix_app. rewrite <- app_assoc.
    destruct cs as [|c cs'] eqn:Ecs; [done|]. rewrite <- Ecs in *.
    destruct mv as [m|]; cbn [app head mbind option_bind tail].
    + rewrite strip_prefix_app. rewrite update_loop_printed by (done || lia).
      cbn [comp_bind app]. by rewrite Ecs.
    + assert (head (concat (map print_chunk cs) ++ rest) ≫= strip_prefix MOVE_TO_MARKER = None) as ->.
      { rewrite Ecs. simpl. by destruct (change_context c). }
      rewrite update_loop_printed by (done || lia).
      cbn [comp_bind app]. by rewrite Ecs.
Qed.

Lemma print_lines_ends hs : ends_hunk (print_lines hs).
Proof.
  destruct hs as [|[] hs]; [done|..]; (split; [done|]); by eexists.
Qed.

Lemma hunks_loop_printed fuel hs ln acc :
  forallb wf_hunk hs = true -> length (print_lines hs) < fuel ->
  hunks_loop fuel (print_lines hs) ln acc = Ok (acc ++ hs).
Proof.
  revert hs ln acc; induction fuel as [|fuel IH]; intros hs ln acc Hwf Hf; [lia|].
  destruct hs as [|h hs]; [by rewrite app_nil_r|].
  cbn [forallb] in Hwf. apply andb_prop in Hwf as [Hh Hwf].
  change (print_lines (h :: hs)) with (print_hunk h ++ print_lines hs) in *.
  assert (exists l ls, print_hunk h = l :: ls) as (l & ls & El) by (destruct h; eauto).
  cbn [hunks_loop]. rewrite El. cbn [app].
  change (l :: ls ++ print_lines hs) with ((l :: ls) ++ print_lines hs). rewrite <- El.
  rewrite parse_printed_hunk by (done || apply print_lines_ends).
  cbn [comp_bind]. rewrite slice_from_returns by (rewrite length_app; lia). cbn [comp_bind].
  rewrite drop_app_length, IH; [by rewrite <- app_assoc|done|].
  rewrite length_app, El in Hf. simpl in Hf. lia.
Qed.

(** ** Round trips *)

Lemma nl_not_in_marker : nl ∉ END_PATCH_MARKER.
Proof. not_nl. Qed.

Lemma print_preamble_line_ok env hs :
  wf_env env = true -> forallb wf_hunk hs = true ->
  Forall (fun l => line_ok l = true) (BEGIN_PATCH_MARKER ::
    (match env with Some e => [ENVIRONMENT_ID_MARKER ++ e] | None => [] end) ++ print_lines hs).
Proof.
  intros He Hhs. constructor; [done|]. apply Forall_app. split; [|by apply print_lines_line_ok].
  destruct env; repeat constructor. simpl in He. apply andb_prop in He as [He _].
  apply line_ok_marker; [not_nl|done].
Qed.

(** A text that starts and ends with a marker is not changed by trimming. *)
Lemma trim_print_patch env hs : trim (print_patch env hs) = print_patch env hs.
Proof.
  assert (forall (ls : list str) e, exists s, join [nl] (ls ++ [e]) = s ++ e) as Hend.
  { induction ls as [|l ls IH]; intros e; simpl; [by exists []|].
    destruct (IH e) as (s & Hs). destruct (ls ++ [e]) eqn:E; [by destruct ls|].
    rewrite Hs. exists (l ++ nl :: s). by rewrite <- app_assoc. }
  unfold print_patch. apply trim_id; [cbn [app join]; by destruct (_ ++ [END_PATCH_MARKER])|].
  destruct (Hend (BEGIN_PATCH_MARKER ::
    (match env with Some e => [ENVIRONMENT_ID_MARKER ++ e] | None => [] end) ++ print_lines hs)
    END_PATCH_MARKER) as (s & ->).
  by apply trimmed_r_app.
Qed.

Lemma lines_print_patch env hs :
  wf_env env = true -> forallb wf_hunk hs = true ->
  lines (print_patch env hs) =
  (BEGIN_PATCH_MARKER ::
    (match env with Some e => [ENVIRONMENT_ID_MARKER ++ e] | None => [] end) ++ print_lines hs)
    ++ [END_PATCH_MARKER].
Proof. intros. apply lines_join; [by apply print_preamble_line_ok|apply nl_not_in_marker|done]. Qed.

Lemma check_boundaries_printed mid :
  check_patch_boundaries_strict ((BEGIN_PATCH_MARKER :: mid) ++ [END_PATCH_MARKER]) =
  Ok ((BEGIN_PATCH_MARKER :: mid) ++ [END_PATCH_MARKER], mid).
Proof.
  unfold check_patch_boundaries_strict.
  destruct (mid ++ [END_PATCH_MARKER]) eqn:E; [by destruct mid|].
  cbn [app]. rewrite E.
  replace (last (BEGIN_PATCH_MARKER :: l :: l0)) with (Some END_PATCH_MARKER).
  2: { rewrite <- E, app_comm_cons. by rewrite last_snoc. }
  replace (check_start_and_end_lines_strict _ _) with (@Ok ParseError _ tt) by done.
  cbn [comp_bind]. rewrite <- E.
  rewrite slice_returns by (simpl; rewrite ?length_app; simpl; lia). cbn [comp_bind drop].
  rewrite drop_0. do 2 f_equal. simpl. rewrite length_app. simpl.
  replace (length mid + 1 - 0 - 1) with (length mid) by lia. by rewrite take_app_length.
Qed.

Lemma preamble_printed env hs :
  wf_env env = true ->
  exists ln, parse_environment_id_preamble
    ((match env with Some e => [ENVIRONMENT_ID_MARKER ++ e] | None => [] end) ++ print_lines hs) =
  Ok (env, print_lines hs, ln).
Proof.
  intros He. destruct env as [e|]; simpl in He.
  - apply andb_prop in He as [He Hl]. pose proof He as (Hne & _ & Hr)%wf_text_spec.
    exists 3. cbn [app parse_environment_id_preamble].
    rewrite trim_start_id by done. rewrite strip_prefix_app, (trim_id e) by done.
    by destruct e.
  - exists 2. destruct hs as [|[] hs]; [done|..]; cbn [app];
      change (print_lines (?h :: hs)) with (print_hunk h ++ print_lines hs);
      cbn [print_hunk app parse_environment_id_preamble];
      by rewrite trim_start_id by done.
Qed.

(** C2: printing and parsing a patch are inverse: every list of well-formed hunks
    (with an optional environment id), written in the documented grammar with
    any arrangement of context, removed and added lines, is read back by the batch parser, in both modes, as exactly those hunks. *)
Theorem parse_print_patch (env : option str) (hs : list Hunk) (m : ParseMode)
  (Henv : wf_env env = true) (Hwf : forallb wf_hunk hs = true) :
  parse_patch_text (print_patch env hs) m =
  Ok {| patch := print_patch env hs; hunks := hs; workdir := None; environment_id := env |}.
Proof.
  unfold parse_patch_text. rewrite trim_print_patch, lines_print_patch by done.
  set (mid := (match env with Some e => [ENVIRONMENT_ID_MARKER ++ e] | None => [] end) ++ print_lines hs).
  replace (match m with Strict => _ | Lenient => _ end) with
    (@Ok ParseError _ ((BEGIN_PATCH_MARKER :: mid) ++ [END_PATCH_MARKER], mid)).
  2: { unfold check_patch_boundaries_lenient. rewrite check_boundaries_printed. by destruct m. }
  cbn [comp_bind]. destruct (preamble_printed env hs Henv) as (ln & Hp). fold mid in Hp.
  rewrite Hp. cbn [comp_bind]. rewrite hunks_loop_printed by (done || lia). done.
Qed.

(** ** The streaming parser reads the printed lines *)

(** Complete lines, processed one after the other. *)
Fixpoint run (p : StreamingPatchParser) (ls : list str) : comp ParseError StreamingPatchParser :=
  match ls with
  | [] => Ok p
  | l :: ls' => let? p' := process_line (take_line p) l in run p' ls'
  end.

Lemma run_app p a b : run p (a ++ b) = (let? p' := run p a in run p' b).
Proof.
  revert p; induction a as [|l a IH]; intros p; simpl; [done|].
  destruct (process_line _ _); simpl; [apply IH|done..].
Qed.

Lemma push_delta_chars p s rest :
  nl ∉ s ->
  push_delta p (s ++ rest) =
  push_delta {| line_buffer := line_buffer p ++ s; mode := mode p; s_hunks := s_hunks p;
                line_number := line_number p |} rest.
Proof.
  revert p; induction s as [|c s IH]; intros p Hs; simpl.
  - rewrite app_nil_r. by destruct p.
  - apply not_elem_of_cons in Hs as [Hc Hs]. destruct (N.eqb_spec c nl); [done|].
    rewrite IH by done. simpl. by rewrite <- app_assoc.
Qed.

Lemma process_line_buffer p l p' :
  process_line p l = Ok p' -> line_buffer p = [] -> line_buffer p' = [].
Proof.
  intros H Hb. unfold process_line, handle_hunk_headers_and_end_patch in H.
  repeat (case_match || (apply comp_bind_Ok in H as (? & ? & H)));
    repeat match goal with E : comp_bind _ _ = Ok _ |- _ => apply comp_bind_Ok in E as (? & ? & E) end;
    by simplify_eq/=.
Qed.

Lemma push_delta_lines p ls rest p' :
  Forall (fun l => line_ok l = true) ls -> line_buffer p = [] -> run p ls = Ok p' ->
  push_delta p (concat (map (fun l => l ++ [nl]) ls) ++ rest) = push_delta p' rest /\ line_buffer p' = [].
Proof.
  intros Hls. revert p; induction Hls as [|l ls Hl _ IH]; intros p Hb Hrun; simpl in *; [by simplify_eq|].
  apply comp_bind_Ok in Hrun as (p1 & Hp & Hrun). apply line_ok_strip in Hl as [Hcr Hnl].
  rewrite <- !app_assoc. rewrite push_delta_chars by done. simpl. rewrite Hb. simpl. rewrite Hcr.
  change (take_line _) with (take_line p). rewrite Hp. apply IH; [|done].
  by eapply process_line_buffer.
Qed.

(** Lines that are no header: they start with a sign or a context marker. *)
Lemma handle_no_header p c s :
  c <> 42%N -> handle_hunk_headers_and_end_patch p (c :: s) = Ok None.
Proof.
  intros Hc. unfold handle_hunk_headers_and_end_patch.
  assert (forall m, head m = Some 42%N -> strip_prefix m (c :: s) = None) as Hn.
  { intros [|x m] Hx; simplify_eq/=. unfold strip_prefix. by destruct (N.eqb_spec 42 c). }
  assert (str_eqb (c :: s) END_PATCH_MARKER = false) as -> by (apply str_eqb_neq; intros [=]; done).
  by rewrite !Hn.
Qed.

Lemma ensure_full p line : Forall hunk_full (s_hunks p) -> ensure_update_hunk_is_not_empty p line = Ok tt.
Proof.
  unfold ensure_update_hunk_is_not_empty. intros Hf.
  destruct (list_snoc_cases (s_hunks p)) as [E|(hs & h & E)]; rewrite E in *; [done|].
  rewrite last_snoc. apply Forall_app in Hf as [_ [Hf _]%Forall_cons].
  destruct h as [| |path mv cs]; [done..|]. destruct Hf as [Hne Hc].
  destruct (list_snoc_cases cs) as [-> |(cs' & c & ->)]; [done|].
  unfold last_chunk_empty. rewrite last_snoc. apply Forall_app in Hc as [_ [Hc _]%Forall_cons].
  rewrite Hc. by destruct cs'.
Qed.

(** A parser between hunks. *)
Definition ready (p : StreamingPatchParser) : Prop :=
  mode p <> NotStarted /\ mode p <> EndedPatch /\ Forall hunk_full (s_hunks p).

(** A parser inside an update hunk whose chunks are all complete but the last. *)
Definition updating (p : StreamingPatchParser) hs path mv cs : Prop :=
  (exists k, mode p = ModeUpdateFile k) /\ s_hunks p = hs ++ [UpdateFile path mv cs].

(** A header line of a printed hunk starts the hunk. *)
Lemma header_step p line h m :
  ready p -> trim line = line -> trim_end line = line -> is_environment_id_preamble_line line = false ->
  (forall q, Forall hunk_full (s_hunks q) ->
     handle_hunk_headers_and_end_patch q line = Ok (Some (push_hunk h (m (line_number q)) q))) ->
  exists p' k, process_line (take_line p) line = Ok p' /\ s_hunks p' = s_hunks p ++ [h] /\ mode p' = m k.
Proof.
  intros (Hns & Hne & Hf) Ht Hte Henv Hh. unfold process_line. rewrite Ht, Hte, Henv.
  specialize (Hh (take_line p) Hf).
  exists (push_hunk h (m (line_number (take_line p))) (take_line p)), (line_number (take_line p)).
  change (mode (take_line p)) with (mode p).
  destruct (mode p); try done; by rewrite Hh.
Qed.

Lemma run_add ls p hs path contents :
  mode p = ModeAddFile -> s_hunks p = hs ++ [AddFile path contents] ->
  exists p', run p (map plus ls) = Ok p' /\ mode p' = ModeAddFile /\
    s_hunks p' = hs ++ [AddFile path (contents ++ concat (map (fun l => l ++ [nl]) ls))].
Proof.
  revert p contents; induction ls as [|l ls IH]; intros p contents Hm Hs; cbn [map run concat].
  { exists p. by rewrite app_nil_r. }
  assert (process_line (take_line p) (plus l) =
    Ok (set_hunks (hs ++ [AddFile path (contents ++ l ++ [nl])]) (take_line p))) as ->.
  { unfold process_line. change (mode (take_line p)) with (mode p). rewrite Hm.
    replace (trim (plus l)) with (43%N :: trim_end l).
    2: { unfold trim, plus. rewrite trim_start_id by done. by rewrite trim_end_cons. }
    rewrite handle_no_header by done. cbn [comp_bind].
    change (strip_prefix &"+" (plus l)) with (Some l).
    change (s_hunks (take_line p)) with (s_hunks p). rewrite Hs, last_snoc.
    by rewrite update_last_snoc. }
  cbn [comp_bind].
  destruct (IH (set_hunks (hs ++ [AddFile path (contents ++ l ++ [nl])]) (take_line p)) (contents ++ l ++ [nl]))
    as (p' & Hr & Hm' & Hs'); [done|done|].
  exists p'. rewrite <- !app_assoc in *. done.
Qed.

(** A line that starts with a space loses at most its end. *)
Lemma trim_end_space s : trim_end (32%N :: s) = [] \/ trim_end (32%N :: s) = 32%N :: trim_end s.
Proof.
  unfold trim_end. rewrite reverse_cons.
  assert (forall r, trim_start (r ++ [32%N]) = [] \/ trim_start (r ++ [32%N]) = trim_start r ++ [32%N]) as Ht.
  { induction r as [|x r IH]; [by left|]. simpl. case_match; [done|by right]. }
  destruct (Ht (reverse s)) as [-> | ->]; [by left|right]. by rewrite reverse_snoc.
Qed.

(** One line inside an update hunk. *)
Lemma update_step p hs path mv cs c s mv' cs' :
  updating p hs path mv cs -> c <> 42%N \/ starts_with MOVE_TO_MARKER (trim_end (c :: s)) = true \/
    trim_end (c :: s) = EOF_MARKER ->
  is_whitespace c = false \/ c = 32%N ->
  process_update_line (take_line p) (c :: s) (trim_end (c :: s)) mv cs = Ok (mv', cs') ->
  exists p', process_line (take_line p) (c :: s) = Ok p' /\ updating p' hs path mv' cs'.
Proof.
  intros [[k Hm] Hs] Hc Hw Hp. unfold process_line.
  change (mode (take_line p)) with (mode p). rewrite Hm.
  replace (handle_hunk_headers_and_end_patch _ _) with (@Ok ParseError (option StreamingPatchParser) None).
  2: { destruct Hc as [Hc|[Hc|Hc]].
       - destruct Hw as [Hw| ->]; [rewrite trim_end_cons by done; by rewrite handle_no_header|].
         destruct (trim_end_space s) as [-> | ->]; [done|by rewrite handle_no_header].
       - apply starts_with_spec in Hc as [r ->]. done.
       - by rewrite Hc. }
  cbn [comp_bind]. change (s_hunks (take_line p)) with (s_hunks p). rewrite Hs, last_snoc, Hp.
  cbn [comp_bind]. eexists. split; [done|]. split; [by eexists|].
  simpl. by rewrite update_last_snoc.
Qed.

(** A line of the body goes to the last chunk. *)
Lemma op_step p hs path mv cs c0 o :
  updating p hs path mv (cs ++ [c0]) ->
  exists p', process_line (take_line p) (print_op o) = Ok p' /\ updating p' hs path mv (cs ++ [push_op o c0]).
Proof.
  intros Hu. assert (exists x l, print_op o = x :: l /\ x <> 42%N /\ (is_whitespace x = false \/ x = 32%N)
    /\ x ∈ [32; 43; 45]%N) as (x & l & Ho & Hx & Hw & Hin).
  { destruct o as [l|l|l]; eexists _, l; (split; [done|]); split_and!; try done; set_solver. }
  rewrite Ho. eapply update_step; [exact Hu|by left|done|].
  assert (exists u, trim_end (x :: l) = u /\ (u = [] \/ exists r, u = x :: r)) as (u & -> & Hu').
  { eexists. split; [done|]. destruct Hw as [Hw| ->]; [right; rewrite trim_end_cons by done; by eexists|].
    destruct (trim_end_space l) as [-> | ->]; [by left|right; by eexists]. }
  assert (str_eqb u EMPTY_CHANGE_CONTEXT_MARKER = false /\ strip_prefix CHANGE_CONTEXT_MARKER u = None /\
    str_eqb u EOF_MARKER = false /\ starts_with CHANGE_CONTEXT_MARKER u = false) as (E1 & E2 & E3 & E4).
  { rewrite !elem_of_cons in Hin. destruct Hu' as [-> |[r ->]]; [done|].
    destruct Hin as [-> |[-> |[-> |?%not_elem_of_nil]]]; done. }
  unfold process_update_line. rewrite (bool_decide_eq_false_2 (_ ++ _ = [])) by (by destruct cs).
  cbn [andb]. rewrite E1, E2, E3, E4. cbn [orb andb].
  replace (ensure_chunk (cs ++ [c0])) with (cs ++ [c0]) by (by destruct cs).
  unfold push_op, append_lines. destruct o as [y|y|y]; simpl in Ho; injection Ho as <- <-; rewrite ?app_nil_r.
  - change (strip_prefix &" " (32%N :: y)) with (Some y). cbv iota. by rewrite (update_last_snoc (fun c => push_new y (push_old y c))).
  - change (strip_prefix &"-" (45%N :: y)) with (Some y). cbv iota. by rewrite (update_last_snoc (push_old y)).
  - change (strip_prefix &"+" (43%N :: y)) with (Some y). cbv iota. by rewrite (update_last_snoc (push_new y)).
Qed.

Lemma run_ops ops p hs path mv cs c0 :
  updating p hs path mv (cs ++ [c0]) ->
  exists p', run p (map print_op ops) = Ok p' /\
    updating p' hs path mv (cs ++ [append_lines (omap op_old ops) (omap op_new ops) c0]).
Proof.
  revert p c0; induction ops as [|o ops IH]; intros p c0 Hu; cbn [map run].
  { exists p. by rewrite append_lines_nil. }
  destruct (op_step _ _ _ _ _ _ o Hu) as (p1 & -> & Hu1). cbn [comp_bind].
  destruct (IH _ _ Hu1) as (p2 & Hr & Hu2). exists p2. by rewrite push_op_app in Hu2.
Qed.

Lemma context_step p hs path mv cs ctx :
  updating p hs path mv cs -> Forall (fun c => chunk_is_empty c = false) cs ->
  (match ctx with Some x => wf_text x | None => true end) = true ->
  exists p', process_line (take_line p) (print_context ctx) = Ok p' /\
    updating p' hs path mv (cs ++ [empty_chunk ctx]).
Proof.
  intros Hu Hcs Hctx.
  assert (last_chunk_empty cs = false) as Hl.
  { unfold last_chunk_empty. destruct (list_snoc_cases cs) as [-> |(cs' & c & ->)]; [done|].
    rewrite last_snoc. by apply Forall_app in Hcs as [_ [Hc _]%Forall_cons]. }
  assert (exists s, print_context ctx = 64%N :: s) as [s Hs] by (destruct ctx; by eexists).
  assert (trim_end (print_context ctx) = print_context ctx) as Ht.
  { destruct ctx; [by apply trim_end_marker|done]. }
  rewrite Hs in *. eapply update_step; [exact Hu|by left|by left|].
  unfold process_update_line. rewrite Ht, Hl, andb_false_r.
  replace (if bool_decide (cs = []) && bool_decide (mv = None)
    then strip_prefix MOVE_TO_MARKER (64%N :: s) else None) with (@None str)
    by (by destruct (bool_decide (cs = []) && bool_decide (mv = None))).
  rewrite <- Hs. destruct ctx as [x|]; cbn [print_context]; [|done].
  replace (str_eqb _ EMPTY_CHANGE_CONTEXT_MARKER) with false.
  2: { symmetry. apply str_eqb_neq. apply wf_text_spec in Hctx as [Hx _]. by destruct x. }
  by rewrite strip_prefix_app.
Qed.

Lemma eof_step p hs path mv cs c0 eof :
  updating p hs path mv (cs ++ [c0]) -> chunk_is_empty c0 = false ->
  exists p', run p (print_eof eof) = Ok p' /\
    updating p' hs path mv (cs ++ [if eof then set_eof c0 else c0]).
Proof.
  intros Hu Hne. destruct eof; [|by exists p]. cbn [print_eof run].
  assert (process_update_line (take_line p) EOF_MARKER (trim_end EOF_MARKER) mv (cs ++ [c0]) =
    Ok (mv, cs ++ [set_eof c0])) as Hp.
  { unfold process_update_line.
    rewrite (bool_decide_eq_false_2 (_ ++ _ = [])) by (by destruct cs). cbn [andb].
    unfold last_chunk_empty. rewrite last_snoc, Hne. by rewrite update_last_snoc. }
  destruct (update_step p hs path mv (cs ++ [c0]) 42%N (tail EOF_MARKER) mv (cs ++ [set_eof c0]))
    as (p' & Hr & Hu'); [done|by right; right|by left|exact Hp|].
  exists p'. change (42%N :: tail EOF_MARKER) with EOF_MARKER in Hr. by rewrite Hr.
Qed.

Lemma run_chunk p hs path mv cs c :
  updating p hs path mv cs -> Forall (fun c => chunk_is_empty c = false) cs -> wf_chunk c = true ->
  exists p', run p (print_chunk c) = Ok p' /\ updating p' hs path mv (cs ++ [c]).
Proof.
  intros Hu Hcs Hwf. unfold wf_chunk in Hwf. rewrite !andb_true_iff, negb_true_iff in Hwf.
  destruct Hwf as [[[Hctx Hne] _] _]. unfold print_chunk, print_body. cbn [run].
  destruct (context_step _ _ _ _ _ _ Hu Hcs Hctx) as (p1 & -> & Hu1). cbn [comp_bind].
  rewrite !run_app. destruct (run_ops (layout c) _ _ _ _ _ _ Hu1) as (p3 & -> & Hu3).
  destruct (layout_ok c) as [Ho Hn]. rewrite Ho, Hn in Hu3. cbn [comp_bind].
  destruct (eof_step _ _ _ _ _ _ (is_end_of_file c) Hu3) as (p4 & -> & Hu4); [by destruct c|].
  exists p4. split; [done|]. destruct c as [ctx o w []]; exact Hu4.
Qed.

Lemma run_chunks cs' p hs path mv cs :
  updating p hs path mv cs -> Forall (fun c => chunk_is_empty c = false) cs ->
  forallb wf_chunk cs' = true ->
  exists p', run p (concat (map print_chunk cs')) = Ok p' /\ updating p' hs path mv (cs ++ cs') /\
    Forall (fun c => chunk_is_empty c = false) (cs ++ cs').
Proof.
  revert p cs; induction cs' as [|c cs' IH]; intros p cs Hu Hcs Hwf; cbn [map concat].
  { exists p. by rewrite app_nil_r. }
  cbn [forallb] in Hwf. apply andb_prop in Hwf as [Hc Hwf].
  rewrite run_app. destruct (run_chunk _ _ _ _ _ c Hu Hcs Hc) as (p1 & -> & Hu1). cbn [comp_bind].
  destruct (IH p1 (cs ++ [c]) Hu1) as (p2 & Hr & Hu2); [|done|].
  - apply Forall_app_2; [done|]. constructor; [|done]. unfold wf_chunk in Hc.
    rewrite !andb_true_iff, negb_true_iff in Hc. tauto.
  - exists p2. by rewrite <- app_assoc in Hu2.
Qed.

Lemma move_step p hs path m :
  updating p hs path None [] -> wf_text m = true ->
  exists p', process_line (take_line p) (MOVE_TO_MARKER ++ m) = Ok p' /\ updating p' hs path (Some m) [].
Proof.
  intros Hu Hm. pose proof (trim_end_marker MOVE_TO_MARKER m Hm) as Ht.
  apply (update_step p hs path None [] 42%N (tail MOVE_TO_MARKER ++ m)); [done|..].
  - right; left. change (42%N :: tail MOVE_TO_MARKER ++ m) with (MOVE_TO_MARKER ++ m).
    rewrite Ht. apply starts_with_spec. by exists m.
  - by left.
  - change (42%N :: tail MOVE_TO_MARKER ++ m) with (MOVE_TO_MARKER ++ m).
    unfold process_update_line. rewrite Ht. cbn [bool_decide andb].
    change (if bool_decide (@nil UpdateFileChunk = []) && bool_decide (@None str = None) then ?a else ?b) with a.
    by rewrite strip_prefix_app.
Qed.

(** Header lines of the three kinds of hunks. *)
Definition headers (path : str) : list (str * Hunk * (nat -> StreamingParserMode)) :=
  [(ADD_FILE_MARKER, AddFile path [], fun _ => ModeAddFile);
   (DELETE_FILE_MARKER, DeleteFile path, fun _ => ModeDeleteFile);
   (UPDATE_FILE_MARKER, UpdateFile path None [], ModeUpdateFile)].

Lemma handle_header q marker path h m :
  (marker, h, m) ∈ headers path -> Forall hunk_full (s_hunks q) ->
  handle_hunk_headers_and_end_patch q (marker ++ path) =
  Ok (Some (push_hunk h (m (line_number q)) q)).
Proof.
  intros Hin Hq. unfold handle_hunk_headers_and_end_patch.
  unfold headers in Hin. rewrite !elem_of_cons in Hin.
  destruct Hin as [?|[?|[?|[]%elem_of_nil]]]; simplify_eq;
    (replace (str_eqb _ END_PATCH_MARKER) with false by done); rewrite ensure_full by done.
  - by rewrite strip_prefix_app.
  - replace (strip_prefix ADD_FILE_MARKER _) with (@None str) by done. by rewrite strip_prefix_app.
  - replace (strip_prefix ADD_FILE_MARKER _) with (@None str) by done.
    replace (strip_prefix DELETE_FILE_MARKER _) with (@None str) by done. by rewrite strip_prefix_app.
Qed.

Lemma header_line_step p marker path h m :
  ready p -> wf_text path = true -> (marker, h, m) ∈ headers path ->
  exists p' k, process_line (take_line p) (marker ++ path) = Ok p' /\
    s_hunks p' = s_hunks p ++ [h] /\ mode p' = m k.
Proof.
  intros Hr Hp Hin. apply header_step; [done|..|intros q Hq; by apply handle_header];
    unfold headers in Hin; rewrite !elem_of_cons in Hin;
    destruct Hin as [?|[?|[?|[]%elem_of_nil]]]; simplify_eq;
    solve [by apply trim_marker | by apply trim_end_marker | done].
Qed.

Lemma ready_snoc p hs h :
  mode p <> NotStarted -> mode p <> EndedPatch -> s_hunks p = hs ++ [h] ->
  Forall hunk_full hs -> hunk_full h -> ready p.
Proof. intros ? ? Hs ? ?. split_and!; [done..|]. rewrite Hs. by apply Forall_app_2; [|repeat constructor]. Qed.

Lemma run_add_hunk p path contents :
  ready p -> wf_hunk (AddFile path contents) = true ->
  exists p', run p (print_hunk (AddFile path contents)) = Ok p' /\ ready p' /\
    s_hunks p' = s_hunks p ++ [AddFile path contents].
Proof.
  intros Hr Hwf. pose proof Hr as (_ & _ & Hf). cbn [wf_hunk print_hunk run] in *.
  rewrite !andb_true_iff in Hwf. destruct Hwf as [[Hp Hc%bool_decide_eq_true] _].
  destruct (header_line_step p ADD_FILE_MARKER path (AddFile path []) (fun _ => ModeAddFile))
    as (p1 & k & -> & Hs1 & Hm1); [done|done|unfold headers; set_solver|].
  cbn [comp_bind]. destruct (run_add (split_nl contents).1 p1 _ _ _ Hm1 Hs1) as (p2 & -> & Hm2 & Hs2).
  pose proof (split_nl_concat contents) as Hcc. rewrite Hc, app_nil_r in Hcc. cbn [app] in Hs2.
  rewrite <- Hcc in Hs2. exists p2. split_and!; [done| |done].
  by apply (ready_snoc p2 (s_hunks p) (AddFile path contents)); rewrite ?Hm2.
Qed.

Lemma run_update_hunk p path mv cs :
  ready p -> wf_hunk (UpdateFile path mv cs) = true ->
  exists p', run p (print_hunk (UpdateFile path mv cs)) = Ok p' /\ ready p' /\
    s_hunks p' = s_hunks p ++ [UpdateFile path mv cs].
Proof.
  intros Hr Hwf. pose proof Hr as (_ & _ & Hf). cbn [wf_hunk print_hunk run] in *.
  rewrite !andb_true_iff in Hwf. destruct Hwf as [[[Hp Hm] Hne] Hcs].
  apply negb_true_iff, bool_decide_eq_false in Hne.
  destruct (header_line_step p UPDATE_FILE_MARKER path (UpdateFile path None []) ModeUpdateFile)
    as (p1 & k & -> & Hs1 & Hm1); [done|done|unfold headers; set_solver|].
  cbn [comp_bind].
  assert (updating p1 (s_hunks p) path None []) as Hu1 by (split; [by eexists|done]).
  assert (exists p2, run p1 (match mv with Some m => [MOVE_TO_MARKER ++ m] | None => [] end) = Ok p2 /\
    updating p2 (s_hunks p) path mv []) as (p2 & Hr2 & Hu2).
  { destruct mv as [m|]; [|by exists p1].
    destruct (move_step _ _ _ _ Hu1 Hm) as (p2 & Hp2 & Hu2). exists p2. cbn [run]. by rewrite Hp2. }
  rewrite run_app, Hr2. cbn [comp_bind].
  destruct (run_chunks cs p2 _ _ _ _ Hu2) as (p3 & -> & [[k3 Hm3] Hs3] & Hc3); [done|done|].
  exists p3. split_and!; [done| |done].
  by apply (ready_snoc p3 (s_hunks p) (UpdateFile path mv cs)); rewrite ?Hm3.
Qed.

(** A printed hunk is read from any state between hunks. *)
Lemma run_hunk p h :
  ready p -> wf_hunk h = true ->
  exists p', run p (print_hunk h) = Ok p' /\ ready p' /\ s_hunks p' = s_hunks p ++ [h].
Proof.
  intros Hr Hwf. destruct h as [path contents|path|path mv cs];
    [by apply run_add_hunk| |by apply run_update_hunk].
  cbn [print_hunk run]. pose proof Hr as (_ & _ & Hf).
  destruct (header_line_step p DELETE_FILE_MARKER path (DeleteFile path) (fun _ => ModeDeleteFile))
    as (p1 & k & -> & Hs1 & Hm1); [done|done|unfold headers; set_solver|].
  exists p1. split_and!; [done| |done].
  by apply (ready_snoc p1 (s_hunks p) (DeleteFile path)); rewrite ?Hm1.
Qed.

Lemma run_hunks hs p :
  ready p -> forallb wf_hunk hs = true ->
  exists p', run p (print_lines hs) = Ok p' /\ ready p' /\ s_hunks p' = s_hunks p ++ hs.
Proof.
  revert p; induction hs as [|h hs IH]; intros p Hr Hwf.
  { exists p. by rewrite app_nil_r. }
  cbn [forallb] in Hwf. apply andb_prop in Hwf as [Hh Hwf].
  change (print_lines (h :: hs)) with (print_hunk h ++ print_lines hs). rewrite run_app.
  destruct (run_hunk p h Hr Hh) as (p1 & -> & Hr1 & Hs1). cbn [comp_bind].
  destruct (IH p1 Hr1 Hwf) as (p2 & Hr2 & Hrd & Hs2). exists p2.
  by rewrite Hs1, <- app_assoc in Hs2.
Qed.

Lemma join_concat ls e : join [nl] (ls ++ [e]) = concat (map (fun l => l ++ [nl]) ls) ++ e.
Proof.
  induction ls as [|l ls IH]; [done|]. cbn [app map concat]. rewrite <- !app_assoc, <- IH.
  cbn [join]. by destruct (ls ++ [e]) eqn:E; [destruct ls|].
Qed.

(** C19: the two parsers agree on well-formed patches: however the printed patch is
    cut into pieces, the streaming parser reports the same hunks as the batch
    parser ([parse_print_patch]) and [finish] accepts it. *)
Theorem stream_print_patch (env : option str) (hs : list Hunk) (deltas : list str)
  (Henv : wf_env env = true) (Hwf : forallb wf_hunk hs = true)
  (Hcut : concat deltas = print_patch env hs) :
  (push_deltas default_parser deltas).1 = Ok hs /\
  (finish (push_deltas default_parser deltas).2).1 = Ok hs.
Proof.
  rewrite push_deltas_flat, Hcut. unfold print_patch. rewrite join_concat.
  set (env_lines := match env with Some e => [ENVIRONMENT_ID_MARKER ++ e] | None => [] end).
  assert (exists p0, run default_parser (BEGIN_PATCH_MARKER :: env_lines) = Ok p0 /\
    ready p0 /\ s_hunks p0 = []) as (p0 & H0 & Hr0 & Hs0).
  { subst env_lines. destruct env as [e|]; cbn [run].
    - replace (process_line (take_line default_parser) BEGIN_PATCH_MARKER) with
        (@Ok ParseError _ (set_mode StartedPatch (take_line default_parser))) by done.
      cbn [comp_bind]. unfold process_line. cbn [mode take_line set_mode].
      replace (is_environment_id_preamble_line _) with true.
      2: { symmetry. apply starts_with_spec. by exists e. }
      cbn [comp_bind]. by eexists.
    - by eexists. }
  destruct (run_hunks hs p0 Hr0 Hwf) as (p1 & H1 & (_ & Hne & Hf) & Hs1).
  destruct (push_delta_lines default_parser (BEGIN_PATCH_MARKER :: env_lines ++ print_lines hs)
    END_PATCH_MARKER p1) as [-> Hb].
  { by apply print_preamble_line_ok. }
  { done. }
  { rewrite app_comm_cons, run_app, H0. done. }
  rewrite Hs0 in Hs1. cbn [app] in Hs1.
  rewrite <- (app_nil_r END_PATCH_MARKER), push_delta_chars by apply nl_not_in_marker.
  rewrite Hb. cbn [push_delta app fst snd s_hunks]. split; [by rewrite Hs1|].
  unfold finish. cbn [line_buffer]. cbv beta.
  destruct END_PATCH_MARKER as [|ch buf] eqn:Ee; [done|]. rewrite <- Ee.
  replace (str_eqb (trim END_PATCH_MARKER) END_PATCH_MARKER) with true by done.
  rewrite ensure_full by done. cbn [mode set_mode]. simpl. by rewrite Hs1.
Qed.

End printing.

(** ** Examples *)

(** Common leading lines as context, then the removed and the inserted lines. *)
Fixpoint diff_ops (old new : list str) : list op :=
  match old, new with
  | x :: old', y :: new' =>
      if str_eqb x y then Keep x :: diff_ops old' new' else map Remove old ++ map Insert new
  | _, _ => map Remove old ++ map Insert new
  end.
Definition diff_layout (c : UpdateFileChunk) : list op := diff_ops (old_lines c) (new_lines c).

Lemma diff_layout_ok : lays_out diff_layout.
Proof.
  assert (forall old new, omap op_old (map Remove old ++ map Insert new) = old /\
    omap op_new (map Remove old ++ map Insert new) = new) as Hb.
  { intros old new. rewrite !omap_app. split.
    - induction old; simpl; [by induction new|by f_equal].
    - induction old; simpl; [|done]. induction new; simpl; [done|by f_equal]. }
  intros c. unfold diff_layout. generalize (old_lines c) (new_lines c). intros old.
  induction old as [|x old IH]; intros [|y new]; cbn [diff_ops]; try apply Hb.
  destruct (str_eqb x y) eqn:E; [|apply Hb]. apply str_eqb_eq in E as ->.
  destruct (IH new) as [H1 H2]. split; simpl; by f_equal.
Qed.

Definition sample_hunks : list Hunk :=
  [AddFile &"new.txt" (&"hello" ++ [nl]);
   DeleteFile &"gone.txt";
   UpdateFile &"a.txt" (Some &"b.txt")
     [{| change_context := Some &"fn main"; old_lines := [&"k"; []; &"x"]; new_lines := [&"k"; []; &"y"; []];
         is_end_of_file := false |};
      {| change_context := None; old_lines := [&"z"]; new_lines := []; is_end_of_file := true |}]].

Lemma parse_print_patch_witness :
  parse_patch_text (print_patch diff_layout (Some &"env-1") sample_hunks) Lenient =
  Ok {| patch := print_patch diff_layout (Some &"env-1") sample_hunks; hunks := sample_hunks;
        workdir := None; environment_id := Some &"env-1" |}.
Proof. apply (parse_print_patch diff_layout diff_layout_ok (Some &"env-1") sample_hunks Lenient); vm_compute; reflexivity. Defined.

Lemma stream_print_patch_witness :
  let text := print_patch diff_layout None sample_hunks in
  (push_deltas default_parser [take 20 text; take 30 (drop 20 text); drop 50 text]).1 = Ok sample_hunks /\
  (finish (push_deltas default_parser [take 20 text; take 30 (drop 20 text); drop 50 text]).2).1
    = Ok sample_hunks.
Proof. apply (stream_print_patch diff_layout diff_layout_ok None sample_hunks); vm_compute; reflexivity. Defined.
