(* ===== verification/RustPath.v ===== *)
(** * Paths of the Rust standard library, on Unix

    The parts of [std::path::Path] that the code uses: a path is its text. *)
From S2P Require Import Prelude RustStr.

Definition slash : char := 47%N.
Definition dot : char := 46%N.

(** The components of a path, less the root and the current directory. *)
Definition path_components (p : str) : list str :=
  filter (fun c => negb (str_eqb c [] || str_eqb c [dot])) (split_char slash p).

(** [Path::file_name] *)
Definition file_name (p : str) : option str :=
  match last (path_components p) with
  | Some c => if str_eqb c [dot; dot] then None else Some c
  | None => None
  end.

(** [Path::file_stem] *)
Definition file_stem (p : str) : option str :=
  match file_name p with
  | None => None
  | Some file =>
      match rsplit_once dot file with
      | Some ([], _) | None => Some file
      | Some (before, _) => Some before
      end
  end.

(** ** Components *)

Inductive component := RootDir | CurDir | ParentDir | Normal (name : str).

#[export] Instance component_eq_dec : EqDecision component.
Proof. solve_decision. Defined.

Definition piece_component (c : str) : component :=
  if str_eqb c [dot; dot] then ParentDir else Normal c.

(** [Path::is_absolute] *)
Definition is_absolute (p : str) : bool := starts_with [slash] p.

(** [Path::components]: repeated separators and inner current-directory
    components are dropped; a leading one is kept. *)
Definition components (p : str) : list component :=
  let inner := map piece_component (path_components p) in
  if is_absolute p then RootDir :: inner
  else match split_char slash p with
       | c :: _ => if str_eqb c [dot] then CurDir :: inner else inner
       | [] => inner
       end.

(** [PathBuf::push]: an absolute path replaces the buffer. *)
Definition path_join (base p : str) : str :=
  if is_absolute p then p
  else if str_eqb base [] || ends_with [slash] base then base ++ p
  else base ++ [slash] ++ p.

(** A slash starts a new component; nothing else does. *)
Lemma split_char_single c s : c ∉ s -> split_char c s = [s].
Proof.
  induction s as [|x s IH]; intros Hin; [done|]. apply not_elem_of_cons in Hin as [Hx Hs].
  simpl. rewrite IH by done. by destruct (N.eqb_spec x c); [congruence|].
Qed.

Lemma split_char_free c s : Forall (fun x => c ∉ x) (split_char c s).
Proof.
  induction s as [|d s IH]; simpl; [repeat constructor; apply not_elem_of_nil|].
  destruct (N.eqb_spec d c) as [->|Hd]; [constructor; [apply not_elem_of_nil|done]|].
  destruct (split_char c s) as [|x xs]; [repeat constructor; set_solver|].
  apply Forall_cons in IH as [? ?]. constructor; [set_solver|done].
Qed.

Lemma split_char_app c x s : c ∉ x -> split_char c (x ++ c :: s) = x :: split_char c s.
Proof.
  induction x as [|d x IH]; intros Hin; simpl.
  - by rewrite N.eqb_refl.
  - apply not_elem_of_cons in Hin as [? ?]. destruct (N.eqb_spec d c); [congruence|]. by rewrite IH.
Qed.

Lemma split_char_join c ls :
  ls <> [] -> Forall (fun x => c ∉ x) ls -> split_char c (join [c] ls) = ls.
Proof.
  induction ls as [|x [|y ls] IH]; intros Hne Hf; [done| |].
  - apply Forall_cons in Hf as [? _]. by apply split_char_single.
  - apply Forall_cons in Hf as [? ?]. change (join [c] (x :: y :: ls)) with (x ++ [c] ++ join [c] (y :: ls)).
    change ([c] ++ join [c] (y :: ls)) with (c :: join [c] (y :: ls)).
    rewrite split_char_app by done. f_equal. by apply IH.
Qed.

(** What can be a component that is a name. *)
Definition name_ok (s : str) : bool :=
  negb (str_eqb s [] || str_eqb s [dot] || str_eqb s [dot; dot]) && bool_decide (slash ∉ s).

Lemma path_components_ok p :
  Forall (fun s => s = [dot; dot] \/ name_ok s = true) (path_components p).
Proof.
  unfold path_components. pose proof (split_char_free slash p) as Hf.
  induction Hf as [|x l Hx Hf IH]; [constructor|]. rewrite filter_cons. case_decide as Hd; [|done].
  constructor; [|done]. unfold name_ok. destruct (str_eqb x []), (str_eqb x [dot]); simpl in *; try done.
  destruct (str_eqb x [dot; dot]) eqn:E; [left; by apply str_eqb_eq|]. right. by rewrite bool_decide_eq_true_2.
Qed.

Lemma path_components_id ls :
  Forall (fun s => name_ok s = true) ls ->
  filter (fun c => negb (str_eqb c [] || str_eqb c [dot])) ls = ls.
Proof.
  induction 1 as [|x l Hx Hl IH]; [done|]. rewrite filter_cons. unfold name_ok in Hx.
  destruct (str_eqb x []), (str_eqb x [dot]); simpl in *; try done. by rewrite IH.
Qed.
