(* ===== verification/AbsolutePath.v ===== *)
(** * utils/absolute-path: absolute, normalised paths

    [absolutize.rs] and the constructors of [AbsolutePathBuf] on Unix.  The home
    directory and the current directory of the process are a parameter. *)
From S2P Require Import Prelude RustStr RustPath.

Class ProcessEnv := { home_dir : option str; env_current_dir : option str }.

(** ** Normalisation *)

(** The path buffer that [normalize_path] builds, by its components, last first. *)
Definition buffer_pop (buf : list component) : list component :=
  match buf with
  | Normal _ :: rest | ParentDir :: rest | CurDir :: rest => rest
  | RootDir :: _ => buf
  | [] => []
  end.

Definition buffer_push (c : component) (buf : list component) : list component :=
  match c with RootDir => [RootDir] | _ => c :: buf end.

Definition normalize_step (buf : list component) (c : component) : list component :=
  match c with
  | CurDir => buf
  | ParentDir => buffer_pop buf
  | RootDir | Normal _ => buffer_push c buf
  end.

Definition component_text (c : component) : str :=
  match c with RootDir => [] | CurDir => [dot] | ParentDir => [dot; dot] | Normal s => s end.

(** The text of a buffer, first component first. *)
Definition render (cs : list component) : str :=
  match cs with
  | [RootDir] => [slash]
  | _ => join [slash] (map component_text cs)
  end.

Definition normalize_path (path : str) : str :=
  match foldl normalize_step [] (components path) with
  | [] => [dot]
  | buf => render (reverse buf)
  end.

Definition path_with_base (path base_path : str) : str :=
  if is_absolute path then path else path_join base_path path.

Definition absolutize_from (path base_path : str) : str :=
  normalize_path (path_with_base path base_path).

(** ** [AbsolutePathBuf] *)

Section constructors.
Context `{!ProcessEnv}.

Definition absolutize (path : str) : option str :=
  if is_absolute path then Some (normalize_path path)
  else option_map (absolutize_from path) env_current_dir.

Definition maybe_expand_home_directory (path : str) : str :=
  match home_dir with
  | None => path
  | Some home =>
      match strip_prefix &"~" path with
      | None => path
      | Some [] => home
      | Some rest =>
          match strip_prefix [slash] rest with
          | Some rest => path_join home (trim_start_char slash rest)
          | None => path
          end
      end
  end.

Definition resolve_path_against_base (path base_path : str) : str :=
  absolutize_from (maybe_expand_home_directory path) base_path.

Definition from_absolute_path (path : str) : option str :=
  absolutize (maybe_expand_home_directory path).

(** [None] is the error that the path is not absolute. *)
Definition from_absolute_path_checked (path : str) : option str :=
  let expanded := maybe_expand_home_directory path in
  if is_absolute expanded then Some (absolutize_from expanded [slash]) else None.

Definition relative_to_current_dir (path : str) : option str :=
  option_map (resolve_path_against_base path) env_current_dir.
End constructors.

(** [AbsolutePathBuf::parent]: the path less its last component. *)
Definition parent (path : str) : option str :=
  match reverse (components path) with
  | [] | [RootDir] => None
  | _ :: rest => Some (render (reverse rest))
  end.

(** ** Theorems *)

(** A normalised absolute path: names below the root. *)
Definition absolute_of (names : list str) : str := render (RootDir :: map Normal names).

Definition normal_absolute (p : str) : Prop :=
  exists names, p = absolute_of names /\ Forall (fun s => name_ok s = true) names.

Lemma map_component_text names : map component_text (map Normal names) = names.
Proof. induction names as [|n names IH]; simpl; [done|by rewrite IH]. Qed.

Lemma absolute_of_eq names : absolute_of names = slash :: join [slash] names.
Proof.
  unfold absolute_of, render. destruct names as [|n names]; [done|].
  cbn [map component_text]. rewrite map_component_text. done.
Qed.

Lemma components_absolute_of names :
  Forall (fun s => name_ok s = true) names -> components (absolute_of names) = RootDir :: map Normal names.
Proof.
  intros Hok. rewrite absolute_of_eq. unfold components.
  replace (is_absolute (slash :: join [slash] names)) with true by done. f_equal.
  unfold path_components. change (slash :: join [slash] names) with ([] ++ slash :: join [slash] names).
  rewrite split_char_app by apply not_elem_of_nil. rewrite filter_cons. rewrite decide_False by (simpl; auto).
  destruct names as [|n names]; [done|].
  rewrite split_char_join; [|done|].
  - rewrite path_components_id by done. apply map_ext_Forall.
    eapply Forall_impl; [exact Hok|]. intros s Hs. unfold piece_component, name_ok in *.
    destruct (str_eqb s [dot; dot]); [|done]. by rewrite !orb_true_r in Hs.
  - eapply Forall_impl; [exact Hok|]. intros s [_ Hs]%andb_prop. by apply bool_decide_eq_true in Hs.
Qed.

Lemma normalize_fold cs names :
  Forall (fun c => match c with RootDir => False | Normal s => name_ok s = true | _ => True end) cs ->
  Forall (fun s => name_ok s = true) names ->
  exists names', foldl normalize_step (map Normal names ++ [RootDir]) cs = map Normal names' ++ [RootDir] /\
    Forall (fun s => name_ok s = true) names'.
Proof.
  intros Hcs. revert names. induction Hcs as [|c cs Hc Hcs IH]; intros names Hn; [by exists names|].
  simpl. destruct c as [| | |s]; [done|by apply IH| |].
  - destruct names as [|n names]; simpl; [by apply (IH [])|].
    apply Forall_cons in Hn as [_ Hn]. by apply IH.
  - apply (IH (s :: names)). by constructor.
Qed.

Lemma components_absolute p :
  is_absolute p = true -> exists cs, components p = RootDir :: cs /\
    Forall (fun c => match c with RootDir => False | Normal s => name_ok s = true | _ => True end) cs.
Proof.
  intros Ha. unfold components. rewrite Ha. eexists. split; [done|]. apply Forall_fmap.
  eapply Forall_impl; [apply path_components_ok|]. intros s [->|Hs]; [done|]. simpl.
  unfold piece_component. by destruct (str_eqb s _).
Qed.

Lemma normalize_path_normal p : is_absolute p = true -> normal_absolute (normalize_path p).
Proof.
  intros (cs & Hc & Hcs)%components_absolute. unfold normalize_path. rewrite Hc. simpl.
  destruct (normalize_fold cs [] Hcs) as (names & Hf & Hn); [constructor|]. simpl in Hf. rewrite Hf.
  exists (reverse names). split; [|by apply Forall_reverse].
  destruct (map Normal names ++ [RootDir]) as [|b bs] eqn:E; [by destruct names|]. rewrite <- E.
  rewrite reverse_app, <- map_reverse. done.
Qed.

Lemma normalize_path_id names :
  Forall (fun s => name_ok s = true) names -> normalize_path (absolute_of names) = absolute_of names.
Proof.
  intros Hn. unfold normalize_path. rewrite components_absolute_of by done. simpl.
  assert (forall acc, foldl normalize_step (map Normal acc ++ [RootDir]) (map Normal names) =
    map Normal (reverse names ++ acc) ++ [RootDir]) as Hf.
  { clear Hn. induction names as [|n names IH]; intros acc; simpl; [done|].
    change (Normal n :: map Normal acc ++ [RootDir]) with (map Normal (n :: acc) ++ [RootDir]).
    rewrite IH. rewrite reverse_cons, <- (assoc_L (++)). done. }
  specialize (Hf []). simpl in Hf. rewrite Hf, app_nil_r.
  destruct (map Normal (reverse names) ++ [RootDir]) as [|b bs] eqn:E; [by destruct (reverse names)|].
  rewrite <- E, reverse_app, <- map_reverse, reverse_involutive. done.
Qed.

Lemma absolute_of_is_absolute names : is_absolute (absolute_of names) = true.
Proof. by rewrite absolute_of_eq. Qed.

Lemma path_with_base_absolute p base : is_absolute base = true -> is_absolute (path_with_base p base) = true.
Proof.
  unfold path_with_base, path_join. intros Hb. destruct (is_absolute p) eqn:E; [done|].
  unfold is_absolute in Hb. apply starts_with_spec in Hb as [r ->].
  destruct (_ || _); by apply starts_with_spec; eexists.
Qed.

Lemma expand_absolute `{!ProcessEnv} p : is_absolute p = true -> maybe_expand_home_directory p = p.
Proof.
  intros [r ->]%starts_with_spec. unfold maybe_expand_home_directory. by destruct home_dir.
Qed.

(** Resolving any path against an absolute base gives a normalised absolute
    path (a slash and names separated by single slashes, no current or parent
    directory), and resolving the result again, against any base, leaves it as
    it is. *)
Theorem resolve_path_against_base_normal `{!ProcessEnv} (path base base' : str) :
  is_absolute base = true ->
  let p := resolve_path_against_base path base in
  normal_absolute p /\ resolve_path_against_base p base' = p.
Proof.
  intros Hb p. assert (normal_absolute p) as Hp.
  { by apply normalize_path_normal, path_with_base_absolute. }
  split; [done|]. destruct Hp as (names & -> & Hn).
  unfold resolve_path_against_base. rewrite expand_absolute by apply absolute_of_is_absolute.
  unfold absolutize_from, path_with_base. rewrite absolute_of_is_absolute. by apply normalize_path_id.
Qed.

#[local] Instance demo_env : ProcessEnv := {| home_dir := Some &"/home/u"; env_current_dir := Some &"/w" |}.

Lemma resolve_path_against_base_normal_witness :
  resolve_path_against_base &"~//x/../y/./z" &"/base" = &"/home/u/y/z" /\
  normal_absolute (resolve_path_against_base &"~//x/../y/./z" &"/base").
Proof.
  split; [vm_compute; reflexivity|].
  apply (resolve_path_against_base_normal &"~//x/../y/./z" &"/base" &"/base" eq_refl).
Defined.
