(* ===== verification/ApplyPatch.v ===== *)
(** * apply-patch/src/lib.rs, the text side: chunks to replacements to new contents

    [compute_replacements] locates every chunk in the file, [apply_replacements]
    splices the new lines in, [derive_new_contents] (the pure part of
    [derive_new_contents_from_chunks]) goes from file text to file text.
    [Vec::insert] and [Vec::remove] are the checked operations of [Prelude]. *)
From Stdlib Require Import Sorting.Permutation Sorting.Sorted.
From S2P Require Import Prelude RustStr SeekSequence PatchParser.

(** ** Errors *)

Inductive ErrorKind := NotFound | AlreadyExists | InvalidInput | Other | OtherKind (code : nat).

#[export] Instance ErrorKind_eq_dec : EqDecision ErrorKind.
Proof. solve_decision. Defined.

(** [std::io::Error]: its kind and its text. *)
Record io_error := { kind : ErrorKind; io_message : str }.

Record IoError := { io_context : str; io_source : io_error }.

Inductive ApplyPatchError :=
| ParseErr (e : ParseError)
| IoErr (e : IoError)
| ComputeReplacements (message : str)
| ImplicitInvocation.

(** ** Operations *)

(** [(start_index, old_len, new_lines)] *)
Definition replacement : Type := nat * nat * list str.
Definition rep_start (r : replacement) : nat := r.1.1.
Definition rep_len (r : replacement) : nat := r.1.2.
Definition rep_new (r : replacement) : list str := r.2.

(** [l.last().is_some_and(String::is_empty)] *)
Definition last_is_empty (l : list str) : bool :=
  match last l with Some [] => true | _ => false end.

(** [&l[..l.len() - 1]] *)
Definition drop_last {E} (l : list str) : comp E (list str) := slice 0 (length l - 1) l.

(** [sort_by_key(|(index, _, _)| *index)], a stable sort *)
Fixpoint insert_by_start (r : replacement) (l : list replacement) : list replacement :=
  match l with
  | [] => [r]
  | r' :: l' => if rep_start r <=? rep_start r' then r :: l else r' :: insert_by_start r l'
  end.

Definition sort_by_start (l : list replacement) : list replacement := foldr insert_by_start [] l.

Definition context_error (ctx_line path : str) : ApplyPatchError :=
  ComputeReplacements (&"Failed to find context '" ++ ctx_line ++ &"' in " ++ path).

Definition lines_error (path : str) (old : list str) : ApplyPatchError :=
  ComputeReplacements (&"Failed to find expected lines in " ++ path ++ &":" ++ [nl] ++ join [nl] old).

(** The [for chunk in chunks] loop. *)
Fixpoint compute_loop (original_lines : list str) (path : str) (chunks : list UpdateFileChunk)
    (line_index : nat) (replacements : list replacement)
  : comp ApplyPatchError (list replacement) :=
  match chunks with
  | [] => Ok replacements
  | chunk :: chunks' =>
      let? line_index :=
        match change_context chunk with
        | None => Ok line_index
        | Some ctx_line =>
            let? r := seek_sequence original_lines [ctx_line] line_index false in
            match r with
            | Some idx => Ok (idx + 1)
            | None => Err (context_error ctx_line path)
            end
        end in
      match old_lines chunk with
      | [] =>
          let insertion_idx :=
            if last_is_empty original_lines then length original_lines - 1
            else length original_lines in
          compute_loop original_lines path chunks' line_index
            (replacements ++ [(insertion_idx, 0, new_lines chunk)])
      | _ =>
          let? found :=
            seek_sequence original_lines (old_lines chunk) line_index (is_end_of_file chunk) in
          let? '(found, pattern, new_slice) :=
            match found with
            | None =>
                if last_is_empty (old_lines chunk) then
                  let? pattern := drop_last (old_lines chunk) in
                  let? new_slice :=
                    if last_is_empty (new_lines chunk) then drop_last (new_lines chunk)
                    else Ok (new_lines chunk) in
                  let? found := seek_sequence original_lines pattern line_index (is_end_of_file chunk) in
                  Ok (found, pattern, new_slice)
                else Ok (found, old_lines chunk, new_lines chunk)
            | Some _ => Ok (found, old_lines chunk, new_lines chunk)
            end in
          match found with
          | Some start_idx =>
              compute_loop original_lines path chunks' (start_idx + length pattern)
                (replacements ++ [(start_idx, length pattern, new_slice)])
          | None => Err (lines_error path (old_lines chunk))
          end
      end
  end.

Definition compute_replacements (original_lines : list str) (path : str)
    (chunks : list UpdateFileChunk) : comp ApplyPatchError (list replacement) :=
  let? replacements := compute_loop original_lines path chunks 0 [] in
  Ok (sort_by_start replacements).

(** [for _ in 0..old_len { if start_idx < lines.len() { lines.remove(start_idx) } }] *)
Fixpoint remove_lines {E} (old_len start_idx : nat) (lines : list str) : comp E (list str) :=
  match old_len with
  | 0 => Ok lines
  | S n =>
      let? lines' := if start_idx <? length lines then vec_remove start_idx lines else Ok lines in
      remove_lines n start_idx lines'
  end.

(** [for (offset, new_line) in new_segment { lines.insert(start_idx + offset, new_line) }] *)
Fixpoint insert_lines {E} (start_idx offset : nat) (new_segment lines : list str)
  : comp E (list str) :=
  match new_segment with
  | [] => Ok lines
  | new_line :: rest =>
      let? lines' := vec_insert (start_idx + offset) new_line lines in
      insert_lines start_idx (S offset) rest lines'
  end.

Fixpoint apply_loop {E} (lines : list str) (rev_replacements : list replacement)
  : comp E (list str) :=
  match rev_replacements with
  | [] => Ok lines
  | (start_idx, old_len, new_segment) :: rest =>
      let? lines := remove_lines old_len start_idx lines in
      let? lines := insert_lines start_idx 0 new_segment lines in
      apply_loop lines rest
  end.

Definition apply_replacements {E} (lines : list str) (replacements : list replacement)
  : comp E (list str) := apply_loop lines (reverse replacements).

(** The lines of a file: the piece after the final newline is dropped. *)
Definition file_lines (contents : str) : list str :=
  let ls := split_char nl contents in
  if last_is_empty ls then take (length ls - 1) ls else ls.

(** [derive_new_contents_from_chunks], after the file has been read. *)
Definition derive_new_contents (original_contents path : str) (chunks : list UpdateFileChunk)
  : comp ApplyPatchError str :=
  let original_lines := file_lines original_contents in
  let? replacements := compute_replacements original_lines path chunks in
  let? new_lines := apply_replacements original_lines replacements in
  let new_lines := if negb (last_is_empty new_lines) then new_lines ++ [[]] else new_lines in
  Ok (join [nl] new_lines).

(** ** Specification *)

(** The lines with the region of one replacement exchanged. *)
Definition splice (r : replacement) (lines : list str) : list str :=
  take (rep_start r) lines ++ rep_new r ++ drop (rep_start r + rep_len r) lines.

(** One pass from left to right: copy up to the next region, write the new
    lines, skip the old ones. *)
Fixpoint patched (pos : nat) (reps : list replacement) (lines : list str) : list str :=
  match reps with
  | [] => drop pos lines
  | r :: reps' =>
      take (rep_start r - pos) (drop pos lines) ++ rep_new r ++
      patched (rep_start r + rep_len r) reps' lines
  end.

(** [r] may stand directly before [r']. *)
Definition before (r r' : replacement) : Prop := rep_start r + rep_len r <= rep_start r'.

(** How a chunk and its replacement correspond. *)
Definition chunk_replaced (lines : list str) (c : UpdateFileChunk) (r : replacement) : Prop :=
  match old_lines c with
  | [] => r = (if last_is_empty lines then length lines - 1 else length lines, 0, new_lines c)
  | _ =>
      exists pattern,
        rep_len r = length pattern /\ rep_start r + length pattern <= length lines /\
        (pattern = [] \/ exists f, f ∈ levels /\ matches_at f lines pattern (rep_start r)) /\
        ((pattern = old_lines c /\ rep_new r = new_lines c) \/
         (old_lines c = pattern ++ [[]] /\
          (rep_new r = new_lines c \/ new_lines c = rep_new r ++ [[]])))
  end.

(** ** Lemmas: locating the chunks *)

Lemma last_is_empty_spec l : last_is_empty l = true <-> exists l', l = l' ++ [[]].
Proof.
  unfold last_is_empty. split.
  - destruct (last l) as [[|]|] eqn:E; try done. intros _. by apply last_Some in E.
  - intros [l' ->]. by rewrite last_snoc.
Qed.

Lemma drop_last_snoc {E} (l : list str) x : @drop_last E (l ++ [x]) = Ok l.
Proof.
  unfold drop_last. rewrite slice_returns by (rewrite ?length_app; lia).
  rewrite length_app, drop_0. simpl. replace (length l + 1 - 1 - 0) with (length l) by lia.
  by rewrite take_app_length.
Qed.

Lemma seek_sequence_ge {E} lines pattern start i :
  @seek_sequence E lines pattern start false = Ok (Some i) -> start <= i.
Proof.
  intros H. destruct (decide (pattern = [])) as [->|Hne]; [by simplify_eq/=|].
  pose proof (seek_sequence_bound _ _ _ _ _ H) as [[? _]|[_ Hb]]; [done|].
  apply seek_sequence_first_level_iff in H; [|done|lia].
  by apply first_level_Some in H as (f & _ & Hlo & _).
Qed.

Lemma seek_sequence_match {E} lines pattern start eof i :
  @seek_sequence E lines pattern start eof = Ok (Some i) -> start <= length lines ->
  i + length pattern <= length lines /\
  (pattern = [] \/ exists f, f ∈ levels /\ matches_at f lines pattern i).
Proof.
  intros H Hs. pose proof (seek_sequence_bound _ _ _ _ _ H) as [[-> ->]|[Hne Hb]].
  { simpl. split; [lia|by left]. }
  split; [done|right]. apply seek_sequence_first_level_iff in H; [|done|lia].
  apply first_level_Some in H as (f & Hf & _ & Hm & _). eauto.
Qed.

(** The choice of the region for a chunk with old lines: a direct match, or a
    match without the trailing empty line. *)
Definition locate (lines : list str) (c : UpdateFileChunk) (li : nat)
  : comp ApplyPatchError (option nat * list str * list str) :=
  let? found := seek_sequence lines (old_lines c) li (is_end_of_file c) in
  match found with
  | None =>
      if last_is_empty (old_lines c) then
        let? pattern := drop_last (old_lines c) in
        let? new_slice :=
          if last_is_empty (new_lines c) then drop_last (new_lines c) else Ok (new_lines c) in
        let? found := seek_sequence lines pattern li (is_end_of_file c) in
        Ok (found, pattern, new_slice)
      else Ok (found, old_lines c, new_lines c)
  | Some _ => Ok (found, old_lines c, new_lines c)
  end.

Lemma locate_returns lines c li : returns (locate lines c li).
Proof.
  unfold locate. destruct (@seek_sequence_ok ApplyPatchError lines (old_lines c) li (is_end_of_file c)) as [[i|] ->]; [done|].
  cbn [comp_bind]. destruct (last_is_empty (old_lines c)) eqn:E; [|done].
  apply last_is_empty_spec in E as [l' ->]. rewrite drop_last_snoc. cbn [comp_bind].
  apply returns_bind.
  { destruct (last_is_empty (new_lines c)) eqn:E'; [|done].
    apply last_is_empty_spec in E' as [l2 ->]. by rewrite drop_last_snoc. }
  intros ns _. by destruct (@seek_sequence_ok ApplyPatchError lines l' li (is_end_of_file c)) as [r ->].
Qed.

Lemma locate_no_error lines c li e : locate lines c li <> Err e.
Proof.
  unfold locate. destruct (@seek_sequence_ok ApplyPatchError lines (old_lines c) li (is_end_of_file c)) as [[i|] ->]; [done|].
  cbn [comp_bind]. destruct (last_is_empty (old_lines c)) eqn:E; [|done].
  apply last_is_empty_spec in E as [l' ->]. rewrite drop_last_snoc. cbn [comp_bind].
  destruct (@seek_sequence_ok ApplyPatchError lines l' li (is_end_of_file c)) as [r ->].
  destruct (last_is_empty (new_lines c)) eqn:E'; [|done].
  apply last_is_empty_spec in E' as [l2 ->]. by rewrite drop_last_snoc.
Qed.

Lemma locate_spec lines c li i pattern ns :
  locate lines c li = Ok (Some i, pattern, ns) -> old_lines c <> [] -> li <= length lines ->
  chunk_replaced lines c (i, length pattern, ns) /\ (is_end_of_file c = false -> li <= i).
Proof.
  intros H Hne Hli. unfold chunk_replaced. destruct (old_lines c) as [|x xs] eqn:Eo; [done|].
  unfold locate in H. rewrite Eo in H.
  apply comp_bind_Ok in H as (found & Hf & H). destruct found as [j|].
  - simplify_eq. pose proof (seek_sequence_match _ _ _ _ _ Hf Hli) as [Hb Hm]. split.
    + exists (x :: xs). split_and!; auto.
    + intros He. rewrite He in Hf. by apply seek_sequence_ge in Hf.
  - destruct (last_is_empty (x :: xs)) eqn:El; [|by simplify_eq].
    apply last_is_empty_spec in El as [l' El]. rewrite El, drop_last_snoc in H. cbn [comp_bind] in H.
    apply comp_bind_Ok in H as (ns' & Hns & H). apply comp_bind_Ok in H as (f' & Hf' & H). simplify_eq.
    pose proof (seek_sequence_match _ _ _ _ _ Hf' Hli) as [Hb Hm]. split.
    + exists pattern. split_and!; auto. right. split; [done|].
      destruct (last_is_empty (new_lines c)) eqn:En; [|simplify_eq; by left].
      apply last_is_empty_spec in En as [l2 En]. rewrite En, drop_last_snoc in Hns. simplify_eq. by right.
    + intros He. rewrite He in Hf'. by apply seek_sequence_ge in Hf'.
Qed.

(** The context of a chunk moves the position forward. *)
Definition after_context (lines : list str) (path : str) (c : UpdateFileChunk) (li : nat)
  : comp ApplyPatchError nat :=
  match change_context c with
  | None => Ok li
  | Some ctx_line =>
      let? r := seek_sequence lines [ctx_line] li false in
      match r with Some idx => Ok (idx + 1) | None => Err (context_error ctx_line path) end
  end.

Lemma after_context_returns lines path c li : returns (after_context lines path c li).
Proof.
  unfold after_context. destruct (change_context c) as [x|]; [|done].
  by destruct (@seek_sequence_ok ApplyPatchError lines [x] li false) as [[] ->].
Qed.

Lemma after_context_spec lines path c li li' :
  after_context lines path c li = Ok li' -> li <= length lines -> li <= li' <= length lines.
Proof.
  unfold after_context. intros H Hli. destruct (change_context c) as [x|]; [|simplify_eq; lia].
  apply comp_bind_Ok in H as ([i|] & Hs & H); simplify_eq.
  pose proof (seek_sequence_ge _ _ _ _ Hs). apply seek_sequence_match in Hs as [Hb _]; [|done].
  simpl in Hb. lia.
Qed.

(** One turn of the loop. *)
Lemma compute_loop_cons lines path c cs li acc :
  compute_loop lines path (c :: cs) li acc =
  (let? li := after_context lines path c li in
   match old_lines c with
   | [] => compute_loop lines path cs li
       (acc ++ [(if last_is_empty lines then length lines - 1 else length lines, 0, new_lines c)])
   | _ =>
       let? '(found, pattern, ns) := locate lines c li in
       match found with
       | Some i => compute_loop lines path cs (i + length pattern) (acc ++ [(i, length pattern, ns)])
       | None => Err (lines_error path (old_lines c))
       end
   end).
Proof.
  cbn [compute_loop]. unfold after_context, locate.
  destruct (match change_context c with None => _ | Some _ => _ end); cbn [comp_bind]; try done.
  destruct (old_lines c) as [|x xs] eqn:Eo; [done|].
  by destruct (seek_sequence lines (x :: xs) a (is_end_of_file c)).
Qed.

Lemma compute_loop_returns lines path cs li acc : returns (compute_loop lines path cs li acc).
Proof.
  revert li acc; induction cs as [|c cs IH]; intros li acc; [done|].
  rewrite compute_loop_cons. apply returns_bind; [apply after_context_returns|]. intros li' _.
  destruct (old_lines c) as [|x xs] eqn:Eo; [apply IH|].
  apply returns_bind; [apply locate_returns|]. intros [[[i|] p] ns] _; [apply IH|done].
Qed.

Lemma compute_loop_error lines path cs li acc e :
  compute_loop lines path cs li acc = Err e -> exists m, e = ComputeReplacements m.
Proof.
  revert li acc; induction cs as [|c cs IH]; intros li acc H; [done|].
  rewrite compute_loop_cons in H.
  destruct (after_context lines path c li) as [li1|e'| |] eqn:Ec; simplify_eq/=.
  - destruct (old_lines c) as [|x xs] eqn:Eo; [by eapply IH|].
    pose proof (locate_no_error lines c li1) as Hn.
    destruct (locate lines c li1) as [[[[i|] p] ns]|e'| |]; simplify_eq/=; [by eapply IH|by eexists|by destruct (Hn e)].
  - unfold after_context in Ec. destruct (change_context c) as [x|]; [|done].
    destruct (@seek_sequence_ok ApplyPatchError lines [x] li false) as [[i|] Hs]; rewrite Hs in Ec; simplify_eq/=.
    by eexists.
Qed.

(** The positions of the replacements: in order, except that a pure addition
    stands at the end of the file. *)
Definition follows (L li : nat) (r : replacement) : Prop :=
  li <= rep_start r \/ (rep_len r = 0 /\ rep_start r = L).

Definition plain (lines : list str) (c : UpdateFileChunk) : Prop :=
  is_end_of_file c = false /\ (old_lines c = [] -> last_is_empty lines = false).

(** [r] comes before [r'] in the file, or is an addition at its end. *)
Definition ordered (L : nat) (r r' : replacement) : Prop :=
  before r r' \/ (rep_len r = 0 /\ rep_start r = L).

Lemma follows_weaken L li li' r : li <= li' -> follows L li' r -> follows L li r.
Proof. unfold follows. lia. Qed.

Lemma compute_loop_spec lines path cs li acc reps :
  compute_loop lines path cs li acc = Ok reps -> li <= length lines ->
  exists new, reps = acc ++ new /\ Forall2 (chunk_replaced lines) cs new /\
    Forall (fun r => rep_start r + rep_len r <= length lines) new /\
    (Forall (plain lines) cs ->
     Forall (follows (length lines) li) new /\ ForallOrdPairs (ordered (length lines)) new).
Proof.
  revert li acc; induction cs as [|c cs IH]; intros li acc H Hli.
  { simplify_eq/=. exists []. rewrite app_nil_r. split_and!; try done. intros _. by split; constructor. }
  rewrite compute_loop_cons in H.
  apply comp_bind_Ok in H as (li1 & Hctx & H). apply after_context_spec in Hctx; [|done].
  destruct (old_lines c) as [|x xs] eqn:Eo.
  - destruct (IH _ _ H) as (new & -> & H2 & Hb & Hp); [lia|].
    set (r := (if last_is_empty lines then length lines - 1 else length lines, 0, new_lines c)) in *.
    exists (r :: new). rewrite <- app_assoc. split_and!; [done| | |].
    + constructor; [|done]. unfold chunk_replaced. by rewrite Eo.
    + constructor; [|done]. subst r; unfold rep_start, rep_len; simpl. case_match; lia.
    + intros [[_ Hc] Hcs]%Forall_cons. destruct (Hp Hcs) as [Hf Ho].
      assert (rep_len r = 0 /\ rep_start r = length lines) as Hr by (subst r; by rewrite Hc).
      split; [|by constructor; [apply Forall_true; right|]].
      constructor; [by right|]. eapply Forall_impl; [exact Hf|]. intros r'. apply follows_weaken. lia.
  - rewrite <- Eo in H. apply comp_bind_Ok in H as ([[[i|] pattern] ns] & Hl & H); [|done].
    apply locate_spec in Hl as [Hc Hge]; [|by rewrite Eo|lia].
    assert (i + length pattern <= length lines) as Hbi.
    { unfold chunk_replaced in Hc. rewrite Eo in Hc. destruct Hc as (p & Hlen & Hc & _).
      unfold rep_start, rep_len in *; simpl in *. lia. }
    destruct (IH _ _ H) as (new & -> & H2 & Hb & Hp); [lia|].
    exists ((i, length pattern, ns) :: new). rewrite <- app_assoc. split_and!; [done|by constructor|by constructor|].
    intros [[Heof _] Hcs]%Forall_cons. destruct (Hp Hcs) as [Hf Ho]. specialize (Hge Heof). split.
    + constructor; [left; unfold rep_start; simpl; lia|].
      eapply Forall_impl; [exact Hf|]. intros r'. apply follows_weaken. lia.
    + constructor; [|done]. eapply Forall_impl; [exact Hf|]. intros r' [Hr|[_ Hr]]; left;
        unfold before, rep_start, rep_len in *; simpl in *; lia.
Qed.

(** ** Lemmas: the stable sort *)

Lemma insert_by_start_perm r l : Permutation (insert_by_start r l) (r :: l).
Proof.
  induction l as [|r' l IH]; simpl; [done|]. case_match; [done|].
  rewrite IH. apply perm_swap.
Qed.

Lemma sort_by_start_perm l : Permutation (sort_by_start l) l.
Proof. induction l as [|r l IH]; simpl; [done|]. by rewrite insert_by_start_perm, IH. Qed.

Definition start_le (r r' : replacement) : Prop := rep_start r <= rep_start r'.

#[export] Instance start_le_trans : Transitive start_le.
Proof. intros a b c. unfold start_le. lia. Qed.

Lemma insert_by_start_sorted r l :
  StronglySorted start_le l -> StronglySorted start_le (insert_by_start r l).
Proof.
  induction 1 as [|r' l Hl IH Hr']; simpl; [by repeat constructor|].
  destruct (Nat.leb_spec (rep_start r) (rep_start r')) as [Hle|Hlt].
  - constructor; [by constructor|]. constructor; [done|].
    eapply Forall_impl; [exact Hr'|]. intros z. unfold start_le. lia.
  - constructor; [done|]. rewrite insert_by_start_perm. constructor; [unfold start_le; lia|done].
Qed.

Lemma sort_by_start_sorted l : StronglySorted start_le (sort_by_start l).
Proof. induction l; simpl; [constructor|by apply insert_by_start_sorted]. Qed.

(** Sorting regions that are ordered, up to additions at the end, separates them. *)
Lemma insert_by_start_before L r l :
  StronglySorted before l -> Forall (ordered L r) l ->
  Forall (fun r => rep_start r + rep_len r <= L) l ->
  StronglySorted before (insert_by_start r l).
Proof.
  induction 1 as [|r' l Hl IH Hr']; intros Ho Hb; simpl; [by repeat constructor|].
  apply Forall_cons in Ho as [Ho Hos]. apply Forall_cons in Hb as [Hb Hbs].
  destruct (Nat.leb_spec (rep_start r) (rep_start r')) as [Hle|Hlt].
  - constructor; [by constructor|]. constructor.
    + unfold ordered, before in *. lia.
    + apply Forall_forall. intros z Hz. rewrite Forall_forall in Hos, Hr'.
      specialize (Hos z Hz). specialize (Hr' z Hz). unfold ordered, before in *. lia.
  - constructor; [by apply IH|]. rewrite insert_by_start_perm. constructor; [|done].
    unfold ordered, before in *. lia.
Qed.

Lemma sort_by_start_before L l :
  ForallOrdPairs (ordered L) l -> Forall (fun r => rep_start r + rep_len r <= L) l ->
  StronglySorted before (sort_by_start l).
Proof.
  induction 1 as [|r l Hr Hl IH]; intros Hb; simpl; [constructor|].
  apply Forall_cons in Hb as [_ Hb]. apply (insert_by_start_before L); [by apply IH|..];
    by rewrite sort_by_start_perm.
Qed.

(** ** Lemmas: applying the replacements *)

Lemma remove_lines_spec {E} n s (ls : list str) :
  s <= length ls -> @remove_lines E n s ls = Ok (take s ls ++ drop (s + n) ls).
Proof.
  revert ls; induction n as [|n IH]; intros ls Hs; cbn [remove_lines].
  { by rewrite Nat.add_0_r, take_drop. }
  destruct (Nat.ltb_spec s (length ls)) as [Hlt|Hge].
  - rewrite vec_remove_Ok by done. cbn [comp_bind]. rewrite IH by solve_len.
    rewrite take_app_le by (rewrite length_take; lia). rewrite take_take, Nat.min_id.
    rewrite drop_app_ge by (rewrite length_take; lia). rewrite length_take, drop_drop.
    do 3 f_equal. lia.
  - cbn [comp_bind]. rewrite IH by done. by rewrite !(drop_ge ls) by lia.
Qed.

Lemma insert_lines_spec {E} seg s off (ls : list str) :
  s + off <= length ls ->
  @insert_lines E s off seg ls = Ok (take (s + off) ls ++ seg ++ drop (s + off) ls).
Proof.
  revert off ls; induction seg as [|x seg IH]; intros off ls Hs; cbn [insert_lines].
  { by rewrite app_nil_l, take_drop. }
  rewrite vec_insert_Ok by done. cbn [comp_bind].
  rewrite IH by (rewrite length_app, length_take, length_cons, length_drop; lia).
  assert (length (take (s + off) ls ++ [x]) = s + S off) as Hl
    by (rewrite length_app, length_take; simpl; lia).
  replace (take (s + off) ls ++ x :: drop (s + off) ls) with
    ((take (s + off) ls ++ [x]) ++ drop (s + off) ls) by (by rewrite <- app_assoc).
  rewrite <- Hl, take_app_length, drop_app_length. by rewrite <- app_assoc.
Qed.

Lemma apply_turn {E} r rest (ls : list str) :
  rep_start r <= length ls -> @apply_loop E ls (r :: rest) = apply_loop (splice r ls) rest.
Proof.
  destruct r as [[s n] seg]. unfold splice, rep_start, rep_len, rep_new. cbn [fst snd apply_loop].
  intros Hs. rewrite remove_lines_spec by done. cbn [comp_bind].
  rewrite insert_lines_spec by solve_len. cbn [comp_bind]. rewrite Nat.add_0_r.
  rewrite take_app_le by (rewrite length_take; lia). rewrite take_take, Nat.min_id.
  rewrite drop_app_ge by (rewrite length_take; lia).
  rewrite length_take, Nat.min_l, Nat.sub_diag by lia. by rewrite drop_0.
Qed.

(** Regions applied from the last to the first are never out of range. *)
Lemma apply_loop_desc {E} l (ls : list str) :
  StronglySorted (flip start_le) l -> Forall (fun r => rep_start r <= length ls) l ->
  @apply_loop E ls l = Ok (foldl (flip splice) ls l).
Proof.
  intros Hl. revert ls. induction Hl as [|r l Hl IH Hr]; intros ls Hb; [done|].
  apply Forall_cons in Hb as [Hs Hb]. rewrite apply_turn by done. apply IH.
  eapply Forall_impl; [exact Hr|]. unfold flip, start_le. intros r' Hr'.
  unfold splice. rewrite length_app, length_take. lia.
Qed.

Lemma StronglySorted_reverse {A} (R : A -> A -> Prop) l :
  StronglySorted R l -> StronglySorted (flip R) (reverse l).
Proof.
  induction 1 as [|x l Hl IH Hx]; [constructor|]. rewrite reverse_cons.
  assert (forall a (k : list A), StronglySorted (flip R) k -> Forall (fun y => R a y) k ->
    StronglySorted (flip R) (k ++ [a])) as H.
  { intros a k Hk. induction Hk as [|y k Hk IHk Hy]; intros Ha; simpl; [by repeat constructor|].
    apply Forall_cons in Ha as [Hay Ha]. constructor; [by apply IHk|].
    apply Forall_app_2; [done|]. by repeat constructor. }
  apply H; [done|]. by apply Forall_reverse.
Qed.

Lemma foldl_flip_reverse {A B} (f : A -> B -> B) l b : foldl (flip f) b (reverse l) = foldr f b l.
Proof.
  revert b; induction l as [|x l IH]; intros b; [done|].
  rewrite reverse_cons, foldl_app. simpl. by rewrite IH.
Qed.

Lemma apply_replacements_foldr {E} reps (ls : list str) :
  StronglySorted start_le reps -> Forall (fun r => rep_start r <= length ls) reps ->
  @apply_replacements E ls reps = Ok (foldr splice ls reps).
Proof.
  intros Hs Hb. unfold apply_replacements.
  rewrite apply_loop_desc; [|by apply StronglySorted_reverse|by apply Forall_reverse].
  by rewrite foldl_flip_reverse.
Qed.

(** Disjoint regions: applying them backwards is one pass from left to right. *)
Lemma foldr_splice_patched reps pos (ls : list str) :
  StronglySorted before reps -> Forall (fun r => pos <= rep_start r) reps ->
  Forall (fun r => rep_start r + rep_len r <= length ls) reps -> pos <= length ls ->
  foldr splice ls reps = take pos ls ++ patched pos reps ls.
Proof.
  intros Hs. revert pos. induction Hs as [|r reps Hs IH Hr]; intros pos Hp Hb Hpos; simpl.
  { by rewrite take_drop. }
  apply Forall_cons in Hp as [Hpr Hp]. apply Forall_cons in Hb as [Hbr Hb].
  rewrite (IH (rep_start r + rep_len r)) by done. unfold splice.
  set (s := rep_start r) in *. set (n := rep_len r) in *.
  rewrite take_app_le by (rewrite length_take; lia). rewrite take_take, Nat.min_l by lia.
  rewrite drop_app_ge by (rewrite length_take; lia).
  rewrite length_take, Nat.min_l, Nat.sub_diag, drop_0 by lia.
  rewrite !app_assoc. do 2 f_equal.
  rewrite <- (take_drop pos (take s ls)) at 1. rewrite take_take, Nat.min_l by lia.
  f_equal. by rewrite <- skipn_firstn_comm.
Qed.

(** The result of [compute_replacements]. *)
Lemma compute_replacements_Ok lines path cs reps :
  compute_replacements lines path cs = Ok reps ->
  exists new, reps = sort_by_start new /\ Forall2 (chunk_replaced lines) cs new /\
    Forall (fun r => rep_start r + rep_len r <= length lines) new /\
    (Forall (plain lines) cs -> StronglySorted before reps).
Proof.
  unfold compute_replacements. intros H. apply comp_bind_Ok in H as (new & Hl & H). simplify_eq.
  apply compute_loop_spec in Hl as (new' & Hn & H2 & Hb & Hp); [|lia]. simpl in Hn. subst new'.
  exists new. split_and!; try done. intros Hplain. destruct (Hp Hplain) as [_ Ho].
  by apply (sort_by_start_before (length lines)).
Qed.

Lemma compute_apply {E} lines path cs reps :
  compute_replacements lines path cs = Ok reps ->
  @apply_replacements E lines reps = Ok (foldr splice lines reps).
Proof.
  intros H. apply compute_replacements_Ok in H as (new & -> & _ & Hb & _).
  apply apply_replacements_foldr; [apply sort_by_start_sorted|].
  rewrite sort_by_start_perm. eapply Forall_impl; [exact Hb|]. simpl. lia.
Qed.



Lemma derive_new_contents_total contents path chunks :
  match derive_new_contents contents path chunks with
  | Ok _ | Err (ComputeReplacements _) => True
  | _ => False
  end.
Proof.
  unfold derive_new_contents.
  destruct (compute_replacements (file_lines contents) path chunks) as [reps|e| |] eqn:E; cbn [comp_bind].
  - by rewrite (compute_apply _ _ _ _ E).
  - unfold compute_replacements in E.
    destruct (compute_loop _ _ _ _ _) eqn:El; simplify_eq/=. by apply compute_loop_error in El as [? ->].
  - unfold compute_replacements in E. pose proof (compute_loop_returns (file_lines contents) path chunks 0 []).
    by destruct (compute_loop _ _ _ _ _).
  - unfold compute_replacements in E. pose proof (compute_loop_returns (file_lines contents) path chunks 0 []).
    by destruct (compute_loop _ _ _ _ _).
Qed.

(** ** Properties *)

(** Applying the chunks of a patch to a file never panics: for every file text
    and every list of chunks the result is the new text or a
    [ComputeReplacements] error.  In particular the [Vec::insert] calls of
    [apply_replacements], which trust the indices of [compute_replacements], are
    always in range, even for chunks whose regions overlap. *)
Theorem derive_new_contents_returns (contents path : str) (chunks : list UpdateFileChunk) :
  match derive_new_contents contents path chunks with
  | Ok _ | Err (ComputeReplacements _) => True
  | _ => False
  end.
Proof. apply derive_new_contents_total. Qed.

(** What the replacements are: one per chunk, sorted by position, each inside
    the file, and each covering a window that agrees with the old lines of its
    chunk at one of the four levels of [seek_sequence] (possibly without a
    trailing empty line); a chunk without old lines is an insertion at the end. *)
Theorem compute_replacements_spec (lines : list str) (path : str) (chunks : list UpdateFileChunk)
  (reps : list replacement) (Hok : compute_replacements lines path chunks = Ok reps) :
  StronglySorted start_le reps /\
  Forall (fun r => rep_start r + rep_len r <= length lines) reps /\
  exists reps', Permutation reps reps' /\ Forall2 (chunk_replaced lines) chunks reps'.
Proof.
  apply compute_replacements_Ok in Hok as (new & -> & H2 & Hb & _). split_and!.
  - apply sort_by_start_sorted.
  - by rewrite sort_by_start_perm.
  - exists new. split; [apply sort_by_start_perm|done].
Qed.

Definition abc : list str := [&"a"; &"b"; &"c"].
Definition swap_b : UpdateFileChunk :=
  {| change_context := Some &"a"; old_lines := [&"b"]; new_lines := [&"B"; &"BB"]; is_end_of_file := false |}.
Definition add_end : UpdateFileChunk :=
  {| change_context := None; old_lines := []; new_lines := [&"z"]; is_end_of_file := false |}.

Lemma compute_replacements_spec_witness :
  compute_replacements abc &"f" [add_end; swap_b] = Ok [(1, 1, [&"B"; &"BB"]); (3, 0, [&"z"])] /\
  StronglySorted start_le [(1, 1, [&"B"; &"BB"]); (3, 0, [&"z"])].
Proof.
  split; [vm_compute; reflexivity|].
  apply (compute_replacements_spec abc &"f" [add_end; swap_b]). vm_compute; reflexivity.
Defined.

(** C4: refinement to a left-to-right edit.  For chunks that are not marked end-of-file,
    none of which is a pure addition when the last line of the file is empty: when the new
    contents are computed, every chunk has its region, where its old lines match (both lists
    of a chunk may lose an empty last line) and which is exchanged for its new lines; a pure
    addition is put at the end; the regions are disjoint and in order, and the new text is
    the original one with exactly these regions exchanged: all other lines are kept, in
    order. *)
Theorem derive_new_contents_patched (contents path new_contents : str)
  (chunks : list UpdateFileChunk)
  (Hplain : Forall (plain (file_lines contents)) chunks)
  (Hok : derive_new_contents contents path chunks = Ok new_contents) :
  exists reps,
    compute_replacements (file_lines contents) path chunks = Ok reps /\
    StronglySorted before reps /\
    (exists by_chunk, Permutation reps by_chunk /\ Forall2 (chunk_replaced (file_lines contents)) chunks by_chunk) /\
    let out := patched 0 reps (file_lines contents) in
    new_contents = join [nl] (if last_is_empty out then out else out ++ [[]]).
Proof.
  unfold derive_new_contents in Hok. apply comp_bind_Ok in Hok as (reps & Hr & H).
  rewrite (compute_apply _ _ _ _ Hr) in H. cbn [comp_bind] in H.
  exists reps. split; [done|]. pose proof Hr as (new & -> & Hc & Hb & Hp)%compute_replacements_Ok.
  specialize (Hp Hplain). split; [done|]. split; [exists new; split; [apply sort_by_start_perm|done]|].
  assert (Forall (fun r => rep_start r + rep_len r <= length (file_lines contents)) (sort_by_start new))
    as Hb' by (by rewrite sort_by_start_perm).
  rewrite (foldr_splice_patched _ 0) in H; [|done|apply Forall_true; lia|done|lia].
  rewrite take_0, app_nil_l in H. injection H as <-. cbv zeta.
  by destruct (last_is_empty _).
Qed.

Lemma derive_new_contents_patched_witness :
  exists reps,
    compute_replacements abc &"f" [add_end; swap_b] = Ok reps /\ StronglySorted before reps /\
    (exists by_chunk, Permutation reps by_chunk /\ Forall2 (chunk_replaced abc) [add_end; swap_b] by_chunk) /\
    let out := patched 0 reps abc in
    join [nl] [&"a"; &"B"; &"BB"; &"c"; &"z"; []] =
    join [nl] (if last_is_empty out then out else out ++ [[]]).
Proof.
  apply (derive_new_contents_patched (join [nl] (abc ++ [[]])) &"f" _ [add_end; swap_b]).
  - repeat constructor.
  - vm_compute. reflexivity.
Defined.

(** A pure addition is put before an empty last line.  When an earlier chunk replaces that
    line, the regions overlap and what was added is lost. *)
Lemma addition_before_empty_line_lost :
  derive_new_contents (&"a" ++ [nl; nl]) (&"f")
    [{| change_context := None; old_lines := [&"a"; []]; new_lines := [&"b"]; is_end_of_file := false |};
     {| change_context := None; old_lines := []; new_lines := [&"z"]; is_end_of_file := false |}] = Ok (&"b" ++ [nl]).
Proof. vm_compute. reflexivity. Qed.

(** An updated file is empty or ends with a newline, whatever the original
    text looked like. *)
Theorem derive_new_contents_newline (contents path new_contents : str)
  (chunks : list UpdateFileChunk)
  (Hok : derive_new_contents contents path chunks = Ok new_contents) :
  new_contents = [] \/ last new_contents = Some nl.
Proof.
  unfold derive_new_contents in Hok. apply comp_bind_Ok in Hok as (reps & Hr & H).
  apply comp_bind_Ok in H as (out & Ho & H). simplify_eq.
  assert (forall l : list str, join [nl] (l ++ [[]]) = [] \/ last (join [nl] (l ++ [[]])) = Some nl) as Hj.
  { clear. induction l as [|x l IH]; [by left|]. right. cbn [app join].
    destruct (l ++ [[]]) eqn:E; [by destruct l|]. rewrite <- E in *.
    rewrite last_app, last_cons. by destruct IH as [-> | ->]. }
  destruct (last_is_empty out) eqn:E; cbn [negb]; [|apply Hj].
  apply last_is_empty_spec in E as [l ->]. apply Hj.
Qed.

Lemma derive_new_contents_newline_witness :
  derive_new_contents &"a" &"f" [add_end] = Ok (&"a" ++ [nl] ++ &"z" ++ [nl]) /\
  ((&"a" ++ [nl] ++ &"z" ++ [nl]) = [] \/ last (&"a" ++ [nl] ++ &"z" ++ [nl]) = Some nl).
Proof.
  split; [vm_compute; reflexivity|].
  apply (derive_new_contents_newline &"a" &"f" _ [add_end]). vm_compute. reflexivity.
Defined.
