(* ===== verification/PatchFs.v ===== *)
(** * apply-patch/src/lib.rs, the file system side: applying hunks to files

    [apply_hunks_to_files] and its helpers run over an abstract file system,
    the trait [ExecutorFileSystem] of the file-system crate, and record in an
    [AppliedPatchDelta] what they committed.  [FileSystemLaws] states what the
    patch code relies on; [map_fs] is an instance. *)
From S2P Require Import Prelude RustStr RustPath AbsolutePath PatchParser SeekSequence ApplyPatch.

(** ** Interfaces *)

Record FileMetadata := { is_directory : bool; is_file : bool; is_symlink : bool }.

(** The methods of [ExecutorFileSystem] that apply-patch calls.  [fs] is the
    state of the disk; the sandbox argument is fixed throughout and belongs to
    the instance. *)
Class ExecutorFileSystem (fs : Type) := {
  read_file_text : str -> fs -> io_error + str;
  get_metadata : str -> fs -> io_error + FileMetadata;
  write_file : str -> str -> fs -> (io_error + unit) * fs;
  create_directory : str -> fs -> (io_error + unit) * fs;
  remove_file : str -> fs -> (io_error + unit) * fs
}.

(** [AbsolutePathBuf]: resolution against a base, and the parent directory. *)
Class PathOps := {
  resolve_path_against_base : str -> str -> str;
  parent_of : str -> option str
}.

(** [std::io::Write] as used by [writeln!] *)
Class Writer (W : Type) := { write_str : str -> W -> (io_error + unit) * W }.

(** ** Data *)

(** [anyhow::Error]: a message, an I/O error, an [ApplyPatchError], or one of
    them below a context. *)
Inductive anyhow_error :=
| AnyMsg (message : str)
| AnyIo (e : io_error)
| AnyApply (e : ApplyPatchError)
| AnyContext (context : str) (source : anyhow_error).

Definition display_ParseError (e : ParseError) : str :=
  match e with
  | InvalidPatchError message => &"invalid patch: " ++ message
  | InvalidHunkError message line_number =>
      &"invalid hunk at line " ++ show_nat line_number ++ &", " ++ message
  end.

Definition quote : str := [34%N].

Definition display_ApplyPatchError (e : ApplyPatchError) : str :=
  match e with
  | ParseErr e => display_ParseError e
  | IoErr e => io_context e ++ &": " ++ io_message (io_source e)
  | ComputeReplacements message => message
  | ImplicitInvocation =>
      &"patch detected without explicit call to apply_patch. Rerun as [" ++
      quote ++ &"apply_patch" ++ quote ++ &", " ++ quote ++ &"<patch>" ++ quote ++ &"]"
  end.

(** [to_string] shows the outermost context; [downcast_ref::<io::Error>] looks
    through contexts. *)
Fixpoint any_to_string (e : anyhow_error) : str :=
  match e with
  | AnyMsg m => m
  | AnyIo e => io_message e
  | AnyApply e => display_ApplyPatchError e
  | AnyContext c _ => c
  end.

Fixpoint downcast_io (e : anyhow_error) : option io_error :=
  match e with
  | AnyIo e => Some e
  | AnyContext _ e => downcast_io e
  | AnyMsg _ | AnyApply _ => None
  end.

(** [impl From<&std::io::Error> for ApplyPatchError] *)
Definition apply_error_from_io (e : io_error) : ApplyPatchError :=
  IoErr {| io_context := &"I/O error"; io_source := e |}.

Inductive AppliedPatchFileChange :=
| ChangeAdd (content : str) (overwritten_content : option str)
| ChangeDelete (content : str)
| ChangeUpdate (move_path : option str) (old_content : str)
    (overwritten_move_content : option str) (new_content : str).

Record AppliedPatchChange := { change_path : str; change : AppliedPatchFileChange }.

Record AppliedPatchDelta := { changes : list AppliedPatchChange; exact : bool }.

Definition empty_delta : AppliedPatchDelta := {| changes := []; exact := true |}.

(** [AppliedPatchDelta::append] *)
Definition append_delta (d other : AppliedPatchDelta) : AppliedPatchDelta :=
  {| changes := changes d ++ changes other; exact := exact d && exact other |}.

Record ApplyPatchFailure := { failure_error : ApplyPatchError; failure_delta : AppliedPatchDelta }.

Definition without_delta (e : ApplyPatchError) : ApplyPatchFailure :=
  {| failure_error := e; failure_delta := empty_delta |}.

Record AffectedPaths := { added : list str; modified : list str; deleted : list str }.

Section operations.
Context {fs : Type} `{!ExecutorFileSystem fs} `{!PathOps}.

(** ** The state threaded through the hunks

    The disk, the [&mut delta] and the three vectors of affected paths. *)
Record ap_state := {
  disk : fs;
  delta : AppliedPatchDelta;
  affected : AffectedPaths
}.

Definition M (A : Type) : Type := ap_state -> (anyhow_error + A) * ap_state.

Definition mret {A} (a : A) : M A := fun s => (inr a, s).
Definition merr {A} (e : anyhow_error) : M A := fun s => (inl e, s).
Definition mbnd {A B} (c : M A) (k : A -> M B) : M B := fun s =>
  match c s with
  | (inr a, s') => k a s'
  | (inl e, s') => (inl e, s')
  end.

Notation "'do!' x := c 'in' k" := (mbnd c (fun x => k))
  (at level 200, x name, c at level 100, k at level 200, right associativity).

Definition set_disk (d : fs) (s : ap_state) : ap_state :=
  {| disk := d; delta := delta s; affected := affected s |}.

Definition set_delta (d : AppliedPatchDelta) (s : ap_state) : ap_state :=
  {| disk := disk s; delta := d; affected := affected s |}.

(** [delta.exact &= b] *)
Definition and_exact (b : bool) : M unit := fun s =>
  (inr tt, set_delta {| changes := changes (delta s); exact := exact (delta s) && b |} s).

(** [delta.changes.push(change)] *)
Definition push_change (c : AppliedPatchChange) : M unit := fun s =>
  (inr tt, set_delta {| changes := changes (delta s) ++ [c]; exact := exact (delta s) |} s).

(** [delta.changes[i] = change] *)
Definition set_change (i : nat) (c : AppliedPatchChange) : M unit := fun s =>
  (inr tt, set_delta {| changes := <[i := c]> (changes (delta s)); exact := exact (delta s) |} s).

Definition changes_len : M nat := fun s => (inr (length (changes (delta s))), s).

Definition push_added (p : str) : M unit := fun s =>
  (inr tt, {| disk := disk s; delta := delta s; affected :=
    {| added := added (affected s) ++ [p]; modified := modified (affected s); deleted := deleted (affected s) |} |}).
Definition push_modified (p : str) : M unit := fun s =>
  (inr tt, {| disk := disk s; delta := delta s; affected :=
    {| added := added (affected s); modified := modified (affected s) ++ [p]; deleted := deleted (affected s) |} |}).
Definition push_deleted (p : str) : M unit := fun s =>
  (inr tt, {| disk := disk s; delta := delta s; affected :=
    {| added := added (affected s); modified := modified (affected s); deleted := deleted (affected s) ++ [p] |} |}).

(** A read of the disk, as a result value. *)
Definition reads {A} (f : fs -> A) : M A := fun s => (inr (f (disk s)), s).

(** A write to the disk, as a result value. *)
Definition writes (f : fs -> (io_error + unit) * fs) : M (io_error + unit) := fun s =>
  let '(r, d) := f (disk s) in (inr r, set_disk d s).

(** [?] on a result, with a context. *)
Definition with_context {A} (ctx : str) (r : io_error + A) : M A :=
  match r with
  | inr a => mret a
  | inl e => merr (AnyContext ctx (AnyIo e))
  end.

(** ** Helpers *)

Definition note_existing_path_delta_support (path : str) : M unit :=
  do! r := reads (get_metadata path) in
  match r with
  | inr metadata => and_exact (is_file metadata && negb (is_symlink metadata))
  | inl source => and_exact (bool_decide (kind source = NotFound))
  end.

Definition read_optional_file_text_for_delta (path : str) : M (option str) :=
  do! _ := note_existing_path_delta_support path in
  do! r := reads (read_file_text path) in
  match r with
  | inr content => mret (Some content)
  | inl source =>
      if bool_decide (kind source = NotFound) then mret None
      else do! _ := and_exact false in mret None
  end.

Definition ensure_not_directory (path : str) : M (io_error + unit) :=
  do! r := reads (get_metadata path) in
  match r with
  | inl e => mret (inl e)
  | inr metadata =>
      if is_directory metadata
      then mret (inl {| kind := InvalidInput; io_message := &"path is a directory" |})
      else mret (inr tt)
  end.

Definition remove_failure_was_side_effect_free (path : str) (expected_content : option str) : M bool :=
  match expected_content with
  | Some expected_content =>
      do! r := reads (read_file_text path) in
      mret (match r with inr content => str_eqb content expected_content | inl _ => false end)
  | None => mret false
  end.

(** The parent directories of the retry. *)
Definition create_parent_directories (path_abs : str) : M unit :=
  match parent_of path_abs with
  | Some parent_abs =>
      do! r := writes (create_directory parent_abs) in
      with_context (&"Failed to create parent directories for " ++ path_abs) r
  | None => mret tt
  end.

Definition write_file_with_missing_parent_retry (path_abs contents : str) : M unit :=
  do! r := writes (write_file path_abs contents) in
  match r with
  | inr _ => mret tt
  | inl err =>
      if bool_decide (kind err = NotFound) then
        do! _ := create_parent_directories path_abs in
        do! r := writes (write_file path_abs contents) in
        with_context (&"Failed to write file " ++ path_abs) r
      else with_context (&"Failed to write file " ++ path_abs) (inl err)
  end.

(** [try_write!]: a failed write makes the delta inexact. *)
Definition try_write {A} (c : M A) : M A := fun s =>
  match c s with
  | (inr a, s') => (inr a, s')
  | (inl e, s') => mbnd (and_exact false) (fun _ => merr e) s'
  end.

(** [derive_new_contents_from_chunks]: original and new contents. *)
Definition derive_new_contents_from_chunks (path_abs : str) (chunks : list UpdateFileChunk) (d : fs)
  : comp ApplyPatchError (str * str) :=
  match read_file_text path_abs d with
  | inl err => Err (IoErr
      {| io_context := &"Failed to read file to update " ++ path_abs; io_source := err |})
  | inr original_contents =>
      let? new_contents := derive_new_contents original_contents path_abs chunks in
      Ok (original_contents, new_contents)
  end.

(** [?] on it, inside the hunk loop. *)
Definition derived (path_abs : str) (chunks : list UpdateFileChunk) : M (str * str) :=
  do! r := reads (derive_new_contents_from_chunks path_abs chunks) in
  match r with
  | Ok p => mret p
  | Err e => merr (AnyApply e)
  | Panic | Loop => merr (AnyMsg []) (* never: [derive_new_contents_returns] *)
  end.

(** ** One hunk, and all of them *)

Definition apply_hunk (cwd : str) (hunk : Hunk) : M unit :=
  let affected_path := hunk_path hunk in
  let path_abs := resolve_path resolve_path_against_base hunk cwd in
  match hunk with
  | AddFile _ contents =>
      do! overwritten_content := read_optional_file_text_for_delta path_abs in
      do! _ := try_write (write_file_with_missing_parent_retry path_abs contents) in
      do! _ := push_change {| change_path := path_abs; change := ChangeAdd contents overwritten_content |} in
      push_added affected_path
  | DeleteFile _ =>
      do! _ := note_existing_path_delta_support path_abs in
      do! r := reads (read_file_text path_abs) in
      let deleted_content := match r with inr c => Some c | inl _ => None end in
      do! _ := and_exact (match deleted_content with Some _ => true | None => false end) in
      let ctx := &"Failed to delete file " ++ path_abs in
      do! r := ensure_not_directory path_abs in
      do! _ := with_context ctx r in
      do! r := writes (remove_file path_abs) in
      match r with
      | inl error =>
          do! b := remove_failure_was_side_effect_free path_abs deleted_content in
          do! _ := and_exact b in
          with_context ctx (inl error)
      | inr _ =>
          do! _ :=
            match deleted_content with
            | Some content => push_change {| change_path := path_abs; change := ChangeDelete content |}
            | None => mret tt
            end in
          push_deleted affected_path
      end
  | UpdateFile _ move_path chunks =>
      do! _ := note_existing_path_delta_support path_abs in
      do! p := derived path_abs chunks in
      let original_contents := p.1 in
      let new_contents := p.2 in
      match move_path with
      | Some dest =>
          let dest_abs := resolve_path_against_base dest cwd in
          do! overwritten_move_content := read_optional_file_text_for_delta dest_abs in
          do! _ := try_write (write_file_with_missing_parent_retry dest_abs new_contents) in
          do! dest_write_change_index := changes_len in
          do! _ := push_change {| change_path := dest_abs;
                     change := ChangeAdd new_contents overwritten_move_content |} in
          let ctx := &"Failed to remove original " ++ path_abs in
          do! r := ensure_not_directory path_abs in
          do! _ := with_context ctx r in
          do! r := writes (remove_file path_abs) in
          match r with
          | inl error =>
              do! b := remove_failure_was_side_effect_free path_abs (Some original_contents) in
              do! _ := and_exact b in
              with_context ctx (inl error)
          | inr _ =>
              do! _ := set_change dest_write_change_index
                {| change_path := path_abs; change :=
                     ChangeUpdate (Some dest_abs) original_contents overwritten_move_content new_contents |} in
              push_modified affected_path
          end
      | None =>
          do! _ := try_write (
            do! r := writes (write_file path_abs new_contents) in
            with_context (&"Failed to write file " ++ path_abs) r) in
          do! _ := push_change {| change_path := path_abs;
                     change := ChangeUpdate None original_contents None new_contents |} in
          push_modified affected_path
      end
  end.

Fixpoint apply_each (cwd : str) (hunks : list Hunk) : M unit :=
  match hunks with
  | [] => mret tt
  | h :: hs => do! _ := apply_hunk cwd h in apply_each cwd hs
  end.

(** [apply_hunks_to_files] from a disk and the caller's delta. *)
Definition apply_hunks_to_files (hunks : list Hunk) (cwd : str) (d : fs) (dl : AppliedPatchDelta)
  : (anyhow_error + AffectedPaths) * fs * AppliedPatchDelta :=
  match hunks with
  | [] => (inl (AnyMsg &"No files were modified."), d, dl)
  | _ =>
      match apply_each cwd hunks
        {| disk := d; delta := dl; affected := {| added := []; modified := []; deleted := [] |} |}
      with
      | (inr _, s) => (inr (affected s), disk s, delta s)
      | (inl e, s) => (inl e, disk s, delta s)
      end
  end.
End operations.

Section output.
Context {fs W : Type} `{!ExecutorFileSystem fs} `{!PathOps} `{!Writer W}.

(** [writeln!(out, ..)] *)
Definition writeln (line : str) (w : W) : (io_error + unit) * W := write_str (line ++ [nl]) w.

Fixpoint write_lines (ls : list str) (w : W) : (io_error + unit) * W :=
  match ls with
  | [] => (inr tt, w)
  | l :: ls' =>
      match writeln l w with
      | (inr _, w') => write_lines ls' w'
      | r => r
      end
  end.

Definition print_summary (affected : AffectedPaths) (out : W) : (io_error + unit) * W :=
  write_lines
    (&"Success. Updated the following files:" ::
     map (fun p => &"A " ++ p) (added affected) ++
     map (fun p => &"M " ++ p) (modified affected) ++
     map (fun p => &"D " ++ p) (deleted affected)) out.

(** Result, disk, stdout and stderr. *)
Definition apply_hunks (hunks : list Hunk) (cwd : str) (stdout stderr : W) (d : fs)
  : (ApplyPatchFailure + AppliedPatchDelta) * fs * W * W :=
  let '(r, d', dl) := apply_hunks_to_files hunks cwd d empty_delta in
  match r with
  | inr affected_paths =>
      match print_summary affected_paths stdout with
      | (inr _, stdout') => (inr dl, d', stdout', stderr)
      | (inl e, stdout') =>
          (inl {| failure_error := apply_error_from_io e; failure_delta := dl |}, d', stdout', stderr)
      end
  | inl error =>
      let msg := any_to_string error in
      match writeln msg stderr with
      | (inl e, stderr') =>
          (inl {| failure_error := apply_error_from_io e; failure_delta := dl |}, d', stdout, stderr')
      | (inr _, stderr') =>
          let error' :=
            match downcast_io error with
            | Some io => apply_error_from_io io
            | None => IoErr {| io_context := msg; io_source := {| kind := Other; io_message := msg |} |}
            end in
          (inl {| failure_error := error'; failure_delta := dl |}, d', stdout, stderr')
      end
  end.

Definition apply_patch (patch : str) (cwd : str) (stdout stderr : W) (d : fs)
  : (ApplyPatchFailure + AppliedPatchDelta) * fs * W * W :=
  match parse_patch patch with
  | Ok source => apply_hunks (hunks source) cwd stdout stderr d
  | Err e =>
      let line :=
        match e with
        | InvalidPatchError message => &"Invalid patch: " ++ message
        | InvalidHunkError message line_number =>
            &"Invalid patch hunk on line " ++ show_nat line_number ++ &": " ++ message
        end in
      match writeln line stderr with
      | (inl io, stderr') => (inl (without_delta (apply_error_from_io io)), d, stdout, stderr')
      | (inr _, stderr') => (inl (without_delta (ParseErr e)), d, stdout, stderr')
      end
  | Panic | Loop => (inl (without_delta ImplicitInvocation), d, stdout, stderr)
      (* never: [parse_patch_returns] *)
  end.
End output.

(** ** What the patch code relies on *)

(** A path that is a regular file or does not exist. *)
Definition plain_path {fs} `{ExecutorFileSystem fs} (p : str) (d : fs) : bool :=
  match get_metadata p d with
  | inr metadata => is_file metadata && negb (is_symlink metadata)
  | inl e => bool_decide (kind e = NotFound)
  end.

(** [files] are the regular files of a disk.  The laws speak about plain paths
    only: nothing is assumed about symbolic links, directories, or about what
    a failed write leaves behind (unless it failed because a directory is
    missing). *)
Class FileSystemLaws (fs : Type) `{!ExecutorFileSystem fs} `{!PathOps} := {
  files : fs -> gmap str str;
  files_kept (d d' : fs) : Prop :=
    forall q, is_Some (files d !! q) -> plain_path q d = true -> plain_path q d' = true;
  read_ok p d c : plain_path p d = true -> read_file_text p d = inr c -> files d !! p = Some c;
  read_missing p d e :
    plain_path p d = true -> read_file_text p d = inl e -> kind e = NotFound -> files d !! p = None;
  write_ok p c d d' : plain_path p d = true -> write_file p c d = (inr tt, d') ->
    files d' = <[p := c]> (files d) /\ files_kept d d';
  write_missing p c d d' e : plain_path p d = true -> write_file p c d = (inl e, d') ->
    kind e = NotFound -> files d' = files d /\ files_kept d d' /\ plain_path p d' = true;
  mkdir_frame p q d d' r : parent_of p = Some q -> plain_path p d = true ->
    create_directory q d = (r, d') ->
    files d' = files d /\ files_kept d d' /\ plain_path p d' = true;
  remove_ok p d d' : plain_path p d = true -> remove_file p d = (inr tt, d') ->
    files d' = delete p (files d);
  remove_failed p d d' e : plain_path p d = true -> remove_file p d = (inl e, d') ->
    (files d' = files d \/ files d' = delete p (files d)) /\ plain_path p d' = true
}.

(** ** Replaying and undoing a delta *)

Definition set_opt (p : str) (v : option str) (m : gmap str str) : gmap str str :=
  match v with Some c => <[p := c]> m | None => delete p m end.

Definition replay_change (m : gmap str str) (c : AppliedPatchChange) : gmap str str :=
  match change c with
  | ChangeAdd content _ => <[change_path c := content]> m
  | ChangeDelete _ => delete (change_path c) m
  | ChangeUpdate None _ _ new_content => <[change_path c := new_content]> m
  | ChangeUpdate (Some dest) _ _ new_content => delete (change_path c) (<[dest := new_content]> m)
  end.

Definition undo_change (c : AppliedPatchChange) (m : gmap str str) : gmap str str :=
  match change c with
  | ChangeAdd _ overwritten => set_opt (change_path c) overwritten m
  | ChangeDelete content => <[change_path c := content]> m
  | ChangeUpdate None old _ _ => <[change_path c := old]> m
  | ChangeUpdate (Some dest) old overwritten _ =>
      <[change_path c := old]> (set_opt dest overwritten m)
  end.

(** The changes in the order they were committed; undone from the last one. *)
Definition replay (cs : list AppliedPatchChange) (m : gmap str str) : gmap str str :=
  foldl replay_change m cs.
Definition undo (cs : list AppliedPatchChange) (m : gmap str str) : gmap str str :=
  foldr undo_change m cs.

Section delta_proof.
Context {fs : Type} `{!ExecutorFileSystem fs} `{!PathOps} `{!FileSystemLaws fs}.
Implicit Types (s : @ap_state fs) (p c : str).

(** While the delta claims to be exact, it accounts for all changes since [m0]. *)
Definition accounts (m0 : gmap str str) s : Prop :=
  exact (delta s) = true ->
  replay (changes (delta s)) m0 = files (disk s) /\ undo (changes (delta s)) (files (disk s)) = m0.

Definition scale_exact (b : bool) s : ap_state :=
  set_delta {| changes := changes (delta s); exact := exact (delta s) && b |} s.

Definition commit (c : AppliedPatchChange) s : ap_state :=
  set_delta {| changes := changes (delta s) ++ [c]; exact := exact (delta s) |} s.

Lemma accounts_scale m0 b s : accounts m0 s -> accounts m0 (scale_exact b s).
Proof. unfold accounts; simpl. intros Ha [He _]%andb_prop. by apply Ha. Qed.

Lemma accounts_false m0 s : accounts m0 (scale_exact false s).
Proof. unfold accounts; simpl. by rewrite andb_false_r. Qed.

Lemma accounts_same_files m0 d s :
  accounts m0 s -> (exact (delta s) = true -> files d = files (disk s)) -> accounts m0 (set_disk d s).
Proof. unfold accounts; simpl. intros Ha Hf He. rewrite (Hf He). by apply Ha. Qed.

(** A change is committed together with its effect on the files. *)
Lemma accounts_commit m0 (c : AppliedPatchChange) (d : fs) s :
  accounts m0 s ->
  (exact (delta s) = true ->
   files d = replay_change (files (disk s)) c /\ undo_change c (files d) = files (disk s)) ->
  accounts m0 (commit c (set_disk d s)).
Proof.
  unfold accounts; simpl. intros Ha Hc He. destruct (Ha He) as [Hr Hu]. destruct (Hc He) as [Hd Hd'].
  unfold replay, undo in *. rewrite foldl_app, foldr_app. simpl. by rewrite Hr, Hd', Hu.
Qed.

Lemma set_opt_lookup (p : str) (m : gmap str str) (v : str) : set_opt p (m !! p) (<[p := v]> m) = m.
Proof.
  unfold set_opt. destruct (m !! p) eqn:E.
  - by rewrite insert_insert_eq, insert_id.
  - by apply delete_insert_id.
Qed.

(** ** Helpers *)

Lemma note_eq p s :
  note_existing_path_delta_support p s = (inr tt, scale_exact (plain_path p (disk s)) s).
Proof.
  unfold note_existing_path_delta_support, mbnd, reads, plain_path, and_exact, scale_exact.
  by destruct (get_metadata p (disk s)).
Qed.

Lemma read_optional_eq p s :
  exists v b, read_optional_file_text_for_delta p s = (inr v, scale_exact b s) /\
    (b = true -> plain_path p (disk s) = true /\ files (disk s) !! p = v).
Proof.
  unfold read_optional_file_text_for_delta, mbnd. rewrite note_eq. unfold reads. simpl.
  destruct (read_file_text p (disk s)) as [e|c] eqn:Er.
  - case_bool_decide as Hk.
    + exists None, (plain_path p (disk s)). split; [done|]. intros Hp. split; [done|]. by eapply read_missing.
    + exists None, false. split; [|done]. unfold and_exact, scale_exact; simpl. by rewrite !andb_false_r.
  - exists (Some c), (plain_path p (disk s)). split; [done|]. intros Hp. split; [done|]. by eapply read_ok.
Qed.

Lemma create_parent_eq p s :
  exists r d, create_parent_directories p s = (r, set_disk d s) /\
    (plain_path p (disk s) = true ->
     files d = files (disk s) /\ files_kept (disk s) d /\ plain_path p d = true).
Proof.
  unfold create_parent_directories, mbnd, writes.
  destruct (parent_of p) as [q|] eqn:Eq.
  - destruct (create_directory q (disk s)) as [r d] eqn:Ec.
    destruct r as [e|[]]; eexists _, d; (split; [done|]; intros Hp; by apply (mkdir_frame p q _ _ _ Eq Hp Ec)).
  - exists (inr tt), (disk s). split; [by destruct s|]. intros Hp. split_and!; [done|by intros q|done].
Qed.

Lemma write_retry_eq p c s :
  exists r d, write_file_with_missing_parent_retry p c s = (r, set_disk d s) /\
    (r = inr tt -> plain_path p (disk s) = true ->
     files d = <[p := c]> (files (disk s)) /\ files_kept (disk s) d).
Proof.
  unfold write_file_with_missing_parent_retry, mbnd, writes.
  destruct (write_file p c (disk s)) as [[e|[]] d1] eqn:Ew.
  2: { exists (inr tt), d1. split; [done|]. intros _ Hp. by apply write_ok. }
  case_bool_decide as Hk.
  2: { eexists _, d1. split; [done|]. done. }
  destruct (create_parent_eq p (set_disk d1 s)) as (r2 & d2 & -> & Hmk). simpl in *.
  destruct r2 as [e2|[]]; [by eexists _, d2|].
  destruct (write_file p c d2) as [[e3|[]] d3] eqn:Ew2; simpl; [by eexists _, d3|].
  eexists _, d3. split; [done|]. intros _ Hp.
  apply write_missing in Ew as (Hf1 & Hk1 & Hp1); [|done|done].
  destruct (Hmk Hp1) as (Hf2 & Hk2 & Hp2).
  apply write_ok in Ew2 as [Hf3 Hk3]; [|done].
  split; [congruence|]. intros q Hin Hq.
  apply Hk3; [congruence|]. apply Hk2; [congruence|]. by apply Hk1.
Qed.

Lemma try_write_retry_eq p c s :
  (exists d, try_write (write_file_with_missing_parent_retry p c) s = (inr tt, set_disk d s) /\
     (plain_path p (disk s) = true -> files d = <[p := c]> (files (disk s)) /\ files_kept (disk s) d)) \/
  (exists e d, try_write (write_file_with_missing_parent_retry p c) s =
     (inl e, scale_exact false (set_disk d s))).
Proof.
  unfold try_write. destruct (write_retry_eq p c s) as (r & d & -> & Hw).
  destruct r as [e|[]]; [right; by eexists _, d|left]. exists d. split; [done|]. by apply Hw.
Qed.

(** Removing a file: the part shared by a deletion and by a move. *)
Lemma remove_eq p content ctx (k : M unit) s :
  let c := mbnd (ensure_not_directory p) (fun r =>
           mbnd (with_context ctx r) (fun _ =>
           mbnd (writes (remove_file p)) (fun r =>
           match r with
           | inl error =>
               mbnd (remove_failure_was_side_effect_free p content) (fun b =>
               mbnd (and_exact b) (fun _ => with_context ctx (inl error)))
           | inr _ => k
           end))) in
  (exists e, c s = (inl e, s)) \/
  (exists e d b, c s = (inl e, scale_exact b (set_disk d s)) /\
     (b = true -> plain_path p (disk s) = true -> files d = files (disk s))) \/
  (exists d, c s = k (set_disk d s) /\
     (plain_path p (disk s) = true -> files d = delete p (files (disk s)))).
Proof.
  unfold ensure_not_directory, mbnd, reads, writes, with_context. cbn beta iota zeta.
  destruct (get_metadata p (disk s)) as [e|md]; [left; by eexists|].
  destruct (is_directory md); [left; by eexists|]. right. simpl.
  destruct (remove_file p (disk s)) as [[e|[]] d] eqn:Er; simpl.
  2: { right. exists d. split; [done|]. intros Hp. by eapply remove_ok. }
  left. unfold remove_failure_was_side_effect_free, mbnd, reads.
  destruct content as [c|]; simpl.
  2: { eexists _, d, false. by split. }
  eexists _, d, _. split; [done|]. intros Hb Hp.
  destruct (read_file_text p d) as [|c'] eqn:Hr; [done|].
  apply remove_failed in Er as [[Hf|Hf] Hk]; [done| |done].
  apply read_ok in Hr; [|done]. rewrite Hf, lookup_delete_eq in Hr. done.
Qed.

(** ** Each kind of hunk keeps the account *)

Lemma add_accounts m0 cwd path contents s :
  accounts m0 s -> accounts m0 (apply_hunk cwd (AddFile path contents) s).2.
Proof.
  intros Ha. unfold apply_hunk. cbv zeta. set (p := resolve_path _ _ _). unfold mbnd at 1.
  destruct (read_optional_eq p s) as (v & b & -> & Hv).
  unfold mbnd at 1. pose proof (accounts_scale m0 b s Ha) as Ha'.
  destruct (try_write_retry_eq p contents (scale_exact b s)) as [(d & -> & Hw)|(e & d & ->)];
    [|apply accounts_false].
  apply (accounts_commit m0 {| change_path := p; change := ChangeAdd contents v |} d _ Ha').
  simpl. intros [_ Hb]%andb_prop. destruct (Hv Hb) as [Hp <-].
  destruct (Hw Hp) as [-> _]. split; [done|]. apply set_opt_lookup.
Qed.

Lemma delete_accounts m0 cwd path s :
  accounts m0 s -> accounts m0 (apply_hunk cwd (DeleteFile path) s).2.
Proof.
  intros Ha. unfold apply_hunk. cbv zeta. set (p := resolve_path _ _ _). unfold mbnd at 1.
  rewrite note_eq. unfold mbnd at 1, reads. cbn [disk scale_exact set_delta].
  set (content := match read_file_text p (disk s) with inr c => Some c | inl _ => None end).
  unfold mbnd at 1, and_exact at 1. set (b := match content with Some _ => true | None => false end).
  match goal with |- accounts m0 (mbnd _ _ ?s').2 => set (s1 := s') end.
  assert (accounts m0 s1) as Ha1 by (do 2 apply accounts_scale; done).
  destruct (remove_eq p content (&"Failed to delete file " ++ p)
    (mbnd (match content with
           | Some c => push_change {| change_path := p; change := ChangeDelete c |}
           | None => mret tt end) (fun _ => push_deleted (hunk_path (DeleteFile path)))) s1)
    as [(e & ->)|[(e & d & b' & -> & Hd)|(d & -> & Hd)]]; [done| |].
  - simpl. unfold accounts. simpl. intros [[[He Hp]%andb_prop Hb]%andb_prop Hb']%andb_prop.
    rewrite (Hd Hb' Hp). apply Ha1. simpl. by rewrite He, Hp, Hb.
  - destruct content as [c|] eqn:Ec.
    + apply (accounts_commit m0 {| change_path := p; change := ChangeDelete c |} d s1 Ha1).
      simpl. intros [[_ Hp]%andb_prop _]%andb_prop. rewrite (Hd Hp). split; [done|].
      unfold content in Ec. destruct (read_file_text p (disk s)) eqn:Hr; simplify_eq.
      unfold undo_change; simpl. rewrite insert_delete_eq. apply insert_id. by apply read_ok.
    + unfold accounts. simpl. by rewrite !andb_false_r.
Qed.

Lemma derive_eq p chunks s :
  (exists e, derived p chunks s = (inl e, s)) \/
  (exists old new, derived p chunks s = (inr (old, new), s) /\
     read_file_text p (disk s) = inr old /\ derive_new_contents old p chunks = Ok new).
Proof.
  unfold derived, derive_new_contents_from_chunks, mbnd, reads.
  destruct (read_file_text p (disk s)) as [e|old] eqn:Er; [left; by eexists|].
  destruct (derive_new_contents old p chunks) as [new| | |] eqn:Ed; [right|left; by eexists..].
  by exists old, new.
Qed.

Lemma update_accounts m0 cwd path chunks s :
  accounts m0 s -> accounts m0 (apply_hunk cwd (UpdateFile path None chunks) s).2.
Proof.
  intros Ha. unfold apply_hunk. cbv zeta. set (p := resolve_path _ _ _). unfold mbnd at 1.
  rewrite note_eq. unfold mbnd at 1. set (s1 := scale_exact _ s).
  assert (accounts m0 s1) as Ha1 by (by apply accounts_scale).
  destruct (derive_eq p chunks s1) as [(e & ->)|(old & new & -> & Hr & _)]; [done|]. cbn [fst snd].
  unfold mbnd at 1, try_write, writes, mbnd at 1. cbn [disk].
  destruct (write_file p new (disk s1)) as [[e|[]] d] eqn:Ew; [apply accounts_false|].
  apply (accounts_commit m0 {| change_path := p; change := ChangeUpdate None old None new |} d s1 Ha1).
  simpl. intros [_ Hp]%andb_prop. apply write_ok in Ew as [-> _]; [|done]. split; [done|].
  unfold undo_change; simpl. rewrite insert_insert_eq. apply insert_id. by apply read_ok.
Qed.

(** The files before and after a move, seen through the change it records. *)
Lemma move_undo (p dest : str) (m : gmap str str) (old new : str) :
  m !! p = Some old ->
  <[p := old]> (set_opt dest (m !! dest) (delete p (<[dest := new]> m))) = m.
Proof.
  intros Hp. apply map_eq. intros q. destruct (decide (q = p)) as [->|Hqp].
  { by rewrite lookup_insert_eq. }
  rewrite lookup_insert_ne by done. unfold set_opt.
  destruct (decide (q = dest)) as [->|Hqd].
  - destruct (m !! dest); [by rewrite lookup_insert_eq|by rewrite lookup_delete_eq].
  - destruct (m !! dest); rewrite ?lookup_insert_ne, ?lookup_delete_ne, ?lookup_delete_ne,
      ?lookup_insert_ne by done; done.
Qed.

Lemma move_accounts m0 cwd path dest chunks s :
  accounts m0 s -> accounts m0 (apply_hunk cwd (UpdateFile path (Some dest) chunks) s).2.
Proof.
  intros Ha. unfold apply_hunk. cbv zeta. set (p := resolve_path _ _ _). unfold mbnd at 1.
  rewrite note_eq. unfold mbnd at 1. set (s1 := scale_exact _ s).
  assert (accounts m0 s1) as Ha1 by (by apply accounts_scale).
  destruct (derive_eq p chunks s1) as [(e & ->)|(old & new & -> & Hr & _)]; [done|]. cbn [fst snd].
  set (q := resolve_path_against_base dest cwd). unfold mbnd at 1.
  destruct (read_optional_eq q s1) as (v & b & -> & Hv).
  unfold mbnd at 1. pose proof (accounts_scale m0 b s1 Ha1) as Ha2. set (s2 := scale_exact b s1) in *.
  destruct (try_write_retry_eq q new s2) as [(d & -> & Hw)|(e & d & ->)]; [|apply accounts_false].
  unfold mbnd at 1, changes_len, mbnd at 1, push_change.
  set (n := length _). set (c1 := {| change_path := q; change := ChangeAdd new v |}).
  change (set_delta _ (set_disk d s2)) with (commit c1 (set_disk d s2)).
  assert (accounts m0 (commit c1 (set_disk d s2))) as Ha3.
  { apply (accounts_commit m0 c1 d s2 Ha2). simpl. intros [_ Hb]%andb_prop.
    destruct (Hv Hb) as [Hq <-]. destruct (Hw Hq) as [-> _]. split; [done|]. apply set_opt_lookup. }
  set (s3 := commit c1 _) in *.
  set (c2 := {| change_path := p; change := ChangeUpdate (Some q) old v new |}).
  destruct (remove_eq p (Some old) (&"Failed to remove original " ++ p)
    (mbnd (set_change n c2) (fun _ => push_modified (hunk_path (UpdateFile path (Some dest) chunks)))) s3)
    as [(e & ->)|[(e & d' & b' & -> & Hd)|(d' & -> & Hd)]]; [done| |].
  - unfold accounts. simpl. intros [[[He Hp]%andb_prop Hb]%andb_prop Hb']%andb_prop.
    destruct (Hv Hb) as [Hq _]. destruct (Hw Hq) as [_ Hk].
    rewrite (Hd Hb' (Hk p (mk_is_Some _ _ (read_ok _ _ _ Hp Hr)) Hp)). apply Ha3. simpl. by rewrite He, Hp, Hb.
  - assert (set_change n c2 (set_disk d' s3) = (inr tt, commit c2 (set_disk d' s2))) as Hset.
    { unfold set_change, commit. cbn. unfold n. cbn.
      by rewrite insert_app_r_alt, Nat.sub_diag by lia. }
    unfold mbnd. rewrite Hset.
    apply (accounts_commit m0 c2 d' s2 Ha2). simpl. intros [[_ Hp]%andb_prop Hb]%andb_prop.
    destruct (Hv Hb) as [Hq Hv']. destruct (Hw Hq) as [Hf Hk].
    specialize (Hd (Hk p (mk_is_Some _ _ (read_ok _ _ _ Hp Hr)) Hp)). simpl in Hd. rewrite Hd, Hf. split; [done|].
    unfold undo_change; simpl. rewrite <- Hv'. apply move_undo. by apply read_ok.
Qed.

Lemma hunk_accounts m0 cwd hunk s : accounts m0 s -> accounts m0 (apply_hunk cwd hunk s).2.
Proof.
  destruct hunk as [| |path [dest|] chunks];
    auto using add_accounts, delete_accounts, update_accounts, move_accounts.
Qed.

Lemma each_accounts m0 cwd hs s : accounts m0 s -> accounts m0 (apply_each cwd hs s).2.
Proof.
  revert s. induction hs as [|h hs IH]; intros s Ha; [done|]. simpl. unfold mbnd.
  pose proof (hunk_accounts m0 cwd h s Ha) as Hh.
  destruct (apply_hunk cwd h s) as [[e|[]] s']; [done|]. by apply IH.
Qed.

Lemma to_files_accounts hs cwd d :
  let '(_, d', dl) := apply_hunks_to_files hs cwd d empty_delta in
  exact dl = true -> replay (changes dl) (files d) = files d' /\ undo (changes dl) (files d') = files d.
Proof.
  unfold apply_hunks_to_files. destruct hs as [|h hs]; [done|].
  set (s0 := {| disk := d |}).
  pose proof (each_accounts (files d) cwd (h :: hs) s0 (fun _ => conj eq_refl eq_refl)) as Ha.
  destruct (apply_each cwd (h :: hs) s0) as [[e|[]] s']; exact Ha.
Qed.

(** ** Affected paths *)

Definition added_path (h : Hunk) : option str :=
  match h with AddFile path _ => Some path | _ => None end.
Definition deleted_path (h : Hunk) : option str :=
  match h with DeleteFile path => Some path | _ => None end.
Definition updated_path (h : Hunk) : option str :=
  match h with UpdateFile _ _ _ => Some (hunk_path h) | _ => None end.

Definition log_hunk (h : Hunk) (a : AffectedPaths) : AffectedPaths :=
  {| added := added a ++ option_list (added_path h);
     modified := modified a ++ option_list (updated_path h);
     deleted := deleted a ++ option_list (deleted_path h) |}.

(** The effect a hunk is meant to have on the regular files. *)
Definition hunk_effect (cwd : str) (h : Hunk) (m : gmap str str) : option (gmap str str) :=
  let p := resolve_path resolve_path_against_base h cwd in
  match h with
  | AddFile _ contents => Some (<[p := contents]> m)
  | DeleteFile _ => Some (delete p m)
  | UpdateFile _ move_path chunks =>
      old ← m !! p;
      match derive_new_contents old p chunks with
      | Ok new =>
          Some (match move_path with
                | None => <[p := new]> m
                | Some dest => delete p (<[resolve_path_against_base dest cwd := new]> m)
                end)
      | _ => None
      end
  end.

(** A hunk that was applied: what it logs and, as long as the delta is exact,
    what it does. *)
Definition applied cwd h s s' : Prop :=
  affected s' = log_hunk h (affected s) /\
  (exact (delta s') = true ->
   exact (delta s) = true /\ hunk_effect cwd h (files (disk s)) = Some (files (disk s'))).

Lemma add_applied cwd path contents s s' :
  apply_hunk cwd (AddFile path contents) s = (inr tt, s') -> applied cwd (AddFile path contents) s s'.
Proof.
  unfold apply_hunk, applied, hunk_effect; cbv zeta. set (p := resolve_path _ _ _). unfold mbnd at 1.
  destruct (read_optional_eq p s) as (v & b & -> & Hv). unfold mbnd at 1.
  destruct (try_write_retry_eq p contents (scale_exact b s)) as [(d & -> & Hw)|(e & d & ->)]; [|done].
  intros [= <-]. split; [unfold log_hunk; simpl; by rewrite !app_nil_r|]. simpl.
  intros [He Hb]%andb_prop. split; [done|]. f_equal. symmetry. by apply Hw, Hv.
Qed.

Lemma delete_applied cwd path s s' :
  apply_hunk cwd (DeleteFile path) s = (inr tt, s') -> applied cwd (DeleteFile path) s s'.
Proof.
  unfold apply_hunk, applied, hunk_effect; cbv zeta. set (p := resolve_path _ _ _). unfold mbnd at 1.
  rewrite note_eq. unfold mbnd at 1, reads, mbnd at 1, and_exact at 1.
  set (content := match read_file_text p _ with inr c => Some c | inl _ => None end).
  match goal with |- mbnd _ _ ?s1 = _ -> _ => set (s2 := s1) end.
  edestruct (remove_eq p content (&"Failed to delete file " ++ p))
    as [(e & ->)|[(e & d & b' & -> & _)|(d & -> & Hd)]]; [done|done|].
  assert (plain_path p (disk s) = true -> files d = delete p (files (disk s))) as Hd' by exact Hd.
  unfold mbnd. destruct content; intros [= <-];
    (split; [unfold log_hunk; simpl; by rewrite !app_nil_r|]; simpl;
     intros [[He Hp]%andb_prop _]%andb_prop; split; [done|]; by rewrite Hd').
Qed.

Lemma update_applied cwd path mv chunks s s' :
  apply_hunk cwd (UpdateFile path mv chunks) s = (inr tt, s') ->
  applied cwd (UpdateFile path mv chunks) s s'.
Proof.
  unfold apply_hunk, applied, hunk_effect; cbv zeta. set (p := resolve_path _ _ _). unfold mbnd at 1.
  rewrite note_eq. unfold mbnd at 1. set (s1 := scale_exact _ s).
  destruct (derive_eq p chunks s1) as [(e & ->)|(old & new & -> & Hr & Hn)]; [done|].
  destruct mv as [dest|]; cbn [fst snd].
  - set (q := resolve_path_against_base dest cwd). unfold mbnd at 1.
    destruct (read_optional_eq q s1) as (v & b & -> & Hv).
    unfold mbnd at 1. destruct (try_write_retry_eq q new (scale_exact b s1))
      as [(d & -> & Hw)|(e & d & ->)]; [|done].
    unfold mbnd at 1, changes_len, mbnd at 1, push_change.
    edestruct (remove_eq p (Some old) (&"Failed to remove original " ++ p))
      as [(e & ->)|[(e & d' & b' & -> & _)|(d' & -> & Hd)]]; [done|done|]. cbn [disk set_delta set_disk] in Hd.
    intros [= <-]. split; [unfold log_hunk; simpl; by rewrite !app_nil_r|]. simpl.
    intros [[He Hp]%andb_prop Hb]%andb_prop. split; [done|].
    destruct (Hv Hb) as [Hq _]. destruct (Hw Hq) as [Hf Hk]. apply read_ok in Hr; [|done].
    cbn [disk scale_exact s1 set_delta] in Hr. rewrite Hr. simpl. rewrite Hn. f_equal.
    rewrite Hd; [by rewrite Hf|]. apply Hk; [by exists old|done].
  - unfold mbnd at 1, try_write, writes, mbnd at 1. cbn [disk].
    destruct (write_file _ _ _) as [[e|[]] d] eqn:Ew; [done|].
    intros [= <-]. split; [unfold log_hunk; simpl; by rewrite !app_nil_r|]. simpl.
    intros [He Hp]%andb_prop. split; [done|]. apply read_ok in Hr; [|done].
    cbn [disk scale_exact s1 set_delta] in Hr. rewrite Hr. simpl. rewrite Hn. f_equal.
    symmetry. by apply write_ok in Ew as [-> _].
Qed.

Lemma apply_hunk_applied cwd h s s' : apply_hunk cwd h s = (inr tt, s') -> applied cwd h s s'.
Proof. destruct h; auto using add_applied, delete_applied, update_applied. Qed.

(** The effects in sequence *)
Fixpoint hunks_effect (cwd : str) (hs : list Hunk) (m : gmap str str) : option (gmap str str) :=
  match hs with
  | [] => Some m
  | h :: hs => m' ← hunk_effect cwd h m; hunks_effect cwd hs m'
  end.

Lemma apply_each_effect cwd hs s s' :
  apply_each cwd hs s = (inr tt, s') -> exact (delta s') = true ->
  exact (delta s) = true /\ hunks_effect cwd hs (files (disk s)) = Some (files (disk s')).
Proof.
  revert s. induction hs as [|h hs IH]; intros s; simpl.
  { by intros [= <-]. }
  unfold mbnd. destruct (apply_hunk cwd h s) as [[e|[]] s1] eqn:Eh; [done|].
  intros Hs He. destruct (IH _ Hs He) as [He1 Hf]. apply apply_hunk_applied in Eh as [_ Hh].
  destruct (Hh He1) as [He0 Hf0]. by rewrite Hf0.
Qed.

Lemma apply_each_affected cwd hs s s' :
  apply_each cwd hs s = (inr tt, s') ->
  affected s' = {| added := added (affected s) ++ omap added_path hs;
                   modified := modified (affected s) ++ omap updated_path hs;
                   deleted := deleted (affected s) ++ omap deleted_path hs |}.
Proof.
  revert s. induction hs as [|h hs IH]; intros s; simpl.
  { intros [= <-]. rewrite !app_nil_r. by destruct (affected s). }
  unfold mbnd. destruct (apply_hunk cwd h s) as [[e|[]] s1] eqn:Eh; [done|].
  intros ->%IH. apply apply_hunk_applied in Eh as [-> _]. simpl. rewrite <- !(assoc_L (++)).
  by destruct h.
Qed.
End delta_proof.

(** ** An instance

    Regular files and directories; a file can be written only below an existing
    directory.  It shows that the laws can hold and runs the examples. *)
Module MapFs.

Record t := { file_map : gmap str str; dirs : gset str }.

Definition not_found : io_error := {| kind := NotFound; io_message := &"not found" |}.
Definition is_dir_error : io_error := {| kind := Other; io_message := &"is a directory" |}.

#[local] Instance env : AbsolutePath.ProcessEnv :=
  {| AbsolutePath.home_dir := None; AbsolutePath.env_current_dir := None |}.

(** The operations of [AbsolutePathBuf]. *)
#[export] Instance path_ops : PathOps := {|
  resolve_path_against_base := AbsolutePath.resolve_path_against_base;
  parent_of p :=
    match AbsolutePath.parent p with Some q => if decide (q = p) then None else Some q | None => None end
|}.

Definition parent_exists (p : str) (d : t) : bool :=
  match parent_of p with Some q => bool_decide (q ∈ dirs d) | None => true end.

#[export] Instance map_fs : ExecutorFileSystem t := {|
  read_file_text p d :=
    if decide (p ∈ dirs d) then inl is_dir_error
    else match file_map d !! p with Some c => inr c | None => inl not_found end;
  get_metadata p d :=
    if decide (p ∈ dirs d) then inr {| is_directory := true; is_file := false; is_symlink := false |}
    else match file_map d !! p with
         | Some _ => inr {| is_directory := false; is_file := true; is_symlink := false |}
         | None => inl not_found
         end;
  write_file p c d :=
    if decide (p ∈ dirs d) then (inl is_dir_error, d)
    else if parent_exists p d then (inr tt, {| file_map := <[p := c]> (file_map d); dirs := dirs d |})
    else (inl not_found, d);
  create_directory p d :=
    match file_map d !! p with
    | Some _ => (inl {| kind := AlreadyExists; io_message := &"exists" |}, d)
    | None => (inr tt, {| file_map := file_map d; dirs := {[p]} ∪ dirs d |})
    end;
  remove_file p d :=
    match file_map d !! p with
    | Some _ => (inr tt, {| file_map := delete p (file_map d); dirs := dirs d |})
    | None => (inl not_found, d)
    end
|}.

Lemma plain_iff p d : plain_path p d = true <-> p ∉ dirs d.
Proof. unfold plain_path; simpl. case_decide; [naive_solver|]. by destruct (file_map d !! p). Qed.

#[export] Instance map_fs_laws : FileSystemLaws t.
Proof.
  refine {| files := file_map |}; cbv zeta; simpl.
  - intros p d c Hp%plain_iff. rewrite decide_False by done. by destruct (file_map d !! p); intros; simplify_eq.
  - intros p d e Hp%plain_iff. rewrite decide_False by done. by destruct (file_map d !! p).
  - intros p c d d' Hp%plain_iff. rewrite decide_False by done. destruct (parent_exists p d); intros; simplify_eq.
    split; [done|]. intros q _ Hq%plain_iff. by apply plain_iff.
  - intros p c d d' e Hp%plain_iff. rewrite decide_False by done. destruct (parent_exists p d); intros; simplify_eq.
    split_and!; [done|by intros|by apply plain_iff].
  - intros p q d d' r Hq Hp%plain_iff Hmk. destruct (file_map d !! q) eqn:E; simplify_eq.
    + split_and!; [done|by intros|by apply plain_iff].
    + split_and!; [done| |].
      * intros q' [c Hc] Hq'%plain_iff. apply plain_iff. simpl. set_unfold. intros [->|?]; [congruence|done].
      * apply plain_iff. simpl. set_unfold. intros [->|?]; [|done].
        destruct (AbsolutePath.parent q); [|done]. case_decide; congruence.
  - intros p d d' _. by destruct (file_map d !! p); intros; simplify_eq.
  - intros p d d' e Hp. destruct (file_map d !! p); intros; simplify_eq. auto.
Defined.

Definition demo : t :=
  {| file_map := {[ &"/w/a.txt" := &"one" ++ [nl] ++ &"two" ++ [nl]; &"/w/old.txt" := &"x" ++ [nl] ]};
     dirs := {[ &"/w" ]} |}.

Definition demo_hunks : list Hunk :=
  [ AddFile (&"sub/b.txt") (&"hi" ++ [nl]);
    UpdateFile (&"a.txt") (Some (&"c.txt"))
      [{| change_context := None; old_lines := [&"two"]; new_lines := [&"2"]; is_end_of_file := false |}];
    DeleteFile (&"old.txt") ].

#[export] Instance buffer : Writer str := {| write_str x w := (inr tt, w ++ x) |}.
End MapFs.

(** ** Theorems *)

Section theorems.
Context {fs W : Type} `{!ExecutorFileSystem fs} `{!PathOps} `{!FileSystemLaws fs} `{!Writer W}.

(** The delta a caller of [apply_patch] sees, in both results. *)
Definition reported_delta (r : ApplyPatchFailure + AppliedPatchDelta) : AppliedPatchDelta :=
  match r with inl f => failure_delta f | inr dl => dl end.

(** C6: whatever happens while a patch is applied (a parse error, a chunk that
    does not match, an I/O error at any step, or success), a delta that is
    reported as exact accounts for all changes of the regular files: replaying
    its changes on the files before gives the files after, and undoing them
    from the last one gives back the files before. *)
Theorem apply_patch_delta_exact patch cwd (out err : W) (d d' : fs) r out' err' :
  apply_patch patch cwd out err d = (r, d', out', err') ->
  exact (reported_delta r) = true ->
  replay (changes (reported_delta r)) (files d) = files d' /\
  undo (changes (reported_delta r)) (files d') = files d.
Proof.
  unfold apply_patch, apply_hunks. destruct (parse_patch patch) as [src|e| |].
  2: { destruct (writeln _ err) as [[] ?]; by intros [= <- <- <- <-]. }
  2-3: by intros [= <- <- <- <-].
  pose proof (to_files_accounts (hunks src) cwd d) as Ha.
  destruct (apply_hunks_to_files (hunks src) cwd d empty_delta) as [[[e|a] d1] dl].
  - destruct (writeln _ err) as [[] ?]; by intros [= <- <- <- <-].
  - destruct (print_summary a out) as [[] ?]; by intros [= <- <- <- <-].
Qed.

(** On success with an exact delta the files are those that the hunks
    prescribe one after the other: an added file has its contents, a deleted
    one is gone, an updated one has the contents derived from the chunks, and a
    moved one is under its new path only. *)
Theorem apply_hunks_to_files_effect hs cwd (d d' : fs) a dl :
  apply_hunks_to_files hs cwd d empty_delta = (inr a, d', dl) ->
  exact dl = true ->
  hunks_effect cwd hs (files d) = Some (files d').
Proof.
  unfold apply_hunks_to_files. destruct hs as [|h hs]; [done|].
  destruct (apply_each cwd (h :: hs) _) as [[e|[]] s'] eqn:E; intros [= <- <- <-] He.
  by apply apply_each_effect in E as [_ E].
Qed.

(** A successful application reports, in patch order, exactly the added,
    updated (under the new path when moved) and deleted paths of its hunks. *)
Theorem apply_hunks_to_files_affected hs cwd (d d' : fs) a dl dl' :
  apply_hunks_to_files hs cwd d dl = (inr a, d', dl') ->
  hs <> [] /\
  a = {| added := omap added_path hs; modified := omap updated_path hs; deleted := omap deleted_path hs |}.
Proof.
  unfold apply_hunks_to_files. destruct hs as [|h hs]; [done|].
  destruct (apply_each cwd (h :: hs) _) as [[e|[]] s'] eqn:E; intros [= <- <- <-].
  apply apply_each_affected in E. by rewrite E.
Qed.

(** An update hunk whose destination is the file itself removes the file:
    the new contents are written and then deleted as the move's original. *)
Theorem move_onto_itself_removes path dest chunks cwd (d d' : fs) a dl :
  resolve_path_against_base dest cwd = resolve_path_against_base path cwd ->
  apply_hunks_to_files [UpdateFile path (Some dest) chunks] cwd d empty_delta = (inr a, d', dl) ->
  exact dl = true ->
  modified a = [dest] /\ files d' !! resolve_path_against_base path cwd = None.
Proof.
  intros Heq Ha He. unfold apply_hunks_to_files in Ha.
  destruct (apply_each cwd _ _) as [[e|[]] s'] eqn:E; [done|]. injection Ha as <- <- <-.
  split; [by apply apply_each_affected in E as ->|].
  apply apply_each_effect in E as [_ E]; [|done]. simpl in E. unfold hunk_effect in E. simpl in E.
  destruct (files d !! _) as [old|]; [|done]. simpl in E.
  destruct (derive_new_contents old _ chunks); simplify_eq/=. rewrite <- E. apply lookup_delete_eq.
Qed.
End theorems.

Import MapFs.

(** The third hunk does not match, after two hunks were committed. *)
Definition demo_patch : str :=
  join [nl]
    [&"*** Begin Patch"; &"*** Add File: sub/b.txt"; &"+hi";
     &"*** Update File: a.txt"; &"*** Move to: c.txt"; &"@@"; &"-two"; &"+2";
     &"*** Update File: old.txt"; &"@@"; &"-nope"; &"+yes"; &"*** End Patch"].

Lemma apply_patch_delta_exact_witness :
  let '(r, d', _, _) := apply_patch (W := str) demo_patch (&"/w") [] [] demo in
  (length (changes (reported_delta r)) = 2 /\ exists f, r = inl f) /\
  undo (changes (reported_delta r)) (files d') = files demo.
Proof.
  destruct (apply_patch (W := str) demo_patch (&"/w") [] [] demo) as [[[r d'] out] err] eqn:E.
  split; [vm_compute in E; injection E as <- _ _ _; split; [reflexivity|by eexists]|].
  apply (apply_patch_delta_exact demo_patch (&"/w") [] [] demo d' r out err E).
  vm_compute in E. injection E as <- _ _ _. reflexivity.
Defined.

Lemma apply_hunks_to_files_effect_witness :
  let '(_, d', _) := apply_hunks_to_files demo_hunks (&"/w") demo empty_delta in
  hunks_effect (&"/w") demo_hunks (files demo) = Some (files d') /\ files d' !! &"/w/old.txt" = None.
Proof.
  destruct (apply_hunks_to_files demo_hunks (&"/w") demo empty_delta) as [[[e|a] d'] dl] eqn:E.
  { exfalso. vm_compute in E. discriminate E. }
  split.
  - apply (apply_hunks_to_files_effect demo_hunks (&"/w") demo d' a dl E).
    vm_compute in E. injection E as _ _ <-. reflexivity.
  - vm_compute in E. injection E as _ <- _. vm_compute. reflexivity.
Defined.

Lemma apply_hunks_to_files_affected_witness :
  let '(r, _, _) := apply_hunks_to_files demo_hunks (&"/w") demo empty_delta in
  exists a, r = inr a /\ modified a = [&"c.txt"] /\ added a = omap added_path demo_hunks.
Proof.
  destruct (apply_hunks_to_files demo_hunks (&"/w") demo empty_delta) as [[[e|a] d'] dl] eqn:E.
  { exfalso. vm_compute in E. discriminate E. }
  exists a. split; [reflexivity|].
  destruct (apply_hunks_to_files_affected demo_hunks (&"/w") demo d' a empty_delta dl E) as [_ Ha].
  rewrite Ha. split; reflexivity.
Defined.

Definition self_move : list UpdateFileChunk :=
  [{| change_context := None; old_lines := [&"two"]; new_lines := [&"2"]; is_end_of_file := false |}].

Lemma move_onto_itself_removes_witness :
  let '(_, d', _) := apply_hunks_to_files [UpdateFile (&"a.txt") (Some (&"a.txt")) self_move] (&"/w") demo empty_delta in
  files demo !! &"/w/a.txt" = Some (&"one" ++ [nl] ++ &"two" ++ [nl]) /\ files d' !! &"/w/a.txt" = None.
Proof.
  destruct (apply_hunks_to_files _ (&"/w") demo empty_delta) as [[[e|a] d'] dl] eqn:E.
  { exfalso. vm_compute in E. discriminate E. }
  split; [vm_compute; reflexivity|].
  apply (move_onto_itself_removes (&"a.txt") (&"a.txt") self_move (&"/w") demo d' a dl eq_refl E).
  vm_compute in E. injection E as _ _ <-. reflexivity.
Defined.
