(* ===== verification/Invocation.v ===== *)
(** * apply-patch/src/invocation.rs: recognising and verifying an invocation

    A command line is recognised as a patch application, parsed, and turned
    into the set of changes that is shown for approval.  Tree-sitter and the
    diff printer are parameters. *)
From S2P Require Import Prelude RustStr RustPath PatchParser SeekSequence ApplyPatch PatchFs.

(** ** Data *)

Definition APPLY_PATCH_COMMANDS : list str := [&"apply_patch"; &"applypatch"].

Inductive ApplyPatchShell := Unix | PowerShell | Cmd.

(** The errors of the external parser carry their message. *)
Inductive ExtractHeredocError :=
| CommandDidNotStartWithApplyPatch
| FailedToLoadBashGrammar (e : str)
| HeredocNotUtf8 (e : str)
| FailedToParsePatchIntoAst
| FailedToFindHeredocBody.

Inductive MaybeApplyPatch :=
| MaybeBody (args : ApplyPatchArgs)
| MaybeShellParseError (e : ExtractHeredocError)
| MaybePatchParseError (e : ParseError)
| MaybeNotApplyPatch.

Inductive ApplyPatchFileChange :=
| FileAdd (content : str)
| FileDelete (content : str)
| FileUpdate (unified_diff : str) (move_path : option str) (new_content : str).

Record ApplyPatchAction := {
  action_changes : gmap str ApplyPatchFileChange;
  action_patch : str;
  action_cwd : str
}.

Inductive MaybeApplyPatchVerified :=
| Body (action : ApplyPatchAction)
| ShellParseError (e : ExtractHeredocError)
| CorrectnessError (e : ApplyPatchError)
| NotApplyPatch.

(** ** Shells *)

Definition classify_shell_name (shell : str) : option str :=
  option_map to_ascii_lowercase (file_stem shell).

Definition one_of (s : str) (l : list str) : bool := existsb (str_eqb s) l.

Definition classify_shell (shell flag : str) : option ApplyPatchShell :=
  match classify_shell_name shell with
  | None => None
  | Some name =>
      if one_of name [&"bash"; &"zsh"; &"sh"] && one_of flag [&"-lc"; &"-c"] then Some Unix
      else if one_of name [&"pwsh"; &"powershell"] && eq_ignore_ascii_case flag (&"-command")
      then Some PowerShell
      else if str_eqb name (&"cmd") && eq_ignore_ascii_case flag (&"/c") then Some Cmd
      else None
  end.

Definition can_skip_flag (shell flag : str) : bool :=
  match classify_shell_name shell with
  | None => false
  | Some name => one_of name [&"pwsh"; &"powershell"] && eq_ignore_ascii_case flag (&"-noprofile")
  end.

Definition parse_shell_script (argv : list str) : option (ApplyPatchShell * str) :=
  match argv with
  | [shell; flag; script] => option_map (fun t => (t, script)) (classify_shell shell flag)
  | [shell; skip_flag; flag; script] =>
      if can_skip_flag shell skip_flag
      then option_map (fun t => (t, script)) (classify_shell shell flag)
      else None
  | _ => None
  end.

(** ** The heredoc *)

Inductive capture_name := CapHeredoc | CapCdPath | CapCdRawString | CapOther.

(** Tree-sitter: the matches of the query, each a list of captures with their
    text, or the error of loading the grammar or parsing. *)
Class TreeSitterBash := {
  query_matches :
    str -> ExtractHeredocError + list (list (capture_name * (str + str)))
}.

Definition apostrophe : str := [39%N].

(** The loop over the captures of one match. *)
Fixpoint captures_loop (caps : list (capture_name * (str + str)))
  (heredoc_text cd_path : option str) : ExtractHeredocError + (option str * option str) :=
  match caps with
  | [] => inr (heredoc_text, cd_path)
  | (CapOther, _) :: caps => captures_loop caps heredoc_text cd_path
  | (_, inl e) :: _ => inl (HeredocNotUtf8 e)
  | (CapHeredoc, inr text) :: caps => captures_loop caps (Some (trim_end_char nl text)) cd_path
  | (CapCdPath, inr text) :: caps => captures_loop caps heredoc_text (Some text)
  | (CapCdRawString, inr raw) :: caps =>
      let trimmed := default raw (s ← strip_prefix apostrophe raw; strip_suffix apostrophe s) in
      captures_loop caps heredoc_text (Some trimmed)
  end.

Fixpoint matches_loop (ms : list (list (capture_name * (str + str))))
  : ExtractHeredocError + (str * option str) :=
  match ms with
  | [] => inl CommandDidNotStartWithApplyPatch
  | m :: ms =>
      match captures_loop m None None with
      | inl e => inl e
      | inr (Some heredoc, cd_path) => inr (heredoc, cd_path)
      | inr (None, _) => matches_loop ms
      end
  end.

Section invocation.
Context `{!TreeSitterBash}.

Definition extract_apply_patch_from_bash (src : str) : ExtractHeredocError + (str * option str) :=
  match query_matches src with
  | inl e => inl e
  | inr ms => matches_loop ms
  end.

Definition extract_apply_patch_from_shell (shell : ApplyPatchShell) (script : str)
  : ExtractHeredocError + (str * option str) :=
  match shell with
  | Unix | PowerShell | Cmd => extract_apply_patch_from_bash script
  end.

Definition with_workdir (w : option str) (args : ApplyPatchArgs) : ApplyPatchArgs :=
  {| patch := patch args; hunks := hunks args; workdir := w; environment_id := environment_id args |}.

(** A panic or an endless loop of the parser, which [parse_patch_returns] excludes,
    is propagated. *)
Definition body_of (body : str) (w : option str) : comp False MaybeApplyPatch :=
  match parse_patch body with
  | Ok source => Ok (MaybeBody (with_workdir w source))
  | Err e => Ok (MaybePatchParseError e)
  | Panic => Panic
  | Loop => Loop
  end.

(** The second arm: a shell that runs a script. *)
Definition shell_invocation (argv : list str) : comp False MaybeApplyPatch :=
  match parse_shell_script argv with
  | Some (shell, script) =>
      match extract_apply_patch_from_shell shell script with
      | inr (body, workdir) => body_of body workdir
      | inl CommandDidNotStartWithApplyPatch => Ok MaybeNotApplyPatch
      | inl e => Ok (MaybeShellParseError e)
      end
  | None => Ok MaybeNotApplyPatch
  end.

Definition maybe_parse_apply_patch (argv : list str) : comp False MaybeApplyPatch :=
  match argv with
  | [cmd; body] =>
      if one_of cmd APPLY_PATCH_COMMANDS then body_of body None else shell_invocation argv
  | _ => shell_invocation argv
  end.

(** ** Verification *)

Context {fs : Type} `{!ExecutorFileSystem fs} `{!PathOps}.
(** [similar]: the unified diff of two texts with a given context radius. *)
Variable diff : nat -> str -> str -> str.

Record ApplyPatchFileUpdate := { unified_diff : str; original_content : str; content : str }.

Definition unified_diff_from_chunks_with_context (path_abs : str) (chunks : list UpdateFileChunk)
  (context : nat) (d : fs) : comp ApplyPatchError ApplyPatchFileUpdate :=
  let? p := derive_new_contents_from_chunks path_abs chunks d in
  Ok {| unified_diff := diff context p.1 p.2; original_content := p.1; content := p.2 |}.

Definition unified_diff_from_chunks (path_abs : str) (chunks : list UpdateFileChunk) (d : fs)
  : comp ApplyPatchError ApplyPatchFileUpdate :=
  unified_diff_from_chunks_with_context path_abs chunks 1 d.

Fixpoint verify_loop (effective_cwd : str) (hs : list Hunk)
  (changes : gmap str ApplyPatchFileChange) (d : fs)
  : comp ApplyPatchError (gmap str ApplyPatchFileChange) :=
  match hs with
  | [] => Ok changes
  | hunk :: hs =>
      let path := resolve_path resolve_path_against_base hunk effective_cwd in
      match hunk with
      | AddFile _ contents => verify_loop effective_cwd hs (<[path := FileAdd contents]> changes) d
      | DeleteFile _ =>
          match read_file_text path d with
          | inr content => verify_loop effective_cwd hs (<[path := FileDelete content]> changes) d
          | inl e => Err (IoErr {| io_context := &"Failed to read " ++ path; io_source := e |})
          end
      | UpdateFile _ move_path chunks =>
          let? u := unified_diff_from_chunks path chunks d in
          verify_loop effective_cwd hs
            (<[path := FileUpdate (unified_diff u)
                 (option_map (fun p => resolve_path_against_base p effective_cwd) move_path)
                 (content u)]> changes) d
      end
  end.

Definition verify_apply_patch_args (args : ApplyPatchArgs) (cwd : str) (d : fs)
  : comp False MaybeApplyPatchVerified :=
  let effective_cwd :=
    match workdir args with Some dir => resolve_path_against_base dir cwd | None => cwd end in
  match verify_loop effective_cwd (hunks args) ∅ d with
  | Ok changes =>
      Ok (Body {| action_changes := changes; action_patch := patch args; action_cwd := effective_cwd |})
  | Err e => Ok (CorrectnessError e)
  | Panic => Panic
  | Loop => Loop
  end.

Definition parses (body : str) : comp False bool :=
  match parse_patch body with Ok _ => Ok true | Err _ => Ok false | Panic => Panic | Loop => Loop end.

Definition maybe_parse_apply_patch_verified (argv : list str) (cwd : str) (d : fs)
  : comp False MaybeApplyPatchVerified :=
  let? raw := match argv with [body] => parses body | _ => Ok false end in
  if raw then Ok (CorrectnessError ImplicitInvocation) else
  let? raw := match parse_shell_script argv with
              | Some (_, script) => parses script
              | None => Ok false
              end in
  if raw then Ok (CorrectnessError ImplicitInvocation) else
  let? r := maybe_parse_apply_patch argv in
  match r with
  | MaybeBody args => verify_apply_patch_args args cwd d
  | MaybeShellParseError e => Ok (ShellParseError e)
  | MaybePatchParseError e => Ok (CorrectnessError (ParseErr e))
  | MaybeNotApplyPatch => Ok NotApplyPatch
  end.

(** ** Approved changes and applied changes *)

Context `{!FileSystemLaws fs}.
Implicit Types (c : ApplyPatchFileChange) (p q cwd : str) (d : fs) (h : Hunk) (hs : list Hunk)
  (ch : gmap str ApplyPatchFileChange) (m : gmap str str).

Definition hunk_dest (cwd : str) (h : Hunk) : option str :=
  match h with
  | UpdateFile _ (Some dest) _ => Some (resolve_path_against_base dest cwd)
  | _ => None
  end.

Definition hunk_target (cwd : str) (h : Hunk) : str := resolve_path resolve_path_against_base h cwd.

(** All paths a hunk writes or removes. *)
Definition touched (cwd : str) (h : Hunk) : list str :=
  hunk_target cwd h :: option_list (hunk_dest cwd h).

(** A change as shown for approval holds between the files before and after. *)
Definition realised (before after : gmap str str) (p : str) (c : ApplyPatchFileChange) : Prop :=
  match c with
  | FileAdd content => after !! p = Some content
  | FileDelete content => before !! p = Some content /\ after !! p = None
  | FileUpdate _ None new_content => is_Some (before !! p) /\ after !! p = Some new_content
  | FileUpdate _ (Some dest) new_content =>
      is_Some (before !! p) /\ after !! p = None /\ after !! dest = Some new_content
  end.

(** One hunk: the change the verifier records is the effect of the hunk. *)
Definition hunk_change (cwd : str) (h : Hunk) (d : fs) : option ApplyPatchFileChange :=
  match h with
  | AddFile _ contents => Some (FileAdd contents)
  | DeleteFile _ =>
      match read_file_text (hunk_target cwd h) d with inr c => Some (FileDelete c) | inl _ => None end
  | UpdateFile _ mv chunks =>
      match unified_diff_from_chunks (hunk_target cwd h) chunks d with
      | Ok u => Some (FileUpdate (unified_diff u) (hunk_dest cwd h) (content u))
      | _ => None
      end
  end.

Lemma verify_loop_cons cwd h hs ch d (ch' : gmap str ApplyPatchFileChange) :
  verify_loop cwd (h :: hs) ch d = Ok ch' ->
  exists c, hunk_change cwd h d = Some c /\ verify_loop cwd hs (<[hunk_target cwd h := c]> ch) d = Ok ch'.
Proof.
  unfold hunk_change, hunk_target. destruct h as [path contents|path|path mv chunks]; simpl.
  - intros Hv. by eexists.
  - destruct (read_file_text _ d); [done|]. intros Hv. by eexists.
  - intros (u & -> & Hv)%comp_bind_Ok. eexists. split; [done|]. by destruct mv.
Qed.

Lemma hunk_change_effect cwd h d c m :
  hunk_change cwd h d = Some c ->
  plain_path (hunk_target cwd h) d = true ->
  NoDup (touched cwd h) ->
  (forall p, p ∈ touched cwd h -> m !! p = files d !! p) ->
  exists m', hunk_effect cwd h m = Some m' /\ realised (files d) m' (hunk_target cwd h) c /\
    (forall q, q ∉ touched cwd h -> m' !! q = m !! q).
Proof.
  intros Hc Hp Hnd Hm. pose proof (Hm _ (list_elem_of_here _ _)) as Hm0.
  unfold hunk_change, hunk_effect, touched in *. fold (hunk_target cwd h).
  set (p := hunk_target cwd h) in *. destruct h as [path contents|path|path mv chunks]; simpl in Hnd |- *.
  - simplify_eq. eexists. split; [done|]. split; [apply lookup_insert_eq|].
    intros q Hq%not_elem_of_cons. by rewrite lookup_insert_ne by naive_solver.
  - destruct (read_file_text p d) as [|c0] eqn:Er; simplify_eq.
    eexists. split; [done|]. split; [split; [by apply read_ok|apply lookup_delete_eq]|].
    intros q Hq%not_elem_of_cons. by rewrite lookup_delete_ne by naive_solver.
  - unfold unified_diff_from_chunks, unified_diff_from_chunks_with_context,
      derive_new_contents_from_chunks in Hc.
    destruct (read_file_text p d) as [|old] eqn:Er; [done|]. apply read_ok in Er; [|done].
    rewrite Er in Hm0. rewrite Hm0. simpl.
    destruct (derive_new_contents old p chunks) as [new| | |] eqn:Ed; simplify_eq/=.
    eexists. split; [done|]. destruct mv as [dest|]; simpl in *.
    + apply NoDup_cons in Hnd as [Hne%not_elem_of_cons _].
      split; [split_and!; [by eexists|by rewrite lookup_delete_eq|]|].
      * rewrite lookup_delete_ne by naive_solver. apply lookup_insert_eq.
      * intros q [? [? _]%not_elem_of_cons]%not_elem_of_cons.
        by rewrite lookup_delete_ne, lookup_insert_ne by done.
    + split; [split; [by eexists|apply lookup_insert_eq]|].
      intros q [? _]%not_elem_of_cons. by rewrite lookup_insert_ne.
Qed.

Lemma realised_frame (m0 m m' : gmap str str) p c cwd h d (l : list str) :
  hunk_change cwd h d = Some c -> p = hunk_target cwd h ->
  (forall q, q ∉ l -> m' !! q = m !! q) -> (forall q, q ∈ touched cwd h -> q ∉ l) ->
  realised m0 m p c -> realised m0 m' p c.
Proof.
  intros Hc -> Hf Hd. unfold touched in Hd.
  assert (m' !! hunk_target cwd h = m !! hunk_target cwd h) as Hp by (apply Hf, Hd; left).
  unfold hunk_change in Hc. destruct h as [path contents|path|path [dest|] chunks];
    simplify_option_eq; repeat case_match; simplify_eq; simpl in *; rewrite ?Hp; try done.
  rewrite Hf; [done|]. apply Hd. right. left.
Qed.

Lemma verify_loop_effect cwd hs ch d (ch' : gmap str ApplyPatchFileChange) m :
  verify_loop cwd hs ch d = Ok ch' ->
  Forall (fun h => plain_path (hunk_target cwd h) d = true) hs ->
  NoDup (hs ≫= touched cwd) ->
  (forall p, p ∈ hs ≫= touched cwd -> m !! p = files d !! p) ->
  exists m', hunks_effect cwd hs m = Some m' /\
    (forall q, q ∉ hs ≫= touched cwd -> m' !! q = m !! q) /\
    (forall p c, ch' !! p = Some c -> ch !! p = Some c \/ realised (files d) m' p c).
Proof.
  revert ch m. induction hs as [|h hs IH]; intros ch m Hv Hp Hnd Hm.
  { simpl in *. simplify_eq. exists m. naive_solver. }
  apply verify_loop_cons in Hv as (c & Hc & Hv). apply Forall_cons in Hp as [Hp Hps].
  cbn [mbind list_bind] in Hnd, Hm |- *. apply NoDup_app in Hnd as (Hnd1 & Hdisj & Hnd2).
  destruct (hunk_change_effect cwd h d c m Hc Hp Hnd1) as (m1 & Hm1 & Hr & Hf1).
  { intros p Hin. apply Hm, elem_of_app. by left. }
  destruct (IH (<[hunk_target cwd h := c]> ch) m1 Hv Hps Hnd2) as (m' & Hm' & Hf' & Hch).
  { intros p Hin. rewrite Hf1 by (intros ?; by eapply Hdisj). apply Hm, elem_of_app. by right. }
  exists m'. split; [simpl; by rewrite Hm1|]. split.
  { intros q [? ?]%not_elem_of_app. by rewrite Hf', Hf1. }
  intros p c' Hin. destruct (Hch p c' Hin) as [Hl|?]; [|by right].
  destruct (decide (p = hunk_target cwd h)) as [->|Hne].
  - rewrite lookup_insert_eq in Hl. simplify_eq. right.
    by eapply (realised_frame (files d) m1 m').
  - rewrite lookup_insert_ne in Hl by done. by left.
Qed.

(** With every target named once, the changes shown for approval have an entry for
    each hunk. *)
Lemma verify_loop_records (cwd : str) (hs : list Hunk) (ch ch' : gmap str ApplyPatchFileChange) (d : fs) :
  verify_loop cwd hs ch d = Ok ch' -> NoDup (map (hunk_target cwd) hs) ->
  (forall p, p ∉ map (hunk_target cwd) hs -> ch' !! p = ch !! p) /\
  (forall h, h ∈ hs -> exists c, hunk_change cwd h d = Some c /\ ch' !! hunk_target cwd h = Some c).
Proof.
  revert ch. induction hs as [|h hs IH]; intros ch Hv Hnd.
  { injection Hv as <-. split; [done|]. intros h Hh. by apply not_elem_of_nil in Hh. }
  apply verify_loop_cons in Hv as (c & Hc & Hv). cbn [map] in Hnd. apply NoDup_cons in Hnd as [Hnin Hnd].
  destruct (IH _ Hv Hnd) as [Hframe Hrec]. split.
  - intros p [Hp Hps]%not_elem_of_cons. rewrite Hframe by done. by rewrite lookup_insert_ne.
  - intros h' [->|Hh']%elem_of_cons; [|by apply Hrec]. exists c. split; [done|]. rewrite Hframe by done. apply lookup_insert_eq.
Qed.

Lemma NoDup_targets (cwd : str) (hs : list Hunk) : NoDup (hs ≫= touched cwd) -> NoDup (map (hunk_target cwd) hs).
Proof.
  induction hs as [|h hs IH]; intros Hnd; [constructor|]. cbn [mbind list_bind] in Hnd.
  apply NoDup_app in Hnd as (_ & Hdisj & Hnd). cbn [map]. constructor; [|by apply IH].
  intros (h' & Heq & Hh')%list_elem_of_fmap. apply (Hdisj (hunk_target cwd h)); [by left|].
  apply list_elem_of_bind. exists h'. split; [|done]. rewrite Heq. by left.
Qed.

Lemma hunk_change_dest (cwd : str) (h : Hunk) (d : fs) c dest :
  hunk_change cwd h d = Some c -> hunk_dest cwd h = Some dest -> exists u n, c = FileUpdate u (Some dest) n.
Proof.
  destruct h as [| |path mv chunks]; [done..|]. unfold hunk_change. intros Hc Hd. rewrite Hd in Hc.
  destruct (unified_diff_from_chunks _ _ _) as [u| | |]; [|done..]. injection Hc as <-. by eexists _, _.
Qed.

(** What is shown for a hunk, read off the patch and the files before: an added file
    with its contents; a deleted one with its contents so far; an updated one with the
    new contents its chunks give, the printed difference to the old ones and, when the
    hunk moves it, its new path. *)
Definition shown (cwd : str) (h : Hunk) (before : gmap str str) (c : ApplyPatchFileChange) : Prop :=
  match h with
  | AddFile _ contents => c = FileAdd contents
  | DeleteFile _ => exists old, before !! hunk_target cwd h = Some old /\ c = FileDelete old
  | UpdateFile _ _ chunks =>
      exists old new, before !! hunk_target cwd h = Some old /\
        derive_new_contents old (hunk_target cwd h) chunks = Ok new /\ c = FileUpdate (diff 1 old new) (hunk_dest cwd h) new
  end.

Lemma hunk_change_shown cwd h d c :
  hunk_change cwd h d = Some c -> plain_path (hunk_target cwd h) d = true -> shown cwd h (files d) c.
Proof.
  unfold hunk_change, shown. destruct h as [path contents|path|path mv chunks]; intros Hc Hp; [by simplify_eq|..].
  - destruct (read_file_text _ d) as [|old] eqn:Er; simplify_eq. exists old. by apply read_ok in Er.
  - unfold unified_diff_from_chunks, unified_diff_from_chunks_with_context, derive_new_contents_from_chunks in Hc.
    destruct (read_file_text _ d) as [|old] eqn:Er; [done|]. apply read_ok in Er; [|done]. simpl in Hc.
    destruct (derive_new_contents old _ chunks) as [new| | |] eqn:Ed; simplify_eq/=. by exists old, new.
Qed.

(** ** Totality *)

Lemma derive_from_chunks_total p chunks d : returns (derive_new_contents_from_chunks p chunks d).
Proof.
  unfold derive_new_contents_from_chunks. destruct (read_file_text p d) as [|old]; [done|].
  pose proof (derive_new_contents_total old p chunks). by destruct (derive_new_contents old p chunks).
Qed.

Lemma verify_loop_total cwd hs ch d : returns (verify_loop cwd hs ch d).
Proof.
  revert ch. induction hs as [|h hs IH]; intros ch; [done|]. simpl.
  destruct h; [auto|by case_match; auto|]. apply returns_bind; [|auto].
  apply returns_bind; [apply derive_from_chunks_total|done].
Qed.

Lemma parse_patch_returned body : returns (parse_patch body).
Proof. apply parse_patch_total. Qed.

Lemma body_of_total body w : returns (body_of body w).
Proof. unfold body_of. pose proof (parse_patch_returned body). by destruct (parse_patch body). Qed.

Lemma parses_total body : returns (parses body).
Proof. unfold parses. pose proof (parse_patch_returned body). by destruct (parse_patch body). Qed.

Lemma maybe_parse_total argv : returns (maybe_parse_apply_patch argv).
Proof.
  unfold maybe_parse_apply_patch, shell_invocation. repeat case_match; try done; apply body_of_total.
Qed.

(** *** Where a body comes from *)

Lemma body_of_inv body w args :
  body_of body w = Ok (MaybeBody args) ->
  exists args', parse_patch body = Ok args' /\ args = with_workdir w args'.
Proof. unfold body_of. destruct (parse_patch body) as [a| | |]; intros; simplify_eq. by exists a. Qed.

Lemma one_of_elem x l : one_of x l = true -> x ∈ l.
Proof. unfold one_of. intros (y & Hy & ->%str_eqb_eq)%existsb_exists. by apply list_elem_of_In. Qed.

Lemma shell_invocation_inv argv args :
  shell_invocation argv = Ok (MaybeBody args) ->
  exists sh script body w, parse_shell_script argv = Some (sh, script) /\
    extract_apply_patch_from_bash script = inr (body, w) /\ body_of body w = Ok (MaybeBody args).
Proof.
  unfold shell_invocation. destruct (parse_shell_script argv) as [[sh script]|]; [|done].
  replace (extract_apply_patch_from_shell sh script) with (extract_apply_patch_from_bash script) by (by destruct sh).
  destruct (extract_apply_patch_from_bash script) as [[]|[body w]] eqn:E; try done.
  intros. by exists sh, script, body, w.
Qed.

Lemma maybe_parse_inv argv args :
  maybe_parse_apply_patch argv = Ok (MaybeBody args) ->
  (exists cmd body, argv = [cmd; body] /\ cmd ∈ APPLY_PATCH_COMMANDS /\
     body_of body None = Ok (MaybeBody args)) \/
  shell_invocation argv = Ok (MaybeBody args).
Proof.
  unfold maybe_parse_apply_patch. destruct argv as [|cmd [|body []]]; auto.
  destruct (one_of cmd _) eqn:E; [|auto]. left. exists cmd, body. auto using one_of_elem.
Qed.

Lemma verify_patch args cwd d action :
  verify_apply_patch_args args cwd d = Ok (Body action) -> action_patch action = patch args.
Proof. unfold verify_apply_patch_args. destruct (verify_loop _ _ _ _); intros; by simplify_eq. Qed.

(** Recognising and verifying a command line is total: for every command
    line, disk and result of the bash parser there is a verdict; nothing
    panics, and no loop runs on. *)
Theorem maybe_parse_apply_patch_verified_returns argv cwd d :
  returns (maybe_parse_apply_patch_verified argv cwd d).
Proof.
  unfold maybe_parse_apply_patch_verified.
  apply returns_bind; [by repeat case_match; try done; apply parses_total|].
  intros [] _; [done|]. apply returns_bind; [by repeat case_match; try done; apply parses_total|].
  intros [] _; [done|]. apply returns_bind; [apply maybe_parse_total|].
  intros [args|e|e|] _; try done. unfold verify_apply_patch_args.
  set (cwd' := match workdir args with Some _ => _ | None => _ end).
  pose proof (verify_loop_total cwd' (hunks args) ∅ d). by case_match.
Qed.

(** C20: the changes shown for approval are the changes that applying the patch
    makes.  When the verifier returns a body, every target is a plain path and no path
    is used twice in the patch, as target or destination: the hunks have an effect on
    the files, and it is what a successful application with an exact delta leaves; each
    shown change holds between the files before and after (the added content is there,
    the deleted file had the shown content, the updated or moved file has the shown new
    content); every hunk is shown, under its target, with the contents, the printed
    difference and the destination that the patch and the files before determine;
    nothing else is shown; and every file that differs afterwards is the target of a
    shown change or the destination of a shown move. *)
Theorem verified_changes_are_effects args cwd d action :
  verify_apply_patch_args args cwd d = Ok (Body action) ->
  Forall (fun h => plain_path (hunk_target (action_cwd action) h) d = true) (hunks args) ->
  NoDup (hunks args ≫= touched (action_cwd action)) ->
  exists after, hunks_effect (action_cwd action) (hunks args) (files d) = Some after /\
    (forall a d' dl, apply_hunks_to_files (hunks args) (action_cwd action) d empty_delta = (inr a, d', dl) ->
       exact dl = true -> files d' = after) /\
    (forall p c, action_changes action !! p = Some c -> realised (files d) after p c) /\
    (forall h, h ∈ hunks args -> exists c,
       action_changes action !! hunk_target (action_cwd action) h = Some c /\ shown (action_cwd action) h (files d) c) /\
    (forall p c, action_changes action !! p = Some c -> p ∈ map (hunk_target (action_cwd action)) (hunks args)) /\
    (forall q, after !! q <> files d !! q -> exists p c, action_changes action !! p = Some c /\
       (q = p \/ exists u n, c = FileUpdate u (Some q) n)).
Proof.
  unfold verify_apply_patch_args. cbv zeta.
  set (cwd' := match workdir args with Some _ => _ | None => _ end).
  destruct (verify_loop cwd' (hunks args) ∅ d) as [ch| | |] eqn:E; intros [= <-]; simpl.
  intros Hp Hnd. destruct (verify_loop_effect _ _ _ _ _ (files d) E Hp Hnd (fun _ _ => eq_refl))
    as (m' & Hm' & Hframe & Hch).
  destruct (verify_loop_records _ _ _ _ _ E (NoDup_targets _ _ Hnd)) as [Honly Hrec]. exists m'. split_and!; [done|..].
  - intros a d' dl Ha He. apply apply_hunks_to_files_effect in Ha; [|done]. by rewrite Hm' in Ha; simplify_eq.
  - intros p c Hc. by destruct (Hch p c Hc) as [?%lookup_empty_Some|?].
  - intros h Hh. destruct (Hrec h Hh) as (c & Hc & Hl). exists c. split; [done|].
    apply hunk_change_shown; [done|]. by eapply Forall_forall in Hp.
  - intros p c Hc. destruct (decide (p ∈ map (hunk_target cwd') (hunks args))) as [|Hn]; [done|].
    by rewrite Honly, lookup_empty in Hc.
  - intros q Hq. assert (q ∈ hunks args ≫= touched cwd') as (h & Hqh & Hh)%list_elem_of_bind.
    { destruct (decide (q ∈ hunks args ≫= touched cwd')) as [|Hn]; [done|]. by apply Hframe in Hn. }
    destruct (Hrec h Hh) as (c & Hc & Hl). exists (hunk_target cwd' h), c. split; [done|].
    apply elem_of_cons in Hqh as [->|Hqd]; [by left|right].
    destruct (hunk_dest cwd' h) as [dest|] eqn:Ed; [|by apply not_elem_of_nil in Hqd].
    apply list_elem_of_singleton in Hqd as ->. by eapply hunk_change_dest.
Qed.

(** A patch is only ever proposed for an explicit invocation: when the
    verdict is a body, the command line is [apply_patch <patch>] or a
    recognised shell running a script from which the bash parser extracted the
    patch, the proposed patch is the parse of exactly that text, and a raw
    patch as the command or as the script is not among them. *)
Theorem verified_body_explicit argv cwd d action :
  maybe_parse_apply_patch_verified argv cwd d = Ok (Body action) ->
  exists body w args,
    parse_patch body = Ok args /\ action_patch action = patch args /\
    verify_apply_patch_args (with_workdir w args) cwd d = Ok (Body action) /\
    ((exists cmd, argv = [cmd; body] /\ cmd ∈ APPLY_PATCH_COMMANDS /\ w = None) \/
     (exists sh script, parse_shell_script argv = Some (sh, script) /\
        extract_apply_patch_from_bash script = inr (body, w) /\ is_ok (parse_patch script) = false)).
Proof.
  unfold maybe_parse_apply_patch_verified. intros Hv. inv_comp Hv. case_match; [done|].
  inv_comp Hv. rename Hc0 into Hs. case_match; [done|]. subst. inv_comp Hv. rename Hc0 into Hm.
  destruct a as [args|e|e|]; try done.
  apply maybe_parse_inv in Hm as [(cmd & body & -> & Hcmd & Hb)|Hsh].
  - apply body_of_inv in Hb as (args' & Hp & ->). exists body, None, args'.
    split_and!; [done|by apply verify_patch in Hv|done|]. left. by exists cmd.
  - apply shell_invocation_inv in Hsh as (sh & script & body & w & Hsh & Hx & Hb).
    apply body_of_inv in Hb as (args' & Hp & ->). exists body, w, args'.
    split_and!; [done|by apply verify_patch in Hv|done|]. right. exists sh, script.
    split_and!; [done|done|]. rewrite Hsh in Hs. unfold parses in Hs.
    by destruct (parse_patch script); simplify_eq.
Qed.
End invocation.

(** ** Examples *)

Import MapFs.

(** A parser that finds nothing, and a diff printer that prints nothing. *)
#[local] Instance no_bash : TreeSitterBash := {| query_matches _ := inr [] |}.
#[local] Definition no_diff (n : nat) (a b : str) : str := [].

Definition approve_patch : str :=
  join [nl]
    [&"*** Begin Patch"; &"*** Add File: sub/b.txt"; &"+hi";
     &"*** Update File: a.txt"; &"*** Move to: c.txt"; &"@@"; &"-two"; &"+2"; &"*** End Patch"].

Lemma verified_changes_are_effects_witness :
  exists action after,
    maybe_parse_apply_patch_verified no_diff [&"apply_patch"; approve_patch] (&"/w") demo = Ok (Body action) /\
    action_changes action !! &"/w/a.txt" = Some (FileUpdate [] (Some (&"/w/c.txt")) (&"one" ++ [nl] ++ &"2" ++ [nl])) /\
    realised (files demo) after (&"/w/a.txt") (FileUpdate [] (Some (&"/w/c.txt")) (&"one" ++ [nl] ++ &"2" ++ [nl])).
Proof.
  destruct (parse_patch approve_patch) as [args| | |] eqn:Ep; [|vm_compute in Ep; discriminate Ep..].
  destruct (verify_apply_patch_args no_diff args (&"/w") demo) as [[action| | |]| | |] eqn:Ev;
    try (exfalso; vm_compute in Ep; injection Ep as <-; vm_compute in Ev; discriminate Ev).
  pose proof (verified_changes_are_effects no_diff args (&"/w") demo action Ev) as Hw.
  vm_compute in Ep. injection Ep as <-. vm_compute in Ev. injection Ev as <-.
  destruct Hw as (after & _ & _ & Hc & _).
  { cbn [hunks]. repeat constructor. }
  { apply (bool_decide_unpack _). vm_compute. exact I. }
  eexists _, after. split; [vm_compute; reflexivity|].
  split; [vm_compute; reflexivity|]. apply Hc. vm_compute. reflexivity.
Defined.

Lemma verified_body_explicit_witness :
  exists action body w args,
    maybe_parse_apply_patch_verified no_diff [&"apply_patch"; approve_patch] (&"/w") demo = Ok (Body action) /\
    parse_patch body = Ok args /\
    verify_apply_patch_args no_diff (with_workdir w args) (&"/w") demo = Ok (Body action).
Proof.
  destruct (maybe_parse_apply_patch_verified no_diff [&"apply_patch"; approve_patch] (&"/w") demo)
    as [[action| | |]| | |] eqn:Ev; try (exfalso; vm_compute in Ev; discriminate Ev).
  destruct (verified_body_explicit no_diff [&"apply_patch"; approve_patch] (&"/w") demo action Ev)
    as (body & w & args & Hp & _ & Hv & _).
  exists action, body, w, args. split; [reflexivity|]. split; [exact Hp|exact Hv].
Defined.
