(* ===== verification/ExecPolicy.v ===== *)
(** * execpolicy: decisions, rules and policies

    [decision.rs], [executable_name.rs] (Unix), [error.rs], [rule.rs] and
    [policy.rs].  Rules are kept by program; the strictest matching rule
    decides, and a heuristic is asked when no rule matches. *)
From S2P Require Import Prelude RustStr RustPath AbsolutePath.
From Stdlib Require Import Sorted.

(** ** Errors *)

Record TextPosition := { line : nat; column : nat }.
Record TextRange := { range_start : TextPosition; range_end : TextPosition }.
Record ErrorLocation := { location_path : str; location_range : TextRange }.

(** A Starlark error is one of the interpreter's own, with its text and span,
    or one that a builtin returned. *)
Inductive Error :=
| InvalidDecision (raw : str)
| InvalidPattern (message : str)
| InvalidExample (message : str)
| InvalidRule (message : str)
| ExampleDidNotMatch (rules : list str) (examples : list str) (location : option ErrorLocation)
| ExampleDidMatch (rule : str) (example : str) (location : option ErrorLocation)
| Starlark (message : str) (span : option ErrorLocation)
| StarlarkNative (e : Error) (span : option ErrorLocation).

Definition with_location (e : Error) (location : ErrorLocation) : Error :=
  match e with
  | ExampleDidNotMatch rules examples None => ExampleDidNotMatch rules examples (Some location)
  | ExampleDidMatch rule example None => ExampleDidMatch rule example (Some location)
  | other => other
  end.

(** Positions are counted from one. *)
Definition shift_position (p : TextPosition) : TextPosition :=
  {| line := line p + 1; column := column p + 1 |}.
Definition shift_location (l : ErrorLocation) : ErrorLocation :=
  {| location_path := location_path l;
     location_range := {| range_start := shift_position (range_start (location_range l));
                          range_end := shift_position (range_end (location_range l)) |} |}.

Definition error_location (e : Error) : option ErrorLocation :=
  match e with
  | ExampleDidNotMatch _ _ location | ExampleDidMatch _ _ location => location
  | Starlark _ span | StarlarkNative _ span => option_map shift_location span
  | _ => None
  end.

(** ** Decisions *)

Inductive Decision := Allow | Prompt | Forbidden.

#[export] Instance Decision_eq_dec : EqDecision Decision.
Proof. solve_decision. Defined.

Module Decision.
Definition parse (raw : str) : comp Error Decision :=
  if str_eqb raw &"allow" then Ok Allow
  else if str_eqb raw &"prompt" then Ok Prompt
  else if str_eqb raw &"forbidden" then Ok Forbidden
  else Err (InvalidDecision raw).

(** The derived order. *)
Definition rank (d : Decision) : nat :=
  match d with Allow => 0 | Prompt => 1 | Forbidden => 2 end.
Definition max (a b : Decision) : Decision := if rank a <=? rank b then b else a.
End Decision.

(** ** Executable names *)

Definition executable_lookup_key (raw : str) : str := raw.

Definition executable_path_lookup_key (path : str) : option str :=
  option_map executable_lookup_key (file_name path).

(** ** Rules *)

Inductive PatternToken := Single (expected : str) | Alts (alternatives : list str).

Definition token_matches (t : PatternToken) (token : str) : bool :=
  match t with
  | Single expected => str_eqb expected token
  | Alts alternatives => existsb (fun alt => str_eqb alt token) alternatives
  end.

Definition alternatives (t : PatternToken) : list str :=
  match t with Single expected => [expected] | Alts alternatives => alternatives end.

Record PrefixPattern := { first : str; rest : list PatternToken }.

(** The zip of the remaining pattern and the remaining tokens. *)
Fixpoint all_match (pats : list PatternToken) (toks : list str) : bool :=
  match pats, toks with
  | p :: pats, t :: toks => token_matches p t && all_match pats toks
  | _, _ => true
  end.

Definition matches_prefix (p : PrefixPattern) (cmd : list str) : option (list str) :=
  let pattern_length := length (rest p) + 1 in
  match cmd with
  | [] => None
  | head :: tail =>
      if (length cmd <? pattern_length) || negb (str_eqb head (first p)) then None
      else if all_match (rest p) (take (pattern_length - 1) tail) then Some (take pattern_length cmd)
      else None
  end.

Inductive RuleMatch :=
| PrefixRuleMatch (matched_prefix : list str) (decision : Decision)
    (resolved_program justification : option str)
| HeuristicsRuleMatch (command : list str) (decision : Decision).

Definition match_decision (m : RuleMatch) : Decision :=
  match m with
  | PrefixRuleMatch _ decision _ _ => decision
  | HeuristicsRuleMatch _ decision => decision
  end.

Definition with_resolved_program (resolved_program : str) (m : RuleMatch) : RuleMatch :=
  match m with
  | PrefixRuleMatch matched_prefix decision _ justification =>
      PrefixRuleMatch matched_prefix decision (Some resolved_program) justification
  | other => other
  end.

Record PrefixRule := {
  pattern : PrefixPattern;
  decision : Decision;
  justification : option str
}.

(** [impl Rule for PrefixRule], the only implementation *)
Definition program (r : PrefixRule) : str := first (pattern r).
Definition rule_matches (cmd : list str) (r : PrefixRule) : option RuleMatch :=
  option_map (fun matched_prefix => PrefixRuleMatch matched_prefix (decision r) None (justification r))
    (matches_prefix (pattern r) cmd).

Inductive NetworkRuleProtocol := Http | Https | Socks5Tcp | Socks5Udp.

Module Protocol.
Definition parse (raw : str) : comp Error NetworkRuleProtocol :=
  if str_eqb raw &"http" then Ok Http
  else if str_eqb raw &"https" || str_eqb raw &"https_connect" || str_eqb raw &"http-connect" then Ok Https
  else if str_eqb raw &"socks5_tcp" then Ok Socks5Tcp
  else if str_eqb raw &"socks5_udp" then Ok Socks5Udp
  else Err (InvalidRule
    (&"network_rule protocol must be one of http, https, socks5_tcp, socks5_udp (got " ++ raw ++ &")")).
End Protocol.

Definition as_policy_string (p : NetworkRuleProtocol) : str :=
  match p with
  | Http => &"http"
  | Https => &"https"
  | Socks5Tcp => &"socks5_tcp"
  | Socks5Udp => &"socks5_udp"
  end.

Record NetworkRule := {
  host : str;
  protocol : NetworkRuleProtocol;
  network_decision : Decision;
  network_justification : option str
}.

(** Bracketed literals and ports are stripped, or refused. *)
Definition strip_port (host raw : str) : comp Error str :=
  match strip_prefix &"[" host with
  | Some stripped =>
      match split_once 93%N stripped with
      | None => Err (InvalidRule &"network_rule host has an invalid bracketed IPv6 literal")
      | Some (inside, rest) =>
          let port_ok :=
            match strip_prefix &":" rest with
            | Some port => negb (str_eqb port []) && forallb is_ascii_digit port
            | None => false
            end in
          if negb (str_eqb rest []) && negb port_ok
          then Err (InvalidRule (&"network_rule host contains an unsupported suffix: " ++ raw))
          else Ok inside
      end
  | None =>
      if count_char 58%N host =? 1 then
        match rsplit_once 58%N host with
        | Some (candidate, port) =>
            if negb (str_eqb candidate []) && negb (str_eqb port []) && forallb is_ascii_digit port
            then Ok candidate else Ok host
        | None => Ok host
        end
      else Ok host
  end.

Definition normalize_network_rule_host (raw : str) : comp Error str :=
  let host := trim raw in
  if str_eqb host [] then Err (InvalidRule &"network_rule host cannot be empty")
  else if contains_str &"://" host || contains_char 47%N host || contains_char 63%N host
          || contains_char 35%N host
  then Err (InvalidRule &"network_rule host must be a hostname or IP literal (without scheme or path)")
  else
    let? host := strip_port host raw in
    let normalized := to_ascii_lowercase (trim (trim_end_char 46%N host)) in
    if str_eqb normalized [] then Err (InvalidRule &"network_rule host cannot be empty")
    else if contains_char 42%N normalized
    then Err (InvalidRule &"network_rule host must be a specific host; wildcards are not allowed")
    else if existsb is_whitespace normalized
    then Err (InvalidRule &"network_rule host cannot contain whitespace")
    else Ok normalized.

(** ** Policies *)

Record MatchOptions := { resolve_host_executables : bool }.
Definition default_options : MatchOptions := {| resolve_host_executables := false |}.

Record Policy := {
  rules_by_program : gmap str (list PrefixRule);
  network_rules : list NetworkRule;
  host_executables_by_name : gmap str (list str)
}.

Definition from_parts := Build_Policy.
Definition new_policy (rules : gmap str (list PrefixRule)) : Policy := from_parts rules [] ∅.
Definition empty_policy : Policy := new_policy ∅.

(** [MultiMap::insert] appends to the values of the key. *)
Definition multi_insert (k : str) (r : PrefixRule) (m : gmap str (list PrefixRule))
  : gmap str (list PrefixRule) := <[k := default [] (m !! k) ++ [r]]> m.

Definition multi_extend (k : str) (rs : list PrefixRule) (m : gmap str (list PrefixRule))
  : gmap str (list PrefixRule) := foldl (fun m r => multi_insert k r m) m rs.

Definition add_prefix_rule (prefix : list str) (d : Decision) (p : Policy) : comp Error Policy :=
  match prefix with
  | [] => Err (InvalidPattern &"prefix cannot be empty")
  | first_token :: tail =>
      let rule := {| pattern := {| first := first_token; rest := map Single tail |};
                     decision := d; justification := None |} in
      Ok {| rules_by_program := multi_insert first_token rule (rules_by_program p);
            network_rules := network_rules p;
            host_executables_by_name := host_executables_by_name p |}
  end.

Definition blank (j : option str) : bool :=
  match j with Some raw => str_eqb (trim raw) [] | None => false end.

Definition add_network_rule (h : str) (proto : NetworkRuleProtocol) (d : Decision)
  (j : option str) (p : Policy) : comp Error Policy :=
  let? h := normalize_network_rule_host h in
  if blank j then Err (InvalidRule &"justification cannot be empty")
  else Ok {| rules_by_program := rules_by_program p;
             network_rules := network_rules p ++
               [{| host := h; protocol := proto; network_decision := d; network_justification := j |}];
             host_executables_by_name := host_executables_by_name p |}.

Definition set_host_executable_paths (name : str) (paths : list str) (p : Policy) : Policy :=
  {| rules_by_program := rules_by_program p; network_rules := network_rules p;
     host_executables_by_name := <[name := paths]> (host_executables_by_name p) |}.

Definition merge_overlay (base overlay : Policy) : Policy :=
  {| rules_by_program :=
       map_fold multi_extend (rules_by_program base) (rules_by_program overlay);
     network_rules := network_rules base ++ network_rules overlay;
     host_executables_by_name := host_executables_by_name overlay ∪ host_executables_by_name base |}.

(** [retain] the other entries, then push. *)
Definition remove_domain (h : str) (entries : list str) : list str :=
  filter (fun e => negb (str_eqb e h)) entries.
Definition upsert_domain (entries : list str) (h : str) : list str := remove_domain h entries ++ [h].

Definition compile_step (acc : list str * list str) (r : NetworkRule) : list str * list str :=
  let '(allowed, denied) := acc in
  match network_decision r with
  | Allow => (upsert_domain allowed (host r), remove_domain (host r) denied)
  | Forbidden => (remove_domain (host r) allowed, upsert_domain denied (host r))
  | Prompt => (allowed, denied)
  end.

Definition compiled_network_domains (p : Policy) : list str * list str :=
  foldl compile_step ([], []) (network_rules p).

(** *** Allowed prefixes, sorted and without duplicates *)

Definition render_pattern_token (t : PatternToken) : str :=
  match t with
  | Single value => value
  | Alts alternatives => &"[" ++ join &"|" alternatives ++ &"]"
  end.

Definition rule_prefix (r : PrefixRule) : option (list str) :=
  if decide (decision r = Allow)
  then Some (first (pattern r) :: map render_pattern_token (rest (pattern r)))
  else None.

Fixpoint list_leb {A} (ltb eqb : A -> A -> bool) (a b : list A) : bool :=
  match a, b with
  | [], _ => true
  | _ :: _, [] => false
  | x :: a, y :: b => ltb x y || (eqb x y && list_leb ltb eqb a b)
  end.

Definition str_leb (a b : str) : bool := list_leb N.ltb N.eqb a b.
Definition prefix_leb (a b : list str) : bool :=
  list_leb (fun x y => str_leb x y && negb (str_eqb x y)) str_eqb a b.

(** [sort] *)
Fixpoint insert_sorted (x : list str) (l : list (list str)) : list (list str) :=
  match l with
  | [] => [x]
  | y :: l' => if prefix_leb x y then x :: l else y :: insert_sorted x l'
  end.
Definition sort_prefixes (l : list (list str)) : list (list str) := foldr insert_sorted [] l.

(** [dedup] *)
Fixpoint dedup (l : list (list str)) : list (list str) :=
  match l with
  | x :: l' =>
      match l' with
      | y :: _ => if bool_decide (x = y) then dedup l' else x :: dedup l'
      | [] => [x]
      end
  | [] => []
  end.

Definition get_allowed_prefixes (p : Policy) : list (list str) :=
  dedup (sort_prefixes (omap rule_prefix (mjoin (map_to_list (rules_by_program p)).*2))).

(** *** Evaluation *)

Record Evaluation := { evaluated : Decision; matched_rules : list RuleMatch }.

Definition is_match (e : Evaluation) : bool :=
  existsb (fun m => match m with HeuristicsRuleMatch _ _ => false | _ => true end) (matched_rules e).

(** The [expect] on an empty vector is a panic. *)
Definition from_matches (ms : list RuleMatch) : comp False Evaluation :=
  match map match_decision ms with
  | [] => Panic
  | d :: ds => Ok {| evaluated := foldl Decision.max d ds; matched_rules := ms |}
  end.

Definition match_exact_rules (p : Policy) (cmd : list str) : option (list RuleMatch) :=
  match cmd with
  | [] => None
  | head :: _ =>
      Some (match rules_by_program p !! head with
            | Some rules => omap (rule_matches cmd) rules
            | None => []
            end)
  end.

Section evaluation.
Context `{!ProcessEnv}.

Definition match_host_executable_rules (p : Policy) (cmd : list str) : list RuleMatch :=
  match cmd with
  | [] => []
  | head :: tail =>
      match from_absolute_path head with
      | None => []
      | Some prog =>
          match executable_path_lookup_key prog with
          | None => []
          | Some basename =>
              match rules_by_program p !! basename with
              | None => []
              | Some rules =>
                  if match host_executables_by_name p !! basename with
                     | Some paths => negb (existsb (str_eqb prog) paths)
                     | None => false
                     end
                  then []
                  else map (with_resolved_program prog) (omap (rule_matches (basename :: tail)) rules)
              end
          end
      end
  end.

Definition matches_for_command_with_options (p : Policy) (cmd : list str)
  (heuristics_fallback : option (list str -> Decision)) (options : MatchOptions) : list RuleMatch :=
  let nonempty (l : list RuleMatch) := match l with [] => None | _ => Some l end in
  let host_matches :=
    if resolve_host_executables options then nonempty (match_host_executable_rules p cmd) else None in
  let matched :=
    match match match_exact_rules p cmd with Some l => nonempty l | None => None end with
    | Some l => l
    | None => default [] host_matches
    end in
  match matched, heuristics_fallback with
  | [], Some fallback => [HeuristicsRuleMatch cmd (fallback cmd)]
  | _, _ => matched
  end.

Definition matches_for_command (p : Policy) (cmd : list str)
  (heuristics_fallback : option (list str -> Decision)) : list RuleMatch :=
  matches_for_command_with_options p cmd heuristics_fallback default_options.

Definition check_with_options (p : Policy) (cmd : list str) (fallback : list str -> Decision)
  (options : MatchOptions) : comp False Evaluation :=
  from_matches (matches_for_command_with_options p cmd (Some fallback) options).

Definition check (p : Policy) (cmd : list str) (fallback : list str -> Decision)
  : comp False Evaluation := check_with_options p cmd fallback default_options.

Definition check_multiple_with_options (p : Policy) (commands : list (list str))
  (fallback : list str -> Decision) (options : MatchOptions) : comp False Evaluation :=
  from_matches (commands ≫= fun cmd =>
    matches_for_command_with_options p cmd (Some fallback) options).

Definition check_multiple (p : Policy) (commands : list (list str)) (fallback : list str -> Decision)
  : comp False Evaluation := check_multiple_with_options p commands fallback default_options.
End evaluation.

(** ** Prefix matching, declaratively *)

Definition token_accepts (t : PatternToken) (tok : str) : Prop := tok ∈ alternatives t.

Definition pattern_accepts (p : PrefixPattern) (toks : list str) : Prop :=
  Forall2 token_accepts (Single (first p) :: rest p) toks.

Lemma token_matches_iff t tok : token_matches t tok = true <-> token_accepts t tok.
Proof.
  unfold token_accepts. destruct t as [e|alts]; simpl.
  - rewrite str_eqb_eq, list_elem_of_singleton. naive_solver.
  - rewrite existsb_exists. setoid_rewrite str_eqb_eq. setoid_rewrite list_elem_of_In. naive_solver.
Qed.

Lemma all_match_iff pats toks :
  length toks = length pats -> all_match pats toks = true <-> Forall2 token_accepts pats toks.
Proof.
  revert toks. induction pats as [|p pats IH]; intros [|t toks] Hl; try done; simpl in *.
  - rewrite andb_true_iff, token_matches_iff, IH by lia. split.
    + intros [? ?]. by constructor.
    + by inversion 1.
Qed.

Lemma matches_prefix_iff p cmd pre :
  matches_prefix p cmd = Some pre <-> pre `prefix_of` cmd /\ pattern_accepts p pre.
Proof.
  unfold matches_prefix, pattern_accepts. rewrite Nat.add_1_r. destruct cmd as [|head tail].
  - split; [done|]. intros [->%prefix_nil_inv Hf]. inversion Hf.
  - destruct ((length (head :: tail) <? S (length (rest p))) || negb (str_eqb head (first p))) eqn:E.
    + split; [done|]. intros [[k Hk] Hf]. exfalso. inversion Hf as [|? x ? l Hh Ht]; subst. simplify_eq/=.
      apply Forall2_length in Ht. unfold token_accepts in Hh. simpl in Hh.
      apply list_elem_of_singleton in Hh as ->. rewrite str_eqb_refl in E.
      apply orb_true_iff in E as [E%Nat.ltb_lt|]; [|done]. rewrite length_app in E. lia.
    + apply orb_false_iff in E as [E%Nat.ltb_ge ->%negb_false_iff%str_eqb_eq].
      cbn [Nat.sub take length] in *. rewrite Nat.sub_0_r.
      pose proof (all_match_iff (rest p) (take (length (rest p)) tail)) as Ha.
      rewrite length_take in Ha. specialize (Ha ltac:(lia)). split.
      * case_match; [|done]. intros [= <-]. split.
        -- exists (drop (length (rest p)) tail). simpl. by rewrite take_drop.
        -- constructor; [by apply list_elem_of_singleton|by apply Ha].
      * intros [[k Hk] Hf]. inversion Hf as [|? x ? l Hh Ht]; subst. simplify_eq/=.
        pose proof (Forall2_length _ _ _ Ht) as Hl. rewrite Hl, take_app_length in Ha |- *.
        by rewrite (proj2 Ha).
Qed.

#[global] Arguments matches_prefix : simpl never.

(** ** Well-formed policies: every rule is filed under its program *)

Definition policy_rule (p : Policy) (r : PrefixRule) : Prop :=
  exists k rs, rules_by_program p !! k = Some rs /\ r ∈ rs.

Definition rules_wf (m : gmap str (list PrefixRule)) : Prop :=
  forall k rs r, m !! k = Some rs -> r ∈ rs -> program r = k.

Definition policy_wf (p : Policy) : Prop := rules_wf (rules_by_program p).

Lemma multi_insert_lookup k r m k' :
  default [] (multi_insert k r m !! k') = default [] (m !! k') ++ (if decide (k = k') then [r] else []).
Proof.
  unfold multi_insert. case_decide as Hk.
  - subst. by rewrite lookup_insert_eq.
  - by rewrite lookup_insert_ne, app_nil_r.
Qed.

Lemma rules_wf_default m :
  rules_wf m <-> forall k r, r ∈ default [] (m !! k) -> program r = k.
Proof.
  split.
  - intros Hm k r. destruct (m !! k) eqn:E; simpl; [by eapply Hm|by intros ?%not_elem_of_nil].
  - intros Hm k rs r Hk Hr. apply Hm. by rewrite Hk.
Qed.

Lemma multi_extend_lookup k rs m k' :
  default [] (multi_extend k rs m !! k') = default [] (m !! k') ++ (if decide (k = k') then rs else []).
Proof.
  unfold multi_extend. revert m. induction rs as [|r rs IH]; intros m; simpl.
  - by destruct (decide (k = k')); rewrite app_nil_r.
  - rewrite IH, multi_insert_lookup. case_decide; [by rewrite <- (assoc_L (++))|by rewrite !app_nil_r].
Qed.

(** The rules of a program in an overlaid policy: the base's, then the overlay's. *)
Lemma merge_overlay_lookup base overlay k :
  default [] (rules_by_program (merge_overlay base overlay) !! k) =
  default [] (rules_by_program base !! k) ++ default [] (rules_by_program overlay !! k).
Proof.
  unfold merge_overlay; simpl. generalize (rules_by_program overlay). clear overlay.
  intros m. apply (map_fold_weak_ind (fun acc m =>
    default [] (acc !! k) = default [] (rules_by_program base !! k) ++ default [] (m !! k))).
  - by rewrite lookup_empty, app_nil_r.
  - intros i rs m' acc Hi IH. rewrite multi_extend_lookup, IH. destruct (decide (i = k)) as [->|Hne].
    + rewrite lookup_insert_eq, Hi. simpl. by rewrite app_nil_r.
    + by rewrite lookup_insert_ne, app_nil_r.
Qed.

Lemma merge_overlay_wf base overlay : policy_wf base -> policy_wf overlay -> policy_wf (merge_overlay base overlay).
Proof.
  unfold policy_wf. rewrite !rules_wf_default. intros Hb Ho k r. rewrite merge_overlay_lookup.
  intros [?|?]%elem_of_app; eauto.
Qed.

Lemma add_prefix_rule_wf prefix d p p' : add_prefix_rule prefix d p = Ok p' -> policy_wf p -> policy_wf p'.
Proof.
  unfold policy_wf. rewrite !rules_wf_default. destruct prefix as [|t ts]; [done|]. intros [= <-] Hp k r.
  cbn [rules_by_program]. rewrite multi_insert_lookup. intros [?|Hr]%elem_of_app; [eauto|].
  case_decide; [|by apply not_elem_of_nil in Hr]. apply list_elem_of_singleton in Hr as ->. done.
Qed.

Lemma match_exact_eq p cmd :
  default [] (match_exact_rules p cmd) =
  match cmd with [] => [] | head :: _ => omap (rule_matches cmd) (default [] (rules_by_program p !! head)) end.
Proof. destruct cmd as [|head tail]; [done|]. simpl. by destruct (rules_by_program p !! head). Qed.

(** The exact matches are those of the rules whose pattern accepts a prefix. *)
Lemma match_exact_iff p cmd m :
  policy_wf p ->
  m ∈ default [] (match_exact_rules p cmd) <->
  exists r pre, policy_rule p r /\ pre `prefix_of` cmd /\ pattern_accepts (pattern r) pre /\
    m = PrefixRuleMatch pre (decision r) None (justification r).
Proof.
  intros Hwf. rewrite match_exact_eq. split.
  - destruct cmd as [|head tail]; [by intros ?%not_elem_of_nil|].
    intros (r & Hr & Hm)%list_elem_of_omap. unfold rule_matches in Hm.
    destruct (matches_prefix (pattern r) (head :: tail)) as [pre|] eqn:E; simplify_eq/=.
    apply matches_prefix_iff in E as [? ?]. exists r, pre. split_and!; try done.
    destruct (rules_by_program p !! head) as [rs|] eqn:El; [by exists head, rs|by apply not_elem_of_nil in Hr].
  - intros (r & pre & (k & rs & Hk & Hr) & Hpre & Hacc & ->).
    assert (program r = k) as <- by by eapply Hwf.
    destruct cmd as [|head tail].
    { apply prefix_nil_inv in Hpre as ->. inversion Hacc. }
    assert (head = program r) as ->.
    { destruct Hpre as [x Hx]. inversion Hacc as [|? ? ? ? Hh _]; subst. simplify_eq/=.
      by apply list_elem_of_singleton in Hh. }
    apply list_elem_of_omap. exists r. rewrite Hk. split; [done|].
    unfold rule_matches. by rewrite (proj2 (matches_prefix_iff _ _ pre)).
Qed.

(** ** The strictest match decides *)

Lemma max_upper a b : Decision.rank a <= Decision.rank (Decision.max a b) /\ Decision.rank b <= Decision.rank (Decision.max a b).
Proof. by destruct a, b; simpl; lia. Qed.

Lemma max_one_of a b : Decision.max a b = a \/ Decision.max a b = b.
Proof. unfold Decision.max. case_match; auto. Qed.

Lemma rank_inj a b : Decision.rank a = Decision.rank b -> a = b.
Proof. by destruct a, b. Qed.

Lemma fold_max ds d :
  let r := foldl Decision.max d ds in
  r ∈ d :: ds /\ Forall (fun x => Decision.rank x <= Decision.rank r) (d :: ds).
Proof.
  revert d. induction ds as [|x ds IH]; intros d; simpl.
  { split; [by left|]. by repeat constructor. }
  destruct (IH (Decision.max d x)) as [Hin [Hm Hall]%Forall_cons]. cbv zeta. split.
  - apply elem_of_cons in Hin as [->|Hin]; [|set_solver]. destruct (max_one_of d x) as [-> | ->]; set_solver.
  - destruct (max_upper d x). repeat constructor; [lia|lia|done].
Qed.

(** The result of an evaluation: the maximum of the decisions. *)
Definition strictest (e : Evaluation) : Prop :=
  (exists m, m ∈ matched_rules e /\ match_decision m = evaluated e) /\
  (forall m, m ∈ matched_rules e -> Decision.rank (match_decision m) <= Decision.rank (evaluated e)).

Lemma from_matches_spec ms :
  match from_matches ms with
  | Ok e => matched_rules e = ms /\ strictest e
  | Panic => ms = []
  | _ => False
  end.
Proof.
  unfold from_matches. destruct (map match_decision ms) as [|d ds] eqn:E; [by destruct ms|].
  split; [done|]. destruct (fold_max ds d) as [Hin Hall]. rewrite <- E in Hin, Hall. split; simpl.
  - apply (list_elem_of_fmap match_decision) in Hin as (m & Hm & ?). by exists m.
  - intros m Hm. rewrite Forall_forall in Hall. apply Hall. by apply (list_elem_of_fmap_2 match_decision).
Qed.

Section evaluation_theorems.
Context `{!ProcessEnv}.

Lemma matches_with_fallback_nonempty p cmd fb o :
  matches_for_command_with_options p cmd (Some fb) o <> [].
Proof. unfold matches_for_command_with_options. by case_match. Qed.

(** Exact matches, when there are any, are the result. *)
Lemma matches_exact_first p cmd fb o :
  default [] (match_exact_rules p cmd) <> [] ->
  matches_for_command_with_options p cmd fb o = default [] (match_exact_rules p cmd).
Proof.
  unfold matches_for_command_with_options. destruct (match_exact_rules p cmd) as [[|m ms]|]; try done.
Qed.

Lemma check_multiple_spec p commands fb o :
  match check_multiple_with_options p commands fb o with
  | Ok e => commands <> [] /\ strictest e /\
      matched_rules e = commands ≫= (fun cmd => matches_for_command_with_options p cmd (Some fb) o)
  | Panic => commands = []
  | _ => False
  end.
Proof.
  unfold check_multiple_with_options. set (ms := commands ≫= _).
  pose proof (from_matches_spec ms) as Hs. destruct (from_matches ms) as [e| | |]; try done.
  - destruct Hs as [Hm Hs]. split_and!; [|done|done]. intros ->. destruct Hs as [(m & Hin & _) _].
    rewrite Hm in Hin. by apply not_elem_of_nil in Hin.
  - destruct commands as [|c cs]; [done|]. unfold ms in Hs. simpl in Hs. exfalso.
    apply app_eq_nil in Hs as [Hs _]. by eapply matches_with_fallback_nonempty.
Qed.

(** Evaluating a list of commands panics only for the empty list; otherwise
    the decision is the strictest one among the matches of all the commands,
    each of which contributes at least one match. *)
Theorem check_multiple_strictest p commands fb o :
  match check_multiple_with_options p commands fb o with
  | Ok e => commands <> [] /\ strictest e /\
      matched_rules e = commands ≫= (fun cmd => matches_for_command_with_options p cmd (Some fb) o) /\
      Forall (fun cmd => matches_for_command_with_options p cmd (Some fb) o <> []) commands
  | Panic => commands = []
  | _ => False
  end.
Proof.
  pose proof (check_multiple_spec p commands fb o) as Hs.
  destruct (check_multiple_with_options p commands fb o) as [e| | |]; try done.
  destruct Hs as (? & ? & ?). split_and!; try done. apply Forall_forall. intros cmd _.
  apply matches_with_fallback_nonempty.
Qed.

(** A rule that forbids cannot be overruled: when a forbidding rule of a
    well-formed policy accepts a prefix of one of the commands, the whole list
    of commands is forbidden, whatever other rules, options and the heuristic
    say. *)
Theorem forbidden_rule_wins p commands fb o cmd r pre :
  policy_wf p -> cmd ∈ commands -> policy_rule p r -> decision r = Forbidden ->
  pre `prefix_of` cmd -> pattern_accepts (pattern r) pre ->
  exists e, check_multiple_with_options p commands fb o = Ok e /\ evaluated e = Forbidden.
Proof.
  intros Hwf Hin Hr Hd Hpre Hacc. pose proof (check_multiple_spec p commands fb o) as Hs.
  destruct (check_multiple_with_options p commands fb o) as [e| | |]; try done.
  2: { subst. by apply not_elem_of_nil in Hin. }
  exists e. split; [done|]. destruct Hs as (_ & [_ Hmax] & Hm).
  set (m := PrefixRuleMatch pre (decision r) None (justification r)).
  assert (m ∈ default [] (match_exact_rules p cmd)) as Hex.
  { apply match_exact_iff; [done|]. by exists r, pre. }
  apply rank_inj. pose proof (Hmax m) as Hle. rewrite Hm in Hle.
  assert (Decision.rank (decision r) <= Decision.rank (evaluated e)) as Hge.
  { apply Hle. apply list_elem_of_bind. exists cmd. split; [|done]. rewrite matches_exact_first; [done|].
    intros Hnil. rewrite Hnil in Hex. by apply not_elem_of_nil in Hex. }
  rewrite Hd in Hge. destruct (evaluated e); simpl in *; lia.
Qed.

(** Commands are allowed only when each of them is: an [Allow] for a list of
    commands means that for every command all matching rules allow it, or that
    no rule matches it and the heuristic allows it. *)
Theorem allowed_only_if_all_allow p commands fb o e :
  check_multiple_with_options p commands fb o = Ok e -> evaluated e = Allow ->
  Forall (fun cmd =>
    Forall (fun m => match_decision m = Allow) (matches_for_command_with_options p cmd (Some fb) o) /\
    (matches_for_command_with_options p cmd None o = [] -> fb cmd = Allow)) commands.
Proof.
  intros He Ha. pose proof (check_multiple_spec p commands fb o) as Hs. rewrite He in Hs.
  destruct Hs as (_ & [_ Hmax] & Hm). apply Forall_forall. intros cmd Hin.
  assert (Forall (fun m => match_decision m = Allow) (matches_for_command_with_options p cmd (Some fb) o)) as Hall.
  { apply Forall_forall. intros m Hm'. apply rank_inj.
    specialize (Hmax m). rewrite Ha, Hm in Hmax. simpl in *. apply Nat.le_0_r, Hmax.
    apply list_elem_of_bind. by exists cmd. }
  split; [done|]. intros Hnone. unfold matches_for_command_with_options in Hall, Hnone.
  case_match; [|done]. apply Forall_cons in Hall as [? _]. done.
Qed.

(** An overlay cannot relax a base policy on commands that the base has a
    rule for: the merged policy is well formed, its exact matches are those of
    the base followed by those of the overlay, and its decision is at least as
    strict as the base's. *)
Theorem merge_overlay_monotone base overlay cmd fb o eb em :
  policy_wf base -> policy_wf overlay ->
  default [] (match_exact_rules base cmd) <> [] ->
  check_with_options base cmd fb o = Ok eb ->
  check_with_options (merge_overlay base overlay) cmd fb o = Ok em ->
  policy_wf (merge_overlay base overlay) /\
  matched_rules em = matched_rules eb ++ default [] (match_exact_rules overlay cmd) /\
  Decision.rank (evaluated eb) <= Decision.rank (evaluated em).
Proof.
  intros Hb Ho Hne Heb Hem. split; [by apply merge_overlay_wf|].
  assert (default [] (match_exact_rules (merge_overlay base overlay) cmd) =
    default [] (match_exact_rules base cmd) ++ default [] (match_exact_rules overlay cmd)) as Hm.
  { rewrite !match_exact_eq. destruct cmd; [done|]. by rewrite merge_overlay_lookup, omap_app. }
  unfold check_with_options in *. rewrite matches_exact_first in Heb by done.
  rewrite matches_exact_first in Hem by (rewrite Hm; by intros [? _]%app_eq_nil). rewrite Hm in Hem.
  pose proof (from_matches_spec (default [] (match_exact_rules base cmd))) as Hsb.
  pose proof (from_matches_spec (default [] (match_exact_rules base cmd) ++ default [] (match_exact_rules overlay cmd))) as Hsm.
  rewrite Heb in Hsb. rewrite Hem in Hsm. destruct Hsb as [Hmb [(m & Hin & <-) _]], Hsm as [Hmm [_ Hmax]].
  split; [congruence|]. apply Hmax. rewrite Hmm. apply elem_of_app. left. congruence.
Qed.
End evaluation_theorems.

(** ** Network domains *)

(** The last rule for a host that allows or forbids it. *)
Definition decisive (h : str) (acc : option Decision) (r : NetworkRule) : option Decision :=
  if decide (host r = h) then
    match network_decision r with Prompt => acc | d => Some d end
  else acc.
Definition last_decisive (h : str) (rules : list NetworkRule) : option Decision :=
  foldl (decisive h) None rules.

Definition compiled_inv (acc : list str * list str) (f : str -> option Decision) : Prop :=
  NoDup acc.1 /\ NoDup acc.2 /\
  forall h, (h ∈ acc.1 <-> f h = Some Allow) /\ (h ∈ acc.2 <-> f h = Some Forbidden).

Lemma elem_of_remove_domain h x l : h ∈ remove_domain x l <-> h ∈ l /\ h <> x.
Proof.
  unfold remove_domain. rewrite list_elem_of_filter. destruct (str_eqb h x) eqn:E; simpl.
  - apply str_eqb_eq in E. naive_solver.
  - apply str_eqb_neq in E. naive_solver.
Qed.

Lemma remove_domain_NoDup x l : NoDup l -> NoDup (remove_domain x l).
Proof. apply NoDup_filter. Qed.

Lemma upsert_domain_NoDup x l : NoDup l -> NoDup (upsert_domain l x).
Proof.
  intros Hl. apply NoDup_app. split_and!; [by apply remove_domain_NoDup| |apply NoDup_singleton].
  intros y [_ Hy]%elem_of_remove_domain ->%list_elem_of_singleton. done.
Qed.

Lemma compile_step_inv acc f r :
  compiled_inv acc f -> compiled_inv (compile_step acc r) (fun h => decisive h (f h) r).
Proof.
  destruct acc as [allowed denied]. intros (Ha & Hd & Hf). unfold compiled_inv, compile_step, decisive.
  destruct (network_decision r); simpl in *;
    (split_and!; [auto using remove_domain_NoDup, upsert_domain_NoDup..|]); intros h;
    destruct (Hf h) as [H1 H2]; unfold upsert_domain;
    rewrite ?elem_of_app, ?elem_of_remove_domain, ?list_elem_of_singleton; case_decide; naive_solver.
Qed.

(** The compiled domain lists have no duplicates, are disjoint, and decide each
    host by the last rule that allows or forbids it: a host is in the first list
    exactly when that rule allows it and in the second exactly when it forbids
    it. *)
Theorem compiled_network_domains_last_wins p :
  let '(allowed, denied) := compiled_network_domains p in
  NoDup allowed /\ NoDup denied /\
  forall h, (h ∈ allowed <-> last_decisive h (network_rules p) = Some Allow) /\
            (h ∈ denied <-> last_decisive h (network_rules p) = Some Forbidden).
Proof.
  unfold compiled_network_domains, last_decisive.
  assert (forall rules acc f, compiled_inv acc f ->
    compiled_inv (foldl compile_step acc rules) (fun h => foldl (decisive h) (f h) rules)) as Hind.
  { induction rules as [|r rules IH]; intros acc f Hi; [done|]. simpl.
    apply (IH _ (fun h => decisive h (f h) r)). by apply compile_step_inv. }
  specialize (Hind (network_rules p) ([], []) (fun _ => None)).
  destruct (foldl compile_step ([], []) (network_rules p)) as [allowed denied]. apply Hind.
  split_and!; [apply NoDup_nil_2..|]. intros h. simpl. split; (split; [by intros ?%not_elem_of_nil|done]).
Qed.

(** ** Hosts *)

Lemma strip_port_incl h raw h' c : strip_port h raw = Ok h' -> c ∈ h' -> c ∈ h.
Proof.
  unfold strip_port. destruct (strip_prefix &"[" h) as [s|] eqn:E.
  - apply strip_prefix_Some in E as ->. destruct (split_once 93%N s) as [[a b]|] eqn:E2; [|done].
    apply split_once_spec in E2 as [-> _]. case_match; [done|]. intros [= <-] Hc. set_solver.
  - case_match; [|by intros [= ->]]. destruct (rsplit_once 58%N h) as [[a b]|] eqn:E2; [|by intros [= ->]].
    apply rsplit_once_spec in E2 as [-> _]. case_match; intros [= <-] Hc; set_solver.
Qed.

Lemma lowercase_elem c s : c ∈ to_ascii_lowercase s -> (c <? 65)%N || (90 <? c)%N = true /\
  (c ∈ s \/ (97 <=? c)%N && (c <=? 122)%N = true).
Proof.
  intros (x & -> & Hx)%(list_elem_of_fmap char_to_ascii_lowercase). unfold char_to_ascii_lowercase.
  case_match eqn:E.
  - apply andb_prop in E as [E1%N.leb_le E2%N.leb_le]. split; [|right]; rewrite ?orb_true_iff, ?andb_true_iff, ?N.ltb_lt, ?N.leb_le; lia.
  - split; [|by left]. apply andb_false_iff in E. rewrite !N.leb_gt in E. rewrite orb_true_iff, !N.ltb_lt. lia.
Qed.

(** What the rest of the system may rely on about a normalised host. *)
Definition host_char_ok (c : char) : bool :=
  negb (is_whitespace c) && negb (existsb (N.eqb c) [47; 63; 35; 42]%N) && ((c <? 65)%N || (90 <? c)%N).

Lemma normalize_host_ok raw h :
  normalize_network_rule_host raw = Ok h -> h <> [] /\ forallb host_char_ok h = true.
Proof.
  unfold normalize_network_rule_host. case_match eqn:E0; [done|]. case_match eqn:E1; [done|].
  intros (h0 & Hs & H)%comp_bind_Ok. set (n := to_ascii_lowercase _) in H.
  destruct (str_eqb n []) eqn:E2; [done|]. destruct (contains_char 42%N n) eqn:E3; [done|].
  destruct (existsb is_whitespace n) eqn:E4; [done|]. injection H as <-.
  split; [by apply str_eqb_neq|]. apply forallb_forall. intros c Hc. unfold host_char_ok.
  apply list_elem_of_In in Hc. pose proof (lowercase_elem _ _ Hc) as [-> Hor]. rewrite andb_true_r.
  assert (is_whitespace c = false) as ->.
  { destruct (is_whitespace c) eqn:Ew; [|done]. exfalso. rewrite <- not_true_iff_false in E4. apply E4.
    apply existsb_exists. exists c. by rewrite <- list_elem_of_In. }
  apply orb_false_iff in E1 as [[[_ E1]%orb_false_iff E5]%orb_false_iff E6].
  rewrite <- not_true_iff_false, contains_char_elem in E1, E3, E5, E6.
  assert (forall x, (x < 97)%N -> x ∉ trim raw -> c <> x) as Hne.
  { intros x Hx Hn ->. destruct Hor as [Hin|[?%N.leb_le _]%andb_prop]; [|lia]. apply Hn.
    eapply strip_port_incl; [exact Hs|]. apply trim_incl in Hin.
    destruct (trim_end_char_prefix 46%N h0) as [p Hp]. rewrite Hp. apply elem_of_app. by left. }
  simpl. rewrite (proj2 (N.eqb_neq c 47)), (proj2 (N.eqb_neq c 63)), (proj2 (N.eqb_neq c 35)),
    (proj2 (N.eqb_neq c 42)); [done| |by apply Hne..]. by intros ->.
Qed.

(** A host accepted by [normalize_network_rule_host] is not empty and contains
    no white space, no slash, question mark, hash or star, and no upper-case
    ASCII letter. *)
Theorem normalize_network_rule_host_wf raw h :
  normalize_network_rule_host raw = Ok h -> h <> [] /\ forallb host_char_ok h = true.
Proof. apply normalize_host_ok. Qed.

(** Stripping is not repeated: a trailing dot hides a port. *)
Example normalize_host_port_dot :
  normalize_network_rule_host &"a.com:80." = Ok &"a.com:80" /\
  normalize_network_rule_host &"a.com:80" = Ok &"a.com".
Proof. split; vm_compute; reflexivity. Qed.

(** ** The order of [sort] *)

Section list_order.
Context {A : Type} (ltb eqb : A -> A -> bool).
Hypothesis eqb_iff : forall x y, eqb x y = true <-> x = y.
Hypothesis ltb_irrefl : forall x, ltb x x = false.
Hypothesis ltb_trans : forall x y z, ltb x y = true -> ltb y z = true -> ltb x z = true.
Hypothesis ltb_total : forall x y, ltb x y = true \/ x = y \/ ltb y x = true.

Lemma list_leb_total a b : list_leb ltb eqb a b = true \/ list_leb ltb eqb b a = true.
Proof.
  revert b. induction a as [|x a IH]; intros [|y b]; simpl; auto.
  destruct (ltb_total x y) as [-> |[->|Hl]]; [by left| |right; by rewrite Hl].
  rewrite ltb_irrefl, (proj2 (eqb_iff y y) eq_refl). apply IH.
Qed.

Lemma list_leb_cons x y a b :
  list_leb ltb eqb (x :: a) (y :: b) = true <-> ltb x y = true \/ x = y /\ list_leb ltb eqb a b = true.
Proof. simpl. by rewrite orb_true_iff, andb_true_iff, eqb_iff. Qed.

Lemma list_leb_trans a b c :
  list_leb ltb eqb a b = true -> list_leb ltb eqb b c = true -> list_leb ltb eqb a c = true.
Proof.
  revert b c. induction a as [|x a IH]; intros [|y b] [|z c]; try done.
  rewrite !list_leb_cons. intros [?|[-> ?]] [?|[-> ?]]; eauto.
Qed.

Lemma list_leb_antisym a b : list_leb ltb eqb a b = true -> list_leb ltb eqb b a = true -> a = b.
Proof.
  revert b. induction a as [|x a IH]; intros [|y b]; try done. rewrite !list_leb_cons.
  intros [H1|[-> H1]] [H2|[H2' H2]]; subst.
  - pose proof (ltb_trans _ _ _ H1 H2) as H3. by rewrite ltb_irrefl in H3.
  - by rewrite ltb_irrefl in H1.
  - by rewrite ltb_irrefl in H2.
  - f_equal. auto.
Qed.
End list_order.

Lemma str_leb_total a b : str_leb a b = true \/ str_leb b a = true.
Proof.
  apply list_leb_total; [apply N.eqb_eq|apply N.ltb_irrefl|].
  intros x y. rewrite !N.ltb_lt. lia.
Qed.

Lemma str_leb_trans a b c : str_leb a b = true -> str_leb b c = true -> str_leb a c = true.
Proof.
  apply list_leb_trans; [apply N.eqb_eq|]. intros x y z. rewrite !N.ltb_lt. lia.
Qed.

Lemma str_leb_antisym a b : str_leb a b = true -> str_leb b a = true -> a = b.
Proof.
  apply list_leb_antisym; [apply N.eqb_eq|apply N.ltb_irrefl|]. intros x y z. rewrite !N.ltb_lt. lia.
Qed.

Definition str_ltb (x y : str) : bool := str_leb x y && negb (str_eqb x y).

Lemma str_ltb_irrefl x : str_ltb x x = false.
Proof. unfold str_ltb. by rewrite str_eqb_refl, andb_false_r. Qed.

Lemma str_ltb_trans x y z : str_ltb x y = true -> str_ltb y z = true -> str_ltb x z = true.
Proof.
  unfold str_ltb. rewrite !andb_true_iff, !negb_true_iff, !str_eqb_neq.
  intros [H1 N1] [H2 N2]. split; [by eapply str_leb_trans|]. intros ->. by apply N1, str_leb_antisym.
Qed.

Lemma str_ltb_total x y : str_ltb x y = true \/ x = y \/ str_ltb y x = true.
Proof.
  unfold str_ltb. destruct (decide (x = y)) as [->|Hne]; [auto|].
  rewrite (proj2 (str_eqb_neq x y)), (proj2 (str_eqb_neq y x)), !andb_true_r by done.
  destruct (str_leb_total x y); auto.
Qed.

Lemma prefix_leb_total a b : prefix_leb a b = true \/ prefix_leb b a = true.
Proof. apply list_leb_total; [apply str_eqb_eq|apply str_ltb_irrefl|apply str_ltb_total]. Qed.
Lemma prefix_leb_trans a b c : prefix_leb a b = true -> prefix_leb b c = true -> prefix_leb a c = true.
Proof. apply list_leb_trans; [apply str_eqb_eq|apply str_ltb_trans]. Qed.
Lemma prefix_leb_antisym a b : prefix_leb a b = true -> prefix_leb b a = true -> a = b.
Proof. apply list_leb_antisym; [apply str_eqb_eq|apply str_ltb_irrefl|apply str_ltb_trans]. Qed.

(** ** Sorting and removing duplicates *)

Definition prefix_le (a b : list str) : Prop := prefix_leb a b = true.
Definition prefix_lt (a b : list str) : Prop := prefix_leb a b = true /\ a <> b.

Lemma insert_sorted_elem x y l : y ∈ insert_sorted x l <-> y = x \/ y ∈ l.
Proof.
  induction l as [|z l IH]; simpl; [set_solver|]. case_match; [set_solver|].
  rewrite !elem_of_cons, IH. naive_solver.
Qed.

Lemma sort_prefixes_elem l y : y ∈ sort_prefixes l <-> y ∈ l.
Proof.
  induction l as [|x l IH]; simpl; [done|]. fold (sort_prefixes l).
  by rewrite insert_sorted_elem, IH, elem_of_cons.
Qed.

Lemma insert_sorted_sorted x l : StronglySorted prefix_le l -> StronglySorted prefix_le (insert_sorted x l).
Proof.
  induction 1 as [|y l Hs IH Hall]; simpl; [by repeat constructor|]. destruct (prefix_leb x y) eqn:E.
  - constructor; [by constructor|]. constructor; [done|].
    eapply Forall_impl; [exact Hall|]. intros z. by apply prefix_leb_trans.
  - constructor; [done|]. apply Forall_forall. intros z [->|Hz]%insert_sorted_elem.
    + destruct (prefix_leb_total x y); [congruence|done].
    + rewrite Forall_forall in Hall. auto.
Qed.

Lemma sort_prefixes_sorted l : StronglySorted prefix_le (sort_prefixes l).
Proof. induction l as [|x l IH]; simpl; [constructor|]. by apply insert_sorted_sorted. Qed.

Lemma dedup_cons x y l :
  dedup (x :: y :: l) = if bool_decide (x = y) then dedup (y :: l) else x :: dedup (y :: l).
Proof. reflexivity. Qed.

Lemma dedup_elem l y : y ∈ dedup l <-> y ∈ l.
Proof.
  induction l as [|x [|z l] IH]; [done|done|]. rewrite dedup_cons, (elem_of_cons (z :: l)).
  case_bool_decide as Hxz.
  - subst. rewrite IH, elem_of_cons. naive_solver.
  - rewrite (elem_of_cons (dedup (z :: l))), IH. done.
Qed.

Lemma dedup_sorted l : StronglySorted prefix_le l -> StronglySorted prefix_lt (dedup l).
Proof.
  induction 1 as [|x l Hs IH Hall]; [constructor|]. destruct l as [|z l]; [by repeat constructor|].
  rewrite dedup_cons. case_bool_decide as Hxz; [done|]. constructor; [done|].
  apply Forall_forall. intros y Hy. apply (proj1 (dedup_elem _ _)) in Hy. rewrite Forall_forall in Hall. split; [exact (Hall y Hy)|].
  intros <-. apply Hxz. pose proof (Hall z (list_elem_of_here z l)) as Hz0.
  apply prefix_leb_antisym; [done|]. apply elem_of_cons in Hy as [Hy|Hy]; [done|]. inversion Hs as [|? ? ? Hz]; subst.
  rewrite Forall_forall in Hz. exact (Hz _ Hy).
Qed.

Lemma policy_rule_list p r : policy_rule p r <-> r ∈ mjoin (map_to_list (rules_by_program p)).*2.
Proof.
  unfold policy_rule. rewrite list_elem_of_join. split.
  - intros (k & rs & Hk & Hr). exists rs. split; [done|]. apply list_elem_of_fmap. exists (k, rs).
    split; [done|]. by apply elem_of_map_to_list.
  - intros (rs & Hr & ([k rs'] & -> & Hk)%list_elem_of_fmap). apply elem_of_map_to_list in Hk.
    by exists k, rs'.
Qed.

(** The allowed prefixes are exactly the rendered patterns of the rules that
    allow, in strictly increasing order, so without duplicates. *)
Theorem get_allowed_prefixes_spec p :
  StronglySorted prefix_lt (get_allowed_prefixes p) /\
  forall x, x ∈ get_allowed_prefixes p <->
    exists r, policy_rule p r /\ decision r = Allow /\
      x = first (pattern r) :: map render_pattern_token (rest (pattern r)).
Proof.
  unfold get_allowed_prefixes. split; [apply dedup_sorted, sort_prefixes_sorted|].
  intros x. rewrite dedup_elem, sort_prefixes_elem, list_elem_of_omap. unfold rule_prefix.
  setoid_rewrite <- policy_rule_list. split.
  - intros (r & Hr & Hx). case_decide; simplify_eq. by exists r.
  - intros (r & Hr & Hd & ->). exists r. by rewrite decide_True.
Qed.

(** ** Examples *)

Definition rule_of (f : str) (ts : list PatternToken) (d : Decision) : PrefixRule :=
  {| pattern := {| first := f; rest := ts |}; decision := d; justification := None |}.

Definition git_rules : list PrefixRule :=
  [rule_of &"git" [Alts [&"push"; &"fetch"]] Prompt; rule_of &"git" [Single &"push"; Single &"--force"] Forbidden].
Definition demo_policy : Policy := new_policy {[ &"git" := git_rules ]}.
Definition overlay_policy : Policy := new_policy {[ &"git" := [rule_of &"git" [] Allow] ]}.

Lemma demo_policy_wf : policy_wf demo_policy.
Proof.
  unfold policy_wf, demo_policy, new_policy, from_parts. cbn [rules_by_program].
  intros k rs r [<- <-]%lookup_singleton_Some. unfold git_rules. rewrite !elem_of_cons, elem_of_nil.
  by intros [-> |[-> |[]]].
Qed.

Lemma overlay_policy_wf : policy_wf overlay_policy.
Proof.
  unfold policy_wf, overlay_policy, new_policy, from_parts. cbn [rules_by_program].
  intros k rs r [<- <-]%lookup_singleton_Some. by intros ->%list_elem_of_singleton.
Qed.

#[local] Instance demo_env : ProcessEnv := {| home_dir := None; env_current_dir := Some &"/w" |}.

Lemma forbidden_rule_wins_witness :
  exists e, check_multiple_with_options demo_policy [[&"ls"]; [&"git"; &"push"; &"--force"; &"origin"]]
    (fun _ => Allow) default_options = Ok e /\ evaluated e = Forbidden.
Proof.
  apply (forbidden_rule_wins demo_policy [[&"ls"]; [&"git"; &"push"; &"--force"; &"origin"]] (fun _ => Allow)
    default_options [&"git"; &"push"; &"--force"; &"origin"]
    (rule_of &"git" [Single &"push"; Single &"--force"] Forbidden) [&"git"; &"push"; &"--force"]).
  - exact demo_policy_wf.
  - right. left.
  - exists &"git", git_rules. split; [vm_compute; reflexivity|]. right. left.
  - reflexivity.
  - exists [&"origin"]. reflexivity.
  - repeat constructor.
Defined.

Lemma allowed_only_if_all_allow_witness :
  exists e, check_multiple_with_options overlay_policy [[&"git"; &"status"]; [&"ls"]] (fun _ => Allow) default_options = Ok e /\
    evaluated e = Allow /\
    Forall (fun cmd => Forall (fun m => match_decision m = Allow)
      (matches_for_command_with_options overlay_policy cmd (Some (fun _ => Allow)) default_options) /\
      (matches_for_command_with_options overlay_policy cmd None default_options = [] -> Allow = Allow))
      [[&"git"; &"status"]; [&"ls"]].
Proof.
  destruct (check_multiple_with_options overlay_policy [[&"git"; &"status"]; [&"ls"]] (fun _ => Allow) default_options)
    as [e| | |] eqn:E; try (exfalso; vm_compute in E; discriminate E).
  assert (evaluated e = Allow) as Ha by (vm_compute in E; injection E as <-; reflexivity).
  exists e. split; [reflexivity|]. split; [exact Ha|].
  exact (allowed_only_if_all_allow overlay_policy _ (fun _ => Allow) default_options e E Ha).
Defined.

Lemma merge_overlay_monotone_witness :
  exists eb em, check_with_options demo_policy [&"git"; &"push"] (fun _ => Allow) default_options = Ok eb /\
    check_with_options (merge_overlay demo_policy overlay_policy) [&"git"; &"push"] (fun _ => Allow) default_options = Ok em /\
    length (matched_rules em) = 2 /\ Decision.rank (evaluated eb) <= Decision.rank (evaluated em).
Proof.
  destruct (check_with_options demo_policy [&"git"; &"push"] (fun _ => Allow) default_options) as [eb| | |] eqn:Eb;
    try (exfalso; vm_compute in Eb; discriminate Eb).
  destruct (check_with_options (merge_overlay demo_policy overlay_policy) [&"git"; &"push"] (fun _ => Allow) default_options)
    as [em| | |] eqn:Em; try (exfalso; vm_compute in Em; discriminate Em).
  exists eb, em. split; [reflexivity|]. split; [reflexivity|].
  split; [vm_compute in Em; injection Em as <-; reflexivity|].
  apply (merge_overlay_monotone demo_policy overlay_policy [&"git"; &"push"] (fun _ => Allow) default_options eb em
    demo_policy_wf overlay_policy_wf); [|exact Eb|exact Em].
  intros Hx. vm_compute in Hx. discriminate Hx.
Defined.

Lemma normalize_network_rule_host_wf_witness :
  normalize_network_rule_host &" API.Example.com.:443 " = Ok &"api.example.com" /\
  (&"api.example.com" <> [] /\ forallb host_char_ok &"api.example.com" = true).
Proof.
  split; [vm_compute; reflexivity|].
  apply (normalize_network_rule_host_wf &" API.Example.com.:443 "). vm_compute. reflexivity.
Defined.
