(* ===== verification/ExecPolicyParser.v ===== *)
(** * execpolicy: building a policy from a rules file

    [parser.rs] and the example validation of [rule.rs].  The Starlark
    interpreter is a parameter: for a file it gives the calls of the builtins it
    makes, in order; the builtins and the builder are modelled. *)
From S2P Require Import Prelude RustStr RustPath AbsolutePath ExecPolicy.

(** ** Parameters *)

(** Starlark values as the builtins see them. *)
Inductive Value := VStr (s : str) | VList (items : list Value) | VOther (type_name : str).

Definition get_type (v : Value) : str :=
  match v with VStr _ => &"string" | VList _ => &"list" | VOther t => t end.
Definition unpack_str (v : Value) : option str :=
  match v with VStr s => Some s | _ => None end.

(** A call of a builtin with its arguments and the location of the call. *)
Inductive Call :=
| CallPrefixRule (pattern : list Value) (decision : option str) (matches not_match : option (list Value))
    (justification : option str) (span : option ErrorLocation)
| CallNetworkRule (host protocol decision : str) (justification : option str) (span : option ErrorLocation)
| CallHostExecutable (name : str) (paths : list Value) (span : option ErrorLocation).

Definition call_span (c : Call) : option ErrorLocation :=
  match c with
  | CallPrefixRule _ _ _ _ _ span | CallNetworkRule _ _ _ _ span | CallHostExecutable _ _ span => span
  end.

(** Parsing a module, then the calls that evaluating it makes and the error of
    the interpreter itself, if any.  All builtins return [None], so the calls do
    not depend on their results. *)
Class StarlarkInterp := {
  starlark_run : str -> str -> (str * option ErrorLocation) +
                              list Call * option (str * option ErrorLocation)
}.

(** The [shlex] crate and the derived [Debug] texts, used in messages. *)
Class Rendering := {
  shlex_split : str -> option (list str);
  shlex_try_join : list str -> option str;
  debug_rule : PrefixRule -> str;
  debug_match : RuleMatch -> str
}.

Section parser.
Context {env : ProcessEnv} {rendering : Rendering}.

(** ** Example validation (rule.rs) *)

Definition example_options : MatchOptions := {| resolve_host_executables := true |}.

Definition render_example (example : list str) : str :=
  default &"unable to render example" (shlex_try_join example).

Definition example_matches (p : Policy) (example : list str) : list RuleMatch :=
  matches_for_command_with_options p example None example_options.

Fixpoint unmatched (p : Policy) (examples : list (list str)) : list str :=
  match examples with
  | [] => []
  | e :: es =>
      match example_matches p e with
      | [] => render_example e :: unmatched p es
      | _ => unmatched p es
      end
  end.

Definition validate_match_examples (p : Policy) (rules : list PrefixRule)
  (matches : list (list str)) : comp Error unit :=
  match unmatched p matches with
  | [] => Ok tt
  | unmatched_examples => Err (ExampleDidNotMatch (map debug_rule rules) unmatched_examples None)
  end.

Fixpoint validate_not_match_examples (p : Policy) (not_matches : list (list str)) : comp Error unit :=
  match not_matches with
  | [] => Ok tt
  | e :: es =>
      match example_matches p e with
      | rule :: _ => Err (ExampleDidMatch (debug_match rule) (render_example e) None)
      | [] => validate_not_match_examples p es
      end
  end.

(** ** The builder *)

Record PendingExampleValidation := {
  pending_rules : list PrefixRule;
  pending_matches : list (list str);
  pending_not_matches : list (list str);
  pending_location : option ErrorLocation
}.

Record PolicyBuilder := {
  b_rules_by_program : gmap str (list PrefixRule);
  b_network_rules : list NetworkRule;
  b_host_executables_by_name : gmap str (list str);
  pending_example_validations : list PendingExampleValidation
}.

Definition new_builder : PolicyBuilder :=
  {| b_rules_by_program := ∅; b_network_rules := []; b_host_executables_by_name := ∅;
     pending_example_validations := [] |}.

Definition add_rule (b : PolicyBuilder) (r : PrefixRule) : PolicyBuilder :=
  {| b_rules_by_program := multi_insert (program r) r (b_rules_by_program b);
     b_network_rules := b_network_rules b; b_host_executables_by_name := b_host_executables_by_name b;
     pending_example_validations := pending_example_validations b |}.

Definition builder_add_network_rule (b : PolicyBuilder) (r : NetworkRule) : PolicyBuilder :=
  {| b_rules_by_program := b_rules_by_program b; b_network_rules := b_network_rules b ++ [r];
     b_host_executables_by_name := b_host_executables_by_name b;
     pending_example_validations := pending_example_validations b |}.

Definition add_host_executable (b : PolicyBuilder) (name : str) (paths : list str) : PolicyBuilder :=
  {| b_rules_by_program := b_rules_by_program b; b_network_rules := b_network_rules b;
     b_host_executables_by_name := <[name := paths]> (b_host_executables_by_name b);
     pending_example_validations := pending_example_validations b |}.

Definition add_pending_example_validation (b : PolicyBuilder) (v : PendingExampleValidation) : PolicyBuilder :=
  {| b_rules_by_program := b_rules_by_program b; b_network_rules := b_network_rules b;
     b_host_executables_by_name := b_host_executables_by_name b;
     pending_example_validations := pending_example_validations b ++ [v] |}.

Definition attach_validation_location (e : Error) (location : option ErrorLocation) : Error :=
  match location with Some location => with_location e location | None => e end.

(** The policy an example is checked against: the rules of its own call, with
    all host executables known so far. *)
Definition validation_policy (b : PolicyBuilder) (v : PendingExampleValidation) : Policy :=
  from_parts (foldl (fun m r => multi_insert (program r) r m) ∅ (pending_rules v)) []
    (b_host_executables_by_name b).

Fixpoint validate_each (b : PolicyBuilder) (vs : list PendingExampleValidation) : comp Error unit :=
  match vs with
  | [] => Ok tt
  | v :: vs =>
      let p := validation_policy b v in
      let? _ := comp_map_err (fun e => attach_validation_location e (pending_location v))
                  (validate_not_match_examples p (pending_not_matches v)) in
      let? _ := comp_map_err (fun e => attach_validation_location e (pending_location v))
                  (validate_match_examples p (pending_rules v) (pending_matches v)) in
      validate_each b vs
  end.

Definition validate_pending_examples_from (b : PolicyBuilder) (start : nat) : comp Error unit :=
  let? vs := slice_from start (pending_example_validations b) in
  validate_each b vs.

Definition build (b : PolicyBuilder) : Policy :=
  from_parts (b_rules_by_program b) (b_network_rules b) (b_host_executables_by_name b).

(** ** Arguments of the builtins *)

(** [collect] into a [Result]: the first error wins. *)
Fixpoint collect {A B} (f : A -> comp Error B) (l : list A) : comp Error (list B) :=
  match l with
  | [] => Ok []
  | x :: l => let? y := f x in let? ys := collect f l in Ok (y :: ys)
  end.

Definition pattern_alternative (value : Value) : comp Error str :=
  match unpack_str value with
  | Some s => Ok s
  | None => Err (InvalidPattern (&"pattern alternative must be a string (got " ++ get_type value ++ &")"))
  end.

Definition parse_pattern_token (value : Value) : comp Error PatternToken :=
  match value with
  | VStr s => Ok (Single s)
  | VList items =>
      let? tokens := collect pattern_alternative items in
      match tokens with
      | [] => Err (InvalidPattern &"pattern alternatives cannot be empty")
      | [single] => Ok (Single single)
      | _ => Ok (Alts tokens)
      end
  | VOther _ =>
      Err (InvalidPattern (&"pattern element must be a string or list of strings (got " ++ get_type value ++ &")"))
  end.

Definition parse_pattern (items : list Value) : comp Error (list PatternToken) :=
  let? tokens := collect parse_pattern_token items in
  match tokens with
  | [] => Err (InvalidPattern &"pattern cannot be empty")
  | _ => Ok tokens
  end.

Definition parse_string_example (raw : str) : comp Error (list str) :=
  match shlex_split raw with
  | None => Err (InvalidExample &"example string has invalid shell syntax")
  | Some [] => Err (InvalidExample &"example cannot be an empty string")
  | Some tokens => Ok tokens
  end.

Definition example_token (value : Value) : comp Error str :=
  match unpack_str value with
  | Some s => Ok s
  | None => Err (InvalidExample (&"example tokens must be strings (got " ++ get_type value ++ &")"))
  end.

Definition parse_list_example (items : list Value) : comp Error (list str) :=
  let? tokens := collect example_token items in
  match tokens with
  | [] => Err (InvalidExample &"example cannot be an empty list")
  | _ => Ok tokens
  end.

Definition parse_example (value : Value) : comp Error (list str) :=
  match value with
  | VStr raw => parse_string_example raw
  | VList items => parse_list_example items
  | VOther _ =>
      Err (InvalidExample (&"example must be a string or list of strings (got " ++ get_type value ++ &")"))
  end.

Definition parse_examples (examples : list Value) : comp Error (list (list str)) :=
  collect parse_example examples.

Definition parse_literal_absolute_path (raw : str) : comp Error str :=
  if is_absolute raw then
    match from_absolute_path raw with
    | Some path => Ok path
    | None => Err (InvalidRule (&"invalid absolute path `" ++ raw ++ &"`: ")) (* never *)
    end
  else Err (InvalidRule (&"host_executable paths must be absolute (got " ++ raw ++ &")")).

Definition validate_host_executable_name (name : str) : comp Error unit :=
  if str_eqb name [] then Err (InvalidRule &"host_executable name cannot be empty")
  else if negb (length (components name) =? 1) || negb (bool_decide (file_name name = Some name))
  then Err (InvalidRule (&"host_executable name must be a bare executable name (got " ++ name ++ &")"))
  else Ok tt.

Definition parse_network_rule_decision (raw : str) : comp Error Decision :=
  if str_eqb raw &"deny" then Ok Forbidden else Decision.parse raw.

Definition parse_justification (j : option str) : comp Error (option str) :=
  if blank j then Err (InvalidRule &"justification cannot be empty") else Ok j.

(** ** Builtins *)

Definition prefix_rule (pattern : list Value) (d : option str) (matches not_match : option (list Value))
  (j : option str) (span : option ErrorLocation) (b : PolicyBuilder) : comp Error PolicyBuilder :=
  let? d := match d with Some raw => Decision.parse raw | None => Ok Allow end in
  let? j := parse_justification j in
  let? pattern_tokens := parse_pattern pattern in
  let? matches := match matches with Some m => parse_examples m | None => Ok [] end in
  let? not_matches := match not_match with Some m => parse_examples m | None => Ok [] end in
  let location := option_map shift_location span in
  match pattern_tokens with
  | [] => Err (InvalidPattern &"pattern cannot be empty")
  | first_token :: remaining_tokens =>
      let rules := map (fun head =>
        {| ExecPolicy.pattern := {| first := head; rest := remaining_tokens |};
           decision := d; justification := j |}) (alternatives first_token) in
      let b := add_pending_example_validation b
        {| pending_rules := rules; pending_matches := matches; pending_not_matches := not_matches;
           pending_location := location |} in
      Ok (foldl add_rule b rules)
  end.

Definition network_rule (h proto d : str) (j : option str) (b : PolicyBuilder) : comp Error PolicyBuilder :=
  let? proto := Protocol.parse proto in
  let? d := parse_network_rule_decision d in
  let? j := parse_justification j in
  let? h := normalize_network_rule_host h in
  Ok (builder_add_network_rule b
    {| host := h; protocol := proto; network_decision := d; network_justification := j |}).

Fixpoint host_paths_loop (name : str) (paths : list Value) (parsed_paths : list str) : comp Error (list str) :=
  match paths with
  | [] => Ok parsed_paths
  | value :: paths =>
      match unpack_str value with
      | None => Err (InvalidRule (&"host_executable paths must be strings (got " ++ get_type value ++ &")"))
      | Some raw =>
          let? path := parse_literal_absolute_path raw in
          let bad := Err (InvalidRule (&"host_executable path `" ++ raw ++ &"` must have basename `" ++ name ++ &"`")) in
          match executable_path_lookup_key path with
          | None => bad
          | Some path_name =>
              if negb (str_eqb path_name (executable_lookup_key name)) then bad
              else host_paths_loop name paths
                (if existsb (fun existing => str_eqb existing path) parsed_paths
                 then parsed_paths else parsed_paths ++ [path])
          end
      end
  end.

Definition host_executable (name : str) (paths : list Value) (b : PolicyBuilder) : comp Error PolicyBuilder :=
  let? _ := validate_host_executable_name name in
  let? parsed_paths := host_paths_loop name paths [] in
  Ok (add_host_executable b (executable_lookup_key name) parsed_paths).

Definition run_call (c : Call) (b : PolicyBuilder) : comp Error PolicyBuilder :=
  match c with
  | CallPrefixRule pattern d matches not_match j span => prefix_rule pattern d matches not_match j span b
  | CallNetworkRule h proto d j _ => network_rule h proto d j b
  | CallHostExecutable name paths _ => host_executable name paths b
  end.

(** The calls of a module: an error of a builtin stops the evaluation and leaves
    the effects of the calls before it in the builder. *)
Fixpoint run_calls (calls : list Call) (b : PolicyBuilder) : comp Error unit * PolicyBuilder :=
  match calls with
  | [] => (Ok tt, b)
  | c :: calls =>
      match run_call c b with
      | Ok b' => run_calls calls b'
      | Err e => (Err (StarlarkNative e (call_span c)), b)
      | Panic => (Panic, b)
      | Loop => (Loop, b)
      end
  end.

Context {starlark : StarlarkInterp}.

(** [PolicyParser::parse]: the result and the builder it leaves. *)
Definition parse (policy_identifier policy_file_contents : str) (b : PolicyBuilder)
  : comp Error unit * PolicyBuilder :=
  let pending_validation_count := length (pending_example_validations b) in
  match starlark_run policy_identifier policy_file_contents with
  | inl (message, span) => (Err (Starlark message span), b)
  | inr (calls, failure) =>
      match run_calls calls b with
      | (Ok _, b') =>
          match failure with
          | Some (message, span) => (Err (Starlark message span), b')
          | None => (validate_pending_examples_from b' pending_validation_count, b')
          end
      | r => r
      end
  end.

(** ** Totality *)

Lemma collect_returns {A B} (f : A -> comp Error B) l :
  (forall x, returns (f x)) -> returns (collect f l).
Proof.
  intros Hf. induction l as [|x l IH]; simpl; [done|].
  apply returns_bind; [done|]. intros y _. by apply returns_bind.
Qed.

Lemma parse_decision_returns raw : returns (Decision.parse raw).
Proof. unfold Decision.parse. by repeat case_match. Qed.

Lemma parse_protocol_returns raw : returns (Protocol.parse raw).
Proof. unfold Protocol.parse. by repeat case_match. Qed.

Lemma parse_pattern_returns items : returns (parse_pattern items).
Proof.
  apply returns_bind; [|by intros []]. apply collect_returns. intros [s|vs|t]; simpl; [done| |done].
  apply returns_bind; [|by intros [|? []]]. apply collect_returns.
  intros v. unfold pattern_alternative. by case_match.
Qed.

Lemma parse_examples_returns l : returns (parse_examples l).
Proof.
  apply collect_returns. intros [s|vs|t]; simpl; [unfold parse_string_example; by repeat case_match| |done].
  apply returns_bind; [|by intros []]. apply collect_returns. intros v. unfold example_token. by case_match.
Qed.

Lemma parse_justification_returns j : returns (parse_justification j).
Proof. unfold parse_justification. by case_match. Qed.

Lemma normalize_host_returns raw : returns (normalize_network_rule_host raw).
Proof.
  unfold normalize_network_rule_host. case_match; [done|]. case_match; [done|].
  apply returns_bind; [unfold strip_port; by repeat case_match|]. intros h _. by repeat case_match.
Qed.

Lemma host_paths_returns name paths acc : returns (host_paths_loop name paths acc).
Proof.
  revert acc. induction paths as [|v paths IH]; intros acc; simpl; [done|]. case_match; [|done].
  apply returns_bind; [unfold parse_literal_absolute_path; by repeat case_match|].
  intros p _. case_match; [|done]. by case_match.
Qed.

Lemma run_call_returns c b : returns (run_call c b).
Proof.
  destruct c as [pat d ms ns j sp|h pr d j sp|name paths sp]; simpl.
  - apply returns_bind; [destruct d; [apply parse_decision_returns|done]|]. intros d' _.
    apply returns_bind; [apply parse_justification_returns|]. intros j' _.
    apply returns_bind; [apply parse_pattern_returns|]. intros toks _.
    apply returns_bind; [destruct ms; [apply parse_examples_returns|done]|]. intros ms' _.
    apply returns_bind; [destruct ns; [apply parse_examples_returns|done]|]. intros ns' _. by case_match.
  - apply returns_bind; [apply parse_protocol_returns|]. intros pr' _.
    apply returns_bind; [unfold parse_network_rule_decision; case_match; [done|apply parse_decision_returns]|].
    intros d' _. apply returns_bind; [apply parse_justification_returns|]. intros j' _.
    by apply returns_bind; [apply normalize_host_returns|].
  - apply returns_bind; [unfold validate_host_executable_name; by repeat case_match|]. intros _ _.
    by apply returns_bind; [apply host_paths_returns|].
Qed.

(** ** The builder invariant *)

Definition hosts_ok (name : str) (paths : list str) : Prop :=
  NoDup paths /\ Forall (fun p => normal_absolute p /\ file_name p = Some name) paths.

Definition builder_wf (b : PolicyBuilder) : Prop :=
  rules_wf (b_rules_by_program b) /\
  Forall (fun r => host r <> [] /\ forallb host_char_ok (host r) = true) (b_network_rules b) /\
  (forall name paths, b_host_executables_by_name b !! name = Some paths -> hosts_ok name paths) /\
  Forall (fun v => Forall (fun r => r ∈ default [] (b_rules_by_program b !! program r)) (pending_rules v))
    (pending_example_validations b).

Lemma add_rules_lookup rules b k :
  default [] (b_rules_by_program (foldl add_rule b rules) !! k) =
  default [] (b_rules_by_program b !! k) ++ filter (fun r => program r = k) rules.
Proof.
  revert b. induction rules as [|r rules IH]; intros b; [by rewrite app_nil_r|]. cbn [foldl].
  rewrite IH. cbn [add_rule b_rules_by_program]. rewrite multi_insert_lookup, filter_cons, <- (assoc_L (++)).
  by destruct (decide (program r = k)).
Qed.

Lemma add_rules_rest rules b :
  let b' := foldl add_rule b rules in
  b_network_rules b' = b_network_rules b /\
  b_host_executables_by_name b' = b_host_executables_by_name b /\
  pending_example_validations b' = pending_example_validations b.
Proof. revert b. induction rules as [|r rules IH]; intros b; [done|]. apply (IH (add_rule b r)). Qed.

Lemma add_rules_wf rules v b :
  pending_rules v = rules -> builder_wf b ->
  builder_wf (foldl add_rule (add_pending_example_validation b v) rules).
Proof.
  intros <- (Hr & Hn & Hh & Hp). set (b1 := add_pending_example_validation b v).
  destruct (add_rules_rest (pending_rules v) b1) as (En & Eh & Ep). unfold builder_wf.
  rewrite En, Eh, Ep. split_and!; [|done|done|].
  - rewrite rules_wf_default in Hr |- *. intros k r. rewrite add_rules_lookup.
    intros [?|[? _]%list_elem_of_filter]%elem_of_app; eauto.
  - simpl. apply Forall_app. split; [|apply Forall_singleton].
    + eapply Forall_impl; [exact Hp|]. intros w Hw. eapply Forall_impl; [exact Hw|].
      intros r Hr'. cbn beta in *. rewrite add_rules_lookup. apply elem_of_app. by left.
    + apply Forall_forall. intros r Hin. rewrite add_rules_lookup. apply elem_of_app. right.
      by apply list_elem_of_filter.
Qed.

Lemma host_paths_ok name paths acc l :
  host_paths_loop name paths acc = Ok l -> hosts_ok name acc -> hosts_ok name l.
Proof.
  revert acc. induction paths as [|v paths IH]; intros acc; simpl; [by intros [= ->]|].
  destruct (unpack_str v) as [raw|]; [|done]. intros (p & Hp & H)%comp_bind_Ok Hacc.
  destruct (executable_path_lookup_key p) as [pn|] eqn:Ek; [|done].
  destruct (str_eqb pn (executable_lookup_key name)) eqn:En; [|done]. simpl in H.
  apply (IH _ H). apply str_eqb_eq in En as ->. destruct Hacc as [Hnd Hall].
  destruct (existsb _ acc) eqn:Ex; [done|].
  assert (file_name p = Some name) as Hf.
  { unfold executable_path_lookup_key in Ek. by destruct (file_name p); simplify_eq/=. }
  split.
  - apply NoDup_app. split_and!; [done| |apply NoDup_singleton].
    intros x Hx ->%list_elem_of_singleton. rewrite <- not_true_iff_false in Ex. apply Ex.
    apply existsb_exists. exists p. rewrite str_eqb_refl. by rewrite <- list_elem_of_In.
  - apply Forall_app. split; [done|]. apply Forall_singleton. split; [|done].
    unfold parse_literal_absolute_path, from_absolute_path, absolutize in Hp.
    destruct (is_absolute raw) eqn:Ea; [|done]. rewrite expand_absolute, Ea in Hp by done.
    injection Hp as <-. by apply normalize_path_normal.
Qed.

Lemma run_call_wf c b b' : run_call c b = Ok b' -> builder_wf b -> builder_wf b'.
Proof.
  destruct c as [pat d ms ns j sp|h pr d j sp|name paths sp]; simpl; unfold prefix_rule, network_rule, host_executable.
  - intros (d' & _ & (j' & _ & (toks & _ & (ms' & _ & (ns' & _ & H)%comp_bind_Ok)%comp_bind_Ok)%comp_bind_Ok)%comp_bind_Ok)%comp_bind_Ok.
    destruct toks as [|t ts]; [done|]. injection H as <-. by apply add_rules_wf.
  - intros (p' & _ & (d' & _ & (j' & _ & (h' & Hh & H)%comp_bind_Ok)%comp_bind_Ok)%comp_bind_Ok)%comp_bind_Ok.
    injection H as <-. intros (? & Hn & ? & ?). unfold builder_wf. simpl. split_and!; try done.
    apply Forall_app. split; [done|]. apply Forall_singleton. by apply normalize_host_ok in Hh.
  - intros (? & _ & (l & Hl & H)%comp_bind_Ok)%comp_bind_Ok. injection H as <-.
    intros (? & ? & Hh & ?). unfold builder_wf. simpl. split_and!; try done.
    intros n ps. destruct (decide (n = name)) as [->|Hne].
    + rewrite lookup_insert_eq. intros [= <-]. eapply host_paths_ok; [exact Hl|].
      split; [apply NoDup_nil_2|constructor].
    + rewrite lookup_insert_ne by done. apply Hh.
Qed.

Lemma run_calls_wf calls b : builder_wf b -> returns (run_calls calls b).1 /\ builder_wf (run_calls calls b).2.
Proof.
  revert b. induction calls as [|c calls IH]; intros b Hb; [done|]. simpl.
  pose proof (run_call_returns c b) as Hr. destruct (run_call c b) as [b'|e| |] eqn:E; try done.
  apply IH. by eapply run_call_wf.
Qed.

Lemma run_call_pending c b b' :
  run_call c b = Ok b' -> exists vs, pending_example_validations b' = pending_example_validations b ++ vs.
Proof.
  destruct c as [pat d ms ns j sp|h pr d j sp|name paths sp]; simpl; unfold prefix_rule, network_rule, host_executable;
    intros H; repeat (apply comp_bind_Ok in H as (? & _ & H)).
  - case_match; [done|]. injection H as <-. destruct (add_rules_rest
      (map (fun head => {| pattern := {| first := head; rest := l |}; decision := x; justification := x0 |}) (alternatives p))
      (add_pending_example_validation b {| pending_rules := map (fun head => {| pattern := {| first := head; rest := l |};
         decision := x; justification := x0 |}) (alternatives p); pending_matches := x2;
         pending_not_matches := x3; pending_location := option_map shift_location sp |})) as (_ & _ & ->).
    by eexists.
  - injection H as <-. exists []. by rewrite app_nil_r.
  - injection H as <-. exists []. by rewrite app_nil_r.
Qed.

Lemma run_calls_pending calls b :
  exists vs, pending_example_validations (run_calls calls b).2 = pending_example_validations b ++ vs.
Proof.
  revert b. induction calls as [|c calls IH]; intros b; simpl; [exists []; by rewrite app_nil_r|].
  destruct (run_call c b) as [b'|e| |] eqn:E; try (exists []; by rewrite app_nil_r).
  apply run_call_pending in E as [vs Hvs]. destruct (IH b') as [ws ->]. rewrite Hvs.
  exists (vs ++ ws). by rewrite (assoc_L (++)).
Qed.

(** ** Examples *)

Definition examples_hold (p : Policy) (v : PendingExampleValidation) : Prop :=
  Forall (fun e => example_matches p e <> []) (pending_matches v) /\
  Forall (fun e => example_matches p e = []) (pending_not_matches v).

Lemma unmatched_nil p es : unmatched p es = [] -> Forall (fun e => example_matches p e <> []) es.
Proof.
  induction es as [|e es IH]; simpl; [constructor|]. case_match eqn:E; [done|]. intros Hu.
  constructor; [by rewrite E|auto].
Qed.

Lemma validate_not_ok p es : validate_not_match_examples p es = Ok tt -> Forall (fun e => example_matches p e = []) es.
Proof. induction es as [|e es IH]; simpl; [constructor|]. case_match eqn:E; [|done]. constructor; auto. Qed.

Lemma validate_each_ok b vs :
  validate_each b vs = Ok tt -> Forall (fun v => examples_hold (validation_policy b v) v) vs.
Proof.
  induction vs as [|v vs IH]; simpl; [constructor|].
  intros ([] & Hn & ([] & Hm & H)%comp_bind_Ok)%comp_bind_Ok. constructor; [|auto]. split.
  - unfold validate_match_examples in Hm. destruct (unmatched _ _) eqn:E; [|done]. by apply unmatched_nil.
  - apply validate_not_ok. by destruct (validate_not_match_examples _ _) as [[]| | |].
Qed.

Lemma validate_each_returns b vs : returns (validate_each b vs).
Proof.
  assert (forall p es, returns (validate_not_match_examples p es)) as Hn.
  { intros p es. induction es; simpl; [done|]. by case_match. }
  induction vs as [|v vs IH]; simpl; [done|]. apply returns_bind.
  - pose proof (Hn (validation_policy b v) (pending_not_matches v)). by destruct (validate_not_match_examples _ _).
  - intros _ _. apply returns_bind; [|done]. unfold validate_match_examples. by destruct (unmatched _ _).
Qed.

Lemma example_matches_nonempty p e :
  example_matches p e <> [] <->
  default [] (match_exact_rules p e) <> [] \/ match_host_executable_rules p e <> [].
Proof.
  unfold example_matches, matches_for_command_with_options. simpl.
  destruct (match_exact_rules p e) as [[|m ms]|]; simpl; try naive_solver;
    destruct (match_host_executable_rules p e); simpl; naive_solver.
Qed.

Lemma omap_nonempty_mono {A B} (f : A -> option B) l l' :
  (forall x, x ∈ l -> x ∈ l') -> omap f l <> [] -> omap f l' <> [].
Proof.
  intros Hl Hne Hnil. destruct (omap f l) as [|y ys] eqn:E; [done|].
  assert (y ∈ omap f l) as (x & Hx & Hy)%list_elem_of_omap by (rewrite E; left).
  assert (y ∈ omap f l') as Hin by (apply list_elem_of_omap; eauto). rewrite Hnil in Hin.
  by apply not_elem_of_nil in Hin.
Qed.

(** More rules, with the same host executables, match at least as much. *)
Lemma example_matches_mono p q e :
  (forall k r, r ∈ default [] (rules_by_program p !! k) -> r ∈ default [] (rules_by_program q !! k)) ->
  host_executables_by_name p = host_executables_by_name q ->
  example_matches p e <> [] -> example_matches q e <> [].
Proof.
  intros Hr Hh. rewrite !example_matches_nonempty, !match_exact_eq. unfold match_host_executable_rules.
  destruct e as [|head tail]; [done|]. intros [He|He]; [left; exact (omap_nonempty_mono _ _ _ (Hr head) He)|right].
  destruct (from_absolute_path head) as [prog|]; [|done].
  destruct (executable_path_lookup_key prog) as [base|]; [|done]. specialize (Hr base). rewrite <- Hh.
  destruct (rules_by_program p !! base) as [rs|]; [|done]. simpl in Hr. case_match; [done|].
  assert (omap (rule_matches (base :: tail)) rs <> []) as Hne by (by intros Hx; rewrite Hx in He).
  apply (omap_nonempty_mono _ _ _ Hr) in Hne. destruct (rules_by_program q !! base) as [rs'|]; [|done].
  simpl in Hne. by destruct (omap _ rs').
Qed.

Lemma validation_policy_rules b v k r :
  r ∈ default [] (rules_by_program (validation_policy b v) !! k) -> r ∈ pending_rules v /\ program r = k.
Proof.
  unfold validation_policy. simpl.
  assert (forall rules m, default [] (foldl (fun m r => multi_insert (program r) r m) m rules !! k) =
    default [] (m !! k) ++ filter (fun r => program r = k) rules) as ->.
  { induction rules as [|x rules IH]; intros m; [by rewrite app_nil_r|]. simpl. rewrite IH, multi_insert_lookup, filter_cons.
    rewrite <- (assoc_L (++)). by destruct (decide (program x = k)). }
  rewrite lookup_empty. simpl. rewrite list_elem_of_filter. naive_solver.
Qed.

(** Parsing a rules file never panics and keeps the builder well formed, also
    when it fails: every rule is filed under its program, every network host is
    normalised, the paths of a host executable are distinct normalised absolute
    paths with that basename, and the rules of every pending example are in the
    builder. *)
Theorem parse_builder_wf id contents b :
  builder_wf b -> returns (parse id contents b).1 /\ builder_wf (parse id contents b).2.
Proof.
  intros Hb. unfold parse. destruct (starlark_run id contents) as [[m sp]|[calls failure]]; [done|].
  destruct (run_calls_wf calls b Hb) as [Hr Hw]. destruct (run_calls_pending calls b) as [vs Hvs].
  destruct (run_calls calls b) as [[[]|e| |] b'] eqn:E; try done.
  destruct failure as [[m sp]|]; [done|]. split; [|done]. simpl in *. unfold validate_pending_examples_from.
  rewrite slice_from_returns by (rewrite Hvs; solve_len). apply validate_each_returns.
Qed.

(** A rules file that was accepted means what its examples say: for every
    example of the file, a positive one is matched by the rules of its own call
    and by the policy that is finally built, and a negative one is not matched by
    the rules of its own call. *)
Theorem parse_examples_hold id contents b b' :
  builder_wf b -> parse id contents b = (Ok tt, b') ->
  exists vs, pending_example_validations b' = pending_example_validations b ++ vs /\
    Forall (fun v => examples_hold (validation_policy b' v) v /\
                     Forall (fun e => example_matches (build b') e <> []) (pending_matches v)) vs.
Proof.
  intros Hb. unfold parse. destruct (starlark_run id contents) as [[m sp]|[calls failure]]; [done|].
  destruct (run_calls_wf calls b Hb) as [_ Hw]. destruct (run_calls_pending calls b) as [vs Hvs].
  destruct (run_calls calls b) as [[[]|e| |] b1]; try done. destruct failure as [[m sp]|]; [done|].
  intros [= Hv <-]. simpl in *. exists vs. split; [done|]. unfold validate_pending_examples_from in Hv.
  rewrite slice_from_returns in Hv by (rewrite Hvs; solve_len). simpl in Hv. rewrite Hvs, drop_app_length in Hv.
  apply validate_each_ok in Hv. destruct Hw as (_ & _ & _ & Hp). rewrite Hvs in Hp. apply Forall_app in Hp as [_ Hp].
  rewrite Forall_forall in Hv, Hp |- *. intros v Hin. specialize (Hv v Hin). specialize (Hp v Hin). split; [done|].
  destruct Hv as [Hm _]. eapply Forall_impl; [exact Hm|]. intros e. apply example_matches_mono; [|done].
  intros k r [Hr <-]%validation_policy_rules. rewrite Forall_forall in Hp. by apply Hp.
Qed.

(** A successful [prefix_rule] call adds exactly its expansion: a command prefix
    is accepted by one of the rules it adds if and only if its tokens are
    accepted one by one by the pattern as written, alternatives of the first
    token included; all other rules stay. *)
Theorem prefix_rule_expansion pat d ms ns j sp b b' :
  builder_wf b -> prefix_rule pat d ms ns j sp b = Ok b' ->
  exists toks rules, parse_pattern pat = Ok toks /\ builder_wf b' /\
    (forall pre, Exists (fun r => pattern_accepts (pattern r) pre) rules <-> Forall2 token_accepts toks pre) /\
    (forall r, policy_rule (build b') r <-> policy_rule (build b) r \/ r ∈ rules).
Proof.
  intros Hb Hp. pose proof (run_call_wf (CallPrefixRule pat d ms ns j sp) b b' Hp Hb) as Hb'.
  unfold prefix_rule in Hp. apply comp_bind_Ok in Hp as (d' & _ & (j' & _ & (toks & Ht & H)%comp_bind_Ok)%comp_bind_Ok).
  apply comp_bind_Ok in H as (ms' & _ & (ns' & _ & H)%comp_bind_Ok). destruct toks as [|t ts]; [done|].
  injection H as <-. set (rules := map _ (alternatives t)) in *. exists (t :: ts), rules. split_and!; [done|done| |].
  - intros pre. rewrite Exists_exists. unfold rules, pattern_accepts. split.
    + intros (r & (h & -> & Hh)%list_elem_of_fmap & Hf). simpl in Hf. inversion Hf as [|? x ? ? Hx Hts]; subst.
      constructor; [|done]. by apply list_elem_of_singleton in Hx as ->.
    + inversion 1 as [|? x ? ? Hx Hts]; subst. eexists. split; [apply list_elem_of_fmap; exists x; split; [done|exact Hx]|].
      simpl. constructor; [by apply list_elem_of_singleton|done].
  - assert (forall q r, rules_wf (b_rules_by_program q) ->
      policy_rule (build q) r <-> r ∈ default [] (b_rules_by_program q !! program r)) as Hpr.
    { intros q r Hq. unfold policy_rule. split.
      - intros (k & rs & Hk & Hr). simpl in Hk. rewrite (Hq _ _ _ Hk Hr), Hk. done.
      - intros Hin. simpl. destruct (b_rules_by_program q !! program r) as [rs|] eqn:E; [by exists (program r), rs|].
        by apply not_elem_of_nil in Hin. }
    intros r. rewrite (Hpr b r), Hpr, add_rules_lookup by apply Hb || apply Hb'. simpl.
    rewrite elem_of_app, list_elem_of_filter. naive_solver.
Qed.
End parser.

(** ** Examples *)

#[local] Instance demo_env : ProcessEnv := {| home_dir := None; env_current_dir := Some &"/w" |}.
#[local] Instance demo_rendering : Rendering :=
  {| shlex_split s := Some (split_char 32%N s); shlex_try_join l := Some (join &" " l);
     debug_rule _ := []; debug_match _ := [] |}.

Definition demo_pattern : list Value := [VList [VStr &"git"; VStr &"hg"]; VStr &"log"].
Definition demo_calls : list Call :=
  [CallHostExecutable &"git" [VStr &"/usr/bin/git"] None;
   CallPrefixRule demo_pattern (Some &"allow")
     (Some [VStr &"git log -p"; VStr &"/usr/bin/git log"]) (Some [VStr &"git push"; VStr &"/tmp/git log"]) None None].
#[local] Instance demo_starlark : StarlarkInterp := {| starlark_run _ _ := inr (demo_calls, None) |}.

Lemma new_builder_wf : builder_wf new_builder.
Proof. unfold builder_wf, rules_wf. split_and!; [..|constructor]; set_solver. Qed.

Lemma parse_builder_wf_witness :
  builder_wf (parse &"default.rules" &"..." new_builder).2 /\
  b_host_executables_by_name (parse &"default.rules" &"..." new_builder).2 !! &"git" = Some [&"/usr/bin/git"].
Proof.
  split; [apply (parse_builder_wf &"default.rules" &"..." new_builder new_builder_wf)|vm_compute; reflexivity].
Defined.

Lemma parse_examples_hold_witness :
  exists b', parse &"default.rules" &"..." new_builder = (Ok tt, b') /\
    exists vs, pending_example_validations b' = vs /\ length vs = 1 /\
      Forall (fun v => Forall (fun e => example_matches (build b') e <> []) (pending_matches v)) vs.
Proof.
  destruct (parse &"default.rules" &"..." new_builder) as [[[]|e| |] b'] eqn:E;
    try (exfalso; vm_compute in E; discriminate E).
  exists b'. split; [reflexivity|].
  destruct (parse_examples_hold &"default.rules" &"..." new_builder b' new_builder_wf E) as (vs & Hvs & Hall).
  exists vs. split; [exact Hvs|]. split.
  - vm_compute in E. injection E as <-. rewrite <- (app_nil_l vs). simpl in Hvs. rewrite <- Hvs. reflexivity.
  - eapply Forall_impl; [exact Hall|]. intros v [_ Hv]. exact Hv.
Defined.

Lemma prefix_rule_expansion_witness :
  exists b' toks rules, prefix_rule demo_pattern None None None None None new_builder = Ok b' /\
    parse_pattern demo_pattern = Ok toks /\
    (forall pre, Exists (fun r => pattern_accepts (pattern r) pre) rules <-> Forall2 token_accepts toks pre) /\
    (forall r, policy_rule (build b') r <-> policy_rule (build new_builder) r \/ r ∈ rules).
Proof.
  destruct (prefix_rule demo_pattern None None None None None new_builder) as [b'| | |] eqn:E;
    try (exfalso; vm_compute in E; discriminate E).
  destruct (prefix_rule_expansion demo_pattern None None None None None new_builder b' new_builder_wf E)
    as (toks & rules & Ht & _ & Hp & Hr).
  exists b', toks, rules. split; [reflexivity|]. split; [exact Ht|]. split; [exact Hp|exact Hr].
Defined.
