(* ===== verification/ExecPolicyAmend.v ===== *)
(** * execpolicy/src/amend.rs: appending rules to a policy file

    The sequential code over abstract file operations, and the concurrent
    behaviour of several processes that append to the same file under its
    advisory lock. *)
From S2P Require Import Prelude RustStr RustPath AbsolutePath ApplyPatch ExecPolicy.

(** ** Interfaces *)

(** The operations of [std::fs] on the policy file.  The descriptor is opened in
    append mode, so a write goes to the end of the file. *)
Class PolicyIo (W : Type) := {
  create_dir : str -> W -> (io_error + unit) * W;
  open_append : str -> W -> (io_error + unit) * W;
  lock_file : str -> W -> (io_error + unit) * W;
  seek_start : str -> W -> (io_error + unit) * W;
  read_to_string : str -> W -> (io_error + str) * W;
  write_all : str -> str -> W -> (io_error + unit) * W
}.

(** [serde_json::to_string] of a text. *)
Class JsonText := { json_to_string : str -> str + str }.

(** ** Data *)

Inductive AmendError :=
| EmptyPrefix
| InvalidNetworkRule (message : str)
| MissingParent (path : str)
| CreatePolicyDir (dir : str) (source : io_error)
| SerializePrefix (source : str)
| SerializeNetworkRule (source : str)
| OpenPolicyFile (path : str) (source : io_error)
| WritePolicyFile (path : str) (source : io_error)
| LockPolicyFile (path : str) (source : io_error)
| SeekPolicyFile (path : str) (source : io_error)
| ReadPolicyFile (path : str) (source : io_error)
| PolicyMetadata (path : str) (source : io_error).

Definition display_rule_error (e : Error) : str :=
  match e with
  | InvalidDecision m => &"invalid decision: " ++ m
  | InvalidPattern m => &"invalid pattern element: " ++ m
  | InvalidExample m => &"invalid example: " ++ m
  | InvalidRule m => &"invalid rule: " ++ m
  | _ => []
  end.

(** ** Operations *)

Section amend.
Context {W : Type} {io : PolicyIo W} {json : JsonText}.

Definition IO (A : Type) : Type := W -> (AmendError + A) * W.
Definition io_ret {A} (a : A) : IO A := fun w => (inr a, w).
Definition io_err {A} (e : AmendError) : IO A := fun w => (inl e, w).
Definition io_bind {A B} (c : IO A) (k : A -> IO B) : IO B := fun w =>
  match c w with
  | (inr a, w') => k a w'
  | (inl e, w') => (inl e, w')
  end.
(** [map_err(f)?] *)
Definition io_try {A} (f : io_error -> AmendError) (c : W -> (io_error + A) * W) : IO A := fun w =>
  match c w with
  | (inr a, w') => (inr a, w')
  | (inl e, w') => (inl (f e), w')
  end.

Notation "'io!' x := c 'in' k" := (io_bind c (fun x => k))
  (at level 200, x name, c at level 100, k at level 200, right associativity).

Definition has_line (contents line : str) : bool := existsb (fun existing => str_eqb existing line) (lines contents).
Definition needs_newline (contents : str) : bool := negb (str_eqb contents []) && negb (ends_with [nl] contents).

Definition append_locked_line (policy_path line : str) : IO unit :=
  io! _ := io_try (OpenPolicyFile policy_path) (open_append policy_path) in
  io! _ := io_try (LockPolicyFile policy_path) (lock_file policy_path) in
  io! _ := io_try (SeekPolicyFile policy_path) (seek_start policy_path) in
  io! contents := io_try (ReadPolicyFile policy_path) (read_to_string policy_path) in
  if has_line contents line then io_ret tt
  else
    io! _ := if needs_newline contents
             then io_try (WritePolicyFile policy_path) (write_all policy_path [nl])
             else io_ret tt in
    io! _ := io_try (WritePolicyFile policy_path) (write_all policy_path (line ++ [nl])) in
    io_ret tt.

Definition append_rule_line (policy_path rule : str) : IO unit :=
  match parent policy_path with
  | None => io_err (MissingParent policy_path)
  | Some dir =>
      io! _ := (fun w =>
        match create_dir dir w with
        | (inr _, w') => (inr tt, w')
        | (inl source, w') =>
            if bool_decide (kind source = AlreadyExists) then (inr tt, w')
            else (inl (CreatePolicyDir dir source), w')
        end) in
      append_locked_line policy_path rule
  end.

Fixpoint json_all (l : list str) : str + list str :=
  match l with
  | [] => inr []
  | x :: l =>
      match json_to_string x with
      | inl e => inl e
      | inr y => match json_all l with inl e => inl e | inr ys => inr (y :: ys) end
      end
  end.

Definition dq : str := [34%N].

(** The text of a rule that allows a prefix. *)
Definition prefix_rule_text (tokens : list str) : str :=
  &"prefix_rule(pattern=" ++ (&"[" ++ join &", " tokens ++ &"]") ++ &", decision=" ++ dq ++ &"allow" ++ dq ++ &")".

Definition blocking_append_allow_prefix_rule (policy_path : str) (prefix : list str) : IO unit :=
  match prefix with
  | [] => io_err EmptyPrefix
  | _ =>
      match json_all prefix with
      | inl source => io_err (SerializePrefix source)
      | inr tokens => append_rule_line policy_path (prefix_rule_text tokens)
      end
  end.

Definition decision_text (d : Decision) : str :=
  match d with Allow => &"allow" | Prompt => &"prompt" | Forbidden => &"deny" end.

Definition json_field (x : str) : IO str :=
  match json_to_string x with inl e => io_err (SerializeNetworkRule e) | inr y => io_ret y end.

Definition blocking_append_network_rule (policy_path raw_host : str) (proto : NetworkRuleProtocol)
  (d : Decision) (j : option str) : IO unit :=
  match normalize_network_rule_host raw_host with
  | Ok h =>
      if blank j then io_err (InvalidNetworkRule &"justification cannot be empty")
      else
        io! h := json_field h in
        io! p := json_field (as_policy_string proto) in
        io! dt := json_field (decision_text d) in
        let args := [&"host=" ++ h; &"protocol=" ++ p; &"decision=" ++ dt] in
        io! args := match j with
                    | Some j => io! j := json_field j in io_ret (args ++ [&"justification=" ++ j])
                    | None => io_ret args
                    end in
        append_rule_line policy_path (&"network_rule(" ++ join &", " args ++ &")")
  | Err e => io_err (InvalidNetworkRule (display_rule_error e))
  | Panic | Loop => io_err (InvalidNetworkRule []) (* never *)
  end.
End amend.

(** ** What appending does to the text *)

Definition append_line (contents line : str) : str :=
  if has_line contents line then contents
  else contents ++ (if needs_newline contents then [nl] else []) ++ line ++ [nl].

Lemma has_line_iff c l : has_line c l = true <-> l ∈ lines c.
Proof.
  unfold has_line. rewrite existsb_exists. setoid_rewrite str_eqb_eq. setoid_rewrite list_elem_of_In. naive_solver.
Qed.

Lemma split_nl_app_nl c s :
  split_nl (c ++ s) =
  match split_nl s with
  | (l :: ls, r) => ((split_nl c).1 ++ ((split_nl c).2 ++ l) :: ls, r)
  | ([], r) => ((split_nl c).1, (split_nl c).2 ++ r)
  end.
Proof.
  induction c as [|d c IH]; simpl; [by destruct (split_nl s) as [[]]|]. rewrite IH.
  destruct (split_nl c) as [cl cr']; simpl. destruct (split_nl s) as [[|l ls] r]; simpl;
    destruct (N.eqb_spec d nl) as [->|]; simpl; try done; destruct cl; simpl; done.
Qed.

Lemma split_nl_rest c : (split_nl c).2 = [] -> c = [] \/ ends_with [nl] c = true.
Proof.
  intros Hr. pose proof (split_nl_concat c) as Hc. rewrite Hr, app_nil_r in Hc.
  destruct ((split_nl c).1) as [|l ls _] using rev_ind; [by left|right].
  rewrite Hc, map_app, concat_app. simpl. rewrite app_nil_r, (assoc_L (++)).
  unfold ends_with. by rewrite strip_suffix_app.
Qed.

Lemma ends_with_nl_rest c : ends_with [nl] c = true -> (split_nl c).2 = [].
Proof.
  unfold ends_with. destruct (strip_suffix [nl] c) as [r|] eqn:E; [|done]. intros _.
  apply strip_suffix_Some in E as ->. rewrite split_nl_app_nl. done.
Qed.

(** The lines after an append: those before and the new one. *)
Lemma append_line_lines c l :
  line_ok l = true -> last c <> Some cr -> l ∉ lines c -> lines (append_line c l) = lines c ++ [l].
Proof.
  intros [Hs Hn]%line_ok_strip Hcr Hnew. unfold append_line.
  destruct (has_line c l) eqn:Eh; [by apply has_line_iff in Eh|]. unfold lines, needs_newline.
  assert (split_nl (l ++ [nl]) = ([l], [])) as Hl by (by rewrite split_nl_line).
  destruct (split_nl c) as [ls r] eqn:Ec. destruct r as [|x r].
  - assert (split_nl (c ++ [] ++ l ++ [nl]) = (ls ++ [l], [])) as Hsp.
    { simpl. rewrite split_nl_app_nl, Hl, Ec. done. }
    replace (negb (str_eqb c []) && negb (ends_with [nl] c)) with false.
    + rewrite Hsp. rewrite map_app. simpl. by rewrite Hs, !app_nil_r.
    + symmetry. destruct (split_nl_rest c) as [->| ->]; [by rewrite Ec|done|by rewrite andb_false_r].
  - assert (negb (str_eqb c []) && negb (ends_with [nl] c) = true) as ->.
    { apply andb_true_iff. rewrite !negb_true_iff, str_eqb_neq. split; [by intros ->|].
      apply not_true_is_false. intros H%ends_with_nl_rest. by rewrite Ec in H. }
    assert (split_nl ([nl] ++ l ++ [nl]) = ([[]; l], [])) as Hnl by (simpl; by rewrite Hl).
    rewrite split_nl_app_nl, Hnl, Ec. rewrite !map_app. simpl. rewrite !app_nil_r, Hs, <- (assoc_L (++)). simpl.
    assert (strip_cr (x :: r) = x :: r) as ->; [|done].
    unfold strip_cr. destruct (strip_suffix [cr] (x :: r)) as [y|] eqn:Ey; [|reflexivity].
    exfalso. apply Hcr. apply strip_suffix_Some in Ey. rewrite (split_nl_concat c), Ec. cbn [fst snd].
    rewrite Ey, (assoc_L (++)). apply last_snoc.
Qed.

(** ** The sequential code *)

(** [contents] is the text of a file, empty when it does not exist. *)
Class PolicyIoLaws (W : Type) {io : PolicyIo W} := {
  contents : str -> W -> str;
  create_dir_frame d w r w' p : create_dir d w = (r, w') -> contents p w' = contents p w;
  open_frame p w w' : open_append p w = (inr tt, w') -> contents p w' = contents p w;
  lock_frame p w w' : lock_file p w = (inr tt, w') -> contents p w' = contents p w;
  seek_frame p w w' : seek_start p w = (inr tt, w') -> contents p w' = contents p w;
  read_contents p w s w' : read_to_string p w = (inr s, w') -> s = contents p w /\ contents p w' = contents p w;
  write_appends p x w w' : write_all p x w = (inr tt, w') -> contents p w' = contents p w ++ x
}.

Section sequential.
Context {W : Type} {io : PolicyIo W} {laws : PolicyIoLaws W} {json : JsonText}.

Lemma io_bind_ok {A B} (c : IO A) (k : A -> IO B) (w w' : W) b :
  io_bind c k w = (inr b, w') -> exists a w1, c w = (inr a, w1) /\ k a w1 = (inr b, w').
Proof. unfold io_bind. destruct (c w) as [[e|a] w1]; [done|]. intros. by exists a, w1. Qed.

Lemma io_try_ok {A} f (c : W -> (io_error + A) * W) w a w' : io_try f c w = (inr a, w') -> c w = (inr a, w').
Proof. unfold io_try. destruct (c w) as [[e|x] w1]; intros; by simplify_eq. Qed.

Lemma append_locked_line_ok p l (w w' : W) :
  append_locked_line p l w = (inr tt, w') -> contents p w' = append_line (contents p w) l.
Proof.
  unfold append_locked_line. intros ([] & w1 & H1%io_try_ok%open_frame & Hk)%io_bind_ok.
  apply io_bind_ok in Hk as ([] & w2 & H2%io_try_ok%lock_frame & Hk).
  apply io_bind_ok in Hk as ([] & w3 & H3%io_try_ok%seek_frame & Hk).
  apply io_bind_ok in Hk as (c & w4 & [-> H4]%io_try_ok%read_contents & Hk).
  assert (contents p w4 = contents p w) as Hw by congruence. assert (contents p w3 = contents p w) as Hw3 by congruence.
  rewrite Hw3 in Hk. unfold append_line.
  destruct (has_line (contents p w) l); [injection Hk as <-; done|].
  apply io_bind_ok in Hk as ([] & w5 & H5 & Hk).
  apply io_bind_ok in Hk as ([] & w6 & H6%io_try_ok%write_appends & [= <-]).
  rewrite H6. destruct (needs_newline (contents p w)).
  - apply io_try_ok, write_appends in H5. by rewrite H5, Hw, <- !(assoc_L (++)).
  - injection H5 as <-. by rewrite Hw.
Qed.

Lemma append_rule_line_ok p l (w w' : W) :
  append_rule_line p l w = (inr tt, w') -> contents p w' = append_line (contents p w) l.
Proof.
  unfold append_rule_line. destruct (parent p) as [dir|]; [|done].
  intros ([] & w1 & H1 & Hk%append_locked_line_ok)%io_bind_ok. rewrite Hk. f_equal.
  destruct (create_dir dir w) as [r w2] eqn:Ec. apply (create_dir_frame _ _ _ _ p) in Ec.
  destruct r as [e|[]]; [case_bool_decide|]; by simplify_eq.
Qed.

(** A successful [blocking_append_allow_prefix_rule] adds the line of its rule to
    the policy file unless it is already there, after completing an unfinished
    last line, and changes nothing else of the text. *)
Theorem append_allow_prefix_rule_ok path prefix (w w' : W) :
  blocking_append_allow_prefix_rule path prefix w = (inr tt, w') ->
  exists tokens, prefix <> [] /\ json_all prefix = inr tokens /\
    contents path w' = append_line (contents path w) (prefix_rule_text tokens).
Proof.
  unfold blocking_append_allow_prefix_rule. destruct prefix as [|x xs]; [done|].
  destruct (json_all (x :: xs)) as [e|tokens] eqn:E; [done|]. intros Ha%append_rule_line_ok. by exists tokens.
Qed.
End sequential.

(** ** Concurrent appends *)

Inductive pc :=
| Idle
| Opened
| Locked
| HaveRead (contents : str)
| WroteNewline
| Finished.

(** The text of the file, the holder of its lock, and where each process is. *)
Record cstate := { file : str; holder : option nat; pcs : nat -> pc }.

Section concurrent.
(** The line each process appends. *)
Variable job : nat -> str.

Definition set_pc (i : nat) (c : pc) (f : nat -> pc) : nat -> pc :=
  fun j => if decide (j = i) then c else f j.

(** One step of process [i] of [append_locked_line]; the lock is released when
    the file is closed at the return. *)
Inductive step (i : nat) : cstate -> cstate -> Prop :=
| step_open f h q : q i = Idle ->
    step i {| file := f; holder := h; pcs := q |} {| file := f; holder := h; pcs := set_pc i Opened q |}
| step_lock f q : q i = Opened ->
    step i {| file := f; holder := None; pcs := q |} {| file := f; holder := Some i; pcs := set_pc i Locked q |}
| step_read f h q : q i = Locked ->
    step i {| file := f; holder := h; pcs := q |} {| file := f; holder := h; pcs := set_pc i (HaveRead f) q |}
| step_present f h q c : q i = HaveRead c -> has_line c (job i) = true ->
    step i {| file := f; holder := h; pcs := q |} {| file := f; holder := None; pcs := set_pc i Finished q |}
| step_newline f h q c : q i = HaveRead c -> has_line c (job i) = false -> needs_newline c = true ->
    step i {| file := f; holder := h; pcs := q |}
           {| file := f ++ [nl]; holder := h; pcs := set_pc i WroteNewline q |}
| step_line f h q c : q i = HaveRead c -> has_line c (job i) = false -> needs_newline c = false ->
    step i {| file := f; holder := h; pcs := q |}
           {| file := f ++ job i ++ [nl]; holder := None; pcs := set_pc i Finished q |}
| step_line_after f h q : q i = WroteNewline ->
    step i {| file := f; holder := h; pcs := q |}
           {| file := f ++ job i ++ [nl]; holder := None; pcs := set_pc i Finished q |}.

Inductive reachable (init : str) : cstate -> Prop :=
| reach_init : reachable init {| file := init; holder := None; pcs := fun _ => Idle |}
| reach_step s s' i : reachable init s -> step i s s' -> reachable init s'.

Definition critical (c : pc) : bool :=
  match c with Locked | HaveRead _ | WroteNewline => true | _ => false end.

(** The text when the processes of [log] appended one after the other. *)
Definition replayed (init : str) (log : list nat) : str := foldl append_line init (map job log).

(** What the holder of the lock knows. *)
Definition holder_ok (base : str) (s : cstate) (i : nat) : Prop :=
  match pcs s i with
  | Locked => file s = base
  | HaveRead c => c = base /\ file s = base
  | WroteNewline => file s = base ++ [nl] /\ has_line base (job i) = false /\ needs_newline base = true
  | _ => False
  end.

Definition lock_inv (init : str) (s : cstate) : Prop :=
  exists log, NoDup log /\ (forall i, i ∈ log <-> pcs s i = Finished) /\
    (forall i, critical (pcs s i) = true -> holder s = Some i) /\
    match holder s with
    | None => file s = replayed init log
    | Some i => holder_ok (replayed init log) s i
    end.

Lemma set_pc_eq i c q : set_pc i c q i = c.
Proof. unfold set_pc. by rewrite decide_True. Qed.
Lemma set_pc_ne i j c q : j <> i -> set_pc i c q j = q j.
Proof. intros. unfold set_pc. by rewrite decide_False. Qed.

Lemma replayed_snoc init log i : replayed init (log ++ [i]) = append_line (replayed init log) (job i).
Proof. unfold replayed. by rewrite map_app, foldl_app. Qed.

(** The holder finishes: its process is logged and the lock is free. *)
Lemma lock_inv_finish init f h q i log :
  NoDup log -> (forall j, j ∈ log <-> q j = Finished) ->
  (forall j, critical (q j) = true -> h = Some j) -> critical (q i) = true ->
  f = append_line (replayed init log) (job i) ->
  lock_inv init {| file := f; holder := None; pcs := set_pc i Finished q |}.
Proof.
  intros Hnd Hlog Hcrit Hi ->. exists (log ++ [i]). simpl. split_and!.
  - apply NoDup_app. split_and!; [done| |apply NoDup_singleton].
    intros j Hj%Hlog ->%list_elem_of_singleton. by rewrite Hj in Hi.
  - intros j. rewrite elem_of_app, list_elem_of_singleton, Hlog. destruct (decide (j = i)) as [->|Hne].
    + rewrite set_pc_eq. naive_solver.
    + rewrite set_pc_ne by done. naive_solver.
  - intros j. destruct (decide (j = i)) as [->|Hne]; [by rewrite set_pc_eq|]. rewrite set_pc_ne by done.
    intros Hj%Hcrit. apply Hcrit in Hi. congruence.
  - by rewrite replayed_snoc.
Qed.

(** The holder moves on inside the critical section. *)
Lemma lock_inv_move init f h q i c log :
  NoDup log -> (forall j, j ∈ log <-> q j = Finished) ->
  (forall j, critical (q j) = true -> h = Some j) -> q i <> Finished -> c <> Finished ->
  (critical c = true -> h = Some i) ->
  match h with
  | None => f = replayed init log
  | Some k => holder_ok (replayed init log) {| file := f; holder := h; pcs := set_pc i c q |} k
  end ->
  lock_inv init {| file := f; holder := h; pcs := set_pc i c q |}.
Proof.
  intros Hnd Hlog Hcrit Hi Hc Hh Hf. exists log. simpl. split_and!; [done| | |done].
  - intros j. rewrite Hlog. destruct (decide (j = i)) as [->|Hne]; [rewrite set_pc_eq; naive_solver|].
    by rewrite set_pc_ne.
  - intros j. destruct (decide (j = i)) as [->|Hne]; [by rewrite set_pc_eq|]. rewrite set_pc_ne by done. auto.
Qed.

Lemma lock_inv_reachable init s : reachable init s -> lock_inv init s.
Proof.
  induction 1 as [|s s' i _ IH Hs].
  { exists []. split_and!; [apply NoDup_nil_2| |done|done]. intros j. split; [by intros ?%not_elem_of_nil|done]. }
  destruct IH as (log & Hnd & Hlog & Hcrit & Hfile). unfold append_line.
  destruct Hs as [f h q Hq|f q Hq|f h q Hq|f h q c Hq Hl|f h q c Hq Hl Hn|f h q c Hq Hl Hn|f h q Hq]; simpl in *;
    try (assert (h = Some i) as -> by (apply Hcrit; by rewrite Hq); unfold holder_ok in Hfile; simpl in Hfile;
         rewrite Hq in Hfile).
  - apply (lock_inv_move init f h q i Opened log); try done; [by rewrite Hq|].
    destruct h as [k|]; [|done]. unfold holder_ok in *. simpl in *. destruct (decide (k = i)) as [->|Hne].
    + by rewrite Hq in Hfile.
    + by rewrite set_pc_ne.
  - apply (lock_inv_move init f (Some i) q i Locked log); try done; [|by rewrite Hq|].
    + intros j Hj%Hcrit. done.
    + unfold holder_ok. simpl. by rewrite set_pc_eq.
  - apply (lock_inv_move init f (Some i) q i (HaveRead f) log); try done; [by rewrite Hq|].
    unfold holder_ok. simpl. by rewrite set_pc_eq.
  - destruct Hfile as [-> ->]. apply (lock_inv_finish init _ (Some i) q i log); try done; [by rewrite Hq|].
    unfold append_line. by rewrite Hl.
  - destruct Hfile as [-> ->].
    apply (lock_inv_move init _ (Some i) q i WroteNewline log); try done; [by rewrite Hq|].
    unfold holder_ok. simpl. by rewrite set_pc_eq.
  - destruct Hfile as [-> ->]. apply (lock_inv_finish init _ (Some i) q i log); try done; [by rewrite Hq|].
    unfold append_line. by rewrite Hl, Hn.
  - destruct Hfile as (-> & Hl & Hn). apply (lock_inv_finish init _ (Some i) q i log); try done; [by rewrite Hq|].
    unfold append_line. by rewrite Hl, Hn, <- (assoc_L (++)).
Qed.

Lemma append_line_last c l : last c <> Some cr -> last (append_line c l) <> Some cr.
Proof.
  intros Hc. unfold append_line. case_match; [done|]. rewrite !(assoc_L (++)), last_snoc. done.
Qed.

(** The lines added by a sequence of appends. *)
Definition added_lines (init : str) (log : list nat) (after : str) : Prop :=
  exists new, lines after = lines init ++ new /\ NoDup new /\
    (forall x, x ∈ new -> x ∉ lines init /\ exists i, i ∈ log /\ job i = x) /\
    (forall i, i ∈ log -> job i ∈ lines after).

Lemma replayed_lines init log :
  (forall i, line_ok (job i) = true) -> last init <> Some cr ->
  last (replayed init log) <> Some cr /\ added_lines init log (replayed init log).
Proof.
  intros Hok Hcr. induction log as [|i log [IHl (new & Hn & Hnd & Hnew & Hin)]] using rev_ind.
  { split; [done|]. exists []. split_and!; [by rewrite app_nil_r|apply NoDup_nil_2|..]; set_solver. }
  rewrite replayed_snoc. set (c := replayed init log) in *. split; [by apply append_line_last|].
  destruct (decide (job i ∈ lines c)) as [Hp|Hp].
  - assert (append_line c (job i) = c) as ->.
    { unfold append_line. by rewrite (proj2 (has_line_iff _ _) Hp). }
    exists new. split_and!; [done|done|set_solver|]. intros j [?|Hj%list_elem_of_singleton]%elem_of_app; subst; auto.
  - pose proof (append_line_lines c (job i) (Hok i) IHl Hp) as Hl. exists (new ++ [job i]).
    rewrite Hl, Hn, <- (assoc_L (++)). rewrite Hn in Hp. apply not_elem_of_app in Hp as [Hp1 Hp2].
    split_and!; [done| | |].
    + apply NoDup_app. split_and!; [done| |apply NoDup_singleton]. by intros x Hx ->%list_elem_of_singleton.
    + intros x [Hx|Hx%list_elem_of_singleton]%elem_of_app; [set_solver|]. subst x. split; [done|]. exists i. set_solver.
    + intros j [Hj%Hin|Hj%list_elem_of_singleton]%elem_of_app; [|subst; set_solver]. rewrite Hn in Hj. set_solver.
Qed.

(** C36: processes that append rules to one policy file under its lock, interleaved
    in any way, behave as if they ran one after the other: whenever the lock is
    free, the text is that of some order of the finished processes, no process
    is in the middle of its update, the lines that were there are kept in place,
    every finished process finds its line in the file, and no line was added
    twice. *)
Theorem concurrent_appends_linearize init s :
  (forall i, line_ok (job i) = true) -> last init <> Some cr ->
  reachable init s -> holder s = None ->
  exists log, NoDup log /\ (forall i, i ∈ log <-> pcs s i = Finished) /\
    (forall i, critical (pcs s i) = false) /\
    file s = replayed init log /\ added_lines init log (file s).
Proof.
  intros Hok Hcr (log & Hnd & Hlog & Hcrit & Hf)%lock_inv_reachable Hh. rewrite Hh in Hf.
  exists log. rewrite Hf. split_and!; [done|done| |done|by apply replayed_lines].
  intros i. destruct (critical (pcs s i)) eqn:E; [|done]. apply Hcrit in E. congruence.
Qed.
End concurrent.

(** ** Examples *)

(** One file. *)
Module OneFile.
#[export] Instance one_file_io : PolicyIo str := {|
  create_dir _ w := (inl {| kind := AlreadyExists; io_message := [] |}, w);
  open_append _ w := (inr tt, w);
  lock_file _ w := (inr tt, w);
  seek_start _ w := (inr tt, w);
  read_to_string _ w := (inr w, w);
  write_all _ x w := (inr tt, w ++ x)
|}.

#[export] Instance one_file_laws : PolicyIoLaws str.
Proof. refine {| contents _ w := w |}; simpl; intros; by simplify_eq. Defined.

#[export] Instance quoting : JsonText := {| json_to_string x := inr (dq ++ x ++ dq) |}.
End OneFile.

Import OneFile.

Lemma append_allow_prefix_rule_ok_witness :
  exists w', blocking_append_allow_prefix_rule &"/r/x.rules" [&"ls"] (&"# rules") = (inr tt, w') /\
    lines w' = [&"# rules"; &"prefix_rule(pattern=[" ++ dq ++ &"ls" ++ dq ++ &"], decision=" ++ dq ++ &"allow" ++ dq ++ &")"] /\
    exists tokens, w' = append_line &"# rules" (prefix_rule_text tokens).
Proof.
  destruct (blocking_append_allow_prefix_rule &"/r/x.rules" [&"ls"] (&"# rules")) as [[e|[]] w'] eqn:E;
    [exfalso; vm_compute in E; discriminate E|].
  exists w'. split; [reflexivity|].
  destruct (append_allow_prefix_rule_ok &"/r/x.rules" [&"ls"] (&"# rules") w' E) as (tokens & _ & _ & Ht).
  split; [vm_compute in E; injection E as <-; vm_compute; reflexivity|]. exists tokens. exact Ht.
Defined.

Definition demo_job (i : nat) : str := &"rule" ++ show_nat (i mod 2).

Lemma demo_job_ok i : line_ok (demo_job i) = true.
Proof.
  unfold demo_job. pose proof (Nat.mod_upper_bound i 2 ltac:(done)).
  destruct (i mod 2) as [|[|n]]; [vm_compute; reflexivity..|lia].
Qed.

(** Process 1 takes the lock between the opening and the locking of process 3,
    which then finds its line present. *)
Lemma concurrent_appends_linearize_witness :
  exists s, reachable demo_job [] s /\ holder s = None /\ pcs s 1 = Finished /\ pcs s 3 = Finished /\
    file s = demo_job 1 ++ [nl] /\ added_lines demo_job [] [1; 3] (file s).
Proof.
  assert (exists s, reachable demo_job [] s /\ holder s = None /\ pcs s 1 = Finished /\ pcs s 3 = Finished /\
    pcs s 2 = Idle /\ file s = demo_job 1 ++ [nl] /\ forall i, pcs s i = Finished -> i = 1 \/ i = 3)
    as (s & Hr & Hh & H1 & H3 & _ & Hf & Hfin).
  { pose proof (reach_init demo_job []) as R0.
    pose proof (reach_step _ _ _ _ 3 R0 (step_open _ 3 _ _ _ eq_refl)) as R1.
    pose proof (reach_step _ _ _ _ 1 R1 (step_open _ 1 _ _ _ eq_refl)) as R2.
    pose proof (reach_step _ _ _ _ 1 R2 (step_lock _ 1 _ _ eq_refl)) as R3.
    pose proof (reach_step _ _ _ _ 1 R3 (step_read _ 1 _ _ _ eq_refl)) as R4.
    pose proof (reach_step _ _ _ _ 1 R4 (step_line _ 1 _ _ _ [] eq_refl eq_refl eq_refl)) as R5.
    pose proof (reach_step _ _ _ _ 3 R5 (step_lock _ 3 _ _ eq_refl)) as R6.
    pose proof (reach_step _ _ _ _ 3 R6 (step_read _ 3 _ _ _ eq_refl)) as R7.
    pose proof (reach_step _ _ _ _ 3 R7 (step_present demo_job 3 _ _ _ (demo_job 1 ++ [nl]) eq_refl eq_refl)) as R8.
    eexists. split; [exact R8|].
    split_and!; [reflexivity..|]. intros i. simpl. unfold set_pc. repeat case_decide; try done; auto. }
  exists s. split_and!; try assumption.
  destruct (concurrent_appends_linearize demo_job [] s demo_job_ok (fun H => match H with eq_refl => I end) Hr Hh)
    as (log & _ & Hlog & _ & _ & (new & Hn & Hnd & Hnew & Hin)).
  exists new. split_and!; try assumption.
  - intros x (Hx & i & Hi & Hj)%Hnew. split; [exact Hx|]. exists i. split; [|exact Hj].
    apply Hlog, Hfin in Hi as [-> | ->]; set_solver.
  - intros i Hi. apply Hin, Hlog. set_solver.
Defined.
