(* ===== verification/StreamText.v ===== *)
(** * utils/stream-parser: hidden inline tags in streamed text

    Positions and lengths count characters where the code counts bytes; they are
    compared only between texts of which one is a prefix or suffix of the other,
    so the comparisons are the same.

    The interface [StreamTextParser] with its law (the result does not depend on
    how the text is cut), [InlineHiddenTagParser] and [CitationStreamParser]. *)
From S2P Require Import Prelude RustStr.

(** ** The interface *)

Record StreamTextChunk (X : Type) := { visible_text : str; extracted : list X }.
Arguments visible_text {X}.
Arguments extracted {X}.
Arguments Build_StreamTextChunk {X}.

Definition default_chunk {X} : StreamTextChunk X := {| visible_text := []; extracted := [] |}.
Definition chunk_is_default {X} (c : StreamTextChunk X) : bool :=
  match visible_text c, extracted c with [], [] => true | _, _ => false end.

(** Appending a later chunk. *)
Definition chunk_app {X} (a b : StreamTextChunk X) : StreamTextChunk X :=
  {| visible_text := visible_text a ++ visible_text b; extracted := extracted a ++ extracted b |}.

Lemma chunk_app_nil_l {X} (c : StreamTextChunk X) : chunk_app default_chunk c = c.
Proof. by destruct c. Qed.
Lemma chunk_app_nil_r {X} (c : StreamTextChunk X) : chunk_app c default_chunk = c.
Proof. destruct c. unfold chunk_app; simpl. by rewrite !app_nil_r. Qed.
Lemma chunk_app_assoc {X} (a b c : StreamTextChunk X) :
  chunk_app a (chunk_app b c) = chunk_app (chunk_app a b) c.
Proof. unfold chunk_app; simpl. by rewrite !(assoc_L (++)). Qed.

(** [push_str] may fail to return in the model (a panic or an endless loop). *)
Class StreamTextParser (P X : Type) := {
  push_str : str -> P -> comp False (StreamTextChunk X * P);
  finish : P -> StreamTextChunk X * P
}.

(** Feeding several chunks. *)
Fixpoint push_all {P X} `{!StreamTextParser P X} (chunks : list str) (p : P)
  : comp False (StreamTextChunk X * P) :=
  match chunks with
  | [] => Ok (default_chunk, p)
  | c :: cs =>
      let? '(out, p1) := push_str c p in
      let? '(outs, p2) := push_all cs p1 in
      Ok (chunk_app out outs, p2)
  end.

(** ** Finding and splitting *)

(** [str::find] *)
Fixpoint find (needle s : str) : option nat :=
  if starts_with needle s then Some 0
  else match s with [] => None | _ :: s' => option_map S (find needle s') end.

Fixpoint longest_from (k : nat) (s needle : str) : nat :=
  match k with
  | 0 => 0
  | S k' => if ends_with (take k needle) s then k else longest_from k' s needle
  end.

Definition longest_suffix_prefix_len (s needle : str) : nat :=
  longest_from (length s `min` (length needle - 1)) s needle.

(** ** Data *)

Record ExtractedInlineTag (T : Type) := { tag : T; content : str }.
Arguments tag {T}. Arguments content {T}. Arguments Build_ExtractedInlineTag {T}.

Record InlineTagSpec (T : Type) := { spec_tag : T; open : str; close : str }.
Arguments spec_tag {T}. Arguments open {T}. Arguments close {T}. Arguments Build_InlineTagSpec {T}.

Record ActiveTag (T : Type) := { active_tag : T; active_close : str; active_content : str }.
Arguments active_tag {T}. Arguments active_close {T}. Arguments active_content {T}.
Arguments Build_ActiveTag {T}.

Record InlineHiddenTagParser (T : Type) := {
  specs : list (InlineTagSpec T);
  pending : str;
  active : option (ActiveTag T)
}.
Arguments specs {T}. Arguments pending {T}. Arguments active {T}. Arguments Build_InlineHiddenTagParser {T}.

(** ** Operations *)

Section inline.
Context {T : Type}.
Notation parser := (InlineHiddenTagParser T).
Notation chunk := (StreamTextChunk (ExtractedInlineTag T)).

(** The assertions of [new] *)
Definition new (specs : list (InlineTagSpec T)) : comp False parser :=
  match specs with
  | [] => Panic
  | _ =>
      if forallb (fun s => negb (str_eqb (open s) []) && negb (str_eqb (close s) [])) specs
      then Ok {| specs := specs; pending := []; active := None |}
      else Panic
  end.

(** Candidates: position, length of the delimiter, index. *)
Fixpoint open_candidates (idx : nat) (ss : list (InlineTagSpec T)) (text : str) : list (nat * nat * nat) :=
  match ss with
  | [] => []
  | s :: ss =>
      match find (open s) text with
      | Some pos => (pos, length (open s), idx) :: open_candidates (S idx) ss text
      | None => open_candidates (S idx) ss text
      end
  end.

(** The comparison of [min_by]: position, then the longer delimiter, then the index. *)
Definition candidate_lt (a b : nat * nat * nat) : bool :=
  let '(pa, la, ia) := a in
  let '(pb, lb, ib) := b in
  (pa <? pb) || ((pa =? pb) && ((lb <? la) || ((lb =? la) && (ia <? ib)))).

Definition min_candidate (l : list (nat * nat * nat)) : option (nat * nat * nat) :=
  match l with
  | [] => None
  | c :: cs => Some (foldl (fun best x => if candidate_lt x best then x else best) c cs)
  end.

Definition find_next_open (p : parser) : option (nat * nat) :=
  option_map (fun '(pos, _, idx) => (pos, idx)) (min_candidate (open_candidates 0 (specs p) (pending p))).

Definition max_open_prefix_suffix_len (p : parser) : nat :=
  foldr Nat.max 0 (map (fun s => longest_suffix_prefix_len (pending p) (open s)) (specs p)).

Definition set_pending (x : str) (p : parser) : parser :=
  {| specs := specs p; pending := x; active := active p |}.
Definition set_active (x : str) (a : option (ActiveTag T)) (p : parser) : parser :=
  {| specs := specs p; pending := x; active := a |}.

Definition visible (x : str) : chunk := {| visible_text := x; extracted := [] |}.

Definition drain_visible_to_suffix_match (keep_suffix_len : nat) (p : parser) : chunk * parser :=
  let take_len := length (pending p) - keep_suffix_len in
  if take_len =? 0 then (default_chunk, p)
  else (visible (take take_len (pending p)), set_pending (drop take_len (pending p)) p).

(** One iteration of the loop: the chunk it emits, and whether it continues. *)
Inductive iteration := Continue (out : chunk) (p : parser) | Break (out : chunk) (p : parser).

Definition iterate (p : parser) : comp False iteration :=
  match active p with
  | Some a =>
      match find (active_close a) (pending p) with
      | Some close_idx =>
          Ok (Continue
            {| visible_text := [];
               extracted := [{| tag := active_tag a; content := active_content a ++ take close_idx (pending p) |}] |}
            (set_active (drop (close_idx + length (active_close a)) (pending p)) None p))
      | None =>
          let keep := longest_suffix_prefix_len (pending p) (active_close a) in
          let take_len := length (pending p) - keep in
          Ok (Break default_chunk
            (if 0 <? take_len
             then set_active (drop take_len (pending p))
               (Some {| active_tag := active_tag a; active_close := active_close a;
                        active_content := active_content a ++ take take_len (pending p) |}) p
             else p))
      end
  | None =>
      match find_next_open p with
      | Some (open_idx, spec_idx) =>
          let? spec := index (specs p) spec_idx in
          Ok (Continue (visible (take open_idx (pending p)))
            (set_active (drop (open_idx + length (open spec)) (pending p))
               (Some {| active_tag := spec_tag spec; active_close := close spec; active_content := [] |}) p))
      | None =>
          let '(out, p') := drain_visible_to_suffix_match (max_open_prefix_suffix_len p) p in
          Ok (Break out p')
      end
  end.

Fixpoint push_loop (fuel : nat) (p : parser) : comp False (chunk * parser) :=
  match fuel with
  | 0 => Loop
  | S fuel' =>
      let? it := iterate p in
      match it with
      | Break out p' => Ok (out, p')
      | Continue out p' =>
          let? '(rest, p'') := push_loop fuel' p' in
          Ok (chunk_app out rest, p'')
      end
  end.

Definition inline_push_str (text : str) (p : parser) : comp False (chunk * parser) :=
  let p' := set_pending (pending p ++ text) p in
  push_loop (S (length (pending p'))) p'.

Definition inline_finish (p : parser) : chunk * parser :=
  match active p with
  | Some a =>
      ({| visible_text := [];
          extracted := [{| tag := active_tag a; content := active_content a ++ pending p |}] |},
       set_active [] None p)
  | None => (visible (pending p), set_pending [] p)
  end.

#[export] Instance inline_hidden_tag_parser : StreamTextParser parser (ExtractedInlineTag T) :=
  {| push_str := inline_push_str; finish := inline_finish |}.
End inline.

(** ** Citations *)

Definition CITATION_OPEN : str := &"<oai-mem-citation>".
Definition CITATION_CLOSE : str := &"</oai-mem-citation>".

Inductive CitationTag := Citation.

Record CitationStreamParser := { inner : InlineHiddenTagParser CitationTag }.

Definition citation_spec : InlineTagSpec CitationTag :=
  {| spec_tag := Citation; open := CITATION_OPEN; close := CITATION_CLOSE |}.

Definition new_citation_parser : comp False CitationStreamParser :=
  let? p := new [citation_spec] in
  Ok {| inner := p |}.

Definition contents_of (c : StreamTextChunk (ExtractedInlineTag CitationTag)) : StreamTextChunk str :=
  {| visible_text := visible_text c; extracted := map content (extracted c) |}.

#[export] Instance citation_stream_parser : StreamTextParser CitationStreamParser str := {|
  push_str text p :=
    let? '(c, p') := push_str text (inner p) in
    Ok (contents_of c, {| inner := p' |});
  finish p := let '(c, p') := finish (inner p) in (contents_of c, {| inner := p' |})
|}.

Definition strip_citations (text : str) : comp False (str * list str) :=
  let? p := new_citation_parser in
  let? '(out, p') := push_str text p in
  let '(tail, _) := finish p' in
  let out := chunk_app out tail in
  Ok (visible_text out, extracted out).

(** ** Scanning

    [find] and the suffix that is held back are both the first position whose
    remaining text satisfies a test. *)

Fixpoint scan (f : str -> bool) (s : str) : option nat :=
  if f s then Some 0 else match s with [] => None | _ :: s' => option_map S (scan f s') end.

(** The rest of the text is a proper prefix of the needle. *)
Definition partial (needle t : str) : bool := starts_with t needle && (length t <? length needle).

Lemma find_scan needle s : find needle s = scan (starts_with needle) s.
Proof. induction s as [|c s IH]; simpl; [done|]. by rewrite IH. Qed.

Lemma scan_Some f s i :
  scan f s = Some i <-> i <= length s /\ f (drop i s) = true /\ forall j, j < i -> f (drop j s) = false.
Proof.
  revert i. induction s as [|c s IH]; intros i; simpl.
  - destruct (f []) eqn:E.
    + split; [intros [= <-]; split_and!; [lia|done|lia]|]. intros (Hi & _ & _). f_equal. lia.
    + split; [done|]. intros (Hi & Hf & _). destruct i; [|lia]. simpl in Hf. congruence.
  - destruct (f (c :: s)) eqn:E.
    + split; [intros [= <-]; split_and!; [lia|done|lia]|]. intros (Hi & _ & Hj). destruct i as [|i]; [done|].
      specialize (Hj 0 ltac:(lia)). simpl in Hj. congruence.
    + split.
      * destruct (scan f s) as [k|] eqn:Ek; [|done]. intros [= <-]. destruct (proj1 (IH k) eq_refl) as (? & ? & Hj).
        split_and!; [lia|done|]. intros [|j] Hlt; [done|]. apply Hj. lia.
      * intros (Hi & Hf & Hj). destruct i as [|i]; [simpl in Hf; congruence|].
        rewrite (proj2 (IH i)); [done|]. split_and!; [lia|done|]. intros j Hlt. apply (Hj (S j)). lia.
Qed.

Lemma scan_None f s : scan f s = None <-> forall j, j <= length s -> f (drop j s) = false.
Proof.
  split.
  - induction s as [|c s IH]; simpl; (destruct (f _) eqn:E; [done|]).
    + intros _ j Hj. by destruct j; [|lia].
    + destruct (scan f s); [done|]. intros _ [|j] Hj; [done|]. apply IH; [done|lia].
  - intros H. destruct (scan f s) as [i|] eqn:E; [|done]. apply scan_Some in E as (Hi & Hf & _).
    rewrite H in Hf by lia. done.
Qed.

Lemma starts_with_prefix p s : starts_with p s = true <-> p `prefix_of` s.
Proof. rewrite starts_with_spec. split; intros [r ->]; by exists r. Qed.

Lemma ends_with_drop (p s : str) : length p <= length s -> ends_with p s = true <-> drop (length s - length p) s = p.
Proof.
  intros Hl. unfold ends_with. destruct (strip_suffix p s) as [r|] eqn:E.
  - apply strip_suffix_Some in E as ->. split; [|done]. intros _.
    rewrite length_app. replace (length r + length p - length p) with (length r) by lia. apply drop_app_length.
  - split; [done|]. intros Hd. assert (strip_suffix p s = Some (take (length s - length p) s)) as Hs; [|congruence].
    apply strip_suffix_Some. rewrite <- Hd at 2. by rewrite take_drop.
Qed.

Lemma partial_drop needle s i :
  i <= length s -> length s - i < length needle ->
  partial needle (drop i s) = ends_with (take (length s - i) needle) s.
Proof.
  intros Hi Hl. unfold partial. rewrite length_drop. rewrite (proj2 (Nat.ltb_lt _ _) Hl), andb_true_r.
  assert (length (take (length s - i) needle) = length s - i) as Ht by (rewrite length_take; lia).
  apply eq_true_iff_eq. rewrite starts_with_prefix, ends_with_drop, Ht by lia.
  replace (length s - (length s - i)) with i by lia. split.
  - intros [r Hr]. rewrite Hr, take_app_le, take_ge by (rewrite length_drop; lia). done.
  - intros ->. exists (drop (length s - i) needle). by rewrite take_drop.
Qed.

(** What is held back is the longest suffix that may still become the needle. *)
Lemma hold_scan needle s :
  needle <> [] -> scan (partial needle) s = Some (length s - longest_suffix_prefix_len s needle).
Proof.
  intros Hn. assert (0 < length needle) as Hpos by (destruct needle; [done|simpl; lia]).
  unfold longest_suffix_prefix_len. set (m := length s `min` (length needle - 1)).
  assert (forall k, k <= m -> (forall j, k < j -> j <= m -> ends_with (take j needle) s = false) ->
    scan (partial needle) s = Some (length s - longest_from k s needle)) as Hk; [|apply Hk; lia].
  induction k as [|k IH]; intros Hm Hj; cbn [longest_from].
  - apply scan_Some. rewrite Nat.sub_0_r. split_and!; [done| |].
    + rewrite drop_all. unfold partial. simpl. by apply Nat.ltb_lt.
    + intros j Hlt. destruct (decide (length s - j < length needle)).
      * rewrite partial_drop by lia. apply Hj; lia.
      * unfold partial. rewrite length_drop, (proj2 (Nat.ltb_ge _ _)) by lia. apply andb_false_r.
  - destruct (ends_with (take (S k) needle) s) eqn:E.
    + apply scan_Some. split_and!; [lia| |].
      * rewrite partial_drop by lia. by replace (length s - (length s - S k)) with (S k) by lia.
      * intros j Hlt. destruct (decide (length s - j < length needle)).
        -- rewrite partial_drop by lia. apply Hj; lia.
        -- unfold partial. rewrite length_drop, (proj2 (Nat.ltb_ge _ _)) by lia. apply andb_false_r.
    + apply IH; [lia|]. intros j Hlt Hle. destruct (decide (j = S k)) as [->|]; [done|]. apply Hj; lia.
Qed.

(** ** Appending text to what was scanned *)

Lemma find_app_found needle x b i : find needle x = Some i -> find needle (x ++ b) = Some i.
Proof.
  rewrite !find_scan, !scan_Some. intros (Hi & Hf & Hj). rewrite length_app.
  apply starts_with_prefix in Hf as [r Hr]. assert (length (drop i x) = length needle + length r) as Hl.
  { rewrite Hr. apply length_app. }
  rewrite length_drop in Hl. split_and!; [lia| |].
  - apply starts_with_prefix. rewrite drop_app_le by lia. exists (r ++ b). by rewrite Hr, (assoc_L (++)).
  - intros j Hlt. specialize (Hj j Hlt). apply not_true_iff_false. apply not_true_iff_false in Hj.
    contradict Hj. apply starts_with_prefix in Hj as [r' Hr']. apply starts_with_prefix.
    rewrite drop_app_le in Hr' by lia. apply (f_equal (take (length needle))) in Hr'.
    rewrite take_app_length, take_app_le in Hr' by (rewrite length_drop; lia).
    exists (drop (length needle) (drop j x)). rewrite <- Hr' at 1. by rewrite take_drop.
Qed.

Section held.
Context (needle x b : str) (h : nat).
Hypothesis Hnone : find needle x = None.
Hypothesis Hhold : scan (partial needle) x = Some h.

(** Before the held part nothing can start, whatever follows. *)
Lemma held_no_match j : j < h -> starts_with needle (drop j (x ++ b)) = false.
Proof.
  intros Hlt. apply scan_Some in Hhold as (Hh & _ & Hj). specialize (Hj j Hlt). rewrite find_scan, scan_None in Hnone.
  specialize (Hnone j ltac:(lia)). apply not_true_iff_false. intros [r Hr]%starts_with_prefix.
  rewrite drop_app_le in Hr by lia. destruct (decide (length needle <= length (drop j x))) as [Hl|Hl].
  - apply not_true_iff_false in Hnone. apply Hnone, starts_with_prefix.
    apply (f_equal (take (length needle))) in Hr. rewrite take_app_length, take_app_le in Hr by done.
    exists (drop (length needle) (drop j x)). rewrite <- Hr at 1. by rewrite take_drop.
  - apply not_true_iff_false in Hj. apply Hj. unfold partial. rewrite andb_true_iff, starts_with_prefix, Nat.ltb_lt.
    split; [|lia]. apply (f_equal (take (length (drop j x)))) in Hr. rewrite take_app_length, take_app_le in Hr by lia.
    exists (drop (length (drop j x)) needle). rewrite Hr at 1. by rewrite take_drop.
Qed.

Lemma held_no_partial j : j < h -> partial needle (drop j (x ++ b)) = false.
Proof.
  intros Hlt. apply scan_Some in Hhold as (Hh & _ & Hj). specialize (Hj j Hlt).
  rewrite drop_app_le by lia. unfold partial in *. rewrite length_app.
  apply andb_false_iff. apply andb_false_iff in Hj as [Hj|Hj%Nat.ltb_ge].
  - left. apply not_true_iff_false. apply not_true_iff_false in Hj. contradict Hj.
    apply starts_with_prefix in Hj as [r Hr]. apply starts_with_prefix. exists (b ++ r).
    by rewrite Hr, (assoc_L (++)).
  - right. apply Nat.ltb_ge. lia.
Qed.

Lemma scan_held f :
  (forall j, j < h -> f (drop j (x ++ b)) = false) ->
  scan f (x ++ b) = option_map (Nat.add h) (scan f (drop h x ++ b)).
Proof.
  intros Hf. apply scan_Some in Hhold as (Hh & _ & _).
  assert (forall j, drop j (drop h x ++ b) = drop (h + j) (x ++ b)) as Hd.
  { intros j. rewrite <- (drop_app_le x b h) by lia. by rewrite drop_drop. }
  destruct (scan f (drop h x ++ b)) as [i|] eqn:E; simpl.
  - apply scan_Some in E as (Hi & Hfi & Hj). rewrite length_app, length_drop in Hi. apply scan_Some.
    rewrite length_app. split_and!; [lia|by rewrite <- Hd|]. intros j Hlt.
    destruct (decide (j < h)); [auto|]. replace j with (h + (j - h)) by lia. rewrite <- Hd. apply Hj. lia.
  - rewrite scan_None in E. apply scan_None. intros j Hlt. rewrite length_app in Hlt.
    destruct (decide (j < h)); [auto|]. replace j with (h + (j - h)) by lia. rewrite <- Hd. apply E.
    rewrite length_app, length_drop. lia.
Qed.
End held.

(** ** One tag: the result does not depend on the cuts *)

Section single.
Context {T : Type} (spec : InlineTagSpec T).
Hypothesis open_ne : open spec <> [].
Notation parser := (InlineHiddenTagParser T).

Definition needle (p : parser) : str :=
  match active p with Some a => active_close a | None => open spec end.

(** The parsers that [new [spec]] can become. *)
Definition wf (p : parser) : Prop := specs p = [spec] /\ needle p <> [] /\ close spec <> [].

(** What the text before a complete tag becomes, and the state behind it. *)
Definition emit (p : parser) (x : str) : StreamTextChunk (ExtractedInlineTag T) :=
  match active p with
  | Some a => {| visible_text := []; extracted := [{| tag := active_tag a; content := active_content a ++ x |}] |}
  | None => visible x
  end.
Definition advance (p : parser) (r : str) : parser :=
  match active p with
  | Some _ => set_active r None p
  | None => set_active r (Some {| active_tag := spec_tag spec; active_close := close spec; active_content := [] |}) p
  end.

(** What text without a tag becomes, and the state behind it. *)
Definition shown (p : parser) (x : str) : StreamTextChunk (ExtractedInlineTag T) :=
  match active p with Some _ => default_chunk | None => visible x end.
Definition consume (p : parser) (x r : str) : parser :=
  match active p with
  | Some a => set_active r (Some {| active_tag := active_tag a; active_close := active_close a;
                                    active_content := active_content a ++ x |}) p
  | None => set_pending r p
  end.

Definition hold (p : parser) : nat :=
  length (pending p) - longest_suffix_prefix_len (pending p) (needle p).

Lemma set_active_id (p : parser) : set_active (pending p) (active p) p = p.
Proof. by destruct p. Qed.

Lemma iterate_single p :
  wf p ->
  iterate p = Ok (match find (needle p) (pending p) with
                  | Some i => Continue (emit p (take i (pending p)))
                                (advance p (drop (i + length (needle p)) (pending p)))
                  | None => Break (shown p (take (hold p) (pending p)))
                              (consume p (take (hold p) (pending p)) (drop (hold p) (pending p)))
                  end).
Proof.
  intros (Hs & _ & _). unfold iterate, needle, hold, emit, advance, shown, consume.
  destruct (active p) as [a|] eqn:Ea; unfold needle; rewrite Ea.
  - destruct (find (active_close a) (pending p)); [done|]. do 2 f_equal.
    set (n := length _ - _). destruct (Nat.ltb_spec 0 n); [done|]. replace n with 0 by lia.
    rewrite take_0, drop_0, app_nil_r. destruct p, a; simpl in *. by subst.
  - unfold find_next_open, max_open_prefix_suffix_len. rewrite Hs. simpl.
    destruct (find (open spec) (pending p)) as [i|]; simpl; [done|].
    unfold drain_visible_to_suffix_match. rewrite Nat.max_0_r. set (n := length _ - _). destruct (Nat.eqb_spec n 0) as [->|]; [|done].
    rewrite take_0, drop_0. f_equal. f_equal. by destruct p.
Qed.

(** The loop as a relation. *)
Inductive runs : parser -> StreamTextChunk (ExtractedInlineTag T) -> parser -> Prop :=
| runs_break p out p' : iterate p = Ok (Break out p') -> runs p out p'
| runs_continue p out p' outs p'' : iterate p = Ok (Continue out p') -> runs p' outs p'' ->
    runs p (chunk_app out outs) p''.

Lemma runs_det p o1 p1 o2 p2 : runs p o1 p1 -> runs p o2 p2 -> o1 = o2 /\ p1 = p2.
Proof.
  intros H1. revert o2 p2. induction H1 as [p o q Hi|p o q os r Hi _ IH]; intros o2 p2 H2;
    inversion H2 as [? ? ? Hi2|? ? ? ? ? Hi2 Hr2]; subst; rewrite Hi in Hi2; simplify_eq; [done|].
  by destruct (IH _ _ Hr2) as [-> ->].
Qed.

Lemma advance_wf p r : wf p -> wf (advance p r).
Proof. intros (? & ? & ?). unfold wf, needle, advance. destruct (active p); simpl; done. Qed.

Lemma consume_wf p x r : wf p -> wf (consume p x r).
Proof. unfold wf, needle, consume. destruct (active p) eqn:E; simpl; rewrite ?E; done. Qed.

(** Enough fuel: every round but the last removes a tag. *)
Lemma push_loop_runs fuel p :
  wf p -> length (pending p) < fuel -> exists out p', push_loop fuel p = Ok (out, p') /\ runs p out p' /\ wf p'.
Proof.
  revert p. induction fuel as [|fuel IH]; intros p Hwf Hl; [lia|]. simpl. pose proof (iterate_single p Hwf) as Hi.
  rewrite Hi. simpl. destruct (find (needle p) (pending p)) as [i|] eqn:Ef.
  - destruct (IH (advance p (drop (i + length (needle p)) (pending p)))) as (o & p' & -> & Hr & Hw).
    + by apply advance_wf.
    + assert (pending (advance p (drop (i + length (needle p)) (pending p))) = drop (i + length (needle p)) (pending p)) as ->.
      { unfold advance. by destruct (active p). }
      destruct Hwf as (_ & Hn & _). rewrite find_scan in Ef. apply scan_Some in Ef as (? & Hf & _).
      apply starts_with_prefix, prefix_length in Hf. rewrite length_drop in *.
      destruct (needle p); [done|]. simpl in *. lia.
    + eexists _, p'. split; [done|]. split; [|done]. by eapply runs_continue.
  - eexists _, _. split; [done|]. split; [by apply runs_break|]. by apply consume_wf.
Qed.

Definition more (b : str) (p : parser) : parser := set_pending (pending p ++ b) p.

Lemma needle_more b p : needle (more b p) = needle p.
Proof. done. Qed.

Lemma emit_consume p x r y : chunk_app (shown p x) (emit (consume p x r) y) = emit p (x ++ y).
Proof.
  unfold shown, emit, consume. destruct (active p) as [a|] eqn:E; simpl; rewrite ?E; simpl.
  - rewrite chunk_app_nil_l. by rewrite (assoc_L (++)).
  - done.
Qed.

Lemma shown_consume p x r y : chunk_app (shown p x) (shown (consume p x r) y) = shown p (x ++ y).
Proof. unfold shown, consume. by destruct (active p) as [a|] eqn:E; simpl; rewrite ?E. Qed.

Lemma advance_consume p x r b z : advance (more b (consume p x r)) z = advance (more b p) z.
Proof. unfold advance, consume, more. by destruct (active p) eqn:E; simpl; rewrite ?E. Qed.

Lemma consume_consume p x r b y z : consume (more b (consume p x r)) y z = consume (more b p) (x ++ y) z.
Proof.
  unfold consume, more. destruct (active p) eqn:E; simpl; rewrite ?E; simpl; [|done].
  unfold set_active. simpl. by rewrite (assoc_L (++)).
Qed.

Lemma pending_consume p x r : pending (consume p x r) = r.
Proof. unfold consume. by destruct (active p). Qed.

Lemma needle_consume p x r : needle (consume p x r) = needle p.
Proof. unfold needle, consume. by destruct (active p) eqn:E; simpl; rewrite ?E. Qed.

(** The held part and more text, seen as one text behind what was shown. *)
Lemma held_split (x b : str) h :
  h <= length x ->
  x ++ b = take h x ++ (drop h x ++ b) /\
  (forall j, take (h + j) (x ++ b) = take h x ++ take j (drop h x ++ b)) /\
  (forall j, drop (h + j) (x ++ b) = drop j (drop h x ++ b)).
Proof.
  intros Hle. assert (x ++ b = take h x ++ (drop h x ++ b)) as Heq by (by rewrite (assoc_L (++)), take_drop).
  assert (length (take h x) = h) as Hl by (rewrite length_take; lia). split_and!; [done|..]; intros j; rewrite Heq.
  - rewrite <- Hl at 1. by rewrite take_app_add.
  - rewrite <- Hl at 1. by rewrite drop_app_add.
Qed.

Lemma hold_more p b :
  wf p -> find (needle p) (pending p) = None ->
  let p1 := consume p (take (hold p) (pending p)) (drop (hold p) (pending p)) in
  find (needle p) (pending p ++ b) = option_map (Nat.add (hold p)) (find (needle p) (drop (hold p) (pending p) ++ b)) /\
  hold (more b p) = hold p + hold (more b p1) /\ hold p <= length (pending p).
Proof.
  intros (_ & Hn & _) Hnone p1. pose proof (hold_scan (needle p) (pending p) Hn) as Hh. fold (hold p) in Hh.
  split_and!.
  - rewrite !find_scan. apply (scan_held (needle p) _ b (hold p) Hh).
    intros j Hj. by apply (held_no_match (needle p) (pending p) b (hold p)).
  - pose proof (scan_held (needle p) _ b (hold p) Hh (partial (needle p))
      (fun j Hj => held_no_partial (needle p) (pending p) b (hold p) Hh j Hj)) as Hp.
    rewrite !hold_scan in Hp by done. simpl in Hp. unfold hold at 1 3. rewrite !needle_more.
    unfold p1. rewrite needle_consume. cbn [more set_pending pending]. rewrite pending_consume. congruence.
  - by apply scan_Some in Hh as (? & _ & _).
Qed.

(** After a round that found nothing, the rest of the work on more text is the
    work on the held part followed by that text. *)
Lemma iterate_held p b it :
  wf p -> find (needle p) (pending p) = None ->
  let p1 := consume p (take (hold p) (pending p)) (drop (hold p) (pending p)) in
  let o1 := shown p (take (hold p) (pending p)) in
  iterate (more b p1) = Ok it ->
  iterate (more b p) = Ok (match it with
    | Continue o q => Continue (chunk_app o1 o) q
    | Break o q => Break (chunk_app o1 o) q end).
Proof.
  intros Hwf Hnone p1 o1. destruct (hold_more p b Hwf Hnone) as (Hf & Hh & Hle).
  assert (wf (more b p1)) as Hwf1 by (apply (consume_wf p _ _ Hwf)).
  rewrite (iterate_single (more b p1) Hwf1), (iterate_single (more b p) Hwf), Hh, !needle_more.
  assert (needle p1 = needle p) as Hnp by apply needle_consume. rewrite !Hnp. cbn [more set_pending pending].
  rewrite Hf. destruct (held_split (pending p) b (hold p) Hle) as (_ & Ht & Hd).
  assert (pending p1 = drop (hold p) (pending p)) as Hp1 by apply pending_consume. rewrite Hp1.
  intros [= <-]. destruct (find (needle p) (drop (hold p) (pending p) ++ b)) as [j|]; simpl.
  - rewrite Ht, <- Nat.add_assoc, Hd. do 2 f_equal.
    + symmetry. apply (emit_consume p).
    + symmetry. apply advance_consume.
  - rewrite Ht, Hd. do 2 f_equal.
    + symmetry. apply (shown_consume p).
    + symmetry. apply consume_consume.
Qed.

(** Running on a text and then on more text is running on all of it. *)
Lemma runs_more p o1 p1 b o2 p2 :
  wf p -> runs p o1 p1 -> runs (more b p1) o2 p2 -> runs (more b p) (chunk_app o1 o2) p2.
Proof.
  intros Hwf Hr. revert o2 p2. induction Hr as [p o q Hi|p o q os r Hi _ IH]; intros o2 p2 H2;
    rewrite iterate_single in Hi by done; destruct (find (needle p) (pending p)) as [i|] eqn:Ef; simplify_eq.
  - inversion H2 as [? ? ? Hi2|? ? ? ? ? Hi2 Hr2]; subst; apply (iterate_held p b) in Hi2; try done.
    + by apply runs_break.
    + rewrite chunk_app_assoc. by eapply runs_continue.
  - rewrite <- chunk_app_assoc. eapply runs_continue; [|exact (IH (advance_wf _ _ Hwf) _ _ H2)].
    rewrite (iterate_single (more b p)) by done. rewrite needle_more. cbn [more set_pending pending].
    rewrite (find_app_found _ _ b _ Ef). rewrite find_scan in Ef. apply scan_Some in Ef as (Hle & Hf & _).
    apply starts_with_prefix, prefix_length in Hf. rewrite length_drop in Hf.
    destruct Hwf as (_ & Hn & _). assert (0 < length (needle p)) by (destruct (needle p); [done|simpl; lia]).
    rewrite take_app_le, drop_app_le by lia. unfold emit, advance, more. cbn [active set_pending].
    by destruct (active p).
Qed.

Lemma push_wf text p :
  wf p -> exists out p', inline_push_str text p = Ok (out, p') /\ runs (more text p) out p' /\ wf p'.
Proof. intros Hwf. apply push_loop_runs; [done|]. simpl. lia. Qed.

(** Pushing two texts is pushing their concatenation. *)
Lemma push_app a b p :
  wf p ->
  inline_push_str (a ++ b) p =
  (let? '(o1, p1) := inline_push_str a p in
   let? '(o2, p2) := inline_push_str b p1 in
   Ok (chunk_app o1 o2, p2)).
Proof.
  intros Hwf. destruct (push_wf (a ++ b) p Hwf) as (o & q & -> & Hr & _).
  destruct (push_wf a p Hwf) as (o1 & p1 & -> & Hr1 & Hw1). simpl.
  destruct (push_wf b p1 Hw1) as (o2 & p2 & -> & Hr2 & _). simpl.
  assert (runs (more (a ++ b) p) (chunk_app o1 o2) p2) as Hr'.
  { replace (more (a ++ b) p) with (more b (more a p)); [by eapply runs_more|].
    unfold more, set_pending. simpl. by rewrite (assoc_L (++)). }
  by destruct (runs_det _ _ _ _ _ Hr Hr') as [-> ->].
Qed.

(** Between two pushes, what is pending may still become the needle. *)
Definition quiet (p : parser) : Prop := wf p /\ partial (needle p) (pending p) = true.

Lemma quiet_hold p : quiet p -> find (needle p) (pending p) = None /\ hold p = 0.
Proof.
  intros [(_ & Hn & _) Hp]. pose proof (hold_scan (needle p) (pending p) Hn) as Hh. fold (hold p) in Hh. split.
  - rewrite find_scan. apply scan_None. intros j Hj. apply not_true_iff_false.
    intros Hf%starts_with_prefix%prefix_length. rewrite length_drop in Hf.
    apply andb_prop in Hp as [_ Hp%Nat.ltb_lt]. lia.
  - apply scan_Some in Hh as (_ & _ & Hj). destruct (hold p); [done|].
    specialize (Hj 0 ltac:(lia)). rewrite drop_0 in Hj. congruence.
Qed.

Lemma runs_quiet p o p' : wf p -> runs p o p' -> quiet p'.
Proof.
  intros Hwf Hr. induction Hr as [p o q Hi|p o q os r Hi _ IH];
    rewrite iterate_single in Hi by done; destruct (find (needle p) (pending p)); simplify_eq.
  - split; [by apply consume_wf|]. rewrite needle_consume, pending_consume.
    destruct Hwf as (_ & Hn & _). pose proof (hold_scan (needle p) (pending p) Hn) as Hh.
    by apply scan_Some in Hh as (_ & Hh & _).
  - by apply IH, advance_wf.
Qed.

Lemma push_nil p : quiet p -> inline_push_str [] p = Ok (default_chunk, p).
Proof.
  intros Hq. destruct (quiet_hold p Hq) as [Hf Hh]. unfold inline_push_str. rewrite app_nil_r.
  replace (set_pending (pending p) p) with p by (by destruct p). cbn [push_loop].
  rewrite iterate_single by apply Hq. rewrite Hf, Hh, take_0, drop_0. cbn [comp_bind]. do 2 f_equal.
  - unfold shown. by destruct (active p).
  - unfold consume, set_active, set_pending. destruct (active p) as [[]|] eqn:E; destruct p; simpl in *; subst;
      rewrite ?app_nil_r; done.
Qed.

Lemma push_all_concat chunks p :
  quiet p -> push_all chunks p = inline_push_str (concat chunks) p.
Proof.
  revert p. induction chunks as [|c cs IH]; intros p Hq; cbn [push_all concat]; [by rewrite push_nil|].
  rewrite push_app by apply Hq. destruct (push_wf c p (proj1 Hq)) as (o1 & p1 & E1 & Hr & _).
  change (push_str c p) with (inline_push_str c p). rewrite E1. cbn [comp_bind].
  rewrite IH; [done|]. eapply runs_quiet; [|exact Hr]. apply Hq.
Qed.

(** ** What the parser computes *)

(** The visible text and the hidden contents of a complete text: the first
    opening delimiter, then the first closing delimiter behind it, and so on; an
    unclosed tag extends to the end. *)
Inductive stripped : str -> str -> list str -> Prop :=
| stripped_plain s : find (open spec) s = None -> stripped s s []
| stripped_unclosed s i : find (open spec) s = Some i ->
    find (close spec) (drop (i + length (open spec)) s) = None ->
    stripped s (take i s) [drop (i + length (open spec)) s]
| stripped_closed s i j v e : find (open spec) s = Some i ->
    find (close spec) (drop (i + length (open spec)) s) = Some j ->
    stripped (drop (j + length (close spec)) (drop (i + length (open spec)) s)) v e ->
    stripped s (take i s ++ v) (take j (drop (i + length (open spec)) s) :: e).

(** The same from a state of the parser. *)
Definition stripped_from (p : parser) (v : str) (e : list str) : Prop :=
  match active p with
  | None => stripped (pending p) v e
  | Some a =>
      active_close a = close spec /\
      match find (close spec) (pending p) with
      | None => v = [] /\ e = [active_content a ++ pending p]
      | Some j => exists e', e = (active_content a ++ take j (pending p)) :: e' /\
          stripped (drop (j + length (close spec)) (pending p)) v e'
      end
  end.

Definition closes (p : parser) : Prop :=
  match active p with Some a => active_close a = close spec | None => True end.

Lemma runs_stripped p o p' :
  wf p -> closes p -> runs p o p' ->
  let out := chunk_app o (inline_finish p').1 in
  stripped_from p (visible_text out) (map content (extracted out)).
Proof.
  intros Hwf Hc Hr. induction Hr as [p o q Hi|p o q os r Hi _ IH];
    rewrite iterate_single in Hi by done; destruct (find (needle p) (pending p)) as [i|] eqn:Ef; simplify_eq.
  - unfold stripped_from, needle, closes, shown, consume, inline_finish in *.
    destruct (active p) as [a|] eqn:Ea; simpl; rewrite ?Ea; simpl.
    + rewrite Hc in Ef. rewrite Ef. split_and!; [done|done|]. by rewrite <- (assoc_L (++)), take_drop.
    + rewrite take_drop. by apply stripped_plain.
  - specialize (IH (advance_wf _ _ Hwf)). revert IH. unfold stripped_from, needle, closes, emit, advance in *.
    destruct (active p) as [a|] eqn:Ea; simpl; intros IH.
    + rewrite Hc in Ef, IH. rewrite Ef. split; [done|]. eexists. split; [done|]. by apply IH.
    + destruct IH as [_ IH]; [done|]. destruct (find (close spec) _) as [j|] eqn:Ej.
      * destruct IH as (e' & He & Hst). rewrite He, <- (assoc_L (++)). by eapply stripped_closed.
      * destruct IH as [Hv He]. rewrite <- (assoc_L (++)), Hv, He, app_nil_r. by apply stripped_unclosed.
Qed.
End single.

(** ** Citations *)

Lemma citation_open_ne : open citation_spec <> [].
Proof. done. Qed.

Lemma citation_push_all chunks p :
  push_all chunks p =
  (let? '(o, q) := push_all chunks (inner p) in Ok (contents_of o, {| inner := q |})).
Proof.
  revert p. induction chunks as [|c cs IH]; intros [p]; [done|]. cbn [push_all].
  change (push_str c {| inner := p |}) with
    (let? '(o, q) := push_str c p in Ok (contents_of o, {| inner := q |}) : comp False (StreamTextChunk str * CitationStreamParser)).
  cbn [inner]. destruct (push_str c p) as [[o q]| | |]; [|done..]. cbn [comp_bind]. rewrite IH. cbn [inner].
  destruct (push_all cs q) as [[o' q']| | |]; [|done..]. cbn [comp_bind]. unfold contents_of, chunk_app. simpl.
  by rewrite map_app.
Qed.

Lemma citation_stripped chunks :
  exists p o q, new_citation_parser = Ok p /\ push_all chunks p = Ok (o, q) /\
    stripped citation_spec (concat chunks) (visible_text (chunk_app o (finish q).1))
      (extracted (chunk_app o (finish q).1)).
Proof.
  set (p0 := {| specs := [citation_spec]; pending := []; active := None |}).
  assert (quiet citation_spec p0) as Hq by done.
  destruct (push_wf citation_spec citation_open_ne (concat chunks) p0 (proj1 Hq)) as (o & q & Ho & Hr & Hw).
  exists {| inner := p0 |}, (contents_of o), {| inner := q |}. split; [done|].
  rewrite citation_push_all. cbn [inner]. rewrite (push_all_concat citation_spec citation_open_ne) by done. rewrite Ho. split; [done|].
  assert (wf citation_spec (more (concat chunks) p0)) as Hwm by apply Hq.
  pose proof (runs_stripped citation_spec citation_open_ne _ _ _ Hwm I Hr) as Hs.
  change (stripped_from citation_spec (more (concat chunks) p0)) with (stripped citation_spec (concat chunks)) in Hs.
  unfold chunk_app in *. simpl in *. destruct (inline_finish q) as [t q']. simpl in *. by rewrite map_app in Hs.
Qed.

(** The one-shot function reports what the pieces report. *)
Lemma citation_strip chunks p o q :
  new_citation_parser = Ok p -> push_all chunks p = Ok (o, q) ->
  strip_citations (concat chunks) =
    Ok (visible_text (chunk_app o (finish q).1), extracted (chunk_app o (finish q).1)).
Proof.
  intros Hp Hq. unfold strip_citations. rewrite Hp. cbn [comp_bind]. rewrite citation_push_all in Hq.
  assert (quiet citation_spec (inner p)) as Hqu.
  { unfold new_citation_parser in Hp. simpl in Hp. by simplify_eq. }
  rewrite (push_all_concat citation_spec citation_open_ne) in Hq by done.
  change (push_str (concat chunks) p) with (let? '(o, q) := inline_push_str (concat chunks) (inner p) in
    Ok (contents_of o, {| inner := q |}) : comp False (StreamTextChunk str * CitationStreamParser)).
  rewrite Hq. cbn [comp_bind]. by destruct (finish q).
Qed.

(** However the text of a message is cut into pieces, the citation parser
    returns for every piece (no panic, no endless loop), and all it reports up to
    [finish] is what the whole text means: the text outside the citation tags and
    the contents of the tags in order, with an unclosed tag extending to the
    end. *)
Theorem citations_any_cut chunks :
  exists p o q, new_citation_parser = Ok p /\ push_all chunks p = Ok (o, q) /\
    stripped citation_spec (concat chunks) (visible_text (chunk_app o (finish q).1))
      (extracted (chunk_app o (finish q).1)) /\
    strip_citations (concat chunks) =
      Ok (visible_text (chunk_app o (finish q).1), extracted (chunk_app o (finish q).1)).
Proof.
  destruct (citation_stripped chunks) as (p & o & q & Hp & Hq & Hs). exists p, o, q.
  split_and!; [done..|]. by apply (citation_strip chunks p).
Qed.
