(* ===== verification/AssistantText.v ===== *)
(** * utils/stream-parser: tag blocks on lines of their own, and assistant text

    [TaggedLineParser], [ProposedPlanParser] and the composition with the
    citation parser, [AssistantTextStreamParser]. *)
From S2P Require Import Prelude RustStr StreamText.

(** ** Data *)

Record TagSpec (T : Type) := { line_open : str; line_close : str; line_tag : T }.
Arguments line_open {T}. Arguments line_close {T}. Arguments line_tag {T}. Arguments Build_TagSpec {T}.

Inductive TaggedLineSegment (T : Type) :=
| Normal (text : str)
| TagStart (t : T)
| TagDelta (t : T) (text : str)
| TagEnd (t : T).
Arguments Normal {T}. Arguments TagStart {T}. Arguments TagDelta {T}. Arguments TagEnd {T}.

Record TaggedLineParser (T : Type) := {
  line_specs : list (TagSpec T);
  open_tag : option T;
  detect_tag : bool;
  line_buffer : str
}.
Arguments line_specs {T}. Arguments open_tag {T}. Arguments detect_tag {T}. Arguments line_buffer {T}.
Arguments Build_TaggedLineParser {T}.

(** ** Operations *)

Section tagged.
Context {T : Type} `{!EqDecision T}.
Notation parser := (TaggedLineParser T).
Notation segments := (list (TaggedLineSegment T)).

Definition new_tagged (specs : list (TagSpec T)) : parser :=
  {| line_specs := specs; open_tag := None; detect_tag := true; line_buffer := [] |}.

(** Text is merged with text of the same kind at the end. *)
Definition push_segment (segs : segments) (seg : TaggedLineSegment T) : segments :=
  match seg with
  | Normal delta =>
      match delta with
      | [] => segs
      | _ =>
          match last segs with
          | Some (Normal existing) => removelast segs ++ [Normal (existing ++ delta)]
          | _ => segs ++ [Normal delta]
          end
      end
  | TagDelta t delta =>
      match delta with
      | [] => segs
      | _ =>
          match last segs with
          | Some (TagDelta t' existing) =>
              if decide (t' = t) then removelast segs ++ [TagDelta t' (existing ++ delta)]
              else segs ++ [TagDelta t delta]
          | _ => segs ++ [TagDelta t delta]
          end
      end
  | TagStart t => segs ++ [TagStart t]
  | TagEnd t => segs ++ [TagEnd t]
  end.

Definition text_segment (p : parser) (text : str) : TaggedLineSegment T :=
  match open_tag p with Some t => TagDelta t text | None => Normal text end.

Definition push_text (p : parser) (text : str) (segs : segments) : segments :=
  push_segment segs (text_segment p text).

Definition is_tag_prefix (p : parser) (slug : str) : bool :=
  let slug := trim_end slug in
  existsb (fun s => starts_with slug (line_open s) || starts_with slug (line_close s)) (line_specs p).

(** [iter().find(..)] *)
Definition find_spec (f : TagSpec T -> bool) (specs : list (TagSpec T)) : option T :=
  option_map line_tag (head (filter (fun s => f s = true) specs)).

Definition match_open (p : parser) (slug : str) : option T :=
  find_spec (fun s => str_eqb (line_open s) slug) (line_specs p).
Definition match_close (p : parser) (slug : str) : option T :=
  find_spec (fun s => str_eqb (line_close s) slug) (line_specs p).

Definition update (open_tag : option T) (detect : bool) (buf : str) (p : parser) : parser :=
  {| line_specs := line_specs p; open_tag := open_tag; detect_tag := detect; line_buffer := buf |}.

(** The common part of [finish_line] and [finish]: a buffered line is a tag or text. *)
Definition end_line (detect : bool) (p : parser) (segs : segments) : parser * segments :=
  let line := line_buffer p in
  let without_newline := default line (strip_suffix [nl] line) in
  let slug := trim_end (trim_start without_newline) in
  match match_open p slug, open_tag p with
  | Some t, None => (update (Some t) detect [] p, push_segment segs (TagStart t))
  | _, _ =>
      match match_close p slug with
      | Some t =>
          if decide (open_tag p = Some t) then (update None detect [] p, push_segment segs (TagEnd t))
          else (update (open_tag p) detect [] p, push_text p line segs)
      | None => (update (open_tag p) detect [] p, push_text p line segs)
      end
  end.

Definition finish_line (p : parser) (segs : segments) : parser * segments := end_line true p segs.

(** One character of the loop of [parse], with the run of text collected so far. *)
Definition parse_char (ch : char) (c : parser * str * segments) : parser * str * segments :=
  let '(p, run, segs) := c in
  if detect_tag p then
    let segs := match run with [] => segs | _ => push_text p run segs end in
    let p := update (open_tag p) (detect_tag p) (line_buffer p ++ [ch]) p in
    if N.eqb ch nl then let '(p', segs') := finish_line p segs in (p', [], segs')
    else
      let slug := trim_start (line_buffer p) in
      if str_eqb slug [] || is_tag_prefix p slug then (p, [], segs)
      else (update (open_tag p) false [] p, [], push_text p (line_buffer p) segs)
  else
    let run := run ++ [ch] in
    if N.eqb ch nl then (update (open_tag p) true (line_buffer p) p, [], push_text p run segs)
    else (p, run, segs).

Definition flush (c : parser * str * segments) : parser * segments :=
  let '(p, run, segs) := c in
  (p, match run with [] => segs | _ => push_text p run segs end).

Definition parse_from (delta : str) (c : parser * str * segments) : parser * str * segments :=
  foldl (fun c ch => parse_char ch c) c delta.

Definition parse (delta : str) (p : parser) : parser * segments := flush (parse_from delta (p, [], [])).

Definition tagged_finish (p : parser) : parser * segments :=
  let '(p, segs) := match line_buffer p with [] => (p, []) | _ => end_line (detect_tag p) p [] end in
  let segs := match open_tag p with Some t => push_segment segs (TagEnd t) | None => segs end in
  (update None true (line_buffer p) p, segs).
End tagged.

(** ** Proposed plans *)

Definition OPEN_TAG : str := &"<proposed_plan>".
Definition CLOSE_TAG : str := &"</proposed_plan>".

Inductive PlanTag := ProposedPlan.
#[export] Instance PlanTag_eq_dec : EqDecision PlanTag.
Proof. solve_decision. Defined.

Inductive ProposedPlanSegment :=
| PlanNormal (text : str)
| ProposedPlanStart
| ProposedPlanDelta (text : str)
| ProposedPlanEnd.

Record ProposedPlanParser := { plan_parser : TaggedLineParser PlanTag }.

Definition new_plan_parser : ProposedPlanParser :=
  {| plan_parser := new_tagged [{| line_open := OPEN_TAG; line_close := CLOSE_TAG; line_tag := ProposedPlan |}] |}.

Definition map_segment (s : TaggedLineSegment PlanTag) : ProposedPlanSegment :=
  match s with
  | Normal text => PlanNormal text
  | TagStart ProposedPlan => ProposedPlanStart
  | TagDelta ProposedPlan text => ProposedPlanDelta text
  | TagEnd ProposedPlan => ProposedPlanEnd
  end.

Definition segment_visible (s : ProposedPlanSegment) : str :=
  match s with PlanNormal text => text | _ => [] end.

Definition map_segments (segs : list (TaggedLineSegment PlanTag)) : StreamTextChunk ProposedPlanSegment :=
  let mapped := map map_segment segs in
  {| visible_text := concat (map segment_visible mapped); extracted := mapped |}.

#[export] Instance proposed_plan_parser : StreamTextParser ProposedPlanParser ProposedPlanSegment := {|
  push_str text p :=
    let '(p', segs) := parse text (plan_parser p) in Ok (map_segments segs, {| plan_parser := p' |});
  finish p :=
    let '(p', segs) := tagged_finish (plan_parser p) in (map_segments segs, {| plan_parser := p' |})
|}.

Definition strip_proposed_plan_blocks (text : str) : comp False str :=
  let? '(out, p) := push_str text new_plan_parser in
  Ok (visible_text out ++ visible_text (finish p).1).

(** The text of the last plan block. *)
Definition plan_step (acc : str * bool) (s : ProposedPlanSegment) : str * bool :=
  match s with
  | ProposedPlanStart => ([], true)
  | ProposedPlanDelta delta => (acc.1 ++ delta, acc.2)
  | ProposedPlanEnd | PlanNormal _ => acc
  end.

Definition extract_proposed_plan_text (text : str) : comp False (option str) :=
  let? '(out, p) := push_str text new_plan_parser in
  let '(plan_text, saw_plan_block) := foldl plan_step ([], false) (extracted out ++ extracted (finish p).1) in
  Ok (if saw_plan_block then Some plan_text else None).

(** ** Assistant text *)

Record AssistantTextChunk := {
  assistant_visible : str;
  citations : list str;
  plan_segments : list ProposedPlanSegment
}.

Record AssistantTextStreamParser := {
  plan_mode : bool;
  citation_parser : CitationStreamParser;
  plan : ProposedPlanParser
}.

Definition new_assistant (plan_mode : bool) : comp False AssistantTextStreamParser :=
  let? c := new_citation_parser in
  Ok {| plan_mode := plan_mode; citation_parser := c; plan := new_plan_parser |}.

Definition parse_visible_text (text : str) (p : AssistantTextStreamParser)
  : comp False (AssistantTextChunk * AssistantTextStreamParser) :=
  if negb (plan_mode p)
  then Ok ({| assistant_visible := text; citations := []; plan_segments := [] |}, p)
  else
    let? '(plan_chunk, pl) := push_str text (plan p) in
    Ok ({| assistant_visible := visible_text plan_chunk; citations := [];
           plan_segments := extracted plan_chunk |},
        {| plan_mode := plan_mode p; citation_parser := citation_parser p; plan := pl |}).

Definition with_citations (cs : list str) (c : AssistantTextChunk) : AssistantTextChunk :=
  {| assistant_visible := assistant_visible c; citations := cs; plan_segments := plan_segments c |}.

Definition assistant_push_str (chunk : str) (p : AssistantTextStreamParser)
  : comp False (AssistantTextChunk * AssistantTextStreamParser) :=
  let? '(citation_chunk, cp) := push_str chunk (citation_parser p) in
  let p := {| plan_mode := plan_mode p; citation_parser := cp; plan := plan p |} in
  let? '(out, p) := parse_visible_text (visible_text citation_chunk) p in
  Ok (with_citations (extracted citation_chunk) out, p).

Definition assistant_finish (p : AssistantTextStreamParser)
  : comp False (AssistantTextChunk * AssistantTextStreamParser) :=
  let '(citation_chunk, cp) := finish (citation_parser p) in
  let p := {| plan_mode := plan_mode p; citation_parser := cp; plan := plan p |} in
  let? '(out, p) := parse_visible_text (visible_text citation_chunk) p in
  let '(out, p) :=
    if plan_mode p then
      let '(tail, pl) := finish (plan p) in
      let p := {| plan_mode := plan_mode p; citation_parser := citation_parser p; plan := pl |} in
      if chunk_is_default tail then (out, p)
      else ({| assistant_visible := assistant_visible out ++ visible_text tail; citations := citations out;
               plan_segments := plan_segments out ++ extracted tail |}, p)
    else (out, p) in
  Ok (with_citations (extracted citation_chunk) out, p).

(** ** Merging segments *)

Section tagged_proofs.
Context {T : Type} `{!EqDecision T}.
Notation parser := (TaggedLineParser T).
Notation segments := (list (TaggedLineSegment T)).
Implicit Types (p : parser) (segs : segments).

(** Appending the segments of a later call. *)
Definition extend segs (later : segments) : segments := foldl push_segment segs later.

Lemma last_snoc_inv {A} (l : list A) x : last l = Some x -> l = removelast l ++ [x].
Proof.
  intros Hl. destruct l as [|y l] using rev_ind; [done|]. rewrite last_snoc in Hl. simplify_eq.
  by rewrite removelast_last.
Qed.

(** Two texts of the same kind one after the other are their concatenation. *)
Lemma push_normal_app segs x y :
  push_segment (push_segment segs (Normal x)) (Normal y) = push_segment segs (Normal (x ++ y)).
Proof.
  destruct x as [|c x]; [done|]. destruct y as [|d y]; [by rewrite app_nil_r|]. unfold push_segment at 2 3.
  cbn [app]. destruct (last segs) as [[e| | |]|]; unfold push_segment; rewrite last_snoc, removelast_last;
    rewrite <- ?(assoc_L (++)); done.
Qed.

Lemma push_tag_delta_app segs t x y :
  push_segment (push_segment segs (TagDelta t x)) (TagDelta t y) = push_segment segs (TagDelta t (x ++ y)).
Proof.
  destruct x as [|c x]; [done|]. destruct y as [|d y]; [by rewrite app_nil_r|]. unfold push_segment at 2 3.
  cbn [app]. destruct (last segs) as [[e| |t' e|]|]; try case_decide; subst; unfold push_segment;
    rewrite last_snoc, removelast_last, decide_True by done; rewrite <- ?(assoc_L (++)); done.
Qed.

Lemma push_text_app p x y segs : push_text p (x ++ y) segs = push_text p y (push_text p x segs).
Proof.
  unfold push_text, text_segment. destruct (open_tag p); [by rewrite push_tag_delta_app|by rewrite push_normal_app].
Qed.

Lemma push_text_nil p segs : push_text p [] segs = segs.
Proof. unfold push_text, text_segment. by destruct (open_tag p). Qed.

Lemma push_segment_cases segs s :
  (forall segs', push_segment segs' s = segs') \/ push_segment segs s = segs ++ [s] \/
  (exists init x y, s = Normal y /\ segs = init ++ [Normal x] /\ push_segment segs s = init ++ [Normal (x ++ y)]) \/
  (exists init t x y, s = TagDelta t y /\ segs = init ++ [TagDelta t x] /\ push_segment segs s = init ++ [TagDelta t (x ++ y)]).
Proof.
  destruct s as [[|c y]|t|t [|c y]|t]; unfold push_segment; auto;
    destruct (last segs) as [[x| |t' x|]|] eqn:El; auto.
  - right. right. left. exists (removelast segs), x, (c :: y). split; [done|]. split; [by apply last_snoc_inv|done].
  - case_decide; subst; [|auto]. right. right. right. exists (removelast segs), t, x, (c :: y).
    split; [done|]. split; [by apply last_snoc_inv|done].
Qed.

Lemma extend_push S segs s : extend S (push_segment segs s) = push_segment (extend S segs) s.
Proof.
  destruct (push_segment_cases segs s) as [Hs|[Hs|[(i & x & y & -> & -> & Hs)|(i & t & x & y & -> & -> & Hs)]]];
    rewrite ?Hs; unfold extend; rewrite ?foldl_app; cbn [foldl].
  - done.
  - done.
  - by rewrite push_normal_app.
  - by rewrite push_tag_delta_app.
Qed.

Lemma extend_text S p x segs : extend S (push_text p x segs) = push_text p x (extend S segs).
Proof. apply extend_push. Qed.

Lemma extend_assoc S a b : extend S (extend a b) = extend (extend S a) b.
Proof.
  revert a. induction b as [|s b IH] using rev_ind; intros a; [done|].
  unfold extend at 2 3. rewrite !foldl_app. simpl. fold (extend a b). rewrite extend_push, IH. done.
Qed.

(** ** The result of [parse] does not depend on the cuts *)

Lemma flush_eq p run segs : flush (p, run, segs) = (p, push_text p run segs).
Proof. unfold flush. by destruct run; [rewrite push_text_nil|]. Qed.

(** Flushing the run early changes nothing. *)
Definition canon (c : parser * str * segments) : parser * str * segments :=
  ((flush c).1, [], (flush c).2).

Lemma canon_eq p run segs : canon (p, run, segs) = (p, [], push_text p run segs).
Proof. unfold canon. by rewrite flush_eq. Qed.

Lemma canon_char ch c : canon (parse_char ch (canon c)) = canon (parse_char ch c).
Proof.
  destruct c as [[p run] segs]. rewrite canon_eq. unfold parse_char. destruct (detect_tag p).
  - replace (match run with [] => segs | _ => push_text p run segs end) with (push_text p run segs)
      by (destruct run; [apply push_text_nil|done]). done.
  - destruct (N.eqb ch nl); rewrite !canon_eq; simpl.
    + by rewrite (push_text_app p run [ch]).
    + by rewrite push_text_app.
Qed.

Lemma parse_from_cons ch delta (c : parser * str * segments) :
  parse_from (ch :: delta) c = parse_from delta (parse_char ch c).
Proof. done. Qed.

Lemma canon_from delta c : canon (parse_from delta (canon c)) = canon (parse_from delta c).
Proof.
  revert c. induction delta as [|ch delta IH]; intros c.
  { destruct c as [[p run] segs]. cbn [parse_from foldl]. by rewrite !canon_eq, push_text_nil. }
  rewrite !parse_from_cons, <- (IH (parse_char ch (canon c))), canon_char. apply IH.
Qed.

(** Earlier segments stay in front. *)
Definition after (S : segments) (c : parser * str * segments) : parser * str * segments :=
  let '(p, run, segs) := c in (p, run, extend S segs).

Lemma end_line_after S d p segs :
  end_line d p (extend S segs) = let '(p', segs') := end_line d p segs in (p', extend S segs').
Proof. unfold end_line. repeat case_match; rewrite ?extend_push, ?extend_text; done. Qed.

Lemma parse_char_after S ch c : parse_char ch (after S c) = after S (parse_char ch c).
Proof.
  destruct c as [[p run] segs]. unfold after at 1, parse_char. destruct (detect_tag p).
  - replace (match run with [] => extend S segs | _ => push_text p run (extend S segs) end)
      with (extend S (match run with [] => segs | _ => push_text p run segs end))
      by (destruct run; [done|apply extend_text]).
    destruct (N.eqb ch nl).
    + unfold finish_line. rewrite end_line_after. by destruct (end_line _ _ _).
    + case_match; [done|]. unfold after. by rewrite extend_text.
  - destruct (N.eqb ch nl); unfold after; [by rewrite extend_text|done].
Qed.

Lemma parse_from_after S delta c : parse_from delta (after S c) = after S (parse_from delta c).
Proof.
  unfold parse_from. revert c. induction delta as [|ch delta IH]; intros c; simpl; [done|].
  by rewrite parse_char_after, IH.
Qed.

Lemma parse_app a b p :
  parse (a ++ b) p =
  (let '(p1, s1) := parse a p in let '(p2, s2) := parse b p1 in (p2, extend s1 s2)).
Proof.
  unfold parse, parse_from at 1. rewrite foldl_app.
  fold (parse_from a (p, [], [])). fold (parse_from b (parse_from a (p, [], []))).
  destruct (parse_from a (p, [], [])) as [[p1 run1] segs1] eqn:Ea. rewrite (flush_eq p1 run1 segs1).
  pose proof (canon_from b (p1, run1, segs1)) as Hc. rewrite canon_eq in Hc.
  change (p1, [], push_text p1 run1 segs1) with (after (push_text p1 run1 segs1) (p1, [], [])) in Hc.
  rewrite parse_from_after in Hc. destruct (parse_from b (p1, [], [])) as [[p2 run2] segs2].
  destruct (parse_from b (p1, run1, segs1)) as [[p3 run3] segs3]. unfold after in Hc. rewrite !canon_eq in Hc.
  rewrite !flush_eq. injection Hc as <- <-. by rewrite extend_text.
Qed.

Lemma parse_nil p : parse [] p = (p, []).
Proof. done. Qed.

(** Several calls. *)
Fixpoint parse_all (deltas : list str) p : parser * segments :=
  match deltas with
  | [] => (p, [])
  | d :: ds => let '(p1, s1) := parse d p in let '(p2, s2) := parse_all ds p1 in (p2, s1 ++ s2)
  end.

(** The output of one call is already merged. *)
Lemma parse_merged d p : extend [] (parse d p).2 = (parse d p).2.
Proof.
  pose proof (parse_app [] d p) as H. rewrite parse_nil in H. cbn [app] in H. destruct (parse d p) as [p' s].
  simpl. by injection H as <-.
Qed.

Lemma parse_all_concat deltas p :
  (parse_all deltas p).1 = (parse (concat deltas) p).1 /\
  extend [] (parse_all deltas p).2 = (parse (concat deltas) p).2.
Proof.
  revert p. induction deltas as [|d ds IH]; intros p; [done|]. cbn [parse_all concat]. rewrite parse_app.
  pose proof (parse_merged d p) as Hm. destruct (parse d p) as [p1 s1]. destruct (IH p1) as [IH1 IH2].
  destruct (parse_all ds p1) as [p2 s2]. destruct (parse (concat ds) p1) as [p3 s3]. simpl in *. subst.
  split; [done|]. unfold extend in *. rewrite foldl_app, Hm. symmetry. apply (extend_assoc s1 [] s2).
Qed.

(** ** What the blocks of a text are

    Read a line at a time: a line that is a tag when trimmed starts or ends a
    block, any other line is text of the current block or outside of blocks. *)

Definition inside (o : option T) (text : str) : TaggedLineSegment T :=
  match o with Some t => TagDelta t text | None => Normal text end.

Definition line_step (specs : list (TagSpec T)) (c : option T * segments) (line : str) : option T * segments :=
  let '(o, segs) := c in
  match o with
  | None =>
      match find_spec (fun s => str_eqb (line_open s) (trim line)) specs with
      | Some t => (Some t, push_segment segs (TagStart t))
      | None => (None, push_segment segs (Normal line))
      end
  | Some t =>
      if decide (find_spec (fun s => str_eqb (line_close s) (trim line)) specs = Some t)
      then (None, push_segment segs (TagEnd t))
      else (Some t, push_segment segs (TagDelta t line))
  end.

(** The lines of a text with their line feeds; the last may lack it. *)
Definition split_inclusive (text : str) : list str :=
  map (fun l => l ++ [nl]) (split_nl text).1 ++ match (split_nl text).2 with [] => [] | l => [l] end.

(** A block that is still open at the end is closed there. *)
Definition close_block (c : option T * segments) : segments :=
  match c.1 with Some t => push_segment c.2 (TagEnd t) | None => c.2 end.

Definition block_segments (specs : list (TagSpec T)) (text : str) : segments :=
  close_block (foldl (line_step specs) (None, []) (split_inclusive text)).

(** ** The parser reads lines *)

Definition fresh (o : option T) p : Prop := open_tag p = o /\ detect_tag p = true /\ line_buffer p = [].

Lemma find_spec_Some f (specs : list (TagSpec T)) t :
  find_spec f specs = Some t -> exists s, s ∈ specs /\ f s = true.
Proof.
  unfold find_spec. destruct (filter _ specs) as [|s l] eqn:E; [done|]. intros _. exists s.
  assert (s ∈ filter (fun s => f s = true) specs) as Hs by (rewrite E; left).
  by apply list_elem_of_filter in Hs as [? ?].
Qed.

(** A line the parser has given up on is no tag, whatever follows. *)
Lemma not_prefix_no_tag p l slug f :
  trim_start l <> [] -> is_tag_prefix p (trim_start l) = false -> f = line_open \/ f = line_close ->
  find_spec (fun s : TagSpec T => str_eqb (f s) (trim (l ++ slug))) (line_specs p) = None.
Proof.
  intros Hne Hp Hf. destruct (find_spec _ _) as [t|] eqn:E; [|done]. exfalso.
  apply find_spec_Some in E as (s & Hs & Heq%str_eqb_eq). apply not_true_iff_false in Hp. apply Hp.
  unfold is_tag_prefix. apply existsb_exists. exists s. split; [by apply list_elem_of_In|].
  pose proof (trim_end_app_prefix (trim_start l) slug) as Hpre. unfold trim in Heq.
  rewrite trim_start_app in Heq by done. rewrite <- Heq in Hpre. apply starts_with_prefix in Hpre.
  destruct Hf as [-> | ->]; rewrite Hpre, ?orb_true_r; done.
Qed.

Definition no_tag p (l : str) : Prop := forall rest f, f = line_open \/ f = line_close ->
  find_spec (fun s : TagSpec T => str_eqb (f s) (trim (l ++ rest))) (line_specs p) = None.

Lemma no_tag_app p l x : no_tag p l -> no_tag p (l ++ x).
Proof. intros H rest. rewrite <- (assoc_L (++)). apply H. Qed.

(** Within a line: still undecided, or known to be text and passed on. *)
Definition in_line p (l : str) (c : parser * str * segments) : Prop :=
  c = (update (open_tag p) true l p, [], []) \/
  no_tag p l /\ exists run segs, c = (update (open_tag p) false [] p, run, segs) /\
    push_text p run segs = push_text p l [].

Lemma parse_from_snoc ch delta (c : parser * str * segments) :
  parse_from (delta ++ [ch]) c = parse_char ch (parse_from delta c).
Proof. unfold parse_from. by rewrite foldl_app. Qed.

Lemma parse_in_line o p l : fresh o p -> nl ∉ l -> in_line p l (parse_from l (p, [], [])).
Proof.
  intros (Ho & Hd & Hb). induction l as [|ch l IH] using rev_ind; intros Hl.
  { left. unfold parse_from, update. simpl. destruct p; simpl in *; by subst. }
  apply not_elem_of_app in Hl as [Hl Hch%not_elem_of_cons]. destruct Hch as [Hch _].
  rewrite parse_from_snoc. destruct (IH Hl) as [-> |(Hn & run & segs & -> & Hr)]; unfold parse_char; simpl.
  - destruct (N.eqb_spec ch nl); [done|].
    destruct (str_eqb (trim_start (l ++ [ch])) [] || _) eqn:E; [by left|].
    apply orb_false_elim in E as [E1%str_eqb_neq E2]. right. split.
    + intros rest f Hf. by apply not_prefix_no_tag.
    + eexists _, _. split; [done|]. apply push_text_nil.
  - destruct (N.eqb_spec ch nl); [done|]. right. split; [by apply no_tag_app|]. eexists _, _. split; [done|].
    rewrite !push_text_app. by rewrite Hr.
Qed.

Lemma no_tag_step p l (rest : str) segs :
  no_tag p l -> line_step (line_specs p) (open_tag p, segs) (l ++ rest) = (open_tag p, push_text p (l ++ rest) segs).
Proof.
  intros Hn. unfold line_step, push_text, text_segment. destruct (open_tag p) as [t|].
  - rewrite (Hn rest line_close) by auto. by rewrite decide_False.
  - by rewrite (Hn rest line_open) by auto.
Qed.

(** The guards of the code on a buffered line. *)
Lemma end_line_step d p segs :
  let r := line_step (line_specs p) (open_tag p, segs) (line_buffer p) in
  end_line d p segs = (update r.1 d [] p, r.2).
Proof.
  unfold end_line, line_step, match_open, match_close, push_text, text_segment.
  assert (trim_end (trim_start (default (line_buffer p) (strip_suffix [nl] (line_buffer p)))) = trim (line_buffer p)) as ->.
  { destruct (strip_suffix _ _) as [l|] eqn:E; [|done]. apply strip_suffix_Some in E as ->. simpl.
    by rewrite trim_snoc_ws. }
  destruct (open_tag p) as [t|]; repeat (case_decide || case_match); simpl; congruence.
Qed.

Lemma update_idem o d b o' d' b' p : update o d b (update o' d' b' p) = update o d b p.
Proof. done. Qed.

(** A complete line. *)
Lemma parse_line o p l :
  fresh o p -> nl ∉ l ->
  let r := line_step (line_specs p) (o, []) (l ++ [nl]) in
  parse (l ++ [nl]) p = (update r.1 true [] p, r.2).
Proof.
  intros Hf Hl. pose proof (parse_in_line o p l Hf Hl) as Hi. destruct Hf as (<- & Hd & Hb). cbn zeta.
  unfold parse. rewrite parse_from_snoc. destruct Hi as [-> |(Hn & run & segs & -> & Hr)]; unfold parse_char;
    cbn [update detect_tag]; rewrite N.eqb_refl.
  - unfold finish_line. by rewrite end_line_step.
  - rewrite no_tag_step by done. rewrite flush_eq, push_text_nil. cbn [fst snd]. f_equal.
    rewrite (push_text_app p l), <- Hr. apply (push_text_app p).
Qed.

Lemma line_step_after S specs o segs l :
  line_step specs (o, extend S segs) l =
  let r := line_step specs (o, segs) l in (r.1, extend S r.2).
Proof. unfold line_step. repeat (case_decide || case_match); cbn [fst snd]; by rewrite extend_push. Qed.

Lemma close_block_after S o segs : close_block (o, extend S segs) = extend S (close_block (o, segs)).
Proof. unfold close_block. cbn [fst snd]. destruct o; [by rewrite extend_push|done]. Qed.

Lemma foldl_line_step_after S specs o segs ls :
  foldl (line_step specs) (o, extend S segs) ls =
  let r := foldl (line_step specs) (o, segs) ls in (r.1, extend S r.2).
Proof.
  revert o segs. induction ls as [|l ls IH]; intros o segs; cbn [foldl]; [done|].
  rewrite line_step_after. cbn zeta. destruct (line_step specs (o, segs) l) as [o' segs']. apply IH.
Qed.

(** The last line, and the end of the stream. *)
Lemma finish_rest o p l :
  fresh o p -> nl ∉ l ->
  let '(p1, s1) := parse l p in
  let '(p2, s2) := tagged_finish p1 in
  fresh None p2 /\
  extend s1 s2 = close_block (match l with [] => (o, []) | _ => line_step (line_specs p) (o, []) l end).
Proof.
  intros Hf Hl. pose proof (parse_in_line o p l Hf Hl) as Hi. destruct Hf as (<- & Hd & Hb). unfold parse.
  destruct Hi as [-> |(Hn & run & segs & -> & Hr)]; rewrite flush_eq.
  - rewrite push_text_nil. unfold tagged_finish. cbn [update line_buffer detect_tag]. destruct l as [|c l].
    + cbn. by destruct (open_tag p).
    + rewrite end_line_step. cbn [update line_specs open_tag line_buffer].
      pose proof (line_step_after [] (line_specs p) (open_tag p) [] (c :: l)) as Ha.
      change (extend [] []) with ([] : segments) in Ha.
      destruct (line_step _ _ _) as [[t|] segs]; injection Ha as Ha; cbn [fst snd update open_tag]; split; [done| |done|done].
      rewrite extend_push. by rewrite <- Ha.
  - unfold tagged_finish. cbn [update line_buffer open_tag].
    split; [done|]. change (push_text (update (open_tag p) false [] p) run segs) with (push_text p run segs).
    rewrite Hr. pose proof (no_tag_step p l [] [] Hn) as Hs. rewrite app_nil_r in Hs. destruct l as [|c l].
    + rewrite push_text_nil. by destruct (open_tag p).
    + rewrite Hs. unfold close_block. cbn [fst snd]. by destruct (open_tag p).
Qed.

Lemma parse_lines o p ls :
  fresh o p -> Forall (fun l => nl ∉ l) ls ->
  let r := foldl (line_step (line_specs p)) (o, []) (map (fun l => l ++ [nl]) ls) in
  parse (concat (map (fun l => l ++ [nl]) ls)) p = (update r.1 true [] p, r.2).
Proof.
  intros Hf Hls. revert o p Hf. induction Hls as [|l ls Hl _ IH]; intros o p Hf.
  { destruct Hf as (<- & Hd & Hb). destruct p; simpl in *; by subst. }
  cbn [map concat foldl]. rewrite parse_app, (parse_line o) by done. cbn zeta.
  destruct (line_step (line_specs p) (o, []) (l ++ [nl])) as [o1 s1]. cbn [fst snd].
  rewrite (IH o1) by done. cbn [update line_specs].
  pose proof (foldl_line_step_after s1 (line_specs p) o1 [] (map (fun l => l ++ [nl]) ls)) as Ha.
  change (extend s1 []) with s1 in Ha. by rewrite Ha.
Qed.

Lemma parse_finish_blocks specs text :
  let '(p1, s1) := parse text (new_tagged specs) in
  let '(p2, s2) := tagged_finish p1 in
  fresh None p2 /\ extend s1 s2 = block_segments specs text.
Proof.
  unfold block_segments, split_inclusive. rewrite foldl_app. pose proof (split_nl_concat text) as Ht.
  destruct (split_nl_free text) as [Hls Hl]. destruct (split_nl text) as [ls l]. cbn [fst snd] in *.
  rewrite Ht, parse_app, (parse_lines None) by done. cbn [new_tagged line_specs]. cbn zeta.
  destruct (foldl _ _ _) as [o1 s1]. cbn [fst snd].
  pose proof (finish_rest o1 (update o1 true [] (new_tagged specs)) l ltac:(done) Hl) as Hr.
  destruct (parse l _) as [p2 s2]. destruct (tagged_finish p2) as [p3 s3]. destruct Hr as [Hfr Hr].
  split; [done|]. rewrite <- extend_assoc, Hr. cbn [update line_specs new_tagged].
  destruct l as [|c l]; [by rewrite <- close_block_after|].
  pose proof (line_step_after s1 specs o1 [] (c :: l)) as Ha. change (extend s1 []) with s1 in Ha.
  cbn [foldl]. rewrite Ha. destruct (line_step specs (o1, []) (c :: l)) as [o2 s2']. symmetry. apply close_block_after.
Qed.
End tagged_proofs.

(** ** Plans *)

Definition plan_specs : list (TagSpec PlanTag) :=
  [{| line_open := OPEN_TAG; line_close := CLOSE_TAG; line_tag := ProposedPlan |}].

(** The plan blocks of a text and the text around them. *)
Definition plan_blocks (text : str) : list ProposedPlanSegment :=
  map map_segment (block_segments plan_specs text).

(** What the segments show, and the text of the last plan among them. *)
Definition shown_text (segs : list ProposedPlanSegment) : str := concat (map segment_visible segs).
Definition last_plan (segs : list ProposedPlanSegment) : option str :=
  let '(plan_text, saw) := foldl plan_step ([], false) segs in if saw then Some plan_text else None.

(** Neighbouring texts of the same kind as one. *)
Definition unmap_segment (s : ProposedPlanSegment) : TaggedLineSegment PlanTag :=
  match s with
  | PlanNormal text => Normal text
  | ProposedPlanStart => TagStart ProposedPlan
  | ProposedPlanDelta text => TagDelta ProposedPlan text
  | ProposedPlanEnd => TagEnd ProposedPlan
  end.
Definition merged (segs : list ProposedPlanSegment) : list ProposedPlanSegment :=
  map map_segment (extend [] (map unmap_segment segs)).

Lemma unmap_map segs : map unmap_segment (map map_segment segs) = segs.
Proof. rewrite map_map. rewrite <- (map_id segs) at 2. apply map_ext. by intros [|[]|[]|[]]. Qed.

(** Merging keeps what is shown and the text of the plans. *)
Lemma shown_push segs (s : TaggedLineSegment PlanTag) :
  shown_text (map map_segment (push_segment segs s)) =
  shown_text (map map_segment segs) ++ segment_visible (map_segment s).
Proof.
  destruct (push_segment_cases segs s) as [Hs|[Hs|[(i & x & y & -> & -> & Hs)|(i & [] & x & y & -> & -> & Hs)]]];
    rewrite ?Hs; unfold shown_text; rewrite ?map_app, ?concat_app; cbn; rewrite ?app_nil_r, <- ?(assoc_L (++)); try done.
  specialize (Hs []). destruct s as [[]|[]|[] []|[]]; try done; by rewrite app_nil_r.
Qed.

Lemma shown_extend a b :
  shown_text (map map_segment (extend a b)) = shown_text (map map_segment a) ++ shown_text (map map_segment b).
Proof.
  induction b as [|s b IH] using rev_ind; [by rewrite app_nil_r|].
  unfold extend. rewrite foldl_app. cbn [foldl]. fold (extend a b). rewrite shown_push, IH.
  unfold shown_text. rewrite !map_app, concat_app. cbn. by rewrite app_nil_r, (assoc_L (++)).
Qed.

Lemma plan_fold_push acc segs (s : TaggedLineSegment PlanTag) :
  foldl plan_step acc (map map_segment (push_segment segs s)) =
  plan_step (foldl plan_step acc (map map_segment segs)) (map_segment s).
Proof.
  destruct (push_segment_cases segs s) as [Hs|[Hs|[(i & x & y & -> & -> & Hs)|(i & [] & x & y & -> & -> & Hs)]]];
    rewrite ?Hs, ?map_app, ?foldl_app; cbn; try done.
  - specialize (Hs []). destruct s as [[]|[]|[] []|[]]; try done. cbn. rewrite app_nil_r. by destruct (foldl _ _ _).
  - by rewrite (assoc_L (++)).
Qed.

Lemma plan_fold_extend acc a b :
  foldl plan_step acc (map map_segment (extend a b)) = foldl plan_step acc (map map_segment (a ++ b)).
Proof.
  induction b as [|s b IH] using rev_ind; [by rewrite app_nil_r|].
  unfold extend. rewrite (assoc_L (++)), map_app, !foldl_app. cbn [foldl map]. fold (extend a b).
  by rewrite plan_fold_push, IH.
Qed.

(** ** Assistant text *)

Definition assistant_app (a b : AssistantTextChunk) : AssistantTextChunk :=
  {| assistant_visible := assistant_visible a ++ assistant_visible b;
     citations := citations a ++ citations b;
     plan_segments := plan_segments a ++ plan_segments b |}.

(** Feeding the pieces of a message. *)
Fixpoint assistant_push_all (chunks : list str) (p : AssistantTextStreamParser)
  : comp False (AssistantTextChunk * AssistantTextStreamParser) :=
  match chunks with
  | [] => Ok ({| assistant_visible := []; citations := []; plan_segments := [] |}, p)
  | c :: cs =>
      let? '(o1, p1) := assistant_push_str c p in
      let? '(o2, p2) := assistant_push_all cs p1 in
      Ok (assistant_app o1 o2, p2)
  end.

(** What the second parser makes of the pieces of visible text of the first. *)
Definition second (mode : bool) (vs : list str) (pl : ProposedPlanParser)
  : ProposedPlanParser * str * list ProposedPlanSegment :=
  if mode then
    let '(p', segs) := parse_all vs (plan_parser pl) in
    ({| plan_parser := p' |}, shown_text (map map_segment segs), map map_segment segs)
  else (pl, concat vs, []).

Lemma shown_app a b : shown_text (a ++ b) = shown_text a ++ shown_text b.
Proof. unfold shown_text. by rewrite map_app, concat_app. Qed.

Lemma parse_all_app a b (p : TaggedLineParser PlanTag) :
  parse_all (a ++ b) p =
  let '(p1, s1) := parse_all a p in let '(p2, s2) := parse_all b p1 in (p2, s1 ++ s2).
Proof.
  revert p. induction a as [|d a IH]; intros p; cbn [parse_all app]; [by destruct (parse_all b p)|].
  destruct (parse d p) as [p1 s1]. rewrite IH. destruct (parse_all a p1) as [p2 s2].
  destruct (parse_all b p2). by rewrite (assoc_L (++)).
Qed.

Lemma second_app mode a b pl :
  second mode (a ++ b) pl =
  let '(pl1, v1, s1) := second mode a pl in
  let '(pl2, v2, s2) := second mode b pl1 in (pl2, v1 ++ v2, s1 ++ s2).
Proof.
  unfold second. destruct mode; [|by rewrite concat_app]. rewrite parse_all_app.
  destruct (parse_all a (plan_parser pl)) as [p1 s1]. cbn [plan_parser]. destruct (parse_all b p1) as [p2 s2].
  by rewrite map_app, shown_app.
Qed.

Lemma parse_visible_second text p :
  parse_visible_text text p =
  let '(pl, v, s) := second (plan_mode p) [text] (plan p) in
  Ok ({| assistant_visible := v; citations := []; plan_segments := s |},
      {| plan_mode := plan_mode p; citation_parser := citation_parser p; plan := pl |}).
Proof.
  unfold parse_visible_text, second. destruct p as [[] cp pl]; cbn.
  - destruct (parse text (plan_parser pl)) as [p' segs]. cbn. by rewrite app_nil_r.
  - by rewrite app_nil_r.
Qed.

(** The two parsers run one behind the other. *)
Lemma assistant_push_all_second chunks mode cp pl o cq :
  push_all chunks cp = Ok (o, cq) ->
  exists vs, concat vs = visible_text o /\
    let '(pl', v, s) := second mode vs pl in
    assistant_push_all chunks {| plan_mode := mode; citation_parser := cp; plan := pl |} =
    Ok ({| assistant_visible := v; citations := extracted o; plan_segments := s |},
        {| plan_mode := mode; citation_parser := cq; plan := pl' |}).
Proof.
  revert cp pl o. induction chunks as [|c cs IH]; intros cp pl o; cbn [push_all assistant_push_all].
  { intros [= <- <-]. exists []. split; [done|]. unfold second. by destruct mode; destruct pl. }
  intros H. apply comp_bind_Ok in H as ([o1 cp1] & H1 & H). apply comp_bind_Ok in H as ([o2 cp2] & H2 & H).
  injection H as <- ->. unfold assistant_push_str. cbn [citation_parser plan_mode plan]. rewrite H1.
  cbn [comp_bind]. rewrite parse_visible_second. cbn [citation_parser plan_mode plan].
  destruct (second mode [visible_text o1] pl) as [[pl1 v1] s1] eqn:E1. cbn [comp_bind].
  destruct (IH cp1 pl1 o2 H2) as (vs & Hvs & Hr). exists (visible_text o1 :: vs).
  split; [cbn; by rewrite Hvs|]. rewrite (second_app mode [visible_text o1] vs), E1.
  destruct (second mode vs pl1) as [[pl2 v2] s2]. rewrite Hr. done.
Qed.

(** At the end of the message. *)
Lemma assistant_finish_second mode cp pl :
  let '(pl1, v1, s1) := second mode [visible_text (finish cp).1] pl in
  let tail := if mode then (finish pl1).1 else default_chunk in
  exists q, assistant_finish {| plan_mode := mode; citation_parser := cp; plan := pl |} =
    Ok ({| assistant_visible := v1 ++ visible_text tail; citations := extracted (finish cp).1;
           plan_segments := s1 ++ extracted tail |}, q).
Proof.
  unfold assistant_finish. cbn [citation_parser plan_mode plan]. destruct (finish cp) as [c cp']. cbn [fst].
  rewrite parse_visible_second. cbn [citation_parser plan_mode plan].
  destruct (second mode [visible_text c] pl) as [[pl1 v1] s1]. cbn [comp_bind plan_mode plan citation_parser].
  destruct mode; [|eexists; cbn; by rewrite !app_nil_r].
  destruct (finish pl1) as [tail pl2]. cbn [fst]. eexists. unfold chunk_is_default.
  destruct (visible_text tail) eqn:Ev, (extracted tail) eqn:Ee; cbn; rewrite ?app_nil_r, ?Ev, ?Ee, ?app_nil_r; done.
Qed.

(** Whatever the pieces, the plan parser finds the blocks of the whole text. *)
Lemma plan_pieces vs :
  let '(pl, v, s) := second true vs new_plan_parser in
  let all := s ++ extracted (finish pl).1 in
  merged all = plan_blocks (concat vs) /\
  v ++ visible_text (finish pl).1 = shown_text (plan_blocks (concat vs)) /\
  last_plan all = last_plan (plan_blocks (concat vs)).
Proof.
  unfold second. destruct (parse_all_concat vs (plan_parser new_plan_parser)) as [H1 H2].
  pose proof (parse_finish_blocks plan_specs (concat vs)) as Hb.
  change (plan_parser new_plan_parser) with (new_tagged plan_specs) in *.
  destruct (parse_all vs (new_tagged plan_specs)) as [p1 s1]. cbn [fst snd] in *.
  destruct (parse (concat vs) (new_tagged plan_specs)) as [p2 s2]. cbn [fst snd] in *. subst p2 s2.
  cbn [finish proposed_plan_parser plan_parser]. destruct (tagged_finish p1) as [p3 s3]. destruct Hb as [_ Hb].
  unfold plan_blocks. rewrite <- Hb. cbn [map_segments visible_text extracted fst snd]. rewrite <- map_app.
  assert (extend (extend [] s1) s3 = extend [] (s1 ++ s3)) as -> by (unfold extend; by rewrite foldl_app).
  split_and!.
  - unfold merged. by rewrite unmap_map.
  - rewrite shown_extend, map_app, shown_app. done.
  - unfold last_plan. by rewrite plan_fold_extend.
Qed.

Lemma plan_one_shot text :
  strip_proposed_plan_blocks text = Ok (shown_text (plan_blocks text)) /\
  extract_proposed_plan_text text = Ok (last_plan (plan_blocks text)).
Proof.
  pose proof (plan_pieces [text]) as H. unfold second in H. cbn [parse_all concat] in H. rewrite app_nil_r in H.
  unfold strip_proposed_plan_blocks, extract_proposed_plan_text. cbn [push_str proposed_plan_parser].
  destruct (parse text (plan_parser new_plan_parser)) as [p1 s1]. rewrite app_nil_r in H.
  destruct H as (_ & Hv & Hp). cbn [comp_bind]. rewrite <- Hv, <- Hp. split; [done|].
  unfold last_plan. cbn [map_segments extracted]. by destruct (foldl _ _ _).
Qed.

(** C35: however the text of an assistant message is cut into pieces, the streaming
    parser returns for each of them, and what it has reported when the message is
    finished is what the one-shot functions say of the whole text: the citations
    of [strip_citations]; outside of plan mode its visible text; in plan mode the
    visible text without the plan blocks, the last plan's text, and, once
    neighbouring texts of the same kind are merged, the segments that a reading
    line by line gives, where only a line that is a tag when trimmed starts or
    ends a block. *)
Theorem assistant_text_any_cut mode chunks :
  exists p out q tail q' v cs,
    new_assistant mode = Ok p /\ assistant_push_all chunks p = Ok (out, q) /\
    assistant_finish q = Ok (tail, q') /\ strip_citations (concat chunks) = Ok (v, cs) /\
    let all := assistant_app out tail in
    citations all = cs /\
    if mode then
      merged (plan_segments all) = plan_blocks v /\
      strip_proposed_plan_blocks v = Ok (assistant_visible all) /\
      extract_proposed_plan_text v = Ok (last_plan (plan_segments all))
    else assistant_visible all = v /\ plan_segments all = [].
Proof.
  destruct (citation_stripped chunks) as (cp & o & cq & Hn & Hp & _).
  pose proof (citation_strip chunks cp o cq Hn Hp) as Hstrip.
  destruct (assistant_push_all_second chunks mode cp new_plan_parser o cq Hp) as (vs & Hvs & Hpush).
  destruct (second mode vs new_plan_parser) as [[pl1 v1] s1] eqn:E1.
  pose proof (assistant_finish_second mode cq pl1) as Hfin.
  destruct (second mode [visible_text (finish cq).1] pl1) as [[pl2 v2] s2] eqn:E2. destruct Hfin as [q' Hfin].
  pose proof (second_app mode vs [visible_text (finish cq).1] new_plan_parser) as Hall. rewrite E1, E2 in Hall.
  eexists _, _, _, _, q', _, _. do 4 (split; [by first [unfold new_assistant; rewrite Hn|exact Hpush|exact Hfin|exact Hstrip]|]).
  cbn zeta. split; [done|].
  cbn [assistant_app assistant_visible plan_segments chunk_app visible_text].
  assert (concat (vs ++ [visible_text (finish cq).1]) = visible_text o ++ visible_text (finish cq).1) as Hcat
    by (by rewrite concat_app, Hvs; cbn; rewrite app_nil_r).
  destruct mode.
  - pose proof (plan_pieces (vs ++ [visible_text (finish cq).1])) as Hpl. rewrite Hall, Hcat in Hpl.
    destruct Hpl as (Hm & Hv & Hlast). destruct (plan_one_shot (visible_text o ++ visible_text (finish cq).1)) as [-> ->].
    rewrite !(assoc_L (++)). by rewrite Hm, Hv, Hlast.
  - cbn in Hall. injection Hall as _ Hv Hs. cbn. rewrite !app_nil_r, <- Hv, <- Hs. done.
Qed.
