(* ===== verification/Utf8Stream.v ===== *)
(** * utils/stream-parser: text that arrives as bytes

    Validation and decoding of UTF-8 as [std::str::from_utf8] does it, and
    [Utf8StreamParser], which feeds another parser with the text of the bytes
    and keeps the beginning of a code point that is not complete. *)
From S2P Require Import Prelude RustStr StreamText.
From Stdlib Require Import ZifyBool ZifyN.
#[local] Open Scope N_scope.

(** ** UTF-8 in the standard library *)

Notation bytes := (list N).

Definition between (lo hi b : N) : bool := (lo <=? b) && (b <=? hi).
Definition is_continuation (b : N) : bool := between 0x80 0xBF b.

(** The bytes allowed behind the first byte of three and of four. *)
Definition second_of_three (b0 b1 : N) : bool :=
  (b0 =? 0xE0) && between 0xA0 0xBF b1 || between 0xE1 0xEC b0 && between 0x80 0xBF b1 ||
  (b0 =? 0xED) && between 0x80 0x9F b1 || between 0xEE 0xEF b0 && between 0x80 0xBF b1.
Definition second_of_four (b0 b1 : N) : bool :=
  (b0 =? 0xF0) && between 0x90 0xBF b1 || between 0xF1 0xF3 b0 && between 0x80 0xBF b1 ||
  (b0 =? 0xF4) && between 0x80 0x8F b1.

(** [utf8_acc_cont_byte] *)
Definition acc (ch b : N) : N := N.lor (N.shiftl ch 6) (N.land b 0x3F).

Inductive decoded :=
| Decoded (c : char) (width : nat)
| Invalid (error_len : nat)
| Incomplete.

Definition decode_char (bs : bytes) : decoded :=
  match bs with
  | [] => Incomplete
  | b0 :: r =>
      if b0 <? 0x80 then Decoded b0 1
      else if between 0xC2 0xDF b0 then
        match r with
        | [] => Incomplete
        | b1 :: _ => if is_continuation b1 then Decoded (acc (N.land b0 0x1F) b1) 2 else Invalid 1
        end
      else if between 0xE0 0xEF b0 then
        match r with
        | [] => Incomplete
        | b1 :: r =>
            if second_of_three b0 b1 then
              match r with
              | [] => Incomplete
              | b2 :: _ =>
                  if is_continuation b2 then Decoded (acc (acc (N.land b0 0x0F) b1) b2) 3 else Invalid 2
              end
            else Invalid 1
        end
      else if between 0xF0 0xF4 b0 then
        match r with
        | [] => Incomplete
        | b1 :: r =>
            if second_of_four b0 b1 then
              match r with
              | [] => Incomplete
              | b2 :: r =>
                  if is_continuation b2 then
                    match r with
                    | [] => Incomplete
                    | b3 :: _ =>
                        if is_continuation b3
                        then Decoded (acc (acc (acc (N.land b0 0x07) b1) b2) b3) 4 else Invalid 3
                    end
                  else Invalid 2
              end
            else Invalid 1
        end
      else Invalid 1
  end.

Record Utf8Error := { valid_up_to : nat; error_len : option nat }.

(** The text in front of the error, the number of its bytes, and the error. *)
Fixpoint validate (fuel : nat) (bs : bytes) : str * nat * option (option nat) :=
  match bs, fuel with
  | [], _ => ([], 0%nat, None)
  | _, 0%nat => ([], 0%nat, Some None)
  | _, S fuel' =>
      match decode_char bs with
      | Decoded c w =>
          let '(t, n, e) := validate fuel' (drop w bs) in (c :: t, (w + n)%nat, e)
      | Invalid k => ([], 0%nat, Some (Some k))
      | Incomplete => ([], 0%nat, Some None)
      end
  end.

Definition from_utf8 (bs : bytes) : str + Utf8Error :=
  match validate (length bs) bs with
  | (t, _, None) => inl t
  | (_, n, Some e) => inr {| valid_up_to := n; error_len := e |}
  end.

(** [char::encode_utf8] *)
Definition encode_char (c : char) : bytes :=
  if c <? 0x80 then [c]
  else if c <? 0x800 then [N.lor 0xC0 (N.shiftr c 6); N.lor 0x80 (N.land c 0x3F)]
  else if c <? 0x10000 then
    [N.lor 0xE0 (N.shiftr c 12); N.lor 0x80 (N.land (N.shiftr c 6) 0x3F); N.lor 0x80 (N.land c 0x3F)]
  else
    [N.lor 0xF0 (N.shiftr c 18); N.lor 0x80 (N.land (N.shiftr c 12) 0x3F);
     N.lor 0x80 (N.land (N.shiftr c 6) 0x3F); N.lor 0x80 (N.land c 0x3F)].

Definition encode (t : str) : bytes := concat (map encode_char t).

(** A Unicode scalar value, the values of [char]. *)
Definition is_scalar (c : char) : bool := (c <? 0xD800) || between 0xE000 0x10FFFF c.

(** ** The parser *)

Inductive Utf8StreamParserError :=
| InvalidUtf8 (valid_up_to error_len : nat)
| IncompleteUtf8AtEof.

Record Utf8StreamParser (P : Type) := { utf8_inner : P; pending_utf8 : bytes }.
Arguments utf8_inner {P}. Arguments pending_utf8 {P}. Arguments Build_Utf8StreamParser {P}.

Section utf8.
Context {P X : Type} `{!StreamTextParser P X}.
Notation parser := (Utf8StreamParser P).
Notation result := (StreamTextChunk X + Utf8StreamParserError)%type.

Definition new_utf8 (inner : P) : parser := {| utf8_inner := inner; pending_utf8 := [] |}.

Definition set_pending_utf8 (bs : bytes) (p : parser) : parser :=
  {| utf8_inner := utf8_inner p; pending_utf8 := bs |}.

(** The result and the state it leaves, on errors too. *)
Definition push_bytes (chunk : bytes) (p : parser) : comp False (result * parser) :=
  let old_len := length (pending_utf8 p) in
  let buf := pending_utf8 p ++ chunk in
  match from_utf8 buf with
  | inl text =>
      let? '(out, inner) := push_str text (utf8_inner p) in
      Ok (inl out, {| utf8_inner := inner; pending_utf8 := [] |})
  | inr err =>
      match error_len err with
      | Some k => Ok (inr (InvalidUtf8 (valid_up_to err) k), set_pending_utf8 (take old_len buf) p)
      | None =>
          if (valid_up_to err =? 0)%nat then Ok (inl default_chunk, set_pending_utf8 buf p)
          else
            match from_utf8 (take (valid_up_to err) buf) with
            | inl text =>
                let? '(out, inner) := push_str text (utf8_inner p) in
                Ok (inl out, {| utf8_inner := inner; pending_utf8 := drop (valid_up_to err) buf |})
            | inr prefix_err =>
                Ok (inr (InvalidUtf8 (valid_up_to prefix_err) (default 0%nat (error_len prefix_err))),
                    set_pending_utf8 (take old_len buf) p)
            end
      end
  end.

(** The bytes that are left are valid, or the error they are. *)
Definition check_pending (p : parser) : option Utf8StreamParserError :=
  match from_utf8 (pending_utf8 p) with
  | inl _ => None
  | inr err =>
      Some (match error_len err with
            | Some k => InvalidUtf8 (valid_up_to err) k
            | None => IncompleteUtf8AtEof
            end)
  end.

Definition utf8_finish (p : parser) : comp False (result * parser) :=
  match (if (length (pending_utf8 p) =? 0)%nat then None else check_pending p) with
  | Some e => Ok (inr e, p)
  | None =>
      let? '(out, p) :=
        if (length (pending_utf8 p) =? 0)%nat then Ok (inl default_chunk, p)
        else
          match from_utf8 (pending_utf8 p) with
          | inl text =>
              let? '(out, inner) := push_str text (utf8_inner p) in
              Ok (inl out, {| utf8_inner := inner; pending_utf8 := [] |})
          | inr err => Ok (inr (InvalidUtf8 (valid_up_to err) (default 0%nat (error_len err))), p)
          end in
      match out with
      | inr e => Ok (inr e, p)
      | inl out =>
          let '(tail, inner) := finish (utf8_inner p) in
          Ok (inl (chunk_app out tail), {| utf8_inner := inner; pending_utf8 := pending_utf8 p |})
      end
  end.

Definition into_inner (p : parser) : P + Utf8StreamParserError :=
  if (length (pending_utf8 p) =? 0)%nat then inl (utf8_inner p)
  else match check_pending p with None => inl (utf8_inner p) | Some e => inr e end.

Definition into_inner_lossy (p : parser) : P := utf8_inner p.

(** Feeding several byte chunks, up to the first error. *)
Fixpoint push_bytes_all (chunks : list bytes) (p : parser) : comp False (result * parser) :=
  match chunks with
  | [] => Ok (inl default_chunk, p)
  | c :: cs =>
      let? '(r, p1) := push_bytes c p in
      match r with
      | inr e => Ok (inr e, p1)
      | inl o =>
          let? '(rs, p2) := push_bytes_all cs p1 in
          Ok (match rs with inl os => inl (chunk_app o os) | inr e => inr e end, p2)
      end
  end.
End utf8.

(** ** Decoding and encoding one code point *)

Ltac div_lia := zify; Z.to_euclidean_division_equations; lia.

(** Decides the tests of the decoder by arithmetic. *)
Ltac byte_lia := unfold second_of_three, second_of_four, is_continuation, between in *; div_lia.
Ltac byte_cases :=
  repeat match goal with
  | |- context [if ?b then _ else _] =>
      first [replace b with true by (symmetry; byte_lia) | replace b with false by (symmetry; byte_lia)]
  end.

Lemma lor_disjoint k a b : b < 2 ^ k -> N.lor (a * 2 ^ k) b = a * 2 ^ k + b.
Proof.
  intros Hb. assert (N.land (a * 2 ^ k) b = 0) as Hz.
  { apply N.bits_inj. intros i. rewrite N.land_spec, N.bits_0. destruct (N.lt_ge_cases i k) as [Hi|Hi].
    - by rewrite N.mul_pow2_bits_low.
    - rewrite <- (N.mod_small b (2 ^ k)), N.mod_pow2_bits_high by done. apply andb_false_r. }
  by rewrite <- N.lxor_lor, N.add_nocarry_lxor.
Qed.

Lemma acc_eq ch b : acc ch b = ch * 64 + b mod 64.
Proof.
  unfold acc. rewrite N.shiftl_mul_pow2, (N.land_ones b 6 : N.land b 0x3F = _).
  apply (lor_disjoint 6). by apply N.mod_lt.
Qed.

Lemma is_scalar_iff c : is_scalar c = true <-> c < 0xD800 \/ 0xE000 <= c <= 0x10FFFF.
Proof. unfold is_scalar, between. lia. Qed.

Lemma encode_char_eq c :
  is_scalar c = true ->
  encode_char c =
  if c <? 0x80 then [c]
  else if c <? 0x800 then [0xC0 + c / 64; 0x80 + c mod 64]
  else if c <? 0x10000 then [0xE0 + c / 4096; 0x80 + (c / 64) mod 64; 0x80 + c mod 64]
  else [0xF0 + c / 262144; 0x80 + (c / 4096) mod 64; 0x80 + (c / 64) mod 64; 0x80 + c mod 64].
Proof.
  intros Hc%is_scalar_iff. unfold encode_char.
  assert (forall x, N.lor 0x80 (N.land x 0x3F) = 0x80 + x mod 64) as Hcont.
  { intros x. rewrite (N.land_ones x 6 : N.land x 0x3F = _). apply (lor_disjoint 6 2). by apply N.mod_lt. }
  rewrite !Hcont, !N.shiftr_div_pow2. change (2 ^ 6) with 64. change (2 ^ 12) with 4096. change (2 ^ 18) with 262144.
  destruct (c <? 0x80) eqn:E1; [done|]. destruct (c <? 0x800) eqn:E2.
  { f_equal. apply (lor_disjoint 5 6). change (2 ^ 5) with 32. div_lia. }
  destruct (c <? 0x10000) eqn:E3; f_equal.
  - apply (lor_disjoint 4 14). change (2 ^ 4) with 16. div_lia.
  - apply (lor_disjoint 3 30). change (2 ^ 3) with 8. div_lia.
Qed.

Lemma land_low b :
  N.land b 0x1F = b mod 32 /\ N.land b 0x0F = b mod 16 /\ N.land b 0x07 = b mod 8.
Proof. split_and!; [apply (N.land_ones b 5)|apply (N.land_ones b 4)|apply (N.land_ones b 3)]. Qed.

(** The first code point of an encoded text. *)
Lemma decode_encode c r :
  is_scalar c = true -> decode_char (encode_char c ++ r) = Decoded c (length (encode_char c)).
Proof.
  intros Hs. rewrite encode_char_eq by done. apply is_scalar_iff in Hs. unfold decode_char.
  destruct (c <? 0x80) eqn:E1; [cbn [app length]; by rewrite E1|].
  destruct (c <? 0x800) eqn:E2; [|destruct (c <? 0x10000) eqn:E3]; cbn [app length]; byte_cases;
    f_equal; rewrite !acc_eq; pose proof land_low as Hl.
  - rewrite (proj1 (Hl _)). div_lia.
  - rewrite (proj1 (proj2 (Hl _))). div_lia.
  - rewrite (proj2 (proj2 (Hl _))). div_lia.
Qed.

(** The bytes in front of a code point's last byte are incomplete, not wrong. *)
Lemma decode_prefix c bs s :
  is_scalar c = true -> bs ++ s = encode_char c -> s <> [] -> decode_char bs = Incomplete.
Proof.
  intros Hs He Hne. rewrite encode_char_eq in He by done. apply is_scalar_iff in Hs. unfold decode_char.
  destruct (c <? 0x80) eqn:E1; [|destruct (c <? 0x800) eqn:E2; [|destruct (c <? 0x10000) eqn:E3]];
    repeat (destruct bs as [|? bs]; [try (by destruct s); byte_cases; done|];
            injection He as -> He); destruct bs; try done; by destruct s.
Qed.

(** Only the encoding of a scalar value is decoded: no overlong forms, no
    surrogates. *)
Lemma decode_sound bs c w :
  decode_char bs = Decoded c w ->
  is_scalar c = true /\ w = length (encode_char c) /\ exists r, bs = encode_char c ++ r.
Proof.
  unfold decode_char. intros H.
  repeat (case_match; try done); injection H as <- <-; destruct_and?;
    rewrite ?acc_eq, ?(proj1 (land_low _)), ?(proj1 (proj2 (land_low _))), ?(proj2 (proj2 (land_low _)));
    (match goal with |- is_scalar ?x = true /\ _ => assert (is_scalar x = true) as Hs by (apply is_scalar_iff; byte_lia) end);
    (split; [exact Hs|]); rewrite encode_char_eq by done; byte_cases; (split; [done|]); eexists; simpl; repeat f_equal; byte_lia.
Qed.

(** Incomplete bytes can be completed. *)
Lemma complete_with s bs c w :
  decode_char (bs ++ s) = Decoded c w -> w = length (bs ++ s) -> s <> [] ->
  exists c s, is_scalar c = true /\ s <> [] /\ bs ++ s = encode_char c.
Proof.
  intros Hd Hw Hne. apply decode_sound in Hd as (Hs & Hl & r & Hr). exists c, s. split_and!; [done..|].
  rewrite Hr in *. rewrite length_app in Hw. destruct r; [by rewrite app_nil_r|simpl in Hw; lia].
Qed.

Ltac complete_by s :=
  eapply (complete_with s); [unfold decode_char; cbn [app]; byte_cases; reflexivity|done|done].

Lemma decode_completable bs :
  bs <> [] -> decode_char bs = Incomplete ->
  exists c s, is_scalar c = true /\ s <> [] /\ bs ++ s = encode_char c.
Proof.
  intros Hne H. destruct bs as [|b0 r]; [done|]. unfold decode_char in H.
  destruct (N.eqb_spec b0 0xE0); [|destruct (N.eqb_spec b0 0xF0)]; repeat (case_match; try done); subst;
    first [complete_by [0x80] | complete_by [0x80; 0x80] | complete_by [0xA0; 0x80]
          | complete_by [0x80; 0x80; 0x80] | complete_by [0x90; 0x80; 0x80]].
Qed.

(** ** Validating a text *)

Notation scalars := (Forall (fun c => is_scalar c = true)).

Lemma encode_cons c t : encode (c :: t) = encode_char c ++ encode t.
Proof. done. Qed.

Lemma encode_app a b : encode (a ++ b) = encode a ++ encode b.
Proof. unfold encode. by rewrite map_app, concat_app. Qed.

Lemma encode_char_ne c : is_scalar c = true -> (1 <= length (encode_char c))%nat.
Proof. intros Hs. rewrite encode_char_eq by done. repeat case_match; simpl; lia. Qed.

(** The beginning of a code point, or nothing. *)
Definition unfinished (r : bytes) : Prop := r = [] \/ decode_char r = Incomplete.

Lemma validate_spec fuel bs :
  (length bs <= fuel)%nat ->
  let '(t, n, e) := validate fuel bs in
  scalars t /\ n = length (encode t) /\ exists r, bs = encode t ++ r /\
    match e with
    | None => r = []
    | Some None => r <> [] /\ decode_char r = Incomplete
    | Some (Some k) => decode_char r = Invalid k
    end.
Proof.
  revert bs. induction fuel as [|fuel IH]; intros [|b bs] Hf; cbn [validate]; try (by simpl in Hf; lia).
  1, 2: (split; [constructor|]; split; [done|]; by exists []).
  destruct (decode_char (b :: bs)) as [c w|k|] eqn:E.
  - apply decode_sound in E as (Hs & -> & r & Hr). rewrite Hr, drop_app_length.
    specialize (IH r). pose proof (encode_char_ne c Hs). apply (f_equal length) in Hr. rewrite length_app in Hr.
    destruct (validate fuel r) as [[t n] e]. destruct IH as (Ht & -> & r' & -> & He); [simpl in *; lia|].
    split; [by constructor|]. split; [by rewrite encode_cons, length_app|]. exists r'.
    by rewrite encode_cons, <- (assoc_L (++)).
  - split; [constructor|]. split; [done|]. by eexists.
  - split; [constructor|]. split; [done|]. eexists. by split_and!.
Qed.

(** Every byte sequence is the encoding of a text followed by what is not. *)
Lemma from_utf8_spec bs :
  exists t r, scalars t /\ bs = encode t ++ r /\
    match from_utf8 bs with
    | inl t' => t' = t /\ r = []
    | inr e => valid_up_to e = length (encode t) /\ r <> [] /\
        match error_len e with None => decode_char r = Incomplete | Some k => decode_char r = Invalid k end
    end.
Proof.
  unfold from_utf8. pose proof (validate_spec (length bs) bs (le_n _)) as H.
  destruct (validate (length bs) bs) as [[t n] e]. destruct H as (Ht & -> & r & Hr & He). exists t, r.
  split_and!; [done..|]. destruct e as [[k|]|]; simpl; [|by destruct He|done].
  split_and!; [done| |done]. by intros ->.
Qed.

(** The split is unique. *)
Lemma decode_encoded c t r : is_scalar c = true -> decode_char (encode (c :: t) ++ r) = Decoded c (length (encode_char c)).
Proof. intros Hs. rewrite encode_cons, <- (assoc_L (++)). by apply decode_encode. Qed.

Lemma encode_split t1 r1 t2 r2 :
  scalars t1 -> scalars t2 -> unfinished r2 ->
  encode t1 ++ r1 = encode t2 ++ r2 -> exists t, t2 = t1 ++ t /\ r1 = encode t ++ r2.
Proof.
  intros H1 H2 Hr. revert t2 H2. induction H1 as [|c t1 Hc _ IH]; intros t2 H2 He; [by exists t2|].
  pose proof (decode_encoded c t1 r1 Hc) as Hd. rewrite He in Hd. destruct H2 as [|d t2 Hd2 H2].
  { destruct Hr as [-> |Hr]; simpl in Hd; [done|congruence]. }
  rewrite (decode_encoded d t2 r2 Hd2) in Hd. injection Hd as -> _. rewrite !encode_cons, <- !(assoc_L (++)) in He.
  apply app_inv_head in He. destruct (IH t2 H2 He) as (t & -> & ->). by exists t.
Qed.

Lemma decode_invalid_app r k x : decode_char r = Invalid k -> decode_char (r ++ x) = Invalid k.
Proof. unfold decode_char. intros H. destruct r; [done|]. simpl. repeat (case_match; simplify_eq/=; try done). Qed.

Lemma encoded_not_invalid t r k : scalars t -> unfinished r -> decode_char (encode t ++ r) <> Invalid k.
Proof.
  intros Ht Hr. destruct Ht as [|c t Hc _]; [|by rewrite decode_encoded].
  destruct Hr as [-> |Hr]; simpl; [done|]. by rewrite Hr.
Qed.

Lemma from_utf8_encode t : scalars t -> from_utf8 (encode t) = inl t.
Proof.
  intros Ht. destruct (from_utf8_spec (encode t)) as (t1 & r & Ht1 & Heq & H).
  destruct (encode_split t1 r t [] Ht1 Ht) as (t' & -> & Hr); [by left|by rewrite app_nil_r|].
  rewrite app_nil_r in Hr. subst r. assert (scalars t') as Ht' by (by apply Forall_app in Ht as [_ ?]).
  destruct (from_utf8 _) as [x|[v [k|]]]; simpl in H.
  - destruct H as [-> He]. destruct Ht' as [|c t' Hc _]; [by rewrite app_nil_r|].
    apply encode_char_ne in Hc. rewrite encode_cons in He. destruct (encode_char c); simpl in *; [lia|done].
  - destruct H as (_ & _ & H). exfalso. eapply (encoded_not_invalid t' [] k); [done|by left|by rewrite app_nil_r].
  - destruct H as (_ & Hne & H). destruct Ht' as [|c t' Hc _]; [done|].
    pose proof (decode_encoded c t' [] Hc) as Hd. rewrite app_nil_r in Hd. congruence.
Qed.

(** ** The parser on every input *)

(** Some continuation makes the bytes a text. *)
Definition completable (bs : bytes) : Prop := exists t rest, scalars t /\ bs ++ rest = encode t.

Lemma unfinished_completable t r : scalars t -> unfinished r -> completable (encode t ++ r).
Proof.
  intros Ht Hr. destruct (decide (r = [])) as [-> |Hne]; [exists t, []; by rewrite !app_nil_r|].
  destruct Hr as [-> |Hr]; [done|]. destruct (decode_completable r Hne Hr) as (c & s & Hc & _ & Hs).
  exists (t ++ [c]), s. rewrite encode_app, <- (assoc_L (++)), Hs. split.
  - apply Forall_app. split; [done|]. by constructor.
  - cbn. by rewrite app_nil_r.
Qed.

Lemma invalid_not_completable t r k : scalars t -> decode_char r = Invalid k -> ~ completable (encode t ++ r).
Proof.
  intros Ht Hr (t' & rest & Ht' & He). rewrite <- (assoc_L (++)), <- (app_nil_r (encode t')) in He.
  destruct (encode_split t (r ++ rest) t' [] Ht Ht' (or_introl eq_refl) He) as (u & -> & Hu).
  apply Forall_app in Ht' as [_ Hu']. apply (encoded_not_invalid u [] k Hu' (or_introl eq_refl)).
  rewrite <- Hu. by apply decode_invalid_app.
Qed.

Section utf8_proofs.
Context {P X : Type} `{!StreamTextParser P X}.
Notation parser := (Utf8StreamParser P).
Implicit Types p : parser.

(** What a successful call does: the text goes to the inner parser, the rest waits. *)
Definition pushed (t : str) (r : bytes) p : comp False ((StreamTextChunk X + Utf8StreamParserError) * parser) :=
  match t, r with
  | [], _ :: _ => Ok (inl default_chunk, set_pending_utf8 r p)
  | _, _ =>
      let? '(out, inner) := push_str t (utf8_inner p) in
      Ok (inl out, {| utf8_inner := inner; pending_utf8 := r |})
  end.

Lemma push_bytes_cases chunk p :
  exists t r, scalars t /\ pending_utf8 p ++ chunk = encode t ++ r /\
    (unfinished r /\ push_bytes chunk p = pushed t r p \/
     exists k, decode_char r = Invalid k /\
       push_bytes chunk p = Ok (inr (InvalidUtf8 (length (encode t)) k), p)).
Proof.
  unfold push_bytes. destruct (from_utf8_spec (pending_utf8 p ++ chunk)) as (t & r & Ht & Hb & H).
  exists t, r. split_and!; [done..|]. destruct (from_utf8 _) as [t'|[v [k|]]] eqn:Ef; simpl in *.
  - destruct H as [-> ->]. left. split; [by left|]. by destruct t.
  - destruct H as (-> & _ & Hi). right. exists k. split; [done|]. rewrite take_app_length. by destruct p.
  - destruct H as (-> & Hne & Hi). left. split; [by right|]. unfold pushed. rewrite Hb.
    rewrite take_app_length, drop_app_length, from_utf8_encode by done. destruct r as [|b r]; [done|].
    destruct Ht as [|c t Hc _]; [done|]. pose proof (encode_char_ne c Hc).
    rewrite encode_cons, length_app, (proj2 (Nat.eqb_neq _ _)) by lia. done.
Qed.

(** A call of [push_bytes] fails exactly when no continuation can make the
    buffered bytes and the chunk a text (overlong forms and surrogates are no
    text), and then the parser is what it was before the call: the whole chunk
    is rolled back and the inner parser has seen nothing of it. *)
Theorem push_bytes_rejects chunk p :
  match push_bytes chunk p with
  | Ok (inr _, p') => p' = p /\ ~ completable (pending_utf8 p ++ chunk)
  | _ => completable (pending_utf8 p ++ chunk)
  end.
Proof.
  destruct (push_bytes_cases chunk p) as (t & r & Ht & -> & [[Hu ->]|(k & Hk & ->)]).
  - pose proof (unfinished_completable t r Ht Hu). unfold pushed.
    by destruct t, r; cbn; try (destruct (push_str _ _) as [[]| | |]).
  - split; [done|]. by eapply invalid_not_completable.
Qed.

Lemma push_all_cons t pieces (inner : P) :
  push_all (t :: pieces) inner =
  (let? '(o, q) := push_str t inner in let? '(os, q') := push_all pieces q in Ok (chunk_app o os, q')).
Proof. done. Qed.

(** The pieces of text the inner parser gets. *)
Lemma push_bytes_all_pieces chunks p t r :
  scalars t -> unfinished r -> unfinished (pending_utf8 p) -> pending_utf8 p ++ concat chunks = encode t ++ r ->
  exists pieces, concat pieces = t /\
    push_bytes_all chunks p =
    (let? '(o, q) := push_all pieces (utf8_inner p) in Ok (inl o, {| utf8_inner := q; pending_utf8 := r |})).
Proof.
  intros Ht Hr. revert p t Ht. induction chunks as [|c cs IH]; intros p t Ht Hp Hb; cbn [concat push_bytes_all] in *.
  { rewrite app_nil_r in Hb. destruct Ht as [|d t Hd _].
    - exists []. split; [done|]. destruct p; simpl in *; by subst.
    - pose proof (decode_encoded d t r Hd) as He. rewrite <- Hb in He.
      destruct Hp as [Hp|Hp]; rewrite Hp in He; done. }
  destruct (push_bytes_cases c p) as (t1 & r1 & Ht1 & Hb1 & Hcase). rewrite (assoc_L (++)), Hb1, <- (assoc_L (++)) in Hb.
  destruct (encode_split t1 _ t r Ht1 Ht Hr Hb) as (t2 & -> & Hb2). apply Forall_app in Ht as [_ Ht2].
  destruct Hcase as [[Hu ->]|(k & Hk & _)].
  2: { exfalso. apply (encoded_not_invalid t2 r k Ht2 Hr). rewrite <- Hb2. by apply decode_invalid_app. }
  assert ((exists b r', t1 = [] /\ r1 = b :: r') \/
    pushed t1 r1 p = (let? '(o, q) := push_str t1 (utf8_inner p) in Ok (inl o, {| utf8_inner := q; pending_utf8 := r1 |}))) as Hcase.
  { destruct t1, r1; simpl; eauto. }
  destruct Hcase as [(b & r' & -> & ->)| ->]; cbn [pushed comp_bind].
  - destruct (IH (set_pending_utf8 (b :: r') p) t2 Ht2 Hu Hb2) as (ps & <- & ->). exists ps. split; [done|].
    cbn [set_pending_utf8 utf8_inner]. destruct (push_all ps (utf8_inner p)) as [[o q]| | |]; cbn; [|done..].
    by rewrite chunk_app_nil_l.
  - destruct (push_str t1 (utf8_inner p)) as [[o q]| | |] eqn:Eo.
    2-4: (exists [t1; t2]; split; [by cbn; rewrite app_nil_r|]; by rewrite push_all_cons, Eo).
    destruct (IH {| utf8_inner := q; pending_utf8 := r1 |} t2 Ht2 Hu Hb2) as (ps & <- & Hps).
    exists (t1 :: ps). split; [done|]. rewrite push_all_cons, Eo. cbn [comp_bind utf8_inner] in *. rewrite Hps.
    by destruct (push_all ps q) as [[o' q']| | |].
Qed.
End utf8_proofs.

(** ** Parsers that do not depend on the cuts *)

Class CutLaw (P X : Type) `{!StreamTextParser P X} := {
  ready : P -> Prop;
  push_all_law (chunks : list str) (p : P) : ready p -> push_all chunks p = push_str (concat chunks) p
}.

Lemma citation_push_law chunks p :
  quiet citation_spec (inner p) -> push_all chunks p = push_str (concat chunks) p.
Proof.
  intros Hq. rewrite citation_push_all. by rewrite (push_all_concat citation_spec citation_open_ne).
Qed.

#[export] Instance citation_cut_law : CutLaw CitationStreamParser str := {|
  ready p := quiet citation_spec (inner p);
  push_all_law := citation_push_law
|}.

(** For a parser whose result does not depend on how text is cut, neither does
    it depend on how the bytes are cut: feeding the UTF-8 encoding of a text in
    chunks of any size, cut inside code points too, is one [push_str] of the text;
    bytes of a last code point that is not complete stay buffered, and then
    [finish] fails with [IncompleteUtf8AtEof] and changes nothing, while with no
    bytes left it is the inner parser's [finish]. *)
Theorem utf8_any_cut {P X} `{!StreamTextParser P X, !CutLaw P X} t r chunks (inner : P) :
  ready inner -> scalars t -> unfinished r -> concat chunks = encode t ++ r ->
  push_bytes_all chunks (new_utf8 inner) =
    (let? '(o, q) := push_str t inner in Ok (inl o, {| utf8_inner := q; pending_utf8 := r |})) /\
  forall q : P, utf8_finish {| utf8_inner := q; pending_utf8 := r |} =
    match r with
    | [] => let '(tail, q') := finish q in Ok (inl tail, {| utf8_inner := q'; pending_utf8 := [] |})
    | _ => Ok (inr IncompleteUtf8AtEof, {| utf8_inner := q; pending_utf8 := r |})
    end.
Proof.
  intros Hi Ht Hr Hb. split.
  - destruct (push_bytes_all_pieces chunks (new_utf8 inner) t r Ht Hr) as (ps & <- & ->); [by left|done|].
    cbn [new_utf8 utf8_inner]. by rewrite push_all_law.
  - intros q. unfold utf8_finish, check_pending. cbn [pending_utf8 utf8_inner]. destruct r as [|b r].
    + cbn. destruct (finish q). by rewrite chunk_app_nil_l.
    + destruct Hr as [|Hr]; [done|]. cbn [length Nat.eqb]. unfold from_utf8. cbn [length validate]. by rewrite Hr.
Qed.

Definition small_chunks : list bytes := [[0x61; 0xC3]; [0xA9; 0xE2]; [0x82]].

Lemma utf8_any_cut_witness :
  exists p, new_citation_parser = Ok p /\
    push_bytes_all small_chunks (new_utf8 p) =
    (let? '(o, q) := push_str [0x61; 0xE9] p in Ok (inl o, {| utf8_inner := q; pending_utf8 := [0xE2; 0x82] |})).
Proof.
  eexists. split; [reflexivity|].
  refine (proj1 (utf8_any_cut [0x61; 0xE9] [0xE2; 0x82] small_chunks _ _ _ _ _)).
  - by split.
  - by repeat constructor.
  - by right.
  - reflexivity.
Defined.
