(* ===== verification/MachineInt.v ===== *)
(** * Machine integers

    [usize] and [u64] of a 64-bit target as [N], [i64] as [Z], with the
    saturating, wrapping and checked operations the code uses, and byte offsets
    into strings. *)
From S2P Require Import Prelude RustStr.
From Stdlib Require Import SpecFloat DecimalString.

(** ** [usize] and [u64] *)

Definition usize_max : N := 2 ^ 64 - 1.

Definition sat_add (a b : N) : N := N.min (a + b) usize_max.
Definition sat_mul (a b : N) : N := N.min (a * b) usize_max.

(** ** [i64] *)

Definition i64_min : Z := - 2 ^ 63.
Definition i64_max : Z := 2 ^ 63 - 1.
Definition in_i64 (z : Z) : bool := (i64_min <=? z)%Z && (z <=? i64_max)%Z.

Definition i64_clamp (z : Z) : Z := Z.max i64_min (Z.min i64_max z).
Definition i64_sat_add (a b : Z) : Z := i64_clamp (a + b).
Definition i64_sat_sub (a b : Z) : Z := i64_clamp (a - b).
Definition i64_wrap (z : Z) : Z := ((z + 2 ^ 63) mod 2 ^ 64 - 2 ^ 63)%Z.

(** [i64::try_from(n).unwrap_or(i64::MAX)] *)
Definition i64_of_usize (n : N) : Z := Z.min (Z.of_N n) i64_max.

(** [+] and [-]: an overflow panics in a build with debug assertions and wraps
    around in a release build. *)
Definition i64_arith (debug_assertions : bool) (z : Z) : comp False Z :=
  if in_i64 z then Ok z else if debug_assertions then Panic else Ok (i64_wrap z).

(** ** [f64]

    [(n as f64 * 1.2).ceil() as usize]: the nearest double of [n], the product
    rounded to nearest, the ceiling, and the saturating cast. *)

Definition f64_of_usize (n : N) : spec_float := binary_normalize 53 1024 (Z.of_N n) 0 false.

Definition f64_1_2 : spec_float := S754_finite false 5404319552844595 (-52).

Definition usize_of_ceil (f : spec_float) : N :=
  match f with
  | S754_finite false m e =>
      let z := if (0 <=? e)%Z then (Zpos m * 2 ^ e)%Z else ((Zpos m + 2 ^ (- e) - 1) / 2 ^ (- e))%Z in
      N.min (Z.to_N z) usize_max
  | S754_infinity false => usize_max
  | _ => 0%N
  end.

Definition scale_1_2 (n : N) : N := usize_of_ceil (SFmul 53 1024 (f64_of_usize n) f64_1_2).

Example scale_1_2_10000 : scale_1_2 10000 = 12000%N.
Proof. vm_compute. reflexivity. Qed.

(** ** Byte offsets *)

(** [s.len()] *)
Definition str_len (s : str) : N := N.of_nat (utf8_len s).
Definition char_len (c : char) : N := N.of_nat (len_utf8 c).

(** [&s[..n]] and [&s[n..]]: [None] outside of a character boundary. *)
Fixpoint bytes_to (n : N) (s : str) : option str :=
  if (n =? 0)%N then Some []
  else
    match s with
    | [] => None
    | c :: s' => if (char_len c <=? n)%N then cons c <$> bytes_to (n - char_len c) s' else None
    end.

Fixpoint bytes_from (n : N) (s : str) : option str :=
  if (n =? 0)%N then Some s
  else
    match s with
    | [] => None
    | c :: s' => if (char_len c <=? n)%N then bytes_from (n - char_len c) s' else None
    end.

Definition unwrap {E A} (o : option A) : comp E A := match o with Some a => Ok a | None => Panic end.

(** [{n}] of a number *)
Definition show_N (n : N) : str := lit (NilZero.string_of_uint (N.to_uint n)).

(** ** Lemmas *)

Lemma str_len_cons c s : str_len (c :: s) = (char_len c + str_len s)%N.
Proof. unfold str_len, char_len, utf8_len. simpl. lia. Qed.

Lemma str_len_app a b : str_len (a ++ b) = (str_len a + str_len b)%N.
Proof. unfold str_len, utf8_len. rewrite sum_list_with_app. lia. Qed.

Lemma char_len_pos c : (1 <= char_len c)%N.
Proof. unfold char_len, len_utf8. repeat case_match; lia. Qed.

Lemma str_len_nil_inv s : str_len s = 0%N -> s = [].
Proof. destruct s as [|c s]; [done|]. rewrite str_len_cons. pose proof (char_len_pos c). lia. Qed.

Lemma bytes_to_app a b : bytes_to (str_len a) (a ++ b) = Some a.
Proof.
  induction a as [|c a IH]; [by destruct b|]. rewrite str_len_cons. pose proof (char_len_pos c). cbn [app bytes_to].
  rewrite (proj2 (N.eqb_neq _ _)), (proj2 (N.leb_le _ _)) by lia.
  replace (char_len c + str_len a - char_len c)%N with (str_len a) by lia. by rewrite IH.
Qed.

Lemma bytes_from_app a b : bytes_from (str_len a) (a ++ b) = Some b.
Proof.
  induction a as [|c a IH]; [by destruct b|]. rewrite str_len_cons. pose proof (char_len_pos c). cbn [app bytes_from].
  rewrite (proj2 (N.eqb_neq _ _)), (proj2 (N.leb_le _ _)) by lia.
  replace (char_len c + str_len a - char_len c)%N with (str_len a) by lia. by rewrite IH.
Qed.

Lemma i64_clamp_in z : in_i64 (i64_clamp z) = true.
Proof. unfold in_i64, i64_clamp, i64_min, i64_max. apply andb_true_intro. split; apply Z.leb_le; lia. Qed.

Lemma i64_clamp_id z : in_i64 z = true -> i64_clamp z = z.
Proof. unfold in_i64, i64_clamp. intros [?%Z.leb_le ?%Z.leb_le]%andb_prop. lia. Qed.
