(* ===== verification/Protocol.v ===== *)
(** * protocol, codex-wire-extensions: the items of a conversation

    The data of [protocol/src/models.rs] that a history holds, the truncation
    policy and the token counters of [protocol/src/protocol.rs]. *)
From S2P Require Import Prelude RustStr MachineInt.

(** ** Values of serde_json *)

Inductive Value :=
| Null
| Bool (b : bool)
| Number (text : str)
| VString (s : str)
| Array (vs : list Value)
| Object (fields : list (str * Value)).

(** ** Content *)

Inductive ImageDetail := Auto | Low | High | Original.

Inductive ContentItem :=
| InputText (text : str)
| InputImage (image_url : str) (detail : option ImageDetail)
| OutputText (text : str).

Inductive FunctionCallOutputContentItem :=
| OutInputText (text : str)
| OutInputImage (image_url : str) (detail : option ImageDetail)
| EncryptedContent (encrypted_content : str).

Inductive FunctionCallOutputBody :=
| BodyText (content : str)
| ContentItems (items : list FunctionCallOutputContentItem).

Record FunctionCallOutputPayload := {
  body : FunctionCallOutputBody;
  success : option bool
}.

Definition from_text (content : str) : FunctionCallOutputPayload :=
  {| body := BodyText content; success := None |}.

(** ** Items *)

Inductive MessagePhase := Commentary | FinalAnswer.

Inductive LocalShellStatus := Completed | InProgress | Incomplete.

Record LocalShellExecAction := {
  command : list str;
  timeout_ms : option N;
  working_directory : option str;
  exec_env : option (gmap str str);
  user : option str
}.

Inductive LocalShellAction := Exec (a : LocalShellExecAction).

Inductive WebSearchAction :=
| Search (query : option str) (queries : option (list str))
| OpenPage (url : option str)
| FindInPage (url : option str) (pattern : option str)
| OtherSearch.

Inductive ReasoningItemReasoningSummary := SummaryText (text : str).
Inductive ReasoningItemContent := ReasoningText (text : str) | ReasoningPlain (text : str).

Record InternalChatMessageMetadataPassthrough := { turn_id : option str }.

Inductive ResponseItem :=
| Message (id : option str) (role : str) (content : list ContentItem) (phase : option MessagePhase)
| Reasoning (id : option str) (summary : list ReasoningItemReasoningSummary)
    (content : option (list ReasoningItemContent)) (encrypted_content : option str)
    (internal_chat_message_metadata_passthrough : option InternalChatMessageMetadataPassthrough)
    (raw_wire_block : option Value)
| LocalShellCall (id call_id : option str) (status : LocalShellStatus) (action : LocalShellAction)
| FunctionCall (id : option str) (name : str) (namespace : option str) (arguments call_id : str)
| ToolSearchCall (id call_id status : option str) (execution : str) (arguments : Value)
| FunctionCallOutput (call_id : str) (output : FunctionCallOutputPayload)
| CustomToolCall (id status : option str) (call_id name input : str)
| CustomToolCallOutput (call_id : str) (name : option str) (output : FunctionCallOutputPayload)
| ToolSearchOutput (call_id : option str) (status execution : str) (tools : list Value)
| WebSearchCall (id status : option str) (action : option WebSearchAction)
| ImageGenerationCall (id status : str) (revised_prompt : option str) (result : str)
| Compaction (encrypted_content : str)
| CompactionTrigger
| ContextCompaction (encrypted_content : option str)
| Other.

Inductive InputModality := TextModality | ImageModality.

(** ** Truncation policy *)

Inductive TruncationPolicy := Bytes (n : N) | Tokens (n : N).

(** [Mul<f64>], used with the factor 1.2 *)
Definition mul_1_2 (p : TruncationPolicy) : TruncationPolicy :=
  match p with
  | Bytes n => Bytes (scale_1_2 n)
  | Tokens n => Tokens (scale_1_2 n)
  end.

(** ** Token counters *)

Record WireTokenUsage := {
  input_tokens : Z;
  cached_input_tokens : Z;
  cache_creation_input_tokens : Z;
  output_tokens : Z;
  reasoning_output_tokens : Z;
  total_tokens : Z;
  web_search_requests : Z;
  web_fetch_requests : Z
}.

Definition default_usage : WireTokenUsage :=
  {| input_tokens := 0; cached_input_tokens := 0; cache_creation_input_tokens := 0; output_tokens := 0;
     reasoning_output_tokens := 0; total_tokens := 0; web_search_requests := 0; web_fetch_requests := 0 |}.

Definition usage_of_total (n : Z) : WireTokenUsage :=
  {| input_tokens := 0; cached_input_tokens := 0; cache_creation_input_tokens := 0; output_tokens := 0;
     reasoning_output_tokens := 0; total_tokens := n; web_search_requests := 0; web_fetch_requests := 0 |}.

Definition add_assign (debug : bool) (u v : WireTokenUsage) : comp False WireTokenUsage :=
  let? a := i64_arith debug (input_tokens u + input_tokens v) in
  let? b := i64_arith debug (cached_input_tokens u + cached_input_tokens v) in
  let? c := i64_arith debug (cache_creation_input_tokens u + cache_creation_input_tokens v) in
  let? d := i64_arith debug (output_tokens u + output_tokens v) in
  let? e := i64_arith debug (reasoning_output_tokens u + reasoning_output_tokens v) in
  let? f := i64_arith debug (total_tokens u + total_tokens v) in
  let? g := i64_arith debug (web_search_requests u + web_search_requests v) in
  let? h := i64_arith debug (web_fetch_requests u + web_fetch_requests v) in
  Ok {| input_tokens := a; cached_input_tokens := b; cache_creation_input_tokens := c; output_tokens := d;
        reasoning_output_tokens := e; total_tokens := f; web_search_requests := g; web_fetch_requests := h |}.

Record TokenUsageInfo := {
  total_token_usage : WireTokenUsage;
  last_token_usage : WireTokenUsage;
  model_context_window : option Z
}.

Definition append_last_usage (debug : bool) (last : WireTokenUsage) (info : TokenUsageInfo) : comp False TokenUsageInfo :=
  let? total := add_assign debug (total_token_usage info) last in
  Ok {| total_token_usage := total; last_token_usage := last; model_context_window := model_context_window info |}.

Definition new_or_append (debug : bool) (info : option TokenUsageInfo) (last : option WireTokenUsage)
    (window : option Z) : comp False (option TokenUsageInfo) :=
  match info, last with
  | None, None => Ok None
  | _, _ =>
      let info := default {| total_token_usage := default_usage; last_token_usage := default_usage;
                             model_context_window := window |} info in
      let? info := match last with Some last => append_last_usage debug last info | None => Ok info end in
      Ok (Some (match window with
                | Some w => {| total_token_usage := total_token_usage info;
                               last_token_usage := last_token_usage info; model_context_window := Some w |}
                | None => info
                end))
  end.

Definition fill_to_context_window (debug : bool) (window : Z) (info : TokenUsageInfo) : comp False TokenUsageInfo :=
  let? difference := i64_arith debug (window - total_tokens (total_token_usage info)) in
  let delta := Z.max difference 0 in
  Ok {| total_token_usage := usage_of_total window; last_token_usage := usage_of_total delta;
        model_context_window := Some window |}.

Definition full_context_window (debug : bool) (window : Z) : comp False TokenUsageInfo :=
  fill_to_context_window debug window
    {| total_token_usage := default_usage; last_token_usage := default_usage; model_context_window := Some window |}.
