(* ===== verification/Truncate.v ===== *)
(** * utils/string, utils/output-truncation: truncating output

    A prefix and a suffix of the text are kept around a marker; lists of content
    items share one budget. *)
From S2P Require Import Prelude RustStr MachineInt Protocol.

(** ** utils/string/src/truncate.rs *)

Definition APPROX_BYTES_PER_TOKEN : N := 4.

Definition approx_token_count (text : str) : N :=
  (sat_add (str_len text) (APPROX_BYTES_PER_TOKEN - 1) / APPROX_BYTES_PER_TOKEN)%N.

Definition approx_bytes_for_tokens (tokens : N) : N := sat_mul tokens APPROX_BYTES_PER_TOKEN.

Definition approx_tokens_from_byte_count (bytes : N) : N :=
  (sat_add bytes (APPROX_BYTES_PER_TOKEN - 1) / APPROX_BYTES_PER_TOKEN)%N.

(** The variables of the loop of [split_string]; [offset] is the index of the
    next character. *)
Record splitting := {
  offset : N;
  prefix_end : N;
  suffix_start : N;
  removed_chars : N;
  suffix_started : bool
}.

Definition split_step (beginning_bytes tail_start_target : N) (v : splitting) (ch : char) : splitting :=
  let idx := offset v in
  let char_end := (idx + char_len ch)%N in
  if (char_end <=? beginning_bytes)%N
  then {| offset := char_end; prefix_end := char_end; suffix_start := suffix_start v;
          removed_chars := removed_chars v; suffix_started := suffix_started v |}
  else if (tail_start_target <=? idx)%N
  then {| offset := char_end; prefix_end := prefix_end v;
          suffix_start := if suffix_started v then suffix_start v else idx;
          removed_chars := removed_chars v; suffix_started := true |}
  else {| offset := char_end; prefix_end := prefix_end v; suffix_start := suffix_start v;
          removed_chars := sat_add (removed_chars v) 1; suffix_started := suffix_started v |}.

Definition split_string (s : str) (beginning_bytes end_bytes : N) : comp False (N * str * str) :=
  match s with
  | [] => Ok (0%N, [], [])
  | _ =>
      let len := str_len s in
      let v := foldl (split_step beginning_bytes (len - end_bytes))
                 {| offset := 0; prefix_end := 0; suffix_start := len; removed_chars := 0;
                    suffix_started := false |} s in
      let suffix_start := if (suffix_start v <? prefix_end v)%N then prefix_end v else suffix_start v in
      let? before := unwrap (bytes_to (prefix_end v) s) in
      let? after := unwrap (bytes_from suffix_start s) in
      Ok (removed_chars v, before, after)
  end.

Definition split_budget (budget : N) : N * N := let left := (budget / 2)%N in (left, (budget - left)%N).

Definition ellipsis : char := 8230.

Definition format_truncation_marker (use_tokens : bool) (removed_count : N) : str :=
  [ellipsis] ++ show_N removed_count ++
  (if use_tokens then &" tokens truncated" else &" chars truncated") ++ [ellipsis].

Definition removed_units (use_tokens : bool) (removed_bytes removed_chars : N) : N :=
  if use_tokens then approx_tokens_from_byte_count removed_bytes else removed_chars.

Definition assemble_truncated_output (prefix suffix marker : str) : str := prefix ++ marker ++ suffix.

Definition truncate_with_byte_estimate (s : str) (max_bytes : N) (use_tokens : bool) : comp False str :=
  match s with
  | [] => Ok []
  | _ =>
      let total_chars := N.of_nat (length s) in
      if (max_bytes =? 0)%N
      then Ok (format_truncation_marker use_tokens (removed_units use_tokens (str_len s) total_chars))
      else if (str_len s <=? max_bytes)%N then Ok s
      else
        let '(left_budget, right_budget) := split_budget max_bytes in
        let? '(removed, before, after) := split_string s left_budget right_budget in
        let marker := format_truncation_marker use_tokens
                        (removed_units use_tokens (str_len s - max_bytes) removed) in
        Ok (assemble_truncated_output before after marker)
  end.

Definition truncate_middle_chars (s : str) (max_bytes : N) : comp False str :=
  truncate_with_byte_estimate s max_bytes false.

Definition truncate_middle_with_token_budget (s : str) (max_tokens : N) : comp False (str * option N) :=
  match s with
  | [] => Ok ([], None)
  | _ =>
      if (0 <? max_tokens)%N && (str_len s <=? approx_bytes_for_tokens max_tokens)%N then Ok (s, None)
      else
        let? truncated := truncate_with_byte_estimate s (approx_bytes_for_tokens max_tokens) true in
        Ok (if str_eqb truncated s then (truncated, None) else (truncated, Some (approx_token_count s)))
  end.

(** ** protocol: budgets *)

Definition token_budget (p : TruncationPolicy) : N :=
  match p with Bytes bytes => approx_tokens_from_byte_count bytes | Tokens tokens => tokens end.

Definition byte_budget (p : TruncationPolicy) : N :=
  match p with Bytes bytes => bytes | Tokens tokens => approx_bytes_for_tokens tokens end.

(** ** utils/output-truncation/src/lib.rs *)

Definition truncate_text (content : str) (policy : TruncationPolicy) : comp False str :=
  match policy with
  | Bytes bytes => truncate_middle_chars content bytes
  | Tokens tokens => let? r := truncate_middle_with_token_budget content tokens in Ok r.1
  end.

Definition formatted_truncate_text (content : str) (policy : TruncationPolicy) : comp False str :=
  if (str_len content <=? byte_budget policy)%N then Ok content
  else
    let total_lines := length (lines content) in
    let? result := truncate_text content policy in
    Ok (&"Total output lines: " ++ show_nat total_lines ++ [nl; nl] ++ result).

Definition text_of (item : FunctionCallOutputContentItem) : option str :=
  match item with OutInputText text => Some text | _ => None end.
Definition non_text (item : FunctionCallOutputContentItem) : bool :=
  match item with OutInputText _ => false | _ => true end.

(** The texts joined by line feeds; no line feed in front of a text while
    everything before it is empty. *)
Definition combine (combined text : str) : str :=
  match combined with [] => text | _ => combined ++ [nl] ++ text end.

Definition formatted_truncate_text_content_items_with_policy
    (items : list FunctionCallOutputContentItem) (policy : TruncationPolicy)
  : comp False (list FunctionCallOutputContentItem * option N) :=
  match omap text_of items with
  | [] => Ok (items, None)
  | text_segments =>
      let combined := foldl combine [] text_segments in
      if (str_len combined <=? byte_budget policy)%N then Ok (items, None)
      else
        let? text := formatted_truncate_text combined policy in
        Ok (OutInputText text :: filter (fun i => non_text i = true) items, Some (approx_token_count combined))
  end.

Definition item_cost (policy : TruncationPolicy) (text : str) : N :=
  match policy with Bytes _ => str_len text | Tokens _ => approx_token_count text end.

Definition with_budget (policy : TruncationPolicy) (n : N) : TruncationPolicy :=
  match policy with Bytes _ => Bytes n | Tokens _ => Tokens n end.

(** The loop over the items: what is kept, and how many texts are omitted. *)
Fixpoint truncate_items (policy : TruncationPolicy) (remaining_budget : N)
    (items : list FunctionCallOutputContentItem) : comp False (list FunctionCallOutputContentItem * nat) :=
  match items with
  | [] => Ok ([], 0)
  | OutInputText text :: items =>
      if (remaining_budget =? 0)%N
      then let? '(out, omitted) := truncate_items policy 0 items in Ok (out, S omitted)
      else
        let cost := item_cost policy text in
        if (cost <=? remaining_budget)%N
        then
          let? '(out, omitted) := truncate_items policy (remaining_budget - cost) items in
          Ok (OutInputText text :: out, omitted)
        else
          let? snippet := truncate_text text (with_budget policy remaining_budget) in
          let? '(out, omitted) := truncate_items policy 0 items in
          Ok (match snippet with [] => (out, S omitted) | _ => (OutInputText snippet :: out, omitted) end)
  | item :: items =>
      let? '(out, omitted) := truncate_items policy remaining_budget items in Ok (item :: out, omitted)
  end.

Definition truncate_function_output_items_with_policy
    (items : list FunctionCallOutputContentItem) (policy : TruncationPolicy)
  : comp False (list FunctionCallOutputContentItem) :=
  let remaining_budget := match policy with Bytes _ => byte_budget policy | Tokens _ => token_budget policy end in
  let? '(out, omitted) := truncate_items policy remaining_budget items in
  Ok (if 0 <? omitted then out ++ [OutInputText (&"[omitted " ++ show_nat omitted ++ &" text items ...]")] else out).

Definition approx_tokens_from_byte_count_i64 (bytes : Z) : Z :=
  if (bytes <=? 0)%Z then 0%Z
  else i64_of_usize (approx_tokens_from_byte_count (N.min (Z.to_N bytes) usize_max)).

(** ** Splitting a text *)

Definition first_exceeds (lb : N) (L rest : str) : Prop :=
  match rest with [] => True | c :: _ => (lb < str_len L + char_len c)%N end.

(** What the loop has read: the prefix, what is removed, the suffix. *)
Definition split_inv (lb target len : N) (pre : str) (v : splitting) : Prop :=
  exists L M R, pre = L ++ M ++ R /\
    v = {| offset := str_len pre; prefix_end := str_len L;
           suffix_start := match R with [] => len | _ => str_len (L ++ M) end;
           removed_chars := N.min (N.of_nat (length M)) usize_max;
           suffix_started := match R with [] => false | _ => true end |} /\
    (str_len L <= lb)%N /\ first_exceeds lb L (M ++ R) /\
    match R with [] => True | _ => (target <= str_len (L ++ M))%N end /\
    (forall M' m, M = M' ++ [m] -> (str_len (L ++ M') < target)%N).

Lemma split_step_inv lb target len pre ch v :
  split_inv lb target len pre v -> split_inv lb target len (pre ++ [ch]) (split_step lb target v ch).
Proof.
  intros (L & M & R & -> & -> & HL & Hex & HR & HM). unfold split_step. cbn [offset prefix_end suffix_start removed_chars suffix_started].
  pose proof (char_len_pos ch) as Hc. rewrite !str_len_app.
  assert (str_len [ch] = char_len ch) as Hch by (rewrite str_len_cons; unfold str_len; simpl; lia).
  destruct (N.leb_spec (str_len L + (str_len M + str_len R) + char_len ch) lb) as [Hle|Hgt].
  { assert (M ++ R = []) as [-> ->]%app_eq_nil.
    { destruct (M ++ R) as [|c rest] eqn:E; [done|]. exfalso. simpl in Hex. apply (f_equal str_len) in E.
      rewrite str_len_app, str_len_cons in E. lia. }
    exists (L ++ [ch]), [], []. rewrite !app_nil_r. split_and!; [done| | |done|done|by intros []].
    - f_equal; rewrite ?str_len_app, ?Hch; unfold str_len; simpl; lia.
    - rewrite str_len_app, Hch. unfold str_len in *. simpl in *. lia. }
  assert (forall M' R', M ++ R = [] -> M' ++ R' = [ch] -> first_exceeds lb L (M' ++ R')) as Hfst.
  { intros M' R' [-> ->]%app_eq_nil ->. simpl. unfold str_len in *. simpl in *. lia. }
  destruct (N.leb_spec target (str_len L + (str_len M + str_len R))) as [Ht|Ht].
  - exists L, M, (R ++ [ch]). split_and!; [by rewrite <- !(assoc_L (++))| |done| | |done].
    + f_equal; rewrite ?str_len_app, ?Hch; [lia| |]; destruct R; simpl; unfold str_len; simpl; try lia; done.
    + rewrite (assoc_L (++)). destruct (M ++ R) eqn:E; [by apply (Hfst [] [ch])|]. done.
    + destruct R as [|c R]; simpl; rewrite str_len_app in *; unfold str_len in *; simpl in *; lia.
  - destruct R as [|c R]; [|exfalso; rewrite str_len_app in HR; lia]. rewrite app_nil_r in *.
    exists L, (M ++ [ch]), []. split_and!; [by rewrite app_nil_r, (assoc_L (++))| |done| |done|].
    + f_equal; rewrite ?str_len_app, ?Hch; [unfold str_len; simpl; lia|]. rewrite length_app. simpl. unfold sat_add. lia.
    + rewrite app_nil_r. destruct M as [|m M]; [by apply (Hfst [ch] [])|]. done.
    + intros M' m [-> _]%app_inj_tail. rewrite str_len_app. unfold str_len in *. simpl in *. lia.
Qed.

Lemma split_foldl_inv lb target len pre post v :
  split_inv lb target len pre v ->
  split_inv lb target len (pre ++ post) (foldl (split_step lb target) v post).
Proof.
  revert pre v. induction post as [|c post IH]; intros pre v Hv; cbn [foldl]; [by rewrite app_nil_r|].
  rewrite (cons_middle c pre post). rewrite (assoc_L (++)). by apply IH, split_step_inv.
Qed.

(** The parts, and that neither could be longer within its budget. *)
Definition splits (lb rb : N) (s L M R : str) : Prop :=
  s = L ++ M ++ R /\ (str_len L <= lb)%N /\ (str_len R <= rb)%N /\
  (forall c M', M = c :: M' -> (lb < str_len (L ++ [c]))%N) /\
  (forall M' c, M = M' ++ [c] -> (rb < str_len (c :: R))%N).

Lemma split_string_spec s lb rb :
  exists L M R, splits lb rb s L M R /\
    split_string s lb rb = Ok (N.min (N.of_nat (length M)) usize_max, L, R).
Proof.
  destruct s as [|c s].
  { exists [], [], []. split; [|done]. split_and!; [done|unfold str_len; simpl; lia..|done|by intros []]. }
  unfold split_string. set (t := c :: s). set (len := str_len t).
  pose proof (split_foldl_inv lb (len - rb) len [] t
    {| offset := 0; prefix_end := 0; suffix_start := len; removed_chars := 0; suffix_started := false |}) as Hinv.
  destruct Hinv as (L & M & R & Hs & -> & HL & Hex & HR & HM).
  { exists [], [], []. split_and!; try done; [unfold str_len; simpl; lia|by intros []]. }
  cbn [prefix_end suffix_start removed_chars app] in *. exists L, M, R.
  assert (len = str_len L + str_len M + str_len R)%N as Hlen by (unfold len; rewrite Hs, !str_len_app; lia).
  assert (match R with [] => len | _ => str_len (L ++ M) end = str_len (L ++ M)) as ->.
  { destruct R; [|done]. rewrite str_len_app, Hlen. unfold str_len. simpl. lia. }
  rewrite (proj2 (N.ltb_ge _ _)) by (rewrite str_len_app; lia).
  rewrite Hs at 2. rewrite bytes_to_app. cbn [unwrap comp_bind].
  rewrite Hs at 2. rewrite (assoc_L (++)), bytes_from_app. cbn [unwrap comp_bind]. split; [|done].
  assert (forall x, str_len [x] = char_len x) as Hone by (intros x; rewrite str_len_cons; unfold str_len; simpl; lia).
  split_and!; [done|done| | |].
  - destruct R as [|r R]; [unfold str_len; simpl; lia|]. rewrite str_len_app in HR. lia.
  - intros x M' ->. simpl in Hex. rewrite str_len_app, Hone. done.
  - intros M' x ->. specialize (HM M' x eq_refl). rewrite str_len_cons. rewrite !str_len_app, Hone in *. lia.
Qed.

(** ** Truncating a text *)

Lemma length_le_str_len s : (N.of_nat (length s) <= str_len s)%N.
Proof.
  induction s as [|c s IH]; [unfold str_len; simpl; lia|]. rewrite str_len_cons.
  pose proof (char_len_pos c). simpl length. lia.
Qed.

(** What is reported as removed: tokens for the bytes over the budget, or
    characters. *)
Definition removed_count (use_tokens : bool) (s : str) (max_bytes : N) (M : str) : N :=
  if use_tokens then approx_tokens_from_byte_count (str_len s - max_bytes) else N.of_nat (length M).

Definition truncated (s : str) (max_bytes : N) (use_tokens : bool) (out : str) : Prop :=
  exists L M R, splits (max_bytes / 2) (max_bytes - max_bytes / 2) s L M R /\ M <> [] /\
    out = L ++ format_truncation_marker use_tokens (removed_count use_tokens s max_bytes M) ++ R.

Lemma truncate_spec s max_bytes use_tokens :
  (str_len s <= usize_max)%N ->
  exists out, truncate_with_byte_estimate s max_bytes use_tokens = Ok out /\
    (if (str_len s <=? max_bytes)%N then out = s else truncated s max_bytes use_tokens out).
Proof.
  intros Hs. unfold truncate_with_byte_estimate. destruct s as [|c s'] eqn:Es.
  { eexists. split; [done|]. rewrite (proj2 (N.leb_le _ _)); [done|]. unfold str_len. simpl. lia. }
  rewrite <- Es in *.
  assert (0 < str_len s)%N as Hpos by (rewrite Es, str_len_cons; pose proof (char_len_pos c); lia).
  destruct (N.eqb_spec max_bytes 0) as [-> |Hm].
  { rewrite (proj2 (N.leb_gt _ _)) by lia. eexists. split; [done|]. exists [], s, []. change (0 / 2)%N with 0%N. change (0 - 0)%N with 0%N. split_and!.
    - split_and!; [by rewrite app_nil_r|unfold str_len; simpl; lia..| |].
      + intros x M' _. cbn [app]. rewrite str_len_cons. pose proof (char_len_pos x). lia.
      + intros M' x _. rewrite str_len_cons. pose proof (char_len_pos x). lia.
    - by rewrite Es.
    - rewrite app_nil_r. simpl. f_equal. unfold removed_units, removed_count. by rewrite N.sub_0_r. }
  destruct (N.leb_spec (str_len s) max_bytes) as [|Hgt]; [by eexists|]. cbn [split_budget].
  destruct (split_string_spec s (max_bytes / 2) (max_bytes - max_bytes / 2)) as (L & M & R & Hsp & ->). cbn [comp_bind].
  eexists. split; [done|]. exists L, M, R. split; [done|]. destruct Hsp as (Heq & HL & HR & _ & _). split.
  - intros ->. rewrite Heq, !str_len_app in Hgt. change (str_len []) with 0%N in Hgt.
    assert (max_bytes / 2 <= max_bytes)%N by (apply N.Div0.div_le_upper_bound; lia). lia.
  - unfold assemble_truncated_output, removed_units, removed_count. do 3 f_equal. destruct use_tokens; [done|].
    assert (N.of_nat (length M) <= str_len s)%N; [|lia].
    pose proof (length_le_str_len M). rewrite Heq, !str_len_app. lia.
Qed.

(** C39: truncating never splits a character and never panics. A text within the
    budget is unchanged; of any other exactly a prefix and a suffix are left
    around the marker, each within its half of the budget and neither extensible
    by one more character, and the marker counts what was removed. *)
Theorem truncate_middle_chars_spec s max_bytes :
  (str_len s <= usize_max)%N ->
  exists out, truncate_middle_chars s max_bytes = Ok out /\
    (if (str_len s <=? max_bytes)%N then out = s else
     exists L M R, splits (max_bytes / 2) (max_bytes - max_bytes / 2) s L M R /\ M <> [] /\
       out = L ++ format_truncation_marker false (N.of_nat (length M)) ++ R).
Proof. apply (truncate_spec s max_bytes false). Qed.

Lemma truncate_middle_chars_spec_witness :
  exists out, truncate_middle_chars (&"hello" ++ [233; 233] ++ &"world")%N 9 = Ok out /\
    (if (14 <=? 9)%N then out = &"hello" ++ [233; 233]%N ++ &"world" else
     exists L M R, splits (9 / 2) (9 - 9 / 2) (&"hello" ++ [233; 233]%N ++ &"world") L M R /\ M <> [] /\
       out = L ++ format_truncation_marker false (N.of_nat (length M)) ++ R).
Proof.
  exact (truncate_middle_chars_spec (&"hello" ++ [233; 233]%N ++ &"world") 9 ltac:(vm_compute; discriminate)).
Defined.

Example truncate_middle_chars_example :
  truncate_middle_chars (&"hello" ++ [233; 233]%N ++ &"world") 9 =
  Ok (&"hell" ++ [ellipsis] ++ &"3 chars truncated" ++ [ellipsis] ++ &"world").
Proof. vm_compute. reflexivity. Qed.

Lemma truncate_text_total text policy :
  (str_len text <= usize_max)%N -> exists out, truncate_text text policy = Ok out.
Proof.
  intros Hl. destruct policy as [n|n]; simpl.
  - destruct (truncate_spec text n false Hl) as (out & H & _). by exists out.
  - unfold truncate_middle_with_token_budget. destruct text as [|c text]; [by eexists|].
    case_match; [by eexists|]. destruct (truncate_spec (c :: text) (approx_bytes_for_tokens n) true Hl) as (out & -> & _).
    simpl. by eexists.
Qed.

(** ** Truncating a list of items *)

Notation texts := (omap text_of).
Notation others := (filter (fun i => non_text i = true)).

Definition total_cost (policy : TruncationPolicy) (ts : list str) : N :=
  foldr (fun t n => (item_cost policy t + n)%N) 0%N ts.

(** The texts that fit are kept, the first that does not is cut to what is left
    of the budget (or omitted when nothing is left), the others are omitted. *)
Definition within_budget (policy : TruncationPolicy) (budget : N) (ts ts' : list str) (omitted : nat) : Prop :=
  exists kept rest, ts = kept ++ rest /\ (total_cost policy kept <= budget)%N /\
    match rest with
    | [] => ts' = kept /\ omitted = 0
    | t :: rest =>
        let left := (budget - total_cost policy kept)%N in
        left = 0%N /\ ts' = kept /\ omitted = S (length rest) \/
        (0 < left < item_cost policy t)%N /\ exists snippet, truncate_text t (with_budget policy left) = Ok snippet /\
          match snippet with
          | [] => ts' = kept /\ omitted = S (length rest)
          | _ => ts' = kept ++ [snippet] /\ omitted = length rest
          end
    end.

Lemma truncate_items_none policy items :
  exists out, truncate_items policy 0 items = Ok (out, length (texts items)) /\ others out = others items /\ texts out = [].
Proof.
  induction items as [|i items (out & IH & Ho & Ht)]; [by exists []|]. destruct i as [t|u d|e]; cbn [truncate_items].
  - rewrite IH. simpl. by exists out.
  - rewrite IH. simpl. eexists. split; [done|]. cbn [omap list_omap text_of]. rewrite Ht.
    split; [|done]. rewrite !filter_cons_True by done. by f_equal.
  - rewrite IH. simpl. eexists. split; [done|]. cbn [omap list_omap text_of]. rewrite Ht.
    split; [|done]. rewrite !filter_cons_True by done. by f_equal.
Qed.

Lemma others_text t items : others (OutInputText t :: items) = others items.
Proof. by rewrite filter_cons_False. Qed.

Lemma truncate_items_spec policy budget items :
  Forall (fun t => str_len t <= usize_max)%N (texts items) ->
  exists out omitted, truncate_items policy budget items = Ok (out, omitted) /\ others out = others items /\
    within_budget policy budget (texts items) (texts out) omitted.
Proof.
  revert budget. induction items as [|i items IH]; intros budget Hf.
  { exists [], 0. split_and!; [done..|]. exists [], []. split_and!; [done|simpl; lia|done|done]. }
  destruct i as [t|u d|e]; cbn [truncate_items].
  2, 3: (destruct (IH budget Hf) as (out & omitted & -> & Ho & Hw); eexists _, omitted; split; [done|];
         split; [rewrite !filter_cons_True by done; by f_equal|done]).
  cbn [omap list_omap text_of] in Hf |- *. apply Forall_cons in Hf as [Ht Hf]. rewrite others_text.
  destruct (N.eqb_spec budget 0) as [-> |Hb].
  { destruct (truncate_items_none policy items) as (out & -> & Ho & Hn). eexists _, _. split; [done|]. split; [done|].
    exists [], (t :: texts items). split_and!; [done|simpl; lia|]. left. simpl. by rewrite Hn. }
  destruct (N.leb_spec (item_cost policy t) budget) as [Hc|Hc].
  - destruct (IH (budget - item_cost policy t)%N Hf) as (out & omitted & -> & Ho & kept & rest & Hts & Hle & Hr).
    exists (OutInputText t :: out), omitted. split; [done|]. rewrite others_text. split; [done|].
    exists (t :: kept), rest. cbn [omap list_omap text_of total_cost foldr].
    fold (total_cost policy kept). change (list_omap ?A ?B ?f ?l) with (omap f l) in *.
    split_and!; [by rewrite Hts|lia|].
    replace (budget - (item_cost policy t + total_cost policy kept))%N
      with (budget - item_cost policy t - total_cost policy kept)%N by lia.
    destruct rest as [|r rest]; [destruct Hr as [-> ->]; done|].
    destruct Hr as [(H0 & -> & ->)|(H0 & sn & Hsn & Hr)]; [by left|]. right. split; [done|]. exists sn. split; [done|].
    destruct sn; destruct Hr as [-> ->]; done.
  - destruct (truncate_text_total t (with_budget policy budget) Ht) as [sn Hsn]. rewrite Hsn. cbn [comp_bind].
    destruct (truncate_items_none policy items) as (out & -> & Ho & Hn). cbn [comp_bind].
    assert (within_budget policy budget (t :: texts items)
      (match sn with [] => [] | _ => [sn] end) (match sn with [] => S (length (texts items)) | _ => length (texts items) end)) as Hw.
    { exists [], (t :: texts items). split_and!; [done|simpl; lia|]. right. cbn [total_cost foldr]. rewrite N.sub_0_r.
      split; [lia|]. exists sn. split; [done|]. by destruct sn. }
    destruct sn as [|c sn]; eexists _, _; (split; [done|]); rewrite ?others_text; (split; [done|]);
      cbn [omap list_omap text_of]; change (list_omap ?A ?B ?f ?l) with (omap f l); rewrite Hn; done.
Qed.

Definition budget_of (policy : TruncationPolicy) : N := match policy with Bytes n | Tokens n => n end.

Definition omission_notice (omitted : nat) : list FunctionCallOutputContentItem :=
  if 0 <? omitted then [OutInputText (&"[omitted " ++ show_nat omitted ++ &" text items ...]")] else [].

(** Truncating the items of a tool output returns, keeps every image and every
    encrypted item in order, and treats the texts in order against one budget (bytes
    or approximate tokens): those that fit are kept as they are, the first that does
    not is cut to what is left of the budget, and all further ones are left out and
    counted in a final notice. *)
Theorem truncate_function_output_items_budget items policy :
  Forall (fun t => str_len t <= usize_max)%N (texts items) ->
  exists out omitted,
    truncate_function_output_items_with_policy items policy = Ok (out ++ omission_notice omitted) /\
    others out = others items /\
    within_budget policy (budget_of policy) (texts items) (texts out) omitted.
Proof.
  intros Hf. destruct (truncate_items_spec policy (budget_of policy) items Hf) as (out & omitted & Ht & Ho & Hw).
  exists out, omitted. split; [|done]. unfold truncate_function_output_items_with_policy.
  replace (match policy with Bytes _ => byte_budget policy | Tokens _ => token_budget policy end)
    with (budget_of policy) by (by destruct policy).
  rewrite Ht. cbn [comp_bind]. unfold omission_notice. by destruct omitted; simpl; rewrite ?app_nil_r.
Qed.

Definition three_items : list FunctionCallOutputContentItem :=
  [OutInputText (&"abc"); OutInputImage (&"u") None; OutInputText (&"defghi"); OutInputText (&"j")].

Lemma truncate_function_output_items_budget_witness :
  exists out omitted,
    truncate_function_output_items_with_policy three_items (Bytes 7) = Ok (out ++ omission_notice omitted) /\
    others out = others three_items /\
    within_budget (Bytes 7) 7 (texts three_items) (texts out) omitted.
Proof.
  apply (truncate_function_output_items_budget three_items (Bytes 7)).
  repeat constructor; vm_compute; discriminate.
Defined.

Example three_items_truncated :
  truncate_function_output_items_with_policy three_items (Bytes 7) =
  Ok [OutInputText (&"abc"); OutInputImage (&"u") None;
      OutInputText (&"de" ++ [ellipsis] ++ &"2 chars truncated" ++ [ellipsis] ++ &"hi");
      OutInputText (&"[omitted 1 text items ...]")].
Proof. vm_compute. reflexivity. Qed.
