(* ===== verification/Fragments.v ===== *)
(** * core: recognising injected context

    [core/src/context] marks the fragments it injects into the conversation;
    [core/src/event_mapping.rs] recognises them again. *)
From S2P Require Import Prelude RustStr MachineInt Protocol.

(** ** Markers

    [candidate.eq_ignore_ascii_case(marker)] on a slice of [marker.len()] bytes
    at the start or the end of the text; the markers are ASCII, so the slice has
    as many characters. *)

Definition starts_with_ignore_case (marker text : str) : bool :=
  (length marker <=? length text) && eq_ignore_ascii_case (take (length marker) text) marker.

Definition ends_with_ignore_case (marker text : str) : bool :=
  eq_ignore_ascii_case (drop (length text - length marker) text) marker.

Definition matches_marked_text (start_marker end_marker text : str) : bool :=
  match start_marker, end_marker with
  | [], _ | _, [] => false
  | _, _ =>
      let trimmed := trim_start text in
      starts_with_ignore_case start_marker trimmed && ends_with_ignore_case end_marker (trim_end trimmed)
  end.

(** ** The registered fragments *)

(** [AdditionalContextUserFragment::matches_text] *)
Definition additional_context_matches (text : str) : bool :=
  match strip_prefix (&"<external_") (trim text) with
  | None => false
  | Some rest =>
      match split_once 62%N rest with
      | None => false
      | Some (key, value_and_close) => ends_with (&"</external_" ++ key ++ &">") value_and_close
      end
  end.

Definition process_limit_warning_matches (text : str) : bool :=
  starts_with (&"Warning: The maximum number of unified exec processes you can keep open is") (trim text).

Definition apply_patch_warning_matches (text : str) : bool :=
  let trimmed := trim text in
  starts_with (&"Warning: apply_patch was requested via ") trimmed &&
  ends_with (&"Use the apply_patch tool instead of exec_command.") trimmed.

Definition model_mismatch_warning_matches (text : str) : bool :=
  starts_with (&"Warning: Your account was flagged for potentially high-risk cyber activity") (trim text).

(** [CONTEXTUAL_USER_FRAGMENTS], in its order *)
Definition contextual_user_fragments : list (str -> bool) :=
  [ matches_marked_text (&"# AGENTS.md instructions for ") (&"</INSTRUCTIONS>");
    matches_marked_text (&"<environment_context>") (&"</environment_context>");
    additional_context_matches;
    matches_marked_text (&"<skill>") (&"</skill>");
    matches_marked_text (&"<user_shell_command>") (&"</user_shell_command>");
    matches_marked_text (&"<turn_aborted>") (&"</turn_aborted>");
    matches_marked_text (&"<subagent_notification>") (&"</subagent_notification>");
    matches_marked_text (&"<plan_state>") (&"</plan_state>");
    matches_marked_text (&"<goal_context>") (&"</goal_context>");
    process_limit_warning_matches;
    apply_patch_warning_matches;
    model_mismatch_warning_matches ].

Definition is_standard_contextual_user_text (text : str) : bool :=
  existsb (fun matches_text => matches_text text) contextual_user_fragments.

(** ** What is parsed elsewhere

    quick-xml reads a hook prompt and serde_json a message between agents. *)
Class Codec := {
  hook_prompt_xml : str -> option (str * str);      (* text and hook_run_id *)
  inter_agent_json : str -> bool                    (* parses as InterAgentCommunication *)
}.

Section mapping.
Context {codec : Codec}.

Definition parse_hook_prompt_fragment (text : str) : option (str * str) :=
  match hook_prompt_xml (trim text) with
  | Some (t, hook_run_id) => match trim hook_run_id with [] => None | _ => Some (t, hook_run_id) end
  | None => None
  end.

Definition is_contextual_user_fragment (c : ContentItem) : bool :=
  match c with
  | InputText text =>
      match parse_hook_prompt_fragment text with
      | Some _ => true
      | None => is_standard_contextual_user_text text
      end
  | _ => false
  end.

Definition is_contextual_user_message_content (message : list ContentItem) : bool :=
  existsb is_contextual_user_fragment message.

Definition CONTEXTUAL_DEVELOPER_PREFIXES : list str :=
  [&"<permissions instructions>"; &"<model_switch>"; &"<collaboration_mode>"; &"<realtime_conversation>";
   &"<personality_spec>"].

Definition is_contextual_dev_fragment (c : ContentItem) : bool :=
  match c with
  | InputText text => existsb (fun prefix => starts_with_ignore_case prefix (trim_start text)) CONTEXTUAL_DEVELOPER_PREFIXES
  | _ => false
  end.

Definition is_contextual_dev_message_content (message : list ContentItem) : bool :=
  existsb is_contextual_dev_fragment message.

Definition has_non_contextual_dev_message_content (message : list ContentItem) : bool :=
  existsb (fun c => negb (is_contextual_dev_fragment c)) message.

(** [InterAgentCommunication::is_message_content] *)
Definition is_inter_agent_instruction_content (content : list ContentItem) : bool :=
  match content with
  | [InputText text] | [OutputText text] => inter_agent_json text
  | _ => false
  end.
End mapping.

Example environment_context_recognised :
  is_standard_contextual_user_text (&"  <ENVIRONMENT_context>x</environment_context> ") = true.
Proof. vm_compute. reflexivity. Qed.

Example additional_context_recognised :
  is_standard_contextual_user_text (&"<external_k>v</external_k>") = true /\
  is_standard_contextual_user_text (&"<external_k>v</external_j>") = false.
Proof. split; vm_compute; reflexivity. Qed.
