(* ===== verification/History.v ===== *)
(** * core/src/context_manager: the history of a conversation

    [normalize.rs] keeps calls and outputs paired, [history.rs] records,
    truncates, rolls back and estimates the items. *)
From S2P Require Import Prelude RustStr MachineInt Protocol Truncate Fragments.

(** ** normalize.rs *)

Definition IMAGE_CONTENT_OMITTED_PLACEHOLDER : str :=
  &"image content omitted because you do not support image input".

(** A panic in a build with debug assertions, a log entry otherwise. *)
Definition error_or_panic (debug : bool) : comp False unit := if debug then Panic else Ok tt.

Definition is_function_output (id : str) (i : ResponseItem) : bool :=
  match i with FunctionCallOutput existing _ => str_eqb existing id | _ => false end.
Definition is_tool_search_output (id : str) (i : ResponseItem) : bool :=
  match i with ToolSearchOutput (Some existing) _ _ _ => str_eqb existing id | _ => false end.
Definition is_custom_output (id : str) (i : ResponseItem) : bool :=
  match i with CustomToolCallOutput existing _ _ => str_eqb existing id | _ => false end.
Definition is_function_call (id : str) (i : ResponseItem) : bool :=
  match i with FunctionCall _ _ _ _ existing => str_eqb existing id | _ => false end.
Definition is_local_shell_call (id : str) (i : ResponseItem) : bool :=
  match i with LocalShellCall _ (Some existing) _ _ => str_eqb existing id | _ => false end.
Definition is_tool_search_call (id : str) (i : ResponseItem) : bool :=
  match i with ToolSearchCall _ (Some existing) _ _ _ => str_eqb existing id | _ => false end.
Definition is_custom_call (id : str) (i : ResponseItem) : bool :=
  match i with CustomToolCall _ _ existing _ _ => str_eqb existing id | _ => false end.

(** The output to insert behind an item of [items], and whether its absence is
    an error. *)
Definition missing_output (items : list ResponseItem) (item : ResponseItem) : option (bool * ResponseItem) :=
  match item with
  | FunctionCall _ _ _ _ call_id =>
      if existsb (is_function_output call_id) items then None
      else Some (false, FunctionCallOutput call_id (from_text (&"aborted")))
  | ToolSearchCall _ (Some call_id) _ _ _ =>
      if existsb (is_tool_search_output call_id) items then None
      else Some (false, ToolSearchOutput (Some call_id) (&"completed") (&"client") [])
  | CustomToolCall _ _ call_id _ _ =>
      if existsb (is_custom_output call_id) items then None
      else Some (true, CustomToolCallOutput call_id None (from_text (&"aborted")))
  | LocalShellCall _ (Some call_id) _ _ =>
      if existsb (is_function_output call_id) items then None
      else Some (true, FunctionCallOutput call_id (from_text (&"aborted")))
  | _ => None
  end.

(** The first loop of [ensure_call_outputs_present]. *)
Fixpoint missing_outputs (debug : bool) (items : list ResponseItem) (idx : nat) (rest : list ResponseItem)
  : comp False (list (nat * ResponseItem)) :=
  match rest with
  | [] => Ok []
  | item :: rest =>
      match missing_output items item with
      | None => missing_outputs debug items (S idx) rest
      | Some (unexpected, output) =>
          let? _ := if unexpected : bool then error_or_panic debug else Ok tt in
          let? l := missing_outputs debug items (S idx) rest in
          Ok ((idx, output) :: l)
      end
  end.

(** The second loop, over the reversed list. *)
Fixpoint insert_all (l : list (nat * ResponseItem)) (items : list ResponseItem) : comp False (list ResponseItem) :=
  match l with
  | [] => Ok items
  | (idx, output) :: l => let? items := vec_insert (idx + 1) output items in insert_all l items
  end.

Definition ensure_call_outputs_present (debug : bool) (items : list ResponseItem) : comp False (list ResponseItem) :=
  let? missing := missing_outputs debug items 0 items in
  insert_all (reverse missing) items.

Definition function_call_id (i : ResponseItem) : option str :=
  match i with FunctionCall _ _ _ _ id => Some id | _ => None end.
Definition tool_search_call_id (i : ResponseItem) : option str :=
  match i with ToolSearchCall _ id _ _ _ => id | _ => None end.
Definition local_shell_call_id (i : ResponseItem) : option str :=
  match i with LocalShellCall _ id _ _ => id | _ => None end.
Definition custom_tool_call_id (i : ResponseItem) : option str :=
  match i with CustomToolCall _ _ id _ _ => Some id | _ => None end.

Definition ids (f : ResponseItem -> option str) (items : list ResponseItem) : gset str :=
  list_to_set (omap f items).

(** The test of [retain]; only a failed test may be an error. *)
Definition has_call (items : list ResponseItem) (i : ResponseItem) : bool :=
  match i with
  | FunctionCallOutput call_id _ =>
      bool_decide (call_id ∈ ids function_call_id items) || bool_decide (call_id ∈ ids local_shell_call_id items)
  | CustomToolCallOutput call_id _ _ => bool_decide (call_id ∈ ids custom_tool_call_id items)
  | ToolSearchOutput call_id _ execution _ =>
      if str_eqb execution (&"server") then true
      else match call_id with
           | Some call_id => bool_decide (call_id ∈ ids tool_search_call_id items)
           | None => true
           end
  | _ => true
  end.

Fixpoint retain (debug : bool) (f : ResponseItem -> bool) (items : list ResponseItem)
  : comp False (list ResponseItem) :=
  match items with
  | [] => Ok []
  | i :: items =>
      if f i then let? l := retain debug f items in Ok (i :: l)
      else let? _ := error_or_panic debug in retain debug f items
  end.

Definition remove_orphan_outputs (debug : bool) (items : list ResponseItem) : comp False (list ResponseItem) :=
  retain debug (has_call items) items.

(** [iter().position(f)] *)
Fixpoint position {A} (f : A -> bool) (l : list A) : option nat :=
  match l with [] => None | x :: l => if f x then Some 0 else S <$> position f l end.

Definition remove_first_matching (f : ResponseItem -> bool) (items : list ResponseItem)
  : comp False (list ResponseItem) :=
  match position f items with Some pos => vec_remove pos items | None => Ok items end.

Definition remove_corresponding_for (item : ResponseItem) (items : list ResponseItem)
  : comp False (list ResponseItem) :=
  match item with
  | FunctionCall _ _ _ _ call_id => remove_first_matching (is_function_output call_id) items
  | FunctionCallOutput call_id _ =>
      match position (is_function_call call_id) items with
      | Some pos => vec_remove pos items
      | None =>
          match position (is_local_shell_call call_id) items with
          | Some pos => vec_remove pos items
          | None => Ok items
          end
      end
  | ToolSearchCall _ (Some call_id) _ _ _ => remove_first_matching (is_tool_search_output call_id) items
  | ToolSearchOutput (Some call_id) _ _ _ => remove_first_matching (is_tool_search_call call_id) items
  | CustomToolCall _ _ call_id _ _ => remove_first_matching (is_custom_output call_id) items
  | CustomToolCallOutput call_id _ _ => remove_first_matching (is_custom_call call_id) items
  | LocalShellCall _ (Some call_id) _ _ => remove_first_matching (is_function_output call_id) items
  | _ => Ok items
  end.

Definition strip_content (c : ContentItem) : ContentItem :=
  match c with InputImage _ _ => InputText IMAGE_CONTENT_OMITTED_PLACEHOLDER | _ => c end.
Definition strip_output_content (c : FunctionCallOutputContentItem) : FunctionCallOutputContentItem :=
  match c with OutInputImage _ _ => OutInputText IMAGE_CONTENT_OMITTED_PLACEHOLDER | _ => c end.
Definition strip_payload (p : FunctionCallOutputPayload) : FunctionCallOutputPayload :=
  match body p with
  | BodyText _ => p
  | ContentItems items => {| body := ContentItems (map strip_output_content items); success := success p |}
  end.

Definition strip_item (i : ResponseItem) : ResponseItem :=
  match i with
  | Message id role content phase => Message id role (map strip_content content) phase
  | FunctionCallOutput call_id output => FunctionCallOutput call_id (strip_payload output)
  | CustomToolCallOutput call_id name output => CustomToolCallOutput call_id name (strip_payload output)
  | ImageGenerationCall id status revised_prompt _ => ImageGenerationCall id status revised_prompt []
  | _ => i
  end.

Definition supports_images (input_modalities : list InputModality) : bool :=
  existsb (fun m => match m with ImageModality => true | TextModality => false end) input_modalities.

Definition strip_images_when_unsupported (input_modalities : list InputModality) (items : list ResponseItem)
  : list ResponseItem :=
  if supports_images input_modalities then items else map strip_item items.

(** ** Estimating sizes *)

(** serde_json's text of an item, and the size of the image in a base64 payload
    (the base64 and image libraries). *)
Class Estimator := {
  serialized_len : ResponseItem -> option N;
  image_dimensions : str -> option (N * N)
}.

Definition RESIZED_IMAGE_BYTES_ESTIMATE : Z := 7373.
Definition ORIGINAL_IMAGE_PATCH_SIZE : Z := 32.
Definition ORIGINAL_IMAGE_MAX_PATCHES : N := 10000.

Definition estimate_reasoning_length (encoded_len : N) : N := (sat_mul encoded_len 3 / 4 - 650)%N.

Definition div_ceil (a b : N) : N := ((a + b - 1) / b)%N.
Definition estimate_encrypted_function_output_length (encoded_len : N) : N := div_ceil (sat_mul encoded_len 9) 16.

Definition parse_base64_image_data_url (url : str) : option str :=
  if negb (starts_with_ignore_case (&"data:") url) then None
  else
    match split_once 44%N url with
    | None => None
    | Some (metadata, payload) =>
        match split_char 59%N (drop (length (&"data:")) metadata) with
        | [] => None
        | mime_type :: metadata_parts =>
            let has_base64_marker := existsb (fun part => eq_ignore_ascii_case part (&"base64")) metadata_parts in
            if negb (starts_with_ignore_case (&"image/") mime_type) then None
            else if negb has_base64_marker then None
            else Some payload
        end
    end.

Section estimates.
Context {estimator : Estimator}.

(** The cache in front of it is a function of the URL's digest. *)
Definition estimate_original_image_bytes (image_url : str) : option Z :=
  match parse_base64_image_data_url image_url with
  | None => None
  | Some payload =>
      match image_dimensions payload with
      | None => None
      | Some (width, height) =>
          let patches_wide := (i64_sat_add (Z.of_N width) (ORIGINAL_IMAGE_PATCH_SIZE - 1) / ORIGINAL_IMAGE_PATCH_SIZE)%Z in
          let patches_high := (i64_sat_add (Z.of_N height) (ORIGINAL_IMAGE_PATCH_SIZE - 1) / ORIGINAL_IMAGE_PATCH_SIZE)%Z in
          let patch_count := i64_clamp (patches_wide * patches_high) in
          let patch_count := N.min (Z.to_N patch_count) ORIGINAL_IMAGE_MAX_PATCHES in
          Some (i64_of_usize (approx_bytes_for_tokens patch_count))
      end
  end.

(** The closure [accumulate]: payload bytes and their replacement. *)
Definition accumulate (acc : Z * Z) (image_url : str) (detail : option ImageDetail) : Z * Z :=
  match parse_base64_image_data_url image_url with
  | None => acc
  | Some payload =>
      (i64_sat_add acc.1 (i64_of_usize (str_len payload)),
       i64_sat_add acc.2 (match detail with
                          | Some Original => default RESIZED_IMAGE_BYTES_ESTIMATE (estimate_original_image_bytes image_url)
                          | _ => RESIZED_IMAGE_BYTES_ESTIMATE
                          end))
  end.

Definition accumulate_content (acc : Z * Z) (c : ContentItem) : Z * Z :=
  match c with InputImage image_url detail => accumulate acc image_url detail | _ => acc end.
Definition accumulate_output (acc : Z * Z) (c : FunctionCallOutputContentItem) : Z * Z :=
  match c with OutInputImage image_url detail => accumulate acc image_url detail | _ => acc end.

Definition image_data_url_estimate_adjustment (item : ResponseItem) : Z * Z :=
  match item with
  | Message _ _ content _ => foldl accumulate_content (0, 0)%Z content
  | FunctionCallOutput _ output | CustomToolCallOutput _ _ output =>
      match body output with ContentItems items => foldl accumulate_output (0, 0)%Z items | BodyText _ => (0, 0)%Z end
  | _ => (0, 0)%Z
  end.

Definition accumulate_encrypted (acc : Z * Z) (c : FunctionCallOutputContentItem) : Z * Z :=
  match c with
  | EncryptedContent e =>
      (i64_sat_add acc.1 (i64_of_usize (str_len e)),
       i64_sat_add acc.2 (i64_of_usize (estimate_encrypted_function_output_length (str_len e))))
  | _ => acc
  end.

Definition encrypted_function_output_estimate_adjustment (item : ResponseItem) : Z * Z :=
  match item with
  | FunctionCallOutput _ output =>
      match body output with ContentItems items => foldl accumulate_encrypted (0, 0)%Z items | BodyText _ => (0, 0)%Z end
  | _ => (0, 0)%Z
  end.

Definition estimate_response_item_model_visible_bytes (item : ResponseItem) : Z :=
  match item with
  | Reasoning _ _ _ (Some content) _ _ | Compaction content | ContextCompaction (Some content) =>
      i64_of_usize (estimate_reasoning_length (str_len content))
  | _ =>
      let raw := default 0%Z (i64_of_usize <$> serialized_len item) in
      let image := image_data_url_estimate_adjustment item in
      let encrypted := encrypted_function_output_estimate_adjustment item in
      let raw := i64_sat_add (i64_sat_sub raw image.1) image.2 in
      i64_sat_add (i64_sat_sub raw encrypted.1) encrypted.2
  end.

Definition estimate_item_token_count (item : ResponseItem) : Z :=
  approx_tokens_from_byte_count_i64 (estimate_response_item_model_visible_bytes item).

(** [map(f).fold(0, i64::saturating_add)] *)
Definition saturating_sum (f : ResponseItem -> Z) (items : list ResponseItem) : Z :=
  foldl (fun n i => i64_sat_add n (f i)) 0%Z items.
End estimates.

(** ** Kinds of items *)

Definition is_api_message (message : ResponseItem) : bool :=
  match message with
  | Message _ role _ _ => negb (str_eqb role (&"system"))
  | CompactionTrigger | Other => false
  | _ => true
  end.

Definition is_model_generated_item (item : ResponseItem) : bool :=
  match item with
  | Message _ role _ _ => str_eqb role (&"assistant")
  | Reasoning _ _ _ _ _ _ | FunctionCall _ _ _ _ _ | ToolSearchCall _ _ _ _ _ | WebSearchCall _ _ _
  | ImageGenerationCall _ _ _ _ | CustomToolCall _ _ _ _ _ | LocalShellCall _ _ _ _ | Compaction _
  | ContextCompaction _ => true
  | _ => false
  end.

Definition is_codex_generated_item (item : ResponseItem) : bool :=
  match item with
  | FunctionCallOutput _ _ | ToolSearchOutput _ _ _ _ | CustomToolCallOutput _ _ _ => true
  | Message _ role _ _ => str_eqb role (&"developer")
  | _ => false
  end.

Definition is_user_turn_boundary {codec : Codec} (item : ResponseItem) : bool :=
  match item with
  | Message _ role content _ =>
      (str_eqb role (&"user") && negb (is_contextual_user_message_content content)) ||
      (str_eqb role (&"assistant") && is_inter_agent_instruction_content content)
  | _ => false
  end.

Fixpoint positions_from {A} (f : A -> bool) (idx : nat) (l : list A) : list nat :=
  match l with
  | [] => []
  | x :: l => if f x then idx :: positions_from f (S idx) l else positions_from f (S idx) l
  end.

Definition user_message_positions {codec : Codec} (items : list ResponseItem) : list nat :=
  positions_from is_user_turn_boundary 0 items.

(** [iter().rposition(f)] *)
Definition rposition {A} (f : A -> bool) (l : list A) : option nat := last (positions_from f 0 l).

(** ** history.rs *)

Record ContextManager (TurnContextItem : Type) := {
  items : list ResponseItem;
  history_version : N;
  token_info : option TokenUsageInfo;
  reference_context_item : option TurnContextItem
}.
Arguments items {TurnContextItem}. Arguments history_version {TurnContextItem}.
Arguments token_info {TurnContextItem}. Arguments reference_context_item {TurnContextItem}.
Arguments Build_ContextManager {TurnContextItem}.

Record TotalTokenUsageBreakdown := {
  last_api_response_total_tokens : Z;
  all_history_items_model_visible_bytes : Z;
  estimated_tokens_of_items_added_since_last_successful_api_response : Z;
  estimated_bytes_of_items_added_since_last_successful_api_response : Z
}.

Definition truncate_function_output_payload (output : FunctionCallOutputPayload) (policy : TruncationPolicy)
  : comp False FunctionCallOutputPayload :=
  let? b :=
    match body output with
    | BodyText content => let? t := truncate_text content policy in Ok (BodyText t)
    | ContentItems l => let? l := truncate_function_output_items_with_policy l policy in Ok (ContentItems l)
    end in
  Ok {| body := b; success := success output |}.

Definition process_item (item : ResponseItem) (policy : TruncationPolicy) : comp False ResponseItem :=
  let policy_with_serialization_budget := mul_1_2 policy in
  match item with
  | FunctionCallOutput call_id output =>
      let? output := truncate_function_output_payload output policy_with_serialization_budget in
      Ok (FunctionCallOutput call_id output)
  | CustomToolCallOutput call_id name output =>
      let? output := truncate_function_output_payload output policy_with_serialization_budget in
      Ok (CustomToolCallOutput call_id name output)
  | _ => Ok item
  end.

Section manager.
Context {TurnContextItem : Type} {codec : Codec} {estimator : Estimator}.
Notation manager := (ContextManager TurnContextItem).

Definition with_items (l : list ResponseItem) (m : manager) : manager :=
  {| items := l; history_version := history_version m; token_info := token_info m;
     reference_context_item := reference_context_item m |}.
Definition with_version (v : N) (m : manager) : manager :=
  {| items := items m; history_version := v; token_info := token_info m;
     reference_context_item := reference_context_item m |}.
Definition set_token_info (info : option TokenUsageInfo) (m : manager) : manager :=
  {| items := items m; history_version := history_version m; token_info := info;
     reference_context_item := reference_context_item m |}.
Definition set_reference_context_item (r : option TurnContextItem) (m : manager) : manager :=
  {| items := items m; history_version := history_version m; token_info := token_info m;
     reference_context_item := r |}.

Definition new_manager (debug : bool) : comp False manager :=
  let? info := new_or_append debug None None None in
  Ok {| items := []; history_version := 0; token_info := info; reference_context_item := None |}.

Definition seed_model_context_window (context_window : Z) (m : manager) : manager :=
  match token_info m with
  | Some info =>
      match model_context_window info with
      | None => set_token_info (Some {| total_token_usage := total_token_usage info;
                                        last_token_usage := last_token_usage info;
                                        model_context_window := Some context_window |}) m
      | Some _ => m
      end
  | None => set_token_info (Some {| total_token_usage := default_usage; last_token_usage := default_usage;
                                    model_context_window := Some context_window |}) m
  end.

Definition set_token_usage_full (debug : bool) (context_window : Z) (m : manager) : comp False manager :=
  let? info :=
    match token_info m with
    | Some info => fill_to_context_window debug context_window info
    | None => full_context_window debug context_window
    end in
  Ok (set_token_info (Some info) m).

Definition update_token_info (debug : bool) (usage : WireTokenUsage) (window : option Z) (m : manager)
  : comp False manager :=
  let? info := new_or_append debug (token_info m) (Some usage) window in
  Ok (set_token_info info m).

Fixpoint record_items (new : list ResponseItem) (policy : TruncationPolicy) (m : manager) : comp False manager :=
  match new with
  | [] => Ok m
  | item :: new =>
      if negb (is_api_message item) then record_items new policy m
      else
        let? processed := process_item item policy in
        record_items new policy (with_items (items m ++ [processed]) m)
  end.

Definition normalize_history (debug : bool) (input_modalities : list InputModality) (m : manager) : comp False manager :=
  let? l := ensure_call_outputs_present debug (items m) in
  let? l := remove_orphan_outputs debug l in
  Ok (with_items (strip_images_when_unsupported input_modalities l) m).

Definition for_prompt (debug : bool) (input_modalities : list InputModality) (m : manager)
  : comp False (list ResponseItem) :=
  let? m := normalize_history debug input_modalities m in
  Ok (items m).

Definition remove_first_item (m : manager) : comp False manager :=
  match items m with
  | [] => Ok m
  | removed :: rest => let? l := remove_corresponding_for removed rest in Ok (with_items l m)
  end.

Definition bump (m : manager) : manager := with_version (sat_add (history_version m) 1) m.

Definition remove_last_item (m : manager) : comp False (bool * manager) :=
  match last (items m) with
  | Some removed =>
      let? l := remove_corresponding_for removed (removelast (items m)) in
      Ok (true, bump (with_items l m))
  | None => Ok (false, m)
  end.

Definition replace (l : list ResponseItem) (m : manager) : manager := bump (with_items l m).

Definition replace_image (placeholder : str) (c : FunctionCallOutputContentItem) : FunctionCallOutputContentItem :=
  match c with OutInputImage _ _ => OutInputText placeholder | _ => c end.
Definition is_image (c : FunctionCallOutputContentItem) : bool :=
  match c with OutInputImage _ _ => true | _ => false end.

Definition replace_last_turn_images (placeholder : str) (m : manager) : comp False (bool * manager) :=
  let is_candidate i := match i with FunctionCallOutput _ _ => true | _ => is_user_turn_boundary i end in
  match rposition is_candidate (items m) with
  | None => Ok (false, m)
  | Some idx =>
      let? item := index (items m) idx in
      match item with
      | FunctionCallOutput call_id output =>
          match body output with
          | BodyText _ => Ok (false, m)
          | ContentItems l =>
              let output := {| body := ContentItems (map (replace_image placeholder) l); success := success output |} in
              let m' := with_items (<[idx := FunctionCallOutput call_id output]> (items m)) m in
              let replaced := existsb is_image l in
              Ok (replaced, if replaced then bump m' else m')
          end
      | _ => Ok (false, m)
      end
  end.

(** The walk back over the context that was injected in front of a turn. *)
Fixpoint trim_pre_turn_context_updates (snapshot : list ResponseItem) (first_instruction_turn_idx cut_idx : nat)
    (reference : option TurnContextItem) : comp False (nat * option TurnContextItem) :=
  match cut_idx with
  | 0 => Ok (0, reference)
  | S k =>
      if first_instruction_turn_idx <? cut_idx then
        let? item := index snapshot k in
        match item with
        | Message _ role content _ =>
            if str_eqb role (&"developer") && is_contextual_dev_message_content content then
              trim_pre_turn_context_updates snapshot first_instruction_turn_idx k
                (if has_non_contextual_dev_message_content content then None else reference)
            else if str_eqb role (&"user") && is_contextual_user_message_content content then
              trim_pre_turn_context_updates snapshot first_instruction_turn_idx k reference
            else Ok (cut_idx, reference)
        | _ => Ok (cut_idx, reference)
        end
      else Ok (cut_idx, reference)
  end.

Definition drop_last_n_user_turns (num_turns : nat) (m : manager) : comp False manager :=
  match num_turns with
  | 0 => Ok m
  | _ =>
      let snapshot := items m in
      let user_positions := user_message_positions snapshot in
      match user_positions with
      | [] => Ok (replace snapshot m)
      | first_instruction_turn_idx :: _ =>
          let? cut_idx :=
            if length user_positions <=? num_turns then Ok first_instruction_turn_idx
            else index user_positions (length user_positions - num_turns) in
          let? '(cut_idx, reference) :=
            trim_pre_turn_context_updates snapshot first_instruction_turn_idx cut_idx (reference_context_item m) in
          let? kept := slice 0 cut_idx snapshot in
          Ok (replace kept (set_reference_context_item reference m))
      end
  end.

Definition get_non_last_reasoning_items_tokens (m : manager) : Z :=
  match rposition is_user_turn_boundary (items m) with
  | None => 0%Z
  | Some last_user_index =>
      saturating_sum estimate_item_token_count
        (filter (fun i => match i with Reasoning _ _ _ (Some _) _ _ => true | _ => false end = true)
           (take last_user_index (items m)))
  end.

Definition items_after_last_model_generated_item (m : manager) : comp False (list ResponseItem) :=
  let start := match rposition is_model_generated_item (items m) with
               | Some idx => idx + 1
               | None => length (items m)
               end in
  slice_from start (items m).

Definition estimate_token_count_with_base_instructions (base_instructions : str) (m : manager) : option Z :=
  Some (i64_sat_add (i64_of_usize (approx_token_count base_instructions))
          (saturating_sum estimate_item_token_count (items m))).

Definition get_total_token_usage (server_reasoning_included : bool) (m : manager) : comp False Z :=
  let last_tokens := match token_info m with Some info => total_tokens (last_token_usage info) | None => 0%Z end in
  let? after := items_after_last_model_generated_item m in
  let after_tokens := saturating_sum estimate_item_token_count after in
  Ok (if server_reasoning_included then i64_sat_add last_tokens after_tokens
      else i64_sat_add (i64_sat_add last_tokens (get_non_last_reasoning_items_tokens m)) after_tokens).

Definition get_total_token_usage_breakdown (m : manager) : comp False TotalTokenUsageBreakdown :=
  let last_usage := match token_info m with Some info => last_token_usage info | None => default_usage end in
  let? after := items_after_last_model_generated_item m in
  Ok {| last_api_response_total_tokens := total_tokens last_usage;
        all_history_items_model_visible_bytes :=
          saturating_sum estimate_response_item_model_visible_bytes (items m);
        estimated_tokens_of_items_added_since_last_successful_api_response :=
          saturating_sum estimate_item_token_count after;
        estimated_bytes_of_items_added_since_last_successful_api_response :=
          saturating_sum estimate_response_item_model_visible_bytes after |}.
End manager.

(** ** Calls and outputs *)

Inductive call_kind := KFunction | KCustom | KSearch.
#[export] Instance call_kind_eq_dec : EqDecision call_kind.
Proof. solve_decision. Defined.

(** What a call expects and what an output answers; a local shell call is
    answered by a function output. *)
Definition call_key (i : ResponseItem) : option (call_kind * str) :=
  match i with
  | FunctionCall _ _ _ _ id | LocalShellCall _ (Some id) _ _ => Some (KFunction, id)
  | CustomToolCall _ _ id _ _ => Some (KCustom, id)
  | ToolSearchCall _ (Some id) _ _ _ => Some (KSearch, id)
  | _ => None
  end.
Definition output_key (i : ResponseItem) : option (call_kind * str) :=
  match i with
  | FunctionCallOutput id _ => Some (KFunction, id)
  | CustomToolCallOutput id _ _ => Some (KCustom, id)
  | ToolSearchOutput (Some id) _ _ _ => Some (KSearch, id)
  | _ => None
  end.

(** The server runs its own searches, without a call. *)
Definition is_server_output (i : ResponseItem) : bool :=
  match i with ToolSearchOutput _ _ execution _ => str_eqb execution (&"server") | _ => false end.

Definition is_output (i : ResponseItem) : bool :=
  match i with FunctionCallOutput _ _ | CustomToolCallOutput _ _ _ | ToolSearchOutput _ _ _ _ => true | _ => false end.

(** Every call has an output, every output (but the server's) a call. *)
Definition paired (l : list ResponseItem) : Prop :=
  (forall i k, i ∈ l -> call_key i = Some k -> exists o, o ∈ l /\ output_key o = Some k) /\
  (forall o k, o ∈ l -> output_key o = Some k -> is_server_output o = false -> exists i, i ∈ l /\ call_key i = Some k).

Lemma keys_exclusive i k : call_key i = Some k -> output_key i = None /\ is_output i = false.
Proof. destruct i; simpl; repeat case_match; done. Qed.

Lemma elem_ids f l (id : str) : id ∈ ids f l <-> exists i, i ∈ l /\ f i = Some id.
Proof. unfold ids. rewrite elem_of_list_to_set, list_elem_of_omap. done. Qed.

Lemma is_function_output_key id i : is_function_output id i = true <-> output_key i = Some (KFunction, id).
Proof. destruct i; simpl; try done; [rewrite str_eqb_eq; split; congruence|case_match; done]. Qed.
Lemma is_custom_output_key id i : is_custom_output id i = true <-> output_key i = Some (KCustom, id).
Proof. destruct i; simpl; try done; [rewrite str_eqb_eq; split; congruence|case_match; done]. Qed.
Lemma is_tool_search_output_key id i : is_tool_search_output id i = true <-> output_key i = Some (KSearch, id).
Proof. destruct i; simpl; try done. case_match; [rewrite str_eqb_eq; split; congruence|done]. Qed.

(** ** Normalising *)

Lemma existsb_key f k l :
  (forall i, f i = true <-> output_key i = Some k) ->
  if existsb f l then exists o, o ∈ l /\ output_key o = Some k
  else ~ exists o, o ∈ l /\ output_key o = Some k.
Proof.
  intros Hf. destruct (existsb f l) eqn:E.
  - apply existsb_elem in E as (o & Ho & Hk). exists o. by rewrite <- Hf.
  - apply not_true_iff_false in E. contradict E. apply existsb_elem. destruct E as (o & Ho & Hk). exists o. by rewrite Hf.
Qed.

(** A call misses its output exactly when nothing answers it. *)
Lemma missing_output_spec l i :
  match missing_output l i with
  | None => forall k, call_key i = Some k -> exists o, o ∈ l /\ output_key o = Some k
  | Some (_, o) => exists k, call_key i = Some k /\ output_key o = Some k /\ is_server_output o = false /\
      is_output o = true /\ ~ exists o', o' ∈ l /\ output_key o' = Some k
  end.
Proof.
  pose proof (fun id => existsb_key _ _ l (is_function_output_key id)) as Hf.
  pose proof (fun id => existsb_key _ _ l (is_custom_output_key id)) as Hc.
  pose proof (fun id => existsb_key _ _ l (is_tool_search_output_key id)) as Hs.
  destruct i as [| |? [id|] ? ?|? ? ? ? id|? [id|] ? ? ?| |? ? id ? ?| | | | | | | |]; simpl; try done;
    [specialize (Hf id)|specialize (Hf id)|specialize (Hs id)|specialize (Hc id)]; destruct (existsb _ _);
    first [by intros ? [= <-] | eexists; done].
Qed.

Definition synthetic (l : list ResponseItem) (i : ResponseItem) : list ResponseItem :=
  match missing_output l i with Some (_, o) => [o] | None => [] end.

(** The items with the missing outputs behind their calls. *)
Definition expand (l rest : list ResponseItem) : list ResponseItem :=
  concat (map (fun i => i :: synthetic l i) rest).

Fixpoint missing_from (l : list ResponseItem) (idx : nat) (rest : list ResponseItem) : list (nat * ResponseItem) :=
  match rest with
  | [] => []
  | i :: rest => map (pair idx) (synthetic l i) ++ missing_from l (S idx) rest
  end.

Lemma missing_outputs_release l idx rest : missing_outputs false l idx rest = Ok (missing_from l idx rest).
Proof.
  revert idx. induction rest as [|i rest IH]; intros idx; [done|]. cbn [missing_outputs missing_from]. unfold synthetic.
  destruct (missing_output l i) as [[[] o]|]; cbn; by rewrite IH.
Qed.

Lemma insert_all_app a b l : insert_all (a ++ b) l = (let? l' := insert_all a l in insert_all b l').
Proof.
  revert l. induction a as [|[n o] a IH]; intros l; cbn [app insert_all]; [done|].
  destruct (vec_insert (n + 1) o l); cbn; [apply IH|done..].
Qed.

(** Inserting from the back keeps the earlier indices valid. *)
Lemma insert_missing l pre rest :
  insert_all (reverse (missing_from l (length pre) rest)) (pre ++ rest) = Ok (pre ++ expand l rest).
Proof.
  revert pre. induction rest as [|i rest IH]; intros pre; [done|]. cbn [missing_from].
  rewrite reverse_app, insert_all_app. specialize (IH (pre ++ [i])).
  rewrite length_app, Nat.add_comm, <- !(assoc_L (++)) in IH. cbn [length Nat.add app] in IH. rewrite IH. cbn [comp_bind].
  unfold expand. cbn [map concat]. fold (expand l rest). unfold synthetic.
  destruct (missing_output l i) as [[b o]|]; [|done]. cbn. rewrite vec_insert_Ok by (rewrite length_app; simpl; lia).
  cbn. replace (length pre + 1) with (length (pre ++ [i])) by (rewrite length_app; done).
  change (pre ++ i :: expand l rest) with (pre ++ [i] ++ expand l rest). rewrite (assoc_L (++)).
  rewrite take_app_length, drop_app_length. by rewrite <- (assoc_L (++)).
Qed.

Lemma ensure_release l : ensure_call_outputs_present false l = Ok (expand l l).
Proof.
  unfold ensure_call_outputs_present. rewrite missing_outputs_release. cbn [comp_bind]. apply (insert_missing l []).
Qed.

Lemma retain_release f l : retain false f l = Ok (filter (fun i => f i = true) l).
Proof.
  induction l as [|i l IH]; [done|]. cbn [retain error_or_panic comp_bind]. rewrite IH. destruct (f i) eqn:E; cbn [comp_bind].
  - by rewrite filter_cons_True.
  - rewrite filter_cons_False; [done|]. by rewrite E.
Qed.

Lemma elem_expand l rest i :
  i ∈ expand l rest <-> i ∈ rest \/ exists j, j ∈ rest /\ i ∈ synthetic l j.
Proof.
  induction rest as [|x rest IH]; cbn; [set_solver|]. fold (expand l rest).
  rewrite elem_of_cons, elem_of_app, IH. set_solver.
Qed.

Lemma elem_synthetic l j i :
  i ∈ synthetic l j -> exists k, call_key j = Some k /\ output_key i = Some k /\ is_server_output i = false /\
    is_output i = true /\ ~ exists o, o ∈ l /\ output_key o = Some k.
Proof.
  unfold synthetic. pose proof (missing_output_spec l j) as H. destruct (missing_output l j) as [[b o]|]; [|by intros ?%elem_of_nil].
  by intros ->%list_elem_of_singleton.
Qed.

Lemma function_ids_key i id :
  function_call_id i = Some id \/ local_shell_call_id i = Some id <-> call_key i = Some (KFunction, id).
Proof. destruct i; simpl; repeat case_match; naive_solver. Qed.
Lemma custom_ids_key i id : custom_tool_call_id i = Some id <-> call_key i = Some (KCustom, id).
Proof. destruct i; simpl; repeat case_match; naive_solver. Qed.
Lemma tool_search_ids_key i id : tool_search_call_id i = Some id <-> call_key i = Some (KSearch, id).
Proof. destruct i; simpl; repeat case_match; naive_solver. Qed.

Lemma has_call_spec l o :
  has_call l o = true <->
  forall k, output_key o = Some k -> is_server_output o = false -> exists i, i ∈ l /\ call_key i = Some k.
Proof.
  destruct o as [| | | | |id ?| |id ? ?|[id|] ? e ?| | | | | |]; simpl; try (by split).
  - rewrite orb_true_iff, !bool_decide_eq_true, !elem_ids. split.
    + intros [(i & Hi & Hk)|(i & Hi & Hk)] ? [= <-] _; exists i; (split; [done|]); apply function_ids_key; auto.
    + intros Hk. destruct (Hk _ eq_refl eq_refl) as (i & Hi & [Hf|Hf]%function_ids_key); eauto.
  - rewrite bool_decide_eq_true, elem_ids. setoid_rewrite custom_ids_key. naive_solver.
  - destruct (str_eqb e (&"server")); [by split|]. rewrite bool_decide_eq_true, elem_ids.
    setoid_rewrite tool_search_ids_key. naive_solver.
  - by destruct (str_eqb e (&"server")).
Qed.

(** What normalising makes of the items in a release build. *)
Definition normalized (l : list ResponseItem) : list ResponseItem :=
  filter (fun i => has_call (expand l l) i = true) (expand l l).

Lemma normalized_paired l : paired (normalized l).
Proof.
  assert (forall i k, i ∈ expand l l -> call_key i = Some k -> i ∈ normalized l) as Hcall.
  { intros i k Hi Hk. apply list_elem_of_filter. split; [|done]. apply has_call_spec. intros k' Hk'.
    apply keys_exclusive in Hk as [Hk _]. congruence. }
  assert (forall i o k, i ∈ expand l l -> call_key i = Some k -> o ∈ expand l l -> output_key o = Some k -> o ∈ normalized l) as Hout.
  { intros i o k Hi Hk Ho Hok. apply list_elem_of_filter. split; [|done]. apply has_call_spec. intros k' Hk' _.
    exists i. split; [done|]. congruence. }
  split.
  - intros i k [_ Hi]%list_elem_of_filter Hk. pose proof Hi as [Hil|(j & Hj & Hs)]%elem_expand.
    2: { apply elem_synthetic in Hs as (k' & _ & Ho & _). apply keys_exclusive in Hk as [Hk _]. congruence. }
    pose proof (missing_output_spec l i) as Hm. destruct (missing_output l i) as [[b o]|] eqn:E.
    + destruct Hm as (k' & Hk' & Ho & _). assert (k' = k) as -> by congruence. exists o. split; [|done].
      apply (Hout i o k); [done..| |done]. apply elem_expand. right. exists i. split; [done|]. unfold synthetic. rewrite E. left.
    + destruct (Hm k Hk) as (o & Ho & Hok). exists o. split; [|done].
      apply (Hout i o k); [done..| |done]. apply elem_expand. by left.
  - intros o k [Hh Ho]%list_elem_of_filter Hk Hs. destruct (proj1 (has_call_spec _ o) Hh k Hk Hs) as (i & Hi & Hik).
    exists i. split; [by eapply Hcall|done].
Qed.

(** ** Stripping images *)

Definition image_free (i : ResponseItem) : bool :=
  match i with
  | Message _ _ content _ => forallb (fun c => match c with InputImage _ _ => false | _ => true end) content
  | FunctionCallOutput _ output | CustomToolCallOutput _ _ output =>
      match body output with
      | BodyText _ => true
      | ContentItems l => forallb (fun c => negb (is_image c)) l
      end
  | ImageGenerationCall _ _ _ result => str_eqb result []
  | _ => true
  end.

Lemma strip_item_keys i :
  call_key (strip_item i) = call_key i /\ output_key (strip_item i) = output_key i /\
  is_server_output (strip_item i) = is_server_output i /\ is_output (strip_item i) = is_output i.
Proof. by destruct i. Qed.

Lemma strip_item_image_free i : image_free (strip_item i) = true.
Proof.
  destruct i; simpl; try done.
  - induction content as [|[] ? IH]; done.
  - unfold strip_payload. destruct (body output) eqn:E; simpl; [by rewrite E|]. clear E. by induction items0 as [|[] ? IH].
  - unfold strip_payload. destruct (body output) eqn:E; simpl; [by rewrite E|]. clear E. by induction items0 as [|[] ? IH].
Qed.

Lemma paired_map f l :
  (forall i, call_key (f i) = call_key i /\ output_key (f i) = output_key i /\ is_server_output (f i) = is_server_output i) ->
  paired l -> paired (map f l).
Proof.
  intros Hf [H1 H2]. split.
  - intros i k (j & -> & Hj)%list_elem_of_fmap Hk. destruct (Hf j) as (Hc & _ & _). rewrite Hc in Hk.
    destruct (H1 j k Hj Hk) as (o & Ho & Hok). exists (f o). split; [by apply list_elem_of_fmap_2|].
    by rewrite (proj1 (proj2 (Hf o))).
  - intros o k (j & -> & Hj)%list_elem_of_fmap Hk Hs. destruct (Hf j) as (_ & Ho & Hs'). rewrite Ho in Hk. rewrite Hs' in Hs.
    destruct (H2 j k Hj Hk Hs) as (i & Hi & Hik). exists (f i). split; [by apply list_elem_of_fmap_2|].
    by rewrite (proj1 (Hf i)).
Qed.

Lemma strip_paired mods l : paired l -> paired (strip_images_when_unsupported mods l).
Proof.
  intros Hp. unfold strip_images_when_unsupported. case_match; [done|]. apply paired_map; [|done].
  intros i. destruct (strip_item_keys i) as (? & ? & ? & _). done.
Qed.

(** ** What normalising does, item by item *)

(** The output of a call that was cut off *)
Definition aborted (i : ResponseItem) : list ResponseItem :=
  match i with
  | FunctionCall _ _ _ _ id | LocalShellCall _ (Some id) _ _ => [FunctionCallOutput id (from_text (&"aborted"))]
  | CustomToolCall _ _ id _ _ => [CustomToolCallOutput id None (from_text (&"aborted"))]
  | ToolSearchCall _ (Some id) _ _ _ => [ToolSearchOutput (Some id) (&"completed") (&"client") []]
  | _ => []
  end.

(** An output without a call goes, a call without an output gets one behind it. *)
Definition repair (l : list ResponseItem) (i : ResponseItem) : list ResponseItem :=
  match output_key i, call_key i with
  | Some k, _ => if is_server_output i || bool_decide (Some k ∈ map call_key l) then [i] else []
  | None, Some k => if bool_decide (Some k ∈ map output_key l) then [i] else i :: aborted i
  | None, None => [i]
  end.

Lemma elem_keys (f : ResponseItem -> option (call_kind * str)) k l : Some k ∈ map f l <-> exists i, i ∈ l /\ f i = Some k.
Proof. rewrite list_elem_of_fmap. naive_solver. Qed.

Lemma synthetic_aborted l i :
  synthetic l i = match call_key i with Some k => if bool_decide (Some k ∈ map output_key l) then [] else aborted i | None => [] end.
Proof.
  pose proof (missing_output_spec l i) as H. unfold synthetic. destruct (call_key i) as [k|] eqn:Ek.
  - assert (Some k ∈ map output_key l <-> exists o, o ∈ l /\ output_key o = Some k) as Hk by apply elem_keys.
    destruct (missing_output l i) as [[b o]|] eqn:E.
    + destruct H as (k' & [= <-] & _ & _ & _ & Hn). rewrite bool_decide_eq_false_2 by (by rewrite Hk).
      destruct i as [| |? [id|] ? ?|? ? ? ? id|? [id|] ? ? ?| |? ? id ? ?| | | | | | | |]; try done; cbn in E; case_match; by simplify_eq.
    + rewrite bool_decide_eq_true_2; [done|]. rewrite Hk. by apply H.
  - destruct (missing_output l i) as [[b o]|]; [|done]. by destruct H as (k & [= ] & _).
Qed.

Lemma has_call_expand l o : has_call (expand l l) o = true <->
  forall k, output_key o = Some k -> is_server_output o = false -> Some k ∈ map call_key l.
Proof.
  rewrite has_call_spec. setoid_rewrite elem_keys. split; intros H k Hk Hs; destruct (H k Hk Hs) as (i & Hi & Hik); exists i; (split; [|done]).
  - apply elem_expand in Hi as [?|(j & _ & Hj)]; [done|]. apply elem_synthetic in Hj as (k' & _ & Ho & _).
    apply keys_exclusive in Hik as [Hn _]. congruence.
  - apply elem_expand. by left.
Qed.

Lemma normalized_repair l : normalized l = l ≫= repair l.
Proof.
  assert (forall rest, rest ⊆ l -> filter (fun i => has_call (expand l l) i = true) (expand l rest) = rest ≫= repair l) as H; [|by apply H].
  induction rest as [|i rest IH]; intros Hs; [done|]. cbn [mbind list_bind]. change (expand l (i :: rest)) with ((i :: synthetic l i) ++ expand l rest).
  rewrite filter_app, IH by set_solver. f_equal. rewrite synthetic_aborted. unfold repair. destruct (call_key i) as [k|] eqn:Ek.
  - destruct (keys_exclusive i k Ek) as [Ho _]. rewrite Ho. rewrite filter_cons_True by (apply has_call_expand; by rewrite Ho).
    case_bool_decide as Hb; [done|]. f_equal. assert (Some k ∈ map call_key l) as Hin by (apply elem_keys; exists i; set_solver).
    destruct i as [| |? [id|] ? ?|? ? ? ? id|? [id|] ? ? ?| |? ? id ? ?| | | | | | | |]; try done;
      cbn [aborted]; injection Ek as <-; rewrite filter_cons_True; try done; apply has_call_expand; by intros ? [= <-].
  - assert (forall o, has_call (expand l l) o = true -> filter (fun i => has_call (expand l l) i = true) [o] = [o]) as Hk
      by (intros; by rewrite filter_cons_True).
    destruct (output_key i) as [k|] eqn:Eo; [|apply Hk, has_call_expand; by rewrite Eo].
    destruct (is_server_output i) eqn:Es; [apply Hk, has_call_expand; by rewrite Es|]. cbn [orb]. case_bool_decide as Hb.
    + apply Hk, has_call_expand. rewrite Eo. by intros ? [= <-].
    + rewrite filter_cons_False; [done|]. rewrite has_call_expand, Eo. intros Hc. apply Hb. by apply Hc.
Qed.

Lemma strip_item_id i : image_free i = true -> strip_item i = i.
Proof.
  assert (forall p, match body p with BodyText _ => true | ContentItems l => forallb (fun c => negb (is_image c)) l end = true -> strip_payload p = p) as Hp.
  { intros [[|l] s]; unfold strip_payload; cbn; [done|]. intros H. do 2 f_equal. induction l as [|[] l IH]; cbn in *; try done; by rewrite IH. }
  destruct i; try done; cbn; intros H; rewrite ?Hp by done; try done.
  - f_equal. induction content as [|[] content IH]; cbn in *; try done; by rewrite IH.
  - apply str_eqb_eq in H. by subst.
Qed.

(** ** What is sent to the model *)

Section prompt.
Context {TurnContextItem : Type}.
Implicit Types m : ContextManager TurnContextItem.

Lemma for_prompt_release mods m :
  for_prompt false mods m = Ok (strip_images_when_unsupported mods (normalized (items m))).
Proof.
  unfold for_prompt, normalize_history, remove_orphan_outputs. rewrite ensure_release. cbn [comp_bind].
  rewrite retain_release. done.
Qed.

(** C34: for every history, whatever was recorded or cut off, the prompt of a release
    build (a debug build panics where an output has no call, or a shell or custom call no
    output) is the history with exactly two changes: behind each call that no recorded
    output answers stands its aborted output, and outputs without a call, the server's own
    searches apart, are gone.  So each call has an output and each output a call.  For a
    model that takes images that is the prompt; for another one each item keeps its place and
    its identifiers, no image is left, and items without images are as they were. *)
Theorem for_prompt_paired mods m :
  exists out, for_prompt false mods m = Ok out /\ paired out /\
    (supports_images mods = true -> out = items m ≫= repair (items m)) /\
    (supports_images mods = false -> Forall2 (fun i o => image_free o = true /\ (image_free i = true -> o = i) /\
       call_key o = call_key i /\ output_key o = output_key i) (items m ≫= repair (items m)) out).
Proof.
  eexists. split; [apply for_prompt_release|]. split; [apply strip_paired, normalized_paired|]. rewrite normalized_repair.
  unfold strip_images_when_unsupported. split; intros ->; [done|]. apply Forall2_fmap_r, Forall_Forall2_diag, Forall_forall.
  intros i _. destruct (strip_item_keys i) as (Hc & Ho & _). split_and!; [apply strip_item_image_free|apply strip_item_id|done..].
Qed.

Lemma ensure_paired debug l : paired l -> ensure_call_outputs_present debug l = Ok l.
Proof.
  intros [H1 _]. assert (forall idx rest, rest ⊆ l -> missing_outputs debug l idx rest = Ok []) as Hm.
  { intros idx rest. revert idx. induction rest as [|i rest IH]; intros idx Hr; [done|]. cbn [missing_outputs].
    pose proof (missing_output_spec l i) as Hi. destruct (missing_output l i) as [[b o]|].
    - destruct Hi as (k & Hk & _ & _ & _ & Hno). exfalso. apply Hno. apply (H1 i); [|done]. apply Hr. left.
    - apply IH. set_solver. }
  unfold ensure_call_outputs_present. by rewrite Hm.
Qed.

Lemma retain_paired debug l : paired l -> remove_orphan_outputs debug l = Ok l.
Proof.
  intros [_ H2]. unfold remove_orphan_outputs.
  assert (forall rest, rest ⊆ l -> retain debug (has_call l) rest = Ok rest) as Hr; [|by apply Hr].
  induction rest as [|i rest IH]; intros Hs; [done|]. cbn [retain].
  rewrite (proj2 (has_call_spec l i)); [rewrite IH by set_solver; done|]. intros k Hk Hv.
  apply (H2 i); [|done..]. apply Hs. left.
Qed.

(** Normalising leaves a history whose calls and outputs are paired as it is, in
    debug builds too, where a mismatch would panic. *)
Theorem for_prompt_paired_unchanged debug mods m :
  paired (items m) -> for_prompt debug mods m = Ok (strip_images_when_unsupported mods (items m)).
Proof.
  intros Hp. unfold for_prompt, normalize_history. rewrite ensure_paired by done. cbn [comp_bind].
  by rewrite retain_paired.
Qed.
End prompt.

Definition small_history : ContextManager unit :=
  {| items := [FunctionCall None (&"shell") None (&"{}") (&"c1"); FunctionCallOutput (&"c1") (from_text (&"ok"));
               Message None (&"user") [InputText (&"hello")] None];
     history_version := 0; token_info := None; reference_context_item := None |}.

Lemma small_history_paired : paired (items small_history).
Proof.
  split; intros i k Hi Hk; cbn in Hi; repeat (apply elem_of_cons in Hi as [-> |Hi]); try done;
    try (by apply elem_of_nil in Hi); [|intros _]; injection Hk as <-.
  - exists (FunctionCallOutput (&"c1") (from_text (&"ok"))). split; [set_solver|done].
  - exists (FunctionCall None (&"shell") None (&"{}") (&"c1")). split; [set_solver|done].
Qed.

Lemma for_prompt_paired_unchanged_witness :
  for_prompt true [TextModality] small_history = Ok (items small_history).
Proof. exact (for_prompt_paired_unchanged true [TextModality] small_history small_history_paired). Defined.

(** ** Removing an item with its counterpart *)

(** No two calls expect, and no two outputs give, the same answer. *)
Definition distinct_keys (l : list ResponseItem) : Prop := NoDup (omap call_key l) /\ NoDup (omap output_key l).

Lemma position_spec {A} (f : A -> bool) l :
  match position f l with
  | Some n => exists l1 x l2, l = l1 ++ x :: l2 /\ n = length l1 /\ f x = true /\ Forall (fun y => f y = false) l1
  | None => Forall (fun y => f y = false) l
  end.
Proof.
  induction l as [|x l IH]; simpl; [done|]. destruct (f x) eqn:E.
  - exists [], x, l. by split_and!.
  - destruct (position f l) as [n|]; simpl.
    + destruct IH as (l1 & y & l2 & -> & -> & Hy & Hl). exists (x :: l1), y, l2. by split_and!; [..|constructor].
    + by constructor.
Qed.

(** With distinct keys, removing one item with a key removes all. *)
Lemma filter_no_key (key : ResponseItem -> option (call_kind * str)) k (l : list ResponseItem) :
  (forall i, i ∈ l -> key i <> Some k) -> filter (fun i => key i <> Some k) l = l.
Proof.
  induction l as [|x l IH]; intros Hl; [done|]. rewrite filter_cons_True by (apply Hl; left).
  rewrite IH; [done|]. intros i Hi. apply Hl. by right.
Qed.

Lemma remove_at_key (key : ResponseItem -> option (call_kind * str)) k l1 x l2 :
  key x = Some k -> NoDup (omap key (l1 ++ x :: l2)) ->
  vec_remove (length l1) (l1 ++ x :: l2) =
  (Ok (filter (fun i => key i <> Some k) (l1 ++ x :: l2)) : comp False (list ResponseItem)).
Proof.
  intros Hx Hn. rewrite vec_remove_Ok by (rewrite length_app; simpl; lia). rewrite take_app_length.
  replace (S (length l1)) with (length l1 + 1) by lia. rewrite drop_app_add. cbn [drop].
  rewrite omap_app in Hn. cbn [omap list_omap] in Hn. rewrite Hx in Hn.
  apply NoDup_app in Hn as (_ & H1 & [H2 _]%NoDup_cons). rewrite filter_app, filter_cons_False by (by intros ?).
  rewrite !filter_no_key; [done|..]; intros i Hi Hk.
  - apply H2, list_elem_of_omap. by exists i.
  - apply (H1 k); [apply list_elem_of_omap; by exists i|left].
Qed.

Lemma remove_first_key (f : ResponseItem -> bool) key (k : call_kind * str) (l : list ResponseItem) :
  (forall i, f i = true <-> key i = Some k) -> NoDup (omap key l) ->
  remove_first_matching f l = Ok (filter (fun i => key i <> Some k) l).
Proof.
  intros Hf Hn. unfold remove_first_matching. pose proof (position_spec f l) as Hp. destruct (position f l) as [n|].
  - destruct Hp as (l1 & x & l2 & -> & -> & Hx & _). apply remove_at_key; [by apply Hf|done].
  - rewrite filter_no_key; [done|]. intros i Hi Hk%Hf. rewrite Forall_forall in Hp. rewrite (Hp i Hi) in Hk. done.
Qed.

Lemma is_function_call_key id i :
  is_function_call id i || is_local_shell_call id i = true <-> call_key i = Some (KFunction, id).
Proof. destruct i; simpl; try done; try (case_match; try done); rewrite ?orb_false_r, str_eqb_eq; split; congruence. Qed.
Lemma is_custom_call_key id i : is_custom_call id i = true <-> call_key i = Some (KCustom, id).
Proof. destruct i; simpl; try done; try (case_match; done). rewrite str_eqb_eq; split; congruence. Qed.
Lemma is_tool_search_call_key id i : is_tool_search_call id i = true <-> call_key i = Some (KSearch, id).
Proof. destruct i; simpl; try done; try (case_match; try done). rewrite str_eqb_eq; split; congruence. Qed.

Lemma distinct_tail x l : distinct_keys (x :: l) -> distinct_keys l.
Proof.
  intros [Hc Ho]. cbn [omap list_omap] in Hc, Ho. split; [destruct (call_key x)|destruct (output_key x)]; try done;
    [by apply NoDup_cons in Hc as [_ ?]|by apply NoDup_cons in Ho as [_ ?]].
Qed.

Lemma remove_corresponding_spec x l :
  distinct_keys (x :: l) ->
  remove_corresponding_for x l =
  Ok (match call_key x, output_key x with
      | Some k, _ => filter (fun i => output_key i <> Some k) l
      | None, Some k => filter (fun i => call_key i <> Some k) l
      | None, None => l
      end).
Proof.
  intros [Hcl Hol]%distinct_tail.
  destruct x as [| |? [id|] ? ?|? ? ? ? id|? [id|] ? ? ?|id ?|? ? id ? ?|id ? ?|[id|] ? ? ?| | | | | |]; simpl; try done.
  - apply remove_first_key; [apply is_function_output_key|done].
  - apply remove_first_key; [apply is_function_output_key|done].
  - apply remove_first_key; [apply is_tool_search_output_key|done].
  - pose proof (position_spec (is_function_call id) l) as Hf. destruct (position (is_function_call id) l).
    { destruct Hf as (l1 & y & l2 & -> & -> & Hy & _). apply remove_at_key; [|done].
      apply is_function_call_key. by rewrite Hy. }
    pose proof (position_spec (is_local_shell_call id) l) as Hs. destruct (position (is_local_shell_call id) l).
    { destruct Hs as (l1 & y & l2 & -> & -> & Hy & _). apply remove_at_key; [|done].
      apply is_function_call_key. by rewrite Hy, orb_true_r. }
    rewrite filter_no_key; [done|]. intros i Hi Hk%is_function_call_key. rewrite Forall_forall in Hf, Hs.
    by rewrite (Hf i Hi), (Hs i Hi) in Hk.
  - apply remove_first_key; [apply is_custom_output_key|done].
  - apply remove_first_key; [apply is_custom_call_key|done].
  - apply remove_first_key; [apply is_tool_search_call_key|done].
Qed.

Lemma distinct_filter (P : ResponseItem -> Prop) `{!forall i, Decision (P i)} (l : list ResponseItem) : distinct_keys l -> distinct_keys (filter P l).
Proof.
  assert (forall key : ResponseItem -> option (call_kind * str), NoDup (omap key l) -> NoDup (omap key (filter P l))) as Hkey.
  { intros key. induction l as [|x l IH]; [done|]. cbn [omap list_omap]. intros Hn. destruct (decide (P x)).
    - rewrite filter_cons_True by done. cbn [omap list_omap]. destruct (key x) as [k|]; [|auto].
      apply NoDup_cons in Hn as [Hk Hn]. apply NoDup_cons. split; [|auto]. contradict Hk.
      apply list_elem_of_omap in Hk as (i & [_ Hi]%list_elem_of_filter & Hik). apply list_elem_of_omap. by exists i.
    - rewrite filter_cons_False by done. destruct (key x); [apply NoDup_cons in Hn as [_ Hn]|]; auto. }
  intros [Hc Ho]. split; auto.
Qed.

(** No other item has the same key as the removed one. *)
Lemma distinct_head (key : ResponseItem -> option (call_kind * str)) x l i k :
  NoDup (omap key (x :: l)) -> key x = Some k -> i ∈ l -> key i <> Some k.
Proof.
  intros Hn Hx Hi Hk. cbn [omap list_omap] in Hn. rewrite Hx in Hn. apply NoDup_cons in Hn as [Hn _].
  apply Hn, list_elem_of_omap. by exists i.
Qed.

Lemma call_removed_paired x l k :
  paired (x :: l) -> distinct_keys (x :: l) -> call_key x = Some k ->
  paired (filter (fun i => output_key i <> Some k) l).
Proof.
  intros [H1 H2] [Hc Ho] Hx. pose proof (keys_exclusive _ _ Hx) as [Hxo _]. split.
  - intros i k' [_ Hi]%list_elem_of_filter Hk'. pose proof (distinct_head _ _ _ _ _ Hc Hx Hi) as Hne.
    destruct (H1 i k' ltac:(by right) Hk') as (o & [-> |Hol]%elem_of_cons & Hok); [congruence|].
    exists o. split; [|done]. apply list_elem_of_filter. split; [congruence|done].
  - intros o k' [Hne Hol]%list_elem_of_filter Hk' Hs.
    destruct (H2 o k' ltac:(by right) Hk' Hs) as (i & [-> |Hi]%elem_of_cons & Hik); [congruence|].
    exists i. split; [|done]. apply list_elem_of_filter. split; [|done].
    apply keys_exclusive in Hik as [Hik _]. congruence.
Qed.

Lemma output_removed_paired x l k :
  paired (x :: l) -> distinct_keys (x :: l) -> output_key x = Some k ->
  paired (filter (fun i => call_key i <> Some k) l).
Proof.
  intros [H1 H2] [Hc Ho] Hx. assert (call_key x = None) as Hxc.
  { destruct (call_key x) eqn:E; [|done]. apply keys_exclusive in E as [E _]. congruence. }
  split.
  - intros i k' [Hne Hi]%list_elem_of_filter Hk'.
    destruct (H1 i k' ltac:(by right) Hk') as (o & [-> |Hol]%elem_of_cons & Hok); [congruence|].
    exists o. split; [|done]. apply list_elem_of_filter. split; [|done].
    intros Hoc. apply keys_exclusive in Hoc as [Hoc _]. congruence.
  - intros o k' [_ Hol]%list_elem_of_filter Hk' Hs. pose proof (distinct_head _ _ _ _ _ Ho Hx Hol) as Hne.
    destruct (H2 o k' ltac:(by right) Hk' Hs) as (i & [-> |Hi]%elem_of_cons & Hik); [congruence|].
    exists i. split; [|done]. apply list_elem_of_filter. split; [congruence|done].
Qed.

Lemma plain_removed_paired x l :
  paired (x :: l) -> call_key x = None -> output_key x = None -> paired l.
Proof.
  intros [H1 H2] Hc Ho. split.
  - intros i k Hi Hk. destruct (H1 i k ltac:(by right) Hk) as (o & [-> |Hol]%elem_of_cons & Hok); [congruence|]. by exists o.
  - intros o k Hol Hk Hs. destruct (H2 o k ltac:(by right) Hk Hs) as (i & [-> |Hi]%elem_of_cons & Hik); [congruence|]. by exists i.
Qed.

(** Removing an item and its counterpart keeps the rest paired. *)
Lemma remove_corresponding_paired x l :
  paired (x :: l) -> distinct_keys (x :: l) ->
  exists l', remove_corresponding_for x l = Ok l' /\ paired l' /\ distinct_keys l' /\ l' ⊆+ l.
Proof.
  intros Hp Hd. eexists. split; [by apply remove_corresponding_spec|]. pose proof (distinct_tail x l Hd) as Hdl.
  destruct (call_key x) as [k|] eqn:Ec; [|destruct (output_key x) as [k|] eqn:Eo]; split_and!;
    first [by eapply call_removed_paired|by eapply output_removed_paired|by eapply plain_removed_paired
          |by apply distinct_filter|apply sublist_submseteq, sublist_filter|done].
Qed.

Lemma paired_perm l l' : l ≡ₚ l' -> paired l -> paired l'.
Proof. intros Hl [H1 H2]. split; setoid_rewrite <- Hl; done. Qed.

Lemma distinct_perm l l' : l ≡ₚ l' -> distinct_keys l -> distinct_keys l'.
Proof. intros Hl [Hc Ho]. split; by rewrite <- Hl. Qed.

(** Dropping the oldest or the newest item of a history whose calls and outputs
    are paired one to one drops its counterpart with it, so that the history stays
    paired one to one without a normalisation, and nothing else is added. *)
Theorem remove_item_keeps_paired {T} (m : ContextManager T) :
  paired (items m) -> distinct_keys (items m) ->
  (exists m', remove_first_item m = Ok m' /\ paired (items m') /\ distinct_keys (items m') /\ items m' ⊆+ items m) /\
  (exists b m', remove_last_item m = Ok (b, m') /\ paired (items m') /\ distinct_keys (items m') /\ items m' ⊆+ items m).
Proof.
  intros Hp Hd. split.
  - unfold remove_first_item. destruct (items m) as [|x l] eqn:E; [exists m; by rewrite E|].
    destruct (remove_corresponding_paired x l Hp Hd) as (l' & -> & Hp' & Hd' & Hs). eexists. split; [done|].
    split_and!; [done..|]. simpl. by apply submseteq_cons.
  - unfold remove_last_item. destruct (items m) as [|x l _] eqn:E using rev_ind; [exists false, m; by rewrite E|].
    rewrite last_snoc, removelast_last. assert (l ++ [x] ≡ₚ x :: l) as Hperm by (by rewrite Permutation_app_comm).
    destruct (remove_corresponding_paired x l) as (l' & -> & Hp' & Hd' & Hs).
    { by eapply paired_perm. } { by eapply distinct_perm. }
    eexists true, _. split; [done|]. split_and!; [done..|]. simpl. rewrite Hperm. by apply submseteq_cons.
Qed.

Lemma remove_item_keeps_paired_witness :
  exists m', remove_first_item small_history = Ok m' /\ paired (items m') /\ distinct_keys (items m') /\
    items m' ⊆+ items small_history.
Proof.
  refine (proj1 (remove_item_keeps_paired small_history small_history_paired _)).
  split; cbn; repeat constructor; set_solver.
Defined.

(** ** Rolling back turns *)

Section rollback.
Context {TurnContextItem : Type} {codec : Codec}.
Implicit Types m : ContextManager TurnContextItem.

(** Context that was injected in front of a turn. *)
Definition is_context_update (i : ResponseItem) : bool :=
  match i with
  | Message _ role content _ =>
      (str_eqb role (&"developer") && is_contextual_dev_message_content content) ||
      (str_eqb role (&"user") && is_contextual_user_message_content content)
  | _ => false
  end.

(** A developer message that mixes such context with text that stays. *)
Definition is_mixed_bundle (i : ResponseItem) : bool :=
  match i with
  | Message _ role content _ =>
      str_eqb role (&"developer") && is_contextual_dev_message_content content &&
      has_non_contextual_dev_message_content content
  | _ => false
  end.

Lemma context_update_no_boundary i : is_context_update i = true -> is_user_turn_boundary i = false.
Proof.
  destruct i; simpl; try done. intros [[->%str_eqb_eq _]%andb_prop|[->%str_eqb_eq ->]%andb_prop]%orb_prop; done.
Qed.

Lemma positions_split {A} (f : A -> bool) idx l j b :
  positions_from f idx l !! j = Some b ->
  exists l1 x l2, l = l1 ++ x :: l2 /\ b = idx + length l1 /\ f x = true /\
    positions_from f idx l1 = take j (positions_from f idx l).
Proof.
  revert idx j. induction l as [|y l IH]; intros idx j Hj; [done|]. cbn [positions_from] in *. destruct (f y) eqn:E.
  - destruct j as [|j]; simpl in Hj.
    + simplify_eq. exists [], y, l. split_and!; [done|simpl; lia|done|done].
    + destruct (IH (S idx) j Hj) as (l1 & x & l2 & -> & -> & Hx & Hp). exists (y :: l1), x, l2.
      split_and!; [done|simpl; lia|done|]. cbn. by rewrite E, Hp.
  - destruct (IH (S idx) j Hj) as (l1 & x & l2 & -> & -> & Hx & Hp). exists (y :: l1), x, l2.
    split_and!; [done|simpl; lia|done|]. cbn. by rewrite E, Hp.
Qed.

Lemma positions_app_none {A} (f : A -> bool) idx l ctx :
  Forall (fun x => f x = false) ctx -> positions_from f idx (l ++ ctx) = positions_from f idx l.
Proof.
  intros Hc. revert idx. induction l as [|y l IH]; intros idx; cbn.
  - revert idx. induction Hc as [|c ctx Hc _ IH]; intros idx; cbn; [done|]. by rewrite Hc.
  - by rewrite IH.
Qed.

(** One step of the walk back. *)
Lemma trim_step snapshot first k i (reference : option TurnContextItem) :
  snapshot !! k = Some i -> first <= k ->
  trim_pre_turn_context_updates snapshot first (S k) reference =
  if is_context_update i
  then trim_pre_turn_context_updates snapshot first k (if is_mixed_bundle i then None else reference)
  else Ok (S k, reference).
Proof.
  intros Hi Hk. cbn [trim_pre_turn_context_updates]. rewrite (proj2 (Nat.ltb_lt _ _)) by lia.
  unfold index. rewrite Hi. cbn [comp_bind]. destruct i; try done. unfold is_context_update, is_mixed_bundle.
  destruct (str_eqb role (&"developer") && _); [done|]. by destruct (str_eqb role (&"user") && _).
Qed.

(** The walk back in front of [pre ++ suffix]. *)
Lemma trim_spec snapshot first pre suffix reference :
  snapshot = pre ++ suffix -> first <= length pre ->
  exists kept ctx, pre = kept ++ ctx /\ first <= length kept /\ Forall (fun i => is_context_update i = true) ctx /\
    (length kept = first \/ exists kept' i, kept = kept' ++ [i] /\ is_context_update i = false) /\
    trim_pre_turn_context_updates snapshot first (length pre) reference =
      Ok (length kept, if existsb is_mixed_bundle ctx then None else (reference : option TurnContextItem)).
Proof.
  revert suffix reference. induction pre as [|i pre IH] using rev_ind; intros suffix reference Hs Hf.
  { exists [], []. split_and!; [done|done|done|left; simpl in *; lia|done]. }
  destruct (decide (first = length (pre ++ [i]))) as [-> |Hne].
  { exists (pre ++ [i]), []. split_and!; [by rewrite app_nil_r|done|done|by left|]. rewrite length_app, Nat.add_comm.
    cbn [length Nat.add trim_pre_turn_context_updates]. by rewrite Nat.ltb_irrefl. }
  assert (first <= length pre) as Hf' by (rewrite length_app in *; simpl in *; lia).
  rewrite <- (assoc_L (++)) in Hs. rewrite length_app, Nat.add_comm. cbn [length Nat.add].
  rewrite (trim_step snapshot first (length pre) i) by (by rewrite ?Hs, ?lookup_app_r, ?Nat.sub_diag by lia).
  destruct (is_context_update i) eqn:Eu.
  - destruct (IH ([i] ++ suffix) (if is_mixed_bundle i then None else reference) Hs Hf')
      as (kept & ctx & -> & Hk & Hc & Hl & ->).
    exists kept, (ctx ++ [i]). split_and!; [by rewrite (assoc_L (++))|done| |done|].
    + apply Forall_app. split; [done|]. by constructor.
    + rewrite existsb_app. cbn [existsb]. by destruct (existsb is_mixed_bundle ctx), (is_mixed_bundle i).
  - exists (pre ++ [i]), []. split_and!; [by rewrite app_nil_r|rewrite length_app; lia|done|right; by exists pre, i|].
    by rewrite length_app, Nat.add_comm.
Qed.

Lemma positions_ge {A} (f : A -> bool) idx l : Forall (fun b => idx <= b) (positions_from f idx l).
Proof.
  revert idx. induction l as [|x l IH]; intros idx; cbn; [constructor|].
  assert (Forall (fun b => idx <= b) (positions_from f (S idx) l)) as H.
  { eapply Forall_impl; [apply IH|]. simpl. lia. }
  destruct (f x); [by constructor|done].
Qed.

Lemma positions_first {A} (f : A -> bool) idx l first rest j b :
  positions_from f idx l = first :: rest -> (first :: rest) !! j = Some b -> first <= b.
Proof.
  revert idx. induction l as [|x l IH]; intros idx; cbn; [done|]. destruct (f x); [|apply IH].
  intros [= <- <-] Hb. destruct j as [|j]; simpl in Hb; [by simplify_eq|].
  pose proof (positions_ge f (S idx) l) as Hge. rewrite Forall_lookup in Hge. specialize (Hge j b Hb). simpl in Hge. lia.
Qed.

(** Where the history is cut. *)
Lemma cut_position l n first rest :
  0 < n -> user_message_positions l = first :: rest ->
  exists b, (if length (first :: rest) <=? n then Ok first else index (first :: rest) (length (first :: rest) - n))
      = (Ok b : comp False nat) /\
    (first :: rest) !! (length (first :: rest) - n) = Some b /\ first <= b /\
    (length (first :: rest) <= n -> b = first).
Proof.
  intros Hn E. destruct (Nat.leb_spec (length (first :: rest)) n) as [Hl|Hl].
  - exists first. split_and!; [done| |done|done]. by replace (length (first :: rest) - n) with 0 by lia.
  - destruct (lookup_lt_is_Some_2 (first :: rest) (length (first :: rest) - n)) as [b Hb]; [simpl in *; lia|].
    exists b. split_and!; [unfold index; by rewrite Hb|done|by eapply positions_first|lia].
Qed.

(** Rolling back [n] turns never panics and splits the history in three: what is
    kept, context updates injected in front of the first dropped turn, and the dropped
    turns themselves, which start at a turn boundary. The kept part holds exactly the
    turns but the last [n]; everything in front of the first turn is kept when all turns
    go; the version is bumped; and the baseline for context updates is forgotten exactly
    when a developer message that also held other text was trimmed. *)
Theorem drop_last_n_user_turns_spec n m :
  0 < n ->
  exists m' ctx dropped, drop_last_n_user_turns n m = Ok m' /\
    items m = items m' ++ ctx ++ dropped /\
    Forall (fun i => is_context_update i = true) ctx /\
    user_message_positions (items m') =
      take (length (user_message_positions (items m)) - n) (user_message_positions (items m)) /\
    match dropped with
    | [] => user_message_positions (items m) = []
    | d :: _ => is_user_turn_boundary d = true
    end /\
    (length (user_message_positions (items m)) <= n -> ctx = []) /\
    history_version m' = sat_add (history_version m) 1 /\ token_info m' = token_info m /\
    reference_context_item m' = if existsb is_mixed_bundle ctx then None else reference_context_item m.
Proof.
  intros Hn. unfold drop_last_n_user_turns. destruct n as [|n]; [lia|].
  destruct (user_message_positions (items m)) as [|first rest] eqn:E.
  { eexists _, [], []. split; [done|]. cbn. rewrite !app_nil_r. by split_and!. }
  destruct (cut_position (items m) (S n) first rest Hn E) as (b & -> & Hb & Hle & Hall). cbn [comp_bind].
  pose proof Hb as Hsplit. rewrite <- E in Hsplit. unfold user_message_positions in Hsplit.
  apply positions_split in Hsplit as (l1 & d & l2 & Hl & -> & Hd & Hp). cbn [Nat.add] in *.
  destruct (trim_spec (items m) first l1 (d :: l2) (reference_context_item m) Hl Hle)
    as (kept & ctx & -> & Hk & Hc & _ & ->). cbn [comp_bind].
  rewrite slice_returns by (rewrite ?Hl, ?length_app; lia). cbn [comp_bind]. rewrite Nat.sub_0_r, drop_0.
  eexists _, ctx, (d :: l2). split; [done|]. cbn [replace bump with_version with_items items history_version token_info
    set_reference_context_item reference_context_item].
  assert (take (length kept) (items m) = kept) as -> by (by rewrite Hl, <- (assoc_L (++)), take_app_length).
  split_and!; [by rewrite Hl, <- (assoc_L (++))|done| |done| |done|done|done].
  - rewrite <- E. unfold user_message_positions in *. rewrite <- Hp, positions_app_none; [done|].
    eapply Forall_impl; [exact Hc|]. apply context_update_no_boundary.
  - intros Hlen%Hall. rewrite length_app in Hlen. destruct ctx; [done|]. simpl in *. lia.
Qed.
End rollback.

(** No hook prompts and no messages between agents. *)
Definition plain_codec : Codec := {| hook_prompt_xml _ := None; inter_agent_json _ := false |}.

Lemma drop_last_n_user_turns_spec_witness :
  exists m' ctx dropped, drop_last_n_user_turns (codec := plain_codec) 1 small_history = Ok m' /\
    items small_history = items m' ++ ctx ++ dropped.
Proof.
  destruct (drop_last_n_user_turns_spec (codec := plain_codec) 1 small_history ltac:(lia))
    as (m' & ctx & dropped & Hd & Hi & _).
  exists m', ctx, dropped. split; [exact Hd|exact Hi].
Defined.

Example drop_one_turn :
  drop_last_n_user_turns (codec := plain_codec) 1 small_history =
  Ok {| items := take 2 (items small_history); history_version := 1; token_info := None; reference_context_item := None |}.
Proof. vm_compute. reflexivity. Qed.
