(* ===== verification/Json.v ===== *)
(** * serde_json::Value: the accessors the wire translators use

    An object is the association list of its entries; the order of the entries
    is not part of the model (serde_json sorts or keeps them depending on a
    cargo feature), only what [get], [insert] and [remove] observe of it. *)
From S2P Require Import Prelude RustStr MachineInt Protocol.

Fixpoint field_get (key : str) (fields : list (str * Value)) : option Value :=
  match fields with
  | [] => None
  | (k, x) :: rest => if str_eqb k key then Some x else field_get key rest
  end.

(** [value.get(key)]; [value[key]] is the same with [Null] for [None]. *)
Definition vget (key : str) (v : Value) : option Value :=
  match v with Object fields => field_get key fields | _ => None end.

Definition as_str (v : Value) : option str :=
  match v with VString s => Some s | _ => None end.
Definition as_bool (v : Value) : option bool :=
  match v with Bool b => Some b | _ => None end.

(** [value.get(key).and_then(Value::as_str)] *)
Definition get_str (key : str) (v : Value) : option str := vget key v ≫= as_str.

(** [map.insert(key, value)]: the entry of an existing key is replaced. *)
Fixpoint fields_insert (key : str) (x : Value) (fields : list (str * Value)) : list (str * Value) :=
  match fields with
  | [] => [(key, x)]
  | (k, y) :: rest => if str_eqb k key then (key, x) :: rest else (k, y) :: fields_insert key x rest
  end.

(** [if let Some(obj) = value.as_object_mut() { obj.insert(key, x) }] *)
Definition obj_insert (key : str) (x : Value) (v : Value) : Value :=
  match v with Object fields => Object (fields_insert key x fields) | _ => v end.

(** [if let Some(obj) = value.as_object_mut() { obj.remove(key) }] *)
Definition obj_remove (key : str) (v : Value) : Value :=
  match v with
  | Object fields => Object (List.filter (fun e => negb (str_eqb e.1 key)) fields)
  | _ => v
  end.

(** [value["type"] == t], or the same comparison through [get] and [as_str] *)
Definition has_type (t : str) (v : Value) : bool :=
  match get_str (&"type") v with Some s => str_eqb s t | None => false end.

#[global] Arguments str_eqb : simpl never.

(** Decide the comparisons of constant keys. *)
Ltac eval_keys :=
  repeat match goal with
    | |- context [str_eqb (lit ?a) (lit ?b)] =>
        let r := eval vm_compute in (str_eqb (lit a) (lit b)) in change (str_eqb (lit a) (lit b)) with r
    end.

(** ** Laws *)

Lemma field_get_insert key x l : field_get key (fields_insert key x l) = Some x.
Proof.
  induction l as [|[k y] l IH]; cbn; [by rewrite str_eqb_refl|].
  destruct (str_eqb k key) eqn:E; cbn; [by rewrite str_eqb_refl|by rewrite E].
Qed.

Lemma field_get_insert_ne key key' x l : key <> key' -> field_get key' (fields_insert key x l) = field_get key' l.
Proof.
  intros Hne. assert (str_eqb key key' = false) as Hf by by apply str_eqb_neq.
  induction l as [|[k y] l IH]; cbn; [by rewrite Hf|].
  destruct (str_eqb k key) eqn:E; cbn; [|by rewrite IH].
  apply str_eqb_eq in E as ->. by rewrite Hf.
Qed.

Lemma field_get_remove key l : field_get key (List.filter (fun e => negb (str_eqb e.1 key)) l) = None.
Proof.
  induction l as [|[k y] l IH]; [done|]. cbn.
  destruct (str_eqb k key) eqn:E; cbn; [done|by rewrite E].
Qed.

Lemma field_get_remove_ne key key' l :
  key <> key' -> field_get key' (List.filter (fun e => negb (str_eqb e.1 key)) l) = field_get key' l.
Proof.
  intros Hne. induction l as [|[k y] l IH]; [done|]. cbn.
  destruct (str_eqb k key) eqn:E; cbn; [|by rewrite IH].
  apply str_eqb_eq in E as ->. by rewrite (proj2 (str_eqb_neq key key') Hne).
Qed.

Lemma fields_remove_insert key x l :
  List.filter (fun e => negb (str_eqb e.1 key)) (fields_insert key x l) =
  List.filter (fun e => negb (str_eqb e.1 key)) l.
Proof.
  induction l as [|[k y] l IH]; cbn.
  - by rewrite str_eqb_refl.
  - destruct (str_eqb k key) eqn:E; cbn; rewrite ?str_eqb_refl, ?E; cbn; [done|by rewrite IH].
Qed.

Section laws.
Context (key key' : str) (x v : Value) (Hne : key <> key').

Lemma vget_insert_ne : vget key' (obj_insert key x v) = vget key' v.
Proof using Hne. destruct v; cbn; auto using field_get_insert_ne. Qed.

Lemma vget_remove_ne : vget key' (obj_remove key v) = vget key' v.
Proof using Hne. destruct v; cbn; auto using field_get_remove_ne. Qed.

Lemma get_str_insert_ne : get_str key' (obj_insert key x v) = get_str key' v.
Proof using Hne. unfold get_str. by rewrite vget_insert_ne. Qed.

Lemma get_str_remove_ne : get_str key' (obj_remove key v) = get_str key' v.
Proof using Hne. unfold get_str. by rewrite vget_remove_ne. Qed.
End laws.

Lemma vget_remove key v : vget key (obj_remove key v) = None.
Proof. destruct v; cbn; auto using field_get_remove. Qed.

Lemma obj_remove_insert key x v : obj_remove key (obj_insert key x v) = obj_remove key v.
Proof. destruct v; cbn; [done..|]. by rewrite fields_remove_insert. Qed.

(** Removing an absent key changes nothing. *)
Lemma obj_remove_absent key v : vget key v = None -> obj_remove key v = v.
Proof.
  destruct v as [| | | | |l]; cbn; [done..|]. intros H. f_equal.
  induction l as [|[k y] l IH]; [done|]. cbn in *.
  destruct (str_eqb k key); [done|]. by rewrite IH.
Qed.

Lemma obj_remove_comm key key' v : obj_remove key (obj_remove key' v) = obj_remove key' (obj_remove key v).
Proof.
  destruct v as [| | | | |l]; cbn; [done..|]. f_equal.
  induction l as [|[k y] l IH]; cbn; [done|].
  destruct (str_eqb k key) eqn:E, (str_eqb k key') eqn:E'; cbn; rewrite ?E, ?E'; cbn; by rewrite ?IH.
Qed.

Lemma has_type_insert key x t v : key <> &"type" -> has_type t (obj_insert key x v) = has_type t v.
Proof. intros H. unfold has_type. by rewrite get_str_insert_ne. Qed.

Lemma has_type_remove key t v : key <> &"type" -> has_type t (obj_remove key v) = has_type t v.
Proof. intros H. unfold has_type. by rewrite get_str_remove_ne. Qed.

(** A block has one type. *)
Lemma has_type_unique t t' v : has_type t v = true -> t <> t' -> has_type t' v = false.
Proof.
  unfold has_type. destruct (get_str _ v) as [s|]; [|done].
  intros ->%str_eqb_eq Hne. by apply str_eqb_neq.
Qed.
