(* ===== verification/AnthropicWire.v ===== *)
(** * provider-anthropic/src/wire.rs: a history as Anthropic messages

    The translation of a conversation into the [messages] array of the
    [/messages] API and the passes that repair it: orphaned tool calls, the
    adjacency of [tool_use] and [tool_result], hoisting, thinking blocks, the
    trailing user turn and the cache breakpoints.

    An element of [messages] is always built by [append_to_role] or by the
    sentinel literal, an object with a string [role] and an array [content]; it
    is modelled by these two fields, so [get("role").and_then(as_str)] and
    [get("content").and_then(as_array)] are the projections. *)
From S2P Require Import Prelude RustStr MachineInt Protocol Json.

(** ** What the translator calls outside this repository

    [serde_json::from_str], and [DefaultHasher] printed with [{:016x}], which
    makes an identifier for a call without one. *)
Class WireCodec := {
  from_str : str -> option Value;
  hash_command : list str -> nat -> str;
  hash_arguments : Value -> nat -> str
}.

(** ** codex-wire-extensions/src/tool_name.rs *)

Definition FLAT_MCP_TOOL_NAME_DELIMITER : str := &"__".

Definition flat_mcp_tool_name (name : str) (namespace : option str) : str :=
  match namespace with
  | Some ((_ :: _) as namespace) => namespace ++ FLAT_MCP_TOOL_NAME_DELIMITER ++ name
  | _ => name
  end.

(** ** Messages and blocks *)

Record WireMessage := { msg_role : str; msg_content : list Value }.

Definition has_role (r : str) (m : WireMessage) : bool := str_eqb (msg_role m) r.
Definition with_content (m : WireMessage) (c : list Value) : WireMessage :=
  {| msg_role := msg_role m; msg_content := c |}.

Definition RECONSTRUCTED_THINKING_MARKER : str := &"__xli_reconstructed_thinking".

Definition obj (fields : list (str * Value)) : Value := Object fields.

Definition text_block (text : str) : Value := obj [(&"type", VString (&"text")); (&"text", VString text)].

Definition image_block (image_url : str) : Value :=
  obj [(&"type", VString (&"image"));
       (&"source", obj [(&"type", VString (&"url")); (&"url", VString image_url)])].

Definition image_placeholder (image_url : str) : Value :=
  text_block (&"[Image: content not shown " ++ [8212%N] ++
              &" this model does not support image input. Original URL: " ++ image_url ++ &"]").

Definition tool_use_block (id name : str) (input : Value) : Value :=
  obj [(&"type", VString (&"tool_use")); (&"id", VString id); (&"name", VString name); (&"input", input)].

Definition tool_result_block (id : str) (content : Value) : Value :=
  obj [(&"type", VString (&"tool_result")); (&"tool_use_id", VString id); (&"content", content)].

Definition thinking_block (text signature : str) : Value :=
  obj [(&"type", VString (&"thinking")); (&"thinking", VString text); (&"signature", VString signature);
       (RECONSTRUCTED_THINKING_MARKER, Bool true)].

Definition redacted_block (data : str) : Value :=
  obj [(&"type", VString (&"redacted_thinking")); (&"data", VString data);
       (RECONSTRUCTED_THINKING_MARKER, Bool true)].

(** ** clean_orphaned_tool_calls *)

Definition wire_call_id (i : ResponseItem) : option str :=
  match i with
  | FunctionCall _ _ _ _ call_id => Some call_id
  | LocalShellCall _ call_id _ _ => call_id
  | CustomToolCall _ _ call_id _ _ => Some call_id
  | ToolSearchCall _ call_id _ _ _ => call_id
  | _ => None
  end.

Definition wire_output_id (i : ResponseItem) : option str :=
  match i with
  | FunctionCallOutput call_id _ => Some call_id
  | CustomToolCallOutput call_id _ _ => Some call_id
  | ToolSearchOutput call_id _ _ _ => call_id
  | _ => None
  end.

(** The second pass: keep paired tool items and all other items. *)
Definition keep_item (paired : gset str) (item : ResponseItem) : bool :=
  let contains id := bool_decide (id ∈ paired) in
  let is_some_and (id : option str) := match id with Some id => contains id | None => false end in
  match item with
  | FunctionCall _ _ _ _ call_id => contains call_id
  | LocalShellCall _ call_id _ _ => is_some_and call_id
  | CustomToolCall _ _ call_id _ _ => contains call_id
  | ToolSearchCall _ call_id _ _ _ => is_some_and call_id
  | FunctionCallOutput call_id _ => contains call_id
  | CustomToolCallOutput call_id _ _ => contains call_id
  | ToolSearchOutput call_id _ _ _ => is_some_and call_id
  | _ => true
  end.

Definition clean_orphaned_tool_calls (input : list ResponseItem) : list ResponseItem :=
  let call_ids : gset str := list_to_set (omap wire_call_id input) in
  let output_ids : gset str := list_to_set (omap wire_output_id input) in
  List.filter (keep_item (call_ids ∩ output_ids)) input.

(** ** output_to_content *)

Definition is_output_image (i : FunctionCallOutputContentItem) : bool :=
  match i with OutInputImage _ _ => true | _ => false end.

Definition output_item_block (supports_image : bool) (i : FunctionCallOutputContentItem) : Value :=
  match i with
  | OutInputText text => text_block text
  | OutInputImage image_url _ => if supports_image then image_block image_url else image_placeholder image_url
  | EncryptedContent encrypted_content => text_block encrypted_content
  end.

Definition output_to_content (output : FunctionCallOutputPayload) (supports_image : bool) : Value :=
  match body output with
  | BodyText text => VString text
  | ContentItems items =>
      if existsb is_output_image items then Array (map (output_item_block supports_image) items)
      else VString (join [nl] (omap (fun i => match i with OutInputText text => Some text | _ => None end) items))
  end.

(** ** append_to_role *)

Definition append_to_role (messages : list WireMessage) (role : str) (blocks : list Value) : list WireMessage :=
  match last messages with
  | Some m =>
      if has_role role m
      then take (length messages - 1) messages ++ [with_content m (msg_content m ++ blocks)]
      else messages ++ [{| msg_role := role; msg_content := blocks |}]
  | None => messages ++ [{| msg_role := role; msg_content := blocks |}]
  end.

(** ** The translation loop *)

Definition content_block (supports_image : bool) (c : ContentItem) : Value :=
  match c with
  | InputText text | OutputText text => text_block text
  | InputImage image_url _ => if supports_image then image_block image_url else image_placeholder image_url
  end.

Definition is_unreplayable_empty_thinking (raw_block : Value) : bool :=
  bool_decide (get_str (&"type") raw_block = Some (&"thinking")) &&
  match get_str (&"thinking") raw_block with None => true | Some t => bool_decide (t = []) end.

Definition reasoning_text (c : ReasoningItemContent) : str :=
  match c with ReasoningText text | ReasoningPlain text => text end.
Definition summary_text (s : ReasoningItemReasoningSummary) : str :=
  match s with SummaryText text => text end.

Definition REDACTED_PREFIX : str := 0%N :: &"REDACTED" ++ [0%N].

Definition reasoning_blocks (summary : list ReasoningItemReasoningSummary)
    (content : option (list ReasoningItemContent)) (encrypted_content : option str)
    (raw_wire_block : option Value) : list Value :=
  match raw_wire_block with
  | Some raw_block => if is_unreplayable_empty_thinking raw_block then [] else [raw_block]
  | None =>
      match encrypted_content ≫= strip_prefix REDACTED_PREFIX with
      | Some data => [redacted_block data]
      | None =>
          let signature := default [] encrypted_content in
          match content with
          | Some items =>
              omap (fun item => match reasoning_text item with
                                | [] => None
                                | text => Some (thinking_block text signature)
                                end) items
          | None =>
              match join [nl] (map summary_text summary) with
              | [] => []
              | text => [thinking_block text signature]
              end
          end
      end
  end.

Section translation.
Context {codec : WireCodec}.

(** The role and the blocks an item hands to [append_to_role], one call per
    element; [n] is [messages.len()] at that point. *)
Definition item_blocks (supports_image : bool) (n : nat) (item : ResponseItem) : list (str * list Value) :=
  match item with
  | Message _ role content _ =>
      if str_eqb role (&"system") || str_eqb role (&"developer") then []
      else
        let anthropic_role := if str_eqb role (&"assistant") then &"assistant" else &"user" in
        match map (content_block supports_image) content with
        | [] => []
        | content_blocks => [(anthropic_role, content_blocks)]
        end
  | FunctionCall _ name namespace arguments call_id =>
      let input_val := default (obj []) (from_str arguments) in
      [(&"assistant", [tool_use_block call_id (flat_mcp_tool_name name namespace) input_val])]
  | FunctionCallOutput call_id output | CustomToolCallOutput call_id _ output =>
      [(&"user", [tool_result_block call_id (output_to_content output supports_image)])]
  | CustomToolCall _ _ call_id name input_str =>
      let input_val := default (obj []) (from_str input_str) in
      [(&"assistant", [tool_use_block call_id name input_val])]
  | LocalShellCall _ call_id _ (Exec exec) =>
      let id := default (&"toolu_synthetic_" ++ hash_command (command exec) n) call_id in
      [(&"assistant", [tool_use_block id (&"shell") (obj [(&"command", VString (join (&" ") (command exec)))])])]
  | Reasoning _ summary content encrypted_content _ raw_wire_block =>
      (fun b => (&"assistant", [b])) <$> reasoning_blocks summary content encrypted_content raw_wire_block
  | ToolSearchCall _ call_id _ _ arguments =>
      let id := default (&"toolu_search_" ++ hash_arguments arguments n) call_id in
      [(&"assistant", [tool_use_block id (&"tool_search") arguments])]
  | ToolSearchOutput call_id _ _ tools =>
      let id := default [] call_id in
      let content := match tools with [] => VString (&"No tools found.") | _ => Array tools end in
      [(&"user", [tool_result_block id content])]
  | _ => []
  end.

Definition translate_item (supports_image : bool) (messages : list WireMessage) (item : ResponseItem)
  : list WireMessage :=
  foldl (fun ms '(role, blocks) => append_to_role ms role blocks) messages
    (item_blocks supports_image (length messages) item).

Definition translate (supports_image : bool) (items : list ResponseItem) : list WireMessage :=
  foldl (translate_item supports_image) [] items.
End translation.

(** ** clean_orphaned_tool_blocks_by_adjacency *)

(** The identifiers under [key] of the blocks of type [t] *)
Definition block_ids (t key : str) (content : list Value) : gset str :=
  list_to_set (omap (get_str key) (List.filter (has_type t) content)).

Definition tool_use_ids (m : WireMessage) : gset str := block_ids (&"tool_use") (&"id") (msg_content m).
Definition tool_result_ids (m : WireMessage) : gset str :=
  block_ids (&"tool_result") (&"tool_use_id") (msg_content m).

(** [content.retain]: a block of type [t] stays when its [key] is [matched] *)
Definition retain_matched (t key : str) (matched : gset str) (m : WireMessage) : WireMessage :=
  with_content m
    (List.filter (fun block => if has_type t block then bool_decide (default [] (get_str key block) ∈ matched)
                               else true) (msg_content m)).

Definition adjacency_step (messages : list WireMessage) (i : nat) : comp False (list WireMessage) :=
  let len := length messages in
  let? m := index messages i in
  if has_role (&"assistant") m then
    if bool_decide (tool_use_ids m = ∅) then Ok messages
    else
      let? next_result_ids :=
        if i + 1 <? len
        then let? next := index messages (i + 1) in
             Ok (if has_role (&"user") next then tool_result_ids next else ∅)
        else Ok ∅ in
      let matched := tool_use_ids m ∩ next_result_ids in
      Ok (if size matched <? size (tool_use_ids m)
          then <[i := retain_matched (&"tool_use") (&"id") matched m]> messages
          else messages)
  else if has_role (&"user") m then
    if bool_decide (tool_result_ids m = ∅) then Ok messages
    else
      let? prev_use_ids :=
        if 0 <? i
        then let? prev := index messages (i - 1) in
             Ok (if has_role (&"assistant") prev then tool_use_ids prev else ∅)
        else Ok ∅ in
      let matched := tool_result_ids m ∩ prev_use_ids in
      Ok (if size matched <? size (tool_result_ids m)
          then <[i := retain_matched (&"tool_result") (&"tool_use_id") matched m]> messages
          else messages)
  else Ok messages.

Fixpoint adjacency_loop (indices : list nat) (messages : list WireMessage) : comp False (list WireMessage) :=
  match indices with
  | [] => Ok messages
  | i :: indices => let? messages := adjacency_step messages i in adjacency_loop indices messages
  end.

Definition is_nonempty (m : WireMessage) : bool := match msg_content m with [] => false | _ => true end.

Definition clean_orphaned_tool_blocks_by_adjacency (messages : list WireMessage) : comp False (list WireMessage) :=
  let? messages := adjacency_loop (seq 0 (length messages)) messages in
  Ok (List.filter is_nonempty messages).

(** ** hoist_tool_results_to_front *)

Definition is_tool_result (b : Value) : bool := has_type (&"tool_result") b.

Fixpoint take_while {A} (p : A -> bool) (l : list A) : list A :=
  match l with [] => [] | x :: l => if p x then x :: take_while p l else [] end.

Definition hoist_message (m : WireMessage) : WireMessage :=
  if negb (has_role (&"user") m) then m
  else
    let content := msg_content m in
    if negb (existsb is_tool_result content) then m
    else
      let first_is_tool_result := match content with b :: _ => is_tool_result b | [] => false end in
      let all_leading_are_tool_results :=
        length (take_while is_tool_result content) =? length (List.filter is_tool_result content) in
      if first_is_tool_result && all_leading_are_tool_results then m
      else with_content m (List.filter is_tool_result content ++
                           List.filter (fun b => negb (is_tool_result b)) content).

Definition hoist_tool_results_to_front (messages : list WireMessage) : list WireMessage :=
  map hoist_message messages.

(** ** strip_thinking_from_non_latest_assistant_messages *)

Definition is_thinking (b : Value) : bool := has_type (&"thinking") b || has_type (&"redacted_thinking") b.

Definition is_reconstructed (b : Value) : bool :=
  default false (vget RECONSTRUCTED_THINKING_MARKER b ≫= as_bool).

(** [iter().rposition(p)] *)
Fixpoint rposition {A} (p : A -> bool) (l : list A) : option nat :=
  match l with
  | [] => None
  | x :: l => match rposition p l with
              | Some i => Some (S i)
              | None => if p x then Some 0 else None
              end
  end.

Definition strip_message (last_idx i : nat) (m : WireMessage) : WireMessage :=
  if negb (has_role (&"assistant") m) then m
  else if i <? last_idx then with_content m (List.filter (fun b => negb (is_thinking b)) (msg_content m))
  else with_content m (List.filter (fun b => negb (is_thinking b && is_reconstructed b)) (msg_content m)).

Definition scrub_message (m : WireMessage) : WireMessage :=
  with_content m (map (obj_remove RECONSTRUCTED_THINKING_MARKER) (msg_content m)).

Definition strip_thinking_from_non_latest_assistant_messages (messages : list WireMessage) : list WireMessage :=
  match rposition (has_role (&"assistant")) messages with
  | None => messages
  | Some last_idx =>
      let messages := imap (strip_message last_idx) messages in
      let messages := map scrub_message messages in
      List.filter (fun m => negb (has_role (&"assistant") m) || is_nonempty m) messages
  end.

(** ** The trailing user turn and the cache breakpoints *)

Definition sentinel_message (text : str) : WireMessage :=
  {| msg_role := &"user"; msg_content := [text_block text] |}.

Definition append_sentinel (messages : list WireMessage) : list WireMessage :=
  match last messages with
  | Some m =>
      if has_role (&"assistant") m
      then let has_tool_use := existsb (has_type (&"tool_use")) (msg_content m) in
           messages ++ [sentinel_message (if has_tool_use then &"[Awaiting tool result]" else &"[Continue]")]
      else messages
  | None => messages
  end.

Definition ephemeral : Value := obj [(&"type", VString (&"ephemeral"))].

(** [if let Some(last) = list.last_mut() { f(last) }] *)
Definition map_last {A} (f : A -> A) (l : list A) : list A :=
  match last l with Some x => take (length l - 1) l ++ [f x] | None => l end.

Definition mark_last_block_cache_control (m : WireMessage) : WireMessage :=
  with_content m (map_last (obj_insert (&"cache_control") ephemeral) (msg_content m)).

(** The loop over [(0..len).rev()]: the indices of user messages, until there
    are two. *)
Fixpoint last_user_indices (messages : list WireMessage) (candidates found : list nat) : comp False (list nat) :=
  match candidates with
  | [] => Ok found
  | i :: candidates =>
      let? m := index messages i in
      if has_role (&"user") m then
        let found := found ++ [i] in
        if 2 <=? length found then Ok found else last_user_indices messages candidates found
      else last_user_indices messages candidates found
  end.

Fixpoint mark_indices (messages : list WireMessage) (indices : list nat) : comp False (list WireMessage) :=
  match indices with
  | [] => Ok messages
  | idx :: indices =>
      let? m := index messages idx in
      mark_indices (<[idx := mark_last_block_cache_control m]> messages) indices
  end.

Definition apply_history_cache_control (messages : list WireMessage) : comp False (list WireMessage) :=
  let? user_indices := last_user_indices messages (reverse (seq 0 (length messages))) [] in
  mark_indices messages user_indices.

(** ** conversation_to_anthropic_messages *)

Definition conversation_to_anthropic_messages {codec : WireCodec} (input : list ResponseItem)
    (supports_image supports_prompt_caching supports_assistant_prefill : bool) : comp False (list WireMessage) :=
  let cleaned := clean_orphaned_tool_calls input in
  let messages := translate supports_image cleaned in
  let? messages := clean_orphaned_tool_blocks_by_adjacency messages in
  let messages := hoist_tool_results_to_front messages in
  let messages := strip_thinking_from_non_latest_assistant_messages messages in
  let messages := if negb supports_assistant_prefill then append_sentinel messages else messages in
  if supports_prompt_caching then apply_history_cache_control messages else Ok messages.

(** ** extract_developer_blocks *)

Definition extract_developer_blocks (input : list ResponseItem) : list str :=
  flat_map (fun item =>
    match item with
    | Message _ role content _ =>
        if str_eqb role (&"developer") then
          omap (fun c => match c with
                         | InputText ((_ :: _) as text) | OutputText ((_ :: _) as text) => Some text
                         | _ => None
                         end) content
        else []
    | _ => []
    end) input.

(** ** Pairing of calls and results

    The calls a message makes, the results it carries, and the condition the
    API checks: the results of every message are the calls of the message
    before it. *)

Definition uses_of (m : WireMessage) : gset str := if has_role (&"assistant") m then tool_use_ids m else ∅.
Definition results_of (m : WireMessage) : gset str := if has_role (&"user") m then tool_result_ids m else ∅.

Fixpoint tool_paired (pending : gset str) (messages : list WireMessage) : Prop :=
  match messages with
  | [] => pending = ∅
  | m :: messages => results_of m = pending /\ tool_paired (uses_of m) messages
  end.

Lemma elem_block_ids t key c id :
  id ∈ block_ids t key c <-> exists b, b ∈ c /\ has_type t b = true /\ get_str key b = Some id.
Proof.
  unfold block_ids. rewrite elem_of_list_to_set, list_elem_of_omap.
  setoid_rewrite list_elem_of_In. setoid_rewrite filter_In. setoid_rewrite <- list_elem_of_In. naive_solver.
Qed.

Lemma retain_matched_ids t key matched m :
  block_ids t key (msg_content (retain_matched t key matched m)) = block_ids t key (msg_content m) ∩ matched.
Proof.
  apply set_eq. intros id. rewrite elem_of_intersection, !elem_block_ids. cbn [retain_matched with_content msg_content].
  setoid_rewrite list_elem_of_In. setoid_rewrite filter_In. split.
  - intros (b & [Hb Hk] & Ht & Hid). rewrite Ht, Hid in Hk. cbn in Hk. apply bool_decide_eq_true in Hk. eauto.
  - intros [(b & Hb & Ht & Hid) Hk]. exists b. split_and!; try done. rewrite Ht, Hid. by apply bool_decide_eq_true.
Qed.

(** One iteration of the loop, as a function of the neighbours. *)
Definition adjacent_fix (prev : option WireMessage) (m : WireMessage) (next : option WireMessage) : WireMessage :=
  let strip t key (ids other : gset str) :=
    if bool_decide (ids = ∅) then m
    else if size (ids ∩ other) <? size ids then retain_matched t key (ids ∩ other) m else m in
  if has_role (&"assistant") m
  then strip (&"tool_use") (&"id") (tool_use_ids m) (from_option results_of ∅ next)
  else if has_role (&"user") m
  then strip (&"tool_result") (&"tool_use_id") (tool_result_ids m) (from_option uses_of ∅ prev)
  else m.

Fixpoint adjacent_fixes (prev : option WireMessage) (messages : list WireMessage) : list WireMessage :=
  match messages with
  | [] => []
  | m :: rest => let m' := adjacent_fix prev m (head rest) in m' :: adjacent_fixes (Some m') rest
  end.

Lemma index_middle {E A} (l1 l2 : list A) x : @index E A (l1 ++ x :: l2) (length l1) = Ok x.
Proof. unfold index. by rewrite list_lookup_middle. Qed.

Lemma index_prev {E} (l1 l2 : list WireMessage) (k : WireMessage -> comp E (gset str)) :
  0 < length l1 ->
  comp_bind (index (l1 ++ l2) (length l1 - 1)) k = from_option k Panic (last l1).
Proof.
  intros H. destruct l1 as [|y l1 _] using rev_ind; [cbn in H; lia|].
  rewrite last_snoc, length_app, <- app_assoc. cbn. replace (length l1 + 1 - 1) with (length l1) by lia.
  by rewrite index_middle.
Qed.

Lemma adjacency_step_at seen m rest :
  adjacency_step (seen ++ m :: rest) (length seen) =
  Ok (seen ++ adjacent_fix (last seen) m (head rest) :: rest).
Proof.
  unfold adjacency_step, adjacent_fix. rewrite index_middle. cbn [comp_bind].
  assert (forall m', <[length seen := m']> (seen ++ m :: rest) = seen ++ m' :: rest) as Hins.
  { intros m'. rewrite insert_app_r_alt by lia. by rewrite Nat.sub_diag. }
  destruct (has_role (&"assistant") m) eqn:Ea; [|destruct (has_role (&"user") m) eqn:Eu; [|done]].
  - case_bool_decide; [done|].
    replace (length seen + 1 <? length (seen ++ m :: rest)) with (match rest with [] => false | _ => true end)
      by (rewrite length_app; destruct rest; cbn; symmetry; [apply Nat.ltb_ge|apply Nat.ltb_lt]; lia).
    destruct rest as [|n rest]; cbn [comp_bind head from_option].
    + case_match; by rewrite ?Hins.
    + replace (length seen + 1) with (length (seen ++ [m])) by (rewrite length_app; cbn; lia).
      replace (seen ++ m :: n :: rest) with ((seen ++ [m]) ++ n :: rest) at 1 by by rewrite <- app_assoc.
      rewrite index_middle. cbn [comp_bind]. fold (results_of n). case_match; by rewrite ?Hins.
  - case_bool_decide; [done|].
    destruct (0 <? length seen) eqn:El.
    + rewrite index_prev by (by apply Nat.ltb_lt).
      destruct (last seen) as [p|] eqn:Ep; cbn [from_option comp_bind].
      * fold (uses_of p). case_match; by rewrite ?Hins.
      * apply last_None in Ep as ->. done.
    + destruct seen; [|done]. cbn [comp_bind last from_option]. case_match; by rewrite ?Hins.
Qed.

Lemma adjacency_loop_fixes seen rest :
  adjacency_loop (seq (length seen) (length rest)) (seen ++ rest) =
  Ok (seen ++ adjacent_fixes (last seen) rest).
Proof.
  revert seen. induction rest as [|m rest IH]; intros seen; cbn [length seq adjacency_loop adjacent_fixes]; [done|].
  rewrite adjacency_step_at. cbn [comp_bind].
  specialize (IH (seen ++ [adjacent_fix (last seen) m (head rest)])).
  rewrite last_snoc, length_app, Nat.add_1_r, <- !app_assoc in IH. exact IH.
Qed.

Lemma clean_adjacency_eq messages :
  clean_orphaned_tool_blocks_by_adjacency messages =
  Ok (List.filter is_nonempty (adjacent_fixes None messages)).
Proof.
  unfold clean_orphaned_tool_blocks_by_adjacency.
  pose proof (adjacency_loop_fixes [] messages) as H. cbn [length app last] in H. by rewrite H.
Qed.

Lemma adjacent_fix_role prev m next : msg_role (adjacent_fix prev m next) = msg_role m.
Proof. unfold adjacent_fix. repeat case_match; done. Qed.

Lemma has_role_unique r r' m : has_role r m = true -> r <> r' -> has_role r' m = false.
Proof. unfold has_role. intros ->%str_eqb_eq Hne. by apply str_eqb_neq. Qed.

Lemma adjacent_fix_ids (t key : str) (ids other : gset str) (m m' : WireMessage) :
  ids = block_ids t key (msg_content m) ->
  m' = (if bool_decide (ids = ∅) then m
        else if size (ids ∩ other) <? size ids then retain_matched t key (ids ∩ other) m else m) ->
  block_ids t key (msg_content m') = ids ∩ other.
Proof.
  intros -> ->. case_bool_decide as E; [rewrite E; set_solver|].
  case_match eqn:Es.
  - rewrite retain_matched_ids. set_solver.
  - apply Nat.ltb_ge in Es. symmetry. apply leibniz_equiv, set_subseteq_size_equiv; [set_solver|lia].
Qed.

Lemma uses_of_fix prev m next :
  uses_of (adjacent_fix prev m next) = uses_of m ∩ from_option results_of ∅ next.
Proof.
  unfold uses_of. unfold has_role. rewrite adjacent_fix_role. fold (has_role (&"assistant") m).
  destruct (has_role _ m) eqn:E; [|set_solver].
  eapply (adjacent_fix_ids (&"tool_use") (&"id")); [done|]. unfold adjacent_fix. by rewrite E.
Qed.

Lemma results_of_fix prev m next :
  results_of (adjacent_fix prev m next) = results_of m ∩ from_option uses_of ∅ prev.
Proof.
  unfold results_of. unfold has_role. rewrite adjacent_fix_role. fold (has_role (&"user") m).
  destruct (has_role _ m) eqn:E; [|set_solver].
  eapply (adjacent_fix_ids (&"tool_result") (&"tool_use_id")); [done|].
  unfold adjacent_fix. by rewrite (has_role_unique (&"user") (&"assistant")), E.
Qed.

Lemma adjacent_fixes_paired prev messages :
  from_option uses_of ∅ prev ⊆ from_option results_of ∅ (head messages) ->
  tool_paired (from_option uses_of ∅ prev) (adjacent_fixes prev messages).
Proof.
  revert prev. induction messages as [|m rest IH]; intros prev Hsub; cbn in *; [set_solver|].
  rewrite results_of_fix. split; [set_solver|].
  apply (IH (Some (adjacent_fix prev m (head rest)))). cbn [from_option]. rewrite uses_of_fix. set_solver.
Qed.

(** Messages without calls and results may be dropped, and a pass that keeps
    the identifiers of every message keeps the pairing. *)
Lemma tool_paired_filter p pending messages :
  (forall m, m ∈ messages -> p m = false -> uses_of m = ∅ /\ results_of m = ∅) ->
  tool_paired pending messages -> tool_paired pending (List.filter p messages).
Proof.
  revert pending. induction messages as [|m rest IH]; intros pending Hp; cbn; [done|].
  intros [Hr Hrest]. destruct (p m) eqn:E.
  - split; [done|]. apply IH; [|done]. intros m' Hm'. apply Hp. by apply list_elem_of_further.
  - destruct (Hp m) as [Hu Hm]; [apply list_elem_of_here|done|]. rewrite Hu in Hrest. rewrite Hm in Hr. subst.
    apply IH; [|done]. intros m' Hm'. apply Hp. by apply list_elem_of_further.
Qed.

Definition same_ids (m m' : WireMessage) : Prop := uses_of m = uses_of m' /\ results_of m = results_of m'.

#[global] Instance same_ids_refl : Reflexive same_ids.
Proof. by split. Qed.

Lemma tool_paired_same pending messages messages' :
  Forall2 same_ids messages messages' -> tool_paired pending messages -> tool_paired pending messages'.
Proof.
  intros H. revert pending. induction H as [|m m' l l' [Hu Hr] _ IH]; intros pending; cbn; [done|].
  intros [<- Hp]. split; [done|]. rewrite <- Hu. by apply IH.
Qed.

(** Blocks that a pass may rewrite: their type and identifiers are kept. *)
Lemma same_ids_content m c :
  block_ids (&"tool_use") (&"id") (msg_content m) = block_ids (&"tool_use") (&"id") c ->
  block_ids (&"tool_result") (&"tool_use_id") (msg_content m) = block_ids (&"tool_result") (&"tool_use_id") c ->
  same_ids m (with_content m c).
Proof.
  intros H1 H2. unfold same_ids, uses_of, results_of, tool_use_ids, tool_result_ids. cbn [with_content msg_content].
  unfold has_role. cbn. by rewrite H1, H2.
Qed.

Lemma block_ids_perm t key c c' : c ≡ₚ c' -> block_ids t key c = block_ids t key c'.
Proof. intros H. apply set_eq. intros id. rewrite !elem_block_ids. by setoid_rewrite H. Qed.

Lemma block_ids_map t key f c :
  (forall b, has_type t (f b) = has_type t b) -> (forall b, get_str key (f b) = get_str key b) ->
  block_ids t key (map f c) = block_ids t key c.
Proof.
  intros Ht Hk. apply set_eq. intros id. rewrite !elem_block_ids. setoid_rewrite list_elem_of_fmap. split.
  - intros (b & (b' & -> & Hb') & H1 & H2). exists b'. by rewrite <- Ht, <- Hk.
  - intros (b & Hb & H1 & H2). exists (f b). rewrite Ht, Hk. eauto.
Qed.

Lemma block_ids_filter t key p c :
  (forall b, p b = false -> has_type t b = false) -> block_ids t key (List.filter p c) = block_ids t key c.
Proof.
  intros Hp. apply set_eq. intros id. rewrite !elem_block_ids. setoid_rewrite list_elem_of_In.
  setoid_rewrite filter_In. split; [naive_solver|]. intros (b & Hb & H1 & H2). exists b. split_and!; try done.
  destruct (p b) eqn:E; [done|]. by rewrite (Hp b E) in H1.
Qed.

(** ** The passes after the adjacency repair *)

Lemma take_while_all {A} (p : A -> bool) l :
  length (take_while p l) = length (List.filter p l) ->
  l = List.filter p l ++ List.filter (fun x => negb (p x)) l.
Proof.
  induction l as [|x l IH]; cbn; [done|]. destruct (p x) eqn:E; cbn.
  - intros H. f_equal. apply IH. lia.
  - intros H. symmetry in H. apply nil_length_inv in H. rewrite H. cbn. f_equal.
    clear IH E. induction l as [|y l IH]; [done|]. cbn in *. destruct (p y); [done|]. cbn. f_equal. by apply IH.
Qed.

(** A user message after hoisting: its results, then everything else. *)
Lemma hoist_content m :
  has_role (&"user") m = true ->
  msg_content (hoist_message m) =
  List.filter is_tool_result (msg_content m) ++ List.filter (fun b => negb (is_tool_result b)) (msg_content m).
Proof.
  intros Hu. unfold hoist_message. rewrite Hu. cbn [negb]. destruct (existsb _ _) eqn:Ex; cbn [negb].
  - case_match eqn:E; [|done]. apply andb_true_iff in E as [_ E]. apply Nat.eqb_eq in E. by apply take_while_all.
  - apply take_while_all. revert Ex. clear. induction (msg_content m) as [|b c IH]; [done|]. cbn.
    intros [Eb Ec]%orb_false_iff. rewrite Eb. cbn. specialize (IH Ec).
    by destruct c; cbn in *; [|apply orb_false_iff in Ec as [Ec _]; rewrite Ec in *].
Qed.

Lemma filter_partition_perm {A} (p : A -> bool) l :
  List.filter p l ++ List.filter (fun x => negb (p x)) l ≡ₚ l.
Proof.
  induction l as [|x l IH]; cbn; [done|]. destruct (p x); cbn; [by rewrite IH|].
  by rewrite <- Permutation_middle, IH.
Qed.

Lemma hoist_role m : msg_role (hoist_message m) = msg_role m.
Proof. unfold hoist_message. repeat case_match; done. Qed.

Lemma hoist_not_user m : has_role (&"user") m = false -> hoist_message m = m.
Proof. intros H. unfold hoist_message. by rewrite H. Qed.

Lemma hoist_perm m : msg_content (hoist_message m) ≡ₚ msg_content m.
Proof.
  destruct (has_role (&"user") m) eqn:E; [|by rewrite hoist_not_user].
  rewrite hoist_content by done. apply filter_partition_perm.
Qed.

Lemma hoist_as_content m : hoist_message m = with_content m (msg_content (hoist_message m)).
Proof. pose proof (hoist_role m). destruct (hoist_message m); cbn in *. by subst. Qed.

Lemma hoist_same_ids m : same_ids m (hoist_message m).
Proof. rewrite hoist_as_content. apply same_ids_content; apply block_ids_perm; by rewrite hoist_perm. Qed.

Lemma thinking_not_tool b t :
  t <> &"thinking" -> t <> &"redacted_thinking" -> is_thinking b = true -> has_type t b = false.
Proof.
  intros H1 H2 [H|H]%orb_true_iff; eapply has_type_unique; eauto.
Qed.

Lemma strip_same_ids last_idx i m : same_ids m (strip_message last_idx i m).
Proof.
  assert (forall p t key, (forall b, p b = false -> is_thinking b = true) ->
    t <> &"thinking" -> t <> &"redacted_thinking" ->
    block_ids t key (msg_content m) = block_ids t key (List.filter p (msg_content m))) as Hp.
  { intros p t key Hp H1 H2. symmetry. apply block_ids_filter. intros b Hb. by apply thinking_not_tool, Hp. }
  unfold strip_message. case_match; [done|]. case_match; apply same_ids_content; apply Hp; try done;
    intros b; destruct (is_thinking b); done.
Qed.

Lemma scrub_same_ids m : same_ids m (scrub_message m).
Proof.
  apply same_ids_content; symmetry; apply block_ids_map; intros b; try by apply has_type_remove.
  - by apply get_str_remove_ne.
  - by apply get_str_remove_ne.
Qed.

Lemma is_nonempty_ids m : is_nonempty m = false -> uses_of m = ∅ /\ results_of m = ∅.
Proof.
  destruct m as [r [|b c]]; cbn; [|done]. intros _. unfold uses_of, results_of. by repeat case_match.
Qed.

Lemma Forall2_map_self {A} (R : A -> A -> Prop) f (l : list A) :
  (forall x, R x (f x)) -> Forall2 R l (map f l).
Proof. intros H. induction l; cbn; by constructor. Qed.

Lemma Forall2_imap_self {A} (R : A -> A -> Prop) f (l : list A) :
  (forall i x, R x (f i x)) -> Forall2 R l (imap f l).
Proof. revert f. induction l as [|x l IH]; intros f H; cbn; constructor; auto. apply IH. intros. apply H. Qed.

Lemma strip_thinking_paired pending messages :
  tool_paired pending messages ->
  tool_paired pending (strip_thinking_from_non_latest_assistant_messages messages).
Proof.
  intros H. unfold strip_thinking_from_non_latest_assistant_messages. case_match; [|done].
  apply tool_paired_filter.
  - intros m _ [_ Hm]%orb_false_iff. by apply is_nonempty_ids.
  - eapply tool_paired_same; [apply Forall2_map_self, scrub_same_ids|].
    eapply tool_paired_same; [|exact H]. apply Forall2_imap_self. intros. apply strip_same_ids.
Qed.

Lemma tool_paired_snoc pending messages m :
  uses_of m = ∅ -> results_of m = ∅ -> tool_paired pending messages -> tool_paired pending (messages ++ [m]).
Proof.
  intros Hu Hr. revert pending. induction messages as [|m' messages IH]; intros pending; cbn.
  - intros ->. done.
  - intros [Hm Hp]. split; [done|]. by apply IH.
Qed.

Lemma append_sentinel_paired pending messages :
  tool_paired pending messages -> tool_paired pending (append_sentinel messages).
Proof.
  intros H. unfold append_sentinel. repeat case_match; try done; by apply tool_paired_snoc.
Qed.

(** ** The cache breakpoints, seen from the end of the conversation *)

Fixpoint mark_users (k : nat) (reversed : list WireMessage) : list WireMessage :=
  match reversed with
  | [] => []
  | m :: rest =>
      if has_role (&"user") m
      then match k with 0 => m :: rest | S k => mark_last_block_cache_control m :: mark_users k rest end
      else m :: mark_users k rest
  end.

Definition user_at (messages : list WireMessage) (i : nat) : bool :=
  match messages !! i with Some m => has_role (&"user") m | None => false end.

Lemma last_user_indices_eq messages candidates found :
  Forall (fun i => i < length messages) candidates -> length found < 2 ->
  last_user_indices messages candidates found =
  Ok (found ++ take (2 - length found) (List.filter (user_at messages) candidates)).
Proof.
  intros H. revert found. induction H as [|i candidates Hi Hc IH]; intros found Hf; cbn [last_user_indices List.filter].
  - by rewrite take_nil, app_nil_r.
  - destruct (lookup_lt_is_Some_2 messages i Hi) as [m Hm]. unfold index at 1, user_at at 1.
    rewrite Hm. cbn [comp_bind]. destruct (has_role _ m); [|by apply IH].
    rewrite length_app. cbn [length].
    destruct found as [|j [|]]; cbn [length] in *; [| |lia]; cbn [plus Nat.leb].
    + rewrite IH by (cbn; lia). done.
    + done.
Qed.

Lemma user_at_app pre suf i : i < length pre -> user_at (pre ++ suf) i = user_at pre i.
Proof. intros H. unfold user_at. by rewrite lookup_app_l. Qed.

Lemma mark_indices_eq pre suf k :
  mark_indices (pre ++ suf) (take k (List.filter (user_at pre) (reverse (seq 0 (length pre))))) =
  Ok (reverse (mark_users k (reverse pre)) ++ suf).
Proof.
  revert suf k. induction pre as [|m pre IH] using rev_ind; intros suf k; [by destruct k|].
  rewrite length_app, Nat.add_1_r, seq_S, reverse_app, reverse_singleton. cbn [app plus List.filter].
  rewrite (reverse_app pre [m]), reverse_singleton. cbn [app mark_users].
  assert (user_at (pre ++ [m]) (length pre) = has_role (&"user") m) as -> by (unfold user_at; by rewrite list_lookup_middle).
  rewrite (filter_ext_in (user_at (pre ++ [m])) (user_at pre)); cycle 1.
  { intros i Hi%list_elem_of_In. rewrite elem_of_reverse, elem_of_seq in Hi. apply user_at_app. lia. }
  rewrite <- app_assoc. cbn [app].
  destruct (has_role (&"user") m); [destruct k as [|k]|]; cbn [take mark_indices].
  - by rewrite reverse_cons, reverse_involutive, <- app_assoc.
  - rewrite index_middle. cbn [comp_bind].
    rewrite insert_app_r_alt, Nat.sub_diag by lia. cbn [insert list_insert].
    by rewrite IH, reverse_cons, <- app_assoc.
  - by rewrite IH, reverse_cons, <- app_assoc.
Qed.

Lemma apply_history_cache_control_eq messages :
  apply_history_cache_control messages = Ok (reverse (mark_users 2 (reverse messages))).
Proof.
  unfold apply_history_cache_control. rewrite last_user_indices_eq; cbn [length app comp_bind]; [| |lia].
  - pose proof (mark_indices_eq messages [] 2) as H. by rewrite !app_nil_r in H.
  - apply Forall_forall. intros i. rewrite elem_of_reverse, elem_of_seq. lia.
Qed.

Lemma map_last_cases {A} (f : A -> A) l :
  (l = [] /\ map_last f l = []) \/ exists l' x, l = l' ++ [x] /\ map_last f l = l' ++ [f x].
Proof.
  unfold map_last. destruct l as [|x l _] using rev_ind; [by left|right]. exists l, x. split; [done|].
  rewrite last_snoc, length_app. cbn. by rewrite Nat.add_sub, take_app_length.
Qed.

Lemma block_ids_app t key c c' : block_ids t key (c ++ c') = block_ids t key c ∪ block_ids t key c'.
Proof. apply set_eq. intros id. rewrite elem_of_union, !elem_block_ids. set_solver. Qed.

Lemma mark_same_ids m : same_ids m (mark_last_block_cache_control m).
Proof.
  assert (forall t key, key <> &"cache_control" -> block_ids t key (msg_content m) =
    block_ids t key (map_last (obj_insert (&"cache_control") ephemeral) (msg_content m))) as H.
  { intros t key Hk. destruct (map_last_cases (obj_insert (&"cache_control") ephemeral) (msg_content m))
      as [[-> ->]|(c & x & -> & ->)]; [done|].
    rewrite !block_ids_app. f_equal. symmetry.
    apply (block_ids_map t key (obj_insert (&"cache_control") ephemeral) [x]);
      intros b; [by apply has_type_insert|by apply get_str_insert_ne]. }
  apply same_ids_content; by apply H.
Qed.

Lemma mark_users_rel (R : WireMessage -> WireMessage -> Prop) k messages :
  (forall m, R m m) -> (forall m, has_role (&"user") m = true -> R m (mark_last_block_cache_control m)) ->
  Forall2 R messages (reverse (mark_users k (reverse messages))).
Proof.
  intros Hr Hm. rewrite <- (reverse_involutive messages) at 1. apply Forall2_reverse.
  generalize (reverse messages) as l. intros l. revert k. induction l as [|m l IH]; intros k; cbn; [done|].
  destruct (has_role (&"user") m) eqn:E; [destruct k as [|k]|]; constructor; auto.
  clear -Hr. induction l; by constructor.
Qed.

(** The stages of [conversation_to_anthropic_messages]; it never fails. *)
Section conversation.
Context {codec : WireCodec} (input : list ResponseItem) (si : bool).

Definition wire_translated : list WireMessage := translate si (clean_orphaned_tool_calls input).
Definition wire_cleaned : list WireMessage := List.filter is_nonempty (adjacent_fixes None wire_translated).
Definition wire_stripped : list WireMessage :=
  strip_thinking_from_non_latest_assistant_messages (hoist_tool_results_to_front wire_cleaned).

Definition wire_finish (caching prefill : bool) : list WireMessage :=
  let messages := if negb prefill then append_sentinel wire_stripped else wire_stripped in
  if caching then reverse (mark_users 2 (reverse messages)) else messages.

Lemma conversation_eq caching prefill :
  conversation_to_anthropic_messages input si caching prefill = Ok (wire_finish caching prefill).
Proof.
  unfold conversation_to_anthropic_messages. rewrite clean_adjacency_eq. cbn [comp_bind].
  unfold wire_finish, wire_stripped, wire_cleaned, wire_translated.
  destruct caching; [|done]. apply apply_history_cache_control_eq.
Qed.

Lemma wire_cleaned_paired : tool_paired ∅ wire_cleaned.
Proof.
  apply tool_paired_filter; [intros; by apply is_nonempty_ids|].
  apply (adjacent_fixes_paired None). apply empty_subseteq.
Qed.

Lemma wire_stripped_paired : tool_paired ∅ wire_stripped.
Proof.
  apply strip_thinking_paired. eapply tool_paired_same; [apply Forall2_map_self, hoist_same_ids|].
  apply wire_cleaned_paired.
Qed.
End conversation.

(** C9: for every history and every capability of the model the translator
    returns (no index is out of range) and the messages satisfy the condition
    the API rejects requests on: the [tool_result] ids of every user message
    are exactly the [tool_use] ids of the assistant message just before it, and
    the last message makes no unanswered call. *)
Theorem conversation_tool_paired {codec : WireCodec} input supports_image supports_prompt_caching
    supports_assistant_prefill :
  exists messages,
    conversation_to_anthropic_messages input supports_image supports_prompt_caching supports_assistant_prefill =
      Ok messages /\
    tool_paired ∅ messages.
Proof.
  eexists. split; [apply conversation_eq|]. unfold wire_finish.
  set (messages := if negb supports_assistant_prefill then _ else _).
  assert (tool_paired ∅ messages) as H.
  { unfold messages. case_match; [apply append_sentinel_paired|]; apply wire_stripped_paired. }
  destruct supports_prompt_caching; [|done]. eapply tool_paired_same; [|exact H].
  apply mark_users_rel; intros; [done|apply mark_same_ids].
Qed.

(** ** What is said is kept *)

Definition plain (b : Value) : bool :=
  negb (is_thinking b) && negb (has_type (&"tool_use") b) && negb (has_type (&"tool_result") b).

(** A block without the two keys the passes add or remove *)
Definition norm (b : Value) : Value := obj_remove (&"cache_control") (obj_remove RECONSTRUCTED_THINKING_MARKER b).

Definition entries (m : WireMessage) : list (str * Value) :=
  (fun b => (msg_role m, norm b)) <$> List.filter plain (msg_content m).

(** Everything in the messages that is neither a call, a result nor a thought,
    with the role it is attributed to. *)
Definition said (messages : list WireMessage) : list (str * Value) := messages ≫= entries.

(** The same of the history: the text and the images of its messages. *)
Definition item_said (supports_image : bool) (item : ResponseItem) : list (str * Value) :=
  match item with
  | Message _ role content _ =>
      if str_eqb role (&"system") || str_eqb role (&"developer") then []
      else (fun c => (if str_eqb role (&"assistant") then &"assistant" else &"user", content_block supports_image c))
             <$> content
  | Reasoning _ _ _ _ _ (Some raw) =>
      if plain raw then [(&"assistant", norm raw)] else []
  | _ => []
  end.

Lemma said_app l l' : said (l ++ l') = said l ++ said l'.
Proof. apply bind_app. Qed.

Lemma entries_with m c : entries (with_content m c) = (fun b => (msg_role m, norm b)) <$> List.filter plain c.
Proof. done. Qed.

Lemma said_one m : said [m] = entries m.
Proof. unfold said. cbn. apply app_nil_r. Qed.

Lemma said_append ms r bs :
  said (append_to_role ms r bs) = said ms ++ ((fun b => (r, norm b)) <$> List.filter plain bs).
Proof.
  unfold append_to_role. destruct ms as [|m ms _] using rev_ind; [cbn; by rewrite app_nil_r|].
  rewrite last_snoc. destruct (has_role r m) eqn:E; [|rewrite said_app; cbn; by rewrite app_nil_r].
  apply str_eqb_eq in E. rewrite length_app. cbn [length]. rewrite Nat.add_sub, take_app_length, !said_app, !said_one.
  rewrite entries_with, List.filter_app, fmap_app, <- app_assoc. by subst r.
Qed.

(** What one call of [append_to_role] says *)
Definition emitted (e : str * list Value) : list (str * Value) :=
  (fun b => (e.1, norm b)) <$> List.filter plain e.2.

Lemma said_appends ms (l : list (str * list Value)) :
  said (foldl (fun ms '(r, bs) => append_to_role ms r bs) ms l) = said ms ++ (l ≫= emitted).
Proof.
  revert ms. induction l as [|[r bs] l IH]; intros ms; cbn [foldl]; [by rewrite app_nil_r|].
  by rewrite IH, said_append, bind_cons, <- app_assoc.
Qed.

Lemma plain_content_block si c : plain (content_block si c) = true /\ norm (content_block si c) = content_block si c.
Proof. destruct c; cbn; try (split; reflexivity). destruct si; split; reflexivity. Qed.

Lemma plain_content_blocks si (r : str) (cs : list ContentItem) :
  (fun b => (r, norm b)) <$> List.filter plain (map (content_block si) cs) =
  (fun c => (r, content_block si c)) <$> cs.
Proof.
  induction cs as [|c cs IH]; [done|]. cbn [map List.filter].
  destruct (plain_content_block si c) as [-> Hn]. rewrite !fmap_cons, Hn. by rewrite IH.
Qed.

Lemma item_blocks_said {codec : WireCodec} si n item :
  item_blocks si n item ≫= emitted = item_said si item.
Proof.
  destruct item; try reflexivity.
  - cbn [item_blocks item_said]. destruct (_ || _); [done|].
    assert (forall r : str, match map (content_block si) content with [] => [] | bs => [(r, bs)] end ≫= emitted =
      (fun c => (r, content_block si c)) <$> content) as H.
    { intros r. rewrite <- plain_content_blocks. destruct content; [done|]. cbn [map mbind list_bind].
      by rewrite app_nil_r. }
    apply H.
  - cbn [item_blocks item_said]. unfold reasoning_blocks. destruct raw_wire_block as [raw|].
    + destruct (is_unreplayable_empty_thinking raw) eqn:E.
      * unfold is_unreplayable_empty_thinking in E. apply andb_true_iff in E as [E _].
        apply bool_decide_eq_true in E. unfold plain, is_thinking, has_type. by rewrite E.
      * cbn. by destruct (plain raw).
    + destruct (encrypted_content ≫= _); [done|]. destruct content as [items|].
      * induction items as [|i items IH]; [done|]. cbn [omap list_omap].
        destruct (reasoning_text i); exact IH.
      * by destruct (join _ _).
  - cbn [item_blocks item_said]. by destruct action.
Qed.

Lemma translate_said {codec : WireCodec} si ms items :
  said (foldl (translate_item si) ms items) = said ms ++ (items ≫= item_said si).
Proof.
  revert ms. induction items as [|i items IH]; intros ms; cbn [foldl]; [by rewrite app_nil_r|].
  rewrite IH. unfold translate_item. by rewrite said_appends, item_blocks_said, bind_cons, app_assoc.
Qed.

Lemma clean_orphaned_said si input : clean_orphaned_tool_calls input ≫= item_said si = input ≫= item_said si.
Proof.
  unfold clean_orphaned_tool_calls. generalize (list_to_set (C := gset str) (omap wire_call_id input) ∩
    list_to_set (omap wire_output_id input)) as paired. intros paired.
  induction input as [|i input IH]; [done|]. cbn [List.filter]. rewrite bind_cons.
  destruct (keep_item paired i) eqn:E; [by rewrite bind_cons, IH|]. rewrite IH. by destruct i.
Qed.

(** A pass that rewrites the messages one by one, or drops silent ones. *)
Lemma said_Forall2 l l' : Forall2 (fun m m' => entries m = entries m') l l' -> said l' = said l.
Proof. induction 1 as [|m m' l l' H _ IH]; [done|]. unfold said in *. rewrite !bind_cons. by rewrite H, IH. Qed.

Lemma said_filter p l : (forall m, p m = false -> entries m = []) -> said (List.filter p l) = said l.
Proof.
  intros Hp. induction l as [|m l IH]; [done|]. cbn [List.filter]. unfold said in *. rewrite bind_cons.
  destruct (p m) eqn:E; [by rewrite bind_cons, IH|]. by rewrite (Hp m E), IH.
Qed.

Lemma nonempty_entries m : is_nonempty m = false -> entries m = [].
Proof. by destruct m as [r [|]]. Qed.

Lemma filter_filter_same {A} (p q : A -> bool) l :
  (forall x, q x = true -> p x = true) -> List.filter q (List.filter p l) = List.filter q l.
Proof.
  intros H. induction l as [|x l IH]; [done|]. cbn. destruct (p x) eqn:E; cbn; [by rewrite IH|].
  destruct (q x) eqn:Eq; [by rewrite (H x Eq) in E|done].
Qed.

Lemma filter_map_same {A} (q : A -> bool) f l :
  (forall x, q (f x) = q x) -> List.filter q (map f l) = map f (List.filter q l).
Proof. intros H. induction l as [|x l IH]; [done|]. cbn. rewrite H. destruct (q x); cbn; by rewrite IH. Qed.

Lemma entries_filter m p : (forall b, plain b = true -> p b = true) ->
  entries m = entries (with_content m (List.filter p (msg_content m))).
Proof. intros H. rewrite entries_with. by rewrite filter_filter_same. Qed.

Lemma plain_spec b :
  plain b = true <->
  is_thinking b = false /\ has_type (&"tool_use") b = false /\ has_type (&"tool_result") b = false.
Proof. unfold plain. rewrite !andb_true_iff, !negb_true_iff. tauto. Qed.

Lemma adjacent_fix_entries prev m next : entries m = entries (adjacent_fix prev m next).
Proof.
  unfold adjacent_fix. repeat case_match; try done; apply entries_filter; intros b [_ [Hu Hr]]%plain_spec;
    by rewrite ?Hu, ?Hr.
Qed.

Lemma adjacent_fixes_said prev l : said (adjacent_fixes prev l) = said l.
Proof.
  apply said_Forall2. revert prev. induction l as [|m l IH]; intros prev; cbn; constructor; [|apply IH].
  apply adjacent_fix_entries.
Qed.

Lemma hoist_entries m : entries m = entries (hoist_message m).
Proof.
  destruct (has_role (&"user") m) eqn:E; [|by rewrite hoist_not_user].
  unfold entries at 2. rewrite hoist_role, hoist_content, List.filter_app by done.
  unfold entries. f_equal. rewrite (filter_filter_same (fun b => negb (is_tool_result b))).
  - replace (List.filter plain (List.filter is_tool_result (msg_content m))) with (@nil Value); [done|].
    induction (msg_content m) as [|b c IH]; [done|]. cbn. destruct (is_tool_result b) eqn:Eb; [|done].
    cbn. destruct (plain b) eqn:Ep; [|done]. apply plain_spec in Ep as (_ & _ & Ep).
    unfold is_tool_result in Eb. congruence.
  - intros b (_ & _ & H)%plain_spec. unfold is_tool_result. by rewrite H.
Qed.

Lemma strip_entries last_idx i m : entries m = entries (strip_message last_idx i m).
Proof.
  unfold strip_message. repeat case_match; try done; apply entries_filter; intros b (Ht & _)%plain_spec; by rewrite Ht.
Qed.

Lemma plain_remove key b : key <> &"type" -> plain (obj_remove key b) = plain b.
Proof. intros H. unfold plain, is_thinking. by rewrite !has_type_remove. Qed.

Lemma plain_insert key x b : key <> &"type" -> plain (obj_insert key x b) = plain b.
Proof. intros H. unfold plain, is_thinking. by rewrite !has_type_insert. Qed.

Lemma obj_remove_idem key v : obj_remove key (obj_remove key v) = obj_remove key v.
Proof. apply obj_remove_absent, vget_remove. Qed.

Lemma scrub_entries m : entries m = entries (scrub_message m).
Proof.
  unfold scrub_message. rewrite entries_with, filter_map_same by (intros; by apply plain_remove).
  unfold entries. change (map ?f ?l) with (f <$> l). rewrite <- list_fmap_compose. apply list_fmap_ext.
  intros i b _. unfold norm. cbn. by rewrite obj_remove_idem.
Qed.

Lemma norm_mark b : norm (obj_insert (&"cache_control") ephemeral b) = norm b.
Proof. unfold norm. by rewrite !(obj_remove_comm (&"cache_control")), obj_remove_insert. Qed.

Lemma mark_entries m : entries m = entries (mark_last_block_cache_control m).
Proof.
  unfold mark_last_block_cache_control. rewrite entries_with. unfold entries.
  destruct (map_last_cases (obj_insert (&"cache_control") ephemeral) (msg_content m))
    as [[-> ->]|(c & x & -> & ->)]; [done|].
  rewrite !List.filter_app, !fmap_app. f_equal. cbn [List.filter]. rewrite plain_insert by done.
  destruct (plain x); [|done]. rewrite !list_fmap_singleton. by rewrite norm_mark.
Qed.

Lemma strip_thinking_said l : said (strip_thinking_from_non_latest_assistant_messages l) = said l.
Proof.
  unfold strip_thinking_from_non_latest_assistant_messages. destruct (rposition _ l) as [n|]; [|done].
  rewrite said_filter by (intros m [_ Hm]%orb_false_iff; by apply nonempty_entries).
  rewrite (said_Forall2 (imap (strip_message n) l)) by apply Forall2_map_self, scrub_entries.
  apply said_Forall2, Forall2_imap_self. intros. apply strip_entries.
Qed.

(** The tail the translator may add to what the history says. *)
Definition sentinel_tail (prefill : bool) (tail : list (str * Value)) : Prop :=
  tail = [] \/
  (prefill = false /\ (tail = [(&"user", text_block (&"[Continue]"))] \/
                       tail = [(&"user", text_block (&"[Awaiting tool result]"))])).

Lemma append_sentinel_said l : exists tail, said (append_sentinel l) = said l ++ tail /\ sentinel_tail false tail.
Proof.
  unfold append_sentinel, sentinel_tail. repeat case_match; rewrite ?said_app; eexists;
    (split; [reflexivity || (symmetry; apply app_nil_r)|]); cbn; auto.
Qed.

(** Nothing that was said is lost, duplicated, reordered or attributed to
    another role: the text and image blocks of the messages are, in order, those
    of the user, assistant and other messages of the history (system and
    developer messages travel in the system prompt), followed at most by the
    synthetic user turn, and that only when the model has no prefill.  Blocks
    are compared without the [cache_control] key. *)
Theorem conversation_said {codec : WireCodec} input supports_image supports_prompt_caching supports_assistant_prefill :
  exists messages tail,
    conversation_to_anthropic_messages input supports_image supports_prompt_caching supports_assistant_prefill =
      Ok messages /\
    said messages = (input ≫= item_said supports_image) ++ tail /\
    sentinel_tail supports_assistant_prefill tail.
Proof.
  exists (wire_finish input supports_image supports_prompt_caching supports_assistant_prefill).
  set (messages := if negb supports_assistant_prefill then append_sentinel (wire_stripped input supports_image)
                   else wire_stripped input supports_image).
  assert (said (wire_stripped input supports_image) = input ≫= item_said supports_image) as Hs.
  { unfold wire_stripped, wire_cleaned, hoist_tool_results_to_front, wire_translated, translate.
    rewrite strip_thinking_said. rewrite (said_Forall2 (List.filter is_nonempty _)) by apply Forall2_map_self, hoist_entries.
    rewrite said_filter by apply nonempty_entries. rewrite adjacent_fixes_said, translate_said. cbn [app].
    apply clean_orphaned_said. }
  assert (exists tail, said messages = (input ≫= item_said supports_image) ++ tail /\
    sentinel_tail supports_assistant_prefill tail) as (tail & Hm & Ht).
  { unfold messages. destruct supports_assistant_prefill; cbn [negb].
    - exists []. rewrite Hs, app_nil_r. split; [done|by left].
    - rewrite <- Hs. apply append_sentinel_said. }
  exists tail. split; [apply conversation_eq|]. split; [|done]. rewrite <- Hm. unfold wire_finish. fold messages.
  destruct supports_prompt_caching; [|done]. apply said_Forall2, mark_users_rel; intros; [done|apply mark_entries].
Qed.

(** ** Shape of the messages *)

(** [raw] is a wire block recorded in the history. *)
Definition recorded (input : list ResponseItem) (raw : Value) : Prop :=
  exists id summary content encrypted_content metadata,
    Reasoning id summary content encrypted_content metadata (Some raw) ∈ input.

(** A block the translation may emit under a role. *)
Definition emission_ok (input : list ResponseItem) (role : str) (b : Value) : Prop :=
  (role = &"user" /\ is_thinking b = false /\ vget RECONSTRUCTED_THINKING_MARKER b = None) \/
  (role = &"assistant" /\ (is_thinking b = true -> is_reconstructed b = true \/ recorded input b)).

Definition blocks_ok (Q : str -> Value -> Prop) (m : WireMessage) : Prop :=
  Forall (Q (msg_role m)) (msg_content m).

Lemma append_to_role_ok Q ms r bs :
  Forall (blocks_ok Q) ms -> Forall (Q r) bs -> Forall (blocks_ok Q) (append_to_role ms r bs).
Proof.
  intros Hms Hbs. unfold append_to_role. destruct ms as [|m ms _] using rev_ind; [by repeat constructor|].
  rewrite last_snoc. destruct (has_role r m) eqn:E.
  - rewrite length_app. cbn [length]. rewrite Nat.add_sub, take_app_length.
    apply Forall_app in Hms as [Hms Hm]. apply Forall_cons in Hm as [Hm _]. apply str_eqb_eq in E. subst r.
    apply Forall_app. split; [done|]. apply Forall_singleton. unfold blocks_ok. cbn [with_content msg_content msg_role].
    apply Forall_app. split; [exact Hm|exact Hbs].
  - apply Forall_app. split; [done|]. by apply Forall_singleton.
Qed.

(** A property of blocks holds of all messages when it holds of each kind of
    block the translation emits. *)
Section emission.
Context {codec : WireCodec} (si : bool) (input : list ResponseItem) (Q : str -> Value -> Prop).
Context (Qcontent : forall r c, r = &"user" \/ r = &"assistant" -> Q r (content_block si c)).
Context (Quse : forall id name v, Q (&"assistant") (tool_use_block id name v)).
Context (Qresult : forall id v, Q (&"user") (tool_result_block id v)).
Context (Qthinking : forall text signature, Q (&"assistant") (thinking_block text signature)).
Context (Qredacted : forall data, Q (&"assistant") (redacted_block data)).
Context (Qraw : forall raw, recorded input raw -> Q (&"assistant") raw).

Lemma reasoning_blocks_ok id summary content encrypted metadata raw :
  Reasoning id summary content encrypted metadata raw ∈ input ->
  Forall (Q (&"assistant")) (reasoning_blocks summary content encrypted raw).
Proof using Qthinking Qredacted Qraw.
  intros Hin. apply Forall_forall. intros b Hb. unfold reasoning_blocks in Hb. destruct raw as [raw|].
  - case_match; [by apply not_elem_of_nil in Hb|]. apply list_elem_of_singleton in Hb as ->.
    apply Qraw. red. eauto 10.
  - destruct (encrypted ≫= _); [|destruct content as [items|]].
    + by apply list_elem_of_singleton in Hb as ->.
    + apply list_elem_of_omap in Hb as (i & _ & Hb). by destruct (reasoning_text i); simplify_eq.
    + case_match; [by apply not_elem_of_nil in Hb|]. by apply list_elem_of_singleton in Hb as ->.
Qed.

Lemma item_blocks_ok n item :
  item ∈ input -> Forall (fun e => Forall (Q e.1) e.2) (item_blocks si n item).
Proof using Qcontent Quse Qresult Qthinking Qredacted Qraw.
  intros Hin.
  assert (forall r b, Q r b -> Forall (fun e => Forall (Q e.1) e.2) [(r, [b])]) as Hone.
  { intros r b H. rewrite Forall_singleton. cbn [fst snd]. by rewrite Forall_singleton. }
  destruct item; cbn [item_blocks]; try apply Forall_nil_2; try (destruct action); try (apply Hone; auto).
  - destruct (_ || _); [constructor|]. destruct (map _ content) eqn:E; [constructor|]. apply Forall_singleton.
    cbn [fst snd]. rewrite <- E. apply Forall_fmap, Forall_true. intros c. apply Qcontent. case_match; auto.
  - apply Forall_fmap. eapply Forall_impl; [by eapply reasoning_blocks_ok|]. intros b Hb. cbn.
    by apply Forall_singleton.
Qed.

Lemma translate_ok items ms :
  (forall i, i ∈ items -> i ∈ input) -> Forall (blocks_ok Q) ms ->
  Forall (blocks_ok Q) (foldl (translate_item si) ms items).
Proof using Qcontent Quse Qresult Qthinking Qredacted Qraw.
  revert ms. induction items as [|i items IH]; intros ms Hin Hms; cbn [foldl]; [done|].
  apply IH; [intros; apply Hin; by apply list_elem_of_further|]. unfold translate_item.
  pose proof (item_blocks_ok (length ms) i (Hin i (list_elem_of_here _ _))) as Hbs.
  revert Hbs. generalize (item_blocks si (length ms) i) as l. clear IH Hin. intros l Hbs. revert ms Hms.
  induction Hbs as [|[r bs] l Hb _ IH]; intros ms Hms; cbn [foldl]; [done|].
  apply IH. by apply append_to_role_ok.
Qed.

Lemma wire_translated_ok : Forall (blocks_ok Q) (wire_translated input si).
Proof using Qcontent Quse Qresult Qthinking Qredacted Qraw.
  apply translate_ok; [|constructor]. intros i. unfold clean_orphaned_tool_calls.
  rewrite !list_elem_of_In, filter_In. tauto.
Qed.
End emission.

Lemma wire_translated_emission {codec : WireCodec} si input :
  Forall (blocks_ok (emission_ok input)) (wire_translated input si).
Proof.
  apply wire_translated_ok; intros; try (right; split; [reflexivity|discriminate]);
    try (left; split_and!; reflexivity); try (right; split; [done|]; auto; fail).
  assert (is_thinking (content_block si c) = false /\
    vget RECONSTRUCTED_THINKING_MARKER (content_block si c) = None) as [H1 H2].
  { destruct c; try (split; reflexivity). destruct si; split; reflexivity. }
  destruct H as [->| ->]; [left|right]; rewrite ?H1; done.
Qed.

Lemma adjacent_fix_incl prev m next b : b ∈ msg_content (adjacent_fix prev m next) -> b ∈ msg_content m.
Proof.
  unfold adjacent_fix. repeat case_match; try done; cbn; rewrite !list_elem_of_In, filter_In; tauto.
Qed.

Lemma adjacent_fixes_ok Q prev l : Forall (blocks_ok Q) l -> Forall (blocks_ok Q) (adjacent_fixes prev l).
Proof.
  intros H. revert prev. induction H as [|m l Hm _ IH]; intros prev; cbn; constructor; [|apply IH].
  unfold blocks_ok in *. rewrite adjacent_fix_role, Forall_forall in *.
  intros b Hb%adjacent_fix_incl. by apply Hm.
Qed.

Lemma Forall_List_filter {A} (P : A -> Prop) p l : Forall P l -> Forall P (List.filter p l).
Proof. rewrite !Forall_forall. intros H x. rewrite list_elem_of_In, filter_In, <- list_elem_of_In. naive_solver. Qed.

Lemma Forall_List_filter_self {A} (p : A -> bool) l : Forall (fun x => p x = true) (List.filter p l).
Proof. rewrite Forall_forall. intros x. rewrite list_elem_of_In, filter_In. tauto. Qed.

(** Results come first. *)
Definition results_first (content : list Value) : Prop :=
  exists a b, is_tool_result <$> content = replicate a true ++ replicate b false.

Definition hoisted (m : WireMessage) : Prop :=
  is_nonempty m = true /\ (has_role (&"user") m = true -> results_first (msg_content m)).

Lemma fmap_filter_const {A} (p : A -> bool) l : p <$> List.filter p l = replicate (length (List.filter p l)) true.
Proof. induction l as [|x l IH]; cbn; [done|]. destruct (p x) eqn:E; [|done]. cbn. by rewrite E, <- IH. Qed.

Lemma fmap_filter_neg {A} (p : A -> bool) l :
  p <$> List.filter (fun x => negb (p x)) l = replicate (length (List.filter (fun x => negb (p x)) l)) false.
Proof. induction l as [|x l IH]; cbn; [done|]. destruct (p x) eqn:E; [done|]. cbn. by rewrite E, <- IH. Qed.

Lemma is_nonempty_perm m m' : msg_content m ≡ₚ msg_content m' -> is_nonempty m = is_nonempty m'.
Proof.
  unfold is_nonempty. destruct (msg_content m), (msg_content m'); try done; intros H;
    [by apply Permutation_nil_cons in H|symmetry in H; by apply Permutation_nil_cons in H].
Qed.

Lemma hoist_hoisted m : is_nonempty m = true -> hoisted (hoist_message m).
Proof.
  intros H. split; [by rewrite (is_nonempty_perm _ m (hoist_perm m))|].
  unfold has_role. rewrite hoist_role. intros Hu. rewrite hoist_content by done.
  unfold results_first. rewrite fmap_app, fmap_filter_const, fmap_filter_neg. by eexists _, _.
Qed.

Lemma hoist_ok Q m : blocks_ok Q m -> blocks_ok Q (hoist_message m).
Proof. unfold blocks_ok. rewrite hoist_role. by rewrite hoist_perm. Qed.

(** Only the last assistant message may hold thoughts. *)
Fixpoint thinking_last (messages : list WireMessage) : Prop :=
  match messages with
  | [] => True
  | m :: rest =>
      (existsb (has_role (&"assistant")) rest = true -> Forall (fun b => is_thinking b = false) (msg_content m)) /\
      thinking_last rest
  end.

(** A block as it is sent *)
Definition sent_ok (input : list ResponseItem) (role : str) (b : Value) : Prop :=
  vget RECONSTRUCTED_THINKING_MARKER b = None /\
  ((role = &"user" /\ is_thinking b = false) \/
   (role = &"assistant" /\
    (is_thinking b = true -> exists raw, recorded input raw /\ b = obj_remove RECONSTRUCTED_THINKING_MARKER raw))).

Lemma rposition_None {A} (p : A -> bool) l : rposition p l = None -> existsb p l = false.
Proof.
  induction l as [|x l IH]; cbn; [done|]. destruct (rposition p l); [done|]. destruct (p x); [done|]. by rewrite IH.
Qed.

Lemma strip_role last_idx i m : msg_role (strip_message last_idx i m) = msg_role m.
Proof. unfold strip_message. by repeat case_match. Qed.

Lemma existsb_imap_role r f l :
  (forall i m, msg_role (f i m) = msg_role m) -> existsb (has_role r) (imap f l) = existsb (has_role r) l.
Proof.
  revert f. induction l as [|m l IH]; intros f H; [done|]. rewrite imap_cons. cbn [existsb].
  rewrite IH by (intros; apply H). unfold has_role. by rewrite H.
Qed.

Lemma thinking_last_none l : existsb (has_role (&"assistant")) l = false -> thinking_last l.
Proof.
  induction l as [|m l IH]; cbn; [done|]. intros [_ H]%orb_false_iff. rewrite H. split; [done|by apply IH].
Qed.

Lemma strip_thinking_last (P : WireMessage -> Prop) l n :
  (forall m, P m -> has_role (&"assistant") m = false -> Forall (fun b => is_thinking b = false) (msg_content m)) ->
  Forall P l -> rposition (has_role (&"assistant")) l = Some n -> thinking_last (imap (strip_message n) l).
Proof.
  intros HP HF. revert n. induction HF as [|m l Hm _ IH]; intros n; cbn [rposition]; [done|].
  rewrite imap_cons. cbn [thinking_last]. destruct (rposition _ l) as [k|] eqn:E; intros Hn.
  - simplify_eq. split; [|by apply (IH k)]. intros _. unfold strip_message.
    destruct (has_role (&"assistant") m) eqn:Ea; cbn [negb Nat.ltb Nat.leb with_content msg_content]; [|by apply HP].
    eapply Forall_impl; [apply Forall_List_filter_self|]. cbn. intros b Hb. by apply negb_true_iff.
  - assert (existsb (has_role (&"assistant")) (imap (strip_message n ∘ S) l) = false) as Hx.
    { rewrite existsb_imap_role by (intros; apply strip_role). by apply rposition_None. }
    split; [by rewrite Hx|]. by apply thinking_last_none.
Qed.

Lemma thinking_last_filter p l : thinking_last l -> thinking_last (List.filter p l).
Proof.
  induction l as [|m l IH]; cbn; [done|]. intros [Hm Hl]. destruct (p m); [|by apply IH]. cbn. split; [|by apply IH].
  intros Hx. apply Hm. apply existsb_exists in Hx as (x & [Hx _]%filter_In & Hr). apply existsb_exists. eauto.
Qed.

(** Rewriting blocks without touching roles, types and thoughts *)
Definition quiet (m m' : WireMessage) : Prop :=
  msg_role m' = msg_role m /\ is_tool_result <$> msg_content m' = is_tool_result <$> msg_content m /\
  is_thinking <$> msg_content m' = is_thinking <$> msg_content m.

Lemma Forall_of_fmap {A} (p : A -> bool) l l' :
  p <$> l' = p <$> l -> Forall (fun x => p x = false) l -> Forall (fun x => p x = false) l'.
Proof.
  intros H HF. assert (Forall (fun x => x = false) (p <$> l')) as H' by (rewrite H; by apply Forall_fmap).
  by apply Forall_fmap in H'.
Qed.

Lemma quiet_thinking_last l l' : Forall2 quiet l l' -> thinking_last l -> thinking_last l'.
Proof.
  intros H. assert (existsb (has_role (&"assistant")) l = existsb (has_role (&"assistant")) l' /\
    (thinking_last l -> thinking_last l')) as [_ Ht]; [|exact Ht].
  induction H as [|m m' l l' (Hr & _ & Ht) _ [IHx IH]]; cbn; [done|]. split.
  - unfold has_role in *. by rewrite Hr, IHx.
  - rewrite <- IHx. intros [Hm Hl]. split; [|by apply IH]. intros Hx. eapply Forall_of_fmap; eauto.
Qed.

Lemma quiet_hoisted m m' : quiet m m' -> hoisted m -> hoisted m'.
Proof.
  intros (Hr & Ht & _) [Hn Hu]. split.
  - unfold is_nonempty in *. destruct (msg_content m); [done|]. by destruct (msg_content m').
  - unfold has_role in *. rewrite Hr. intros Hm. unfold results_first in *. rewrite Ht. by apply Hu.
Qed.

Lemma quiet_blocks f m :
  (forall b t, has_type t (f b) = has_type t b) -> quiet m (with_content m (map f (msg_content m))).
Proof.
  intros H. split_and!; [done|..]; cbn; change (map f ?l) with (f <$> l);
    rewrite <- list_fmap_compose; apply list_fmap_ext; intros i b _; unfold is_tool_result, is_thinking; cbn; by rewrite !H.
Qed.

Lemma scrub_quiet m : quiet m (scrub_message m).
Proof. apply quiet_blocks. intros. by apply has_type_remove. Qed.

Lemma mark_quiet m : quiet m (mark_last_block_cache_control m).
Proof.
  unfold mark_last_block_cache_control.
  destruct (map_last_cases (obj_insert (&"cache_control") ephemeral) (msg_content m))
    as [[E ->]|(c & x & E & ->)]; split_and!; try done; cbn; rewrite E; try done;
    rewrite !fmap_app; f_equal; cbn; f_equal; unfold is_tool_result, is_thinking; by rewrite !has_type_insert.
Qed.

Lemma scrub_sent input m m' n i :
  blocks_ok (emission_ok input) m -> m' = scrub_message (strip_message n i m) ->
  (has_role (&"assistant") m = true -> Forall (fun b => is_thinking b && is_reconstructed b = false)
     (msg_content (strip_message n i m))) -> blocks_ok (sent_ok input) m'.
Proof.
  intros Hm -> Hs. unfold blocks_ok. cbn [scrub_message with_content msg_role msg_content].
  rewrite strip_role. apply Forall_fmap, Forall_forall. intros b Hb. cbn. split; [apply vget_remove|].
  assert (emission_ok input (msg_role m) b) as Hok.
  { unfold blocks_ok in Hm. rewrite Forall_forall in Hm. apply Hm. revert Hb. unfold strip_message.
    repeat case_match; cbn; rewrite ?list_elem_of_In, ?filter_In; tauto. }
  assert (is_thinking (obj_remove RECONSTRUCTED_THINKING_MARKER b) = is_thinking b) as ->
    by (unfold is_thinking; by rewrite !has_type_remove).
  destruct Hok as [(Hr & Ht & _)|[Hr Ht]]; [by left|right]. split; [done|]. intros Hb'. exists b. split; [|done].
  destruct (Ht Hb') as [Hrec|?]; [|done]. exfalso.
  assert (has_role (&"assistant") m = true) as Ha by by apply str_eqb_eq.
  specialize (Hs Ha). rewrite Forall_forall in Hs. specialize (Hs b Hb). by rewrite Hb', Hrec in Hs.
Qed.

Lemma strip_no_reconstructed n i m :
  Forall (fun b => is_thinking b && is_reconstructed b = false)
    (msg_content (if has_role (&"assistant") m then strip_message n i m else with_content m [])).
Proof.
  destruct (has_role _ m) eqn:E; [|constructor]. unfold strip_message. rewrite E. cbn [negb].
  case_match; cbn [with_content msg_content]; (eapply Forall_impl; [apply Forall_List_filter_self|]); cbn;
    intros b; destruct (is_thinking b); [done..| |done]. intros Hb. by apply negb_true_iff in Hb.
Qed.

(** The three facts about a message list that the last passes establish and
    keep. *)
Definition wire_wf (input : list ResponseItem) (messages : list WireMessage) : Prop :=
  Forall (blocks_ok (sent_ok input)) messages /\ Forall hoisted messages /\ thinking_last messages.

Lemma strip_hoisted n i m : hoisted m -> has_role (&"assistant") m = false -> hoisted (scrub_message (strip_message n i m)).
Proof. intros H E. eapply quiet_hoisted; [apply scrub_quiet|]. unfold strip_message. by rewrite E. Qed.

Lemma emission_ok_user input m :
  blocks_ok (emission_ok input) m -> has_role (&"assistant") m = false ->
  Forall (fun b => is_thinking b = false) (msg_content m).
Proof.
  intros H E. eapply Forall_impl; [exact H|]. intros b [(_ & Hb & _)|[Hr _]]; [done|].
  unfold has_role in E. by rewrite Hr, str_eqb_refl in E.
Qed.

Lemma elem_imap {A B} (f : nat -> A -> B) l y : y ∈ imap f l -> exists i x, x ∈ l /\ y = f i x.
Proof.
  intros (i & x & -> & Hx)%elem_of_lookup_imap_1. exists i, x. split; [|done]. by eapply list_elem_of_lookup_2.
Qed.

Lemma strip_thinking_wf input messages :
  Forall (blocks_ok (emission_ok input)) messages -> Forall hoisted messages ->
  wire_wf input (strip_thinking_from_non_latest_assistant_messages messages).
Proof.
  intros Hok Hh. unfold strip_thinking_from_non_latest_assistant_messages.
  destruct (rposition _ messages) as [n|] eqn:E.
  - assert (forall m, m ∈ List.filter (fun m => negb (has_role (&"assistant") m) || is_nonempty m)
        (map scrub_message (imap (strip_message n) messages)) ->
      exists i m0, m0 ∈ messages /\ m = scrub_message (strip_message n i m0) /\
        (has_role (&"assistant") m0 = true -> is_nonempty m = true)) as Hin.
    { intros m. rewrite list_elem_of_In, filter_In, <- list_elem_of_In, list_elem_of_fmap.
      intros [(m1 & -> & (i & m0 & Hm0 & ->)%elem_imap) Hne]. exists i, m0. split_and!; try done.
      unfold has_role in *. cbn in Hne. rewrite strip_role in Hne. intros Ha. by rewrite Ha in Hne. }
    rewrite Forall_forall in Hok, Hh. split_and!.
    + apply Forall_forall. intros m (i & m0 & Hm0 & -> & _)%Hin. eapply scrub_sent; [by apply Hok|done|].
      intros Ha. pose proof (strip_no_reconstructed n i m0) as H. by rewrite Ha in H.
    + apply Forall_forall. intros m (i & m0 & Hm0 & -> & Hne)%Hin.
      destruct (has_role (&"assistant") m0) eqn:Ea; [|by apply strip_hoisted; [apply Hh|]].
      split; [by apply Hne|]. unfold has_role. cbn. rewrite strip_role. intros Hu.
      by rewrite (has_role_unique (&"user") (&"assistant") m0) in Ea.
    + apply thinking_last_filter. eapply quiet_thinking_last; [apply Forall2_map_self, scrub_quiet|].
      eapply (strip_thinking_last (blocks_ok (emission_ok input))); [apply emission_ok_user| |done].
      by apply Forall_forall.
  - apply rposition_None in E. split_and!; [|done|by apply thinking_last_none].
    rewrite Forall_forall in *. intros m Hm. specialize (Hok m Hm).
    assert (has_role (&"assistant") m = false) as Ha.
    { destruct (has_role (&"assistant") m) eqn:Ea; [|done]. rewrite <- not_true_iff_false, existsb_exists in E.
      destruct E. exists m. by rewrite <- list_elem_of_In. }
    eapply Forall_impl; [exact Hok|]. intros b [(Hr & Ht & Hk)|[Hr _]].
    + split; [done|by left].
    + unfold has_role in Ha. by rewrite Hr, str_eqb_refl in Ha.
Qed.

Lemma wire_stripped_wf {codec : WireCodec} input si : wire_wf input (wire_stripped input si).
Proof.
  assert (Forall (blocks_ok (emission_ok input)) (wire_cleaned input si)) as Hok.
  { apply Forall_List_filter, adjacent_fixes_ok, wire_translated_emission. }
  assert (Forall (fun m => is_nonempty m = true) (wire_cleaned input si)) as Hne by apply Forall_List_filter_self.
  apply strip_thinking_wf; apply Forall_fmap.
  - eapply Forall_impl; [exact Hok|]. intros m. apply hoist_ok.
  - eapply Forall_impl; [exact Hne|]. intros m. apply hoist_hoisted.
Qed.

Lemma thinking_last_snoc l m :
  has_role (&"assistant") m = false -> thinking_last l -> thinking_last (l ++ [m]).
Proof.
  intros Hm. induction l as [|x l IH]; cbn; [by split|]. intros [Hx Hl]. split; [|by apply IH].
  rewrite existsb_app. cbn. rewrite Hm, !orb_false_r. exact Hx.
Qed.

Lemma append_sentinel_wf input l : wire_wf input l -> wire_wf input (append_sentinel l).
Proof.
  intros (Hok & Hh & Ht). unfold append_sentinel. repeat case_match; try done;
    (split_and!; [apply Forall_app; split; [done|]..|by apply thinking_last_snoc]); apply Forall_singleton;
    try (unfold blocks_ok; apply Forall_singleton; split; [done|by left]);
    (split; [done|]; intros _; by exists 0, 1).
Qed.

Lemma mark_sent input m :
  has_role (&"user") m = true -> blocks_ok (sent_ok input) m -> blocks_ok (sent_ok input) (mark_last_block_cache_control m).
Proof.
  intros Hu. unfold blocks_ok, mark_last_block_cache_control. cbn [with_content msg_role msg_content].
  destruct (map_last_cases (obj_insert (&"cache_control") ephemeral) (msg_content m))
    as [[-> ->]|(c & x & -> & ->)]; [done|]. rewrite !Forall_app, !Forall_singleton.
  intros [Hc [Hk Hx]]. split; [done|]. split; [by rewrite vget_insert_ne|].
  apply str_eqb_eq in Hu. rewrite Hu in *. destruct Hx as [[_ Hx]|[? _]]; [|done]. left. split; [done|].
  revert Hx. unfold is_thinking. by rewrite !has_type_insert.
Qed.

Lemma wire_finish_wf {codec : WireCodec} input si caching prefill : wire_wf input (wire_finish input si caching prefill).
Proof.
  unfold wire_finish. set (messages := if negb prefill then _ else _).
  assert (wire_wf input messages) as H.
  { unfold messages. case_match; [apply append_sentinel_wf|]; apply wire_stripped_wf. }
  destruct caching; [|done]. destruct H as (Hok & Hh & Ht).
  pose proof (mark_users_rel (fun m m' => blocks_ok (sent_ok input) m -> blocks_ok (sent_ok input) m') 2 messages
    (fun m H => H) (mark_sent input)) as H1.
  pose proof (mark_users_rel quiet 2 messages (fun m => conj eq_refl (conj eq_refl eq_refl))
    (fun m _ => mark_quiet m)) as H2.
  split_and!.
  - eapply Forall2_Forall_r; [exact H1|]. eapply Forall_impl; [exact Hok|]. auto.
  - eapply Forall2_Forall_r; [exact H2|]. eapply Forall_impl; [exact Hh|].
    intros m Hm m' Hq. by eapply quiet_hoisted.
  - by eapply quiet_thinking_last.
Qed.

Lemma append_sentinel_last l m : last (append_sentinel l) = Some m -> has_role (&"assistant") m = false.
Proof.
  unfold append_sentinel. destruct (last l) as [x|] eqn:E; [|by rewrite E].
  destruct (has_role (&"assistant") x) eqn:Ea; [rewrite last_snoc|rewrite E]; intros; by simplify_eq/=.
Qed.

Lemma mark_users_last k l :
  msg_role <$> last (reverse (mark_users k (reverse l))) = msg_role <$> last l.
Proof.
  rewrite last_reverse. rewrite <- (reverse_involutive l) at 2. rewrite last_reverse.
  destruct (reverse l) as [|m r]; [done|]. cbn. repeat case_match; done.
Qed.

(** The messages are well formed for every history: each is a user or an
    assistant message with at least one block, the [tool_result] blocks of a
    user message come before its other blocks, and when the model does not
    support prefill the last message is a user message. *)
Theorem conversation_shape {codec : WireCodec} input supports_image supports_prompt_caching supports_assistant_prefill :
  exists messages,
    conversation_to_anthropic_messages input supports_image supports_prompt_caching supports_assistant_prefill =
      Ok messages /\
    Forall (fun m => (msg_role m = &"user" \/ msg_role m = &"assistant") /\ msg_content m <> [] /\
                     (msg_role m = &"user" -> results_first (msg_content m))) messages /\
    (supports_assistant_prefill = false -> forall m, last messages = Some m -> msg_role m = &"user").
Proof.
  eexists. split; [apply conversation_eq|].
  destruct (wire_finish_wf input supports_image supports_prompt_caching supports_assistant_prefill) as (Hok & Hh & _).
  set (messages := wire_finish _ _ _ _) in *.
  assert (forall m, m ∈ messages -> msg_role m = &"user" \/ msg_role m = &"assistant") as Hrole.
  { intros m Hm. rewrite Forall_forall in Hok, Hh. specialize (Hok m Hm). destruct (Hh m Hm) as [Hne _].
    unfold blocks_ok, is_nonempty in *. destruct (msg_content m); [done|].
    apply Forall_cons in Hok as [[_ [[? _]|[? _]]] _]; auto. }
  split.
  - apply Forall_forall. intros m Hm. split; [by apply Hrole|]. rewrite Forall_forall in Hh.
    destruct (Hh m Hm) as [Hne Hu]. split; [|intros Hr; apply Hu; unfold has_role; by apply str_eqb_eq].
    unfold is_nonempty in Hne. by destruct (msg_content m).
  - intros Hp m Hm. destruct (Hrole m) as [?|Ha]; [by apply last_Some_elem_of|done|].
    assert (exists m', last (append_sentinel (wire_stripped input supports_image)) = Some m' /\ msg_role m' = msg_role m)
      as (m' & Hl & Hr).
    { unfold messages, wire_finish in Hm. rewrite Hp in Hm. cbn [negb] in Hm. destruct supports_prompt_caching; [|eauto].
      apply (f_equal (fmap msg_role)) in Hm. rewrite mark_users_last in Hm.
      destruct (last (append_sentinel _)); cbn in Hm; simplify_eq. eauto. }
    apply append_sentinel_last in Hl. unfold has_role in Hl. by rewrite Hr, Ha, str_eqb_refl in Hl.
Qed.

(** C33: thinking blocks are sent only where the API accepts them: in the last
    assistant message and nowhere else, each one a block recorded verbatim from
    an earlier response (without the internal marker), never one rebuilt from
    parts; and the internal marker is on no block that is sent. *)
Theorem conversation_thinking {codec : WireCodec} input supports_image supports_prompt_caching
    supports_assistant_prefill :
  exists messages,
    conversation_to_anthropic_messages input supports_image supports_prompt_caching supports_assistant_prefill =
      Ok messages /\
    thinking_last messages /\
    forall m b, m ∈ messages -> b ∈ msg_content m ->
      vget RECONSTRUCTED_THINKING_MARKER b = None /\
      (is_thinking b = true ->
       msg_role m = &"assistant" /\
       exists raw, recorded input raw /\ b = obj_remove RECONSTRUCTED_THINKING_MARKER raw).
Proof.
  eexists. split; [apply conversation_eq|].
  destruct (wire_finish_wf input supports_image supports_prompt_caching supports_assistant_prefill) as (Hok & _ & Ht).
  split; [done|]. intros m b Hm Hb. rewrite Forall_forall in Hok. specialize (Hok m Hm).
  unfold blocks_ok in Hok. rewrite Forall_forall in Hok. destruct (Hok b Hb) as [Hk [[Hr Hn]|[Hr Hn]]].
  - split; [done|]. by rewrite Hn.
  - split; [done|]. auto.
Qed.
