(* ===== verification/AnthropicRequest.v ===== *)
(** * provider-anthropic: the request of one turn

    [request.rs] and [model.rs], the tool list of [wire.rs], the model
    capabilities of [models-manager/src/provider_caps.rs], the retention settings
    of [model-provider/src/stream.rs] and [Prompt::get_formatted_input] of
    [prompt/src/lib.rs]. *)
From S2P Require Import Prelude RustStr MachineInt Protocol Json AnthropicWire.

(** ** What this part calls outside the repository

    [str::to_lowercase] (the Unicode tables), the decoding of a shell output and
    the printing of its [f32], and the serialisation of a JSON schema. *)

Record ExecOutputJson := { eo_output : str; eo_exit_code : Z; eo_duration_seconds : str }.

Class RequestEnv := {
  to_lowercase : str -> str;
  decode_exec_output : str -> option ExecOutputJson;
  JsonSchema : Type;
  schema_value : JsonSchema -> Value
}.

(** ** model.rs *)

Inductive ReasoningEffort := EffortNone | EffortMinimal | EffortLow | EffortMedium | EffortHigh | EffortXHigh | EffortMax.

Definition anthropic_effort_param (effort : option ReasoningEffort) : option str :=
  match effort with
  | None => None
  | Some (EffortNone | EffortMinimal) => None
  | Some EffortLow => Some (&"low")
  | Some EffortMedium => Some (&"medium")
  | Some EffortHigh => Some (&"high")
  | Some EffortXHigh => Some (&"max")
  | Some EffortMax => Some (&"max")
  end.

Definition is_anthropic_model (slug : str) : bool := contains_str (&"claude") (to_ascii_lowercase slug).

Definition anthropic_thinking_always_on (model_slug : str) : bool :=
  let s := to_ascii_lowercase model_slug in
  contains_str (&"opus") s && (contains_str (&"4.7") s || contains_str (&"4-7") s).

Definition adaptive : Value := obj [(&"type", VString (&"adaptive"))].

Definition anthropic_thinking_param (effort : option ReasoningEffort) (model_slug : str) : option Value :=
  if anthropic_thinking_always_on model_slug then Some adaptive
  else match effort with
       | None => None
       | Some (EffortNone | EffortMinimal) => None
       | Some _ => Some adaptive
       end.

Definition anthropic_max_output_tokens {env : RequestEnv} (slug : str) : N :=
  let normalized := to_lowercase slug in
  (if starts_with (&"claude") normalized then
     if contains_str (&"opus") normalized then 128000
     else if contains_str (&"haiku") normalized then 8192
     else 64000
   else 64000)%N.

Inductive WireApi := MessagesApi | ResponsesApi.

(** [AnthropicMessagesProvider::effective_wire_api] *)
Definition effective_wire_api (model_slug : str) : WireApi :=
  if is_anthropic_model model_slug then MessagesApi else ResponsesApi.

(** ** provider_caps.rs *)

Record ProviderCaps := {
  max_output_tokens : option Z;
  supports_prompt_caching : bool;
  supports_assistant_prefill : bool;
  supports_1h_cache : bool
}.

Record ProviderCapsPatch := {
  patch_max_output_tokens : option (option Z);
  patch_supports_prompt_caching : option bool;
  patch_supports_assistant_prefill : option bool;
  patch_supports_1h_cache : option bool
}.

Inductive ModelFamily := Claude | Gemini | Gpt5 | Unknown.

Definition classify_model_family (slug : str) : ModelFamily :=
  let s := to_ascii_lowercase slug in
  if contains_str (&"claude") s then Claude
  else if contains_str (&"gemini") s then Gemini
  else if starts_with (&"gpt-5") s then Gpt5
  else Unknown.

Definition claude_max_output_tokens {env : RequestEnv} (slug : str) : Z :=
  let normalized := to_lowercase slug in
  (if contains_str (&"opus") normalized then 128000
   else if contains_str (&"haiku") normalized then 8192
   else 64000)%Z.

Definition gemini_max_output_tokens (slug : str) : Z :=
  let s := to_ascii_lowercase slug in
  (if contains_str (&"3.") s || contains_str (&"3-") s then 65536 else 8192)%Z.

Definition claude_supports_assistant_prefill (slug : str) (family : ModelFamily) : bool :=
  match family with Claude => false | _ => false end.

Definition MODELS_SUPPORTING_1H_CACHE : list str :=
  [ &"claude-opus-4"; &"claude-sonnet-4"; &"claude-haiku-4"; &"claude-haiku-3-5"; &"claude-3-5-haiku";
    &"claude-3-5-sonnet"; &"claude-3-7-sonnet" ].

Definition claude_supports_1h_cache (slug : str) (family : ModelFamily) : bool :=
  match family with
  | Claude => let s := to_ascii_lowercase slug in existsb (fun prefix => contains_str prefix s) MODELS_SUPPORTING_1H_CACHE
  | _ => false
  end.

Definition static_for_slug {env : RequestEnv} (slug : str) : ProviderCaps :=
  let family := classify_model_family slug in
  {| max_output_tokens := match family with
                          | Claude => Some (claude_max_output_tokens slug)
                          | Gemini => Some (gemini_max_output_tokens slug)
                          | _ => None
                          end;
     supports_prompt_caching := match family with Claude | Gemini | Gpt5 => true | Unknown => false end;
     supports_assistant_prefill := claude_supports_assistant_prefill slug family;
     supports_1h_cache := claude_supports_1h_cache slug family |}.

(** The process-wide table [OVERRIDES]; the lock is never poisoned because no
    code panics while it holds it. *)
Abbreviation overrides := (gmap str ProviderCaps).

Definition for_model {env : RequestEnv} (o : overrides) (slug : str) : ProviderCaps :=
  match o !! slug with Some caps => caps | None => static_for_slug slug end.

Definition set_override (slug : str) (caps : ProviderCaps) (o : overrides) : overrides := <[slug := caps]> o.

Definition merge_override {env : RequestEnv} (slug : str) (patch : ProviderCapsPatch) (o : overrides) : overrides :=
  let caps := for_model o slug in
  set_override slug
    {| max_output_tokens := default (max_output_tokens caps) (patch_max_output_tokens patch);
       supports_prompt_caching := default (supports_prompt_caching caps) (patch_supports_prompt_caching patch);
       supports_assistant_prefill := default (supports_assistant_prefill caps) (patch_supports_assistant_prefill patch);
       supports_1h_cache := default (supports_1h_cache caps) (patch_supports_1h_cache patch) |} o.

(** ** model-provider/src/stream.rs: retention *)

Inductive CacheRetentionSetting := Ephemeral | OneHour.

Record CacheRetentionByBlockSetting := {
  block_system : option CacheRetentionSetting;
  block_tool : option CacheRetentionSetting;
  block_user_last : option CacheRetentionSetting;
  block_user_previous : option CacheRetentionSetting
}.

Definition resolve_system (b : CacheRetentionByBlockSetting) (d : CacheRetentionSetting) : CacheRetentionSetting :=
  default d (block_system b).
Definition resolve_tool (b : CacheRetentionByBlockSetting) (d : CacheRetentionSetting) : CacheRetentionSetting :=
  default d (block_tool b).

Definition cache_control_value (retention : CacheRetentionSetting) (supports_1h_cache : bool) : Value :=
  match retention with
  | OneHour => if supports_1h_cache
               then obj [(&"type", VString (&"ephemeral")); (&"ttl", VString (&"1h"))]
               else obj [(&"type", VString (&"ephemeral"))]
  | Ephemeral => obj [(&"type", VString (&"ephemeral"))]
  end.

(** ** The tools: tools/src/tool_spec.rs, tools/src/responses_api.rs *)

Record FreeformToolFormat := { format_type : str; format_syntax : str; format_definition : str }.
Record FreeformTool := { freeform_name : str; freeform_description : str; freeform_format : FreeformToolFormat }.

Section tools.
Context {env : RequestEnv}.

Record ResponsesApiTool := {
  tool_name : str;
  tool_description : str;
  tool_strict : bool;
  tool_defer_loading : option bool;
  tool_parameters : JsonSchema;
  tool_output_schema : option Value
}.

Inductive ResponsesApiNamespaceTool := NamespaceFunction (f : ResponsesApiTool).

Record ResponsesApiNamespace := {
  namespace_name : str;
  namespace_description : str;
  namespace_tools : list ResponsesApiNamespaceTool
}.

(** [WebSearch] is sent to no Anthropic model; its settings are one value. *)
Inductive ToolSpec :=
| FunctionTool (f : ResponsesApiTool)
| NamespaceTool (ns : ResponsesApiNamespace)
| ToolSearch (execution description : str) (parameters : JsonSchema)
| ImageGeneration (output_format : str)
| WebSearch (settings : Value)
| Freeform (f : FreeformTool).

Definition tool_object (name description : str) (input_schema : Value) : Value :=
  obj [(&"name", VString name); (&"description", VString description); (&"input_schema", input_schema)].

Definition freeform_description_text (f : FreeformTool) : str :=
  freeform_description f ++ [nl; nl] ++
  &"This is a FREEFORM tool. Put your raw freeform content into the " ++ [34%N] ++ &"input" ++ [34%N] ++
  &" parameter as a single string " ++ [8212%N] ++ &" do NOT wrap it in any other structure." ++ [nl; nl] ++
  &"Format (" ++ format_type (freeform_format f) ++ &" / " ++ format_syntax (freeform_format f) ++ &"): " ++
  format_definition (freeform_format f).

Definition freeform_schema : Value :=
  obj [(&"type", VString (&"object"));
       (&"properties", obj [(&"input", obj [(&"type", VString (&"string"));
                                            (&"description", VString (&"The freeform tool content."))])]);
       (&"required", Array [VString (&"input")]);
       (&"additionalProperties", Bool false)].

Definition tool_objects (tool : ToolSpec) : list Value :=
  match tool with
  | FunctionTool f => [tool_object (tool_name f) (tool_description f) (schema_value (tool_parameters f))]
  | Freeform f => [tool_object (freeform_name f) (freeform_description_text f) freeform_schema]
  | ToolSearch _ description parameters =>
      [tool_object (&"tool_search") description (schema_value parameters)]
  | NamespaceTool ns =>
      map (fun '(NamespaceFunction f) =>
             tool_object (namespace_name ns ++ &"__" ++ tool_name f) (tool_description f)
               (schema_value (tool_parameters f))) (namespace_tools ns)
  | _ => []
  end.

Definition tools_to_anthropic_format (tools : list ToolSpec) : list Value :=
  map_last (obj_insert (&"cache_control") ephemeral) (flat_map tool_objects tools).

(** ** prompt/src/lib.rs *)

Record Prompt := {
  prompt_input : list ResponseItem;
  prompt_tools : list ToolSpec;
  prompt_base_instructions : str
}.

(** [str::parse::<u32>] *)
Fixpoint parse_digits (acc : N) (s : str) : option N :=
  match s with
  | [] => Some acc
  | c :: s => if is_ascii_digit c then
                let acc := (acc * 10 + (c - 48))%N in
                if (acc <? 2 ^ 32)%N then parse_digits acc s else None
              else None
  end.

Definition parse_u32 (s : str) : option N :=
  match s with
  | [] => None
  | c :: rest => if (c =? 43)%N then match rest with [] => None | _ => parse_digits 0 rest end
                 else parse_digits 0 s
  end.

Definition strip_total_output_header (output : str) : option (str * N) :=
  match strip_prefix (&"Total output lines: ") output with
  | None => None
  | Some after_prefix =>
      match split_once nl after_prefix with
      | None => None
      | Some (total_segment, remainder) =>
          match parse_u32 total_segment with
          | None => None
          | Some total_lines => Some (default remainder (strip_prefix [nl] remainder), total_lines)
          end
      end
  end.

Definition show_Z (z : Z) : str := if (z <? 0)%Z then &"-" ++ show_nat (Z.to_nat (- z)) else show_nat (Z.to_nat z).

Definition build_structured_output (parsed : ExecOutputJson) : str :=
  let sections := [&"Exit code: " ++ show_Z (eo_exit_code parsed);
                   &"Wall time: " ++ eo_duration_seconds parsed ++ &" seconds"] in
  let '(sections, output) :=
    match strip_total_output_header (eo_output parsed) with
    | Some (stripped, total_lines) => (sections ++ [&"Total output lines: " ++ show_nat (N.to_nat total_lines)], stripped)
    | None => (sections, eo_output parsed)
    end in
  join [nl] (sections ++ [&"Output:"; output]).

Definition parse_structured_shell_output (raw : str) : option str :=
  build_structured_output <$> decode_exec_output raw.

Definition is_shell_tool_name (name : str) : bool := str_eqb name (&"shell") || str_eqb name (&"container.exec").

Definition text_content (output : FunctionCallOutputPayload) : option str :=
  match body output with BodyText content => Some content | ContentItems _ => None end.

(** The output of a call in [shell_call_ids]; [remove] tells whether it was. *)
Definition reserialize_output (shell_call_ids : gset str) (call_id : str) (output : FunctionCallOutputPayload)
  : gset str * FunctionCallOutputPayload :=
  if decide (call_id ∈ shell_call_ids) then
    (shell_call_ids ∖ {[call_id]},
     match text_content output ≫= parse_structured_shell_output with
     | Some structured => {| body := BodyText structured; success := success output |}
     | None => output
     end)
  else (shell_call_ids, output).

Fixpoint reserialize_shell_outputs (shell_call_ids : gset str) (items : list ResponseItem) : list ResponseItem :=
  match items with
  | [] => []
  | item :: items =>
      match item with
      | LocalShellCall id call_id _ _ =>
          let ids := match (match call_id with Some c => Some c | None => id end) with
                     | Some identifier => shell_call_ids ∪ {[identifier]}
                     | None => shell_call_ids
                     end in
          item :: reserialize_shell_outputs ids items
      | CustomToolCall _ _ call_id name _ =>
          item :: reserialize_shell_outputs
                    (if str_eqb name (&"apply_patch") then shell_call_ids ∪ {[call_id]} else shell_call_ids) items
      | FunctionCall _ name _ _ call_id =>
          item :: reserialize_shell_outputs
                    (if is_shell_tool_name name || str_eqb name (&"apply_patch") then shell_call_ids ∪ {[call_id]}
                     else shell_call_ids) items
      | FunctionCallOutput call_id output =>
          let '(ids, output) := reserialize_output shell_call_ids call_id output in
          FunctionCallOutput call_id output :: reserialize_shell_outputs ids items
      | CustomToolCallOutput call_id name output =>
          let '(ids, output) := reserialize_output shell_call_ids call_id output in
          CustomToolCallOutput call_id name output :: reserialize_shell_outputs ids items
      | _ => item :: reserialize_shell_outputs shell_call_ids items
      end
  end.

Definition is_freeform_apply_patch (tool : ToolSpec) : bool :=
  match tool with Freeform f => str_eqb (freeform_name f) (&"apply_patch") | _ => false end.

Definition get_formatted_input (p : Prompt) : list ResponseItem :=
  if existsb is_freeform_apply_patch (prompt_tools p) then reserialize_shell_outputs ∅ (prompt_input p)
  else prompt_input p.
End tools.

(** ** request.rs *)

Inductive ToolChoice := ChoiceAuto | ChoiceRequired | ChoiceNone | ChoiceSpecific (name : str).

Definition messages_api_tool_choice (tool_choice : option ToolChoice) : Value :=
  match tool_choice with
  | None | Some ChoiceAuto => obj [(&"type", VString (&"auto"))]
  | Some ChoiceRequired => obj [(&"type", VString (&"any"))]
  | Some (ChoiceSpecific name) => obj [(&"type", VString (&"tool")); (&"name", VString name)]
  | Some ChoiceNone => obj [(&"type", VString (&"auto"))]
  end.

Definition system_parts (base_instructions : str) (developer_blocks : list str) : list Value :=
  (match base_instructions with [] => [] | _ => [text_block base_instructions] end) ++ map text_block developer_blocks.

Definition build_system_blocks (base_instructions : str) (developer_blocks : list str)
    (supports_prompt_caching : bool) (system_retention : CacheRetentionSetting) (supports_1h_cache : bool)
  : option (list Value) :=
  let parts := system_parts base_instructions developer_blocks in
  let parts := if supports_prompt_caching
               then map_last (obj_insert (&"cache_control") (cache_control_value system_retention supports_1h_cache)) parts
               else parts in
  match parts with [] => None | _ => Some parts end.

Record ModelInfo := { slug : str; input_modalities : list InputModality }.

Definition is_image_modality (m : InputModality) : bool := match m with ImageModality => true | TextModality => false end.

(** The fields of [MessagesApiRequest]; the sampling knobs are copied by the
    code and left out here, [stream] is always true and [stop_sequences] always
    absent. *)
Record MessagesApiRequest := {
  req_model : str;
  req_messages : list WireMessage;
  req_max_tokens : N;
  req_system : option (list Value);
  req_tools : option (list Value);
  req_tool_choice : option Value;
  req_thinking : option Value;
  req_output_config : option Value;
  req_metadata_user_id : option str
}.

(** [u32::try_from(t).ok()] of an [i64] *)
Definition u32_try_from (t : Z) : option N := if (0 <=? t)%Z && (t <? 2 ^ 32)%Z then Some (Z.to_N t) else None.

Definition build_messages_request {codec : WireCodec} {env : RequestEnv} (o : overrides) (prompt : Prompt)
    (model_info : ModelInfo) (effort : option ReasoningEffort) (tool_choice : option ToolChoice)
    (messages_metadata_user_id : option str) (output_effort_override : option (option str))
    (cache_retention : CacheRetentionSetting) (cache_retention_by_block : CacheRetentionByBlockSetting)
    (model_effort_default : option str) : comp False MessagesApiRequest :=
  let input := get_formatted_input prompt in
  let supports_image := existsb is_image_modality (input_modalities model_info) in
  let provider_caps := for_model o (slug model_info) in
  let use_1h := supports_1h_cache provider_caps in
  let? messages := conversation_to_anthropic_messages input supports_image
                     (supports_prompt_caching provider_caps) (supports_assistant_prefill provider_caps) in
  let anthropic_tools := tools_to_anthropic_format (prompt_tools prompt) in
  let tool_retention := resolve_tool cache_retention_by_block cache_retention in
  let anthropic_tools :=
    map_last (obj_insert (&"cache_control") (cache_control_value tool_retention use_1h)) anthropic_tools in
  let developer_blocks := extract_developer_blocks input in
  let system := build_system_blocks (prompt_base_instructions prompt) developer_blocks
                  (supports_prompt_caching provider_caps)
                  (resolve_system cache_retention_by_block cache_retention) use_1h in
  let model_output_cap :=
    match max_output_tokens provider_caps ≫= u32_try_from with
    | Some t => t
    | None => anthropic_max_output_tokens (slug model_info)
    end in
  let thinking := anthropic_thinking_param effort (slug model_info) in
  let has_tools := match anthropic_tools with [] => false | _ => true end in
  let effort_str :=
    match output_effort_override with
    | Some explicit => explicit
    | None => match anthropic_effort_param effort with Some e => Some e | None => model_effort_default end
    end in
  Ok {| req_model := slug model_info;
        req_messages := messages;
        req_max_tokens := model_output_cap;
        req_system := system;
        req_tools := if has_tools then Some anthropic_tools else None;
        req_tool_choice := if has_tools then Some (messages_api_tool_choice tool_choice) else None;
        req_thinking := thinking;
        req_output_config := (fun e => obj [(&"effort", VString e)]) <$> effort_str;
        req_metadata_user_id := messages_metadata_user_id |}.

(** The headers of [build_messages_extra_headers_with_retention] and when
    [stream] asks for them. *)
Definition needs_1h_beta (cache_retention : CacheRetentionSetting) (by_block : CacheRetentionByBlockSetting) : bool :=
  match cache_retention with OneHour => true | Ephemeral => false end ||
  match by_block with
  | {| block_system := None; block_tool := None; block_user_last := None; block_user_previous := None |} => false
  | _ => true
  end.

(** ** Cache breakpoints

    The [cache_control] values of a request in the order in which the API
    processes them: tools, system, messages. *)

Definition cache_values (blocks : list Value) : list Value := omap (vget (&"cache_control")) blocks.

Definition request_cache_values (r : MessagesApiRequest) : list Value :=
  cache_values (default [] (req_tools r)) ++ cache_values (default [] (req_system r)) ++
  cache_values (req_messages r ≫= msg_content).

Definition uncached (b : Value) : Prop := vget (&"cache_control") b = None.

Lemma cache_values_uncached l : Forall uncached l -> cache_values l = [].
Proof. induction 1 as [|b l Hb _ IH]; [done|]. cbn. by rewrite Hb. Qed.

Lemma cache_values_app l l' : cache_values (l ++ l') = cache_values l ++ cache_values l'.
Proof. apply omap_app. Qed.

Definition is_object (b : Value) : bool := match b with Object _ => true | _ => false end.

(** Marking the last of some objects that carry no breakpoint *)
Lemma cache_values_map_last x l :
  Forall uncached l -> Forall (fun b => is_object b = true) l ->
  cache_values (map_last (obj_insert (&"cache_control") x) l) = match l with [] => [] | _ => [x] end.
Proof.
  intros Hu Ho. destruct (map_last_cases (obj_insert (&"cache_control") x) l) as [[-> ->]|(c & b & -> & ->)]; [done|].
  apply Forall_app in Hu as [Hu _]. apply Forall_app in Ho as [_ Ho]. apply Forall_cons in Ho as [Ho _].
  rewrite cache_values_app, (cache_values_uncached c) by done. destruct b; try done. cbn.
  rewrite field_get_insert. by destruct c.
Qed.

Lemma map_last_twice {A} (f g : A -> A) l : map_last f (map_last g l) = map_last (fun x => f (g x)) l.
Proof.
  unfold map_last at 2 3. destruct l as [|x l _] using rev_ind; [done|]. rewrite last_snoc.
  unfold map_last. rewrite last_snoc, !length_app. cbn. by rewrite !Nat.add_sub, !take_app_length.
Qed.

Lemma obj_insert_twice key x y v : obj_insert key x (obj_insert key y v) = obj_insert key x v.
Proof.
  destruct v as [| | | | |l]; cbn; [done..|]. f_equal. induction l as [|[k z] l IH]; cbn.
  - by rewrite str_eqb_refl.
  - destruct (str_eqb k key) eqn:E; cbn; [by rewrite str_eqb_refl|]. by rewrite E, IH.
Qed.

Lemma tool_objects_uncached {env : RequestEnv} tools :
  Forall uncached (flat_map tool_objects tools) /\
  Forall (fun b => is_object b = true) (flat_map tool_objects tools).
Proof.
  assert (forall t, Forall uncached (tool_objects t) /\ Forall (fun b => is_object b = true) (tool_objects t)) as H.
  { intros []; cbn; split; try (by repeat constructor); apply Forall_fmap, Forall_true; by intros []. }
  induction tools as [|t tools [IH1 IH2]]; [by split|]. cbn. rewrite !Forall_app. destruct (H t). by split_and!.
Qed.

Lemma system_parts_uncached base blocks :
  Forall uncached (system_parts base blocks) /\ Forall (fun b => is_object b = true) (system_parts base blocks).
Proof.
  unfold system_parts. rewrite !Forall_app. split_and!; try (by destruct base; repeat constructor);
    apply Forall_fmap, Forall_true; done.
Qed.

(** ** The breakpoints of the messages *)

Section message_values.
Context {codec : WireCodec} (si : bool) (input : list ResponseItem).
Context (Hraw : forall raw, recorded input raw -> uncached raw).

Local Abbreviation ok := (blocks_ok (fun _ => uncached)).

Lemma translated_uncached : Forall ok (wire_translated input si).
Proof using Hraw.
  apply wire_translated_ok; try done. intros r c _. destruct c; try reflexivity. by destruct si.
Qed.

Lemma strip_thinking_uncached l : Forall ok l -> Forall ok (strip_thinking_from_non_latest_assistant_messages l).
Proof using.
  intros H. unfold strip_thinking_from_non_latest_assistant_messages. case_match; [|done].
  apply Forall_List_filter, Forall_fmap, Forall_forall. intros m (i & m0 & Hm0 & ->)%elem_imap.
  rewrite Forall_forall in H. specialize (H m0 Hm0). unfold blocks_ok in *. cbn. apply Forall_fmap.
  assert (Forall uncached (msg_content (strip_message n i m0))) as Hs.
  { unfold strip_message. repeat case_match; cbn; auto using Forall_List_filter. }
  eapply Forall_impl; [exact Hs|]. intros b Hb. unfold uncached in *. cbn. by rewrite vget_remove_ne.
Qed.

Lemma stripped_uncached : Forall ok (wire_stripped input si).
Proof using Hraw.
  apply strip_thinking_uncached, Forall_fmap.
  assert (Forall ok (wire_cleaned input si)) as H.
  { apply Forall_List_filter, adjacent_fixes_ok, translated_uncached. }
  eapply Forall_impl; [exact H|]. intros m. apply hoist_ok.
Qed.

Lemma sentinel_uncached l : Forall ok l -> Forall ok (append_sentinel l).
Proof using.
  intros H. unfold append_sentinel. repeat case_match; try done; (apply Forall_app; split; [done|]);
    apply Forall_singleton; by repeat constructor.
Qed.
End message_values.

Definition message_values (messages : list WireMessage) : list Value := cache_values (messages ≫= msg_content).

Lemma message_values_app l l' : message_values (l ++ l') = message_values l ++ message_values l'.
Proof. unfold message_values. by rewrite bind_app, cache_values_app. Qed.

Lemma message_values_uncached l : Forall (blocks_ok (fun _ => uncached)) l -> message_values l = [].
Proof.
  intros H. apply cache_values_uncached. induction H as [|m l Hm _ IH]; [constructor|]. cbn. by apply Forall_app.
Qed.

Lemma mark_values m : blocks_ok (fun _ => uncached) m ->
  exists k, k <= 1 /\ message_values [mark_last_block_cache_control m] = replicate k ephemeral.
Proof.
  intros H. unfold message_values, mark_last_block_cache_control. cbn. rewrite app_nil_r.
  destruct (map_last_cases (obj_insert (&"cache_control") ephemeral) (msg_content m))
    as [[_ ->]|(c & b & E & ->)]; [by exists 0; split; [lia|]|].
  unfold blocks_ok in H. rewrite E in H. apply Forall_app in H as [Hc Hb]. apply Forall_cons in Hb as [Hb _].
  rewrite cache_values_app, (cache_values_uncached c) by done.
  destruct b; try (exists 0; by split; [lia|]). exists 1. split; [lia|]. cbn. by rewrite field_get_insert.
Qed.

Lemma mark_users_values k l :
  Forall (blocks_ok (fun _ => uncached)) l ->
  exists n, n <= k /\ message_values (reverse (mark_users k (reverse l))) = replicate n ephemeral.
Proof.
  intros H. apply Forall_reverse in H. revert H. generalize (reverse l) as r. clear l. intros r H. revert k.
  induction H as [|m r Hm Hr IH]; intros k; cbn [mark_users]; [exists 0; split; [lia|done]|].
  destruct (has_role _ m); [destruct k as [|k]|]; rewrite reverse_cons, message_values_app.
  - exists 0. split; [lia|]. rewrite !message_values_uncached; [done|by apply Forall_singleton|by apply Forall_reverse].
  - destruct (IH k) as (n & Hn & ->). destruct (mark_values m Hm) as (n' & Hn' & ->).
    exists (n + n'). split; [lia|]. symmetry. apply replicate_add.
  - destruct (IH k) as (n & Hn & ->). exists n. split; [done|].
    rewrite (message_values_uncached [m]) by by apply Forall_singleton. apply app_nil_r.
Qed.

Lemma conversation_values {codec : WireCodec} input si caching prefill messages :
  (forall raw, recorded input raw -> uncached raw) ->
  conversation_to_anthropic_messages input si caching prefill = Ok messages ->
  exists n, n <= 2 /\ (caching = false -> n = 0) /\ message_values messages = replicate n ephemeral.
Proof.
  intros Hraw H. rewrite conversation_eq in H. simplify_eq. unfold wire_finish.
  set (l := if negb prefill then _ else _).
  assert (Forall (blocks_ok (fun _ => uncached)) l) as Hl.
  { unfold l. case_match; [apply sentinel_uncached|]; by apply stripped_uncached. }
  destruct caching.
  - destruct (mark_users_values 2 l Hl) as (n & Hn & E). exists n. by split_and!.
  - exists 0. rewrite message_values_uncached by done. split_and!; [lia|done..].
Qed.

(** ** Formatting keeps every item but the text of shell outputs *)

Lemma reserialize_recorded {env : RequestEnv} ids items raw :
  recorded (reserialize_shell_outputs ids items) raw -> recorded items raw.
Proof.
  intros (a & b & c & d & e & H). exists a, b, c, d, e. revert ids H.
  induction items as [|i items IH]; intros ids H; [done|].
  destruct i; cbn in H; repeat case_match; apply elem_of_cons in H as [H|H]; try discriminate;
    try (rewrite H; apply list_elem_of_here); apply list_elem_of_further; by eapply IH.
Qed.

Lemma formatted_recorded {env : RequestEnv} p raw :
  recorded (get_formatted_input p) raw -> recorded (prompt_input p) raw.
Proof. unfold get_formatted_input. case_match; [apply reserialize_recorded|done]. Qed.

Lemma system_values base blocks caching retention use_1h :
  cache_values (default [] (build_system_blocks base blocks caching retention use_1h)) =
  if caching && negb (bool_decide (system_parts base blocks = [])) then [cache_control_value retention use_1h] else [].
Proof.
  unfold build_system_blocks. destruct (system_parts_uncached base blocks) as [Hu Ho].
  destruct caching; cbn [andb].
  - pose proof (cache_values_map_last (cache_control_value retention use_1h) _ Hu Ho) as E.
    destruct (map_last _ _) as [|b l] eqn:El; cbn [default from_option id]; rewrite E;
      by destruct (system_parts base blocks).
  - destruct (system_parts base blocks) as [|b l]; [done|]. apply cache_values_uncached, Hu.
Qed.

Lemma tool_values {env : RequestEnv} tools x :
  cache_values (map_last (obj_insert (&"cache_control") x) (tools_to_anthropic_format tools)) =
  match tools_to_anthropic_format tools with [] => [] | _ => [x] end.
Proof.
  unfold tools_to_anthropic_format. destruct (tool_objects_uncached tools) as [Hu Ho].
  rewrite map_last_twice.
  replace (map_last (fun v => obj_insert _ x _) (flat_map tool_objects tools))
    with (map_last (obj_insert (&"cache_control") x) (flat_map tool_objects tools)).
  - rewrite cache_values_map_last by done.
    destruct (map_last_cases (obj_insert (&"cache_control") ephemeral) (flat_map tool_objects tools))
      as [[-> ->]|(c & b & -> & ->)]; [done|]. by destruct c.
  - unfold map_last. destruct (last _); [|done]. by rewrite obj_insert_twice.
Qed.

(** The cache breakpoints of a request, in the order in which the API
    processes them, are exactly: one with the tool retention on the last tool if
    there are tools, one with the system retention on the last system block if
    the model caches and there are any, and at most two five-minute ones on user
    messages, none without caching.  Hence at most four, the limit of the API,
    whatever the history (its recorded blocks carry none of their own). *)
Theorem request_cache_breakpoints {codec : WireCodec} {env : RequestEnv} o prompt model_info effort tool_choice
    user_id override retention by_block effort_default :
  (forall raw, recorded (prompt_input prompt) raw -> vget (&"cache_control") raw = None) ->
  exists r n,
    build_messages_request o prompt model_info effort tool_choice user_id override retention by_block effort_default =
      Ok r /\
    request_cache_values r =
      (match req_tools r with
       | Some _ => [cache_control_value (resolve_tool by_block retention) (supports_1h_cache (for_model o (slug model_info)))]
       | None => []
       end ++
       match req_system r with
       | Some _ => if supports_prompt_caching (for_model o (slug model_info))
                   then [cache_control_value (resolve_system by_block retention)
                           (supports_1h_cache (for_model o (slug model_info)))]
                   else []
       | None => []
       end) ++ replicate n ephemeral /\
    n <= 2 /\ (supports_prompt_caching (for_model o (slug model_info)) = false -> n = 0) /\
    length (request_cache_values r) <= 4.
Proof.
  intros Hraw. unfold build_messages_request. set (caps := for_model o (slug model_info)).
  rewrite conversation_eq. cbn [comp_bind]. set (messages := wire_finish _ _ _ _).
  assert (exists n, n <= 2 /\ (supports_prompt_caching caps = false -> n = 0) /\
    message_values messages = replicate n ephemeral) as (n & Hn & H0 & Hm).
  { eapply conversation_values; [|apply conversation_eq]. intros raw Hr. by apply Hraw, formatted_recorded. }
  eexists _, n. split; [reflexivity|]. unfold request_cache_values. cbn [req_tools req_system req_messages].
  fold (message_values messages). rewrite Hm, system_values, app_assoc.
  pose proof (tool_values (prompt_tools prompt) (cache_control_value (resolve_tool by_block retention) (supports_1h_cache caps))) as Ht.
  assert (forall l1 l2 (l3 : list Value), length l1 <= 1 -> length l2 <= 1 -> l3 = replicate n ephemeral ->
    length ((l1 ++ l2) ++ l3) <= 4) as Hlen.
  { intros l1 l2 l3 H1 H2 ->. rewrite !length_app, length_replicate. lia. }
  assert (forall (c : bool) (x : Value), length (if c then [x] else []) <= 1) as H1 by (intros [] ?; cbn; lia).
  split_and!; [|done|done|].
  - f_equal. f_equal.
    + destruct (map_last_cases (obj_insert (&"cache_control") (cache_control_value (resolve_tool by_block retention) (supports_1h_cache caps)))
        (tools_to_anthropic_format (prompt_tools prompt))) as [[E1 E2]|(c & b & E1 & E2)]; rewrite E2 in *; [done|].
      destruct c; cbn [app default from_option id] in *; rewrite Ht, E1; done.
    + unfold build_system_blocks. destruct (supports_prompt_caching caps); cbn [andb];
        [|by destruct (system_parts _ _)].
      destruct (map_last_cases (obj_insert (&"cache_control") (cache_control_value (resolve_system by_block retention) (supports_1h_cache caps)))
        (system_parts (prompt_base_instructions prompt) (extract_developer_blocks (get_formatted_input prompt)))) as [[E1 E2]|(c & b & E1 & E2)].
      * by rewrite E2, E1.
      * rewrite E2, E1. by destruct c.
  - apply Hlen; [|apply H1|done]. destruct (map_last _ _) eqn:E; cbn [default from_option id]; [cbn; lia|].
    rewrite Ht. destruct (tools_to_anthropic_format _); cbn; lia.
Qed.

(** A codec that knows no JSON and an environment of ASCII text, for the
    concrete request below. *)
Definition plain_codec : WireCodec :=
  {| from_str := fun _ => None; hash_command := fun _ _ => &"0"; hash_arguments := fun _ _ => &"0" |}.
Definition plain_env : RequestEnv :=
  {| to_lowercase := to_ascii_lowercase; decode_exec_output := fun _ => None; JsonSchema := Value;
     schema_value := fun v => v |}.

Definition example_history : list ResponseItem :=
  [ Message None (&"developer") [InputText (&"be brief")] None;
    Message None (&"user") [InputText (&"list the files")] None;
    Reasoning None [] None None None (Some (obj [(&"type", VString (&"thinking")); (&"thinking", VString (&"ls"));
                                                  (&"signature", VString (&"s"))]));
    FunctionCall None (&"shell") None (&"{}") (&"c1");
    Message None (&"user") [InputText (&"now")] None;
    FunctionCallOutput (&"c1") (from_text (&"a.txt"));
    Message None (&"assistant") [OutputText (&"done")] None ].

Definition example_prompt : @Prompt plain_env :=
  {| prompt_input := example_history;
     prompt_tools := [Freeform {| freeform_name := &"apply_patch"; freeform_description := &"Edit files.";
                                  freeform_format := {| format_type := &"grammar"; format_syntax := &"lark";
                                                        format_definition := &"start: x" |} |}];
     prompt_base_instructions := &"You are a coding agent." |}.

Lemma request_cache_breakpoints_witness :
  exists r n,
    @build_messages_request plain_codec plain_env ∅ example_prompt
      {| slug := &"claude-opus-4-6"; input_modalities := [TextModality] |} None None None None Ephemeral
      {| block_system := None; block_tool := None; block_user_last := None; block_user_previous := None |} None = Ok r /\
    n <= 2 /\ length (request_cache_values r) <= 4.
Proof.
  edestruct (@request_cache_breakpoints plain_codec plain_env ∅ example_prompt
    {| slug := &"claude-opus-4-6"; input_modalities := [TextModality] |} None None None None Ephemeral
    {| block_system := None; block_tool := None; block_user_last := None; block_user_previous := None |} None)
    as (r & n & Hr & _ & Hn & _ & Hl); [|eauto].
  intros raw (a & b & c & d & e & H). cbn in H.
  repeat (apply elem_of_cons in H as [H|H]; [simplify_eq; reflexivity|]). by apply not_elem_of_nil in H.
Defined.

(** The translation of the example: the developer message is left to the system
    prompt, the thought of the earlier assistant turn is dropped, the result is
    hoisted before the text typed meanwhile, the last turn is synthetic. *)
Example example_messages :
  @conversation_to_anthropic_messages plain_codec example_history false false false =
  Ok [ {| msg_role := &"user"; msg_content := [text_block (&"list the files")] |};
       {| msg_role := &"assistant"; msg_content := [tool_use_block (&"c1") (&"shell") (obj [])] |};
       {| msg_role := &"user"; msg_content := [tool_result_block (&"c1") (VString (&"a.txt")); text_block (&"now")] |};
       {| msg_role := &"assistant"; msg_content := [text_block (&"done")] |};
       {| msg_role := &"user"; msg_content := [text_block (&"[Continue]")] |} ].
Proof. vm_compute. reflexivity. Qed.

(** ** Names of tools

    A call in the history is named as the tool list advertises the tool. *)
Lemma history_name_advertised {env : RequestEnv} ns f :
  namespace_name ns <> [] -> NamespaceFunction f ∈ namespace_tools ns ->
  exists b, b ∈ tool_objects (NamespaceTool ns) /\
    get_str (&"name") b = Some (flat_mcp_tool_name (tool_name f) (Some (namespace_name ns))).
Proof.
  intros Hn Hf. exists (tool_object (namespace_name ns ++ &"__" ++ tool_name f) (tool_description f)
    (schema_value (tool_parameters f))). split.
  - cbn. apply list_elem_of_fmap. by exists (NamespaceFunction f).
  - cbn. by destruct (namespace_name ns).
Qed.
