(* ===== verification/StreamAccumulator.v ===== *)
(** * provider-anthropic: accumulating a streamed message

    [stream_invariants.rs] guards the events of a stream, and
    [stream_accumulator.rs] folds them into content blocks, usage counters and
    finished items. *)
From S2P Require Import Prelude RustStr MachineInt Protocol Json AnthropicWire.

(** ** stream_invariants.rs *)

Inductive BlockKind := KText | KThinking | KRedactedThinking | KToolUse | KServerToolUse | KCitations.

#[global] Instance BlockKind_eq_dec : EqDecision BlockKind.
Proof. solve_decision. Defined.

Record BlockState := {
  bs_index : N;
  bs_kind : BlockKind;
  bs_thinking_text : option str;
  bs_signature : option str;
  bs_input_json : option str;
  bs_data : option str;
  bs_signature_seen : bool;
  bs_stopped : bool
}.

Inductive StreamInvariantViolation :=
| UnknownEventType (event : str)
| UnknownDeltaSubtype (block_index : N) (delta_type : str)
| StopForUnknownIndex (block_index : N)
| DeltaForUnopenedIndex (block_index : N) (delta_type : str)
| SignatureBeforeThinking (block_index : N)
| DuplicateSignatureDelta (block_index : N)
| UsageMonotonicityViolation (field : str) (previous incoming : N)
| VInStreamError (payload : str).

Definition is_fatal (v : StreamInvariantViolation) : bool :=
  match v with
  | StopForUnknownIndex _ | DeltaForUnopenedIndex _ _ | VInStreamError _ => true
  | _ => false
  end.

Abbreviation block_map := (gmap N BlockState).

Definition contains_key (i : N) (blocks : block_map) : bool :=
  match blocks !! i with Some _ => true | None => false end.

Definition check_content_block_delta (block_index : N) (delta_type : str) (blocks : block_map)
  : option StreamInvariantViolation :=
  if negb (contains_key block_index blocks) then Some (DeltaForUnopenedIndex block_index delta_type) else None.

Definition check_content_block_stop (block_index : N) (blocks : block_map) : option StreamInvariantViolation :=
  if negb (contains_key block_index blocks) then Some (StopForUnknownIndex block_index) else None.

Record UsageSnapshot := {
  prompt_tokens : N;
  completion_tokens : N;
  cached_tokens : N;
  cache_creation_tokens : N
}.

Definition check_usage_monotonicity (incoming previous : UsageSnapshot) : option StreamInvariantViolation :=
  if (0 <? prompt_tokens incoming)%N && (prompt_tokens incoming <? prompt_tokens previous)%N then
    Some (UsageMonotonicityViolation (&"prompt_tokens") (prompt_tokens previous) (prompt_tokens incoming))
  else if (0 <? completion_tokens incoming)%N && (completion_tokens incoming <? completion_tokens previous)%N then
    Some (UsageMonotonicityViolation (&"completion_tokens") (completion_tokens previous) (completion_tokens incoming))
  else None.

(** ** stream_accumulator.rs *)

Inductive WireError :=
| InStreamError (payload : str)
| StreamStateCorruption (v : StreamInvariantViolation).

Inductive StreamEvent :=
| Ping
| ErrorEvent (payload : str)
| UnknownEvent (tag : str)
| ContentBlockStart (index : N) (kind : BlockKind)
| ContentBlockDelta (index : N) (delta_type : str) (text thinking signature partial_json : option str)
| ContentBlockStop (index : N)
| MessageDelta (usage : UsageSnapshot)
| MessageStop.

Record StreamAccumulator := {
  blocks : block_map;
  usage : UsageSnapshot;
  finished_items : list ResponseItem;
  stopped : bool
}.

Definition new_accumulator : StreamAccumulator :=
  {| blocks := ∅;
     usage := {| prompt_tokens := 0; completion_tokens := 0; cached_tokens := 0; cache_creation_tokens := 0 |};
     finished_items := []; stopped := false |}.

Definition set_blocks (b : block_map) (s : StreamAccumulator) : StreamAccumulator :=
  {| blocks := b; usage := usage s; finished_items := finished_items s; stopped := stopped s |}.

Definition block_to_response_item (block : BlockState) : option ResponseItem :=
  match bs_kind block with
  | KThinking =>
      let thinking := default [] (bs_thinking_text block) in
      let signature := default [] (bs_signature block) in
      match thinking with
      | [] => None
      | _ =>
          let raw_block :=
            match signature with
            | [] => obj [(&"type", VString (&"thinking")); (&"thinking", VString thinking)]
            | _ => obj [(&"type", VString (&"thinking")); (&"thinking", VString thinking);
                        (&"signature", VString signature)]
            end in
          Some (Reasoning None [SummaryText thinking] None
                  (match signature with [] => None | _ => Some signature end) None (Some raw_block))
      end
  | KText =>
      match default [] (bs_thinking_text block) with
      | [] => None
      | text => Some (Message None (&"assistant") [OutputText text] None)
      end
  | _ => None
  end.

Definition new_block (index : N) (kind : BlockKind) : BlockState :=
  {| bs_index := index; bs_kind := kind; bs_thinking_text := None; bs_signature := None; bs_input_json := None;
     bs_data := None; bs_signature_seen := false; bs_stopped := false |}.

(** [field.get_or_insert_with(String::new).push_str(t)] *)
Definition push_opt (field : option str) (t : str) : option str := Some (default [] field ++ t).

Definition push_thinking_text (t : str) (b : BlockState) : BlockState :=
  {| bs_index := bs_index b; bs_kind := bs_kind b; bs_thinking_text := push_opt (bs_thinking_text b) t;
     bs_signature := bs_signature b; bs_input_json := bs_input_json b; bs_data := bs_data b;
     bs_signature_seen := bs_signature_seen b; bs_stopped := bs_stopped b |}.

Definition push_signature (sig : str) (b : BlockState) : BlockState :=
  {| bs_index := bs_index b; bs_kind := bs_kind b; bs_thinking_text := bs_thinking_text b;
     bs_signature := push_opt (bs_signature b) sig; bs_input_json := bs_input_json b; bs_data := bs_data b;
     bs_signature_seen := true; bs_stopped := bs_stopped b |}.

Definition push_input_json (partial : option str) (b : BlockState) : BlockState :=
  {| bs_index := bs_index b; bs_kind := bs_kind b; bs_thinking_text := bs_thinking_text b;
     bs_signature := bs_signature b; bs_input_json := push_opt (bs_input_json b) (default [] partial);
     bs_data := bs_data b; bs_signature_seen := bs_signature_seen b; bs_stopped := bs_stopped b |}.

Definition set_stopped (b : BlockState) : BlockState :=
  {| bs_index := bs_index b; bs_kind := bs_kind b; bs_thinking_text := bs_thinking_text b;
     bs_signature := bs_signature b; bs_input_json := bs_input_json b; bs_data := bs_data b;
     bs_signature_seen := bs_signature_seen b; bs_stopped := true |}.

(** The [match] on the subtype of a delta, on the block it is for *)
Definition apply_delta (delta_type : str) (text thinking signature partial_json : option str) (b : BlockState)
  : BlockState :=
  if str_eqb delta_type (&"text_delta") then
    if bool_decide (bs_kind b = KText)
    then match text with Some t => push_thinking_text t b | None => b end else b
  else if str_eqb delta_type (&"thinking_delta") then
    if bool_decide (bs_kind b = KThinking)
    then match thinking with Some t => push_thinking_text t b | None => b end else b
  else if str_eqb delta_type (&"signature_delta") then
    match signature with Some sig => push_signature sig b | None => b end
  else if str_eqb delta_type (&"input_json_delta") then push_input_json partial_json b
  else b.

Definition accumulate_event (event : StreamEvent) (s : StreamAccumulator)
  : StreamAccumulator * comp WireError unit :=
  match event with
  | Ping => (s, Ok tt)
  | ErrorEvent payload => (s, Err (InStreamError payload))
  | UnknownEvent _ => (s, Ok tt)
  | ContentBlockStart index kind => (set_blocks (<[index := new_block index kind]> (blocks s)) s, Ok tt)
  | ContentBlockDelta index delta_type text thinking signature partial_json =>
      let continue :=
        (set_blocks (alter (apply_delta delta_type text thinking signature partial_json) index (blocks s)) s, Ok tt) in
      match check_content_block_delta index delta_type (blocks s) with
      | Some v => if is_fatal v then (s, Err (StreamStateCorruption v)) else continue
      | None => continue
      end
  | ContentBlockStop index =>
      match check_content_block_stop index (blocks s) with
      | Some v => (s, Err (StreamStateCorruption v))
      | None =>
          match blocks s !! index with
          | Some block =>
              let s := set_blocks (delete index (blocks s)) s in
              (match block_to_response_item (set_stopped block) with
               | Some item => {| blocks := blocks s; usage := usage s;
                                 finished_items := finished_items s ++ [item]; stopped := stopped s |}
               | None => s
               end, Ok tt)
          | None => (s, Ok tt)
          end
      end
  | MessageDelta u =>
      (match check_usage_monotonicity u (usage s) with
       | Some _ => s
       | None => {| blocks := blocks s; usage := u; finished_items := finished_items s; stopped := stopped s |}
       end, Ok tt)
  | MessageStop =>
      ({| blocks := blocks s; usage := usage s; finished_items := finished_items s; stopped := true |}, Ok tt)
  end.

(** The events of a stream one after the other; the first error ends it. *)
Fixpoint accumulate_all (events : list StreamEvent) (s : StreamAccumulator) : comp WireError StreamAccumulator :=
  match events with
  | [] => Ok s
  | e :: events => let '(s', r) := accumulate_event e s in let? _ := r in accumulate_all events s'
  end.

(** ** Errors *)

(** What an event must meet to be accepted *)
Definition event_error (e : StreamEvent) (s : StreamAccumulator) : option WireError :=
  match e with
  | ErrorEvent payload => Some (InStreamError payload)
  | ContentBlockDelta i t _ _ _ _ =>
      if contains_key i (blocks s) then None else Some (StreamStateCorruption (DeltaForUnopenedIndex i t))
  | ContentBlockStop i =>
      if contains_key i (blocks s) then None else Some (StreamStateCorruption (StopForUnknownIndex i))
  | _ => None
  end.

Lemma contains_key_true i b : contains_key i b = true <-> exists x, b !! i = Some x.
Proof. unfold contains_key. destruct (b !! i); naive_solver. Qed.

(** An event fails exactly when the provider sends an error or when a delta
    or a stop names a block that is not open, with that error, and then nothing
    of the accumulator has changed; every other event is accepted. *)
Theorem accumulate_event_errors e s :
  match event_error e s with
  | Some err => accumulate_event e s = (s, Err err)
  | None => (accumulate_event e s).2 = Ok tt
  end.
Proof.
  destruct e as [| | |i k|i t ? ? ? ?|i|u|]; cbn [event_error accumulate_event]; try done.
  - unfold check_content_block_delta. by destruct (contains_key i (blocks s)).
  - unfold check_content_block_stop. destruct (contains_key i (blocks s)) eqn:E; [|done].
    apply contains_key_true in E as [x E]. cbn. by rewrite E.
Qed.

(** ** One block among others *)

Definition is_boundary (i : N) (e : StreamEvent) : bool :=
  match e with ContentBlockStart j _ | ContentBlockStop j => N.eqb i j | _ => false end.

(** The effect of an event on the block at [i], when the event neither starts
    nor stops it *)
Definition on_block (i : N) (b : BlockState) (e : StreamEvent) : BlockState :=
  match e with
  | ContentBlockDelta j t text thinking signature partial_json =>
      if N.eqb i j then apply_delta t text thinking signature partial_json b else b
  | _ => b
  end.

Lemma accumulate_event_block i e s s' b :
  is_boundary i e = false -> blocks s !! i = Some b -> accumulate_event e s = (s', Ok tt) ->
  blocks s' !! i = Some (on_block i b e).
Proof.
  destruct e as [| | |j k|j t ? ? ? ?|j|u|]; cbn [is_boundary accumulate_event on_block]; intros Hb Hi H;
    try (by simplify_eq).
  - apply N.eqb_neq in Hb. simplify_eq. cbn. by rewrite lookup_insert_ne.
  - unfold check_content_block_delta in H. destruct (contains_key j (blocks s)) eqn:Ek; cbn in H; [|done].
    simplify_eq. cbn. destruct (N.eqb_spec i j) as [->|Hne].
    + by rewrite lookup_alter_eq, Hi.
    + by rewrite lookup_alter_ne.
  - apply N.eqb_neq in Hb. unfold check_content_block_stop in H.
    destruct (contains_key j (blocks s)) eqn:Ek; cbn in H; [|done].
    destruct (blocks s !! j); [|by simplify_eq]. case_match; simplify_eq; cbn; by rewrite lookup_delete_ne.
  - case_match; by simplify_eq.
Qed.

Lemma accumulate_all_block i events s s' b :
  forallb (fun e => negb (is_boundary i e)) events = true -> blocks s !! i = Some b ->
  accumulate_all events s = Ok s' -> blocks s' !! i = Some (foldl (on_block i) b events).
Proof.
  revert s b. induction events as [|e events IH]; intros s b Hall Hb H; cbn in *; [by simplify_eq|].
  apply andb_true_iff in Hall as [He Hall]. apply negb_true_iff in He.
  destruct (accumulate_event e s) as [s1 [[]| | |]] eqn:E; try done. cbn in H.
  eapply IH; [done| |done]. by eapply accumulate_event_block.
Qed.

Lemma accumulate_all_app events events' s :
  accumulate_all (events ++ events') s = comp_bind (accumulate_all events s) (accumulate_all events').
Proof.
  revert s. induction events as [|e events IH]; intros s; cbn; [done|].
  destruct (accumulate_event e s) as [s1 [[]| | |]]; cbn; [apply IH|done..].
Qed.

(** The text written to the block at [i] of kind [k], and its signature *)
Definition written_piece (k : BlockKind) (i : N) (e : StreamEvent) : option str :=
  match e with
  | ContentBlockDelta j t text thinking _ _ =>
      if N.eqb i j then
        match k with
        | KText => if str_eqb t (&"text_delta") then text else None
        | KThinking => if str_eqb t (&"thinking_delta") then thinking else None
        | _ => None
        end
      else None
  | _ => None
  end.
Definition written (k : BlockKind) (i : N) (events : list StreamEvent) : str := concat (omap (written_piece k i) events).

Definition signature_piece (i : N) (e : StreamEvent) : option str :=
  match e with
  | ContentBlockDelta j t _ _ signature _ =>
      if N.eqb i j && str_eqb t (&"signature_delta") then signature else None
  | _ => None
  end.
Definition signed (i : N) (events : list StreamEvent) : str := concat (omap (signature_piece i) events).

Lemma apply_delta_kind t a b c d x : bs_kind (apply_delta t a b c d x) = bs_kind x.
Proof. unfold apply_delta. by repeat case_match. Qed.

Lemma delta_types_differ t : str_eqb t (&"text_delta") = true ->
  str_eqb t (&"thinking_delta") = false /\ str_eqb t (&"signature_delta") = false.
Proof. by intros ->%str_eqb_eq. Qed.

Lemma thinking_delta_differs t : str_eqb t (&"thinking_delta") = true -> str_eqb t (&"signature_delta") = false.
Proof. by intros ->%str_eqb_eq. Qed.

Lemma on_block_text i b e :
  bs_kind (on_block i b e) = bs_kind b /\
  default [] (bs_thinking_text (on_block i b e)) =
    default [] (bs_thinking_text b) ++ default [] (written_piece (bs_kind b) i e) /\
  default [] (bs_signature (on_block i b e)) =
    default [] (bs_signature b) ++ default [] (signature_piece i e).
Proof.
  destruct e as [| | | |j t text thinking sig json| | |]; cbn [on_block written_piece signature_piece];
    rewrite ?app_nil_r; try done.
  destruct (N.eqb i j); cbn [andb]; [|by rewrite !app_nil_r].
  split; [apply apply_delta_kind|]. unfold apply_delta.
  destruct (str_eqb t (&"text_delta")) eqn:E1.
  { apply delta_types_differ in E1 as [E2 E3]. rewrite E2, E3.
    case_bool_decide as Hk; [rewrite Hk; destruct text|destruct (bs_kind b)]; cbn; by rewrite ?app_nil_r. }
  destruct (str_eqb t (&"thinking_delta")) eqn:E2.
  { rewrite (thinking_delta_differs t E2).
    case_bool_decide as Hk; [rewrite Hk; destruct thinking|destruct (bs_kind b)]; cbn; by rewrite ?app_nil_r. }
  destruct (str_eqb t (&"signature_delta")) eqn:E3.
  { destruct sig, (bs_kind b); cbn; by rewrite ?app_nil_r. }
  destruct (str_eqb t (&"input_json_delta")); destruct (bs_kind b); cbn; by rewrite ?app_nil_r.
Qed.

Lemma concat_omap_cons {A} (f : A -> option str) x l : concat (omap f (x :: l)) = default [] (f x) ++ concat (omap f l).
Proof. cbn. by destruct (f x). Qed.

Lemma fold_block_text i events b :
  let b' := foldl (on_block i) b events in
  bs_kind b' = bs_kind b /\
  default [] (bs_thinking_text b') = default [] (bs_thinking_text b) ++ written (bs_kind b) i events /\
  default [] (bs_signature b') = default [] (bs_signature b) ++ signed i events.
Proof.
  revert b. induction events as [|e events IH]; intros b; cbn [foldl]; [cbn; by rewrite !app_nil_r|].
  destruct (IH (on_block i b e)) as (Hk & Ht & Hs). destruct (on_block_text i b e) as (Hk1 & Ht1 & Hs1).
  unfold written, signed. rewrite !concat_omap_cons, !app_assoc, <- Ht1, <- Hs1, Hk, Hk1. rewrite Hk1 in Ht.
  by rewrite Ht, Hs.
Qed.

(** ** What a block becomes *)

Definition replay_block (text signature : str) : Value :=
  obj ([(&"type", VString (&"thinking")); (&"thinking", VString text)] ++
       match signature with [] => [] | _ => [(&"signature", VString signature)] end).

Definition streamed_items (k : BlockKind) (text signature : str) : list ResponseItem :=
  match k, text with
  | KText, _ :: _ => [Message None (&"assistant") [OutputText text] None]
  | KThinking, _ :: _ =>
      [Reasoning None [SummaryText text] None (match signature with [] => None | _ => Some signature end) None
         (Some (replay_block text signature))]
  | _, _ => []
  end.

Lemma block_item_streamed b :
  option_list (block_to_response_item b) =
  streamed_items (bs_kind b) (default [] (bs_thinking_text b)) (default [] (bs_signature b)).
Proof.
  unfold block_to_response_item, streamed_items. destruct (bs_kind b); try done.
  - by destruct (default [] (bs_thinking_text b)).
  - destruct (default [] (bs_thinking_text b)); [done|]. by destruct (default [] (bs_signature b)).
Qed.

Lemma stop_event i s b :
  blocks s !! i = Some b ->
  exists s', accumulate_event (ContentBlockStop i) s = (s', Ok tt) /\ blocks s' = delete i (blocks s) /\
    finished_items s' = finished_items s ++ option_list (block_to_response_item (set_stopped b)).
Proof.
  intros Hb. cbn [accumulate_event]. unfold check_content_block_stop, contains_key. rewrite Hb. cbn [negb].
  destruct (block_to_response_item (set_stopped b)); eexists; split_and!; try done. cbn. by rewrite app_nil_r.
Qed.

(** Wherever a block is started and whatever is interleaved with its deltas
    on other blocks, stopping it appends to the finished items exactly the
    message or the thought made of the pieces streamed to that block, in order,
    and nothing when there are none; the block is then closed. *)
Theorem streamed_block_finished pre i k mid s :
  forallb (fun e => negb (is_boundary i e)) mid = true ->
  accumulate_all (pre ++ ContentBlockStart i k :: mid) new_accumulator = Ok s ->
  exists s',
    accumulate_all (pre ++ ContentBlockStart i k :: mid ++ [ContentBlockStop i]) new_accumulator = Ok s' /\
    finished_items s' = finished_items s ++ streamed_items k (written k i mid) (signed i mid) /\
    blocks s' = delete i (blocks s).
Proof.
  intros Hmid H.
  assert (blocks s !! i = Some (foldl (on_block i) (new_block i k) mid)) as Hb.
  { rewrite accumulate_all_app in H. inv_comp H. eapply accumulate_all_block; [done| |exact H]. cbn.
    by rewrite lookup_insert_eq. }
  destruct (stop_event i s _ Hb) as (s' & Hs' & Hd & Hf). exists s'. split_and!; [| |done].
  - replace (pre ++ ContentBlockStart i k :: mid ++ [ContentBlockStop i])
      with ((pre ++ ContentBlockStart i k :: mid) ++ [ContentBlockStop i]) by by rewrite <- app_assoc.
    rewrite accumulate_all_app, H. cbn [comp_bind accumulate_all]. by rewrite Hs'.
  - destruct (fold_block_text i mid (new_block i k)) as (Hk & Ht & Hsig).
    rewrite Hf, block_item_streamed. cbn [set_stopped bs_kind bs_thinking_text bs_signature].
    by rewrite Hk, Ht, Hsig.
Qed.

Definition example_events : list StreamEvent :=
  [ ContentBlockDelta 1 (&"thinking_delta") None (Some (&"so ")) None None;
    ContentBlockStart 2 KText;
    ContentBlockDelta 2 (&"text_delta") (Some (&"Hi")) None None None;
    ContentBlockDelta 1 (&"thinking_delta") None (Some (&"then")) None None;
    ContentBlockStop 2;
    ContentBlockDelta 1 (&"signature_delta") None None (Some (&"sig")) None ].

Lemma streamed_block_finished_witness :
  exists s s',
    accumulate_all ([Ping] ++ ContentBlockStart 1 KThinking :: example_events) new_accumulator = Ok s /\
    accumulate_all ([Ping] ++ ContentBlockStart 1 KThinking :: example_events ++ [ContentBlockStop 1]) new_accumulator = Ok s' /\
    finished_items s' = [Message None (&"assistant") [OutputText (&"Hi")] None;
                         Reasoning None [SummaryText (&"so then")] None (Some (&"sig")) None
                           (Some (replay_block (&"so then") (&"sig")))] /\
    blocks s' = ∅.
Proof.
  assert (exists s, accumulate_all ([Ping] ++ ContentBlockStart 1 KThinking :: example_events) new_accumulator = Ok s /\
    finished_items s = [Message None (&"assistant") [OutputText (&"Hi")] None] /\ delete 1%N (blocks s) = ∅)
    as (s & Hs & Hf & Hd).
  { eexists. split; [reflexivity|]. split; reflexivity. }
  edestruct (streamed_block_finished [Ping] 1 KThinking example_events s) as (s' & H1 & H2 & H3);
    [reflexivity|exact Hs|].
  exists s, s'. split_and!; [exact Hs|exact H1| |by rewrite H3]. rewrite H2, Hf. reflexivity.
Defined.

(** A thought received from the stream is replayed verbatim: the item made
    of it is translated back to one assistant block with exactly the text and
    the signature that were streamed, which is not marked as reconstructed, so
    that it may stand in the latest assistant message. *)
Theorem streamed_thought_replayed {codec : WireCodec} si n text signature item :
  item ∈ streamed_items KThinking text signature ->
  exists raw,
    item_blocks si n item = [(&"assistant", [raw])] /\
    is_thinking raw = true /\ is_reconstructed raw = false /\
    get_str (&"thinking") raw = Some text /\
    get_str (&"signature") raw = match signature with [] => None | _ => Some signature end.
Proof.
  unfold streamed_items. destruct text as [|c text]; [by intros ?%not_elem_of_nil|].
  intros ->%list_elem_of_singleton. exists (replay_block (c :: text) signature).
  destruct signature; by split_and!.
Qed.

Lemma streamed_thought_replayed_witness :
  exists raw,
    @item_blocks {| from_str := fun _ => None; hash_command := fun _ _ => []; hash_arguments := fun _ _ => [] |} true 0
      (Reasoning None [SummaryText (&"so")] None (Some (&"sig")) None (Some (replay_block (&"so") (&"sig")))) =
      [(&"assistant", [raw])] /\
    is_thinking raw = true /\ is_reconstructed raw = false /\
    get_str (&"thinking") raw = Some (&"so") /\ get_str (&"signature") raw = Some (&"sig").
Proof.
  apply (@streamed_thought_replayed {| from_str := fun _ => None; hash_command := fun _ _ => []; hash_arguments := fun _ _ => [] |}
    true 0 (&"so") (&"sig")). apply list_elem_of_here.
Defined.

(** ** Usage *)

(** The counters never go down to another positive value, and a snapshot of
    zeros passes the guard and resets them. *)
Lemma usage_guard e s s' :
  accumulate_event e s = (s', Ok tt) ->
  (completion_tokens (usage s') = 0 \/ completion_tokens (usage s) <= completion_tokens (usage s'))%N /\
  (prompt_tokens (usage s') = 0 \/ prompt_tokens (usage s) <= prompt_tokens (usage s'))%N.
Proof.
  destruct e as [| | | |i t ? ? ? ?|i|u|]; cbn [accumulate_event]; intros H; try (simplify_eq; cbn; lia).
  - unfold check_content_block_delta in H. destruct (contains_key i (blocks s)); cbn in H; simplify_eq. cbn. lia.
  - unfold check_content_block_stop in H. destruct (contains_key i (blocks s)); cbn in H; [|done].
    repeat case_match; simplify_eq; cbn; lia.
  - unfold check_usage_monotonicity in H. repeat case_match; simplify_eq; cbn; try lia.
    rewrite andb_false_iff, !N.ltb_ge in *. lia.
Qed.

Lemma zero_usage_resets s :
  usage (accumulate_event (MessageDelta (usage new_accumulator)) s).1 = usage new_accumulator.
Proof. done. Qed.
