(* ===== verification/PathPrefix.v ===== *)
(** * Paths compared by their components

    [Path::starts_with], [strip_prefix], [ancestors], the equality and the order
    of paths, and [AbsolutePathBuf::join]; on normalised absolute paths they are
    operations on the lists of names. *)
From S2P Require Import Prelude RustStr RustPath AbsolutePath ExecPolicy.

(** ** Operations *)

(** [p == q] of [Path] and of everything that holds one *)
Definition path_eqb (p q : str) : bool := bool_decide (components p = components q).

Fixpoint strip_list {A} `{EqDecision A} (pre l : list A) : option (list A) :=
  match pre, l with
  | [], _ => Some l
  | x :: pre, y :: l => if decide (x = y) then strip_list pre l else None
  | _ :: _, [] => None
  end.

(** [path.strip_prefix(base)], the remaining path by its components *)
Definition path_strip_prefix (path base : str) : option (list component) :=
  strip_list (components base) (components path).

(** [path.starts_with(base)] *)
Definition path_starts_with (path base : str) : bool :=
  match path_strip_prefix path base with Some _ => true | None => false end.

(** [path.parent()], and [path.ancestors()] from the path itself upwards; each
    step drops a component, so the number of components is enough fuel. *)
Fixpoint ancestors_fuel (fuel : nat) (path : str) : list str :=
  path :: match fuel with
          | 0 => []
          | S fuel => match parent path with Some p => ancestors_fuel fuel p | None => [] end
          end.
Definition ancestors (path : str) : list str := ancestors_fuel (length (components path)) path.

(** The order of paths: components in order, names by their bytes, which is the
    order of their code points. *)
Definition component_rank (c : component) : nat :=
  match c with RootDir => 0 | CurDir => 1 | ParentDir => 2 | Normal _ => 3 end.
Definition component_ltb (a b : component) : bool :=
  match a, b with
  | Normal x, Normal y => str_leb x y && negb (str_eqb x y)
  | _, _ => component_rank a <? component_rank b
  end.
Definition path_leb (p q : str) : bool :=
  list_leb component_ltb (fun a b => bool_decide (a = b)) (components p) (components q).

(** [sort_by], a stable sort *)
Fixpoint insert_by {A} (leb : A -> A -> bool) (x : A) (l : list A) : list A :=
  match l with
  | [] => [x]
  | y :: l' => if leb x y then x :: l else y :: insert_by leb x l'
  end.
Definition sort_by {A} (leb : A -> A -> bool) (l : list A) : list A := foldr (insert_by leb) [] l.

(** [Vec::dedup] *)
Fixpoint dedup_by {A} (eqb : A -> A -> bool) (l : list A) : list A :=
  match l with
  | x :: ((y :: _) as l') => if eqb x y then dedup_by eqb l' else x :: dedup_by eqb l'
  | _ => l
  end.

(** ** Normalised absolute paths are lists of names *)

Abbreviation good_names := (Forall (fun s => name_ok s = true)).

(** The names of a path; meant for normalised absolute ones *)
Definition names_of (p : str) : list str := omap (fun c => match c with Normal s => Some s | _ => None end) (components p).

Lemma names_of_normals names : omap (fun c => match c with Normal s => Some s | _ => None end) (map Normal names) = names.
Proof. induction names as [|n names IH]; [done|]. cbn. by rewrite IH. Qed.

Lemma names_of_absolute names : good_names names -> names_of (absolute_of names) = names.
Proof.
  intros H. unfold names_of. rewrite components_absolute_of by done. cbn. apply names_of_normals.
Qed.

Lemma normal_absolute_names p :
  normal_absolute p -> p = absolute_of (names_of p) /\ good_names (names_of p) /\
    components p = RootDir :: map Normal (names_of p).
Proof.
  intros (names & -> & H). rewrite names_of_absolute by done. split_and!; [done..|]. by apply components_absolute_of.
Qed.

Lemma absolute_of_normal names : good_names names -> normal_absolute (absolute_of names).
Proof. intros H. by exists names. Qed.

Lemma map_Normal_inj a b : map Normal a = map Normal b -> a = b.
Proof. intros H. rewrite <- (names_of_normals a), H. apply names_of_normals. Qed.

Lemma path_eqb_normal p q : normal_absolute p -> normal_absolute q -> path_eqb p q = true <-> p = q.
Proof.
  intros (Hp & _ & Cp)%normal_absolute_names (Hq & _ & Cq)%normal_absolute_names.
  unfold path_eqb. rewrite bool_decide_eq_true, Cp, Cq. split; [|by intros ->; congruence].
  intros [= H%map_Normal_inj]. by rewrite Hp, Hq, H.
Qed.

Lemma path_eqb_refl p : path_eqb p p = true.
Proof. unfold path_eqb. by apply bool_decide_eq_true_2. Qed.

Lemma names_of_inj p q : normal_absolute p -> normal_absolute q -> names_of p = names_of q -> p = q.
Proof. intros (Hp & _)%normal_absolute_names (Hq & _)%normal_absolute_names H. by rewrite Hp, Hq, H. Qed.

Lemma strip_list_Some {A} `{EqDecision A} (pre l r : list A) : strip_list pre l = Some r <-> l = pre ++ r.
Proof.
  revert l. induction pre as [|x pre IH]; intros l; cbn; [split; [by intros [= ->]|by intros ->]|].
  destruct l as [|y l]; [done|]. case_decide as E; [|split; [done|by intros [= -> _]]].
  subst. rewrite IH. split; [by intros ->|by intros [= ->]].
Qed.

Lemma path_strip_prefix_normal p base r :
  normal_absolute p -> normal_absolute base ->
  path_strip_prefix p base = Some r <-> exists names, r = map Normal names /\ names_of p = names_of base ++ names.
Proof.
  intros (_ & _ & Cp)%normal_absolute_names (_ & _ & Cb)%normal_absolute_names.
  unfold path_strip_prefix. rewrite strip_list_Some, Cp, Cb. split.
  - intros [= H]. exists (drop (length (names_of base)) (names_of p)).
    assert (names_of p = take (length (names_of base)) (names_of p) ++ drop (length (names_of base)) (names_of p)) as Hs
      by by rewrite take_drop.
    rewrite Hs, map_app in H. apply app_inj_1 in H as [H1 H2].
    + apply map_Normal_inj in H1. split; [done|]. by rewrite <- H1 at 1.
    + apply (f_equal length) in H. rewrite <- map_app, take_drop, length_app, !length_map in H.
      rewrite !length_map, length_take. lia.
  - intros (names & -> & ->). by rewrite map_app.
Qed.

Lemma path_starts_with_normal p base :
  normal_absolute p -> normal_absolute base ->
  path_starts_with p base = true <-> names_of base `prefix_of` names_of p.
Proof.
  intros Hp Hb. unfold path_starts_with. destruct (path_strip_prefix p base) as [r|] eqn:E.
  - apply path_strip_prefix_normal in E as (names & _ & H); [|done..]. split; [|done]. intros _. by exists names.
  - split; [done|]. intros [names H]. assert (path_strip_prefix p base = Some (map Normal names)) as Hs; [|congruence].
    apply path_strip_prefix_normal; [done..|]. by exists names.
Qed.

(** ** First matches *)

Lemma omap_ext_elem {A B} (f g : A -> option B) (l : list A) : (forall x, x ∈ l -> f x = g x) -> omap f l = omap g l.
Proof.
  induction l as [|x l IH]; intros H; [done|]. cbn. rewrite (H x) by left. rewrite IH; [done|].
  intros y Hy. apply H. by right.
Qed.

Lemma head_omap_Some {A B} (f : A -> option B) (l : list A) y : head (omap f l) = Some y -> exists x, x ∈ l /\ f x = Some y.
Proof. intros H%head_Some_elem_of. by apply list_elem_of_omap in H. Qed.

(** ** Joining *)

Lemma split_char_nonempty c x : split_char c x <> [].
Proof. destruct x as [|d x]; cbn; [done|]. destruct (_ =? _)%N; [done|]. by destruct (split_char c x). Qed.

Lemma split_char_app_gen c x s : split_char c (x ++ c :: s) = split_char c x ++ split_char c s.
Proof.
  induction x as [|d x IH]; cbn [app split_char]; [by rewrite N.eqb_refl|].
  destruct (N.eqb_spec d c); rewrite IH; [done|]. destruct (split_char c x) as [|p ps] eqn:E; [|done].
  by destruct (split_char_nonempty c x).
Qed.

Lemma path_components_app x y : path_components (x ++ slash :: y) = path_components x ++ path_components y.
Proof. unfold path_components. by rewrite split_char_app_gen, filter_app. Qed.

Lemma path_components_join base p :
  is_absolute p = false -> path_components (path_join base p) = path_components base ++ path_components p.
Proof.
  intros Hp. unfold path_join. rewrite Hp. destruct (str_eqb base []) eqn:E.
  { apply str_eqb_eq in E as ->. done. }
  cbn [orb]. destruct (ends_with [slash] base) eqn:E2; [|apply path_components_app].
  unfold ends_with in E2. destruct (strip_suffix [slash] base) as [x|] eqn:Hs; [|done].
  apply strip_suffix_Some in Hs as ->. rewrite <- (assoc_L (++)). cbn [app].
  rewrite !path_components_app. change (path_components []) with (@nil str). by rewrite app_nil_r.
Qed.

Lemma is_absolute_join base p : is_absolute base = true -> is_absolute (path_join base p) = true.
Proof.
  unfold path_join. intros Hb. destruct (is_absolute p) eqn:E; [done|].
  unfold is_absolute in *. apply starts_with_spec in Hb as [r ->]. destruct (_ || _); by apply starts_with_spec; eexists.
Qed.

Lemma components_join base p :
  is_absolute base = true -> is_absolute p = false ->
  components (path_join base p) = components base ++ map piece_component (path_components p).
Proof.
  intros Hb Hp. unfold components at 1 2. rewrite is_absolute_join, Hb by done.
  rewrite path_components_join by done. by rewrite map_app.
Qed.

Lemma normalize_path_components p names :
  components p = RootDir :: map Normal names -> good_names names -> normalize_path p = absolute_of names.
Proof.
  intros Hc Hn. rewrite <- (normalize_path_id names Hn). unfold normalize_path.
  by rewrite Hc, components_absolute_of.
Qed.

Lemma name_ok_noslash n : name_ok n = true -> slash ∉ n /\ n <> [].
Proof.
  intros [H1 H2%bool_decide_eq_true]%andb_prop. split; [done|]. intros ->. done.
Qed.

Lemma relative_join_not_absolute names : good_names names -> is_absolute (join [slash] names) = false.
Proof.
  destruct names as [|[|c n] names]; intros H; [done| |].
  { by apply Forall_cons in H as [[_ ?]%name_ok_noslash _]. }
  apply Forall_cons in H as [[H _]%name_ok_noslash _]. unfold is_absolute.
  destruct (starts_with [slash] _) eqn:E; [|done]. apply starts_with_spec in E as [r E].
  destruct names; injection E as -> _; set_solver.
Qed.

Lemma path_components_names names : good_names names -> path_components (join [slash] names) = names.
Proof.
  intros H. unfold path_components. destruct names as [|n names]; [done|].
  rewrite split_char_join; [by apply path_components_id|done|].
  eapply Forall_impl; [exact H|]. by intros s [? _]%name_ok_noslash.
Qed.

Lemma piece_component_names names : good_names names -> map piece_component names = map Normal names.
Proof.
  intros Hok. apply map_ext_Forall. eapply Forall_impl; [exact Hok|]. intros s Hs. unfold piece_component, name_ok in *.
  destruct (str_eqb s [dot; dot]); [|done]. by rewrite !orb_true_r in Hs.
Qed.

(** Joining names to a normalised absolute path puts them below it. *)
Lemma normalize_join_names base names :
  normal_absolute base -> good_names names ->
  normalize_path (path_join base (join [slash] names)) = absolute_of (names_of base ++ names).
Proof.
  intros Hb Hn. pose proof (normal_absolute_names _ Hb) as (Eb & Gb & Cb).
  apply normalize_path_components; [|by apply Forall_app].
  rewrite components_join; [|by rewrite Eb; apply absolute_of_is_absolute|by apply relative_join_not_absolute].
  rewrite Cb, path_components_names, piece_component_names by done. by rewrite map_app.
Qed.

(** ** Parents and ancestors *)

Lemma parent_root : parent (absolute_of []) = None.
Proof. done. Qed.

Lemma parent_snoc names n :
  good_names (names ++ [n]) -> parent (absolute_of (names ++ [n])) = Some (absolute_of names).
Proof.
  intros H. unfold parent. rewrite components_absolute_of by done. rewrite map_app. cbn [map].
  change (RootDir :: map Normal names ++ [Normal n]) with ((RootDir :: map Normal names) ++ [Normal n]).
  rewrite reverse_snoc, reverse_cons.
  destruct (reverse (map Normal names) ++ [RootDir]) as [|c cs] eqn:E; [by destruct (reverse _)|].
  rewrite <- E, reverse_app, reverse_involutive. done.
Qed.

Lemma ancestors_fuel_names fuel names :
  length names <= fuel -> good_names names ->
  exists l, ancestors_fuel fuel (absolute_of names) = l ++ [absolute_of []] /\
    Forall normal_absolute (ancestors_fuel fuel (absolute_of names)).
Proof.
  revert names. induction fuel as [|fuel IH]; intros names Hl Hn.
  { destruct names; [|cbn in Hl; lia]. exists []. split; [done|]. constructor; [by exists []|constructor]. }
  induction names as [|n names _] using rev_ind.
  - exists []. cbn [ancestors_fuel]. rewrite parent_root. split; [done|]. constructor; [by exists []|constructor].
  - cbn [ancestors_fuel]. rewrite parent_snoc by done. rewrite length_app in Hl. cbn in Hl.
    destruct (IH names) as (l & -> & Hf); [lia|by apply Forall_app in Hn as [? _]|].
    exists (absolute_of (names ++ [n]) :: l). split; [done|]. constructor; [by exists (names ++ [n])|done].
Qed.

Lemma ancestors_normal p :
  normal_absolute p -> Forall normal_absolute (ancestors p) /\ last (ancestors p) = Some (absolute_of []).
Proof.
  intros Hp. pose proof (normal_absolute_names _ Hp) as (E & G & C). unfold ancestors.
  rewrite C. cbn [length]. rewrite length_map.
  destruct (ancestors_fuel_names (S (length (names_of p))) (names_of p)) as (l & El & Hf); [lia|done|].
  rewrite <- E in El, Hf. split; [done|]. by rewrite El, last_snoc.
Qed.
