(* ===== verification/ShellSafety.v ===== *)
(** * shell-command: which commands run without asking

    [bash.rs] turns the script of [bash -lc] into plain commands,
    [shell_detect.rs] recognises the shell, [command_safety] decides whether the
    commands are known to be safe or look dangerous.  The build is the Unix one
    ([cfg(not(windows))]); [linux] is [cfg!(target_os = "linux")]. *)
From S2P Require Import Prelude RustStr RustPath.

(** ** Syntax trees

    What the code reads of a tree of tree-sitter-bash, a third-party grammar:
    the kind of a node, whether it is named, where it starts, its text
    ([utf8_text], which may fail) and its children. *)

Inductive Node := mk_node {
  kind : str;
  is_named : bool;
  start_byte : nat;
  utf8_text : option str;
  children : list Node
}.

Record Tree := { root_node : Node; has_error : bool }.

(** [tree_sitter::Parser::parse] with the bash grammar *)
Class BashGrammar := { try_parse_shell : str -> option Tree }.

Definition named_children (n : Node) : list Node := List.filter is_named (children n).

(** All nodes of a subtree, the root first *)
Fixpoint nodes (n : Node) : list Node :=
  match n with mk_node k nm sb tx ch => mk_node k nm sb tx ch :: flat_map nodes ch end.

Definition tree_size (n : Node) : nat := length (nodes n).

Definition in_list (l : list str) (s : str) : bool := existsb (str_eqb s) l.

(** ** shell_detect.rs *)

Inductive ShellType := Zsh | Bash | PowerShell | Sh | Cmd.

Definition shell_of_name (s : str) : option ShellType :=
  if str_eqb s (&"zsh") then Some Zsh
  else if str_eqb s (&"sh") then Some Sh
  else if str_eqb s (&"cmd") then Some Cmd
  else if str_eqb s (&"bash") then Some Bash
  else if str_eqb s (&"pwsh") then Some PowerShell
  else if str_eqb s (&"powershell") then Some PowerShell
  else None.

(** The recursion is on a file stem that differs from the path, hence shorter;
    [fuel] bounds it. *)
Fixpoint detect_shell_type_fuel (fuel : nat) (shell_path : str) : comp False (option ShellType) :=
  match shell_of_name shell_path with
  | Some t => Ok (Some t)
  | None =>
      match file_stem shell_path with
      | Some shell_name =>
          if decide (components shell_name = components shell_path) then Ok None
          else match fuel with
               | 0 => Loop
               | S fuel => detect_shell_type_fuel fuel shell_name
               end
      | None => Ok None
      end
  end.

Definition detect_shell_type (shell_path : str) : comp False (option ShellType) :=
  detect_shell_type_fuel (length shell_path) shell_path.

(** ** bash.rs: a sequence of plain commands *)

Definition ALLOWED_KINDS : list str :=
  [ &"program"; &"list"; &"pipeline"; &"command"; &"command_name"; &"word"; &"string"; &"string_content";
    &"raw_string"; &"number"; &"concatenation" ].

Definition ALLOWED_PUNCT_TOKENS : list str := [ &"&&"; &"||"; &";"; &"|"; [34%N]; &"'" ].

Definition is_operator_char (c : char) : bool := contains_char c (&"&;|").

Definition node_allowed (node : Node) : bool :=
  if is_named node then in_list ALLOWED_KINDS (kind node)
  else if existsb is_operator_char (kind node) && negb (in_list ALLOWED_PUNCT_TOKENS (kind node)) then false
  else in_list ALLOWED_PUNCT_TOKENS (kind node) || str_eqb (trim (kind node)) [].

Definition is_command (node : Node) : bool := is_named node && str_eqb (kind node) (&"command").

(** [while let Some(node) = stack.pop()]; the top of the stack is the head of
    the list. *)
Fixpoint walk (fuel : nat) (stack : list Node) (command_nodes : list Node) : comp False (option (list Node)) :=
  match stack with
  | [] => Ok (Some command_nodes)
  | node :: stack =>
      match fuel with
      | 0 => Loop
      | S fuel =>
          if negb (node_allowed node) then Ok None
          else walk fuel (reverse (children node) ++ stack)
                 (if is_command node then command_nodes ++ [node] else command_nodes)
      end
  end.

(** [sort_by_key], a stable sort *)
Fixpoint insert_by {A} (key : A -> nat) (x : A) (l : list A) : list A :=
  match l with
  | [] => [x]
  | y :: l => if key x <=? key y then x :: y :: l else y :: insert_by key x l
  end.
Fixpoint sort_by_key {A} (key : A -> nat) (l : list A) : list A :=
  match l with [] => [] | x :: l => insert_by key x (sort_by_key key l) end.

Definition dquote : char := 34%N.
Definition squote : char := 39%N.

Definition strip_quotes (q : char) (s : str) : option str := strip_prefix [q] s ≫= strip_suffix [q].

Definition parse_double_quoted_string (node : Node) : option str :=
  if negb (str_eqb (kind node) (&"string")) then None
  else if forallb (fun part => str_eqb (kind part) (&"string_content")) (named_children node)
  then utf8_text node ≫= strip_quotes dquote
  else None.

Definition parse_raw_string (node : Node) : option str :=
  if negb (str_eqb (kind node) (&"raw_string")) then None
  else utf8_text node ≫= strip_quotes squote.

Definition is_word_or_number (n : Node) : bool := str_eqb (kind n) (&"word") || str_eqb (kind n) (&"number").

(** The parts of a concatenation *)
Definition parse_part (part : Node) : option str :=
  if is_word_or_number part then utf8_text part
  else if str_eqb (kind part) (&"string") then parse_double_quoted_string part
  else if str_eqb (kind part) (&"raw_string") then parse_raw_string part
  else None.

Definition parse_plain_child (child : Node) : option str :=
  if str_eqb (kind child) (&"command_name") then
    match named_children child with
    | word_node :: _ => if str_eqb (kind word_node) (&"word") then utf8_text word_node else None
    | [] => None
    end
  else if is_word_or_number child then utf8_text child
  else if str_eqb (kind child) (&"string") then parse_double_quoted_string child
  else if str_eqb (kind child) (&"raw_string") then parse_raw_string child
  else if str_eqb (kind child) (&"concatenation") then
    match mapM parse_part (named_children child) with
    | Some parts => match concat parts with [] => None | concatenated => Some concatenated end
    | None => None
    end
  else None.

Definition parse_plain_command_from_node (cmd : Node) : option (list str) :=
  if negb (str_eqb (kind cmd) (&"command")) then None else mapM parse_plain_child (named_children cmd).

Definition try_parse_word_only_commands_sequence (tree : Tree) : comp False (option (list (list str))) :=
  if has_error tree then Ok None
  else
    let root := root_node tree in
    let? found := walk (tree_size root) [root] [] in
    Ok (match found with
        | None => None
        | Some command_nodes => mapM parse_plain_command_from_node (sort_by_key start_byte command_nodes)
        end).

Definition extract_bash_command (command : list str) : comp False (option (str * str)) :=
  match command with
  | [shell; flag; script] =>
      if negb (str_eqb flag (&"-lc") || str_eqb flag (&"-c")) then Ok None
      else
        let? t := detect_shell_type shell in
        Ok (match t with Some (Zsh | Bash | Sh) => Some (shell, script) | _ => None end)
  | _ => Ok None
  end.

Section grammar.
Context {grammar : BashGrammar}.

Definition parse_shell_lc_plain_commands (command : list str) : comp False (option (list (list str))) :=
  let? extracted := extract_bash_command command in
  match extracted with
  | None => Ok None
  | Some (_, script) =>
      match try_parse_shell script with
      | None => Ok None
      | Some tree => try_parse_word_only_commands_sequence tree
      end
  end.
End grammar.

(** ** bash.rs: the command a here-document is attached to *)

Fixpoint has_named_descendant_kind_loop (fuel : nat) (stack : list Node) (k : str) : comp False bool :=
  match stack with
  | [] => Ok false
  | current :: stack =>
      match fuel with
      | 0 => Loop
      | S fuel => if str_eqb (kind current) k then Ok true
                  else has_named_descendant_kind_loop fuel (reverse (named_children current) ++ stack) k
      end
  end.

Definition has_named_descendant_kind (node : Node) (k : str) : comp False bool :=
  has_named_descendant_kind_loop (tree_size node) [node] k.

Fixpoint find_single_command_loop (fuel : nat) (stack : list Node) (single_command : option Node)
  : comp False (option Node) :=
  match stack with
  | [] => Ok single_command
  | node :: stack =>
      match fuel with
      | 0 => Loop
      | S fuel =>
          let rest := reverse (named_children node) ++ stack in
          if str_eqb (kind node) (&"command") then
            match single_command with
            | Some _ => Ok None
            | None => find_single_command_loop fuel rest (Some node)
            end
          else find_single_command_loop fuel rest single_command
      end
  end.

Definition find_single_command_node (root : Node) : comp False (option Node) :=
  find_single_command_loop (tree_size root) [root] None.

Definition is_literal_word_or_number (node : Node) : bool :=
  is_word_or_number node && match named_children node with [] => true | _ => false end.

Definition is_allowed_heredoc_attachment_kind (k : str) : bool :=
  in_list [ &"heredoc_body"; &"simple_heredoc_body"; &"heredoc_redirect"; &"herestring_redirect";
            &"redirected_statement" ] k.

(** A child of a here-document command: [None] rejects, [Some None] adds no
    word. *)
Definition parse_heredoc_child (child : Node) : option (option str) :=
  if str_eqb (kind child) (&"command_name") then
    match named_children child with
    | word_node :: _ => if is_word_or_number word_node && is_literal_word_or_number word_node
                        then Some <$> utf8_text word_node else None
    | [] => None
    end
  else if is_word_or_number child then
    if is_literal_word_or_number child then Some <$> utf8_text child else None
  else if str_eqb (kind child) (&"comment") then Some None
  else if is_allowed_heredoc_attachment_kind (kind child) then Some None
  else None.

Definition parse_heredoc_command_words (cmd : Node) : option (list str) :=
  if negb (str_eqb (kind cmd) (&"command")) then None
  else match mapM parse_heredoc_child (named_children cmd) with
       | Some words => match omap id words with [] => None | words => Some words end
       | None => None
       end.

Definition parse_shell_lc_single_command_prefix {grammar : BashGrammar} (command : list str)
  : comp False (option (list str)) :=
  let? extracted := extract_bash_command command in
  match extracted with
  | None => Ok None
  | Some (_, script) =>
      match try_parse_shell script with
      | None => Ok None
      | Some tree =>
          let root := root_node tree in
          if has_error tree then Ok None
          else
            let? heredoc := has_named_descendant_kind root (&"heredoc_redirect") in
            if negb heredoc then Ok None
            else
              let? redirect := has_named_descendant_kind root (&"file_redirect") in
              if redirect then Ok None
              else
                let? command_node := find_single_command_node root in
                Ok (command_node ≫= parse_heredoc_command_words)
      end
  end.

(** ** is_dangerous_command.rs *)

Definition is_git_global_option_with_value (arg : str) : bool :=
  in_list [ &"-C"; &"-c"; &"--config-env"; &"--exec-path"; &"--git-dir"; &"--namespace"; &"--super-prefix";
            &"--work-tree" ] arg.

Definition is_git_global_option_with_inline_value (arg : str) : bool :=
  existsb (fun p => starts_with p arg)
    [ &"--config-env="; &"--exec-path="; &"--git-dir="; &"--namespace="; &"--super-prefix="; &"--work-tree=" ] ||
  ((starts_with (&"-C") arg || starts_with (&"-c") arg) && (2 <? utf8_len arg)).

Definition executable_name_lookup_key (raw : str) : option str := file_name raw.

(** The loop over [command.iter().enumerate().skip(1)] *)
Fixpoint git_subcommand_loop (subcommands : list str) (idx : nat) (skip_next : bool) (args : list str)
  : option (nat * str) :=
  match args with
  | [] => None
  | arg :: args =>
      if skip_next then git_subcommand_loop subcommands (S idx) false args
      else if is_git_global_option_with_inline_value arg then git_subcommand_loop subcommands (S idx) false args
      else if is_git_global_option_with_value arg then git_subcommand_loop subcommands (S idx) true args
      else if str_eqb arg (&"--") || starts_with (&"-") arg then git_subcommand_loop subcommands (S idx) false args
      else if in_list subcommands arg then Some (idx, arg)
      else None
  end.

Definition find_git_subcommand (command : list str) (subcommands : list str) : option (nat * str) :=
  match command with
  | [] => None
  | cmd0 :: args =>
      if bool_decide (executable_name_lookup_key cmd0 = Some (&"git")) then git_subcommand_loop subcommands 1 false args
      else None
  end.

Fixpoint is_dangerous_to_call_with_exec (command : list str) : bool :=
  match command with
  | [] => false
  | cmd0 :: args =>
      if str_eqb cmd0 (&"rm") then
        match args with arg :: _ => str_eqb arg (&"-f") || str_eqb arg (&"-rf") | [] => false end
      else if str_eqb cmd0 (&"sudo") then is_dangerous_to_call_with_exec args
      else false
  end.

Definition command_might_be_dangerous {grammar : BashGrammar} (command : list str) : comp False bool :=
  if is_dangerous_to_call_with_exec command then Ok true
  else
    let? all_commands := parse_shell_lc_plain_commands command in
    Ok (match all_commands with
        | Some all_commands => existsb is_dangerous_to_call_with_exec all_commands
        | None => false
        end).

(** ** is_safe_command.rs *)

Inductive GitOptionPattern := Exact (option : str) | ShortWithInlineValue (option : str) | Prefix (prefix : str).

Definition pattern_matches (p : GitOptionPattern) (arg : str) : bool :=
  match p with
  | Exact option => str_eqb arg option
  | ShortWithInlineValue option => starts_with option arg && (utf8_len option <? utf8_len arg)
  | Prefix prefix => starts_with prefix arg
  end.

Definition UNSAFE_GIT_GLOBAL_OPTIONS : list GitOptionPattern :=
  [ Exact (&"-C"); ShortWithInlineValue (&"-C"); Exact (&"-c"); ShortWithInlineValue (&"-c"); Exact (&"-p");
    Exact (&"--config-env"); Prefix (&"--config-env="); Exact (&"--exec-path"); Prefix (&"--exec-path=");
    Exact (&"--git-dir"); Prefix (&"--git-dir="); Exact (&"--namespace"); Prefix (&"--namespace=");
    Exact (&"--paginate"); Exact (&"--super-prefix"); Prefix (&"--super-prefix=");
    Exact (&"--work-tree"); Prefix (&"--work-tree=") ].

Definition UNSAFE_GIT_SUBCOMMAND_OPTIONS : list GitOptionPattern :=
  [ Exact (&"--output"); Prefix (&"--output="); Exact (&"--ext-diff"); Exact (&"--textconv"); Exact (&"--exec");
    Prefix (&"--exec=") ].

Definition git_matches_option_pattern (arg : str) (patterns : list GitOptionPattern) : bool :=
  existsb (fun p => pattern_matches p arg) patterns.

Definition git_has_unsafe_global_option (global_args : list str) : bool :=
  existsb (fun arg => git_matches_option_pattern arg UNSAFE_GIT_GLOBAL_OPTIONS) global_args.

Definition git_subcommand_args_are_read_only (args : list str) : bool :=
  negb (existsb (fun arg => git_matches_option_pattern arg UNSAFE_GIT_SUBCOMMAND_OPTIONS) args).

Definition is_branch_listing_flag (arg : str) : bool :=
  in_list [ &"--list"; &"-l"; &"--show-current"; &"-a"; &"--all"; &"-r"; &"--remotes"; &"-v"; &"-vv"; &"--verbose" ] arg
  || starts_with (&"--format=") arg.

(** The loop; [saw_read_only_flag] is set by every argument that passes. *)
Fixpoint branch_loop (saw_read_only_flag : bool) (branch_args : list str) : bool :=
  match branch_args with
  | [] => saw_read_only_flag
  | arg :: branch_args => if is_branch_listing_flag arg then branch_loop true branch_args else false
  end.

Definition git_branch_is_read_only (branch_args : list str) : bool :=
  match branch_args with [] => true | _ => branch_loop false branch_args end.

Definition GIT_QUERIES : list str := [ &"status"; &"log"; &"diff"; &"show"; &"branch" ].

Definition is_safe_git_command (debug : bool) (command : list str) : comp False bool :=
  match find_git_subcommand command GIT_QUERIES with
  | None => Ok false
  | Some (subcommand_idx, subcommand) =>
      let? global_args := slice 1 subcommand_idx command in
      if git_has_unsafe_global_option global_args then Ok false
      else
        let? subcommand_args := slice_from (subcommand_idx + 1) command in
        if in_list [ &"status"; &"log"; &"diff"; &"show" ] subcommand
        then Ok (git_subcommand_args_are_read_only subcommand_args)
        else if str_eqb subcommand (&"branch")
        then Ok (git_subcommand_args_are_read_only subcommand_args && git_branch_is_read_only subcommand_args)
        else if debug then Panic else Ok false
  end.

Definition all_digits (s : str) : bool := forallb is_ascii_digit s.

Definition is_valid_sed_n_arg (arg : option str) : bool :=
  match arg with
  | None => false
  | Some s =>
      match strip_suffix (&"p") s with
      | None => false
      | Some core =>
          match split_char 44%N core with
          | [num] => negb (str_eqb num []) && all_digits num
          | [a; b] => negb (str_eqb a []) && negb (str_eqb b []) && all_digits a && all_digits b
          | _ => false
          end
      end
  end.

Definition READ_ONLY_COMMANDS : list str :=
  [ &"cat"; &"cd"; &"cut"; &"echo"; &"expr"; &"false"; &"grep"; &"head"; &"id"; &"ls"; &"nl"; &"paste"; &"pwd";
    &"rev"; &"seq"; &"stat"; &"tail"; &"tr"; &"true"; &"uname"; &"uniq"; &"wc"; &"which"; &"whoami" ].

Definition base64_unsafe (arg : str) : bool :=
  in_list [ &"-o"; &"--output" ] arg || starts_with (&"--output=") arg ||
  (starts_with (&"-o") arg && negb (str_eqb arg (&"-o"))).

Definition UNSAFE_FIND_OPTIONS : list str :=
  [ &"-exec"; &"-execdir"; &"-ok"; &"-okdir"; &"-delete"; &"-fls"; &"-fprint"; &"-fprint0"; &"-fprintf" ].

Definition rg_unsafe (arg : str) : bool :=
  in_list [ &"--search-zip"; &"-z" ] arg ||
  existsb (fun opt => str_eqb arg opt || starts_with (opt ++ &"=") arg) [ &"--pre"; &"--hostname-bin" ].

Definition is_safe_to_call_with_exec (linux debug : bool) (command : list str) : comp False bool :=
  match command with
  | [] => Ok false
  | cmd0 :: args =>
      match executable_name_lookup_key cmd0 with
      | None => Ok false
      | Some cmd =>
          if linux && in_list [ &"numfmt"; &"tac" ] cmd then Ok true
          else if in_list READ_ONLY_COMMANDS cmd then Ok true
          else if str_eqb cmd (&"base64") then Ok (negb (existsb base64_unsafe args))
          else if str_eqb cmd (&"find") then Ok (negb (existsb (in_list UNSAFE_FIND_OPTIONS) command))
          else if str_eqb cmd (&"rg") then Ok (negb (existsb rg_unsafe command))
          else if str_eqb cmd (&"git") then is_safe_git_command debug command
          else if str_eqb cmd (&"sed") then
            Ok ((length command <=? 4) && bool_decide (command !! 1 = Some (&"-n")) && is_valid_sed_n_arg (command !! 2))
          else Ok false
      end
  end.

(** [all_commands.iter().all(..)] *)
Fixpoint all_safe (linux debug : bool) (commands : list (list str)) : comp False bool :=
  match commands with
  | [] => Ok true
  | cmd :: commands =>
      let? safe := is_safe_to_call_with_exec linux debug cmd in
      if safe then all_safe linux debug commands else Ok false
  end.

Definition is_known_safe_command {grammar : BashGrammar} (linux debug : bool) (command : list str) : comp False bool :=
  let command := map (fun s => if str_eqb s (&"zsh") then &"bash" else s) command in
  let? direct := is_safe_to_call_with_exec linux debug command in
  if direct then Ok true
  else
    let? all_commands := parse_shell_lc_plain_commands command in
    match all_commands with
    | Some ((_ :: _) as all_commands) => all_safe linux debug all_commands
    | _ => Ok false
    end.

(** ** The walk visits the whole tree *)

Lemma nodes_cons n : nodes n = n :: flat_map nodes (children n).
Proof. by destruct n. Qed.

Definition forest (l : list Node) : list Node := flat_map nodes l.

Lemma forest_cons n l : forest (n :: l) = n :: forest (children n) ++ forest l.
Proof. unfold forest. cbn [flat_map]. by rewrite nodes_cons. Qed.

Lemma forest_app l l' : forest (l ++ l') = forest l ++ forest l'.
Proof. apply flat_map_app. Qed.

Lemma forest_reverse l : forest (reverse l) ≡ₚ forest l.
Proof.
  induction l as [|n l IH]; [done|]. rewrite reverse_cons, forest_app, IH. cbn. rewrite app_nil_r.
  apply Permutation_app_comm.
Qed.

Lemma forest_push n stack : n :: forest (reverse (children n) ++ stack) ≡ₚ forest (n :: stack).
Proof. rewrite forest_cons, forest_app. by rewrite forest_reverse. Qed.

Lemma filter_perm {A} (p : A -> bool) l l' : l ≡ₚ l' -> List.filter p l ≡ₚ List.filter p l'.
Proof.
  induction 1 as [|x l l' _ IH|x y l|l l' l'' _ IH1 _ IH2]; cbn; [done| |destruct (p x), (p y); try done; apply perm_swap|by etrans].
  destruct (p x); by rewrite IH.
Qed.

Lemma walk_spec fuel stack acc :
  length (forest stack) <= fuel ->
  exists r, walk fuel stack acc = Ok r /\
    match r with
    | None => exists n, n ∈ forest stack /\ node_allowed n = false
    | Some found => Forall (fun n => node_allowed n = true) (forest stack) /\
                    found ≡ₚ acc ++ List.filter is_command (forest stack)
    end.
Proof.
  revert stack acc. induction fuel as [|fuel IH]; intros [|n stack] acc Hf;
    try (eexists; split; [reflexivity|]; cbn; split; [constructor|by rewrite app_nil_r]).
  { rewrite forest_cons in Hf. cbn in Hf. lia. }
  cbn [walk]. destruct (node_allowed n) eqn:En; cbn [negb].
  2: { eexists. split; [reflexivity|]. exists n. split; [|done]. rewrite forest_cons. apply list_elem_of_here. }
  pose proof (forest_push n stack) as Hp.
  destruct (IH (reverse (children n) ++ stack) (if is_command n then acc ++ [n] else acc)) as (r & Hr & Hspec).
  { apply Permutation_length in Hp. rewrite <- Hp in Hf. cbn [length] in Hf. lia. }
  exists r. split; [done|]. destruct r as [found|].
  - destruct Hspec as [Hall Hc]. split; [rewrite <- Hp; by constructor|].
    rewrite Hc, <- (filter_perm is_command _ _ Hp). cbn [List.filter]. destruct (is_command n); [|done].
    by rewrite <- app_assoc.
  - destruct Hspec as (m & Hm & Ha). exists m. split; [|done]. rewrite <- Hp. by apply list_elem_of_further.
Qed.

Lemma insert_by_perm {A} (key : A -> nat) x l : insert_by key x l ≡ₚ x :: l.
Proof. induction l as [|y l IH]; cbn; [done|]. case_match; [done|]. rewrite IH. constructor. Qed.

Lemma sort_by_key_perm {A} (key : A -> nat) l : sort_by_key key l ≡ₚ l.
Proof. induction l as [|x l IH]; cbn; [done|]. by rewrite insert_by_perm, IH. Qed.

Lemma mapM_Some_elem {A B} (f : A -> option B) l k :
  mapM f l = Some k -> (forall x, x ∈ l -> exists y, f x = Some y /\ y ∈ k) /\ length k = length l.
Proof.
  intros H%mapM_Some. split; [|by symmetry; eapply Forall2_length].
  intros x Hx. apply list_elem_of_lookup in Hx as [i Hi].
  destruct (Forall2_lookup_l _ _ _ _ _ H Hi) as (y & Hy & Hf). exists y. split; [done|].
  by eapply list_elem_of_lookup_2.
Qed.

Lemma word_only_spec tree :
  exists r, try_parse_word_only_commands_sequence tree = Ok r /\
    forall commands, r = Some commands ->
      has_error tree = false /\ Forall (fun n => node_allowed n = true) (nodes (root_node tree)) /\
      length commands = length (List.filter is_command (nodes (root_node tree))) /\
      forall n, n ∈ nodes (root_node tree) -> is_command n = true ->
        exists words, parse_plain_command_from_node n = Some words /\ words ∈ commands.
Proof.
  unfold try_parse_word_only_commands_sequence. destruct (has_error tree); [by eexists; split|].
  destruct (walk_spec (tree_size (root_node tree)) [root_node tree] []) as (r & Hr & Hspec).
  { unfold tree_size, forest. cbn. by rewrite app_nil_r. }
  rewrite Hr. cbn [comp_bind]. eexists. split; [reflexivity|]. intros commands Hc.
  destruct r as [found|]; [|done]. cbn [app] in Hspec. unfold forest in Hspec. cbn in Hspec. rewrite app_nil_r in Hspec.
  destruct Hspec as [Hall Hf]. apply mapM_Some_elem in Hc as [Hin Hlen].
  split_and!; [done..| |].
  - by rewrite Hlen, sort_by_key_perm, Hf.
  - intros n Hn Hcmd. apply Hin. rewrite sort_by_key_perm, Hf, list_elem_of_In, filter_In.
    by rewrite <- list_elem_of_In.
Qed.

(** ** Recognising the shell ends *)

Lemma split_char_elem c s x : x ∈ split_char c s -> exists a b, s = a ++ x ++ b.
Proof.
  revert x. induction s as [|d s IH]; intros x; cbn.
  - intros ->%list_elem_of_singleton. by exists [], [].
  - destruct (N.eqb_spec d c) as [->|_].
    + intros [->|Hx]%elem_of_cons; [by exists [], (c :: s)|].
      destruct (IH x Hx) as (a & b & ->). by exists (c :: a), b.
    + destruct (split_char c s) as [|y l] eqn:E.
      * intros ->%list_elem_of_singleton. exists [], s. done.
      * intros [->|Hx]%elem_of_cons.
        -- assert (exists b, s = y ++ b) as [b ->].
           { revert E. clear. revert y l. induction s as [|d s IH]; intros y l; cbn; [intros; simplify_eq; by exists []|].
             destruct (d =? c)%N; [intros; simplify_eq; by exists (d :: s)|].
             destruct (split_char c s) as [|z l'] eqn:E; intros; simplify_eq; [by exists s|].
             destruct (IH z _ eq_refl) as [b ->]. by exists b. }
           by exists [], b.
        -- destruct (IH x) as (a & b & ->); [by apply list_elem_of_further|]. by exists (d :: a), b.
Qed.

Lemma file_name_substring p s : file_name p = Some s -> exists a b, p = a ++ s ++ b.
Proof.
  unfold file_name. destruct (last (path_components p)) as [c|] eqn:E; [|done]. case_match; [done|]. intros; simplify_eq.
  apply last_Some_elem_of in E. unfold path_components in E. apply list_elem_of_filter in E as [_ E].
  by eapply split_char_elem.
Qed.

Lemma file_stem_shorter p s : file_stem p = Some s -> length s < length p \/ s = p.
Proof.
  unfold file_stem. destruct (file_name p) as [f|] eqn:E; [|done].
  apply file_name_substring in E as (a & b & ->). intros H.
  assert (exists t, f = s ++ t) as [t ->].
  { destruct (rsplit_once dot f) as [[x y]|] eqn:Er; [|simplify_eq; exists []; by rewrite app_nil_r].
    apply rsplit_once_spec in Er as [-> _]. destruct x; simplify_eq; [exists []; by rewrite app_nil_r|by eexists]. }
  destruct a; [|left; solve_len]. destruct t as [|? t]; [|left; solve_len]. rewrite app_nil_r.
  destruct b; [right; by rewrite app_nil_r|left; solve_len].
Qed.

Lemma detect_shell_type_ok fuel p : length p <= fuel -> exists t, detect_shell_type_fuel fuel p = Ok t.
Proof.
  revert p. induction fuel as [|fuel IH]; intros p Hl; cbn [detect_shell_type_fuel];
    (destruct (shell_of_name p); [by eexists|]); (destruct (file_stem p) as [s|] eqn:E; [|by eexists]);
    (case_decide as Hd; [by eexists|]); destruct (file_stem_shorter p s E) as [Hs| ->]; try done.
  - lia.
  - apply IH. lia.
Qed.

Lemma plain_commands_spec {grammar : BashGrammar} command :
  exists r, parse_shell_lc_plain_commands command = Ok r /\
    forall commands, r = Some commands ->
      exists shell flag script tree t,
        command = [shell; flag; script] /\ (flag = &"-lc" \/ flag = &"-c") /\
        detect_shell_type shell = Ok (Some t) /\ (t = Zsh \/ t = Bash \/ t = Sh) /\
        try_parse_shell script = Some tree /\
        try_parse_word_only_commands_sequence tree = Ok (Some commands).
Proof.
  unfold parse_shell_lc_plain_commands, extract_bash_command.
  destruct command as [|shell [|flag [|script [|]]]]; try (by eexists; split).
  destruct (_ || _) eqn:Ef; cbn [negb]; [|by eexists; split].
  destruct (detect_shell_type_ok (length shell) shell ltac:(lia)) as [t Ht].
  fold (detect_shell_type shell) in Ht. rewrite Ht. cbn [comp_bind].
  assert (flag = &"-lc" \/ flag = &"-c") as Hflag by by apply orb_true_iff in Ef as [?%str_eqb_eq|?%str_eqb_eq]; auto.
  destruct t as [t|]; [|by eexists; split].
  destruct (try_parse_shell script) as [tree|] eqn:Et.
  - destruct (word_only_spec tree) as (r & Hr & _).
    destruct t; cbv iota; rewrite ?Et; (eexists; split; [exact Hr || reflexivity|]); try done; intros commands ->; eauto 15.
  - destruct t; cbv iota; rewrite ?Et; (eexists; split; [reflexivity|done]).
Qed.

(** ** git *)

Lemma in_list_elem l s : in_list l s = true <-> s ∈ l.
Proof.
  unfold in_list. rewrite existsb_exists. setoid_rewrite str_eqb_eq. setoid_rewrite <- list_elem_of_In. naive_solver.
Qed.

(** Options whose value is the next word are among the unsafe ones, so none is
    skipped in an accepted command. *)
Lemma global_option_unsafe arg :
  is_git_global_option_with_inline_value arg = true \/ is_git_global_option_with_value arg = true ->
  git_matches_option_pattern arg UNSAFE_GIT_GLOBAL_OPTIONS = true.
Proof.
  unfold git_matches_option_pattern. intros [H|H].
  - unfold is_git_global_option_with_inline_value in H. apply orb_true_iff in H as [H|H].
    + apply existsb_exists in H as (p & Hp & Hs). apply existsb_exists. exists (Prefix p). split; [|done].
      cbn in Hp. cbn. repeat (destruct Hp as [<-|Hp]; [auto 20|]). done.
    + apply andb_true_iff in H as [H Hl]. apply existsb_exists. apply orb_true_iff in H as [H|H].
      * exists (ShortWithInlineValue (&"-C")). split; [cbn; auto|]. cbn [pattern_matches]. by rewrite H.
      * exists (ShortWithInlineValue (&"-c")). split; [cbn; auto|]. cbn [pattern_matches]. by rewrite H.
  - apply in_list_elem in H. apply existsb_exists. exists (Exact arg). split; [|cbn; apply str_eqb_refl].
    rewrite <- list_elem_of_In. unfold UNSAFE_GIT_GLOBAL_OPTIONS.
    repeat (apply elem_of_cons in H as [->|H]; [set_solver|]). by apply not_elem_of_nil in H.
Qed.

Lemma git_subcommand_loop_spec subs idx skip args i sub :
  git_subcommand_loop subs idx skip args = Some (i, sub) ->
  exists pre post, args = pre ++ sub :: post /\ i = idx + length pre /\ sub ∈ subs /\
    (skip = false -> existsb (fun a => git_matches_option_pattern a UNSAFE_GIT_GLOBAL_OPTIONS) pre = false ->
     Forall (fun a => starts_with (&"-") a = true) pre).
Proof.
  revert idx skip. induction args as [|a args IH]; intros idx skip; cbn [git_subcommand_loop]; [done|].
  assert (forall skip', git_subcommand_loop subs (S idx) skip' args = Some (i, sub) ->
    (skip = false -> git_matches_option_pattern a UNSAFE_GIT_GLOBAL_OPTIONS = false ->
     starts_with (&"-") a = true /\ skip' = false) ->
    exists pre post, a :: args = pre ++ sub :: post /\ i = idx + length pre /\ sub ∈ subs /\
    (skip = false -> existsb (fun a => git_matches_option_pattern a UNSAFE_GIT_GLOBAL_OPTIONS) pre = false ->
     Forall (fun a => starts_with (&"-") a = true) pre)) as Hstep.
  { intros skip' H Ha. destruct (IH _ _ H) as (pre & post & -> & -> & Hs & Hall). exists (a :: pre), post.
    split_and!; [done|cbn; lia|done|]. intros Hk [Hu Hpre]%orb_false_iff. destruct (Ha Hk Hu) as [Hd Hk'].
    constructor; [done|]. by apply Hall. }
  destruct skip; [intros H; by eapply Hstep|].
  destruct (is_git_global_option_with_inline_value a) eqn:E1.
  { intros H. eapply Hstep; [done|]. intros _ Hu. rewrite global_option_unsafe in Hu; [done|by left]. }
  destruct (is_git_global_option_with_value a) eqn:E2.
  { intros H. eapply Hstep; [done|]. intros _ Hu. rewrite global_option_unsafe in Hu; [done|by right]. }
  destruct (_ || _) eqn:E3.
  { intros H. eapply Hstep; [done|]. intros _ _. split; [|done]. apply orb_true_iff in E3 as [->%str_eqb_eq|?]; done. }
  destruct (in_list subs a) eqn:E4; [|done]. intros; simplify_eq. exists [], args.
  split_and!; [done|cbn; lia|by apply in_list_elem|]. intros. constructor.
Qed.

Lemma find_git_subcommand_spec command subs i sub :
  find_git_subcommand command subs = Some (i, sub) ->
  exists cmd0 pre post, command = cmd0 :: pre ++ sub :: post /\ i = S (length pre) /\ sub ∈ subs /\
    executable_name_lookup_key cmd0 = Some (&"git") /\
    (existsb (fun a => git_matches_option_pattern a UNSAFE_GIT_GLOBAL_OPTIONS) pre = false ->
     Forall (fun a => starts_with (&"-") a = true) pre).
Proof.
  unfold find_git_subcommand. destruct command as [|cmd0 args]; [done|]. case_bool_decide as Hg; [|done].
  intros (pre & post & -> & -> & Hs & Hall)%git_subcommand_loop_spec. exists cmd0, pre, post. split_and!; auto.
Qed.

Lemma branch_loop_spec saw args :
  branch_loop saw args = true -> Forall (fun a => is_branch_listing_flag a = true) args.
Proof.
  revert saw. induction args as [|a args IH]; intros saw; cbn; [constructor|].
  destruct (is_branch_listing_flag a) eqn:E; [|done]. intros H. constructor; [done|]. by eapply IH.
Qed.

(** Every branch of the git check, with its two slices in range *)
Lemma is_safe_git_command_eq debug cmd0 pre sub post :
  find_git_subcommand (cmd0 :: pre ++ sub :: post) GIT_QUERIES = Some (S (length pre), sub) -> sub ∈ GIT_QUERIES ->
  is_safe_git_command debug (cmd0 :: pre ++ sub :: post) =
  Ok (negb (git_has_unsafe_global_option pre) && git_subcommand_args_are_read_only post &&
      (negb (str_eqb sub (&"branch")) || git_branch_is_read_only post)).
Proof.
  intros Hf Hs. unfold is_safe_git_command. rewrite Hf.
  rewrite slice_returns by (cbn; rewrite ?length_app; cbn; lia). cbn [comp_bind].
  replace (take (S (length pre) - 1) (drop 1 (cmd0 :: pre ++ sub :: post))) with pre
    by (cbn; rewrite drop_0, Nat.sub_0_r; by rewrite take_app_length).
  rewrite slice_from_returns by (cbn; rewrite ?length_app; cbn; lia). cbn [comp_bind].
  replace (drop (S (length pre) + 1) (cmd0 :: pre ++ sub :: post)) with post.
  2: { cbn. rewrite (cons_middle sub), app_assoc, Nat.add_1_r, drop_app_length'; [done|rewrite length_app; cbn; lia]. }
  destruct (git_has_unsafe_global_option pre); [done|]. cbn [negb andb].
  unfold GIT_QUERIES in Hs. repeat (apply elem_of_cons in Hs as [->|Hs]; [cbn; by rewrite ?andb_true_r|]).
  by apply not_elem_of_nil in Hs.
Qed.

Lemma is_safe_git_command_ok debug command : exists b, is_safe_git_command debug command = Ok b.
Proof.
  destruct (find_git_subcommand command GIT_QUERIES) as [[i sub]|] eqn:E.
  - pose proof E as (cmd0 & pre & post & -> & -> & Hs & _)%find_git_subcommand_spec.
    rewrite is_safe_git_command_eq by done. by eexists.
  - unfold is_safe_git_command. rewrite E. by eexists.
Qed.

Lemma is_safe_to_call_with_exec_ok linux debug command : exists b, is_safe_to_call_with_exec linux debug command = Ok b.
Proof.
  unfold is_safe_to_call_with_exec. destruct command as [|cmd0 args]; [by eexists|].
  destruct (executable_name_lookup_key cmd0); [|by eexists].
  repeat case_match; try (by eexists). apply is_safe_git_command_ok.
Qed.

Lemma all_safe_spec linux debug commands :
  exists b, all_safe linux debug commands = Ok b /\
    (b = true -> Forall (fun c => is_safe_to_call_with_exec linux debug c = Ok true) commands).
Proof.
  induction commands as [|c commands (b & Hb & IH)]; cbn [all_safe]; [eexists; split; [done|]; constructor|].
  destruct (is_safe_to_call_with_exec_ok linux debug c) as [s Hs]. rewrite Hs. cbn [comp_bind].
  destruct s; [|by eexists; split]. exists b. split; [done|]. intros ->. constructor; auto.
Qed.

(** ** What an approval guarantees *)

Definition bash_for_zsh (s : str) : str := if str_eqb s (&"zsh") then &"bash" else s.

(** A script all of whose nodes are allowed and all of whose commands, wherever
    they stand in the tree, are safe by themselves *)
Definition script_safe (linux debug : bool) (tree : Tree) : Prop :=
  has_error tree = false /\
  Forall (fun n => node_allowed n = true) (nodes (root_node tree)) /\
  (exists n, n ∈ nodes (root_node tree) /\ is_command n = true) /\
  forall n, n ∈ nodes (root_node tree) -> is_command n = true ->
    exists words, parse_plain_command_from_node n = Some words /\ is_safe_to_call_with_exec linux debug words = Ok true.

Lemma script_commands_safe linux debug tree commands :
  try_parse_word_only_commands_sequence tree = Ok (Some commands) -> commands <> [] ->
  Forall (fun c => is_safe_to_call_with_exec linux debug c = Ok true) commands ->
  script_safe linux debug tree.
Proof.
  intros H Hne Hs. destruct (word_only_spec tree) as (r & Hr & Hspec). rewrite H in Hr. simplify_eq.
  destruct (Hspec commands eq_refl) as (He & Ha & Hl & Hc). split_and!; [done..| |].
  - destruct (List.filter is_command (nodes (root_node tree))) as [|n l] eqn:E.
    + by apply nil_length_inv in Hl.
    + exists n. rewrite list_elem_of_In, <- filter_In, E. by left.
  - intros n Hn Hcmd. destruct (Hc n Hn Hcmd) as (words & Hw & Hin). exists words. split; [done|].
    rewrite Forall_forall in Hs. by apply Hs.
Qed.

(** C15: deciding whether a command is known to be safe always returns (the
    recursion on the shell name ends, the tree walk ends, no slice is out of
    range, the debug assertion is unreachable), and a command is approved only if
    it is itself a safe argv, or it is [bash|zsh|sh -lc|-c script] where the
    parse of the script has no error, contains only the allowed kinds of nodes
    and at least one command, and every command node of the tree, at any depth,
    is a plain command that is safe by itself: none escapes the check. *)
Theorem known_safe_covers_script {grammar : BashGrammar} linux debug command :
  exists b, is_known_safe_command linux debug command = Ok b /\
    (b = true ->
     is_safe_to_call_with_exec linux debug (map bash_for_zsh command) = Ok true \/
     exists shell flag script tree,
       map bash_for_zsh command = [shell; flag; script] /\ (flag = &"-lc" \/ flag = &"-c") /\
       try_parse_shell script = Some tree /\ script_safe linux debug tree).
Proof.
  unfold is_known_safe_command. fold bash_for_zsh. change (map (fun s => _) command) with (map bash_for_zsh command).
  destruct (is_safe_to_call_with_exec_ok linux debug (map bash_for_zsh command)) as [d Hd]. rewrite Hd. cbn [comp_bind].
  destruct d; [exists true; split; [done|by left]|].
  destruct (plain_commands_spec (map bash_for_zsh command)) as (r & Hr & Hspec). rewrite Hr. cbn [comp_bind].
  destruct r as [[|c commands]|]; try (by exists false).
  destruct (Hspec _ eq_refl) as (shell & flag & script & tree & t & Hc & Hf & _ & _ & Ht & Hp).
  destruct (all_safe_spec linux debug (c :: commands)) as (b & Hb & Hall). exists b. split; [done|].
  intros ->. right. exists shell, flag, script, tree. split_and!; try done.
  eapply script_commands_safe; [exact Hp|done|by apply Hall].
Qed.

Lemma safe_git_eq linux debug cmd0 args :
  executable_name_lookup_key cmd0 = Some (&"git") ->
  is_safe_to_call_with_exec linux debug (cmd0 :: args) = is_safe_git_command debug (cmd0 :: args).
Proof. intros Hk. unfold is_safe_to_call_with_exec. rewrite Hk. by destruct linux. Qed.

(** An approved git command is one of five queries: its first word that is
    not an option is [status], [log], [diff], [show] or [branch]; before it there
    are only options, none of which changes the repository, the configuration,
    the executables or the pager; after it nothing writes to a file or runs a
    program; and [branch] has only listing flags. *)
Theorem safe_git_is_query linux debug cmd0 args :
  is_safe_to_call_with_exec linux debug (cmd0 :: args) = Ok true ->
  executable_name_lookup_key cmd0 = Some (&"git") ->
  exists global sub rest,
    args = global ++ sub :: rest /\ sub ∈ GIT_QUERIES /\
    Forall (fun a => starts_with (&"-") a = true /\ git_matches_option_pattern a UNSAFE_GIT_GLOBAL_OPTIONS = false) global /\
    Forall (fun a => git_matches_option_pattern a UNSAFE_GIT_SUBCOMMAND_OPTIONS = false) rest /\
    (sub = &"branch" -> Forall (fun a => is_branch_listing_flag a = true) rest).
Proof.
  intros H Hk. rewrite safe_git_eq in H by done.
  destruct (find_git_subcommand (cmd0 :: args) GIT_QUERIES) as [[i sub]|] eqn:E.
  2: { unfold is_safe_git_command in H. by rewrite E in H. }
  pose proof E as (c & pre & post & Hcmd & -> & Hs & _ & Hopt)%find_git_subcommand_spec. simplify_eq.
  rewrite is_safe_git_command_eq in H by done. simplify_eq.
  apply andb_true_iff in H as [H Hb]. apply andb_true_iff in H as [Hg Hr].
  apply negb_true_iff in Hg. apply negb_true_iff in Hr.
  assert (forall p (l : list str), existsb p l = false -> Forall (fun a => p a = false) l) as Hx.
  { intros p l. induction l as [|x l IH]; cbn; [constructor|]. intros [? ?]%orb_false_iff. constructor; auto. }
  exists pre, sub, post. split_and!; [done|done| |by apply Hx|].
  - apply Forall_and. split; [by apply Hopt|by apply Hx].
  - intros ->. rewrite str_eqb_refl in Hb. cbn [negb orb] in Hb. unfold git_branch_is_read_only in Hb.
    destruct post; [constructor|]. exact (branch_loop_spec _ _ Hb).
Qed.

Lemma safe_git_is_query_witness :
  exists global sub rest,
    [&"--no-pager"; &"branch"; &"-a"] = global ++ sub :: rest /\ sub ∈ GIT_QUERIES /\
    (sub = &"branch" -> Forall (fun a => is_branch_listing_flag a = true) rest).
Proof.
  destruct (safe_git_is_query true true (&"/usr/bin/git") [&"--no-pager"; &"branch"; &"-a"])
    as (g & s & r & H1 & H2 & _ & _ & H3); [reflexivity|reflexivity|]. exists g, s, r. auto.
Defined.

(** ** Safe and dangerous are exclusive *)

Definition SAFE_NAMES : list str :=
  READ_ONLY_COMMANDS ++ [ &"numfmt"; &"tac"; &"base64"; &"find"; &"rg"; &"git"; &"sed" ].

Lemma safe_name linux debug cmd0 args :
  is_safe_to_call_with_exec linux debug (cmd0 :: args) = Ok true ->
  exists k, executable_name_lookup_key cmd0 = Some k /\ k ∈ SAFE_NAMES.
Proof.
  unfold is_safe_to_call_with_exec. destruct (executable_name_lookup_key cmd0) as [k|]; [|done]. intros H.
  exists k. split; [done|]. unfold SAFE_NAMES. apply elem_of_app.
  destruct (linux && _) eqn:E1; [apply andb_true_iff in E1 as [_ E1]; apply in_list_elem in E1; set_solver|].
  destruct (in_list READ_ONLY_COMMANDS k) eqn:E2; [left; by apply in_list_elem|]. right.
  repeat (case_match eqn:E; [apply str_eqb_eq in E as ->; set_solver|clear E]). done.
Qed.

(** A safe name is its own stem and not a shell. *)
Lemma safe_names_plain k :
  k ∈ SAFE_NAMES ->
  shell_of_name k = None /\ file_stem k = Some k /\ rsplit_once dot k = None /\
  is_dangerous_to_call_with_exec [k] = false.
Proof.
  intros H. unfold SAFE_NAMES, READ_ONLY_COMMANDS in H. cbn [app] in H.
  repeat (apply elem_of_cons in H as [->|H]; [by split_and!|]). by apply not_elem_of_nil in H.
Qed.

Lemma shell_name_is_file_name p t : shell_of_name p = Some t -> file_name p = Some p.
Proof. unfold shell_of_name. repeat (case_match eqn:E; [apply str_eqb_eq in E as ->; done|clear E]). done. Qed.

Lemma safe_name_no_shell p k :
  file_name p = Some k -> k ∈ SAFE_NAMES -> detect_shell_type p = Ok None.
Proof.
  intros Hf Hk. destruct (safe_names_plain k Hk) as (Hn & Hstem & Hdot & _).
  unfold detect_shell_type. destruct (detect_shell_type_ok (length p) p ltac:(lia)) as [t Ht]. rewrite Ht. f_equal.
  revert Ht. destruct (length p) as [|n]; cbn [detect_shell_type_fuel];
    (destruct (shell_of_name p) eqn:Es; [apply shell_name_is_file_name in Es as Hf'; congruence|]);
    unfold file_stem at 1; rewrite Hf, Hdot; (case_decide; [congruence|]); [done|].
  destruct n as [|n]; cbn [detect_shell_type_fuel]; rewrite Hn, Hstem, decide_True by done; congruence.
Qed.

Lemma safe_not_dangerous_exec linux debug command :
  is_safe_to_call_with_exec linux debug command = Ok true -> is_dangerous_to_call_with_exec command = false.
Proof.
  destruct command as [|cmd0 args]; [done|]. intros (k & Hk & Hin)%safe_name.
  cbn [is_dangerous_to_call_with_exec].
  destruct (str_eqb cmd0 (&"rm")) eqn:E1.
  { apply str_eqb_eq in E1 as ->. cbv in Hk. simplify_eq. apply in_list_elem in Hin. discriminate Hin. }
  destruct (str_eqb cmd0 (&"sudo")) eqn:E2; [|done].
  apply str_eqb_eq in E2 as ->. cbv in Hk. simplify_eq. apply in_list_elem in Hin. discriminate Hin.
Qed.

Lemma bash_for_zsh_flag f : bash_for_zsh f = &"-lc" \/ bash_for_zsh f = &"-c" -> bash_for_zsh f = f.
Proof. unfold bash_for_zsh. destruct (str_eqb f (&"zsh")); [intros [|]; done|done]. Qed.

(** The parse does not depend on which of the two shells is named. *)
Lemma plain_commands_for_zsh {grammar : BashGrammar} shell flag script :
  script <> &"zsh" ->
  parse_shell_lc_plain_commands (map bash_for_zsh [shell; flag; script]) =
  parse_shell_lc_plain_commands [shell; flag; script].
Proof.
  intros Hs. cbn [map]. replace (bash_for_zsh script) with script
    by (unfold bash_for_zsh; by rewrite (proj2 (str_eqb_neq script (&"zsh")) Hs)).
  unfold parse_shell_lc_plain_commands, extract_bash_command.
  assert (str_eqb (bash_for_zsh flag) (&"-lc") || str_eqb (bash_for_zsh flag) (&"-c") =
          str_eqb flag (&"-lc") || str_eqb flag (&"-c")) as ->.
  { unfold bash_for_zsh. destruct (str_eqb flag (&"zsh")) eqn:E; [|done]. by apply str_eqb_eq in E as ->. }
  destruct (_ || _); cbn [negb]; [|done].
  unfold bash_for_zsh. destruct (str_eqb shell (&"zsh")) eqn:E; [|done]. by apply str_eqb_eq in E as ->.
Qed.

Lemma existsb_safe linux debug commands :
  Forall (fun c => is_safe_to_call_with_exec linux debug c = Ok true) commands ->
  existsb is_dangerous_to_call_with_exec commands = false.
Proof. induction 1 as [|c l Hc _ IH]; cbn; [done|]. by rewrite (safe_not_dangerous_exec linux debug), IH. Qed.

Lemma dangerous_head cmd0 args :
  is_dangerous_to_call_with_exec (cmd0 :: args) = true -> cmd0 = &"rm" \/ cmd0 = &"sudo".
Proof.
  cbn [is_dangerous_to_call_with_exec]. destruct (str_eqb cmd0 (&"rm")) eqn:E1; [left; by apply str_eqb_eq|].
  destruct (str_eqb cmd0 (&"sudo")) eqn:E2; [right; by apply str_eqb_eq|done].
Qed.

Lemma safe_argv_not_dangerous {grammar : BashGrammar} linux debug command :
  is_safe_to_call_with_exec linux debug (map bash_for_zsh command) = Ok true ->
  command_might_be_dangerous command = Ok false.
Proof.
  destruct command as [|cmd0 args]; [done|]. cbn [map]. intros Hs. pose proof Hs as (k & Hk & Hin)%safe_name.
  assert (bash_for_zsh cmd0 = cmd0) as Heq.
  { unfold bash_for_zsh in *. destruct (str_eqb cmd0 (&"zsh")); [|done]. cbv in Hk. simplify_eq.
    apply in_list_elem in Hin. discriminate Hin. }
  rewrite Heq in *. unfold command_might_be_dangerous.
  destruct (is_dangerous_to_call_with_exec (cmd0 :: args)) eqn:Ed.
  { apply dangerous_head in Ed as [-> | ->]; cbv in Hk; simplify_eq; apply in_list_elem in Hin; discriminate Hin. }
  destruct (plain_commands_spec (cmd0 :: args)) as (r & Hr & Hspec). rewrite Hr. cbn [comp_bind].
  destruct r as [cs|]; [|done]. destruct (Hspec _ eq_refl) as (sh & fl & sc & tr & t & Hc & _ & Ht & _). simplify_eq.
  by rewrite (safe_name_no_shell sh k) in Ht.
Qed.

Lemma safe_script_not_dangerous {grammar : BashGrammar} linux debug command commands :
  parse_shell_lc_plain_commands (map bash_for_zsh command) = Ok (Some commands) ->
  Forall (fun c => is_safe_to_call_with_exec linux debug c = Ok true) commands ->
  command !! 2 <> Some (&"zsh") -> command_might_be_dangerous command = Ok false.
Proof.
  intros Hp Hall Hz. destruct (plain_commands_spec (map bash_for_zsh command)) as (r & Hr & Hspec).
  rewrite Hp in Hr. simplify_eq. destruct (Hspec _ eq_refl) as (sh & fl & sc & tr & t & Hc & _ & Ht & Htt & _).
  destruct command as [|shell [|flag [|script [|]]]]; cbn in Hc; simplify_eq. cbn in Hz.
  rewrite plain_commands_for_zsh in Hp by congruence. unfold command_might_be_dangerous.
  destruct (is_dangerous_to_call_with_exec [shell; flag; script]) eqn:Ed.
  { apply dangerous_head in Ed as [-> | ->]; cbv in Ht; naive_solver. }
  rewrite Hp. cbn [comp_bind]. f_equal. by eapply existsb_safe.
Qed.

(** The two classifications never contradict each other: a command that is
    known to be safe is not reported as dangerous, neither as an argv nor
    through its script (the script that consists of the one word [zsh], which
    the safety check reads as [bash], is left aside). *)
Theorem known_safe_not_dangerous {grammar : BashGrammar} linux debug command :
  is_known_safe_command linux debug command = Ok true -> command !! 2 <> Some (&"zsh") ->
  command_might_be_dangerous command = Ok false.
Proof.
  unfold is_known_safe_command. intros H Hz. fold bash_for_zsh in H.
  change (map (fun s => _) command) with (map bash_for_zsh command) in H.
  destruct (is_safe_to_call_with_exec_ok linux debug (map bash_for_zsh command)) as [d Hd].
  rewrite Hd in H. cbn [comp_bind] in H. destruct d; [by eapply safe_argv_not_dangerous|].
  inv_comp H. destruct a as [[|c cs]|]; [done| |done].
  destruct (all_safe_spec linux debug (c :: cs)) as (b & Hb & Hall). rewrite Hb in H. simplify_eq.
  eapply safe_script_not_dangerous; [done|by apply Hall|done].
Qed.

(** A tree for one command: its name, then its words *)
Definition leaf (k text : str) : Node := mk_node k true 0 (Some text) [].
Definition one_command (name : str) (words : list str) : Tree :=
  {| root_node := mk_node (&"program") true 0 None
       [mk_node (&"command") true 0 None
          (mk_node (&"command_name") true 0 (Some name) [leaf (&"word") name] :: map (leaf (&"word")) words)];
     has_error := false |}.

Definition one_command_grammar (name : str) (words : list str) : BashGrammar :=
  {| try_parse_shell := fun _ => Some (one_command name words) |}.

Lemma known_safe_not_dangerous_witness :
  @is_known_safe_command (one_command_grammar (&"ls") [&"-l"]) true true [&"zsh"; &"-lc"; &"ls -l"] = Ok true /\
  @command_might_be_dangerous (one_command_grammar (&"ls") [&"-l"]) [&"zsh"; &"-lc"; &"ls -l"] = Ok false.
Proof.
  split; [reflexivity|].
  apply (@known_safe_not_dangerous (one_command_grammar (&"ls") [&"-l"]) true true); [reflexivity|discriminate].
Defined.

(** ** Backslashes *)

(** What the shell passes for an unquoted word: a backslash is removed and the
    character after it kept. *)
Fixpoint remove_backslashes (w : str) : str :=
  match w with
  | [] => []
  | c :: w' => if (c =? 92)%N then match w' with [] => [c] | d :: w'' => d :: remove_backslashes w'' end
               else c :: remove_backslashes w'
  end.

Definition escaped_delete : str := &"-dele" ++ 92%N :: &"te".

(** The words that are checked are the source text of the word nodes, with
    their backslashes, and not the words the shell runs: a script whose tree is
    the command [find .] with the word [-dele\te] is approved without asking,
    although the shell removes the backslash and the argv it runs, which deletes
    files, is not a safe one. *)
Theorem escaped_option_approved :
  @is_known_safe_command (one_command_grammar (&"find") [&"."; escaped_delete]) true true
    [&"bash"; &"-lc"; &"find . " ++ escaped_delete] = Ok true /\
  map remove_backslashes [&"find"; &"."; escaped_delete] = [&"find"; &"."; &"-delete"] /\
  is_safe_to_call_with_exec true true [&"find"; &"."; &"-delete"] = Ok false.
Proof. by split_and!. Qed.
