(* ===== verification/Permissions.v ===== *)
(** * protocol/src/permissions.rs: what a command may read and write

    The file system policy of a session: entries that grant or deny access to
    subtrees, the resolution of a path against them, the protection of
    [.git], [.agents] and [.codex], the writable roots handed to the platform
    sandboxes, and the conversion from and to the older [SandboxPolicy] of
    [protocol/src/protocol.rs].  The build is the Unix one. *)
From S2P Require Import Prelude RustStr RustPath AbsolutePath ExecPolicy PathPrefix.

(** ** The host

    The file system as it is while a policy is evaluated, and [TMPDIR]:
    [symlink_metadata] says of an existing path whether it is a symbolic link. *)
Class HostFs := {
  symlink_metadata : str -> option bool;
  fs_canonicalize : str -> option str;
  is_dir : str -> bool;
  is_file : str -> bool;
  exists_path : str -> bool;
  read_to_string : str -> option str;
  tmpdir_var : option str
}.

(** The crate [globset]: a pattern compiles to a matcher or to an error. *)
Class GlobLib := {
  GlobMatcher : Type;
  glob_build : str -> str + GlobMatcher;
  glob_is_match : GlobMatcher -> str -> bool
}.

(** ** Data *)

Definition PROTECTED_METADATA_GIT_PATH_NAME : str := &".git".
Definition PROTECTED_METADATA_AGENTS_PATH_NAME : str := &".agents".
Definition PROTECTED_METADATA_CODEX_PATH_NAME : str := &".codex".
Definition PROTECTED_METADATA_PATH_NAMES : list str :=
  [PROTECTED_METADATA_GIT_PATH_NAME; PROTECTED_METADATA_AGENTS_PATH_NAME; PROTECTED_METADATA_CODEX_PATH_NAME].

Definition is_protected_metadata_name (name : str) : bool :=
  existsb (fun metadata_name => str_eqb name metadata_name) PROTECTED_METADATA_PATH_NAMES.
Definition is_protected_metadata_directory_name (name : str) : bool :=
  str_eqb name PROTECTED_METADATA_AGENTS_PATH_NAME || str_eqb name PROTECTED_METADATA_CODEX_PATH_NAME.

Inductive NetworkSandboxPolicy := NetworkRestricted | NetworkEnabled.
Definition network_is_enabled (p : NetworkSandboxPolicy) : bool :=
  match p with NetworkEnabled => true | NetworkRestricted => false end.

Inductive FileSystemAccessMode := Read | Write | Deny.

#[export] Instance FileSystemAccessMode_eq_dec : EqDecision FileSystemAccessMode.
Proof. solve_decision. Defined.

(** The derived order *)
Definition access_rank (a : FileSystemAccessMode) : nat := match a with Read => 0 | Write => 1 | Deny => 2 end.

Definition can_read (a : FileSystemAccessMode) : bool := match a with Deny => false | _ => true end.
Definition can_write (a : FileSystemAccessMode) : bool := match a with Write => true | _ => false end.
Definition is_deny (a : FileSystemAccessMode) : bool := match a with Deny => true | _ => false end.

Inductive FileSystemSpecialPath :=
| Root
| Minimal
| ProjectRoots (subpath : option str)
| Tmpdir
| SlashTmp
| UnknownPath (path : str) (subpath : option str).

Inductive FileSystemPath :=
| Path (path : str)
| GlobPattern (pattern : str)
| Special (value : FileSystemSpecialPath).

Record FileSystemSandboxEntry := { e_path : FileSystemPath; e_access : FileSystemAccessMode }.

Inductive FileSystemSandboxKind := Restricted | Unrestricted | ExternalSandbox.

Record FileSystemSandboxPolicy := {
  kind : FileSystemSandboxKind;
  glob_scan_max_depth : option N;
  entries : list FileSystemSandboxEntry
}.

Record ResolvedFileSystemEntry := { r_path : str; r_access : FileSystemAccessMode }.

Definition is_restricted (p : FileSystemSandboxPolicy) : bool :=
  match kind p with Restricted => true | _ => false end.
Definition with_entries (es : list FileSystemSandboxEntry) (p : FileSystemSandboxPolicy) : FileSystemSandboxPolicy :=
  {| kind := kind p; glob_scan_max_depth := glob_scan_max_depth p; entries := es |}.
Definition with_depth (d : option N) (p : FileSystemSandboxPolicy) : FileSystemSandboxPolicy :=
  {| kind := kind p; glob_scan_max_depth := d; entries := entries p |}.
Definition push_entry (path : FileSystemPath) (access : FileSystemAccessMode) (es : list FileSystemSandboxEntry)
  : list FileSystemSandboxEntry := es ++ [{| e_path := path; e_access := access |}].

(** Derived equality; paths are compared by their components. *)
Definition opt_path_eqb (a b : option str) : bool :=
  match a, b with Some a, Some b => path_eqb a b | None, None => true | _, _ => false end.
Definition special_eqb (a b : FileSystemSpecialPath) : bool :=
  match a, b with
  | Root, Root | Minimal, Minimal | Tmpdir, Tmpdir | SlashTmp, SlashTmp => true
  | ProjectRoots a, ProjectRoots b => opt_path_eqb a b
  | UnknownPath a sa, UnknownPath b sb => str_eqb a b && opt_path_eqb sa sb
  | _, _ => false
  end.
Definition fs_path_eqb (a b : FileSystemPath) : bool :=
  match a, b with
  | Path a, Path b => path_eqb a b
  | GlobPattern a, GlobPattern b => str_eqb a b
  | Special a, Special b => special_eqb a b
  | _, _ => false
  end.
Definition entry_eqb (a b : FileSystemSandboxEntry) : bool :=
  fs_path_eqb (e_path a) (e_path b) && bool_decide (e_access a = e_access b).

(** *** The older policy and its writable roots, protocol.rs *)

Inductive NetworkAccess := AccessRestricted | AccessEnabled.
Definition access_is_enabled (a : NetworkAccess) : bool :=
  match a with AccessEnabled => true | AccessRestricted => false end.

Inductive SandboxPolicy :=
| DangerFullAccess
| ReadOnly (network_access : bool)
| ExternalSandboxPolicy (network_access : NetworkAccess)
| WorkspaceWrite (writable_roots : list str) (network_access exclude_tmpdir_env_var exclude_slash_tmp : bool).

Record WritableRoot := {
  root : str;
  read_only_subpaths : list str;
  protected_metadata_names : list str
}.

(** [component.as_os_str()] *)
Definition component_os_str (c : component) : str := match c with RootDir => [slash] | _ => component_text c end.

Definition path_contains_protected_metadata_name (w : WritableRoot) (path : str) : bool :=
  match path_strip_prefix path (root w) with
  | Some (first_component :: _) =>
      existsb (fun name => str_eqb (component_os_str first_component) name) (protected_metadata_names w)
  | _ => false
  end.

Definition is_path_writable (w : WritableRoot) (path : str) : bool :=
  if negb (path_starts_with path (root w)) then false
  else if existsb (fun subpath => path_starts_with path subpath) (read_only_subpaths w) then false
  else if path_contains_protected_metadata_name w path then false
  else true.

Definition legacy_has_full_disk_write_access (p : SandboxPolicy) : bool :=
  match p with DangerFullAccess | ExternalSandboxPolicy _ => true | ReadOnly _ | WorkspaceWrite _ _ _ _ => false end.
Definition has_full_network_access (p : SandboxPolicy) : bool :=
  match p with
  | DangerFullAccess => true
  | ExternalSandboxPolicy network_access => access_is_enabled network_access
  | ReadOnly network_access => network_access
  | WorkspaceWrite _ network_access _ _ => network_access
  end.

(** ** Constructors *)

Definition default_policy : FileSystemSandboxPolicy :=
  {| kind := Restricted; glob_scan_max_depth := None; entries := [{| e_path := Special Root; e_access := Read |}] |}.
Definition unrestricted : FileSystemSandboxPolicy :=
  {| kind := Unrestricted; glob_scan_max_depth := None; entries := [] |}.
Definition external_sandbox : FileSystemSandboxPolicy :=
  {| kind := ExternalSandbox; glob_scan_max_depth := None; entries := [] |}.
Definition restricted (es : list FileSystemSandboxEntry) : FileSystemSandboxPolicy :=
  {| kind := Restricted; glob_scan_max_depth := None; entries := es |}.

Definition PROJECT_ROOTS_GLOB_PATTERN_PREFIX : str := &"codex-project-roots://".
Definition project_roots_glob_pattern (subpath : str) : str := PROJECT_ROOTS_GLOB_PATTERN_PREFIX ++ subpath.
Definition parse_project_roots_glob_pattern (pattern : str) : option str :=
  strip_prefix PROJECT_ROOTS_GLOB_PATTERN_PREFIX pattern.

(** ** Queries that need no paths *)

Definition has_root_access (predicate : FileSystemAccessMode -> bool) (p : FileSystemSandboxPolicy) : bool :=
  is_restricted p &&
  existsb (fun entry => match e_path entry with Special Root => predicate (e_access entry) | _ => false end) (entries p).

Definition has_denied_read_restrictions (p : FileSystemSandboxPolicy) : bool :=
  is_restricted p && existsb (fun entry => is_deny (e_access entry)) (entries p).

(** *** Entries with the same target *)

Definition special_paths_share_target (l r : FileSystemSpecialPath) : bool :=
  match l, r with
  | Root, Root | Minimal, Minimal | Tmpdir, Tmpdir | SlashTmp, SlashTmp => true
  | ProjectRoots l, ProjectRoots r => opt_path_eqb l r
  | UnknownPath l l_subpath, UnknownPath r r_subpath =>
      str_eqb l r && opt_path_eqb l_subpath r_subpath
  | _, _ => false
  end.

Definition special_path_matches_absolute_path (value : FileSystemSpecialPath) (path : str) : bool :=
  match value with
  | Root => match parent path with None => true | Some _ => false end
  | SlashTmp => path_eqb path (&"/tmp")
  | _ => false
  end.

Definition file_system_paths_share_target (l r : FileSystemPath) : bool :=
  match l, r with
  | Path l, Path r => path_eqb l r
  | Special l, Special r => special_paths_share_target l r
  | Path path, Special value | Special value, Path path => special_path_matches_absolute_path value path
  | GlobPattern l, GlobPattern r => str_eqb l r
  | GlobPattern _, _ | _, GlobPattern _ => false
  end.

Definition has_same_target_write_override (p : FileSystemSandboxPolicy) (entry : FileSystemSandboxEntry) : bool :=
  existsb (fun candidate =>
    can_write (e_access candidate) && (access_rank (e_access entry) <? access_rank (e_access candidate)) &&
    file_system_paths_share_target (e_path candidate) (e_path entry)) (entries p).

Definition has_write_narrowing_entries (p : FileSystemSandboxPolicy) : bool :=
  is_restricted p &&
  existsb (fun entry =>
    if can_write (e_access entry) then false
    else
      match e_path entry with
      | Path _ => negb (has_same_target_write_override p entry)
      | GlobPattern _ => true
      | Special Root => is_deny (e_access entry)
      | Special Minimal | Special (UnknownPath _ _) => false
      | Special _ => negb (has_same_target_write_override p entry)
      end) (entries p).

Definition has_full_disk_read_access (p : FileSystemSandboxPolicy) : bool :=
  match kind p with
  | Unrestricted | ExternalSandbox => true
  | Restricted => has_root_access can_read p && negb (has_denied_read_restrictions p)
  end.

Definition has_full_disk_write_access (p : FileSystemSandboxPolicy) : bool :=
  match kind p with
  | Unrestricted | ExternalSandbox => true
  | Restricted => has_root_access can_write p && negb (has_write_narrowing_entries p)
  end.

Definition include_platform_defaults (p : FileSystemSandboxPolicy) : bool :=
  negb (has_full_disk_read_access p) && is_restricted p &&
  existsb (fun entry => match e_path entry with Special Minimal => can_read (e_access entry) | _ => false end) (entries p).

(** ** Deny entries that survive *)

Definition add_missing_denies (existing : list FileSystemSandboxEntry) (es : list FileSystemSandboxEntry)
  : list FileSystemSandboxEntry :=
  foldl (fun es deny_entry => if negb (existsb (fun entry => entry_eqb entry deny_entry) es) then es ++ [deny_entry] else es)
    es (List.filter (fun entry => is_deny (e_access entry)) existing).

Definition preserve_deny_read_restrictions_from (existing p : FileSystemSandboxPolicy) : FileSystemSandboxPolicy :=
  let has_deny_read_entries := existsb (fun entry => is_deny (e_access entry)) (entries existing) in
  let p :=
    match kind p with
    | Unrestricted =>
        if has_deny_read_entries then restricted [{| e_path := Special Root; e_access := Write |}] else p
    | _ => p
    end in
  if negb (is_restricted p) then p
  else
    let p := match glob_scan_max_depth p with None => with_depth (glob_scan_max_depth existing) p | Some _ => p end in
    with_entries (add_missing_denies (entries existing) (entries p)) p.

(** ** Default read-only subpaths *)

Definition append_default_read_only_entry_if_no_explicit_rule (es : list FileSystemSandboxEntry) (path : FileSystemPath)
  : list FileSystemSandboxEntry :=
  if existsb (fun entry => file_system_paths_share_target (e_path entry) path) es then es else push_entry path Read es.
Definition append_default_read_only_path_if_no_explicit_rule (es : list FileSystemSandboxEntry) (path : str)
  : list FileSystemSandboxEntry := append_default_read_only_entry_if_no_explicit_rule es (Path path).
Definition append_default_read_only_project_root_subpath_if_no_explicit_rule (es : list FileSystemSandboxEntry)
    (subpath : str) : list FileSystemSandboxEntry :=
  append_default_read_only_entry_if_no_explicit_rule es (Special (ProjectRoots (Some subpath))).

(** [HashSet::insert] on paths *)
Fixpoint dedup_paths (seen paths : list str) : list str :=
  match paths with
  | [] => []
  | path :: paths =>
      if existsb (path_eqb path) seen then dedup_paths seen paths else path :: dedup_paths (path :: seen) paths
  end.

Section host.
Context `{!HostFs, !ProcessEnv}.

(** *** Symbolic links, utils/absolute-path *)

Definition should_preserve_logical_path (logical : str) : bool :=
  existsb (fun ancestor =>
    match symlink_metadata ancestor with
    | Some is_symlink =>
        is_symlink && match parent ancestor ≫= parent with Some _ => true | None => false end
    | None => false
    end) (ancestors logical).

Definition canonicalize_preserving_symlinks (path : str) : option str :=
  logical ← from_absolute_path path;
  match fs_canonicalize path with
  | Some canonical =>
      if should_preserve_logical_path logical && negb (path_eqb canonical logical) then Some logical else Some canonical
  | None => Some logical
  end.

Definition canonicalize_existing_preserving_symlinks (path : str) : option str :=
  logical ← from_absolute_path path;
  canonical ← fs_canonicalize path;
  if should_preserve_logical_path logical && negb (path_eqb canonical logical) then Some logical else Some canonical.

(** [AbsolutePathBuf::join] *)
Definition abs_join (base path : str) : str := resolve_path_against_base path base.

(** The text of a relative path *)
Definition render_relative (cs : list component) : str := join [slash] (map component_os_str cs).

Fixpoint first_normalized (raw_path : str) (candidates : list str) : option str :=
  match candidates with
  | [] => None
  | ancestor :: rest =>
      match symlink_metadata ancestor, canonicalize_preserving_symlinks ancestor, path_strip_prefix raw_path ancestor with
      | Some _, Some normalized_ancestor, Some suffix =>
          match from_absolute_path (path_join normalized_ancestor (render_relative suffix)) with
          | Some normalized_path => Some normalized_path
          | None => first_normalized raw_path rest
          end
      | _, _, _ => first_normalized raw_path rest
      end
  end.

Definition normalize_effective_absolute_path (path : str) : str := default path (first_normalized path (ancestors path)).

Definition dedup_absolute_paths (paths : list str) (normalize_effective_paths : bool) : list str :=
  dedup_paths [] (if normalize_effective_paths then map normalize_effective_absolute_path paths else paths).

(** *** Git metadata *)

Definition is_git_pointer_file (path : str) : bool :=
  is_file path && bool_decide (file_name path = Some PROTECTED_METADATA_GIT_PATH_NAME).

Definition resolve_gitdir_from_file (dot_git : str) : option str :=
  contents ← read_to_string dot_git;
  '(prefix, gitdir_raw) ← split_once 58%N (trim contents);
  if negb (str_eqb (trim prefix) (&"gitdir")) then None
  else
    let gitdir_raw := trim gitdir_raw in
    if str_eqb gitdir_raw [] then None
    else
      base ← parent dot_git;
      let gitdir_path := resolve_path_against_base gitdir_raw base in
      if exists_path gitdir_path then Some gitdir_path else None.

Definition default_read_only_subpaths_for_writable_root (writable_root : str) (protect_missing_dot_codex : bool)
  : list str :=
  let top_level_git := abs_join writable_root PROTECTED_METADATA_GIT_PATH_NAME in
  let top_level_git_is_file := is_file top_level_git in
  let top_level_git_is_dir := is_dir top_level_git in
  let git :=
    if top_level_git_is_dir || top_level_git_is_file then
      (if top_level_git_is_file && is_git_pointer_file top_level_git
       then option_list (resolve_gitdir_from_file top_level_git) else []) ++ [top_level_git]
    else [] in
  let top_level_agents := abs_join writable_root PROTECTED_METADATA_AGENTS_PATH_NAME in
  let agents := if is_dir top_level_agents then [top_level_agents] else [] in
  let top_level_codex := abs_join writable_root PROTECTED_METADATA_CODEX_PATH_NAME in
  let codex := if protect_missing_dot_codex || is_dir top_level_codex then [top_level_codex] else [] in
  dedup_absolute_paths (git ++ agents ++ codex) false.

Definition append_defaults (roots : list str) (es : list FileSystemSandboxEntry) : list FileSystemSandboxEntry :=
  foldl append_default_read_only_path_if_no_explicit_rule es
    (mbind (fun r => default_read_only_subpaths_for_writable_root r false) roots).

Definition append_cwd_defaults (cwd : str) (es : list FileSystemSandboxEntry) : list FileSystemSandboxEntry :=
  match from_absolute_path cwd with
  | Some cwd_root =>
      foldl append_default_read_only_path_if_no_explicit_rule es
        (default_read_only_subpaths_for_writable_root cwd_root true)
  | None => es
  end.

(** The allow side shared by [workspace_write] and the runtime of the older policy *)
Definition workspace_write_entries (writable_roots : list str) (exclude_tmpdir_env_var exclude_slash_tmp : bool)
  : list FileSystemSandboxEntry :=
  [{| e_path := Special Root; e_access := Read |}; {| e_path := Special (ProjectRoots None); e_access := Write |}] ++
  (if negb exclude_slash_tmp then [{| e_path := Special SlashTmp; e_access := Write |}] else []) ++
  (if negb exclude_tmpdir_env_var then [{| e_path := Special Tmpdir; e_access := Write |}] else []) ++
  map (fun path => {| e_path := Path path; e_access := Write |}) writable_roots.

Definition workspace_write (writable_roots : list str) (exclude_tmpdir_env_var exclude_slash_tmp : bool)
  : FileSystemSandboxPolicy :=
  let es := workspace_write_entries writable_roots exclude_tmpdir_env_var exclude_slash_tmp in
  let es := append_default_read_only_project_root_subpath_if_no_explicit_rule es (&".git") in
  let es := append_default_read_only_project_root_subpath_if_no_explicit_rule es (&".agents") in
  let es := append_default_read_only_project_root_subpath_if_no_explicit_rule es (&".codex") in
  restricted (append_defaults writable_roots es).

(** [From<&SandboxPolicy>] *)
Definition from_sandbox_policy (value : SandboxPolicy) : FileSystemSandboxPolicy :=
  match value with
  | DangerFullAccess => unrestricted
  | ExternalSandboxPolicy _ => external_sandbox
  | ReadOnly _ => restricted [{| e_path := Special Root; e_access := Read |}]
  | WorkspaceWrite writable_roots _ exclude_tmpdir_env_var exclude_slash_tmp =>
      workspace_write writable_roots exclude_tmpdir_env_var exclude_slash_tmp
  end.

Definition network_from_sandbox_policy (value : SandboxPolicy) : NetworkSandboxPolicy :=
  if has_full_network_access value then NetworkEnabled else NetworkRestricted.

Definition from_legacy_sandbox_policy_for_cwd (sandbox_policy : SandboxPolicy) (cwd : str) : FileSystemSandboxPolicy :=
  let p := from_sandbox_policy sandbox_policy in
  match sandbox_policy with
  | WorkspaceWrite writable_roots _ _ _ =>
      with_entries (append_defaults writable_roots (append_cwd_defaults cwd (entries p))) p
  | _ => p
  end.

Definition from_legacy_sandbox_policy_preserving_deny_entries (sandbox_policy : SandboxPolicy) (cwd : str)
    (existing : FileSystemSandboxPolicy) : FileSystemSandboxPolicy :=
  let rebuilt := from_legacy_sandbox_policy_for_cwd sandbox_policy cwd in
  if negb (is_restricted rebuilt) then rebuilt
  else with_entries (add_missing_denies (entries existing) (entries rebuilt))
         (with_depth (glob_scan_max_depth existing) rebuilt).

Definition legacy_runtime_file_system_policy_for_cwd (sandbox_policy : SandboxPolicy) (cwd : str)
  : FileSystemSandboxPolicy :=
  match sandbox_policy with
  | WorkspaceWrite writable_roots _ exclude_tmpdir_env_var exclude_slash_tmp =>
      restricted (append_defaults writable_roots (append_cwd_defaults cwd
        (workspace_write_entries writable_roots exclude_tmpdir_env_var exclude_slash_tmp)))
  | _ => from_sandbox_policy sandbox_policy
  end.

(** ** Resolving entries and paths *)

(** The last ancestor of an absolute path on Unix is the root, so neither [panic!]
    of the source is reached; see [absolute_root_path_normal]. *)
Definition absolute_root_path_for_cwd (cwd : str) : str :=
  default cwd (last (ancestors cwd) ≫= from_absolute_path).

Definition resolve_file_system_special_path (value : FileSystemSpecialPath) (cwd : option str) : option str :=
  match value with
  | Root | Minimal | UnknownPath _ _ => None
  | ProjectRoots subpath =>
      cwd ← cwd;
      match subpath with Some subpath => Some (resolve_path_against_base subpath cwd) | None => Some cwd end
  | Tmpdir =>
      tmpdir ← tmpdir_var;
      match tmpdir with [] => None | _ => from_absolute_path tmpdir end
  | SlashTmp =>
      slash_tmp ← from_absolute_path (&"/tmp");
      if is_dir slash_tmp then Some slash_tmp else None
  end.

Definition resolve_file_system_path (path : FileSystemPath) (cwd : option str) : option str :=
  match path with
  | Path path => Some path
  | GlobPattern _ => None
  | Special value => resolve_file_system_special_path value cwd
  end.

Definition resolve_entry_path (path : FileSystemPath) (cwd : option str) : option str :=
  match path with
  | Special Root => option_map absolute_root_path_for_cwd cwd
  | _ => resolve_file_system_path path cwd
  end.

Definition resolve_candidate_path (path cwd : str) : option str :=
  if is_absolute path then from_absolute_path path
  else cwd ← from_absolute_path cwd; Some (abs_join cwd path).

Definition resolve_project_roots_glob_pattern (subpath root : str) : str := resolve_path_against_base subpath root.

Definition resolved_entries_with_cwd (p : FileSystemSandboxPolicy) (cwd : str) : list ResolvedFileSystemEntry :=
  let cwd_absolute := from_absolute_path cwd in
  omap (fun entry =>
    option_map (fun path => {| r_path := path; r_access := e_access entry |})
      (resolve_entry_path (e_path entry) cwd_absolute)) (entries p).

(** [resolved_entry_precedence], compared as a pair *)
Definition precedence_le (a b : ResolvedFileSystemEntry) : bool :=
  let specificity e := length (components (r_path e)) in
  (specificity a <? specificity b) ||
  ((specificity a =? specificity b) && (access_rank (r_access a) <=? access_rank (r_access b))).

(** [max_by_key]: the last one of the largest *)
Definition max_entry (l : list ResolvedFileSystemEntry) : option ResolvedFileSystemEntry :=
  foldl (fun best e =>
    match best with
    | Some b => if precedence_le b e then Some e else best
    | None => Some e
    end) None l.

Definition resolve_access_with_cwd (p : FileSystemSandboxPolicy) (path cwd : str) : FileSystemAccessMode :=
  match kind p with
  | Unrestricted | ExternalSandbox => Write
  | Restricted =>
      match resolve_candidate_path path cwd with
      | None => Deny
      | Some path =>
          match max_entry (List.filter (fun entry => path_starts_with path (r_path entry)) (resolved_entries_with_cwd p cwd)) with
          | Some entry => r_access entry
          | None => Deny
          end
      end
  end.

Definition can_read_path_with_cwd (p : FileSystemSandboxPolicy) (path cwd : str) : bool :=
  can_read (resolve_access_with_cwd p path cwd).

(** ** Protected metadata *)

Definition metadata_path_name (name : str) : option str :=
  List.find (fun metadata_name => str_eqb name metadata_name) PROTECTED_METADATA_PATH_NAMES.

(** The metadata child of one writable entry under which the target is *)
Definition metadata_child (target : str) (entry : ResolvedFileSystemEntry) : option (str * str) :=
  if negb (can_write (r_access entry)) then None
  else
    match path_strip_prefix target (r_path entry) with
    | Some (first_component :: _) =>
        metadata_name ← metadata_path_name (component_os_str first_component);
        Some (abs_join (r_path entry) metadata_name, metadata_name)
    | _ => None
    end.

Definition metadata_child_of_writable_root (p : FileSystemSandboxPolicy) (target cwd : str) : option (str * str) :=
  head (omap (metadata_child target) (resolved_entries_with_cwd p cwd)).

Definition has_explicit_write_entry_for_metadata_path (p : FileSystemSandboxPolicy)
    (protected_metadata_path target cwd : str) : bool :=
  existsb (fun entry =>
    can_write (r_access entry) && path_starts_with target (r_path entry) &&
    path_starts_with (r_path entry) protected_metadata_path) (resolved_entries_with_cwd p cwd).

Definition is_metadata_write_denied (p : FileSystemSandboxPolicy) (path cwd : str) : bool :=
  if negb (is_restricted p) then false
  else
    match resolve_candidate_path path cwd with
    | None => true
    | Some target =>
        match metadata_child_of_writable_root p target cwd with
        | None => false
        | Some (protected_metadata_path, _) =>
            negb (has_explicit_write_entry_for_metadata_path p protected_metadata_path target cwd)
        end
    end.

Definition can_write_path_with_cwd (p : FileSystemSandboxPolicy) (path cwd : str) : bool :=
  if negb (can_write (resolve_access_with_cwd p path cwd)) then false
  else if has_full_disk_write_access p then true
  else negb (is_metadata_write_denied p path cwd).

Definition forbidden_agent_metadata_write (path cwd : str) (p : FileSystemSandboxPolicy) : option str :=
  if negb (is_restricted p) then None
  else
    target ← resolve_candidate_path path cwd;
    '(protected_metadata_path, metadata_name) ← metadata_child_of_writable_root p target cwd;
    if has_explicit_write_entry_for_metadata_path p protected_metadata_path target cwd then None
    else if negb (can_write_path_with_cwd p target cwd) then Some metadata_name else None.

(** ** Roots *)

Definition get_readable_roots_with_cwd (p : FileSystemSandboxPolicy) (cwd : str) : list str :=
  if has_full_disk_read_access p then []
  else
    dedup_absolute_paths
      (map r_path (List.filter (fun entry => can_read_path_with_cwd p (r_path entry) cwd)
        (List.filter (fun entry => can_read (r_access entry)) (resolved_entries_with_cwd p cwd)))) true.

Definition protected_metadata_names_for_writable_root (p : FileSystemSandboxPolicy) (root : str)
    (raw_writable_roots : list str) (cwd : str) : list str :=
  List.filter (fun metadata_name =>
    forallb (fun metadata_path => negb (can_write_path_with_cwd p metadata_path cwd))
      (abs_join root metadata_name :: map (fun raw_root => abs_join raw_root metadata_name) raw_writable_roots))
    PROTECTED_METADATA_PATH_NAMES.

Definition has_explicit_resolved_path_entry (es : list ResolvedFileSystemEntry) (path : str) : bool :=
  existsb (fun entry => path_eqb (r_path entry) path) es.

(** [find_map] *)
Definition find_map {A B} (f : A -> option B) (l : list A) : option B := head (omap f l).

(** The path inside [root] that masks a narrower entry that is not writable *)
Definition carveout (root : str) (raw_writable_roots : list str) (entry : ResolvedFileSystemEntry) : option str :=
  let preserve_raw_carveout_paths := match parent root with Some _ => true | None => false end in
  let effective_path := normalize_effective_absolute_path (r_path entry) in
  let raw_carveout_path :=
    if preserve_raw_carveout_paths then
      if path_eqb (r_path entry) root then None
      else if path_starts_with (r_path entry) root then Some (r_path entry)
      else
        find_map (fun raw_root =>
          match path_strip_prefix (r_path entry) raw_root with
          | Some (_ :: _ as suffix) => Some (abs_join root (render_relative suffix))
          | _ => None
          end) raw_writable_roots
    else None in
  match raw_carveout_path with
  | Some path => Some path
  | None =>
      if path_eqb effective_path root || negb (path_starts_with effective_path root) then None else Some effective_path
  end.

Definition writable_root (p : FileSystemSandboxPolicy) (cwd : str) (writable_entries : list str) (root : str)
  : WritableRoot :=
  let resolved_entries := resolved_entries_with_cwd p cwd in
  let raw_writable_roots :=
    List.filter (fun path => path_eqb (normalize_effective_absolute_path path) root) writable_entries in
  let protect_missing_dot_codex :=
    match from_absolute_path cwd with
    | Some cwd => path_eqb (normalize_effective_absolute_path cwd) root
    | None => false
    end in
  let defaults :=
    List.filter (fun path => negb (has_explicit_resolved_path_entry resolved_entries path))
      (default_read_only_subpaths_for_writable_root root protect_missing_dot_codex) in
  let carveouts :=
    omap (carveout root raw_writable_roots)
      (List.filter (fun entry => negb (can_write_path_with_cwd p (r_path entry) cwd))
        (List.filter (fun entry => negb (can_write (r_access entry))) resolved_entries)) in
  {| root := root;
     read_only_subpaths := dedup_absolute_paths (defaults ++ carveouts) false;
     protected_metadata_names := protected_metadata_names_for_writable_root p root raw_writable_roots cwd |}.

Definition writable_entries (p : FileSystemSandboxPolicy) (cwd : str) : list str :=
  map r_path (List.filter (fun entry => can_write_path_with_cwd p (r_path entry) cwd)
    (List.filter (fun entry => can_write (r_access entry)) (resolved_entries_with_cwd p cwd))).

Definition get_writable_roots_with_cwd (p : FileSystemSandboxPolicy) (cwd : str) : list WritableRoot :=
  if has_full_disk_write_access p then []
  else
    let es := writable_entries p cwd in
    map (writable_root p cwd es) (dedup_absolute_paths es true).

Definition get_unreadable_roots_with_cwd (p : FileSystemSandboxPolicy) (cwd : str) : list str :=
  if negb (is_restricted p) then []
  else
    let root := option_map absolute_root_path_for_cwd (from_absolute_path cwd) in
    dedup_absolute_paths
      (map r_path
        (List.filter (fun entry => negb (opt_path_eqb root (Some (r_path entry))))
          (List.filter (fun entry => negb (can_read_path_with_cwd p (r_path entry) cwd))
            (List.filter (fun entry => is_deny (r_access entry)) (resolved_entries_with_cwd p cwd))))) true.

Definition get_unreadable_globs_with_cwd (p : FileSystemSandboxPolicy) (cwd : str) : list str :=
  if negb (is_restricted p) then []
  else
    dedup_by str_eqb (sort_by str_leb
      (omap (fun entry => match e_path entry with
                          | GlobPattern pattern => Some (resolve_path_against_base pattern cwd)
                          | _ => None
                          end)
        (List.filter (fun entry => is_deny (e_access entry)) (entries p)))).

(** [SandboxPolicy::get_writable_roots_with_cwd] *)
Definition legacy_get_writable_roots_with_cwd (p : SandboxPolicy) (cwd : str) : list WritableRoot :=
  match p with
  | DangerFullAccess | ExternalSandboxPolicy _ | ReadOnly _ => []
  | WorkspaceWrite writable_roots _ exclude_tmpdir_env_var exclude_slash_tmp =>
      let cwd_root := from_absolute_path cwd in
      let roots :=
        writable_roots ++ option_list cwd_root ++
        (if negb exclude_slash_tmp
         then match from_absolute_path (&"/tmp") with Some t => if is_dir t then [t] else [] | None => [] end else []) ++
        (if negb exclude_tmpdir_env_var
         then match tmpdir_var with
              | Some ((_ :: _) as tmpdir) => option_list (from_absolute_path tmpdir)
              | _ => []
              end
         else []) in
      map (fun writable_root =>
        {| root := writable_root;
           read_only_subpaths :=
             default_read_only_subpaths_for_writable_root writable_root
               (match cwd_root with Some c => path_eqb c writable_root | None => false end);
           protected_metadata_names := [] |}) roots
  end.

(** ** The older policy, back *)

Definition UNSUPPORTED_WRITES : str :=
  &"permissions profile requests filesystem writes outside the workspace root, which is not supported until the runtime enforces FileSystemSandboxPolicy directly".

Record LegacyScan := {
  workspace_root_writable : bool;
  scan_writable_roots : list str;
  tmpdir_writable : bool;
  slash_tmp_writable : bool;
  unbridgeable_root_write : bool
}.

Definition set_workspace (s : LegacyScan) : LegacyScan :=
  {| workspace_root_writable := true; scan_writable_roots := scan_writable_roots s; tmpdir_writable := tmpdir_writable s;
     slash_tmp_writable := slash_tmp_writable s; unbridgeable_root_write := unbridgeable_root_write s |}.
Definition push_root (path : str) (s : LegacyScan) : LegacyScan :=
  {| workspace_root_writable := workspace_root_writable s; scan_writable_roots := scan_writable_roots s ++ [path];
     tmpdir_writable := tmpdir_writable s; slash_tmp_writable := slash_tmp_writable s;
     unbridgeable_root_write := unbridgeable_root_write s |}.
Definition set_tmpdir (s : LegacyScan) : LegacyScan :=
  {| workspace_root_writable := workspace_root_writable s; scan_writable_roots := scan_writable_roots s;
     tmpdir_writable := true; slash_tmp_writable := slash_tmp_writable s;
     unbridgeable_root_write := unbridgeable_root_write s |}.
Definition set_slash_tmp (s : LegacyScan) : LegacyScan :=
  {| workspace_root_writable := workspace_root_writable s; scan_writable_roots := scan_writable_roots s;
     tmpdir_writable := tmpdir_writable s; slash_tmp_writable := true;
     unbridgeable_root_write := unbridgeable_root_write s |}.
Definition set_unbridgeable (s : LegacyScan) : LegacyScan :=
  {| workspace_root_writable := workspace_root_writable s; scan_writable_roots := scan_writable_roots s;
     tmpdir_writable := tmpdir_writable s; slash_tmp_writable := slash_tmp_writable s; unbridgeable_root_write := true |}.

Definition scan_entry (cwd_absolute : option str) (s : LegacyScan) (entry : FileSystemSandboxEntry) : LegacyScan :=
  let writes := can_write (e_access entry) in
  match e_path entry with
  | GlobPattern _ => s
  | Path path =>
      if writes then
        if match cwd_absolute with Some cwd => path_eqb cwd path | None => false end then set_workspace s
        else push_root path s
      else s
  | Special Root => if writes then set_unbridgeable s else s
  | Special Minimal => s
  | Special (ProjectRoots subpath) =>
      if match subpath with None => writes | Some _ => false end then set_workspace s
      else
        match resolve_file_system_special_path (ProjectRoots subpath) cwd_absolute with
        | Some path => if writes then push_root path s else s
        | None => s
        end
  | Special Tmpdir => if writes then set_tmpdir s else s
  | Special SlashTmp => if writes then set_slash_tmp s else s
  | Special (UnknownPath _ _) => s
  end.

Definition to_legacy_sandbox_policy (p : FileSystemSandboxPolicy) (network_policy : NetworkSandboxPolicy) (cwd : str)
  : comp str SandboxPolicy :=
  let full_access :=
    if network_is_enabled network_policy then DangerFullAccess else ExternalSandboxPolicy AccessRestricted in
  match kind p with
  | ExternalSandbox =>
      Ok (ExternalSandboxPolicy (if network_is_enabled network_policy then AccessEnabled else AccessRestricted))
  | Unrestricted => Ok full_access
  | Restricted =>
      let s := foldl (scan_entry (from_absolute_path cwd))
        {| workspace_root_writable := false; scan_writable_roots := []; tmpdir_writable := false;
           slash_tmp_writable := false; unbridgeable_root_write := false |} (entries p) in
      if has_full_disk_write_access p then Ok full_access
      else if workspace_root_writable s then
        Ok (WorkspaceWrite (dedup_absolute_paths (scan_writable_roots s) false) (network_is_enabled network_policy)
              (negb (tmpdir_writable s)) (negb (slash_tmp_writable s)))
      else if unbridgeable_root_write s || negb (bool_decide (scan_writable_roots s = [])) || tmpdir_writable s ||
              slash_tmp_writable s
      then Err UNSUPPORTED_WRITES
      else Ok (ReadOnly (network_is_enabled network_policy))
  end.

(** ** Comparing policies *)

Record FileSystemSemanticSignature := {
  sig_full_disk_read : bool;
  sig_full_disk_write : bool;
  sig_platform_defaults : bool;
  sig_readable_roots : list str;
  sig_writable_roots : list WritableRoot;
  sig_unreadable_roots : list str;
  sig_unreadable_globs : list str
}.

Definition sorted_absolute_paths (paths : list str) : list str := sort_by path_leb paths.

Definition sorted_writable_roots (roots : list WritableRoot) : list WritableRoot :=
  sort_by (fun l r => path_leb (root l) (root r))
    (map (fun w => {| root := root w; read_only_subpaths := sorted_absolute_paths (read_only_subpaths w);
                      protected_metadata_names := dedup_by str_eqb (sort_by str_leb (protected_metadata_names w)) |}) roots).

Definition semantic_signature (p : FileSystemSandboxPolicy) (cwd : str) : FileSystemSemanticSignature :=
  {| sig_full_disk_read := has_full_disk_read_access p;
     sig_full_disk_write := has_full_disk_write_access p;
     sig_platform_defaults := include_platform_defaults p;
     sig_readable_roots := sorted_absolute_paths (get_readable_roots_with_cwd p cwd);
     sig_writable_roots := sorted_writable_roots (get_writable_roots_with_cwd p cwd);
     sig_unreadable_roots := sorted_absolute_paths (get_unreadable_roots_with_cwd p cwd);
     sig_unreadable_globs := get_unreadable_globs_with_cwd p cwd |}.

(** Derived equality *)
Fixpoint list_eqb {A} (eqb : A -> A -> bool) (a b : list A) : bool :=
  match a, b with
  | [], [] => true
  | x :: a, y :: b => eqb x y && list_eqb eqb a b
  | _, _ => false
  end.
Definition writable_root_eqb (a b : WritableRoot) : bool :=
  path_eqb (root a) (root b) && list_eqb path_eqb (read_only_subpaths a) (read_only_subpaths b) &&
  list_eqb str_eqb (protected_metadata_names a) (protected_metadata_names b).
Definition signature_eqb (a b : FileSystemSemanticSignature) : bool :=
  Bool.eqb (sig_full_disk_read a) (sig_full_disk_read b) && Bool.eqb (sig_full_disk_write a) (sig_full_disk_write b) &&
  Bool.eqb (sig_platform_defaults a) (sig_platform_defaults b) &&
  list_eqb path_eqb (sig_readable_roots a) (sig_readable_roots b) &&
  list_eqb writable_root_eqb (sig_writable_roots a) (sig_writable_roots b) &&
  list_eqb path_eqb (sig_unreadable_roots a) (sig_unreadable_roots b) &&
  list_eqb str_eqb (sig_unreadable_globs a) (sig_unreadable_globs b).

Definition is_semantically_equivalent_to (p other : FileSystemSandboxPolicy) (cwd : str) : bool :=
  signature_eqb (semantic_signature p cwd) (semantic_signature other cwd).

Definition protected_metadata_names_need_direct_runtime_enforcement (p : FileSystemSandboxPolicy)
    (legacy_policy : SandboxPolicy) (cwd : str) : bool :=
  let legacy_roots := legacy_get_writable_roots_with_cwd legacy_policy cwd in
  existsb (fun w =>
    match List.find (fun candidate => path_eqb (root candidate) (root w)) legacy_roots with
    | None => negb (bool_decide (protected_metadata_names w = []))
    | Some legacy_root =>
        existsb (fun metadata_name =>
          let metadata_path := abs_join (root w) metadata_name in
          negb (existsb (fun subpath => path_eqb subpath metadata_path) (read_only_subpaths legacy_root)))
          (protected_metadata_names w)
    end) (get_writable_roots_with_cwd p cwd).

Definition needs_direct_runtime_enforcement (p : FileSystemSandboxPolicy) (network_policy : NetworkSandboxPolicy)
    (cwd : str) : bool :=
  if negb (is_restricted p) then false
  else
    match to_legacy_sandbox_policy p network_policy cwd with
    | Ok legacy_policy =>
        if protected_metadata_names_need_direct_runtime_enforcement p legacy_policy cwd then true
        else negb (signature_eqb (semantic_signature p cwd)
                     (semantic_signature (legacy_runtime_file_system_policy_for_cwd legacy_policy cwd) cwd))
    | _ => true
    end.

(** ** Materialising project roots *)

Definition materialize_entry_with_cwd (cwd : option str) (entry : FileSystemSandboxEntry) : FileSystemSandboxEntry :=
  match e_path entry with
  | Special (ProjectRoots _) =>
      match resolve_file_system_path (e_path entry) cwd with
      | Some path => {| e_path := Path path; e_access := e_access entry |}
      | None => entry
      end
  | GlobPattern pattern =>
      match cwd, parse_project_roots_glob_pattern pattern with
      | Some cwd, Some subpath =>
          {| e_path := GlobPattern (resolve_project_roots_glob_pattern subpath cwd); e_access := e_access entry |}
      | _, _ => entry
      end
  | Special _ | Path _ => entry
  end.

Definition materialize_project_roots_with_cwd (p : FileSystemSandboxPolicy) (cwd : str) : FileSystemSandboxPolicy :=
  with_entries (map (materialize_entry_with_cwd (from_absolute_path cwd)) (entries p)) p.

Definition materialize_entry_with_roots (workspace_roots : list str) (entry : FileSystemSandboxEntry)
  : list FileSystemSandboxEntry :=
  match e_path entry with
  | Special (ProjectRoots subpath) =>
      map (fun root =>
        {| e_path := Path (match subpath with Some s => resolve_path_against_base s root | None => root end);
           e_access := e_access entry |}) workspace_roots
  | GlobPattern pattern =>
      match parse_project_roots_glob_pattern pattern with
      | Some subpath =>
          map (fun root => {| e_path := GlobPattern (resolve_project_roots_glob_pattern subpath root);
                              e_access := e_access entry |}) workspace_roots
      | None => [entry]
      end
  | Path _ | Special _ => [entry]
  end.

Definition materialize_project_roots_with_workspace_roots (p : FileSystemSandboxPolicy) (workspace_roots : list str)
  : FileSystemSandboxPolicy := with_entries (mbind (materialize_entry_with_roots workspace_roots) (entries p)) p.

Definition with_materialized_project_roots_for_workspace_roots (p : FileSystemSandboxPolicy) (workspace_roots : list str)
  : FileSystemSandboxPolicy :=
  let materialized := materialize_project_roots_with_workspace_roots p workspace_roots in
  with_entries
    (foldl (fun es entry => if existsb (fun e => entry_eqb e entry) es then es else es ++ [entry])
       (entries p) (entries materialized)) p.

(** ** Granting more *)

Definition with_additional_readable_roots (p : FileSystemSandboxPolicy) (cwd : str) (roots : list str)
  : FileSystemSandboxPolicy :=
  if has_full_disk_read_access p then p
  else
    foldl (fun p path =>
      if can_read_path_with_cwd p path cwd then p else with_entries (push_entry (Path path) Read (entries p)) p) p roots.

Definition with_additional_writable_roots (p : FileSystemSandboxPolicy) (cwd : str) (roots : list str)
  : FileSystemSandboxPolicy :=
  foldl (fun p path =>
    if can_write_path_with_cwd p path cwd then p else with_entries (push_entry (Path path) Write (entries p)) p) p roots.

Definition with_additional_legacy_workspace_writable_roots (p : FileSystemSandboxPolicy) (roots : list str)
  : FileSystemSandboxPolicy :=
  if negb (is_restricted p) then p
  else
    foldl (fun p path =>
      let es :=
        if negb (existsb (fun entry =>
             can_write (e_access entry) && match e_path entry with Path existing => path_eqb existing path | _ => false end)
             (entries p))
        then push_entry (Path path) Write (entries p) else entries p in
      with_entries
        (foldl append_default_read_only_path_if_no_explicit_rule es
           (default_read_only_subpaths_for_writable_root path false)) p) p roots.

(** ** Reads that are denied *)

Definition push_unique (candidates : list str) (candidate : str) : list str :=
  if negb (existsb (fun existing => path_eqb existing candidate) candidates) then candidates ++ [candidate] else candidates.

Definition normalized_and_canonical_candidates (path : str) : list str :=
  let candidates := push_unique [] (default path (from_absolute_path path)) in
  match fs_canonicalize path ≫= from_absolute_path with
  | Some canonical_absolute => push_unique candidates canonical_absolute
  | None => candidates
  end.

Section matcher.
Context `{!GlobLib}.

Record ReadDenyMatcher := {
  denied_candidates : list (list str);
  deny_read_matchers : list GlobMatcher;
  invalid_pattern : bool
}.

Inductive InvalidDenyReadGlobBehavior := FailClosed | ReturnError.

Fixpoint compile_globs (behavior : InvalidDenyReadGlobBehavior) (patterns : list str)
  : comp str (list GlobMatcher * bool) :=
  match patterns with
  | [] => Ok ([], false)
  | pattern :: patterns =>
      match glob_build pattern with
      | inr matcher => let? '(ms, invalid) := compile_globs behavior patterns in Ok (matcher :: ms, invalid)
      | inl err =>
          match behavior with
          | FailClosed => let? '(ms, _) := compile_globs behavior patterns in Ok (ms, true)
          | ReturnError => Err (&"invalid deny-read glob pattern `" ++ pattern ++ &"`: " ++ err)
          end
      end
  end.

Definition build_matcher (p : FileSystemSandboxPolicy) (cwd : str) (behavior : InvalidDenyReadGlobBehavior)
  : comp str (option ReadDenyMatcher) :=
  if negb (has_denied_read_restrictions p) then Ok None
  else
    let denied := map normalized_and_canonical_candidates (get_unreadable_roots_with_cwd p cwd) in
    let? '(ms, invalid) := compile_globs behavior (get_unreadable_globs_with_cwd p cwd) in
    Ok (Some {| denied_candidates := denied; deny_read_matchers := ms; invalid_pattern := invalid |}).

(** [unreachable!] is a panic *)
Definition new_matcher (p : FileSystemSandboxPolicy) (cwd : str) : comp str (option ReadDenyMatcher) :=
  match build_matcher p cwd FailClosed with Err _ => Panic | r => r end.
Definition try_new_matcher (p : FileSystemSandboxPolicy) (cwd : str) : comp str (option ReadDenyMatcher) :=
  build_matcher p cwd ReturnError.

Definition is_read_denied (m : ReadDenyMatcher) (path : str) : bool :=
  if invalid_pattern m then true
  else
    let path_candidates := normalized_and_canonical_candidates path in
    if existsb (fun denied =>
         existsb (fun candidate =>
           existsb (fun d => path_eqb candidate d || path_starts_with candidate d) denied) path_candidates)
         (denied_candidates m)
    then true
    else existsb (fun matcher => existsb (glob_is_match matcher) path_candidates) (deny_read_matchers m).
End matcher.
End host.
