(* ===== verification/PermissionFacts.v ===== *)
(** * What the file system policy promises

    The theorems of [Permissions]: a path gets the access of its most specific
    entry, the writable roots handed to the sandboxes allow exactly what the
    policy allows, metadata directories stay protected, denied reads are matched,
    and the older policy survives a round trip. *)
From S2P Require Import Prelude RustStr RustPath AbsolutePath ExecPolicy PathPrefix Permissions.

(** ** Laws of the host *)

(** [std::env::current_dir] is absolute. *)
Class ProcessEnvOk `{!ProcessEnv} := current_dir_absolute d : env_current_dir = Some d -> is_absolute d = true.

(** A host on which no path of interest goes through a symbolic link. *)
Class PlainHost `{!HostFs} := canonicalize_plain p q : normal_absolute p -> fs_canonicalize p = Some q -> q = p.

(** ** Normal absolute paths *)

Definition within (p q : str) : Prop := names_of q `prefix_of` names_of p.

Lemma within_refl p : within p p.
Proof. unfold within. reflexivity. Qed.

Lemma within_trans p q r : within p q -> within q r -> within p r.
Proof. unfold within. intros H1 H2. by etrans. Qed.

Definition depth (p : str) : nat := length (names_of p).

Lemma within_depth p q : within p q -> depth q <= depth p.
Proof. apply prefix_length. Qed.

Lemma within_linear p q r : within p q -> within p r -> depth q <= depth r -> within r q.
Proof.
  intros H1 H2 Hd. destruct (prefix_weak_total _ _ _ H1 H2) as [H|H]; [done|]. unfold within.
  rewrite (prefix_length_eq _ _ H Hd). done.
Qed.

Lemma within_antisym p q : normal_absolute p -> normal_absolute q -> within p q -> depth p <= depth q -> p = q.
Proof. intros Hp Hq H Hd. apply names_of_inj; [done..|]. symmetry. by apply prefix_length_eq. Qed.

Lemma components_depth p : normal_absolute p -> length (components p) = S (depth p).
Proof. intros (_ & _ & ->)%normal_absolute_names. cbn. by rewrite length_map. Qed.

Lemma normal_is_absolute p : normal_absolute p -> is_absolute p = true.
Proof. intros (names & -> & _). apply absolute_of_is_absolute. Qed.

Lemma dedup_paths_spec seen l :
  Forall normal_absolute (seen ++ l) ->
  (forall x, x ∈ dedup_paths seen l <-> x ∈ l /\ x ∉ seen) /\ NoDup (dedup_paths seen l).
Proof.
  revert seen. induction l as [|y l IH]; intros seen Hf; cbn [dedup_paths].
  { split; [set_solver|constructor]. }
  pose proof Hf as [Hs [Hy Hl]%Forall_cons]%Forall_app.
  assert (existsb (path_eqb y) seen = true <-> y ∈ seen) as Hin.
  { rewrite existsb_elem. split; [|intros Hys; exists y; split; [done|apply path_eqb_refl]].
    intros (z & Hz & E). rewrite Forall_forall in Hs. apply path_eqb_normal in E as ->; auto. }
  destruct (existsb (path_eqb y) seen) eqn:E.
  - destruct (IH seen) as [H1 H2]; [by apply Forall_app|]. apply proj1 in Hin. specialize (Hin eq_refl).
    split; [|done]. intros x. rewrite H1, elem_of_cons. naive_solver.
  - destruct (IH (y :: seen)) as [H1 H2].
    { cbn. constructor; [done|]. by apply Forall_app. }
    assert (y ∉ seen) by (intros ?%Hin; done). split.
    + intros x. rewrite elem_of_cons, H1, !elem_of_cons. destruct (decide (x = y)) as [->|]; naive_solver.
    + constructor; [|done]. rewrite H1, elem_of_cons. naive_solver.
Qed.

Lemma dedup_paths_elem l x : Forall normal_absolute l -> x ∈ dedup_paths [] l <-> x ∈ l.
Proof. intros H. rewrite (proj1 (dedup_paths_spec [] l H)). set_solver. Qed.

(** Deciding that a path is normalised *)
Definition normal_check (p : str) : bool :=
  str_eqb (absolute_of (names_of p)) p && forallb name_ok (names_of p).

Lemma normal_check_ok p : normal_check p = true -> normal_absolute p.
Proof.
  intros [E%str_eqb_eq H%forallb_Forall]%andb_prop. exists (names_of p). by split.
Qed.

Lemma normal_check_all l : forallb normal_check l = true -> Forall normal_absolute l.
Proof. intros H%forallb_Forall. eapply Forall_impl; [exact H|]. apply normal_check_ok. Qed.

Section paths.
Context `{Henv : !ProcessEnv}.

Lemma from_absolute_path_normal p : normal_absolute p -> from_absolute_path p = Some p.
Proof.
  intros Hp. pose proof (normal_is_absolute _ Hp) as Ha. unfold from_absolute_path, absolutize.
  rewrite expand_absolute by done. rewrite Ha. destruct Hp as (names & -> & Hn). by rewrite normalize_path_id.
Qed.

Lemma from_absolute_path_result `{!ProcessEnvOk} p q : from_absolute_path p = Some q -> normal_absolute q.
Proof.
  unfold from_absolute_path, absolutize. destruct (is_absolute _) eqn:E.
  - intros [= <-]. by apply normalize_path_normal.
  - destruct env_current_dir as [d|] eqn:Ed; [|done]. intros [= <-].
    apply normalize_path_normal, path_with_base_absolute. by apply current_dir_absolute.
Qed.

Lemma resolve_base_normal p base : normal_absolute base -> normal_absolute (resolve_path_against_base p base).
Proof. intros Hb. by apply normalize_path_normal, path_with_base_absolute, normal_is_absolute. Qed.

Lemma resolve_candidate_normal p cwd : normal_absolute p -> resolve_candidate_path p cwd = Some p.
Proof.
  intros Hp. unfold resolve_candidate_path. rewrite normal_is_absolute by done. by apply from_absolute_path_normal.
Qed.

Lemma protected_name_ok n : n ∈ PROTECTED_METADATA_PATH_NAMES -> name_ok n = true /\ maybe_expand_home_directory n = n.
Proof.
  unfold PROTECTED_METADATA_PATH_NAMES, maybe_expand_home_directory. rewrite !elem_of_cons, elem_of_nil.
  intros [->|[->|[->|[]]]]; (split; [by vm_compute|by destruct home_dir]).
Qed.

Lemma abs_join_metadata base n :
  normal_absolute base -> n ∈ PROTECTED_METADATA_PATH_NAMES ->
  normal_absolute (abs_join base n) /\ names_of (abs_join base n) = names_of base ++ [n].
Proof.
  intros Hb [Hn He]%protected_name_ok. split; [by apply resolve_base_normal|].
  unfold abs_join, resolve_path_against_base, absolutize_from, path_with_base. rewrite He.
  assert (good_names [n]) as Hg by by constructor.
  assert (is_absolute n = false) as -> by apply (relative_join_not_absolute [n] Hg).
  change n with (join [slash] [n]) at 1. rewrite normalize_join_names by done.
  apply names_of_absolute, Forall_app. split; [|done]. by apply normal_absolute_names.
Qed.

Lemma render_relative_names names : render_relative (map Normal names) = join [slash] names.
Proof.
  unfold render_relative. f_equal. induction names as [|n names IH]; [done|]. cbn. by rewrite IH.
Qed.

Lemma from_absolute_path_join base names :
  normal_absolute base -> good_names names ->
  from_absolute_path (path_join base (join [slash] names)) = Some (absolute_of (names_of base ++ names)).
Proof.
  intros Hb Hn. unfold from_absolute_path, absolutize.
  assert (is_absolute (path_join base (join [slash] names)) = true) as Ha
    by by apply is_absolute_join, normal_is_absolute.
  rewrite expand_absolute, Ha by done. by rewrite normalize_join_names.
Qed.

(** The last ancestor of an absolute path is the root: neither panic of
    [absolute_root_path_for_cwd] is reached. *)
Lemma absolute_root_path_normal cwd :
  normal_absolute cwd ->
  (last (ancestors cwd) ≫= from_absolute_path) = Some (absolute_of []) /\
  absolute_root_path_for_cwd cwd = absolute_of [].
Proof.
  intros [_ Hl]%ancestors_normal. unfold absolute_root_path_for_cwd. rewrite Hl. cbn [mbind option_bind].
  rewrite from_absolute_path_normal by by exists []. done.
Qed.
End paths.

Section host.
Context `{Hfs : !HostFs, Henv : !ProcessEnv}.

(** Without symbolic links the effective path of a policy path is the path. *)
Lemma normalize_effective_plain `{!PlainHost} p : normal_absolute p -> normalize_effective_absolute_path p = p.
Proof.
  intros Hp. unfold normalize_effective_absolute_path.
  destruct (ancestors_normal p Hp) as [Hf _]. induction Hf as [|a l Ha Hf IH]; [done|]. cbn [first_normalized].
  destruct (symlink_metadata a); [|done].
  assert (canonicalize_preserving_symlinks a = Some a) as ->.
  { unfold canonicalize_preserving_symlinks. rewrite from_absolute_path_normal by done. cbn [mbind option_bind].
    destruct (fs_canonicalize a) as [q|] eqn:E; [|done]. apply canonicalize_plain in E as ->; [|done]. by destruct (_ && _). }
  destruct (path_strip_prefix p a) as [r|] eqn:E; [|done].
  apply path_strip_prefix_normal in E as (names & -> & Hn); [|done..].
  pose proof (normal_absolute_names _ Hp) as (Ep & Gp & _). rewrite Hn in Gp. apply Forall_app in Gp as [_ Gn].
  rewrite render_relative_names, from_absolute_path_join by done. rewrite <- Hn, <- Ep. done.
Qed.

(** *** Policies and their resolved entries *)

(** What the type [AbsolutePathBuf] of the entries guarantees. *)
Definition wf_entry (e : FileSystemSandboxEntry) : Prop := match e_path e with Path p => normal_absolute p | _ => True end.
Definition wf_policy (p : FileSystemSandboxPolicy) : Prop := Forall wf_entry (entries p).

Definition wf_check (p : FileSystemSandboxPolicy) : bool :=
  forallb (fun e => match e_path e with Path q => normal_check q | _ => true end) (entries p).

Lemma wf_check_ok p : wf_check p = true -> wf_policy p.
Proof.
  intros H%forallb_Forall. eapply Forall_impl; [exact H|]. intros e He. unfold wf_entry. cbn in He.
  destruct (e_path e); [by apply normal_check_ok|done..].
Qed.

Lemma resolve_special_normal `{!ProcessEnvOk} value cwd q :
  (forall c, cwd = Some c -> normal_absolute c) ->
  resolve_file_system_special_path value cwd = Some q -> normal_absolute q.
Proof.
  intros Hc. destruct value as [| |sub| | |]; cbn; try done.
  - destruct cwd as [c|]; cbn; [|done]. destruct sub; intros [= <-]; [apply resolve_base_normal|]; by apply Hc.
  - destruct tmpdir_var as [[|c t]|]; cbn; try done. apply from_absolute_path_result.
  - destruct (from_absolute_path _) as [t|] eqn:E; cbn; [|done]. destruct (is_dir t); [|done]. intros [= <-].
    by eapply from_absolute_path_result.
Qed.

Lemma resolved_entries_elem p cwd r :
  r ∈ resolved_entries_with_cwd p cwd <->
  exists e, e ∈ entries p /\ resolve_entry_path (e_path e) (from_absolute_path cwd) = Some (r_path r) /\ e_access e = r_access r.
Proof.
  unfold resolved_entries_with_cwd. rewrite list_elem_of_omap. split.
  - intros (e & He & H). apply fmap_Some in H as (q & Hq & ->). by exists e.
  - intros (e & He & Hq & Ha). exists e. split; [done|]. rewrite Hq. cbn. rewrite Ha. by destruct r.
Qed.

Lemma resolved_entries_normal `{!ProcessEnvOk} p cwd r :
  wf_policy p -> r ∈ resolved_entries_with_cwd p cwd -> normal_absolute (r_path r).
Proof.
  intros Hw (e & He & Hr & _)%resolved_entries_elem. unfold wf_policy in Hw. rewrite Forall_forall in Hw. apply Hw in He. unfold wf_entry in He.
  assert (forall c, from_absolute_path cwd = Some c -> normal_absolute c) as Hc by eauto using from_absolute_path_result.
  destruct (e_path e) as [q|g|v]; cbn in Hr; [by injection Hr as <-|done|].
  destruct v; cbn [resolve_entry_path resolve_file_system_path] in Hr; try by eapply resolve_special_normal.
  apply fmap_Some in Hr as (c & Ec & ->). rewrite (proj2 (absolute_root_path_normal c (Hc c Ec))). by exists [].
Qed.

(** ** The most specific entry decides *)

Definition covers (e : ResolvedFileSystemEntry) (p : str) : Prop := within p (r_path e).

(** [a] does not outrank [b]: it is less deep, or as deep with no stronger access. *)
Definition precedes (a b : ResolvedFileSystemEntry) : Prop :=
  depth (r_path a) < depth (r_path b) \/
  depth (r_path a) = depth (r_path b) /\ access_rank (r_access a) <= access_rank (r_access b).

(** [m] has the last word on [p]: no entry that covers [p] outranks it. *)
Definition decides (l : list ResolvedFileSystemEntry) (p : str) (m : ResolvedFileSystemEntry) : Prop :=
  m ∈ l /\ covers m p /\ forall e, e ∈ l -> covers e p -> precedes e m.

Definition entries_normal (l : list ResolvedFileSystemEntry) : Prop := forall e, e ∈ l -> normal_absolute (r_path e).

Lemma precedence_le_spec a b :
  normal_absolute (r_path a) -> normal_absolute (r_path b) -> precedence_le a b = true <-> precedes a b.
Proof.
  intros Ha Hb. unfold precedence_le, precedes. rewrite !components_depth by done.
  rewrite orb_true_iff, andb_true_iff, Nat.ltb_lt, Nat.eqb_eq, Nat.leb_le. lia.
Qed.

Lemma precedes_total a b : precedes a b \/ precedes b a.
Proof. unfold precedes. lia. Qed.

Lemma precedes_trans a b c : precedes a b -> precedes b c -> precedes a c.
Proof. unfold precedes. lia. Qed.

Lemma precedes_refl a : precedes a a.
Proof. unfold precedes. lia. Qed.

Lemma max_entry_fold l best :
  entries_normal (best :: l) ->
  exists m, foldl (fun best e => match best with Some b => if precedence_le b e then Some e else best | None => Some e end)
      (Some best) l = Some m /\ m ∈ best :: l /\ forall e, e ∈ best :: l -> precedes e m.
Proof.
  revert best. induction l as [|x l IH]; intros best Hn; cbn [foldl].
  { exists best. split_and!; [done|by left|]. intros e He. apply list_elem_of_singleton in He as ->. apply precedes_refl. }
  assert (precedence_le best x = true <-> precedes best x) as Hspec.
  { apply precedence_le_spec; apply Hn; rewrite !elem_of_cons; auto. }
  set (y := if precedence_le best x then x else best).
  assert (precedes best y /\ precedes x y /\ (y = best \/ y = x)) as (Hb & Hx & Hy).
  { unfold y. destruct (precedence_le best x).
    - split_and!; [by apply Hspec|apply precedes_refl|auto].
    - split_and!; [apply precedes_refl| |auto]. destruct (precedes_total best x) as [Hp|]; [|done].
      by apply Hspec in Hp. }
  destruct (IH y) as (m & Hf & Hm & Hle).
  { intros e He. apply Hn. apply elem_of_cons in He as [->|He]; rewrite !elem_of_cons; [|auto]. destruct Hy; auto. }
  exists m. split_and!.
  - rewrite <- Hf. unfold y. by destruct (precedence_le best x).
  - apply elem_of_cons in Hm as [->|Hm]; rewrite !elem_of_cons; [|auto]. destruct Hy; auto.
  - intros e He. rewrite !elem_of_cons in He. assert (precedes y m) as Hym by (apply Hle; left).
    destruct He as [->|[->|He]]; [by apply (precedes_trans _ y)..|]. apply Hle. by right.
Qed.

Lemma max_entry_spec l :
  entries_normal l ->
  match max_entry l with
  | Some m => m ∈ l /\ forall e, e ∈ l -> precedes e m
  | None => l = []
  end.
Proof.
  destruct l as [|x l]; [done|]. intros Hn. unfold max_entry. cbn [foldl].
  destruct (max_entry_fold l x Hn) as (m & -> & Hm). done.
Qed.

Lemma covers_starts_with e p :
  normal_absolute (r_path e) -> normal_absolute p -> path_starts_with p (r_path e) = true <-> covers e p.
Proof. intros He Hp. by apply path_starts_with_normal. Qed.

Lemma access_rank_inj a b : access_rank a = access_rank b -> a = b.
Proof. by destruct a, b. Qed.

Lemma decides_unique l p m m' : decides l p m -> decides l p m' -> r_access m = r_access m'.
Proof.
  intros (Hm & Hc & Hle) (Hm' & Hc' & Hle'). apply access_rank_inj.
  pose proof (Hle _ Hm' Hc') as H1. pose proof (Hle' _ Hm Hc) as H2. unfold precedes in *. lia.
Qed.

(** The deciding entry of a path decides everything between itself and the path. *)
Lemma decides_between l p q m : decides l p m -> covers m q -> within p q -> decides l q m.
Proof. intros (Hm & _ & Hle) Hq Hpq. split_and!; [done..|]. intros e He Hc. apply Hle; [done|]. by eapply within_trans. Qed.

Lemma decides_self l p m : decides l p m -> decides l (r_path m) m.
Proof. intros Hd. eapply decides_between; [done|apply within_refl|apply Hd]. Qed.

Section policy.
Context `{Hcur : !ProcessEnvOk} (pol : FileSystemSandboxPolicy) (cwd : str).
Hypothesis Hwf : wf_policy pol.
Let R := resolved_entries_with_cwd pol cwd.

Lemma R_normal : entries_normal R.
Proof. intros e. by apply resolved_entries_normal. Qed.

Lemma covering_max p :
  normal_absolute p ->
  match max_entry (List.filter (fun entry => path_starts_with p (r_path entry)) R) with
  | Some m => decides R p m
  | None => forall e, e ∈ R -> ~ covers e p
  end.
Proof.
  intros Hp. set (F := List.filter _ R).
  assert (forall e, e ∈ F <-> e ∈ R /\ covers e p) as HF.
  { intros e. unfold F. rewrite elem_of_filterb.
    split; intros [He Hc]; (split; [done|]); [apply covers_starts_with in Hc|apply covers_starts_with]; auto using R_normal. }
  pose proof (max_entry_spec F) as Hm. destruct (max_entry F) as [m|].
  - destruct Hm as [Hm Hle]; [intros e [He _]%HF; by apply R_normal|]. apply HF in Hm as [Hm Hc].
    split_and!; [done..|]. intros e He Hce. apply Hle, HF. done.
  - intros e He Hc. assert (e ∈ F) as HeF by by apply HF. rewrite Hm in HeF; [by apply not_elem_of_nil in HeF|].
    intros e' [He' _]%HF. by apply R_normal.
Qed.

Hypothesis Hkind : kind pol = Restricted.

Lemma access_decided p :
  normal_absolute p ->
  (exists m, decides R p m /\ resolve_access_with_cwd pol p cwd = r_access m) \/
  (forall e, e ∈ R -> ~ covers e p) /\ resolve_access_with_cwd pol p cwd = Deny.
Proof.
  intros Hp. unfold resolve_access_with_cwd. rewrite Hkind, resolve_candidate_normal by done.
  pose proof (covering_max p Hp) as Hm. fold R. destruct (max_entry _) as [m|]; [left; by exists m|by right].
Qed.

Lemma decides_access p m : normal_absolute p -> decides R p m -> resolve_access_with_cwd pol p cwd = r_access m.
Proof.
  intros Hp Hd. destruct (access_decided p Hp) as [(m' & Hd' & ->)|[Hn _]]; [by eapply decides_unique|].
  destruct Hd as (Hm & Hc & _). by destruct (Hn m Hm).
Qed.

(** ** Protected metadata *)

Lemma metadata_path_name_Some s n :
  metadata_path_name s = Some n <-> s = n /\ n ∈ PROTECTED_METADATA_PATH_NAMES.
Proof.
  unfold metadata_path_name. rewrite list_elem_of_In. split.
  - intros H%find_some. destruct H as [H1 H2%str_eqb_eq]. by subst.
  - intros [-> H]. destruct (find _ _) as [x|] eqn:E.
    + apply find_some in E as [_ E%str_eqb_eq]. by subst.
    + eapply find_none in E; [|done]. by rewrite str_eqb_refl in E.
Qed.

Lemma within_abs_join base n p :
  normal_absolute base -> n ∈ PROTECTED_METADATA_PATH_NAMES ->
  within p (abs_join base n) <-> exists rest, names_of p = names_of base ++ n :: rest.
Proof.
  intros Hb Hn. unfold within. rewrite (proj2 (abs_join_metadata base n Hb Hn)).
  split; intros [rest Hr]; exists rest; rewrite Hr; by rewrite <- (assoc_L (++)).
Qed.

Lemma metadata_child_Some p e mp n :
  normal_absolute p -> normal_absolute (r_path e) ->
  metadata_child p e = Some (mp, n) <->
  r_access e = Write /\ n ∈ PROTECTED_METADATA_PATH_NAMES /\ mp = abs_join (r_path e) n /\ within p mp.
Proof.
  intros Hp He. unfold metadata_child. destruct (can_write (r_access e)) eqn:Ew; cbn [negb].
  2: { split; [done|]. intros [Ha _]. by rewrite Ha in Ew. }
  assert (r_access e = Write) as Ha by by destruct (r_access e).
  split.
  - destruct (path_strip_prefix p (r_path e)) as [[|c cs]|] eqn:E; [done| |done].
    apply path_strip_prefix_normal in E as ([|s rest] & Hm & Hn); [done| |done..]. injection Hm as -> ->.
    cbn [component_os_str component_text]. destruct (metadata_path_name s) as [x|] eqn:Em; [|done].
    apply metadata_path_name_Some in Em as [-> Hx]. cbn [mbind option_bind]. intros [= <- <-].
    split_and!; [done..|]. apply within_abs_join; [done..|]. by exists rest.
  - intros (_ & Hn & -> & [rest Hr]%within_abs_join); [|done..].
    assert (path_strip_prefix p (r_path e) = Some (map Normal (n :: rest))) as ->.
    { apply path_strip_prefix_normal; [done..|]. by exists (n :: rest). }
    cbn [map component_os_str component_text]. assert (metadata_path_name n = Some n) as -> by by apply metadata_path_name_Some.
    done.
Qed.

Lemma write_covering_shallow m e p :
  decides R p m -> r_access m = Write -> e ∈ R -> r_access e = Write -> covers e p -> within (r_path m) (r_path e).
Proof.
  intros (Hm & Hc & Hle) Ha He Hae Hce. pose proof (Hle e He Hce) as Hp.
  apply (within_linear p); [done..|]. unfold precedes in Hp. lia.
Qed.

(** Below a metadata directory of the deciding entry, the path and the directory
    are below the same metadata directories of writable entries. *)
Lemma metadata_child_at_root m p n e :
  normal_absolute p -> decides R p m -> r_access m = Write -> n ∈ PROTECTED_METADATA_PATH_NAMES ->
  within p (abs_join (r_path m) n) -> e ∈ R ->
  metadata_child p e = metadata_child (abs_join (r_path m) n) e.
Proof.
  intros Hp Hd Ha Hn Hw He. pose proof (R_normal _ He) as Hne.
  pose proof (R_normal _ (proj1 Hd)) as Hnm. destruct (abs_join_metadata _ n Hnm Hn) as [Hq Eq].
  apply option_eq. intros [mp k]. rewrite !metadata_child_Some by done.
  split; intros (Hae & Hk & -> & Hin); (split_and!; [done..|]).
  2: { by eapply within_trans. }
  apply (within_linear p); [done..|]. destruct (abs_join_metadata _ k Hne Hk) as [_ Ek].
  assert (covers e p) as Hce.
  { eapply within_trans; [exact Hin|]. unfold within. rewrite Ek. by apply prefix_app_r. }
  pose proof (within_depth _ _ (write_covering_shallow m e p Hd Ha He Hae Hce)) as Hdep.
  unfold depth in *. rewrite Eq, Ek, !length_app. cbn. lia.
Qed.

Lemma explicit_at_root m p n mp :
  normal_absolute p -> decides R p m -> r_access m = Write -> n ∈ PROTECTED_METADATA_PATH_NAMES ->
  within p (abs_join (r_path m) n) ->
  has_explicit_write_entry_for_metadata_path pol mp p cwd =
  has_explicit_write_entry_for_metadata_path pol mp (abs_join (r_path m) n) cwd.
Proof.
  intros Hp Hd Ha Hn Hw. unfold has_explicit_write_entry_for_metadata_path. fold R.
  pose proof (R_normal _ (proj1 Hd)) as Hnm. destruct (abs_join_metadata _ n Hnm Hn) as [Hq Eq].
  apply eq_true_iff_eq. rewrite !existsb_elem. apply exist_proper. intros g. split;
    intros [Hg [[Hgw Hgc]%andb_prop Hgm]%andb_prop]; (split; [done|]); rewrite Hgw, Hgm, andb_true_r; cbn [andb].
  - pose proof (R_normal _ Hg) as Hng. apply covers_starts_with in Hgc; [|done..]. apply covers_starts_with; [done..|].
    eapply within_trans; [|eapply write_covering_shallow; try done; by destruct (r_access g)].
    unfold within. rewrite Eq. by apply prefix_app_r.
  - pose proof (R_normal _ Hg) as Hng. apply covers_starts_with in Hgc; [|done..]. apply covers_starts_with; [done..|].
    by eapply within_trans.
Qed.

Lemma is_restricted_eq : is_restricted pol = true.
Proof. unfold is_restricted. by rewrite Hkind. Qed.

Lemma write_at_metadata m p n :
  normal_absolute p -> decides R p m -> r_access m = Write -> n ∈ PROTECTED_METADATA_PATH_NAMES ->
  within p (abs_join (r_path m) n) ->
  can_write_path_with_cwd pol p cwd = can_write_path_with_cwd pol (abs_join (r_path m) n) cwd.
Proof.
  intros Hp Hd Ha Hn Hw. pose proof (R_normal _ (proj1 Hd)) as Hnm.
  destruct (abs_join_metadata _ n Hnm Hn) as [Hq Eq]. unfold can_write_path_with_cwd.
  rewrite (decides_access p m), (decides_access (abs_join (r_path m) n) m) by first
    [done|eapply decides_between; [done| |done]; unfold covers, within; rewrite Eq; by apply prefix_app_r].
  destruct (negb (can_write _)), (has_full_disk_write_access pol); try done. f_equal.
  unfold is_metadata_write_denied. rewrite is_restricted_eq, !resolve_candidate_normal by done. cbn [negb].
  unfold metadata_child_of_writable_root. fold R.
  rewrite (omap_ext_elem (metadata_child p) (metadata_child (abs_join (r_path m) n))).
  2: { intros e He. by eapply metadata_child_at_root. }
  destruct (head _) as [[mp k]|]; [|done]. by rewrite (explicit_at_root m p n mp).
Qed.

(** Outside the metadata directories of its deciding entry, a path of a writable
    entry can be written. *)
Lemma write_outside_metadata m p :
  normal_absolute p -> decides R p m -> r_access m = Write ->
  (forall n, n ∈ PROTECTED_METADATA_PATH_NAMES -> ~ within p (abs_join (r_path m) n)) ->
  can_write_path_with_cwd pol p cwd = true.
Proof.
  intros Hp Hd Ha Hout. pose proof (R_normal _ (proj1 Hd)) as Hnm. unfold can_write_path_with_cwd.
  rewrite (decides_access p m), Ha by done. cbn [can_write negb]. destruct (has_full_disk_write_access pol); [done|].
  unfold is_metadata_write_denied. rewrite is_restricted_eq, resolve_candidate_normal by done. cbn [negb].
  destruct (metadata_child_of_writable_root pol p cwd) as [[mp n]|] eqn:E; [|done].
  unfold metadata_child_of_writable_root in E. apply head_omap_Some in E as (f & Hf & E). fold R in Hf.
  pose proof (R_normal _ Hf) as Hnf. apply metadata_child_Some in E as (Haf & Hn & -> & Hin); [|done..].
  rewrite negb_involutive. apply existsb_elem. exists m. split; [apply Hd|].
  destruct (abs_join_metadata _ n Hnf Hn) as [Hq Eq]. rewrite Ha. cbn [can_write andb]. apply andb_true_iff.
  split; [apply covers_starts_with; [done..|apply Hd]|]. apply path_starts_with_normal; [done..|].
  assert (covers f p) as Hcf.
  { eapply within_trans; [exact Hin|]. unfold within. rewrite Eq. by apply prefix_app_r. }
  pose proof (write_covering_shallow m f p Hd Ha Hf Haf Hcf) as Hmf.
  destruct (decide (depth (r_path m) <= depth (r_path f))) as [Hle|Hgt].
  - assert (r_path m = r_path f) as Emf by by apply within_antisym.
    destruct (Hout n Hn). by rewrite Emf.
  - apply (within_linear p); [done|apply Hd|]. unfold depth in *. rewrite Eq, length_app. cbn. lia.
Qed.

(** A write entry that decides its own path can be written at its own path. *)
Lemma write_at_self m :
  decides R (r_path m) m -> r_access m = Write -> can_write_path_with_cwd pol (r_path m) cwd = true.
Proof.
  intros Hd Ha. pose proof (R_normal _ (proj1 Hd)) as Hnm. apply (write_outside_metadata m); [done..|].
  intros n Hn [rest Hr]%within_abs_join; [|done..]. apply (f_equal length) in Hr. rewrite length_app in Hr. cbn in Hr. lia.
Qed.

(** ** Writable roots *)

Lemma protected_first w p :
  normal_absolute (root w) -> normal_absolute p ->
  (forall n, n ∈ protected_metadata_names w -> n ∈ PROTECTED_METADATA_PATH_NAMES) ->
  path_contains_protected_metadata_name w p = true <->
  exists n, n ∈ protected_metadata_names w /\ within p (abs_join (root w) n).
Proof.
  intros Hr Hp Hsub. unfold path_contains_protected_metadata_name. split.
  - destruct (path_strip_prefix p (root w)) as [[|c cs]|] eqn:E; [done| |done].
    apply path_strip_prefix_normal in E as ([|s rest] & Hm & Hn); [done| |done..]. injection Hm as -> ->.
    cbn [component_os_str component_text]. intros (n & Hin & ->%str_eqb_eq)%existsb_elem.
    exists n. split; [done|]. apply within_abs_join; [done|by apply Hsub|]. by exists rest.
  - intros (n & Hin & [rest Hrest]%within_abs_join); [|done|by apply Hsub].
    assert (path_strip_prefix p (root w) = Some (map Normal (n :: rest))) as ->.
    { apply path_strip_prefix_normal; [done..|]. by exists (n :: rest). }
    cbn [map component_os_str component_text]. apply existsb_elem. exists n. by rewrite str_eqb_refl.
Qed.

Context `{Hplain : !PlainHost}.

Lemma writable_entries_elem q :
  q ∈ writable_entries pol cwd <->
  exists e, e ∈ R /\ r_access e = Write /\ can_write_path_with_cwd pol (r_path e) cwd = true /\ q = r_path e.
Proof.
  unfold writable_entries. fold R. rewrite list_elem_of_fmap. setoid_rewrite elem_of_filterb. setoid_rewrite elem_of_filterb.
  split; [intros (e & -> & [He Ha] & Hw)|intros (e & He & Ha & Hw & ->)]; exists e; split_and!; try done.
  - by destruct (r_access e).
  - by rewrite Ha.
Qed.

Lemma writable_entries_normal : Forall normal_absolute (writable_entries pol cwd).
Proof. apply Forall_forall. intros q (e & He & _ & _ & ->)%writable_entries_elem. by apply R_normal. Qed.

Lemma map_effective l : Forall normal_absolute l -> map normalize_effective_absolute_path l = l.
Proof. induction 1 as [|x l Hx Hl IH]; [done|]. cbn. by rewrite normalize_effective_plain, IH. Qed.

Lemma writable_roots_elem w :
  w ∈ get_writable_roots_with_cwd pol cwd <->
  has_full_disk_write_access pol = false /\
  exists q, q ∈ writable_entries pol cwd /\ w = writable_root pol cwd (writable_entries pol cwd) q.
Proof.
  unfold get_writable_roots_with_cwd. destruct (has_full_disk_write_access pol); [set_solver|].
  rewrite list_elem_of_fmap. unfold dedup_absolute_paths. rewrite map_effective by apply writable_entries_normal.
  setoid_rewrite dedup_paths_elem; [|apply writable_entries_normal]. naive_solver.
Qed.

Lemma parent_normal p q : normal_absolute p -> parent p = Some q -> normal_absolute q.
Proof.
  intros (names & -> & Hn). induction names as [|n names _] using rev_ind; [done|].
  rewrite parent_snoc by done. intros [= <-]. apply Forall_app in Hn as [Hn _]. by exists names.
Qed.

Lemma default_read_only_normal r b :
  normal_absolute r -> Forall normal_absolute (default_read_only_subpaths_for_writable_root r b).
Proof.
  intros Hr. unfold default_read_only_subpaths_for_writable_root, dedup_absolute_paths.
  assert (forall n, normal_absolute (abs_join r n)) as Hj by (intros; by apply resolve_base_normal).
  match goal with |- Forall _ (dedup_paths [] ?l) => assert (Forall normal_absolute l) as Hl end.
  { apply Forall_app. split.
    2: { apply Forall_app. split; [destruct (is_dir _)|destruct (b || _)]; first [by apply Forall_singleton|apply Forall_nil_2]. }
    destruct (_ || _); [|constructor]. apply Forall_app. split; [|by constructor].
    destruct (_ && _); [|constructor]. destruct (resolve_gitdir_from_file _) as [g|] eqn:E; [|constructor].
    cbn. constructor; [|constructor]. unfold resolve_gitdir_from_file in E.
    destruct (read_to_string _); [|done]. cbn in E. destruct (split_once _ _) as [[a c]|]; [|done]. cbn in E.
    destruct (negb _); [done|]. destruct (str_eqb _ _); [done|]. destruct (parent _) as [b'|] eqn:Ep; [|done]. cbn in E.
    destruct (exists_path _); [|done]. injection E as <-. apply resolve_base_normal. eapply parent_normal; [|exact Ep]. apply Hj. }
  apply Forall_forall. intros x Hx. rewrite dedup_paths_elem in Hx by done. rewrite Forall_forall in Hl. auto.
Qed.

(** On a plain host the carve-out of an entry is the entry's path, when it lies
    strictly below the root. *)
Lemma carveout_plain q raws e :
  normal_absolute q -> normal_absolute (r_path e) -> (forall x, x ∈ raws -> x = q) ->
  carveout q raws e = if path_eqb (r_path e) q || negb (path_starts_with (r_path e) q) then None else Some (r_path e).
Proof.
  intros Hq He Hraws. unfold carveout. rewrite normalize_effective_plain by done.
  destruct (parent q); [|done]. destruct (path_eqb (r_path e) q); [done|]. cbn [orb].
  destruct (path_starts_with (r_path e) q) eqn:Es; [done|]. cbn [negb].
  destruct (find_map _ raws) as [y|] eqn:E; [|done]. unfold find_map in E.
  apply head_omap_Some in E as (x & ->%Hraws & Hx). unfold path_starts_with in Es.
  by destruct (path_strip_prefix (r_path e) q).
Qed.

Lemma raw_writable_roots_plain q x :
  normal_absolute q ->
  x ∈ List.filter (fun path => path_eqb (normalize_effective_absolute_path path) q) (writable_entries pol cwd) -> x = q.
Proof.
  intros Hq [Hx E]%elem_of_filterb. pose proof writable_entries_normal as Hf. rewrite Forall_forall in Hf.
  rewrite normalize_effective_plain in E by auto. apply path_eqb_normal in E; auto.
Qed.

Lemma protected_names_plain q n :
  normal_absolute q ->
  n ∈ protected_metadata_names (writable_root pol cwd (writable_entries pol cwd) q) <->
  n ∈ PROTECTED_METADATA_PATH_NAMES /\ can_write_path_with_cwd pol (abs_join q n) cwd = false.
Proof.
  intros Hq. cbn [protected_metadata_names writable_root]. unfold protected_metadata_names_for_writable_root.
  rewrite elem_of_filterb. cbn [forallb]. rewrite andb_true_iff, negb_true_iff, forallb_Forall, Forall_forall. split.
  - intros (H1 & H2 & _). done.
  - intros [H1 H2]. split_and!; [done..|]. intros x (y & -> & ->%raw_writable_roots_plain)%list_elem_of_fmap; [|done].
    by rewrite H2.
Qed.

Definition implicit_default (q x : str) : Prop :=
  x ∈ default_read_only_subpaths_for_writable_root q
        (match from_absolute_path cwd with Some c => path_eqb (normalize_effective_absolute_path c) q | None => false end) /\
  has_explicit_resolved_path_entry R x = false.

Lemma read_only_plain q x :
  normal_absolute q ->
  x ∈ read_only_subpaths (writable_root pol cwd (writable_entries pol cwd) q) <->
  implicit_default q x \/
  exists e, e ∈ R /\ r_access e <> Write /\ can_write_path_with_cwd pol (r_path e) cwd = false /\
    within (r_path e) q /\ r_path e <> q /\ x = r_path e.
Proof.
  intros Hq. cbn [read_only_subpaths writable_root]. fold R. unfold dedup_absolute_paths.
  set (D := List.filter _ (default_read_only_subpaths_for_writable_root _ _)).
  set (C := omap _ _).
  assert (forall y, y ∈ D <-> implicit_default q y) as HD.
  { intros y. unfold D, implicit_default. by rewrite elem_of_filterb, negb_true_iff. }
  assert (forall y, y ∈ C <-> exists e, e ∈ R /\ r_access e <> Write /\ can_write_path_with_cwd pol (r_path e) cwd = false /\
    within (r_path e) q /\ r_path e <> q /\ y = r_path e) as HC.
  { intros y. unfold C. rewrite list_elem_of_omap. apply exist_proper. intros e. rewrite !elem_of_filterb, !negb_true_iff.
    assert (can_write (r_access e) = false <-> r_access e <> Write) as -> by by destruct (r_access e).
    split.
    - intros (((He & Ha) & Hw) & Hcv). rewrite carveout_plain in Hcv by eauto using R_normal, raw_writable_roots_plain.
      destruct (path_eqb (r_path e) q) eqn:Eq; [done|]. destruct (path_starts_with (r_path e) q) eqn:Es; [|done].
      injection Hcv as <-. apply path_starts_with_normal in Es; [|eauto using R_normal..].
      split_and!; [done..| |done]. intros Hx. rewrite Hx, path_eqb_refl in Eq. done.
    - intros (He & Ha & Hw & Hin & Hne & ->). split; [done|].
      rewrite carveout_plain by eauto using R_normal, raw_writable_roots_plain.
      assert (path_starts_with (r_path e) q = true) as -> by (apply path_starts_with_normal; eauto using R_normal).
      destruct (path_eqb (r_path e) q) eqn:Eq; [|done]. apply path_eqb_normal in Eq; [done|eauto using R_normal..]. }
  rewrite dedup_paths_elem, elem_of_app; [by rewrite HD, HC|]. apply Forall_app. split; apply Forall_forall; intros y Hy.
  - apply HD in Hy as [Hy _]. eapply Forall_forall in Hy; [done|by apply default_read_only_normal].
  - apply HC in Hy as (e & He & _ & _ & _ & _ & ->). by apply R_normal.
Qed.

Lemma is_path_writable_plain q p :
  normal_absolute q -> normal_absolute p ->
  let w := writable_root pol cwd (writable_entries pol cwd) q in
  is_path_writable w p = true <->
  within p q /\ (forall x, x ∈ read_only_subpaths w -> ~ within p x) /\
  (forall n, n ∈ PROTECTED_METADATA_PATH_NAMES -> within p (abs_join q n) ->
     can_write_path_with_cwd pol (abs_join q n) cwd = true).
Proof.
  intros Hq Hp w. pose proof (protected_first w p Hq Hp) as Hpf.
  assert (forall x, x ∈ read_only_subpaths w -> normal_absolute x) as Hro.
  { intros x [[Hx _]|(e & He & _ & _ & _ & _ & ->)]%read_only_plain; [|by apply R_normal|done].
    eapply Forall_forall in Hx; [done|by apply default_read_only_normal]. }
  assert (path_starts_with p (root w) = true <-> within p q) as Hs by by apply path_starts_with_normal.
  assert (existsb (fun subpath => path_starts_with p subpath) (read_only_subpaths w) = false <->
    forall x, x ∈ read_only_subpaths w -> ~ within p x) as He.
  { rewrite existsb_none. split; intros H x Hx; specialize (H x Hx).
    - intros Hw%path_starts_with_normal; auto. congruence.
    - apply not_true_iff_false. intros Hw%path_starts_with_normal; auto. }
  assert (path_contains_protected_metadata_name w p = false <->
    forall n, n ∈ PROTECTED_METADATA_PATH_NAMES -> within p (abs_join q n) ->
      can_write_path_with_cwd pol (abs_join q n) cwd = true) as Hn.
  { rewrite <- not_true_iff_false, Hpf by (intros n [? _]%protected_names_plain; done). split.
    - intros H n Hn Hw. apply not_false_iff_true. intros Hc. apply H. exists n. split; [|done]. by apply protected_names_plain.
    - intros H (n & [Hn Hc]%protected_names_plain & Hw); [|done]. by rewrite H in Hc. }
  unfold is_path_writable. rewrite <- Hs, <- He, <- Hn.
  destruct (path_starts_with _ _), (existsb _ _), (path_contains_protected_metadata_name _ _); cbn; naive_solver.
Qed.

(** What a root allows on its own, the policy allows, unless it lies in metadata that a
    deeper writable entry protects. *)
Lemma writable_root_alone q p :
  normal_absolute p -> q ∈ writable_entries pol cwd ->
  is_path_writable (writable_root pol cwd (writable_entries pol cwd) q) p = true ->
  can_write_path_with_cwd pol p cwd = true \/
  exists q' n, q' ∈ writable_entries pol cwd /\ within q' q /\ q' <> q /\ n ∈ PROTECTED_METADATA_PATH_NAMES /\
    within p (abs_join q' n) /\ can_write_path_with_cwd pol (abs_join q' n) cwd = false.
Proof.
  intros Hp Hq Hw. pose proof Hq as (e & He & Ha & Hce & ->)%writable_entries_elem.
  pose proof (R_normal _ He) as Hne. apply is_path_writable_plain in Hw as (Hin & Hro & Hmd); [|done..].
  destruct (access_decided p Hp) as [(m & Hd & _)|[Hno _]]; [|by destruct (Hno e He)].
  pose proof (R_normal _ (proj1 Hd)) as Hnm. pose proof (proj2 (proj2 Hd) e He Hin) as Hpre.
  assert (within (r_path m) (r_path e)) as Hme.
  { apply (within_linear p); [done|apply Hd|]. unfold precedes in Hpre. lia. }
  assert (r_access m = Write) as Ham.
  { destruct (decide (r_access m = Write)) as [|Hnw]; [done|].
    pose proof (decides_access _ _ Hnm (decides_self _ _ _ Hd)) as Hacc.
    assert (can_write_path_with_cwd pol (r_path m) cwd = false) as Hcm.
    { unfold can_write_path_with_cwd. rewrite Hacc. by destruct (r_access m). }
    destruct (Hro (r_path m)); [|apply Hd]. apply read_only_plain; [done|]. right. exists m.
    split_and!; try done; [apply Hd|]. intros Heq. rewrite Heq in Hcm. congruence. }
  assert (r_path m ∈ writable_entries pol cwd) as Hm.
  { apply writable_entries_elem. exists m. split_and!; [apply Hd|done| |done]. apply write_at_self; [by eapply decides_self|done]. }
  destruct (existsb (fun n => path_starts_with p (abs_join (r_path m) n)) PROTECTED_METADATA_PATH_NAMES) eqn:Ex.
  - apply existsb_elem in Ex as (n & Hn & Hpn). pose proof (abs_join_metadata _ n Hnm Hn) as [Hjn _].
    apply path_starts_with_normal in Hpn; [|done..]. rewrite (write_at_metadata m p n) by done.
    destruct (can_write_path_with_cwd pol (abs_join (r_path m) n) cwd) eqn:Ecan; [by left|right]. exists (r_path m), n.
    split_and!; try done. intros Heq. rewrite Heq in *. by rewrite Hmd in Ecan.
  - left. apply (write_outside_metadata m); [done..|]. intros n Hn Hwn. rewrite existsb_none in Ex. specialize (Ex n Hn).
    apply not_true_iff_false in Ex. apply Ex. pose proof (abs_join_metadata _ n Hnm Hn) as [Hjn _].
    by apply path_starts_with_normal.
Qed.

Lemma writable_root_sound q p :
  normal_absolute p -> q ∈ writable_entries pol cwd ->
  (forall q', q' ∈ writable_entries pol cwd -> within p q' -> depth q' <= depth q) ->
  is_path_writable (writable_root pol cwd (writable_entries pol cwd) q) p = true ->
  can_write_path_with_cwd pol p cwd = true.
Proof.
  intros Hp Hq Hdeep Hw. destruct (writable_root_alone q p Hp Hq Hw) as [|(q' & n & Hq' & Hqq & Hne & Hn & Hpn & _)]; [done|].
  exfalso. apply Hne. pose proof writable_entries_normal as Hf. rewrite Forall_forall in Hf.
  pose proof (abs_join_metadata _ n (Hf _ Hq') Hn) as [_ Hj].
  apply within_antisym; [auto..|done|]. apply Hdeep; [done|].
  eapply within_trans; [exact Hpn|]. unfold within. rewrite Hj. by apply prefix_app_r.
Qed.

Lemma writable_root_complete p :
  normal_absolute p -> can_write_path_with_cwd pol p cwd = true ->
  exists q, q ∈ writable_entries pol cwd /\ within p q /\
    (forall q', q' ∈ writable_entries pol cwd -> within p q' -> depth q' <= depth q) /\
    ((forall x, implicit_default q x -> ~ within p x) ->
     is_path_writable (writable_root pol cwd (writable_entries pol cwd) q) p = true).
Proof.
  intros Hp Hc. assert (can_write (resolve_access_with_cwd pol p cwd) = true) as Hacc.
  { unfold can_write_path_with_cwd in Hc. by destruct (can_write _). }
  destruct (access_decided p Hp) as [(m & Hd & Em)|[_ Hno]]; [|by rewrite Hno in Hacc].
  assert (r_access m = Write) as Ham by (rewrite Em in Hacc; by destruct (r_access m)).
  pose proof (R_normal _ (proj1 Hd)) as Hnm. exists (r_path m). split_and!.
  - apply writable_entries_elem. exists m. split_and!; [apply Hd|done| |done].
    apply write_at_self; [by eapply decides_self|done].
  - apply Hd.
  - intros q' (e & He & Ha & _ & ->)%writable_entries_elem Hin. apply within_depth. by eapply write_covering_shallow.
  - intros Hdef. apply is_path_writable_plain; [done..|]. split_and!; [apply Hd| |].
    + intros x [Hx|(e & He & Ha & _ & Hme & Hne & ->)]%read_only_plain Hin; [by eapply Hdef| |done].
      pose proof (proj2 (proj2 Hd) e He Hin) as Hpre. apply Hne. apply within_antisym; eauto using R_normal.
      unfold precedes in Hpre. lia.
    + intros n Hn Hw. by rewrite <- (write_at_metadata m p n).
Qed.
End policy.

(** ** Access *)

(** What the policy means for a path, with no order on the entries. *)
Definition access_spec (l : list ResolvedFileSystemEntry) (p : str) (a : FileSystemAccessMode) : Prop :=
  (exists m, decides l p m /\ a = r_access m) \/ (forall e, e ∈ l -> ~ covers e p) /\ a = Deny.

Lemma access_spec_unique l l' p a b :
  (forall e, e ∈ l <-> e ∈ l') -> access_spec l p a -> access_spec l' p b -> a = b.
Proof.
  intros Hl [(m & Hd & ->)|[Hn ->]] [(m' & Hd' & ->)|[Hn' ->]]; [| | |done].
  - eapply decides_unique; [done|]. destruct Hd' as (H1 & H2 & H3). split_and!; [by apply Hl|done|].
    intros e He. by apply H3, Hl.
  - destruct Hd as (H1 & H2 & _). by destruct (Hn' m); [apply Hl|].
  - destruct Hd' as (H1 & H2 & _). by destruct (Hn m'); [apply Hl|].
Qed.

Lemma resolve_access_spec `{!ProcessEnvOk} pol p cwd :
  wf_policy pol -> kind pol = Restricted -> normal_absolute p ->
  access_spec (resolved_entries_with_cwd pol cwd) p (resolve_access_with_cwd pol p cwd).
Proof. intros Hw Hk Hp. by apply access_decided. Qed.

(** C1: in a restricted policy whose entry paths are normalised, the access of a
    normalised absolute path is the access of the entries that decide it: the
    deepest entries at or above the path, and among those at the same depth the
    strongest of deny, write and read; a path no entry covers is denied.  The
    order in which the entries are listed plays no role. *)
Theorem resolve_access_refines_spec `{!ProcessEnvOk} (pol pol' : FileSystemSandboxPolicy) (p cwd : str) :
  wf_policy pol -> kind pol = Restricted -> kind pol' = Restricted -> Permutation (entries pol) (entries pol') ->
  normal_absolute p ->
  access_spec (resolved_entries_with_cwd pol cwd) p (resolve_access_with_cwd pol p cwd) /\
  resolve_access_with_cwd pol' p cwd = resolve_access_with_cwd pol p cwd.
Proof.
  intros Hw Hk Hk' Hperm Hp. split; [by apply resolve_access_spec|].
  assert (wf_policy pol') as Hw' by by unfold wf_policy in *; rewrite <- Hperm.
  eapply access_spec_unique; [|by apply resolve_access_spec..].
  intros e. rewrite !resolved_entries_elem. by setoid_rewrite Hperm.
Qed.

(** ** Roots for the sandboxes *)

(** The root with the last word on [p] *)
Definition deepest_root (roots : list WritableRoot) (p : str) (w : WritableRoot) : Prop :=
  w ∈ roots /\ within p (root w) /\ forall w', w' ∈ roots -> within p (root w') -> depth (root w') <= depth (root w).

(** C5: the writable roots handed to the platform sandboxes agree with the policy, for a
    restricted policy without write access to the whole disk and on a host without symbolic
    links.  A root checked on its own allows only what the policy allows, except in a
    metadata directory that a writable entry nested in the root protects; the deepest root
    of a path has no such exception.  What the policy allows has a deepest root, and that
    root allows it unless the path lies below one of the read-only defaults (existing
    metadata directories, and the directory a [.git] file points to) that no entry names. *)
Theorem writable_roots_refine_policy `{!ProcessEnvOk, !PlainHost} (pol : FileSystemSandboxPolicy) (p cwd : str) :
  wf_policy pol -> kind pol = Restricted -> has_full_disk_write_access pol = false -> normal_absolute p ->
  let roots := get_writable_roots_with_cwd pol cwd in
  (forall w, w ∈ roots -> is_path_writable w p = true ->
     can_write_path_with_cwd pol p cwd = true \/
     exists w' n, w' ∈ roots /\ within (root w') (root w) /\ root w' <> root w /\
       n ∈ protected_metadata_names w' /\ within p (abs_join (root w') n)) /\
  (forall w, deepest_root roots p w -> is_path_writable w p = true -> can_write_path_with_cwd pol p cwd = true) /\
  (can_write_path_with_cwd pol p cwd = true ->
   exists w, deepest_root roots p w /\
     ((forall x, implicit_default pol cwd (root w) x -> ~ within p x) -> is_path_writable w p = true)).
Proof.
  intros Hw Hk Hfull Hp roots.
  assert (forall w, w ∈ roots <-> exists q, q ∈ writable_entries pol cwd /\ w = writable_root pol cwd (writable_entries pol cwd) q)
    as Hroots by (intros w; unfold roots; rewrite writable_roots_elem by done; naive_solver).
  split_and!.
  - intros w (q & Hq & ->)%Hroots Hwr. destruct (writable_root_alone pol cwd Hw Hk q p Hp Hq Hwr) as [|(q' & n & Hq' & Hqq & Hne & Hn & Hpn & Hc)];
      [by left|right]. exists (writable_root pol cwd (writable_entries pol cwd) q'), n.
    assert (normal_absolute q') as Hnq by (pose proof (writable_entries_normal pol cwd Hw) as Hf; rewrite Forall_forall in Hf; by apply Hf).
    split_and!; [apply Hroots; by exists q'|done|done| |done]. by apply protected_names_plain.
  - intros w (Hin & Hwp & Hdeep) Hwr. apply Hroots in Hin as (q & Hq & ->). eapply writable_root_sound; [done..| |done].
    intros q' Hq' Hpq'. apply (Hdeep (writable_root pol cwd (writable_entries pol cwd) q')); [|done]. apply Hroots. by exists q'.
  - intros Hc. destruct (writable_root_complete pol cwd Hw Hk p Hp Hc) as (q & Hq & Hin & Hdeep & Himp).
    exists (writable_root pol cwd (writable_entries pol cwd) q). split; [|done]. split_and!; [apply Hroots; by exists q|done|].
    intros w' (q' & Hq' & ->)%Hroots Hpq'. by apply Hdeep.
Qed.

(** ** Metadata stays read-only *)

Lemma explicit_spec `{!ProcessEnvOk} pol cwd mp p :
  wf_policy pol -> normal_absolute mp -> normal_absolute p ->
  has_explicit_write_entry_for_metadata_path pol mp p cwd = true <->
  exists g, g ∈ resolved_entries_with_cwd pol cwd /\ r_access g = Write /\ covers g p /\ within (r_path g) mp.
Proof.
  intros Hw Hmp Hp. unfold has_explicit_write_entry_for_metadata_path. rewrite existsb_elem. apply exist_proper. intros g.
  split.
  - intros (Hg & [[Ha Hc]%andb_prop Hin]%andb_prop). pose proof (R_normal _ _ Hw _ Hg) as Hng.
    apply path_starts_with_normal in Hc, Hin; [|done..]. split_and!; [done| |done..]. by destruct (r_access g).
  - intros (Hg & Ha & Hc & Hin). pose proof (R_normal _ _ Hw _ Hg) as Hng. rewrite Ha. split; [done|]. cbn [can_write andb].
    apply andb_true_iff. split; by apply path_starts_with_normal.
Qed.

(** The path lies in a metadata directory [k] of a writable entry. *)
Definition in_metadata (l : list ResolvedFileSystemEntry) (p k : str) : Prop :=
  exists f, f ∈ l /\ r_access f = Write /\ k ∈ PROTECTED_METADATA_PATH_NAMES /\ within p (abs_join (r_path f) k).

(** Some write entry at or above the path lies inside a metadata directory itself. *)
Definition explicitly_granted (l : list ResolvedFileSystemEntry) (p : str) : Prop :=
  exists g k, g ∈ l /\ r_access g = Write /\ covers g p /\ in_metadata l (r_path g) k.

Lemma metadata_root_Some `{!ProcessEnvOk} pol cwd p mp k :
  wf_policy pol -> normal_absolute p -> metadata_child_of_writable_root pol p cwd = Some (mp, k) ->
  exists f, f ∈ resolved_entries_with_cwd pol cwd /\ r_access f = Write /\ k ∈ PROTECTED_METADATA_PATH_NAMES /\
    mp = abs_join (r_path f) k /\ within p mp /\ normal_absolute mp.
Proof.
  intros Hw Hp (f & Hf & E)%head_omap_Some. pose proof (R_normal _ _ Hw _ Hf) as Hnf.
  apply metadata_child_Some in E as (Ha & Hk & -> & Hin); [|done..]. exists f. split_and!; try done.
  by apply abs_join_metadata.
Qed.

Lemma metadata_root_found `{!ProcessEnvOk} pol cwd p k :
  wf_policy pol -> normal_absolute p -> in_metadata (resolved_entries_with_cwd pol cwd) p k ->
  exists mp k', metadata_child_of_writable_root pol p cwd = Some (mp, k').
Proof.
  intros Hw Hp (f & Hf & Ha & Hk & Hin). pose proof (R_normal _ _ Hw _ Hf) as Hnf.
  assert (metadata_child p f = Some (abs_join (r_path f) k, k)) as E by by apply metadata_child_Some.
  unfold metadata_child_of_writable_root.
  assert ((abs_join (r_path f) k, k) ∈ omap (metadata_child p) (resolved_entries_with_cwd pol cwd)) as Hel
    by (apply list_elem_of_omap; by exists f).
  destruct (omap _ _) as [|[mp k'] l]; [by apply not_elem_of_nil in Hel|]. by exists mp, k'.
Qed.

Lemma metadata_denied_spec `{!ProcessEnvOk} pol cwd p k :
  wf_policy pol -> kind pol = Restricted -> normal_absolute p -> in_metadata (resolved_entries_with_cwd pol cwd) p k ->
  ~ explicitly_granted (resolved_entries_with_cwd pol cwd) p ->
  exists mp k', metadata_child_of_writable_root pol p cwd = Some (mp, k') /\
    has_explicit_write_entry_for_metadata_path pol mp p cwd = false /\ is_metadata_write_denied pol p cwd = true.
Proof.
  intros Hw Hk Hp Hin Hne. destruct (metadata_root_found _ _ _ _ Hw Hp Hin) as (mp & k' & E). exists mp, k'.
  assert (has_explicit_write_entry_for_metadata_path pol mp p cwd = false) as Hex.
  { destruct (metadata_root_Some _ _ _ _ _ Hw Hp E) as (f & Hf & Ha & Hk' & -> & Hpm & Hnm).
    apply not_true_iff_false. intros (g & Hg & Hag & Hcg & Hgm)%explicit_spec; [|done..].
    apply Hne. exists g, k'. split_and!; [done..|]. by exists f. }
  split_and!; [done..|]. unfold is_metadata_write_denied. rewrite is_restricted_eq, resolve_candidate_normal by done.
  by rewrite E, Hex.
Qed.

(** C14: a restricted policy without full disk access never lets a command write in
    the [.git], [.agents] or [.codex] directory of a writable entry, whether the
    directory exists or not, unless a write entry at or above the path lies in such
    a metadata directory itself; without such an entry the write is reported as
    forbidden, and whatever is reported as forbidden cannot be written. *)
Theorem metadata_write_needs_explicit_entry `{!ProcessEnvOk} (pol : FileSystemSandboxPolicy) (p cwd k : str) :
  wf_policy pol -> kind pol = Restricted -> has_full_disk_write_access pol = false -> normal_absolute p ->
  let l := resolved_entries_with_cwd pol cwd in
  (in_metadata l p k -> ~ explicitly_granted l p ->
     can_write_path_with_cwd pol p cwd = false /\
     exists k', forbidden_agent_metadata_write p cwd pol = Some k') /\
  (forall k', forbidden_agent_metadata_write p cwd pol = Some k' ->
     can_write_path_with_cwd pol p cwd = false /\ in_metadata l p k').
Proof.
  intros Hw Hk Hfull Hp l. unfold forbidden_agent_metadata_write.
  rewrite is_restricted_eq, resolve_candidate_normal by done. cbn [negb mbind option_bind]. split.
  - intros Hin Hne. destruct (metadata_denied_spec _ _ _ _ Hw Hk Hp Hin Hne) as (mp & k' & E & Hex & Hden).
    assert (can_write_path_with_cwd pol p cwd = false) as Hc.
    { unfold can_write_path_with_cwd. rewrite Hfull, Hden. by destruct (negb _). }
    split; [done|]. exists k'. rewrite E. cbn. by rewrite Hex, Hc.
  - intros k'. destruct (metadata_child_of_writable_root pol p cwd) as [[mp k'']|] eqn:E; [|done]. cbn.
    destruct (has_explicit_write_entry_for_metadata_path _ _ _ _); [done|].
    destruct (can_write_path_with_cwd pol p cwd); [done|]. intros [= ->]. split; [done|].
    destruct (metadata_root_Some _ _ _ _ _ Hw Hp E) as (f & Hf & Ha & Hk' & -> & Hpm & Hnm). by exists f.
Qed.
End host.

(** ** A host *)

Definition demo_dirs : list str := [&"/"; &"/w"; &"/w/.git"; &"/tmp"].
Definition demo_known (p : str) : bool := existsb (str_eqb p) demo_dirs.

#[local] Instance demo_host : HostFs := {|
  symlink_metadata p := if demo_known p then Some false else None;
  fs_canonicalize p := if demo_known p then Some p else None;
  is_dir := demo_known;
  is_file _ := false;
  exists_path := demo_known;
  read_to_string _ := None;
  tmpdir_var := None
|}.
#[local] Instance demo_process : ProcessEnv := {| home_dir := Some &"/home/u"; env_current_dir := Some &"/w" |}.

#[local] Instance demo_process_ok : ProcessEnvOk.
Proof. intros d [= <-]. done. Qed.

#[local] Instance demo_host_plain : PlainHost.
Proof. intros p q _. cbn [fs_canonicalize demo_host]. destruct (demo_known p); [by intros [= ->]|done]. Qed.

Definition entry (path : FileSystemPath) (access : FileSystemAccessMode) : FileSystemSandboxEntry :=
  {| e_path := path; e_access := access |}.

Definition demo_policy : FileSystemSandboxPolicy :=
  restricted [entry (Special Root) Read; entry (Special (ProjectRoots None)) Write;
    entry (Path &"/w/docs") Read; entry (Path &"/w/docs/out") Write; entry (Path &"/w/secret") Deny].

Ltac paths_checked := first [apply wf_check_ok | apply normal_check_ok | apply normal_check_all]; vm_compute; reflexivity.

Lemma resolve_access_refines_spec_witness :
  resolve_access_with_cwd (with_entries (reverse (entries demo_policy)) demo_policy) (&"/w/docs/out/a") (&"/w") = Write.
Proof.
  destruct (resolve_access_refines_spec demo_policy (with_entries (reverse (entries demo_policy)) demo_policy)
    (&"/w/docs/out/a") (&"/w")) as [_ ->]; [paths_checked|done|done|symmetry; apply reverse_Permutation|paths_checked|].
  vm_compute. reflexivity.
Defined.

Lemma writable_roots_refine_policy_witness :
  exists w, deepest_root (get_writable_roots_with_cwd demo_policy (&"/w")) (&"/w/docs/out/a") w.
Proof.
  destruct (writable_roots_refine_policy demo_policy (&"/w/docs/out/a") (&"/w")) as (_ & _ & H);
    [paths_checked|done|vm_compute; reflexivity|paths_checked|].
  destruct H as (w & Hw & _); [vm_compute; reflexivity|]. by exists w.
Defined.

Lemma metadata_write_needs_explicit_entry_witness :
  forbidden_agent_metadata_write (&"/w/.codex/x") (&"/w") demo_policy = Some &".codex" /\
  can_write_path_with_cwd demo_policy (&"/w/.codex/x") (&"/w") = false.
Proof.
  split; [vm_compute; reflexivity|].
  eapply (metadata_write_needs_explicit_entry demo_policy (&"/w/.codex/x") (&"/w") (&".codex"));
    [paths_checked|done|vm_compute; reflexivity|paths_checked|vm_compute; reflexivity].
Defined.

(** The first writable entry above a path names its metadata directory, so two
    orders of the same entries can protect different directories. *)
Lemma metadata_depends_on_entry_order :
  let es := [entry (Special Root) Read; entry (Path &"/w") Write; entry (Path &"/w/.git") Write] in
  can_write_path_with_cwd (restricted es) (&"/w/.git/.codex/x") (&"/w") = true /\
  can_write_path_with_cwd (restricted (reverse es)) (&"/w/.git/.codex/x") (&"/w") = false /\
  is_semantically_equivalent_to (restricted es) (restricted (reverse es)) (&"/w") = false.
Proof. split_and!; vm_compute; reflexivity. Qed.

(** A root that is not the deepest one can allow what the policy denies. *)
Lemma outer_root_allows_nested_metadata :
  let pol := restricted [entry (Special Root) Read; entry (Path &"/w") Write; entry (Path &"/w/sub") Write] in
  can_write_path_with_cwd pol (&"/w/sub/.codex") (&"/w") = false /\
  map (fun w => (root w, is_path_writable w (&"/w/sub/.codex"))) (get_writable_roots_with_cwd pol (&"/w")) =
    [(&"/w", true); (&"/w/sub", false)].
Proof. split; vm_compute; reflexivity. Qed.

(** A host where [/w/.git] is a file that points to another directory. *)
Definition worktree_host : HostFs := {|
  symlink_metadata _ := None;
  fs_canonicalize _ := None;
  is_dir p := str_eqb p &"/repo/.git/worktrees/w";
  is_file p := str_eqb p &"/w/.git";
  exists_path p := str_eqb p &"/repo/.git/worktrees/w" || str_eqb p &"/w/.git";
  read_to_string p := if str_eqb p &"/w/.git" then Some &"gitdir: /repo/.git/worktrees/w" else None;
  tmpdir_var := None
|}.

(** The read-only subpaths of a writable root need not be below the root. *)
Lemma read_only_subpath_outside_root :
  map (fun w => (root w, read_only_subpaths w))
    (@get_writable_roots_with_cwd worktree_host _
       (restricted [entry (Special Root) Read; entry (Path &"/w") Write]) (&"/w")) =
  [(&"/w", [&"/repo/.git/worktrees/w"; &"/w/.git"; &"/w/.codex"])].
Proof. vm_compute. reflexivity. Qed.
