(* ===== verification/PermissionChanges.v ===== *)
(** * Policies that are converted, rebuilt and extended

    The conversion from and to the older policy, the invariant that every way to
    make a policy keeps, the matcher of denied reads, the deny entries that survive
    a rebuild, and what granting more roots may and may not change. *)
From S2P Require Import Prelude RustStr RustPath AbsolutePath ExecPolicy PathPrefix Permissions PermissionFacts.

Section host.
Context `{Hfs : !HostFs, Henv : !ProcessEnv}.

(** ** The older policy *)

(** Entries that grant no write leave the scan of the older policy as it is. *)
Lemma scan_no_write cwd s es :
  Forall (fun e => can_write (e_access e) = false) es -> foldl (scan_entry cwd) s es = s.
Proof.
  induction 1 as [|e es He Hes IH]; [done|]. cbn [foldl]. rewrite <- IH at 2. f_equal. unfold scan_entry. rewrite He.
  destruct (e_path e) as [q|g|v]; [done..|]. destruct v as [| |[sub|]| | |]; try done;
    by destruct (resolve_file_system_special_path _ _).
Qed.

(** The read-only defaults are appended behind the entries. *)
Lemma append_default_suffix es path :
  exists more, append_default_read_only_entry_if_no_explicit_rule es path = es ++ more /\
    Forall (fun e => e_access e = Read /\ e_path e = path) more.
Proof.
  unfold append_default_read_only_entry_if_no_explicit_rule. destruct (existsb _ _).
  - exists []. by rewrite app_nil_r.
  - eexists. split; [done|]. by repeat constructor.
Qed.

Lemma append_paths_suffix paths es :
  exists more, foldl append_default_read_only_path_if_no_explicit_rule es paths = es ++ more /\
    Forall (fun e => e_access e = Read /\ exists q, q ∈ paths /\ e_path e = Path q) more.
Proof.
  revert es. induction paths as [|q paths IH]; intros es; cbn [foldl]; [exists []; by rewrite app_nil_r|].
  destruct (append_default_suffix es (Path q)) as (m1 & E1 & H1). unfold append_default_read_only_path_if_no_explicit_rule at 2.
  rewrite E1. destruct (IH (es ++ m1)) as (m2 & -> & H2). exists (m1 ++ m2). split; [by rewrite (assoc_L (++))|].
  apply Forall_app. split; (eapply Forall_impl; [eassumption|]).
  - intros e [Ha Hp]. split; [done|]. exists q. split; [by left|done].
  - intros e [Ha (q' & Hq & Hp)]. split; [done|]. exists q'. split; [by right|done].
Qed.

Definition read_path_entries (es : list FileSystemSandboxEntry) : Prop :=
  Forall (fun e => can_write (e_access e) = false) es.

Lemma append_paths_read paths es :
  exists more, foldl append_default_read_only_path_if_no_explicit_rule es paths = es ++ more /\ read_path_entries more.
Proof.
  destruct (append_paths_suffix paths es) as (more & E & H). exists more. split; [done|].
  eapply Forall_impl; [exact H|]. by intros e [-> _].
Qed.

Lemma workspace_write_shape roots t st :
  exists more, entries (workspace_write roots t st) = workspace_write_entries roots t st ++ more /\ read_path_entries more.
Proof.
  unfold workspace_write, append_default_read_only_project_root_subpath_if_no_explicit_rule, append_defaults. cbn [entries restricted].
  assert (forall es path, exists more, append_default_read_only_entry_if_no_explicit_rule es path = es ++ more /\
    read_path_entries more) as Hone.
  { intros es path. destruct (append_default_suffix es path) as (more & E & H). exists more. split; [done|].
    eapply Forall_impl; [exact H|]. by intros e [-> _]. }
  set (es := workspace_write_entries roots t st).
  destruct (Hone es (Special (ProjectRoots (Some (&".git"))))) as (m1 & -> & H1).
  destruct (Hone (es ++ m1) (Special (ProjectRoots (Some (&".agents"))))) as (m2 & -> & H2).
  destruct (Hone ((es ++ m1) ++ m2) (Special (ProjectRoots (Some (&".codex"))))) as (m3 & -> & H3).
  destruct (append_paths_read (mbind (fun r => default_read_only_subpaths_for_writable_root r false) roots)
    (((es ++ m1) ++ m2) ++ m3)) as (m4 & -> & H4).
  exists (m1 ++ m2 ++ m3 ++ m4). split; [by rewrite <- !(assoc_L (++))|]. unfold read_path_entries in *. by rewrite !Forall_app.
Qed.

Lemma from_legacy_shape roots net t st cwd :
  let pol := from_legacy_sandbox_policy_for_cwd (WorkspaceWrite roots net t st) cwd in
  kind pol = Restricted /\
  exists more, entries pol = workspace_write_entries roots t st ++ more /\ read_path_entries more.
Proof.
  unfold from_legacy_sandbox_policy_for_cwd. cbn [with_entries kind entries from_sandbox_policy]. split; [done|].
  destruct (workspace_write_shape roots t st) as (m1 & -> & H1). unfold append_defaults, append_cwd_defaults.
  assert (exists m2, (match from_absolute_path cwd with
    | Some cwd_root => foldl append_default_read_only_path_if_no_explicit_rule (workspace_write_entries roots t st ++ m1)
        (default_read_only_subpaths_for_writable_root cwd_root true)
    | None => workspace_write_entries roots t st ++ m1 end) = (workspace_write_entries roots t st ++ m1) ++ m2 /\
    read_path_entries m2) as (m2 & -> & H2).
  { destruct (from_absolute_path cwd); [apply append_paths_read|]. exists []. rewrite app_nil_r. by split; [|constructor]. }
  destruct (append_paths_read (mbind (fun r => default_read_only_subpaths_for_writable_root r false) roots)
    ((workspace_write_entries roots t st ++ m1) ++ m2)) as (m3 & -> & H3).
  exists (m1 ++ m2 ++ m3). split; [by rewrite <- !(assoc_L (++))|]. unfold read_path_entries in *. by rewrite !Forall_app.
Qed.

Definition is_cwd (cwd : option str) (q : str) : bool := match cwd with Some c => path_eqb c q | None => false end.

Lemma scan_paths cwd s roots :
  workspace_root_writable s = true ->
  foldl (scan_entry cwd) s (map (fun path => {| e_path := Path path; e_access := Write |}) roots) =
  {| workspace_root_writable := true;
     scan_writable_roots := scan_writable_roots s ++ List.filter (fun q => negb (is_cwd cwd q)) roots;
     tmpdir_writable := tmpdir_writable s; slash_tmp_writable := slash_tmp_writable s;
     unbridgeable_root_write := unbridgeable_root_write s |}.
Proof.
  revert s. induction roots as [|q roots IH]; intros s Hs; cbn [map foldl List.filter].
  { rewrite app_nil_r, <- Hs. by destruct s. }
  change (scan_entry cwd s {| e_path := Path q; e_access := Write |}) with
    (if is_cwd cwd q then set_workspace s else push_root q s).
  destruct (is_cwd cwd q); cbn [negb]; rewrite IH by done; [done|]. cbn. by rewrite <- (assoc_L (++)).
Qed.

Lemma legacy_root_read es more :
  read_path_entries more -> existsb (fun e => match e_path e with Special Root => can_write (e_access e) | _ => false end) es = false ->
  existsb (fun e => match e_path e with Special Root => can_write (e_access e) | _ => false end) (es ++ more) = false.
Proof.
  intros Hm He. rewrite existsb_app, He. cbn [orb]. apply existsb_none. intros e Hin. eapply Forall_forall in Hm; [|exact Hin].
  destruct (e_path e) as [| |[]]; done.
Qed.

Lemma workspace_entries_no_root_write roots t st :
  existsb (fun e => match e_path e with Special Root => can_write (e_access e) | _ => false end)
    (workspace_write_entries roots t st) = false.
Proof.
  unfold workspace_write_entries. rewrite !existsb_app.
  assert (existsb (fun e => match e_path e with Special Root => can_write (e_access e) | _ => false end)
    (map (fun path => {| e_path := Path path; e_access := Write |}) roots) = false) as ->.
  { apply existsb_none. intros e (q & -> & _)%list_elem_of_fmap. done. }
  by destruct t, st.
Qed.

(** What the conversion back cannot keep of a policy: roots that repeat, and roots
    that are the working directory, which is writable anyway. *)
Definition legacy_normal (cwd : str) (sp : SandboxPolicy) : SandboxPolicy :=
  match sp with
  | WorkspaceWrite roots net t st =>
      WorkspaceWrite (dedup_paths [] (List.filter (fun q => negb (is_cwd (from_absolute_path cwd) q)) roots)) net t st
  | _ => sp
  end.

Lemma legacy_roundtrip sp cwd :
  to_legacy_sandbox_policy (from_legacy_sandbox_policy_for_cwd sp cwd) (network_from_sandbox_policy sp) cwd =
  Ok (legacy_normal cwd sp).
Proof.
  destruct sp as [|net|net|roots net t st]; [done|by destruct net|by destruct net|].
  destruct (from_legacy_shape roots net t st cwd) as (Hk & more & He & Hm). unfold to_legacy_sandbox_policy.
  rewrite Hk. unfold has_full_disk_write_access, has_root_access. rewrite Hk, He.
  rewrite legacy_root_read, andb_false_r by (done || apply workspace_entries_no_root_write). cbn [andb].
  rewrite foldl_app, (scan_no_write _ _ more) by done. unfold workspace_write_entries. rewrite !foldl_app, scan_paths.
  - destruct net, t, st; done.
  - by destruct t, st.
Qed.

(** Converting an older sandbox policy into a file system policy for a working
    directory and a network policy, and these back, gives the older policy again,
    less the repeated writable roots and the ones that are the working directory.
    Nothing is assumed of the host: the read-only defaults the conversion adds
    for the metadata it finds there never change the way back. *)
Theorem legacy_policy_roundtrip (sp : SandboxPolicy) (cwd : str) :
  to_legacy_sandbox_policy (from_legacy_sandbox_policy_for_cwd sp cwd) (network_from_sandbox_policy sp) cwd =
  Ok (legacy_normal cwd sp).
Proof. apply legacy_roundtrip. Qed.

(** ** Denied reads *)

(** A deny entry decides its own path. *)
Lemma deny_at_self `{!ProcessEnvOk} pol cwd e :
  wf_policy pol -> kind pol = Restricted -> e ∈ resolved_entries_with_cwd pol cwd -> r_access e = Deny ->
  can_read_path_with_cwd pol (r_path e) cwd = false.
Proof.
  intros Hw Hk He Ha. pose proof (R_normal _ _ Hw _ He) as Hne. unfold can_read_path_with_cwd.
  destruct (access_decided pol cwd Hw Hk (r_path e) Hne) as [(m & Hd & ->)|[Hn _]]; [|destruct (Hn e He); apply within_refl].
  pose proof (proj2 (proj2 Hd) e He (within_refl _)) as Hp. pose proof (within_depth _ _ (proj1 (proj2 Hd))) as Hdep.
  unfold precedes in Hp. rewrite Ha in Hp. cbn in Hp. destruct (r_access m); cbn in *; [lia..|done].
Qed.

Lemma unreadable_roots_plain `{!ProcessEnvOk, !PlainHost} pol cwd q :
  wf_policy pol -> kind pol = Restricted -> normal_absolute cwd ->
  q ∈ get_unreadable_roots_with_cwd pol cwd <->
  exists e, e ∈ resolved_entries_with_cwd pol cwd /\ r_access e = Deny /\ r_path e <> absolute_of [] /\ q = r_path e.
Proof.
  intros Hw Hk Hcwd. unfold get_unreadable_roots_with_cwd, dedup_absolute_paths. rewrite is_restricted_eq by done. cbn [negb].
  rewrite from_absolute_path_normal by done. cbn [option_map]. rewrite (proj2 (absolute_root_path_normal cwd Hcwd)).
  set (L := map r_path _).
  assert (forall x, x ∈ L <-> exists e, e ∈ resolved_entries_with_cwd pol cwd /\ r_access e = Deny /\
    r_path e <> absolute_of [] /\ x = r_path e) as HL.
  { intros x. unfold L. rewrite list_elem_of_fmap. apply exist_proper. intros e. rewrite !elem_of_filterb, !negb_true_iff.
    cbn [opt_path_eqb]. split.
    - intros (-> & ((He & Ha) & _) & Hne). split_and!; [done|by destruct (r_access e)| |done].
      intros Hr. rewrite Hr, path_eqb_refl in Hne. done.
    - intros (He & Ha & Hne & ->). split_and!; [done|done|by rewrite Ha|by apply deny_at_self|].
      apply not_true_iff_false. intros Hx%path_eqb_normal; [congruence|by exists []|by eapply R_normal]. }
  assert (Forall normal_absolute L) as Hf.
  { apply Forall_forall. intros x (e & He & _ & _ & ->)%HL. by eapply R_normal. }
  rewrite map_effective, dedup_paths_elem by done. apply HL.
Qed.

Lemma candidates_plain `{!PlainHost} p : normal_absolute p -> normalized_and_canonical_candidates p = [p].
Proof.
  intros Hp. unfold normalized_and_canonical_candidates. rewrite from_absolute_path_normal by done. cbn [default].
  destruct (fs_canonicalize p) as [q|] eqn:E; [|done]. apply canonicalize_plain in E as ->; [|done]. cbn [mbind option_bind].
  rewrite from_absolute_path_normal by done. unfold push_unique. cbn. by rewrite path_eqb_refl.
Qed.

Section globs.
Context `{Hglob : !GlobLib}.

Lemma compile_globs_closed globs :
  exists ms invalid, compile_globs FailClosed globs = Ok (ms, invalid) /\
    (invalid = true <-> exists g err, g ∈ globs /\ glob_build g = inl err) /\
    (forall mt, mt ∈ ms <-> exists g, g ∈ globs /\ glob_build g = inr mt).
Proof.
  induction globs as [|g globs (ms & invalid & E & Hi & Hm)]; cbn [compile_globs].
  { exists [], false. split_and!; [done|split; [done|by intros (? & ? & ?%not_elem_of_nil & _)]|].
    intros mt. split; [by intros ?%not_elem_of_nil|by intros (? & ?%not_elem_of_nil & _)]. }
  destruct (glob_build g) as [err|mt0] eqn:Eg; rewrite E; cbn.
  - exists ms, true. split_and!; [done|split; [|done]|].
    + intros _. exists g, err. split; [by left|done].
    + intros mt. rewrite Hm. setoid_rewrite elem_of_cons. split; [naive_solver|].
      intros (g' & [->|Hg'] & Hb); [congruence|by exists g'].
  - exists (mt0 :: ms), invalid. split_and!; [done| |].
    + rewrite Hi. setoid_rewrite elem_of_cons. split; [naive_solver|]. intros (g' & err & [->|Hg'] & Hb); [congruence|by exists g', err].
    + intros mt. rewrite elem_of_cons, Hm. setoid_rewrite elem_of_cons. split; [naive_solver|].
      intros (g' & [->|Hg'] & Hb); [left; congruence|right; by exists g'].
Qed.

Lemma new_matcher_built pol cwd :
  kind pol = Restricted ->
  (exists m, new_matcher pol cwd = Ok (Some m) /\
     denied_candidates m = map normalized_and_canonical_candidates (get_unreadable_roots_with_cwd pol cwd) /\
     (invalid_pattern m = true <-> exists g err, g ∈ get_unreadable_globs_with_cwd pol cwd /\ glob_build g = inl err) /\
     (forall mt, mt ∈ deny_read_matchers m <-> exists g, g ∈ get_unreadable_globs_with_cwd pol cwd /\ glob_build g = inr mt)) \/
  new_matcher pol cwd = Ok None /\ forall e, e ∈ entries pol -> e_access e <> Deny.
Proof.
  intros Hk. unfold new_matcher, build_matcher, has_denied_read_restrictions. rewrite is_restricted_eq by done. cbn [andb].
  destruct (existsb _ (entries pol)) eqn:Ed; cbn [negb].
  - destruct (compile_globs_closed (get_unreadable_globs_with_cwd pol cwd)) as (ms & invalid & E & Hi & Hm).
    rewrite E. cbn [comp_bind]. left. eexists. split; [done|]. done.
  - right. split; [done|]. intros e He Ha. rewrite existsb_none in Ed. specialize (Ed e He). by rewrite Ha in Ed.
Qed.

Lemma new_matcher_spec `{!ProcessEnvOk, !PlainHost} pol p cwd :
  wf_policy pol -> kind pol = Restricted -> normal_absolute cwd -> normal_absolute p ->
  let globs := get_unreadable_globs_with_cwd pol cwd in
  match new_matcher pol cwd with
  | Ok (Some m) =>
      is_read_denied m p = true <->
      (exists g err, g ∈ globs /\ glob_build g = inl err) \/
      (exists e, e ∈ resolved_entries_with_cwd pol cwd /\ r_access e = Deny /\ r_path e <> absolute_of [] /\ covers e p) \/
      (exists g mt, g ∈ globs /\ glob_build g = inr mt /\ glob_is_match mt p = true)
  | Ok None => forall e, e ∈ entries pol -> e_access e <> Deny
  | _ => False
  end.
Proof.
  intros Hw Hk Hcwd Hp globs. destruct (new_matcher_built pol cwd Hk) as [(m & -> & Hd & Hi & Hm)|[-> Hn]]; [|done].
  unfold is_read_denied. destruct (invalid_pattern m).
  { split; [|done]. intros _. left. by apply Hi. }
  rewrite candidates_plain, Hd by done.
  match goal with |- context [if existsb ?f ?l then _ else _] => assert (existsb f l = true <->
    exists e, e ∈ resolved_entries_with_cwd pol cwd /\ r_access e = Deny /\ r_path e <> absolute_of [] /\ covers e p) as He end.
  { rewrite existsb_elem. split.
    - intros (c & (q & -> & Hq)%list_elem_of_fmap & Hx). apply unreadable_roots_plain in Hq as (e & He & Ha & Hne & ->); [|done..].
      pose proof (R_normal _ _ Hw _ He) as Hn. rewrite candidates_plain in Hx by done. cbn in Hx. rewrite !orb_false_r in Hx.
      exists e. split_and!; [done..|]. apply orb_true_iff in Hx as [Hx|Hs]; [|by apply covers_starts_with].
      apply path_eqb_normal in Hx; [|done..]. unfold covers. rewrite Hx. apply within_refl.
    - intros (e & He & Ha & Hne & Hc). pose proof (R_normal _ _ Hw _ He) as Hn. exists [r_path e]. split.
      + apply list_elem_of_fmap. exists (r_path e). rewrite candidates_plain by done. split; [done|].
        apply unreadable_roots_plain; [done..|]. by exists e.
      + cbn. apply covers_starts_with in Hc; [|done..]. by rewrite Hc, orb_true_r. }
  assert (~ exists g err, g ∈ globs /\ glob_build g = inl err) as Hno by (intros Hx%Hi; done).
  destruct (existsb _ (map _ _)); [split; [|done]; intros _; right; left; by apply He|].
  rewrite existsb_elem. split.
  - intros (mt & (g & Hg & Hb)%Hm & Hx). right. right. exists g, mt. split_and!; [done..|]. cbn in Hx. by rewrite orb_false_r in Hx.
  - intros [?|[?%He|(g & mt & Hg & Hb & Hx)]]; [done..|]. exists mt. split; [apply Hm; by exists g|]. cbn. by rewrite Hx.
Qed.

Lemma matcher_refuses `{!ProcessEnvOk, !PlainHost} pol p cwd e :
  wf_policy pol -> kind pol = Restricted -> normal_absolute cwd -> normal_absolute p ->
  e ∈ resolved_entries_with_cwd pol cwd -> r_access e = Deny -> r_path e <> absolute_of [] -> covers e p ->
  exists m, new_matcher pol cwd = Ok (Some m) /\ is_read_denied m p = true.
Proof.
  intros Hw Hk Hcwd Hp He Ha Hne Hc. pose proof (new_matcher_spec pol p cwd Hw Hk Hcwd Hp) as Hs.
  destruct (new_matcher pol cwd) as [[m|]|err| |]; [|exfalso|done..].
  - exists m. split; [done|]. apply Hs. right. left. by exists e.
  - pose proof He as (e' & He' & _ & Ha')%resolved_entries_elem. apply (Hs e' He'). congruence.
Qed.

(** On a host without symbolic links the matcher of denied reads always comes
    into being (the panic behind it is not reached), and it refuses a path exactly
    when some glob of the policy does not compile, or some deny entry other than
    the root is at or above the path, or some compiled deny glob matches the path;
    there is no matcher only when nothing is denied. *)
Theorem read_deny_matcher_spec `{!ProcessEnvOk, !PlainHost} (pol : FileSystemSandboxPolicy) (p cwd : str) :
  wf_policy pol -> kind pol = Restricted -> normal_absolute cwd -> normal_absolute p ->
  let globs := get_unreadable_globs_with_cwd pol cwd in
  match new_matcher pol cwd with
  | Ok (Some m) =>
      is_read_denied m p = true <->
      (exists g err, g ∈ globs /\ glob_build g = inl err) \/
      (exists e, e ∈ resolved_entries_with_cwd pol cwd /\ r_access e = Deny /\ r_path e <> absolute_of [] /\ covers e p) \/
      (exists g mt, g ∈ globs /\ glob_build g = inr mt /\ glob_is_match mt p = true)
  | Ok None => forall e, e ∈ entries pol -> e_access e <> Deny
  | _ => False
  end.
Proof. intros Hw Hk Hcwd Hp. by apply new_matcher_spec. Qed.
End globs.

(** ** Deny entries survive *)

Lemma entry_eqb_refl e : entry_eqb e e = true.
Proof.
  unfold entry_eqb. rewrite bool_decide_eq_true_2, andb_true_r by done.
  assert (forall o, opt_path_eqb o o = true) as Ho by (intros [q|]; [apply path_eqb_refl|done]).
  destruct (e_path e) as [q|g|v]; cbn; [apply path_eqb_refl|apply str_eqb_refl|].
  destruct v; cbn; rewrite ?str_eqb_refl, ?Ho; done.
Qed.

Lemma add_missing_denies_spec existing es :
  exists more, add_missing_denies existing es = es ++ more /\
    (forall e, e ∈ more -> e ∈ existing /\ e_access e = Deny) /\
    (forall d, d ∈ existing -> e_access d = Deny -> exists e, e ∈ es ++ more /\ entry_eqb e d = true).
Proof.
  unfold add_missing_denies. set (D := List.filter _ existing).
  assert (forall d, d ∈ D <-> d ∈ existing /\ e_access d = Deny) as HD.
  { intros d. unfold D. rewrite elem_of_filterb. destruct (e_access d); cbn; naive_solver. }
  assert (exists more, foldl (fun es deny_entry =>
      if negb (existsb (fun entry => entry_eqb entry deny_entry) es) then es ++ [deny_entry] else es) es D = es ++ more /\
    (forall e, e ∈ more -> e ∈ D) /\ (forall d, d ∈ D -> exists e, e ∈ es ++ more /\ entry_eqb e d = true))
    as (more & E & H1 & H2).
  { clear HD. generalize D. clear D. intros D. revert es. induction D as [|d D IH]; intros es; cbn [foldl].
    { exists []. rewrite app_nil_r. split_and!; [done|set_solver|]. intros d Hd. by apply not_elem_of_nil in Hd. }
    destruct (existsb (fun entry => entry_eqb entry d) es) eqn:Ex; cbn [negb].
    - destruct (IH es) as (more & E & H1 & H2). exists more. split_and!; [done|intros e He; right; by apply H1|].
      intros d' [->|Hd]%elem_of_cons; [|by apply H2]. apply existsb_elem in Ex as (e & He & Hq). exists e.
      split; [apply elem_of_app; by left|done].
    - destruct (IH (es ++ [d])) as (more & E & H1 & H2). exists (d :: more). rewrite <- (assoc_L (++)) in E, H2. cbn [app] in E, H2.
      split_and!; [done|intros e [->|He]%elem_of_cons; [by left|right; by apply H1]|].
      intros d' [->|Hd]%elem_of_cons; [|by apply H2]. exists d. split; [|apply entry_eqb_refl].
      apply elem_of_app. right. by left. }
  exists more. split_and!; [done|intros e He; by apply HD, H1|intros d Hd Ha; apply H2, HD; done].
Qed.

(** Every deny entry of [existing] has its equal in [pol]. *)
Definition denies_kept (existing pol : FileSystemSandboxPolicy) : Prop :=
  forall d, d ∈ entries existing -> e_access d = Deny -> exists e, e ∈ entries pol /\ entry_eqb e d = true.

(** *** Ways to make a policy *)

Inductive policy_step : FileSystemSandboxPolicy -> FileSystemSandboxPolicy -> Prop :=
| step_preserve existing pol :
    wf_policy existing -> policy_step pol (preserve_deny_read_restrictions_from existing pol)
| step_legacy_preserving sp cwd existing :
    (match sp with WorkspaceWrite roots _ _ _ => Forall normal_absolute roots | _ => True end) ->
    policy_step existing (from_legacy_sandbox_policy_preserving_deny_entries sp cwd existing)
| step_materialize_cwd pol cwd : policy_step pol (materialize_project_roots_with_cwd pol cwd)
| step_materialize_roots pol roots :
    Forall normal_absolute roots -> policy_step pol (materialize_project_roots_with_workspace_roots pol roots)
| step_with_materialized pol roots :
    Forall normal_absolute roots -> policy_step pol (with_materialized_project_roots_for_workspace_roots pol roots)
| step_readable pol cwd roots :
    Forall normal_absolute roots -> policy_step pol (with_additional_readable_roots pol cwd roots)
| step_writable pol cwd roots :
    Forall normal_absolute roots -> policy_step pol (with_additional_writable_roots pol cwd roots)
| step_legacy_writable pol roots :
    Forall normal_absolute roots -> policy_step pol (with_additional_legacy_workspace_writable_roots pol roots).

Inductive policy_built : FileSystemSandboxPolicy -> Prop :=
| built_restricted es : Forall wf_entry es -> policy_built (restricted es)
| built_unrestricted : policy_built unrestricted
| built_external : policy_built external_sandbox
| built_legacy sp cwd :
    (match sp with WorkspaceWrite roots _ _ _ => Forall normal_absolute roots | _ => True end) ->
    policy_built (from_legacy_sandbox_policy_for_cwd sp cwd)
| built_runtime sp cwd :
    (match sp with WorkspaceWrite roots _ _ _ => Forall normal_absolute roots | _ => True end) ->
    policy_built (legacy_runtime_file_system_policy_for_cwd sp cwd)
| built_step pol pol' : policy_built pol -> policy_step pol pol' -> policy_built pol'.

(** The invariant of a policy in use: entry paths are normalised, and only a
    restricted policy has entries. *)
Definition policy_inv (pol : FileSystemSandboxPolicy) : Prop :=
  wf_policy pol /\ (kind pol <> Restricted -> entries pol = []).

Lemma wf_append_paths paths es :
  Forall normal_absolute paths -> Forall wf_entry es ->
  Forall wf_entry (foldl append_default_read_only_path_if_no_explicit_rule es paths).
Proof.
  intros Hp He. destruct (append_paths_suffix paths es) as (more & -> & Hm). apply Forall_app. split; [done|].
  eapply Forall_impl; [exact Hm|]. intros e (_ & q & Hq & Ee). unfold wf_entry. rewrite Ee.
  eapply Forall_forall in Hp; done.
Qed.

Lemma wf_append_defaults roots es :
  Forall normal_absolute roots -> Forall wf_entry es -> Forall wf_entry (append_defaults roots es).
Proof.
  intros Hr He. apply wf_append_paths; [|done]. apply Forall_forall. intros q (r & Hq & Hin)%list_elem_of_bind.
  eapply Forall_forall in Hr; [|done]. eapply Forall_forall in Hq; [done|]. by apply default_read_only_normal.
Qed.

Lemma wf_append_cwd `{!ProcessEnvOk} cwd es : Forall wf_entry es -> Forall wf_entry (append_cwd_defaults cwd es).
Proof.
  intros He. unfold append_cwd_defaults. destruct (from_absolute_path cwd) as [c|] eqn:E; [|done].
  apply wf_append_paths; [|done]. apply default_read_only_normal. by eapply from_absolute_path_result.
Qed.

Lemma wf_workspace_entries roots t st : Forall normal_absolute roots -> Forall wf_entry (workspace_write_entries roots t st).
Proof.
  intros Hr. unfold workspace_write_entries. rewrite !Forall_app. split_and!; [by repeat constructor|by destruct st; repeat constructor|by destruct t; repeat constructor|].
  apply Forall_fmap. by eapply Forall_impl.
Qed.

Lemma wf_workspace_write roots t st : Forall normal_absolute roots -> Forall wf_entry (entries (workspace_write roots t st)).
Proof.
  intros Hr. cbn [workspace_write restricted entries]. apply wf_append_defaults; [done|].
  assert (forall es sub, Forall wf_entry es ->
    Forall wf_entry (append_default_read_only_project_root_subpath_if_no_explicit_rule es sub)) as Hone.
  { intros es sub He. unfold append_default_read_only_project_root_subpath_if_no_explicit_rule.
    destruct (append_default_suffix es (Special (ProjectRoots (Some sub)))) as (more & -> & Hm). apply Forall_app. split; [done|].
    eapply Forall_impl; [exact Hm|]. intros e [_ Ee]. unfold wf_entry. by rewrite Ee. }
  by apply Hone, Hone, Hone, wf_workspace_entries.
Qed.

Lemma inv_restricted pol : kind pol = Restricted -> Forall wf_entry (entries pol) -> policy_inv pol.
Proof. intros Hk He. split; [done|]. by rewrite Hk. Qed.

Lemma inv_from_legacy `{!ProcessEnvOk} sp cwd :
  (match sp with WorkspaceWrite roots _ _ _ => Forall normal_absolute roots | _ => True end) ->
  policy_inv (from_legacy_sandbox_policy_for_cwd sp cwd) /\ policy_inv (legacy_runtime_file_system_policy_for_cwd sp cwd).
Proof.
  assert (policy_inv unrestricted /\ policy_inv external_sandbox /\
    policy_inv (restricted [{| e_path := Special Root; e_access := Read |}])) as (H1 & H2 & H3).
  { split_and!; (split; [by repeat constructor|done]). }
  destruct sp as [|net|net|roots net t st]; intros Hr; [done..|]. split; apply inv_restricted; try done.
  - by apply wf_append_defaults, wf_append_cwd, wf_workspace_write.
  - by apply wf_append_defaults, wf_append_cwd, wf_workspace_entries.
Qed.

Lemma inv_preserve existing pol :
  wf_policy existing -> policy_inv pol -> policy_inv (preserve_deny_read_restrictions_from existing pol).
Proof.
  intros He [Hw Hk]. unfold preserve_deny_read_restrictions_from. cbv zeta.
  match goal with |- context [is_restricted ?q] => set (q0 := q) end.
  assert (policy_inv q0) as [Hw0 Hk0].
  { unfold q0. destruct (kind pol) eqn:E; [by split; [|rewrite E]| |by split; [|rewrite E]].
    destruct (existsb _ _); [apply inv_restricted; [done|by repeat constructor]|by split; [|rewrite E]]. }
  destruct (is_restricted q0) eqn:Er; cbn [negb]; [|done].
  assert (kind q0 = Restricted) as Ek by by unfold is_restricted in Er; destruct (kind q0).
  apply inv_restricted; [by destruct (glob_scan_max_depth q0)|]. cbn [with_entries entries].
  destruct (add_missing_denies_spec (entries existing) (entries (match glob_scan_max_depth q0 with
    None => with_depth (glob_scan_max_depth existing) q0 | Some _ => q0 end))) as (more & -> & Hm & _).
  apply Forall_app. split; [by destruct (glob_scan_max_depth q0)|]. apply Forall_forall. intros e [Hin _]%Hm.
  unfold wf_policy in He. rewrite Forall_forall in He. auto.
Qed.

Lemma inv_legacy_preserving `{!ProcessEnvOk} sp cwd existing :
  (match sp with WorkspaceWrite roots _ _ _ => Forall normal_absolute roots | _ => True end) -> policy_inv existing ->
  policy_inv (from_legacy_sandbox_policy_preserving_deny_entries sp cwd existing).
Proof.
  intros Hr [He _]. unfold from_legacy_sandbox_policy_preserving_deny_entries.
  destruct (inv_from_legacy sp cwd Hr) as [[Hw Hk] _]. set (r := from_legacy_sandbox_policy_for_cwd sp cwd) in *.
  destruct (is_restricted r) eqn:Er; cbn [negb]; [|done].
  apply inv_restricted; [by unfold is_restricted in Er; cbn; destruct (kind r)|]. cbn [with_entries with_depth entries].
  destruct (add_missing_denies_spec (entries existing) (entries r)) as (more & -> & Hm & _).
  apply Forall_app. split; [done|]. apply Forall_forall. intros e [Hin _]%Hm.
  unfold wf_policy in He. rewrite Forall_forall in He. auto.
Qed.

Lemma inv_materialize_cwd `{!ProcessEnvOk} pol cwd : policy_inv pol -> policy_inv (materialize_project_roots_with_cwd pol cwd).
Proof.
  intros [Hw Hk]. split; cbn; [|intros ->%Hk; done]. apply Forall_fmap. eapply Forall_impl; [exact Hw|]. intros e He.
  unfold wf_entry, materialize_entry_with_cwd in *. cbn. destruct (e_path e) as [q|g|v] eqn:E; [by rewrite E| |].
  - destruct (from_absolute_path cwd), (parse_project_roots_glob_pattern g); by rewrite ?E.
  - destruct v as [| |sub| | |]; try by rewrite E. destruct (resolve_file_system_path _ _) as [q|] eqn:Er; [|by rewrite E].
    cbn. eapply resolve_special_normal; [|exact Er]. intros c. apply from_absolute_path_result.
Qed.

Lemma wf_materialize_roots pol roots :
  Forall normal_absolute roots -> wf_policy pol -> wf_policy (materialize_project_roots_with_workspace_roots pol roots).
Proof.
  intros Hr Hw. unfold wf_policy in *. cbn. apply Forall_bind. eapply Forall_impl; [exact Hw|]. intros e He.
  change (Forall wf_entry (materialize_entry_with_roots roots e)). unfold materialize_entry_with_roots. destruct (e_path e) as [q|g|v] eqn:E; [by constructor| |].
  - destruct (parse_project_roots_glob_pattern g); [|by constructor]. apply Forall_fmap. by eapply Forall_impl.
  - destruct v as [| |sub| | |]; try by constructor. apply Forall_fmap. eapply Forall_impl; [exact Hr|].
    intros r Hn. cbn. destruct sub; [by apply resolve_base_normal|done].
Qed.

Lemma wf_with_entries pol es : policy_inv pol -> kind pol = Restricted -> Forall wf_entry es -> policy_inv (with_entries es pol).
Proof. intros _ Hk He. by apply inv_restricted. Qed.

Lemma inv_fold {A} (P : A -> Prop) (f : FileSystemSandboxPolicy -> A -> FileSystemSandboxPolicy) pol xs :
  (forall p x, P x -> policy_inv p -> policy_inv (f p x)) -> Forall P xs -> policy_inv pol -> policy_inv (foldl f pol xs).
Proof. intros Hf Hx. revert pol. induction Hx as [|x xs Hx Hxs IH]; intros pol Hp; cbn; auto. Qed.

Lemma inv_push pol q a : policy_inv pol -> kind pol = Restricted -> normal_absolute q ->
  policy_inv (with_entries (push_entry (Path q) a (entries pol)) pol).
Proof.
  intros Hi Hk Hq. apply wf_with_entries; [done..|]. unfold push_entry. apply Forall_app. split; [apply Hi|].
  by repeat constructor.
Qed.

Lemma write_unless_restricted pol q cwd : kind pol <> Restricted -> can_write_path_with_cwd pol q cwd = true.
Proof.
  intros Hk. unfold can_write_path_with_cwd, resolve_access_with_cwd, has_full_disk_write_access. by destruct (kind pol).
Qed.

Lemma inv_readable pol cwd roots :
  Forall normal_absolute roots -> policy_inv pol -> policy_inv (with_additional_readable_roots pol cwd roots).
Proof.
  intros Hr Hp. unfold with_additional_readable_roots. destruct (has_full_disk_read_access pol); [done|].
  apply (inv_fold normal_absolute); [|done..]. intros p q Hq Hi. unfold can_read_path_with_cwd, resolve_access_with_cwd.
  destruct (kind p) eqn:Ek; [|done..]. destruct (can_read _); [done|]. by apply inv_push.
Qed.

Lemma inv_writable pol cwd roots :
  Forall normal_absolute roots -> policy_inv pol -> policy_inv (with_additional_writable_roots pol cwd roots).
Proof.
  intros Hr Hp. unfold with_additional_writable_roots. apply (inv_fold normal_absolute); [|done..]. intros p q Hq Hi.
  destruct (kind p) eqn:Ek; [|by rewrite write_unless_restricted by by rewrite Ek..].
  destruct (can_write_path_with_cwd p q cwd); [done|]. by apply inv_push.
Qed.

Lemma inv_legacy_writable pol roots :
  Forall normal_absolute roots -> policy_inv pol -> policy_inv (with_additional_legacy_workspace_writable_roots pol roots).
Proof.
  intros Hr Hp. unfold with_additional_legacy_workspace_writable_roots. destruct (is_restricted pol) eqn:Er; cbn [negb]; [|done].
  assert (kind pol = Restricted) as Ek by by unfold is_restricted in Er; destruct (kind pol). clear Er.
  revert pol Hp Ek. induction Hr as [|q roots Hq Hr IH]; intros pol Hp Ek; cbn [foldl]; [done|]. apply IH; [|done].
  apply inv_restricted; [done|]. cbn [with_entries entries]. apply wf_append_paths; [by apply default_read_only_normal|].
  destruct (negb _); [|apply Hp]. apply (inv_push pol q Write Hp Ek Hq).
Qed.

Lemma wf_extend es ms :
  Forall wf_entry es -> Forall wf_entry ms ->
  Forall wf_entry (foldl (fun es entry => if existsb (fun e => entry_eqb e entry) es then es else es ++ [entry]) es ms).
Proof.
  intros Hes Hm. revert es Hes. induction Hm as [|e ms He Hm IH]; intros es Hes; cbn [foldl]; [done|].
  apply IH. destruct (existsb _ _); [done|]. apply Forall_app. by repeat constructor.
Qed.

Lemma policy_step_inv `{!ProcessEnvOk} pol pol' : policy_step pol pol' -> policy_inv pol -> policy_inv pol'.
Proof.
  destruct 1 as [existing pol He|sp cwd existing Hr|pol cwd|pol roots Hr|pol roots Hr|pol cwd roots Hr|pol cwd roots Hr|pol roots Hr];
    intros Hi; auto using inv_preserve, inv_legacy_preserving, inv_materialize_cwd, inv_readable, inv_writable, inv_legacy_writable.
  - split; [by apply wf_materialize_roots; [|apply Hi]|]. cbn. intros ->%(proj2 Hi). done.
  - destruct Hi as [Hw Hk]. unfold with_materialized_project_roots_for_workspace_roots. split.
    + apply wf_extend; [done|]. by apply wf_materialize_roots.
    + cbn. intros E%Hk. by rewrite E.
Qed.

(** C37: however a policy comes about (written by hand with absolute paths, converted
    from an older policy, rebuilt, materialised for a directory or for workspace
    roots, or granted more roots, in any order and any number of times), its entry
    paths stay normalised absolute paths and only a restricted policy has entries. *)
Theorem policies_stay_well_formed `{!ProcessEnvOk} (pol : FileSystemSandboxPolicy) :
  policy_built pol -> wf_policy pol /\ (kind pol <> Restricted -> entries pol = []).
Proof.
  change (policy_built pol -> policy_inv pol). induction 1 as [es He| | |sp cwd Hr|sp cwd Hr|pol pol' _ IH Hs].
  - by apply inv_restricted.
  - by split; [constructor|].
  - by split; [constructor|].
  - by apply inv_from_legacy.
  - by apply inv_from_legacy.
  - by eapply policy_step_inv.
Qed.

(** ** What survives a rebuild *)

Lemma deny_entry_resolved `{!ProcessEnvOk} pol cwd e d q :
  wf_policy pol -> e ∈ entries pol -> entry_eqb e d = true -> e_access d = Deny -> e_path d = Path q -> normal_absolute q ->
  {| r_path := q; r_access := Deny |} ∈ resolved_entries_with_cwd pol cwd.
Proof.
  intros Hw He Heq Ha Hp Hq. apply andb_prop in Heq as [Hpe Hae%bool_decide_eq_true]. rewrite Hp in Hpe.
  unfold wf_policy in Hw. rewrite Forall_forall in Hw. specialize (Hw e He). unfold wf_entry in Hw.
  apply resolved_entries_elem. exists e. split; [done|]. destruct (e_path e) as [q'|g|v]; [|done..]. cbn in *.
  apply path_eqb_normal in Hpe as ->; [|done..]. split; [done|]. congruence.
Qed.

Lemma preserve_restricted existing pol d :
  kind pol <> ExternalSandbox -> d ∈ entries existing -> e_access d = Deny ->
  let r := preserve_deny_read_restrictions_from existing pol in
  kind r = Restricted /\ denies_kept existing r /\
  (kind pol = Restricted -> exists more, entries r = entries pol ++ more /\ Forall (fun e => e_access e = Deny) more).
Proof.
  intros Hk Hd Ha r. assert (existsb (fun e => is_deny (e_access e)) (entries existing) = true) as Hex.
  { apply existsb_elem. exists d. by rewrite Ha. }
  unfold r, preserve_deny_read_restrictions_from. rewrite Hex. cbv zeta.
  match goal with |- context [is_restricted ?q] => set (q0 := q) end.
  assert (kind q0 = Restricted) as Ek by by unfold q0; destruct (kind pol) eqn:E.
  rewrite is_restricted_eq by done. cbn [negb].
  set (q1 := match glob_scan_max_depth q0 with None => with_depth (glob_scan_max_depth existing) q0 | Some _ => q0 end).
  assert (kind q1 = Restricted /\ entries q1 = entries q0) as [Ek1 Ee1] by by unfold q1; destruct (glob_scan_max_depth q0).
  destruct (add_missing_denies_spec (entries existing) (entries q1)) as (more & Em & Hm & Hkept).
  cbn [with_entries kind]. unfold denies_kept. cbn [entries with_entries]. rewrite Em. split_and!; [done|done|].
  intros Hkr. exists more. split; [|apply Forall_forall; intros e [_ ?]%Hm; done].
  rewrite Ee1. unfold q0. by rewrite Hkr.
Qed.

Lemma legacy_preserving_restricted sp cwd existing :
  let r := from_legacy_sandbox_policy_preserving_deny_entries sp cwd existing in
  kind r = Restricted -> denies_kept existing r.
Proof.
  unfold from_legacy_sandbox_policy_preserving_deny_entries. set (b := from_legacy_sandbox_policy_for_cwd sp cwd).
  destruct (is_restricted b) eqn:Er; cbn [negb]; [|unfold is_restricted in Er; by destruct (kind b)].
  intros _. destruct (add_missing_denies_spec (entries existing) (entries b)) as (more & Em & _ & Hkept).
  unfold denies_kept. cbn [entries with_entries with_depth]. by rewrite Em.
Qed.

(** A path denied to reads by name stays denied when its policy is replaced.
    Whether the denials are carried over to another policy that is not an external
    sandbox, or the policy is rebuilt as a restricted one from an older policy, the
    matcher of the new policy refuses everything at or below the denied path,
    whatever the new policy grants. *)
Theorem denied_reads_survive_rebuild `{!ProcessEnvOk, !PlainHost, !GlobLib}
    (existing pol r : FileSystemSandboxPolicy) (sp : SandboxPolicy) (cwd q p : str) (d : FileSystemSandboxEntry) :
  policy_inv existing -> policy_inv pol -> kind pol <> ExternalSandbox ->
  (match sp with WorkspaceWrite roots _ _ _ => Forall normal_absolute roots | _ => True end) ->
  r = preserve_deny_read_restrictions_from existing pol \/
  r = from_legacy_sandbox_policy_preserving_deny_entries sp cwd existing /\ kind r = Restricted ->
  d ∈ entries existing -> e_access d = Deny -> e_path d = Path q -> q <> absolute_of [] ->
  normal_absolute cwd -> normal_absolute p -> within p q ->
  exists m, new_matcher r cwd = Ok (Some m) /\ is_read_denied m p = true.
Proof.
  intros Hie Hip Hk Hsp Hr Hd Ha Hp Hq Hcwd Hn Hin.
  assert (kind r = Restricted /\ denies_kept existing r /\ policy_inv r) as (Hkr & Hkept & Hir & _).
  { destruct Hr as [->|[-> Hkr]].
    - destruct (preserve_restricted existing pol d Hk Hd Ha) as (? & ? & _). split_and!; [done..|].
      apply inv_preserve; [apply Hie|done].
    - split_and!; [done|by apply legacy_preserving_restricted|by apply inv_legacy_preserving]. }
  destruct (Hkept d Hd Ha) as (e & He & Heq).
  assert (normal_absolute q) as Hnq.
  { destruct Hie as [Hw _]. unfold wf_policy in Hw. rewrite Forall_forall in Hw. specialize (Hw d Hd). unfold wf_entry in Hw.
    by rewrite Hp in Hw. }
  apply (matcher_refuses r p cwd {| r_path := q; r_access := Deny |}); try done. by eapply deny_entry_resolved.
Qed.

(** ** Granting more *)

Lemma resolved_push pol cwd q a :
  resolved_entries_with_cwd (with_entries (push_entry (Path q) a (entries pol)) pol) cwd =
  resolved_entries_with_cwd pol cwd ++ [{| r_path := q; r_access := a |}].
Proof. unfold resolved_entries_with_cwd, push_entry. cbn [entries with_entries]. by rewrite omap_app. Qed.

Lemma full_write_push pol q :
  has_full_disk_write_access pol = true ->
  has_full_disk_write_access (with_entries (push_entry (Path q) Write (entries pol)) pol) = true.
Proof.
  unfold has_full_disk_write_access. cbn [kind with_entries]. destruct (kind pol) eqn:Ek; [|done..].
  intros [Hr Hn%negb_true_iff]%andb_prop. apply andb_true_iff. split.
  - unfold has_root_access in *. rewrite is_restricted_eq in * by done. cbn [andb entries with_entries] in *.
    unfold push_entry. by rewrite existsb_app, Hr.
  - apply negb_true_iff. unfold has_write_narrowing_entries in *. rewrite is_restricted_eq in * by done.
    cbn [andb entries with_entries] in *. unfold push_entry. rewrite existsb_app. cbn [existsb e_access can_write].
    rewrite !orb_false_r. rewrite existsb_none in *. intros e He. specialize (Hn e He). destruct (can_write (e_access e)); [done|].
    assert (has_same_target_write_override pol e = true ->
      has_same_target_write_override (with_entries (entries pol ++ [{| e_path := Path q; e_access := Write |}]) pol) e = true) as Hm.
    { unfold has_same_target_write_override. cbn [entries with_entries]. rewrite existsb_app. by intros ->. }
    destruct (e_path e) as [x|g|v]; [|done|destruct v]; try done;
      apply negb_false_iff in Hn; by rewrite Hm.
Qed.

(** Nothing that could be read or written before is lost. *)
Definition keeps_access (cwd : str) (pol pol' : FileSystemSandboxPolicy) : Prop :=
  forall p, normal_absolute p ->
    (can_write_path_with_cwd pol p cwd = true -> can_write_path_with_cwd pol' p cwd = true) /\
    (can_read_path_with_cwd pol p cwd = true -> can_read_path_with_cwd pol' p cwd = true).

Lemma decides_push `{!ProcessEnvOk} l e p m m' :
  decides l p m -> decides (l ++ [e]) p m' -> r_access m' = r_access m \/ m' = e /\ precedes m e.
Proof.
  intros (Hm & Hc & Hle) (Hm' & Hc' & Hle'). apply elem_of_app in Hm' as [Hm'| ->%list_elem_of_singleton].
  - left. apply access_rank_inj. pose proof (Hle m' Hm' Hc') as Hp1.
    pose proof (Hle' m ltac:(apply elem_of_app; by left) Hc) as Hp2. unfold precedes in *. lia.
  - right. split; [done|]. apply Hle'; [apply elem_of_app; by left|done].
Qed.

Lemma write_decided `{!ProcessEnvOk} pol cwd p :
  wf_policy pol -> kind pol = Restricted -> normal_absolute p -> can_write_path_with_cwd pol p cwd = true ->
  exists m, decides (resolved_entries_with_cwd pol cwd) p m /\ r_access m = Write.
Proof.
  intros Hw Hk Hp Hc. unfold can_write_path_with_cwd in Hc.
  destruct (access_decided pol cwd Hw Hk p Hp) as [(m & Hd & Em)|[_ Em]]; rewrite Em in Hc; [|done].
  exists m. split; [done|]. by destruct (r_access m).
Qed.

Lemma head_omap_app {A B} (f : A -> option B) (l l' : list A) :
  head (omap f (l ++ l')) = match head (omap f l) with Some y => Some y | None => head (omap f l') end.
Proof. rewrite omap_app. by destruct (omap f l). Qed.

Lemma existsb_app_l {A} (f : A -> bool) l l' : existsb f l = true -> existsb f (l ++ l') = true.
Proof. intros H. by rewrite existsb_app, H. Qed.

Section push_write.
Context `{Hcur : !ProcessEnvOk} (pol : FileSystemSandboxPolicy) (cwd q : str).
Hypothesis Hw : wf_policy pol.
Hypothesis Hk : kind pol = Restricted.
Hypothesis Hq : normal_absolute q.
Let pol' := with_entries (push_entry (Path q) Write (entries pol)) pol.
Let R := resolved_entries_with_cwd pol cwd.
Let e : ResolvedFileSystemEntry := {| r_path := q; r_access := Write |}.

Lemma pushed_wf : wf_policy pol'.
Proof. unfold wf_policy, pol', push_entry in *. cbn [entries with_entries]. apply Forall_app. by repeat constructor. Qed.

Lemma pushed_access p m :
  normal_absolute p -> decides R p m -> r_access m <> Deny ->
  exists m', decides (R ++ [e]) p m' /\ resolve_access_with_cwd pol' p cwd = r_access m' /\
    (r_access m' = r_access m \/ m' = e /\ precedes m e).
Proof.
  intros Hp Hd Ha. destruct (access_decided pol' cwd pushed_wf Hk p Hp) as [(m' & Hd' & Em)|[Hn _]];
    unfold pol' in *; rewrite resolved_push in *.
  - exists m'. split_and!; [done..|]. by eapply decides_push.
  - destruct Hd as (Hm & Hc & _). destruct (Hn m); [apply elem_of_app; by left|done].
Qed.

Hypothesis Hno : can_write_path_with_cwd pol q cwd = false.

(** The new root is no metadata parent of a path that could be written, unless
    the path is granted by an entry of its own. *)
Lemma push_metadata p m :
  normal_absolute p -> decides R p m -> r_access m = Write -> is_metadata_write_denied pol p cwd = false ->
  is_metadata_write_denied pol' p cwd = false.
Proof.
  intros Hp Hd Ha Hden. unfold is_metadata_write_denied in *. rewrite is_restricted_eq in * by done.
  rewrite resolve_candidate_normal in * by done. cbn [negb] in *. unfold metadata_child_of_writable_root,
    has_explicit_write_entry_for_metadata_path in *. unfold pol'. rewrite resolved_push. fold R. fold R in Hden.
  rewrite head_omap_app. destruct (head (omap (metadata_child p) R)) as [[mp k]|] eqn:Eh.
  { apply negb_false_iff. apply negb_false_iff in Hden. by apply existsb_app_l. }
  cbn [omap list_omap head]. fold e. destruct (metadata_child p e) as [[mp k]|] eqn:Ee; [|done].
  apply metadata_child_Some in Ee as (_ & Hkn & -> & Hin); [|done..]. change (r_path e) with q in *.
  pose proof (R_normal _ _ Hw _ (proj1 Hd)) as Hnm. destruct (abs_join_metadata q k Hq Hkn) as [Hj Ej].
  destruct (decide (depth (r_path m) <= depth q)) as [Hle|Hgt].
  - assert (within q (r_path m)) as Hqm.
    { apply (within_linear p); [apply Hd| |done]. eapply within_trans; [exact Hin|]. unfold within. rewrite Ej. by apply prefix_app_r. }
    assert (within p q) as Hpq by (eapply within_trans; [exact Hin|]; unfold within; rewrite Ej; by apply prefix_app_r).
    pose proof (decides_between _ _ q m Hd Hqm Hpq) as Hdq.
    assert (exists k', in_metadata R q k') as (k' & Hin').
    { destruct (existsb (fun n => path_starts_with q (abs_join (r_path m) n)) PROTECTED_METADATA_PATH_NAMES) eqn:Ex.
      - apply existsb_elem in Ex as (n & Hn & Hs). exists n. exists m. split_and!; [apply Hd|done..|].
        apply path_starts_with_normal in Hs; [done..|]. by apply abs_join_metadata.
      - rewrite (write_outside_metadata pol cwd Hw Hk m q) in Hno; [done..|]. intros n Hn Hwn. rewrite existsb_none in Ex.
        specialize (Ex n Hn). apply path_starts_with_normal in Hwn; [congruence|done|by apply abs_join_metadata]. }
    destruct (metadata_root_found pol cwd p k' Hw Hp) as (mp & k'' & Ex); [|unfold metadata_child_of_writable_root in Ex; fold R in Ex; congruence].
    destruct Hin' as (f & Hf & Haf & Hk' & Hwf). exists f. split_and!; [done..|]. by eapply within_trans.
  - apply negb_false_iff, existsb_app_l, existsb_elem. exists m. split; [apply Hd|]. rewrite Ha. cbn [can_write andb].
    apply andb_true_iff. split; apply path_starts_with_normal; [done..|apply Hd|done|done|].
    apply (within_linear p); [done|apply Hd|]. unfold depth in *. rewrite Ej, length_app. cbn. lia.
Qed.

Lemma push_write_keeps : keeps_access cwd pol pol'.
Proof.
  intros p Hp. split; intros Hc.
  - destruct (write_decided pol cwd p Hw Hk Hp Hc) as (m & Hd & Ha).
    destruct (pushed_access p m Hp Hd) as (m' & _ & Em & Hm'); [by rewrite Ha|].
    assert (r_access m' = Write) as Ham by (destruct Hm' as [->|[-> _]]; done).
    unfold can_write_path_with_cwd in Hc |- *. rewrite Em, Ham. cbn [can_write negb].
    rewrite (decides_access pol cwd Hw Hk p m Hp Hd), Ha in Hc. cbn [can_write negb] in Hc.
    destruct (has_full_disk_write_access pol) eqn:Ef; [unfold pol'; by rewrite full_write_push|].
    destruct (has_full_disk_write_access pol'); [done|]. apply negb_true_iff. apply negb_true_iff in Hc. by eapply push_metadata.
  - unfold can_read_path_with_cwd in *. destruct (access_decided pol cwd Hw Hk p Hp) as [(m & Hd & Em)|[_ Em]]; rewrite Em in Hc; [|done].
    destruct (pushed_access p m Hp Hd) as (m' & _ & -> & [->|[-> _]]); [by intros Hx; rewrite Hx in Hc|done..].
Qed.

Lemma push_write_granted :
  (forall r, r ∈ R -> r_path r = q -> r_access r <> Deny) -> can_write_path_with_cwd pol' q cwd = true.
Proof.
  intros Hden. destruct (access_decided pol' cwd pushed_wf Hk q Hq) as [(m & Hd & _)|[Hd _]];
    unfold pol' in Hd; rewrite resolved_push in Hd.
  2: { destruct (Hd e); [apply elem_of_app; right; by left|apply within_refl]. }
  assert (precedes e m) as He by (apply Hd; [apply elem_of_app; right; by left|apply within_refl]).
  assert (normal_absolute (r_path m)) as Hnm.
  { eapply (R_normal pol' cwd pushed_wf). unfold pol'. rewrite resolved_push. apply Hd. }
  assert (r_path m = q) as Emq.
  { symmetry. apply within_antisym; [done..|apply Hd|]. unfold precedes in He. cbn [r_path e] in He. lia. }
  assert (r_access m = Write) as Ham.
  { destruct Hd as ([Hm|Hm%list_elem_of_singleton]%elem_of_app & _ & _); [|by rewrite Hm].
    specialize (Hden m Hm Emq). destruct He as [He|[_ He]]; [cbn [r_path e] in He; rewrite Emq in He; lia|].
    destruct (r_access m); [cbn in He; lia|done|done]. }
  pose proof (write_at_self pol' cwd pushed_wf Hk m) as Hself. rewrite Emq in Hself. apply Hself; [|done].
  unfold pol'. by rewrite resolved_push.
Qed.
End push_write.

(** Full disk write access leaves nothing unreadable. *)
Lemma full_write_reads `{!ProcessEnvOk} pol cwd p :
  wf_policy pol -> kind pol = Restricted -> has_full_disk_write_access pol = true -> normal_absolute cwd -> normal_absolute p ->
  can_read_path_with_cwd pol p cwd = true.
Proof.
  intros Hw Hk Hf Hcwd Hp. unfold has_full_disk_write_access in Hf. rewrite Hk in Hf.
  apply andb_prop in Hf as [Hr Hn%negb_true_iff]. unfold has_root_access, has_write_narrowing_entries in *.
  rewrite is_restricted_eq in * by done. cbn [andb] in *. apply existsb_elem in Hr as (r & Hr & Hrw).
  assert (e_path r = Special Root) as Er by (destruct (e_path r) as [| |[]]; done). unfold can_read_path_with_cwd.
  assert ({| r_path := absolute_of []; r_access := e_access r |} ∈ resolved_entries_with_cwd pol cwd) as Hroot.
  { apply resolved_entries_elem. exists r. rewrite Er. cbn. rewrite from_absolute_path_normal by done. cbn.
    by rewrite (proj2 (absolute_root_path_normal cwd Hcwd)). }
  destruct (access_decided pol cwd Hw Hk p Hp) as [(m & Hd & ->)|[Hno _]].
  - pose proof (proj1 Hd) as (x & Hx & Hres & Ha)%resolved_entries_elem. destruct (r_access m) eqn:Em; [done..|].
    rewrite existsb_none in Hn. specialize (Hn x Hx). rewrite Ha in Hn. cbn [can_write] in Hn.
    assert (has_same_target_write_override pol x = false) as Hov.
    { apply existsb_none. intros c _. rewrite Ha. by destruct (e_access c). }
    rewrite Hov in Hn. destruct (e_path x) as [|g|[]]; done.
  - destruct (Hno _ Hroot). unfold covers, within. cbn [r_path]. rewrite names_of_absolute by constructor. apply prefix_nil.
Qed.

Lemma push_read_keeps `{!ProcessEnvOk} pol cwd q :
  wf_policy pol -> kind pol = Restricted -> normal_absolute q -> normal_absolute cwd ->
  can_read_path_with_cwd pol q cwd = false ->
  keeps_access cwd pol (with_entries (push_entry (Path q) Read (entries pol)) pol).
Proof.
  intros Hw Hk Hq Hcwd Hno p Hp. set (pol' := with_entries _ pol).
  assert (wf_policy pol') as Hw'.
  { unfold wf_policy, pol', push_entry in *. cbn [entries with_entries]. apply Forall_app. by repeat constructor. }
  assert (resolved_entries_with_cwd pol' cwd = resolved_entries_with_cwd pol cwd ++ [{| r_path := q; r_access := Read |}]) as ER
    by apply resolved_push.
  assert (forall m, decides (resolved_entries_with_cwd pol cwd) p m -> r_access m <> Deny ->
    resolve_access_with_cwd pol' p cwd = r_access m \/ resolve_access_with_cwd pol' p cwd = Read /\ r_access m = Read) as Hacc.
  { intros m Hd Ha. destruct (access_decided pol' cwd Hw' Hk p Hp) as [(m' & Hd' & ->)|[Hn _]]; rewrite ER in *.
    - destruct (decides_push _ _ _ _ _ Hd Hd') as [->|[-> Hpre]]; [by left|]. cbn [r_access]. right. split; [done|].
      destruct Hd' as (_ & Hcq & _). unfold covers in Hcq. cbn [r_path] in Hcq.
      assert (within q (r_path m)) as Hqm by (apply (within_linear p); [apply Hd|done|]; unfold precedes in Hpre; cbn in Hpre; lia).
      pose proof (decides_access pol cwd Hw Hk q m Hq (decides_between _ _ _ _ Hd Hqm Hcq)) as Eq.
      unfold can_read_path_with_cwd in Hno. rewrite Eq in Hno. by destruct (r_access m).
    - destruct Hd as (Hm & Hc & _). destruct (Hn m); [apply elem_of_app; by left|done]. }
  unfold can_read_path_with_cwd in *. split; intros Hc.
  - destruct (write_decided pol cwd p Hw Hk Hp Hc) as (m & Hd & Ha). destruct (Hacc m Hd) as [Em|[_ Em]]; [by rewrite Ha| |congruence].
    unfold can_write_path_with_cwd in *. rewrite Em, Ha. cbn [can_write negb]. destruct (has_full_disk_write_access pol') eqn:Ef; [done|].
    rewrite (decides_access pol cwd Hw Hk p m Hp Hd), Ha in Hc. cbn [can_write negb] in Hc.
    destruct (has_full_disk_write_access pol) eqn:Ef'.
    { pose proof (full_write_reads pol cwd q Hw Hk Ef' Hcwd Hq) as Hx. unfold can_read_path_with_cwd in Hx. congruence. }
    unfold is_metadata_write_denied, metadata_child_of_writable_root, has_explicit_write_entry_for_metadata_path in *. rewrite ER.
    replace (is_restricted pol') with (is_restricted pol) by done.
    destruct (negb (is_restricted pol)); [done|]. destruct (resolve_candidate_path p cwd) as [t|]; [|done].
    rewrite omap_app. cbn [omap list_omap metadata_child r_access can_write negb]. rewrite app_nil_r.
    destruct (head _) as [[mp k]|]; [|done]. rewrite existsb_app. cbn [existsb r_access can_write andb]. by rewrite !orb_false_r.
  - destruct (access_decided pol cwd Hw Hk p Hp) as [(m & Hd & Em)|[_ Em]]; rewrite Em in Hc; [|done].
    destruct (Hacc m Hd) as [->|[-> _]]; [by intros Hx; rewrite Hx in Hc|done..].
Qed.

Lemma keeps_refl cwd pol : keeps_access cwd pol pol.
Proof. by intros p Hp. Qed.

Lemma keeps_trans cwd a b c : keeps_access cwd a b -> keeps_access cwd b c -> keeps_access cwd a c.
Proof. intros H1 H2 p Hp. destruct (H1 p Hp), (H2 p Hp). auto. Qed.

(** No entry denies exactly [q]. *)
Definition not_denied_at (pol : FileSystemSandboxPolicy) (cwd q : str) : Prop :=
  forall r, r ∈ resolved_entries_with_cwd pol cwd -> r_path r = q -> r_access r <> Deny.

Lemma writable_fold `{!ProcessEnvOk} pol cwd roots :
  policy_inv pol -> Forall normal_absolute roots ->
  let pol' := with_additional_writable_roots pol cwd roots in
  keeps_access cwd pol pol' /\
  forall q, q ∈ roots -> not_denied_at pol cwd q -> can_write_path_with_cwd pol' q cwd = true.
Proof.
  intros Hi Hr. unfold with_additional_writable_roots. revert pol Hi.
  induction Hr as [|x roots Hx Hr IH]; intros pol Hi; cbn [foldl].
  { split; [apply keeps_refl|]. intros q Hq. by apply not_elem_of_nil in Hq. }
  destruct (can_write_path_with_cwd pol x cwd) eqn:Ec.
  - destruct (IH pol Hi) as [H1 H2]. split; [done|]. intros q [->|Hq]%elem_of_cons Hn; [by apply (H1 x Hx)|auto].
  - assert (kind pol = Restricted) as Hk.
    { destruct (decide (is_restricted pol = true)) as [E|E]; unfold is_restricted in E; [by destruct (kind pol)|].
      rewrite write_unless_restricted in Ec; [done|]. by intros Ek; rewrite Ek in E. }
    pose proof (push_write_keeps pol cwd x (proj1 Hi) Hk Hx Ec) as Hkeep.
    destruct (IH _ (inv_push pol x Write Hi Hk Hx)) as [H1 H2]. split; [by eapply keeps_trans|].
    intros q [->|Hq]%elem_of_cons Hn.
    + apply (H1 x Hx). by apply (push_write_granted pol cwd x (proj1 Hi) Hk Hx).
    + apply H2; [done|]. intros r Hin Hrq. rewrite resolved_push in Hin.
      apply elem_of_app in Hin as [Hin| ->%list_elem_of_singleton]; [by apply Hn|done].
Qed.

Lemma readable_fold `{!ProcessEnvOk} pol cwd roots :
  policy_inv pol -> Forall normal_absolute roots -> normal_absolute cwd ->
  keeps_access cwd pol (with_additional_readable_roots pol cwd roots).
Proof.
  intros Hi Hr Hcwd. unfold with_additional_readable_roots. destruct (has_full_disk_read_access pol); [apply keeps_refl|].
  revert pol Hi. induction Hr as [|x roots Hx Hr IH]; intros pol Hi; cbn [foldl]; [apply keeps_refl|].
  destruct (can_read_path_with_cwd pol x cwd) eqn:Ec; [by apply IH|].
  assert (kind pol = Restricted) as Hk.
  { unfold can_read_path_with_cwd, resolve_access_with_cwd in Ec. by destruct (kind pol). }
  eapply keeps_trans; [exact (push_read_keeps pol cwd x (proj1 Hi) Hk Hx Hcwd Ec)|]. apply IH. by apply inv_push.
Qed.

(** Granting more roots never takes access away: whatever could be read or
    written before [with_additional_readable_roots] and before
    [with_additional_writable_roots] can be read or written after it, although a
    new read entry is narrower than the write entries above it and a new writable
    root brings protected metadata directories of its own.  Every writable root
    asked for can be written, unless an entry denies exactly that path. *)
Theorem granting_roots_keeps_access `{!ProcessEnvOk} (pol : FileSystemSandboxPolicy) (cwd p : str) (roots : list str) :
  policy_inv pol -> Forall normal_absolute roots -> normal_absolute cwd -> normal_absolute p ->
  (can_write_path_with_cwd pol p cwd = true ->
     can_write_path_with_cwd (with_additional_writable_roots pol cwd roots) p cwd = true /\
     can_write_path_with_cwd (with_additional_readable_roots pol cwd roots) p cwd = true) /\
  (can_read_path_with_cwd pol p cwd = true ->
     can_read_path_with_cwd (with_additional_writable_roots pol cwd roots) p cwd = true /\
     can_read_path_with_cwd (with_additional_readable_roots pol cwd roots) p cwd = true) /\
  (p ∈ roots -> not_denied_at pol cwd p ->
     can_write_path_with_cwd (with_additional_writable_roots pol cwd roots) p cwd = true).
Proof.
  intros Hi Hr Hcwd Hp. destruct (writable_fold pol cwd roots Hi Hr) as [Hk Hg].
  destruct (Hk p Hp), (readable_fold pol cwd roots Hi Hr Hcwd p Hp). split_and!; auto.
Qed.
End host.

(** ** Witnesses *)

#[local] Existing Instances demo_host demo_process demo_process_ok demo_host_plain.

#[local] Instance demo_globs : GlobLib := {|
  GlobMatcher := str;
  glob_build g := if contains_char 91%N g then inl &"unclosed" else inr g;
  glob_is_match := str_eqb
|}.

Lemma demo_policy_inv : policy_inv demo_policy.
Proof. split; [paths_checked|done]. Defined.

Lemma policies_stay_well_formed_witness :
  wf_policy (with_additional_writable_roots demo_policy (&"/w") [&"/x"]).
Proof.
  apply (policies_stay_well_formed (with_additional_writable_roots demo_policy (&"/w") [&"/x"])).
  eapply built_step; [apply built_restricted; apply demo_policy_inv|]. apply step_writable. paths_checked.
Defined.

Lemma read_deny_matcher_spec_witness :
  match new_matcher demo_policy (&"/w") with Ok (Some m) => is_read_denied m (&"/w/secret/key") = true | _ => False end.
Proof.
  assert (exists m, new_matcher demo_policy (&"/w") = Ok (Some m)) as [m E] by (eexists; vm_compute; reflexivity).
  pose proof (read_deny_matcher_spec demo_policy (&"/w/secret/key") (&"/w")) as H. rewrite E in *.
  apply H; [paths_checked|reflexivity|paths_checked|paths_checked|].
  right. left. exists {| r_path := &"/w/secret"; r_access := Deny |}. split_and!; [|reflexivity|discriminate|].
  - apply list_elem_of_In. vm_compute. tauto.
  - exists [&"key"]. vm_compute. reflexivity.
Defined.

Lemma denied_reads_survive_rebuild_witness :
  exists m, new_matcher (preserve_deny_read_restrictions_from demo_policy unrestricted) (&"/w") = Ok (Some m) /\
    is_read_denied m (&"/w/secret/key") = true.
Proof.
  apply (denied_reads_survive_rebuild demo_policy unrestricted (preserve_deny_read_restrictions_from demo_policy unrestricted)
    DangerFullAccess (&"/w") (&"/w/secret") (&"/w/secret/key") (entry (Path &"/w/secret") Deny));
    [apply demo_policy_inv|split; [constructor|done]|done|done|by left| |done|done|done|paths_checked|paths_checked|].
  - do 4 right. left.
  - exists [&"key"]. vm_compute. reflexivity.
Defined.

Lemma granting_roots_keeps_access_witness :
  can_write_path_with_cwd (with_additional_readable_roots demo_policy (&"/w") [&"/w/secret"]) (&"/w/src/a") (&"/w") = true.
Proof.
  apply (granting_roots_keeps_access demo_policy (&"/w") (&"/w/src/a") [&"/w/secret"]);
    [apply demo_policy_inv|paths_checked|paths_checked|paths_checked|vm_compute; reflexivity].
Defined.
