(* ===== verification/Profiles.v ===== *)
(** * protocol/src/models.rs and sandboxing/src/policy_transforms.rs: permission profiles

    The profile a session runs under, the additional permissions a command asks
    for and a user grants, and the policies that come of them. *)
From S2P Require Import Prelude RustStr RustPath AbsolutePath ExecPolicy PathPrefix Permissions PermissionFacts PermissionChanges.

(** ** Data *)

(** [NonZeroUsize::new] *)
Definition non_zero (n : N) : option N := if (n =? 0)%N then None else Some n.

Record FileSystemPermissions := { fp_entries : list FileSystemSandboxEntry; fp_depth : option N }.
Record NetworkPermissions := { enabled : option bool }.
Record AdditionalPermissionProfile := {
  network : option NetworkPermissions;
  file_system : option FileSystemPermissions
}.

Definition fp_is_empty (f : FileSystemPermissions) : bool := match fp_entries f with [] => true | _ => false end.
Definition net_is_empty (n : NetworkPermissions) : bool := match enabled n with None => true | Some _ => false end.
Definition profile_is_empty (p : AdditionalPermissionProfile) : bool :=
  match network p, file_system p with None, None => true | _, _ => false end.

Definition no_permissions : FileSystemPermissions := {| fp_entries := []; fp_depth := None |}.

Inductive SandboxEnforcement := EnforceManaged | EnforceDisabled | EnforceExternal.

Inductive ManagedFileSystemPermissions :=
| ManagedRestricted (entries : list FileSystemSandboxEntry) (glob_scan_max_depth : option N)
| ManagedUnrestricted.

Inductive PermissionProfile :=
| Managed (file_system : ManagedFileSystemPermissions) (network : NetworkSandboxPolicy)
| Disabled
| External (network : NetworkSandboxPolicy).

(** *** The older shape of file system permissions *)

Definition from_read_write_roots (read write : option (list str)) : FileSystemPermissions :=
  {| fp_entries :=
       map (fun path => {| e_path := Path path; e_access := Read |}) (default [] read) ++
       map (fun path => {| e_path := Path path; e_access := Write |}) (default [] write);
     fp_depth := None |}.

Definition explicit_path_entries (f : FileSystemPermissions) : list (str * FileSystemAccessMode) :=
  omap (fun entry => match e_path entry with Path path => Some (path, e_access entry) | _ => None end) (fp_entries f).

(** The two vectors that the loop of [as_legacy_permissions] fills *)
Fixpoint legacy_loop (es : list FileSystemSandboxEntry) (read write : list str) : option (list str * list str) :=
  match es with
  | [] => Some (read, write)
  | entry :: es =>
      match e_path entry, e_access entry with
      | Path path, Read => legacy_loop es (read ++ [path]) write
      | Path path, Write => legacy_loop es read (write ++ [path])
      | Path _, Deny | GlobPattern _, _ | Special _, _ => None
      end
  end.

Definition then_some (l : list str) : option (list str) := match l with [] => None | _ => Some l end.

Definition legacy_read_write_roots (f : FileSystemPermissions) : option (option (list str) * option (list str)) :=
  match fp_depth f with
  | Some _ => None
  | None => '(read, write) ← legacy_loop (fp_entries f) [] []; Some (then_some read, then_some write)
  end.

(** ** Profiles and policies *)

Definition enforcement_from_legacy (p : SandboxPolicy) : SandboxEnforcement :=
  match p with
  | DangerFullAccess => EnforceDisabled
  | ExternalSandboxPolicy _ => EnforceExternal
  | ReadOnly _ | WorkspaceWrite _ _ _ _ => EnforceManaged
  end.

(** [unreachable!] is a panic *)
Definition managed_from_sandbox_policy (p : FileSystemSandboxPolicy) : comp str ManagedFileSystemPermissions :=
  match kind p with
  | Restricted => Ok (ManagedRestricted (entries p) (glob_scan_max_depth p ≫= non_zero))
  | Unrestricted => Ok ManagedUnrestricted
  | ExternalSandbox => Panic
  end.

Definition managed_to_sandbox_policy (m : ManagedFileSystemPermissions) : FileSystemSandboxPolicy :=
  match m with
  | ManagedRestricted es depth => {| kind := Restricted; glob_scan_max_depth := depth; entries := es |}
  | ManagedUnrestricted => unrestricted
  end.

Definition default_profile : PermissionProfile := Managed (ManagedRestricted [] None) NetworkRestricted.
Definition profile_read_only : PermissionProfile :=
  Managed (ManagedRestricted [{| e_path := Special Root; e_access := Read |}] None) NetworkRestricted.

Definition from_runtime_permissions_with_enforcement (e : SandboxEnforcement) (p : FileSystemSandboxPolicy)
    (net : NetworkSandboxPolicy) : comp str PermissionProfile :=
  match kind p, e with
  | ExternalSandbox, _ => Ok (External net)
  | Unrestricted, EnforceDisabled => Ok Disabled
  | Restricted, _ | Unrestricted, _ => let? fs := managed_from_sandbox_policy p in Ok (Managed fs net)
  end.

Definition from_runtime_permissions (p : FileSystemSandboxPolicy) (net : NetworkSandboxPolicy) : comp str PermissionProfile :=
  let e := match kind p with Restricted | Unrestricted => EnforceManaged | ExternalSandbox => EnforceExternal end in
  from_runtime_permissions_with_enforcement e p net.

Definition enforcement (p : PermissionProfile) : SandboxEnforcement :=
  match p with Managed _ _ => EnforceManaged | Disabled => EnforceDisabled | External _ => EnforceExternal end.

Definition file_system_sandbox_policy (p : PermissionProfile) : FileSystemSandboxPolicy :=
  match p with
  | Managed fs _ => managed_to_sandbox_policy fs
  | Disabled => unrestricted
  | External _ => external_sandbox
  end.

Definition network_sandbox_policy (p : PermissionProfile) : NetworkSandboxPolicy :=
  match p with Managed _ net | External net => net | Disabled => NetworkEnabled end.

Definition to_runtime_permissions (p : PermissionProfile) : FileSystemSandboxPolicy * NetworkSandboxPolicy :=
  (file_system_sandbox_policy p, network_sandbox_policy p).

(** *** [From] *)

Definition permissions_from_policy (p : FileSystemSandboxPolicy) : FileSystemPermissions :=
  {| fp_entries := match kind p with
                   | Restricted => entries p
                   | Unrestricted | ExternalSandbox => [{| e_path := Special Root; e_access := Write |}]
                   end;
     fp_depth := glob_scan_max_depth p ≫= non_zero |}.
Definition policy_from_permissions (f : FileSystemPermissions) : FileSystemSandboxPolicy :=
  with_depth (fp_depth f) (restricted (fp_entries f)).
Definition network_permissions_from (net : NetworkSandboxPolicy) : NetworkPermissions :=
  {| enabled := Some (network_is_enabled net) |}.

(** The shape of rollout files before profiles named their enforcement *)
Definition profile_from_legacy (net : option NetworkPermissions) (fs : option FileSystemPermissions)
  : comp str PermissionProfile :=
  let p := match fs with None => restricted [] | Some f => policy_from_permissions f end in
  from_runtime_permissions p (if default false (net ≫= enabled) then NetworkEnabled else NetworkRestricted).

Section host.
Context `{Hfs : !HostFs, Henv : !ProcessEnv}.

Definition workspace_write_with (writable_roots : list str) (net : NetworkSandboxPolicy)
    (exclude_tmpdir_env_var exclude_slash_tmp : bool) : comp str PermissionProfile :=
  let? fs := managed_from_sandbox_policy (workspace_write writable_roots exclude_tmpdir_env_var exclude_slash_tmp) in
  Ok (Managed fs net).
Definition profile_workspace_write : comp str PermissionProfile := workspace_write_with [] NetworkRestricted false false.

Definition materialize_profile (p : PermissionProfile) (workspace_roots : list str) : comp str PermissionProfile :=
  match p with
  | Managed fs net =>
      let? fs := managed_from_sandbox_policy
        (materialize_project_roots_with_workspace_roots (managed_to_sandbox_policy fs) workspace_roots) in
      Ok (Managed fs net)
  | Disabled => Ok Disabled
  | External net => Ok (External net)
  end.

Definition profile_from_legacy_sandbox_policy (sp : SandboxPolicy) : comp str PermissionProfile :=
  from_runtime_permissions_with_enforcement (enforcement_from_legacy sp) (from_sandbox_policy sp)
    (network_from_sandbox_policy sp).
Definition profile_from_legacy_sandbox_policy_for_cwd (sp : SandboxPolicy) (cwd : str) : comp str PermissionProfile :=
  from_runtime_permissions_with_enforcement (enforcement_from_legacy sp) (from_legacy_sandbox_policy_for_cwd sp cwd)
    (network_from_sandbox_policy sp).

Definition profile_to_legacy_sandbox_policy (p : PermissionProfile) (cwd : str) : comp str SandboxPolicy :=
  match p with
  | Managed fs net => to_legacy_sandbox_policy (managed_to_sandbox_policy fs) net cwd
  | Disabled => Ok DangerFullAccess
  | External net => Ok (ExternalSandboxPolicy (if network_is_enabled net then AccessEnabled else AccessRestricted))
  end.

(** ** Additional permissions *)

Definition contains_entry (es : list FileSystemSandboxEntry) (e : FileSystemSandboxEntry) : bool :=
  existsb (fun x => entry_eqb x e) es.
Definition push_entry_once (es : list FileSystemSandboxEntry) (e : FileSystemSandboxEntry) : list FileSystemSandboxEntry :=
  if negb (contains_entry es e) then es ++ [e] else es.

Definition GLOB_GRANT_ERROR : str := &"glob file system permissions only support deny-read entries".

Definition normalize_permission_path (path : FileSystemPath) : FileSystemPath :=
  match path with
  | Path path => Path (default path (canonicalize_preserving_symlinks path ≫= from_absolute_path))
  | GlobPattern _ | Special _ => path
  end.

Fixpoint normalize_entries (es normalized : list FileSystemSandboxEntry) : comp str (list FileSystemSandboxEntry) :=
  match es with
  | [] => Ok normalized
  | entry :: es =>
      if (match e_path entry with GlobPattern _ => true | _ => false end) && negb (is_deny (e_access entry))
      then Err GLOB_GRANT_ERROR
      else
        normalize_entries es
          (push_entry_once normalized
             {| e_path := normalize_permission_path (e_path entry); e_access := e_access entry |})
  end.

Definition normalize_additional_permissions (a : AdditionalPermissionProfile) : comp str AdditionalPermissionProfile :=
  let net := match network a with Some n => if net_is_empty n then None else Some n | None => None end in
  let? fs := match file_system a with
             | Some f =>
                 let? es := normalize_entries (fp_entries f) [] in
                 let f := {| fp_entries := es; fp_depth := fp_depth f |} in
                 Ok (if negb (fp_is_empty f) then Some f else None)
             | None => Ok None
             end in
  Ok {| network := net; file_system := fs |}.

(** *** Glob scan depths *)

Inductive GlobScanDepth := Bounded (depth : N) | Unbounded.

Definition effective_glob_scan_depth (es : list FileSystemSandboxEntry) (depth : option N) : option GlobScanDepth :=
  if existsb (fun entry => is_deny (e_access entry) && match e_path entry with GlobPattern _ => true | _ => false end) es
  then Some (match depth with Some d => Bounded d | None => Unbounded end)
  else None.

Definition merge_glob_scan_max_depth (l_entries : list FileSystemSandboxEntry) (l_depth : option N)
    (r_entries : list FileSystemSandboxEntry) (r_depth : option N) : option N :=
  match effective_glob_scan_depth l_entries l_depth, effective_glob_scan_depth r_entries r_depth with
  | Some Unbounded, _ | _, Some Unbounded => None
  | Some (Bounded l), Some (Bounded r) => Some (N.max l r)
  | Some (Bounded d), None | None, Some (Bounded d) => Some d
  | None, None => None
  end.

(** *** Merging *)

Definition merge_permission_entries (base permissions : list FileSystemSandboxEntry) : list FileSystemSandboxEntry :=
  foldl push_entry_once [] (base ++ permissions).

Definition is_network_grant (n : option NetworkPermissions) : bool :=
  match n with Some {| enabled := Some true |} => true | _ => false end.
Definition network_grant : NetworkPermissions := {| enabled := Some true |}.

Definition filter_fs (f : FileSystemPermissions) : option FileSystemPermissions := if fp_is_empty f then None else Some f.
Definition filter_profile (p : AdditionalPermissionProfile) : option AdditionalPermissionProfile :=
  if profile_is_empty p then None else Some p.

Definition merge_permission_profiles (base permissions : option AdditionalPermissionProfile)
  : option AdditionalPermissionProfile :=
  match permissions with
  | None => base
  | Some permissions =>
      match base with
      | Some base =>
          let net :=
            if is_network_grant (network base) || is_network_grant (network permissions) then Some network_grant else None in
          let fs :=
            match file_system base, file_system permissions with
            | Some base, Some permissions =>
                filter_fs
                  {| fp_entries := merge_permission_entries (fp_entries base) (fp_entries permissions);
                     fp_depth := merge_glob_scan_max_depth (fp_entries base) (fp_depth base)
                       (fp_entries permissions) (fp_depth permissions) ≫= non_zero |}
            | Some base, None => Some base
            | None, Some permissions => Some permissions
            | None, None => None
            end in
          filter_profile {| network := net; file_system := fs |}
      | None => filter_profile permissions
      end
  end.

(** *** What a grant may give of a request *)

Definition resolve_permission_path (path : FileSystemPath) (cwd : str) : option str :=
  match path with
  | Path path => Some path
  | GlobPattern _ => None
  | Special Root => last (ancestors cwd) ≫= from_absolute_path
  | Special (ProjectRoots subpath) =>
      cwd ← from_absolute_path cwd;
      Some (match subpath with Some subpath => resolve_path_against_base subpath cwd | None => cwd end)
  | Special Tmpdir =>
      tmpdir ← tmpdir_var;
      match tmpdir with [] => None | _ => from_absolute_path tmpdir end
  | Special SlashTmp =>
      path ← from_absolute_path (&"/tmp");
      if is_dir path then Some path else None
  | Special Minimal | Special (UnknownPath _ _) => None
  end.

Definition materialize_cwd_dependent_entry (cwd : str) (entry : FileSystemSandboxEntry) : FileSystemSandboxEntry :=
  match e_path entry with
  | Special (ProjectRoots _) =>
      match resolve_permission_path (e_path entry) cwd with
      | Some path => {| e_path := Path path; e_access := e_access entry |}
      | None => entry
      end
  | GlobPattern pattern =>
      {| e_path := GlobPattern (resolve_path_against_base pattern cwd); e_access := e_access entry |}
  | Path _ | Special _ => entry
  end.

Definition access_covers (requested granted : FileSystemAccessMode) : bool :=
  match granted with Read => can_read requested | Write => can_write requested | Deny => false end.

Definition paths_overlap (l r : str) : bool := path_starts_with l r || path_starts_with r l.

Definition is_glob_char (c : char) : bool := existsb (N.eqb c) [42; 63; 91; 93]%N.

(** The text before the first of the given characters, if there is one *)
Fixpoint before_glob_char (s : str) : option str :=
  match s with
  | [] => None
  | c :: s => if is_glob_char c then Some [] else option_map (cons c) (before_glob_char s)
  end.

Definition glob_static_prefix_path (pattern cwd : str) : option str :=
  let resolved_pattern := resolve_path_against_base pattern cwd in
  prefix ← match before_glob_char resolved_pattern with
           | Some [] => None
           | Some prefix =>
               if ends_with [slash] prefix || ends_with [92%N] prefix then Some prefix else parent prefix
           | None => Some resolved_pattern
           end;
  from_absolute_path prefix.

Definition deny_entry_constrains_accepted_grant (cwd : str) (accepted_entries : list FileSystemSandboxEntry)
    (deny_entry : FileSystemSandboxEntry) : bool :=
  existsb (fun entry =>
    match resolve_permission_path (e_path entry) cwd with
    | None => false
    | Some grant_path =>
        match e_path deny_entry with
        | GlobPattern pattern =>
            match glob_static_prefix_path pattern cwd with Some prefix => paths_overlap prefix grant_path | None => false end
        | Path _ | Special _ =>
            match resolve_permission_path (e_path deny_entry) cwd with
            | Some deny_path => paths_overlap deny_path grant_path
            | None => false
            end
        end
    end) (List.filter (fun entry => can_read (e_access entry)) accepted_entries).

(** The deny entries that go to the output, and the ones that count for the scan depth *)
Definition retain_constraining_deny_entries (source_entries accepted_entries : list FileSystemSandboxEntry) (cwd : str)
    (output_entries : list FileSystemSandboxEntry) : list FileSystemSandboxEntry * list FileSystemSandboxEntry :=
  let retained :=
    map (materialize_cwd_dependent_entry cwd)
      (List.filter (deny_entry_constrains_accepted_grant cwd accepted_entries)
        (List.filter (fun entry => is_deny (e_access entry)) source_entries)) in
  (foldl push_entry_once output_entries retained, retained).

Section matcher.
Context `{Hglob : !GlobLib}.

Definition granted_file_system_entry_within_request (requested : FileSystemPermissions)
    (requested_policy : FileSystemSandboxPolicy) (matcher : option ReadDenyMatcher) (cwd : str)
    (granted_entry : FileSystemSandboxEntry) : bool :=
  if negb (can_read (e_access granted_entry)) then false
  else
    match resolve_permission_path (e_path granted_entry) cwd with
    | Some path =>
        if match matcher with Some m => is_read_denied m path | None => false end then false
        else access_covers (resolve_access_with_cwd requested_policy path cwd) (e_access granted_entry)
    | None =>
        existsb (fun requested_entry =>
          access_covers (e_access requested_entry) (e_access granted_entry) &&
          fs_path_eqb (e_path requested_entry) (e_path granted_entry)) (fp_entries requested)
    end.

Definition intersect_file_system (requested granted : FileSystemPermissions) (cwd : str) : comp str FileSystemPermissions :=
  let requested_policy := restricted (fp_entries requested) in
  let? matcher := new_matcher requested_policy cwd in
  let accepted_entries :=
    foldl push_entry_once []
      (map (materialize_cwd_dependent_entry cwd)
        (List.filter (granted_file_system_entry_within_request requested requested_policy matcher cwd) (fp_entries granted))) in
  let '(es, requested_retained) :=
    retain_constraining_deny_entries (fp_entries requested) accepted_entries cwd accepted_entries in
  let '(es, granted_retained) := retain_constraining_deny_entries (fp_entries granted) accepted_entries cwd es in
  Ok {| fp_entries := es;
        fp_depth := merge_glob_scan_max_depth requested_retained (fp_depth requested) granted_retained (fp_depth granted)
                    ≫= non_zero |}.

Definition intersect_permission_profiles (requested granted : AdditionalPermissionProfile) (cwd : str)
  : comp str AdditionalPermissionProfile :=
  let? fs := match file_system requested with
             | Some requested =>
                 let? f := intersect_file_system requested (default no_permissions (file_system granted)) cwd in
                 Ok (filter_fs f)
             | None => Ok None
             end in
  Ok {| network := if is_network_grant (network requested) && is_network_grant (network granted) then Some network_grant else None;
        file_system := fs |}.
End matcher.

(** ** Effective policies *)

Definition merge_file_system_policy_with_additional_permissions (p : FileSystemSandboxPolicy) (a : FileSystemPermissions)
  : FileSystemSandboxPolicy :=
  match kind p with
  | Restricted =>
      with_depth (merge_glob_scan_max_depth (entries p) (glob_scan_max_depth p) (fp_entries a) (fp_depth a))
        (with_entries (foldl push_entry_once (entries p) (fp_entries a)) p)
  | Unrestricted | ExternalSandbox => p
  end.

Definition effective_file_system_sandbox_policy (p : FileSystemSandboxPolicy) (a : option AdditionalPermissionProfile)
  : FileSystemSandboxPolicy :=
  match a ≫= file_system with
  | None => p
  | Some f => if fp_is_empty f then p else merge_file_system_policy_with_additional_permissions p f
  end.

Definition merge_network_access (base : bool) (a : AdditionalPermissionProfile) : bool :=
  base || default false (network a ≫= enabled).

Definition effective_network_sandbox_policy (net : NetworkSandboxPolicy) (a : option AdditionalPermissionProfile)
  : NetworkSandboxPolicy :=
  match a with
  | Some a => if merge_network_access (network_is_enabled net) a then NetworkEnabled else NetworkRestricted
  | None => net
  end.

Definition effective_permission_profile (p : PermissionProfile) (a : option AdditionalPermissionProfile)
  : comp str PermissionProfile :=
  let '(fs, net) := to_runtime_permissions p in
  from_runtime_permissions_with_enforcement (enforcement p) (effective_file_system_sandbox_policy fs a)
    (effective_network_sandbox_policy net a).

Definition should_require_platform_sandbox (p : FileSystemSandboxPolicy) (net : NetworkSandboxPolicy)
    (has_managed_network_requirements : bool) : bool :=
  if has_managed_network_requirements then true
  else if negb (network_is_enabled net) then match kind p with ExternalSandbox => false | _ => true end
  else match kind p with Restricted => negb (has_full_disk_write_access p) | Unrestricted | ExternalSandbox => false end.

(** ** Theorems *)

Lemma push_once_fold l es :
  exists more, foldl push_entry_once es l = es ++ more /\ (forall e, e ∈ more -> e ∈ l) /\
    (forall e, e ∈ l -> exists e', e' ∈ es ++ more /\ entry_eqb e' e = true).
Proof.
  revert es. induction l as [|x l IH]; intros es; cbn [foldl].
  { exists []. rewrite app_nil_r. split_and!; [done|done|]. intros e He. by apply not_elem_of_nil in He. }
  unfold push_entry_once at 2. destruct (contains_entry es x) eqn:Ex; cbn [negb].
  - destruct (IH es) as (more & E & H1 & H2). exists more. split_and!; [done|intros e He; right; by apply H1|].
    intros e [->|He]%elem_of_cons; [|by apply H2]. apply existsb_elem in Ex as (e' & He' & Hq). exists e'.
    split; [apply elem_of_app; by left|done].
  - destruct (IH (es ++ [x])) as (more & E & H1 & H2). exists (x :: more). rewrite <- (assoc_L (++)) in E, H2. cbn [app] in E, H2.
    split_and!; [done|intros e [->|He]%elem_of_cons; [by left|right; by apply H1]|].
    intros e [->|He]%elem_of_cons; [|by apply H2]. exists x. split; [|apply entry_eqb_refl].
    apply elem_of_app. right. by left.
Qed.

(** What an entry stands for in a directory, with its access *)
Definition stands_for (cwd : str) (e : FileSystemSandboxEntry) (r : ResolvedFileSystemEntry) : Prop :=
  resolve_permission_path (e_path e) cwd = Some (r_path r) /\ e_access e = r_access r.

Section intersect.
Context `{Hcur : !ProcessEnvOk} (cwd : str).
Hypothesis Hcwd : normal_absolute cwd.

Lemma resolve_permission_entry path : resolve_permission_path path cwd = resolve_entry_path path (from_absolute_path cwd).
Proof.
  rewrite from_absolute_path_normal by done. destruct path as [q|g|v]; [done..|]. destruct v as [| |sub| | |]; cbn; try done.
  - destruct (absolute_root_path_normal cwd Hcwd) as [H1 H2]. by rewrite H1, H2.
  - rewrite from_absolute_path_normal by done. cbn. by destruct sub.
Qed.

Lemma stands_for_resolved es r :
  r ∈ resolved_entries_with_cwd (restricted es) cwd <-> exists e, e ∈ es /\ stands_for cwd e r.
Proof.
  rewrite resolved_entries_elem. apply exist_proper. intros e. unfold stands_for. by rewrite resolve_permission_entry.
Qed.

Lemma stands_for_normal e r : wf_entry e -> stands_for cwd e r -> normal_absolute (r_path r).
Proof.
  intros He Hs. eapply (resolved_entries_normal (restricted [e]) cwd); [by constructor|].
  apply stands_for_resolved. exists e. split; [by left|done].
Qed.

Lemma stands_for_materialized e r : stands_for cwd (materialize_cwd_dependent_entry cwd e) r <-> stands_for cwd e r.
Proof.
  unfold stands_for, materialize_cwd_dependent_entry. destruct (e_path e) as [q|g|v] eqn:E; [by rewrite E|by cbn; naive_solver|].
  destruct v as [| |sub| | |]; try by rewrite E.
  destruct (resolve_permission_path (Special (ProjectRoots sub)) cwd) as [q|] eqn:Er; [done|]. by rewrite E, Er.
Qed.

Lemma materialized_wf e : wf_entry e -> wf_entry (materialize_cwd_dependent_entry cwd e).
Proof.
  intros He. unfold wf_entry, materialize_cwd_dependent_entry in *. destruct (e_path e) as [q|g|v] eqn:E; [by rewrite E|done|].
  destruct v as [| |sub| | |]; try by rewrite E. destruct (resolve_permission_path _ cwd) as [q|] eqn:Er; [|by rewrite E].
  rewrite resolve_permission_entry in Er. cbn in Er. rewrite from_absolute_path_normal in Er by done. cbn in Er.
  destruct sub; injection Er as <-; [by apply resolve_base_normal|done].
Qed.

(** Materialised entries that are equal stand for the same path. *)
Lemma stands_for_eqb e e' r :
  wf_entry e -> wf_entry e' -> entry_eqb e' (materialize_cwd_dependent_entry cwd e) = true -> stands_for cwd e r ->
  stands_for cwd e' r.
Proof.
  intros He He' Heq Hs%stands_for_materialized. pose proof (materialized_wf e He) as Hm.
  assert (forall sub, e_path (materialize_cwd_dependent_entry cwd e) <> Special (ProjectRoots sub)) as Hno.
  { intros sub. unfold materialize_cwd_dependent_entry. destruct (e_path e) as [q|g|v] eqn:E; [by rewrite E|done|].
    destruct v; try by rewrite E. cbn. by rewrite from_absolute_path_normal. }
  unfold wf_entry in He', Hm. set (m := materialize_cwd_dependent_entry cwd e) in *. destruct Hs as [Hp Ha].
  apply andb_prop in Heq as [Hpe Hae%bool_decide_eq_true]. split; [|congruence].
  destruct (e_path e') as [q|g|v], (e_path m) as [q'|g'|v']; try done.
  - cbn in *. apply path_eqb_normal in Hpe; [congruence|done..].
  - destruct v, v'; try done. by destruct (Hno subpath0).
Qed.

Context `{Hglob : !GlobLib} (requested granted : FileSystemPermissions).
Hypothesis Hreq : Forall wf_entry (fp_entries requested).
Hypothesis Hgra : Forall wf_entry (fp_entries granted).

Definition accepted (matcher : option ReadDenyMatcher) (e : FileSystemSandboxEntry) : Prop :=
  e ∈ fp_entries granted /\
  granted_file_system_entry_within_request requested (restricted (fp_entries requested)) matcher cwd e = true.

(** The deny entries of the request and the grant at a path above or below an accepted grant *)
Definition retained (matcher : option ReadDenyMatcher) (d : FileSystemSandboxEntry) : Prop :=
  d ∈ fp_entries requested ++ fp_entries granted /\ e_access d = Deny /\
  exists g rd rg, accepted matcher g /\ stands_for cwd d rd /\ stands_for cwd g rg /\
    paths_overlap (r_path rd) (r_path rg) = true.

Lemma accepted_readable matcher g : accepted matcher g -> can_read (e_access g) = true.
Proof. intros [_ H]. unfold granted_file_system_entry_within_request in H. by destruct (can_read (e_access g)). Qed.

Lemma new_matcher_ok pol : kind pol = Restricted -> exists matcher, new_matcher pol cwd = Ok matcher.
Proof. intros Hk. destruct (new_matcher_built pol cwd Hk) as [(m & -> & _)|[-> _]]; by eexists. Qed.

(** A deny entry with a path passes the filter of [retain_constraining_deny_entries]
    when it is retained. *)
Lemma retained_constrains matcher acc d :
  (forall e, e ∈ acc -> wf_entry e) ->
  (forall g, accepted matcher g -> exists e', e' ∈ acc /\ entry_eqb e' (materialize_cwd_dependent_entry cwd g) = true) ->
  retained matcher d -> deny_entry_constrains_accepted_grant cwd acc d = true.
Proof.
  intros Hwf Hacc (Hd & Ha & g & rd & rg & Hg & Hsd & Hsg & Ho). apply existsb_elem.
  destruct (Hacc g Hg) as (e' & He' & Heq). exists e'. pose proof (accepted_readable _ _ Hg) as Hr.
  assert (stands_for cwd e' rg) as [Hp He'a].
  { eapply stands_for_eqb; [|by apply Hwf|done..]. rewrite Forall_forall in Hgra. apply Hgra, Hg. }
  split. { apply elem_of_filterb. split; [done|]. destruct Hsg as [_ Hga]. by rewrite He'a, <- Hga. }
  rewrite Hp. destruct Hsd as [Hpd _]. destruct (e_path d) as [q|pat|v] eqn:E; [|done|]; by rewrite Hpd.
Qed.

Lemma retain_spec src matcher acc out :
  (forall e, e ∈ src -> e ∈ fp_entries requested ++ fp_entries granted) ->
  (forall e, e ∈ acc -> wf_entry e) ->
  (forall g, accepted matcher g -> exists e', e' ∈ acc /\ entry_eqb e' (materialize_cwd_dependent_entry cwd g) = true) ->
  exists more, (retain_constraining_deny_entries src acc cwd out).1 = out ++ more /\
    (forall e, e ∈ more -> exists d, d ∈ src /\ e_access d = Deny /\ e = materialize_cwd_dependent_entry cwd d) /\
    (forall d, d ∈ src -> retained matcher d ->
       exists e', e' ∈ out ++ more /\ entry_eqb e' (materialize_cwd_dependent_entry cwd d) = true).
Proof.
  intros Hsrc Hwf Hacc. unfold retain_constraining_deny_entries. cbn [fst].
  match goal with |- context [foldl push_entry_once out ?l] => destruct (push_once_fold l out) as (more & E & H1 & H2) end.
  exists more. split_and!; [done| |].
  - intros e (d & -> & [[Hd Hda]%elem_of_filterb _]%elem_of_filterb)%H1%list_elem_of_fmap. exists d.
    split_and!; [done| |done]. by destruct (e_access d).
  - intros d Hd Hret. apply H2. apply list_elem_of_fmap. exists d. split; [done|].
    apply elem_of_filterb. split; [apply elem_of_filterb; split; [done|]|by eapply retained_constrains].
    destruct Hret as (_ & -> & _). done.
Qed.

Lemma accepted_list matcher :
  let acc := foldl push_entry_once [] (map (materialize_cwd_dependent_entry cwd) (List.filter
    (granted_file_system_entry_within_request requested (restricted (fp_entries requested)) matcher cwd) (fp_entries granted))) in
  (forall e, e ∈ acc -> wf_entry e /\ exists g, accepted matcher g /\ e = materialize_cwd_dependent_entry cwd g) /\
  (forall g, accepted matcher g -> exists e', e' ∈ acc /\ entry_eqb e' (materialize_cwd_dependent_entry cwd g) = true).
Proof.
  set (G := List.filter _ (fp_entries granted)).
  assert (forall g, g ∈ G <-> accepted matcher g) as HG by (intros g; unfold G; by rewrite elem_of_filterb).
  destruct (push_once_fold (map (materialize_cwd_dependent_entry cwd) G) []) as (acc & Ea & Ha1 & Ha2). cbn [app] in *.
  cbv zeta. rewrite Ea. split.
  - intros e (g & -> & Hg%HG)%Ha1%list_elem_of_fmap. split; [|by exists g]. apply materialized_wf. rewrite Forall_forall in Hgra.
    apply Hgra, Hg.
  - intros g Hg. apply Ha2. apply list_elem_of_fmap. exists g. split; [done|by apply HG].
Qed.

(** The resolved entries of the intersection: the accepted grants and the retained denials. *)
Lemma intersect_entries :
  exists f matcher, intersect_file_system requested granted cwd = Ok f /\
    new_matcher (restricted (fp_entries requested)) cwd = Ok matcher /\
    Forall wf_entry (fp_entries f) /\
    (forall r, r ∈ resolved_entries_with_cwd (restricted (fp_entries f)) cwd ->
       (exists g, accepted matcher g /\ stands_for cwd g r) \/ r_access r = Deny) /\
    (forall g r, accepted matcher g -> stands_for cwd g r -> r ∈ resolved_entries_with_cwd (restricted (fp_entries f)) cwd) /\
    (forall d r, retained matcher d -> stands_for cwd d r -> r ∈ resolved_entries_with_cwd (restricted (fp_entries f)) cwd).
Proof.
  destruct (new_matcher_ok (restricted (fp_entries requested))) as (matcher & Em); [done|].
  unfold intersect_file_system. rewrite Em. cbn [comp_bind].
  destruct (accepted_list matcher) as [Hacc1 Hacc]. cbv zeta in *. set (acc := foldl push_entry_once [] _) in *.
  assert (forall e, e ∈ acc -> wf_entry e) as Hwa by (intros e He; by apply Hacc1).
  destruct (retain_spec (fp_entries requested) matcher acc acc) as (m1 & E1 & Hm1 & Hr1); [set_solver|done..|].
  destruct (retain_constraining_deny_entries (fp_entries requested) acc cwd acc) as [es1 ret1]. cbn [fst] in E1. subst es1.
  destruct (retain_spec (fp_entries granted) matcher acc (acc ++ m1)) as (m2 & E2 & Hm2 & Hr2); [set_solver|done..|].
  destruct (retain_constraining_deny_entries (fp_entries granted) acc cwd (acc ++ m1)) as [es2 ret2]. cbn [fst] in E2. subst es2.
  eexists _, matcher. split; [done|]. cbn [fp_entries].
  assert (Forall wf_entry (fp_entries requested ++ fp_entries granted)) as Hall by by apply Forall_app.
  rewrite Forall_forall in Hall.
  assert (forall e, e ∈ m1 ++ m2 -> exists d, d ∈ fp_entries requested ++ fp_entries granted /\ e_access d = Deny /\
    e = materialize_cwd_dependent_entry cwd d) as Hm.
  { intros e [He|He]%elem_of_app; [destruct (Hm1 e He) as (d & Hd & Hda & ->)|destruct (Hm2 e He) as (d & Hd & Hda & ->)];
      exists d; (split_and!; [apply elem_of_app; by auto|done..]). }
  assert (Forall wf_entry ((acc ++ m1) ++ m2)) as Hwf.
  { apply Forall_forall. intros e He. rewrite <- (assoc_L (++)) in He. apply elem_of_app in He as [He|He]; [by apply Hwa|].
    destruct (Hm e He) as (d & Hd & _ & ->). by apply materialized_wf, Hall. }
  split_and!; [done|done| | |].
  - intros r (e & He & Hs)%stands_for_resolved. rewrite <- (assoc_L (++)) in He. apply elem_of_app in He as [He|He].
    + left. apply Hacc1 in He as (_ & g & Hg & ->). exists g. split; [done|]. by apply (stands_for_materialized g r).
    + right. destruct (Hm e He) as (d & Hd & Hda & ->). apply (stands_for_materialized d r) in Hs as [_ Hs]. congruence.
  - intros g r Hg Hs. destruct (Hacc g Hg) as (e' & He' & Heq). apply stands_for_resolved. exists e'.
    split; [rewrite !elem_of_app; auto|]. eapply stands_for_eqb; [|by apply Hwa|done..]. rewrite Forall_forall in Hgra. apply Hgra, Hg.
  - intros d r Hd Hs. pose proof Hd as (Hin & _). rewrite Forall_forall in Hwf.
    assert (exists e', e' ∈ (acc ++ m1) ++ m2 /\ entry_eqb e' (materialize_cwd_dependent_entry cwd d) = true) as (e' & He' & Heq).
    { apply elem_of_app in Hin as [Hin|Hin]; [|by apply Hr2]. destruct (Hr1 d Hin Hd) as (e' & He' & Heq). exists e'.
      split; [apply elem_of_app; by left|done]. }
    apply stands_for_resolved. exists e'. split; [done|]. eapply stands_for_eqb; [by apply Hall|by apply Hwf|done..].
Qed.

Lemma paths_overlap_covering p a b :
  normal_absolute a -> normal_absolute b -> within p a -> within p b -> paths_overlap a b = true.
Proof.
  intros Ha Hb Hpa Hpb. unfold paths_overlap. apply orb_true_iff.
  destruct (decide (depth a <= depth b)); [right|left]; (apply path_starts_with_normal; [done..|]);
    apply (within_linear p); done || lia.
Qed.

Lemma restricted_wf es : Forall wf_entry es -> wf_policy (restricted es).
Proof. done. Qed.

(** One path under the intersection, decided by the entry [m] of the accepted grant [g] *)
Section decided.
Variables (f : FileSystemPermissions) (matcher : option ReadDenyMatcher) (p : str)
  (m : ResolvedFileSystemEntry) (g : FileSystemSandboxEntry).
Let R' := resolved_entries_with_cwd (restricted (fp_entries f)) cwd.
Hypothesis Hretained : forall d r, retained matcher d -> stands_for cwd d r -> r ∈ R'.
Hypothesis Hp : normal_absolute p.
Hypothesis Hdec : decides R' p m.
Hypothesis Hg : accepted matcher g.
Hypothesis Hgm : stands_for cwd g m.

Lemma granted_normal : normal_absolute (r_path m).
Proof. eapply stands_for_normal; [|done]. rewrite Forall_forall in Hgra. apply Hgra, Hg. Qed.

Lemma m_readable : can_read (r_access m) = true.
Proof. destruct Hgm as [_ <-]. by eapply accepted_readable. Qed.

(** A denial above the path is above the grant, or it would decide the path. *)
Lemma deny_above_grant d r :
  d ∈ fp_entries requested ++ fp_entries granted -> e_access d = Deny -> stands_for cwd d r -> covers r p ->
  depth (r_path r) < depth (r_path m).
Proof.
  intros Hd Ha Hs Hc. assert (wf_entry d) as Hwd.
  { assert (Forall wf_entry (fp_entries requested ++ fp_entries granted)) as Hall by by apply Forall_app.
    rewrite Forall_forall in Hall. auto. }
  assert (r ∈ R') as Hr.
  { eapply Hretained; [|done]. split_and!; [done..|]. exists g, r, m. split_and!; [done..|].
    apply (paths_overlap_covering p); [by eapply stands_for_normal|apply granted_normal|done|apply Hdec]. }
  destruct (proj2 (proj2 Hdec) r Hr Hc) as [|[_ Hrank]]; [done|]. destruct Hs as [_ Hs].
  pose proof m_readable as Hm. rewrite <- Hs, Ha in Hrank. destruct (r_access m); cbn in *; [lia|lia|done].
Qed.

(** A source of denials that can read the granted path can read the path. *)
Lemma source_readable es :
  Forall wf_entry es -> (forall e, e ∈ es -> e ∈ fp_entries requested ++ fp_entries granted) ->
  can_read_path_with_cwd (restricted es) (r_path m) cwd = true -> can_read_path_with_cwd (restricted es) p cwd = true.
Proof.
  intros Hes Hsub Hq. pose proof granted_normal as Hn. apply restricted_wf in Hes. unfold can_read_path_with_cwd in *.
  destruct (access_decided (restricted es) cwd Hes eq_refl (r_path m) Hn) as [(x & Hx & Ex)|[_ Ex]]; rewrite Ex in Hq; [|done].
  destruct (access_decided (restricted es) cwd Hes eq_refl p Hp) as [(r & Hr & Er)|[Hno _]].
  2: { destruct (Hno x); [apply Hx|]. eapply within_trans; [apply Hdec|apply Hx]. }
  rewrite Er. destruct (can_read (r_access r)) eqn:Ec; [done|]. assert (r_access r = Deny) as Ed by by destruct (r_access r).
  pose proof (proj1 Hr) as (d & Hd & Hs)%stands_for_resolved. assert (e_access d = Deny) as Eda by (destruct Hs; congruence).
  pose proof (deny_above_grant d r (Hsub d Hd) Eda Hs (proj1 (proj2 Hr))) as Hlt.
  assert (covers r (r_path m)) as Hcq by (apply (within_linear p); [apply Hr|apply Hdec|lia]).
  pose proof (decides_between _ _ _ _ Hr Hcq (proj1 (proj2 Hdec))) as Hd'. pose proof (decides_unique _ _ _ _ Hx Hd') as Eu.
  rewrite Eu, Ed in Hq. done.
Qed.

Lemma granted_readable_at_grant : can_read_path_with_cwd (restricted (fp_entries granted)) (r_path m) cwd = true.
Proof.
  pose proof granted_normal as Hn. unfold can_read_path_with_cwd.
  assert (m ∈ resolved_entries_with_cwd (restricted (fp_entries granted)) cwd) as Hm.
  { apply stands_for_resolved. exists g. split; [apply Hg|done]. }
  destruct (access_decided (restricted (fp_entries granted)) cwd (restricted_wf _ Hgra) eq_refl (r_path m) Hn)
    as [(x & Hx & ->)|[Hno _]]; [|destruct (Hno m Hm); apply within_refl].
  destruct (can_read (r_access x)) eqn:Ec; [done|]. assert (r_access x = Deny) as Ed by by destruct (r_access x).
  pose proof (proj1 Hx) as (d & Hd & Hs)%stands_for_resolved. assert (e_access d = Deny) as Eda by (destruct Hs; congruence).
  assert (covers x p) as Hc by (eapply within_trans; [apply Hdec|apply Hx]).
  pose proof (deny_above_grant d x ltac:(apply elem_of_app; by right) Eda Hs Hc) as Hlt.
  destruct (proj2 (proj2 Hx) m Hm (within_refl _)); lia.
Qed.

Lemma requested_covers_grant : access_covers (resolve_access_with_cwd (restricted (fp_entries requested)) (r_path m) cwd) (r_access m) = true.
Proof.
  destruct Hg as [_ Hw], Hgm as [Hpath Hacc]. unfold granted_file_system_entry_within_request in Hw.
  destruct (negb _); [done|]. rewrite Hpath in Hw. destruct (match matcher with Some _ => _ | None => _ end); [done|].
  by rewrite Hacc in Hw.
Qed.

Context `{Hplain : !PlainHost}.
Hypothesis Haccepted : forall g r, accepted matcher g -> stands_for cwd g r -> r ∈ R'.
Hypothesis Hmatcher : new_matcher (restricted (fp_entries requested)) cwd = Ok matcher.
Hypothesis Hnoglobs : get_unreadable_globs_with_cwd (restricted (fp_entries requested)) cwd = [].

Lemma matcher_without_globs q :
  normal_absolute q ->
  match matcher with Some mt => is_read_denied mt q | None => false end = true ->
  exists e, e ∈ resolved_entries_with_cwd (restricted (fp_entries requested)) cwd /\ r_access e = Deny /\
    r_path e <> absolute_of [] /\ covers e q.
Proof.
  intros Hq Hd. pose proof (new_matcher_spec (restricted (fp_entries requested)) q cwd (restricted_wf _ Hreq) eq_refl Hcwd Hq) as Hs.
  rewrite Hmatcher in Hs. cbv zeta in Hs. rewrite Hnoglobs in Hs. destruct matcher as [mt|]; [|done].
  apply Hs in Hd as [(? & ? & Hx & _)|[Hx|(? & ? & Hx & _)]]; [by apply not_elem_of_nil in Hx|done|by apply not_elem_of_nil in Hx].
Qed.

Lemma matcher_spares_grant e :
  e ∈ resolved_entries_with_cwd (restricted (fp_entries requested)) cwd -> r_access e = Deny ->
  r_path e <> absolute_of [] -> ~ covers e (r_path m).
Proof.
  intros He Ha Hne Hc. destruct (matcher_refuses _ _ _ e (restricted_wf _ Hreq) eq_refl Hcwd granted_normal He Ha Hne Hc)
    as (mt & Emt & Hden). rewrite Hmatcher in Emt. injection Emt as Emt.
  destruct Hg as [_ Hw], Hgm as [Hpath _]. unfold granted_file_system_entry_within_request in Hw.
  destruct (negb _); [done|]. by rewrite Hpath, Emt, Hden in Hw.
Qed.

(** A request whose grant is written there and that denies nothing between the grant
    and a deeper path can read the deeper path. *)
Lemma deeper_read_accepted ge x :
  r_access m = Write -> ge ∈ fp_entries granted -> e_access ge = Read -> stands_for cwd ge x -> covers x p ->
  depth (r_path m) < depth (r_path x) -> accepted matcher ge.
Proof.
  intros Hw Hge Ha Hs Hc Hlt. split; [done|]. unfold granted_file_system_entry_within_request. rewrite Ha. cbn [can_read negb].
  pose proof Hs as [Hpath _]. rewrite Hpath.
  assert (normal_absolute (r_path x)) as Hnx by (eapply stands_for_normal; [|done]; rewrite Forall_forall in Hgra; auto).
  assert (within (r_path x) (r_path m)) as Hxm by (apply (within_linear p); [apply Hdec|done|lia]).
  assert (forall e, e ∈ resolved_entries_with_cwd (restricted (fp_entries requested)) cwd -> r_access e = Deny ->
    covers e (r_path x) -> covers e (r_path m)) as Hup.
  { intros e He Hea Hce. pose proof He as (d & Hd & Hsd)%stands_for_resolved. apply (within_linear (r_path x)); [done..|].
    enough (depth (r_path e) < depth (r_path m)) by lia. apply (deny_above_grant d e); [apply elem_of_app; by left| |done|].
    - destruct Hsd; congruence.
    - by eapply within_trans. }
  destruct (match matcher with Some mt => is_read_denied mt (r_path x) | None => false end) eqn:Em.
  { apply matcher_without_globs in Em as (e & He & Hea & Hne & Hce); [|done]. by destruct (matcher_spares_grant e He Hea Hne); apply Hup. }
  pose proof requested_covers_grant as Hcov. rewrite Hw in Hcov. cbn [access_covers] in Hcov.
  pose proof (restricted_wf _ Hreq) as Hwf.
  destruct (access_decided _ cwd Hwf eq_refl (r_path m) granted_normal) as [(y & Hy & Ey)|[_ Ey]]; rewrite Ey in Hcov; [|done].
  destruct (access_decided _ cwd Hwf eq_refl (r_path x) Hnx) as [(rd & Hrd & ->)|[Hno _]].
  2: { destruct (Hno y); [apply Hy|]. eapply within_trans; [exact Hxm|apply Hy]. }
  cbn [access_covers]. destruct (can_read (r_access rd)) eqn:Ec; [done|]. assert (r_access rd = Deny) as Ed by by destruct (r_access rd).
  pose proof (decides_between _ _ _ _ Hrd (Hup rd (proj1 Hrd) Ed (proj1 (proj2 Hrd))) Hxm) as Hrd'.
  rewrite (decides_unique _ _ _ _ Hy Hrd'), Ed in Hcov. done.
Qed.

Lemma granted_writes :
  r_access m = Write -> resolve_access_with_cwd (restricted (fp_entries granted)) p cwd = Write.
Proof.
  intros Hw. pose proof (restricted_wf _ Hgra) as Hwf.
  assert (m ∈ resolved_entries_with_cwd (restricted (fp_entries granted)) cwd) as Hm.
  { apply stands_for_resolved. exists g. split; [apply Hg|done]. }
  assert (can_read_path_with_cwd (restricted (fp_entries granted)) p cwd = true) as Hr.
  { apply source_readable; [done| |apply granted_readable_at_grant]. intros e He. apply elem_of_app. by right. }
  unfold can_read_path_with_cwd in Hr.
  destruct (access_decided _ cwd Hwf eq_refl p Hp) as [(x & Hx & Ex)|[_ Ex]]; rewrite Ex in *; [|done].
  destruct (r_access x) eqn:Ea; [exfalso|done..]. pose proof (proj1 Hx) as (ge & Hge & Hs)%stands_for_resolved.
  assert (depth (r_path m) < depth (r_path x)) as Hlt.
  { destruct (proj2 (proj2 Hx) m Hm (proj1 (proj2 Hdec))) as [|[_ Hrank]]; [done|]. rewrite Hw, Ea in Hrank. cbn in Hrank. lia. }
  assert (x ∈ R') as Hx'.
  { eapply Haccepted; [|done]. eapply deeper_read_accepted; try done; [destruct Hs; congruence|apply Hx]. }
  destruct (proj2 (proj2 Hdec) x Hx' (proj1 (proj2 Hx))); lia.
Qed.
End decided.
End intersect.

(** The file system policy that additional permissions amount to *)
Definition permission_entries (a : AdditionalPermissionProfile) : list FileSystemSandboxEntry :=
  match file_system a with Some f => fp_entries f | None => [] end.
Definition permission_policy (a : AdditionalPermissionProfile) : FileSystemSandboxPolicy := restricted (permission_entries a).

Lemma no_entries_deny p cwd : resolve_access_with_cwd (restricted []) p cwd = Deny.
Proof. unfold resolve_access_with_cwd. cbn. by destruct (resolve_candidate_path p cwd). Qed.

Lemma intersect_file_system_within `{!ProcessEnvOk, !PlainHost, !GlobLib} requested granted cwd p :
  Forall wf_entry (fp_entries requested) -> Forall wf_entry (fp_entries granted) -> normal_absolute cwd -> normal_absolute p ->
  exists f, intersect_file_system requested granted cwd = Ok f /\
  let inter := restricted (fp_entries f) in
  let req := restricted (fp_entries requested) in
  let gra := restricted (fp_entries granted) in
  (can_read_path_with_cwd inter p cwd = true ->
     can_read_path_with_cwd req p cwd = true /\ can_read_path_with_cwd gra p cwd = true /\
     forall e, e ∈ resolved_entries_with_cwd req cwd ++ resolved_entries_with_cwd gra cwd -> r_access e = Deny ->
       r_path e <> absolute_of [] -> covers e p -> exists mt, new_matcher inter cwd = Ok (Some mt) /\ is_read_denied mt p = true) /\
  (resolve_access_with_cwd inter p cwd = Write -> get_unreadable_globs_with_cwd req cwd = [] ->
     resolve_access_with_cwd gra p cwd = Write).
Proof.
  intros Hreq Hgra Hcwd Hp.
  destruct (intersect_entries cwd Hcwd requested granted Hreq Hgra) as (f & matcher & Ef & Em & Hwf & Hsound & Hacc & Hret).
  exists f. split; [done|]. cbv zeta.
  assert (forall a, resolve_access_with_cwd (restricted (fp_entries f)) p cwd = a -> a <> Deny ->
    exists m g, decides (resolved_entries_with_cwd (restricted (fp_entries f)) cwd) p m /\ r_access m = a /\
      accepted cwd requested granted matcher g /\ stands_for cwd g m) as Hdec.
  { intros a Ea Hna. destruct (access_decided _ cwd (restricted_wf _ Hwf) eq_refl p Hp) as [(m & Hd & Er)|[_ Er]]; [|congruence].
    destruct (Hsound m (proj1 Hd)) as [(g & Hg & Hs)|Hx]; [|congruence]. exists m, g. split_and!; congruence || done. }
  split.
  - intros Hr. unfold can_read_path_with_cwd in Hr.
    destruct (Hdec _ eq_refl) as (m & g & Hd & Ha & Hg & Hs); [by intros Hx; rewrite Hx in Hr|].
    assert (forall es, Forall wf_entry es -> (forall e, e ∈ es -> e ∈ fp_entries requested ++ fp_entries granted) ->
      can_read_path_with_cwd (restricted es) (r_path m) cwd = true -> can_read_path_with_cwd (restricted es) p cwd = true) as Hsrc
      by (intros es; by eapply source_readable).
    split_and!.
    + apply Hsrc; [done|intros e He; apply elem_of_app; by left|]. unfold can_read_path_with_cwd.
      pose proof (requested_covers_grant cwd requested granted matcher m g Hg Hs) as Hcov.
      destruct (resolve_access_with_cwd (restricted (fp_entries requested)) (r_path m) cwd), (r_access m); done.
    + apply Hsrc; [done|intros e He; apply elem_of_app; by right|]. exact (granted_readable_at_grant cwd Hcwd requested granted Hreq Hgra f matcher p m g Hret Hd Hg Hs).
    + intros e He Hea Hne Hc. assert (exists d, d ∈ fp_entries requested ++ fp_entries granted /\ stands_for cwd d e) as (d & Hdin & Hsd).
      { setoid_rewrite elem_of_app. apply elem_of_app in He as [(d & Hdin & Hsd)%stands_for_resolved|(d & Hdin & Hsd)%stands_for_resolved]; eauto. }
      apply (matcher_refuses _ _ _ e); try done. eapply Hret; [|exact Hsd]. split_and!; [done|destruct Hsd; congruence|].
      exists g, e, m. split_and!; [done..|]. assert (Forall wf_entry (fp_entries requested ++ fp_entries granted)) as Hall by by apply Forall_app.
      rewrite Forall_forall in Hall. apply (paths_overlap_covering p); [by eapply (stands_for_normal cwd Hcwd d e (Hall d Hdin))|exact (granted_normal cwd Hcwd requested granted Hgra matcher m g Hg Hs)|done|apply Hd].
  - intros Hw Hng. destruct (Hdec Write Hw) as (m & g & Hd & Ha & Hg & Hs); [done|].
    exact (granted_writes cwd Hcwd requested granted Hreq Hgra f matcher p m g Hret Hp Hd Hg Hs Hacc Em Hng Ha).
Qed.


(** *** Round trips *)

(** A scan depth read from a profile is not zero. *)
Definition profile_wf (p : PermissionProfile) : Prop :=
  match p with Managed (ManagedRestricted _ (Some d)) _ => d <> 0%N | _ => True end.

Lemma runtime_roundtrip p :
  profile_wf p ->
  from_runtime_permissions_with_enforcement (enforcement p) (file_system_sandbox_policy p) (network_sandbox_policy p) = Ok p.
Proof.
  destruct p as [[es [d|]|] net| |net]; try done. cbn. intros Hd. unfold non_zero. by rewrite (proj2 (N.eqb_neq d 0) Hd).
Qed.

Lemma from_runtime_returns e p net :
  exists q, from_runtime_permissions_with_enforcement e p net = Ok q /\ profile_wf q /\
    (e = EnforceManaged \/ e = EnforceDisabled -> kind p <> ExternalSandbox ->
     kind (file_system_sandbox_policy q) = kind p /\ entries (file_system_sandbox_policy q) = match kind p with Restricted => entries p | _ => [] end).
Proof.
  unfold from_runtime_permissions_with_enforcement, managed_from_sandbox_policy.
  assert (forall d, profile_wf (Managed (ManagedRestricted (entries p) (d ≫= non_zero)) net)) as Hw.
  { intros [d|]; [|done]. cbn. unfold non_zero. by destruct (N.eqb_spec d 0). }
  destruct (kind p) eqn:Ek; cbn; [|destruct e|]; eexists; (split_and!; [done|done| ]); done.
Qed.

(** Profiles and the policies behind them agree.  A profile taken apart into its
    enforcement, file system and network policies and put together again is the
    same profile; an older
    policy turned into a profile for a directory and back is the older policy, less
    repeated roots and roots that are the directory; and additional permissions with
    nothing in them change nothing. *)
Theorem profile_roundtrips (p : PermissionProfile) (sp : SandboxPolicy) (cwd : str) :
  profile_wf p ->
  from_runtime_permissions_with_enforcement (enforcement p) (file_system_sandbox_policy p) (network_sandbox_policy p) = Ok p /\
  effective_permission_profile p None = Ok p /\
  exists q, profile_from_legacy_sandbox_policy_for_cwd sp cwd = Ok q /\ profile_wf q /\
    profile_to_legacy_sandbox_policy q cwd = Ok (legacy_normal cwd sp).
Proof.
  intros Hp. split_and!; [by apply runtime_roundtrip|by apply (runtime_roundtrip p)|].
  unfold profile_from_legacy_sandbox_policy_for_cwd, from_runtime_permissions_with_enforcement, managed_from_sandbox_policy.
  pose proof (legacy_roundtrip sp cwd) as Hr. destruct sp as [|net|net|roots net t st].
  - eexists. by split_and!.
  - eexists. split_and!; [done|done|]. by destruct net.
  - eexists. split_and!; [done|done|]. by destruct net.
  - destruct (from_legacy_shape roots net t st cwd) as (Hk & _). rewrite Hk. cbn [comp_bind].
    assert (glob_scan_max_depth (from_legacy_sandbox_policy_for_cwd (WorkspaceWrite roots net t st) cwd) = None) as Hd by done.
    rewrite Hd. eexists. split_and!; [done|done|]. cbn [profile_to_legacy_sandbox_policy managed_to_sandbox_policy mbind option_bind].
    rewrite <- Hr. f_equal.
Qed.
End host.

(** ** Witnesses *)

#[local] Existing Instances demo_host demo_process demo_process_ok demo_host_plain.

#[local] Instance demo_globs : GlobLib := {|
  GlobMatcher := str;
  glob_build g := if contains_char 91%N g then inl &"unclosed" else inr g;
  glob_is_match := str_eqb
|}.

Definition fs_permissions (es : list FileSystemSandboxEntry) : AdditionalPermissionProfile :=
  {| network := None; file_system := Some {| fp_entries := es; fp_depth := None |} |}.

Definition demo_request : AdditionalPermissionProfile :=
  fs_permissions [entry (Special (ProjectRoots None)) Write; entry (Path &"/w/secret") Deny].
Definition demo_grant : AdditionalPermissionProfile := fs_permissions [entry (Path &"/w/src") Write; entry (Path &"/etc") Read].


Lemma profile_roundtrips_witness :
  effective_permission_profile (Managed (ManagedRestricted [entry (Special Root) Read] (Some 3%N)) NetworkEnabled) None =
  Ok (Managed (ManagedRestricted [entry (Special Root) Read] (Some 3%N)) NetworkEnabled).
Proof.
  apply (profile_roundtrips (Managed (ManagedRestricted [entry (Special Root) Read] (Some 3%N)) NetworkEnabled)
    DangerFullAccess (&"/w")). cbn. lia.
Defined.

(** A narrower read entry of the request is lost: the intersection writes where the
    request only reads. *)
Lemma intersection_drops_read_carveouts :
  let requested := fs_permissions [entry (Path &"/w") Write; entry (Path &"/w/docs") Read] in
  let granted := fs_permissions [entry (Path &"/w") Write] in
  intersect_permission_profiles requested granted (&"/w") = Ok granted /\
  resolve_access_with_cwd (permission_policy requested) (&"/w/docs/a") (&"/w") = Read /\
  resolve_access_with_cwd (permission_policy granted) (&"/w/docs/a") (&"/w") = Write.
Proof. split_and!; vm_compute; reflexivity. Qed.

(** Braces are no glob characters for the static prefix: a deny glob with an
    alternative is dropped although it matches below the grant. *)
Lemma brace_glob_not_retained :
  glob_static_prefix_path (&"/w/{a,b}/key*") (&"/w") = Some &"/w/{a,b}" /\
  retain_constraining_deny_entries [entry (GlobPattern &"/w/{a,b}/key*") Deny] [entry (Path &"/w/a") Read] (&"/w")
    [entry (Path &"/w/a") Read] = ([entry (Path &"/w/a") Read], []).
Proof. split; vm_compute; reflexivity. Qed.
