(* ===== verification/ExecApproval.v ===== *)
(** * core/src/exec_policy.rs: what a command needs before it runs

    The composition of the policy of [execpolicy] with the shell parser and the
    safety lists of [shell-command]: a command line is split into the commands
    of its script, each is matched against the rules, an unmatched one goes to
    the heuristic, and the strictest decision becomes an approval requirement.
    The build is the Unix one. *)
From S2P Require Import Prelude RustStr RustPath AbsolutePath ApplyPatch ExecPolicy ExecPolicyAmend ShellSafety PathPrefix Permissions Profiles.

(** ** Settings *)

Record GranularApprovalConfig := { sandbox_approval : bool; rules : bool }.

Inductive AskForApproval := UnlessTrusted | OnFailure | OnRequest | Granular (c : GranularApprovalConfig) | Never.

Inductive SandboxPermissions := UseDefault | RequireEscalated | WithAdditionalPermissions.

Definition requests_sandbox_override (p : SandboxPermissions) : bool :=
  match p with UseDefault => false | _ => true end.

Record UnmatchedCommandContext := {
  approval_policy : AskForApproval;
  permission_profile : PermissionProfile;
  sandbox_kind : FileSystemSandboxKind;
  sandbox_permissions : SandboxPermissions;
  used_complex_parsing : bool
}.

Definition PROMPT_CONFLICT_REASON : str := &"approval required by policy, but AskForApproval is set to Never".
Definition REJECT_SANDBOX_APPROVAL_REASON : str :=
  &"approval required by policy, but AskForApproval::Granular.sandbox_approval is false".
Definition REJECT_RULES_APPROVAL_REASON : str :=
  &"approval required by policy rule, but AskForApproval::Granular.rules is false".

Definition prompt_is_rejected_by_policy (approval_policy : AskForApproval) (prompt_is_rule : bool) : option str :=
  match approval_policy with
  | Never => Some PROMPT_CONFLICT_REASON
  | OnFailure | OnRequest | UnlessTrusted => None
  | Granular granular_config =>
      if prompt_is_rule then
        if negb (rules granular_config) then Some REJECT_RULES_APPROVAL_REASON else None
      else if negb (sandbox_approval granular_config) then Some REJECT_SANDBOX_APPROVAL_REASON
      else None
  end.

Definition is_policy_match (m : RuleMatch) : bool :=
  match m with PrefixRuleMatch _ _ _ _ => true | HeuristicsRuleMatch _ _ => false end.

Definition is_decision (d : Decision) (m : RuleMatch) : bool := bool_decide (match_decision m = d).

Record ExecPolicyAmendment := { amendment_command : list str }.

Inductive ExecApprovalRequirement :=
| Skip (bypass_sandbox : bool) (proposed : option ExecPolicyAmendment)
| NeedsApproval (reason : option str) (proposed : option ExecPolicyAmendment)
| RequirementForbidden (reason : str).

Definition BANNED_PREFIX_SUGGESTIONS : list (list str) :=
  [ [&"python3"]; [&"python3"; &"-"]; [&"python3"; &"-c"]; [&"python"]; [&"python"; &"-"]; [&"python"; &"-c"];
    [&"py"]; [&"py"; &"-3"]; [&"pythonw"]; [&"pyw"]; [&"pypy"]; [&"pypy3"]; [&"git"]; [&"bash"]; [&"bash"; &"-lc"];
    [&"sh"]; [&"sh"; &"-c"]; [&"sh"; &"-lc"]; [&"zsh"]; [&"zsh"; &"-lc"]; [&"/bin/zsh"]; [&"/bin/zsh"; &"-lc"];
    [&"/bin/bash"]; [&"/bin/bash"; &"-lc"]; [&"pwsh"]; [&"pwsh"; &"-Command"]; [&"pwsh"; &"-c"]; [&"powershell"];
    [&"powershell"; &"-Command"]; [&"powershell"; &"-c"]; [&"powershell.exe"]; [&"powershell.exe"; &"-Command"];
    [&"powershell.exe"; &"-c"]; [&"env"]; [&"sudo"]; [&"node"]; [&"node"; &"-e"]; [&"perl"]; [&"perl"; &"-e"];
    [&"ruby"]; [&"ruby"; &"-e"]; [&"php"]; [&"php"; &"-r"]; [&"lua"]; [&"lua"; &"-e"]; [&"osascript"] ].

(** [shlex::try_join] *)
Class Shlex := { shlex_try_join : list str -> option str }.

(** ** Proposals *)

Definition try_derive_execpolicy_amendment_for_prompt_rules (ms : list RuleMatch) : option ExecPolicyAmendment :=
  if existsb (fun m => is_policy_match m && is_decision Prompt m) ms then None
  else head (omap (fun m => match m with
                            | HeuristicsRuleMatch command Prompt => Some {| amendment_command := command |}
                            | _ => None
                            end) ms).

Definition try_derive_execpolicy_amendment_for_allow_rules (ms : list RuleMatch) : option ExecPolicyAmendment :=
  if existsb is_policy_match ms then None
  else head (omap (fun m => match m with
                            | HeuristicsRuleMatch command Allow => Some {| amendment_command := command |}
                            | _ => None
                            end) ms).

(** ** Reasons *)

Section reasons.
Context {shlex : Shlex}.

Definition render_shlex_command (args : list str) : str := default (join (&" ") args) (shlex_try_join args).

(** [Iterator::max_by_key]: the last of the largest *)
Fixpoint max_by_len {A} (len : A -> nat) (l : list A) : option A :=
  match l with
  | [] => None
  | x :: l => match max_by_len len l with
              | Some y => if len x <=? len y then Some y else Some x
              | None => Some x
              end
  end.

Definition rule_reasons (d : Decision) (ms : list RuleMatch) : list (list str * option str) :=
  omap (fun m => match m with
                 | PrefixRuleMatch matched_prefix d' _ justification =>
                     if bool_decide (d' = d) then Some (matched_prefix, justification) else None
                 | _ => None
                 end) ms.

Definition tick : str := [96%N].

Definition derive_prompt_reason (command_args : list str) (e : Evaluation) : option str :=
  let command := tick ++ render_shlex_command command_args ++ tick in
  match max_by_len (fun r => length r.1) (rule_reasons Prompt (matched_rules e)) with
  | Some (_, Some justification) => Some (command ++ &" requires approval: " ++ justification)
  | Some (_, None) => Some (command ++ &" requires approval by policy")
  | None => None
  end.

Definition derive_forbidden_reason (command_args : list str) (e : Evaluation) : str :=
  let command := tick ++ render_shlex_command command_args ++ tick in
  match max_by_len (fun r => length r.1) (rule_reasons Forbidden (matched_rules e)) with
  | Some (_, Some justification) => command ++ &" rejected: " ++ justification
  | Some (matched_prefix, None) =>
      command ++ &" rejected: policy forbids commands starting with " ++ tick ++ render_shlex_command matched_prefix ++ tick
  | None => command ++ &" rejected: blocked by policy"
  end.
End reasons.

(** ** The heuristic *)

Section approval.
Context {grammar : BashGrammar} {shlex : Shlex} {env : ProcessEnv} (linux debug : bool).

Definition render_decision_for_unmatched_command (command : list str) (ctx : UnmatchedCommandContext)
  : comp False Decision :=
  let? is_known_safe := is_known_safe_command linux debug command in
  if is_known_safe && negb (used_complex_parsing ctx) &&
     match approval_policy ctx with UnlessTrusted => true | _ => false end
  then Ok Allow
  else
    let? command_is_dangerous := command_might_be_dangerous command in
    if command_is_dangerous : bool then
      Ok (match approval_policy ctx with
          | Never => match permission_profile ctx with Disabled | External _ => Allow | Managed _ _ => Forbidden end
          | OnFailure | OnRequest | UnlessTrusted | Granular _ => Prompt
          end)
    else
      Ok (match approval_policy ctx with
          | Never | OnFailure => Allow
          | UnlessTrusted => Prompt
          | OnRequest | Granular _ =>
              match sandbox_kind ctx with
              | Unrestricted | ExternalSandbox => Allow
              | Restricted => if requests_sandbox_override (sandbox_permissions ctx) then Prompt else Allow
              end
          end).

(** The closure handed to the policy.  The heuristic always returns (lemma
    [render_decision_ok]), so the last case is not taken. *)
Definition exec_policy_fallback (ctx : UnmatchedCommandContext) (cmd : list str) : Decision :=
  match render_decision_for_unmatched_command cmd ctx with Ok d => d | _ => Forbidden end.

(** ** The commands of a command line *)

Definition commands_for_exec_policy (command : list str) : comp False (list (list str) * bool) :=
  let? plain := parse_shell_lc_plain_commands command in
  match plain with
  | Some ((_ :: _) as commands) => Ok (commands, false)
  | _ =>
      let? single := parse_shell_lc_single_command_prefix command in
      match single with
      | Some single_command => Ok ([single_command], true)
      | None => Ok ([command], false)
      end
  end.

Definition match_options : MatchOptions := {| resolve_host_executables := true |}.

Fixpoint all_allowed (p : Policy) (fallback : list str -> Decision) (commands : list (list str)) : comp False bool :=
  match commands with
  | [] => Ok true
  | command :: commands =>
      let? e := check_with_options p command fallback match_options in
      if bool_decide (evaluated e = Allow) then all_allowed p fallback commands else Ok false
  end.

Definition prefix_rule_would_approve_all_commands (p : Policy) (prefix_rule : list str) (commands : list (list str))
    (fallback : list str -> Decision) : comp False bool :=
  match add_prefix_rule prefix_rule Allow p with
  | Ok policy_with_prefix_rule => all_allowed policy_with_prefix_rule fallback commands
  | _ => Ok false
  end.

Definition derive_requested_execpolicy_amendment_from_prefix_rule (prefix_rule : option (list str))
    (ms : list RuleMatch) (p : Policy) (commands : list (list str)) (fallback : list str -> Decision)
  : comp False (option ExecPolicyAmendment) :=
  match prefix_rule with
  | None | Some [] => Ok None
  | Some prefix_rule =>
      if existsb (fun banned => bool_decide (prefix_rule = banned)) BANNED_PREFIX_SUGGESTIONS then Ok None
      else if existsb is_policy_match ms then Ok None
      else
        let? approves := prefix_rule_would_approve_all_commands p prefix_rule commands fallback in
        Ok (if approves : bool then Some {| amendment_command := prefix_rule |} else None)
  end.

Record ExecApprovalRequest := {
  req_command : list str;
  req_approval_policy : AskForApproval;
  req_permission_profile : PermissionProfile;
  req_sandbox_kind : FileSystemSandboxKind;
  req_sandbox_permissions : SandboxPermissions;
  req_prefix_rule : option (list str)
}.

Definition request_context (req : ExecApprovalRequest) (complex : bool) : UnmatchedCommandContext :=
  {| approval_policy := req_approval_policy req; permission_profile := req_permission_profile req;
     sandbox_kind := req_sandbox_kind req; sandbox_permissions := req_sandbox_permissions req;
     used_complex_parsing := complex |}.

Definition explicitly_allowed (p : Policy) (command : list str) : bool :=
  existsb (fun m => is_policy_match m && is_decision Allow m)
    (matches_for_command_with_options p command None match_options).

Definition create_exec_approval_requirement_for_command (p : Policy) (req : ExecApprovalRequest)
  : comp False ExecApprovalRequirement :=
  let command := req_command req in
  let? '(commands, complex) := commands_for_exec_policy command in
  let auto_amendment_allowed := negb complex in
  let fallback := exec_policy_fallback (request_context req complex) in
  let? evaluation := check_multiple_with_options p commands fallback match_options in
  let? requested_amendment :=
    if auto_amendment_allowed
    then derive_requested_execpolicy_amendment_from_prefix_rule (req_prefix_rule req) (matched_rules evaluation) p
           commands fallback
    else Ok None in
  Ok (match evaluated evaluation with
      | Forbidden => RequirementForbidden (derive_forbidden_reason command evaluation)
      | Prompt =>
          let prompt_is_rule :=
            existsb (fun m => is_policy_match m && is_decision Prompt m) (matched_rules evaluation) in
          match prompt_is_rejected_by_policy (req_approval_policy req) prompt_is_rule with
          | Some reason => RequirementForbidden reason
          | None =>
              NeedsApproval (derive_prompt_reason command evaluation)
                (match requested_amendment with
                 | Some a => Some a
                 | None => if auto_amendment_allowed
                           then try_derive_execpolicy_amendment_for_prompt_rules (matched_rules evaluation)
                           else None
                 end)
          end
      | Allow =>
          Skip (forallb (explicitly_allowed p) commands)
            (if auto_amendment_allowed
             then try_derive_execpolicy_amendment_for_allow_rules (matched_rules evaluation)
             else None)
      end).

(** ** Amending the policy

    [update_lock] has one permit and is never closed, so the two updates below
    run one at a time; [spawn_blocking] only moves the append to a thread. *)

Inductive ExecPolicyUpdateError :=
| AppendRule (path : str) (source : AmendError)
| AddRule (source : Error).

Definition default_policy_path (codex_home : str) : str :=
  path_join (path_join codex_home (&"rules")) (&"default.rules").

Definition append_amendment_and_update {W} {io : PolicyIo W} {json : JsonText} (codex_home : str)
    (amendment : ExecPolicyAmendment) (current_policy : Policy) (w : W)
  : comp False ((ExecPolicyUpdateError + unit) * Policy * W) :=
  let policy_path := default_policy_path codex_home in
  match blocking_append_allow_prefix_rule policy_path (amendment_command amendment) w with
  | (inl source, w) => Ok (inl (AppendRule policy_path source), current_policy, w)
  | (inr _, w) =>
      let? existing_evaluation :=
        check_multiple_with_options current_policy [amendment_command amendment] (fun _ => Forbidden) match_options in
      let already_allowed :=
        bool_decide (evaluated existing_evaluation = Allow) &&
        existsb (fun m => is_policy_match m && is_decision Allow m) (matched_rules existing_evaluation) in
      if already_allowed then Ok (inr tt, current_policy, w)
      else
        match add_prefix_rule (amendment_command amendment) Allow current_policy with
        | Ok updated_policy => Ok (inr tt, updated_policy, w)
        | Err e => Ok (inl (AddRule e), current_policy, w)
        | Panic => Panic
        | Loop => Loop
        end
  end.

Definition append_network_rule_and_update {W} {io : PolicyIo W} {json : JsonText} (codex_home h : str)
    (proto : NetworkRuleProtocol) (d : Decision) (j : option str) (current_policy : Policy) (w : W)
  : comp False ((ExecPolicyUpdateError + unit) * Policy * W) :=
  let policy_path := default_policy_path codex_home in
  match blocking_append_network_rule policy_path h proto d j w with
  | (inl source, w) => Ok (inl (AppendRule policy_path source), current_policy, w)
  | (inr _, w) =>
      match add_network_rule h proto d j current_policy with
      | Ok updated_policy => Ok (inr tt, updated_policy, w)
      | Err e => Ok (inl (AddRule e), current_policy, w)
      | Panic => Panic
      | Loop => Loop
      end
  end.
End approval.

(** ** The parsers and the heuristic return *)

Lemma forest_filter_length p l : length (forest (List.filter p l)) <= length (forest l).
Proof.
  induction l as [|n l IH]; cbn; [lia|]. destruct (p n); cbn; rewrite ?length_app; unfold forest in *; lia.
Qed.

Lemma forest_named_push n stack : length (forest (reverse (named_children n) ++ stack)) < length (forest (n :: stack)).
Proof.
  rewrite forest_cons, forest_app. cbn [length]. rewrite !length_app.
  rewrite (Permutation_length (forest_reverse (named_children n))).
  pose proof (forest_filter_length is_named (children n)). unfold named_children. lia.
Qed.

Lemma has_named_ok fuel stack k :
  length (forest stack) <= fuel -> exists b, has_named_descendant_kind_loop fuel stack k = Ok b.
Proof.
  revert stack. induction fuel as [|fuel IH]; intros [|n stack] Hf; try (by eexists).
  - rewrite forest_cons in Hf. cbn in Hf. lia.
  - cbn. destruct (str_eqb _ _); [by eexists|]. apply IH. pose proof (forest_named_push n stack). lia.
Qed.

Lemma find_single_ok fuel stack single :
  length (forest stack) <= fuel -> exists b, find_single_command_loop fuel stack single = Ok b.
Proof.
  revert stack single. induction fuel as [|fuel IH]; intros [|n stack] single Hf; try (by eexists).
  - rewrite forest_cons in Hf. cbn in Hf. lia.
  - pose proof (forest_named_push n stack). cbn. destruct (str_eqb _ _); [destruct single; [by eexists|]|];
      apply IH; lia.
Qed.

Lemma one_forest n : length (forest [n]) <= tree_size n.
Proof. unfold forest, tree_size. cbn. by rewrite app_nil_r. Qed.

Lemma single_prefix_ok {grammar : BashGrammar} command :
  exists r, parse_shell_lc_single_command_prefix command = Ok r.
Proof.
  unfold parse_shell_lc_single_command_prefix, extract_bash_command.
  destruct command as [|shell [|flag [|script [|]]]]; try (by eexists).
  destruct (negb _); [by eexists|]. destruct (detect_shell_type_ok (length shell) shell ltac:(lia)) as [t Ht].
  fold (detect_shell_type shell) in Ht. rewrite Ht. cbn [comp_bind].
  destruct (match t with Some (Zsh | Bash | Sh) => _ | _ => _ end) as [[? s]|]; [|by eexists].
  destruct (try_parse_shell s) as [tree|]; [|by eexists]. destruct (has_error tree); [by eexists|].
  unfold has_named_descendant_kind, find_single_command_node.
  destruct (has_named_ok (tree_size (root_node tree)) [root_node tree] (&"heredoc_redirect") (one_forest _)) as [b ->].
  destruct b; cbn; [|by eexists].
  destruct (has_named_ok (tree_size (root_node tree)) [root_node tree] (&"file_redirect") (one_forest _)) as [b ->].
  destruct b; cbn; [by eexists|].
  destruct (find_single_ok (tree_size (root_node tree)) [root_node tree] None (one_forest _)) as [r ->]. by eexists.
Qed.

Lemma known_safe_ok {grammar : BashGrammar} linux debug command :
  exists b, is_known_safe_command linux debug command = Ok b.
Proof.
  unfold is_known_safe_command. set (command' := map _ command).
  destruct (is_safe_to_call_with_exec_ok linux debug command') as [d ->]. destruct d; [by eexists|]. cbn.
  destruct (plain_commands_spec command') as (r & -> & _). destruct r as [[|c cs]|]; try (by eexists).
  destruct (all_safe_spec linux debug (c :: cs)) as (b & Hb & _). by exists b.
Qed.

Lemma dangerous_ok {grammar : BashGrammar} command : exists b, command_might_be_dangerous command = Ok b.
Proof.
  unfold command_might_be_dangerous. destruct (is_dangerous_to_call_with_exec command); [by eexists|].
  destruct (plain_commands_spec command) as (r & -> & _). by eexists.
Qed.

Lemma commands_for_exec_policy_ok {grammar : BashGrammar} command :
  exists commands complex, commands_for_exec_policy command = Ok (commands, complex) /\ commands <> [].
Proof.
  unfold commands_for_exec_policy. destruct (plain_commands_spec command) as (r & -> & _). cbn [comp_bind].
  destruct r as [[|c cs]|]; [|by eexists _, _|]; destruct (single_prefix_ok command) as [s ->]; cbn [comp_bind];
    destruct s; by eexists _, _.
Qed.

Section approval_theorems.
Context {grammar : BashGrammar} {shlex : Shlex} {env : ProcessEnv} (linux debug : bool).

Lemma render_decision_ok command ctx : exists d, render_decision_for_unmatched_command linux debug command ctx = Ok d.
Proof using.
  unfold render_decision_for_unmatched_command. destruct (known_safe_ok linux debug command) as [b ->]. cbn [comp_bind].
  destruct (_ && _); [by eexists|]. destruct (dangerous_ok command) as [d ->]. cbn [comp_bind]. destruct d; by eexists.
Qed.

Lemma check_one_ok p command fb o : exists e, check_with_options p command fb o = Ok e.
Proof using.
  unfold check_with_options. pose proof (from_matches_spec (matches_for_command_with_options p command (Some fb) o)) as H.
  destruct (from_matches _); try done; [by eexists|]. by apply matches_with_fallback_nonempty in H.
Qed.

Lemma all_allowed_ok p fb commands :
  exists b, all_allowed p fb commands = Ok b /\
    (b = true -> Forall (fun c => exists e, check_with_options p c fb match_options = Ok e /\ evaluated e = Allow) commands).
Proof using.
  induction commands as [|c cs (b & Hb & IH)]; cbn [all_allowed]; [eexists; split; [done|constructor]|].
  destruct (check_one_ok p c fb match_options) as [e He]. rewrite He. cbn [comp_bind].
  case_bool_decide as Ha; [|by eexists; split]. exists b. split; [done|]. intros ->. constructor; eauto.
Qed.

Lemma check_multiple_ok p commands fb :
  commands <> [] -> exists e, check_multiple_with_options p commands fb match_options = Ok e /\ strictest e /\
    matched_rules e = commands ≫= (fun c => matches_for_command_with_options p c (Some fb) match_options).
Proof using.
  intros Hne. pose proof (check_multiple_spec p commands fb match_options) as H.
  destruct (check_multiple_with_options _ _ _ _); try done. destruct H as (_ & ? & ?). eauto.
Qed.

Lemma requested_ok prefix ms p commands fb :
  exists r, derive_requested_execpolicy_amendment_from_prefix_rule prefix ms p commands fb = Ok r.
Proof using.
  unfold derive_requested_execpolicy_amendment_from_prefix_rule. destruct prefix as [[|x l]|]; try (by eexists).
  destruct (existsb _ BANNED_PREFIX_SUGGESTIONS); [by eexists|]. destruct (existsb is_policy_match ms); [by eexists|].
  unfold prefix_rule_would_approve_all_commands. cbn [add_prefix_rule].
  edestruct all_allowed_ok as (b & -> & _). by eexists.
Qed.

(** A command that is let through: its rules allow it, or it has none and the
    heuristic does. *)
Definition let_through (p : Policy) (fb : list str -> Decision) (c : list str) : Prop :=
  (explicitly_allowed p c = true /\
   Forall (fun m => match_decision m = Allow) (matches_for_command_with_options p c None match_options)) \/
  (matches_for_command_with_options p c None match_options = [] /\ fb c = Allow).

Lemma matches_fallback_cases p c fb o :
  (matches_for_command_with_options p c None o = [] /\
   matches_for_command_with_options p c (Some fb) o = [HeuristicsRuleMatch c (fb c)]) \/
  (matches_for_command_with_options p c None o <> [] /\
   matches_for_command_with_options p c (Some fb) o = matches_for_command_with_options p c None o).
Proof using. unfold matches_for_command_with_options. case_match; [left|right]; done. Qed.

Lemma rule_matches_policy p c o m :
  m ∈ matches_for_command_with_options p c None o -> is_policy_match m = true.
Proof using.
  unfold matches_for_command_with_options. set (matched := match _ with Some l => l | None => _ end).
  assert (m ∈ matched -> is_policy_match m = true) as H; [|by destruct matched].
  intros Hm. unfold matched in Hm. clear matched.
  assert (forall m cmd (rs : list PrefixRule), m ∈ omap (rule_matches cmd) rs -> is_policy_match m = true) as Hr.
  { clear Hm m. intros m cmd rs (r & _ & Hm')%list_elem_of_omap. unfold rule_matches in Hm'.
    destruct (matches_prefix _ _); cbn in Hm'; by simplify_eq. }
  assert (m ∈ match_host_executable_rules p c -> is_policy_match m = true) as Hh.
  { unfold match_host_executable_rules. destruct c as [|h tl]; [by intros ?%not_elem_of_nil|].
    destruct (from_absolute_path h) as [prog|]; [|by intros ?%not_elem_of_nil].
    destruct (executable_path_lookup_key prog) as [b|]; [|by intros ?%not_elem_of_nil].
    destruct (rules_by_program p !! b) as [rs|]; [|by intros ?%not_elem_of_nil].
    destruct (match host_executables_by_name p !! b with Some _ => _ | None => _ end); [by intros ?%not_elem_of_nil|].
    intros (m' & -> & Hm')%list_elem_of_fmap. apply Hr in Hm'. by destruct m'. }
  assert (forall l, match_exact_rules p c = Some l -> m ∈ l -> is_policy_match m = true) as Hx.
  { intros l. unfold match_exact_rules. destruct c as [|h tl]; [done|]. intros [= <-].
    destruct (rules_by_program p !! h); [apply Hr|by intros ?%not_elem_of_nil]. }
  revert Hm. destruct (match_exact_rules p c) as [[|m1 l]|] eqn:E; [|intros; by eapply Hx|];
    (destruct (resolve_host_executables o); [|by intros ?%not_elem_of_nil]);
    destruct (match_host_executable_rules p c) eqn:Eh; cbn; auto; by intros ?%not_elem_of_nil.
Qed.

Lemma allow_lets_through p commands fb e :
  check_multiple_with_options p commands fb match_options = Ok e -> evaluated e = Allow ->
  Forall (let_through p fb) commands.
Proof using.
  intros He Ha. pose proof (check_multiple_spec p commands fb match_options) as Hs. rewrite He in Hs.
  destruct Hs as (_ & [_ Hmax] & Hm). apply Forall_forall. intros c Hc.
  assert (Forall (fun m => match_decision m = Allow) (matches_for_command_with_options p c (Some fb) match_options)) as Hall.
  { apply Forall_forall. intros m Hm'. apply rank_inj. specialize (Hmax m). rewrite Ha, Hm in Hmax. cbn in *.
    apply Nat.le_0_r, Hmax, list_elem_of_bind. by exists c. }
  destruct (matches_fallback_cases p c fb match_options) as [[Hn Hf]|[Hn Hf]]; rewrite Hf in Hall.
  - right. split; [done|]. by apply Forall_cons in Hall as [? _].
  - left. split; [|done]. unfold explicitly_allowed.
    destruct (matches_for_command_with_options p c None match_options) as [|m l] eqn:E; [done|].
    apply Forall_cons in Hall as [Hd _]. cbn. unfold is_decision at 1. rewrite bool_decide_eq_true_2 by done.
    rewrite (rule_matches_policy p c match_options m); [done|]. rewrite E. apply list_elem_of_here.
Qed.

(** The parts of a requirement *)
Lemma create_requirement_inv p req :
  exists commands complex e requested,
    commands_for_exec_policy (req_command req) = Ok (commands, complex) /\ commands <> [] /\
    check_multiple_with_options p commands (exec_policy_fallback linux debug (request_context req complex)) match_options = Ok e /\
    (if negb complex
     then derive_requested_execpolicy_amendment_from_prefix_rule (req_prefix_rule req) (matched_rules e) p commands
            (exec_policy_fallback linux debug (request_context req complex))
     else Ok None) = Ok requested /\
    exists r, create_exec_approval_requirement_for_command linux debug p req = Ok r /\
      match evaluated e, r with
      | Forbidden, RequirementForbidden _ => True
      | Prompt, RequirementForbidden _ => True
      | Prompt, NeedsApproval _ _ => req_approval_policy req <> Never
      | Allow, Skip bypass _ => bypass = forallb (explicitly_allowed p) commands
      | _, _ => False
      end.
Proof using.
  destruct (commands_for_exec_policy_ok (req_command req)) as (commands & complex & Hc & Hne).
  set (fb := exec_policy_fallback linux debug (request_context req complex)).
  destruct (check_multiple_ok p commands fb Hne) as (e & He & _).
  assert (exists requested, (if negb complex
     then derive_requested_execpolicy_amendment_from_prefix_rule (req_prefix_rule req) (matched_rules e) p commands fb
     else Ok None) = Ok requested) as [requested Hr].
  { destruct (negb complex); [apply requested_ok|by eexists]. }
  exists commands, complex, e, requested. split_and!; try done.
  unfold create_exec_approval_requirement_for_command. rewrite Hc. cbn [comp_bind]. fold fb. rewrite He.
  cbn [comp_bind]. rewrite Hr. cbn [comp_bind]. eexists. split; [reflexivity|].
  destruct (evaluated e); [done| |done]. unfold prompt_is_rejected_by_policy.
  destruct (req_approval_policy req); try done. by repeat case_match.
Qed.
End approval_theorems.

(** C11: deciding what a command needs always returns, and it is sound: nothing
    is run without asking unless every command of the command line is let
    through, by rules that all allow it or, when no rule matches, by the
    heuristic; the sandbox is bypassed exactly when every single command has a
    rule that allows it; and a user who set the policy to never be asked is never
    asked. *)
Theorem exec_approval_sound {grammar : BashGrammar} {shlex : Shlex} {env : ProcessEnv} linux debug p req :
  exists r, create_exec_approval_requirement_for_command linux debug p req = Ok r /\
    match r with
    | Skip bypass_sandbox _ =>
        exists commands complex,
          commands_for_exec_policy (req_command req) = Ok (commands, complex) /\ commands <> [] /\
          Forall (let_through p (exec_policy_fallback linux debug (request_context req complex))) commands /\
          (bypass_sandbox = true <-> Forall (fun c => explicitly_allowed p c = true) commands)
    | NeedsApproval _ _ => req_approval_policy req <> Never
    | RequirementForbidden _ => True
    end.
Proof.
  destruct (create_requirement_inv linux debug p req) as (commands & complex & e & requested & Hc & Hne & He & _ & r & Hr & Hm).
  exists r. split; [done|]. destruct (evaluated e) eqn:Ee, r; try done. subst.
  exists commands, complex. split_and!; try done; [by eapply allow_lets_through|]. apply forallb_Forall.
Qed.

Lemma fallback_unless_trusted {grammar : BashGrammar} linux debug ctx c :
  approval_policy ctx = UnlessTrusted -> exec_policy_fallback linux debug ctx c = Allow ->
  is_known_safe_command linux debug c = Ok true /\ used_complex_parsing ctx = false.
Proof.
  intros Hp. unfold exec_policy_fallback, render_decision_for_unmatched_command.
  destruct (known_safe_ok linux debug c) as [b ->]. cbn [comp_bind]. rewrite Hp.
  destruct b, (used_complex_parsing ctx); try done; cbn;
    destruct (dangerous_ok c) as [d ->]; cbn; by destruct d.
Qed.

(** The promise of the [untrusted] setting: a command line runs without
    asking only if every command in it is allowed by the rules that match it, or
    is matched by none and known to be safe; a command line that had to be
    parsed through its here-document runs unasked only by rules. *)
Theorem unless_trusted_asks {grammar : BashGrammar} {shlex : Shlex} {env : ProcessEnv} linux debug p req bypass a :
  req_approval_policy req = UnlessTrusted ->
  create_exec_approval_requirement_for_command linux debug p req = Ok (Skip bypass a) ->
  exists commands complex,
    commands_for_exec_policy (req_command req) = Ok (commands, complex) /\ commands <> [] /\
    Forall (fun c =>
      (explicitly_allowed p c = true /\
       Forall (fun m => match_decision m = Allow) (matches_for_command_with_options p c None match_options)) \/
      (matches_for_command_with_options p c None match_options = [] /\
       is_known_safe_command linux debug c = Ok true /\ complex = false)) commands.
Proof.
  intros Hp Hs.
  destruct (create_requirement_inv linux debug p req) as (commands & complex & e & requested & Hc & Hne & He & _ & r & Hr & Hm).
  rewrite Hs in Hr. simplify_eq. destruct (evaluated e) eqn:Ee; try done.
  exists commands, complex. split_and!; [done|done|]. eapply Forall_impl; [by eapply allow_lets_through|].
  intros c [?|[Hn Hf]]; [by left|right]. split; [done|]. by apply fallback_unless_trusted in Hf.
Qed.

(** A rule the model proposes and the user accepts does what it was proposed
    for: when the prefix of a request is offered as an amendment, adding it to
    the policy lets the same command line run without asking again. *)
Theorem requested_amendment_suffices {grammar : BashGrammar} {shlex : Shlex} {env : ProcessEnv} linux debug p req
    commands complex e a :
  commands_for_exec_policy (req_command req) = Ok (commands, complex) ->
  check_multiple_with_options p commands (exec_policy_fallback linux debug (request_context req complex)) match_options = Ok e ->
  derive_requested_execpolicy_amendment_from_prefix_rule (req_prefix_rule req) (matched_rules e) p commands
    (exec_policy_fallback linux debug (request_context req complex)) = Ok (Some a) ->
  exists p' bypass a',
    add_prefix_rule (amendment_command a) Allow p = Ok p' /\
    create_exec_approval_requirement_for_command linux debug p' req = Ok (Skip bypass a').
Proof.
  intros Hc _ Ha. set (fb := exec_policy_fallback linux debug (request_context req complex)) in *.
  unfold derive_requested_execpolicy_amendment_from_prefix_rule in Ha.
  destruct (req_prefix_rule req) as [[|x l]|]; try done.
  destruct (existsb _ BANNED_PREFIX_SUGGESTIONS); [done|]. destruct (existsb is_policy_match _); [done|].
  unfold prefix_rule_would_approve_all_commands in Ha.
  destruct (add_prefix_rule (x :: l) Allow p) as [p'| | |] eqn:Hp; try done.
  destruct (all_allowed_ok p' fb commands) as (b & Hb & Hall). rewrite Hb in Ha. cbn [comp_bind] in Ha.
  destruct b; simplify_eq. specialize (Hall eq_refl).
  destruct (create_requirement_inv linux debug p' req) as (commands' & complex' & e' & requested & Hc' & Hne & He & _ & r & Hr & Hm).
  rewrite Hc in Hc'. simplify_eq. fold fb in He.
  pose proof (check_multiple_spec p' commands' fb match_options) as Hs. rewrite He in Hs.
  destruct Hs as (_ & [(m & Hin & Hd) _] & Hms). rewrite Hms in Hin. apply list_elem_of_bind in Hin as (c & Hm' & Hc').
  rewrite Forall_forall in Hall. destruct (Hall c Hc') as (e1 & He1 & Ha1).
  pose proof (from_matches_spec (matches_for_command_with_options p' c (Some fb) match_options)) as H1.
  unfold check_with_options in He1. rewrite He1 in H1. destruct H1 as [Hm1 [_ Hmax]].
  assert (evaluated e' = Allow) as Ee.
  { rewrite <- Hd. apply rank_inj. rewrite Hm1, Ha1 in Hmax. specialize (Hmax m Hm'). cbn in *. lia. }
  rewrite Ee in Hm. destruct r as [b a'| |]; try done. cbn [amendment_command]. by exists p', b, a'.
Qed.

(** ** Concrete requests *)

Definition demo_env : ProcessEnv := {| home_dir := None; env_current_dir := Some (&"/") |}.
Definition demo_shlex : Shlex := {| shlex_try_join := fun args => Some (join (&" ") args) |}.
Definition ls_grammar : BashGrammar := one_command_grammar (&"ls") [&"-l"].

Definition demo_request (command : list str) (prefix_rule : option (list str)) : ExecApprovalRequest :=
  {| req_command := command; req_approval_policy := UnlessTrusted; req_permission_profile := profile_read_only;
     req_sandbox_kind := Restricted; req_sandbox_permissions := UseDefault; req_prefix_rule := prefix_rule |}.

Lemma unless_trusted_asks_witness :
  exists commands complex,
    @commands_for_exec_policy ls_grammar [&"bash"; &"-lc"; &"ls -l"] = Ok (commands, complex) /\ commands <> [] /\
    Forall (fun c =>
      (@explicitly_allowed demo_env empty_policy c = true /\
       Forall (fun m => match_decision m = Allow) (@matches_for_command_with_options demo_env empty_policy c None match_options)) \/
      (@matches_for_command_with_options demo_env empty_policy c None match_options = [] /\
       @is_known_safe_command ls_grammar true true c = Ok true /\ complex = false)) commands.
Proof.
  apply (@unless_trusted_asks ls_grammar demo_shlex demo_env true true empty_policy
    (demo_request [&"bash"; &"-lc"; &"ls -l"] None) false (Some {| amendment_command := [&"ls"; &"-l"] |})).
  - reflexivity.
  - vm_compute. reflexivity.
Defined.

Lemma requested_amendment_suffices_witness :
  exists p' bypass a',
    add_prefix_rule [&"npm"; &"test"] Allow empty_policy = Ok p' /\
    @create_exec_approval_requirement_for_command ls_grammar demo_shlex demo_env true true p'
      (demo_request [&"npm"; &"test"; &"--watch"] (Some [&"npm"; &"test"])) = Ok (Skip bypass a').
Proof.
  apply (@requested_amendment_suffices ls_grammar demo_shlex demo_env true true empty_policy
    (demo_request [&"npm"; &"test"; &"--watch"] (Some [&"npm"; &"test"])) [[&"npm"; &"test"; &"--watch"]] false
    {| evaluated := Prompt; matched_rules := [HeuristicsRuleMatch [&"npm"; &"test"; &"--watch"] Prompt] |}
    {| amendment_command := [&"npm"; &"test"] |}); vm_compute; reflexivity.
Defined.
