(* ===== verification/PatchSafety.v ===== *)
(** * core/src/safety.rs: whether a patch needs the user

    A verified patch is approved without asking when every path it names is
    writable under the file system policy and a sandbox can hold it to that; with
    the handler of core/src/apply_patch.rs and the choice of a sandbox of
    sandboxing/src/manager.rs. *)
From S2P Require Import Prelude RustStr RustPath AbsolutePath PatchParser ApplyPatch PatchFs Invocation.
From S2P Require Import ExecPolicy PathPrefix Permissions PermissionFacts PermissionChanges Profiles ExecApproval.

(** ** Sandboxes *)

Inductive SandboxType := NoSandbox | MacosSeatbelt | LinuxSeccomp | WindowsRestrictedToken.

#[export] Instance SandboxType_eq_dec : EqDecision SandboxType.
Proof. solve_decision. Defined.

Inductive WindowsSandboxLevel := LevelDisabled | RestrictedToken | Elevated.
Definition level_enabled (l : WindowsSandboxLevel) : bool := match l with LevelDisabled => false | _ => true end.

Inductive SandboxablePreference := Auto | Require | Forbid.

(** The operating system of the build *)
Inductive TargetOs := Macos | Linux | Windows | OtherOs.

Definition get_platform_sandbox (os : TargetOs) (windows_sandbox_enabled : bool) : option SandboxType :=
  match os with
  | Macos => Some MacosSeatbelt
  | Linux => Some LinuxSeccomp
  | Windows => if windows_sandbox_enabled then Some WindowsRestrictedToken else None
  | OtherOs => None
  end.

Definition select_initial (os : TargetOs) (p : FileSystemSandboxPolicy) (net : NetworkSandboxPolicy)
    (pref : SandboxablePreference) (level : WindowsSandboxLevel) (has_managed_network_requirements : bool) : SandboxType :=
  match pref with
  | Forbid => NoSandbox
  | Require => default NoSandbox (get_platform_sandbox os (level_enabled level))
  | Auto =>
      if should_require_platform_sandbox p net has_managed_network_requirements
      then default NoSandbox (get_platform_sandbox os (level_enabled level))
      else NoSandbox
  end.

(** ** The check *)

Inductive SafetyCheck :=
| AutoApprove (sandbox_type : SandboxType) (user_explicitly_approved : bool)
| AskUser
| Reject (reason : str).

Definition PATCH_REJECTED_OUTSIDE_PROJECT_REASON : str :=
  &"writing outside of the project; rejected by user approval settings".
Definition PATCH_REJECTED_READ_ONLY_REASON : str :=
  &"writing is blocked by read-only sandbox; rejected by user approval settings".

(** [PathBuf::pop]: neither the root nor an empty path has a last component. *)
Definition pop_component (out : list component) : list component :=
  match out with
  | [] | [RootDir] => out
  | _ :: out => out
  end.

(** The path that [normalize] builds, last component first; pushing the root replaces it. *)
Definition normalize_push (out : list component) (c : component) : list component :=
  match c with
  | ParentDir => pop_component out
  | CurDir => out
  | RootDir => [RootDir]
  | Normal _ => c :: out
  end.
Definition normalize (path : str) : str := render (reverse (foldl normalize_push [] (components path))).

(** core/src/util.rs *)
Definition util_resolve_path (base path : str) : str := if is_absolute path then path else path_join base path.

Section host.
Context `{Hfs : !HostFs, Henv : !ProcessEnv} (os : TargetOs).

Definition is_patch_path_writable (p : FileSystemSandboxPolicy) (cwd path : str) : bool :=
  can_write_path_with_cwd p (normalize (util_resolve_path cwd path)) cwd.

Definition change_is_writable (p : FileSystemSandboxPolicy) (cwd : str) (change : str * ApplyPatchFileChange) : bool :=
  match change.2 with
  | FileAdd _ | FileDelete _ => is_patch_path_writable p cwd change.1
  | FileUpdate _ move_path _ =>
      is_patch_path_writable p cwd change.1 &&
      match move_path with Some dest => is_patch_path_writable p cwd dest | None => true end
  end.

(** The loop returns at the first path that is not writable; the order of the map
    plays no role. *)
Definition is_write_patch_constrained_to_writable_paths (action : ApplyPatchAction) (p : FileSystemSandboxPolicy) (cwd : str)
  : bool := forallb (change_is_writable p cwd) (map_to_list (action_changes action)).

Definition patch_rejection_reason (profile : PermissionProfile) (p : FileSystemSandboxPolicy) (cwd : str) : str :=
  match profile with
  | Managed _ _ =>
      if negb (has_full_disk_write_access p) && bool_decide (length (get_writable_roots_with_cwd p cwd) = 0)
      then PATCH_REJECTED_READ_ONLY_REASON
      else PATCH_REJECTED_OUTSIDE_PROJECT_REASON
  | Disabled | External _ => PATCH_REJECTED_OUTSIDE_PROJECT_REASON
  end.

Definition assess_patch_safety (action : ApplyPatchAction) (policy : AskForApproval) (profile : PermissionProfile)
    (p : FileSystemSandboxPolicy) (cwd : str) (level : WindowsSandboxLevel) : SafetyCheck :=
  if bool_decide (action_changes action = ∅) then Reject (&"empty patch")
  else
    match policy with
    | UnlessTrusted => AskUser
    | OnFailure | Never | OnRequest | Granular _ =>
        let rejects_sandbox_approval :=
          match policy with Never => true | Granular c => negb (sandbox_approval c) | _ => false end in
        let on_failure := match policy with OnFailure => true | _ => false end in
        if is_write_patch_constrained_to_writable_paths action p cwd || on_failure then
          match profile with
          | Disabled | External _ => AutoApprove NoSandbox false
          | Managed _ _ =>
              match get_platform_sandbox os (level_enabled level) with
              | Some sandbox_type => AutoApprove sandbox_type false
              | None =>
                  if rejects_sandbox_approval then Reject (patch_rejection_reason profile p cwd) else AskUser
              end
          end
        else if rejects_sandbox_approval then Reject (patch_rejection_reason profile p cwd)
        else AskUser
    end.

(** ** core/src/apply_patch.rs *)

Inductive InternalApplyPatchInvocation :=
| Output (error : str)
| DelegateToRuntime (action : ApplyPatchAction) (auto_approved : bool) (requirement : ExecApprovalRequirement).

Definition apply_patch (action : ApplyPatchAction) (policy : AskForApproval) (profile : PermissionProfile)
    (p : FileSystemSandboxPolicy) (level : WindowsSandboxLevel) : InternalApplyPatchInvocation :=
  match assess_patch_safety action policy profile p (action_cwd action) level with
  | AutoApprove _ user_explicitly_approved =>
      DelegateToRuntime action (negb user_explicitly_approved) (Skip false None)
  | AskUser => DelegateToRuntime action false (NeedsApproval None None)
  | Reject reason => Output (&"patch rejected: " ++ reason)
  end.

Inductive FileChange := ChangeAdd (content : str) | ChangeDelete (content : str) | ChangeUpdate (unified_diff : str) (move_path : option str).

Definition convert_apply_patch_to_protocol (action : ApplyPatchAction) : gmap str FileChange :=
  (fun change => match change with
                 | FileAdd content => ChangeAdd content
                 | FileDelete content => ChangeDelete content
                 | FileUpdate unified_diff move_path _ => ChangeUpdate unified_diff move_path
                 end) <$> action_changes action.

(** ** Theorems *)

Lemma normalize_normal p : normal_absolute p -> normalize p = p.
Proof.
  intros (E & _ & C)%normal_absolute_names. unfold normalize. rewrite C. cbn [foldl normalize_push].
  assert (forall names acc, foldl normalize_push (map Normal acc ++ [RootDir]) (map Normal names) =
    map Normal (reverse names ++ acc) ++ [RootDir]) as Hf.
  { induction names as [|n names IH]; intros acc; cbn [map foldl]; [done|].
    change (normalize_push (map Normal acc ++ [RootDir]) (Normal n)) with (map Normal (n :: acc) ++ [RootDir]).
    rewrite IH. by rewrite reverse_cons, <- (assoc_L (++)). }
  specialize (Hf (names_of p) []). cbn [map app] in Hf. rewrite Hf, app_nil_r, reverse_app, <- map_reverse, reverse_involutive.
  by rewrite E at 2.
Qed.

Lemma is_patch_path_writable_normal pol cwd p :
  normal_absolute p -> is_patch_path_writable pol cwd p = can_write_path_with_cwd pol p cwd.
Proof.
  intros Hp. unfold is_patch_path_writable, util_resolve_path. rewrite normal_is_absolute by done. by rewrite normalize_normal.
Qed.

(** Every path of a change can be written. *)
Definition change_allowed (pol : FileSystemSandboxPolicy) (cwd p : str) (c : ApplyPatchFileChange) : Prop :=
  is_patch_path_writable pol cwd p = true /\
  forall d dest n, c = FileUpdate d (Some dest) n -> is_patch_path_writable pol cwd dest = true.

Lemma constrained_spec action pol cwd :
  is_write_patch_constrained_to_writable_paths action pol cwd = true <->
  forall p c, action_changes action !! p = Some c -> change_allowed pol cwd p c.
Proof.
  unfold is_write_patch_constrained_to_writable_paths. rewrite forallb_Forall, Forall_forall. unfold change_allowed. split.
  - intros H p c Hc. specialize (H (p, c)). rewrite elem_of_map_to_list in H. specialize (H Hc). unfold change_is_writable in H.
    cbn in H. destruct c as [x|x|diff mv new]; [done..|]. apply andb_prop in H as [H1 H2]. split; [done|].
    intros d dest n [= _ -> _]. done.
  - intros H [p c] [H1 H2]%elem_of_map_to_list%H. unfold change_is_writable. cbn. destruct c as [x|x|diff mv new]; [done..|].
    rewrite H1. destruct mv as [dest|]; [|done]. by eapply H2.
Qed.

Lemma assess_auto_approve action policy profile pol cwd level st user :
  assess_patch_safety action policy profile pol cwd level = AutoApprove st user ->
  user = false /\ action_changes action <> ∅ /\ policy <> UnlessTrusted /\
  (policy = OnFailure \/ is_write_patch_constrained_to_writable_paths action pol cwd = true) /\
  match profile with
  | Managed _ _ => get_platform_sandbox os (level_enabled level) = Some st
  | Disabled | External _ => st = NoSandbox
  end.
Proof.
  unfold assess_patch_safety. case_bool_decide as He; [done|].
  destruct (is_write_patch_constrained_to_writable_paths action pol cwd); cbn [orb];
    destruct policy as [| | |g|]; cbn [orb]; try done; destruct profile as [fs net| |net]; cbn [orb];
    try (destruct (get_platform_sandbox os (level_enabled level)) as [x|]);
    try (destruct (negb (sandbox_approval g))); intros [= <- <-]; split_and!; auto.
Qed.

(** The verdict on a patch.  It is approved without asking only when it changes
    something, the approval policy is not to ask for everything, every path it
    writes, removes or moves to is writable under the file system policy (or the
    policy is to ask on failure only), and either the profile applies no sandbox of
    its own or the platform has one.  When prompts for the sandbox are rejected, by
    the policy never to ask or by the granular setting, nobody is asked; and an
    empty patch is rejected under every policy. *)
Theorem patch_safety_verdict (action : ApplyPatchAction) (policy : AskForApproval) (profile : PermissionProfile)
    (pol : FileSystemSandboxPolicy) (cwd : str) (level : WindowsSandboxLevel) :
  let verdict := assess_patch_safety action policy profile pol cwd level in
  (forall st user, verdict = AutoApprove st user ->
     user = false /\ policy <> UnlessTrusted /\ action_changes action <> ∅ /\
     (policy = OnFailure \/ forall p c, action_changes action !! p = Some c -> change_allowed pol cwd p c) /\
     match profile with
     | Managed _ _ => get_platform_sandbox os (level_enabled level) = Some st
     | Disabled | External _ => st = NoSandbox
     end) /\
  (policy = Never \/ (exists c, policy = Granular c /\ sandbox_approval c = false) -> verdict <> AskUser) /\
  (action_changes action = ∅ -> verdict = Reject (&"empty patch")).
Proof.
  cbv zeta. split_and!.
  - intros st user (-> & Hne & Hp & Hw & Hs)%assess_auto_approve. split_and!; [done..| |done].
    destruct Hw as [->|Hw]; [by left|right]. by apply constrained_spec.
  - unfold assess_patch_safety. intros [->|(c & -> & Hc)]; (case_bool_decide; [done|]); rewrite ?Hc; cbn [negb];
      destruct (_ || _), profile, (get_platform_sandbox os (level_enabled level)); done.
  - intros He. unfold assess_patch_safety. by rewrite bool_decide_eq_true_2.
Qed.
End host.

(** ** From the check to the disk *)

(** Paths are resolved the way [AbsolutePathBuf] does it. *)
#[export] Instance absolute_path_ops `{Henv : !ProcessEnv} : PathOps := {|
  PatchFs.resolve_path_against_base := AbsolutePath.resolve_path_against_base;
  parent_of p := match AbsolutePath.parent p with Some q => if decide (q = p) then None else Some q | None => None end
|}.

Section disk.
Context `{Hfs : !HostFs, Henv : !ProcessEnv} {fs : Type} `{Hex : !ExecutorFileSystem fs, Hlaws : !FileSystemLaws fs}.
Context (diff : nat -> str -> str -> str) (os : TargetOs).

Lemma touched_normal (cwd : str) (h : Hunk) (q : str) : normal_absolute cwd -> q ∈ touched cwd h -> normal_absolute q.
Proof.
  intros Hcwd [->|Hq]%elem_of_cons.
  - unfold hunk_target. destruct h; by apply resolve_base_normal.
  - unfold hunk_dest in Hq. destruct h as [| |path [dest|] chunks]; try by apply not_elem_of_nil in Hq.
    apply list_elem_of_singleton in Hq as ->. by apply resolve_base_normal.
Qed.

(** C7: a patch approved without asking changes only what the policy lets a command
    write.  For a patch verified in a normalised directory whose paths are plain and
    named once, and an approval policy other than asking on failure: when the check
    approves it, applying its hunks has an effect, and every file that differs
    afterwards, moves included, can be written under the file system policy. *)
Theorem auto_approved_patch_stays_in_policy (args : ApplyPatchArgs) (cwd : str) (d : fs) (action : ApplyPatchAction)
    (policy : AskForApproval) (profile : PermissionProfile) (pol : FileSystemSandboxPolicy) (level : WindowsSandboxLevel)
    (st : SandboxType) (user : bool) :
  verify_apply_patch_args diff args cwd d = Ok (Body action) ->
  Forall (fun h => plain_path (hunk_target (action_cwd action) h) d = true) (hunks args) ->
  NoDup (hunks args ≫= touched (action_cwd action)) ->
  normal_absolute (action_cwd action) -> policy <> OnFailure ->
  assess_patch_safety os action policy profile pol (action_cwd action) level = AutoApprove st user ->
  exists after, hunks_effect (action_cwd action) (hunks args) (files d) = Some after /\
    forall q, after !! q <> files d !! q -> can_write_path_with_cwd pol q (action_cwd action) = true.
Proof.
  unfold verify_apply_patch_args. cbv zeta. set (cwd' := match workdir args with Some _ => _ | None => _ end).
  destruct (verify_loop diff cwd' (hunks args) ∅ d) as [ch| | |] eqn:E; intros [= <-]; cbn [action_cwd].
  intros Hp Hnd Hcwd Hpol (_ & _ & _ & Hw & _)%assess_auto_approve. destruct Hw as [|Hw]; [done|].
  destruct (verify_loop_effect diff _ _ _ _ _ (files d) E Hp Hnd (fun _ _ => eq_refl)) as (after & Ha & Hframe & _).
  exists after. split; [done|]. intros q Hq.
  assert (q ∈ hunks args ≫= touched cwd') as (h & Hqh & Hh)%list_elem_of_bind.
  { destruct (decide (q ∈ hunks args ≫= touched cwd')) as [|Hn]; [done|]. by apply Hframe in Hn. }
  destruct (verify_loop_records diff cwd' (hunks args) ∅ ch d E (NoDup_targets _ _ Hnd)) as [_ Hrec].
  destruct (Hrec h Hh) as (c & Hc & Hl). rewrite constrained_spec in Hw. destruct (Hw _ _ Hl) as [H1 H2].
  rewrite <- (is_patch_path_writable_normal pol cwd' q) by by eapply touched_normal.
  apply elem_of_cons in Hqh as [->|Hqd]; [done|]. destruct (hunk_dest cwd' h) as [dest|] eqn:Ed; [|by apply not_elem_of_nil in Hqd].
  apply list_elem_of_singleton in Hqd as ->. destruct (hunk_change_dest _ _ _ _ _ _ Hc Ed) as (u & n & ->). by eapply H2.
Qed.
End disk.

(** ** Witnesses *)

Import MapFs.
#[local] Existing Instances demo_host MapFs.env.
#[local] Instance map_laws : @FileSystemLaws MapFs.t _ absolute_path_ops := map_fs_laws.
#[local] Instance no_bash : TreeSitterBash := {| query_matches _ := inr [] |}.

Definition no_diff (n : nat) (a b : str) : str := [].

Lemma patch_safety_verdict_witness :
  assess_patch_safety Linux {| action_changes := {[ &"/w/a" := FileAdd [] ]}; action_patch := []; action_cwd := &"/w" |}
    Never profile_read_only demo_policy (&"/w") LevelDisabled <> AskUser.
Proof.
  apply (patch_safety_verdict Linux {| action_changes := {[ &"/w/a" := FileAdd [] ]}; action_patch := []; action_cwd := &"/w" |}
    Never profile_read_only demo_policy (&"/w") LevelDisabled). left. reflexivity.
Defined.

(** The policy of the demonstration lets [/w] be written, and so the patch that adds
    [/w/sub/b.txt] and moves [/w/a.txt] to [/w/c.txt] is approved. *)
Lemma auto_approved_patch_stays_in_policy_witness :
  exists action (after : gmap str str),
    assess_patch_safety Linux action OnRequest profile_read_only demo_policy (&"/w") LevelDisabled = AutoApprove LinuxSeccomp false /\
    forall q, after !! q <> files demo !! q -> can_write_path_with_cwd demo_policy q (&"/w") = true.
Proof.
  destruct (parse_patch approve_patch) as [args| | |] eqn:Ep; [|vm_compute in Ep; discriminate Ep..].
  destruct (verify_apply_patch_args no_diff args (&"/w") demo) as [[action| | |]| | |] eqn:Ev;
    try (exfalso; vm_compute in Ep; injection Ep as <-; vm_compute in Ev; discriminate Ev).
  assert (assess_patch_safety Linux action OnRequest profile_read_only demo_policy (&"/w") LevelDisabled = AutoApprove LinuxSeccomp false /\
    action_cwd action = &"/w" /\ Forall (fun h => plain_path (hunk_target (&"/w") h) demo = true) (hunks args) /\
    NoDup (hunks args ≫= touched (&"/w"))) as (Hs & Hc & Hp & Hn).
  { vm_compute in Ep. injection Ep as <-. vm_compute in Ev. injection Ev as <-. split_and!; [vm_compute; reflexivity|reflexivity| |].
    - cbn [hunks]. repeat constructor.
    - apply (bool_decide_unpack _). vm_compute. exact I. }
  pose proof (auto_approved_patch_stays_in_policy no_diff Linux args (&"/w") demo action OnRequest profile_read_only
    demo_policy LevelDisabled LinuxSeccomp false Ev) as Hw. rewrite Hc in Hw.
  destruct Hw as (after & _ & Hq); [exact Hp|exact Hn|apply normal_check_ok; vm_compute; reflexivity|discriminate|exact Hs|].
  exists action, after. split; [exact Hs|exact Hq].
Defined.

Definition hidden_move_patch : str :=
  join [nl]
    [&"*** Begin Patch"; &"*** Update File: a.txt"; &"*** Move to: /etc/x"; &"@@"; &"-two"; &"+2";
     &"*** Add File: a.txt"; &"+hi"; &"*** End Patch"].

(** The changes are kept by path: a later hunk for the same file hides the move of an
    earlier one, and the patch is approved although it writes outside the policy. *)
Lemma duplicate_target_hides_move :
  exists args action,
    parse_patch hidden_move_patch = Ok args /\ verify_apply_patch_args no_diff args (&"/w") demo = Ok (Body action) /\
    assess_patch_safety Linux action OnRequest profile_read_only demo_policy (&"/w") LevelDisabled = AutoApprove LinuxSeccomp false /\
    &"/etc/x" ∈ hunks args ≫= touched (&"/w") /\
    can_write_path_with_cwd demo_policy (&"/etc/x") (&"/w") = false.
Proof.
  destruct (parse_patch hidden_move_patch) as [args| | |] eqn:Ep; [|vm_compute in Ep; discriminate Ep..].
  destruct (verify_apply_patch_args no_diff args (&"/w") demo) as [[action| | |]| | |] eqn:Ev;
    try (exfalso; vm_compute in Ep; injection Ep as <-; vm_compute in Ev; discriminate Ev).
  exists args, action. split_and!; [reflexivity|exact Ev| | |vm_compute; reflexivity];
    vm_compute in Ep; injection Ep as <-; vm_compute in Ev; injection Ev as <-; [vm_compute; reflexivity|].
  apply (bool_decide_unpack _). vm_compute. exact I.
Qed.
