(* ===== verification/Orchestrator.v ===== *)
(** * core/src/tools/orchestrator.rs and core/src/tools/sandboxing.rs: approval, sandbox, attempt, retry

    Every tool call runs through the orchestrator: what the call needs before it
    runs, who is asked, under which sandbox the first attempt runs, and when a call
    that the sandbox stopped runs a second time without one.  The tool, the hooks,
    the reviewer and the network approvals are interfaces; a log of what was asked
    and what was run is kept beside the state of the world. *)
From S2P Require Import Prelude RustStr RustPath AbsolutePath ExecPolicy PathPrefix Permissions Profiles ExecApproval PatchSafety.

(** ** Decisions *)

Inductive NetworkPolicyRuleAction := RuleAllow | RuleDeny.
Record NetworkPolicyAmendment := { amendment_host : str; amendment_action : NetworkPolicyRuleAction }.

Inductive ReviewDecision :=
| Approved
| ApprovedExecpolicyAmendment (proposed : ExecPolicyAmendment)
| ApprovedForSession
| NetworkPolicyAmended (amendment : NetworkPolicyAmendment)
| Denied
| TimedOut
| AbortTurn.

(** *** core/src/network_policy_decision.rs *)

Inductive NetworkPolicyDecision := NetDeny | NetAsk.
Inductive NetworkDecisionSource := BaselinePolicy | ModeGuard | ProxyState | Decider.

Record NetworkPolicyDecisionPayload := {
  payload_decision : NetworkPolicyDecision;
  payload_source : NetworkDecisionSource;
  payload_protocol : option NetworkRuleProtocol;
  payload_host : option str
}.
Record NetworkApprovalContext := { ctx_host : str; ctx_protocol : NetworkRuleProtocol }.

Definition is_ask_from_decider (p : NetworkPolicyDecisionPayload) : bool :=
  match payload_decision p, payload_source p with NetAsk, Decider => true | _, _ => false end.

Definition parse_network_policy_decision (value : str) : option NetworkPolicyDecision :=
  if str_eqb value (&"deny") then Some NetDeny else if str_eqb value (&"ask") then Some NetAsk else None.

Definition network_approval_context_from_payload (p : NetworkPolicyDecisionPayload) : option NetworkApprovalContext :=
  if negb (is_ask_from_decider p) then None
  else
    protocol ← payload_protocol p;
    host ← option_map trim (payload_host p);
    if str_eqb host [] then None else Some {| ctx_host := host; ctx_protocol := protocol |}.

(** The fields of a [BlockedRequest] that are read *)
Definition denied_network_policy_message (blocked_host reason : str) (decision : option str) : option str :=
  match decision ≫= parse_network_policy_decision with
  | Some NetDeny =>
      let host := trim blocked_host in
      if str_eqb host [] then Some (&"Network access was blocked by policy.")
      else
        let detail :=
          if str_eqb reason (&"denied") then &"domain is explicitly denied by policy and cannot be approved from this prompt"
          else if str_eqb reason (&"not_allowed") then &"domain is not on the allowlist for the current sandbox mode"
          else if str_eqb reason (&"not_allowed_local") then &"local/private network addresses are blocked by the sandbox policy"
          else if str_eqb reason (&"method_not_allowed") then &"request method is blocked by the current network mode"
          else if str_eqb reason (&"proxy_disabled") then &"network proxy is disabled"
          else &"request is blocked by network policy" in
        Some (&"Network access to " ++ [34%N] ++ host ++ [34%N] ++ &" was blocked: " ++ detail ++ &".")
  | _ => None
  end.

Record ExecPolicyNetworkRuleAmendment := {
  rule_protocol : NetworkRuleProtocol;
  rule_decision : Decision;
  rule_justification : str
}.

Definition execpolicy_network_rule_amendment (amendment : NetworkPolicyAmendment) (ctx : NetworkApprovalContext) (host : str)
  : ExecPolicyNetworkRuleAmendment :=
  let '(decision, action_verb) :=
    match amendment_action amendment with RuleAllow => (Allow, &"Allow") | RuleDeny => (Forbidden, &"Deny") end in
  let protocol_label :=
    match ctx_protocol ctx with
    | Http => &"http" | Https => &"https_connect" | Socks5Tcp => &"socks5_tcp" | Socks5Udp => &"socks5_udp"
    end in
  {| rule_protocol := ctx_protocol ctx; rule_decision := decision;
     rule_justification := action_verb ++ &" " ++ protocol_label ++ &" access to " ++ host |}.

(** ** core/src/tools/sandboxing.rs *)

Definition requires_escalated_permissions (p : SandboxPermissions) : bool :=
  match p with RequireEscalated => true | _ => false end.

Definition proposed_execpolicy_amendment (r : ExecApprovalRequirement) : option ExecPolicyAmendment :=
  match r with
  | NeedsApproval _ (Some prefix) | Skip _ (Some prefix) => Some prefix
  | _ => None
  end.

Definition default_exec_approval_requirement (policy : AskForApproval) (p : FileSystemSandboxPolicy) : ExecApprovalRequirement :=
  let needs_approval :=
    match policy with
    | Never | OnFailure => false
    | OnRequest | Granular _ => match kind p with Restricted => true | _ => false end
    | UnlessTrusted => true
    end in
  if needs_approval && match policy with Granular c => negb (sandbox_approval c) | _ => false end
  then RequirementForbidden (&"approval policy disallowed sandbox approval prompt")
  else if needs_approval then NeedsApproval None None
  else Skip false None.

Inductive SandboxOverride := NoOverride | BypassSandboxFirstAttempt.

Definition sandbox_override_for_first_attempt (permissions : SandboxPermissions) (requirement : ExecApprovalRequirement)
    (p : FileSystemSandboxPolicy) : SandboxOverride :=
  match requirement with
  | Skip true _ => BypassSandboxFirstAttempt
  | _ =>
      if has_denied_read_restrictions p then NoOverride
      else if requires_escalated_permissions permissions then BypassSandboxFirstAttempt
      else NoOverride
  end.

Definition managed_network_for_sandbox_permissions {N} (network : option N) (permissions : SandboxPermissions) : option N :=
  if requires_escalated_permissions permissions then None else network.

(** *** Approvals for the session *)

(** [ApprovalStore]: decisions by the JSON text of their key; [to_key] is
    [serde_json::to_string]. *)
Section cache.
Context {K W : Type} (to_key : K -> option str).

Definition store_get (store : gmap str ReviewDecision) (key : K) : option ReviewDecision := to_key key ≫= (store !!.).
Definition store_put (store : gmap str ReviewDecision) (key : K) (value : ReviewDecision) : gmap str ReviewDecision :=
  match to_key key with Some s => <[s := value]> store | None => store end.

Definition approved_for_session (store : gmap str ReviewDecision) (key : K) : bool :=
  match store_get store key with Some ApprovedForSession => true | _ => false end.

(** [fetch] asks; the store is not locked meanwhile and may change. *)
Definition with_cached_approval (keys : list K)
    (fetch : gmap str ReviewDecision * W -> ReviewDecision * (gmap str ReviewDecision * W))
    (s : gmap str ReviewDecision * W) : ReviewDecision * (gmap str ReviewDecision * W) :=
  match keys with
  | [] => fetch s
  | _ =>
      if forallb (approved_for_session s.1) keys then (ApprovedForSession, s)
      else
        let '(decision, (store, w)) := fetch s in
        match decision with
        | ApprovedForSession =>
            (decision, (foldl (fun store key => store_put store key ApprovedForSession) store keys, w))
        | _ => (decision, (store, w))
        end
  end.
End cache.

(** *** What the cache promises *)

Section cache_facts.
Context {K W : Type} (to_key : K -> option str).
Implicit Types (store : gmap str ReviewDecision) (keys : list K) (k : K).

Lemma store_put_all keys store s :
  foldl (fun store key => store_put to_key store key ApprovedForSession) store keys !! s =
  if decide (Some s ∈ map to_key keys) then Some ApprovedForSession else store !! s.
Proof.
  revert store. induction keys as [|k keys IH]; intros store; cbn [foldl map]; [by rewrite decide_False by apply not_elem_of_nil|].
  rewrite IH. unfold store_put. destruct (decide (Some s ∈ map to_key keys)) as [Hin|Hin].
  { by rewrite decide_True by by right. }
  destruct (to_key k) as [t|] eqn:Ek.
  - destruct (decide (t = s)) as [->|Hne].
    + rewrite lookup_insert_eq, decide_True; [done|]. by left.
    + rewrite lookup_insert_ne, decide_False; [done| |done]. intros [[= Heq]|?]%elem_of_cons; [by symmetry in Heq|done].
  - rewrite decide_False; [done|]. by intros [?|?]%elem_of_cons.
Qed.

(** The cache of approvals.  When every key of a request was approved for the
    session nobody is asked and nothing changes; otherwise the answer is the one
    given; only an approval for the session is remembered, for exactly the keys of
    the request and those with the same text; and from then on every request whose
    keys are among them is approved without asking. *)
Theorem cached_approval (keys keys' : list K)
    (fetch fetch' : gmap str ReviewDecision * W -> ReviewDecision * (gmap str ReviewDecision * W))
    (s s1 : gmap str ReviewDecision * W) (d : ReviewDecision) :
  keys <> [] -> Forall (fun k => to_key k <> None) keys -> fetch s = (d, s1) ->
  let r := with_cached_approval to_key keys fetch s in
  (forallb (approved_for_session to_key s.1) keys = true -> r = (ApprovedForSession, s)) /\
  (forallb (approved_for_session to_key s.1) keys = false ->
     r.1 = d /\ r.2.2 = s1.2 /\
     (d <> ApprovedForSession -> r.2.1 = s1.1) /\
     (forall k, approved_for_session to_key r.2.1 k = true <->
        approved_for_session to_key s1.1 k = true \/ d = ApprovedForSession /\ to_key k ∈ map to_key keys /\ to_key k <> None)) /\
  (r.1 = ApprovedForSession -> keys' <> [] -> (forall k, k ∈ keys' -> k ∈ keys) ->
     with_cached_approval to_key keys' fetch' r.2 = (ApprovedForSession, r.2)).
Proof.
  intros Hne Hser Hf r.
  assert (forall k, approved_for_session to_key (foldl (fun store key => store_put to_key store key ApprovedForSession) s1.1 keys) k = true <->
    approved_for_session to_key s1.1 k = true \/ to_key k ∈ map to_key keys /\ to_key k <> None) as Happ.
  { intros k. unfold approved_for_session, store_get. destruct (to_key k) as [t|]; cbn; [|naive_solver].
    rewrite store_put_all. case_decide; naive_solver. }
  assert (r = if forallb (approved_for_session to_key s.1) keys then (ApprovedForSession, s) else
    match d with ApprovedForSession => (d, (foldl (fun store key => store_put to_key store key ApprovedForSession) s1.1 keys, s1.2))
    | _ => (d, s1) end) as Er.
  { unfold r, with_cached_approval. destruct keys as [|k keys]; [done|]. rewrite Hf. destruct s1 as [store w]. by destruct (forallb _ _), d. }
  clearbody r. subst r. split_and!.
  - by intros ->.
  - intros ->. destruct d; cbn [fst snd]; split_and!; try done; intros k; rewrite ?Happ; naive_solver.
  - intros Hr Hne' Hsub. destruct keys' as [|k0 keys']; [done|]. unfold with_cached_approval.
    match goal with |- context [forallb ?f ?l] => assert (forallb f l = true) as ->; [|done] end.
    apply forallb_Forall, Forall_forall. intros k Hk%Hsub. destruct (forallb (approved_for_session to_key s.1) keys) eqn:Ef.
    + apply forallb_Forall in Ef. rewrite Forall_forall in Ef. by apply Ef.
    + destruct d; cbn in Hr; try done. cbn [fst snd]. apply Happ. right. rewrite Forall_forall in Hser. split; [|by apply Hser].
      apply list_elem_of_fmap. by exists k.
Qed.
End cache_facts.

Lemma cached_approval_witness :
  with_cached_approval (K := str) (W := unit) Some [&"a"] (fun s => (Denied, s))
    (with_cached_approval Some [&"a"; &"b"] (fun s => (ApprovedForSession, s)) (∅, tt)).2 =
  (ApprovedForSession, (with_cached_approval Some [&"a"; &"b"] (fun s => (ApprovedForSession, s)) (∅, tt)).2).
Proof.
  apply (cached_approval (K := str) (W := unit) Some [&"a"; &"b"] [&"a"] (fun s => (ApprovedForSession, s)) (fun s => (Denied, s))
    (∅, tt) (∅, tt) ApprovedForSession); [discriminate|repeat constructor; discriminate|reflexivity|vm_compute; reflexivity|discriminate|].
  intros k Hk. apply list_elem_of_singleton in Hk as ->. left.
Defined.

(** *** The trait [ToolRuntime] and the services behind it *)

Inductive ToolError (O E : Type) :=
| Rejected (reason : str)
| SandboxDenied (output : O) (network_policy_decision : option NetworkPolicyDecisionPayload)
| OtherError (e : E).
Arguments Rejected {O E} _.
Arguments SandboxDenied {O E} _ _.
Arguments OtherError {O E} _.

Inductive PermissionRequestDecision := HookAllow | HookDeny (message : str).

Record ApprovalCtx := {
  call_id : str;
  guardian_review_id : option str;
  retry_reason : option str;
  network_approval_context : option NetworkApprovalContext
}.

Record SandboxAttempt := {
  attempt_sandbox : SandboxType;
  attempt_permissions : PermissionProfile;
  enforce_managed_network : bool;
  attempt_sandbox_cwd : str;
  attempt_workspace_roots : list str;
  attempt_linux_sandbox_exe : option str;
  attempt_use_legacy_landlock : bool;
  attempt_windows_sandbox_level : WindowsSandboxLevel;
  attempt_private_desktop : bool;
  (** the cancellation token of a network approval is there *)
  attempt_network_cancellation : bool
}.

Inductive NetworkApprovalMode := Immediate | Deferred.

(** What a tool answers, and what it does to the world [W]; [O] is the output of a
    process, [E] an error that is no sandbox denial, [P] the payload of the hooks,
    [N] a network approval under way and [D] one that is put off. *)
Class ToolRuntime (W Rq Out O E P N D : Type) := {
  exec_approval_requirement : Rq -> option ExecApprovalRequirement;
  tool_sandbox_permissions : Rq -> SandboxPermissions;
  should_bypass_approval : AskForApproval -> bool -> bool;
  wants_no_sandbox_approval : AskForApproval -> bool;
  sandbox_preference : SandboxablePreference;
  escalate_on_failure : bool;
  permission_request_payload : Rq -> option P;
  tool_sandbox_cwd : Rq -> option str;
  start_approval : Rq -> ApprovalCtx -> W -> ReviewDecision * W;
  run_tool : Rq -> SandboxAttempt -> W -> (ToolError O E + Out) * W;
  (* services of the session *)
  run_permission_request_hooks : str -> P -> W -> option PermissionRequestDecision * W;
  new_guardian_review_id : W -> str * W;
  guardian_rejection_message : str -> W -> str * W;
  guardian_timeout_message : str;
  begin_network_approval : Rq -> bool -> W -> option N * W;
  approval_mode : N -> NetworkApprovalMode;
  into_deferred : N -> option D;
  finish_immediate_network_approval : N -> W -> option (ToolError O E) * W;
  finish_deferred_network_approval : option D -> W -> option (ToolError O E) * W
}.

(** The default methods of the trait *)
Definition default_should_bypass_approval (policy : AskForApproval) (already_approved : bool) : bool :=
  if already_approved then true else match policy with Never => true | _ => false end.
Definition default_wants_no_sandbox_approval (policy : AskForApproval) : bool :=
  match policy with
  | OnFailure | UnlessTrusted => true
  | Never | OnRequest => false
  | Granular c => sandbox_approval c
  end.
(** [ApplyPatchRuntime] *)
Definition apply_patch_wants_no_sandbox_approval (policy : AskForApproval) : bool :=
  match policy with
  | Never => false
  | Granular c => sandbox_approval c
  | OnFailure | OnRequest | UnlessTrusted => true
  end.

(** What the turn fixes *)
Record TurnContext := {
  turn_profile : PermissionProfile;
  strict_auto_review : bool;
  routes_to_guardian : bool;
  has_network_proxy : bool;
  turn_level : WindowsSandboxLevel;
  turn_cwd : str;
  turn_workspace_roots : list str;
  turn_linux_sandbox_exe : option str;
  turn_use_legacy_landlock : bool;
  turn_private_desktop : bool
}.

(** ** The orchestrator *)

(** What is asked and what is run, in order, with the answers: an attempt, what the tool
    gave under which network approval, and what closing that approval gave *)
Inductive Event (O E Out N : Type) :=
| Hooks (answer : option PermissionRequestDecision)
| Review (ctx : ApprovalCtx) (answer : ReviewDecision)
| Attempt (sandbox : SandboxType)
| Ran (network : option N) (result : ToolError O E + Out)
| Closed (err : option (ToolError O E)).
Arguments Hooks {O E Out N} _.
Arguments Review {O E Out N} _ _.
Arguments Attempt {O E Out N} _.
Arguments Ran {O E Out N} _ _.
Arguments Closed {O E Out N} _.

Section run.
Context {W Rq Out O E P N D : Type} `{Htool : !ToolRuntime W Rq Out O E P N D} (os : TargetOs).

#[local] Abbreviation Event := (Event O E Out N).

Record St := { world : W; log : list Event }.

Definition M (A : Type) : Type := St -> (ToolError O E + A) * St.
Definition ret {A} (a : A) : M A := fun s => (inr a, s).
Definition throw {A} (e : ToolError O E) : M A := fun s => (inl e, s).
Definition bind {A B} (m : M A) (k : A -> M B) : M B :=
  fun s => match m s with (inl e, s') => (inl e, s') | (inr a, s') => k a s' end.
(** An operation of an interface, with the events it stands for *)
Definition call {A} (f : W -> A * W) (events : A -> list Event) : M A :=
  fun s => let '(a, w) := f (world s) in (inr a, {| world := w; log := log s ++ events a |}).

#[local] Notation "'do!' x <- m ; k" := (bind m (fun x => k)) (at level 200, x pattern, m at level 100, k at level 200).

Definition silent {A} (_ : A) : list Event := [].

Definition request_approval (req : Rq) (permission_request_run_id : str) (ctx : ApprovalCtx)
    (evaluate_permission_request_hooks : bool) : M ReviewDecision :=
  let ask := call (start_approval req ctx) (fun d => [Review ctx d]) in
  match (if evaluate_permission_request_hooks then permission_request_payload req else None) with
  | Some permission_request =>
      do! answer <- call (run_permission_request_hooks permission_request_run_id permission_request) (fun d => [Hooks d]);
      match answer with
      | Some HookAllow => ret Approved
      | Some (HookDeny message) => throw (Rejected message)
      | None => ask
      end
  | None => ask
  end.

Definition reject_if_not_approved (guardian_review_id : option str) (decision : ReviewDecision) : M unit :=
  match decision with
  | Denied | AbortTurn =>
      match guardian_review_id with
      | Some review_id => do! reason <- call (guardian_rejection_message review_id) silent; throw (Rejected reason)
      | None => throw (Rejected (&"rejected by user"))
      end
  | TimedOut => throw (Rejected guardian_timeout_message)
  | Approved | ApprovedExecpolicyAmendment _ | ApprovedForSession => ret tt
  | NetworkPolicyAmended amendment =>
      match amendment_action amendment with
      | RuleAllow => ret tt
      | RuleDeny => throw (Rejected (&"rejected by user"))
      end
  end.

(** The result of an attempt is a value: the caller looks at a failure before it
    passes it on. *)
Definition run_attempt (req : Rq) (attempt : SandboxAttempt) (managed_network_active : bool)
  : M ((ToolError O E + Out) * option D) :=
  do! network_approval <- call (begin_network_approval req managed_network_active) silent;
  let attempt :=
    {| attempt_sandbox := attempt_sandbox attempt; attempt_permissions := attempt_permissions attempt;
       enforce_managed_network := enforce_managed_network attempt; attempt_sandbox_cwd := attempt_sandbox_cwd attempt;
       attempt_workspace_roots := attempt_workspace_roots attempt;
       attempt_linux_sandbox_exe := attempt_linux_sandbox_exe attempt;
       attempt_use_legacy_landlock := attempt_use_legacy_landlock attempt;
       attempt_windows_sandbox_level := attempt_windows_sandbox_level attempt;
       attempt_private_desktop := attempt_private_desktop attempt;
       attempt_network_cancellation := match network_approval with Some _ => true | None => false end |} in
  do! run_result <- call (run_tool req attempt) (fun result => [Attempt (attempt_sandbox attempt); Ran network_approval result]);
  match network_approval with
  | None => ret (run_result, None)
  | Some network_approval =>
      match approval_mode network_approval with
      | Immediate =>
          do! err <- call (finish_immediate_network_approval network_approval) (fun err => [Closed err]);
          ret (match err with Some err => (inl err, None) | None => (run_result, None) end)
      | Deferred =>
          let deferred := into_deferred network_approval in
          match run_result with
          | inl _ =>
              do! err <- call (finish_deferred_network_approval deferred) (fun err => [Closed err]);
              ret (match err with Some err => (inl err, None) | None => (run_result, None) end)
          | inr _ => ret (run_result, deferred)
          end
      end
  end.

Definition approve (req : Rq) (run_id : str) (ctx : ApprovalCtx) (evaluate_hooks : bool) : M unit :=
  do! decision <- request_approval req run_id ctx evaluate_hooks;
  reject_if_not_approved (guardian_review_id ctx) decision.

Definition guardian_id (use_guardian : bool) : M (option str) :=
  if use_guardian then do! id <- call new_guardian_review_id silent; ret (Some id) else ret None.

(** 1) Approval; the result is [already_approved]. *)
Definition approval_phase (req : Rq) (id : str) (turn : TurnContext) (requirement : ExecApprovalRequirement) : M bool :=
  match requirement with
  | Skip _ _ =>
      if strict_auto_review turn then
        do! review_id <- guardian_id true;
        do! _ <- approve req id
          {| call_id := id; guardian_review_id := review_id; retry_reason := None; network_approval_context := None |} false;
        ret true
      else ret false
  | RequirementForbidden reason => throw (Rejected reason)
  | NeedsApproval reason _ =>
      do! review_id <- guardian_id (routes_to_guardian turn || strict_auto_review turn);
      do! _ <- approve req id
        {| call_id := id; guardian_review_id := review_id; retry_reason := reason; network_approval_context := None |}
        (negb (strict_auto_review turn));
      ret true
  end.

Definition attempt_of (req : Rq) (turn : TurnContext) (sandbox : SandboxType) (exe : option str) : SandboxAttempt :=
  {| attempt_sandbox := sandbox; attempt_permissions := turn_profile turn; enforce_managed_network := has_network_proxy turn;
     attempt_sandbox_cwd := default (turn_cwd turn) (tool_sandbox_cwd req);
     attempt_workspace_roots := turn_workspace_roots turn; attempt_linux_sandbox_exe := exe;
     attempt_use_legacy_landlock := turn_use_legacy_landlock turn; attempt_windows_sandbox_level := turn_level turn;
     attempt_private_desktop := turn_private_desktop turn; attempt_network_cancellation := false |}.

(** 2) The sandbox of the first attempt *)
Definition initial_sandbox (req : Rq) (turn : TurnContext) (requirement : ExecApprovalRequirement) : SandboxType :=
  let p := file_system_sandbox_policy (turn_profile turn) in
  match sandbox_override_for_first_attempt (tool_sandbox_permissions req) requirement p with
  | BypassSandboxFirstAttempt => NoSandbox
  | NoOverride =>
      select_initial os p (network_sandbox_policy (turn_profile turn)) sandbox_preference (turn_level turn) (has_network_proxy turn)
  end.

Definition is_needs_approval (r : ExecApprovalRequirement) : bool := match r with NeedsApproval _ _ => true | _ => false end.
Definition is_some {A} (o : option A) : bool := match o with Some _ => true | None => false end.

Definition RETRY_WITHOUT_SANDBOX : str := &"command failed; retry without sandbox?".

Definition host_blocked_reason (host : str) : str :=
  &"Network access to " ++ [34%N] ++ host ++ [34%N] ++ &" is blocked by policy.".

(** 3) What follows a denial of the sandbox: the failure itself, or a second
    attempt without a sandbox. *)
Definition retry_phase (req : Rq) (id : str) (turn : TurnContext) (policy : AskForApproval) (already_approved : bool)
    (output : O) (decision : option NetworkPolicyDecisionPayload) : M (Out * option D) :=
  let p := file_system_sandbox_policy (turn_profile turn) in
  let denied := throw (SandboxDenied output decision) in
  let network_context :=
    if has_network_proxy turn then decision ≫= network_approval_context_from_payload else None in
  if is_some decision && negb (is_some network_context) then denied
  else if negb escalate_on_failure then denied
  else if negb (wants_no_sandbox_approval policy) &&
          negb (match policy with OnRequest => true | _ => false end && is_some network_context &&
                is_needs_approval (default_exec_approval_requirement policy p)) then denied
  else
    let reason :=
      match network_context with
      | Some ctx => host_blocked_reason (ctx_host ctx)
      | None => RETRY_WITHOUT_SANDBOX
      end in
    let bypass_retry_approval :=
      negb (strict_auto_review turn) && should_bypass_approval policy already_approved && negb (is_some network_context) in
    do! _ <- (if bypass_retry_approval then ret tt
              else
                do! review_id <- guardian_id (routes_to_guardian turn || strict_auto_review turn);
                approve req (id ++ &":retry")
                  {| call_id := id; guardian_review_id := review_id; retry_reason := Some reason;
                     network_approval_context := network_context |} (negb (strict_auto_review turn)));
    do! (result, deferred) <- run_attempt req (attempt_of req turn NoSandbox None) (has_network_proxy turn);
    match result with inl e => throw e | inr out => ret (out, deferred) end.

Definition run (req : Rq) (id : str) (turn : TurnContext) (policy : AskForApproval) : M (Out * option D) :=
  let requirement :=
    default (default_exec_approval_requirement policy (file_system_sandbox_policy (turn_profile turn)))
      (exec_approval_requirement req) in
  do! already_approved <- approval_phase req id turn requirement;
  do! (first_result, deferred) <-
    run_attempt req (attempt_of req turn (initial_sandbox req turn requirement) (turn_linux_sandbox_exe turn))
      (has_network_proxy turn);
  match first_result with
  | inr out => ret (out, deferred)
  | inl (SandboxDenied output decision) => retry_phase req id turn policy already_approved output decision
  | inl e => throw e
  end.

(** ** The courses of a call

    What the log and the result of a call may be, in terms of the answers alone *)

Definition approves (d : ReviewDecision) : bool :=
  match d with
  | Approved | ApprovedExecpolicyAmendment _ | ApprovedForSession => true
  | NetworkPolicyAmended a => match amendment_action a with RuleAllow => true | RuleDeny => false end
  | Denied | TimedOut | AbortTurn => false
  end.

(** The event gives a go-ahead. *)
Definition grants (e : Event) : bool :=
  match e with Hooks (Some HookAllow) => true | Review _ d => approves d | _ => false end.
Definition is_attempt (e : Event) : bool := match e with Attempt _ => true | _ => false end.

Definition requirement_of (req : Rq) (turn : TurnContext) (policy : AskForApproval) : ExecApprovalRequirement :=
  default (default_exec_approval_requirement policy (file_system_sandbox_policy (turn_profile turn))) (exec_approval_requirement req).

(** The reason of a refusal by a reviewer, [None] for a go-ahead; the guardian words its own. *)
Definition refused_by (review_id : option str) (d : ReviewDecision) (refusal : option str) : Prop :=
  if approves d then refusal = None
  else
    match d, review_id with
    | TimedOut, _ => refusal = Some guardian_timeout_message
    | (Denied | AbortTurn), Some _ => refusal <> None
    | _, _ => refusal = Some (&"rejected by user")
    end.

(** A question and its answer: hooks are asked first, unless reviews are strict; who has
    no hooks, or hooks without an opinion, asks the guardian or the user. *)
Definition has_hooks (req : Rq) (turn : TurnContext) : bool :=
  negb (strict_auto_review turn) && is_some (permission_request_payload req).
Inductive answered (req : Rq) (id : str) (turn : TurnContext) (reason : option str) (nc : option NetworkApprovalContext)
  : list Event -> option str -> Prop :=
| hook_allows : has_hooks req turn = true -> answered req id turn reason nc [Hooks (Some HookAllow)] None
| hook_denies message : has_hooks req turn = true -> answered req id turn reason nc [Hooks (Some (HookDeny message))] (Some message)
| reviewed review_id d refusal :
    is_some review_id = routes_to_guardian turn || strict_auto_review turn -> refused_by review_id d refusal ->
    answered req id turn reason nc
      ((if has_hooks req turn then [Hooks None] else []) ++
       [Review {| call_id := id; guardian_review_id := review_id; retry_reason := reason; network_approval_context := nc |} d])
      refusal.

(** An attempt, its result, and the network approval that is handed on; an error of a
    network approval replaces the result. *)
Inductive attempted (sandbox : SandboxType) : list Event -> ToolError O E + Out -> option D -> Prop :=
| attempted_plain raw : attempted sandbox [Attempt sandbox; Ran None raw] raw None
| attempted_closed na raw err :
    approval_mode na = Immediate \/ (exists e, raw = inl e) ->
    attempted sandbox [Attempt sandbox; Ran (Some na) raw; Closed err] (match err with Some e => inl e | None => raw end) None
| attempted_deferred na out :
    approval_mode na = Deferred -> attempted sandbox [Attempt sandbox; Ran (Some na) (inr out)] (inr out) (into_deferred na).

(** The first question: [None] when there is none *)
Definition first_question (req : Rq) (turn : TurnContext) (policy : AskForApproval) : option (option str) :=
  match requirement_of req turn policy with
  | Skip _ _ => if strict_auto_review turn then Some None else None
  | NeedsApproval reason _ => Some reason
  | RequirementForbidden _ => None
  end.

(** A denial may be retried: about the network when the proxy asked on behalf of the decider
    for a host, and about the sandbox when no decision on the network came with it. *)
Definition asks_network (turn : TurnContext) (decision : option NetworkPolicyDecisionPayload) (ctx : NetworkApprovalContext) : Prop :=
  has_network_proxy turn = true /\ ctx_host ctx <> [] /\
  exists p, decision = Some p /\ payload_decision p = NetAsk /\ payload_source p = Decider /\
    payload_protocol p = Some (ctx_protocol ctx) /\ option_map trim (payload_host p) = Some (ctx_host ctx).
Definition may_retry (turn : TurnContext) (policy : AskForApproval) (decision : option NetworkPolicyDecisionPayload)
    (nc : option NetworkApprovalContext) : Prop :=
  match nc with Some ctx => asks_network turn decision ctx | None => decision = None end /\
  escalate_on_failure = true /\
  (wants_no_sandbox_approval policy = true \/
   policy = OnRequest /\ nc <> None /\ kind (file_system_sandbox_policy (turn_profile turn)) = Restricted).

(** A retry is not asked about when the tool's rule says so, no review is strict and the
    network is not the reason. *)
Definition unasked_retry (turn : TurnContext) (policy : AskForApproval) (already : bool) (nc : option NetworkApprovalContext) : Prop :=
  strict_auto_review turn = false /\ should_bypass_approval policy already = true /\ nc = None.

Definition retry_reason_of (nc : option NetworkApprovalContext) : str :=
  match nc with
  | Some ctx => &"Network access to " ++ [34%N] ++ ctx_host ctx ++ [34%N] ++ &" is blocked by policy."
  | None => &"command failed; retry without sandbox?"
  end.

(** What follows the first attempt, by its result *)
Inductive after_first (req : Rq) (id : str) (turn : TurnContext) (policy : AskForApproval) (already : bool)
  : ToolError O E + Out -> option D -> list Event -> ToolError O E + (Out * option D) -> Prop :=
| first_succeeds out d : after_first req id turn policy already (inr out) d [] (inr (out, d))
| first_fails e d : (forall output decision, e <> SandboxDenied output decision) -> after_first req id turn policy already (inl e) d [] (inl e)
| first_stopped output decision d :
    (forall nc, ~ may_retry turn policy decision nc) ->
    after_first req id turn policy already (inl (SandboxDenied output decision)) d [] (inl (SandboxDenied output decision))
| retry_refused output decision d nc q message :
    may_retry turn policy decision nc -> ~ unasked_retry turn policy already nc ->
    answered req id turn (Some (retry_reason_of nc)) nc q (Some message) ->
    after_first req id turn policy already (inl (SandboxDenied output decision)) d q (inl (Rejected message))
| retried output decision d nc q evs res d' :
    may_retry turn policy decision nc ->
    (unasked_retry turn policy already nc /\ q = [] \/
     ~ unasked_retry turn policy already nc /\ answered req id turn (Some (retry_reason_of nc)) nc q None) ->
    attempted NoSandbox evs res d' ->
    after_first req id turn policy already (inl (SandboxDenied output decision)) d (q ++ evs)
      (match res with inl e => inl e | inr out => inr (out, d') end).

Inductive course (req : Rq) (id : str) (turn : TurnContext) (policy : AskForApproval)
  : ToolError O E + (Out * option D) -> list Event -> Prop :=
| course_forbidden reason :
    requirement_of req turn policy = RequirementForbidden reason -> course req id turn policy (inl (Rejected reason)) []
| course_refused reason q message :
    first_question req turn policy = Some reason -> answered req id turn reason None q (Some message) ->
    course req id turn policy (inl (Rejected message)) q
| course_runs q already evs res d rest r :
    (forall reason, requirement_of req turn policy <> RequirementForbidden reason) ->
    match first_question req turn policy with
    | Some reason => answered req id turn reason None q None /\ already = true
    | None => q = [] /\ already = false
    end ->
    attempted (initial_sandbox req turn (requirement_of req turn policy)) evs res d ->
    after_first req id turn policy already res d rest r ->
    course req id turn policy r (q ++ evs ++ rest).

(** ** Theorems *)

Lemma bind_inv {A B} (m : M A) (k : A -> M B) s r s' :
  bind m k s = (r, s') ->
  (exists e, m s = (inl e, s') /\ r = inl e) \/ exists a s1, m s = (inr a, s1) /\ k a s1 = (r, s').
Proof.
  unfold bind. destruct (m s) as [[e|a] s1]; intros H; [left|right].
  - injection H as <- <-. by exists e.
  - by exists a, s1.
Qed.

(** A call of an interface and what follows it *)
Lemma call_inv {A B} (f : W -> A * W) events (k : A -> M B) s r s' :
  bind (call f events) k s = (r, s') -> exists a s1, log s1 = log s ++ events a /\ k a s1 = (r, s').
Proof. unfold bind, call. destruct (f (world s)) as [a w]. intros H. eexists a, _. by split; [|exact H]. Qed.

Lemma silent_call_inv {A B} (f : W -> A * W) (k : A -> M B) s r s' :
  bind (call f silent) k s = (r, s') -> exists a s1, log s1 = log s /\ k a s1 = (r, s').
Proof. intros (a & s1 & E1 & H)%call_inv. exists a, s1. by rewrite E1, app_nil_r. Qed.

Lemma guardian_id_inv {B} b (k : option str -> M B) s r s' :
  bind (guardian_id b) k s = (r, s') -> exists id s1, is_some id = b /\ log s1 = log s /\ k id s1 = (r, s').
Proof.
  unfold guardian_id. destruct b; [|intros H; by exists None, s].
  intros [(e & (? & ? & _ & ?)%silent_call_inv & _)|(id & s1 & (a & s2 & El & [= <- <-])%silent_call_inv & Hk)]%bind_inv; [done|].
  by exists (Some a), s2.
Qed.

Definition refusal_result (refusal : option str) : ToolError O E + unit :=
  match refusal with None => inr tt | Some message => inl (Rejected message) end.

Lemma reject_spec gid d s r s' :
  reject_if_not_approved gid d s = (r, s') -> log s' = log s /\ exists refusal, refused_by gid d refusal /\ r = refusal_result refusal.
Proof.
  assert (forall reason s r s', throw (A := unit) (Rejected reason) s = (r, s') ->
    log s' = log s /\ r = refusal_result (Some reason)) as Hthrow by by intros reason t q t' [= <- <-].
  unfold reject_if_not_approved, refused_by. destruct d as [|am| |am| | |]; cbn [approves];
    try (intros [= <- <-]; split; [done|by exists None]); try (intros [El ->]%Hthrow; split; [done|by eexists]).
  1: destruct (amendment_action am); intros [= <- <-]; (split; [done|]); [by exists None|by exists (Some (&"rejected by user"))].
  all: destruct gid as [id|]; [|intros [El ->]%Hthrow; split; [done|by eexists]].
  all: intros (reason & s1 & El & [El' ->]%Hthrow)%silent_call_inv; (split; [congruence|]); by exists (Some reason).
Qed.

Lemma approve_spec req run_id id turn gid reason nc s r s' :
  is_some gid = routes_to_guardian turn || strict_auto_review turn ->
  approve req run_id {| call_id := id; guardian_review_id := gid; retry_reason := reason; network_approval_context := nc |}
    (negb (strict_auto_review turn)) s = (r, s') ->
  exists evs refusal, log s' = log s ++ evs /\ answered req id turn reason nc evs refusal /\ r = refusal_result refusal.
Proof.
  intros Hg. unfold approve, request_approval. set (ctx := {| call_id := id |}).
  assert (forall (pre : list Event) s r s', pre = (if has_hooks req turn then [Hooks None] else []) ->
    bind (call (start_approval req ctx) (fun d => [Review ctx d])) (fun d => reject_if_not_approved gid d) s = (r, s') ->
    exists evs refusal, log s' = log s ++ evs /\ answered req id turn reason nc (pre ++ evs) refusal /\ r = refusal_result refusal) as Hask.
  { intros pre t q t' -> (d & t1 & El & [E2 (refusal & Hr & ->)]%reject_spec)%call_inv. exists [Review ctx d], refusal.
    split_and!; [congruence| |done]. by apply reviewed. }
  unfold has_hooks in Hask. destruct (strict_auto_review turn) eqn:Es; cbn [negb andb] in *.
  { intros H. by apply (Hask []) in H. }
  destruct (permission_request_payload req) as [payload|] eqn:Ep; cbn [is_some] in *; [|intros H; by apply (Hask []) in H].
  assert (has_hooks req turn = true) as Hh by (unfold has_hooks; by rewrite Es, Ep).
  intros [(e & H & ->)|(d & s1 & H & Hk)]%bind_inv; apply call_inv in H as (answer & s2 & El & H); destruct answer as [[|message]|].
  - done.
  - injection H as <- <-. exists [Hooks (Some (HookDeny message))], (Some message). split_and!; [done|by constructor|done].
  - unfold call in H. by destruct (start_approval req ctx (world s2)).
  - injection H as <- <-. cbn in Hk. injection Hk as <- <-. exists [Hooks (Some HookAllow)], None. split_and!; [done|by constructor|done].
  - done.
  - destruct (Hask [Hooks None] s2 r s' eq_refl) as (evs & refusal & E2 & Ha & ->).
    { unfold bind. by rewrite H. }
    exists (Hooks None :: evs), refusal. split_and!; [by rewrite E2, El, <- (assoc_L (++))|done|done].
Qed.

Lemma run_attempt_spec req attempt managed s r s' :
  run_attempt req attempt managed s = (r, s') ->
  exists evs res d, r = inr (res, d) /\ log s' = log s ++ evs /\ attempted (attempt_sandbox attempt) evs res d.
Proof.
  unfold run_attempt. intros (na & s1 & E1 & (raw & s2 & E2 & H)%call_inv)%silent_call_inv. cbn [attempt_sandbox] in E2.
  rewrite E1 in E2. destruct na as [na|]; [|injection H as <- <-; eexists _, _, _; split_and!; [done|exact E2|constructor]].
  assert (approval_mode na = Immediate \/ (exists e, raw = inl e) -> forall f, bind (call f (fun err => [Closed err]))
    (fun err => ret match err with Some err => (inl err, None) | None => (raw, None) end) s2 = (r, s') ->
    exists evs res d, r = inr (res, d) /\ log s' = log s ++ evs /\ attempted (attempt_sandbox attempt) evs res d) as Hclose.
  { intros Hc f (err & s3 & E3 & Hk)%call_inv. injection Hk as <- <-. rewrite E3, E2, <- (assoc_L (++)).
    eexists _, (match err with Some e => inl e | None => raw end), None. split_and!; [by destruct err|done|by constructor]. }
  destruct (approval_mode na) eqn:Em; [eapply Hclose; [by left|exact H]|].
  destruct raw as [e|out]; [eapply Hclose; [right; by exists e|exact H]|]. injection H as <- <-.
  eexists _, _, _. split_and!; [done|exact E2|by constructor].
Qed.

Lemma network_context_spec turn decision ctx :
  (if has_network_proxy turn then decision ≫= network_approval_context_from_payload else None) = Some ctx <-> asks_network turn decision ctx.
Proof.
  unfold asks_network, network_approval_context_from_payload, is_ask_from_decider. split.
  - destruct (has_network_proxy turn), decision as [p|]; try done. cbn [mbind option_bind].
    destruct (payload_decision p) eqn:Ed, (payload_source p) eqn:Es; cbn [negb]; try done.
    destruct (payload_protocol p) as [pr|] eqn:Ep; [|done]. destruct (option_map trim (payload_host p)) as [h|] eqn:Eh; [|done].
    cbn. destruct (str_eqb h []) eqn:E0; [done|]. intros [= <-]. cbn. split_and!; [done| |eauto 10].
    intros ->. by rewrite (proj2 (str_eqb_eq [] [])) in E0.
  - destruct ctx as [host pr]. cbn. intros (-> & Hne & p & -> & E1 & E2 & E3 & Eh). cbn. rewrite E1, E2, E3, Eh. cbn.
    destruct (str_eqb host []) eqn:E0; [by apply str_eqb_eq in E0|done].
Qed.

Lemma on_request_needs_approval p : is_needs_approval (default_exec_approval_requirement OnRequest p) = true <-> kind p = Restricted.
Proof. unfold default_exec_approval_requirement. by destruct (kind p). Qed.



(** [nc] is the context the retry works with. *)
Lemma retry_guard turn policy decision nc :
  (if has_network_proxy turn then decision ≫= network_approval_context_from_payload else None) = nc ->
  let p := file_system_sandbox_policy (turn_profile turn) in
  is_some decision && negb (is_some nc) = false -> escalate_on_failure = true ->
  negb (wants_no_sandbox_approval policy) &&
    negb (match policy with OnRequest => true | _ => false end && is_some nc && is_needs_approval (default_exec_approval_requirement policy p)) = false ->
  may_retry turn policy decision nc.
Proof.
  intros Hnc p Hd He Hw. split_and!; [|done|].
  - destruct nc as [ctx|]; [by apply network_context_spec|]. by destruct decision.
  - destruct (wants_no_sandbox_approval policy); [by left|]. cbn in Hw. right. apply negb_false_iff in Hw.
    apply andb_prop in Hw as [[Hp Hn]%andb_prop Ha]. destruct policy; try done. split_and!; [done|by destruct nc|].
    by apply on_request_needs_approval in Ha.
Qed.

(** A denial that may be retried passes the guards, with its only context. *)
Lemma may_retry_guard turn policy decision nc :
  may_retry turn policy decision nc ->
  let p := file_system_sandbox_policy (turn_profile turn) in
  (if has_network_proxy turn then decision ≫= network_approval_context_from_payload else None) = nc /\
  is_some decision && negb (is_some nc) = false /\ escalate_on_failure = true /\
  negb (wants_no_sandbox_approval policy) &&
    negb (match policy with OnRequest => true | _ => false end && is_some nc && is_needs_approval (default_exec_approval_requirement policy p)) = false.
Proof.
  intros (Hn & He & Hw) p. split_and!; [|destruct nc; [apply andb_false_r|by subst]|done|].
  - destruct nc as [ctx|]; [by apply network_context_spec|]. subst. by destruct (has_network_proxy turn).
  - destruct Hw as [->|(-> & Hne & Hk)]; [done|]. destruct nc; [|done].
    rewrite (proj2 (on_request_needs_approval p) Hk). apply andb_false_r.
Qed.

Lemma retry_phase_spec req id turn policy already output decision d s r s' :
  retry_phase req id turn policy already output decision s = (r, s') ->
  exists evs, log s' = log s ++ evs /\ after_first req id turn policy already (inl (SandboxDenied output decision)) d evs r.
Proof.
  unfold retry_phase. cbv zeta. set (nc := if has_network_proxy turn then _ else None).
  assert ((forall nc, ~ may_retry turn policy decision nc) -> throw (SandboxDenied output decision) s = (r, s') ->
    exists evs, log s' = log s ++ evs /\ after_first req id turn policy already (inl (SandboxDenied output decision)) d evs r) as Hden.
  { intros Hno [= <- <-]. exists []. rewrite app_nil_r. split; [done|by constructor]. }
  destruct (is_some decision && negb (is_some nc)) eqn:E1.
  { apply Hden. intros nc' (<- & H & _)%may_retry_guard. fold nc in H. congruence. }
  destruct escalate_on_failure eqn:E2; cbn [negb]; [|apply Hden; intros nc' (_ & _ & H & _)%may_retry_guard; congruence].
  match goal with |- context [if ?b then _ else _] => destruct b eqn:E3 end.
  { apply Hden. intros nc' (<- & _ & _ & H)%may_retry_guard. fold nc in H. congruence. }
  assert (may_retry turn policy decision nc) as Hmay by (by apply (retry_guard turn policy decision nc eq_refl)).
  clearbody nc. clear Hden E1 E2 E3. set (bypass := negb (strict_auto_review turn) && _ && _).
  assert (bypass = true <-> unasked_retry turn policy already nc) as Hb.
  { subst bypass. unfold unasked_retry. destruct (strict_auto_review turn), (should_bypass_approval policy already), nc; naive_solver. }
  clearbody bypass. change (match nc with Some ctx => _ | None => _ end) with (retry_reason_of nc).
  assert (forall q s1, log s1 = log s ++ q ->
    (unasked_retry turn policy already nc /\ q = [] \/
     ~ unasked_retry turn policy already nc /\ answered req id turn (Some (retry_reason_of nc)) nc q None) ->
    bind (run_attempt req (attempt_of req turn NoSandbox None) (has_network_proxy turn))
      (fun '(result, deferred) => match result with inl e => throw e | inr out => ret (out, deferred) end) s1 = (r, s') ->
    exists evs, log s' = log s ++ evs /\ after_first req id turn policy already (inl (SandboxDenied output decision)) d evs r) as Hrun.
  { intros q s1 El Hq [(e & (? & ? & ? & ? & _)%run_attempt_spec & _)|(x & s2 & Ha & Hk)]%bind_inv; [done|].
    apply run_attempt_spec in Ha as (evs & res & d' & [= ->] & El2 & Hat). cbn [attempt_sandbox attempt_of] in Hat.
    assert (log s' = log s ++ q ++ evs /\ r = match res with inl e => inl e | inr out => inr (out, d') end) as [-> ->].
    { rewrite (assoc_L (++)), <- El, <- El2. by destruct res; injection Hk as <- <-. }
    eexists. split; [done|]. by eapply retried. }
  destruct bypass.
  - intros H. apply (Hrun [] s); [by rewrite app_nil_r|left; by split; [apply Hb|]|exact H].
  - assert (~ unasked_retry turn policy already nc) as Hn by (intros ?%Hb; done).
    intros [(e & (gid & s1 & Hg & El & H)%guardian_id_inv & ->)|(u & s2 & (gid & s1 & Hg & El & H)%guardian_id_inv & Hk)]%bind_inv;
      (apply approve_spec in H as (evs & refusal & El2 & Ha & Hr); [|done]); rewrite El in El2.
    + destruct refusal as [m|]; [|done]. injection Hr as ->. exists evs. split; [done|]. by eapply retry_refused.
    + destruct refusal; [done|]. apply (Hrun evs s2); [done|right; by split|exact Hk].
Qed.

(** The first phase: nothing, a refusal, or a question; the result says whether it was asked. *)
Lemma approval_phase_spec req id turn policy s r s' :
  approval_phase req id turn (requirement_of req turn policy) s = (r, s') ->
  exists q, log s' = log s ++ q /\
    match r with
    | inl err => course req id turn policy (inl err) q
    | inr already =>
        (forall reason, requirement_of req turn policy <> RequirementForbidden reason) /\
        match first_question req turn policy with
        | Some reason => answered req id turn reason None q None /\ already = true
        | None => q = [] /\ already = false
        end
    end.
Proof.
  assert (forall reason b, first_question req turn policy = Some reason ->
    (forall reason, requirement_of req turn policy <> RequirementForbidden reason) -> b = routes_to_guardian turn || strict_auto_review turn ->
    bind (guardian_id b) (fun gid => bind (approve req id
      {| call_id := id; guardian_review_id := gid; retry_reason := reason; network_approval_context := None |} (negb (strict_auto_review turn)))
      (fun _ => ret true)) s = (r, s') ->
    exists q, log s' = log s ++ q /\
      match r with
      | inl err => course req id turn policy (inl err) q
      | inr already => (forall reason, requirement_of req turn policy <> RequirementForbidden reason) /\
          match first_question req turn policy with
          | Some reason => answered req id turn reason None q None /\ already = true
          | None => q = [] /\ already = false
          end
      end) as Hask.
  { intros reason b Hf Hnf -> (gid & s1 & Hg & El & [(e & H & ->)|(u & s2 & H & Hk)]%bind_inv)%guardian_id_inv;
      (apply approve_spec in H as (evs & refusal & El2 & Ha & Hr); [|done]); rewrite El in El2; exists evs.
    - destruct refusal as [m|]; [|done]. injection Hr as ->. split; [done|]. by eapply course_refused.
    - destruct refusal; [done|]. injection Hk as <- <-. by rewrite Hf. }
  unfold approval_phase, first_question in *. destruct (requirement_of req turn policy) as [bypass prop|reason prop|reason] eqn:Er.
  - destruct (strict_auto_review turn) eqn:Es; [apply Hask; [done|done|by rewrite orb_true_r]|].
    intros [= <- <-]. exists []. by rewrite app_nil_r.
  - by apply Hask.
  - intros [= <- <-]. exists []. rewrite app_nil_r. split; [done|by constructor].
Qed.

Lemma run_course req id turn policy s r s' :
  run req id turn policy s = (r, s') -> exists evs, log s' = log s ++ evs /\ course req id turn policy r evs.
Proof.
  unfold run. fold (requirement_of req turn policy). intros [(e & (q & El & Hc)%approval_phase_spec & ->)|(already & s1 & Hp & H)]%bind_inv.
  { by exists q. }
  apply approval_phase_spec in Hp as (q & El & Hnf & Hq).
  apply bind_inv in H as [(e & (? & ? & ? & ? & _)%run_attempt_spec & _)|(x & s2 & Ha & Hk)]; [done|].
  apply run_attempt_spec in Ha as (evs & res & d & [= ->] & El2 & Hat). cbn [attempt_sandbox attempt_of] in Hat.
  assert (exists rest, log s' = log s2 ++ rest /\ after_first req id turn policy already res d rest r) as (rest & El3 & Haf).
  { destruct res as [[reason|output decision|e]|out]; [|by eapply retry_phase_spec|..];
      injection Hk as <- <-; exists []; rewrite app_nil_r; (split; [done|by constructor]). }
  exists (q ++ evs ++ rest). split; [by rewrite El3, El2, El, !(assoc_L (++))|]. by eapply course_runs.
Qed.

(** C3: every call of the orchestrator takes one of these courses, and its result is the one
    the answers lead to.  A requirement that forbids the call refuses it; a first question is
    asked exactly when the requirement needs approval or reviews are strict, the hooks first
    and then the guardian or the user, and a refusal is the result, with its reason.
    Otherwise the tool runs under the sandbox selected for it: its success, with the network
    approval that is put off, or its failure is the result, unless closing the network
    approval fails, whose error then counts.  Only a denial of the sandbox is retried, and
    exactly when the tool may escalate, the policy lets it ask, and the denial came without
    a decision on the network or with a question of the decider about a host under the
    proxy; the retry is asked about, with its reason, unless the tool's rule says it need not
    be, no review is strict and the network is not the reason; it runs without a sandbox
    and its result counts. *)
Theorem orchestrator_course (req : Rq) (id : str) (turn : TurnContext) (policy : AskForApproval) (s s' : St)
    (r : ToolError O E + (Out * option D)) :
  run req id turn policy s = (r, s') -> exists evs, log s' = log s ++ evs /\ course req id turn policy r evs.
Proof. apply run_course. Qed.

(** Questions hold no attempt, and an attempt is one. *)
Definition no_attempt (evs : list Event) : Prop := Forall (fun e => is_attempt e = false) evs.

Lemma answered_no_attempt req id turn reason nc q refusal : answered req id turn reason nc q refusal -> no_attempt q.
Proof. unfold no_attempt. destruct 1; [by repeat constructor..|]. destruct (has_hooks req turn); by repeat constructor. Qed.

Lemma answered_grants req id turn reason nc q : answered req id turn reason nc q None -> exists e, e ∈ q /\ grants e = true.
Proof.
  inversion 1 as [|?|gid d refusal Hg Hr]; subst.
  - eexists. split; [by left|done].
  - eexists. split; [apply elem_of_app; right; by left|]. cbn. unfold refused_by in Hr. destruct (approves d); [done|].
    destruct d, gid; done.
Qed.

Lemma attempted_head sandbox evs res d : attempted sandbox evs res d -> exists tl, evs = Attempt sandbox :: tl /\ no_attempt tl.
Proof. unfold no_attempt. destruct 1; eexists; (split; [done|]); by repeat constructor. Qed.

Lemma attempt_split q st pre post rest :
  no_attempt q -> q ++ rest = pre ++ Attempt st :: post -> exists pre', pre = q ++ pre' /\ rest = pre' ++ Attempt st :: post.
Proof.
  intros Hq. revert pre. induction Hq as [|e q He Hq IH]; intros pre Heq; [by exists pre|].
  destruct pre as [|e' pre]; cbn in Heq; injection Heq as -> Heq; [done|].
  destruct (IH pre Heq) as (pre' & -> & ->). by exists pre'.
Qed.

Lemma no_attempt_at q st pre post : no_attempt q -> q <> pre ++ Attempt st :: post.
Proof. intros Hq ->. apply Forall_app in Hq as [_ Hq]. by apply Forall_cons in Hq as [? _]. Qed.

(** An attempt without a sandbox after the first one *)
Lemma second_attempt_granted req id turn policy already res d rest r pre post :
  (forall policy already, wants_no_sandbox_approval policy = true \/ policy = OnRequest ->
     should_bypass_approval policy already = true -> already = true) ->
  after_first req id turn policy already res d rest r -> rest = pre ++ Attempt NoSandbox :: post ->
  already = true \/ exists e, e ∈ pre /\ grants e = true.
Proof.
  intros Hbypass Haf ->. inversion Haf as [? ? E1|? ? ? E1|? ? ? ? E1|? ? ? nc q m Hm Hn Ha|? ? ? nc q evs res' d' Hm Hq Hat]; subst;
    try (by destruct pre).
  - exfalso. by eapply (no_attempt_at _ NoSandbox pre post); [eapply answered_no_attempt|].
  - match goal with H : _ ++ _ = pre ++ _ |- _ => rename H into Heq end. destruct Hq as [[(Hs & Hb & _) ->]|[_ Ha]].
    + left. apply (Hbypass policy); [|done]. destruct Hm as (_ & _ & [?|(-> & _)]); auto.
    + right. destruct (attempt_split _ _ _ _ _ (answered_no_attempt _ _ _ _ _ _ _ Ha) Heq) as (pre' & -> & _).
      destruct (answered_grants _ _ _ _ _ _ Ha) as (e & He & Hg). exists e. split; [|done]. apply elem_of_app. by left.
Qed.

Lemma initial_sandbox_required req turn requirement :
  sandbox_override_for_first_attempt (tool_sandbox_permissions req) requirement (file_system_sandbox_policy (turn_profile turn)) = NoOverride ->
  sandbox_preference <> Forbid ->
  should_require_platform_sandbox (file_system_sandbox_policy (turn_profile turn)) (network_sandbox_policy (turn_profile turn))
    (has_network_proxy turn) = true ->
  forall st, get_platform_sandbox os (level_enabled (turn_level turn)) = Some st -> initial_sandbox req turn requirement = st.
Proof.
  intros Ho Hp Hr st Hst. unfold initial_sandbox. rewrite Ho. unfold select_initial. rewrite Hr, Hst.
  by destruct sandbox_preference.
Qed.

(** C12: on a platform with a sandbox, a call that needs one (its policy restricts
    writes or the network, its tool does not forbid sandboxing, no rule greenlights
    it and it does not ask to escalate, or reads are denied to it) never runs without
    one unless somebody said so before: every attempt without a sandbox comes after
    an approving answer of the hooks, the user or the reviewer.  The tool may bypass
    the question of the retry only after an approval, as the default method of the
    trait does for every policy that retries. *)
Theorem unsandboxed_attempt_needs_grant (req : Rq) (id : str) (turn : TurnContext) (policy : AskForApproval) (w : W) (s' : St)
    (r : ToolError O E + (Out * option D)) (st : SandboxType) (pre post : list Event) :
  run req id turn policy {| world := w; log := [] |} = (r, s') ->
  get_platform_sandbox os (level_enabled (turn_level turn)) = Some st ->
  sandbox_preference <> Forbid ->
  should_require_platform_sandbox (file_system_sandbox_policy (turn_profile turn)) (network_sandbox_policy (turn_profile turn))
    (has_network_proxy turn) = true ->
  sandbox_override_for_first_attempt (tool_sandbox_permissions req) (requirement_of req turn policy)
    (file_system_sandbox_policy (turn_profile turn)) = NoOverride ->
  (forall policy already, wants_no_sandbox_approval policy = true \/ policy = OnRequest ->
     should_bypass_approval policy already = true -> already = true) ->
  log s' = pre ++ Attempt NoSandbox :: post -> exists e, e ∈ pre /\ grants e = true.
Proof.
  intros (evs & El & Hc)%run_course Hst Hpref Hreq Hov Hbypass Hlog. cbn [log app] in El. rewrite El in Hlog. clear El.
  pose proof (initial_sandbox_required _ _ _ Hov Hpref Hreq st Hst) as Hinit.
  assert (st <> NoSandbox) as Hst'.
  { unfold get_platform_sandbox in Hst. intros ->. by destruct os, (level_enabled (turn_level turn)). }
  destruct Hc as [reason|reason q m Hf Ha|q already evs res d rest r Hnf Hq Hat Haf].
  - by destruct pre.
  - exfalso. by eapply (no_attempt_at q NoSandbox pre post); [eapply answered_no_attempt|].
  - assert (no_attempt q) as Hqn.
    { destruct (first_question req turn policy); [eapply answered_no_attempt, (proj1 Hq)|]. destruct Hq as [-> _]. constructor. }
    destruct (attempted_head _ _ _ _ Hat) as (tl & -> & Htl). rewrite Hinit in Hlog.
    destruct (attempt_split _ _ _ _ _ Hqn Hlog) as (pre1 & -> & E1). destruct pre1 as [|e1 pre1]; cbn in E1; [congruence|].
    injection E1 as <- E1. destruct (attempt_split _ _ _ _ _ Htl E1) as (pre2 & -> & E2).
    destruct (second_attempt_granted _ _ _ _ _ _ _ _ _ _ _ Hbypass Haf E2) as [->|(e & He & Hg)].
    + destruct (first_question req turn policy); [|by destruct Hq]. destruct (answered_grants _ _ _ _ _ _ (proj1 Hq)) as (e & He & Hg).
      exists e. split; [|done]. apply elem_of_app. by left.
    + exists e. split; [|done]. rewrite elem_of_app, elem_of_cons, elem_of_app. auto.
Qed.
End run.

(** ** Witnesses *)

(** A shell-like tool the sandbox always stops, and a reviewer who says [answer] *)
Definition stopped_tool (answer : ReviewDecision) (requirement : ExecApprovalRequirement)
  : ToolRuntime unit unit unit unit unit unit unit unit := {|
  exec_approval_requirement _ := Some requirement;
  tool_sandbox_permissions _ := RequireEscalated;
  should_bypass_approval := default_should_bypass_approval;
  wants_no_sandbox_approval := default_wants_no_sandbox_approval;
  sandbox_preference := Auto;
  escalate_on_failure := true;
  permission_request_payload _ := None;
  tool_sandbox_cwd _ := None;
  start_approval _ _ w := (answer, w);
  run_tool _ a w := (match attempt_sandbox a with NoSandbox => inr tt | _ => inl (SandboxDenied tt None) end, w);
  run_permission_request_hooks _ _ w := (None, w);
  new_guardian_review_id w := (&"review", w);
  guardian_rejection_message _ w := (&"no", w);
  guardian_timeout_message := &"late";
  begin_network_approval _ _ w := (None, w);
  approval_mode _ := Immediate;
  into_deferred _ := None;
  finish_immediate_network_approval _ w := (None, w);
  finish_deferred_network_approval _ w := (None, w)
|}.

(** A workspace in which one file must not be read *)
Definition denied_read_turn : TurnContext := {|
  turn_profile := Managed (ManagedRestricted
    [{| e_path := Special Root; e_access := Read |}; {| e_path := Path &"/w"; e_access := Write |};
     {| e_path := Path &"/w/secret"; e_access := Deny |}] None) NetworkRestricted;
  strict_auto_review := false; routes_to_guardian := false; has_network_proxy := false; turn_level := LevelDisabled;
  turn_cwd := &"/w"; turn_workspace_roots := [&"/w"]; turn_linux_sandbox_exe := None;
  turn_use_legacy_landlock := false; turn_private_desktop := false
|}.

Definition demo_run (answer : ReviewDecision) :=
  run (Htool := stopped_tool answer (Skip false None)) Linux tt (&"call") denied_read_turn OnFailure {| world := tt; log := [] |}.

Lemma orchestrator_course_witness :
  exists evs, log (demo_run Denied).2 = evs /\
    course (Htool := stopped_tool Denied (Skip false None)) Linux tt (&"call") denied_read_turn OnFailure
      (inl (Rejected (&"rejected by user"))) evs /\ length evs = 3.
Proof.
  destruct (orchestrator_course (Htool := stopped_tool Denied (Skip false None)) Linux tt (&"call") denied_read_turn OnFailure
    {| world := tt; log := [] |} (demo_run Denied).2 (inl (Rejected (&"rejected by user")))) as (evs & El & Hc).
  { vm_compute. reflexivity. }
  exists evs. split; [exact El|]. split; [exact Hc|]. cbn [log app] in El. rewrite <- El. vm_compute. reflexivity.
Defined.

(** The first attempt keeps the sandbox because a read is denied; the retry runs
    without one, after an approval, and with it without the denial. *)
Lemma unsandboxed_attempt_needs_grant_witness :
  map is_attempt (log (demo_run Approved).2) = [true; false; false; true; false] /\
  exists e, e ∈ take 3 (log (demo_run Approved).2) /\ grants e = true.
Proof.
  split; [vm_compute; reflexivity|].
  apply (unsandboxed_attempt_needs_grant (Htool := stopped_tool Approved (Skip false None)) Linux tt (&"call") denied_read_turn OnFailure
    tt (demo_run Approved).2 (demo_run Approved).1 LinuxSeccomp (take 3 (log (demo_run Approved).2)) (drop 4 (log (demo_run Approved).2)));
    try (vm_compute; reflexivity); [discriminate|].
  intros policy already Hwant Hb. cbn in Hwant, Hb. destruct already; [reflexivity|].
  destruct policy; cbn in Hwant, Hb; try discriminate. by destruct Hwant.
Defined.

(** The denied read holds the explicit escalation of the first attempt back, and
    not the retry. *)
Lemma retry_drops_denied_reads :
  has_denied_read_restrictions (file_system_sandbox_policy (turn_profile denied_read_turn)) = true /\
  exists ctx, log (demo_run Approved).2 =
    [Attempt LinuxSeccomp; Ran None (inl (SandboxDenied tt None)); Review ctx Approved; Attempt NoSandbox; Ran None (inr tt)].
Proof. split; [reflexivity|]. eexists. vm_compute. reflexivity. Qed.
