(* ===== verification/McpNames.v ===== *)
(** * codex-mcp/src/tools.rs: the names of MCP tools

    The tools of MCP servers get model-visible names: sanitised, unique and
    within the length the API allows, while the raw names stay for the calls.
    Wires without namespaces flatten a name ([flat_mcp_tool_name]) and read it
    back ([parse_flat_mcp_tool_name]). *)
From S2P Require Import Prelude RustStr MachineInt Protocol Json StreamText ExecPolicy AnthropicWire.

Definition LEGACY_MCP_TOOL_NAME_PREFIX : str := &"mcp__".
Definition MCP_TOOL_NAME_DELIMITER : str := &"__".
Definition MAX_TOOL_NAME_LENGTH : N := 64.
Definition CALLABLE_NAME_HASH_LEN : N := 12.
Definition META_OPENAI_FILE_PARAMS : str := &"openai/fileParams".
Definition u32_max : N := 2 ^ 32 - 1.

(** The digest of the crate [sha1], 20 bytes, and the fields of [rmcp::model::Tool]
    that this code only carries along. *)
Class McpEnv := {
  sha1 : str -> list N;
  sha1_length : forall s, length (sha1 s) = 20;
  ToolRest : Type
}.

Section names.
Context {env : McpEnv}.

Record Tool := {
  t_name : str;
  t_meta : option (list (str * Value));
  t_input_schema : list (str * Value);
  t_rest : ToolRest
}.

Record ToolInfo := {
  server_name : str;
  supports_parallel_tool_calls : bool;
  server_origin : option str;
  callable_name : str;
  callable_namespace : str;
  namespace_description : option str;
  tool : Tool;
  connector_id : option str;
  connector_name : option str;
  plugin_display_names : list str
}.

Definition with_callable (namespace name : str) (t : ToolInfo) : ToolInfo :=
  {| server_name := server_name t; supports_parallel_tool_calls := supports_parallel_tool_calls t;
     server_origin := server_origin t; callable_name := name; callable_namespace := namespace;
     namespace_description := namespace_description t; tool := tool t; connector_id := connector_id t;
     connector_name := connector_name t; plugin_display_names := plugin_display_names t |}.

(** [ToolName] as the pair of its namespace and its name *)
Definition canonical_tool_name (t : ToolInfo) : option str * str :=
  (Some (callable_namespace t), callable_name t).

(** ** Filtering *)

Record ToolFilter := { enabled : option (gset str); disabled : gset str }.

(** [cfg] by the two fields it reads *)
Definition from_config (enabled_tools disabled_tools : option (list str)) : ToolFilter :=
  {| enabled := option_map list_to_set enabled_tools;
     disabled := default ∅ (option_map list_to_set disabled_tools) |}.

Definition allows (f : ToolFilter) (tool_name : str) : bool :=
  match enabled f with
  | Some enabled => if negb (bool_decide (tool_name ∈ enabled)) then false
                    else negb (bool_decide (tool_name ∈ disabled f))
  | None => negb (bool_decide (tool_name ∈ disabled f))
  end.

Definition filter_tools (tools : list ToolInfo) (f : ToolFilter) : list ToolInfo :=
  List.filter (fun t => allows f (t_name (tool t))) tools.

(** ** File parameters *)

Definition declared_openai_file_input_param_names (meta : option (list (str * Value))) : list str :=
  match meta with
  | None => []
  | Some meta =>
      match field_get META_OPENAI_FILE_PARAMS meta with
      | Some (Array vs) => List.filter (fun s => match s with [] => false | _ => true end) (omap as_str vs)
      | _ => []
      end
  end.

Definition guidance : str :=
  &"This parameter expects an absolute local file path. If you want to upload a file, provide the absolute path to that file here.".

Definition mask_input_property_schema (schema : Value) : Value :=
  match schema with
  | Object object =>
      let description := default [] (field_get (&"description") object ≫= as_str) in
      let description :=
        match description with
        | [] => guidance
        | _ => if negb (contains_str guidance description) then description ++ &" " ++ guidance else description
        end in
      let is_array :=
        bool_decide (field_get (&"type") object ≫= as_str = Some (&"array")) ||
        bool_decide (is_Some (field_get (&"items") object)) in
      Object ((&"description", VString description) ::
              if is_array
              then [(&"type", VString (&"array"));
                    (&"items", Object [(&"type", VString (&"string"))])]
              else [(&"type", VString (&"string"))])
  | _ => schema
  end.

(** [if let Some(x) = map.get_mut(key) { *x = f(x) }] *)
Definition fields_alter (key : str) (f : Value -> Value) (fields : list (str * Value)) : list (str * Value) :=
  map (fun e => if str_eqb e.1 key then (e.1, f e.2) else e) fields.

Definition mask_input_schema_for_file_path_params (input_schema : list (str * Value)) (file_params : list str)
  : list (str * Value) :=
  match field_get (&"properties") input_schema with
  | Some (Object properties) =>
      let properties :=
        foldl (fun ps field_name => fields_alter field_name mask_input_property_schema ps) properties file_params in
      fields_alter (&"properties") (fun _ => Object properties) input_schema
  | _ => input_schema
  end.

Definition tool_with_model_visible_input_schema (t : Tool) : Tool :=
  match declared_openai_file_input_param_names (t_meta t) with
  | [] => t
  | file_params =>
      {| t_name := t_name t; t_meta := t_meta t;
         t_input_schema := mask_input_schema_for_file_path_params (t_input_schema t) file_params;
         t_rest := t_rest t |}
  end.

(** ** Names *)

Definition is_ascii_alphanumeric (c : char) : bool :=
  is_ascii_digit c || ((65 <=? c)%N && (c <=? 90)%N) || ((97 <=? c)%N && (c <=? 122)%N).
Definition is_word (c : char) : bool := is_ascii_alphanumeric c || (c =? 95)%N.

(** [codex-mcp/src/mcp/mod.rs] *)
Definition sanitize_responses_api_tool_name (name : str) : str :=
  match map (fun c => if is_word c then c else 95%N) name with
  | [] => &"_"
  | sanitized => sanitized
  end.

Definition callable_namespace_with_prefix (namespace : str) (prefix_mcp_tool_names : bool) : str :=
  if negb prefix_mcp_tool_names || starts_with LEGACY_MCP_TOOL_NAME_PREFIX namespace then namespace
  else LEGACY_MCP_TOOL_NAME_PREFIX ++ namespace.

Definition parse_flat_mcp_tool_name (name : str) : option str * str :=
  match strip_prefix LEGACY_MCP_TOOL_NAME_PREFIX name with
  | None => (None, name)
  | Some rest =>
      match find MCP_TOOL_NAME_DELIMITER rest with
      | None => (None, name)
      | Some idx =>
          let server := take idx rest in
          let tool := drop (length MCP_TOOL_NAME_DELIMITER) (drop idx rest) in
          match server, tool with
          | [], _ | _, [] => (None, name)
          | _, _ => (Some (LEGACY_MCP_TOOL_NAME_PREFIX ++ server), tool)
          end
      end
  end.

Definition hex_digit (n : N) : char := if (n <? 10)%N then (48 + n)%N else (87 + n)%N.

(** [format!("{sha1:x}")] *)
Definition sha1_hex (s : str) : str :=
  concat (map (fun b => [hex_digit (b / 16 mod 16)%N; hex_digit (b mod 16)%N]) (sha1 s)).

Definition callable_name_hash_suffix (raw_identity : str) : comp False str :=
  let? hash := unwrap (bytes_to CALLABLE_NAME_HASH_LEN (sha1_hex raw_identity)) in
  Ok (&"_" ++ hash).

Definition append_hash_suffix (value raw_identity : str) : comp False str :=
  let? suffix := callable_name_hash_suffix raw_identity in Ok (value ++ suffix).

Definition append_namespace_hash_suffix (namespace raw_identity : str) : comp False str :=
  match strip_suffix MCP_TOOL_NAME_DELIMITER namespace with
  | Some namespace =>
      let? suffix := callable_name_hash_suffix raw_identity in
      Ok (namespace ++ suffix ++ MCP_TOOL_NAME_DELIMITER)
  | None => append_hash_suffix namespace raw_identity
  end.

Definition truncate_name (value : str) (max_len : N) : str := take (N.to_nat max_len) value.

Definition fit_callable_parts_with_hash (namespace tool_name raw_identity : str) (reserved_len : N)
  : comp False (str * str) :=
  let? suffix := callable_name_hash_suffix raw_identity in
  let max_tool_len := (MAX_TOOL_NAME_LENGTH - (str_len namespace + reserved_len))%N in
  if (str_len suffix <=? max_tool_len)%N then
    let prefix_len := (max_tool_len - str_len suffix)%N in
    Ok (namespace, truncate_name tool_name prefix_len ++ suffix)
  else
    let max_namespace_len := (MAX_TOOL_NAME_LENGTH - (str_len suffix + reserved_len))%N in
    Ok (truncate_name namespace max_namespace_len, suffix).

Definition hash_input (raw_identity : str) (attempt : N) : str :=
  if (attempt =? 0)%N then raw_identity else raw_identity ++ [0%N] ++ show_N attempt.

(** The [loop]; a round that finds the name taken tries the next attempt. *)
Fixpoint unique_loop (fuel : nat) (attempt : N) (namespace tool_name raw_identity : str) (used_names : gset str)
    (reserved_len : N) : comp False (str * str * gset str) :=
  match fuel with
  | 0 => Loop
  | S fuel =>
      let? '(namespace', tool_name') :=
        fit_callable_parts_with_hash namespace tool_name (hash_input raw_identity attempt) reserved_len in
      let model_name := namespace' ++ tool_name' in
      if bool_decide (model_name ∉ used_names) then Ok (namespace', tool_name', {[model_name]} ∪ used_names)
      else unique_loop fuel (N.min (attempt + 1) u32_max) namespace tool_name raw_identity used_names reserved_len
  end.

Definition unique_callable_parts (namespace tool_name raw_identity : str) (used_names : gset str)
    (reserved_len : N) : comp False (str * str * gset str) :=
  let model_name := namespace ++ tool_name in
  if (str_len model_name + reserved_len <=? MAX_TOOL_NAME_LENGTH)%N && bool_decide (model_name ∉ used_names)
  then Ok (namespace, tool_name, {[model_name]} ∪ used_names)
  else unique_loop (S (size used_names)) 0 namespace tool_name raw_identity used_names reserved_len.

(** ** normalize_tools_for_model_with_prefix *)

Record CallableToolCandidate := {
  c_tool : ToolInfo;
  c_raw_namespace_identity : str;
  c_raw_tool_identity : str;
  c_callable_namespace : str;
  c_callable_name : str
}.

Definition raw_namespace_identity (t : ToolInfo) : str :=
  server_name t ++ [0%N] ++ callable_namespace t ++ [0%N] ++ default [] (connector_id t).

Definition raw_tool_identity (t : ToolInfo) : str :=
  raw_namespace_identity t ++ [0%N] ++ callable_name t ++ [0%N] ++ t_name (tool t).

Fixpoint collect_candidates (prefix_mcp_tool_names : bool) (seen_raw_names : gset str) (tools : list ToolInfo)
  : list CallableToolCandidate :=
  match tools with
  | [] => []
  | t :: tools =>
      if bool_decide (raw_tool_identity t ∈ seen_raw_names)
      then collect_candidates prefix_mcp_tool_names seen_raw_names tools
      else
        {| c_tool := t;
           c_raw_namespace_identity := raw_namespace_identity t;
           c_raw_tool_identity := raw_tool_identity t;
           c_callable_namespace :=
             callable_namespace_with_prefix (sanitize_responses_api_tool_name (callable_namespace t))
               prefix_mcp_tool_names;
           c_callable_name := sanitize_responses_api_tool_name (callable_name t) |}
        :: collect_candidates prefix_mcp_tool_names ({[raw_tool_identity t]} ∪ seen_raw_names) tools
  end.

(** The keys under which more than one identity is filed *)
Definition identities_by {K} `{Countable K} (key : CallableToolCandidate -> K) (identity : CallableToolCandidate -> str)
    (candidates : list CallableToolCandidate) : gmap K (gset str) :=
  foldl (fun m c => <[key c := {[identity c]} ∪ default ∅ (m !! key c)]> m) ∅ candidates.
Definition colliding {K} `{Countable K} (m : gmap K (gset str)) : gset K :=
  dom (filter (fun e => 1 < size e.2) m).

Definition set_callable (namespace name : str) (c : CallableToolCandidate) : CallableToolCandidate :=
  {| c_tool := c_tool c; c_raw_namespace_identity := c_raw_namespace_identity c;
     c_raw_tool_identity := c_raw_tool_identity c; c_callable_namespace := namespace; c_callable_name := name |}.

Fixpoint try_map {A B} (f : A -> comp False B) (l : list A) : comp False (list B) :=
  match l with
  | [] => Ok []
  | x :: l => let? y := f x in let? ys := try_map f l in Ok (y :: ys)
  end.

Definition disambiguate_namespaces (candidates : list CallableToolCandidate)
  : comp False (list CallableToolCandidate) :=
  let colliding_namespaces :=
    colliding (identities_by c_callable_namespace c_raw_namespace_identity candidates) in
  try_map (fun c =>
    if bool_decide (c_callable_namespace c ∈ colliding_namespaces) then
      let? namespace := append_namespace_hash_suffix (c_callable_namespace c) (c_raw_namespace_identity c) in
      Ok (set_callable namespace (c_callable_name c) c)
    else Ok c) candidates.

Definition disambiguate_tools (candidates : list CallableToolCandidate) : comp False (list CallableToolCandidate) :=
  let colliding_tools :=
    colliding (identities_by (fun c => (c_callable_namespace c, c_callable_name c)) c_raw_tool_identity candidates) in
  try_map (fun c =>
    if bool_decide ((c_callable_namespace c, c_callable_name c) ∈ colliding_tools) then
      let? name := append_hash_suffix (c_callable_name c) (c_raw_tool_identity c) in
      Ok (set_callable (c_callable_namespace c) name c)
    else Ok c) candidates.

(** [sort_by], which is stable *)
Fixpoint insert_candidate (c : CallableToolCandidate) (l : list CallableToolCandidate) : list CallableToolCandidate :=
  match l with
  | [] => [c]
  | d :: l' => if str_leb (c_raw_tool_identity c) (c_raw_tool_identity d) then c :: l else d :: insert_candidate c l'
  end.
Definition sort_candidates (l : list CallableToolCandidate) : list CallableToolCandidate := foldr insert_candidate [] l.

Fixpoint assign_names (used_names : gset str) (candidates : list CallableToolCandidate)
  : comp False (list ToolInfo) :=
  match candidates with
  | [] => Ok []
  | c :: candidates =>
      let? '(namespace, name, used_names) :=
        unique_callable_parts (c_callable_namespace c) (c_callable_name c) (c_raw_tool_identity c) used_names
          (str_len MCP_TOOL_NAME_DELIMITER) in
      let? model_tools := assign_names used_names candidates in
      Ok (with_callable namespace name (c_tool c) :: model_tools)
  end.

Definition normalize_tools_for_model_with_prefix (tools : list ToolInfo) (prefix_mcp_tool_names : bool)
  : comp False (list ToolInfo) :=
  let candidates := collect_candidates prefix_mcp_tool_names ∅ tools in
  let? candidates := disambiguate_namespaces candidates in
  let? candidates := disambiguate_tools candidates in
  assign_names ∅ (sort_candidates candidates).

(** ** Word characters *)

Definition word_str (s : str) : Prop := Forall (fun c => is_word c = true) s.

Lemma is_word_len c : is_word c = true -> char_len c = 1%N.
Proof.
  unfold is_word, is_ascii_alphanumeric, is_ascii_digit, char_len, len_utf8.
  rewrite !orb_true_iff, !andb_true_iff, !N.leb_le, N.eqb_eq. intros H.
  destruct (N.ltb_spec c 128); [done|lia].
Qed.

Lemma word_str_len s : word_str s -> str_len s = N.of_nat (length s).
Proof.
  induction 1 as [|c s Hc _ IH]; [done|]. rewrite str_len_cons, IH, is_word_len by done. cbn [length]. lia.
Qed.

Lemma word_str_app a b : word_str (a ++ b) <-> word_str a /\ word_str b.
Proof. apply Forall_app. Qed.

Lemma word_str_take n s : word_str s -> word_str (take n s).
Proof. apply Forall_take. Qed.

Lemma bytes_to_word n s : word_str s -> n <= length s -> bytes_to (N.of_nat n) s = Some (take n s).
Proof.
  intros Hs Hn. rewrite <- (take_drop n s) at 1.
  replace (N.of_nat n) with (str_len (take n s)); [apply bytes_to_app|].
  rewrite word_str_len by auto using word_str_take. rewrite length_take. lia.
Qed.

Lemma sanitize_word name : word_str (sanitize_responses_api_tool_name name).
Proof.
  unfold sanitize_responses_api_tool_name.
  assert (word_str (map (fun c => if is_word c then c else 95%N) name)) as H.
  { apply Forall_map, Forall_true. intros c. cbn. by destruct (is_word c) eqn:E. }
  destruct (map _ name); [by repeat constructor|done].
Qed.

Lemma prefix_word namespace b : word_str namespace -> word_str (callable_namespace_with_prefix namespace b).
Proof.
  intros H. unfold callable_namespace_with_prefix. case_match; [done|]. apply word_str_app. split; [|done].
  by repeat constructor.
Qed.

(** ** Hash suffixes *)

Definition suffix_of (raw_identity : str) : str := 95%N :: take 12 (sha1_hex raw_identity).

Lemma hex_digit_word n : (n < 16)%N -> is_word (hex_digit n) = true.
Proof.
  intros H. unfold is_word, is_ascii_alphanumeric, is_ascii_digit, hex_digit.
  rewrite !orb_true_iff, !andb_true_iff, !N.leb_le, N.eqb_eq. destruct (N.ltb_spec n 10); lia.
Qed.

Lemma sha1_hex_word s : word_str (sha1_hex s).
Proof.
  unfold sha1_hex. induction (sha1 s) as [|b l IH]; [by constructor|]. cbn.
  constructor; [|constructor; [|done]]; apply hex_digit_word, N.mod_lt; done.
Qed.

Lemma sha1_hex_length s : length (sha1_hex s) = 40.
Proof.
  unfold sha1_hex. assert (forall l : list N, length (concat (map (fun b =>
    [hex_digit (b / 16 mod 16)%N; hex_digit (b mod 16)%N]) l)) = 2 * length l) as ->.
  { induction l as [|b l IH]; [done|]. cbn in *. lia. }
  by rewrite sha1_length.
Qed.

Lemma hash_suffix_ok r : callable_name_hash_suffix r = Ok (suffix_of r).
Proof.
  unfold callable_name_hash_suffix, CALLABLE_NAME_HASH_LEN. change 12%N with (N.of_nat 12).
  rewrite bytes_to_word; [done|apply sha1_hex_word|]. rewrite sha1_hex_length. lia.
Qed.

Lemma suffix_word r : word_str (suffix_of r).
Proof. constructor; [done|]. apply word_str_take, sha1_hex_word. Qed.

Lemma suffix_length r : length (suffix_of r) = 13.
Proof. cbn. rewrite length_take, sha1_hex_length. done. Qed.

(** ** Fitting a name into the limit *)

(** What a name handed to the model meets: only word characters, and with the
    delimiter between its parts at most 64 bytes. *)
Definition fits (namespace name : str) : Prop :=
  word_str namespace /\ word_str name /\ (str_len (namespace ++ MCP_TOOL_NAME_DELIMITER ++ name) <= MAX_TOOL_NAME_LENGTH)%N.

Lemma fits_length a b : word_str a -> word_str b -> length a + length b <= 62 -> fits a b.
Proof.
  intros Ha Hb Hl. split_and!; [done..|]. unfold MAX_TOOL_NAME_LENGTH. rewrite !str_len_app.
  change (str_len MCP_TOOL_NAME_DELIMITER) with 2%N. rewrite (word_str_len a), (word_str_len b) by done. lia.
Qed.

Lemma fit_spec namespace name r :
  word_str namespace -> word_str name ->
  exists namespace' name' body,
    fit_callable_parts_with_hash namespace name r 2 = Ok (namespace', name') /\
    namespace' ++ name' = body ++ suffix_of r /\ fits namespace' name'.
Proof.
  intros Hns Hn. unfold fit_callable_parts_with_hash. rewrite hash_suffix_ok. cbn [comp_bind].
  pose proof (suffix_length r) as Hs. pose proof (suffix_word r) as Hw. rewrite !word_str_len by done.
  unfold MAX_TOOL_NAME_LENGTH, truncate_name. rewrite Hs.
  destruct (N.leb_spec (N.of_nat 13) (64 - (N.of_nat (length namespace) + 2))).
  - eexists _, _, (namespace ++ take _ name). split_and!; [done|by rewrite app_assoc|].
    apply fits_length; [done|by apply word_str_app; auto using word_str_take|].
    rewrite length_app, length_take, Hs. lia.
  - eexists _, _, (take _ namespace). split_and!; [done..|].
    apply fits_length; [by apply word_str_take|done|]. rewrite length_take, Hs. lia.
Qed.

(** The suffixes of the first [n] attempts *)
Definition attempt (k : nat) : N := N.min (N.of_nat k) u32_max.
Definition attempt_suffixes (raw_identity : str) (n : nat) : list str :=
  map (fun k => suffix_of (hash_input raw_identity (attempt k))) (seq 0 n).

Lemma attempt_suffixes_mono raw n m :
  n <= m -> NoDup (attempt_suffixes raw m) -> NoDup (attempt_suffixes raw n).
Proof.
  intros Hle Hnd. eapply sublist_NoDup; [exact Hnd|]. unfold attempt_suffixes.
  replace m with (n + (m - n)) by lia. rewrite seq_app, map_app. by apply sublist_inserts_r.
Qed.

Lemma attempt_succ k : N.min (attempt k + 1) u32_max = attempt (S k).
Proof. unfold attempt. lia. Qed.

(** ** A name that is not taken *)

Section unique.
Context (namespace name raw : str) (used : gset str).
Context (Hns : word_str namespace) (Hname : word_str name).

(** The outcome of the loop: a new name, or every attempt was taken. *)
Definition chosen (r : comp False (str * str * gset str)) : Prop :=
  exists namespace' name',
    r = Ok (namespace', name', {[namespace' ++ name']} ∪ used) /\ namespace' ++ name' ∉ used /\ fits namespace' name'.

Lemma unique_loop_spec fuel k :
  chosen (unique_loop fuel (attempt k) namespace name raw used 2) \/
  unique_loop fuel (attempt k) namespace name raw used 2 = Loop /\
  Forall (fun s => exists body, body ++ s ∈ used)
    (map (fun k => suffix_of (hash_input raw (attempt k))) (seq k fuel)).
Proof using Hns Hname.
  revert k. induction fuel as [|fuel IH]; intros k; [right; by split|]. cbn [unique_loop seq map].
  destruct (fit_spec namespace name (hash_input raw (attempt k)) Hns Hname) as (ns' & n' & body & -> & Hb & Hf).
  cbn [comp_bind]. case_bool_decide as Hu; [left; by exists ns', n'|]. rewrite attempt_succ.
  destruct (IH (S k)) as [H|[-> H]]; [by left|right]. split; [done|]. constructor; [|done].
  exists body. rewrite <- Hb. destruct (decide (ns' ++ n' ∈ used)); naive_solver.
Qed.

(** Distinct suffixes of one length make distinct names. *)
Lemma suffixes_exceed (l : list str) :
  NoDup l -> Forall (fun s => length s = 13) l -> Forall (fun s => exists body, body ++ s ∈ used) l ->
  length l <= size used.
Proof.
  intros Hnd Hlen Hall.
  assert (exists names : list str, Forall2 (fun n s => n ∈ used /\ drop (length n - 13) n = s) names l) as [names Hn].
  { clear Hnd. induction Hall as [|s l [body Hb] _ IH]; [by exists []|]. apply Forall_cons in Hlen as [Hs Hlen].
    destruct (IH Hlen) as [names Hn]. exists ((body ++ s) :: names). constructor; [split; [done|]|done].
    rewrite length_app, Hs, Nat.add_sub. apply drop_app_length. }
  assert (NoDup names) as Hnn.
  { apply (NoDup_fmap_1 (fun n => drop (length n - 13) n)).
    replace (_ <$> names) with l; [done|]. clear -Hn. induction Hn as [|n s names l [_ <-] _ IH]; [done|]. cbn.
    by f_equal. }
  rewrite <- (Forall2_length _ _ _ Hn), <- (size_list_to_set (C := gset str) names) by done.
  apply subseteq_size. intros n Hin%elem_of_list_to_set. apply list_elem_of_lookup in Hin as [i Hi].
  destruct (Forall2_lookup_l _ _ _ _ _ Hn Hi) as (s & _ & Hu & _). done.
Qed.

Lemma attempt_suffixes_length n : Forall (fun s => length s = 13) (attempt_suffixes raw n).
Proof using Type. apply Forall_map, Forall_true. intros k. apply suffix_length. Qed.

Lemma unique_callable_parts_spec :
  (chosen (unique_callable_parts namespace name raw used 2) \/
   unique_callable_parts namespace name raw used 2 = Loop) /\
  (NoDup (attempt_suffixes raw (S (size used))) -> chosen (unique_callable_parts namespace name raw used 2)).
Proof using Hns Hname.
  unfold unique_callable_parts.
  destruct ((str_len (namespace ++ name) + 2 <=? MAX_TOOL_NAME_LENGTH)%N && bool_decide (namespace ++ name ∉ used)) eqn:E.
  - apply andb_true_iff in E as [Hl%N.leb_le Hu%bool_decide_eq_true].
    assert (chosen (Ok (namespace, name, {[namespace ++ name]} ∪ used))) as H; [|auto].
    exists namespace, name. split_and!; [done..|]. rewrite str_len_app in Hl.
    split_and!; [done..|]. rewrite !str_len_app. change (str_len MCP_TOOL_NAME_DELIMITER) with 2%N. lia.
  - change 0%N with (attempt 0). destruct (unique_loop_spec (S (size used)) 0) as [H|[H Ht]]; [auto|].
    split; [by right|]. intros Hnd. exfalso.
    pose proof (suffixes_exceed _ Hnd (attempt_suffixes_length _) Ht) as Hs.
    unfold attempt_suffixes in Hs. rewrite length_map, length_seq in Hs. lia.
Qed.
End unique.

(** ** The tools of all servers *)

Definition candidate_ok (c : CallableToolCandidate) : Prop :=
  word_str (c_callable_namespace c) /\ word_str (c_callable_name c) /\
  c_raw_tool_identity c = raw_tool_identity (c_tool c).

Definition model_name (t : ToolInfo) : str := callable_namespace t ++ callable_name t.

(** [o] is [t] under another callable name. *)
Definition renamed (o t : ToolInfo) : Prop :=
  o = with_callable (callable_namespace o) (callable_name o) t /\ fits (callable_namespace o) (callable_name o).

Definition names_assigned (used : gset str) (cs : list CallableToolCandidate) (out : list ToolInfo) : Prop :=
  NoDup (model_name <$> out) /\ (forall o, o ∈ out -> model_name o ∉ used) /\ Forall2 renamed out (c_tool <$> cs).

Lemma assign_names_spec cs used :
  Forall candidate_ok cs ->
  (match assign_names used cs with Ok out => names_assigned used cs out | Loop => True | _ => False end) /\
  (Forall (fun c => NoDup (attempt_suffixes (c_raw_tool_identity c) (size used + length cs))) cs ->
   exists out, assign_names used cs = Ok out).
Proof.
  intros Hok. revert used. induction Hok as [|c cs (Hns & Hn & _) _ IH]; intros used; cbn [assign_names].
  { split; [|by eexists]. split_and!; [constructor|by intros ? ?%not_elem_of_nil|constructor]. }
  change (str_len MCP_TOOL_NAME_DELIMITER) with 2%N.
  destruct (unique_callable_parts_spec _ _ (c_raw_tool_identity c) used Hns Hn) as [Hpart Htot].
  assert (NoDup (attempt_suffixes (c_raw_tool_identity c) (size used + length (c :: cs))) ->
    chosen used (unique_callable_parts (c_callable_namespace c) (c_callable_name c) (c_raw_tool_identity c) used 2))
    as Hchosen.
  { intros Hnd. apply Htot. eapply attempt_suffixes_mono; [|exact Hnd]. cbn [length]. lia. }
  clear Htot. destruct Hpart as [Hc|Hl].
  2:{ rewrite Hl in Hchosen |- *. split; [done|]. intros Hf. apply Forall_cons in Hf as [(?&?&?&_)%Hchosen _]. done. }
  clear Hchosen. destruct Hc as (ns' & n' & -> & Hfresh & Hfits). cbn [comp_bind].
  destruct (IH ({[ns' ++ n']} ∪ used)) as [IHp IHt]. split.
  - destruct (assign_names _ cs) as [out| | |]; try done. cbn [comp_bind]. destruct IHp as (Hnd & Hu & H2).
    split_and!.
    + constructor; [|done]. intros (o & Ho & Hin)%list_elem_of_fmap. specialize (Hu o Hin). rewrite <- Ho in Hu.
      unfold model_name in Hu. cbn in Hu. set_solver.
    + intros o [->|Hin]%elem_of_cons; [done|]. specialize (Hu o Hin). set_solver.
    + constructor; [by split|done].
  - intros Hf. destruct IHt as [out ->]; [|by eexists]. apply Forall_cons in Hf as [_ Hf].
    rewrite size_union, size_singleton by set_solver. cbn [length] in Hf.
    by replace (1 + size used + length cs) with (size used + S (length cs)) by lia.
Qed.

Lemma collect_spec b seen tools :
  let cs := collect_candidates b seen tools in
  Forall candidate_ok cs /\ (c_tool <$> cs) `sublist_of` tools /\
  NoDup (raw_tool_identity <$> (c_tool <$> cs)) /\
  (forall t, t ∈ c_tool <$> cs -> raw_tool_identity t ∉ seen) /\
  (forall t, t ∈ tools -> raw_tool_identity t ∈ seen \/ raw_tool_identity t ∈ raw_tool_identity <$> (c_tool <$> cs)).
Proof.
  revert seen. induction tools as [|t tools IH]; intros seen; cbn [collect_candidates].
  { split_and!; [constructor..| |]; by intros ? ?%not_elem_of_nil. }
  case_bool_decide as Hseen.
  - destruct (IH seen) as (Hok & Hsub & Hnd & Hout & Hin). split_and!; [done|by apply sublist_cons|done|done|].
    intros t' [->|Ht]%elem_of_cons; auto.
  - destruct (IH ({[raw_tool_identity t]} ∪ seen)) as (Hok & Hsub & Hnd & Hout & Hin). cbn [fmap list_fmap c_tool].
    split_and!.
    + constructor; [|done]. split_and!; cbn; auto using sanitize_word, prefix_word.
    + by apply sublist_skip.
    + constructor; [|done]. intros (t' & Ht' & Hin')%list_elem_of_fmap. specialize (Hout t' Hin'). set_solver.
    + intros t' [->|Ht]%elem_of_cons; [done|]. specialize (Hout t' Ht). set_solver.
    + intros t' [->|Ht]%elem_of_cons; [right; apply elem_of_cons; auto|].
      destruct (Hin t' Ht) as [H|H]; [|right; apply elem_of_cons; auto].
      apply elem_of_union in H as [->%elem_of_singleton|H]; [right; apply elem_of_cons; auto|auto].
Qed.

Lemma append_hash_suffix_word v r : word_str v -> exists s, append_hash_suffix v r = Ok s /\ word_str s.
Proof.
  intros H. unfold append_hash_suffix. rewrite hash_suffix_ok. eexists. split; [done|].
  apply word_str_app. split; [done|apply suffix_word].
Qed.

Lemma append_namespace_hash_suffix_word v r :
  word_str v -> exists s, append_namespace_hash_suffix v r = Ok s /\ word_str s.
Proof.
  intros H. unfold append_namespace_hash_suffix. destruct (strip_suffix _ v) as [v'|] eqn:E.
  - apply strip_suffix_Some in E as ->. apply word_str_app in H as [Hv Hd]. rewrite hash_suffix_ok. eexists.
    split; [done|]. rewrite !word_str_app. auto using suffix_word.
  - by apply append_hash_suffix_word.
Qed.

(** A stage that only changes callable names, to other words *)
Lemma try_map_candidates f cs :
  (forall c, candidate_ok c -> exists c', f c = Ok c' /\ candidate_ok c' /\ c_tool c' = c_tool c) ->
  Forall candidate_ok cs ->
  exists cs', try_map f cs = Ok cs' /\ Forall candidate_ok cs' /\ c_tool <$> cs' = c_tool <$> cs.
Proof.
  intros Hf. induction 1 as [|c cs Hc _ (cs' & Hcs & Hok & Ht)]; [by exists []|]. cbn [try_map].
  destruct (Hf c Hc) as (c' & -> & Hc' & Htc). cbn [comp_bind]. rewrite Hcs. exists (c' :: cs'). split_and!; [done|by constructor|].
  cbn. by rewrite Htc, Ht.
Qed.

Lemma disambiguate_namespaces_ok cs :
  Forall candidate_ok cs ->
  exists cs', disambiguate_namespaces cs = Ok cs' /\ Forall candidate_ok cs' /\ c_tool <$> cs' = c_tool <$> cs.
Proof.
  apply try_map_candidates. intros c (Hns & Hn & Hr). case_bool_decide; [|by exists c].
  destruct (append_namespace_hash_suffix_word (c_callable_namespace c) (c_raw_namespace_identity c) Hns)
    as (s & -> & Hs). by eexists.
Qed.

Lemma disambiguate_tools_ok cs :
  Forall candidate_ok cs ->
  exists cs', disambiguate_tools cs = Ok cs' /\ Forall candidate_ok cs' /\ c_tool <$> cs' = c_tool <$> cs.
Proof.
  apply try_map_candidates. intros c (Hns & Hn & Hr). case_bool_decide; [|by exists c].
  destruct (append_hash_suffix_word (c_callable_name c) (c_raw_tool_identity c) Hn) as (s & -> & Hs). by eexists.
Qed.

Lemma insert_candidate_perm c l : insert_candidate c l ≡ₚ c :: l.
Proof. induction l as [|d l IHl]; cbn; [done|]. case_match; [done|]. rewrite IHl. constructor. Qed.

Lemma sort_candidates_perm cs : sort_candidates cs ≡ₚ cs.
Proof. induction cs as [|c cs IH]; [done|]. cbn. rewrite insert_candidate_perm. by constructor. Qed.

(** What the stages before the last one hand on: the distinct tools *)
Lemma candidates_ready tools b :
  exists cs,
    normalize_tools_for_model_with_prefix tools b = assign_names ∅ cs /\
    Forall candidate_ok cs /\ (c_tool <$> cs) ⊆+ tools /\
    NoDup (raw_tool_identity <$> (c_tool <$> cs)) /\
    (forall t, t ∈ tools -> raw_tool_identity t ∈ raw_tool_identity <$> (c_tool <$> cs)).
Proof.
  unfold normalize_tools_for_model_with_prefix. destruct (collect_spec b ∅ tools) as (Hok & Hsub & Hnd & _ & Hin).
  destruct (disambiguate_namespaces_ok _ Hok) as (cs1 & -> & Hok1 & Ht1).
  destruct (disambiguate_tools_ok _ Hok1) as (cs2 & Hcs2 & Hok2 & Ht2). cbn [comp_bind]. rewrite Hcs2. cbn [comp_bind].
  exists (sort_candidates cs2). split; [done|].
  pose proof (fmap_Permutation c_tool _ _ (sort_candidates_perm cs2)) as Hp. rewrite Ht2, Ht1 in Hp.
  pose proof (fmap_Permutation raw_tool_identity _ _ Hp) as Hr. split_and!.
  - eapply Permutation_Forall; [symmetry; apply sort_candidates_perm|done].
  - etrans; [apply Permutation_submseteq, Hp|by apply sublist_submseteq].
  - by rewrite Hr.
  - intros t Ht. eapply elem_of_Permutation_proper; [exact Hr|]. destruct (Hin t Ht) as [?|?]; set_solver.
Qed.

(** The first tools with their identities, in some order *)
Definition distinct_tools (tools srcs : list ToolInfo) : Prop :=
  srcs ⊆+ tools /\ NoDup (raw_tool_identity <$> srcs) /\
  forall t, t ∈ tools -> raw_tool_identity t ∈ raw_tool_identity <$> srcs.

(** C31: when the twelve digit hash suffixes of the attempts for one tool differ, naming
    ends without panic and gives every distinct tool a name of its own: namespace and name
    put together, without the delimiter, differ from those of every other tool; the name
    is of word characters and with the delimiter at most 64 bytes long; everything but the
    callable namespace and name is unchanged and duplicates are dropped. *)
Theorem mcp_names_unique_bounded tools b :
  (forall t, t ∈ tools -> NoDup (attempt_suffixes (raw_tool_identity t) (length tools))) ->
  exists out srcs,
    normalize_tools_for_model_with_prefix tools b = Ok out /\ NoDup (model_name <$> out) /\
    Forall2 renamed out srcs /\ distinct_tools tools srcs.
Proof.
  intros Hh. destruct (candidates_ready tools b) as (cs & -> & Hok & Hsub & Hnd & Hin).
  destruct (assign_names_spec cs ∅ Hok) as [Hp [out Ho]].
  - apply Forall_forall. intros c Hc. destruct (proj1 (Forall_forall _ _) Hok c Hc) as (_ & _ & ->).
    assert (length cs <= length tools) as Hl by (apply submseteq_length in Hsub; by rewrite length_fmap in Hsub).
    rewrite size_empty. eapply attempt_suffixes_mono; [exact Hl|]. apply Hh.
    eapply elem_of_submseteq; [|exact Hsub]. by apply list_elem_of_fmap_2.
  - rewrite Ho in Hp. destruct Hp as (? & _ & ?). by exists out, (c_tool <$> cs).
Qed.

(** ** Flat names *)

(** A namespace that a flat name gives back: the prefix and a server in which,
    followed by the delimiter, no earlier delimiter begins *)
Definition decodable (namespace : str) : Prop :=
  exists server, namespace = LEGACY_MCP_TOOL_NAME_PREFIX ++ server /\ server <> [] /\
    find MCP_TOOL_NAME_DELIMITER (server ++ [95%N]) = None.

Lemma delimiter_first server name :
  find MCP_TOOL_NAME_DELIMITER (server ++ [95%N]) = None <->
  find MCP_TOOL_NAME_DELIMITER (server ++ MCP_TOOL_NAME_DELIMITER ++ name) = Some (length server).
Proof.
  rewrite !find_scan, scan_None, scan_Some, length_app. cbn [length].
  assert (forall j, j < length server ->
    starts_with MCP_TOOL_NAME_DELIMITER (drop j (server ++ [95%N])) =
    starts_with MCP_TOOL_NAME_DELIMITER (drop j (server ++ MCP_TOOL_NAME_DELIMITER ++ name))) as Heq.
  { intros j Hj. rewrite !drop_app_le by lia. destruct (drop j server) as [|x r] eqn:E.
    { apply (f_equal length) in E. rewrite length_drop in E. cbn in E. lia. }
    apply eq_true_iff_eq. rewrite !starts_with_spec. destruct r; cbn; naive_solver. }
  split.
  - intros H. split_and!; [rewrite length_app; lia| |intros j Hj; rewrite <- Heq by done; apply H; lia].
    rewrite drop_app_length. apply starts_with_spec. by eexists.
  - intros (_ & _ & H) j Hj. destruct (decide (j < length server)) as [Hlt|].
    + rewrite Heq by done. by apply H.
    + rewrite drop_app_ge by lia. by destruct (j - length server) as [|[|]].
Qed.

Lemma parse_flat_prefixed rest idx :
  find MCP_TOOL_NAME_DELIMITER rest = Some idx ->
  exists server tool, rest = server ++ MCP_TOOL_NAME_DELIMITER ++ tool /\ length server = idx /\
    parse_flat_mcp_tool_name (LEGACY_MCP_TOOL_NAME_PREFIX ++ rest) =
      match server, tool with
      | [], _ | _, [] => (None, LEGACY_MCP_TOOL_NAME_PREFIX ++ rest)
      | _, _ => (Some (LEGACY_MCP_TOOL_NAME_PREFIX ++ server), tool)
      end.
Proof.
  intros Hf. assert (length (take idx rest) = idx /\ exists tool, drop idx rest = MCP_TOOL_NAME_DELIMITER ++ tool)
    as (Hl & tool & Ht).
  { rewrite find_scan in Hf. apply scan_Some in Hf as (Hi & Hs & _). split; [rewrite length_take; lia|].
    by apply starts_with_spec in Hs. }
  exists (take idx rest), tool. split_and!; [by rewrite <- Ht, take_drop|done|].
  unfold parse_flat_mcp_tool_name. rewrite strip_prefix_app, Hf, Ht, drop_app_length. done.
Qed.

(** Reading a flat name gives back the namespace and the name it was made
    of exactly when the namespace is [mcp__<server>], with a server that has no
    double underscore and does not end in one, and the name is not empty; a
    name without a namespace is read back when it does not begin with [mcp__]. *)
Theorem flat_mcp_name_roundtrip name :
  (forall namespace,
     parse_flat_mcp_tool_name (flat_mcp_tool_name name (Some namespace)) = (Some namespace, name) <->
     decodable namespace /\ name <> []) /\
  (starts_with LEGACY_MCP_TOOL_NAME_PREFIX name = false ->
   parse_flat_mcp_tool_name (flat_mcp_tool_name name None) = (None, name)).
Proof.
  split; [intros namespace; split|].
  - unfold parse_flat_mcp_tool_name at 1.
    destruct (strip_prefix _ (flat_mcp_tool_name name (Some namespace))) as [rest|] eqn:Ep; [|done].
    apply strip_prefix_Some in Ep. destruct (find MCP_TOOL_NAME_DELIMITER rest) as [idx|] eqn:Ef; [|done].
    destruct (parse_flat_prefixed rest idx Ef) as (server & tl & Hrest & Hl & Hparse).
    unfold parse_flat_mcp_tool_name in Hparse. rewrite strip_prefix_app, Ef in Hparse.
    rewrite Ep, Hparse. destruct server as [|c server]; [done|]. destruct tl as [|d tl]; [done|].
    intros [= <- <-]. split; [|done]. exists (c :: server). split_and!; [done..|].
    apply (delimiter_first _ (d :: tl)). by rewrite <- Hrest, Hl.
  - intros [(server & -> & Hs & Hf) Hn].
    assert (flat_mcp_tool_name name (Some (LEGACY_MCP_TOOL_NAME_PREFIX ++ server)) =
      LEGACY_MCP_TOOL_NAME_PREFIX ++ server ++ MCP_TOOL_NAME_DELIMITER ++ name) as ->.
    { cbn. by rewrite <- app_assoc. }
    apply (delimiter_first server name) in Hf.
    destruct (parse_flat_prefixed _ _ Hf) as (server' & name' & Heq & Hl & ->).
    apply app_inj_1 in Heq as [<- [= <-]]; [|done]. by destruct server, name.
  - intros Hp. cbn. unfold parse_flat_mcp_tool_name. unfold starts_with in Hp. by destruct (strip_prefix _ name).
Qed.

Lemma flat_mcp_name_roundtrip_witness :
  (parse_flat_mcp_tool_name (flat_mcp_tool_name (&"read") (Some (&"mcp__fs"))) = (Some (&"mcp__fs"), &"read") <->
   decodable (&"mcp__fs") /\ &"read" <> []) /\
  parse_flat_mcp_tool_name (flat_mcp_tool_name (&"shell") None) = (None, &"shell").
Proof.
  split; [exact (proj1 (flat_mcp_name_roundtrip (&"read")) (&"mcp__fs"))|].
  apply (proj2 (flat_mcp_name_roundtrip (&"shell"))). reflexivity.
Defined.

(** A tool as the client of one server reports it *)
Definition server_tool (rest : ToolRest) (server name : str) : ToolInfo :=
  {| server_name := server; supports_parallel_tool_calls := false; server_origin := None;
     callable_name := name; callable_namespace := server; namespace_description := None;
     tool := {| t_name := name; t_meta := None; t_input_schema := []; t_rest := rest |};
     connector_id := None; connector_name := None; plugin_display_names := [] |}.

Definition wire_name (t : ToolInfo) : str := flat_mcp_tool_name (callable_name t) (Some (callable_namespace t)).

(** The names are unique as pairs but not when flattened: the tool [c] of the
    server [a--b] and the tool [b__c] of the server [a] are advertised under one
    flat name, which is read back as the tool of [a]. *)
Theorem flat_names_collide (rest : ToolRest) :
  exists t1 t2,
    normalize_tools_for_model_with_prefix
      [server_tool rest (&"a--b") (&"c"); server_tool rest (&"a") (&"b__c")] true = Ok [t1; t2] /\
    canonical_tool_name t1 <> canonical_tool_name t2 /\ wire_name t1 = wire_name t2 /\
    server_name t1 = &"a" /\ server_name t2 = &"a--b" /\
    parse_flat_mcp_tool_name (wire_name t2) = canonical_tool_name t1.
Proof. eexists _, _. split; [vm_compute; reflexivity|]. by split_and!. Qed.

(** ** File parameters *)

Lemma contains_str_app p a b : contains_str p b = true -> contains_str p (a ++ b) = true.
Proof.
  intros H. induction a as [|c a IH]; [done|]. cbn. by rewrite IH, orb_true_r.
Qed.

Lemma contains_str_refl s : contains_str s s = true.
Proof. destruct s; [done|]. cbn. rewrite orb_true_iff. left. apply starts_with_spec. exists []. by rewrite app_nil_r. Qed.

Lemma guidance_contained description :
  contains_str guidance
    match description with
    | [] => guidance
    | _ => if negb (contains_str guidance description) then description ++ &" " ++ guidance else description
    end = true.
Proof.
  destruct description as [|c d]; [apply contains_str_refl|].
  destruct (contains_str guidance (c :: d)) eqn:E; cbn [negb]; [done|].
  by do 2 apply contains_str_app; apply contains_str_refl.
Qed.

(** Masking a parameter twice is masking it once. *)
Theorem mask_idempotent schema :
  mask_input_property_schema (mask_input_property_schema schema) = mask_input_property_schema schema.
Proof.
  destruct schema as [| | | | |object]; try done. cbn [mask_input_property_schema].
  pose proof (guidance_contained (default [] (field_get (&"description") object ≫= as_str))) as Hg.
  set (d := match default [] _ with [] => _ | _ => _ end) in *. clearbody d.
  destruct (_ || _); cbn -[contains_str guidance]; eval_keys; cbn -[contains_str guidance];
    (destruct d as [|c d]; [done|]); by rewrite Hg.
Qed.
End names.

Definition example_env : McpEnv :=
  {| sha1 := fun s => (foldr N.add 0 s mod 256)%N :: replicate 19 0%N; sha1_length := fun _ => eq_refl;
     ToolRest := unit |}.

Definition example_tools : list (@ToolInfo example_env) :=
  [@server_tool example_env tt (&"a-b") (&"c"); @server_tool example_env tt (&"a_b") (&"c");
   @server_tool example_env tt (&"a_b") (&"c")].

Lemma mcp_names_unique_bounded_witness :
  exists out srcs : list (@ToolInfo example_env),
    normalize_tools_for_model_with_prefix example_tools true = Ok out /\ NoDup (model_name <$> out) /\
    Forall2 renamed out srcs /\ distinct_tools example_tools srcs.
Proof.
  apply (@mcp_names_unique_bounded example_env).
  intros t Ht. unfold example_tools in Ht. set_unfold in Ht.
  destruct Ht as [->|[->|[->|[]]]]; apply (bool_decide_unpack _); vm_compute; exact I.
Defined.
