(* ===== verification/MessagesSse.v ===== *)
(** * codex-api/src/sse: the event stream of the /messages API

    [messages_wire_types.rs] reads an event from JSON, [messages.rs] turns the
    stream of events into response events on a channel, [usage.rs] normalises
    token counters, and [response_projection.rs] reads a message that was not
    streamed. *)
From S2P Require Import Prelude RustStr MachineInt Protocol Json AnthropicWire McpNames.

(** [serde_json::from_str::<Value>] and [serde_json::to_string] of a [Value] *)
Class ValueText := {
  value_from_str : str -> option Value;
  value_to_string : Value -> str
}.

(** ** Derived [Deserialize] instances

    A struct is read from an object by the names of its fields, or from an array
    by their order; a missing field is [None] here.  In an array the first
    [required] fields, those without [serde(default)], must be present and there
    are no others. *)

Definition struct_fields (required : nat) (names : list str) (v : Value) : option (list (option Value)) :=
  match v with
  | Object fields => Some (map (fun k => field_get k fields) names)
  | Array vs =>
      if (required <=? length vs) && (length vs <=? length names)
      then Some (map Some vs ++ replicate (length names - length vs) None) else None
  | _ => None
  end.

Definition field_required {A} (f : Value -> option A) (o : option Value) : option A := o ≫= f.
Definition field_default {A} (f : Value -> option A) (d : A) (o : option Value) : option A :=
  match o with Some v => f v | None => Some d end.

(** [Option<A>] and [Value] *)
Definition de_option {A} (f : Value -> option A) (v : Value) : option (option A) :=
  match v with Null => Some None | _ => Some <$> f v end.
Definition de_value (v : Value) : option Value := Some v.

(** [u64] and [i64]: a number is its text; one with a fraction or an exponent is
    a float. *)
Fixpoint digits_value (acc : N) (s : str) : option N :=
  match s with
  | [] => Some acc
  | c :: s => if is_ascii_digit c then digits_value (10 * acc + (c - 48))%N s else None
  end.
Definition natural (s : str) : option N := match s with [] => None | _ => digits_value 0 s end.

Definition de_u64 (v : Value) : option N :=
  match v with
  | Number text => match natural text with Some n => if (n <=? usize_max)%N then Some n else None | None => None end
  | _ => None
  end.

Definition de_i64 (v : Value) : option Z :=
  match v with
  | Number (45%N :: text) =>
      match natural text with
      | Some n => if (n =? 0)%N then None else if in_i64 (- Z.of_N n) then Some (- Z.of_N n)%Z else None
      | None => None
      end
  | Number text => match natural text with Some n => if in_i64 (Z.of_N n) then Some (Z.of_N n) else None | None => None end
  | _ => None
  end.

(** ** messages_wire_types.rs *)

Inductive ContentBlock :=
| Text (text : str)
| ToolUse (id name : str) (input : Value)
| Thinking (thinking : str)
| RedactedThinking (data : str)
| ServerToolUse (id name : str) (input : Value)
| WebSearchToolResult (tool_use_id : str) (content : Value)
| CodeExecutionToolUse (id name : str) (input : Value)
| BlockUnknown (tag : str) (raw : Value).

Inductive ContentBlockDelta :=
| TextDelta (text : str)
| InputJsonDelta (partial_json : str)
| ThinkingDelta (thinking : str)
| SignatureDelta (signature : str)
| CitationsDelta (citation : Value)
| DeltaUnknown (tag : str) (raw : Value).

Inductive StopReason := EndTurn | MaxTokens | StopSequence | StopToolUse | PauseTurn | Refusal | StopUnknown.

Definition as_wire_str (r : StopReason) : str :=
  match r with
  | EndTurn => &"end_turn"
  | MaxTokens => &"max_tokens"
  | StopSequence => &"stop_sequence"
  | StopToolUse => &"tool_use"
  | PauseTurn => &"pause_turn"
  | Refusal => &"refusal"
  | StopUnknown => &"unknown"
  end.

Definition stop_reason_of_tag (s : str) : StopReason :=
  if str_eqb s (&"end_turn") then EndTurn
  else if str_eqb s (&"max_tokens") then MaxTokens
  else if str_eqb s (&"stop_sequence") then StopSequence
  else if str_eqb s (&"tool_use") then StopToolUse
  else if str_eqb s (&"pause_turn") then PauseTurn
  else if str_eqb s (&"refusal") then Refusal
  else StopUnknown.

(** A unit variant is its name, or an object with the name as its only key. *)
Definition de_stop_reason (v : Value) : option StopReason :=
  match v with
  | VString s => Some (stop_reason_of_tag s)
  | Object [(s, Null)] => Some (stop_reason_of_tag s)
  | _ => None
  end.

Inductive AnthropicErrorKind := Overloaded | KindRateLimit | KindUnknown (raw : str).

Definition from_wire (error_type : str) : AnthropicErrorKind :=
  if str_eqb error_type (&"overloaded_error") then Overloaded
  else if str_eqb error_type (&"rate_limit_error") then KindRateLimit
  else KindUnknown error_type.

Record MessageStartPayload := { ms_id : option str; ms_model : option str; ms_usage : option Value }.
Record MessageDeltaPayload := { md_stop_reason : option StopReason; md_stop_sequence : option str }.
Record ErrorPayload := { ep_error_type : option str; ep_message : option str }.

Definition de_message_start_payload (v : Value) : option MessageStartPayload :=
  match struct_fields 0 [&"id"; &"model"; &"usage"] v with
  | Some [id; model; usage] =>
      id ← field_default (de_option as_str) None id;
      model ← field_default (de_option as_str) None model;
      usage ← field_default (de_option de_value) None usage;
      Some {| ms_id := id; ms_model := model; ms_usage := usage |}
  | _ => None
  end.

Definition de_message_delta_payload (v : Value) : option MessageDeltaPayload :=
  match struct_fields 0 [&"stop_reason"; &"stop_sequence"] v with
  | Some [stop_reason; stop_sequence] =>
      stop_reason ← field_default (de_option de_stop_reason) None stop_reason;
      stop_sequence ← field_default (de_option as_str) None stop_sequence;
      Some {| md_stop_reason := stop_reason; md_stop_sequence := stop_sequence |}
  | _ => None
  end.

Definition de_error_payload (v : Value) : option ErrorPayload :=
  match struct_fields 0 [&"type"; &"message"] v with
  | Some [error_type; message] =>
      error_type ← field_default (de_option as_str) None error_type;
      message ← field_default (de_option as_str) None message;
      Some {| ep_error_type := error_type; ep_message := message |}
  | _ => None
  end.

Inductive MessageStreamEvent :=
| MessageStart (message : MessageStartPayload)
| ContentBlockStart (index : N) (content_block : ContentBlock)
| BlockDelta (index : N) (delta : ContentBlockDelta)
| ContentBlockStop (index : N)
| MessageDelta (delta : MessageDeltaPayload) (usage : option Value)
| MessageStop
| Ping
| ErrorEvent (error : ErrorPayload)
| EventUnknown (tag : str) (raw : Value).

(** [raw.get("type").and_then(as_str).unwrap_or("<missing>")] *)
Definition tag_of (raw : Value) : str := default (&"<missing>") (get_str (&"type") raw).

(** A tag that is known and whose payload is malformed also becomes [Unknown]. *)
Definition or_unknown {A B} (unknown : B) (f : A -> B) (o : option A) : B :=
  match o with Some a => f a | None => unknown end.

(** The struct with one string field that has a default *)
Definition string_inner (key : str) (raw : Value) : option str :=
  match struct_fields 0 [key] raw with Some [s] => field_default as_str [] s | _ => None end.

Definition tool_use_inner (raw : Value) : option (str * str * Value) :=
  match struct_fields 0 [&"id"; &"name"; &"input"] raw with
  | Some [id; name; input] =>
      id ← field_default as_str [] id;
      name ← field_default as_str [] name;
      input ← field_default de_value Null input;
      Some (id, name, input)
  | _ => None
  end.

Definition web_search_result_inner (raw : Value) : option (str * Value) :=
  match struct_fields 0 [&"tool_use_id"; &"content"] raw with
  | Some [id; content] =>
      id ← field_default as_str [] id;
      content ← field_default de_value Null content;
      Some (id, content)
  | _ => None
  end.

Definition deserialize_content_block (raw : Value) : ContentBlock :=
  let tag := tag_of raw in
  let unknown := BlockUnknown tag raw in
  if str_eqb tag (&"text") then or_unknown unknown Text (string_inner (&"text") raw)
  else if str_eqb tag (&"tool_use") then
    or_unknown unknown (fun '(id, name, input) => ToolUse id name input) (tool_use_inner raw)
  else if str_eqb tag (&"thinking") then or_unknown unknown Thinking (string_inner (&"thinking") raw)
  else if str_eqb tag (&"redacted_thinking") then
    or_unknown unknown RedactedThinking (string_inner (&"data") raw)
  else if str_eqb tag (&"server_tool_use") then
    or_unknown unknown (fun '(id, name, input) => ServerToolUse id name input) (tool_use_inner raw)
  else if str_eqb tag (&"web_search_tool_result") then
    or_unknown unknown (fun '(id, content) => WebSearchToolResult id content) (web_search_result_inner raw)
  else if str_eqb tag (&"code_execution_tool_use") then
    or_unknown unknown (fun '(id, name, input) => CodeExecutionToolUse id name input) (tool_use_inner raw)
  else unknown.

Definition citations_inner (raw : Value) : option Value :=
  match struct_fields 0 [&"citation"] raw with Some [c] => field_default de_value Null c | _ => None end.

Definition deserialize_content_block_delta (raw : Value) : ContentBlockDelta :=
  let tag := tag_of raw in
  let unknown := DeltaUnknown tag raw in
  if str_eqb tag (&"text_delta") then or_unknown unknown TextDelta (string_inner (&"text") raw)
  else if str_eqb tag (&"input_json_delta") then
    or_unknown unknown InputJsonDelta (string_inner (&"partial_json") raw)
  else if str_eqb tag (&"thinking_delta") then
    or_unknown unknown ThinkingDelta (string_inner (&"thinking") raw)
  else if str_eqb tag (&"signature_delta") then
    or_unknown unknown SignatureDelta (string_inner (&"signature") raw)
  else if str_eqb tag (&"citations_delta") then or_unknown unknown CitationsDelta (citations_inner raw)
  else unknown.

Definition message_start_inner (raw : Value) : option MessageStartPayload :=
  match struct_fields 1 [&"message"] raw with
  | Some [message] => field_required de_message_start_payload message
  | _ => None
  end.

Definition content_block_start_inner (raw : Value) : option (N * ContentBlock) :=
  match struct_fields 2 [&"index"; &"content_block"] raw with
  | Some [index; content_block] =>
      index ← field_required de_u64 index;
      content_block ← field_required (fun v => Some (deserialize_content_block v)) content_block;
      Some (index, content_block)
  | _ => None
  end.

Definition content_block_delta_inner (raw : Value) : option (N * ContentBlockDelta) :=
  match struct_fields 2 [&"index"; &"delta"] raw with
  | Some [index; delta] =>
      index ← field_required de_u64 index;
      delta ← field_required (fun v => Some (deserialize_content_block_delta v)) delta;
      Some (index, delta)
  | _ => None
  end.

Definition content_block_stop_inner (raw : Value) : option N :=
  match struct_fields 1 [&"index"] raw with Some [index] => field_required de_u64 index | _ => None end.

Definition message_delta_inner (raw : Value) : option (MessageDeltaPayload * option Value) :=
  match struct_fields 0 [&"delta"; &"usage"] raw with
  | Some [delta; usage] =>
      delta ← field_default de_message_delta_payload {| md_stop_reason := None; md_stop_sequence := None |} delta;
      usage ← field_default (de_option de_value) None usage;
      Some (delta, usage)
  | _ => None
  end.

Definition error_inner (raw : Value) : option ErrorPayload :=
  match struct_fields 0 [&"error"] raw with
  | Some [error] => field_default de_error_payload {| ep_error_type := None; ep_message := None |} error
  | _ => None
  end.

Definition deserialize_event (raw : Value) : MessageStreamEvent :=
  let tag := tag_of raw in
  let unknown := EventUnknown tag raw in
  if str_eqb tag (&"message_start") then or_unknown unknown MessageStart (message_start_inner raw)
  else if str_eqb tag (&"content_block_start") then
    or_unknown unknown (fun '(index, content_block) => ContentBlockStart index content_block)
      (content_block_start_inner raw)
  else if str_eqb tag (&"content_block_delta") then
    or_unknown unknown (fun '(index, delta) => BlockDelta index delta) (content_block_delta_inner raw)
  else if str_eqb tag (&"content_block_stop") then
    or_unknown unknown ContentBlockStop (content_block_stop_inner raw)
  else if str_eqb tag (&"message_delta") then
    or_unknown unknown (fun '(delta, usage) => MessageDelta delta usage) (message_delta_inner raw)
  else if str_eqb tag (&"message_stop") then MessageStop
  else if str_eqb tag (&"ping") then Ping
  else if str_eqb tag (&"error") then or_unknown unknown ErrorEvent (error_inner raw)
  else unknown.

(** ** usage.rs *)

Record RawUsage := {
  api_input : Z;
  cache_read : Z;
  cache_creation : Z;
  raw_output : Z;
  raw_reasoning_output : Z;
  input_is_cache_inclusive : bool;
  api_total : option Z;
  raw_web_search_requests : Z;
  raw_web_fetch_requests : Z
}.

Definition cache_inclusive_prompt (input read creation output reasoning total : Z) : RawUsage :=
  {| api_input := input; cache_read := read; cache_creation := creation; raw_output := output;
     raw_reasoning_output := reasoning; input_is_cache_inclusive := true; api_total := Some total;
     raw_web_search_requests := 0; raw_web_fetch_requests := 0 |}.

Definition cache_exclusive_prompt (input read creation output reasoning : Z) : RawUsage :=
  {| api_input := input; cache_read := read; cache_creation := creation; raw_output := output;
     raw_reasoning_output := reasoning; input_is_cache_inclusive := false; api_total := None;
     raw_web_search_requests := 0; raw_web_fetch_requests := 0 |}.

(** The argument of [unwrap_or] is computed in any case. *)
Definition normalize_token_usage (debug : bool) (raw : RawUsage) : comp False WireTokenUsage :=
  let input := Z.max (api_input raw) 0 in
  let read := Z.max (cache_read raw) 0 in
  let creation := Z.max (cache_creation raw) 0 in
  let output := Z.max (raw_output raw) 0 in
  let reasoning := Z.max (raw_reasoning_output raw) 0 in
  let? tokens :=
    if input_is_cache_inclusive raw then Ok input
    else let? a := i64_arith debug (input + read) in i64_arith debug (a + creation) in
  let? sum := i64_arith debug (tokens + output) in
  let total := Z.max (default sum (api_total raw)) 0 in
  Ok {| input_tokens := tokens; cached_input_tokens := read; cache_creation_input_tokens := creation;
        output_tokens := output; reasoning_output_tokens := reasoning; total_tokens := total;
        web_search_requests := Z.max (raw_web_search_requests raw) 0;
        web_fetch_requests := Z.max (raw_web_fetch_requests raw) 0 |}.

(** ** messages.rs: usage on the wire *)

Record AnthropicCacheCreation := { ephemeral_5m : option Z; ephemeral_1h : option Z }.
Record AnthropicOutputTokensDetails := { thinking_tokens : option Z }.
Record AnthropicServerToolUsage := { au_web_search_requests : option Z; au_web_fetch_requests : option Z }.
Record AnthropicUsage := {
  au_input_tokens : option Z;
  au_output_tokens : option Z;
  au_cache_read_input_tokens : option Z;
  au_cache_creation_input_tokens : option Z;
  au_cache_creation : option AnthropicCacheCreation;
  au_output_tokens_details : option AnthropicOutputTokensDetails;
  au_server_tool_use : option AnthropicServerToolUsage
}.

(** An [Option] field without [serde(default)]: [None] when it is missing from an
    object. *)
Definition field_option {A} (f : Value -> option A) (o : option Value) : option (option A) :=
  field_default (de_option f) None o.

Definition de_cache_creation (v : Value) : option AnthropicCacheCreation :=
  match struct_fields 2 [&"ephemeral_5m_input_tokens"; &"ephemeral_1h_input_tokens"] v with
  | Some [a; b] =>
      a ← field_option de_i64 a;
      b ← field_option de_i64 b;
      Some {| ephemeral_5m := a; ephemeral_1h := b |}
  | _ => None
  end.

Definition de_output_tokens_details (v : Value) : option AnthropicOutputTokensDetails :=
  match struct_fields 1 [&"thinking_tokens"] v with
  | Some [a] => a ← field_option de_i64 a; Some {| thinking_tokens := a |}
  | _ => None
  end.

Definition de_server_tool_usage (v : Value) : option AnthropicServerToolUsage :=
  match struct_fields 2 [&"web_search_requests"; &"web_fetch_requests"] v with
  | Some [a; b] =>
      a ← field_option de_i64 a;
      b ← field_option de_i64 b;
      Some {| au_web_search_requests := a; au_web_fetch_requests := b |}
  | _ => None
  end.

Definition de_usage (v : Value) : option AnthropicUsage :=
  match struct_fields 4 [&"input_tokens"; &"output_tokens"; &"cache_read_input_tokens";
      &"cache_creation_input_tokens"; &"cache_creation"; &"output_tokens_details"; &"server_tool_use"] v with
  | Some [a; b; c; d; e; f; g] =>
      a ← field_option de_i64 a;
      b ← field_option de_i64 b;
      c ← field_option de_i64 c;
      d ← field_option de_i64 d;
      e ← field_option de_cache_creation e;
      f ← field_option de_output_tokens_details f;
      g ← field_option de_server_tool_usage g;
      Some {| au_input_tokens := a; au_output_tokens := b; au_cache_read_input_tokens := c;
              au_cache_creation_input_tokens := d; au_cache_creation := e; au_output_tokens_details := f;
              au_server_tool_use := g |}
  | _ => None
  end.

Definition cache_creation_tokens (debug : bool) (u : AnthropicUsage) : comp False Z :=
  match au_cache_creation_input_tokens u with
  | Some n => Ok (Z.max n 0)
  | None =>
      match au_cache_creation u with
      | Some c => i64_arith debug (Z.max (default 0%Z (ephemeral_5m c)) 0 + Z.max (default 0%Z (ephemeral_1h c)) 0)
      | None => Ok 0%Z
      end
  end.

Definition reasoning_output_tokens_of (u : AnthropicUsage) : Z :=
  Z.max (default 0%Z (au_output_tokens_details u ≫= thinking_tokens)) 0.

Definition to_raw_usage (debug : bool) (u : AnthropicUsage) : comp False RawUsage :=
  let? creation := cache_creation_tokens debug u in
  let r := cache_exclusive_prompt (default 0%Z (au_input_tokens u)) (default 0%Z (au_cache_read_input_tokens u))
             creation (default 0%Z (au_output_tokens u)) (reasoning_output_tokens_of u) in
  Ok {| api_input := api_input r; cache_read := cache_read r; cache_creation := cache_creation r;
        raw_output := raw_output r; raw_reasoning_output := raw_reasoning_output r;
        input_is_cache_inclusive := input_is_cache_inclusive r; api_total := api_total r;
        raw_web_search_requests := Z.max (default 0%Z (au_server_tool_use u ≫= au_web_search_requests)) 0;
        raw_web_fetch_requests := Z.max (default 0%Z (au_server_tool_use u ≫= au_web_fetch_requests)) 0 |}.

(** [a.or(b)] *)
Definition or_else {A} (a b : option A) : option A := match a with Some _ => a | None => b end.

(** The three merges of optional parts: the newer one wins field by field. *)
Definition merge_opt {A} (f : A -> A -> A) (prev new : option A) : option A :=
  match prev, new with
  | None, n => n
  | Some p, None => Some p
  | Some p, Some n => Some (f p n)
  end.

Definition merge_cache_creation : option AnthropicCacheCreation -> option AnthropicCacheCreation ->
    option AnthropicCacheCreation :=
  merge_opt (fun p n => {| ephemeral_5m := or_else (ephemeral_5m n) (ephemeral_5m p);
                           ephemeral_1h := or_else (ephemeral_1h n) (ephemeral_1h p) |}).

Definition merge_output_tokens_details : option AnthropicOutputTokensDetails -> option AnthropicOutputTokensDetails ->
    option AnthropicOutputTokensDetails :=
  merge_opt (fun p n => {| thinking_tokens := or_else (thinking_tokens n) (thinking_tokens p) |}).

Definition merge_server_tool_use : option AnthropicServerToolUsage -> option AnthropicServerToolUsage ->
    option AnthropicServerToolUsage :=
  merge_opt (fun p n =>
    {| au_web_search_requests := or_else (au_web_search_requests n) (au_web_search_requests p);
       au_web_fetch_requests := or_else (au_web_fetch_requests n) (au_web_fetch_requests p) |}).

Definition merge_usage (existing : option AnthropicUsage) (new : AnthropicUsage) : AnthropicUsage :=
  match existing with
  | None => new
  | Some prev =>
      {| au_input_tokens := or_else (au_input_tokens new) (au_input_tokens prev);
         au_output_tokens := or_else (au_output_tokens new) (au_output_tokens prev);
         au_cache_read_input_tokens := or_else (au_cache_read_input_tokens new) (au_cache_read_input_tokens prev);
         au_cache_creation_input_tokens :=
           or_else (au_cache_creation_input_tokens new) (au_cache_creation_input_tokens prev);
         au_cache_creation := merge_cache_creation (au_cache_creation prev) (au_cache_creation new);
         au_output_tokens_details :=
           merge_output_tokens_details (au_output_tokens_details prev) (au_output_tokens_details new);
         au_server_tool_use := merge_server_tool_use (au_server_tool_use prev) (au_server_tool_use new) |}
  end.

(** ** messages.rs: the stream *)

(** The events and errors that the parsers of this and of the Gemini wire send *)
Inductive ResponseEvent :=
| Created
| OutputItemDone (item : ResponseItem)
| OutputItemAdded (item : ResponseItem)
| ServerModel (model : str)
| Completed (stop_reason : option str) (response_id : str) (token_usage : option WireTokenUsage)
    (end_turn : option bool)
| OutputTextDelta (delta : str)
| ToolCallInputDelta (item_id : str) (call_id : option str) (delta : str)
| ReasoningContentDelta (delta : str) (content_index : Z)
| ReasoningSummaryDelta (delta : str) (summary_index : Z).

Inductive ApiError := ApiStream (message : str) | ApiRateLimit (message : str) | ServerOverloaded.

Abbreviation sent := (ApiError + ResponseEvent)%type.

Inductive BlockState :=
| StText (text : str)
| StThinking (thinking signature : str)
| StToolUse (call_id name arguments : str)
| StServerToolUse (id name arguments : str)
| StWebSearchToolResult (tool_use_id : str)
| StRedactedThinking (data : str).

Record SseState := {
  tracker : gmap N BlockState;
  response_id : str;
  usage_holder : option AnthropicUsage;
  stop_reason : option str;
  tool_use_truncated : bool
}.

Definition new_state : SseState :=
  {| tracker := ∅; response_id := []; usage_holder := None; stop_reason := None; tool_use_truncated := false |}.

Definition set_tracker (m : gmap N BlockState) (st : SseState) : SseState :=
  {| tracker := m; response_id := response_id st; usage_holder := usage_holder st; stop_reason := stop_reason st;
     tool_use_truncated := tool_use_truncated st |}.
Definition set_truncated (st : SseState) : SseState :=
  {| tracker := tracker st; response_id := response_id st; usage_holder := usage_holder st;
     stop_reason := stop_reason st; tool_use_truncated := true |}.

(** The channel: what was sent, and how many more events the receiver takes
    before it is dropped ([None]: it stays). *)
Record Channel := { log : list sent; remaining : option nat }.

(** [tx_event.send(x).await.is_ok()] *)
Definition send (x : sent) (ch : Channel) : bool * Channel :=
  match remaining ch with
  | None => (true, {| log := log ch ++ [x]; remaining := None |})
  | Some (S k) => (true, {| log := log ch ++ [x]; remaining := Some k |})
  | Some 0 => (false, ch)
  end.

(** The end of an iteration of the loop *)
Inductive flow := Continue (st : SseState) | Return.

(** [if tx_event.send(x).await.is_err() { return; }] *)
Definition send_or_return (x : sent) (ch : Channel) (k : Channel -> comp False (flow * Channel))
  : comp False (flow * Channel) :=
  match send x ch with
  | (true, ch) => k ch
  | (false, ch) => Ok (Return, ch)
  end.

(** [let _ = tx_event.send(x).await; return;] *)
Definition send_and_return (x : sent) (ch : Channel) : comp False (flow * Channel) := Ok (Return, (send x ch).2).

Section stream.
Context {codec : ValueText} (debug : bool).

Definition web_search_action_from_arguments (arguments : str) : option WebSearchAction :=
  value ← value_from_str arguments;
  query ← get_str (&"query") value;
  Some (Search (Some query) None).

(** [!arguments.is_empty() && from_str::<Value>(&arguments).is_err()] *)
Definition truncated (arguments : str) : bool :=
  match arguments with [] => false | _ => match value_from_str arguments with None => true | Some _ => false end end.

Definition thinking_raw_block (thinking signature : str) : Value :=
  match signature with
  | [] => obj [(&"type", VString (&"thinking")); (&"thinking", VString thinking)]
  | _ => obj [(&"type", VString (&"thinking")); (&"thinking", VString thinking); (&"signature", VString signature)]
  end.

Definition thinking_item (thinking signature : str) : ResponseItem :=
  Reasoning None [SummaryText thinking] None (match signature with [] => None | _ => Some signature end) None
    (Some (thinking_raw_block thinking signature)).

Definition redacted_item (data : str) : ResponseItem :=
  Reasoning None [] None (Some ([0%N] ++ &"REDACTED" ++ [0%N] ++ data)) None
    (Some (obj [(&"type", VString (&"redacted_thinking")); (&"data", VString data)])).

(** [messages.rs] has a copy of the [parse_flat_mcp_tool_name] of [codex-mcp]. *)
Definition call_item (call_id name arguments : str) : ResponseItem :=
  let '(namespace, bare_name) := parse_flat_mcp_tool_name name in
  FunctionCall None bare_name namespace arguments call_id.

Definition text_item (text : str) : ResponseItem := Message None (&"assistant") [OutputText text] None.

Definition on_message_start (message : MessageStartPayload) (st : SseState) (ch : Channel)
  : comp False (flow * Channel) :=
  let st :=
    {| tracker := tracker st;
       response_id := default (response_id st) (ms_id message);
       usage_holder := match ms_usage message ≫= de_usage with Some u => Some u | None => usage_holder st end;
       stop_reason := stop_reason st; tool_use_truncated := tool_use_truncated st |} in
  let created ch := send_or_return (inr Created) ch (fun ch => Ok (Continue st, ch)) in
  match ms_model message with
  | Some model => send_or_return (inr (ServerModel model)) ch created
  | None => created ch
  end.

Definition on_block_start (index : N) (content_block : ContentBlock) (st : SseState) (ch : Channel)
  : comp False (flow * Channel) :=
  let track b := set_tracker (<[index := b]> (tracker st)) st in
  let added item st := send_or_return (inr (OutputItemAdded item)) ch (fun ch => Ok (Continue st, ch)) in
  match content_block with
  | Text _ => added (Message None (&"assistant") [] None) (track (StText []))
  | Thinking _ => added (Reasoning None [] None None None None) (track (StThinking [] []))
  | ToolUse id name _ => added (call_item id name []) (track (StToolUse id name []))
  | RedactedThinking data => Ok (Continue (track (StRedactedThinking data)), ch)
  | ServerToolUse id name input =>
      if str_eqb name (&"web_search") then
        let arguments := match input with Object [] => [] | _ => value_to_string input end in
        added (WebSearchCall (Some id) (Some (&"in_progress")) None) (track (StServerToolUse id name arguments))
      else Ok (Continue st, ch)
  | WebSearchToolResult tool_use_id _ => Ok (Continue (track (StWebSearchToolResult tool_use_id)), ch)
  | CodeExecutionToolUse _ _ _ => Ok (Continue st, ch)
  | BlockUnknown _ _ => Ok (Continue st, ch)
  end.

Definition on_block_delta (index : N) (delta : ContentBlockDelta) (st : SseState) (ch : Channel)
  : comp False (flow * Channel) :=
  let track b := set_tracker (<[index := b]> (tracker st)) st in
  match delta with
  | TextDelta text =>
      match tracker st !! index with
      | Some (StText acc) =>
          send_or_return (inr (OutputTextDelta text)) ch (fun ch => Ok (Continue (track (StText (acc ++ text))), ch))
      | _ => Ok (Continue st, ch)
      end
  | ThinkingDelta thinking =>
      match tracker st !! index with
      | Some (StThinking acc signature) =>
          send_or_return (inr (ReasoningContentDelta thinking (i64_wrap (Z.of_N index)))) ch
            (fun ch => Ok (Continue (track (StThinking (acc ++ thinking) signature)), ch))
      | _ => Ok (Continue st, ch)
      end
  | SignatureDelta signature =>
      match tracker st !! index with
      | Some (StThinking thinking acc) => Ok (Continue (track (StThinking thinking (acc ++ signature))), ch)
      | _ => Ok (Continue st, ch)
      end
  | InputJsonDelta partial_json =>
      match tracker st !! index with
      | Some (StToolUse call_id name acc) =>
          send_or_return (inr (ToolCallInputDelta call_id (Some call_id) partial_json)) ch
            (fun ch => Ok (Continue (track (StToolUse call_id name (acc ++ partial_json))), ch))
      | Some (StServerToolUse id name acc) => Ok (Continue (track (StServerToolUse id name (acc ++ partial_json))), ch)
      | _ => Ok (Continue st, ch)
      end
  | CitationsDelta _ => Ok (Continue st, ch)
  | DeltaUnknown _ _ => Ok (Continue st, ch)
  end.

Definition on_block_stop (index : N) (st : SseState) (ch : Channel) : comp False (flow * Channel) :=
  let state := tracker st !! index in
  let st := set_tracker (delete index (tracker st)) st in
  let done item st := send_or_return (inr (OutputItemDone item)) ch (fun ch => Ok (Continue st, ch)) in
  match state with
  | Some (StServerToolUse id name arguments) =>
      if str_eqb name (&"web_search") then
        done (WebSearchCall (Some id) (Some (&"completed")) (web_search_action_from_arguments arguments)) st
      else Ok (Continue st, ch)
  | Some (StWebSearchToolResult _) => Ok (Continue st, ch)
  | Some (StToolUse call_id name arguments) =>
      done (call_item call_id name arguments) (if truncated arguments then set_truncated st else st)
  | Some (StText text) => done (text_item text) st
  | Some (StThinking thinking signature) =>
      match thinking with
      | [] => Ok (Continue st, ch)
      | _ => done (thinking_item thinking signature) st
      end
  | Some (StRedactedThinking data) => done (redacted_item data) st
  | None => Ok (Continue st, ch)
  end.

Definition on_message_delta (delta : MessageDeltaPayload) (usage : option Value) (st : SseState) (ch : Channel)
  : comp False (flow * Channel) :=
  Ok (Continue
    {| tracker := tracker st; response_id := response_id st;
       usage_holder :=
         match usage ≫= de_usage with Some u => Some (merge_usage (usage_holder st) u) | None => usage_holder st end;
       stop_reason := match md_stop_reason delta with Some r => Some (as_wire_str r) | None => stop_reason st end;
       tool_use_truncated := tool_use_truncated st |}, ch).

Definition in_flight_truncated (b : BlockState) : bool :=
  match b with StToolUse _ _ arguments => truncated arguments | _ => false end.

Definition completed (st : SseState) : comp False ResponseEvent :=
  let was_truncated :=
    tool_use_truncated st || existsb in_flight_truncated (map_to_list (tracker st)).*2 in
  let stop_reason := if was_truncated then Some (&"max_tokens") else stop_reason st in
  let? token_usage :=
    match usage_holder st with
    | Some u => let? raw := to_raw_usage debug u in let? t := normalize_token_usage debug raw in Ok (Some t)
    | None => Ok None
    end in
  let end_turn := if bool_decide (stop_reason = Some (&"end_turn")) then Some true else None in
  Ok (Completed stop_reason (response_id st) token_usage end_turn).

Definition api_error (error : ErrorPayload) : ApiError :=
  let message := default (&"unknown anthropic error") (ep_message error) in
  match from_wire (default [] (ep_error_type error)) with
  | Overloaded => ServerOverloaded
  | KindRateLimit => ApiRateLimit message
  | KindUnknown _ => ApiStream (&"Anthropic API error: " ++ message)
  end.

Definition on_event (event : MessageStreamEvent) (st : SseState) (ch : Channel) : comp False (flow * Channel) :=
  match event with
  | MessageStart message => on_message_start message st ch
  | ContentBlockStart index content_block => on_block_start index content_block st ch
  | BlockDelta index delta => on_block_delta index delta st ch
  | ContentBlockStop index => on_block_stop index st ch
  | MessageDelta delta usage => on_message_delta delta usage st ch
  | MessageStop => let? e := completed st in send_and_return (inr e) ch
  | Ping => Ok (Continue st, ch)
  | ErrorEvent error => send_and_return (inl (api_error error)) ch
  | EventUnknown _ _ => Ok (Continue st, ch)
  end.

(** What [timeout(idle_timeout, sse_stream.next())] gives; the end of the list is
    the end of the stream. *)
Inductive SseItem := SseData (data : str) | SseError (message : str) | IdleTimeout.

Fixpoint sse_loop (items : list SseItem) (st : SseState) (ch : Channel) : comp False Channel :=
  match items with
  | [] => Ok (send (inl (ApiStream (&"messages stream closed before message_stop"))) ch).2
  | SseError message :: _ => Ok (send (inl (ApiStream message)) ch).2
  | IdleTimeout :: _ => Ok (send (inl (ApiStream (&"idle timeout waiting for messages SSE"))) ch).2
  | SseData [] :: items => sse_loop items st ch
  | SseData data :: items =>
      match value_from_str data with
      | None => sse_loop items st ch
      | Some raw =>
          let? '(f, ch) := on_event (deserialize_event raw) st ch in
          match f with Continue st => sse_loop items st ch | Return => Ok ch end
      end
  end.

(** All that reaches a receiver that takes [budget] events *)
Definition process_messages_sse (items : list SseItem) (budget : option nat) : comp False (list sent) :=
  let? ch := sse_loop items new_state {| log := []; remaining := budget |} in Ok (log ch).

(** ** response_projection.rs *)

Definition str_field (key : str) (block : Value) : str := default [] (get_str key block).

Definition project_block (block : Value) : list ResponseItem :=
  let block_type := str_field (&"type") block in
  if str_eqb block_type (&"text") then
    match str_field (&"text") block with [] => [] | text => [text_item text] end
  else if str_eqb block_type (&"tool_use") then
    let input := default (Object []) (vget (&"input") block) in
    [call_item (str_field (&"id") block) (str_field (&"name") block) (value_to_string input)]
  else if str_eqb block_type (&"thinking") then
    match str_field (&"thinking") block with
    | [] => []
    | thinking => [thinking_item thinking (str_field (&"signature") block)]
    end
  else if str_eqb block_type (&"redacted_thinking") then [redacted_item (str_field (&"data") block)]
  else [].

Definition project_anthropic_assistant_message (message : Value) : list ResponseItem :=
  match vget (&"content") message with
  | Some (Array blocks) => mbind project_block blocks
  | _ => []
  end.

(** ** One event *)

(** Sending a list of events, with the early return of the loop *)
Fixpoint deliver (out : list sent) (f : flow) (ch : Channel) : flow * Channel :=
  match out with
  | [] => (f, ch)
  | x :: out => match send x ch with (true, ch) => deliver out f ch | (false, ch) => (Return, ch) end
  end.

(** What an event makes the loop send and do when the receiver stays *)
Definition reaction (e : MessageStreamEvent) (st : SseState) : comp False (list sent * flow) :=
  let? '(f, ch) := on_event e st {| log := []; remaining := None |} in Ok (log ch, f).

Lemma send_or_return_deliver x ch f : send_or_return x ch (fun ch => Ok (f, ch)) = Ok (deliver [x] f ch).
Proof. unfold send_or_return. cbn. by destruct (send x ch) as [[] ?]. Qed.

Lemma on_event_deliver e st ch :
  on_event e st ch = let? '(out, f) := reaction e st in Ok (deliver out f ch).
Proof.
  unfold reaction.
  destruct e as [m|i b|i d|i|d u| | |err|]; cbn [on_event]; try done.
  - unfold on_message_start. destruct (ms_model m); cbn; rewrite ?send_or_return_deliver; [|done].
    unfold send_or_return. destruct (send _ ch) as [[] ch']; [|done]. by destruct (send _ ch') as [[] ?].
  - unfold on_block_start. destruct b; cbn; rewrite ?send_or_return_deliver; try done.
    destruct (str_eqb _ _); [|done]. by rewrite ?send_or_return_deliver.
  - unfold on_block_delta. destruct d; try done; destruct (tracker st !! i) as [[]|]; try done;
      by rewrite ?send_or_return_deliver.
  - unfold on_block_stop. destruct (tracker st !! i) as [[]|]; try done; rewrite ?send_or_return_deliver; try done.
    + destruct thinking; [done|]. by rewrite ?send_or_return_deliver.
    + destruct (str_eqb _ _); [|done]. by rewrite ?send_or_return_deliver.
  - destruct (completed st); cbn; try done. unfold send_and_return. cbn. by destruct (send _ ch) as [[] ?].
  - unfold send_and_return. cbn. by destruct (send _ ch) as [[] ?].
Qed.

(** Events that tell the receiver that the response goes on *)
Definition is_progress (x : sent) : bool :=
  match x with inl _ | inr (Completed _ _ _ _) => false | _ => true end.

(** A finished call whose arguments are not JSON *)
Definition truncated_call (x : sent) : bool :=
  match x with inr (OutputItemDone (FunctionCall _ _ _ arguments _)) => truncated arguments | _ => false end.

(** What the last event says of the end of the message *)
Definition ends_well (was_truncated : bool) (x : sent) : Prop :=
  match x with
  | inr (Completed stop_reason _ _ end_turn) =>
      (end_turn = Some true <-> stop_reason = Some (&"end_turn")) /\
      (was_truncated = true -> stop_reason = Some (&"max_tokens"))
  | inr _ => False
  | inl _ => True
  end.

Lemma completed_ends_well st e : completed st = Ok e -> ends_well (tool_use_truncated st) (inr e).
Proof.
  unfold completed. intros H. inv_comp H. simplify_eq. cbn [ends_well]. split.
  - case_bool_decide; naive_solver.
  - by intros ->.
Qed.

Lemma completed_last st e : completed st = Ok e -> is_progress (inr e) = false.
Proof. unfold completed. intros H. inv_comp H. by simplify_eq. Qed.

Definition reacts_well (st : SseState) (r : list sent * flow) : Prop :=
  match r.2 with
  | Continue st' =>
      Forall (fun x => is_progress x = true) r.1 /\
      tool_use_truncated st' = (tool_use_truncated st || existsb truncated_call r.1)
  | Return => exists x, r.1 = [x] /\ is_progress x = false /\ ends_well (tool_use_truncated st) x
  end.

Lemma call_item_truncated id name arguments :
  truncated_call (inr (OutputItemDone (call_item id name arguments))) = truncated arguments.
Proof. unfold call_item. by destruct (parse_flat_mcp_tool_name name). Qed.

Lemma quiet_reacts_well st st' out :
  Forall (fun x => is_progress x = true /\ truncated_call x = false) out ->
  tool_use_truncated st' = tool_use_truncated st -> reacts_well st (out, Continue st').
Proof.
  intros Hall Ht. unfold reacts_well. cbn. split; [by eapply Forall_impl; [exact Hall|naive_solver]|].
  rewrite Ht. assert (existsb truncated_call out = false) as ->; [|by rewrite orb_false_r].
  induction Hall as [|x out [_ Hx] _ IH]; [done|]. cbn. by rewrite Hx.
Qed.

Lemma reaction_well e st r : reaction e st = Ok r -> reacts_well st r.
Proof.
  assert (forall x, is_progress x = true -> truncated_call x = false ->
    Forall (fun x => is_progress x = true /\ truncated_call x = false) [x]) as H1 by by repeat constructor.
  unfold reaction. destruct e as [m|i b|i d|i|d u| | |err|]; cbn [on_event]; intros H.
  - unfold on_message_start, send_or_return in H. destruct (ms_model m); cbn in H; simplify_eq;
      apply quiet_reacts_well; [by repeat constructor|done..|by repeat constructor|done].
  - unfold on_block_start, send_or_return in H. destruct b; cbn in H; repeat case_match; simplify_eq/=;
      apply quiet_reacts_well; auto.
  - unfold on_block_delta, send_or_return in H. destruct d; cbn in H; repeat case_match; simplify_eq/=;
      apply quiet_reacts_well; auto.
  - unfold on_block_stop, send_or_return in H. destruct (tracker st !! i) as [[]|]; cbn in H; simplify_eq/=;
      try (apply quiet_reacts_well; by auto).
    + repeat case_match; simplify_eq/=; apply quiet_reacts_well; auto.
    + unfold reacts_well. cbn [fst snd existsb]. rewrite call_item_truncated, orb_false_r.
      split; [by repeat constructor|]. destruct (truncated arguments); cbn; by rewrite ?orb_true_r, ?orb_false_r.
    + repeat case_match; simplify_eq/=; apply quiet_reacts_well; auto.
  - cbn in H. simplify_eq. apply quiet_reacts_well; [by constructor|done].
  - destruct (completed st) as [ev| | |] eqn:E; try done. cbn in H. simplify_eq. eexists. split; [done|].
    split; [by eapply completed_last|by apply completed_ends_well].
  - cbn in H. simplify_eq. apply quiet_reacts_well; [by constructor|done].
  - cbn in H. simplify_eq. by eexists.
  - cbn in H. simplify_eq. apply quiet_reacts_well; [by constructor|done].
Qed.

(** ** The whole stream *)

Lemma deliver_unlimited out f l :
  deliver out f {| log := l; remaining := None |} = (f, {| log := l ++ out; remaining := None |}).
Proof.
  revert l. induction out as [|x out IH]; intros l; cbn; [by rewrite app_nil_r|]. by rewrite IH, <- app_assoc.
Qed.

Lemma deliver_limited out f l k :
  deliver out f {| log := l; remaining := Some k |} =
  if length out <=? k then (f, {| log := l ++ out; remaining := Some (k - length out) |})
  else (Return, {| log := l ++ take k out; remaining := Some 0 |}).
Proof.
  revert l k. induction out as [|x out IH]; intros l k; cbn; [by rewrite app_nil_r, Nat.sub_0_r|].
  destruct k as [|k]; cbn; [by rewrite app_nil_r|]. rewrite IH. case_match; by rewrite <- app_assoc.
Qed.

(** The loop over an unlimited channel appends to its log. *)
Lemma sse_loop_app items st l ch :
  sse_loop items st {| log := l; remaining := None |} = Ok ch ->
  exists out, ch = {| log := l ++ out; remaining := None |}.
Proof.
  revert st l. induction items as [|[data|m|] items IH]; intros st l; cbn [sse_loop].
  - intros [= <-]. by eexists.
  - destruct data as [|c data]; [apply IH|]. destruct (value_from_str (c :: data)); [|apply IH].
    rewrite on_event_deliver. destruct (reaction _ st) as [[out f]| | |]; try done. cbn [comp_bind].
    rewrite deliver_unlimited. destruct f as [st'|]; [|intros [= <-]; by eexists].
    intros (out' & ->)%IH. exists (out ++ out'). by rewrite app_assoc.
  - intros [= <-]. by eexists.
  - intros [= <-]. by eexists.
Qed.

Lemma send_limited x l k :
  log (send x {| log := l; remaining := Some k |}).2 = l ++ take k [x].
Proof. destruct k; cbn; by rewrite ?app_nil_r, ?take_nil. Qed.

Lemma sse_loop_take items st l k out :
  sse_loop items st {| log := l; remaining := None |} = Ok {| log := l ++ out; remaining := None |} ->
  exists ch, sse_loop items st {| log := l; remaining := Some k |} = Ok ch /\ log ch = l ++ take k out.
Proof.
  revert st l k out. induction items as [|[data|m|] items IH]; intros st l k out; cbn [sse_loop].
  - intros [= <-%app_inv_head]. eexists. split; [done|]. apply send_limited.
  - destruct data as [|c data]; [apply IH|]. destruct (value_from_str (c :: data)); [|apply IH].
    rewrite !on_event_deliver. destruct (reaction _ st) as [[o f]| | |]; try done. cbn [comp_bind].
    rewrite deliver_unlimited, deliver_limited. destruct f as [st'|].
    + intros H. destruct (sse_loop_app _ _ _ _ H) as (o' & Ho). injection Ho as Ho.
      rewrite <- app_assoc in Ho. apply app_inv_head in Ho as ->. rewrite app_assoc in H.
      destruct (Nat.leb_spec (length o) k).
      * destruct (IH st' _ (k - length o) _ H) as (ch & Hch & Hlog). exists ch. split; [done|].
        by rewrite Hlog, take_app, (take_ge o), app_assoc by lia.
      * eexists. split; [done|]. cbn. by rewrite take_app_le by lia.
    + intros [= <-%app_inv_head]. destruct (Nat.leb_spec (length o) k); eexists; (split; [done|]); cbn; [|done].
      by rewrite take_ge.
  - intros [= <-%app_inv_head]. eexists. split; [done|]. apply send_limited.
  - intros [= <-%app_inv_head]. eexists. split; [done|]. apply send_limited.
Qed.

(** What a receiver that stays sees: progress, and one last event that is an
    error or tells how the message ended. *)
Definition well_ended (was_truncated : bool) (out : list sent) : Prop :=
  exists pre x, out = pre ++ [x] /\ Forall (fun x => is_progress x = true) pre /\ is_progress x = false /\
    ends_well (was_truncated || existsb truncated_call pre) x.

Lemma sse_loop_well items st l out :
  sse_loop items st {| log := l; remaining := None |} = Ok {| log := l ++ out; remaining := None |} ->
  well_ended (tool_use_truncated st) out.
Proof.
  assert (forall b m, well_ended b [inl m]) as Herr.
  { intros b m. exists [], (inl m). by split_and!. }
  revert st l out. induction items as [|[data|m|] items IH]; intros st l out; cbn [sse_loop].
  - intros [= <-%app_inv_head]. apply Herr.
  - destruct data as [|c data]; [apply IH|]. destruct (value_from_str (c :: data)) as [raw|]; [|apply IH].
    rewrite on_event_deliver. destruct (reaction _ st) as [[o f]| | |] eqn:E; try done. cbn [comp_bind].
    apply reaction_well in E. rewrite deliver_unlimited. unfold reacts_well in E. cbn [fst snd] in E.
    destruct f as [st'|].
    + intros H. destruct E as [Hp Ht]. destruct (sse_loop_app _ _ _ _ H) as (o' & Ho). injection Ho as Ho.
      rewrite <- app_assoc in Ho. apply app_inv_head in Ho as ->. rewrite app_assoc in H.
      apply IH in H as (pre & x & -> & Hpre & Hx & He). exists (o ++ pre), x.
      rewrite Ht, <- orb_assoc in He. split_and!; [by rewrite app_assoc|by apply Forall_app|done|].
      by rewrite existsb_app.
    + destruct E as (x & -> & Hx & He). intros [= <-%app_inv_head]. exists [], x. rewrite orb_false_r. by split_and!.
  - intros [= <-%app_inv_head]. apply Herr.
  - intros [= <-%app_inv_head]. apply Herr.
Qed.

(** *** How a message ends, read off its events

    The tool calls that are open, with the arguments that arrived so far, and the last stop
    reason that the provider gave *)
Definition ending : Type := gmap N str * option str.

Definition hear (e : MessageStreamEvent) (v : ending) : ending :=
  let '(calls, reason) := v in
  match e with
  | ContentBlockStart i (ToolUse _ _ _) => (<[i := []]> calls, reason)
  | ContentBlockStart i (ServerToolUse _ name _) => (if str_eqb name (&"web_search") then delete i calls else calls, reason)
  | ContentBlockStart i (Text _ | Thinking _ | RedactedThinking _ | WebSearchToolResult _ _) => (delete i calls, reason)
  | BlockDelta i (InputJsonDelta piece) => (alter (fun arguments => arguments ++ piece) i calls, reason)
  | ContentBlockStop i => (delete i calls, reason)
  | MessageDelta delta _ => (calls, match md_stop_reason delta with Some r => Some (as_wire_str r) | None => reason end)
  | _ => v
  end.

Definition decode (data : str) : option MessageStreamEvent :=
  match data with [] => None | _ => deserialize_event <$> value_from_str data end.

(** What was heard before the first [message_stop] *)
Fixpoint heard_at_stop (items : list SseItem) (v : ending) : ending :=
  match items with
  | SseData data :: items =>
      match decode data with
      | Some MessageStop => v
      | Some e => heard_at_stop items (hear e v)
      | None => heard_at_stop items v
      end
  | _ => v
  end.

(** Arguments that are there but are not JSON *)
Definition cut_off (arguments : str) : Prop := arguments <> [] /\ value_from_str arguments = None.

Lemma truncated_spec arguments : truncated arguments = true <-> cut_off arguments.
Proof. unfold truncated, cut_off. destruct arguments; [naive_solver|]. destruct (value_from_str _); naive_solver. Qed.

Definition call_arguments_of (b : BlockState) : option str := match b with StToolUse _ _ arguments => Some arguments | _ => None end.
Definition view (st : SseState) : ending := (omap call_arguments_of (tracker st), stop_reason st).

Lemma open_truncated st :
  existsb in_flight_truncated (map_to_list (tracker st)).*2 = true <-> exists i arguments, (view st).1 !! i = Some arguments /\ cut_off arguments.
Proof.
  rewrite existsb_exists. setoid_rewrite <- truncated_spec. split.
  - intros (b & Hb & Ht). apply list_elem_of_In, list_elem_of_fmap in Hb as ([i b'] & -> & Hin%elem_of_map_to_list).
    cbn in Ht. destruct b'; try done. exists i, arguments. split; [|done]. cbn. by rewrite lookup_omap, Hin.
  - intros (i & arguments & Hl & Ht). cbn in Hl. rewrite lookup_omap in Hl. destruct (tracker st !! i) as [b|] eqn:E; [|done].
    exists b. split; [|destruct b; try done; by injection Hl as ->]. apply list_elem_of_In, list_elem_of_fmap. exists (i, b).
    split; [done|]. by apply elem_of_map_to_list.
Qed.

Lemma omap_track (m : gmap N BlockState) i b :
  omap call_arguments_of (<[i := b]> m) = match call_arguments_of b with Some a => <[i := a]> (omap call_arguments_of m) | None => delete i (omap call_arguments_of m) end.
Proof. apply map_eq. intros j. rewrite lookup_omap. destruct (decide (i = j)) as [->|].
  - rewrite lookup_insert_eq. cbn. destruct (call_arguments_of b); by rewrite ?lookup_insert_eq, ?lookup_delete_eq.
  - rewrite lookup_insert_ne by done. destruct (call_arguments_of b); by rewrite ?lookup_insert_ne, ?lookup_delete_ne, lookup_omap by done.
Qed.

Lemma omap_untrack (m : gmap N BlockState) i : omap call_arguments_of (delete i m) = delete i (omap call_arguments_of m).
Proof. apply map_eq. intros j. rewrite lookup_omap. destruct (decide (i = j)) as [->|]; by rewrite ?lookup_delete_eq, ?lookup_delete_ne, ?lookup_omap. Qed.

Lemma alter_call (m : gmap N BlockState) i f :
  alter f i (omap call_arguments_of m) =
  match m !! i with Some (StToolUse _ _ a) => <[i := f a]> (omap call_arguments_of m) | _ => omap call_arguments_of m end.
Proof.
  assert (omap call_arguments_of m !! i = m !! i ≫= call_arguments_of) as El by apply lookup_omap.
  destruct (m !! i) as [[]|]; cbn in El; try (by apply alter_id_None); try (rewrite alter_None; done).
  all: apply map_eq; intros j; destruct (decide (i = j)) as [->|]; rewrite ?lookup_alter_eq, ?lookup_alter_ne, ?lookup_insert_eq, ?lookup_insert_ne, ?El by done; done.
Qed.

Lemma delete_open (m : gmap N BlockState) i : m !! i ≫= call_arguments_of = None -> delete i (omap call_arguments_of m) = omap call_arguments_of m.
Proof. intros H. apply delete_id. by rewrite lookup_omap. Qed.

Lemma reaction_view e st out st' : reaction e st = Ok (out, Continue st') -> view st' = hear e (view st).
Proof.
  unfold reaction, view, hear. destruct e as [m|i b|i d|i|d u| | |err|]; cbn [on_event]; intros H.
  - unfold on_message_start, send_or_return in H. destruct (ms_model m); cbn in H; by simplify_eq.
  - unfold on_block_start, send_or_return in H. destruct b; cbn in H; repeat case_match; simplify_eq/=; by rewrite ?omap_track.
  - unfold on_block_delta, send_or_return in H. destruct d; cbn in H; rewrite ?alter_call;
      destruct (tracker st !! i) as [[]|] eqn:Ei; simplify_eq/=; rewrite ?omap_track; cbn; try done.
    all: f_equal; apply delete_open; by rewrite Ei.
  - unfold on_block_stop, send_or_return in H. destruct (tracker st !! i) as [[]|]; cbn in H; repeat case_match; simplify_eq/=;
      by rewrite ?omap_untrack.
  - cbn in H. by simplify_eq.
  - destruct (completed st); cbn in H; by simplify_eq.
  - cbn in H. by simplify_eq.
  - cbn in H. by simplify_eq.
  - cbn in H. by simplify_eq.
Qed.

Lemma completed_reason st stop id usage et :
  completed st = Ok (Completed stop id usage et) ->
  stop = if tool_use_truncated st || existsb in_flight_truncated (map_to_list (tracker st)).*2 then Some (&"max_tokens") else stop_reason st.
Proof. unfold completed. intros H. inv_comp H. by simplify_eq. Qed.

(** The reason that is reported for a message: whether a call was cut off before, in what
    was sent or among the calls that are open *)
Definition reason_reported (was_truncated : bool) (sent_events : list sent) (v : ending) (stop : option str) : Prop :=
  let cut := was_truncated = true \/ existsb truncated_call sent_events = true \/
    exists i arguments, v.1 !! i = Some arguments /\ cut_off arguments in
  (cut -> stop = Some (&"max_tokens")) /\ (~ cut -> stop = v.2).

Lemma sse_loop_reason items st l out stop id usage et :
  sse_loop items st {| log := l; remaining := None |} = Ok {| log := l ++ out; remaining := None |} ->
  inr (Completed stop id usage et) ∈ out ->
  reason_reported (tool_use_truncated st) out (heard_at_stop items (view st)) stop.
Proof.
  revert st l out. induction items as [|[data|m|] items IH]; intros st l out; cbn [sse_loop heard_at_stop].
  1, 3, 4: by intros [= <-%app_inv_head] ?%list_elem_of_singleton.
  destruct data as [|c data]; [apply IH|]. cbn [decode]. destruct (value_from_str (c :: data)) as [raw|]; [|apply IH].
  cbn [fmap option_fmap option_map]. set (e := deserialize_event raw). rewrite on_event_deliver.
  destruct (reaction e st) as [[o f]| | |] eqn:E; try done. cbn [comp_bind]. pose proof (reaction_well _ _ _ E) as Hw.
  rewrite deliver_unlimited. unfold reacts_well in Hw. cbn [fst snd] in Hw. destruct f as [st'|].
  - intros H Hin. destruct Hw as [Hp Ht]. destruct (sse_loop_app _ _ _ _ H) as (o' & Ho). injection Ho as Ho.
    rewrite <- app_assoc in Ho. apply app_inv_head in Ho as ->. rewrite app_assoc in H.
    assert (match e with MessageStop => False | _ => True end) as Hne.
    { destruct e; try done. unfold reaction in E. cbn in E. destruct (completed st); cbn in E; by simplify_eq. }
    assert (match e with MessageStop => view st | _ => heard_at_stop items (hear e (view st)) end = heard_at_stop items (view st')) as ->
      by (rewrite (reaction_view _ _ _ _ E); by destruct e).
    apply elem_of_app in Hin as [Hin|Hin]; [by apply (proj1 (Forall_forall _ _) Hp) in Hin|].
    specialize (IH st' (l ++ o) o' H Hin). unfold reason_reported in *. rewrite Ht in IH. rewrite existsb_app.
    rewrite !orb_true_iff in *. destruct IH as [H1 H2]. split; intros Hc; [apply H1|apply H2]; tauto.
  - destruct Hw as (x & -> & _ & _). intros [= <-%app_inv_head] <-%list_elem_of_singleton.
    unfold reaction in E. destruct e as [m|i b|i d|i|d u| | |err|]; cbn [on_event] in E.
    6: { destruct (completed st) as [ev| | |] eqn:Ec; cbn in E; simplify_eq. apply completed_reason in Ec as ->.
         unfold reason_reported. cbn [existsb truncated_call]. rewrite <- open_truncated.
         destruct (tool_use_truncated st), (existsb in_flight_truncated _); cbn; split; intros Hc; try done; naive_solver. }
    all: exfalso; clear - E; unfold on_message_start, on_block_start, on_block_delta, on_block_stop, on_message_delta, send_or_return, send_and_return in E;
      cbn in E; repeat case_match; simplify_eq/=; simplify_eq.
Qed.

Lemma truncated_sent out :
  existsb truncated_call out = true <-> exists item_id name namespace arguments call_id,
    inr (OutputItemDone (FunctionCall item_id name namespace arguments call_id)) ∈ out /\ cut_off arguments.
Proof.
  rewrite existsb_exists. setoid_rewrite <- truncated_spec. split.
  - intros ([|[]] & Hin%list_elem_of_In & Ht); try done. cbn in Ht. destruct item; try done. by eexists _, _, _, _, _.
  - intros (item_id & name & namespace & arguments & call_id & Hin & Ht). eexists. split; [by apply list_elem_of_In|done].
Qed.

Lemma process_unlimited items out :
  process_messages_sse items None = Ok out <->
  sse_loop items new_state {| log := []; remaining := None |} = Ok {| log := out; remaining := None |}.
Proof.
  unfold process_messages_sse. split.
  - intros H. inv_comp H. injection H as <-. destruct (sse_loop_app _ _ _ _ Hc) as (o & ->). done.
  - by intros ->.
Qed.
End stream.

Lemma arith_release z : exists z', i64_arith false z = Ok z'.
Proof. unfold i64_arith. destruct (in_i64 z); by eexists. Qed.

(** In a release build the counters wrap around and nothing panics. *)
Lemma completed_release `{ValueText} st : exists e, completed false st = Ok e.
Proof.
  unfold completed. destruct (usage_holder st) as [u|]; [|by eexists].
  unfold to_raw_usage, cache_creation_tokens, normalize_token_usage.
  assert (exists c, cache_creation_tokens false u = Ok c) as (c & Hc).
  { unfold cache_creation_tokens. destruct (au_cache_creation_input_tokens u); [by eexists|].
    destruct (au_cache_creation u); [apply arith_release|by eexists]. }
  unfold cache_creation_tokens in Hc. rewrite Hc. cbn.
  repeat match goal with
    | |- context [i64_arith false ?z] => destruct (arith_release z) as [? ->]; cbn
    end.
  by eexists.
Qed.

Lemma reaction_release `{ValueText} e st : exists r, reaction false e st = Ok r.
Proof.
  unfold reaction. destruct e as [m|i b|i d|i|d u| | |err|]; cbn [on_event]; try by eexists.
  - unfold on_message_start, send_or_return. destruct (ms_model m); by eexists.
  - unfold on_block_start, send_or_return. destruct b; cbn; try by eexists. destruct (str_eqb _ _); by eexists.
  - unfold on_block_delta, send_or_return. destruct d; try (by eexists); destruct (tracker st !! i) as [[]|]; by eexists.
  - unfold on_block_stop, send_or_return. destruct (tracker st !! i) as [[]|]; try by eexists.
    + destruct thinking; by eexists.
    + destruct (str_eqb _ _); by eexists.
  - destruct (completed_release st) as [ev ->]. by eexists.
Qed.

Lemma process_release `{ValueText} items : exists out, process_messages_sse false items None = Ok out.
Proof.
  unfold process_messages_sse. generalize new_state as st, ([] : list sent) as l.
  induction items as [|[data|m|] items IH]; intros st l; cbn [sse_loop]; try (by eexists).
  destruct data as [|c data]; [apply IH|]. destruct (value_from_str (c :: data)); [|apply IH].
  rewrite on_event_deliver. destruct (reaction_release (deserialize_event v) st) as [[o f] ->]. cbn [comp_bind].
  rewrite deliver_unlimited. destruct f; [apply IH|by eexists].
Qed.

(** C32: whatever arrives, malformed data, stream errors and a stream that stops
    included, the task ends, and it has sent events of progress and then exactly
    one last event, which is [Completed] or an error. *)
Theorem stream_one_terminal `{ValueText} items :
  exists pre x,
    process_messages_sse false items None = Ok (pre ++ [x]) /\
    Forall (fun x => is_progress x = true) pre /\ is_progress x = false.
Proof.
  destruct (process_release items) as [out Hout]. pose proof Hout as Hwell.
  apply process_unlimited, (sse_loop_well _ _ _ []) in Hwell as (pre & x & -> & Hpre & Hx & _). by exists pre, x.
Qed.

(** A receiver that is dropped after [k] events has seen the first [k] events
    of the complete stream, and the task returns. *)
Theorem dropped_receiver_prefix `{ValueText} items k :
  exists out,
    process_messages_sse false items None = Ok out /\
    process_messages_sse false items (Some k) = Ok (take k out).
Proof.
  destruct (process_release items) as [out Hout]. exists out. split; [done|].
  apply process_unlimited in Hout. destruct (sse_loop_take false items new_state [] k out Hout) as (ch & Hch & Hlog).
  unfold process_messages_sse. rewrite Hch. cbn [comp_bind]. by rewrite Hlog.
Qed.

(** C40: the stop reason of a completed message.  It is [max_tokens], whatever the provider
    said, if a finished tool call, or one that is still open at the end, has arguments that
    are not empty and not JSON; otherwise it is the last reason the provider gave.  The end
    of the turn is reported exactly for the reason [end_turn]. *)
Theorem truncated_call_reported `{ValueText} debug items out stop_reason id usage end_turn :
  process_messages_sse debug items None = Ok out ->
  inr (Completed stop_reason id usage end_turn) ∈ out ->
  let '(open_calls, reason) := heard_at_stop items (∅, None) in
  let cut := (exists item_id name namespace arguments call_id,
      inr (OutputItemDone (FunctionCall item_id name namespace arguments call_id)) ∈ out /\
      arguments <> [] /\ value_from_str arguments = None) \/
    (exists index arguments, open_calls !! index = Some arguments /\ arguments <> [] /\ value_from_str arguments = None) in
  (cut -> stop_reason = Some (&"max_tokens")) /\ (~ cut -> stop_reason = reason) /\
  (end_turn = Some true <-> stop_reason = Some (&"end_turn")).
Proof.
  intros Hout%process_unlimited Hin. pose proof (sse_loop_reason _ _ _ [] _ _ _ _ _ Hout Hin) as Hr.
  change (view new_state) with ((∅, None) : ending) in Hr. destruct (heard_at_stop items (∅, None)) as [calls reason].
  destruct Hr as [H1 H2]. cbn [fst snd new_state tool_use_truncated] in *. rewrite truncated_sent in H1, H2. unfold cut_off in *.
  split; [intros Hc; apply H1; by right|]. split; [intros Hc; apply H2; intros [?|?]; [done|tauto]|].
  apply (sse_loop_well _ _ _ []) in Hout as (pre & x & -> & Hpre & Hx & He).
  apply elem_of_app in Hin as [Hin|<-%list_elem_of_singleton]; [by apply (proj1 (Forall_forall _ _) Hpre) in Hin|]. by destruct He.
Qed.

(** ** A streamed message is the message *)

Section projection.
Context {codec : ValueText}.

(** A content block with the pieces in which it is streamed *)
Inductive StreamedBlock :=
| SText (pieces : list str)
| SThinking (pieces signature : list str)
| STool (id name : str) (input : Value) (pieces : list str)
| SRedacted (data : str)
| SSearch (id : str) (input : Value) (pieces : list str)
| SSearchResult (tool_use_id : str) (content : Value).

Definition start_of (b : StreamedBlock) : ContentBlock :=
  match b with
  | SText _ => Text []
  | SThinking _ _ => Thinking []
  | STool id name _ _ => ToolUse id name (Object [])
  | SRedacted data => RedactedThinking data
  | SSearch id _ _ => ServerToolUse id (&"web_search") (Object [])
  | SSearchResult tool_use_id content => WebSearchToolResult tool_use_id content
  end.

Definition deltas_of (b : StreamedBlock) : list ContentBlockDelta :=
  match b with
  | SText pieces => map TextDelta pieces
  | SThinking pieces signature => map ThinkingDelta pieces ++ map SignatureDelta signature
  | STool _ _ _ pieces | SSearch _ _ pieces => map InputJsonDelta pieces
  | SRedacted _ | SSearchResult _ _ => []
  end.

Definition block_events (e : N * StreamedBlock) : list MessageStreamEvent :=
  ContentBlockStart e.1 (start_of e.2) :: map (BlockDelta e.1) (deltas_of e.2) ++ [ContentBlockStop e.1].

(** The block in the message that is not streamed *)
Definition block_value (b : StreamedBlock) : Value :=
  match b with
  | SText pieces => obj [(&"type", VString (&"text")); (&"text", VString (concat pieces))]
  | SThinking pieces signature =>
      obj [(&"type", VString (&"thinking")); (&"thinking", VString (concat pieces));
           (&"signature", VString (concat signature))]
  | STool id name input _ => tool_use_block id name input
  | SRedacted data => obj [(&"type", VString (&"redacted_thinking")); (&"data", VString data)]
  | SSearch id input _ =>
      obj [(&"type", VString (&"server_tool_use")); (&"id", VString id); (&"name", VString (&"web_search")); (&"input", input)]
  | SSearchResult tool_use_id content =>
      obj [(&"type", VString (&"web_search_tool_result")); (&"tool_use_id", VString tool_use_id); (&"content", content)]
  end.

(** The provider streams a JSON text of the input, in any layout, or no text at all for a
    call without arguments. *)
Definition input_streamed (b : StreamedBlock) : Prop :=
  match b with
  | STool _ _ input pieces => value_from_str (concat pieces) = Some input \/ concat pieces = [] /\ input = Object []
  | SSearch _ input pieces => value_from_str (concat pieces) = Some input
  | _ => True
  end.

Definition silent (e : MessageStreamEvent) : bool := match e with Ping | EventUnknown _ _ => true | _ => false end.

Definition item_done (x : sent) : option ResponseItem :=
  match x with inr (OutputItemDone item) => Some item | _ => None end.

Definition empty_message (item : ResponseItem) : bool :=
  match item with Message _ _ [OutputText []] _ => true | _ => false end.

(** The events of a stream without what is skipped *)
Fixpoint run_events (events : list MessageStreamEvent) (st : SseState) (l : list sent) : comp False (flow * list sent) :=
  match events with
  | [] => Ok (Continue st, l)
  | e :: events =>
      let? '(out, f) := reaction false e st in
      match f with Continue st => run_events events st (l ++ out) | Return => Ok (Return, l ++ out) end
  end.

Lemma sse_loop_run data st l ch :
  sse_loop false (map SseData data) st {| log := l; remaining := None |} = Ok ch ->
  match run_events (List.filter (fun e => negb (silent e)) (omap decode data)) st l with
  | Ok (Return, l') => ch = {| log := l'; remaining := None |}
  | _ => True
  end.
Proof.
  revert st l. induction data as [|d data IH]; intros st l; [done|]. cbn [map sse_loop omap list_omap].
  destruct d as [|c d]; cbn [decode]; [apply IH|]. destruct (value_from_str (c :: d)) as [raw|]; cbn [fmap option_fmap option_map]; [|apply IH].
  set (e := deserialize_event raw). intros H. rewrite on_event_deliver in H. cbn [List.filter].
  destruct (silent e) eqn:Es; cbn [negb].
  - destruct e; try done; cbn in H; by apply IH in H.
  - cbn [run_events]. destruct (reaction false e st) as [[out f]| | |]; try done. cbn [comp_bind] in *.
    rewrite deliver_unlimited in H. destruct f; [by apply IH in H|by simplify_eq].
Qed.

Lemma run_events_app events events' st l :
  run_events (events ++ events') st l =
  let? '(f, l) := run_events events st l in
  match f with Continue st => run_events events' st l | Return => Ok (Return, l) end.
Proof.
  revert st l. induction events as [|e events IH]; intros st l; cbn; [done|].
  destruct (reaction false e st) as [[out [st'|]]| | |]; cbn; [apply IH|done..].
Qed.

(** Runs that go on and finish the given items *)
Definition finishes (events : list MessageStreamEvent) (st : SseState) (items : list ResponseItem) (st' : SseState) : Prop :=
  forall l, exists out, run_events events st l = Ok (Continue st', l ++ out) /\ omap item_done out = items.

Lemma finishes_app e1 e2 st1 st2 st3 i1 i2 :
  finishes e1 st1 i1 st2 -> finishes e2 st2 i2 st3 -> finishes (e1 ++ e2) st1 (i1 ++ i2) st3.
Proof.
  intros H1 H2 l. destruct (H1 l) as (o1 & Hr1 & <-). destruct (H2 (l ++ o1)) as (o2 & Hr2 & <-).
  exists (o1 ++ o2). rewrite run_events_app, Hr1. cbn. rewrite Hr2, app_assoc. split; [done|]. apply omap_app.
Qed.

Lemma finishes_one e st out st' :
  reaction false e st = Ok (out, Continue st') -> finishes [e] st (omap item_done out) st'.
Proof. intros H l. exists out. cbn. by rewrite H. Qed.

(** Deltas that each update the block at [i] by [step] *)
Lemma finishes_deltas {A} (mk : A -> BlockState) (step : A -> str -> A)
    (g : str -> ContentBlockDelta) i a pieces st :
  (forall a s st, tracker st !! i = Some (mk a) ->
     exists out, reaction false (BlockDelta i (g s)) st = Ok (out, Continue (set_tracker (<[i := mk (step a s)]> (tracker st)) st)) /\
       omap item_done out = []) ->
  finishes (map (BlockDelta i) (map g pieces)) (set_tracker (<[i := mk a]> (tracker st)) st) []
    (set_tracker (<[i := mk (foldl step a pieces)]> (tracker st)) st).
Proof.
  intros Hstep. revert a. induction pieces as [|s pieces IH]; intros a; [intros l; exists []; by rewrite app_nil_r|].
  cbn [map foldl]. apply (finishes_app [_] _ _ (set_tracker (<[i := mk (step a s)]> (tracker st)) st) _ [] []); [|apply IH].
  destruct (Hstep a s (set_tracker (<[i := mk a]> (tracker st)) st)) as (out & Hr & Ho); [apply lookup_insert_eq|].
  rewrite <- Ho. apply finishes_one. rewrite Hr. cbn. by rewrite insert_insert_eq.
Qed.

Lemma foldl_pieces (a : str) pieces : foldl (fun acc s => acc ++ s) a pieces = a ++ concat pieces.
Proof.
  revert a. induction pieces as [|s pieces IH]; intros a; cbn; [by rewrite app_nil_r|].
  by rewrite IH, <- app_assoc.
Qed.

Definition block_items (b : StreamedBlock) : list ResponseItem :=
  match b with
  | SText pieces => [text_item (concat pieces)]
  | SThinking pieces signature =>
      match concat pieces with [] => [] | thinking => [thinking_item thinking (concat signature)] end
  | STool id name _ pieces => [call_item id name (concat pieces)]
  | SRedacted data => [redacted_item data]
  | SSearch id _ pieces => [WebSearchCall (Some id) (Some (&"completed")) (web_search_action_from_arguments (concat pieces))]
  | SSearchResult _ _ => []
  end.

(** The block that has been streamed but not stopped *)
Definition streamed_state (b : StreamedBlock) : BlockState :=
  match b with
  | SText pieces => StText (concat pieces)
  | SThinking pieces signature => StThinking (concat pieces) (concat signature)
  | STool id name _ pieces => StToolUse id name (concat pieces)
  | SRedacted data => StRedactedThinking data
  | SSearch id _ pieces => StServerToolUse id (&"web_search") (concat pieces)
  | SSearchResult tool_use_id _ => StWebSearchToolResult tool_use_id
  end.

Definition opened_state (b : StreamedBlock) : BlockState :=
  match b with
  | SText _ => StText []
  | SThinking _ _ => StThinking [] []
  | STool id name _ _ => StToolUse id name []
  | SRedacted data => StRedactedThinking data
  | SSearch id _ _ => StServerToolUse id (&"web_search") []
  | SSearchResult tool_use_id _ => StWebSearchToolResult tool_use_id
  end.

Lemma finishes_start i b st :
  finishes [ContentBlockStart i (start_of b)] st [] (set_tracker (<[i := opened_state b]> (tracker st)) st).
Proof. intros l. destruct b; eexists; (split; [reflexivity|done]). Qed.

Lemma finishes_block_deltas i b st :
  finishes (map (BlockDelta i) (deltas_of b)) (set_tracker (<[i := opened_state b]> (tracker st)) st) []
    (set_tracker (<[i := streamed_state b]> (tracker st)) st).
Proof.
  destruct b as [pieces|pieces signature|id name input pieces|data|id input pieces|]; cbn [deltas_of opened_state streamed_state].
  - pose proof (finishes_deltas StText (fun acc s => acc ++ s) TextDelta i [] pieces st) as H.
    rewrite foldl_pieces in H. apply H. intros a s st' Hst. unfold reaction. cbn. rewrite Hst. by eexists.
  - rewrite map_app. eapply (finishes_app _ _ _ _ _ [] []).
    + apply (finishes_deltas (fun a => StThinking a []) (fun acc s => acc ++ s)).
      intros a s st' Hst. unfold reaction. cbn. rewrite Hst. by eexists.
    + rewrite foldl_pieces. cbn [app].
      pose proof (finishes_deltas (fun a => StThinking (concat pieces) a) (fun acc s => acc ++ s)
        SignatureDelta i [] signature st) as H.
      rewrite foldl_pieces in H. apply H. intros a s st' Hst. unfold reaction. cbn. rewrite Hst. by eexists.
  - pose proof (finishes_deltas (fun a => StToolUse id name a) (fun acc s => acc ++ s) InputJsonDelta i [] pieces st) as H.
    rewrite foldl_pieces in H. apply H. intros a s st' Hst. unfold reaction. cbn. rewrite Hst. by eexists.
  - intros l. exists []. by rewrite app_nil_r.
  - pose proof (finishes_deltas (fun a => StServerToolUse id (&"web_search") a) (fun acc s => acc ++ s) InputJsonDelta i [] pieces st) as H.
    rewrite foldl_pieces in H. apply H. intros a s st' Hst. unfold reaction. cbn. rewrite Hst. by eexists.
  - intros l. exists []. by rewrite app_nil_r.
Qed.

Lemma finishes_stop i b st :
  exists st', finishes [ContentBlockStop i] (set_tracker (<[i := streamed_state b]> (tracker st)) st) (block_items b) st'.
Proof.
  assert (forall out st', reaction false (ContentBlockStop i) (set_tracker (<[i := streamed_state b]> (tracker st)) st) =
    Ok (out, Continue st') -> omap item_done out = block_items b ->
    exists st', finishes [ContentBlockStop i] (set_tracker (<[i := streamed_state b]> (tracker st)) st)
      (block_items b) st') as Hk.
  { intros out st' H <-. exists st'. by apply finishes_one. }
  unfold reaction in Hk. cbn [on_event] in Hk. unfold on_block_stop in Hk. cbn [set_tracker tracker] in Hk.
  rewrite lookup_insert_eq in Hk. destruct b as [pieces|pieces signature|id name input pieces|data|id input pieces|]; cbn in Hk |- *.
  - by eapply Hk.
  - destruct (concat pieces); by eapply Hk.
  - by eapply Hk.
  - by eapply Hk.
  - by eapply Hk.
  - by eapply Hk.
Qed.

Lemma finishes_blocks blocks st :
  exists st', finishes (mbind block_events blocks) st (mbind (fun e => block_items e.2) blocks) st'.
Proof.
  revert st. induction blocks as [|[i b] blocks IH]; intros st.
  { exists st. intros l. exists []. by rewrite app_nil_r. }
  destruct (finishes_stop i b st) as [st1 H1]. destruct (IH st1) as [st2 H2]. exists st2. cbn.
  change (ContentBlockStart i (start_of b) :: (map (BlockDelta i) (deltas_of b) ++ [ContentBlockStop i]) ++
    mbind block_events blocks) with
    ([ContentBlockStart i (start_of b)] ++ (map (BlockDelta i) (deltas_of b) ++ [ContentBlockStop i]) ++
    mbind block_events blocks).
  rewrite <- app_assoc. eapply (finishes_app _ _ _ _ _ []); [apply finishes_start|].
  eapply (finishes_app _ _ _ _ _ []); [apply finishes_block_deltas|]. by eapply finishes_app.
Qed.

(** Searches that the provider ran *)
Definition is_search (item : ResponseItem) : bool := match item with WebSearchCall _ _ _ => true | _ => false end.
Definition search_of (e : N * StreamedBlock) : list ResponseItem :=
  match e.2 with
  | SSearch id input _ =>
      [WebSearchCall (Some id) (Some (&"completed")) (query ← get_str (&"query") input; Some (Search (Some query) None))]
  | _ => []
  end.

(** Texts of the same arguments: the second is the text of the value that the first is a
    text of; no text counts as no arguments. *)
Definition same_arguments (streamed printed : str) : Prop :=
  (exists v, value_from_str streamed = Some v /\ printed = value_to_string v) \/ streamed = [] /\ printed = value_to_string (Object []).

Definition same_item (streamed projected : ResponseItem) : Prop :=
  match streamed, projected with
  | FunctionCall i name namespace arguments call_id, FunctionCall i' name' namespace' arguments' call_id' =>
      i = i' /\ name = name' /\ namespace = namespace' /\ call_id = call_id' /\ same_arguments arguments arguments'
  | _, _ => streamed = projected
  end.

Definition in_both (item : ResponseItem) : bool := negb (empty_message item) && negb (is_search item).

Lemma project_streamed b :
  input_streamed b -> Forall2 same_item (List.filter in_both (block_items b)) (project_block (block_value b)).
Proof.
  destruct b as [pieces|pieces signature|id name input pieces|data|id input pieces|]; intros Hin;
    unfold project_block, str_field, get_str, vget; cbn [block_value tool_use_block obj field_get];
    eval_keys; cbn [mbind option_bind as_str default from_option Datatypes.id]; eval_keys; cbn [block_items].
  - destruct (concat pieces); [constructor|]. by repeat constructor.
  - destruct (concat pieces); [constructor|]. by repeat constructor.
  - unfold call_item. destruct (parse_flat_mcp_tool_name name). constructor; [|constructor]. split_and!; [done..|].
    destruct Hin as [Hin|[Hp ->]]; [left; eauto|by right].
  - by repeat constructor.
  - constructor.
  - constructor.
Qed.

Lemma project_blocks blocks :
  Forall (fun e => input_streamed e.2) blocks ->
  Forall2 same_item (List.filter in_both (mbind (fun e : N * StreamedBlock => block_items e.2) blocks))
    (mbind project_block (map (fun e => block_value e.2) blocks)) /\
  List.filter is_search (mbind (fun e : N * StreamedBlock => block_items e.2) blocks) = mbind search_of blocks.
Proof.
  induction 1 as [|[i b] blocks Hb _ [IH1 IH2]]; [split; [constructor|done]|]. cbn. rewrite !List.filter_app, IH2. split.
  - apply Forall2_app; [by apply project_streamed|done].
  - f_equal. destruct b as [pieces|pieces signature|id name input pieces|data|id input pieces|]; try done.
    + cbn. by destruct (concat pieces).
    + cbn. unfold call_item. by destruct (parse_flat_mcp_tool_name name).
    + cbn in *. unfold web_search_action_from_arguments. by rewrite Hb.
Qed.

End projection.

(** ** A concrete stream *)

Definition field (k v : string) : str * Value := (lit k, VString (lit v)).
Definition example_input : Value := Object [field "command" "ls"].

(** Short names stand for the text of the events. *)
Definition example_json : list (str * Value) :=
  [ (&"start", Object [field "type" "message_start";
      (&"message", Object [field "id" "msg_1"; field "model" "m";
        (&"usage", Object [(&"input_tokens", Number (&"10")); (&"output_tokens", Null)])])]);
    (&"text", Object [field "type" "content_block_start"; (&"index", Number (&"0"));
      (&"content_block", Object [field "type" "text"; field "text" ""])]);
    (&"hello", Object [field "type" "content_block_delta"; (&"index", Number (&"0"));
      (&"delta", Object [field "type" "text_delta"; field "text" "Hello"])]);
    (&"text stop", Object [field "type" "content_block_stop"; (&"index", Number (&"0"))]);
    (&"tool", Object [field "type" "content_block_start"; (&"index", Number (&"1"));
      (&"content_block", Object [field "type" "tool_use"; field "id" "t1"; field "name" "mcp__fs__read";
        (&"input", Object [])])]);
    (&"json", Object [field "type" "content_block_delta"; (&"index", Number (&"1"));
      (&"delta", Object [field "type" "input_json_delta"; field "partial_json" "INPUT"])]);
    (&"half", Object [field "type" "content_block_delta"; (&"index", Number (&"1"));
      (&"delta", Object [field "type" "input_json_delta"; field "partial_json" "INP"])]);
    (&"tool stop", Object [field "type" "content_block_stop"; (&"index", Number (&"1"))]);
    (&"delta", Object [field "type" "message_delta"; (&"delta", Object [field "stop_reason" "end_turn"]);
      (&"usage", Object [(&"output_tokens", Number (&"5"))])]);
    (&"stop", Object [field "type" "message_stop"]);
    (&"ping", Object [field "type" "ping"]);
    (&"INPUT", example_input) ].

Definition example_codec : ValueText :=
  {| value_from_str := fun s => field_get s example_json; value_to_string := fun _ => &"INPUT" |}.

Definition example_data : list str :=
  [&"start"; &"ping"; &"text"; &"hello"; []; &"not json"; &"hello"; &"text stop"; &"tool"; &"json"; &"tool stop";
   &"delta"; &"stop"; &"ping"].

Definition example_blocks : list (N * StreamedBlock) :=
  [(0%N, SText [&"Hello"; &"Hello"]); (1%N, STool (&"t1") (&"mcp__fs__read") example_input [&"INPUT"])].

(** The answer to the example, with the namespace of the tool read back *)
Example example_answer :
  project_anthropic_assistant_message (codec := example_codec)
    (Object [(&"content", Array (map (fun e => block_value e.2) example_blocks))]) =
  [Message None (&"assistant") [OutputText (&"HelloHello")] None;
   FunctionCall None (&"read") (Some (&"mcp__fs")) (&"INPUT") (&"t1")].
Proof. vm_compute. reflexivity. Qed.


Definition truncated_data : list str := [&"start"; &"tool"; &"half"; &"tool stop"; &"delta"; &"stop"].

Lemma truncated_call_reported_witness :
  exists out stop usage end_turn,
    process_messages_sse (codec := example_codec) false (map SseData truncated_data) None = Ok out /\
    inr (Completed stop (&"msg_1") usage end_turn) ∈ out /\ stop = Some (&"max_tokens").
Proof.
  destruct (process_messages_sse (codec := example_codec) false (map SseData truncated_data) None) as [out| | |] eqn:E;
    try (exfalso; vm_compute in E; discriminate E).
  assert (exists stop usage end_turn, inr (Completed stop (&"msg_1") usage end_turn) ∈ out) as (stop & usage & end_turn & Hin).
  { vm_compute in E. injection E as <-. do 3 eexists. apply list_elem_of_In. vm_compute. auto 10. }
  exists out, stop, usage, end_turn. split; [reflexivity|]. split; [exact Hin|].
  pose proof (@truncated_call_reported example_codec false (map SseData truncated_data) out stop (&"msg_1") usage end_turn E Hin) as Hw.
  destruct (heard_at_stop _ _) as [calls reason]. apply (proj1 Hw). left. clear Hw Hin. vm_compute in E. injection E as <-.
  exists None, (&"read"), (Some (&"mcp__fs")), (&"INP"), (&"t1"). split; [apply list_elem_of_In; vm_compute; auto 10|].
  split; [discriminate|vm_compute; reflexivity].
Defined.

(** A text block without text is an empty message in the stream and nothing in
    the projection, which is said to mirror the stream. *)
Theorem empty_text_differs `{codec : ValueText} :
  (exists out, reaction false (ContentBlockStop 0)
     (set_tracker {[0%N := streamed_state (SText [])]} new_state) = Ok (out, Continue new_state) /\
     omap item_done out = [text_item []]) /\
  project_block (block_value (SText [])) = [].
Proof. split; [|done]. eexists. by split. Qed.

(** A call without arguments has no text in the stream and that of an empty object in the
    projection, and a search is an item of the stream only. *)
Theorem empty_call_and_search_differ `{codec : ValueText} id input pieces :
  block_items (STool id (&"ls") (Object []) []) = [call_item id (&"ls") []] /\
  project_block (block_value (STool id (&"ls") (Object []) [])) = [call_item id (&"ls") (value_to_string (Object []))] /\
  length (block_items (SSearch id input pieces)) = 1 /\ project_block (block_value (SSearch id input pieces)) = [].
Proof. by split_and!. Qed.

(** ** Usage *)

(** A counter that is missing or negative counts as zero. *)
Definition count (o : option Z) : Z := Z.max (default 0%Z o) 0.

Definition creation_count (u : AnthropicUsage) : Z :=
  match au_cache_creation_input_tokens u with
  | Some n => count (Some n)
  | None => count (au_cache_creation u ≫= ephemeral_5m) + count (au_cache_creation u ≫= ephemeral_1h)
  end.

Lemma i64_arith_ok debug z : (0 <= z <= i64_max)%Z -> i64_arith debug z = Ok z.
Proof.
  intros Hz. unfold i64_arith. assert (in_i64 z = true) as ->; [|done].
  unfold in_i64, i64_min. apply andb_true_intro. split; apply Z.leb_le; [|lia]. unfold i64_max in Hz. lia.
Qed.

Lemma creation_tokens_ok debug u :
  (creation_count u <= i64_max)%Z -> cache_creation_tokens debug u = Ok (creation_count u).
Proof.
  unfold creation_count, cache_creation_tokens, count. destruct (au_cache_creation_input_tokens u) as [n|]; [done|].
  destruct (au_cache_creation u) as [c|]; cbn; [|done]. intros H. apply i64_arith_ok. lia.
Qed.

(** As long as the counters of one message add up to less than [2^63], in
    any build the reported input includes the cached tokens read and written,
    what is left after taking them off is the uncached input of the wire, the
    total is input and output, and no counter is negative. *)
Theorem anthropic_usage_normalized debug u :
  (count (au_input_tokens u) + count (au_cache_read_input_tokens u) + creation_count u + count (au_output_tokens u)
     <= i64_max)%Z ->
  exists t,
    (let? raw := to_raw_usage debug u in normalize_token_usage debug raw) = Ok t /\
    (input_tokens t - cached_input_tokens t - cache_creation_input_tokens t = count (au_input_tokens u))%Z /\
    cached_input_tokens t = count (au_cache_read_input_tokens u) /\
    cache_creation_input_tokens t = creation_count u /\
    output_tokens t = count (au_output_tokens u) /\
    total_tokens t = (input_tokens t + output_tokens t)%Z /\
    Forall (fun n => (0 <= n)%Z)
      [input_tokens t; cached_input_tokens t; cache_creation_input_tokens t; output_tokens t;
       reasoning_output_tokens t; total_tokens t; web_search_requests t; web_fetch_requests t].
Proof.
  intros H.
  assert (0 <= creation_count u)%Z as Hc by (unfold creation_count, count; case_match; lia).
  unfold to_raw_usage. rewrite creation_tokens_ok by (unfold count in *; lia). cbn [comp_bind].
  unfold normalize_token_usage. cbn [input_is_cache_inclusive cache_exclusive_prompt api_input cache_read cache_creation
    raw_output raw_reasoning_output api_total raw_web_search_requests raw_web_fetch_requests].
  fold (count (au_input_tokens u)) (count (au_cache_read_input_tokens u)) (count (au_output_tokens u)).
  rewrite (Z.max_l (creation_count u) 0) by done.
  assert (0 <= count (au_input_tokens u) /\ 0 <= count (au_cache_read_input_tokens u) /\
    0 <= count (au_output_tokens u))%Z as (? & ? & ?) by (unfold count; lia).
  do 3 (rewrite i64_arith_ok by lia; cbn [comp_bind]).
  eexists. split; [reflexivity|]. cbn. split_and!; try lia. repeat constructor; lia.
Qed.

Lemma anthropic_usage_normalized_witness :
  let u := {| au_input_tokens := Some 80%Z; au_output_tokens := Some 7%Z; au_cache_read_input_tokens := Some 10%Z;
              au_cache_creation_input_tokens := None;
              au_cache_creation := Some {| ephemeral_5m := Some 15%Z; ephemeral_1h := Some 5%Z |};
              au_output_tokens_details := None; au_server_tool_use := None |} in
  exists t,
    (let? raw := to_raw_usage true u in normalize_token_usage true raw) = Ok t /\
    (input_tokens t - cached_input_tokens t - cache_creation_input_tokens t)%Z = 80%Z /\
    cached_input_tokens t = 10%Z /\ cache_creation_input_tokens t = 20%Z /\ output_tokens t = 7%Z /\
    total_tokens t = (input_tokens t + output_tokens t)%Z /\
    Forall (fun n => (0 <= n)%Z)
      [input_tokens t; cached_input_tokens t; cache_creation_input_tokens t; output_tokens t;
       reasoning_output_tokens t; total_tokens t; web_search_requests t; web_fetch_requests t].
Proof. intros u. apply (anthropic_usage_normalized true u). by vm_compute. Defined.

(** For a wire whose prompt counter already includes the cache, nothing makes the
    cached tokens a part of the input. *)
Theorem inclusive_usage_unchecked debug :
  exists t, normalize_token_usage debug (cache_inclusive_prompt 5 9 0 3 0 8) = Ok t /\
    (input_tokens t < cached_input_tokens t)%Z.
Proof. eexists. split; [by destruct debug|]. done. Qed.
