(* ===== verification/IpAddr.v ===== *)
(** * IP addresses: [std::net], and which of them are public

    The textual forms that [str::parse::<IpAddr>] accepts, the classes of
    addresses of the standard library that [network-proxy/src/policy.rs] uses, and
    its own [is_non_public_ip]. *)
From Stdlib Require Import NArith.
From S2P Require Import Prelude RustStr RustPath.

Record Ipv4Addr := Octets { o1 : N; o2 : N; o3 : N; o4 : N }.

(** An [Ipv6Addr] is its eight segments of 16 bits. *)
Inductive IpAddr := V4 (ip : Ipv4Addr) | V6 (segments : list N).

Definition colon : char := 58%N.

(** ** The parser of [std::net]

    A reader consumes a prefix of the input or leaves it alone. *)

Definition to_digit (radix : N) (c : char) : option N :=
  let d :=
    if (48 <=? c)%N && (c <=? 57)%N then Some (c - 48)%N
    else if (97 <=? c)%N && (c <=? 122)%N then Some (c - 87)%N
    else if (65 <=? c)%N && (c <=? 90)%N then Some (c - 55)%N
    else None in
  match d with Some d => if (d <? radix)%N then Some d else None | None => None end.

(** The value of the longest run of digits, their number and the rest; [None] when
    there are more than [max_digits] of them. *)
Fixpoint read_digits (radix : N) (max_digits count : nat) (result : N) (s : str) : option (N * nat * str) :=
  match s with
  | [] => Some (result, count, [])
  | c :: s' =>
      match to_digit radix c with
      | Some d =>
          if max_digits <? S count then None
          else read_digits radix max_digits (S count) (result * radix + d) s'
      | None => Some (result, count, s)
      end
  end.

Definition read_number (radix : N) (max_digits : nat) (allow_zero_prefix : bool) (max_value : N) (s : str)
  : option (N * str) :=
  let has_leading_zero := match s with c :: _ => (c =? 48)%N | [] => false end in
  match read_digits radix max_digits 0 0 s with
  | Some (result, digit_count, rest) =>
      if digit_count =? 0 then None
      else if negb allow_zero_prefix && has_leading_zero && (1 <? digit_count) then None
      else if (result <=? max_value)%N then Some (result, rest) else None
  | None => None
  end.

(** From the second item on, [sep] comes first. *)
Definition read_separator {A} (sep : char) (index : nat) (inner : str -> option (A * str)) (s : str) : option (A * str) :=
  match index, s with
  | 0, _ => inner s
  | S _, c :: s' => if (c =? sep)%N then inner s' else None
  | S _, [] => None
  end.

Definition read_octet : str -> option (N * str) := read_number 10 3 false 255.

Definition read_ipv4_addr (s : str) : option (Ipv4Addr * str) :=
  match read_octet s with
  | None => None
  | Some (a, s) =>
      match read_separator dot 1 read_octet s with
      | None => None
      | Some (b, s) =>
          match read_separator dot 2 read_octet s with
          | None => None
          | Some (c, s) =>
              match read_separator dot 3 read_octet s with
              | None => None
              | Some (d, s) => Some (Octets a b c d, s)
              end
          end
      end
  end.

(** [read_groups]: up to [n] groups from the [i]th on; whether the last two are an
    IPv4 address. *)
Fixpoint read_groups (n i : nat) (s : str) : list N * bool * str :=
  match n with
  | 0 => ([], false, s)
  | S n' =>
      match (if 0 <? n' then read_separator colon i read_ipv4_addr s else None) with
      | Some (v4, s') => ([(o1 v4 * 256 + o2 v4)%N; (o3 v4 * 256 + o4 v4)%N], true, s')
      | None =>
          match read_separator colon i (read_number 16 4 true 65535) s with
          | Some (g, s') => let '(gs, v4, s'') := read_groups n' (S i) s' in (g :: gs, v4, s'')
          | None => ([], false, s)
          end
      end
  end.

Definition read_ipv6_addr (s : str) : option (list N * str) :=
  let '(head, head_ipv4, s) := read_groups 8 0 s in
  if length head =? 8 then Some (head, s)
  else if head_ipv4 then None
  else
    match s with
    | c :: c' :: s =>
        if (c =? colon)%N && (c' =? colon)%N then
          let '(tail, _, s) := read_groups (8 - (length head + 1)) 0 s in
          Some (head ++ repeat 0%N (8 - length head - length tail) ++ tail, s)
        else None
    | _ => None
    end.

(** [str::parse::<IpAddr>]: the whole input *)
Definition parse_ip_addr (s : str) : option IpAddr :=
  match read_ipv4_addr s with
  | Some (ip, rest) => match rest with [] => Some (V4 ip) | _ => None end
  | None =>
      match read_ipv6_addr s with
      | Some (segments, []) => Some (V6 segments)
      | _ => None
      end
  end.

(** ** Classes of addresses of the standard library *)

Definition u32_of (ip : Ipv4Addr) : N := (((o1 ip * 256 + o2 ip) * 256 + o3 ip) * 256 + o4 ip)%N.

Definition v4_is_loopback (ip : Ipv4Addr) : bool := (o1 ip =? 127)%N.
Definition v4_is_private (ip : Ipv4Addr) : bool :=
  (o1 ip =? 10)%N || (o1 ip =? 172)%N && (16 <=? o2 ip)%N && (o2 ip <=? 31)%N || (o1 ip =? 192)%N && (o2 ip =? 168)%N.
Definition v4_is_link_local (ip : Ipv4Addr) : bool := (o1 ip =? 169)%N && (o2 ip =? 254)%N.
Definition v4_is_unspecified (ip : Ipv4Addr) : bool := (u32_of ip =? 0)%N.
Definition v4_is_multicast (ip : Ipv4Addr) : bool := (224 <=? o1 ip)%N && (o1 ip <=? 239)%N.
Definition v4_is_broadcast (ip : Ipv4Addr) : bool := (u32_of ip =? 4294967295)%N.

Definition segment (segments : list N) (i : nat) : N := nth i segments 0%N.

Definition v6_is_unspecified (segments : list N) : bool := bool_decide (segments = [0; 0; 0; 0; 0; 0; 0; 0]%N).
Definition v6_is_loopback (segments : list N) : bool := bool_decide (segments = [0; 0; 0; 0; 0; 0; 0; 1]%N).
Definition v6_is_multicast (segments : list N) : bool := (N.land (segment segments 0) 0xff00 =? 0xff00)%N.
Definition v6_is_unique_local (segments : list N) : bool := (N.land (segment segments 0) 0xfe00 =? 0xfc00)%N.
Definition v6_is_unicast_link_local (segments : list N) : bool := (N.land (segment segments 0) 0xffc0 =? 0xfe80)%N.

(** [Ipv6Addr::to_ipv4]: compatible and mapped addresses *)
Definition to_ipv4 (segments : list N) : option Ipv4Addr :=
  match segments with
  | [a; b; c; d; e; x; ab; cd] =>
      if forallb (N.eqb 0) [a; b; c; d; e] && ((x =? 0)%N || (x =? 0xffff)%N)
      then Some (Octets (ab / 256) (ab mod 256) (cd / 256) (cd mod 256)) else None
  | _ => None
  end.

Definition ip_is_loopback (ip : IpAddr) : bool :=
  match ip with V4 ip => v4_is_loopback ip | V6 segments => v6_is_loopback segments end.

(** ** network-proxy/src/policy.rs *)

Definition u32_max : N := 4294967295.

(** [u32::MAX << k] drops the bits above the 32nd. *)
Definition ipv4_in_cidr (ip base : Ipv4Addr) (prefix : N) : bool :=
  let mask := if (prefix =? 0)%N then 0%N else N.land (N.shiftl u32_max (32 - prefix)) u32_max in
  (N.land (u32_of ip) mask =? N.land (u32_of base) mask)%N.

Definition is_non_public_ipv4 (ip : Ipv4Addr) : bool :=
  v4_is_loopback ip || v4_is_private ip || v4_is_link_local ip || v4_is_unspecified ip || v4_is_multicast ip ||
  v4_is_broadcast ip ||
  ipv4_in_cidr ip (Octets 0 0 0 0) 8 || ipv4_in_cidr ip (Octets 100 64 0 0) 10 || ipv4_in_cidr ip (Octets 192 0 0 0) 24 ||
  ipv4_in_cidr ip (Octets 192 0 2 0) 24 || ipv4_in_cidr ip (Octets 198 18 0 0) 15 ||
  ipv4_in_cidr ip (Octets 198 51 100 0) 24 || ipv4_in_cidr ip (Octets 203 0 113 0) 24 ||
  ipv4_in_cidr ip (Octets 240 0 0 0) 4.

Definition is_non_public_ipv6 (segments : list N) : bool :=
  match to_ipv4 segments with
  | Some v4 => is_non_public_ipv4 v4 || v6_is_loopback segments
  | None =>
      v6_is_loopback segments || v6_is_unspecified segments || v6_is_multicast segments || v6_is_unique_local segments ||
      v6_is_unicast_link_local segments
  end.

Definition is_non_public_ip (ip : IpAddr) : bool :=
  match ip with V4 ip => is_non_public_ipv4 ip | V6 segments => is_non_public_ipv6 segments end.

(** ** Addresses that come out of the parser *)

Definition octet_ok (n : N) : Prop := (n < 256)%N.
Definition segment_ok (n : N) : Prop := (n < 65536)%N.

Definition v4_ok (ip : Ipv4Addr) : Prop := octet_ok (o1 ip) /\ octet_ok (o2 ip) /\ octet_ok (o3 ip) /\ octet_ok (o4 ip).
Definition v6_ok (segments : list N) : Prop := length segments = 8 /\ Forall segment_ok segments.
Definition ip_ok (ip : IpAddr) : Prop := match ip with V4 ip => v4_ok ip | V6 segments => v6_ok segments end.

Lemma read_number_max radix k z max s n rest : read_number radix k z max s = Some (n, rest) -> (n <= max)%N.
Proof. unfold read_number. intros H. split_matches; simplify_eq. by apply N.leb_le. Qed.

Lemma read_separator_inv {A} sep i (inner : str -> option (A * str)) s a rest :
  read_separator sep i inner s = Some (a, rest) -> exists s', inner s' = Some (a, rest).
Proof. destruct i, s as [|c s]; simpl; intros H; try done; eauto. destruct (c =? sep)%N; [eauto|done]. Qed.

Lemma read_octet_ok s n rest : read_octet s = Some (n, rest) -> octet_ok n.
Proof. intros H%read_number_max. unfold octet_ok. lia. Qed.

Lemma read_ipv4_ok s ip rest : read_ipv4_addr s = Some (ip, rest) -> v4_ok ip.
Proof.
  unfold read_ipv4_addr. intros H. split_matches; simplify_eq.
  repeat match goal with E : read_separator _ _ _ _ = Some _ |- _ => apply read_separator_inv in E as [? E] end.
  repeat split; simpl; by eapply read_octet_ok.
Qed.

Lemma read_groups_ok n i s gs v4 rest :
  read_groups n i s = (gs, v4, rest) -> length gs <= n /\ Forall segment_ok gs.
Proof.
  revert i s gs v4 rest. induction n as [|n IH]; simpl; intros i s gs v4 rest H; [by simplify_eq|].
  destruct (if 0 <? n then _ else _) as [[ip s']|] eqn:E.
  - destruct n; [done|]. simpl in E. apply read_separator_inv in E as [? E%read_ipv4_ok].
    destruct E as (H1 & H2 & H3 & H4). unfold octet_ok in *. simplify_eq. split; [simpl; lia|].
    repeat constructor; unfold segment_ok; lia.
  - destruct (read_separator _ _ (read_number _ _ _ _) _) as [[g s']|] eqn:Eg; [|simplify_eq; split; [simpl; lia|constructor]].
    destruct (read_groups n (S i) s') as [[gs' v4'] s''] eqn:Er. simplify_eq. apply IH in Er as [Hl Hf].
    apply read_separator_inv in Eg as [? Eg%read_number_max]. split; [simpl; lia|]. constructor; [unfold segment_ok; lia|done].
Qed.

Lemma parse_ip_ok s ip : parse_ip_addr s = Some ip -> ip_ok ip.
Proof.
  unfold parse_ip_addr. destruct (read_ipv4_addr s) as [[v4 rest]|] eqn:E4.
  { destruct rest; intros; simplify_eq. by eapply read_ipv4_ok. }
  unfold read_ipv6_addr. destruct (read_groups 8 0 s) as [[head v4] s1] eqn:E1. apply read_groups_ok in E1 as [Hl Hf].
  destruct (length head =? 8) eqn:E8; [intros; split_matches; simplify_eq; split; [by apply Nat.eqb_eq|done]|].
  apply Nat.eqb_neq in E8. destruct v4; [done|]. destruct s1 as [|c [|c' s1]]; try done.
  destruct ((c =? colon)%N && (c' =? colon)%N); [|done].
  destruct (read_groups _ 0 s1) as [[tail v4'] s2] eqn:E2. apply read_groups_ok in E2 as [Hl2 Hf2].
  destruct s2; [|done]. intros; simplify_eq. split.
  - rewrite !length_app, repeat_length. lia.
  - rewrite !Forall_app. split_and!; [done| |done]. apply Forall_forall. intros x Hx%list_elem_of_In%repeat_spec.
    subst. unfold segment_ok. lia.
Qed.

(** ** Blocks of addresses *)

(** The upper [w - k] of [w] bits *)
Definition high_bits (w k : N) : N := N.land (N.shiftl (N.ones w) k) (N.ones w).

Lemma high_bits_testbit w k i : N.testbit (high_bits w k) i = (k <=? i)%N && (i <? w)%N.
Proof.
  unfold high_bits. rewrite N.land_spec. destruct (N.leb_spec k i) as [H|H].
  - rewrite N.shiftl_spec_high' by done. destruct (N.ltb_spec i w).
    + rewrite !N.ones_spec_low by lia. done.
    + rewrite (N.ones_spec_high w i) by lia. by rewrite andb_false_r.
  - by rewrite N.shiftl_spec_low.
Qed.

Lemma land_high_bits w x k : (x < 2 ^ w)%N -> N.land x (high_bits w k) = (2 ^ k * (x / 2 ^ k))%N.
Proof.
  intros Hx. rewrite N.mul_comm, <- N.shiftr_div_pow2, <- N.shiftl_mul_pow2. apply N.bits_inj. intros i.
  rewrite N.land_spec, high_bits_testbit. destruct (N.leb_spec k i) as [H|H].
  - rewrite N.shiftl_spec_high', N.shiftr_spec' by done. replace (i - k + k)%N with i by lia.
    destruct (N.ltb_spec i w) as [|Hw]; [by rewrite andb_true_r|]. rewrite andb_false_r.
    symmetry. destruct (decide (x = 0%N)) as [->|]; [apply N.bits_0|].
    apply N.bits_above_log2. apply (N.lt_le_trans _ w); [|done]. apply N.log2_lt_pow2; lia.
  - by rewrite N.shiftl_spec_low, andb_false_r.
Qed.

(** A multiple of [k] is reached by rounding down exactly from the [k] values above it. *)
Lemma round_down_iff x b k : k <> 0%N -> (b mod k = 0)%N -> (k * (x / k) = b <-> b <= x < b + k)%N.
Proof.
  intros Hk Hm. pose proof (N.div_mod x k Hk) as Ex. pose proof (N.mod_lt x k Hk) as Lx.
  pose proof (N.div_mod b k Hk) as Eb. rewrite Hm, N.add_0_r in Eb. split.
  - intros E. rewrite E in Ex. generalize dependent (x mod k)%N. lia.
  - intros H. rewrite Eb. f_equal. symmetry. apply (N.div_unique _ _ _ (x - b)%N).
    + lia.
    + rewrite <- Eb. lia.
Qed.

Lemma u32_bound ip : v4_ok ip -> (u32_of ip < 2 ^ 32)%N.
Proof. intros (H1 & H2 & H3 & H4). unfold octet_ok, u32_of in *. change (2 ^ 32)%N with 4294967296%N. lia. Qed.

(** [base]/[prefix] as an interval *)
Definition in_block (ip : Ipv4Addr) (block : Ipv4Addr * N) : Prop :=
  (u32_of block.1 <= u32_of ip < u32_of block.1 + 2 ^ (32 - block.2))%N.

Lemma ipv4_in_cidr_block ip base prefix :
  v4_ok ip -> v4_ok base -> (0 < prefix <= 32)%N -> (u32_of base mod 2 ^ (32 - prefix) = 0)%N ->
  ipv4_in_cidr ip base prefix = true <-> in_block ip (base, prefix).
Proof.
  intros Hi Hb Hp Hm. unfold ipv4_in_cidr. destruct (N.eqb_spec prefix 0); [lia|].
  change (N.land (N.shiftl u32_max (32 - prefix)) u32_max) with (high_bits 32 (32 - prefix)).
  assert (2 ^ (32 - prefix) <> 0)%N as Hk by (apply N.pow_nonzero; lia).
  rewrite !land_high_bits, N.eqb_eq by (by apply u32_bound). unfold in_block. simpl.
  pose proof (N.div_mod (u32_of base) _ Hk) as Eb. rewrite Hm, N.add_0_r in Eb. rewrite <- Eb. by apply round_down_iff.
Qed.

(** The blocks of special purpose, by their RFC: loopback, private, link-local, this
    network, shared, protocol assignments, documentation, benchmarking, multicast,
    and reserved with broadcast *)
Definition SPECIAL_BLOCKS : list (Ipv4Addr * N) :=
  [(Octets 127 0 0 0, 8); (Octets 10 0 0 0, 8); (Octets 172 16 0 0, 12); (Octets 192 168 0 0, 16);
   (Octets 169 254 0 0, 16); (Octets 0 0 0 0, 8); (Octets 100 64 0 0, 10); (Octets 192 0 0 0, 24);
   (Octets 192 0 2 0, 24); (Octets 198 51 100 0, 24); (Octets 203 0 113 0, 24); (Octets 198 18 0 0, 15);
   (Octets 224 0 0 0, 4); (Octets 240 0 0 0, 4)]%N.

Ltac unfold_ipv4 :=
  unfold in_block, u32_of, v4_ok, octet_ok in *; simpl in *;
  repeat match goal with |- context [(2 ^ ?k)%N] => let v := eval vm_compute in (2 ^ k)%N in change (2 ^ k)%N with v end.

Lemma octet_blocks ip : v4_ok ip ->
  (v4_is_loopback ip = true <-> in_block ip (Octets 127 0 0 0, 8%N)) /\
  (v4_is_private ip = true <-> in_block ip (Octets 10 0 0 0, 8%N) \/ in_block ip (Octets 172 16 0 0, 12%N) \/
     in_block ip (Octets 192 168 0 0, 16%N)) /\
  (v4_is_link_local ip = true <-> in_block ip (Octets 169 254 0 0, 16%N)) /\
  (v4_is_multicast ip = true <-> in_block ip (Octets 224 0 0 0, 4%N)) /\
  (v4_is_unspecified ip = true -> in_block ip (Octets 0 0 0 0, 8%N)) /\
  (v4_is_broadcast ip = true -> in_block ip (Octets 240 0 0 0, 4%N)).
Proof.
  destruct ip as [a b c d]. intros H. unfold v4_is_loopback, v4_is_private, v4_is_link_local, v4_is_multicast,
    v4_is_unspecified, v4_is_broadcast. rewrite ?orb_true_iff, ?andb_true_iff, ?N.eqb_eq, ?N.leb_le.
  unfold_ipv4. split_and!; lia.
Qed.

Lemma non_public_ipv4_blocks ip : v4_ok ip -> is_non_public_ipv4 ip = true <-> Exists (in_block ip) SPECIAL_BLOCKS.
Proof.
  intros H. destruct (octet_blocks ip H) as (E1 & E2 & E3 & E4 & E5 & E6).
  unfold is_non_public_ipv4, SPECIAL_BLOCKS. rewrite !orb_true_iff, E1, E2, E3, E4.
  repeat match goal with |- context [ipv4_in_cidr ip ?b ?p = true] =>
    rewrite (ipv4_in_cidr_block ip b p) by (done || by vm_compute) end.
  rewrite !Exists_cons, Exists_nil. tauto.
Qed.

Lemma to_ipv4_embeds segments v4 : to_ipv4 segments = Some v4 <->
  exists x ab cd, segments = [0; 0; 0; 0; 0; x; ab; cd]%N /\ (x = 0 \/ x = 0xffff)%N /\
    v4 = Octets (ab / 256) (ab mod 256) (cd / 256) (cd mod 256).
Proof.
  split.
  - unfold to_ipv4. intros H. destruct segments as [|a [|b [|c [|d [|e [|x [|ab [|cd [|? ?]]]]]]]]]; try discriminate H.
    destruct (forallb _ _ && _) eqn:E; [|discriminate H]. cbn [forallb] in E.
    rewrite !andb_true_iff, orb_true_iff, !N.eqb_eq in E. injection H as <-.
    destruct E as [(<- & <- & <- & <- & <- & _) Hx]. by exists x, ab, cd.
  - intros (x & ab & cd & -> & Hx & ->). simpl. by destruct Hx as [->| ->].
Qed.

(** A range of values of the first sixteen bits *)
Lemma segment_masks s : segment_ok s ->
  ((N.land s 0xff00 =? 0xff00)%N = true <-> (0xff00 <= s)%N) /\
  ((N.land s 0xfe00 =? 0xfc00)%N = true <-> (0xfc00 <= s < 0xfe00)%N) /\
  ((N.land s 0xffc0 =? 0xfe80)%N = true <-> (0xfe80 <= s < 0xfec0)%N).
Proof.
  intros H. assert (s < 2 ^ 16)%N as Hs by exact H. unfold segment_ok in H.
  change 0xff00%N with (high_bits 16 8) at 1. change 0xfe00%N with (high_bits 16 9) at 1.
  change 0xffc0%N with (high_bits 16 6). rewrite !land_high_bits, !N.eqb_eq, !round_down_iff by done.
  change (2 ^ 8)%N with 256%N. change (2 ^ 9)%N with 512%N. change (2 ^ 6)%N with 64%N. lia.
Qed.

Lemma v6_local_not_embedded s :
  to_ipv4 s = None -> v6_is_loopback s = false /\ v6_is_unspecified s = false.
Proof.
  intros H. unfold v6_is_loopback, v6_is_unspecified.
  split; apply bool_decide_eq_false; intros ->; discriminate H.
Qed.

(** The addresses that the proxy treats as local.  An IPv4 address is non-public
    exactly when it lies in one of the fourteen blocks of special purpose, whatever
    combination of octet tests and bit masks finds it; an IPv6 address that embeds an
    IPv4 address (mapped or compatible) exactly when the embedded one is non-public;
    and any other exactly when it is unique-local, link-local or multicast. *)
Theorem non_public_classification (ip : IpAddr) :
  ip_ok ip ->
  is_non_public_ip ip = true <->
  match ip with
  | V4 v4 => Exists (in_block v4) SPECIAL_BLOCKS
  | V6 segments =>
      match to_ipv4 segments with
      | Some v4 => Exists (in_block v4) SPECIAL_BLOCKS
      | None =>
          let first := segment segments 0 in
          (0xfc00 <= first < 0xfe00 \/ 0xfe80 <= first < 0xfec0 \/ 0xff00 <= first)%N
      end
  end.
Proof.
  destruct ip as [v4|segments]; simpl; intros Hok; [by apply non_public_ipv4_blocks|].
  unfold is_non_public_ipv6. destruct (to_ipv4 segments) as [v4|] eqn:E.
  - pose proof E as (x & ab & cd & -> & Hx & ->)%to_ipv4_embeds. destruct Hok as [_ Hf].
    rewrite !Forall_cons in Hf. destruct Hf as (_ & _ & _ & _ & _ & _ & Ha & Hc & _). unfold segment_ok in *.
    rewrite orb_true_iff, non_public_ipv4_blocks.
    + split; [|by left]. intros [?|Hl]; [done|]. apply bool_decide_eq_true in Hl. injection Hl as -> -> ->.
      do 5 right. left. by vm_compute.
    + split_and!; simpl; unfold octet_ok; try (apply N.mod_lt; lia); apply N.Div0.div_lt_upper_bound; lia.
  - destruct (v6_local_not_embedded _ E) as [-> ->]. simpl. destruct Hok as [Hl Hf].
    destruct segments as [|s segments]; [done|]. apply Forall_cons in Hf as [Hs _].
    destruct (segment_masks s Hs) as (E1 & E2 & E3).
    unfold v6_is_multicast, v6_is_unique_local, v6_is_unicast_link_local, segment. simpl.
    rewrite !orb_true_iff, E1, E2, E3. tauto.
Qed.

Lemma non_public_classification_witness :
  is_non_public_ip (V6 [0; 0; 0; 0; 0; 0xffff; 0x0a00; 1]%N) = true.
Proof.
  apply (non_public_classification (V6 [0; 0; 0; 0; 0; 0xffff; 0x0a00; 1]%N)).
  - split; [reflexivity|]. repeat constructor.
  - do 1 right. left. vm_compute. split; [intros H; discriminate H|reflexivity].
Defined.

(** Addresses that carry a loopback address for a translator (NAT64, 6to4), and the
    documentation prefix, count as public. *)
Lemma translated_loopback_public :
  map (fun s => option_map is_non_public_ip (parse_ip_addr s))
    [&"64:ff9b::7f00:1"; &"2002:7f00:1::"; &"2001:db8::1"; &"::ffff:127.0.0.1"; &"::1"] =
  [Some false; Some false; Some false; Some true; Some true].
Proof. vm_compute. reflexivity. Qed.
