(* ===== verification/DomainPolicy.v ===== *)
(** * network-proxy/src/policy.rs: hosts and domain patterns

    Hosts are normalised before they are compared; the lists of the policy hold
    exact hosts, [*.domain] and [**.domain], which are compiled to globs for
    matching and compared with each other when a managed list bounds another. *)
From S2P Require Import Prelude RustStr RustPath IpAddr.

(** The crate [globset]: case-insensitive globs and sets of them *)
Class GlobSetLib := {
  Glob : Type;
  GlobSet : Type;
  glob_case_insensitive : str -> option Glob;
  glob_set : list Glob -> option GlobSet;
  set_is_match : GlobSet -> str -> bool
}.

(** The crate [url]: [Host::parse] followed by [to_string] *)
Class UrlHostLib := { url_host_parse : str -> option str }.

Definition open_bracket : char := 91%N.
Definition close_bracket : char := 93%N.
Definition percent : char := 37%N.
Definition star : char := 42%N.
Definition question_mark : char := 63%N.

(** [str::split_once] for a string *)
Fixpoint split_once_str (d s : str) : option (str * str) :=
  match strip_prefix d s with
  | Some rest => Some ([], rest)
  | None =>
      match s with
      | [] => None
      | c :: s' => match split_once_str d s' with Some (a, b) => Some (c :: a, b) | None => None end
      end
  end.

(** ** Hosts *)

Definition is_ip_literal (s : str) : bool := match parse_ip_addr s with Some _ => true | None => false end.

Definition normalize_ip_literal (host : str) : option str :=
  if is_ip_literal host then Some host
  else
    match split_once_str (&"%25") host with
    | Some (ip, scope) =>
        if is_ip_literal ip then Some (ip ++ [percent] ++ scope)
        else match split_once_str (&"%") host with
             | Some (ip, scope) => if is_ip_literal ip then Some (ip ++ [percent] ++ scope) else None
             | None => None
             end
    | None =>
        match split_once_str (&"%") host with
        | Some (ip, scope) => if is_ip_literal ip then Some (ip ++ [percent] ++ scope) else None
        | None => None
        end
    end.

Definition normalize_dns_host_or_ip_literal (host : str) : str :=
  let host := trim_end_char dot (to_ascii_lowercase host) in
  default host (normalize_ip_literal host).

Definition normalize_host (host : str) : str :=
  let host := trim host in
  match (if starts_with [open_bracket] host then split_once close_bracket host else None) with
  | Some (before, _) => normalize_dns_host_or_ip_literal (drop 1 before)
  | None =>
      if count_char colon host =? 1
      then normalize_dns_host_or_ip_literal (match split_once colon host with Some (h, _) => h | None => host end)
      else normalize_dns_host_or_ip_literal host
  end.

Definition unscoped_ip_literal (host : str) : option str :=
  match split_once percent host with
  | Some (ip, _) => if is_ip_literal ip then Some ip else None
  | None => None
  end.

(** [Host::parse] *)
Definition host_parse (input : str) : option str :=
  let normalized := normalize_host input in
  match normalized with [] => None | _ => Some normalized end.

Definition is_loopback_host (host : str) : bool :=
  let host := default host (unscoped_ip_literal host) in
  if str_eqb host (&"localhost") then true
  else match parse_ip_addr host with Some ip => ip_is_loopback ip | None => false end.

(** ** Patterns *)

Definition normalize_pattern (pattern : str) : str :=
  let pattern := trim pattern in
  if str_eqb pattern (&"*") then &"*"
  else
    match strip_prefix (&"**.") pattern with
    | Some domain => &"**." ++ normalize_host domain
    | None =>
        match strip_prefix (&"*.") pattern with
        | Some domain => &"*." ++ normalize_host domain
        | None => normalize_host pattern
        end
    end.

Inductive DomainPattern := ApexAndSubdomains (domain : str) | SubdomainsOnly (domain : str) | ExactHost (domain : str).

Definition parse_domain (domain : str) (build : str -> DomainPattern) : DomainPattern :=
  match trim domain with [] => ExactHost [] | d => build d end.

Definition domain_pattern_parse (input : str) : DomainPattern :=
  let input := trim input in
  match input with
  | [] => ExactHost []
  | _ =>
      match strip_prefix (&"**.") input with
      | Some domain => parse_domain domain ApexAndSubdomains
      | None =>
          match strip_prefix (&"*.") input with
          | Some domain => parse_domain domain SubdomainsOnly
          | None => ExactHost input
          end
      end
  end.

Definition expand_domain_pattern (pattern : str) : list str :=
  match domain_pattern_parse pattern with
  | ExactHost domain => [domain]
  | SubdomainsOnly domain => [&"?*." ++ domain]
  | ApexAndSubdomains domain => [domain; &"?*." ++ domain]
  end.

Definition is_global_wildcard_domain_pattern (pattern : str) : bool :=
  existsb (fun candidate => str_eqb candidate (&"*")) (expand_domain_pattern (normalize_pattern pattern)).

Inductive GlobalWildcard := WildcardAllow | WildcardReject.

Definition GLOBAL_WILDCARD_ERROR : str :=
  &"unsupported global wildcard domain pattern " ++ [34%N] ++ &"*" ++ [34%N] ++
  &"; use exact hosts or scoped wildcards like *.example.com or **.example.com".

Definition normalize_domain (domain : str) : str := to_ascii_lowercase (trim_end_char dot domain).
Definition domain_eq (left right : str) : bool := str_eqb (normalize_domain left) (normalize_domain right).

Definition is_subdomain_or_equal (child parent : str) : bool :=
  let child := normalize_domain child in
  let parent := normalize_domain parent in
  if str_eqb child parent then true else ends_with (dot :: parent) child.

Definition is_strict_subdomain (child parent : str) : bool :=
  let child := normalize_domain child in
  let parent := normalize_domain parent in
  negb (str_eqb child parent) && ends_with (dot :: parent) child.

(** [DomainPattern::allows] *)
Definition allows (pattern candidate : DomainPattern) : bool :=
  match pattern, candidate with
  | ExactHost domain, ExactHost candidate => domain_eq candidate domain
  | ExactHost _, _ => false
  | SubdomainsOnly domain, ExactHost candidate => is_strict_subdomain candidate domain
  | SubdomainsOnly domain, SubdomainsOnly candidate => is_subdomain_or_equal candidate domain
  | SubdomainsOnly domain, ApexAndSubdomains candidate => is_strict_subdomain candidate domain
  | ApexAndSubdomains domain, ExactHost candidate => is_subdomain_or_equal candidate domain
  | ApexAndSubdomains domain, SubdomainsOnly candidate => is_subdomain_or_equal candidate domain
  | ApexAndSubdomains domain, ApexAndSubdomains candidate => is_subdomain_or_equal candidate domain
  end.

Section globs.
Context `{Hglob : !GlobSetLib}.

(** The candidates of one pattern that were not seen before *)
Fixpoint add_candidates (candidates seen : list str) (builder : list Glob) : comp str (list str * list Glob) :=
  match candidates with
  | [] => Ok (seen, builder)
  | candidate :: candidates =>
      if existsb (str_eqb candidate) seen then add_candidates candidates seen builder
      else
        match glob_case_insensitive candidate with
        | Some glob => add_candidates candidates (candidate :: seen) (builder ++ [glob])
        | None => Err (&"invalid glob pattern: " ++ candidate)
        end
  end.

Fixpoint add_patterns (patterns : list str) (global_wildcard : GlobalWildcard) (seen : list str) (builder : list Glob)
  : comp str (list Glob) :=
  match patterns with
  | [] => Ok builder
  | pattern :: patterns =>
      if match global_wildcard with WildcardReject => is_global_wildcard_domain_pattern pattern | WildcardAllow => false end
      then Err GLOBAL_WILDCARD_ERROR
      else
        let? '(seen, builder) := add_candidates (expand_domain_pattern (normalize_pattern pattern)) seen builder in
        add_patterns patterns global_wildcard seen builder
  end.

Definition compile_globset_with_policy (patterns : list str) (global_wildcard : GlobalWildcard) : comp str GlobSet :=
  let? builder := add_patterns patterns global_wildcard [] [] in
  match glob_set builder with Some set => Ok set | None => Err (&"glob set") end.

Definition compile_allowlist_globset (patterns : list str) : comp str GlobSet :=
  compile_globset_with_policy patterns WildcardAllow.
Definition compile_denylist_globset (patterns : list str) : comp str GlobSet :=
  compile_globset_with_policy patterns WildcardReject.
End globs.

(** *** Patterns of managed lists, with domains checked by [url] *)
Section url.
Context `{Hurl : !UrlHostLib}.

Definition parse_domain_for_constraints (domain : str) : str :=
  let domain := trim_end_char dot (trim domain) in
  match domain with
  | [] => []
  | _ =>
      let host :=
        if starts_with [open_bracket] domain && ends_with [close_bracket] domain
        then take (length domain - 1 - 1) (drop 1 domain) else domain in
      if contains_char star host || contains_char question_mark host || contains_char percent host then domain
      else match url_host_parse host with Some host => host | None => [] end
  end.

Definition parse_for_constraints (input : str) : DomainPattern :=
  let input := trim input in
  match input with
  | [] => ExactHost []
  | _ =>
      match strip_prefix (&"**.") input with
      | Some domain => ApexAndSubdomains (parse_domain_for_constraints domain)
      | None =>
          match strip_prefix (&"*.") input with
          | Some domain => SubdomainsOnly (parse_domain_for_constraints domain)
          | None => ExactHost (parse_domain_for_constraints input)
          end
      end
  end.
End url.

(** ** Plain domain names *)

Definition dns_char (c : char) : bool := (97 <=? c)%N && (c <=? 122)%N || is_ascii_digit c || (c =? 45)%N || (c =? dot)%N.

(** Lower-case letters, digits, dashes and dots, with no dot at either end *)
Definition dns_name (d : str) : bool :=
  forallb dns_char d && negb (starts_with [dot] d) && negb (ends_with [dot] d) && negb (bool_decide (d = [])).

(** A character that is one of a domain name once it is in lower case *)
Lemma dns_char_lower c : dns_char (char_to_ascii_lowercase c) = true ->
  is_whitespace c = false /\ c <> open_bracket /\ c <> colon /\ c <> percent /\ c <> star /\ c <> question_mark /\
  (c = dot <-> char_to_ascii_lowercase c = dot).
Proof.
  unfold dns_char, char_to_ascii_lowercase, is_ascii_digit, is_whitespace, open_bracket, colon, percent, star, question_mark, dot.
  rewrite !orb_true_iff, !andb_true_iff, !N.leb_le, !N.eqb_eq.
  destruct ((65 <=? c)%N && (c <=? 90)%N) eqn:E; rewrite ?andb_true_iff, ?andb_false_iff, ?N.leb_le, ?N.leb_gt in E; intros H.
  all: split_and!; try lia; rewrite !orb_false_iff, !andb_false_iff, !N.leb_gt, !N.eqb_neq; lia.
Qed.

Lemma lower_idem d : to_ascii_lowercase (to_ascii_lowercase d) = to_ascii_lowercase d.
Proof.
  unfold to_ascii_lowercase. rewrite map_map. apply map_ext. intros c. unfold char_to_ascii_lowercase.
  destruct ((65 <=? c)%N && (c <=? 90)%N) eqn:E; [|by rewrite E].
  apply andb_true_iff in E as [H1%N.leb_le H2%N.leb_le]. destruct (N.leb_spec (c + 32) 90); [lia|by rewrite andb_false_r].
Qed.

Lemma dns_name_lower d : dns_name d = true -> to_ascii_lowercase d = d.
Proof.
  intros H. unfold dns_name in H. rewrite !andb_true_iff in H. destruct H as [[[H _] _] _].
  induction d as [|c d IH]; [done|]. simpl in *. apply andb_true_iff in H as [Hc H]. f_equal; [|by apply IH].
  unfold dns_char, char_to_ascii_lowercase, is_ascii_digit, dot in *. rewrite !orb_true_iff, !andb_true_iff, !N.leb_le, !N.eqb_eq in Hc.
  destruct (N.leb_spec 65 c), (N.leb_spec c 90); simpl; lia.
Qed.

(** A domain name in any mix of cases *)
Definition plain (d : str) : Prop := dns_name (to_ascii_lowercase d) = true.

Lemma dns_name_plain d : dns_name d = true -> plain d.
Proof. intros H. unfold plain. by rewrite dns_name_lower. Qed.

Lemma plain_chars d c : plain d -> c ∈ d -> dns_char (char_to_ascii_lowercase c) = true.
Proof.
  unfold plain, dns_name. rewrite !andb_true_iff. intros [[[H _] _] _] Hc.
  rewrite forallb_forall in H. apply H. unfold to_ascii_lowercase. apply in_map. by apply list_elem_of_In.
Qed.

Lemma plain_nonempty d : plain d -> d <> [].
Proof. intros H ->. done. Qed.

Lemma plain_last d c : plain (d ++ [c]) -> c <> dot.
Proof.
  intros H. pose proof (plain_chars _ c H ltac:(set_solver)) as Hc.
  apply dns_char_lower in Hc as (_ & _ & _ & _ & _ & _ & Hd). rewrite Hd. intros E.
  unfold plain, dns_name in H. rewrite !andb_true_iff in H. destruct H as [[_ H] _]. unfold to_ascii_lowercase in H.
  rewrite map_app in H. simpl in H. rewrite E in H. apply negb_true_iff in H. unfold ends_with in H.
  by rewrite strip_suffix_app in H.
Qed.

Lemma plain_head c d : plain (c :: d) -> c <> dot.
Proof.
  intros H. pose proof (plain_chars _ c H ltac:(set_solver)) as Hc.
  apply dns_char_lower in Hc as (_ & _ & _ & _ & _ & _ & Hd). rewrite Hd. intros E.
  unfold plain, dns_name in H. rewrite !andb_true_iff in H. destruct H as [[[_ H] _] _].
  simpl in H. rewrite E in H. by vm_compute in H.
Qed.

Lemma plain_trim d : plain d -> trim d = d.
Proof.
  intros H. apply trim_id.
  - destruct d as [|c d]; [done|]. simpl. apply negb_true_iff. apply dns_char_lower. apply (plain_chars _ _ H). set_solver.
  - unfold trimmed_r. destruct d as [|c d _] using rev_ind; [done|]. rewrite reverse_snoc. simpl. apply negb_true_iff.
    apply dns_char_lower. apply (plain_chars _ _ H). set_solver.
Qed.

Lemma plain_no_char d c : plain d -> c ∈ [open_bracket; colon; percent; star; question_mark] -> c ∉ d.
Proof.
  intros H Hc Hin. apply (plain_chars _ _ H) in Hin as (_ & H1 & H2 & H3 & H4 & H5 & _)%dns_char_lower.
  repeat (apply elem_of_cons in Hc as [->|Hc]; [done|]). by apply elem_of_nil in Hc.
Qed.

Lemma lower_trim_dot d : plain d -> trim_end_char dot (to_ascii_lowercase d) = to_ascii_lowercase d.
Proof.
  intros H. unfold trim_end_char. destruct d as [|c d _] using rev_ind; [done|].
  unfold to_ascii_lowercase. rewrite map_app. simpl. rewrite reverse_snoc. simpl.
  destruct (N.eqb_spec (char_to_ascii_lowercase c) dot) as [E|]; [|by rewrite <- reverse_snoc, reverse_involutive].
  exfalso. apply (plain_last _ _ H). by apply dns_char_lower; [apply (plain_chars _ _ H); set_solver|].
Qed.

Lemma split_once_str_none c d s : c ∉ s -> split_once_str (c :: d) s = None.
Proof.
  induction s as [|x s IH]; intros H; [done|]. cbn [split_once_str].
  destruct (strip_prefix (c :: d) (x :: s)) as [r|] eqn:E; [apply strip_prefix_Some in E; set_solver|].
  rewrite IH; [done|set_solver].
Qed.

Lemma count_char_none c s : c ∉ s -> count_char c s = 0.
Proof.
  unfold count_char. induction s as [|x s IH]; intros H; [done|]. rewrite filter_cons_False; [apply IH; set_solver|].
  intros E%Is_true_true%N.eqb_eq. set_solver.
Qed.

Lemma starts_with_char c s : c ∉ s -> starts_with [c] s = false.
Proof. intros H. apply not_true_iff_false. rewrite starts_with_spec. intros [r ->]. set_solver. Qed.

(** Only the case of a domain name changes. *)
Lemma normalize_host_plain d : plain d -> normalize_host d = to_ascii_lowercase d.
Proof.
  intros H. pose proof (plain_no_char d) as Hn. unfold normalize_host. rewrite plain_trim by done.
  rewrite starts_with_char by (apply Hn; [done|set_solver]).
  rewrite count_char_none by (apply Hn; [done|set_solver]). simpl. unfold normalize_dns_host_or_ip_literal.
  rewrite lower_trim_dot by done. unfold normalize_ip_literal. destruct (is_ip_literal _); [done|].
  assert (percent ∉ to_ascii_lowercase d) as Hp.
  { apply (plain_no_char (to_ascii_lowercase d)); [|set_solver]. unfold plain. by rewrite lower_idem. }
  change (&"%25") with (percent :: &"25"). change (&"%") with (percent :: []). by rewrite !split_once_str_none.
Qed.

(** ** What a pattern stands for *)

Definition pattern_host (q : DomainPattern) (h : str) : Prop :=
  match q with
  | ExactHost d => h = d
  | SubdomainsOnly d => exists x, x <> [] /\ h = x ++ dot :: d
  | ApexAndSubdomains d => h = d \/ exists x, x <> [] /\ h = x ++ dot :: d
  end.

(** The three forms of a pattern over a domain name *)
Inductive plain_pattern : str -> DomainPattern -> Prop :=
| plain_exact d : plain d -> plain_pattern d (ExactHost (to_ascii_lowercase d))
| plain_subdomains d : plain d -> plain_pattern (&"*." ++ d) (SubdomainsOnly (to_ascii_lowercase d))
| plain_apex d : plain d -> plain_pattern (&"**." ++ d) (ApexAndSubdomains (to_ascii_lowercase d)).

Lemma trim_plain_app c pre d : is_whitespace c = false -> plain d -> trim (c :: pre ++ d) = c :: pre ++ d.
Proof.
  intros Hc H. apply trim_id; [simpl; by rewrite Hc|]. unfold trimmed_r.
  destruct d as [|x d _] using rev_ind; [by apply plain_nonempty in H|].
  rewrite app_comm_cons, app_assoc, reverse_snoc. simpl. apply negb_true_iff.
  apply dns_char_lower. apply (plain_chars _ _ H). set_solver.
Qed.

Lemma strip_star_plain s d : plain d -> strip_prefix (star :: s) d = None.
Proof.
  intros H. destruct (strip_prefix (star :: s) d) as [r|] eqn:E; [|done]. apply strip_prefix_Some in E as ->.
  exfalso. eapply (plain_no_char _ star H); set_solver.
Qed.

Lemma plain_lower d : plain d -> plain (to_ascii_lowercase d).
Proof. unfold plain. by rewrite lower_idem. Qed.

Lemma plain_not_star d : plain d -> d <> &"*".
Proof. intros H ->. eapply (plain_no_char _ star H); [set_solver|]. by left. Qed.

(** Reading an input of one of the three forms, for the two parsers *)
Definition by_prefix {A} (apex sub exact : str -> A) (input : str) : A :=
  match strip_prefix (&"**.") input with
  | Some d => apex d
  | None => match strip_prefix (&"*.") input with Some d => sub d | None => exact input end
  end.

Lemma by_prefix_plain {A} (apex sub exact : str -> A) d :
  plain d -> by_prefix apex sub exact (&"**." ++ d) = apex d /\ by_prefix apex sub exact (&"*." ++ d) = sub d /\
    by_prefix apex sub exact d = exact d.
Proof.
  intros H. unfold by_prefix. split_and!.
  - by rewrite strip_prefix_app.
  - change (&"**.") with (star :: star :: [dot]). change (&"*." ++ d) with (star :: dot :: d). cbn [strip_prefix].
    change (star =? star)%N with true. change (star =? dot)%N with false. cbn iota.
    change (&"*.") with [star; dot]. change (star :: dot :: d) with ([star; dot] ++ d). by rewrite strip_prefix_app.
  - change (&"**.") with (star :: &"*."). change (&"*.") with (star :: [dot]). by rewrite !strip_star_plain.
Qed.

Lemma plain_pattern_trim p q : plain_pattern p q -> trim p = p.
Proof.
  destruct 1 as [d H|d H|d H]; [by apply plain_trim| |].
  - apply (trim_plain_app star [dot] d); done.
  - apply (trim_plain_app star [star; dot] d); done.
Qed.

Lemma plain_pattern_not_star p q : plain_pattern p q -> p <> &"*".
Proof. destruct 1 as [d H|d H|d H]; [by apply plain_not_star| |]; intros E; apply (f_equal length) in E; simpl in E; lia. Qed.

Lemma normalize_pattern_plain p q : plain_pattern p q ->
  normalize_pattern p = to_ascii_lowercase p /\ plain_pattern (to_ascii_lowercase p) q.
Proof.
  intros H. pose proof (plain_pattern_trim _ _ H) as Ht. pose proof (plain_pattern_not_star _ _ H) as Hs.
  assert (normalize_pattern p = by_prefix (fun d => &"**." ++ normalize_host d) (fun d => &"*." ++ normalize_host d)
    normalize_host p) as -> by (unfold normalize_pattern; by rewrite Ht, (proj2 (str_eqb_neq _ _) Hs)).
  destruct H as [d H|d H|d H];
    match goal with |- by_prefix ?a ?b ?c _ = _ /\ _ => destruct (by_prefix_plain a b c d H) as (E1 & E2 & E3) end;
    rewrite ?E1, ?E2, ?E3, normalize_host_plain by done; (split; [done|]).
  - pose proof (plain_exact _ (plain_lower _ H)) as P. by rewrite lower_idem in P.
  - pose proof (plain_subdomains _ (plain_lower _ H)) as P. by rewrite lower_idem in P.
  - pose proof (plain_apex _ (plain_lower _ H)) as P. by rewrite lower_idem in P.
Qed.

Lemma domain_pattern_parse_plain p q : plain_pattern p q -> p = to_ascii_lowercase p -> domain_pattern_parse p = q.
Proof.
  intros H E. assert (p <> []) as Hne by (destruct H as [d H|d H|d H]; [by apply plain_nonempty|done..]).
  assert (domain_pattern_parse p = by_prefix (fun d => parse_domain d ApexAndSubdomains)
    (fun d => parse_domain d SubdomainsOnly) ExactHost p) as ->
    by (unfold domain_pattern_parse; rewrite (plain_pattern_trim _ _ H); by destruct p).
  assert (forall d build, plain d -> parse_domain d build = build d) as Hd.
  { intros d build Hd. unfold parse_domain. rewrite plain_trim by done. destruct d; [by apply plain_nonempty in Hd|done]. }
  destruct H as [d H|d H|d H];
    match goal with |- by_prefix ?a ?b ?c _ = _ => destruct (by_prefix_plain a b c d H) as (E1 & E2 & E3) end;
    rewrite ?E1, ?E2, ?E3, ?Hd by done; f_equal; [done|..].
  - unfold to_ascii_lowercase at 1 in E. rewrite map_app in E. by apply app_inj_1 in E as [_ E].
  - unfold to_ascii_lowercase at 1 in E. rewrite map_app in E. by apply app_inj_1 in E as [_ E].
Qed.

Lemma normal_pattern_parse p q : plain_pattern p q -> domain_pattern_parse (normalize_pattern p) = q.
Proof.
  intros H. destruct (normalize_pattern_plain _ _ H) as [-> H']. apply domain_pattern_parse_plain; [done|].
  by rewrite lower_idem.
Qed.

(** ** Compiled lists

    What the list of globs relies on: a set matches when one of its globs does; a
    glob without special characters matches itself, [?*.] in front of a domain name
    a non-empty prefix and a dot, and [*] everything. *)
Class GlobSetLaws `{Hglob : !GlobSetLib} := {
  glob_is_match : Glob -> str -> bool;
  glob_set_matches gs set h : glob_set gs = Some set -> set_is_match set h = existsb (fun g => glob_is_match g h) gs;
  literal_glob d : dns_name d = true -> exists g, glob_case_insensitive d = Some g /\
    forall h, to_ascii_lowercase h = h -> glob_is_match g h = true <-> h = d;
  subdomain_glob d : dns_name d = true -> exists g, glob_case_insensitive (&"?*." ++ d) = Some g /\
    forall h, to_ascii_lowercase h = h -> glob_is_match g h = true <-> exists x, x <> [] /\ h = x ++ dot :: d;
  star_glob : exists g, glob_case_insensitive (&"*") = Some g /\ forall h, glob_is_match g h = true
}.

Section compiled.
Context `{Hglob : !GlobSetLib, Hlaws : !GlobSetLaws}.

(** A pattern of a list: [None] is the global wildcard. *)
Definition list_pattern (p : str) (q : option DomainPattern) : Prop :=
  match q with Some q => plain_pattern p q | None => p = &"*" end.
Definition list_host (h : str) (q : option DomainPattern) : Prop :=
  match q with Some q => pattern_host q h | None => True end.

Definition candidate_matches (h candidate : str) : Prop :=
  exists g, glob_case_insensitive candidate = Some g /\ glob_is_match g h = true.

(** The builder holds the globs of the candidates seen. *)
Definition built (seen : list str) (builder : list Glob) : Prop :=
  (forall g, g ∈ builder <-> exists c, c ∈ seen /\ glob_case_insensitive c = Some g).

Lemma add_candidates_spec cs seen builder :
  (forall c, c ∈ cs -> glob_case_insensitive c <> None) -> built seen builder ->
  exists seen' builder', add_candidates cs seen builder = Ok (seen', builder') /\ built seen' builder' /\
    forall c, c ∈ seen' <-> c ∈ seen \/ c ∈ cs.
Proof.
  revert seen builder. induction cs as [|c cs IH]; intros seen builder Hg Hb; simpl.
  { eexists _, _. split_and!; [done|done|]. set_solver. }
  destruct (existsb (str_eqb c) seen) eqn:E.
  - apply existsb_elem in E as (c' & Hc & ->%str_eqb_eq). destruct (IH seen builder) as (s' & b' & -> & H1 & H2); [set_solver|done|].
    eexists _, _. split_and!; [done|done|]. set_solver.
  - destruct (glob_case_insensitive c) as [g|] eqn:Eg; [|exfalso; eapply Hg; [left|done]].
    destruct (IH (c :: seen) (builder ++ [g])) as (s' & b' & -> & H1 & H2); [set_solver| |].
    + intros g'. rewrite elem_of_app, list_elem_of_singleton, (Hb g'). split.
      * intros [(c' & Hc & Hc')| ->]; [exists c'; set_solver|exists c; set_solver].
      * intros (c' & [->|Hc]%elem_of_cons & Hc'); [right; congruence|left; eauto].
    + eexists _, _. split_and!; [done|done|]. set_solver.
Qed.

Lemma expand_wildcard : expand_domain_pattern (normalize_pattern (&"*")) = [&"*"].
Proof. vm_compute. reflexivity. Qed.

Lemma plain_pattern_dns p q : plain_pattern p q ->
  exists d, dns_name d = true /\ (q = ExactHost d \/ q = SubdomainsOnly d \/ q = ApexAndSubdomains d).
Proof. destruct 1; eexists; (split; [done|]); auto. Qed.

Lemma exists_cons {A} (P : A -> Prop) a l : (exists c, c ∈ a :: l /\ P c) <-> P a \/ exists c, c ∈ l /\ P c.
Proof.
  split.
  - intros (c & [->|Hc]%elem_of_cons & HP); [by left|right; eauto].
  - intros [HP|(c & Hc & HP)]; [exists a; split; [by left|done]|exists c; split; [by right|done]].
Qed.

Lemma exists_nil {A} (P : A -> Prop) : (exists c, c ∈ [] /\ P c) <-> False.
Proof. split; [|done]. intros (c & Hc & _). by apply elem_of_nil in Hc. Qed.

Lemma candidate_spec d h : dns_name d = true -> to_ascii_lowercase h = h ->
  glob_case_insensitive d <> None /\ glob_case_insensitive (&"?*." ++ d) <> None /\
  (candidate_matches h d <-> h = d) /\
  (candidate_matches h (&"?*." ++ d) <-> exists x, x <> [] /\ h = x ++ dot :: d).
Proof.
  intros Hd Hh. destruct (literal_glob d Hd) as (g & Eg & Hg), (subdomain_glob d Hd) as (g' & Eg' & Hg').
  unfold candidate_matches. rewrite Eg, Eg'. split_and!; [done|done| |].
  - rewrite <- (Hg h Hh). split; [by intros (? & [= <-] & ?)|eauto].
  - rewrite <- (Hg' h Hh). split; [by intros (? & [= <-] & ?)|eauto].
Qed.

(** The candidates of a pattern are valid globs and match what it stands for. *)
Lemma expand_spec p q : list_pattern p q ->
  (forall c, c ∈ expand_domain_pattern (normalize_pattern p) -> glob_case_insensitive c <> None) /\
  forall h, to_ascii_lowercase h = h ->
    list_host h q <-> exists c, c ∈ expand_domain_pattern (normalize_pattern p) /\ candidate_matches h c.
Proof.
  destruct q as [q|]; simpl.
  - intros H. unfold expand_domain_pattern. rewrite (normal_pattern_parse _ _ H).
    destruct (plain_pattern_dns _ _ H) as (d & Hd & Hq). destruct (candidate_spec d [] Hd eq_refl) as (H1 & H2 & _).
    split.
    + intros c. destruct Hq as [->|[->| ->]]; rewrite ?elem_of_cons, elem_of_nil; intros Hc; destruct_or?; by subst.
    + intros h Hh. destruct (candidate_spec d h Hd Hh) as (_ & _ & H3 & H4).
      destruct Hq as [->|[->| ->]]; rewrite ?exists_cons, exists_nil, ?H3, ?H4; simpl; tauto.
  - intros ->. rewrite expand_wildcard. destruct star_glob as (g & Eg & Hg). split.
    + intros c ->%list_elem_of_singleton. congruence.
    + intros h _. split; [|done]. intros _. exists (&"*"). split; [by left|]. exists g. auto.
Qed.

Lemma global_wildcard_iff p q : list_pattern p q -> is_global_wildcard_domain_pattern p = true <-> q = None.
Proof.
  intros H. unfold is_global_wildcard_domain_pattern. destruct q as [q|].
  - split; [|done]. intros (c & Hc & ->%str_eqb_eq)%existsb_elem. exfalso. revert Hc.
    unfold expand_domain_pattern. rewrite (normal_pattern_parse _ _ H).
    destruct (plain_pattern_dns _ _ H) as (d & Hd & Hq). pose proof (plain_not_star d (dns_name_plain d Hd)) as Hs.
    destruct Hq as [->|[->| ->]]; rewrite ?elem_of_cons, elem_of_nil; intros Hc; destruct_or?; try done; try discriminate; congruence.
  - simpl in H. subst p. by rewrite expand_wildcard.
Qed.

Lemma add_patterns_spec ps qs w seen builder : Forall2 list_pattern ps qs -> built seen builder ->
  match add_patterns ps w seen builder with
  | Ok builder' =>
      (w = WildcardReject -> None ∉ qs) /\
      exists seen', built seen' builder' /\
        forall h, to_ascii_lowercase h = h ->
          (exists c, c ∈ seen' /\ candidate_matches h c) <-> (exists c, c ∈ seen /\ candidate_matches h c) \/ Exists (list_host h) qs
  | Err e => e = GLOBAL_WILDCARD_ERROR /\ w = WildcardReject /\ None ∈ qs
  | _ => False
  end.
Proof.
  intros H. revert seen builder. induction H as [|p q ps qs Hp H IH]; intros seen builder Hb; cbn [add_patterns].
  { split; [set_solver|]. exists seen. split; [done|]. intros h _. rewrite Exists_nil. tauto. }
  pose proof (global_wildcard_iff _ _ Hp) as Hw. destruct (expand_spec _ _ Hp) as [Hg Hm].
  destruct (match w with WildcardReject => _ | WildcardAllow => _ end) eqn:E.
  { destruct w; [done|]. apply Hw in E as ->. split_and!; [done|done|by left]. }
  destruct (add_candidates_spec _ seen builder Hg Hb) as (seen' & builder' & -> & Hb' & Hs). cbn [comp_bind].
  specialize (IH _ _ Hb'). destruct (add_patterns ps w seen' builder'); [|destruct IH as (-> & -> & IH)|done..].
  - destruct IH as [Hn (seen2 & Hb2 & Hm2)]. split.
    + intros ->. specialize (Hn eq_refl). intros [Hq|Hq]%elem_of_cons; [|done]. symmetry in Hq. apply Hw in Hq. congruence.
    + exists seen2. split; [done|]. intros h Hh. rewrite (Hm2 h Hh), Exists_cons, (Hm h Hh).
      setoid_rewrite Hs. naive_solver.
  - split_and!; [done|done|by right].
Qed.

(** The compiled lists of the proxy mean what their patterns say.  For patterns
    that are a domain name, [*.] or [**.] and a domain name, in any case of letters,
    or [*]: the deny list refuses to compile exactly when it contains [*]; and a
    compiled list matches a lower-case host exactly when one of the patterns names the
    host, has it as a strict subdomain, or is the global wildcard. *)
Theorem compiled_list_meaning (ps : list str) (qs : list (option DomainPattern)) (h : str) :
  Forall2 list_pattern ps qs -> to_ascii_lowercase h = h ->
  (compile_denylist_globset ps = Err GLOBAL_WILDCARD_ERROR <-> None ∈ qs) /\
  (forall set, compile_denylist_globset ps = Ok set \/ compile_allowlist_globset ps = Ok set ->
     set_is_match set h = true <-> Exists (list_host h) qs).
Proof.
  intros H Hh. assert (built [] []) as Hb by (intros g; set_solver).
  pose proof (add_patterns_spec ps qs WildcardReject [] [] H Hb) as Hd.
  pose proof (add_patterns_spec ps qs WildcardAllow [] [] H Hb) as Ha.
  unfold compile_denylist_globset, compile_allowlist_globset, compile_globset_with_policy.
  assert (forall seen b set, built seen b -> glob_set b = Some set ->
    set_is_match set h = true <-> exists c, c ∈ seen /\ candidate_matches h c) as Hset.
  { intros seen b set Hbs Es. rewrite (glob_set_matches _ _ h Es), existsb_elem. unfold candidate_matches.
    setoid_rewrite (Hbs _). naive_solver. }
  assert ((exists c : str, c ∈ [] /\ candidate_matches h c) <-> False) as Hnil by set_solver.
  split.
  - destruct (add_patterns ps WildcardReject [] []); simpl; [|naive_solver|done..].
    destruct Hd as [Hn _]. specialize (Hn eq_refl). destruct (glob_set _); naive_solver.
  - intros set [E|E].
    + destruct (add_patterns ps WildcardReject [] []); try discriminate E. simpl in E.
      destruct Hd as [_ (seen & Hbs & Hm)]. specialize (Hm h Hh). destruct (glob_set a) eqn:Es; [|discriminate]. injection E as <-.
      rewrite (Hset _ _ _ Hbs Es), Hm, Hnil. tauto.
    + destruct (add_patterns ps WildcardAllow [] []); try discriminate E. simpl in E.
      destruct Ha as [_ (seen & Hbs & Hm)]. specialize (Hm h Hh). destruct (glob_set a) eqn:Es; [|discriminate]. injection E as <-.
      rewrite (Hset _ _ _ Hbs Es), Hm, Hnil. tauto.
Qed.
End compiled.

(** ** One pattern within another *)

Definition pattern_domain (q : DomainPattern) : str :=
  match q with ApexAndSubdomains d | SubdomainsOnly d | ExactHost d => d end.

Lemma normalize_domain_dns d : dns_name d = true -> normalize_domain d = d.
Proof.
  intros H. unfold normalize_domain. pose proof (dns_name_lower d H) as E.
  rewrite <- E at 1. by rewrite lower_trim_dot, lower_idem by by apply dns_name_plain.
Qed.

Definition strictly_below (d h : str) : Prop := exists x, x <> [] /\ h = x ++ dot :: d.

Lemma strictly_below_trans a b c : strictly_below b a -> strictly_below c b -> strictly_below c a.
Proof.
  intros (x & Hx & ->) (y & Hy & ->). exists (x ++ dot :: y). split; [by destruct x|].
  by rewrite <- (assoc_L (++)).
Qed.

Lemma ends_with_below c d : dns_name c = true -> ends_with (dot :: d) c = true <-> strictly_below d c.
Proof.
  intros Hc. unfold ends_with, strictly_below. split.
  - destruct (strip_suffix _ _) as [x|] eqn:E; [|done]. intros _. apply strip_suffix_Some in E as ->. exists x.
    split; [|done]. intros ->. by apply dns_name_plain, plain_head in Hc.
  - intros (x & _ & ->). by rewrite strip_suffix_app.
Qed.

Lemma below_irrefl d : ~ strictly_below d d.
Proof. intros (x & _ & E). apply (f_equal length) in E. rewrite length_app in E. simpl in E. lia. Qed.

Lemma is_subdomain_or_equal_spec c d : dns_name c = true -> dns_name d = true ->
  is_subdomain_or_equal c d = true <-> c = d \/ strictly_below d c.
Proof.
  intros Hc Hd. unfold is_subdomain_or_equal. rewrite !normalize_domain_dns, <- ends_with_below by done.
  destruct (str_eqb c d) eqn:E; [apply str_eqb_eq in E; tauto|]. apply str_eqb_neq in E. tauto.
Qed.

Lemma is_strict_subdomain_spec c d : dns_name c = true -> dns_name d = true ->
  is_strict_subdomain c d = true <-> strictly_below d c.
Proof.
  intros Hc Hd. unfold is_strict_subdomain. rewrite !normalize_domain_dns, andb_true_iff, ends_with_below, negb_true_iff, str_eqb_neq by done.
  split; [tauto|]. intros H. split; [|done]. intros ->. by apply below_irrefl in H.
Qed.

(** A subdomain of [c] that is longer than [d] and has no other dot *)
Lemma below_long c d : dns_name c = true ->
  let h := repeat 97%N (S (length d)) ++ dot :: c in
  strictly_below c h /\ h <> d /\ (strictly_below d h -> c = d \/ strictly_below d c).
Proof.
  intros Hc h. split_and!.
  - exists (repeat 97%N (S (length d))). by split.
  - intros E. apply (f_equal length) in E. unfold h in E. rewrite length_app, repeat_length in E. simpl in E. lia.
  - intros (y & Hy & E). unfold h in E. apply app_eq_inv in E as [(k & Ex & Ek)|(k & Ex & Ek)].
    + destruct k as [|c' k]; [injection Ek as ->; by left|]. injection Ek as <- Ek. exfalso.
      assert (dot ∈ repeat 97%N (S (length d))) as Hin by (rewrite Ex; set_solver).
      apply list_elem_of_In, repeat_spec in Hin. done.
    + destruct k as [|c' k]; [injection Ek as ->; by left|]. injection Ek as <- Ec. right. exists k. split; [|done]. intros ->.
      rewrite Ec in Hc. by apply dns_name_plain, plain_head in Hc.
Qed.

(** Comparing patterns is comparing the sets of hosts they stand for: over domain
    names, a managed pattern allows another one exactly when every host of the other
    is a host of the managed one. *)
Theorem allows_is_inclusion (m c : DomainPattern) :
  dns_name (pattern_domain m) = true -> dns_name (pattern_domain c) = true ->
  allows m c = true <-> forall h, pattern_host c h -> pattern_host m h.
Proof.
  intros Hm Hc. destruct m as [d|d|d], c as [c|c|c]; simpl in *;
    rewrite ?is_subdomain_or_equal_spec, ?is_strict_subdomain_spec by done;
    fold (strictly_below d); fold (strictly_below c); destruct (below_long c d Hc) as (H1 & H2 & H3);
    (split; [intros H h Hh|intros H]).
  - destruct Hh as [->|Hh]; [done|]. destruct H as [->|H]; [by right|]. right. by eapply strictly_below_trans.
  - apply H. by left.
  - right. destruct H as [->|H]; [done|]. by eapply strictly_below_trans.
  - destruct (H _ H1); [done|by apply H3].
  - by subst.
  - by apply H.
  - destruct Hh as [->|Hh]; [done|]. by eapply strictly_below_trans.
  - apply H. by left.
  - destruct H as [->|H]; [done|]. by eapply strictly_below_trans.
  - apply H3, H, H1.
  - by subst.
  - by apply H.
  - done.
  - exfalso. apply H2, H. by right.
  - done.
  - exfalso. apply H2, H, H1.
  - unfold domain_eq in H. rewrite !normalize_domain_dns in H by done. apply str_eqb_eq in H. congruence.
  - unfold domain_eq. rewrite !normalize_domain_dns by done. apply str_eqb_eq. by apply H.
Qed.

(** ** Managed patterns *)

(** Domain names that the host parser of [url] takes as they are: non-empty labels, a
    last one that is no number, no punycode *)
Definition url_domain (d : str) : bool :=
  let labels := split_char dot (to_ascii_lowercase d) in
  forallb (fun l => negb (bool_decide (l = [])) && negb (starts_with (&"xn--") l)) labels &&
  match last labels with Some (c :: _) => (97 <=? c)%N && (c <=? 122)%N | _ => false end.

Class UrlHostLaws `{Hurl : !UrlHostLib} :=
  url_plain_domain d : plain d -> url_domain d = true -> url_host_parse d = Some (to_ascii_lowercase d).

Lemma contains_char_none c s : c ∉ s -> contains_char c s = false.
Proof. intros H. apply not_true_iff_false. unfold contains_char. rewrite existsb_elem. intros (x & Hx & ->%N.eqb_eq). done. Qed.

Lemma trim_end_dot_plain d : plain d -> trim_end_char dot d = d.
Proof.
  intros H. unfold trim_end_char. destruct d as [|c d _] using rev_ind; [done|]. rewrite reverse_snoc. simpl.
  destruct (N.eqb_spec c dot) as [->|]; [by apply plain_last in H|]. by rewrite <- reverse_snoc, reverse_involutive.
Qed.

Lemma parse_for_constraints_plain `{Hurl : !UrlHostLib, Hlaw : !UrlHostLaws} p q :
  plain_pattern p q -> url_domain (pattern_domain q) = true -> parse_for_constraints p = q.
Proof.
  intros H Hu. assert (p <> []) as Hne by (destruct H as [d H|d H|d H]; [by apply plain_nonempty|done..]).
  assert (parse_for_constraints p = by_prefix (fun d => ApexAndSubdomains (parse_domain_for_constraints d))
    (fun d => SubdomainsOnly (parse_domain_for_constraints d)) (fun d => ExactHost (parse_domain_for_constraints d)) p) as ->
    by (unfold parse_for_constraints; rewrite (plain_pattern_trim _ _ H); by destruct p).
  assert (forall d, plain d -> url_domain d = true -> parse_domain_for_constraints d = to_ascii_lowercase d) as Hd.
  { intros d Hd Hud. unfold parse_domain_for_constraints. rewrite plain_trim, trim_end_dot_plain by done.
    pose proof (plain_no_char d) as Hn. rewrite starts_with_char by (apply Hn; [done|set_solver]). cbn [andb].
    rewrite !contains_char_none by (apply Hn; [done|set_solver]). cbn [orb].
    rewrite url_plain_domain by done. destruct d; [by apply plain_nonempty in Hd|done]. }
  destruct H as [d H|d H|d H]; simpl in Hu;
    match goal with |- by_prefix ?a ?b ?c _ = _ => destruct (by_prefix_plain a b c d H) as (E1 & E2 & E3) end;
    rewrite ?E1, ?E2, ?E3, ?Hd; try done; unfold url_domain in Hu |- *; by rewrite lower_idem in Hu.
Qed.

(** ** A glob library with [*] and [?] *)

Fixpoint wild (p : str) : str -> bool :=
  match p with
  | [] => fun h => match h with [] => true | _ => false end
  | c :: p' =>
      if (c =? star)%N then
        fix any (h : str) : bool := wild p' h || match h with [] => false | _ :: h' => any h' end
      else
        fun h => match h with [] => false | x :: h' => ((c =? question_mark)%N || (c =? x)%N) && wild p' h' end
  end.

Lemma wild_literal d h : star ∉ d -> question_mark ∉ d -> wild d h = true <-> h = d.
Proof.
  revert h. induction d as [|c d IH]; intros h Hs Hq; [by destruct h|]. cbn [wild].
  destruct (N.eqb_spec c star) as [->|_]; [set_solver|]. destruct (N.eqb_spec c question_mark) as [->|_]; [set_solver|].
  destruct h as [|x h]; [done|]. simpl. rewrite andb_true_iff, N.eqb_eq, IH by set_solver. naive_solver.
Qed.

Lemma wild_star p h : wild (star :: p) h = true <-> exists x r, h = x ++ r /\ wild p r = true.
Proof.
  change (wild (star :: p)) with
    (fix any (h : str) : bool := wild p h || match h with [] => false | _ :: h' => any h' end).
  induction h as [|c h IH]; simpl; rewrite orb_true_iff.
  - split; [intros [H|H]; [by exists [], []|done]|]. intros (x & r & E & H). left.
    symmetry in E. apply app_eq_nil in E as [-> ->]. done.
  - rewrite IH. split.
    + intros [H|(x & r & -> & H)]; [by exists [], (c :: h)|by exists (c :: x), r].
    + intros ([|x0 x] & r & E & H); simpl in E; [left; by subst|]. injection E as <- ->. right. by exists x, r.
Qed.

#[export] Instance wild_globs : GlobSetLib := {|
  Glob := str; GlobSet := list str;
  glob_case_insensitive p := Some (to_ascii_lowercase p); glob_set gs := Some gs;
  set_is_match set h := existsb (fun g => wild g (to_ascii_lowercase h)) set
|}.

#[export] Program Instance wild_laws : GlobSetLaws := {|
  glob_is_match g h := wild g (to_ascii_lowercase h)
|}.
Next Obligation. intros gs set h [= ->]. done. Qed.
Next Obligation.
  intros d Hd. eexists. split; [done|]. intros h Hh. simpl. rewrite Hh, (dns_name_lower d Hd).
  apply wild_literal; apply (plain_no_char d); [by apply dns_name_plain|set_solver|by apply dns_name_plain|set_solver].
Qed.
Next Obligation.
  intros d Hd. eexists. split; [done|]. intros h Hh. rewrite Hh.
  change (to_ascii_lowercase (&"?*." ++ d)) with (question_mark :: star :: dot :: to_ascii_lowercase d).
  rewrite (dns_name_lower d Hd).
  assert (star ∉ dot :: d /\ question_mark ∉ dot :: d) as [Hs Hq].
  { split; (intros [|Hin]%elem_of_cons; [done|]); revert Hin; apply (plain_no_char d);
      [by apply dns_name_plain|set_solver|by apply dns_name_plain|set_solver]. }
  destruct h as [|c h]; [split; [done|intros (x & Hx & E); by destruct x]|].
  change (wild (question_mark :: star :: dot :: d) (c :: h)) with (wild (star :: dot :: d) h).
  rewrite wild_star. split.
  - intros (x & r & -> & H%wild_literal); [|done..]. exists (c :: x). by subst.
  - intros ([|c' x] & Hx & E); [done|]. injection E as <- ->. exists x, (dot :: d). split; [done|]. by apply wild_literal.
Qed.
Next Obligation. eexists. split; [done|]. intros h. apply (wild_star [] (to_ascii_lowercase h)). exists (to_ascii_lowercase h), []. by rewrite app_nil_r. Qed.

#[export] Instance plain_url_hosts : UrlHostLib := {|
  url_host_parse d := if url_domain d && dns_name (to_ascii_lowercase d) then Some (to_ascii_lowercase d) else None
|}.
#[export] Instance plain_url_laws : UrlHostLaws.
Proof. intros d Hd Hu. simpl. by rewrite Hu, Hd. Qed.

Lemma compiled_list_meaning_witness :
  exists set, compile_denylist_globset [&"Example.com"; &"*.foo.ORG"] = Ok set /\ set_is_match set (&"api.foo.org") = true.
Proof.
  eexists. split; [vm_compute; reflexivity|].
  apply (compiled_list_meaning [&"Example.com"; &"*.foo.ORG"]
    [Some (ExactHost (to_ascii_lowercase (&"Example.com"))); Some (SubdomainsOnly (to_ascii_lowercase (&"foo.ORG")))] (&"api.foo.org")).
  - constructor; [|constructor; [|constructor]]; [apply plain_exact|apply plain_subdomains]; vm_compute; reflexivity.
  - vm_compute. reflexivity.
  - left. vm_compute. reflexivity.
  - right. left. exists (&"api"). split; [discriminate|vm_compute; reflexivity].
Defined.

Lemma allows_is_inclusion_witness :
  forall h, pattern_host (ApexAndSubdomains (&"api.foo.org")) h -> pattern_host (SubdomainsOnly (&"foo.org")) h.
Proof.
  apply (allows_is_inclusion (SubdomainsOnly (&"foo.org")) (ApexAndSubdomains (&"api.foo.org"))); vm_compute; reflexivity.
Defined.
