(* ===== verification/ProxyConfig.v ===== *)
(** * network-proxy/src/config.rs: the settings of the proxy

    Domain permissions with their precedence, the unix sockets, the addresses to
    listen on.  [NetworkProxyConfig] has the settings as its only field and is
    identified with them.  Serialisation is left out. *)
From Stdlib Require Import NArith.
From S2P Require Import Prelude RustStr RustPath AbsolutePath ExecPolicy PathPrefix MachineInt IpAddr DomainPolicy.

(** ** Domains *)

Inductive NetworkDomainPermission := DomainNone | DomainAllow | DomainDeny.

#[export] Instance NetworkDomainPermission_eq_dec : EqDecision NetworkDomainPermission.
Proof. solve_decision. Defined.

(** The derived order: deny wins over allow. *)
Definition domain_permission_rank (p : NetworkDomainPermission) : nat :=
  match p with DomainNone => 0 | DomainAllow => 1 | DomainDeny => 2 end.

Record NetworkDomainPermissionEntry := { pattern : str; permission : NetworkDomainPermission }.

#[export] Instance NetworkDomainPermissionEntry_eq_dec : EqDecision NetworkDomainPermissionEntry.
Proof. solve_decision. Defined.

Definition NetworkDomainPermissions := list NetworkDomainPermissionEntry.

(** One turn of the loop: the order of first mention, and the strongest permission *)
Definition effective_step (acc : list str * gmap str NetworkDomainPermission) (entry : NetworkDomainPermissionEntry)
  : list str * gmap str NetworkDomainPermission :=
  let '(order, effective) := acc in
  match effective !! pattern entry with
  | None => (order ++ [pattern entry], <[pattern entry := permission entry]> effective)
  | Some p =>
      (order, if domain_permission_rank p <? domain_permission_rank (permission entry)
              then <[pattern entry := permission entry]> effective else effective)
  end.

(** The second loop removes every pattern it takes from the map. *)
Fixpoint take_effective (order : list str) (effective : gmap str NetworkDomainPermission)
  : list NetworkDomainPermissionEntry :=
  match order with
  | [] => []
  | p :: order =>
      match effective !! p with
      | Some perm => {| pattern := p; permission := perm |} :: take_effective order (delete p effective)
      | None => take_effective order effective
      end
  end.

Definition effective_entries (entries : NetworkDomainPermissions) : list NetworkDomainPermissionEntry :=
  let '(order, effective) := foldl effective_step ([], ∅) entries in take_effective order effective.

(** ** Settings *)

Inductive NetworkMode := Limited | Full.

#[export] Instance NetworkMode_eq_dec : EqDecision NetworkMode.
Proof. solve_decision. Defined.

Definition allows_method (m : NetworkMode) (method : str) : bool :=
  match m with
  | Full => true
  | Limited => str_eqb method (&"GET") || str_eqb method (&"HEAD") || str_eqb method (&"OPTIONS")
  end.

Inductive NetworkUnixSocketPermission := SocketAllow | SocketDeny.

#[export] Instance NetworkUnixSocketPermission_eq_dec : EqDecision NetworkUnixSocketPermission.
Proof. solve_decision. Defined.

(** *** Hooks on intercepted requests, as they are configured; a [BTreeMap] is the
    list of its entries in the order of the keys. *)
Record MitmHookMatchConfig := {
  hc_methods : list str;
  hc_path_prefixes : list str;
  hc_query : list (str * list str);
  hc_headers : list (str * list str);
  hc_body : bool
}.
Record InjectedHeaderConfig := {
  ih_name : str;
  ih_secret_env_var : option str;
  ih_secret_file : option str;
  ih_prefix : option str
}.
Record MitmHookActionsConfig := { hc_strip_request_headers : list str; hc_inject_request_headers : list InjectedHeaderConfig }.
Record MitmHookConfig := { hc_host : str; hc_matcher : MitmHookMatchConfig; hc_actions : MitmHookActionsConfig }.

#[export] Instance MitmHookConfig_eq_dec : EqDecision MitmHookConfig.
Proof.
  assert (EqDecision InjectedHeaderConfig) by solve_decision. assert (EqDecision MitmHookMatchConfig) by solve_decision.
  assert (EqDecision MitmHookActionsConfig) by solve_decision. solve_decision.
Defined.

Record NetworkProxySettings := {
  enabled : bool;
  proxy_url : str;
  enable_socks5 : bool;
  socks_url : str;
  enable_socks5_udp : bool;
  allow_upstream_proxy : bool;
  dangerously_allow_non_loopback_proxy : bool;
  dangerously_allow_all_unix_sockets : bool;
  mode : NetworkMode;
  domains : option NetworkDomainPermissions;
  unix_sockets : option (gmap str NetworkUnixSocketPermission);
  allow_local_binding : bool;
  mitm : bool;
  mitm_hooks : list MitmHookConfig
}.

#[export] Instance NetworkProxySettings_eq_dec : EqDecision NetworkProxySettings.
Proof. solve_decision. Defined.

Definition default_proxy_url : str := &"http://127.0.0.1:3128".
Definition default_socks_url : str := &"http://127.0.0.1:8081".

Definition default_settings : NetworkProxySettings := {|
  enabled := false; proxy_url := default_proxy_url; enable_socks5 := true; socks_url := default_socks_url;
  enable_socks5_udp := true; allow_upstream_proxy := true; dangerously_allow_non_loopback_proxy := false;
  dangerously_allow_all_unix_sockets := false; mode := Full; domains := None; unix_sockets := None;
  allow_local_binding := false; mitm := false; mitm_hooks := [] |}.

Definition with_mode (m : NetworkMode) (c : NetworkProxySettings) : NetworkProxySettings :=
  {| enabled := enabled c; proxy_url := proxy_url c; enable_socks5 := enable_socks5 c; socks_url := socks_url c;
     enable_socks5_udp := enable_socks5_udp c; allow_upstream_proxy := allow_upstream_proxy c;
     dangerously_allow_non_loopback_proxy := dangerously_allow_non_loopback_proxy c;
     dangerously_allow_all_unix_sockets := dangerously_allow_all_unix_sockets c; mode := m; domains := domains c;
     unix_sockets := unix_sockets c; allow_local_binding := allow_local_binding c; mitm := mitm c;
     mitm_hooks := mitm_hooks c |}.
Definition with_domains (d : option NetworkDomainPermissions) (c : NetworkProxySettings) : NetworkProxySettings :=
  {| enabled := enabled c; proxy_url := proxy_url c; enable_socks5 := enable_socks5 c; socks_url := socks_url c;
     enable_socks5_udp := enable_socks5_udp c; allow_upstream_proxy := allow_upstream_proxy c;
     dangerously_allow_non_loopback_proxy := dangerously_allow_non_loopback_proxy c;
     dangerously_allow_all_unix_sockets := dangerously_allow_all_unix_sockets c; mode := mode c; domains := d;
     unix_sockets := unix_sockets c; allow_local_binding := allow_local_binding c; mitm := mitm c;
     mitm_hooks := mitm_hooks c |}.
Definition with_unix_sockets (u : option (gmap str NetworkUnixSocketPermission)) (c : NetworkProxySettings)
  : NetworkProxySettings :=
  {| enabled := enabled c; proxy_url := proxy_url c; enable_socks5 := enable_socks5 c; socks_url := socks_url c;
     enable_socks5_udp := enable_socks5_udp c; allow_upstream_proxy := allow_upstream_proxy c;
     dangerously_allow_non_loopback_proxy := dangerously_allow_non_loopback_proxy c;
     dangerously_allow_all_unix_sockets := dangerously_allow_all_unix_sockets c; mode := mode c; domains := domains c;
     unix_sockets := u; allow_local_binding := allow_local_binding c; mitm := mitm c;
     mitm_hooks := mitm_hooks c |}.

(** [filter(|entries| !entries.is_empty())] *)
Definition non_empty {A} (l : list A) : option (list A) := match l with [] => None | _ => Some l end.

Definition domain_entries (c : NetworkProxySettings) (p : NetworkDomainPermission) : option (list str) :=
  match domains c with
  | None => None
  | Some d =>
      non_empty (map pattern (List.filter (fun entry => bool_decide (permission entry = p)) (effective_entries d)))
  end.
Definition allowed_domains (c : NetworkProxySettings) : option (list str) := domain_entries c DomainAllow.
Definition denied_domains (c : NetworkProxySettings) : option (list str) := domain_entries c DomainDeny.

(** A [BTreeMap] is walked in the order of its keys. *)
Definition allow_unix_sockets (c : NetworkProxySettings) : list str :=
  match unix_sockets c with
  | None => []
  | Some u =>
      map fst (List.filter (fun entry => match entry.2 with SocketAllow => true | SocketDeny => false end)
        (sort_by (fun a b => str_leb a.1 b.1) (map_to_list u)))
  end.

Definition upsert_domain_permission (host : str) (p : NetworkDomainPermission) (normalize : str -> str)
    (c : NetworkProxySettings) : NetworkProxySettings :=
  let normalized_host := normalize host in
  let kept := List.filter (fun entry => negb (str_eqb (normalize (pattern entry)) normalized_host)) (default [] (domains c)) in
  with_domains (non_empty (kept ++ [{| pattern := host; permission := p |}])) c.

Definition set_domain_entries (entries : list str) (p : NetworkDomainPermission) (c : NetworkProxySettings)
  : NetworkProxySettings :=
  let kept := List.filter (fun entry => negb (bool_decide (permission entry = p))) (default [] (domains c)) in
  with_domains
    (non_empty
       (foldl (fun es entry =>
          if existsb (fun existing => str_eqb (pattern existing) entry && bool_decide (permission existing = p)) es then es
          else es ++ [{| pattern := entry; permission := p |}]) kept entries)) c.
Definition set_allowed_domains (entries : list str) : NetworkProxySettings -> NetworkProxySettings :=
  set_domain_entries entries DomainAllow.
Definition set_denied_domains (entries : list str) : NetworkProxySettings -> NetworkProxySettings :=
  set_domain_entries entries DomainDeny.

Definition set_unix_socket_entries (entries : list str) (p : NetworkUnixSocketPermission) (c : NetworkProxySettings)
  : NetworkProxySettings :=
  let kept := filter (fun kv => kv.2 <> p) (default ∅ (unix_sockets c)) in
  let all := foldl (fun u entry => <[entry := p]> u) kept entries in
  with_unix_sockets (if bool_decide (all = ∅) then None else Some all) c.
Definition set_allow_unix_sockets (entries : list str) : NetworkProxySettings -> NetworkProxySettings :=
  set_unix_socket_entries entries SocketAllow.

(** ** Addresses to listen on *)

Record SocketAddr := { ip : IpAddr; port : N }.

Definition LOCALHOST : IpAddr := V4 (Octets 127 0 0 1).

Definition clamp_non_loopback (addr : SocketAddr) (allow_non_loopback : bool) : SocketAddr :=
  if ip_is_loopback (ip addr) then addr
  else if allow_non_loopback then addr
  else {| ip := LOCALHOST; port := port addr |}.

Definition clamp_bind_addrs (http_addr socks_addr : SocketAddr) (cfg : NetworkProxySettings) : SocketAddr * SocketAddr :=
  let http_addr := clamp_non_loopback http_addr (dangerously_allow_non_loopback_proxy cfg) in
  let socks_addr := clamp_non_loopback socks_addr (dangerously_allow_non_loopback_proxy cfg) in
  if bool_decide (allow_unix_sockets cfg = []) && negb (dangerously_allow_all_unix_sockets cfg)
  then (http_addr, socks_addr)
  else ({| ip := LOCALHOST; port := port http_addr |}, {| ip := LOCALHOST; port := port socks_addr |}).

(** The crate [url]: the host and the port of a text that parses as a URL *)
Class UrlLib := { url_parse : str -> option (option str * option N) }.

Section addresses.
Context `{Henv : !ProcessEnv}.

(** On Unix an absolute path starts with a slash, so that the second variant does not
    arise. *)
Inductive ValidatedUnixSocketPath := NativeSocket (path : str) | UnixStyleAbsolute (path : str).

Definition socket_path_parse (socket_path : str) : option ValidatedUnixSocketPath :=
  if is_absolute socket_path then NativeSocket <$> from_absolute_path socket_path
  else if starts_with [slash] socket_path then Some (UnixStyleAbsolute socket_path) else None.

Definition validate_unix_socket_allowlist_paths (cfg : NetworkProxySettings) : comp str unit :=
  if forallb (fun socket_path => match socket_path_parse socket_path with Some _ => true | None => false end)
       (allow_unix_sockets cfg)
  then Ok tt else Err (&"invalid network.allow_unix_sockets").

(** [str::parse::<u16>] *)
Fixpoint digits_value (acc : N) (s : str) : option N :=
  match s with
  | [] => Some acc
  | c :: s' => if is_ascii_digit c then digits_value (acc * 10 + (c - 48))%N s' else None
  end.
Definition parse_u16 (s : str) : option N :=
  let digits := match s with c :: s' => if (c =? 43)%N then s' else s | [] => s end in
  match digits with
  | [] => None
  | _ => match digits_value 0 digits with Some n => if (n <? 65536)%N then Some n else None | None => None end
  end.

Record SocketAddressParts := { part_host : str; part_port : N }.

Definition MISSING_HOST : str := &"missing host in network proxy address".

Definition parse_host_port_fallback (input : str) (default_port : N) : comp str SocketAddressParts :=
  let without_scheme := match split_once_str (&"://") input with Some (_, rest) => rest | None => input end in
  let host_port := match split_once slash without_scheme with Some (h, _) => h | None => without_scheme end in
  let host_port := match rsplit_once 64%N host_port with Some (_, rest) => rest | None => host_port end in
  match (if starts_with [open_bracket] host_port then split_once close_bracket host_port else None) with
  | Some (before, after) =>
      let host := drop 1 before in
      let port := default default_port (strip_prefix [colon] after ≫= parse_u16) in
      match host with [] => Err MISSING_HOST | _ => Ok {| part_host := host; part_port := port |} end
  | None =>
      match (if count_char colon host_port =? 1 then rsplit_once colon host_port else None) with
      | Some (host, port) =>
          match host with
          | [] => Err MISSING_HOST
          | _ => Ok {| part_host := host; part_port := default default_port (parse_u16 port) |}
          end
      | None =>
          match host_port with
          | [] => Err MISSING_HOST
          | _ => Ok {| part_host := host_port; part_port := default_port |}
          end
      end
  end.

Definition is_bracket (c : char) : bool := (c =? open_bracket)%N || (c =? close_bracket)%N.
Fixpoint trim_start_brackets (s : str) : str :=
  match s with c :: s' => if is_bracket c then trim_start_brackets s' else s | [] => [] end.
Definition trim_brackets (s : str) : str := reverse (trim_start_brackets (reverse (trim_start_brackets s))).

Section url.
Context `{Hurl : !UrlLib}.

Definition parse_host_port (url : str) (default_port : N) : comp str SocketAddressParts :=
  let trimmed := trim url in
  match trimmed with
  | [] => Err MISSING_HOST
  | _ =>
      if match parse_ip_addr trimmed with Some (V6 _) => negb (starts_with [open_bracket] trimmed) | _ => false end
      then Ok {| part_host := trimmed; part_port := default_port |}
      else
        let candidate := if contains_str (&"://") trimmed then trimmed else &"http://" ++ trimmed in
        match url_parse candidate with
        | Some (Some host, port) =>
            match trim_brackets host with
            | [] => Err MISSING_HOST
            | host => Ok {| part_host := host; part_port := default default_port port |}
            end
        | _ => parse_host_port_fallback trimmed default_port
        end
  end.

Definition resolve_addr (url : str) (default_port : N) : comp str SocketAddr :=
  let? parts := parse_host_port url default_port in
  let host := if eq_ignore_ascii_case (part_host parts) (&"localhost") then &"127.0.0.1" else part_host parts in
  Ok {| ip := default LOCALHOST (parse_ip_addr host); port := part_port parts |}.

Record RuntimeConfig := { http_addr : SocketAddr; socks_addr : SocketAddr }.

Definition resolve_runtime (cfg : NetworkProxySettings) : comp str RuntimeConfig :=
  let? _ := validate_unix_socket_allowlist_paths cfg in
  let? http := resolve_addr (proxy_url cfg) 3128 in
  let? socks := resolve_addr (socks_url cfg) 8081 in
  let '(http, socks) := clamp_bind_addrs http socks cfg in
  Ok {| http_addr := http; socks_addr := socks |}.

Definition format_host_and_port (host : str) (port : N) : str :=
  if contains_char colon host then [open_bracket] ++ host ++ [close_bracket; colon] ++ show_N port
  else host ++ [colon] ++ show_N port.

Definition host_and_port_from_network_addr (value : str) (default_port : N) : str :=
  match trim value with
  | [] => &"<missing>"
  | trimmed =>
      match parse_host_port trimmed default_port with
      | Ok parts => format_host_and_port (part_host parts) (part_port parts)
      | _ => format_host_and_port trimmed default_port
      end
  end.
End url.
End addresses.

(** ** Theorems *)

(** The strongest permission an entry gives a pattern *)
Definition strongest (entries : NetworkDomainPermissions) (p : str) (perm : NetworkDomainPermission) : Prop :=
  {| pattern := p; permission := perm |} ∈ entries /\
  forall e, e ∈ entries -> pattern e = p -> domain_permission_rank (permission e) <= domain_permission_rank perm.

Definition effective_inv (done : NetworkDomainPermissions) (acc : list str * gmap str NetworkDomainPermission) : Prop :=
  NoDup acc.1 /\ (forall p, p ∈ acc.1 <-> is_Some (acc.2 !! p)) /\
  (forall p perm, acc.2 !! p = Some perm <-> strongest done p perm).

Lemma permission_rank_inj a b : domain_permission_rank a = domain_permission_rank b -> a = b.
Proof. by destruct a, b. Qed.

Lemma strongest_snoc done e p perm : strongest (done ++ [e]) p perm <->
  (pattern e <> p /\ strongest done p perm) \/
  (pattern e = p /\ ((strongest done p perm /\ domain_permission_rank (permission e) <= domain_permission_rank perm) \/
     (perm = permission e /\ forall e', e' ∈ done -> pattern e' = p ->
        domain_permission_rank (permission e') <= domain_permission_rank perm))).
Proof.
  unfold strongest. setoid_rewrite elem_of_app. setoid_rewrite list_elem_of_singleton. destruct e as [q r]. simpl. split.
  - intros [Hin Hmax]. destruct (decide (q = p)) as [->|Hne].
    + right. split; [done|]. destruct Hin as [Hin|[= <-]].
      * left. split; [split; [done|]|]; [intros e' He' Ee'; apply Hmax; auto|]. by apply (Hmax {| pattern := p; permission := r |}); auto.
      * right. split; [done|]. intros e' He' Ee'. apply Hmax; auto.
    + left. split; [done|]. destruct Hin as [Hin|[= <- <-]]; [|done]. split; [done|]. intros e' He' Ee'. apply Hmax; auto.
  - intros [[Hne [Hin Hmax]]|[-> [[[Hin Hmax] Hr]|[-> Hmax]]]].
    + split; [by left|]. intros e' [He'| ->] Ee'; [auto|done].
    + split; [by left|]. intros e' [He'| ->] Ee'; [auto|done].
    + split; [by right|]. intros e' [He'| ->] Ee'; [auto|done].
Qed.

Lemma strongest_unique entries p a b : strongest entries p a -> strongest entries p b -> a = b.
Proof.
  intros [H1 H2] [H3 H4]. apply permission_rank_inj. apply Nat.le_antisymm.
  - by apply (H4 {| pattern := p; permission := a |}).
  - by apply (H2 {| pattern := p; permission := b |}).
Qed.

(** Some entry of a pattern is as strong as all of them. *)
Lemma strongest_exists entries p : p ∈ map pattern entries -> exists perm, strongest entries p perm.
Proof.
  induction entries as [|x entries IH] using rev_ind; [by intros ?%elem_of_nil|].
  setoid_rewrite strongest_snoc. rewrite map_app, elem_of_app. simpl. rewrite list_elem_of_singleton. intros Hp.
  destruct (decide (p ∈ map pattern entries)) as [Hin|Hin].
  - destruct (IH Hin) as (perm & Hs). destruct (decide (pattern x = p)) as [E|E]; [|exists perm; by left].
    destruct (decide (domain_permission_rank (permission x) <= domain_permission_rank perm)) as [Hl|Hl].
    + exists perm. right. split; [done|]. by left.
    + exists (permission x). right. split; [done|]. right. split; [done|]. intros e' H1 H2. destruct Hs as [_ Hs].
      pose proof (Hs e' H1 H2). lia.
  - destruct Hp as [Hp|Hp]; [done|]. exists (permission x). right. split; [done|]. right. split; [done|].
    intros e' H1 <-. exfalso. apply Hin. by apply list_elem_of_fmap_2.
Qed.

Lemma effective_step_inv done acc e : effective_inv done acc -> effective_inv (done ++ [e]) (effective_step acc e).
Proof.
  destruct acc as [order eff]. intros (Hn & Ho & He). unfold effective_step. simpl in *. destruct e as [q r]. simpl.
  assert (eff !! q = None -> forall e', e' ∈ done -> pattern e' <> q) as Hnone.
  { intros Hq e' He' Eq. destruct (strongest_exists done q) as (perm & Hs%He); [|congruence].
    rewrite <- Eq. by apply list_elem_of_fmap_2. }
  destruct (eff !! q) as [perm|] eqn:Eq.
  - pose proof (proj1 (He q perm) Eq) as Hs. destruct (Nat.ltb_spec (domain_permission_rank perm) (domain_permission_rank r)) as [Hlt|Hge].
    + split_and!; [done| |]; simpl.
      * intros p. rewrite Ho. destruct (decide (q = p)) as [->|Hne]; [by rewrite lookup_insert_eq, Eq|by rewrite lookup_insert_ne].
      * intros p perm'. rewrite strongest_snoc. simpl. destruct (decide (q = p)) as [->|Hne].
        { rewrite lookup_insert_eq. split.
          - intros [= <-]. right. split; [done|]. right. split; [done|]. intros e' H1 H2. destruct Hs as [_ Hs]. pose proof (Hs e' H1 H2). lia.
          - intros [[? _]|[_ [[Hs' Hr]|[-> _]]]]; [done| |done]. pose proof (strongest_unique _ _ _ _ Hs Hs') as <-. lia. }
        { rewrite lookup_insert_ne, He by done. naive_solver. }
    + split_and!; [done|done|]. intros p perm'. rewrite strongest_snoc, He. simpl. destruct (decide (q = p)) as [->|Hne]; [|naive_solver].
      split.
      * intros Hs'. right. split; [done|]. left. split; [done|]. by pose proof (strongest_unique _ _ _ _ Hs Hs') as <-.
      * intros [[? _]|[_ [[Hs' Hr]|[-> Hm]]]]; [done|done|]. replace r with perm; [done|].
        apply permission_rank_inj, Nat.le_antisymm; [|done]. destruct Hs as [Hin _]. by apply (Hm _ Hin).
  - specialize (Hnone eq_refl). split_and!; simpl.
    + apply NoDup_app. split_and!; [done| |apply NoDup_singleton]. intros p Hp%Ho ->%list_elem_of_singleton. rewrite Eq in Hp. by destruct Hp.
    + intros p. rewrite elem_of_app, list_elem_of_singleton, Ho. destruct (decide (q = p)) as [->|Hne].
      * rewrite lookup_insert_eq. split; [done|by right].
      * rewrite lookup_insert_ne by done. naive_solver.
    + intros p perm'. rewrite strongest_snoc. simpl. destruct (decide (q = p)) as [->|Hne].
      * rewrite lookup_insert_eq. split.
        { intros [= <-]. right. split; [done|]. right. split; [done|]. intros e' H1 H2. by destruct (Hnone e' H1). }
        { intros [[? _]|[_ [[[Hin _] _]|[-> _]]]]; [done| |done]. by destruct (Hnone _ Hin). }
      * rewrite lookup_insert_ne, He by done. naive_solver.
Qed.

Lemma effective_fold entries : effective_inv entries (foldl effective_step ([], ∅) entries).
Proof.
  induction entries as [|e entries IH] using rev_ind.
  - split_and!; [constructor| |]; intros p; simpl.
    + rewrite lookup_empty. split; [by intros ?%elem_of_nil|by intros [? ?]].
    + intros perm. rewrite lookup_empty. split; [done|]. by intros [?%elem_of_nil _].
  - rewrite foldl_snoc. by apply effective_step_inv.
Qed.

Lemma take_effective_spec order eff : NoDup order -> (forall p, p ∈ order -> is_Some (eff !! p)) ->
  map pattern (take_effective order eff) = order /\
  forall e, e ∈ take_effective order eff -> eff !! pattern e = Some (permission e).
Proof.
  revert eff. induction order as [|p order IH]; intros eff Hn Hs; [by split; [|intros e ?%elem_of_nil]|].
  apply NoDup_cons in Hn as [Hp Hn]. cbn [take_effective]. destruct (Hs p) as [perm E]; [by left|]. rewrite E.
  destruct (IH (delete p eff)) as [E1 E2]; [done| |].
  - intros q Hq. rewrite lookup_delete_ne by (intros ->; done). apply Hs. by right.
  - split; [simpl; by rewrite E1|]. intros e [->|He]%elem_of_cons; [done|]. specialize (E2 _ He).
    rewrite lookup_delete_ne in E2; [done|]. intros ->. apply Hp. rewrite <- E1. by apply list_elem_of_fmap_2.
Qed.

(** Every pattern once, with its strongest permission *)
Lemma effective_entries_spec entries :
  NoDup (map pattern (effective_entries entries)) /\
  forall p perm, {| pattern := p; permission := perm |} ∈ effective_entries entries <-> strongest entries p perm.
Proof.
  unfold effective_entries. pose proof (effective_fold entries) as Hi.
  destruct (foldl effective_step ([], ∅) entries) as [order eff]. destruct Hi as (Hn & Ho & He). simpl in *.
  destruct (take_effective_spec order eff Hn) as [E1 E2]; [intros p; by rewrite Ho|]. rewrite E1. split; [done|].
  intros p perm. rewrite <- He. split; [apply E2|]. intros Hp. assert (p ∈ order) as Hin by (rewrite Ho; eauto).
  rewrite <- E1 in Hin. apply list_elem_of_fmap in Hin as ([q r] & -> & Hq). pose proof (E2 _ Hq) as Hr. simpl in *. congruence.
Qed.

Definition listed (o : option (list str)) (p : str) : Prop := p ∈ default [] o.

Lemma domain_entries_listed c perm p :
  listed (domain_entries c perm) p <-> exists es, domains c = Some es /\ strongest es p perm.
Proof.
  unfold listed, domain_entries. destruct (domains c) as [es|]; simpl; [|set_solver].
  assert (forall l : list str, default [] (non_empty l) = l) as -> by by intros []. rewrite list_elem_of_fmap.
  setoid_rewrite elem_of_filterb. setoid_rewrite bool_decide_eq_true. split.
  - intros ([q r] & -> & Hin & Er). simpl in *. subst r. exists es. split; [done|]. by apply effective_entries_spec.
  - intros (es' & [= <-] & Hs). exists {| pattern := p; permission := perm |}. split_and!; [done| |done].
    by apply effective_entries_spec.
Qed.

Lemma domain_lists_NoDup es (perm : NetworkDomainPermission) :
  NoDup (default [] (non_empty (map pattern (List.filter (fun entry => bool_decide (permission entry = perm)) (effective_entries es))))).
Proof.
  assert (forall l : list str, default [] (non_empty l) = l) as -> by by intros [].
  destruct (effective_entries_spec es) as [Hn _]. revert Hn. generalize (effective_entries es) as l.
  induction l as [|e l IH]; simpl; intros Hn; [constructor|]. apply NoDup_cons in Hn as [He Hn].
  destruct (bool_decide _); [|by apply IH]. simpl. apply NoDup_cons. split; [|by apply IH].
  contradict He. apply list_elem_of_fmap in He as (e' & -> & He'). apply elem_of_filterb in He' as [He' _].
  by apply list_elem_of_fmap_2.
Qed.

Lemma upsert_strongest es host perm normalize p perm' :
  strongest (List.filter (fun e => negb (str_eqb (normalize (pattern e)) (normalize host))) es ++
    [{| pattern := host; permission := perm |}]) p perm' <->
  if bool_decide (normalize p = normalize host) then p = host /\ perm' = perm else strongest es p perm'.
Proof.
  rewrite strongest_snoc. unfold strongest. setoid_rewrite elem_of_filterb. setoid_rewrite negb_true_iff. setoid_rewrite str_eqb_neq.
  simpl. destruct (bool_decide _) eqn:E; [apply bool_decide_eq_true in E|apply bool_decide_eq_false in E].
  - split; [naive_solver|]. intros [-> ->]. right. split; [done|]. right. split; [done|]. intros e [_ He] Ep. by rewrite Ep in He.
  - split.
    + intros [[_ [[H1 _] H2]]|[-> _]]; [|done]. split; [done|]. intros e He Ep. apply H2; [|done]. by rewrite Ep.
    + intros [H1 H2]. left. split; [by intros ->|]. split; [done|]. intros e [He _] Ep. by apply H2.
Qed.

Lemma upsert_listed c host perm normalize p perm' :
  listed (domain_entries (upsert_domain_permission host perm normalize c) perm') p <->
  if bool_decide (normalize p = normalize host) then p = host /\ perm' = perm else listed (domain_entries c perm') p.
Proof.
  rewrite domain_entries_listed. unfold upsert_domain_permission. cbn [domains with_domains].
  assert (forall l (x : NetworkDomainPermissionEntry), non_empty (l ++ [x]) = Some (l ++ [x])) as -> by by intros [].
  pose proof (upsert_strongest (default [] (domains c)) host perm normalize p perm') as H.
  transitivity (if bool_decide (normalize p = normalize host) then p = host /\ perm' = perm
    else strongest (default [] (domains c)) p perm').
  - rewrite <- H. split; [by intros (? & [= <-] & Hs)|]. intros Hs. eexists. split; [done|]. exact Hs.
  - destruct (bool_decide _); [done|]. rewrite domain_entries_listed. destruct (domains c) as [es|]; simpl.
    + split; [eauto|]. by intros (? & [= <-] & Hs).
    + split; [|naive_solver]. by intros [?%elem_of_nil _].
Qed.

(** The lists of domains that the settings give.  A pattern is denied exactly when
    some entry denies it, and allowed exactly when some entry allows it and none
    denies it; no pattern is listed twice.  Setting the permission of a host replaces
    what was said of every pattern with the same normal form, and of those patterns
    only the host itself is listed afterwards; the other patterns keep theirs. *)
Theorem domain_lists_deny_wins (c : NetworkProxySettings) (es : NetworkDomainPermissions) (host p : str)
    (perm : NetworkDomainPermission) (normalize : str -> str) :
  domains c = Some es ->
  (listed (denied_domains c) p <-> {| pattern := p; permission := DomainDeny |} ∈ es) /\
  (listed (allowed_domains c) p <->
     {| pattern := p; permission := DomainAllow |} ∈ es /\ {| pattern := p; permission := DomainDeny |} ∉ es) /\
  NoDup (default [] (denied_domains c)) /\ NoDup (default [] (allowed_domains c)) /\
  let c' := upsert_domain_permission host perm normalize c in
  forall perm', listed (domain_entries c' perm') p <->
    if bool_decide (normalize p = normalize host) then p = host /\ perm' = perm else listed (domain_entries c perm') p.
Proof.
  intros Hd. unfold denied_domains, allowed_domains. rewrite !domain_entries_listed, Hd. split_and!.
  - split; [by intros (? & [= <-] & [H _])|]. intros H. exists es. split; [done|]. split; [done|]. intros [q []]; simpl; lia.
  - split.
    + intros (? & [= <-] & [H Hm]). split; [done|]. intros Hdeny. by specialize (Hm _ Hdeny eq_refl); simpl in Hm; lia.
    + intros [Ha Hn]. exists es. split; [done|]. split; [done|]. intros [q []] He; simpl; intros ->; [lia|lia|done].
  - unfold domain_entries. rewrite Hd. apply domain_lists_NoDup.
  - unfold domain_entries. rewrite Hd. apply domain_lists_NoDup.
  - intros perm'. apply upsert_listed.
Qed.

Lemma domain_lists_deny_wins_witness :
  let c := with_domains (Some [{| pattern := &"a.com"; permission := DomainDeny |}; {| pattern := &"a.com"; permission := DomainAllow |}])
             default_settings in
  listed (denied_domains c) (&"a.com") /\ ~ listed (allowed_domains c) (&"a.com").
Proof.
  intros c. destruct (domain_lists_deny_wins c
    [{| pattern := &"a.com"; permission := DomainDeny |}; {| pattern := &"a.com"; permission := DomainAllow |}]
    (&"a.com") (&"a.com") DomainAllow normalize_host) as (H1 & H2 & _); [reflexivity|]. split.
  - apply H1. left.
  - intros [_ H]%H2. apply H. left.
Defined.

(** Where the proxy listens.  The ports are the configured ones; each address is
    either the configured one or 127.0.0.1; an address that is not a loopback address
    is only ever used when the settings allow it explicitly and no unix socket can be
    reached through the proxy. *)
Theorem bind_addresses_clamped (http socks http' socks' : SocketAddr) (cfg : NetworkProxySettings) :
  clamp_bind_addrs http socks cfg = (http', socks') ->
  port http' = port http /\ port socks' = port socks /\
  (ip http' = ip http \/ ip http' = LOCALHOST) /\ (ip socks' = ip socks \/ ip socks' = LOCALHOST) /\
  ((ip_is_loopback (ip http') = false \/ ip_is_loopback (ip socks') = false) ->
     dangerously_allow_non_loopback_proxy cfg = true /\ allow_unix_sockets cfg = [] /\
     dangerously_allow_all_unix_sockets cfg = false).
Proof.
  unfold clamp_bind_addrs, clamp_non_loopback.
  destruct (bool_decide _ && negb _) eqn:Eu; intros [= <- <-].
  - apply andb_true_iff in Eu as [Eu%bool_decide_eq_true En%negb_true_iff].
    destruct (ip_is_loopback (ip http)) eqn:E1, (ip_is_loopback (ip socks)) eqn:E2, (dangerously_allow_non_loopback_proxy cfg);
      simpl; rewrite ?E1, ?E2; naive_solver.
  - destruct (ip_is_loopback (ip http)) eqn:E1, (ip_is_loopback (ip socks)) eqn:E2, (dangerously_allow_non_loopback_proxy cfg);
      simpl; naive_solver.
Qed.

Lemma bind_addresses_clamped_witness :
  let any := {| ip := V4 (Octets 0 0 0 0); port := 3128%N |} in
  let '(http', _) := clamp_bind_addrs any any default_settings in
  ip http' = LOCALHOST /\ port http' = 3128%N.
Proof.
  intros any. destruct (clamp_bind_addrs any any default_settings) as [http' socks'] eqn:E.
  destruct (bind_addresses_clamped any any http' socks' default_settings E) as (Hp & _ & [Hi|Hi] & _).
  - vm_compute in E. injection E as <- <-. discriminate Hi.
  - split; [exact Hi|exact Hp].
Defined.
