(* ===== verification/MitmHooks.v ===== *)
(** * network-proxy/src/mitm_hook.rs: hooks on intercepted requests

    A hook names a host and says which requests to it are let through and which
    headers are removed and injected.  The configuration is validated, compiled with
    the secrets of the headers, and evaluated for each request.  Of an error only the
    innermost message is kept, without the values in it. *)
From S2P Require Import Prelude RustStr RustPath AbsolutePath IpAddr DomainPolicy ProxyConfig.

(** The crates [globset], [http] and [url], the environment and the secret files *)
Class MitmLib := {
  HookGlob : Type;
  hook_glob : bool -> str -> option HookGlob;
  hook_glob_match : HookGlob -> str -> bool;
  header_name_from_bytes : str -> option str;
  header_value_from_str : str -> option str;
  form_urlencoded_parse : str -> list (str * str);
  env_var : str -> option str;
  secret_file_text : str -> option str
}.

Definition PATTERN_PREFIX : str := &"pattern:".
Definition LITERAL_PREFIX : str := &"literal:".

Definition char_to_ascii_uppercase (c : char) : char := if ((97 <=? c) && (c <=? 122))%N then (c - 32)%N else c.
Definition to_ascii_uppercase (s : str) : str := map char_to_ascii_uppercase s.

(** [collect::<Result<Vec<_>>>] *)
Fixpoint try_map {E A B} (f : A -> comp E B) (l : list A) : comp E (list B) :=
  match l with
  | [] => Ok []
  | a :: l => let? b := f a in let? bs := try_map f l in Ok (b :: bs)
  end.

Section hooks.
Context `{Hlib : !MitmLib} `{Henv : !ProcessEnv}.

Record CompiledGlobMatcher := { glob_pattern : str; glob_matcher : HookGlob }.
Inductive PathMatcher := PathPrefixIs (prefix : str) | PathGlob (glob : CompiledGlobMatcher).
Inductive ValueMatcher := ValueExact (value : str) | ValueGlob (glob : CompiledGlobMatcher).
Inductive MatcherPattern := LiteralPattern (s : str) | GlobPatternText (s : str).

Record QueryConstraint := { q_name : str; q_allowed_values : list ValueMatcher }.
Record HeaderConstraint := { h_name : str; h_allowed_values : list ValueMatcher }.
Inductive SecretSource := SecretEnvVar (name : str) | SecretFile (path : str).
Record ResolvedInjectedHeader := { inj_name : str; inj_value : str; inj_source : SecretSource }.
Record MitmHookActions := { strip_request_headers : list str; inject_request_headers : list ResolvedInjectedHeader }.
Record MitmHookMatcher := {
  m_methods : list str;
  m_path_prefixes : list PathMatcher;
  m_query : list QueryConstraint;
  m_headers : list HeaderConstraint
}.
Record MitmHook := { hook_host : str; hook_matcher : MitmHookMatcher; hook_actions : MitmHookActions }.

Inductive HookEvaluation := NoHooksForHost | HookMatched (actions : MitmHookActions) | HookedHostNoMatch.

(** ** Compiling *)

Definition parse_matcher_pattern (pattern : str) : comp str MatcherPattern :=
  match strip_prefix LITERAL_PREFIX pattern with
  | Some literal => Ok (LiteralPattern literal)
  | None =>
      match strip_prefix PATTERN_PREFIX pattern with
      | None => Ok (LiteralPattern pattern)
      | Some [] => Err (&"glob pattern must not be empty")
      | Some glob => Ok (GlobPatternText glob)
      end
  end.

Definition compile_glob_matcher (pattern : str) (literal_separator : bool) : comp str CompiledGlobMatcher :=
  match hook_glob literal_separator pattern with
  | Some glob => Ok {| glob_pattern := pattern; glob_matcher := glob |}
  | None => Err (&"invalid glob pattern")
  end.

Definition compile_path_matchers (path_prefixes : list str) : comp str (list PathMatcher) :=
  try_map (fun prefix =>
    let? p := parse_matcher_pattern prefix in
    match p with
    | LiteralPattern [] => Err (&"path_prefixes must not contain empty entries")
    | LiteralPattern prefix => Ok (PathPrefixIs prefix)
    | GlobPatternText glob => let? g := compile_glob_matcher glob true in Ok (PathGlob g)
    end) path_prefixes.

Definition compile_value_matchers (values : list str) : comp str (list ValueMatcher) :=
  try_map (fun value =>
    let? p := parse_matcher_pattern value in
    match p with
    | LiteralPattern value => Ok (ValueExact value)
    | GlobPatternText glob => let? g := compile_glob_matcher glob false in Ok (ValueGlob g)
    end) values.

Definition normalize_hook_host (host : str) : comp str str :=
  match normalize_host host with
  | [] => Err (&"host must not be empty")
  | normalized =>
      if contains_char star normalized then Err (&"MITM hook hosts must be exact hosts and cannot contain wildcards")
      else Ok normalized
  end.

Definition normalize_methods (methods : list str) : comp str (list str) :=
  try_map (fun method =>
    match to_ascii_uppercase (trim method) with
    | [] => Err (&"methods must not contain empty entries")
    | normalized => Ok normalized
    end) methods.

Definition normalize_query_name (name : str) : comp str str :=
  match name with [] => Err (&"query keys must not be empty") | _ => Ok name end.

Definition parse_header_name (name : str) : comp str str :=
  match header_name_from_bytes name with Some n => Ok n | None => Err (&"invalid header name") end.

Definition parse_secret_file (path : str) : comp str str :=
  match trim path with
  | [] => Err (&"secret_file must not be empty")
  | _ =>
      if negb (is_absolute path) then Err (&"secret_file must be an absolute path")
      else match from_absolute_path path with Some p => Ok p | None => Err (&"secret_file must be an absolute path") end
  end.

Definition ONE_SECRET : str := &"expected exactly one of secret_env_var or secret_file".

(** ** Validating *)

Definition validate_query_constraints (query : list (str * list str)) : comp str (list unit) :=
  try_map (fun '(name, values) =>
    let? _ := normalize_query_name name in
    match values with
    | [] => Err (&"query key must list at least one allowed value")
    | _ => let? _ := compile_value_matchers values in Ok tt
    end) query.

Definition validate_header_constraints (headers : list (str * list str)) : comp str (list unit) :=
  try_map (fun '(name, values) =>
    let? _ := parse_header_name name in let? _ := compile_value_matchers values in Ok tt) headers.

Definition validate_strip_request_headers (names : list str) : comp str (list unit) :=
  try_map (fun name => let? _ := parse_header_name name in Ok tt) names.

Definition validate_injected_headers (headers : list InjectedHeaderConfig) : comp str (list unit) :=
  try_map (fun header =>
    let? _ := parse_header_name (ih_name header) in
    match ih_secret_env_var header, ih_secret_file header with
    | Some secret_env_var, None =>
        match trim secret_env_var with [] => Err (&"secret_env_var must not be empty") | _ => Ok tt end
    | None, Some secret_file => let? _ := parse_secret_file secret_file in Ok tt
    | _, _ => Err ONE_SECRET
    end) headers.

Definition validate_hook (hook : MitmHookConfig) : comp str unit :=
  let? _ := normalize_hook_host (hc_host hook) in
  let? methods := normalize_methods (hc_methods (hc_matcher hook)) in
  match methods with
  | [] => Err (&"match.methods must not be empty")
  | _ =>
      let? path_prefixes := compile_path_matchers (hc_path_prefixes (hc_matcher hook)) in
      match path_prefixes with
      | [] => Err (&"match.path_prefixes must not be empty")
      | _ =>
          if hc_body (hc_matcher hook) then Err (&"match.body is reserved for a future release and is not yet supported")
          else
            let? _ := validate_query_constraints (hc_query (hc_matcher hook)) in
            let? _ := validate_header_constraints (hc_headers (hc_matcher hook)) in
            let? _ := validate_strip_request_headers (hc_strip_request_headers (hc_actions hook)) in
            let? _ := validate_injected_headers (hc_inject_request_headers (hc_actions hook)) in
            Ok tt
      end
  end.

Definition validate_mitm_hook_config (config : NetworkProxySettings) : comp str unit :=
  match mitm_hooks config with
  | [] => Ok tt
  | hooks =>
      if negb (mitm config) then Err (&"network.mitm_hooks requires network.mitm = true")
      else let? _ := try_map validate_hook hooks in Ok tt
  end.

(** ** Compiling with secrets *)

Definition compile_injected_header (header : InjectedHeaderConfig) : comp str ResolvedInjectedHeader :=
  let? name := parse_header_name (ih_name header) in
  let? '(secret, source) :=
    match ih_secret_env_var header, ih_secret_file header with
    | Some name, None =>
        match env_var name with
        | Some value => Ok (value, SecretEnvVar name)
        | None => Err (&"missing required environment variable")
        end
    | None, Some secret_file =>
        let? path := parse_secret_file secret_file in
        match secret_file_text path with
        | Some text => Ok (trim text, SecretFile path)
        | None => Err (&"failed to read secret file")
        end
    | _, _ => Err ONE_SECRET
    end in
  match header_value_from_str (default [] (ih_prefix header) ++ secret) with
  | Some value => Ok {| inj_name := name; inj_value := value; inj_source := source |}
  | None => Err (&"invalid value for injected header")
  end.

Definition compile_query_constraint (constraint : str * list str) : comp str QueryConstraint :=
  let? name := normalize_query_name constraint.1 in
  let? allowed := compile_value_matchers constraint.2 in
  Ok {| q_name := name; q_allowed_values := allowed |}.
Definition compile_header_constraint (constraint : str * list str) : comp str HeaderConstraint :=
  let? name := parse_header_name constraint.1 in
  let? allowed := compile_value_matchers constraint.2 in
  Ok {| h_name := name; h_allowed_values := allowed |}.

Definition compile_hook (hook : MitmHookConfig) : comp str MitmHook :=
  let? host := normalize_hook_host (hc_host hook) in
  let? methods := normalize_methods (hc_methods (hc_matcher hook)) in
  let? path_prefixes := compile_path_matchers (hc_path_prefixes (hc_matcher hook)) in
  let? query := try_map compile_query_constraint (hc_query (hc_matcher hook)) in
  let? headers := try_map compile_header_constraint (hc_headers (hc_matcher hook)) in
  let? strip := try_map parse_header_name (hc_strip_request_headers (hc_actions hook)) in
  let? inject := try_map compile_injected_header (hc_inject_request_headers (hc_actions hook)) in
  Ok {| hook_host := host;
        hook_matcher := {| m_methods := methods; m_path_prefixes := path_prefixes; m_query := query; m_headers := headers |};
        hook_actions := {| strip_request_headers := strip; inject_request_headers := inject |} |}.

Fixpoint push_hooks (hooks : list MitmHookConfig) (hooks_by_host : gmap str (list MitmHook))
  : comp str (gmap str (list MitmHook)) :=
  match hooks with
  | [] => Ok hooks_by_host
  | hook :: hooks =>
      let? h := compile_hook hook in
      push_hooks hooks (<[hook_host h := default [] (hooks_by_host !! hook_host h) ++ [h]]> hooks_by_host)
  end.

Definition compile_mitm_hooks (config : NetworkProxySettings) : comp str (gmap str (list MitmHook)) :=
  let? _ := validate_mitm_hook_config config in
  push_hooks (mitm_hooks config) ∅.

(** ** Evaluating *)

(** The request: its headers with their values where these are text *)
Record HookRequest := {
  req_method : str;
  req_path : str;
  req_query : option str;
  req_headers : list (str * option str)
}.

Definition path_matcher_matches (m : PathMatcher) (candidate : str) : bool :=
  match m with
  | PathPrefixIs prefix => starts_with prefix candidate
  | PathGlob glob => hook_glob_match (glob_matcher glob) candidate
  end.
Definition value_matcher_matches (m : ValueMatcher) (candidate : str) : bool :=
  match m with
  | ValueExact value => str_eqb value candidate
  | ValueGlob glob => hook_glob_match (glob_matcher glob) candidate
  end.

Definition path_matches (path_prefixes : list PathMatcher) (path : str) : bool :=
  existsb (fun m => path_matcher_matches m path) path_prefixes.

Definition query_matches (constraints : list QueryConstraint) (req : HookRequest) : bool :=
  match constraints with
  | [] => true
  | _ =>
      let actual := form_urlencoded_parse (default [] (req_query req)) in
      forallb (fun constraint =>
        existsb (fun '(name, candidate) =>
          str_eqb name (q_name constraint) &&
          existsb (fun allowed => value_matcher_matches allowed candidate) (q_allowed_values constraint)) actual) constraints
  end.

Definition headers_match (constraints : list HeaderConstraint) (req : HookRequest) : bool :=
  forallb (fun constraint =>
    let actual := List.filter (fun header => str_eqb header.1 (h_name constraint)) (req_headers req) in
    match actual, h_allowed_values constraint with
    | [], _ => false
    | _, [] => true
    | _, allowed_values =>
        existsb (fun header =>
          match header.2 with
          | Some candidate => existsb (fun allowed => value_matcher_matches allowed candidate) allowed_values
          | None => false
          end) actual
    end) constraints.

Definition hook_matches (hook : MitmHook) (req : HookRequest) : bool :=
  let m := hook_matcher hook in
  let method := to_ascii_uppercase (req_method req) in
  existsb (fun allowed => str_eqb allowed method) (m_methods m) &&
  path_matches (m_path_prefixes m) (req_path req) &&
  query_matches (m_query m) req &&
  headers_match (m_headers m) req.

Definition evaluate_mitm_hooks (hooks_by_host : gmap str (list MitmHook)) (host : str) (req : HookRequest) : HookEvaluation :=
  match hooks_by_host !! normalize_host host with
  | None => NoHooksForHost
  | Some hooks =>
      match List.find (fun hook => hook_matches hook req) hooks with
      | Some hook => HookMatched (hook_actions hook)
      | None => HookedHostNoMatch
      end
  end.

(** *** mitm.rs: what a matched hook does to the headers

    [HeaderMap::remove] drops every value of a name, [insert] replaces them. *)
Definition header_remove (name : str) (headers : list (str * option str)) : list (str * option str) :=
  List.filter (fun header => negb (str_eqb header.1 name)) headers.
Definition header_insert (name value : str) (headers : list (str * option str)) : list (str * option str) :=
  header_remove name headers ++ [(name, Some value)].

Definition apply_mitm_hook_actions (headers : list (str * option str)) (actions : option MitmHookActions)
  : list (str * option str) :=
  match actions with
  | None => headers
  | Some actions =>
      foldl (fun headers h => header_insert (inj_name h) (inj_value h) headers)
        (foldl (fun headers name => header_remove name headers) headers (strip_request_headers actions))
        (inject_request_headers actions)
  end.

(** ** Theorems *)

Lemma try_map_Ok {E A B} (f : A -> comp E B) l bs : try_map f l = Ok bs <-> Forall2 (fun a b => f a = Ok b) l bs.
Proof.
  revert bs. induction l as [|a l IH]; intros bs; simpl.
  - split; [intros [= <-]; constructor|]. intros H. by inversion H.
  - split.
    + intros (b & Hb & (bs' & Hbs & [= <-])%comp_bind_Ok)%comp_bind_Ok. constructor; [done|]. by apply IH.
    + intros H. inversion H as [|? b ? bs' Hb Hbs]; subst. rewrite Hb. simpl. apply IH in Hbs. by rewrite Hbs.
Qed.

Lemma try_map_exists {E A B} (f : A -> comp E B) l :
  (forall a, a ∈ l -> exists b, f a = Ok b) -> exists bs, try_map f l = Ok bs.
Proof.
  induction l as [|a l IH]; intros H; [by exists []|]. destruct (H a) as [b Hb]; [by left|].
  destruct IH as [bs Hbs]; [intros x Hx; apply H; by right|]. exists (b :: bs). simpl. by rewrite Hb, Hbs.
Qed.

Lemma Forall2_elem_l {A B} (P : A -> B -> Prop) l k a : Forall2 P l k -> a ∈ l -> exists b, b ∈ k /\ P a b.
Proof.
  induction 1 as [|x y l k Hxy H IH]; [by intros ?%elem_of_nil|].
  intros [->|Ha]%elem_of_cons; [exists y; split; [by left|done]|]. destruct (IH Ha) as (b & Hb & HP). exists b. split; [by right|done].
Qed.

(** A pass over a list that succeeds makes another one succeed. *)
Lemma try_map_transfer {E A B C} (f : A -> comp E B) (g : A -> comp E C) l bs :
  try_map f l = Ok bs -> (forall a b, a ∈ l -> f a = Ok b -> exists c, g a = Ok c) -> exists cs, try_map g l = Ok cs.
Proof.
  intros H%try_map_Ok Hg. apply try_map_exists. intros a Ha. destruct (Forall2_elem_l _ _ _ _ H Ha) as (b & _ & Hb). eauto.
Qed.

(** The hooks of [host], in the order of the configuration *)
Definition hooks_for (host : str) (hs : list MitmHook) : list MitmHook :=
  List.filter (fun h => str_eqb (hook_host h) (normalize_host host)) hs.

Lemma push_hooks_spec hooks m m' : push_hooks hooks m = Ok m' ->
  exists hs, try_map compile_hook hooks = Ok hs /\
    forall k, m' !! k = match m !! k, List.filter (fun h => str_eqb (hook_host h) k) hs with
                        | None, [] => None
                        | old, new => Some (default [] old ++ new)
                        end.
Proof.
  revert m. induction hooks as [|hook hooks IH]; intros m; simpl.
  - intros [= <-]. exists []. split; [done|]. intros k. simpl. destruct (m !! k); simpl; by rewrite ?app_nil_r.
  - intros (h & Hh & Hp)%comp_bind_Ok. rewrite Hh. apply IH in Hp as (hs & Hs & Hm). simpl. rewrite Hs. exists (h :: hs).
    split; [done|]. intros k. rewrite Hm. simpl. destruct (str_eqb (hook_host h) k) eqn:E.
    + apply str_eqb_eq in E as <-. rewrite lookup_insert_eq. simpl. rewrite <- (assoc_L (++)). simpl.
      by destruct (m !! hook_host h).
    + apply str_eqb_neq in E. by rewrite lookup_insert_ne.
Qed.

Lemma validated_hook_compiles hook :
  validate_hook hook = Ok tt ->
  (forall h, h ∈ hc_inject_request_headers (hc_actions hook) -> exists r, compile_injected_header h = Ok r) ->
  exists h, compile_hook hook = Ok h.
Proof.
  unfold validate_hook, compile_hook. intros H Hsec.
  apply comp_bind_Ok in H as (host & -> & H). apply comp_bind_Ok in H as (methods & -> & H). destruct methods; [done|].
  apply comp_bind_Ok in H as (paths & -> & H). destruct paths; [done|]. destruct (hc_body _); [done|].
  apply comp_bind_Ok in H as (? & Hq & H). apply comp_bind_Ok in H as (? & Hh & H). apply comp_bind_Ok in H as (? & Hs & _).
  eapply (try_map_transfer _ compile_query_constraint) in Hq as [query Hq]; [|intros [name values] b _ Hb].
  2:{ unfold compile_query_constraint. cbn [fst snd]. apply comp_bind_Ok in Hb as (n & -> & Hb). simpl. destruct values; [done|].
      apply comp_bind_Ok in Hb as (v & -> & _). simpl. eauto. }
  eapply (try_map_transfer _ compile_header_constraint) in Hh as [headers Hh]; [|intros [name values] b _ Hb].
  2:{ unfold compile_header_constraint. cbn [fst snd]. apply comp_bind_Ok in Hb as (n & -> & Hb). simpl.
      apply comp_bind_Ok in Hb as (v & -> & _). simpl. eauto. }
  eapply (try_map_transfer _ parse_header_name) in Hs as [strip Hs]; [|intros name b _ Hb].
  2:{ apply comp_bind_Ok in Hb as (n & -> & _). eauto. }
  apply try_map_exists in Hsec as [inject Hi]. rewrite Hq. simpl. rewrite Hh. simpl. rewrite Hs. simpl. rewrite Hi. simpl. eauto.
Qed.

(** Hooks on intercepted requests.  A validated configuration compiles as soon as
    the secrets of its injected headers can be read; and then a request is judged by
    the hooks of its host in the order of the configuration: the first one that
    matches gives the actions, a host with hooks of which none matches is refused, and
    a host without hooks is not concerned. *)
Theorem hooks_first_match (config : NetworkProxySettings) :
  (validate_mitm_hook_config config = Ok tt ->
   (forall hook h, hook ∈ mitm_hooks config -> h ∈ hc_inject_request_headers (hc_actions hook) ->
      exists r, compile_injected_header h = Ok r) ->
   exists hooks, compile_mitm_hooks config = Ok hooks) /\
  (forall hooks, compile_mitm_hooks config = Ok hooks ->
   exists hs, Forall2 (fun hook h => compile_hook hook = Ok h) (mitm_hooks config) hs /\
     forall host req, evaluate_mitm_hooks hooks host req =
       match hooks_for host hs with
       | [] => NoHooksForHost
       | mine => match List.find (fun h => hook_matches h req) mine with
                 | Some h => HookMatched (hook_actions h)
                 | None => HookedHostNoMatch
                 end
       end).
Proof.
  split.
  - intros Hv Hsec. unfold compile_mitm_hooks. rewrite Hv. simpl.
    assert (forall l m, (forall hook, hook ∈ l -> exists h, compile_hook hook = Ok h) -> exists hooks, push_hooks l m = Ok hooks) as Hp.
    { induction l as [|hook l IH]; intros m Hl; simpl; [eauto|]. destruct (Hl hook) as [h ->]; [by left|]. simpl.
      apply IH. intros hook' Hin. apply Hl. by right. }
    apply Hp. intros hook Hin. apply validated_hook_compiles; [|intros h; by apply Hsec].
    unfold validate_mitm_hook_config in Hv. destruct (mitm_hooks config) as [|h0 l] eqn:El; [by apply elem_of_nil in Hin|].
    destruct (negb (mitm config)); [done|]. apply comp_bind_Ok in Hv as (us & Hu & _).
    apply try_map_Ok in Hu. destruct (Forall2_elem_l _ _ _ _ Hu Hin) as ([] & _ & Hok). done.
  - intros hooks H. unfold compile_mitm_hooks in H. apply comp_bind_Ok in H as ([] & _ & H).
    apply push_hooks_spec in H as (hs & Hs & Hm). exists hs. split; [by apply try_map_Ok|]. intros host req.
    unfold evaluate_mitm_hooks, hooks_for. rewrite Hm, lookup_empty. by destruct (List.filter _ hs).
Qed.

(** What the upstream server sees of a name: the value of the last injected header of
    that name; nothing when it is stripped and not injected; else what the client sent *)
Definition header_values (name : str) (headers : list (str * option str)) : list (option str) :=
  map snd (List.filter (fun header => str_eqb header.1 name) headers).

Lemma header_values_remove name n headers :
  header_values name (header_remove n headers) = if str_eqb n name then [] else header_values name headers.
Proof.
  unfold header_values, header_remove. induction headers as [|[k v] headers IH]; simpl; [by destruct (str_eqb n name)|].
  destruct (str_eqb k n) eqn:E1; simpl.
  - rewrite IH. apply str_eqb_eq in E1 as ->. by destruct (str_eqb n name).
  - destruct (str_eqb k name) eqn:E2; simpl; rewrite IH; [|done]. apply str_eqb_eq in E2 as ->.
    destruct (str_eqb n name) eqn:E3; [|done]. apply str_eqb_eq in E3 as ->. by rewrite str_eqb_refl in E1.
Qed.

Lemma header_values_insert name n v headers :
  header_values name (header_insert n v headers) = if str_eqb n name then [Some v] else header_values name headers.
Proof.
  unfold header_insert, header_values. rewrite List.filter_app, map_app.
  change (map snd (List.filter (fun header => str_eqb header.1 name) (header_remove n headers)))
    with (header_values name (header_remove n headers)). rewrite header_values_remove. simpl.
  destruct (str_eqb n name); simpl; [done|]. by rewrite app_nil_r.
Qed.

(** A client cannot smuggle a value past an injected or stripped header. *)
Lemma hook_actions_override headers actions name :
  header_values name (apply_mitm_hook_actions headers (Some actions)) =
  match last (List.filter (fun h => str_eqb (inj_name h) name) (inject_request_headers actions)) with
  | Some h => [Some (inj_value h)]
  | None => if existsb (fun n => str_eqb n name) (strip_request_headers actions) then [] else header_values name headers
  end.
Proof.
  destruct actions as [strip inject]. simpl. set (start := foldl _ headers strip).
  assert (header_values name start = if existsb (fun n => str_eqb n name) strip then [] else header_values name headers) as Hs.
  { unfold start. clear. revert headers. induction strip as [|n strip IH]; intros headers; simpl; [done|].
    rewrite IH, header_values_remove. by destruct (str_eqb n name), (existsb _ strip). }
  clearbody start. rewrite <- Hs. clear Hs. induction inject as [|h inject IH] using rev_ind; [done|].
  rewrite foldl_snoc, header_values_insert, List.filter_app. simpl. destruct (str_eqb (inj_name h) name).
  - by rewrite last_snoc.
  - by rewrite app_nil_r, IH.
Qed.
End hooks.
