(* ===== verification/ProxyState.v ===== *)
(** * network-proxy/src/state.rs: managed constraints and the compiled state

    Settings are checked against the constraints of a managed configuration and
    compiled into the state the proxy works with.  Of a constraint error the name of
    the field is kept. *)
From S2P Require Import Prelude RustStr RustPath AbsolutePath IpAddr DomainPolicy ProxyConfig MitmHooks.

Record NetworkProxyConstraints := {
  c_enabled : option bool;
  c_mode : option NetworkMode;
  c_allow_upstream_proxy : option bool;
  c_dangerously_allow_non_loopback_proxy : option bool;
  c_dangerously_allow_all_unix_sockets : option bool;
  c_allowed_domains : option (list str);
  c_allowlist_expansion_enabled : option bool;
  c_denied_domains : option (list str);
  c_denylist_expansion_enabled : option bool;
  c_allow_unix_sockets : option (list str);
  c_allow_local_binding : option bool
}.

#[export] Instance NetworkProxyConstraints_eq_dec : EqDecision NetworkProxyConstraints.
Proof. solve_decision. Defined.

Definition no_constraints : NetworkProxyConstraints := {|
  c_enabled := None; c_mode := None; c_allow_upstream_proxy := None; c_dangerously_allow_non_loopback_proxy := None;
  c_dangerously_allow_all_unix_sockets := None; c_allowed_domains := None; c_allowlist_expansion_enabled := None;
  c_denied_domains := None; c_denylist_expansion_enabled := None; c_allow_unix_sockets := None;
  c_allow_local_binding := None |}.

Definition network_mode_rank (m : NetworkMode) : nat := match m with Limited => 0 | Full => 1 end.

(** [InvalidValue] for a field *)
Definition invalid_if (bad : bool) (field_name : str) : comp str unit := if bad then Err field_name else Ok tt.

Definition validate_non_global_wildcard_domain_patterns (field_name : str) (patterns : list str) : comp str unit :=
  invalid_if (existsb is_global_wildcard_domain_pattern patterns) field_name.

(** [HashSet] of the entries in lower case *)
Definition lower_set (l : list str) : gset str := list_to_set (map to_ascii_lowercase l).

Section state.
Context `{Hglob : !GlobSetLib} `{Hurl : !UrlHostLib} `{Hlib : !MitmLib} `{Henv : !ProcessEnv}.

Definition validate_allowed_domains (candidate denied managed : list str) (expansion : option bool) : comp str unit :=
  let field := &"network.allowed_domains" in
  let? _ := validate_non_global_wildcard_domain_patterns field managed in
  match expansion with
  | Some true => invalid_if (negb (bool_decide (lower_set managed ∖ lower_set denied ⊆ lower_set candidate))) field
  | Some false => invalid_if (negb (bool_decide (lower_set candidate = lower_set managed ∖ lower_set denied))) field
  | None =>
      let managed_patterns := map parse_for_constraints managed in
      invalid_if (existsb (fun entry =>
        negb (existsb (fun m => allows m (parse_for_constraints entry)) managed_patterns)) candidate) field
  end.

Definition validate_denied_domains (candidate managed : list str) (expansion : option bool) : comp str unit :=
  let field := &"network.denied_domains" in
  let? _ := validate_non_global_wildcard_domain_patterns field managed in
  match expansion with
  | Some false => invalid_if (negb (bool_decide (lower_set candidate = lower_set managed))) field
  | Some true | None => invalid_if (negb (bool_decide (lower_set managed ⊆ lower_set candidate))) field
  end.

Definition is_disabled (constraint : option bool) : bool := match constraint with Some false => true | _ => false end.

Definition validate_policy_against_constraints (config : NetworkProxySettings) (constraints : NetworkProxyConstraints)
  : comp str unit :=
  let config_allowed_domains := default [] (allowed_domains config) in
  let config_denied_domains := default [] (denied_domains config) in
  let? _ := comp_map_err (fun _ => &"network.mitm_hooks") (validate_mitm_hook_config config) in
  let? _ := validate_non_global_wildcard_domain_patterns (&"network.denied_domains") config_denied_domains in
  let? _ := invalid_if (enabled config && is_disabled (c_enabled constraints)) (&"network.enabled") in
  let? _ :=
    match c_mode constraints with
    | Some max_mode => invalid_if (network_mode_rank max_mode <? network_mode_rank (mode config)) (&"network.mode")
    | None => Ok tt
    end in
  let? _ := invalid_if (allow_upstream_proxy config && is_disabled (c_allow_upstream_proxy constraints))
    (&"network.allow_upstream_proxy") in
  let? _ := invalid_if (dangerously_allow_non_loopback_proxy config && is_disabled (c_dangerously_allow_non_loopback_proxy constraints))
    (&"network.dangerously_allow_non_loopback_proxy") in
  let allow_all_unix_sockets :=
    default (bool_decide (c_allow_unix_sockets constraints = None)) (c_dangerously_allow_all_unix_sockets constraints) in
  let? _ := invalid_if (dangerously_allow_all_unix_sockets config && negb allow_all_unix_sockets)
    (&"network.dangerously_allow_all_unix_sockets") in
  let? _ := invalid_if (allow_local_binding config && is_disabled (c_allow_local_binding constraints))
    (&"network.allow_local_binding") in
  let? _ :=
    match c_allowed_domains constraints with
    | Some managed =>
        validate_allowed_domains config_allowed_domains config_denied_domains managed (c_allowlist_expansion_enabled constraints)
    | None => Ok tt
    end in
  let? _ :=
    match c_denied_domains constraints with
    | Some managed => validate_denied_domains config_denied_domains managed (c_denylist_expansion_enabled constraints)
    | None => Ok tt
    end in
  match c_allow_unix_sockets constraints with
  | Some managed =>
      invalid_if (existsb (fun entry => negb (bool_decide (to_ascii_lowercase entry ∈ lower_set managed)))
        (allow_unix_sockets config)) (&"network.allow_unix_sockets")
  | None => Ok tt
  end.

(** ** The compiled state

    [MitmState::new] reads certificates and is a parameter. *)
Class MitmStateLib := { MitmState : Type; mitm_state_new : bool -> bool -> option MitmState }.

Context `{Hmitm : !MitmStateLib}.

Record BlockedRequest := {
  blocked_host : str;
  blocked_reason : str;
  blocked_client : option str;
  blocked_method : option str;
  blocked_mode : option NetworkMode;
  blocked_protocol : str;
  blocked_decision : option str;
  blocked_source : option str;
  blocked_port : option N;
  blocked_timestamp : Z
}.

Record ConfigState := {
  config : NetworkProxySettings;
  allow_set : GlobSet;
  deny_set : GlobSet;
  mitm_state : option MitmState;
  state_hooks : gmap str (list MitmHook);
  constraints : NetworkProxyConstraints;
  blocked : list BlockedRequest;
  blocked_total : N
}.

Definition with_blocked (b : list BlockedRequest) (total : N) (s : ConfigState) : ConfigState :=
  {| config := config s; allow_set := allow_set s; deny_set := deny_set s; mitm_state := mitm_state s;
     state_hooks := state_hooks s; constraints := constraints s; blocked := b; blocked_total := total |}.
Definition with_config (c : NetworkProxySettings) (s : ConfigState) : ConfigState :=
  {| config := c; allow_set := allow_set s; deny_set := deny_set s; mitm_state := mitm_state s;
     state_hooks := state_hooks s; constraints := constraints s; blocked := blocked s; blocked_total := blocked_total s |}.

Definition build_config_state (cfg : NetworkProxySettings) (cs : NetworkProxyConstraints) : comp str ConfigState :=
  let? _ := validate_unix_socket_allowlist_paths cfg in
  let allowed := default [] (allowed_domains cfg) in
  let denied := default [] (denied_domains cfg) in
  let? _ := validate_non_global_wildcard_domain_patterns (&"network.denied_domains") denied in
  let? deny := compile_denylist_globset denied in
  let? allow := compile_allowlist_globset allowed in
  let? hooks := compile_mitm_hooks cfg in
  let? mitm :=
    if mitm cfg then
      match mitm_state_new (allow_upstream_proxy cfg) (allow_local_binding cfg) with
      | Some s => Ok (Some s)
      | None => Err (&"mitm")
      end
    else Ok None in
  Ok {| config := cfg; allow_set := allow; deny_set := deny; mitm_state := mitm; state_hooks := hooks; constraints := cs;
        blocked := []; blocked_total := 0 |}.

(** ** What validation promises *)

Lemma invalid_if_Ok b field : invalid_if b field = Ok tt <-> b = false.
Proof. by destruct b. Qed.

Lemma lower_set_elem x l : x ∈ lower_set l <-> exists y, y ∈ l /\ to_ascii_lowercase y = x.
Proof.
  unfold lower_set. rewrite elem_of_list_to_set, list_elem_of_fmap. split; intros (y & H1 & H2); eauto.
Qed.

(** Patterns that are the same in lower case stand for the same hosts. *)
Lemma list_pattern_lower p p' q q' :
  list_pattern p q -> list_pattern p' q' -> to_ascii_lowercase p = to_ascii_lowercase p' -> q = q'.
Proof.
  assert (forall r r' s, plain_pattern r s -> r' = &"*" -> to_ascii_lowercase r = to_ascii_lowercase r' -> False) as Hstar.
  { intros r r' s H -> E. destruct (normalize_pattern_plain _ _ H) as [_ H']. apply plain_pattern_not_star in H'. by apply H'. }
  destruct q as [q|], q' as [q'|]; simpl; intros H H' E; [|exfalso; eauto|exfalso; eauto|done].
  f_equal. rewrite <- (normal_pattern_parse _ _ H), <- (normal_pattern_parse _ _ H').
  by rewrite (proj1 (normalize_pattern_plain _ _ H)), (proj1 (normalize_pattern_plain _ _ H')), E.
Qed.

Lemma lower_subset_hosts ps qs ms ns h :
  Forall2 list_pattern ps qs -> Forall2 list_pattern ms ns -> lower_set ps ⊆ lower_set ms ->
  Exists (list_host h) qs -> Exists (list_host h) ns.
Proof.
  intros Hp Hm Hsub (q & Hq & Hh)%Exists_exists. apply Forall2_flip in Hp.
  destruct (Forall2_elem_l _ _ _ _ Hp Hq) as (p & Hin & Hpq). simpl in Hpq.
  assert (to_ascii_lowercase p ∈ lower_set ms) as (m & Hms & Em)%lower_set_elem.
  { apply Hsub, lower_set_elem. eauto. }
  destruct (Forall2_elem_l _ _ _ _ Hm Hms) as (n & Hn & Hmn). apply Exists_exists. exists n. split; [done|].
  by rewrite <- (list_pattern_lower _ _ _ _ Hpq Hmn (eq_sym Em)).
Qed.

(** Patterns a managed list can hold: plain ones over domain names that [url] takes *)
Definition managed_pattern (p : str) (q : option DomainPattern) : Prop :=
  list_pattern p q /\ match q with Some q => url_domain (pattern_domain q) = true | None => True end.

Lemma managed_list_pattern ps qs : Forall2 managed_pattern ps qs -> Forall2 list_pattern ps qs.
Proof. intros H. eapply Forall2_impl; [done|]. by intros p q [? _]. Qed.

Context `{Hurl_laws : !UrlHostLaws}.

Lemma allowed_entry_within p q ms ns :
  managed_pattern p q -> Forall2 managed_pattern ms ns -> None ∉ ns ->
  existsb (fun m => allows m (parse_for_constraints p)) (map parse_for_constraints ms) = true ->
  exists q', q = Some q' /\ exists n, Some n ∈ ns /\ forall h, pattern_host q' h -> pattern_host n h.
Proof.
  intros [Hp Hu] Hm Hns (m & Hin & Ha)%existsb_elem. apply list_elem_of_fmap in Hin as (mp & -> & Hmp).
  destruct (Forall2_elem_l _ _ _ _ Hm Hmp) as ([n|] & Hn & Hpat & Hun); [|done]. simpl in Hpat.
  rewrite (parse_for_constraints_plain _ _ Hpat Hun) in Ha. destruct (plain_pattern_dns _ _ Hpat) as (d & Hd & Hn').
  assert (dns_name (pattern_domain n) = true) as Hdn by by destruct Hn' as [->|[->| ->]].
  destruct q as [q|]; simpl in Hp.
  - exists q. split; [done|]. exists n. split; [done|]. rewrite (parse_for_constraints_plain _ _ Hp Hu) in Ha.
    apply allows_is_inclusion; [done| |done]. destruct (plain_pattern_dns _ _ Hp) as (d' & Hd' & Hq). by destruct Hq as [->|[->| ->]].
  - exfalso. subst p. assert (parse_for_constraints (&"*") = ExactHost (&"*")) as Es by (vm_compute; reflexivity).
    rewrite Es in Ha. assert (forall x, ends_with (dot :: d) x = true -> 2 <= length x) as Hlen.
    { intros x Hx. unfold ends_with in Hx. destruct (strip_suffix (dot :: d) x) as [r|] eqn:E; [|done].
      apply strip_suffix_Some in E as ->. rewrite length_app. simpl.
      pose proof (plain_nonempty d (dns_name_plain d Hd)). destruct d; [done|]. simpl. lia. }
    pose proof (plain_not_star d (dns_name_plain d Hd)) as Hs.
    destruct Hn' as [->|[->| ->]]; simpl in Ha; unfold domain_eq, is_strict_subdomain, is_subdomain_or_equal in Ha;
      rewrite (normalize_domain_dns d Hd) in Ha; change (normalize_domain (&"*")) with (&"*") in Ha.
    + apply str_eqb_eq in Ha. by symmetry in Ha.
    + apply andb_true_iff in Ha as [_ Ha]. apply Hlen in Ha. simpl in Ha. lia.
    + destruct (str_eqb (&"*") d) eqn:E; [apply str_eqb_eq in E; by symmetry in E|]. apply Hlen in Ha. simpl in Ha. lia.
Qed.

Lemma no_wildcard field ms ns : Forall2 managed_pattern ms ns ->
  validate_non_global_wildcard_domain_patterns field ms = Ok tt -> None ∉ ns.
Proof.
  intros Hm H Hn. apply invalid_if_Ok in H. apply Forall2_flip in Hm. destruct (Forall2_elem_l _ _ _ _ Hm Hn) as (m & Hin & Hp & _).
  apply existsb_none with (x := m) in H; [|done].
  pose proof (proj2 (global_wildcard_iff _ _ Hp) eq_refl). congruence.
Qed.

(** An allow list that passes stays within the managed one. *)
Lemma allowed_within candidate denied managed expansion qs ns h :
  validate_allowed_domains candidate denied managed expansion = Ok tt -> expansion <> Some true ->
  Forall2 managed_pattern candidate qs -> Forall2 managed_pattern managed ns ->
  Exists (list_host h) qs -> Exists (list_host h) ns.
Proof.
  unfold validate_allowed_domains. intros ([] & Hw & H)%comp_bind_Ok Hx Hc Hm. pose proof (no_wildcard _ _ _ Hm Hw) as Hn.
  destruct expansion as [[]|]; [done| |]; apply invalid_if_Ok in H.
  - apply negb_false_iff, bool_decide_eq_true in H.
    eapply lower_subset_hosts; [by apply managed_list_pattern|by apply managed_list_pattern|]. set_solver.
  - intros (q & Hq & Hh)%Exists_exists. apply Forall2_flip in Hc. destruct (Forall2_elem_l _ _ _ _ Hc Hq) as (p & Hin & Hp).
    apply existsb_none with (x := p) in H; [|done]. apply negb_false_iff in H.
    destruct (allowed_entry_within p q managed ns Hp Hm Hn H) as (q' & -> & n & Hns & Hi). apply Exists_exists.
    exists (Some n). split; [done|]. by apply Hi.
Qed.

Lemma denied_within candidate managed expansion qs ns h :
  validate_denied_domains candidate managed expansion = Ok tt ->
  Forall2 managed_pattern candidate qs -> Forall2 managed_pattern managed ns ->
  Exists (list_host h) ns -> Exists (list_host h) qs.
Proof.
  unfold validate_denied_domains. intros ([] & Hw & H)%comp_bind_Ok Hc Hm.
  eapply lower_subset_hosts; [by apply managed_list_pattern|by apply managed_list_pattern|].
  destruct expansion as [[]|]; apply invalid_if_Ok, negb_false_iff, bool_decide_eq_true in H; set_solver.
Qed.

Context `{Hglob_laws : !GlobSetLaws}.

(** Settings that pass validation, taken apart *)
Lemma validated_parts cfg cs : validate_policy_against_constraints cfg cs = Ok tt ->
  enabled cfg && is_disabled (c_enabled cs) = false /\
  (forall m, c_mode cs = Some m -> network_mode_rank (mode cfg) <= network_mode_rank m) /\
  allow_upstream_proxy cfg && is_disabled (c_allow_upstream_proxy cs) = false /\
  dangerously_allow_non_loopback_proxy cfg && is_disabled (c_dangerously_allow_non_loopback_proxy cs) = false /\
  dangerously_allow_all_unix_sockets cfg &&
    negb (default (bool_decide (c_allow_unix_sockets cs = None)) (c_dangerously_allow_all_unix_sockets cs)) = false /\
  allow_local_binding cfg && is_disabled (c_allow_local_binding cs) = false /\
  (forall managed, c_allowed_domains cs = Some managed ->
     validate_allowed_domains (default [] (allowed_domains cfg)) (default [] (denied_domains cfg)) managed
       (c_allowlist_expansion_enabled cs) = Ok tt) /\
  (forall managed, c_denied_domains cs = Some managed ->
     validate_denied_domains (default [] (denied_domains cfg)) managed (c_denylist_expansion_enabled cs) = Ok tt) /\
  (forall managed s, c_allow_unix_sockets cs = Some managed -> s ∈ allow_unix_sockets cfg ->
     to_ascii_lowercase s ∈ lower_set managed).
Proof.
  unfold validate_policy_against_constraints. intros H.
  apply comp_bind_Ok in H as ([] & _ & H). apply comp_bind_Ok in H as ([] & _ & H).
  apply comp_bind_Ok in H as ([] & H1%invalid_if_Ok & H). apply comp_bind_Ok in H as ([] & H2 & H).
  apply comp_bind_Ok in H as ([] & H3%invalid_if_Ok & H). apply comp_bind_Ok in H as ([] & H4%invalid_if_Ok & H).
  apply comp_bind_Ok in H as ([] & H5%invalid_if_Ok & H). apply comp_bind_Ok in H as ([] & H6%invalid_if_Ok & H).
  apply comp_bind_Ok in H as ([] & H7 & H). apply comp_bind_Ok in H as ([] & H8 & H9).
  split_and!; try done.
  - intros m Em. rewrite Em in H2. by apply invalid_if_Ok, Nat.ltb_ge in H2.
  - intros managed Em. by rewrite Em in H7.
  - intros managed Em. by rewrite Em in H8.
  - intros managed s Em Hs. rewrite Em in H9. apply invalid_if_Ok in H9. apply existsb_none with (x := s) in H9; [|done].
    by apply negb_false_iff, bool_decide_eq_true in H9.
Qed.

(** C21: settings that pass validation stay within the managed constraints.  No switch is
    on that the constraints turn off, the mode is at most the managed one, every unix
    socket is a managed one.  For lists of plain patterns: unless the managed allow list
    may be expanded, every host that the compiled allow list matches is matched by the
    managed one; and every host of the managed deny list is matched by the compiled deny
    list of the settings. *)
Theorem validated_policy_bounded (cfg : NetworkProxySettings) (cs : NetworkProxyConstraints) :
  validate_policy_against_constraints cfg cs = Ok tt ->
  (c_enabled cs = Some false -> enabled cfg = false) /\
  (c_mode cs = Some Limited -> mode cfg = Limited) /\
  (c_allow_upstream_proxy cs = Some false -> allow_upstream_proxy cfg = false) /\
  (c_dangerously_allow_non_loopback_proxy cs = Some false -> dangerously_allow_non_loopback_proxy cfg = false) /\
  (c_allow_local_binding cs = Some false -> allow_local_binding cfg = false) /\
  (dangerously_allow_all_unix_sockets cfg = true -> c_dangerously_allow_all_unix_sockets cs <> Some false /\
     (c_dangerously_allow_all_unix_sockets cs = None -> c_allow_unix_sockets cs = None)) /\
  (forall managed s, c_allow_unix_sockets cs = Some managed -> s ∈ allow_unix_sockets cfg ->
     exists m, m ∈ managed /\ eq_ignore_ascii_case m s = true) /\
  (forall managed qs ns set mset h,
     c_allowed_domains cs = Some managed -> c_allowlist_expansion_enabled cs <> Some true ->
     Forall2 managed_pattern (default [] (allowed_domains cfg)) qs -> Forall2 managed_pattern managed ns ->
     compile_allowlist_globset (default [] (allowed_domains cfg)) = Ok set -> compile_allowlist_globset managed = Ok mset ->
     to_ascii_lowercase h = h -> set_is_match set h = true -> set_is_match mset h = true) /\
  (forall managed qs ns set mset h,
     c_denied_domains cs = Some managed ->
     Forall2 managed_pattern (default [] (denied_domains cfg)) qs -> Forall2 managed_pattern managed ns ->
     compile_denylist_globset (default [] (denied_domains cfg)) = Ok set -> compile_denylist_globset managed = Ok mset ->
     to_ascii_lowercase h = h -> set_is_match mset h = true -> set_is_match set h = true).
Proof.
  intros (H1 & H2 & H3 & H4 & H5 & H6 & H7 & H8 & H9)%validated_parts.
  assert (forall b o, b && is_disabled o = false -> o = Some false -> b = false) as Hoff.
  { intros [] o H ->; done. }
  split_and!; try (intros; by eapply Hoff).
  - intros E. specialize (H2 _ E). simpl in H2. by destruct (mode cfg); simpl in H2; [|lia].
  - intros E. rewrite E in H5. simpl in H5. apply negb_false_iff in H5. split; [by intros E'; rewrite E' in H5|].
    intros E'. rewrite E' in H5. by apply bool_decide_eq_true in H5.
  - intros managed s E Hs. destruct (proj1 (lower_set_elem _ _) (H9 _ _ E Hs)) as (m & Hm & Em). exists m. split; [done|].
    by apply str_eqb_eq.
  - intros managed qs ns set mset h E Hx Hq Hn Es Em Hh.
    rewrite (proj2 (compiled_list_meaning _ _ h (managed_list_pattern _ _ Hq) Hh) _ (or_intror Es)).
    rewrite (proj2 (compiled_list_meaning _ _ h (managed_list_pattern _ _ Hn) Hh) _ (or_intror Em)).
    by eapply allowed_within; [apply H7|..].
  - intros managed qs ns set mset h E Hq Hn Es Em Hh.
    rewrite (proj2 (compiled_list_meaning _ _ h (managed_list_pattern _ _ Hq) Hh) _ (or_introl Es)).
    rewrite (proj2 (compiled_list_meaning _ _ h (managed_list_pattern _ _ Hn) Hh) _ (or_introl Em)).
    by eapply denied_within; [apply H8|..].
Qed.

(** A managed entry that [url] does not take as a host is compared as the empty name, and
    so is every pattern of the settings that [url] does not take. *)
Lemma unparsable_entries_allow_each_other :
  url_host_parse (&"bad host") = None -> url_host_parse (&"[e]vil.org") = None ->
  validate_allowed_domains [&"[e]vil.org"] [] [&"bad host"] None = Ok tt.
Proof.
  intros H1 H2. unfold validate_allowed_domains.
  assert (validate_non_global_wildcard_domain_patterns (&"network.allowed_domains") [&"bad host"] = Ok tt) as -> by (vm_compute; reflexivity).
  cbn [comp_bind]. apply invalid_if_Ok. cbn [existsb map orb].
  assert (parse_for_constraints (&"bad host") = ExactHost []) as ->.
  { unfold parse_for_constraints. cbv [parse_domain_for_constraints]. vm_compute in H1 |- *. by rewrite H1. }
  assert (parse_for_constraints (&"[e]vil.org") = ExactHost []) as ->.
  { vm_compute in H2 |- *. by rewrite H2. }
  vm_compute. reflexivity.
Qed.
End state.

(** ** A small library for examples *)

#[export] Instance bare_env : ProcessEnv := {| home_dir := None; env_current_dir := None |}.
#[export] Instance plain_mitm_lib : MitmLib := {|
  HookGlob := str;
  hook_glob _ p := Some p;
  hook_glob_match p s := wild p s;
  header_name_from_bytes name := match name with [] => None | _ => Some (to_ascii_lowercase name) end;
  header_value_from_str value := Some value;
  form_urlencoded_parse s := [];
  env_var _ := None;
  secret_file_text _ := None
|}.
#[export] Instance plain_mitm_state : MitmStateLib := {| MitmState := bool; mitm_state_new up _ := Some up |}.

(** Settings within a managed configuration *)
Definition demo_settings : NetworkProxySettings :=
  set_denied_domains [&"*.evil.org"; &"bad.foo.org"] (set_allowed_domains [&"api.Foo.org"] default_settings).
Definition demo_constraints : NetworkProxyConstraints := {|
  c_enabled := None; c_mode := Some Limited; c_allow_upstream_proxy := None; c_dangerously_allow_non_loopback_proxy := None;
  c_dangerously_allow_all_unix_sockets := Some false; c_allowed_domains := Some [&"**.foo.org"];
  c_allowlist_expansion_enabled := None; c_denied_domains := Some [&"*.EVIL.org"]; c_denylist_expansion_enabled := None;
  c_allow_unix_sockets := None; c_allow_local_binding := Some false |}.

Lemma validated_policy_bounded_witness :
  let cfg := with_mode Limited demo_settings in
  validate_policy_against_constraints cfg demo_constraints = Ok tt /\ mode cfg = Limited /\
  dangerously_allow_all_unix_sockets cfg = false /\
  exists set mset, compile_allowlist_globset (default [] (allowed_domains cfg)) = Ok set /\
    compile_allowlist_globset [&"**.foo.org"] = Ok mset /\
    (set_is_match set (&"api.foo.org") = true -> set_is_match mset (&"api.foo.org") = true).
Proof.
  intros cfg. assert (validate_policy_against_constraints cfg demo_constraints = Ok tt) as H by (vm_compute; reflexivity).
  pose proof (validated_policy_bounded cfg demo_constraints H) as (_ & H2 & _ & _ & _ & _ & _ & H8 & _).
  split; [exact H|]. split; [by apply H2|]. split; [reflexivity|].
  eexists _, _. split; [vm_compute; reflexivity|]. split; [vm_compute; reflexivity|].
  apply (H8 [&"**.foo.org"] [Some (ExactHost (to_ascii_lowercase (&"api.Foo.org")))]
    [Some (ApexAndSubdomains (to_ascii_lowercase (&"foo.org")))]); try done.
  - constructor; [|constructor]. split; [apply plain_exact|]; vm_compute; reflexivity.
  - constructor; [|constructor]. split; [apply (plain_apex (&"foo.org"))|]; vm_compute; reflexivity.
Defined.
