(* ===== verification/NetworkProxy.v ===== *)
(** * network-proxy/src/runtime.rs, network_policy.rs, responses.rs: decisions

    What is decided on a host in one state of the proxy, on a unix socket, and how
    decisions are reported.  [host_decision] is the reference that the task
    [host_blocked] of ProxyTasks.v is proved to implement. *)
From S2P Require Import Prelude RustStr RustPath AbsolutePath PathPrefix Permissions IpAddr DomainPolicy ProxyConfig MitmHooks.
From S2P Require Import ProxyState.

(** ** reasons.rs *)
Definition REASON_DENIED : str := &"denied".
Definition REASON_METHOD_NOT_ALLOWED : str := &"method_not_allowed".
Definition REASON_MITM_HOOK_DENIED : str := &"mitm_hook_denied".
Definition REASON_MITM_REQUIRED : str := &"mitm_required".
Definition REASON_NOT_ALLOWED : str := &"not_allowed".
Definition REASON_NOT_ALLOWED_LOCAL : str := &"not_allowed_local".
Definition REASON_POLICY_DENIED : str := &"policy_denied".
Definition REASON_PROXY_DISABLED : str := &"proxy_disabled".
Definition REASON_UNIX_SOCKET_UNSUPPORTED : str := &"unix_socket_unsupported".

Inductive HostBlockReason := HostDenied | HostNotAllowed | HostNotAllowedLocal.

Definition host_block_reason_str (r : HostBlockReason) : str :=
  match r with
  | HostDenied => REASON_DENIED
  | HostNotAllowed => REASON_NOT_ALLOWED
  | HostNotAllowedLocal => REASON_NOT_ALLOWED_LOCAL
  end.

Inductive HostBlockDecision := HostAllowed | HostBlocked (reason : HostBlockReason).

#[export] Instance HostBlockReason_eq_dec : EqDecision HostBlockReason.
Proof. solve_decision. Defined.
#[export] Instance HostBlockDecision_eq_dec : EqDecision HostBlockDecision.
Proof. solve_decision. Defined.

Section runtime.
Context `{Hglob : !GlobSetLib} `{Hlib : !MitmLib} `{Hmitm : !MitmStateLib} `{Henv : !ProcessEnv}.

Definition globset_matches_host_or_unscoped (set : GlobSet) (host : str) : bool :=
  set_is_match set host || match unscoped_ip_literal host with Some ip => set_is_match set ip | None => false end.

Definition is_explicit_local_allowlisted (allowed_domains : list str) (host : str) : bool :=
  existsb (fun pattern =>
    let pattern := trim pattern in
    if str_eqb pattern (&"*") || starts_with (&"*.") pattern || starts_with (&"**.") pattern then false
    else if contains_char star pattern || contains_char question_mark pattern then false
    else
      let normalized_pattern := normalize_host pattern in
      str_eqb normalized_pattern host ||
      match unscoped_ip_literal host with Some ip => str_eqb normalized_pattern ip | None => false end) allowed_domains.

(** The addresses of a name, [None] when the look-up fails or takes longer than the
    deadline *)
Definition answers_non_public (answer : option (list IpAddr)) : bool :=
  match answer with None => true | Some addrs => existsb is_non_public_ip addrs end.

Definition is_local_literal (host : str) : bool :=
  let host_no_scope := default host (unscoped_ip_literal host) in
  if is_loopback_host host then true
  else match parse_ip_addr host_no_scope with Some ip => is_non_public_ip ip | None => false end.

(** Whether the decision on a parsed host needs the addresses of its name *)
Definition needs_lookup (s : ConfigState) (host : str) : bool :=
  negb (globset_matches_host_or_unscoped (deny_set s) host) && negb (allow_local_binding (config s)) &&
  negb (is_local_literal host) && bool_decide (parse_ip_addr host = None).

(** The rules on a host, in their order *)
Definition host_decision (s : ConfigState) (answer : option (list IpAddr)) (host : str) : HostBlockDecision :=
  match host_parse host with
  | None => HostBlocked HostNotAllowed
  | Some host =>
      let local :=
        if is_local_literal host then negb (is_explicit_local_allowlisted (default [] (allowed_domains (config s))) host)
        else match parse_ip_addr host with Some ip => is_non_public_ip ip | None => answers_non_public answer end in
      if globset_matches_host_or_unscoped (deny_set s) host then HostBlocked HostDenied
      else if negb (allow_local_binding (config s)) && local then HostBlocked HostNotAllowedLocal
      else if bool_decide (allowed_domains (config s) <> None) && globset_matches_host_or_unscoped (allow_set s) host
      then HostAllowed
      else HostBlocked HostNotAllowed
  end.

(** *** Unix sockets: the check of an absolute path in one state *)
Context `{Hfs : !HostFs}.

Definition unix_socket_listed (s : ConfigState) (path : str) : bool :=
  if dangerously_allow_all_unix_sockets (config s) then true
  else
    match from_absolute_path path with
    | None => false
    | Some requested_abs =>
        let requested_canonical := fs_canonicalize requested_abs in
        existsb (fun allowed =>
          match socket_path_parse allowed with
          | Some (NativeSocket allowed_path) =>
              path_eqb allowed_path requested_abs ||
              match requested_canonical, fs_canonicalize allowed_path with
              | Some requested, Some allowed => path_eqb allowed requested
              | _, _ => false
              end
          | _ => false
          end) (allow_unix_sockets (config s))
    end.

(** ** network_policy.rs *)

Inductive NetworkProtocol := ProtoHttp | ProtoHttpsConnect | ProtoSocks5Tcp | ProtoSocks5Udp.

Definition as_policy_protocol (p : NetworkProtocol) : str :=
  match p with
  | ProtoHttp => &"http" | ProtoHttpsConnect => &"https_connect" | ProtoSocks5Tcp => &"socks5_tcp" | ProtoSocks5Udp => &"socks5_udp"
  end.

Inductive PolicyVerdict := VerdictDeny | VerdictAsk.
Definition verdict_str (v : PolicyVerdict) : str := match v with VerdictDeny => &"deny" | VerdictAsk => &"ask" end.

Inductive DecisionSource := SourceBaselinePolicy | SourceModeGuard | SourceProxyState | SourceDecider.
Definition source_str (s : DecisionSource) : str :=
  match s with
  | SourceBaselinePolicy => &"baseline_policy" | SourceModeGuard => &"mode_guard" | SourceProxyState => &"proxy_state"
  | SourceDecider => &"decider"
  end.

Record NetworkPolicyRequest := {
  pr_protocol : NetworkProtocol;
  pr_host : str;
  pr_port : N;
  pr_client_addr : option str;
  pr_method : option str;
  pr_command : option str;
  pr_exec_policy_hint : option str
}.

Inductive NetworkDecision :=
| NetworkAllow
| NetworkDeny (reason : str) (source : DecisionSource) (decision : PolicyVerdict).

Definition deny_with_source (reason : str) (source : DecisionSource) : NetworkDecision :=
  NetworkDeny (match reason with [] => REASON_POLICY_DENIED | _ => reason end) source VerdictDeny.
Definition ask_with_source (reason : str) (source : DecisionSource) : NetworkDecision :=
  NetworkDeny (match reason with [] => REASON_POLICY_DENIED | _ => reason end) source VerdictAsk.

Definition map_decider_decision (decision : NetworkDecision) : NetworkDecision :=
  match decision with
  | NetworkAllow => NetworkAllow
  | NetworkDeny reason _ decision => NetworkDeny reason SourceDecider decision
  end.

(** ** responses.rs *)

Record PolicyDecisionDetails := {
  d_decision : PolicyVerdict;
  d_reason : str;
  d_source : DecisionSource;
  d_protocol : NetworkProtocol;
  d_host : str;
  d_port : N
}.

Definition blocked_header_value (reason : str) : str :=
  if str_eqb reason REASON_NOT_ALLOWED || str_eqb reason REASON_NOT_ALLOWED_LOCAL then &"blocked-by-allowlist"
  else if str_eqb reason REASON_DENIED then &"blocked-by-denylist"
  else if str_eqb reason REASON_METHOD_NOT_ALLOWED then &"blocked-by-method-policy"
  else if str_eqb reason REASON_MITM_HOOK_DENIED then &"blocked-by-mitm-hook"
  else if str_eqb reason REASON_MITM_REQUIRED then &"blocked-by-mitm-required"
  else &"blocked-by-policy".

Definition blocked_message (reason : str) : str :=
  if str_eqb reason REASON_NOT_ALLOWED then &"Domain not in allowlist."
  else if str_eqb reason REASON_NOT_ALLOWED_LOCAL then &"Sandbox policy blocks local/private network addresses."
  else if str_eqb reason REASON_DENIED then &"Domain denied by the sandbox policy."
  else if str_eqb reason REASON_METHOD_NOT_ALLOWED then &"Method not allowed in limited mode."
  else if str_eqb reason REASON_MITM_HOOK_DENIED then &"HTTPS request denied by MITM hook policy."
  else if str_eqb reason REASON_MITM_REQUIRED then &"MITM required for limited HTTPS."
  else if str_eqb reason REASON_PROXY_DISABLED then &"network proxy is disabled"
  else &"Request blocked by network policy.".

Definition blocked_message_with_policy (reason : str) (details : PolicyDecisionDetails) : str := blocked_message reason.

Record BlockedResponse := {
  br_status : str;
  br_host : str;
  br_reason : str;
  br_decision : option str;
  br_source : option str;
  br_protocol : option str;
  br_port : option N;
  br_message : option str
}.

(** The body is text, a [BlockedResponse] as JSON, empty, or what the upstream server
    sent. *)
Inductive ResponseBody := TextBody (text : str) | JsonBody (response : BlockedResponse) | EmptyBody | UpstreamBody.
Record Response := { status : N; headers : list (str * str); body : ResponseBody }.

Definition text_response (status : N) (body : str) : Response :=
  {| status := status; headers := [(&"content-type", &"text/plain")]; body := TextBody body |}.

Definition json_response (response : BlockedResponse) : Response :=
  {| status := 200; headers := [(&"content-type", &"application/json")]; body := JsonBody response |}.

Definition blocked_text_response (reason : str) : Response :=
  {| status := 403; headers := [(&"content-type", &"text/plain"); (&"x-proxy-error", blocked_header_value reason)];
     body := TextBody (blocked_message reason) |}.

Definition blocked_text_response_with_policy (reason : str) (details : PolicyDecisionDetails) : Response :=
  {| status := 403; headers := [(&"content-type", &"text/plain"); (&"x-proxy-error", blocked_header_value reason)];
     body := TextBody (blocked_message_with_policy reason details) |}.
End runtime.

(** ** The rules on a host *)
Section rules.
Context `{Hglob : !GlobSetLib} `{Hlib : !MitmLib} `{Hmitm : !MitmStateLib} `{Henv : !ProcessEnv} `{Hlaws : !GlobSetLaws}.

(** The matchers of a state are those of the lists in its configuration. *)
Definition lists_compiled (s : ConfigState) : Prop :=
  compile_denylist_globset (default [] (denied_domains (config s))) = Ok (deny_set s) /\
  compile_allowlist_globset (default [] (allowed_domains (config s))) = Ok (allow_set s).

Lemma unscoped_plain n : plain n -> unscoped_ip_literal n = None.
Proof.
  intros H. unfold unscoped_ip_literal. destruct (split_once percent n) as [[a b]|] eqn:E; [|done].
  exfalso. apply split_once_spec in E as [-> _]. apply (plain_no_char _ percent H); set_solver.
Qed.

Lemma host_parse_plain h : plain h -> host_parse h = Some (to_ascii_lowercase h).
Proof.
  intros H. unfold host_parse. rewrite normalize_host_plain by done. apply plain_lower, plain_nonempty in H.
  by destruct (to_ascii_lowercase h).
Qed.

Lemma explicit_allowlisted ps qs n : Forall2 list_pattern ps qs -> plain n ->
  is_explicit_local_allowlisted ps n = true <-> Some (ExactHost n) ∈ qs.
Proof.
  intros H Hn. unfold is_explicit_local_allowlisted. rewrite (unscoped_plain n Hn).
  induction H as [|p q ps qs Hp _ IH]; [simpl; set_solver|]. cbn [existsb].
  rewrite orb_true_iff, IH, elem_of_cons. apply or_iff_compat_r. destruct q as [q|]; simpl in Hp; [|subst p; by vm_compute].
  rewrite (plain_pattern_trim _ _ Hp). destruct Hp as [d Hd|d Hd|d Hd].
  - pose proof (plain_no_char d) as Hc. rewrite (proj2 (str_eqb_neq d (&"*")) (plain_not_star d Hd)).
    assert (forall r, starts_with (star :: r) d = false) as Hs.
    { intros r. apply not_true_iff_false. rewrite starts_with_spec. intros [r' ->]. apply (Hc star Hd); set_solver. }
    change (&"*.") with (star :: &"."). change (&"**.") with (star :: &"*."). rewrite !Hs.
    rewrite !contains_char_none by (apply Hc; [done|set_solver]). cbn [orb].
    rewrite orb_false_r, normalize_host_plain, str_eqb_eq by done. naive_solver.
  - change (&"*." ++ d) with (star :: dot :: d). assert (starts_with (&"*.") (star :: dot :: d) = true) as ->
      by (apply starts_with_spec; by exists d). rewrite orb_true_r. cbn [orb]. naive_solver.
  - change (&"**." ++ d) with (star :: star :: dot :: d). assert (starts_with (&"**.") (star :: star :: dot :: d) = true) as ->
      by (apply starts_with_spec; by exists d). rewrite orb_true_r. naive_solver.
Qed.

Lemma answers_public ans :
  answers_non_public ans = false <-> exists addrs, ans = Some addrs /\ Forall (fun a => is_non_public_ip a = false) addrs.
Proof.
  destruct ans as [addrs|]; simpl; [|naive_solver]. split.
  - intros H. exists addrs. split; [done|]. apply Forall_forall. intros a Ha. by apply existsb_none with (x := a) in H.
  - intros (? & [= <-] & H). rewrite Forall_forall in H. apply not_true_iff_false. rewrite existsb_elem. intros (a & Ha & Hp). by rewrite (H a Ha) in Hp.
Qed.

(** Local networks are off limits unless the settings open them: a name or address of the
    local machine or network passes only when the allow list has it as it is, any other
    name only when its look-up gave public addresses alone. *)
Definition local_rule (s : ConfigState) (ans : option (list IpAddr)) (qa : list (option DomainPattern)) (n : str) : Prop :=
  allow_local_binding (config s) = true \/
  (if is_local_literal n then Some (ExactHost n) ∈ qa
   else parse_ip_addr n = None -> exists addrs, ans = Some addrs /\ Forall (fun a => is_non_public_ip a = false) addrs).

Lemma local_rule_spec s ans qa n :
  plain n -> Forall2 list_pattern (default [] (allowed_domains (config s))) qa ->
  negb (allow_local_binding (config s)) &&
    (if is_local_literal n then negb (is_explicit_local_allowlisted (default [] (allowed_domains (config s))) n)
     else match parse_ip_addr n with Some ip => is_non_public_ip ip | None => answers_non_public ans end) = false <->
  local_rule s ans qa n.
Proof.
  intros Hn Hq. unfold local_rule. rewrite andb_false_iff, negb_false_iff. apply or_iff_compat_l.
  destruct (is_local_literal n) eqn:El; [by rewrite negb_false_iff, (explicit_allowlisted _ _ _ Hq Hn)|].
  destruct (parse_ip_addr n) as [ip|] eqn:Ep; [|rewrite answers_public; naive_solver].
  split; [done|]. intros _. unfold is_local_literal in El. rewrite (unscoped_plain n Hn) in El. simpl in El.
  rewrite Ep in El. by destruct (is_loopback_host n).
Qed.

Lemma list_matches s n qd qa :
  plain n -> to_ascii_lowercase n = n -> lists_compiled s ->
  Forall2 list_pattern (default [] (denied_domains (config s))) qd ->
  Forall2 list_pattern (default [] (allowed_domains (config s))) qa ->
  (globset_matches_host_or_unscoped (deny_set s) n = true <-> Exists (list_host n) qd) /\
  (bool_decide (allowed_domains (config s) <> None) && globset_matches_host_or_unscoped (allow_set s) n = true <->
   Exists (list_host n) qa).
Proof.
  intros Hn Hl [Hd Ha] Hqd Hqa. unfold globset_matches_host_or_unscoped. rewrite (unscoped_plain n Hn), !orb_false_r.
  rewrite (proj2 (compiled_list_meaning _ _ n Hqd Hl) _ (or_introl Hd)). split; [done|].
  rewrite andb_true_iff, (proj2 (compiled_list_meaning _ _ n Hqa Hl) _ (or_intror Ha)), bool_decide_eq_true.
  split; [tauto|]. intros H. split; [|done]. intros E. rewrite E in Hqa. inversion Hqa; subst. by inversion H.
Qed.

(** C17: the decision on a domain name.  In a state whose matchers are those of its lists,
    for lists of plain patterns: a name is denied exactly when a pattern of the deny list
    covers it, whatever else holds; it is allowed exactly when no pattern of the deny list
    and some pattern of the allow list covers it and the rule on local networks is kept;
    it is refused as local exactly when it is not denied and that rule is broken; and it is
    refused as not allowed exactly when no list mentions it and that rule is kept. *)
Theorem host_decision_rules (s : ConfigState) (ans : option (list IpAddr)) (h : str) (qd qa : list (option DomainPattern)) :
  plain h -> lists_compiled s ->
  Forall2 list_pattern (default [] (denied_domains (config s))) qd ->
  Forall2 list_pattern (default [] (allowed_domains (config s))) qa ->
  let n := to_ascii_lowercase h in
  (host_decision s ans h = HostBlocked HostDenied <-> Exists (list_host n) qd) /\
  (host_decision s ans h = HostAllowed <->
     ~ Exists (list_host n) qd /\ local_rule s ans qa n /\ Exists (list_host n) qa) /\
  (host_decision s ans h = HostBlocked HostNotAllowedLocal <-> ~ Exists (list_host n) qd /\ ~ local_rule s ans qa n) /\
  (host_decision s ans h = HostBlocked HostNotAllowed <->
     ~ Exists (list_host n) qd /\ local_rule s ans qa n /\ ~ Exists (list_host n) qa).
Proof.
  intros Hh Hs Hqd Hqa n. pose proof (plain_lower _ Hh) as Hn. fold n in Hn.
  destruct (list_matches s n qd qa Hn (lower_idem h) Hs Hqd Hqa) as [Hd Ha].
  pose proof (local_rule_spec s ans qa n Hn Hqa) as Hl. unfold host_decision. rewrite (host_parse_plain h Hh). fold n.
  destruct (globset_matches_host_or_unscoped (deny_set s) n).
  { pose proof (proj1 Hd eq_refl). naive_solver. }
  assert (~ Exists (list_host n) qd) as Hnd by (intros H%Hd; done).
  destruct (negb (allow_local_binding (config s)) && _).
  { assert (~ local_rule s ans qa n) as Hnl by (intros H%Hl; done). naive_solver. }
  pose proof (proj1 Hl eq_refl). destruct (bool_decide _ && _).
  - pose proof (proj1 Ha eq_refl). naive_solver.
  - assert (~ Exists (list_host n) qa) as Hna by (intros H'%Ha; done). naive_solver.
Qed.
End rules.

Definition demo_state : comp str ConfigState := build_config_state demo_settings no_constraints.

Lemma host_decision_rules_witness :
  exists s, demo_state = Ok s /\
    host_decision s (Some [V4 (Octets 93 184 216 34)]) (&"API.foo.org") = HostAllowed /\
    host_decision s (Some [V4 (Octets 10 0 0 1)]) (&"API.foo.org") = HostBlocked HostNotAllowedLocal /\
    host_decision s None (&"x.evil.org") = HostBlocked HostDenied.
Proof.
  eexists. split; [vm_compute; reflexivity|]. split; [vm_compute; reflexivity|]. split; [vm_compute; reflexivity|].
  match goal with |- host_decision ?s ?a ?h = _ =>
    apply (proj1 (host_decision_rules s a h
      [Some (SubdomainsOnly (to_ascii_lowercase (&"evil.org"))); Some (ExactHost (to_ascii_lowercase (&"bad.foo.org")))]
      [Some (ExactHost (to_ascii_lowercase (&"api.Foo.org")))]
      ltac:(vm_compute; reflexivity) ltac:(split; vm_compute; reflexivity)
      ltac:(constructor; [apply (plain_subdomains (&"evil.org")); vm_compute; reflexivity|];
            constructor; [apply plain_exact; vm_compute; reflexivity|constructor])
      ltac:(constructor; [apply plain_exact; vm_compute; reflexivity|constructor]))) end.
  left. exists (&"x"). split; [discriminate|vm_compute; reflexivity].
Defined.
