(* ===== verification/ProxyTasks.v ===== *)
(** * network-proxy/src/runtime.rs: the tasks that share the state of the proxy

    Every operation of [NetworkProxyState] is a task: between two critical sections
    under the lock on the state, and at every call of the reloader, the resolver, the
    decider and the observer, other tasks may run.  [wp] speaks about one task among any
    others that keep an invariant; [wp_sound] carries it over to a pool of tasks.  Log
    lines and audit events are left out. *)
From stdpp Require Import relations.
From S2P Require Import Prelude RustStr RustPath AbsolutePath PathPrefix Permissions MachineInt IpAddr DomainPolicy ProxyConfig.
From S2P Require Import MitmHooks ProxyState NetworkProxy.

Declare Scope task_scope.
Delimit Scope task_scope with task.
Open Scope task_scope.

Definition MAX_BLOCKED_EVENTS : nat := 200.

Section tasks.
Context `{Hglob : !GlobSetLib} `{Hurl : !UrlHostLib} `{Hlib : !MitmLib} `{Hmitm : !MitmStateLib} `{Henv : !ProcessEnv}.

(** ** Tasks *)

(** What a task waits for: a critical section on the state, or one on the cell with the
    observer (observers are told apart by a number); the reloader; the resolver, with its
    deadline; the decider; an observer; the clock; a connection to an address; and what
    goes out on a route, with the status of the answer: a request with its headers, to the
    server or to an upstream proxy, or to a unix socket, or a tunnel. *)
Inductive Route :=
| RouteUpstream (proxy : option str) (headers : list (str * option str))
| RouteMitm (proxy : option str) (headers : list (str * option str))
| RouteUnixSocket (path : str) (headers : list (str * option str))
| RouteTunnel (proxy : option str)
| RouteTcp.

Inductive call : Type -> Type :=
| Locked {B : Type} (section : ConfigState -> B * ConfigState) : call B
| ObserverCell {B : Type} (section : option N -> B * option N) : call B
| MaybeReload : call (comp str (option ConfigState))
| ReloadNow : call (comp str ConfigState)
| LookupHost (host : str) (port : N) : call (option (list IpAddr))
| Decide (request : NetworkPolicyRequest) : call NetworkDecision
| OnBlockedRequest (observer : N) (entry : BlockedRequest) : call unit
| UnixTimestamp : call Z
| TcpConnect (addr : IpAddr) : call (comp str unit)
| Send (route : Route) : call (option N).

Inductive task (A : Type) : Type :=
| Ret (a : A)
| Call {B : Type} (c : call B) (k : B -> task A).
#[global] Arguments Ret {A} a.
#[global] Arguments Call {A B} c k.

Fixpoint task_bind {A B : Type} (p : task A) (f : A -> task B) : task B :=
  match p with
  | Ret a => f a
  | Call c k => Call c (fun b => task_bind (k b) f)
  end.

(** [?] on a result *)
Definition task_try {E A B : Type} (p : task (comp E A)) (f : A -> task (comp E B)) : task (comp E B) :=
  task_bind p (fun r => match r with Ok a => f a | Err e => Ret (Err e) | Panic => Ret Panic | Loop => Ret Loop end).

Definition await {B : Type} (c : call B) : task B := Call c Ret.
End tasks.

Notation "'let!' x := p 'in' q" := (task_bind p (fun x => q)) (at level 200, x name, p at level 100, q at level 200) : task_scope.
Notation "'let!' ' x := p 'in' q" := (task_bind p (fun y => match y with x => q end))
  (at level 200, x pattern, p at level 100, q at level 200) : task_scope.
Notation "'let!?' x := p 'in' q" := (task_try p (fun x => q)) (at level 200, x name, p at level 100, q at level 200) : task_scope.
Notation "'let!?' ' x := p 'in' q" := (task_try p (fun y => match y with x => q end))
  (at level 200, x pattern, p at level 100, q at level 200) : task_scope.

(** ** The operations of [NetworkProxyState] *)
Section operations.
Context `{Hglob : !GlobSetLib} `{Hurl : !UrlHostLib} `{Hlib : !MitmLib} `{Hmitm : !MitmStateLib} `{Henv : !ProcessEnv}.

(** [state.read()] and [state.write()], each with what is done under the lock *)
Definition read_state {B : Type} (f : ConfigState -> B) : task B := await (Locked (fun s => (f s, s))).
Definition write_state {B : Type} (f : ConfigState -> B * ConfigState) : task B := await (Locked f).

Definition set_blocked_request_observer (observer : option N) : task unit := await (ObserverCell (fun _ => (tt, observer))).

Definition reload_if_needed : task (comp str unit) :=
  let!? reloaded := await MaybeReload in
  match reloaded with
  | None => Ret (Ok tt)
  | Some new_state =>
      let! '(b, total) := read_state (fun guard => (blocked guard, blocked_total guard)) in
      let! _ := write_state (fun _ => (tt, with_blocked b total new_state)) in
      Ret (Ok tt)
  end.

(** The operations that reload and then read *)
Definition read_reloaded {B : Type} (f : ConfigState -> B) : task (comp str B) :=
  let!? _ := reload_if_needed in
  let! b := read_state f in
  Ret (Ok b).

Definition current_cfg : task (comp str NetworkProxySettings) := read_reloaded config.
Definition current_patterns : task (comp str (list str * list str)) :=
  read_reloaded (fun guard => (default [] (allowed_domains (config guard)), default [] (denied_domains (config guard)))).
Definition is_enabled : task (comp str bool) := read_reloaded (fun guard => enabled (config guard)).
Definition method_allowed (method : str) : task (comp str bool) :=
  read_reloaded (fun guard => allows_method (mode (config guard)) method).
Definition get_allow_upstream_proxy : task (comp str bool) := read_reloaded (fun guard => allow_upstream_proxy (config guard)).
Definition get_allow_local_binding : task (comp str bool) := read_reloaded (fun guard => allow_local_binding (config guard)).
Definition network_mode : task (comp str NetworkMode) := read_reloaded (fun guard => mode (config guard)).
Definition get_mitm_state : task (comp str (option MitmState)) := read_reloaded mitm_state.
Definition evaluate_mitm_hook_request (host : str) (req : HookRequest) : task (comp str HookEvaluation) :=
  read_reloaded (fun guard => evaluate_mitm_hooks (state_hooks guard) host req).
Definition host_has_mitm_hooks (host : str) : task (comp str bool) :=
  read_reloaded (fun guard => bool_decide (is_Some (state_hooks guard !! normalize_host host))).
Definition blocked_snapshot : task (comp str (list BlockedRequest)) := read_reloaded blocked.

(** [macos] is [unix_socket_permissions_supported]. *)
Definition is_unix_socket_allowed `{Hfs : !HostFs} (macos : bool) (path : str) : task (comp str bool) :=
  let!? _ := reload_if_needed in
  if negb macos then Ret (Ok false)
  else if negb (is_absolute path) then Ret (Ok false)
  else let! allowed := read_state (fun guard => unix_socket_listed guard path) in Ret (Ok allowed).

Definition force_reload : task (comp str unit) :=
  let!? new_state := await ReloadNow in
  let! _ := write_state (fun guard => (tt, with_blocked (blocked guard) (blocked_total new_state) new_state)) in
  Ret (Ok tt).

Definition replace_config_state (new_state : ConfigState) : task (comp str unit) :=
  let!? _ := reload_if_needed in
  let! _ := write_state (fun guard => (tt, with_blocked (blocked guard) (blocked_total guard) new_state)) in
  Ret (Ok tt).

Definition host_resolves_to_non_public_ip (host : str) (port : N) : task bool :=
  match parse_ip_addr host with
  | Some ip => Ret (is_non_public_ip ip)
  | None => let! answer := await (LookupHost host port) in Ret (answers_non_public answer)
  end.

Definition host_blocked (host : str) (port : N) : task (comp str HostBlockDecision) :=
  let!? _ := reload_if_needed in
  match host_parse host with
  | None => Ret (Ok (HostBlocked HostNotAllowed))
  | Some host =>
      let! '(deny_set, allow_set, allow_local_binding, allowed) := read_state (fun guard =>
        (deny_set guard, allow_set guard, allow_local_binding (config guard), allowed_domains (config guard))) in
      let allowed_domains_empty := bool_decide (allowed = None) in
      let allowed_domains := default [] allowed in
      if globset_matches_host_or_unscoped deny_set host then Ret (Ok (HostBlocked HostDenied))
      else
        let is_allowlisted := globset_matches_host_or_unscoped allow_set host in
        let! local :=
          if allow_local_binding then Ret false
          else if is_local_literal host then Ret (negb (is_explicit_local_allowlisted allowed_domains host))
          else host_resolves_to_non_public_ip host port in
        if local then Ret (Ok (HostBlocked HostNotAllowedLocal))
        else if allowed_domains_empty || negb is_allowlisted then Ret (Ok (HostBlocked HostNotAllowed))
        else Ret (Ok HostAllowed)
  end.

(** [BlockedRequest::new] *)
Definition blocked_request (host reason : str) (client method : option str) (mode : option NetworkMode) (protocol : str)
    (decision source : option str) (port : option N) : task BlockedRequest :=
  let! timestamp := await UnixTimestamp in
  Ret {| blocked_host := host; blocked_reason := reason; blocked_client := client; blocked_method := method;
         blocked_mode := mode; blocked_protocol := protocol; blocked_decision := decision; blocked_source := source;
         blocked_port := port; blocked_timestamp := timestamp |}.

(** [while len > MAX { pop_front }] *)
Definition keep_last (n : nat) {A} (l : list A) : list A := drop (length l - n) l.

Definition push_blocked (entry : BlockedRequest) (guard : ConfigState) : ConfigState :=
  with_blocked (keep_last MAX_BLOCKED_EVENTS (blocked guard ++ [entry])) (sat_add (blocked_total guard) 1) guard.

Definition record_blocked (entry : BlockedRequest) : task (comp str unit) :=
  let!? _ := reload_if_needed in
  let! observer := await (ObserverCell (fun o => (o, o))) in
  let! _ := write_state (fun guard => (tt, push_blocked entry guard)) in
  match observer with
  | Some observer => let! _ := await (OnBlockedRequest observer entry) in Ret (Ok tt)
  | None => Ret (Ok tt)
  end.

Definition drain_blocked : task (comp str (list BlockedRequest)) :=
  let!? _ := reload_if_needed in
  let! taken := write_state (fun guard => (blocked guard, with_blocked [] (blocked_total guard) guard)) in
  Ret (Ok taken).

(** [fuel] bounds the rounds of the retry loops; [Loop] says that it ran out. *)
Fixpoint set_network_mode (fuel : nat) (m : NetworkMode) : task (comp str unit) :=
  match fuel with
  | O => Ret Loop
  | S fuel =>
      let!? _ := reload_if_needed in
      let! '(candidate, cs) := read_state (fun guard => (with_mode m (config guard), constraints guard)) in
      let!? _ := Ret (validate_policy_against_constraints candidate cs) in
      let! written := write_state (fun guard =>
        if bool_decide (constraints guard <> cs) then (false, guard)
        else (true, with_config (with_mode m (config guard)) guard)) in
      if written : bool then Ret (Ok tt) else set_network_mode fuel m
  end.

Inductive DomainListKind := ListAllow | ListDeny.

Definition kind_permission (k : DomainListKind) : NetworkDomainPermission :=
  match k with ListAllow => DomainAllow | ListDeny => DomainDeny end.
Definition kind_entries (k : DomainListKind) (network : NetworkProxySettings) : list str :=
  match k with
  | ListAllow => default [] (allowed_domains network)
  | ListDeny => default [] (denied_domains network)
  end.
Definition kind_opposite_entries (k : DomainListKind) (network : NetworkProxySettings) : list str :=
  match k with
  | ListAllow => default [] (denied_domains network)
  | ListDeny => default [] (allowed_domains network)
  end.

Definition lists_entry (entries : list str) (host : str) : bool := existsb (fun entry => str_eqb (normalize_host entry) host) entries.

Fixpoint update_rounds (fuel : nat) (normalized_host : str) (target : DomainListKind) : task (comp str unit) :=
  match fuel with
  | O => Ret Loop
  | S fuel =>
      let!? _ := reload_if_needed in
      let! '(previous_cfg, cs, b, total) := read_state (fun guard =>
        (config guard, constraints guard, blocked guard, blocked_total guard)) in
      let target_contains := lists_entry (kind_entries target previous_cfg) normalized_host in
      let opposite_contains := lists_entry (kind_opposite_entries target previous_cfg) normalized_host in
      if target_contains && negb opposite_contains then Ret (Ok tt)
      else
        let candidate := upsert_domain_permission normalized_host (kind_permission target) normalize_host previous_cfg in
        let!? _ := Ret (validate_policy_against_constraints candidate cs) in
        let!? new_state := Ret (build_config_state candidate cs) in
        let new_state := with_blocked b total new_state in
        let! written := write_state (fun guard =>
          if bool_decide (constraints guard <> cs) || bool_decide (config guard <> previous_cfg) then (false, guard)
          else (true, new_state)) in
        if written : bool then Ret (Ok tt) else update_rounds fuel normalized_host target
  end.

Definition update_domain_list (fuel : nat) (host : str) (target : DomainListKind) : task (comp str unit) :=
  match host_parse host with
  | None => Ret (Err (&"invalid network host"))
  | Some host => update_rounds fuel host target
  end.
Definition add_allowed_domain (fuel : nat) (host : str) : task (comp str unit) := update_domain_list fuel host ListAllow.
Definition add_denied_domain (fuel : nat) (host : str) : task (comp str unit) := update_domain_list fuel host ListDeny.

(** ** network_policy.rs *)
Definition evaluate_host_policy (decider : bool) (request : NetworkPolicyRequest) : task (comp str NetworkDecision) :=
  let!? host_decision := host_blocked (pr_host request) (pr_port request) in
  match host_decision with
  | HostAllowed => Ret (Ok NetworkAllow)
  | HostBlocked HostNotAllowed =>
      if decider then let! d := await (Decide request) in Ret (Ok (map_decider_decision d))
      else Ret (Ok (deny_with_source (host_block_reason_str HostNotAllowed) SourceBaselinePolicy))
  | HostBlocked reason => Ret (Ok (deny_with_source (host_block_reason_str reason) SourceBaselinePolicy))
  end.

(** ** connect_policy.rs *)
Inductive TargetPolicy := PolicyConfig (allow_local_binding : bool) | PolicyState.

Definition policy_allow_local_binding (p : TargetPolicy) : task (comp str bool) :=
  match p with
  | PolicyConfig allow_local_binding => Ret (Ok allow_local_binding)
  | PolicyState => get_allow_local_binding
  end.

Definition target_connect (policy : TargetPolicy) (addr : IpAddr) : task (comp str unit) :=
  let!? allow_local_binding := policy_allow_local_binding policy in
  if negb allow_local_binding && is_non_public_ip addr then Ret (Err (&"network target rejected by policy"))
  else await (TcpConnect addr).
End operations.

(** ** Reasoning about tasks *)

(** What is kept of a call *)
Section logic.
Context `{Hglob : !GlobSetLib} `{Hurl : !UrlHostLib} `{Hlib : !MitmLib} `{Hmitm : !MitmStateLib} `{Henv : !ProcessEnv}.

Inductive obs :=
| SawState (s s' : ConfigState)
| SawAddresses (host : str) (port : N) (answer : option (list IpAddr))
| SawDecision (request : NetworkPolicyRequest) (decision : NetworkDecision)
| SawConnect (addr : IpAddr)
| SawSend (route : Route)
| SawOther.

(** The decision is the one of the rules, in a state and with addresses that the task
    saw. *)
Definition host_decided (I : ConfigState -> Prop) (tr : list obs) (host : str) (port : N) (d : HostBlockDecision) : Prop :=
  (host_parse host = None /\ d = HostBlocked HostNotAllowed) \/
  exists s ans, SawState s s ∈ tr /\ I s /\
    (forall n, host_parse host = Some n -> needs_lookup s n = true -> SawAddresses n port ans ∈ tr) /\
    host_decision s ans host = d.

(** A request passes when the rules allow its host, or when no list mentions the host and
    the decider says so. *)
Definition host_passes (I : ConfigState -> Prop) (tr : list obs) (decider : bool) (request : NetworkPolicyRequest) : Prop :=
  host_decided I tr (pr_host request) (pr_port request) HostAllowed \/
  (host_decided I tr (pr_host request) (pr_port request) (HostBlocked HostNotAllowed) /\ decider = true /\
   SawDecision request NetworkAllow ∈ tr).

(** What the tasks promise each other: the states that critical sections may meet, the
    states that the reloader may hand out, and what one section may do to the state; and
    what must have been seen before something goes out on a route or a connection to an
    address is opened *)
Record Protocol := {
  inv : ConfigState -> Prop;
  reloadable : ConfigState -> Prop;
  guar : ConfigState -> ConfigState -> Prop;
  may_send : list obs -> Route -> Prop;
  may_connect : list obs -> IpAddr -> Prop;
  guar_refl s : inv s -> guar s s;
  reload_ok s0 s new : inv s0 -> inv s -> reloadable new ->
    inv (with_blocked (blocked s0) (blocked_total s0) new) /\ guar s (with_blocked (blocked s0) (blocked_total s0) new)
}.

Context (P : Protocol).

Definition wp_call {B : Type} (c : call B) (tr : list obs) : (B -> obs -> Prop) -> Prop :=
  match c in call B return (B -> obs -> Prop) -> Prop with
  | Locked f => fun Q => forall s, inv P s -> inv P (f s).2 /\ guar P s (f s).2 /\ Q (f s).1 (SawState s (f s).2)
  | ObserverCell f => fun Q => forall o, Q (f o).1 SawOther
  | MaybeReload => fun Q => forall r, (forall s, r = Ok (Some s) -> reloadable P s) -> Q r SawOther
  | ReloadNow => fun Q => forall r, (forall s, r = Ok s -> reloadable P s) -> Q r SawOther
  | LookupHost host port => fun Q => forall r, Q r (SawAddresses host port r)
  | Decide request => fun Q => forall d, Q d (SawDecision request d)
  | OnBlockedRequest _ _ => fun Q => Q tt SawOther
  | UnixTimestamp => fun Q => forall t, Q t SawOther
  | TcpConnect addr => fun Q => may_connect P tr addr /\ forall r, Q r (SawConnect addr)
  | Send route => fun Q => may_send P tr route /\ forall r, Q r (SawSend route)
  end.

(** The task keeps the protocol whatever it meets, and ends only in [Q]. *)
Fixpoint wp {A : Type} (p : task A) (tr : list obs) (Q : list obs -> A -> Prop) : Prop :=
  match p with
  | Ret a => Q tr a
  | Call c k => wp_call c tr (fun b o => wp (k b) (tr ++ [o]) Q)
  end.

Lemma wp_call_mono {B : Type} (c : call B) tr (Q Q' : B -> obs -> Prop) :
  wp_call c tr Q -> (forall b o, Q b o -> Q' b o) -> wp_call c tr Q'.
Proof.
  destruct c; simpl; intros H HQ; try (intros; apply HQ, H; assumption).
  - intros s Hs. destruct (H s Hs) as (? & ? & ?). eauto.
  - destruct H. eauto.
  - destruct H. eauto.
Qed.

Lemma wp_mono {A : Type} (p : task A) tr (Q Q' : list obs -> A -> Prop) :
  wp p tr Q -> (forall tr' a, Q tr' a -> Q' tr' a) -> wp p tr Q'.
Proof.
  revert tr. induction p as [a|B c k IH]; intros tr H HQ; simpl in *; [by apply HQ|].
  eapply wp_call_mono; [exact H|]. intros b o Hb. eapply IH; [exact Hb|exact HQ].
Qed.

Lemma wp_bind {A B : Type} (p : task A) (f : A -> task B) tr Q :
  wp p tr (fun tr' a => wp (f a) tr' Q) -> wp (task_bind p f) tr Q.
Proof.
  revert tr. induction p as [a|C c k IH]; intros tr H; simpl in *; [done|].
  eapply wp_call_mono; [exact H|]. intros b o Hb. by apply IH.
Qed.

(** The trace of a task only grows. *)
Lemma wp_extends {A : Type} (p : task A) tr Q :
  wp p tr Q -> wp p tr (fun tr' a => tr `prefix_of` tr' /\ Q tr' a).
Proof.
  assert (forall tr0, tr0 `prefix_of` tr -> wp p tr Q -> wp p tr (fun tr' a => tr0 `prefix_of` tr' /\ Q tr' a)) as H; [|by apply H].
  revert tr. induction p as [a|C c k IH]; intros tr tr0 Hp H; simpl in *; [done|].
  eapply wp_call_mono; [exact H|]. intros b o Hb. apply IH; [by apply prefix_app_r|done].
Qed.

(** Only what holds of every longer trace can be wanted of a failure. *)
Lemma wp_try {E A B : Type} (p : task (comp E A)) (f : A -> task (comp E B)) tr Q :
  wp p tr (fun tr' r => match r with Ok a => wp (f a) tr' Q | Err e => Q tr' (Err e) | Panic => Q tr' Panic | Loop => Q tr' Loop end) ->
  wp (task_try p f) tr Q.
Proof. intros H. apply wp_bind. eapply wp_mono; [exact H|]. intros tr' []; done. Qed.

Lemma wp_read_state {B : Type} (f : ConfigState -> B) tr Q :
  (forall s, inv P s -> Q (tr ++ [SawState s s]) (f s)) -> wp (read_state f) tr Q.
Proof. intros H s Hs. simpl. split; [done|]. split; [by apply guar_refl|]. by apply H. Qed.

Lemma wp_write_state {B : Type} (f : ConfigState -> B * ConfigState) tr Q :
  (forall s, inv P s -> inv P (f s).2 /\ guar P s (f s).2 /\ Q (tr ++ [SawState s (f s).2]) (f s).1) -> wp (write_state f) tr Q.
Proof. intros H s Hs. simpl. by apply H. Qed.

Lemma wp_reload tr (Q : list obs -> comp str unit -> Prop) :
  (forall tr' r, Q (tr ++ tr') r) -> wp reload_if_needed tr Q.
Proof.
  intros HQ. unfold reload_if_needed. apply wp_try. intros r Hr.
  destruct r as [[new|]|e| |]; try apply (HQ [SawOther]). apply wp_bind, wp_read_state. intros s0 Hs0.
  apply wp_bind, wp_write_state. intros s Hs. simpl. destruct (reload_ok P s0 s new Hs0 Hs (Hr _ eq_refl)) as [H1 H2].
  split; [done|]. split; [done|]. rewrite <- !app_assoc. apply (HQ [_; _; _]).
Qed.

Lemma wp_read_reloaded {B : Type} (f : ConfigState -> B) tr (Q : list obs -> comp str B -> Prop) :
  (forall tr' s, inv P s -> Q (tr ++ tr' ++ [SawState s s]) (Ok (f s))) ->
  (forall tr' r, (forall b, r <> Ok b) -> Q (tr ++ tr') r) -> wp (read_reloaded f) tr Q.
Proof.
  intros H1 H2. apply wp_try, wp_reload. intros tr' [[]| | |]; try (apply H2; done).
  apply wp_bind, wp_read_state. intros s Hs. simpl. rewrite <- app_assoc. by apply H1.
Qed.

(** The protocol lets a task record a blocked request. *)
Definition pushable : Prop := forall s e, inv P s -> inv P (push_blocked e s) /\ guar P s (push_blocked e s).

Lemma wp_record_blocked entry tr (Q : list obs -> comp str unit -> Prop) :
  pushable -> (forall tr' r, Q (tr ++ tr') r) -> wp (record_blocked entry) tr Q.
Proof.
  intros Hp HQ. apply wp_try, wp_reload. intros tr' [[]| | |]; try apply HQ. apply wp_bind. intros o.
  apply wp_bind, wp_write_state. intros s Hs. destruct (Hp s entry Hs) as [H1 H2]. split; [done|]. split; [done|].
  rewrite <- !app_assoc. destruct o; [|apply HQ]. cbn. rewrite <- !app_assoc. apply HQ.
Qed.

Lemma wp_blocked_request host reason client method m protocol decision source port tr Q :
  (forall e, Q (tr ++ [SawOther]) e) -> wp (blocked_request host reason client method m protocol decision source port) tr Q.
Proof. intros H t. apply H. Qed.

(** ** The decision on a host *)

Lemma host_decided_app I tr tr' host port d : host_decided I tr host port d -> host_decided I (tr ++ tr') host port d.
Proof.
  intros [H|(s & ans & H1 & H2 & H3 & H4)]; [by left|]. right. exists s, ans. split_and!; [set_solver|done| |done].
  intros n Hn Hl. apply elem_of_app. left. by apply H3.
Qed.

Lemma wp_host_blocked host port tr (Q : list obs -> comp str HostBlockDecision -> Prop) :
  (forall tr' d, host_decided (inv P) (tr ++ tr') host port d -> Q (tr ++ tr') (Ok d)) ->
  (forall tr' r, (forall d, r <> Ok d) -> Q (tr ++ tr') r) -> wp (host_blocked host port) tr Q.
Proof.
  intros H1 H2. apply wp_try, wp_reload. intros tr' [[]| | |]; try (apply H2; done).
  destruct (host_parse host) as [n|] eqn:En; [|apply H1; by left].
  apply wp_bind, wp_read_state. intros s Hs. rewrite <- app_assoc.
  assert (forall ans tr2 d, (needs_lookup s n = true -> SawAddresses n port ans ∈ tr2) -> host_decision s ans host = d ->
    Q (tr ++ (tr' ++ [SawState s s]) ++ tr2) (Ok d)) as Hdone.
  { intros ans tr2 d Ha Hd. apply H1. right. exists s, ans. split_and!; [set_solver|done| |done].
    intros n' En' Hn. rewrite En in En'. injection En' as <-. specialize (Ha Hn). set_solver. }
  assert (forall d, needs_lookup s n = false -> host_decision s None host = d -> Q (tr ++ tr' ++ [SawState s s]) (Ok d)) as Hdone0.
  { intros d Ha Hd. specialize (Hdone None [] d). rewrite app_nil_r in Hdone. apply Hdone; [by rewrite Ha|done]. }
  unfold host_decision in Hdone, Hdone0. rewrite En in Hdone, Hdone0. unfold needs_lookup in Hdone, Hdone0.
  set (m := globset_matches_host_or_unscoped (allow_set s) n) in *.
  assert (forall T, Q T (Ok (if bool_decide (allowed_domains (config s) <> None) && m then HostAllowed else HostBlocked HostNotAllowed)) ->
    wp (if bool_decide (allowed_domains (config s) = None) || negb m then Ret (Ok (HostBlocked HostNotAllowed)) else Ret (Ok HostAllowed))
      T Q) as Htail by (intros T; by destruct (allowed_domains (config s)), m).
  destruct (globset_matches_host_or_unscoped (deny_set s) n); [by apply Hdone0|]. apply wp_bind.
  destruct (allow_local_binding (config s)); [|destruct (is_local_literal n) eqn:El].
  - apply Htail. by apply Hdone0.
  - destruct (negb (is_explicit_local_allowlisted (default [] (allowed_domains (config s))) n)) eqn:Ex; [by apply Hdone0|].
    apply Htail. by apply Hdone0.
  - unfold host_resolves_to_non_public_ip. destruct (parse_ip_addr n) as [ip|].
    + destruct (is_non_public_ip ip) eqn:Ex; [by apply Hdone0|]. apply Htail. by apply Hdone0.
    + intros ans. assert (SawAddresses n port ans ∈ [SawAddresses n port ans]) as Hin by set_solver.
      cbn [task_bind wp fst]. destruct (answers_non_public ans) eqn:Ex.
      * cbn [wp]. rewrite <- !app_assoc. rewrite (app_assoc tr'). apply (Hdone ans); [done|]. cbn. by rewrite Ex.
      * apply Htail. rewrite <- !app_assoc. rewrite (app_assoc tr'). apply (Hdone ans); [done|]. cbn. by rewrite Ex.
Qed.

Lemma host_passes_app I tr tr' decider request : host_passes I tr decider request -> host_passes I (tr ++ tr') decider request.
Proof. intros [H|(H & -> & Hd)]; [left; by apply host_decided_app|right; split_and!; [by apply host_decided_app|done|set_solver]]. Qed.

Lemma wp_evaluate_host_policy decider request tr (Q : list obs -> comp str NetworkDecision -> Prop) :
  (forall tr', host_passes (inv P) (tr ++ tr') decider request -> Q (tr ++ tr') (Ok NetworkAllow)) ->
  (forall tr' r, r <> Ok NetworkAllow -> Q (tr ++ tr') r) -> wp (evaluate_host_policy decider request) tr Q.
Proof.
  intros H1 H2. apply wp_try, wp_host_blocked; [|by intros tr' [d| | |] Hr; try (exfalso; by eapply Hr); apply H2].
  intros tr' [|[]] Hd; [apply H1; by left|by apply H2| |by apply H2].
  destruct decider; [|by apply H2]. intros d. cbn. rewrite <- app_assoc. destruct d; [|by apply H2].
  apply H1. right. split_and!; [rewrite app_assoc; by apply host_decided_app|done|set_solver].
Qed.

(** A connection is opened only to an address that is public, unless local networks are
    open: in the settings the task saw, or in those the connector was made with. *)
Definition connect_allowed (policy : TargetPolicy) (tr : list obs) (addr : IpAddr) : Prop :=
  is_non_public_ip addr = false \/ policy = PolicyConfig true \/
  policy = PolicyState /\ exists s, SawState s s ∈ tr /\ allow_local_binding (config s) = true.

Lemma wp_target_connect policy addr tr :
  (forall tr', connect_allowed policy (tr ++ tr') addr -> may_connect P (tr ++ tr') addr) ->
  wp (target_connect policy addr) tr (fun _ _ => True).
Proof.
  intros Hc. assert (forall b tr', (is_non_public_ip addr = false \/ b = true -> connect_allowed policy (tr ++ tr') addr) ->
    wp (if negb b && is_non_public_ip addr then Ret (Err (&"network target rejected by policy")) else await (TcpConnect addr))
      (tr ++ tr') (fun _ _ => True)) as H.
  { intros b tr' H. destruct b, (is_non_public_ip addr) eqn:E; simpl; try (split; [apply Hc, H|]; by auto). done. }
  apply wp_try. destruct policy as [b|].
  - specialize (H b []). rewrite app_nil_r in H. apply H. intros Hb. destruct Hb as [| ->]; [by left|by right; left].
  - apply wp_read_reloaded.
    + intros tr' s Hs. apply (H (allow_local_binding (config s)) (tr' ++ [SawState s s])).
      intros [|Hb]; [by left|]. right. right. split; [done|]. exists s. split; [set_solver|done].
    + intros tr' [a| | |] Hr; [exfalso; by eapply Hr|done..].
Qed.

(** ** Pools of tasks *)

(** The shared cells: the state and the observer *)
Definition shared : Type := ConfigState * option N.

(** What a call may answer, and what it does to the cells *)
Definition run_call {B : Type} (c : call B) : shared -> B -> shared -> Prop :=
  match c in call B return shared -> B -> shared -> Prop with
  | Locked f => fun sh b sh' => (b, sh'.1) = f sh.1 /\ sh'.2 = sh.2
  | ObserverCell f => fun sh b sh' => (b, sh'.2) = f sh.2 /\ sh'.1 = sh.1
  | MaybeReload => fun sh b sh' => sh' = sh /\ forall s, b = Ok (Some s) -> reloadable P s
  | ReloadNow => fun sh b sh' => sh' = sh /\ forall s, b = Ok s -> reloadable P s
  | LookupHost _ _ | Decide _ | OnBlockedRequest _ _ | UnixTimestamp | TcpConnect _ | Send _ => fun sh b sh' => sh' = sh
  end.

(** One task of the pool takes its next call. *)
Inductive pool_step : list (task unit) * shared -> list (task unit) * shared -> Prop :=
| pool_call B (c : call B) k b ps i sh sh' :
    ps !! i = Some (Call c k) -> run_call c sh b sh' -> pool_step (ps, sh) (<[i := k b]> ps, sh').

Definition keeps (p : task unit) : Prop := exists tr, wp p tr (fun _ _ => True).

Lemma wp_run {B : Type} (c : call B) tr (Q : B -> obs -> Prop) sh b sh' :
  wp_call c tr Q -> run_call c sh b sh' -> inv P sh.1 ->
  inv P sh'.1 /\ (sh'.1 = sh.1 \/ guar P sh.1 sh'.1) /\ exists o, Q b o.
Proof.
  assert (forall (Q' : obs -> Prop) o, sh' = sh -> Q' o ->
    inv P sh.1 -> inv P sh'.1 /\ (sh'.1 = sh.1 \/ guar P sh.1 sh'.1) /\ exists o, Q' o) as Hsame by (intros Q' o ->; eauto).
  destruct c; simpl; intros H Hr Hi.
  - destruct Hr as [Hf _]. destruct (H _ Hi) as (H1 & H2 & H3). rewrite <- Hf in H1, H2, H3. simpl in *. split_and!; eauto.
  - destruct Hr as [Hf Hs]. specialize (H sh.2). rewrite <- Hf in H. rewrite Hs. split_and!; eauto.
  - destruct Hr as [E Hr]. eapply Hsame; eauto.
  - destruct Hr as [E Hr]. eapply Hsame; eauto.
  - eapply Hsame; eauto.
  - eapply Hsame; eauto.
  - destruct b. eapply Hsame; eauto.
  - eapply Hsame; eauto.
  - destruct H. eapply Hsame; eauto.
  - destruct H. eapply Hsame; eauto.
Qed.

Lemma pool_step_keeps ps sh ps' sh' :
  pool_step (ps, sh) (ps', sh') -> Forall keeps ps -> inv P sh.1 ->
  Forall keeps ps' /\ inv P sh'.1 /\ (sh'.1 = sh.1 \/ guar P sh.1 sh'.1).
Proof.
  intros H Hk Hi. inversion H as [B c k b qs i sh1 sh2 Hlook Hr E1 E2]; subst.
  pose proof (proj1 (Forall_lookup _ _) Hk i _ Hlook) as [tr Hw]. simpl in Hw.
  destruct (wp_run c _ _ sh b sh' Hw Hr Hi) as (H1 & H2 & o & H3). split_and!; [|done|done].
  apply Forall_insert; [done|]. by exists (tr ++ [o]).
Qed.

(** Tasks that keep the protocol keep its invariant in every interleaving, and each step
    of the pool is one that the protocol allows. *)
Lemma wp_sound ps sh ps' sh' :
  Forall keeps ps -> inv P sh.1 -> rtc pool_step (ps, sh) (ps', sh') ->
  inv P sh'.1 /\ forall ps2 sh2, pool_step (ps', sh') (ps2, sh2) -> sh2.1 = sh'.1 \/ guar P sh'.1 sh2.1.
Proof.
  intros Hk Hi Hr. assert (Forall keeps ps' /\ inv P sh'.1) as [Hk' Hi'].
  { remember (ps, sh) as x eqn:Ex. remember (ps', sh') as y eqn:Ey. revert ps sh Ex Hk Hi.
    induction Hr as [x|x [ps1 sh1] y Hs Hr IH]; intros ps sh -> Hk Hi; [by injection Ey as <- <-|].
    destruct (pool_step_keeps _ _ _ _ Hs Hk Hi) as (H1 & H2 & _). by apply (IH Ey ps1 sh1). }
  split; [done|]. intros ps2 sh2 Hs. by destruct (pool_step_keeps _ _ _ _ Hs Hk' Hi') as (_ & _ & ?).
Qed.
End logic.

(** ** The invariant of the state *)
Section invariant.
Context `{Hglob : !GlobSetLib} `{Hurl : !UrlHostLib} `{Hlib : !MitmLib} `{Hmitm : !MitmStateLib} `{Henv : !ProcessEnv}.

(** The settings in force passed validation against the constraints in force, the matchers
    and hooks are those of the settings, interception is there exactly when the settings
    ask for it, and the buffer of blocked requests keeps its bound. *)
Record state_ok (s : ConfigState) : Prop := {
  ok_valid : validate_policy_against_constraints (config s) (constraints s) = Ok tt;
  ok_lists : lists_compiled s;
  ok_hooks : compile_mitm_hooks (config s) = Ok (state_hooks s);
  ok_mitm : is_Some (mitm_state s) <-> mitm (config s) = true;
  ok_blocked : length (blocked s) <= MAX_BLOCKED_EVENTS;
  ok_total : (blocked_total s <= usize_max)%N
}.

Lemma build_config_state_ok cfg cs s :
  validate_policy_against_constraints cfg cs = Ok tt -> build_config_state cfg cs = Ok s ->
  state_ok s /\ config s = cfg /\ constraints s = cs.
Proof.
  intros Hv H. unfold build_config_state in H. apply comp_bind_Ok in H as ([] & _ & H). apply comp_bind_Ok in H as ([] & _ & H).
  apply comp_bind_Ok in H as (deny & Hd & H). apply comp_bind_Ok in H as (allow & Ha & H).
  apply comp_bind_Ok in H as (hooks & Hh & H). apply comp_bind_Ok in H as (st & Hm & [= <-]).
  split; [|done]. split; simpl; try done; [|unfold MAX_BLOCKED_EVENTS; lia].
  destruct (mitm cfg); [|by injection Hm as <-; split; [intros []|]].
  destruct (mitm_state_new _ _); [|done]. injection Hm as <-. by split; [|eexists].
Qed.

Lemma with_blocked_ok b total s : state_ok s -> length b <= MAX_BLOCKED_EVENTS -> (total <= usize_max)%N -> state_ok (with_blocked b total s).
Proof. intros [] Hb Ht. split; try done. Qed.

Lemma push_blocked_ok e s : state_ok s -> state_ok (push_blocked e s).
Proof.
  intros H. apply with_blocked_ok; [done| |unfold sat_add; lia]. unfold keep_last. rewrite length_drop. lia.
Qed.

Lemma validate_with_mode m c1 c2 cs :
  validate_policy_against_constraints (with_mode m c1) cs = Ok tt -> validate_policy_against_constraints c2 cs = Ok tt ->
  validate_policy_against_constraints (with_mode m c2) cs = Ok tt.
Proof.
  unfold validate_policy_against_constraints. intros H1 H2.
  apply comp_bind_Ok in H1 as ([] & _ & H1). apply comp_bind_Ok in H1 as ([] & _ & H1).
  apply comp_bind_Ok in H1 as ([] & _ & H1). apply comp_bind_Ok in H1 as ([] & Hm & _).
  apply comp_bind_Ok in H2 as ([] & E1 & H2). apply comp_bind_Ok in H2 as ([] & E2 & H2).
  apply comp_bind_Ok in H2 as ([] & E3 & H2). apply comp_bind_Ok in H2 as ([] & _ & H2).
  change (validate_mitm_hook_config (with_mode m c2)) with (validate_mitm_hook_config c2). rewrite E1. cbn [comp_bind].
  change (denied_domains (with_mode m c2)) with (denied_domains c2). rewrite E2. cbn [comp_bind].
  change (enabled (with_mode m c2)) with (enabled c2). rewrite E3. cbn [comp_bind].
  change (mode (with_mode m c2)) with (mode (with_mode m c1)). rewrite Hm. exact H2.
Qed.

Lemma with_mode_ok m c1 s : state_ok s -> validate_policy_against_constraints (with_mode m c1) (constraints s) = Ok tt ->
  state_ok (with_config (with_mode m (config s)) s).
Proof. intros H Hv. destruct H. split; try done. simpl. by eapply validate_with_mode. Qed.

Program Definition policed (S : list obs -> Route -> Prop) (C : list obs -> IpAddr -> Prop) : Protocol :=
  {| inv := state_ok; reloadable := state_ok; guar _ _ := True; may_send := S; may_connect := C |}.
Next Obligation. done. Qed.
Next Obligation. intros S C s0 s new [] _ H. split; [by apply with_blocked_ok|done]. Qed.

Definition ok_protocol : Protocol := policed (fun _ _ => True) (fun _ _ => True).

Lemma ok_pushable S C : pushable (policed S C).
Proof. intros s e H. split; [by apply push_blocked_ok|done]. Qed.

(** *** Every operation keeps the invariant *)

Lemma wp_true_keeps {A : Type} (p : task A) tr : wp ok_protocol p tr (fun _ _ => True) -> wp ok_protocol (let! _ := p in Ret tt) tr (fun _ _ => True).
Proof. intros H. by apply wp_bind. Qed.

Lemma force_reload_keeps tr : wp ok_protocol force_reload tr (fun _ _ => True).
Proof.
  apply wp_try. intros r Hr. destruct r as [new| | |]; try done. apply wp_bind, wp_write_state. intros s Hs.
  split; [|done]. pose proof (Hr _ eq_refl) as Hn. apply with_blocked_ok; [exact Hn|by destruct Hs|by destruct Hn].
Qed.

Lemma replace_config_state_keeps new tr : state_ok new -> wp ok_protocol (replace_config_state new) tr (fun _ _ => True).
Proof.
  intros Hn. apply wp_try, wp_reload. intros tr' [[]| | |]; try done. apply wp_bind, wp_write_state. intros s [].
  split; [by apply with_blocked_ok|done].
Qed.

Lemma drain_blocked_keeps tr : wp ok_protocol drain_blocked tr (fun _ _ => True).
Proof.
  apply wp_try, wp_reload. intros tr' [[]| | |]; try done. apply wp_bind, wp_write_state. intros s Hs.
  split; [|done]. apply with_blocked_ok; [done|simpl; lia|by destruct Hs].
Qed.

Lemma set_network_mode_keeps fuel m tr : wp ok_protocol (set_network_mode fuel m) tr (fun _ _ => True).
Proof.
  revert tr. induction fuel as [|fuel IH]; intros tr; [done|]. cbn [set_network_mode].
  apply wp_try, wp_reload. intros tr' [[]| | |]; try done. apply wp_bind, wp_read_state. intros s0 Hs0.
  apply wp_try. destruct (validate_policy_against_constraints _ _) as [[]| | |] eqn:Ev; try done.
  apply wp_bind, wp_write_state. intros s Hs. destruct (bool_decide _) eqn:Ed; simpl.
  - split; [done|]. split; [done|]. apply IH.
  - apply bool_decide_eq_false, dec_stable in Ed. split; [|done]. eapply with_mode_ok; [done|]. by rewrite Ed.
Qed.

Lemma read_reloaded_keeps {B : Type} (f : ConfigState -> B) tr : wp ok_protocol (read_reloaded f) tr (fun _ _ => True).
Proof. by apply wp_read_reloaded. Qed.

Lemma is_unix_socket_allowed_keeps `{Hfs : !HostFs} macos path tr : wp ok_protocol (is_unix_socket_allowed macos path) tr (fun _ _ => True).
Proof.
  apply wp_try, wp_reload. intros tr' [[]| | |]; try done. destruct (negb macos); [done|]. destruct (negb (is_absolute path)); [done|].
  apply wp_bind. by apply wp_read_state.
Qed.

(** ** One more entry of a list *)

(** What one critical section of [update_domain_list] may do: nothing; put a freshly loaded
    state in place; or put in place the state of the settings in force with this one entry
    set, under the same constraints *)
Definition update_guar (n : str) (target : DomainListKind) (s s' : ConfigState) : Prop :=
  s' = s \/
  (exists b total new, state_ok new /\ s' = with_blocked b total new) \/
  (config s' = upsert_domain_permission n (kind_permission target) normalize_host (config s) /\ constraints s' = constraints s).

Program Definition update_protocol (n : str) (target : DomainListKind) : Protocol :=
  {| inv := state_ok; reloadable := state_ok; guar := update_guar n target; may_send _ _ := False; may_connect _ _ := False |}.
Next Obligation. intros n target s _. by left. Qed.
Next Obligation. intros n target s0 s new [] _ H. split; [by apply with_blocked_ok|]. right. left. eauto. Qed.

(** The entry is in force at the end of a task that succeeds. *)
Definition entry_in_force (n : str) (target : DomainListKind) (tr : list obs) : Prop :=
  exists tr0 s s', tr = tr0 ++ [SawState s s'] /\
    ((s' = s /\ lists_entry (kind_entries target (config s)) n = true /\
      lists_entry (kind_opposite_entries target (config s)) n = false) \/
     (config s' = upsert_domain_permission n (kind_permission target) normalize_host (config s) /\
      n ∈ kind_entries target (config s') /\ n ∉ kind_opposite_entries target (config s'))).

Lemma upsert_in_force n target c :
  let c' := upsert_domain_permission n (kind_permission target) normalize_host c in
  n ∈ kind_entries target c' /\ n ∉ kind_opposite_entries target c'.
Proof.
  intros c'. assert (forall perm, listed (domain_entries c' perm) n <-> n = n /\ perm = kind_permission target) as H.
  { intros perm. unfold c'. rewrite upsert_listed. by rewrite bool_decide_true. }
  unfold listed in H. destruct target; unfold kind_entries, kind_opposite_entries, allowed_domains, denied_domains; rewrite !H; by split; [|intros []].
Qed.

Lemma wp_update_rounds fuel n target tr :
  wp (update_protocol n target) (update_rounds fuel n target) tr (fun tr' r => r = Ok tt -> entry_in_force n target tr').
Proof.
  revert tr. induction fuel as [|fuel IH]; intros tr; [done|]. cbn [update_rounds].
  apply wp_try, wp_reload. intros tr1 [[]| | |]; try done. apply wp_bind, wp_read_state. intros s0 Hs0.
  destruct (lists_entry (kind_entries target _) n && _) eqn:El.
  { intros _. apply andb_true_iff in El as [E1 E2%negb_true_iff]. exists (tr ++ tr1), s0, s0. split; [done|]. left. done. }
  set (candidate := upsert_domain_permission _ _ _ _). apply wp_try.
  destruct (validate_policy_against_constraints candidate (constraints s0)) as [[]| | |] eqn:Ev; try done.
  apply wp_try. destruct (build_config_state candidate (constraints s0)) as [s1| | |] eqn:Eb; try done.
  destruct (build_config_state_ok _ _ _ Ev Eb) as (Hok & Ec & Ecs). apply wp_bind, wp_write_state. intros s Hs.
  destruct (bool_decide _ || bool_decide _) eqn:Ed; simpl.
  - split; [done|]. split; [by left|]. apply IH.
  - apply orb_false_iff in Ed as [E1%bool_decide_eq_false%dec_stable E2%bool_decide_eq_false%dec_stable].
    assert (config (with_blocked (blocked s0) (blocked_total s0) s1) = upsert_domain_permission n (kind_permission target) normalize_host (config s))
      as Hc by (simpl; rewrite Ec, E2; done).
    split; [by apply with_blocked_ok; destruct Hs0|]. split; [right; right; split; [done|simpl; congruence]|].
    intros _. eexists _, _, _. split; [done|]. right. rewrite Hc. split; [done|]. apply upsert_in_force.
Qed.

Lemma update_domain_list_keeps fuel host target tr : wp ok_protocol (update_domain_list fuel host target) tr (fun _ _ => True).
Proof.
  unfold update_domain_list. destruct (host_parse host) as [n|]; [|done].
  assert (forall A (p : task A) tr Q, wp (update_protocol n target) p tr Q -> wp ok_protocol p tr (fun _ _ => True)) as H.
  { intros A p. induction p as [a|B c k IH]; intros tr' Q Hw; [done|]. simpl in Hw |- *.
    destruct c; simpl in *; try (intros; eapply IH, Hw; eauto; done); [|by destruct Hw..].
    intros s Hs. destruct (Hw s Hs) as (? & _ & ?). eauto. }
  eapply H, wp_update_rounds.
Qed.

(** Entries are added to the lists atomically, whatever other tasks do meanwhile.
    Every critical section of the task does nothing, puts a freshly loaded state in place,
    or puts in place a consistent state of the settings in force at that moment with just
    this entry set, under the same constraints: no change made by another task to the
    settings is undone.  The task fails on a name that is no host; when it succeeds its
    last section found the entry in force or set it, and the host is then listed, and not
    on the opposite list. *)
Theorem domain_updates_atomic (fuel : nat) (host : str) (target : DomainListKind) (tr : list obs) :
  match host_parse host with
  | None => update_domain_list fuel host target = Ret (Err (&"invalid network host"))
  | Some n => wp (update_protocol n target) (update_domain_list fuel host target) tr (fun tr' r => r = Ok tt -> entry_in_force n target tr')
  end.
Proof. unfold update_domain_list. destruct (host_parse host); [apply wp_update_rounds|done]. Qed.

End invariant.

(** ** Running tasks *)
Section running.
Context `{Hglob : !GlobSetLib} `{Hurl : !UrlHostLib} `{Hlib : !MitmLib} `{Hmitm : !MitmStateLib} `{Henv : !ProcessEnv}.

(** The outside of the proxy, answering always the same *)
Record World := {
  w_reload : comp str (option ConfigState);
  w_reload_now : comp str ConfigState;
  w_lookup : str -> N -> option (list IpAddr);
  w_decide : NetworkPolicyRequest -> NetworkDecision;
  w_clock : Z;
  w_connect : IpAddr -> comp str unit;
  w_send : Route -> option N
}.

Definition answer {B : Type} (w : World) (c : call B) : shared -> B * shared :=
  match c in call B return shared -> B * shared with
  | Locked f => fun sh => let '(b, s) := f sh.1 in (b, (s, sh.2))
  | ObserverCell f => fun sh => let '(b, o) := f sh.2 in (b, (sh.1, o))
  | MaybeReload => fun sh => (w_reload w, sh)
  | ReloadNow => fun sh => (w_reload_now w, sh)
  | LookupHost host port => fun sh => (w_lookup w host port, sh)
  | Decide request => fun sh => (w_decide w request, sh)
  | OnBlockedRequest _ _ => fun sh => (tt, sh)
  | UnixTimestamp => fun sh => (w_clock w, sh)
  | TcpConnect addr => fun sh => (w_connect w addr, sh)
  | Send route => fun sh => (w_send w route, sh)
  end.

(** A task with nobody else around *)
Fixpoint alone {A : Type} (w : World) (p : task A) (sh : shared) : A * shared :=
  match p with
  | Ret a => (a, sh)
  | Call c k => let '(b, sh') := answer w c sh in alone w (k b) sh'
  end.

(** The tasks of a pool in a given order *)
Definition step_task (w : World) (p : task unit) (sh : shared) : task unit * shared :=
  match p with
  | Ret a => (Ret a, sh)
  | Call c k => let '(b, sh') := answer w c sh in (k b, sh')
  end.

Fixpoint schedule (w : World) (order : list nat) (ps : list (task unit)) (sh : shared) : list (task unit) * shared :=
  match order with
  | [] => (ps, sh)
  | i :: order =>
      match ps !! i with
      | Some p => let '(p', sh') := step_task w p sh in schedule w order (<[i := p']> ps) sh'
      | None => schedule w order ps sh
      end
  end.

Lemma alone_bind {A B : Type} w (p : task A) (f : A -> task B) sh :
  alone w (task_bind p f) sh = let '(a, sh') := alone w p sh in alone w (f a) sh'.
Proof. revert sh. induction p as [a|C c k IH]; intros sh; simpl; [done|]. by destruct (answer w c sh). Qed.

(** The outside keeps the protocol. *)
Definition world_ok (P : Protocol) (w : World) : Prop :=
  (forall s, w_reload w = Ok (Some s) -> reloadable P s) /\ (forall s, w_reload_now w = Ok s -> reloadable P s).

Lemma answer_run {B : Type} P w (c : call B) sh b sh' : world_ok P w -> answer w c sh = (b, sh') -> run_call P c sh b sh'.
Proof.
  intros [H1 H2] E. destruct c as [B f|B f| | | | | | | |]; simpl in *; try (injection E as <- <-; by eauto).
  - destruct (f sh.1) as [b' s'] eqn:Ef. injection E as <- <-. done.
  - destruct (f sh.2) as [b' s'] eqn:Ef. injection E as <- <-. done.
Qed.

Lemma schedule_pool P w order ps sh :
  world_ok P w -> rtc (pool_step P) (ps, sh) (schedule w order ps sh).
Proof.
  intros Hw. revert ps sh. induction order as [|i order IH]; intros ps sh; [done|]. cbn [schedule].
  destruct (ps !! i) as [p|] eqn:Ei; [|apply IH]. destruct p as [[]|B c k]; simpl.
  - rewrite list_insert_id by done. apply IH.
  - destruct (answer w c sh) as [b sh'] eqn:Ea. eapply rtc_l; [|apply IH]. econstructor; [done|]. by eapply answer_run.
Qed.
End running.

Section progress.
Context `{Hglob : !GlobSetLib} `{Hurl : !UrlHostLib} `{Hlib : !MitmLib} `{Hmitm : !MitmStateLib} `{Henv : !ProcessEnv}.

Lemma alone_reload w sh : w_reload w = Ok None -> alone w reload_if_needed sh = (Ok tt, sh).
Proof. intros H. unfold reload_if_needed, task_try. cbn. by rewrite H. Qed.

Lemma alone_try {E A B : Type} w (p : task (comp E A)) (f : A -> task (comp E B)) sh :
  alone w (task_try p f) sh =
  let '(r, sh') := alone w p sh in
  match r with Ok a => alone w (f a) sh' | Err e => (Err e, sh') | Panic => (Panic, sh') | Loop => (Loop, sh') end.
Proof. unfold task_try. rewrite alone_bind. by destruct (alone w p sh) as [[]]. Qed.

Lemma alone_reloaded {B : Type} w (f : unit -> task (comp str B)) sh :
  w_reload w = Ok None -> alone w (task_try reload_if_needed f) sh = alone w (f tt) sh.
Proof. intros H. by rewrite alone_try, alone_reload. Qed.

(** The retry loops end.  When the configuration on disk does not change and no other
    task intervenes, one round is enough: a change of the mode is made exactly when the
    settings with it pass validation, and a change of a list exactly when the entry is not
    yet in force and the settings with it pass validation and compile; otherwise the state
    stays as it is and the error of the validation or compilation is returned.  The
    buffer of blocked requests is kept. *)
Theorem retry_loops_end (w : World) (fuel : nat) (s : ConfigState) (o : option N) (m : NetworkMode) (n : str) (target : DomainListKind) :
  w_reload w = Ok None ->
  alone w (set_network_mode (S fuel) m) (s, o) =
    match validate_policy_against_constraints (with_mode m (config s)) (constraints s) with
    | Ok _ => (Ok tt, (with_config (with_mode m (config s)) s, o))
    | e => (e, (s, o))
    end /\
  let candidate := upsert_domain_permission n (kind_permission target) normalize_host (config s) in
  alone w (update_rounds (S fuel) n target) (s, o) =
    if lists_entry (kind_entries target (config s)) n && negb (lists_entry (kind_opposite_entries target (config s)) n)
    then (Ok tt, (s, o))
    else
      match (let? _ := validate_policy_against_constraints candidate (constraints s) in build_config_state candidate (constraints s)) with
      | Ok new => (Ok tt, (with_blocked (blocked s) (blocked_total s) new, o))
      | e => (comp_bind e (fun _ => Ok tt), (s, o))
      end.
Proof.
  intros Hw. split.
  - cbn [set_network_mode]. rewrite alone_reloaded by done. rewrite alone_bind. cbn [alone read_state await answer fst snd].
    rewrite alone_try. cbn [alone]. destruct (validate_policy_against_constraints _ _) as [[]| | |]; try done.
    rewrite alone_bind. cbn [alone write_state await answer fst snd]. by rewrite bool_decide_false by (intros H; by apply H).
  - intros candidate. cbn [update_rounds]. rewrite alone_reloaded by done. rewrite alone_bind. cbn [alone read_state await answer fst snd].
    destruct (_ && _); [done|]. fold candidate. rewrite alone_try. cbn [alone].
    destruct (validate_policy_against_constraints _ _) as [[]| | |]; try done. cbn [comp_bind].
    rewrite alone_try. cbn [alone]. destruct (build_config_state _ _) as [new| | |]; try done.
    rewrite alone_bind. cbn [alone write_state await answer fst snd].
    by rewrite !bool_decide_false by (intros H; by apply H).
Qed.
End progress.

(** *** Examples, and what interleavings can lose *)

Definition demo_world : World := {|
  w_reload := Ok None;
  w_reload_now := build_config_state demo_settings no_constraints;
  w_lookup _ _ := Some [V4 (Octets 93 184 216 34)];
  w_decide _ := NetworkAllow;
  w_clock := 0;
  w_connect _ := Ok tt;
  w_send _ := Some 200%N
|}.

Lemma retry_loops_end_witness :
  exists s s' : ConfigState, demo_state = Ok s /\
    alone demo_world (update_rounds 1 (&"x.org") ListDeny) (s, None) = (Ok tt, (s', None)) /\
    denied_domains (config s') = Some [&"*.evil.org"; &"bad.foo.org"; &"x.org"] /\
    alone demo_world (set_network_mode 1 Limited) (s, None) = (Ok tt, (with_config (with_mode Limited (config s)) s, None)).
Proof.
  eexists _, _. split; [vm_compute; reflexivity|].
  match goal with |- alone _ _ (?s, _) = _ /\ _ =>
    destruct (retry_loops_end demo_world 0 s None Limited (&"x.org") ListDeny eq_refl) as [H1 H2] end.
  cbv zeta in H2. rewrite H1, H2. split; [vm_compute; reflexivity|]. split; vm_compute; reflexivity.
Defined.

Definition demo_blocked : BlockedRequest := {|
  blocked_host := &"evil.org"; blocked_reason := REASON_DENIED; blocked_client := None; blocked_method := None;
  blocked_mode := None; blocked_protocol := &"http"; blocked_decision := None; blocked_source := None; blocked_port := None;
  blocked_timestamp := 0 |}.

(** A request that is blocked while an entry is being added to a list is lost: the new
    state carries the buffer read before. *)
Lemma update_loses_blocked_request :
  exists s s' ps, demo_state = Ok s /\
    schedule demo_world [1; 1; 0; 0; 0; 1]
      [(let! _ := record_blocked demo_blocked in Ret tt); (let! _ := update_domain_list 1 (&"x.org") ListDeny in Ret tt)] (s, None)
      = (ps, (s', None)) /\
    ps = [Ret tt; Ret tt] /\ blocked s' = [] /\ blocked_total s' = 0%N.
Proof.
  eexists _, _, _. split; [vm_compute; reflexivity|]. split; [vm_compute; reflexivity|]. split_and!; reflexivity.
Qed.

(** A forced reload keeps the buffer and starts the count anew. *)
Lemma force_reload_resets_total :
  exists s s', demo_state = Ok s /\
    alone demo_world force_reload (push_blocked demo_blocked s, None) = (Ok tt, (s', None)) /\
    blocked s' = [demo_blocked] /\ blocked_total s' = 0%N.
Proof.
  eexists _, _. split; [vm_compute; reflexivity|]. split; [vm_compute; reflexivity|]. split; reflexivity.
Qed.

(** A local address that the allow list names passes the rules, and the connector refuses
    it all the same. *)
Lemma listed_local_address_refused :
  exists s, build_config_state (set_allowed_domains [&"127.0.0.1"] default_settings) no_constraints = Ok s /\
    (alone demo_world (host_blocked (&"127.0.0.1") 80) (s, None)).1 = Ok HostAllowed /\
    (alone demo_world (target_connect PolicyState (V4 (Octets 127 0 0 1))) (s, None)).1 = Err (&"network target rejected by policy").
Proof. eexists. split; [vm_compute; reflexivity|]. split; vm_compute; reflexivity. Qed.
