(* ===== verification/ProxyHandlers.v ===== *)
(** * network-proxy/src/http_proxy.rs, mitm.rs, socks5.rs, upstream.rs: requests

    The handlers of the proxy as tasks over the shared state.  The application state is
    always among the extensions of a request, since the listeners put it there.  Of an
    outgoing request the route and the headers are modelled, of its answer the status. *)
From S2P Require Import Prelude RustStr RustPath AbsolutePath PathPrefix Permissions MachineInt IpAddr DomainPolicy ProxyConfig.
From S2P Require Import MitmHooks ProxyState NetworkProxy ProxyTasks.

(** ** Requests *)

(** The parts that hooks look at, the scheme and the authority of the target when it is
    written in absolute form, and the peer *)
Record Request := {
  parts : HookRequest;
  uri_scheme : option str;
  uri_authority : option str;
  client_addr : option str
}.

(** The crate [rama]: hosts, the target of a request, the [Host] header, targets as text,
    and addresses of upstream proxies with whether they are to be spoken to in HTTP *)
Class RamaLib := {
  RamaHost : Type;
  host_to_string : RamaHost -> str;
  rama_host_eqb : RamaHost -> RamaHost -> bool;
  ctx_host : Request -> option RamaHost;
  ctx_authority_port : Request -> option N;
  ctx_port : Request -> N;
  ctx_has_default_port : Request -> bool;
  ctx_is_secure : Request -> bool;
  typed_host : Request -> option (option (RamaHost * option N));
  uri_path_and_query : Request -> option str;
  uri_parses : str -> bool;
  proxy_address : str -> option bool
}.

Definition req_header (name : str) (headers : list (str * option str)) : option (option str) :=
  snd <$> List.find (fun h => str_eqb h.1 name) headers.

Section handlers.
Context `{Hglob : !GlobSetLib} `{Hurl : !UrlHostLib} `{Hlib : !MitmLib} `{Hmitm : !MitmStateLib} `{Henv : !ProcessEnv}.
Context `{Hrama : !RamaLib} `{Hfs : !HostFs}.

Definition method (req : Request) : str := req_method (parts req).

(** [internal_error] *)
Definition or_internal {A : Type} (p : task (comp str A)) : task (comp Response A) :=
  let! r := p in Ret (comp_map_err (fun _ => text_response 500 (&"error")) r).

(** [let _ = app_state.record_blocked(BlockedRequest::new(..)).await] *)
Definition note_blocked (host reason : str) (client method : option str) (mode : option NetworkMode) (protocol : str)
    (details : option PolicyDecisionDetails) (port : N) : task unit :=
  let! entry := blocked_request host reason client method mode protocol
    ((fun d => verdict_str (d_decision d)) <$> details) ((fun d => source_str (d_source d)) <$> details) (Some port) in
  let! _ := record_blocked entry in Ret tt.

Definition json_blocked (host reason : str) (details : option PolicyDecisionDetails) : Response :=
  let response := {| br_status := &"blocked"; br_host := host; br_reason := reason;
    br_decision := (fun d => verdict_str (d_decision d)) <$> details;
    br_source := (fun d => source_str (d_source d)) <$> details;
    br_protocol := (fun d => as_policy_protocol (d_protocol d)) <$> details;
    br_port := d_port <$> details;
    br_message := blocked_message_with_policy reason <$> details |} in
  {| status := 403; headers := headers (json_response response) ++ [(&"x-proxy-error", blocked_header_value reason)];
     body := body (json_response response) |}.

Definition proxy_disabled_response (host : str) (port : N) (client method : option str) (protocol : NetworkProtocol) : task Response :=
  let details := {| d_decision := VerdictDeny; d_reason := REASON_PROXY_DISABLED; d_source := SourceProxyState;
    d_protocol := protocol; d_host := host; d_port := port |} in
  let! _ := note_blocked host REASON_PROXY_DISABLED client method None (as_policy_protocol protocol) (Some details) port in
  Ret (text_response 503 (blocked_message_with_policy REASON_PROXY_DISABLED details)).

(** ** upstream.rs: the proxy of the environment *)

Fixpoint read_proxy_env (keys : list str) : option str :=
  match keys with
  | [] => None
  | key :: keys =>
      match env_var key with
      | None => read_proxy_env keys
      | Some value =>
          match trim value with
          | [] => read_proxy_env keys
          | value =>
              match proxy_address value with
              | Some true => Some value
              | Some false | None => read_proxy_env keys
              end
          end
      end
  end.

Record EnvProxyConfig := { proxy_http : option str; proxy_https : option str; proxy_all : option str }.

Definition proxy_config_default : EnvProxyConfig := {| proxy_http := None; proxy_https := None; proxy_all := None |}.
Definition proxy_config_from_env : EnvProxyConfig := {|
  proxy_http := read_proxy_env [&"HTTP_PROXY"; &"http_proxy"];
  proxy_https := read_proxy_env [&"HTTPS_PROXY"; &"https_proxy"];
  proxy_all := read_proxy_env [&"ALL_PROXY"; &"all_proxy"] |}.

Definition or_else {A} (o o' : option A) : option A := match o with Some _ => o | None => o' end.

Definition proxy_for_protocol (c : EnvProxyConfig) (is_secure : bool) : option str :=
  if is_secure then or_else (proxy_https c) (or_else (proxy_http c) (proxy_all c)) else or_else (proxy_http c) (proxy_all c).

Definition proxy_for_connect : option str := proxy_for_protocol proxy_config_from_env true.

(** [UpstreamClient::serve], for [from_env_proxy] and [direct] *)
Definition upstream_proxy (allow_upstream_proxy : bool) (req : Request) : option str :=
  proxy_for_protocol (if allow_upstream_proxy then proxy_config_from_env else proxy_config_default)
    (bool_decide (is_Some (ctx_host req)) && ctx_is_secure req).

(** ** http_proxy.rs: CONNECT *)

Record ConnectAccepted := {
  ca_host : str;
  ca_port : N;
  ca_mitm : bool;
  ca_mode : NetworkMode;
  ca_mitm_state : option MitmState
}.

Definition CONNECT : str := &"CONNECT".

Definition policy_request (protocol : NetworkProtocol) (host : str) (port : N) (client method : option str) : NetworkPolicyRequest :=
  {| pr_protocol := protocol; pr_host := host; pr_port := port; pr_client_addr := client; pr_method := method;
     pr_command := None; pr_exec_policy_hint := None |}.

Definition http_connect_accept (decider : bool) (req : Request) : task (comp Response ConnectAccepted) :=
  match ctx_host req with
  | None => Ret (Err (text_response 400 (&"missing authority")))
  | Some authority =>
      let host := normalize_host (host_to_string authority) in
      let port := ctx_port req in
      let client := client_addr req in
      match host with [] => Ret (Err (text_response 400 (&"invalid host"))) | _ =>
      let!? enabled := or_internal is_enabled in
      if negb enabled then
        let! response := proxy_disabled_response host port client (Some CONNECT) ProtoHttpsConnect in Ret (Err response)
      else
      let!? decision := or_internal (evaluate_host_policy decider (policy_request ProtoHttpsConnect host port client (Some CONNECT))) in
      match decision with
      | NetworkDeny reason source decision =>
          let details := {| d_decision := decision; d_reason := reason; d_source := source; d_protocol := ProtoHttpsConnect;
            d_host := host; d_port := port |} in
          let! _ := note_blocked host reason client (Some CONNECT) None (&"http-connect") (Some details) port in
          Ret (Err (blocked_text_response_with_policy reason details))
      | NetworkAllow =>
          let!? mode := or_internal network_mode in
          let!? mitm_state := or_internal get_mitm_state in
          let!? host_has_mitm_hooks := or_internal (host_has_mitm_hooks host) in
          let connect_needs_mitm := bool_decide (mode = Limited) || host_has_mitm_hooks in
          if connect_needs_mitm && bool_decide (mitm_state = None) then
            let details := {| d_decision := VerdictDeny; d_reason := REASON_MITM_REQUIRED; d_source := SourceModeGuard;
              d_protocol := ProtoHttpsConnect; d_host := host; d_port := port |} in
            let! _ := note_blocked host REASON_MITM_REQUIRED client (Some CONNECT) (Some mode) (&"http-connect") (Some details) port in
            Ret (Err (blocked_text_response_with_policy REASON_MITM_REQUIRED details))
          else
            Ret (Ok {| ca_host := host; ca_port := port; ca_mitm := connect_needs_mitm; ca_mode := mode;
              ca_mitm_state := if connect_needs_mitm then mitm_state else None |})
      end
      end
  end.

(** What becomes of an accepted tunnel: its requests are served one by one by
    [handle_mitm_request], or its bytes are forwarded. *)
Inductive Tunnel := TunnelMitm | TunnelForwarded (established : bool).

Definition http_connect_proxy (a : ConnectAccepted) : task Tunnel :=
  if ca_mitm a && bool_decide (is_Some (ca_mitm_state a)) then Ret TunnelMitm
  else
    let! allowed := get_allow_upstream_proxy in
    let allow_upstream_proxy := match allowed with Ok b => b | _ => false end in
    let proxy := if allow_upstream_proxy then proxy_for_connect else None in
    let! r := await (Send (RouteTunnel proxy)) in
    Ret (TunnelForwarded (bool_decide (is_Some r))).

(** ** http_proxy.rs: plain requests *)

Definition MISMATCH : str := &"Host header does not match request target".

Definition validate_absolute_form_host_header (req : Request) (authority : RamaHost) : comp str unit :=
  match uri_scheme req with
  | None => Ok tt
  | Some _ =>
      match typed_host req with
      | None => Err (&"invalid Host header")
      | Some None => Ok tt
      | Some (Some (host, port)) =>
          if negb (rama_host_eqb host authority) then Err MISMATCH
          else
            match port with
            | Some host_port =>
                if bool_decide (Some host_port <> ctx_authority_port req) then Err MISMATCH else Ok tt
            | None => if negb (ctx_has_default_port req) then Err MISMATCH else Ok tt
            end
      end
  end.

Definition comma : char := 44%N.

Definition connection_tokens (raw_connection : str) : list str :=
  List.filter (fun token => negb (bool_decide (token = []))) (map trim (split_char comma raw_connection)).

Definition remove_token (headers : list (str * option str)) (token : str) : list (str * option str) :=
  match header_name_from_bytes token with
  | Some name => header_remove name headers
  | None => headers
  end.

(** [while let Some(raw_connection) = headers.get(CONNECTION)]; every round takes all the
    values of the header out, so two rounds of [fuel] are enough. *)
Fixpoint remove_connection (fuel : nat) (headers : list (str * option str)) : list (str * option str) :=
  match fuel with
  | O => headers
  | S fuel =>
      match req_header (&"connection") headers with
      | None => headers
      | Some raw_connection =>
          let headers := header_remove (&"connection") headers in
          remove_connection fuel
            (match raw_connection with
             | Some raw_connection => foldl remove_token headers (connection_tokens raw_connection)
             | None => headers
             end)
      end
  end.

Definition hop_by_hop_names : list str :=
  [&"keep-alive"; &"proxy-connection"; &"proxy-authorization"; &"trailer"; &"transfer-encoding"; &"upgrade"].

Definition remove_hop_by_hop_request_headers (headers : list (str * option str)) : list (str * option str) :=
  remove_token (foldl (fun headers name => header_remove name headers) (remove_connection 2 headers) hop_by_hop_names) (&"te").

Definition upstream_response (status : option N) (failure : str) : comp Response Response :=
  match status with
  | Some status => Ok {| status := status; headers := []; body := UpstreamBody |}
  | None => Err (text_response 502 failure)
  end.

Definition path_and_query (req : Request) : str := default (&"/") (uri_path_and_query req).

(** On macOS; elsewhere the caller has returned before. *)
Definition proxy_via_unix_socket (req : Request) (socket_path : str) : task (comp Response Response) :=
  if uri_parses (path_and_query req) then
    let headers := remove_hop_by_hop_request_headers (header_remove (&"x-unix-socket") (req_headers (parts req))) in
    let! r := await (Send (RouteUnixSocket socket_path headers)) in Ret (upstream_response r (&"unix socket proxy failed"))
  else Ret (Err (text_response 502 (&"unix socket proxy failed"))).

Definition UNIX_SOCKET : str := &"unix-socket".

(** [Err] is a response that is returned early. *)
Definition http_plain_proxy (macos decider : bool) (req : Request) : task (comp Response Response) :=
  let client := client_addr req in
  let!? method_allowed := or_internal (method_allowed (method req)) in
  match req_header (&"x-unix-socket") (req_headers (parts req)) with
  | Some None => Ret (Err (text_response 400 (&"invalid x-unix-socket header")))
  | Some (Some socket_path) =>
      let!? enabled := or_internal is_enabled in
      if negb enabled then
        let! response := proxy_disabled_response socket_path 0 client (Some (method req)) ProtoHttp in Ret (Err response)
      else if negb method_allowed then Ret (Err (json_blocked UNIX_SOCKET REASON_METHOD_NOT_ALLOWED None))
      else if negb macos then Ret (Err (text_response 501 (&"unix sockets unsupported")))
      else
        let!? allowed := or_internal (is_unix_socket_allowed macos socket_path) in
        if allowed : bool then proxy_via_unix_socket req socket_path
        else Ret (Err (json_blocked UNIX_SOCKET REASON_NOT_ALLOWED None))
  | None =>
      match ctx_host req with
      | None => Ret (Err (text_response 400 (&"missing host")))
      | Some authority =>
          let host := normalize_host (host_to_string authority) in
          let port := ctx_port req in
          let!? _ := Ret (comp_map_err (text_response 400) (validate_absolute_form_host_header req authority)) in
          let!? enabled := or_internal is_enabled in
          if negb enabled then
            let! response := proxy_disabled_response host port client (Some (method req)) ProtoHttp in Ret (Err response)
          else
          let!? decision := or_internal (evaluate_host_policy decider (policy_request ProtoHttp host port client (Some (method req)))) in
          match decision with
          | NetworkDeny reason source decision =>
              let details := {| d_decision := decision; d_reason := reason; d_source := source; d_protocol := ProtoHttp;
                d_host := host; d_port := port |} in
              let! _ := note_blocked host reason client (Some (method req)) None (&"http") (Some details) port in
              Ret (Err (json_blocked host reason (Some details)))
          | NetworkAllow =>
              if negb method_allowed then
                let details := {| d_decision := VerdictDeny; d_reason := REASON_METHOD_NOT_ALLOWED; d_source := SourceModeGuard;
                  d_protocol := ProtoHttp; d_host := host; d_port := port |} in
                let! _ := note_blocked host REASON_METHOD_NOT_ALLOWED client (Some (method req)) (Some Limited) (&"http") (Some details) port in
                Ret (Err (json_blocked host REASON_METHOD_NOT_ALLOWED (Some details)))
              else
                let!? allow_upstream_proxy := or_internal get_allow_upstream_proxy in
                let headers := remove_hop_by_hop_request_headers (req_headers (parts req)) in
                let! r := await (Send (RouteUpstream (upstream_proxy allow_upstream_proxy req) headers)) in
                Ret (upstream_response r (&"upstream failure"))
          end
      end
  end.

(** ** mitm.rs: requests inside a tunnel *)

Record MitmPolicyContext := { target_host : str; target_port : N; target_mode : NetworkMode }.

Inductive MitmPolicyDecision := MitmAllow (hook_actions : option MitmHookActions) | MitmBlock (response : Response).

Definition extract_request_host (req : Request) : option str :=
  match req_header (&"host") (req_headers (parts req)) with
  | Some (Some host) => Some host
  | _ => uri_authority req
  end.

Definition note_mitm_blocked (policy : MitmPolicyContext) (req : Request) (reason : str) : task unit :=
  note_blocked (target_host policy) reason (client_addr req) (Some (method req)) (Some (target_mode policy)) (&"https") None (target_port policy).

Definition evaluate_mitm_policy (req : Request) (policy : MitmPolicyContext) : task (comp str MitmPolicyDecision) :=
  if str_eqb (method req) CONNECT then Ret (Ok (MitmBlock (text_response 405 (&"CONNECT not supported inside MITM"))))
  else if
    match extract_request_host req with
    | Some request_host =>
        let normalized := normalize_host request_host in
        negb (bool_decide (normalized = [])) && negb (str_eqb normalized (target_host policy))
    | None => false
    end
  then Ret (Ok (MitmBlock (text_response 400 (&"host mismatch"))))
  else
    let!? blocked := host_blocked (target_host policy) (target_port policy) in
    match blocked with
    | HostBlocked HostNotAllowedLocal =>
        let! _ := note_mitm_blocked policy req (host_block_reason_str HostNotAllowedLocal) in
        Ret (Ok (MitmBlock (blocked_text_response (host_block_reason_str HostNotAllowedLocal))))
    | _ =>
        let!? evaluation := evaluate_mitm_hook_request (target_host policy) (parts req) in
        let allow hook_actions :=
          if negb (allows_method (target_mode policy) (method req)) then
            let! _ := note_mitm_blocked policy req REASON_METHOD_NOT_ALLOWED in
            Ret (Ok (MitmBlock (blocked_text_response REASON_METHOD_NOT_ALLOWED)))
          else Ret (Ok (MitmAllow hook_actions)) in
        match evaluation with
        | HookMatched actions => allow (Some actions)
        | HookedHostNoMatch =>
            let! _ := note_mitm_blocked policy req REASON_MITM_HOOK_DENIED in
            Ret (Ok (MitmBlock (blocked_text_response REASON_MITM_HOOK_DENIED)))
        | NoHooksForHost => allow None
        end
    end.

Definition authority_header_value (host : str) (port : N) : str :=
  if contains_char colon host then
    if (port =? 443)%N then &"[" ++ host ++ &"]" else &"[" ++ host ++ &"]:" ++ show_N port
  else if (port =? 443)%N then host
  else host ++ &":" ++ show_N port.

(** [mitm_allow_upstream] is the setting with which the tunnel was set up. *)
Definition forward_request (req : Request) (policy : MitmPolicyContext) (mitm_allow_upstream : bool) : task (comp str Response) :=
  let!? decision := evaluate_mitm_policy req policy in
  match decision with
  | MitmBlock response => Ret (Ok response)
  | MitmAllow hook_actions =>
      let headers := apply_mitm_hook_actions (req_headers (parts req)) hook_actions in
      let authority := authority_header_value (target_host policy) (target_port policy) in
      if negb (uri_parses (&"https://" ++ authority ++ path_and_query req)) then Ret (Err (&"invalid uri"))
      else
        match header_value_from_str authority with
        | None => Ret (Err (&"failed to parse header value"))
        | Some value =>
            let headers := header_insert (&"host") value headers in
            let proxy := proxy_for_protocol (if mitm_allow_upstream then proxy_config_from_env else proxy_config_default) true in
            let! r := await (Send (RouteMitm proxy headers)) in
            match r with
            | Some status => Ret (Ok {| status := status; headers := []; body := UpstreamBody |})
            | None => Ret (Err (&"upstream"))
            end
        end
  end.

Definition handle_mitm_request (req : Request) (policy : MitmPolicyContext) (mitm_allow_upstream : bool) : task Response :=
  let! r := forward_request req policy mitm_allow_upstream in
  match r with
  | Ok response => Ret response
  | _ => Ret (text_response 502 (&"mitm upstream error"))
  end.

(** The policy context that [mitm_tunnel] makes for an accepted tunnel *)
Definition mitm_tunnel_context (a : ConnectAccepted) : MitmPolicyContext :=
  {| target_host := ca_host a; target_port := ca_port a; target_mode := ca_mode a |}.

(** ** socks5.rs *)

Definition socks_denied (reason : str) (source : DecisionSource) (decision : PolicyVerdict) (protocol : NetworkProtocol) (host : str) (port : N)
  : PolicyDecisionDetails :=
  {| d_decision := decision; d_reason := reason; d_source := source; d_protocol := protocol; d_host := host; d_port := port |}.

Definition or_proxy_error {A : Type} (p : task (comp str A)) : task (comp str A) :=
  let! r := p in Ret (comp_map_err (fun _ => &"proxy error") r).

(** [note_blocked] and [policy_denied_error] *)
Definition socks_refuse {A : Type} (details : PolicyDecisionDetails) (client : option str) (mode : option NetworkMode) (protocol : str)
  : task (comp str A) :=
  let! _ := note_blocked (d_host details) (d_reason details) client None mode protocol (Some details) (d_port details) in
  Ret (Err (blocked_message_with_policy (d_reason details) details)).

Definition handle_socks5_tcp (decider : bool) (authority_host : str) (port : N) (client : option str) : task (comp str unit) :=
  let host := normalize_host authority_host in
  match host with [] => Ret (Err (&"invalid host")) | _ =>
  let!? enabled := or_proxy_error is_enabled in
  if negb enabled then
    socks_refuse (socks_denied REASON_PROXY_DISABLED SourceProxyState VerdictDeny ProtoSocks5Tcp host port) client None (&"socks5")
  else
  let!? mode := or_proxy_error network_mode in
  match mode with
  | Limited =>
      socks_refuse (socks_denied REASON_METHOD_NOT_ALLOWED SourceModeGuard VerdictDeny ProtoSocks5Tcp host port) client (Some Limited) (&"socks5")
  | Full =>
      let!? hooked := or_proxy_error (host_has_mitm_hooks host) in
      if hooked : bool then
        socks_refuse (socks_denied REASON_MITM_REQUIRED SourceModeGuard VerdictDeny ProtoSocks5Tcp host port) client (Some Full) (&"socks5")
      else
      let!? decision := or_proxy_error (evaluate_host_policy decider (policy_request ProtoSocks5Tcp host port client None)) in
      match decision with
      | NetworkDeny reason source decision =>
          socks_refuse (socks_denied reason source decision ProtoSocks5Tcp host port) client None (&"socks5")
      | NetworkAllow =>
          let! r := await (Send RouteTcp) in
          Ret (match r with Some _ => Ok tt | None => Err (&"connect") end)
      end
  end
  end.

(** [Ok] lets the datagram through. *)
Definition inspect_socks5_udp (decider : bool) (server_ip : str) (port : N) (client : option str) : task (comp str unit) :=
  let host := normalize_host server_ip in
  match host with [] => Ret (Err (&"invalid host")) | _ =>
  let!? enabled := or_proxy_error is_enabled in
  if negb enabled then
    socks_refuse (socks_denied REASON_PROXY_DISABLED SourceProxyState VerdictDeny ProtoSocks5Udp host port) client None (&"socks5-udp")
  else
  let!? mode := or_proxy_error network_mode in
  match mode with
  | Limited =>
      socks_refuse (socks_denied REASON_METHOD_NOT_ALLOWED SourceModeGuard VerdictDeny ProtoSocks5Udp host port) client (Some Limited) (&"socks5-udp")
  | Full =>
      let!? decision := or_proxy_error (evaluate_host_policy decider (policy_request ProtoSocks5Udp host port client None)) in
      match decision with
      | NetworkDeny reason source decision =>
          socks_refuse (socks_denied reason source decision ProtoSocks5Udp host port) client None (&"socks5-udp")
      | NetworkAllow => Ret (Ok tt)
      end
  end
  end.

(** ** Theorems *)

Lemma wp_or_internal {A : Type} P (p : task (comp str A)) tr (Q : list obs -> comp Response A -> Prop) :
  wp P p tr (fun tr' r => Q tr' (comp_map_err (fun _ => text_response 500 (&"error")) r)) -> wp P (or_internal p) tr Q.
Proof. intros H. by apply wp_bind. Qed.
Lemma wp_or_proxy_error {A : Type} P (p : task (comp str A)) tr (Q : list obs -> comp str A -> Prop) :
  wp P p tr (fun tr' r => Q tr' (comp_map_err (fun _ => &"proxy error") r)) -> wp P (or_proxy_error p) tr Q.
Proof. intros H. by apply wp_bind. Qed.

Lemma wp_note_blocked P host reason client method m protocol details port tr (Q : list obs -> unit -> Prop) :
  pushable P -> (forall tr', Q (tr ++ tr') tt) -> wp P (note_blocked host reason client method m protocol details port) tr Q.
Proof.
  intros HP H. apply wp_bind, wp_blocked_request. intros e. apply wp_bind, wp_record_blocked; [done|].
  intros tr' r. simpl. rewrite <- app_assoc. apply H.
Qed.

(** A state in which [f] holds was seen. *)
Definition saw (tr : list obs) (f : ConfigState -> Prop) : Prop := exists s, SawState s s ∈ tr /\ state_ok s /\ f s.

Lemma saw_app tr tr' f : saw tr f -> saw (tr ++ tr') f.
Proof. intros (s & H & ?). exists s. split; [set_solver|done]. Qed.
Lemma saw_last tr tr' s (f : ConfigState -> Prop) : state_ok s -> f s -> saw (tr ++ tr' ++ [SawState s s]) f.
Proof. intros H Hf. exists s. split; [set_solver|done]. Qed.

(** Results of interest are successes. *)
Definition on_ok {E A : Type} (R : list obs -> A -> Prop) (tr : list obs) (r : comp E A) : Prop := forall a, r = Ok a -> R tr a.

Section steps.
Context (S : list obs -> Route -> Prop) (C : list obs -> IpAddr -> Prop).

Lemma step_ret {E A B : Type} (a : A) (k : A -> task (comp E B)) tr Q :
  wp (policed S C) (k a) tr Q -> wp (policed S C) (task_try (Ret (Ok a)) k) tr Q.
Proof. done. Qed.
Lemma step_read {A B : Type} (f : ConfigState -> A) (k : A -> task (comp Response B)) tr R :
  (forall tr' s, state_ok s -> wp (policed S C) (k (f s)) (tr ++ tr' ++ [SawState s s]) (on_ok R)) ->
  wp (policed S C) (task_try (or_internal (read_reloaded f)) k) tr (on_ok R).
Proof.
  intros H. apply wp_try, wp_or_internal, wp_read_reloaded; [intros tr' s Hs; by apply H|].
  intros tr' [a|e| |] Hr; [exfalso; by eapply Hr|done..].
Qed.
Lemma step_read_socks {A B : Type} (f : ConfigState -> A) (k : A -> task (comp str B)) tr R :
  (forall tr' s, state_ok s -> wp (policed S C) (k (f s)) (tr ++ tr' ++ [SawState s s]) (on_ok R)) ->
  wp (policed S C) (task_try (or_proxy_error (read_reloaded f)) k) tr (on_ok R).
Proof.
  intros H. apply wp_try, wp_or_proxy_error, wp_read_reloaded; [intros tr' s Hs; by apply H|].
  intros tr' [a|e| |] Hr; [exfalso; by eapply Hr|done..].
Qed.

Lemma step_policy {B : Type} decider request (k : NetworkDecision -> task (comp Response B)) tr R :
  (forall tr', host_passes state_ok (tr ++ tr') decider request -> wp (policed S C) (k NetworkAllow) (tr ++ tr') (on_ok R)) ->
  (forall tr' reason source d, wp (policed S C) (k (NetworkDeny reason source d)) (tr ++ tr') (on_ok R)) ->
  wp (policed S C) (task_try (or_internal (evaluate_host_policy decider request)) k) tr (on_ok R).
Proof.
  intros H1 H2. apply wp_try, wp_or_internal, wp_evaluate_host_policy; [intros tr'; apply H1|].
  intros tr' [[|]|e| |] Hr; [done|apply H2|done..].
Qed.
Lemma step_policy_socks {B : Type} decider request (k : NetworkDecision -> task (comp str B)) tr R :
  (forall tr', host_passes state_ok (tr ++ tr') decider request -> wp (policed S C) (k NetworkAllow) (tr ++ tr') (on_ok R)) ->
  (forall tr' reason source d, wp (policed S C) (k (NetworkDeny reason source d)) (tr ++ tr') (on_ok R)) ->
  wp (policed S C) (task_try (or_proxy_error (evaluate_host_policy decider request)) k) tr (on_ok R).
Proof.
  intros H1 H2. apply wp_try, wp_or_proxy_error, wp_evaluate_host_policy; [intros tr'; apply H1|].
  intros tr' [[|]|e| |] Hr; [done|apply H2|done..].
Qed.

(** A refusal that is recorded *)
Lemma step_refused {A : Type} host reason client method m protocol details port (e : Response) tr R :
  wp (policed S C) (task_bind (note_blocked host reason client method m protocol details port) (fun _ => Ret (Err e))) tr
    (on_ok (A := A) R).
Proof. by apply wp_bind, wp_note_blocked; [apply ok_pushable|]. Qed.
Lemma step_disabled {A : Type} host port client method protocol tr R :
  wp (policed S C) (task_bind (proxy_disabled_response host port client method protocol) (fun response => Ret (Err response))) tr
    (on_ok (A := A) R).
Proof. apply wp_bind. by apply wp_bind, wp_note_blocked; [apply ok_pushable|]. Qed.
Lemma step_socks_refuse {A : Type} details client m protocol tr R :
  wp (policed S C) (socks_refuse (A := A) details client m protocol) tr (on_ok R).
Proof. by apply wp_bind, wp_note_blocked; [apply ok_pushable|]. Qed.
End steps.

(** *** CONNECT *)

(** What was seen when a tunnel to a host was accepted *)
Definition tunnel_accepted (decider : bool) (req : Request) (tr : list obs) (a : ConnectAccepted) : Prop :=
  (exists authority, ctx_host req = Some authority /\ ca_host a = normalize_host (host_to_string authority) /\ ca_host a <> []) /\
  saw tr (fun s => enabled (config s) = true) /\
  host_passes state_ok tr decider (policy_request ProtoHttpsConnect (ca_host a) (ca_port a) (client_addr req) (Some CONNECT)) /\
  saw tr (fun s => mode (config s) = ca_mode a) /\
  saw tr (fun s => ca_mitm a = bool_decide (ca_mode a = Limited) || bool_decide (is_Some (state_hooks s !! normalize_host (ca_host a)))) /\
  (ca_mitm a = true -> is_Some (ca_mitm_state a)).

Lemma wp_connect_accept S C decider req tr :
  wp (policed S C) (http_connect_accept decider req) tr (on_ok (tunnel_accepted decider req)).
Proof.
  unfold http_connect_accept. destruct (ctx_host req) as [authority|] eqn:Ea; [|done].
  destruct (normalize_host (host_to_string authority)) as [|c host] eqn:Eh; [done|]. rewrite <- Eh.
  apply step_read. intros tr1 s1 Hs1. destruct (enabled (config s1)) eqn:En; [|apply step_disabled]. cbn [negb].
  apply step_policy; [|intros; apply step_refused]. intros tr2 Hp. apply step_read. intros tr3 s3 Hs3.
  apply step_read. intros tr4 s4 Hs4. apply step_read. intros tr5 s5 Hs5.
  destruct (_ && bool_decide (mitm_state s4 = None)) eqn:Em; [apply step_refused|]. intros a [= <-].
  split_and!; simpl.
  - exists authority. split_and!; [done|done|by rewrite Eh].
  - do 4 apply saw_app. by apply saw_last.
  - do 3 apply host_passes_app. done.
  - do 2 apply saw_app. by apply saw_last.
  - by apply saw_last.
  - intros E. rewrite E in Em |- *. simpl in Em. apply bool_decide_eq_false in Em. by destruct (mitm_state s4).
Qed.

(** The upgrade layer: a tunnel that is accepted is then served. *)
Definition http_connect (decider : bool) (req : Request) : task (comp Response Tunnel) :=
  let!? a := http_connect_accept decider req in let! t := http_connect_proxy a in Ret (Ok t).

(** A [CONNECT] followed by a request inside the tunnel: the tunnel is accepted, and if it is
    intercepted the request is handled in its context.  The requests of one tunnel do not
    depend on each other, so each is one such run. *)
Definition tunnelled_request (decider : bool) (connect req : Request) (up : bool) : task (comp Response (option Response)) :=
  let!? a := http_connect_accept decider connect in
  let! t := http_connect_proxy a in
  match t with
  | TunnelMitm => let! response := handle_mitm_request req (mitm_tunnel_context a) up in Ret (Ok (Some response))
  | TunnelForwarded _ => Ret (Ok None)
  end.

(** The bytes of a tunnel are forwarded unseen only in full mode and to a host without
    hooks. *)
Definition tunnel_policed (decider : bool) (req : Request) (tr : list obs) (route : Route) : Prop :=
  match route with
  | RouteTunnel proxy =>
      exists host port, (exists authority, ctx_host req = Some authority /\ host = normalize_host (host_to_string authority)) /\
        saw tr (fun s => enabled (config s) = true) /\
        host_passes state_ok tr decider (policy_request ProtoHttpsConnect host port (client_addr req) (Some CONNECT)) /\
        saw tr (fun s => mode (config s) = Full) /\ saw tr (fun s => state_hooks s !! normalize_host host = None) /\
        (proxy <> None -> saw tr (fun s => allow_upstream_proxy (config s) = true))
  | _ => False
  end.

Lemma wp_connect_proxy S C decider req a tr :
  tunnel_accepted decider req tr a ->
  (forall tr' route, tunnel_policed decider req (tr ++ tr') route -> S (tr ++ tr') route) ->
  wp (policed S C) (http_connect_proxy a) tr (fun _ t => t = TunnelMitm -> ca_mitm a = true).
Proof.
  intros ((authority & E1 & E2 & _) & H2 & H3 & H4 & H5 & H6) HS. unfold http_connect_proxy.
  destruct (ca_mitm a) eqn:Em; [rewrite bool_decide_true by auto; done|]. cbn [andb].
  assert (forall tr2 proxy, (proxy <> None -> saw (tr ++ tr2) (fun s => allow_upstream_proxy (config s) = true)) ->
    S (tr ++ tr2) (RouteTunnel proxy)) as Hsend.
  { intros tr2 proxy Hproxy. apply HS. exists (ca_host a), (ca_port a). split_and!; [eauto|by apply saw_app|by apply host_passes_app| | |done].
    - apply saw_app. destruct H5 as (s5 & _ & _ & E). symmetry in E. apply orb_false_iff in E as [E%bool_decide_eq_false _].
      destruct H4 as (s4 & Hin & Hs4 & E4). exists s4. split_and!; [done..|]. by destruct (ca_mode a), (mode (config s4)).
    - apply saw_app. destruct H5 as (s5 & Hin & Hs5 & E). exists s5. split_and!; [done..|]. symmetry in E.
      apply orb_false_iff in E as [_ E%bool_decide_eq_false]. by apply eq_None_not_Some. }
  apply wp_bind, wp_read_reloaded.
  - intros tr2 s Hs. apply wp_bind. split; [|done]. simpl. apply Hsend. destruct (allow_upstream_proxy (config s)) eqn:Eu; [|done].
    intros _. by apply saw_last.
  - intros tr2 [b| | |] Hr; [exfalso; by eapply Hr|..]; apply wp_bind; (split; [|done]); by apply Hsend.
Qed.

Lemma wp_connect decider req tr :
  wp (policed (tunnel_policed decider req) (fun _ _ => False)) (http_connect decider req) tr (fun _ _ => True).
Proof.
  apply wp_try. eapply wp_mono; [apply wp_connect_accept|]. intros tr1 [a| | |] Ha; try done.
  apply wp_bind. eapply wp_mono; [eapply wp_connect_proxy; [by apply Ha|done]|]. done.
Qed.

(** *** Plain requests *)

Definition plain_policed (macos decider : bool) (req : Request) (tr : list obs) (route : Route) : Prop :=
  saw tr (fun s => enabled (config s) = true) /\ saw tr (fun s => allows_method (mode (config s)) (method req) = true) /\
  match route with
  | RouteUnixSocket path headers =>
      macos = true /\ req_header (&"x-unix-socket") (req_headers (parts req)) = Some (Some path) /\
      saw tr (fun s => unix_socket_listed s path = true) /\
      headers = remove_hop_by_hop_request_headers (header_remove (&"x-unix-socket") (req_headers (parts req)))
  | RouteUpstream proxy headers =>
      exists authority, ctx_host req = Some authority /\ validate_absolute_form_host_header req authority = Ok tt /\
        host_passes state_ok tr decider
          (policy_request ProtoHttp (normalize_host (host_to_string authority)) (ctx_port req) (client_addr req) (Some (method req))) /\
        (proxy <> None -> saw tr (fun s => allow_upstream_proxy (config s) = true)) /\
        headers = remove_hop_by_hop_request_headers (req_headers (parts req))
  | _ => False
  end.

Lemma wp_unix_socket_allowed P macos path tr (Q : list obs -> comp str bool -> Prop) :
  (forall tr' s, inv P s -> macos = true -> unix_socket_listed s path = true -> Q (tr ++ tr' ++ [SawState s s]) (Ok true)) ->
  (forall tr' r, r <> Ok true -> Q (tr ++ tr') r) -> wp P (is_unix_socket_allowed macos path) tr Q.
Proof.
  intros H1 H2. apply wp_try, wp_reload. intros tr' [[]| | |]; try (by apply H2). destruct macos; [|by apply H2]. cbn [negb].
  destruct (is_absolute path); [|by apply H2]. apply wp_bind, wp_read_state. intros s Hs. cbn [wp]. rewrite <- app_assoc.
  destruct (unix_socket_listed s path) eqn:E; [by apply H1|by apply H2].
Qed.

Lemma no_env_proxy is_secure : proxy_for_protocol proxy_config_default is_secure = None.
Proof. by destruct is_secure. Qed.

Lemma wp_plain_proxy macos decider req tr :
  wp (policed (plain_policed macos decider req) (fun _ _ => False)) (http_plain_proxy macos decider req) tr (on_ok (fun _ _ => True)).
Proof.
  apply step_read. intros tr1 s1 Hs1. destruct (req_header _ _) as [[path|]|] eqn:Eu; [|done|].
  - apply step_read. intros tr2 s2 Hs2. destruct (enabled (config s2)) eqn:En; [|apply step_disabled]. cbn [negb].
    destruct (allows_method _ _) eqn:Em; [|done]. destruct macos; [|done]. cbn [negb]. apply wp_try, wp_or_internal, wp_unix_socket_allowed.
    + intros tr3 s3 Hs3 _ Hl. simpl. unfold proxy_via_unix_socket. destruct (uri_parses _); [|done]. apply wp_bind. split; [|done]. simpl.
      split; [|split]; [apply saw_app; by apply saw_last|do 2 apply saw_app; by apply saw_last|].
      split_and!; [done|done|by apply saw_last|done].
    + intros tr3 [[]|e| |] Hr; done.
  - destruct (ctx_host req) as [authority|] eqn:Ea; [|done].
    destruct (validate_absolute_form_host_header req authority) as [[]| | |] eqn:Ev; cbn [comp_map_err]; try (by apply wp_try).
    apply step_ret.
    apply step_read. intros tr2 s2 Hs2. destruct (enabled (config s2)) eqn:En; [|apply step_disabled]. cbn [negb].
    apply step_policy; [|intros; apply step_refused]. intros tr3 Hp. destruct (allows_method _ _) eqn:Em; [|apply step_refused]. cbn [negb].
    apply step_read. intros tr4 s4 Hs4. apply wp_bind. split; [|done]. simpl.
    split; [|split]; [do 2 apply saw_app; by apply saw_last|do 3 apply saw_app; by apply saw_last|].
    exists authority. split_and!; [done|done|by apply host_passes_app| |done].
    unfold upstream_proxy. destruct (allow_upstream_proxy (config s4)) eqn:Ep; [|by rewrite no_env_proxy]. intros _. by apply saw_last.
Qed.

(** *** SOCKS *)

Definition socks_policed (decider : bool) (protocol : NetworkProtocol) (host : str) (port : N) (client : option str) (tr : list obs) : Prop :=
  host <> [] /\ saw tr (fun s => enabled (config s) = true) /\ saw tr (fun s => mode (config s) = Full) /\
  host_passes state_ok tr decider (policy_request protocol host port client None).

Definition socks_tcp_policed (decider : bool) (host : str) (port : N) (client : option str) (tr : list obs) (route : Route) : Prop :=
  route = RouteTcp /\ socks_policed decider ProtoSocks5Tcp host port client tr /\
  saw tr (fun s => state_hooks s !! normalize_host host = None).

Lemma wp_socks5_tcp decider authority port client tr :
  wp (policed (socks_tcp_policed decider (normalize_host authority) port client) (fun _ _ => False))
    (handle_socks5_tcp decider authority port client) tr (on_ok (fun _ _ => True)).
Proof.
  unfold handle_socks5_tcp. destruct (normalize_host authority) as [|c host] eqn:Eh; [done|]. rewrite <- Eh.
  apply step_read_socks. intros tr1 s1 Hs1. destruct (enabled (config s1)) eqn:En; [|apply step_socks_refuse]. cbn [negb].
  apply step_read_socks. intros tr2 s2 Hs2. destruct (mode (config s2)) eqn:Em; [apply step_socks_refuse|].
  apply step_read_socks. intros tr3 s3 Hs3. destruct (bool_decide _) eqn:Ehook; [apply step_socks_refuse|].
  apply bool_decide_eq_false, eq_None_not_Some in Ehook.
  apply step_policy_socks; [|intros; apply step_socks_refuse]. intros tr4 Hp. apply wp_bind. split; [|done]. simpl.
  split; [done|]. split; [split_and!; [by rewrite Eh| | |done]|].
  - do 3 apply saw_app. by apply saw_last.
  - do 2 apply saw_app. by apply saw_last.
  - apply saw_app. by apply saw_last.
Qed.

Lemma wp_socks5_udp decider ip port client tr :
  wp (policed (fun _ _ => False) (fun _ _ => False)) (inspect_socks5_udp decider ip port client) tr
    (on_ok (fun tr' _ => socks_policed decider ProtoSocks5Udp (normalize_host ip) port client tr')).
Proof.
  unfold inspect_socks5_udp. destruct (normalize_host ip) as [|c host] eqn:Eh; [done|]. rewrite <- Eh.
  apply step_read_socks. intros tr1 s1 Hs1. destruct (enabled (config s1)) eqn:En; [|apply step_socks_refuse]. cbn [negb].
  apply step_read_socks. intros tr2 s2 Hs2. destruct (mode (config s2)) eqn:Em; [apply step_socks_refuse|].
  apply step_policy_socks; [|intros; apply step_socks_refuse]. intros tr4 Hp. intros [] _.
  split_and!; [by rewrite Eh| | |done]; [do 2 apply saw_app|apply saw_app]; by apply saw_last.
Qed.

(** *** Requests inside a tunnel *)

Definition mitm_policed (req : Request) (policy : MitmPolicyContext) (up : bool) (tr : list obs) (route : Route) : Prop :=
  match route with
  | RouteMitm proxy headers =>
      (proxy <> None -> up = true) /\ method req <> CONNECT /\ allows_method (target_mode policy) (method req) = true /\
      (forall h, extract_request_host req = Some h -> normalize_host h = [] \/ normalize_host h = target_host policy) /\
      (exists d, host_decided state_ok tr (target_host policy) (target_port policy) d /\ d <> HostBlocked HostNotAllowedLocal) /\
      exists actions value,
        saw tr (fun s => evaluate_mitm_hooks (state_hooks s) (target_host policy) (parts req) =
          match actions with Some actions => HookMatched actions | None => NoHooksForHost end) /\
        header_value_from_str (authority_header_value (target_host policy) (target_port policy)) = Some value /\
        headers = header_insert (&"host") value (apply_mitm_hook_actions (req_headers (parts req)) actions)
  | _ => False
  end.

(** What was seen when a request inside a tunnel is let through with the actions of a hook *)
Definition mitm_allowed (req : Request) (policy : MitmPolicyContext) (tr : list obs) (actions : option MitmHookActions) : Prop :=
  method req <> CONNECT /\ allows_method (target_mode policy) (method req) = true /\
  (forall h, extract_request_host req = Some h -> normalize_host h = [] \/ normalize_host h = target_host policy) /\
  (exists d, host_decided state_ok tr (target_host policy) (target_port policy) d /\ d <> HostBlocked HostNotAllowedLocal) /\
  saw tr (fun s => evaluate_mitm_hooks (state_hooks s) (target_host policy) (parts req) =
    match actions with Some actions => HookMatched actions | None => NoHooksForHost end).

Definition mitm_outcome (req : Request) (policy : MitmPolicyContext) (tr : list obs) (d : MitmPolicyDecision) : Prop :=
  match d with MitmAllow actions => mitm_allowed req policy tr actions | MitmBlock _ => True end.

Lemma step_mitm_blocked S C req policy response reason tr :
  wp (policed S C) (let! _ := note_mitm_blocked policy req reason in Ret (Ok (MitmBlock response))) tr
    (on_ok (E := str) (mitm_outcome req policy)).
Proof. apply wp_bind, wp_note_blocked; [apply ok_pushable|]. by intros tr' d [= <-]. Qed.

Lemma wp_evaluate_mitm_policy S C req policy tr :
  wp (policed S C) (evaluate_mitm_policy req policy) tr (on_ok (mitm_outcome req policy)).
Proof.
  unfold evaluate_mitm_policy. destruct (str_eqb (method req) CONNECT) eqn:Em; [by intros d [= <-]|]. apply str_eqb_neq in Em.
  destruct (match extract_request_host req with Some _ => _ | None => _ end) eqn:Eh; [by intros d [= <-]|].
  assert (forall h, extract_request_host req = Some h -> normalize_host h = [] \/ normalize_host h = target_host policy) as Hhost.
  { intros h E. rewrite E in Eh. apply andb_false_iff in Eh as [Eh%negb_false_iff|Eh%negb_false_iff];
      [left; by apply bool_decide_eq_true in Eh|right; by apply str_eqb_eq]. }
  apply wp_try, wp_host_blocked; [|by intros tr1 [d| | |] Hr; [exfalso; by eapply Hr|..]]. intros tr1 d Hd.
  destruct (decide (d = HostBlocked HostNotAllowedLocal)) as [->|Hd']; [apply step_mitm_blocked|].
  assert (forall A (k k' : task A) Q, wp (policed S C) k' (tr ++ tr1) Q ->
    wp (policed S C) (match d with HostBlocked HostNotAllowedLocal => k | _ => k' end) (tr ++ tr1) Q) as Hcase
    by (intros A k k' Q H; by destruct d as [|[]]).
  apply Hcase. apply wp_try, wp_read_reloaded; [|by intros tr2 [e| | |] Hr; [exfalso; by eapply Hr|..]].
  intros tr2 s Hs. assert (forall actions, evaluate_mitm_hooks (state_hooks s) (target_host policy) (parts req) =
      match actions with Some actions => HookMatched actions | None => NoHooksForHost end ->
      allows_method (target_mode policy) (method req) = true ->
      mitm_allowed req policy ((tr ++ tr1) ++ tr2 ++ [SawState s s]) actions) as Hallow.
  { intros actions E Ea. split_and!; [done..| |by apply saw_last]. exists d. split; [by apply host_decided_app|done]. }
  destruct (evaluate_mitm_hooks _ _ _) as [|actions|]; [..|apply step_mitm_blocked];
    (destruct (allows_method _ _) eqn:Ea; [|apply step_mitm_blocked]); intros r [= <-]; by apply Hallow.
Qed.

Lemma wp_handle_mitm_request S C req policy up tr :
  (forall tr' route, mitm_policed req policy up (tr ++ tr') route -> S (tr ++ tr') route) ->
  wp (policed S C) (handle_mitm_request req policy up) tr (fun _ _ => True).
Proof.
  intros HS. apply wp_bind, wp_try. eapply wp_mono; [apply wp_extends, wp_evaluate_mitm_policy|].
  intros ? [[actions|response]| | |] [[tr1 ->] Hr]; try done.
  destruct (Hr _ eq_refl) as (H1 & H2 & H3 & H4 & H5). cbv beta iota zeta. destruct (uri_parses _); [|done]. cbn [negb].
  destruct (header_value_from_str _) as [value|] eqn:Ev; [|done]. apply wp_bind. split; [|intros []; done].
  simpl. apply HS. split_and!; [by destruct up|done..|]. exists actions, value. done.
Qed.

(** Everything that was checked when its tunnel was accepted still counts for a request
    inside it. *)
Definition intercepted_policed (decider : bool) (connect req : Request) (up : bool) (tr : list obs) (route : Route) : Prop :=
  exists a, tunnel_accepted decider connect tr a /\ ca_mitm a = true /\ mitm_policed req (mitm_tunnel_context a) up tr route.

Lemma tunnel_accepted_app decider req tr tr' a : tunnel_accepted decider req tr a -> tunnel_accepted decider req (tr ++ tr') a.
Proof. intros (H1 & H2 & H3 & H4 & H5 & H6). split_and!; [done|by apply saw_app|by apply host_passes_app|by apply saw_app|by apply saw_app|done]. Qed.

Lemma wp_tunnelled_request decider connect req up tr :
  wp (policed (fun tr route => tunnel_policed decider connect tr route \/ intercepted_policed decider connect req up tr route) (fun _ _ => False))
    (tunnelled_request decider connect req up) tr (fun _ _ => True).
Proof.
  apply wp_try. eapply wp_mono; [apply wp_connect_accept|]. intros tr1 [a| | |] Ha; try done. specialize (Ha a eq_refl).
  apply wp_bind. eapply wp_mono; [eapply wp_extends, wp_connect_proxy; [done|by left]|].
  intros ? [|est] [[tr2 ->] Hm]; [|done]. apply wp_bind. eapply wp_mono; [apply wp_handle_mitm_request|done].
  intros tr3 route Hp. right. exists a. split_and!; [by do 2 apply tunnel_accepted_app|by apply Hm|done].
Qed.

(** ** What goes out *)


(** ** The state under any load *)

Inductive operation :=
| OpForceReload
| OpReplace (new : ConfigState)
| OpRecord (entry : BlockedRequest)
| OpDrain
| OpSetMode (fuel : nat) (m : NetworkMode)
| OpUpdate (fuel : nat) (host : str) (target : DomainListKind)
| OpObserver (observer : option N)
| OpCurrentCfg
| OpPlain (macos decider : bool) (req : Request)
| OpConnect (decider : bool) (req : Request)
| OpMitm (req : Request) (policy : MitmPolicyContext) (up : bool)
| OpSocksTcp (decider : bool) (host : str) (port : N) (client : option str)
| OpSocksUdp (decider : bool) (host : str) (port : N) (client : option str).

Definition done_with {A : Type} (p : task A) : task unit := let! _ := p in Ret tt.

Definition op_task (op : operation) : task unit :=
  match op with
  | OpForceReload => done_with force_reload
  | OpReplace new => done_with (replace_config_state new)
  | OpRecord entry => done_with (record_blocked entry)
  | OpDrain => done_with drain_blocked
  | OpSetMode fuel m => done_with (set_network_mode fuel m)
  | OpUpdate fuel host target => done_with (update_domain_list fuel host target)
  | OpObserver observer => set_blocked_request_observer observer
  | OpCurrentCfg => done_with current_cfg
  | OpPlain macos decider req => done_with (http_plain_proxy macos decider req)
  | OpConnect decider req => done_with (http_connect decider req)
  | OpMitm req policy up => done_with (handle_mitm_request req policy up)
  | OpSocksTcp decider host port client => done_with (handle_socks5_tcp decider host port client)
  | OpSocksUdp decider host port client => done_with (inspect_socks5_udp decider host port client)
  end.

(** The states that are put in place from outside are consistent. *)
Definition op_ok (op : operation) : Prop := match op with OpReplace new => state_ok new | _ => True end.

Lemma policed_weaken {A : Type} S C (p : task A) tr Q : wp (policed S C) p tr Q -> wp ok_protocol p tr (fun _ _ => True).
Proof.
  revert tr. induction p as [a|B c k IH]; intros tr Hw; [done|]. simpl in Hw |- *.
  destruct c; simpl in *; try (intros; eapply IH, Hw; eauto; done).
  - intros s Hs. destruct (Hw s Hs) as (? & ? & ?). eauto.
  - destruct Hw. eauto.
  - destruct Hw. eauto.
Qed.

Lemma op_task_keeps op : op_ok op -> keeps ok_protocol (op_task op).
Proof.
  assert (forall A (p : task A), wp ok_protocol p [] (fun _ _ => True) -> keeps ok_protocol (done_with p)) as Hd.
  { intros A p H. exists []. by apply wp_true_keeps. }
  destruct op; simpl; intros Hop; try apply Hd.
  - apply force_reload_keeps.
  - by apply replace_config_state_keeps.
  - by apply wp_record_blocked; [apply ok_pushable|].
  - apply drain_blocked_keeps.
  - apply set_network_mode_keeps.
  - apply update_domain_list_keeps.
  - by exists [].
  - apply read_reloaded_keeps.
  - eapply policed_weaken, wp_plain_proxy.
  - eapply policed_weaken, wp_connect.
  - eapply policed_weaken, (wp_handle_mitm_request (fun _ _ => True) (fun _ _ => False)). done.
  - eapply policed_weaken, wp_socks5_tcp.
  - eapply policed_weaken, wp_socks5_udp.
Qed.

(** C10: the shared state of the proxy stays consistent under any load.  Start any number of
    operations and handlers on a consistent state, let the reloader and the callers of
    [replace_config_state] hand in only consistent states, and interleave the critical
    sections in any way: in every state that is reached the settings in force pass validation
    against the constraints in force, the matchers and hooks are those of the settings,
    interception is there exactly when the settings ask for it, at most 200 blocked requests
    are buffered and their count has not overflowed. *)
Theorem proxy_state_stays_consistent (ops : list operation) (s : ConfigState) (o : option N) (ps : list (task unit)) (sh : shared) :
  Forall op_ok ops -> state_ok s -> rtc (pool_step ok_protocol) (map op_task ops, (s, o)) (ps, sh) -> state_ok sh.1.
Proof.
  intros Hops Hs Hr. apply (wp_sound ok_protocol (map op_task ops) (s, o) ps sh); [|exact Hs|exact Hr].
  apply Forall_map. eapply Forall_impl; [exact Hops|]. apply op_task_keeps.
Qed.

(** ** Headers of one hop *)

Definition hop_tokens (headers : list (str * option str)) : list str :=
  match req_header (&"connection") headers with
  | Some (Some raw) => omap header_name_from_bytes (connection_tokens raw)
  | _ => []
  end.

Definition without (names : list str) (headers : list (str * option str)) : list (str * option str) :=
  List.filter (fun h => negb (existsb (str_eqb h.1) names)) headers.

Lemma without_cons name names headers : without names (header_remove name headers) = without (name :: names) headers.
Proof.
  unfold without, header_remove. induction headers as [|h headers IH]; [done|]. simpl.
  destruct (str_eqb h.1 name); simpl; [done|]. by rewrite IH.
Qed.

Lemma without_nil headers : without [] headers = headers.
Proof. unfold without. induction headers as [|h headers IH]; [done|]. simpl in *. by rewrite IH. Qed.

Lemma fold_header_remove names headers : foldl (fun hs n => header_remove n hs) headers names = without names headers.
Proof.
  revert headers. induction names as [|n names IH]; intros headers; simpl; [by rewrite without_nil|by rewrite IH, without_cons].
Qed.

Lemma fold_remove_token tokens headers : foldl remove_token headers tokens = without (omap header_name_from_bytes tokens) headers.
Proof.
  rewrite <- fold_header_remove. revert headers. induction tokens as [|t tokens IH]; intros headers; [done|]. simpl. rewrite IH.
  unfold remove_token. by destruct (header_name_from_bytes t).
Qed.

Lemma without_app ns ms headers : without ns (without ms headers) = without (ms ++ ns) headers.
Proof.
  revert headers. induction ms as [|m ms IH]; intros headers; [by rewrite without_nil|by rewrite <- app_comm_cons, <- !without_cons, IH].
Qed.

Lemma req_header_without name names headers : name ∈ names -> req_header name (without names headers) = None.
Proof.
  intros Hin. unfold req_header, without. destruct (List.find _ _) as [h|] eqn:E; [|done]. exfalso.
  apply find_some in E as [Hh E%str_eqb_eq]. apply list_elem_of_In, elem_of_filterb in Hh as [_ Hn%negb_true_iff].
  apply existsb_none with (x := name) in Hn; [|done]. apply str_eqb_neq in Hn. done.
Qed.

Lemma remove_connection_spec headers : remove_connection 2 headers = without (&"connection" :: hop_tokens headers) headers.
Proof.
  assert (forall hs names, &"connection" ∈ names -> remove_connection 1 (without names hs) = without names hs) as H1.
  { intros hs names Hin. cbn [remove_connection]. by rewrite req_header_without. }
  unfold hop_tokens. cbn [remove_connection]. destruct (req_header (&"connection") headers) as [[raw|]|] eqn:E.
  - rewrite fold_remove_token, without_cons. apply (H1 headers). set_solver.
  - transitivity (remove_connection 1 (without [&"connection"] headers)).
    + by rewrite <- without_cons, without_nil.
    + apply H1. set_solver.
  - unfold without. clear H1. unfold req_header in E. induction headers as [|h headers IH]; [done|]. simpl in *.
    destruct (str_eqb h.1 (&"connection")); [done|]. simpl. by rewrite <- IH.
Qed.

(** What a request loses on its way out: exactly the headers of one hop.  They are the
    [Connection] header itself, the headers named by its first value, and the seven fixed
    ones; all other headers are kept, in their order. *)
Theorem hop_by_hop_headers_removed (headers : list (str * option str)) :
  header_name_from_bytes (&"te") = Some (&"te") ->
  remove_hop_by_hop_request_headers headers =
  without (&"connection" :: hop_tokens headers ++ hop_by_hop_names ++ [&"te"]) headers.
Proof.
  intros Hte. unfold remove_hop_by_hop_request_headers. rewrite fold_header_remove, remove_connection_spec.
  unfold remove_token. rewrite Hte. change (header_remove (&"te") ?l) with (foldl (fun hs n => header_remove n hs) l [&"te"]).
  rewrite fold_header_remove, !without_app. by rewrite <- ?app_comm_cons, <- ?app_assoc.
Qed.
End handlers.

(** ** Examples *)

#[export] Instance plain_rama : RamaLib := {|
  RamaHost := str; host_to_string h := h; rama_host_eqb := str_eqb;
  ctx_host := uri_authority; ctx_authority_port _ := None; ctx_port _ := 80%N; ctx_has_default_port _ := true;
  ctx_is_secure _ := false; typed_host _ := Some None; uri_path_and_query req := Some (req_path (parts req));
  uri_parses _ := true; proxy_address _ := Some true
|}.

Lemma hop_by_hop_headers_removed_witness :
  remove_hop_by_hop_request_headers
    [(&"host", Some (&"a.org")); (&"connection", Some (&"close, x-secret")); (&"x-secret", Some (&"1")); (&"te", None)] =
  [(&"host", Some (&"a.org"))].
Proof. rewrite hop_by_hop_headers_removed by (vm_compute; reflexivity). vm_compute. reflexivity. Defined.

(** A second [Connection] header is taken out unread with the first, and the header it names
    goes on to the server. *)
Lemma second_connection_header_ignored :
  remove_hop_by_hop_request_headers
    [(&"connection", Some (&"close")); (&"connection", Some (&"x-secret")); (&"x-secret", Some (&"1"))] =
  [(&"x-secret", Some (&"1"))].
Proof. vm_compute. reflexivity. Qed.

Definition demo_request (method host : str) : Request := {|
  parts := {| req_method := method; req_path := &"/"; req_query := None; req_headers := [] |};
  uri_scheme := Some (&"http"); uri_authority := Some host; client_addr := None |}.

#[local] Instance bare_fs : HostFs := {|
  symlink_metadata _ := None; fs_canonicalize p := Some p; is_dir _ := false; is_file _ := false; exists_path _ := false;
  read_to_string _ := None; tmpdir_var := None |}.

Lemma demo_state_ok s : demo_state = Ok s -> state_ok s.
Proof. intros H. eapply build_config_state_ok in H as [H _]; [exact H|]. vm_compute. reflexivity. Qed.

Lemma demo_world_ok : world_ok ok_protocol demo_world.
Proof. split; [done|]. intros s. apply demo_state_ok. Qed.

Lemma proxy_state_stays_consistent_witness :
  exists s ps sh, demo_state = Ok s /\
    schedule demo_world [1; 1; 0; 0; 0; 1]
      (map op_task [OpRecord demo_blocked; OpUpdate 1 (&"x.org") ListDeny]) (s, None) = (ps, sh) /\
    state_ok sh.1 /\ denied_domains (config sh.1) = Some [&"*.evil.org"; &"bad.foo.org"; &"x.org"].
Proof.
  destruct demo_state as [s| | |] eqn:E; [|vm_compute in E; discriminate..]. pose proof (demo_state_ok s E) as Hs.
  destruct (schedule demo_world [1; 1; 0; 0; 0; 1]
      (map op_task [OpRecord demo_blocked; OpUpdate 1 (&"x.org") ListDeny]) (s, None)) as [ps sh] eqn:Er.
  exists s, ps, sh. split; [done|]. split; [done|]. split.
  - apply (proxy_state_stays_consistent [OpRecord demo_blocked; OpUpdate 1 (&"x.org") ListDeny] s None ps sh); [|exact Hs|].
    + by repeat constructor.
    + rewrite <- Er. apply schedule_pool, demo_world_ok.
  - vm_compute in E. injection E as <-. vm_compute in Er. injection Er as <- <-. reflexivity.
Defined.

(** Requests in full and in limited mode, with nobody else around *)
Definition demo_on (m : NetworkMode) : NetworkProxySettings :=
  let c := demo_settings in
  {| enabled := true; proxy_url := proxy_url c; enable_socks5 := enable_socks5 c; socks_url := socks_url c;
     enable_socks5_udp := enable_socks5_udp c; allow_upstream_proxy := allow_upstream_proxy c;
     dangerously_allow_non_loopback_proxy := dangerously_allow_non_loopback_proxy c;
     dangerously_allow_all_unix_sockets := dangerously_allow_all_unix_sockets c; mode := m; domains := domains c;
     unix_sockets := unix_sockets c; allow_local_binding := allow_local_binding c; mitm := mitm c; mitm_hooks := mitm_hooks c |}.

Definition demo_answer {A : Type} (m : NetworkMode) (p : task A) : comp str (A * nat) :=
  let? s := build_config_state (demo_on m) no_constraints in
  let '(r, sh) := alone demo_world p (s, None) in Ok (r, length (blocked sh.1)).

Definition answer_status (r : comp Response Response) : N := match r with Ok r | Err r => status r | _ => 0 end.

Lemma demo_requests :
  demo_answer Full (let! r := http_plain_proxy false false (demo_request (&"POST") (&"api.foo.org")) in Ret (answer_status r)) = Ok (200%N, 0) /\
  demo_answer Limited (let! r := http_plain_proxy false false (demo_request (&"POST") (&"api.foo.org")) in Ret (answer_status r)) = Ok (403%N, 1) /\
  demo_answer Full (let! r := http_plain_proxy false true (demo_request (&"GET") (&"x.evil.org")) in Ret (answer_status r)) = Ok (403%N, 1) /\
  demo_answer Full (let! r := http_plain_proxy false true (demo_request (&"GET") (&"other.org")) in Ret (answer_status r)) = Ok (200%N, 0) /\
  demo_answer Full (handle_socks5_tcp false (&"api.foo.org") 443 None) = Ok (Ok tt, 0) /\
  demo_answer Limited (handle_socks5_tcp false (&"api.foo.org") 443 None) = Ok (Err (blocked_message REASON_METHOD_NOT_ALLOWED), 1).
Proof. split_and!; vm_compute; reflexivity. Qed.
