(* ===== verification/ConfigLayers.v ===== *)
(** * config/src: TOML values, their merge, and the stack of configuration layers

    [merge.rs], [key_aliases.rs], [overrides.rs], [fingerprint::record_origins] and
    [state.rs], with the order of [ConfigLayerSource] from
    app-server-protocol/src/protocol/v2/config.rs.  A layer's [version], a digest of its
    contents, and the managed requirements a stack carries along are left out. *)
From Stdlib Require Import Sorted.
From S2P Require Import Prelude RustStr RustPath AbsolutePath PathPrefix IpAddr DomainPolicy.

(** ** Values

    A table keeps the order its keys were inserted in (the crate's [preserve_order]):
    [tinsert] replaces a value where it stands or appends, [tremove] closes the gap.
    A float is given by its bits, a date by its text. *)
Definition Map (A : Type) := list (str * A).

Inductive toml :=
| TString (s : str)
| TInteger (z : Z)
| TFloat (bits : Z)
| TBoolean (b : bool)
| TDatetime (text : str)
| TArray (items : list toml)
| TTable (table : list (str * toml)).

Section map.
Context {A : Type}.

Fixpoint tget (k : str) (t : Map A) : option A :=
  match t with
  | [] => None
  | (k', v) :: t => if str_eqb k k' then Some v else tget k t
  end.

Fixpoint tinsert (k : str) (v : A) (t : Map A) : Map A :=
  match t with
  | [] => [(k, v)]
  | (k', v') :: t => if str_eqb k k' then (k', v) :: t else (k', v') :: tinsert k v t
  end.

Definition tremove (k : str) (t : Map A) : Map A := List.filter (fun kv => negb (str_eqb k kv.1)) t.

Definition textend (t new : Map A) : Map A := foldl (fun t kv => tinsert kv.1 kv.2 t) t new.

(** ** Aliases of keys *)

Record ConfigKeyAlias := { table_path : list str; legacy_key : str; canonical_key : str }.

Definition CONFIG_KEY_ALIASES : list ConfigKeyAlias := [{|
  table_path := [&"memories"];
  legacy_key := &"no_memories_if_mcp_or_web_search";
  canonical_key := &"disable_on_external_context" |}].

Definition apply_alias (path : list str) (table : Map A) (alias : ConfigKeyAlias) : Map A :=
  if bool_decide (path = table_path alias) then
    match tget (legacy_key alias) table with
    | Some value =>
        let table := tremove (legacy_key alias) table in
        match tget (canonical_key alias) table with
        | Some _ => table
        | None => tinsert (canonical_key alias) value table
        end
    | None => table
    end
  else table.

Definition normalize_key_aliases (path : list str) (table : Map A) : Map A :=
  foldl (apply_alias path) table CONFIG_KEY_ALIASES.

Definition normalize_network_domain_keys (table : Map A) : Map A :=
  foldl (fun t kv => tinsert (normalize_host kv.1) kv.2 t) [] table.
End map.

Fixpoint normalized_with_key_aliases (value : toml) (path : list str) : toml :=
  match value with
  | TTable table =>
      let normalized := textend [] (map (fun kv => (kv.1, normalized_with_key_aliases kv.2 (path ++ [kv.1]))) table) in
      TTable (normalize_key_aliases path normalized)
  | TArray items => TArray (map (fun item => normalized_with_key_aliases item path) items)
  | _ => value
  end.

(** ** Merging *)

Definition is_permission_network_domains_path (path : list str) : bool :=
  match path with
  | [permissions; _; network; domains] =>
      str_eqb permissions (&"permissions") && str_eqb network (&"network") && str_eqb domains (&"domains")
  | _ => false
  end.

(** Both tables of a merge, ready to be combined key by key *)
Definition prepare {A} (path : list str) (table : Map A) : Map A :=
  let table := normalize_key_aliases path table in
  if is_permission_network_domains_path path then normalize_network_domain_keys table else table.

(** An entry of the overlay is carried with the merge of its value into another, so
    that the recursion follows the overlay; [merge_eq] below is the equation as the
    code has it. *)
Fixpoint merge_onto (overlay base : toml) (path : list str) : toml :=
  match overlay, base with
  | TTable overlay_table, TTable base_table =>
      let entries := map (fun kv => (kv.1, (kv.2, merge_onto kv.2))) overlay_table in
      TTable (foldl (fun table entry =>
        let '(key, (value, merge)) := entry in
        match tget key table with
        | Some existing => tinsert key (merge existing (path ++ [key])) table
        | None => tinsert key (normalized_with_key_aliases value (path ++ [key])) table
        end) (prepare path base_table) (prepare path entries))
  | _, _ => normalized_with_key_aliases overlay path
  end.

Definition merge_toml_values_at_path (base overlay : toml) (path : list str) : toml := merge_onto overlay base path.
Definition merge_toml_values (base overlay : toml) : toml := merge_toml_values_at_path base overlay [].

(** ** Overrides of the command line *)

Definition default_empty_table : toml := TTable [].
Definition table_of (v : toml) : list (str * toml) := match v with TTable t => t | _ => [] end.

Fixpoint apply_segments (segments : list str) (value current : toml) : toml :=
  match segments with
  | [] => current
  | [segment] => TTable (tinsert segment value (table_of current))
  | segment :: rest =>
      let table := table_of current in
      TTable (tinsert segment (apply_segments rest value (default default_empty_table (tget segment table))) table)
  end.
Definition apply_toml_override (root : toml) (path : str) (value : toml) : toml :=
  apply_segments (split_char dot path) value root.
Definition build_cli_overrides_layer (cli_overrides : list (str * toml)) : toml :=
  foldl (fun root o => apply_toml_override root o.1 o.2) default_empty_table cli_overrides.

(** ** Layers *)

Inductive ConfigLayerSource :=
| Mdm (domain key : str)
| System (file : str)
| User (file : str) (profile : option str)
| Project (dot_codex_folder : str)
| SessionFlags
| LegacyManagedConfigTomlFromFile (file : str)
| LegacyManagedConfigTomlFromMdm.

#[export] Instance ConfigLayerSource_eq_dec : EqDecision ConfigLayerSource.
Proof. solve_decision. Defined.

Definition precedence (source : ConfigLayerSource) : Z :=
  match source with
  | Mdm _ _ => 0
  | System _ => 10
  | User _ profile => match profile with Some _ => 21 | None => 20 end
  | Project _ => 25
  | SessionFlags => 30
  | LegacyManagedConfigTomlFromFile _ => 40
  | LegacyManagedConfigTomlFromMdm => 50
  end.

Record ConfigLayerEntry := {
  l_name : ConfigLayerSource;
  l_config : toml;
  l_raw_toml : option str;
  l_disabled_reason : option str;
  l_hooks_config_folder_override : option str
}.

Definition new_entry (name : ConfigLayerSource) (config : toml) : ConfigLayerEntry :=
  {| l_name := name; l_config := config; l_raw_toml := None; l_disabled_reason := None;
     l_hooks_config_folder_override := None |}.
Definition new_with_raw_toml (name : ConfigLayerSource) (config : toml) (raw_toml : str) : ConfigLayerEntry :=
  {| l_name := name; l_config := config; l_raw_toml := Some raw_toml; l_disabled_reason := None;
     l_hooks_config_folder_override := None |}.
Definition new_disabled (name : ConfigLayerSource) (config : toml) (disabled_reason : str) : ConfigLayerEntry :=
  {| l_name := name; l_config := config; l_raw_toml := None; l_disabled_reason := Some disabled_reason;
     l_hooks_config_folder_override := None |}.
Definition layer_is_disabled (l : ConfigLayerEntry) : bool :=
  match l_disabled_reason l with Some _ => true | None => false end.
Definition with_hooks_config_folder_override (folder : option str) (l : ConfigLayerEntry) : ConfigLayerEntry :=
  {| l_name := l_name l; l_config := l_config l; l_raw_toml := l_raw_toml l; l_disabled_reason := l_disabled_reason l;
     l_hooks_config_folder_override := folder |}.

Definition config_folder (l : ConfigLayerEntry) : option str :=
  match l_name l with
  | System file | User file _ => parent file
  | Project dot_codex_folder => Some dot_codex_folder
  | Mdm _ _ | SessionFlags | LegacyManagedConfigTomlFromFile _ | LegacyManagedConfigTomlFromMdm => None
  end.
Definition hooks_config_folder (l : ConfigLayerEntry) : option str :=
  match l_hooks_config_folder_override l with Some folder => Some folder | None => config_folder l end.

Inductive ConfigLayerStackOrdering := LowestPrecedenceFirst | HighestPrecedenceFirst.

Record ConfigLayerStack := {
  layers : list ConfigLayerEntry;
  user_layer_index : option nat;
  ignore_user_and_project_exec_policy_rules : bool;
  startup_warnings : option (list str)
}.

Definition is_user_layer (l : ConfigLayerEntry) : bool := match l_name l with User _ _ => true | _ => false end.

(** [is_sorted] by precedence *)
Fixpoint layers_sorted (ls : list ConfigLayerEntry) : bool :=
  match ls with
  | a :: ((b :: _) as rest) => (precedence (l_name a) <=? precedence (l_name b))%Z && layers_sorted rest
  | _ => true
  end.

Definition NOT_IN_ORDER : str := &"config layers are not in correct precedence order".
Definition NO_PARENT : str := &"project layer has no parent directory".
Definition PROJECT_ORDER : str := &"project layers are not ordered from root to cwd".

(** The folder of a project layer lies beside or below the one before it. *)
Definition check_project (previous current : str) : comp str unit :=
  match parent previous with
  | None => Err NO_PARENT
  | Some par =>
      if path_eqb previous current || negb (existsb (fun ancestor => path_eqb ancestor par) (ancestors current))
      then Err PROJECT_ORDER
      else Ok tt
  end.

Fixpoint verify_from (index : nat) (user : option nat) (previous : option str) (ls : list ConfigLayerEntry)
  : comp str (option nat) :=
  match ls with
  | [] => Ok user
  | layer :: rest =>
      let user := if is_user_layer layer then Some index else user in
      match l_name layer with
      | Project current =>
          let? _ := match previous with Some p => check_project p current | None => Ok tt end in
          verify_from (S index) user (Some current) rest
      | _ => verify_from (S index) user previous rest
      end
  end.

Definition verify_layer_ordering (ls : list ConfigLayerEntry) : comp str (option nat) :=
  if layers_sorted ls then verify_from 0 None None ls else Err NOT_IN_ORDER.

Definition new_stack (ls : list ConfigLayerEntry) : comp str ConfigLayerStack :=
  let? user_layer_index := verify_layer_ordering ls in
  Ok {| layers := ls; user_layer_index := user_layer_index; ignore_user_and_project_exec_policy_rules := false;
        startup_warnings := None |}.

Definition with_rules_ignored (b : bool) (s : ConfigLayerStack) : ConfigLayerStack :=
  {| layers := layers s; user_layer_index := user_layer_index s; ignore_user_and_project_exec_policy_rules := b;
     startup_warnings := startup_warnings s |}.
Definition with_startup_warnings (w : list str) (s : ConfigLayerStack) : ConfigLayerStack :=
  {| layers := layers s; user_layer_index := user_layer_index s;
     ignore_user_and_project_exec_policy_rules := ignore_user_and_project_exec_policy_rules s;
     startup_warnings := Some w |}.

Definition get_active_user_layer (s : ConfigLayerStack) : option ConfigLayerEntry :=
  match user_layer_index s with Some index => layers s !! index | None => None end.
Definition get_user_config_file (s : ConfigLayerStack) : option str :=
  match get_active_user_layer s with
  | Some layer => match l_name layer with User file _ => Some file | _ => None end
  | None => None
  end.

Definition get_layers (s : ConfigLayerStack) (ordering : ConfigLayerStackOrdering) (include_disabled : bool)
  : list ConfigLayerEntry :=
  let ls := List.filter (fun layer => include_disabled || negb (layer_is_disabled layer)) (layers s) in
  match ordering with HighestPrecedenceFirst => reverse ls | LowestPrecedenceFirst => ls end.
Definition layers_high_to_low (s : ConfigLayerStack) : list ConfigLayerEntry := get_layers s HighestPrecedenceFirst false.
Definition get_user_layers (s : ConfigLayerStack) (ordering : ConfigLayerStackOrdering) (include_disabled : bool)
  : list ConfigLayerEntry := List.filter is_user_layer (get_layers s ordering include_disabled).

Definition merge_layers (ls : list ConfigLayerEntry) : toml :=
  foldl (fun merged layer => merge_toml_values merged (l_config layer)) default_empty_table ls.

Definition effective_user_config (s : ConfigLayerStack) : option toml :=
  match get_user_layers s LowestPrecedenceFirst false with
  | [] => None
  | user_layers => Some (merge_layers user_layers)
  end.
Definition effective_config (s : ConfigLayerStack) : toml := merge_layers (get_layers s LowestPrecedenceFirst false).

(** [Iterator::position], [Vec::remove] and [Vec::insert] at such a position *)
Definition position {A} (f : A -> bool) (l : list A) : option nat := fst <$> list_find (fun x => f x = true) l.
Definition insert_layer (layer : ConfigLayerEntry) (ls : list ConfigLayerEntry) : list ConfigLayerEntry :=
  match position (fun l => (precedence (l_name layer) <? precedence (l_name l))%Z) ls with
  | Some index => take index ls ++ layer :: drop index ls
  | None => ls ++ [layer]
  end.

(** the last user layer *)
Fixpoint last_user (index : nat) (ls : list ConfigLayerEntry) : option nat :=
  match ls with
  | [] => None
  | l :: rest =>
      match last_user (S index) rest with
      | Some i => Some i
      | None => if is_user_layer l then Some index else None
      end
  end.

Definition has_file (config_toml : str) (l : ConfigLayerEntry) : bool :=
  match l_name l with User file _ => path_eqb file config_toml | _ => false end.

Definition with_layers (ls : list ConfigLayerEntry) (s : ConfigLayerStack) : ConfigLayerStack :=
  {| layers := ls; user_layer_index := last_user 0 ls;
     ignore_user_and_project_exec_policy_rules := ignore_user_and_project_exec_policy_rules s;
     startup_warnings := startup_warnings s |}.

(** [ProfileV2Name::from_str] *)
Definition is_profile_char (c : char) : bool :=
  is_ascii_digit c || ((65 <=? c)%N && (c <=? 90)%N) || ((97 <=? c)%N && (c <=? 122)%N) || (c =? 95)%N || (c =? 45)%N.
Definition profile_v2_name (value : str) : option str :=
  if str_eqb value [] || negb (forallb is_profile_char value) then None else Some value.

Definition with_user_config_profile (s : ConfigLayerStack) (config_toml : str) (profile : option str) (user_config : toml)
  : ConfigLayerStack :=
  let user_layer := new_entry (User config_toml profile) user_config in
  let ls :=
    match position (has_file config_toml) (layers s) with
    | Some index => take index (layers s) ++ drop (S index) (layers s)
    | None => layers s
    end in
  with_layers (insert_layer user_layer ls) s.

Definition known_profile (config_toml : str) (l : ConfigLayerEntry) : option str :=
  match l_name l with
  | User file profile =>
      if path_eqb file config_toml then match profile with Some p => profile_v2_name p | None => None end else None
  | _ => None
  end.

Definition with_user_config (s : ConfigLayerStack) (config_toml : str) (user_config : toml) : ConfigLayerStack :=
  with_user_config_profile s config_toml (head (omap (known_profile config_toml) (layers s))) user_config.

Definition with_user_layer_from (s other : ConfigLayerStack) : ConfigLayerStack :=
  let user_layers := List.filter is_user_layer (layers other) in
  let ls := List.filter (fun l => negb (is_user_layer l)) (layers s) in
  with_layers (foldl (fun ls user_layer => insert_layer user_layer ls) ls user_layers) s.

(** ** Where a setting comes from *)

Fixpoint record_origins (value : toml) (meta : ConfigLayerSource) (path : list str)
    (origins : gmap str ConfigLayerSource) : gmap str ConfigLayerSource :=
  match value with
  | TTable table => foldl (fun origins kv => record_origins kv.2 meta (path ++ [kv.1]) origins) origins table
  | TArray items =>
      (foldl (fun acc item => (S acc.1, record_origins item meta (path ++ [show_nat acc.1]) acc.2)) (0, origins) items).2
  | _ => match path with [] => origins | _ => <[join [dot] path := meta]> origins end
  end.

Definition origins (s : ConfigLayerStack) : gmap str ConfigLayerSource :=
  foldl (fun origins layer =>
    record_origins (normalized_with_key_aliases (l_config layer) []) (l_name layer) [] origins)
    ∅ (get_layers s LowestPrecedenceFirst false).

(** ** Theorems *)

Section toml_ind.
Context (P : toml -> Prop)
  (HS : forall s, P (TString s)) (HI : forall z, P (TInteger z)) (HF : forall z, P (TFloat z))
  (HB : forall b, P (TBoolean b)) (HD : forall s, P (TDatetime s))
  (HA : forall l, Forall P l -> P (TArray l)) (HT : forall t, Forall (fun kv => P kv.2) t -> P (TTable t)).

Fixpoint toml_nested_ind (v : toml) : P v :=
  match v with
  | TString s => HS s | TInteger z => HI z | TFloat z => HF z | TBoolean b => HB b | TDatetime s => HD s
  | TArray l => HA l ((fix go l := match l return Forall P l with
                                   | [] => Forall_nil_2 P
                                   | x :: l => Forall_cons_2 P x l (toml_nested_ind x) (go l) end) l)
  | TTable t => HT t ((fix go t := match t return Forall (fun kv => P kv.2) t with
                                   | [] => Forall_nil_2 _
                                   | kv :: t => Forall_cons_2 (fun kv => P kv.2) kv t (toml_nested_ind kv.2) (go t) end) t)
  end.
End toml_ind.

Section maps.
Context {A : Type}.
Implicit Types (t : Map A) (k : str).

Definition keys t : list str := map fst t.

Lemma tget_insert k k' v t : tget k (tinsert k' v t) = if str_eqb k k' then Some v else tget k t.
Proof.
  induction t as [|[j w] t IH]; simpl; [done|]. destruct (str_eqb k' j) eqn:E; simpl.
  - apply str_eqb_eq in E as ->. by destruct (str_eqb k j).
  - rewrite IH. destruct (str_eqb k j) eqn:E2, (str_eqb k k') eqn:E3; try done.
    apply str_eqb_eq in E2 as ->, E3 as ->. rewrite str_eqb_refl in E. done.
Qed.

Lemma tget_elem k v t : tget k t = Some v -> (k, v) ∈ t.
Proof.
  induction t as [|[j w] t IH]; simpl; [done|]. destruct (str_eqb k j) eqn:E; intros; simplify_eq; [|set_solver].
  apply str_eqb_eq in E as ->. set_solver.
Qed.

Lemma tget_None k t : tget k t = None <-> k ∉ keys t.
Proof.
  induction t as [|[j w] t IH]; simpl; [split; [intros; apply not_elem_of_nil|done]|].
  rewrite not_elem_of_cons. destruct (str_eqb k j) eqn:E.
  - apply str_eqb_eq in E as ->. split; [done|tauto].
  - rewrite IH. split; [|tauto]. intros. split; [|done]. intros ->. by rewrite str_eqb_refl in E.
Qed.

Lemma tget_NoDup k v t : NoDup (keys t) -> (k, v) ∈ t -> tget k t = Some v.
Proof.
  induction t as [|[j w] t IH]; simpl; [set_solver|]. intros [Hj Hn]%NoDup_cons [E|Hin]%elem_of_cons.
  - simplify_eq. by rewrite str_eqb_refl.
  - destruct (str_eqb k j) eqn:E; [|by apply IH]. apply str_eqb_eq in E as ->. destruct Hj.
    apply list_elem_of_fmap. by exists (j, v).
Qed.

Lemma keys_insert k v t : keys (tinsert k v t) = if bool_decide (k ∈ keys t) then keys t else keys t ++ [k].
Proof.
  induction t as [|[j w] t IH]; simpl; [done|]. destruct (str_eqb k j) eqn:E.
  - apply str_eqb_eq in E as ->. by rewrite bool_decide_eq_true_2 by set_solver.
  - assert (k <> j) by (intros ->; by rewrite str_eqb_refl in E). unfold keys in *. simpl. rewrite IH.
    repeat case_bool_decide; set_solver.
Qed.

Lemma NoDup_insert k v t : NoDup (keys t) -> NoDup (keys (tinsert k v t)).
Proof.
  intros H. rewrite keys_insert. case_bool_decide; [done|]. apply NoDup_app. split; [done|]. split; [set_solver|].
  apply NoDup_singleton.
Qed.

Lemma tinsert_new k v t : k ∉ keys t -> tinsert k v t = t ++ [(k, v)].
Proof.
  induction t as [|[j w] t IH]; simpl; [done|]. rewrite not_elem_of_cons. intros [? ?].
  destruct (str_eqb k j) eqn:E; [apply str_eqb_eq in E; congruence|]. by rewrite IH.
Qed.

Lemma textend_fresh t new : NoDup (keys (t ++ new)) -> textend t new = t ++ new.
Proof.
  revert t. induction new as [|[k v] new IH]; intros t Hn; simpl; [by rewrite app_nil_r|].
  unfold textend in *. simpl. rewrite tinsert_new.
  - rewrite IH; [by rewrite <- app_assoc|]. by rewrite <- app_assoc.
  - unfold keys in *. rewrite map_app in Hn. apply NoDup_app in Hn as (_ & Hn & _). intros Hin. apply (Hn k Hin). set_solver.
Qed.

Lemma textend_nil new : NoDup (keys new) -> textend [] new = new.
Proof. apply (textend_fresh []). Qed.

Lemma NoDup_remove k t : NoDup (keys t) -> NoDup (keys (tremove k t)).
Proof.
  unfold keys, tremove. induction t as [|[j w] t IH]; simpl; [done|]. intros [Hj Hn]%NoDup_cons.
  destruct (negb (str_eqb k j)); simpl; [|by apply IH]. apply NoDup_cons. split; [|by apply IH].
  intros Hin. apply Hj. apply list_elem_of_fmap in Hin as (y & -> & Hy). apply elem_of_filterb in Hy as [Hy _].
  apply list_elem_of_fmap. by exists y.
Qed.

Lemma tget_remove k k' t : tget k (tremove k' t) = if str_eqb k k' then None else tget k t.
Proof.
  induction t as [|[j w] t IH]; simpl; [by destruct (str_eqb k k')|]. destruct (str_eqb k' j) eqn:E; simpl.
  - apply str_eqb_eq in E as ->. rewrite IH. by destruct (str_eqb k j).
  - rewrite IH. destruct (str_eqb k j) eqn:E2, (str_eqb k k') eqn:E3; try done.
    apply str_eqb_eq in E2 as ->, E3 as ->. by rewrite str_eqb_refl in E.
Qed.
End maps.

(** *** Key aliases *)

(** Every table has each key once, as a map does. *)
Fixpoint unique_keys (v : toml) : bool :=
  match v with
  | TTable t => bool_decide (NoDup (keys t)) && forallb (fun kv => unique_keys kv.2) t
  | TArray items => forallb unique_keys items
  | _ => true
  end.

Lemma unique_keys_table t : unique_keys (TTable t) = true <->
  NoDup (keys t) /\ Forall (fun kv => unique_keys kv.2 = true) t.
Proof. simpl. by rewrite andb_true_iff, bool_decide_eq_true, forallb_Forall. Qed.

Definition aliased_path : list str := [&"memories"].

Lemma aliases_other {A} path (t : Map A) : path <> aliased_path -> normalize_key_aliases path t = t.
Proof. intros H. unfold normalize_key_aliases, CONFIG_KEY_ALIASES. simpl. unfold apply_alias. by rewrite bool_decide_eq_false_2. Qed.

Lemma aliases_NoDup {A} path (t : Map A) : NoDup (keys t) -> NoDup (keys (normalize_key_aliases path t)).
Proof.
  intros H. unfold normalize_key_aliases, CONFIG_KEY_ALIASES. simpl. unfold apply_alias. case_bool_decide; [|done].
  case_match; [|done]. pose proof (NoDup_remove (legacy_key {| table_path := [&"memories"];
    legacy_key := &"no_memories_if_mcp_or_web_search"; canonical_key := &"disable_on_external_context" |}) t H).
  case_match; [done|by apply NoDup_insert].
Qed.

Lemma aliases_legacy {A} path (t : Map A) :
  path = aliased_path -> tget (&"no_memories_if_mcp_or_web_search") (normalize_key_aliases path t) = None.
Proof.
  intros ->. unfold normalize_key_aliases, CONFIG_KEY_ALIASES. simpl. unfold apply_alias.
  rewrite bool_decide_eq_true_2 by done. cbn [legacy_key canonical_key].
  destruct (tget (&"no_memories_if_mcp_or_web_search") t) eqn:E; [|done].
  case_match; rewrite ?tget_insert, tget_remove, str_eqb_refl; [done|]. by case_match eqn:E2; [vm_compute in E2|].
Qed.

Lemma aliases_settled {A} path (t : Map A) :
  (path = aliased_path -> tget (&"no_memories_if_mcp_or_web_search") t = None) -> normalize_key_aliases path t = t.
Proof.
  intros H. destruct (decide (path = aliased_path)) as [Hp|]; [|by apply aliases_other].
  unfold normalize_key_aliases, CONFIG_KEY_ALIASES. simpl. unfold apply_alias. cbn [legacy_key canonical_key].
  by rewrite H, bool_decide_eq_true_2.
Qed.

Lemma aliases_idem {A} path (t : Map A) : normalize_key_aliases path (normalize_key_aliases path t) = normalize_key_aliases path t.
Proof. apply aliases_settled. apply aliases_legacy. Qed.

Lemma Forall_tget {A} (P : A -> Prop) (t : Map A) k v : Forall (fun kv => P kv.2) t -> tget k t = Some v -> P v.
Proof. intros H E%tget_elem. rewrite Forall_forall in H. apply (H _ E). Qed.

Lemma map_values_id {A} (f : str * A -> A) (t : Map A) :
  Forall (fun kv => f kv = kv.2) t -> map (fun kv => (kv.1, f kv)) t = t.
Proof. induction 1 as [|[k v] t E _ IH]; simpl in *; [done|]. by rewrite E, IH. Qed.

Lemma keys_map {A B} (f : str * A -> B) (t : Map A) : keys (map (fun kv => (kv.1, f kv)) t) = keys t.
Proof. unfold keys. rewrite map_map. by apply map_ext. Qed.

Lemma normalized_table t path : NoDup (keys t) ->
  normalized_with_key_aliases (TTable t) path =
  TTable (normalize_key_aliases path (map (fun kv => (kv.1, normalized_with_key_aliases kv.2 (path ++ [kv.1]))) t)).
Proof. intros H. simpl. rewrite textend_nil; [done|]. by rewrite keys_map. Qed.

(** Below the first level nothing is renamed. *)
Lemma normalized_deep v : forall path, 2 <= length path -> unique_keys v = true -> normalized_with_key_aliases v path = v.
Proof.
  induction v as [ | | | | |l IH|t IH] using toml_nested_ind; intros path Hp Hu; try done.
  - simpl in *. apply forallb_Forall in Hu. f_equal. induction IH; [done|]. simpl. apply Forall_cons in Hu as [? ?].
    f_equal; auto.
  - apply unique_keys_table in Hu as [Hn Hu]. rewrite normalized_table by done. rewrite map_values_id.
    + rewrite aliases_other; [done|]. intros ->. simpl in Hp. lia.
    + apply Forall_forall. intros kv Hin. rewrite Forall_forall in IH, Hu. apply IH; [done| |by apply Hu]. solve_len.
Qed.

Lemma normalized_below t path : path <> [] -> unique_keys (TTable t) = true ->
  normalized_with_key_aliases (TTable t) path = TTable (normalize_key_aliases path t).
Proof.
  intros Hp [Hn Hu]%unique_keys_table. rewrite normalized_table by done. rewrite map_values_id; [done|].
  eapply Forall_impl; [exact Hu|]. simpl. intros kv E. apply normalized_deep; [|done]. destruct path; [done|]. solve_len.
Qed.

Lemma normalized_root t : NoDup (keys t) ->
  normalized_with_key_aliases (TTable t) [] = TTable (map (fun kv => (kv.1, normalized_with_key_aliases kv.2 [kv.1])) t).
Proof. intros H. rewrite normalized_table by done. by rewrite aliases_other. Qed.

Lemma aliases_values {A} (P : A -> Prop) path (t : Map A) :
  Forall (fun kv => P kv.2) t -> Forall (fun kv => P kv.2) (normalize_key_aliases path t).
Proof.
  assert (forall k v (t : Map A), P v -> Forall (fun kv => P kv.2) t -> Forall (fun kv => P kv.2) (tinsert k v t)) as Hi.
  { clear t. intros k v t Hv. induction 1 as [|[j w] t Hw Ht IH]; simpl; [by repeat constructor|].
    destruct (str_eqb k j); by constructor. }
  assert (forall k (t : Map A), Forall (fun kv => P kv.2) t -> Forall (fun kv => P kv.2) (tremove k t)) as Hr.
  { clear t. intros k t H. apply Forall_forall. intros kv [Hin _]%elem_of_filterb. rewrite Forall_forall in H. by apply H. }
  intros H. unfold normalize_key_aliases, CONFIG_KEY_ALIASES. simpl. unfold apply_alias. case_bool_decide; [|done].
  case_match eqn:E; [|done]. pose proof (Forall_tget _ _ _ _ H E). case_match; auto.
Qed.

Lemma normalized_unique v : forall path, unique_keys v = true -> unique_keys (normalized_with_key_aliases v path) = true.
Proof.
  induction v as [ | | | | |l IH|t IH] using toml_nested_ind; intros path Hu; try done.
  - simpl in *. rewrite forallb_Forall in *. apply Forall_fmap. rewrite Forall_forall in *. intros x Hx. by apply IH, Hu.
  - apply unique_keys_table in Hu as [Hn Hu]. rewrite normalized_table by done. apply unique_keys_table. split.
    + apply aliases_NoDup. by rewrite keys_map.
    + apply (aliases_values (fun v => unique_keys v = true)). apply Forall_fmap. rewrite Forall_forall in *. intros kv Hin.
      by apply IH, Hu.
Qed.

Lemma normalized_idem v : forall path, unique_keys v = true ->
  normalized_with_key_aliases (normalized_with_key_aliases v path) path = normalized_with_key_aliases v path.
Proof.
  induction v as [ | | | | |l IH|t IH] using toml_nested_ind; intros path Hu; try done.
  - simpl in *. rewrite forallb_Forall in Hu. f_equal. rewrite map_map. apply map_ext_in. intros x Hx%list_elem_of_In.
    rewrite Forall_forall in *. by apply IH, Hu.
  - destruct path as [|s path].
    + pose proof Hu as [Hn Hu']%unique_keys_table. rewrite normalized_root by done.
      rewrite normalized_root by (by rewrite keys_map). f_equal. rewrite map_map. apply map_ext_in.
      intros kv Hin%list_elem_of_In. simpl. f_equal. rewrite Forall_forall in *. by apply IH, Hu'.
    + pose proof (normalized_unique _ (s :: path) Hu) as Hv. rewrite normalized_below in Hv |- * by done.
      rewrite normalized_below by done. by rewrite aliases_idem.
Qed.

(** *** Merging two tables *)

Definition merge_entries {A B} (f : str -> B -> option A -> A) (base : Map A) (overlay : Map B) : Map A :=
  foldl (fun t kv => tinsert kv.1 (f kv.1 kv.2 (tget kv.1 t)) t) base overlay.

Lemma merge_entries_get {A B} (f : str -> B -> option A -> A) b o k : NoDup (keys o) ->
  tget k (merge_entries f b o) = match tget k o with Some w => Some (f k w (tget k b)) | None => tget k b end.
Proof.
  revert b. induction o as [|[j w] o IH]; intros b Hn; simpl; [done|]. apply NoDup_cons in Hn as [Hj Hn].
  unfold merge_entries in *. simpl. rewrite IH by done. destruct (str_eqb k j) eqn:E.
  - apply str_eqb_eq in E as ->. rewrite (proj2 (tget_None j o)) by done. by rewrite tget_insert, str_eqb_refl.
  - rewrite tget_insert, E. done.
Qed.

Lemma merge_entries_NoDup {A B} (f : str -> B -> option A -> A) b o : NoDup (keys b) -> NoDup (keys (merge_entries f b o)).
Proof.
  revert b. induction o as [|kv o IH]; intros b Hn; [done|]. apply IH. by apply NoDup_insert.
Qed.

(** The merge of one key, and the equation of the merge as the code has it *)
Definition merge_key (path : list str) (key : str) (value : toml) (existing : option toml) : toml :=
  match existing with
  | Some e => merge_toml_values_at_path e value (path ++ [key])
  | None => normalized_with_key_aliases value (path ++ [key])
  end.

Lemma prepare_map {A B} path (g : A -> B) (t : Map A) :
  prepare path (map (fun kv => (kv.1, g kv.2)) t) = map (fun kv => (kv.1, g kv.2)) (prepare path t).
Proof.
  assert (forall k (t : Map A), tget k (map (fun kv => (kv.1, g kv.2)) t) = g <$> tget k t) as Hg.
  { clear t. intros k t. induction t as [|[j w] t IH]; simpl; [done|]. by destruct (str_eqb k j). }
  assert (forall k v (t : Map A), tinsert k (g v) (map (fun kv => (kv.1, g kv.2)) t) =
    map (fun kv => (kv.1, g kv.2)) (tinsert k v t)) as Hi.
  { clear t. intros k v t. induction t as [|[j w] t IH]; simpl; [done|]. destruct (str_eqb k j); simpl; [done|by rewrite IH]. }
  assert (forall k (t : Map A), tremove k (map (fun kv => (kv.1, g kv.2)) t) = map (fun kv => (kv.1, g kv.2)) (tremove k t)) as Hr.
  { clear t. intros k t. unfold tremove. induction t as [|[j w] t IH]; simpl; [done|].
    destruct (negb (str_eqb k j)); simpl; by rewrite IH. }
  assert (normalize_key_aliases path (map (fun kv => (kv.1, g kv.2)) t) =
    map (fun kv => (kv.1, g kv.2)) (normalize_key_aliases path t)) as Ha.
  { unfold normalize_key_aliases, CONFIG_KEY_ALIASES. cbn [foldl]. unfold apply_alias. case_bool_decide; [|done].
    rewrite Hg. destruct (tget _ t); [|done]. cbn [fmap option_fmap option_map]. rewrite Hr, Hg.
    destruct (tget _ (tremove _ t)); [done|]. cbn [fmap option_fmap option_map]. by rewrite Hi. }
  unfold prepare. rewrite Ha. destruct (is_permission_network_domains_path path); [|done].
  unfold normalize_network_domain_keys. generalize (normalize_key_aliases path t). intros l.
  change (@nil (str * B)) with (map (fun kv : str * A => (kv.1, g kv.2)) []) at 1. generalize (@nil (str * A)).
  induction l as [|kv l IH]; intros acc; [done|]. cbn [map foldl fst snd]. rewrite Hi. apply IH.
Qed.

Lemma merge_eq b o path : merge_toml_values_at_path (TTable b) (TTable o) path =
  TTable (merge_entries (merge_key path) (prepare path b) (prepare path o)).
Proof.
  unfold merge_toml_values_at_path. cbn [merge_onto]. f_equal.
  rewrite (prepare_map path (fun v => (v, merge_onto v)) o).
  generalize (prepare path b). induction (prepare path o) as [|[k v] l IH]; intros t; [done|].
  cbn [map foldl fst snd]. unfold merge_entries in *. cbn [foldl fst snd]. rewrite IH. f_equal. unfold merge_key.
  by destruct (tget k t).
Qed.

Lemma merge_other base overlay path :
  (forall b o, base = TTable b -> overlay = TTable o -> False) ->
  merge_toml_values_at_path base overlay path = normalized_with_key_aliases overlay path.
Proof. intros H. destruct overlay, base; try done. by destruct (H table0 table). Qed.

(** *** The value at a path of keys *)

Fixpoint get_path (ks : list str) (v : toml) : option toml :=
  match ks with
  | [] => Some v
  | k :: ks => match v with TTable t => match tget k t with Some c => get_path ks c | None => None end | _ => None end
  end.

Definition is_setting (v : toml) : bool := match v with TTable _ => false | _ => true end.

(** No key waits to be replaced by another *)
Definition settled {A} (path : list str) (t : Map A) : bool :=
  bool_decide (NoDup (keys t))
  && negb (bool_decide (path = aliased_path) && bool_decide (&"no_memories_if_mcp_or_web_search" ∈ keys t))
  && (negb (is_permission_network_domains_path path) || forallb (fun k => str_eqb (normalize_host k) k) (keys t)).

Fixpoint canonical (v : toml) (path : list str) : bool :=
  match v with
  | TTable t => settled path t && forallb (fun kv => canonical kv.2 (path ++ [kv.1])) t
  | TArray items => forallb (fun item => canonical item path) items
  | _ => true
  end.

Lemma settled_spec {A} path (t : Map A) : settled path t = true <->
  NoDup (keys t) /\ (path = aliased_path -> &"no_memories_if_mcp_or_web_search" ∉ keys t) /\
  (is_permission_network_domains_path path = true -> Forall (fun k => normalize_host k = k) (keys t)).
Proof.
  unfold settled. rewrite !andb_true_iff, bool_decide_eq_true, negb_true_iff, andb_false_iff, !bool_decide_eq_false,
    orb_true_iff, negb_true_iff, forallb_Forall.
  assert (Forall (fun k => str_eqb (normalize_host k) k = true) (keys t) <-> Forall (fun k => normalize_host k = k) (keys t)) as ->.
  { apply Forall_iff. intros k. apply str_eqb_eq. }
  destruct (is_permission_network_domains_path path), (decide (path = aliased_path)); naive_solver.
Qed.

Lemma domain_keys_settled {A} (t : Map A) : NoDup (keys t) -> Forall (fun k => normalize_host k = k) (keys t) ->
  normalize_network_domain_keys t = t.
Proof.
  intros Hn Hk. rewrite <- (textend_nil t) at 2 by done. unfold normalize_network_domain_keys, textend. generalize (@nil (str * A)).
  clear Hn. induction t as [|[k v] t IH]; intros acc; simpl; [done|]. apply Forall_cons in Hk as [E Hk]. simpl in E. rewrite E.
  by apply IH.
Qed.

Lemma prepare_settled {A} path (t : Map A) : settled path t = true -> prepare path t = t.
Proof.
  intros (Hn & Ha & Hd)%settled_spec. unfold prepare. rewrite aliases_settled.
  - destruct (is_permission_network_domains_path path); [|done]. auto using domain_keys_settled.
  - intros Hp. apply tget_None. auto.
Qed.

Lemma canonical_table t path : canonical (TTable t) path = true <->
  settled path t = true /\ Forall (fun kv => canonical kv.2 (path ++ [kv.1]) = true) t.
Proof. simpl. by rewrite andb_true_iff, forallb_Forall. Qed.

Lemma canonical_get t path k v : canonical (TTable t) path = true -> tget k t = Some v -> canonical v (path ++ [k]) = true.
Proof. intros [_ H]%canonical_table E%tget_elem. rewrite Forall_forall in H. apply (H _ E). Qed.

Lemma canonical_normalized v : forall path, canonical v path = true -> normalized_with_key_aliases v path = v.
Proof.
  induction v as [ | | | | |l IH|t IH] using toml_nested_ind; intros path Hc; try done.
  - simpl in *. rewrite forallb_Forall in Hc. f_equal. rewrite <- (map_id l) at 2. apply map_ext_in.
    intros x Hx%list_elem_of_In. rewrite Forall_forall in *. by apply IH, Hc.
  - apply canonical_table in Hc as [Hs Hc]. apply settled_spec in Hs as (Hn & Ha & _).
    rewrite normalized_table by done. rewrite map_values_id.
    + rewrite aliases_settled; [done|]. intros Hp. apply tget_None. auto.
    + rewrite Forall_forall in *. intros kv Hin. by apply IH, Hc.
Qed.

(** *** The merge, key by key *)
Lemma merge_canonical b o path : canonical (TTable b) path = true -> canonical (TTable o) path = true ->
  exists t, merge_toml_values_at_path (TTable b) (TTable o) path = TTable t /\ settled path t = true /\
    forall k, tget k t =
      match tget k o with
      | Some v => Some (match tget k b with Some e => merge_toml_values_at_path e v (path ++ [k]) | None => v end)
      | None => tget k b
      end.
Proof.
  intros Hb Ho. pose proof Hb as [Sb _]%canonical_table. pose proof Ho as [So _]%canonical_table.
  rewrite merge_eq, !prepare_settled by done. eexists. split; [done|].
  pose proof Sb as (Nb & Ab & Db)%settled_spec. pose proof So as (No & Ao & Do)%settled_spec.
  assert (forall k, tget k (merge_entries (merge_key path) b o) = match tget k o with
    | Some v => Some (merge_key path k v (tget k b)) | None => tget k b end) as Hg by (intros; by apply merge_entries_get).
  split; [|].
  - assert (forall k, k ∈ keys (merge_entries (merge_key path) b o) -> k ∈ keys b \/ k ∈ keys o) as Hk.
    { intros k Hin. destruct (decide (k ∈ keys o)); [by right|left]. destruct (decide (k ∈ keys b)); [done|].
      exfalso. revert Hin. apply tget_None. rewrite Hg. by rewrite !(proj2 (tget_None _ _)). }
    apply settled_spec. split; [by apply merge_entries_NoDup|]. split.
    + intros Hp [Hin|Hin]%Hk; [by apply Ab|by apply Ao].
    + intros Hp. specialize (Db Hp). specialize (Do Hp). rewrite Forall_forall in *. intros k [Hin|Hin]%Hk; auto.
  - intros k. rewrite Hg. destruct (tget k o) as [v|] eqn:E; [|done]. unfold merge_key. destruct (tget k b); [done|].
    f_equal. apply canonical_normalized. by eapply canonical_get.
Qed.

Lemma merge_keeps_canonical o : forall b path, canonical b path = true -> canonical o path = true ->
  canonical (merge_toml_values_at_path b o path) path = true.
Proof.
  induction o as [ | | | | |l IH|o IH] using toml_nested_ind; intros base path Hb Ho;
    try (rewrite merge_other by done; rewrite canonical_normalized; done).
  destruct base as [ | | | | | |bt]; try (rewrite merge_other by done; rewrite canonical_normalized; done).
  destruct (merge_canonical bt o path Hb Ho) as (t & -> & Hs & Hg). apply canonical_table. split; [done|].
  apply settled_spec in Hs as (Hn & _). apply Forall_forall. intros [k v] Hin. apply tget_NoDup in Hin; [|done].
  rewrite Hg in Hin. simpl. destruct (tget k o) as [w|] eqn:Eo.
  - pose proof (canonical_get _ _ _ _ Ho Eo) as Hw. simplify_eq. destruct (tget k bt) as [e|] eqn:Eb; [|done].
    rewrite Forall_forall in IH. apply (IH (k, w)); [by apply tget_elem|by apply (canonical_get bt)|done].
  - by apply (canonical_get bt).
Qed.

Lemma merge_layers_snoc ls l : merge_layers (ls ++ [l]) = merge_toml_values (merge_layers ls) (l_config l).
Proof. unfold merge_layers. by rewrite foldl_app. Qed.

(** *** Reading a configuration

    What a table says under a key: in the table of a network profile's domains, the last
    value under any spelling of the host; in the table [memories], the value under the
    current name, else under the legacy one; anywhere else the value under the key *)
Definition names_domains (path : list str) : bool :=
  bool_decide (length path = 4) && bool_decide (take 1 path = [&"permissions"]) && bool_decide (drop 2 path = [&"network"; &"domains"]).

Definition entry {A} (path : list str) (k : str) (t : Map A) : option A :=
  if names_domains path then last (omap (fun kv => if str_eqb (normalize_host kv.1) k then Some kv.2 else None) t)
  else if bool_decide (path = [&"memories"]) then
    if str_eqb k (&"no_memories_if_mcp_or_web_search") then None
    else if str_eqb k (&"disable_on_external_context") then
      match tget k t with Some v => Some v | None => tget (&"no_memories_if_mcp_or_web_search") t end
    else tget k t
  else tget k t.

(** The value at a path of keys below [path]; tables inside an array carry current names. *)
Fixpoint says (path ks : list str) (v : toml) : option toml :=
  match ks with
  | [] => Some (normalized_with_key_aliases v path)
  | k :: ks => match v with TTable t => match entry path k t with Some c => says (path ++ [k]) ks c | None => None end | _ => None end
  end.

(** A value has something to say about a path: a value there, or a setting above it. *)
Fixpoint speaks_of (path ks : list str) (v : toml) : bool :=
  match ks with
  | [] => true
  | k :: ks => match v with TTable t => match entry path k t with Some c => speaks_of (path ++ [k]) ks c | None => false end | _ => true end
  end.

(** Every table has each key once, and the host patterns among the keys have a normal form
    that is normal. *)
Fixpoint readable (v : toml) (path : list str) : bool :=
  match v with
  | TTable t =>
      bool_decide (NoDup (keys t)) &&
      (negb (names_domains path) || forallb (fun k => str_eqb (normalize_host (normalize_host k)) (normalize_host k)) (keys t)) &&
      forallb (fun kv => readable kv.2 (path ++ [kv.1])) t
  | TArray items => forallb unique_keys items
  | _ => true
  end.

Lemma names_domains_spec path : is_permission_network_domains_path path = names_domains path.
Proof.
  unfold names_domains. destruct path as [|a [|b [|c [|d [|e path]]]]]; try done; try (by rewrite !andb_false_r).
  cbn [is_permission_network_domains_path take drop length]. rewrite bool_decide_eq_true_2 by done. cbn [andb].
  apply eq_bool_prop_intro. rewrite !Is_true_true, !andb_true_iff, !bool_decide_eq_true, !str_eqb_eq. naive_solver.
Qed.

Lemma readable_table t path : readable (TTable t) path = true <->
  NoDup (keys t) /\ (names_domains path = true -> Forall (fun k => normalize_host (normalize_host k) = normalize_host k) (keys t)) /\
  Forall (fun kv => readable kv.2 (path ++ [kv.1]) = true) t.
Proof.
  cbn [readable]. rewrite !andb_true_iff, bool_decide_eq_true, orb_true_iff, negb_true_iff, !forallb_Forall.
  assert (Forall (fun k => str_eqb (normalize_host (normalize_host k)) (normalize_host k) = true) (keys t) <->
    Forall (fun k => normalize_host (normalize_host k) = normalize_host k) (keys t)) as ->
    by (apply Forall_iff; intros k; apply str_eqb_eq).
  destruct (names_domains path); naive_solver.
Qed.

Lemma readable_unique v : forall path, readable v path = true -> unique_keys v = true.
Proof.
  induction v as [ | | | | |l IH|t IH] using toml_nested_ind; intros path H; try done.
  apply readable_table in H as (Hn & _ & H). apply unique_keys_table. split; [done|]. rewrite Forall_forall in *.
  intros kv Hin. by eapply IH, H.
Qed.

(** Below the tables with special keys the path does not matter any more. *)
Definition inert (path : list str) : Prop := 5 <= length path \/ exists k rest, path = &"memories" :: k :: rest.

Lemma inert_plain path : inert path -> names_domains path = false /\ path <> aliased_path.
Proof.
  intros [Hl|(k & rest & ->)]; (split; [|try done]).
  - unfold names_domains. rewrite bool_decide_eq_false_2 by lia. done.
  - intros ->. simpl in Hl. lia.
  - unfold names_domains. rewrite (bool_decide_eq_false_2 (take 1 _ = _)); [by rewrite andb_false_r|done].
Qed.
Lemma inert_snoc path k : inert path -> inert (path ++ [k]).
Proof. intros [Hl|(j & rest & ->)]; [left; solve_len|right; by exists j, (rest ++ [k])]. Qed.

Lemma special_inert path k : names_domains path = true \/ path = aliased_path -> inert (path ++ [k]).
Proof.
  intros [H| ->]; [left|right; by exists k, []]. unfold names_domains in H. apply andb_true_iff in H as [[H%bool_decide_eq_true _]%andb_true_iff _]. solve_len.
Qed.

Lemma readable_inert v : forall path, inert path -> unique_keys v = true -> readable v path = true.
Proof.
  induction v as [ | | | | |l IH|t IH] using toml_nested_ind; intros path Hp Hu; try done.
  apply unique_keys_table in Hu as [Hn Hu]. apply readable_table. destruct (inert_plain _ Hp) as [Hd _]. split_and!; [done|by rewrite Hd|].
  rewrite Forall_forall in *. intros kv Hin. apply IH; auto using inert_snoc.
Qed.

Lemma str_eqb_sym a b : str_eqb a b = str_eqb b a.
Proof. apply eq_bool_prop_intro. rewrite !Is_true_true, !str_eqb_eq. naive_solver. Qed.

Lemma domain_keys_get {A} k (t : Map A) :
  tget k (normalize_network_domain_keys t) = last (omap (fun kv => if str_eqb (normalize_host kv.1) k then Some kv.2 else None) t).
Proof.
  assert (forall acc, tget k (foldl (fun t kv => tinsert (normalize_host kv.1) kv.2 t) acc t) =
    match last (omap (fun kv => if str_eqb (normalize_host kv.1) k then Some kv.2 else None) t) with Some v => Some v | None => tget k acc end) as H.
  { induction t as [|kv t IH]; intros acc; [done|]. cbn [foldl]. rewrite IH, tget_insert. cbn [omap list_omap].
    rewrite (str_eqb_sym k). destruct (str_eqb (normalize_host kv.1) k); [|done].
    rewrite last_cons. by destruct (last _). }
  unfold normalize_network_domain_keys. rewrite H. by destruct (last _).
Qed.

Lemma domain_keys_keys {A} (t : Map A) : NoDup (keys (normalize_network_domain_keys t)) /\
  (forall k, k ∈ keys (normalize_network_domain_keys t) -> exists j, j ∈ keys t /\ k = normalize_host j).
Proof.
  unfold normalize_network_domain_keys.
  assert (forall (P : str -> Prop) acc, NoDup (keys acc) -> Forall P (keys acc) -> Forall (fun j => P (normalize_host j)) (keys t) ->
    let r := foldl (fun t kv => tinsert (normalize_host kv.1) kv.2 t) acc t in NoDup (keys r) /\ Forall P (keys r)) as H.
  { intros P. induction t as [|kv t IH]; intros acc Hn Ha Ht; [done|]. apply Forall_cons in Ht as [Hk Ht]. cbn [foldl].
    apply IH; [by apply NoDup_insert| |done]. rewrite keys_insert. case_bool_decide; [done|]. apply Forall_app. by rewrite Forall_singleton. }
  destruct (H (fun k => exists j, j ∈ keys t /\ k = normalize_host j) [] NoDup_nil_2 (Forall_nil_2 _)) as [Hn Hf].
  { apply Forall_forall. intros j Hj. by exists j. }
  split; [done|]. by rewrite Forall_forall in Hf.
Qed.

Lemma prepare_get {A} path k (t : Map A) : tget k (prepare path t) = entry path k t.
Proof.
  unfold prepare, entry. rewrite names_domains_spec. destruct (names_domains path) eqn:Ed.
  - rewrite aliases_other; [apply domain_keys_get|]. intros ->. by vm_compute in Ed.
  - change [&"memories"] with aliased_path. case_bool_decide as Hp; [|by rewrite aliases_other].
    unfold normalize_key_aliases, CONFIG_KEY_ALIASES. cbn [foldl]. unfold apply_alias. cbn [table_path legacy_key canonical_key].
    rewrite bool_decide_eq_true_2 by done.
    destruct (str_eqb k (&"no_memories_if_mcp_or_web_search")) eqn:E1; [apply str_eqb_eq in E1 as ->|].
    + destruct (tget _ t) eqn:E; [|done]. case_match; rewrite ?tget_insert, tget_remove, str_eqb_refl; [done|].
      by case_match eqn:E2; [vm_compute in E2|].
    + destruct (tget (&"no_memories_if_mcp_or_web_search") t) eqn:E; [|by case_match; [case_match|]].
      rewrite tget_remove. replace (str_eqb (&"disable_on_external_context") _) with false by (by vm_compute).
      destruct (str_eqb k (&"disable_on_external_context")) eqn:E2.
      * apply str_eqb_eq in E2 as ->. case_match; rewrite ?tget_insert, ?tget_remove, ?E1, ?str_eqb_refl; congruence.
      * case_match; rewrite ?tget_insert, ?E2, tget_remove, E1; done.
Qed.

Lemma prepare_aliases {A} path (t : Map A) : prepare path (normalize_key_aliases path t) = prepare path t.
Proof. unfold prepare. by rewrite aliases_idem. Qed.

Lemma entry_settled {A} path k (t : Map A) : settled path t = true -> entry path k t = tget k t.
Proof. intros H. by rewrite <- prepare_get, prepare_settled. Qed.

Lemma prepared_settled t path : readable (TTable t) path = true -> settled path (prepare path t) = true.
Proof.
  intros (Hn & Hs & _)%readable_table. apply settled_spec. unfold prepare. rewrite names_domains_spec.
  destruct (names_domains path) eqn:Ed.
  - assert (path <> aliased_path) by (intros ->; by vm_compute in Ed). rewrite aliases_other by done.
    destruct (domain_keys_keys t) as [Hn' Hk]. split_and!; [done..|]. intros _. apply Forall_forall. intros k (j & Hj & ->)%Hk.
    specialize (Hs eq_refl). rewrite Forall_forall in Hs. by apply Hs.
  - split_and!; [by apply aliases_NoDup|by intros; apply tget_None, aliases_legacy|done].
Qed.

(** A value found under a key stands under that key in the table, or under another spelling
    of it where the path does not matter any more. *)
Lemma entry_elem {A} path k v (t : Map A) : entry path k t = Some v ->
  exists j, (j, v) ∈ t /\ (j = k \/ inert (path ++ [k])).
Proof.
  unfold entry. destruct (names_domains path) eqn:Ed.
  - intros Hl%last_Some_elem_of. apply list_elem_of_omap in Hl as ([j w] & Hin & Hj). cbn in Hj. case_match; simplify_eq.
    exists j. split; [done|]. right. apply special_inert. by left.
  - case_bool_decide as Hp; [|intros ?%tget_elem; eauto]. assert (inert (path ++ [k])) by (apply special_inert; by right).
    repeat case_match; intros; simplify_eq; eauto using tget_elem.
Qed.

Lemma entry_readable path k v t : readable (TTable t) path = true -> entry path k t = Some v -> readable v (path ++ [k]) = true.
Proof.
  intros (_ & _ & H)%readable_table (j & Hin & Hj)%entry_elem. rewrite Forall_forall in H. specialize (H _ Hin). cbn in H.
  destruct Hj as [->|Hi]; [done|]. apply readable_inert; [done|]. by eapply readable_unique.
Qed.

Lemma readable_normalized v : forall path, readable v path = true -> readable (normalized_with_key_aliases v path) path = true.
Proof.
  induction v as [ | | | | |l IH|t IH] using toml_nested_ind; intros path H; try done.
  - apply (normalized_unique (TArray l) path) in H. done.
  - pose proof (readable_unique _ _ H) as Hu. pose proof H as (Hn & Hs & Hc)%readable_table. destruct path as [|s path].
    + rewrite normalized_root by done. apply readable_table. rewrite keys_map. split_and!; [done..|].
      apply Forall_fmap. rewrite Forall_forall in *. intros kv Hin. apply IH; [done|]. by apply (Hc kv).
    + rewrite normalized_below by done. destruct (decide (s :: path = aliased_path)) as [Hp|]; [|by rewrite aliases_other].
      apply readable_table. split_and!; [by apply aliases_NoDup|intros Ed; rewrite Hp in Ed; by vm_compute in Ed|].
      apply unique_keys_table in Hu as [_ Hu]. apply (aliases_values (fun v => unique_keys v = true) (s :: path)) in Hu.
      eapply Forall_impl; [exact Hu|]. intros kv Hkv. apply readable_inert; [|done]. apply special_inert. by right.
Qed.

Lemma says_normalized ks : forall v path, readable v path = true ->
  says path ks (normalized_with_key_aliases v path) = says path ks v.
Proof.
  induction ks as [|k ks IH]; intros v path H; cbn [says].
  - f_equal. apply normalized_idem. by eapply readable_unique.
  - destruct v as [ | | | | | |t]; try done. pose proof (readable_unique _ _ H) as Hu.
    destruct path as [|s path].
    + pose proof H as (Hn & _)%readable_table. rewrite normalized_root by done.
      assert (forall A (t : Map A), entry [] k t = tget k t) as He by done. rewrite !He.
      pose proof (fun v => entry_readable [] k v t H) as Hr. rewrite He in Hr. clear - IH Hr.
      induction t as [|[j w] t IHt]; simpl in *; [done|]. destruct (str_eqb k j) eqn:E; [|by apply IHt].
      apply str_eqb_eq in E as <-. apply IH. by apply Hr.
    + rewrite normalized_below by done. by rewrite <- prepare_get, prepare_aliases, prepare_get.
Qed.

(** *** The merge, as it reads *)
Lemma merge_readable_get b o path : readable (TTable b) path = true -> readable (TTable o) path = true ->
  exists t, merge_toml_values_at_path (TTable b) (TTable o) path = TTable t /\ settled path t = true /\
    forall k, tget k t =
      match entry path k o with
      | Some v => Some (match entry path k b with Some e => merge_toml_values_at_path e v (path ++ [k])
                        | None => normalized_with_key_aliases v (path ++ [k]) end)
      | None => entry path k b
      end.
Proof.
  intros Hb%prepared_settled Ho%prepared_settled. rewrite merge_eq. eexists. split; [done|].
  pose proof Hb as (Nb & Ab & Db)%settled_spec. pose proof Ho as (No & Ao & Do)%settled_spec.
  assert (forall k, tget k (merge_entries (merge_key path) (prepare path b) (prepare path o)) = match tget k (prepare path o) with
    | Some v => Some (merge_key path k v (tget k (prepare path b))) | None => tget k (prepare path b) end) as Hg
    by (intros; by apply merge_entries_get).
  split; [|intros k; by rewrite Hg, !prepare_get].
  assert (forall k, k ∈ keys (merge_entries (merge_key path) (prepare path b) (prepare path o)) ->
    k ∈ keys (prepare path b) \/ k ∈ keys (prepare path o)) as Hk.
  { intros k Hin. destruct (decide (k ∈ keys (prepare path o))); [by right|left]. destruct (decide (k ∈ keys (prepare path b))); [done|].
    exfalso. revert Hin. apply tget_None. rewrite Hg. by rewrite !(proj2 (tget_None _ _)). }
  apply settled_spec. split; [by apply merge_entries_NoDup|]. split.
  - intros Hp [Hin|Hin]%Hk; [by apply Ab|by apply Ao].
  - intros Hp. specialize (Db Hp). specialize (Do Hp). rewrite Forall_forall in *. intros k [Hin|Hin]%Hk; auto.
Qed.

Lemma merge_keeps_readable o : forall base path, readable base path = true -> readable o path = true ->
  readable (merge_toml_values_at_path base o path) path = true.
Proof.
  induction o as [ | | | | |l _|ot IH] using toml_nested_ind; intros base path Hb Ho;
    try (rewrite merge_other by done; by apply readable_normalized).
  destruct base as [ | | | | | |bt]; try (rewrite merge_other by done; by apply readable_normalized).
  destruct (merge_readable_get bt ot path Hb Ho) as (t & -> & Hs & Hg). apply settled_spec in Hs as (Hn & _ & Hd).
  apply readable_table. split_and!; [done| |].
  - intros Ed. rewrite <- names_domains_spec in Ed. eapply Forall_impl; [by apply Hd|]. intros k E. by rewrite !E.
  - apply Forall_forall. intros [k v] Hin. apply tget_NoDup in Hin; [|done]. rewrite Hg in Hin. simpl.
    destruct (entry path k ot) as [w|] eqn:Eo; [|by apply (entry_readable _ _ _ bt)].
    pose proof (entry_readable _ _ _ _ Ho Eo) as Hw. simplify_eq. destruct (entry path k bt) as [e|] eqn:Eb; [|by apply readable_normalized].
    apply entry_elem in Eo as (j & Hin & _). rewrite Forall_forall in IH. apply (IH (j, w) Hin); [|done]. by apply (entry_readable _ _ _ bt).
Qed.

Lemma both_tables b o : (exists b' o', b = TTable b' /\ o = TTable o') \/ ~ (exists b' o', b = TTable b' /\ o = TTable o').
Proof. destruct b; try (right; naive_solver); destruct o; try (right; naive_solver). left; eauto. Qed.

(** A setting of the merge is the overlay's, or the base's where the overlay is silent. *)
Lemma merge_setting ks : forall b o path x, readable b path = true -> readable o path = true -> is_setting x = true ->
  says path ks (merge_toml_values_at_path b o path) = Some x <->
  says path ks o = Some x \/ speaks_of path ks o = false /\ says path ks b = Some x.
Proof.
  induction ks as [|k ks IH]; intros b o path x Hb Ho Hx.
  - assert (speaks_of path [] o = true) as -> by done. split; [|intros [E|[? _]]; [|done]].
    + intros E. left. destruct (both_tables b o) as [(b' & o' & -> & ->)|Hn].
      * rewrite merge_eq in E. cbn [says] in E. simpl in E. by simplify_eq.
      * rewrite merge_other in E by naive_solver. by rewrite says_normalized in E.
    + rewrite merge_other; [by rewrite says_normalized|]. intros b' o' -> ->. cbn [says] in E. simpl in E. by simplify_eq.
  - destruct (both_tables b o) as [(bt & ot & -> & ->)|Hn].
    + destruct (merge_readable_get bt ot path Hb Ho) as (t & -> & Hs & Hg). cbn [says speaks_of].
      rewrite (entry_settled _ _ _ Hs), Hg. destruct (entry path k ot) as [v|] eqn:Eo; [|split; [by right|by intros [|[_ ?]]]].
      pose proof (entry_readable _ _ _ _ Ho Eo). destruct (entry path k bt) as [e|] eqn:Eb.
      * apply IH; [by apply (entry_readable _ _ _ bt)|done|done].
      * rewrite says_normalized by done. split; [by left|]. by intros [|[_ ?]].
    + rewrite merge_other, says_normalized by naive_solver. split; [by left|]. intros [?|[Hc Hg]]; [done|].
      destruct o as [ | | | | | |ot]; try done. destruct b as [ | | | | | |bt]; try done. destruct Hn. by exists bt, ot.
Qed.

Lemma merge_layers_readable ls : Forall (fun l => readable (l_config l) [] = true) ls -> readable (merge_layers ls) [] = true.
Proof.
  induction ls as [|l ls IH] using rev_ind; intros H; [by vm_compute|]. apply Forall_app in H as [Hls Hl].
  rewrite Forall_singleton in Hl. rewrite merge_layers_snoc. unfold merge_toml_values. apply merge_keeps_readable; [by apply IH|done].
Qed.

Lemma merged_setting ls ks x : Forall (fun l => readable (l_config l) [] = true) ls -> is_setting x = true ->
  says [] ks (merge_layers ls) = Some x <->
  exists below l above, ls = below ++ l :: above /\ says [] ks (l_config l) = Some x /\
    Forall (fun h => speaks_of [] ks (l_config h) = false) above.
Proof.
  intros H Hx. induction ls as [|l ls IH] using rev_ind.
  - split; [|by intros (below & ? & ? & E & _); destruct below]. destruct ks; simpl; [|done]. intros. by simplify_eq.
  - apply Forall_app in H as [Hls Hl]. specialize (IH Hls). pose proof (merge_layers_readable _ Hls) as Hcs.
    rewrite Forall_singleton in Hl. rewrite merge_layers_snoc. unfold merge_toml_values.
    rewrite merge_setting, IH by done. split.
    + intros [E|(Hn & below & m & above & -> & Hm & Ha)].
      * exists ls, l, []. by repeat split.
      * exists below, m, (above ++ [l]). rewrite <- app_assoc. repeat split; [done|]. apply Forall_app. by rewrite Forall_singleton.
    + intros (below & m & above & E & Hm & Ha). destruct above as [|h above _] using rev_ind.
      * apply app_inj_tail in E as [-> ->]. by left.
      * apply Forall_app in Ha as [Ha Hh]. rewrite Forall_singleton in Hh. rewrite app_comm_cons, app_assoc in E.
        apply app_inj_tail in E as [-> ->]. right. split; [done|]. by exists below, m, above.
Qed.

(** C25: the setting at a path of keys in the effective configuration is that of the
    highest enabled layer that speaks of the path at all (through a value there or a
    setting of one of the tables above it).  Effective configuration and layers are read
    alike: a legacy name counts as the name that replaced it, and in the domains of a
    network profile all spellings of a host count as one.  The layers are TOML documents,
    in which every table has each key once, and the normal forms of the host patterns in
    them are normal. *)
Theorem effective_setting_of_highest_layer (s : ConfigLayerStack) (ks : list str) (x : toml) :
  Forall (fun l => readable (l_config l) [] = true) (get_layers s LowestPrecedenceFirst false) -> is_setting x = true ->
  says [] ks (effective_config s) = Some x <->
  exists below l above, get_layers s LowestPrecedenceFirst false = below ++ l :: above /\
    says [] ks (l_config l) = Some x /\ Forall (fun h => speaks_of [] ks (l_config h) = false) above.
Proof. apply merged_setting. Qed.

(** *** The order of the layers *)

Definition stack_ok (s : ConfigLayerStack) : Prop := verify_layer_ordering (layers s) = Ok (user_layer_index s).

Definition not_above (a b : ConfigLayerEntry) : Prop := (precedence (l_name a) <= precedence (l_name b))%Z.
Definition project_folder (l : ConfigLayerEntry) : option str := match l_name l with Project f => Some f | _ => None end.

Fixpoint project_chain (previous : option str) (folders : list str) : Prop :=
  match folders with
  | [] => True
  | f :: rest => (forall p, previous = Some p -> check_project p f = Ok tt) /\ project_chain (Some f) rest
  end.

Lemma layers_sorted_iff ls : layers_sorted ls = true <-> StronglySorted not_above ls.
Proof.
  assert (Transitive not_above) by (intros a b c; unfold not_above; lia).
  transitivity (Sorted not_above ls); [|split; [by apply Sorted_StronglySorted|apply StronglySorted_Sorted]].
  induction ls as [|a [|b ls] IH]; [by split; [constructor|]|split; [by repeat constructor|done]|].
  change (layers_sorted (a :: b :: ls)) with ((precedence (l_name a) <=? precedence (l_name b))%Z && layers_sorted (b :: ls)).
  rewrite andb_true_iff, IH, Z.leb_le. split.
  - intros [? ?]. constructor; [done|]. by constructor.
  - intros Hs. inversion Hs as [|? ? ? Hr]. inversion Hr. done.
Qed.

Lemma verify_from_Ok ls : forall i u p r, verify_from i u p ls = Ok r <->
  project_chain p (omap project_folder ls) /\ r = match last_user i ls with Some j => Some j | None => u end.
Proof.
  assert (forall (c : comp str unit) k r, comp_bind c (fun _ => k) = Ok r <-> c = Ok tt /\ k = Ok (r : option nat)) as Hb.
  { intros c k r. destruct c as [[]| | |]; simpl; naive_solver. }
  induction ls as [|l ls IH]; intros i u p r; [simpl; naive_solver|]. cbn [verify_from last_user]. unfold is_user_layer.
  change (omap project_folder (l :: ls)) with
    (match project_folder l with Some f => f :: omap project_folder ls | None => omap project_folder ls end).
  unfold project_folder at 1. destruct (l_name l); rewrite ?Hb, IH; cbn [project_chain].
  4: { assert ((match p with Some q => check_project q dot_codex_folder | None => Ok tt end = Ok tt) <->
         forall q, p = Some q -> check_project q dot_codex_folder = Ok tt) as ->.
       { destruct p as [p|]; split; [intros ? ? [= <-]; done|eauto|done|done]. }
       destruct (last_user (S i) ls); tauto. }
  all: by destruct (last_user (S i) ls).
Qed.

Lemma stack_ok_iff ls u : verify_layer_ordering ls = Ok u <->
  StronglySorted not_above ls /\ project_chain None (omap project_folder ls) /\ u = last_user 0 ls.
Proof.
  unfold verify_layer_ordering. rewrite <- layers_sorted_iff. destruct (layers_sorted ls); [|naive_solver].
  rewrite verify_from_Ok. by destruct (last_user 0 ls); naive_solver.
Qed.

Lemma first_position {A} (f : A -> bool) l :
  match position f l with
  | Some i => exists a x b, l = a ++ x :: b /\ i = length a /\ f x = true /\ Forall (fun y => f y = false) a
  | None => Forall (fun y => f y = false) l
  end.
Proof.
  unfold position. destruct (list_find _ l) as [[i x]|] eqn:E; simpl.
  - apply list_find_Some in E as (Hl & Hx & Hn). exists (take i l), x, (drop (S i) l).
    pose proof (lookup_lt_Some _ _ _ Hl). split; [by rewrite take_drop_middle|]. split; [solve_len|]. split; [done|].
    apply Forall_lookup. intros j y Hy. apply not_true_iff_false. apply lookup_take_Some in Hy as [Hy Hj]. eauto.
  - apply list_find_None in E. eapply Forall_impl; [exact E|]. intros y. by rewrite not_true_iff_false.
Qed.

(** A layer goes behind every layer that is not above it. *)
Lemma insert_layer_split x ls : exists a b, ls = a ++ b /\ insert_layer x ls = a ++ x :: b /\
  Forall (fun y => not_above y x) a /\ (forall y b', b = y :: b' -> ~ not_above y x).
Proof.
  pose proof (first_position (fun l => (precedence (l_name x) <? precedence (l_name l))%Z) ls) as H. unfold insert_layer.
  destruct (position _ ls) as [i|].
  - destruct H as (a & y & b & -> & -> & Hy & Ha). exists a, (y :: b). rewrite take_app_length, drop_app_length.
    split; [done|]. split; [done|]. split; [eapply Forall_impl; [exact Ha|]; intros z; unfold not_above; lia|].
    intros ? ? [= <- <-]. unfold not_above. lia.
  - exists ls, []. rewrite app_nil_r. repeat split; [|done]. eapply Forall_impl; [exact H|]. intros z. unfold not_above. lia.
Qed.

Lemma sorted_app_inv (a b : list ConfigLayerEntry) : StronglySorted not_above (a ++ b) <->
  StronglySorted not_above a /\ StronglySorted not_above b /\ Forall (fun x => Forall (not_above x) b) a.
Proof.
  induction a as [|x a IH]; simpl; [split; [intros; repeat split; [constructor|done|constructor]|by intros (_ & ? & _)]|].
  split.
  - intros [Hs Hx]%StronglySorted_inv. apply IH in Hs as (? & ? & ?). apply Forall_app in Hx as [? ?].
    repeat split; [by constructor|done|by constructor].
  - intros ([? ?]%StronglySorted_inv & ? & [? ?]%Forall_cons). constructor; [by apply IH|]. by apply Forall_app.
Qed.

Lemma insert_layer_sorted x ls : StronglySorted not_above ls -> StronglySorted not_above (insert_layer x ls).
Proof.
  destruct (insert_layer_split x ls) as (a & b & -> & -> & Ha & Hb). intros (Sa & Sb & Hab)%sorted_app_inv.
  apply sorted_app_inv. split; [done|]. split.
  - constructor; [done|]. destruct b as [|y b]; [constructor|]. pose proof (Hb y b eq_refl) as Hy.
    assert (not_above x y) by (unfold not_above in *; lia). constructor; [done|].
    apply StronglySorted_inv in Sb as [_ Sb]. eapply Forall_impl; [exact Sb|]. unfold not_above in *. lia.
  - rewrite Forall_forall in Ha, Hab |- *. intros z Hz. constructor; auto.
Qed.

Lemma omap_skip {A B} (f : A -> option B) x a b : f x = None -> omap f (a ++ x :: b) = omap f (a ++ b).
Proof. intros E. rewrite !omap_app. f_equal. change (omap f (x :: b)) with (match f x with Some y => y :: omap f b | None => omap f b end). by rewrite E. Qed.

Lemma filter_skip {A} (f : A -> bool) x a b : f x = false -> List.filter f (a ++ x :: b) = List.filter f (a ++ b).
Proof. intros E. rewrite !List.filter_app. f_equal. simpl. by rewrite E. Qed.

Lemma omap_filter_skip {A B} (f : A -> option B) (g : A -> bool) l :
  (forall x, g x = false -> f x = None) -> omap f (List.filter g l) = omap f l.
Proof.
  intros H. induction l as [|x l IH]; [done|]. simpl. destruct (g x) eqn:E.
  - change (omap f (x :: List.filter g l)) with (match f x with Some y => y :: omap f (List.filter g l) | None => omap f (List.filter g l) end).
    by rewrite IH.
  - by rewrite IH, (H x E).
Qed.

Lemma sorted_filter (g : ConfigLayerEntry -> bool) ls : StronglySorted not_above ls -> StronglySorted not_above (List.filter g ls).
Proof.
  induction 1 as [|x ls Hs IH Hx]; simpl; [constructor|]. destruct (g x); [|done]. constructor; [done|].
  apply Forall_forall. intros y [Hy _]%elem_of_filterb. rewrite Forall_forall in Hx. auto.
Qed.

Definition not_user (l : ConfigLayerEntry) : bool := negb (is_user_layer l).

(** What stays of a stack when only user layers are replaced *)
Definition same_but_user (ls new : list ConfigLayerEntry) : Prop :=
  (StronglySorted not_above ls -> StronglySorted not_above new) /\
  omap project_folder new = omap project_folder ls /\ List.filter not_user new = List.filter not_user ls.

Lemma not_user_no_folder l : is_user_layer l = true -> project_folder l = None.
Proof. unfold is_user_layer, project_folder. by destruct (l_name l). Qed.

Lemma insert_same_but_user x ls : is_user_layer x = true -> same_but_user ls (insert_layer x ls).
Proof.
  intros Hx. split; [apply insert_layer_sorted|]. destruct (insert_layer_split x ls) as (a & b & -> & -> & _).
  split; [by apply omap_skip, not_user_no_folder|]. apply filter_skip. unfold not_user. by rewrite Hx.
Qed.

Lemma same_but_user_trans a b c : same_but_user a b -> same_but_user b c -> same_but_user a c.
Proof. intros (? & E & F) (? & E' & F'). split; [auto|]. by rewrite E', F', E, F. Qed.

Lemma inserts_same_but_user xs ls : Forall (fun x => is_user_layer x = true) xs ->
  same_but_user ls (foldl (fun ls x => insert_layer x ls) ls xs).
Proof.
  intros H. revert ls. induction H as [|x xs Hx _ IH]; intros ls; [by repeat split|]. simpl.
  eapply same_but_user_trans; [by apply insert_same_but_user|apply IH].
Qed.

Lemma with_layers_ok s ls : stack_ok s -> same_but_user (layers s) ls -> stack_ok (with_layers ls s).
Proof.
  intros (Hs & Hc & _)%stack_ok_iff (Hsort & Ho & _). apply stack_ok_iff. simpl. rewrite Ho. auto.
Qed.

Lemma remove_same_but_user f ls : same_but_user ls
  (match position (has_file f) ls with Some i => take i ls ++ drop (S i) ls | None => ls end).
Proof.
  pose proof (first_position (has_file f) ls) as H. destruct (position _ ls) as [i|]; [|by repeat split].
  destruct H as (a & x & b & -> & -> & Hx & _).
  assert (is_user_layer x = true) as Hu by (unfold has_file, is_user_layer in *; by destruct (l_name x)).
  rewrite take_app_length. replace (drop (S (length a)) (a ++ x :: b)) with b.
  - split; [|split; symmetry; [by apply omap_skip, not_user_no_folder|apply filter_skip; unfold not_user; by rewrite Hu]].
    intros (Sa & Sb & Hab)%sorted_app_inv. apply sorted_app_inv. apply StronglySorted_inv in Sb as [Sb _]. repeat split; try done.
    eapply Forall_impl; [exact Hab|]. by intros y [_ ?]%Forall_cons.
  - change (x :: b) with ([x] ++ b). rewrite app_assoc. symmetry. apply drop_app_length'. solve_len.
Qed.

Lemma with_user_config_profile_same s f p cfg :
  same_but_user (layers s) (layers (with_user_config_profile s f p cfg)).
Proof. eapply same_but_user_trans; [apply remove_same_but_user|]. by apply insert_same_but_user. Qed.

Lemma with_user_layer_from_same s other : same_but_user (layers s) (layers (with_user_layer_from s other)).
Proof.
  eapply same_but_user_trans; [|apply inserts_same_but_user; apply Forall_forall; by intros x [_ ?]%elem_of_filterb].
  split; [apply sorted_filter|]. split.
  - apply omap_filter_skip. intros x Hx%negb_false_iff. by apply not_user_no_folder.
  - induction (layers s) as [|l ls IH]; [done|]. simpl. unfold not_user at 2. destruct (is_user_layer l) eqn:E; simpl; [done|].
    unfold not_user at 1. rewrite E. simpl. by rewrite IH.
Qed.

Lemma last_user_None ls : forall i, last_user i ls = None -> List.filter is_user_layer ls = [].
Proof.
  induction ls as [|x ls IH]; intros i E; [done|]. cbn [last_user] in E. simpl.
  destruct (last_user (S i) ls) eqn:E2; [done|]. destruct (is_user_layer x); [done|]. by eapply IH.
Qed.

Lemma last_user_Some ls : forall i j, last_user i ls = Some j -> exists n l,
  j = i + n /\ ls !! n = Some l /\ last (List.filter is_user_layer ls) = Some l.
Proof.
  induction ls as [|l ls IH]; intros i j E; [done|]. cbn [last_user] in E. destruct (last_user (S i) ls) as [j'|] eqn:E'.
  - simplify_eq. destruct (IH _ _ E') as (n & m & -> & Hn & Hm). exists (S n), m. split; [lia|]. split; [done|]. simpl.
    destruct (is_user_layer l); [|done]. by rewrite last_cons, Hm.
  - destruct (is_user_layer l) eqn:Eu; [|done]. simplify_eq. exists 0, l. split; [lia|]. split; [done|]. simpl. rewrite Eu.
    rewrite last_cons. destruct (last (List.filter is_user_layer ls)) eqn:El; [|done]. exfalso.
    by rewrite (last_user_None _ _ E') in El.
Qed.

Lemma active_user_layer s : stack_ok s -> get_active_user_layer s = last (List.filter is_user_layer (layers s)).
Proof.
  intros (_ & _ & Hu)%stack_ok_iff. unfold get_active_user_layer. rewrite Hu. destruct (last_user 0 (layers s)) as [j|] eqn:E.
  - apply last_user_Some in E as (n & l & -> & Hl & ->). done.
  - apply last_user_None in E. by rewrite E.
Qed.

(** However the user's configuration is replaced, the stack stays in the order of
    precedence with its project layers from the root to the working directory, its other
    layers are the same in the same order, the new settings are in it, and the active user
    layer is the highest user layer. *)
Theorem user_edits_keep_stack (s other : ConfigLayerStack) (file : str) (profile : option str) (cfg : toml) :
  stack_ok s ->
  forall r, r = with_user_config_profile s file profile cfg \/ r = with_user_config s file cfg \/ r = with_user_layer_from s other ->
  stack_ok r /\ List.filter not_user (layers r) = List.filter not_user (layers s) /\
  get_active_user_layer r = last (List.filter is_user_layer (layers r)) /\
  (r = with_user_config_profile s file profile cfg -> new_entry (User file profile) cfg ∈ layers r) /\
  (r = with_user_layer_from s other -> forall l, l ∈ layers other -> is_user_layer l = true -> l ∈ layers r).
Proof.
  intros Hs r Hr. assert (same_but_user (layers s) (layers r)) as Hsame.
  { destruct Hr as [ -> |[ -> | -> ]]; auto using with_user_config_profile_same, with_user_layer_from_same.
    apply with_user_config_profile_same. }
  assert (stack_ok r) as Hok by (destruct Hr as [ -> |[ -> | -> ]]; by apply with_layers_ok).
  split; [done|]. split; [by destruct Hsame as (_ & _ & ?)|]. split; [by apply active_user_layer|]. split; intros ->.
  - simpl. match goal with |- _ ∈ insert_layer ?x ?ls => destruct (insert_layer_split x ls) as (a & b & _ & -> & _) end. set_solver.
  - intros l Hl Hu. simpl. assert (forall xs ls, l ∈ xs \/ l ∈ ls -> l ∈ foldl (fun ls x => insert_layer x ls) ls xs) as H.
    { induction xs as [|x xs IH]; intros ls [Hin|Hin]; simpl; [set_solver|done| |];
        (destruct (insert_layer_split x ls) as (a & b & -> & E & _); apply IH; rewrite E; set_solver). }
    apply H. left. by apply elem_of_filterb.
Qed.

(** *** Overrides: the value is put at its path, every other path keeps its own *)
Lemma apply_segments_get segs v cur : segs <> [] -> get_path segs (apply_segments segs v cur) = Some v.
Proof.
  revert cur. induction segs as [|k [|k2 segs] IH]; intros cur Hne; [done| |].
  - cbn. by rewrite tget_insert, str_eqb_refl.
  - cbn [apply_segments get_path]. rewrite tget_insert, str_eqb_refl. by apply IH.
Qed.

Lemma apply_segments_other segs v : forall ks cur, segs <> [] -> ~ (segs `prefix_of` ks) -> ~ (ks `prefix_of` segs) ->
  get_path ks (apply_segments segs v cur) = get_path ks cur.
Proof.
  induction segs as [|k segs IH]; intros ks cur Hne H1 H2; [done|]. destruct ks as [|k' ks]; [by destruct H2; apply prefix_nil|].
  assert (get_path (k' :: ks) cur = match tget k' (table_of cur) with Some c => get_path ks c | None => None end) as ->
    by (by destruct cur).
  assert (exists w, apply_segments (k :: segs) v cur = TTable (tinsert k w (table_of cur)) /\
    (k' = k -> get_path ks w = match tget k (table_of cur) with Some c => get_path ks c | None => None end)) as (w & -> & Hw).
  { destruct segs as [|k2 segs].
    - exists v. split; [done|]. intros ->. destruct H1. apply prefix_cons, prefix_nil.
    - exists (apply_segments (k2 :: segs) v (default default_empty_table (tget k (table_of cur)))). split; [done|].
      intros ->. rewrite IH; [|done| |].
      + destruct (tget k (table_of cur)) as [c|]; [done|]. destruct ks; [|done]. destruct H2. apply prefix_cons, prefix_nil.
      + intros Hp. apply H1. by apply prefix_cons.
      + intros Hp. apply H2. by apply prefix_cons. }
  cbn [get_path]. rewrite tget_insert. destruct (str_eqb k' k) eqn:E; [|done]. apply str_eqb_eq in E as ->. auto.
Qed.

(** [-c path=value]: the value is what the dotted path leads to, and the value of any path
    that neither leads to it nor through it is as before. *)
Theorem override_sets_its_path (root : toml) (path : str) (value : toml) (ks : list str) :
  get_path (split_char dot path) (apply_toml_override root path value) = Some value /\
  (~ (split_char dot path `prefix_of` ks) -> ~ (ks `prefix_of` split_char dot path) ->
   get_path ks (apply_toml_override root path value) = get_path ks root).
Proof.
  assert (split_char dot path <> []) as Hne by (destruct path as [|c path]; simpl; [done|]; repeat case_match; done).
  split; [by apply apply_segments_get|by apply apply_segments_other].
Qed.

(** ** Examples *)

Definition demo_system : ConfigLayerEntry := new_entry (System (&"/etc/codex/config.toml"))
  (TTable [(&"model", TString (&"a")); (&"memories", TTable [(&"no_memories_if_mcp_or_web_search", TBoolean true)])]).
Definition demo_user : ConfigLayerEntry := new_entry (User (&"/home/u/.xli/config.toml") None)
  (TTable [(&"model", TString (&"b")); (&"memories", TTable [(&"use_memories", TBoolean true)])]).
Definition demo_project : ConfigLayerEntry := new_entry (Project (&"/w/.xli")) (TTable [(&"memories", TTable [])]).
Definition demo_stack : ConfigLayerStack :=
  {| layers := [demo_system; demo_user; demo_project]; user_layer_index := Some 1;
     ignore_user_and_project_exec_policy_rules := false; startup_warnings := None |}.

(** A host that the lower layer denies in one spelling and the higher allows in another *)
Definition spelled_stack : ConfigLayerStack :=
  let domains d := TTable [(&"permissions", TTable [(&"dev", TTable [(&"network", TTable [(&"domains", TTable d)])])])] in
  {| layers := [new_entry (System (&"/etc/codex/config.toml")) (domains [(&"example.com", TString (&"deny"))]);
                new_entry SessionFlags (domains [(&"EXAMPLE.COM", TString (&"allow"))])];
     user_layer_index := None; ignore_user_and_project_exec_policy_rules := false; startup_warnings := None |}.

Lemma effective_setting_of_highest_layer_witness :
  says [] [&"memories"; &"disable_on_external_context"] (effective_config demo_stack) = Some (TBoolean true) /\
  says [] [&"permissions"; &"dev"; &"network"; &"domains"; &"example.com"] (effective_config spelled_stack) = Some (TString (&"allow")).
Proof.
  split.
  - apply (effective_setting_of_highest_layer demo_stack); [repeat constructor| done |].
    exists [], demo_system, [demo_user; demo_project]. split; [by vm_compute|]. split; [by vm_compute|]. repeat constructor.
  - apply (effective_setting_of_highest_layer spelled_stack); [repeat constructor| done |].
    eexists [_], _, []. split; [by vm_compute|]. split; [by vm_compute|]. constructor.
Defined.

Lemma user_edits_keep_stack_witness :
  stack_ok (with_user_config demo_stack (&"/home/u/.xli/config.toml") (TTable [(&"model", TString (&"c"))])).
Proof.
  eapply (user_edits_keep_stack demo_stack demo_stack (&"/home/u/.xli/config.toml") None); [by vm_compute|by right; left].
Defined.

(** What a higher layer replaced keeps an origin: the origins of the merged view name a
    field, [a.x], that the merged view does not have, and the second element of an array
    of one. *)
Lemma origins_of_replaced_fields :
  let low := new_entry (System (&"/etc/codex/config.toml"))
    (TTable [(&"a", TTable [(&"x", TInteger 1)]); (&"l", TArray [TInteger 1; TInteger 2])]) in
  let high := new_entry SessionFlags (TTable [(&"a", TInteger 5); (&"l", TArray [TInteger 3])]) in
  exists s, new_stack [low; high] = Ok s /\
    effective_config s = TTable [(&"a", TInteger 5); (&"l", TArray [TInteger 3])] /\
    origins s !! &"a.x" = Some (l_name low) /\ origins s !! &"l.1" = Some (l_name low).
Proof. eexists. split; [by vm_compute|]. by vm_compute. Qed.

(** A host spelled in two ways: the view has the one spelling, the origins the other. *)
Lemma origins_miss_normalised_hosts :
  let domains d := TTable [(&"permissions", TTable [(&"dev", TTable [(&"network", TTable [(&"domains", TTable d)])])])] in
  let low := new_entry (System (&"/etc/codex/config.toml")) (domains [(&"example.com", TString (&"deny"))]) in
  let high := new_entry SessionFlags (domains [(&"EXAMPLE.COM", TString (&"allow"))]) in
  exists s, new_stack [low; high] = Ok s /\
    get_path [&"permissions"; &"dev"; &"network"; &"domains"; &"example.com"] (effective_config s) = Some (TString (&"allow")) /\
    origins s !! &"permissions.dev.network.domains.example.com" = Some (l_name low).
Proof. eexists. split; [by vm_compute|]. by vm_compute. Qed.
