(* ===== verification/PermissionsToml.v ===== *)
(** * config/src/permissions_toml.rs: permission profiles as they are configured

    The tables of a profile, how they are read from and written to TOML (the derived
    [Serialize] and [Deserialize] with their attributes), the inheritance of profiles, and
    the settings of the network proxy a profile stands for.  A [BTreeMap] is a finite map
    walked in the order of its keys, an [IndexMap] a list of entries in the order of
    insertion.  The matcher of a request body, a JSON value, is kept as the TOML value it
    is written as; of the errors of the TOML library only that there was one is kept. *)
From S2P Require Import Prelude RustStr RustPath AbsolutePath PathPrefix MachineInt ExecPolicy Permissions IpAddr DomainPolicy.
From S2P Require Import ProxyConfig ConfigLayers.

(** ** Reading and writing *)

Class TomlCodec (A : Type) := { to_toml : A -> toml; of_toml : toml -> option A }.

#[export] Instance bool_codec : TomlCodec bool :=
  {| to_toml := TBoolean; of_toml v := match v with TBoolean b => Some b | _ => None end |}.
#[export] Instance str_codec : TomlCodec str :=
  {| to_toml := TString; of_toml v := match v with TString s => Some s | _ => None end |}.
#[export] Instance toml_codec : TomlCodec toml := {| to_toml v := v; of_toml v := Some v |}.
(** [usize]; more than an [i64] holds has no TOML form, see [profile_to_toml].  Not an
    instance: a string is a list of numbers. *)
Definition usize_codec : TomlCodec N :=
  {| to_toml n := TInteger (Z.of_N n);
     of_toml v := match v with TInteger z => if (z <? 0)%Z then None else Some (Z.to_N z) | _ => None end |}.

#[export] Instance vec_codec {A} `{!TomlCodec A} : TomlCodec (list A) :=
  {| to_toml l := TArray (map to_toml l);
     of_toml v := match v with TArray items => mapM of_toml items | _ => None end |}.

(** an enumeration of names *)
Definition enum_of {A} (names : list (str * A)) (v : toml) : option A :=
  match v with TString s => tget s names | _ => None end.

(** *** Maps *)
Definition btree_list {A} (m : gmap str A) : list (str * A) := sort_by (fun a b => str_leb a.1 b.1) (map_to_list m).

Definition encode_entries {A} `{!TomlCodec A} (t : list (str * A)) : list (str * toml) :=
  map (fun kv => (kv.1, to_toml kv.2)) t.

Fixpoint decode_entries {A} `{!TomlCodec A} (t : list (str * toml)) : option (list (str * A)) :=
  match t with
  | [] => Some []
  | (k, v) :: t =>
      match of_toml v, decode_entries t with
      | Some x, Some r => Some ((k, x) :: r)
      | _, _ => None
      end
  end.

#[export] Instance btree_codec {A} `{!TomlCodec A} : TomlCodec (gmap str A) :=
  {| to_toml m := TTable (encode_entries (btree_list m));
     of_toml v := match v with TTable t => list_to_map <$> decode_entries t | _ => None end |}.

Record IndexMap (A : Type) := index_map { entries_of : list (str * A) }.
Arguments index_map {A} entries_of.
Arguments entries_of {A} i.

#[export] Instance index_codec {A} `{!TomlCodec A} : TomlCodec (IndexMap A) :=
  {| to_toml m := TTable (encode_entries (entries_of m));
     of_toml v := match v with TTable t => index_map <$> decode_entries t | _ => None end |}.

(** *** Fields: of type [Option], required, and with a default *)
Definition opt_field {A} `{!TomlCodec A} (name : str) (x : option A) : list (str * toml) :=
  match x with Some v => [(name, to_toml v)] | None => [] end.
Definition field {A} `{!TomlCodec A} (name : str) (x : A) : list (str * toml) := [(name, to_toml x)].

Definition get_opt {A} `{!TomlCodec A} (name : str) (t : list (str * toml)) : option (option A) :=
  match tget name t with Some v => Some <$> of_toml v | None => Some None end.
Definition get_field {A} `{!TomlCodec A} (name : str) (t : list (str * toml)) : option A :=
  match tget name t with Some v => of_toml v | None => None end.
Definition get_default {A} `{!TomlCodec A} (name : str) (d : A) (t : list (str * toml)) : option A :=
  match tget name t with Some v => of_toml v | None => Some d end.

(** ** The tables of a profile *)

Inductive FilesystemPermissionToml := Access (mode : FileSystemAccessMode) | Scoped (entries : gmap str FileSystemAccessMode).
Record FilesystemPermissionsToml := {
  glob_scan_max_depth : option N;
  fs_entries : gmap str FilesystemPermissionToml
}.

Inductive NetworkDomainPermissionToml := TomlAllow | TomlDeny.

Record NetworkMitmInjectedHeaderToml := {
  t_name : str;
  t_secret_env_var : option str;
  t_secret_file : option str;
  t_prefix : option str
}.
Record NetworkMitmActionToml := {
  t_strip_request_headers : list str;
  t_inject_request_headers : list NetworkMitmInjectedHeaderToml
}.
Record NetworkMitmHookToml := {
  t_host : str;
  t_methods : list str;
  t_path_prefixes : list str;
  t_query : gmap str (list str);
  t_headers : gmap str (list str);
  t_body : option toml;
  t_action : list str
}.
Record NetworkMitmToml := {
  t_hooks : option (IndexMap NetworkMitmHookToml);
  t_actions : option (IndexMap NetworkMitmActionToml)
}.

Record NetworkToml := {
  t_enabled : option bool;
  t_proxy_url : option str;
  t_enable_socks5 : option bool;
  t_socks_url : option str;
  t_enable_socks5_udp : option bool;
  t_allow_upstream_proxy : option bool;
  t_dangerously_allow_non_loopback_proxy : option bool;
  t_dangerously_allow_all_unix_sockets : option bool;
  t_mode : option NetworkMode;
  t_domains : option (gmap str NetworkDomainPermissionToml);
  t_unix_sockets : option (gmap str NetworkUnixSocketPermission);
  t_allow_local_binding : option bool;
  t_mitm : option NetworkMitmToml
}.

Record PermissionProfileToml := {
  p_description : option str;
  p_extends : option str;
  p_workspace_roots : option (gmap str bool);
  p_filesystem : option FilesystemPermissionsToml;
  p_network : option NetworkToml
}.

(** *** Their TOML *)

#[export] Instance access_mode_codec : TomlCodec FileSystemAccessMode :=
  {| to_toml a := TString (match a with Read => &"read" | Write => &"write" | Deny => &"deny" end);
     of_toml := enum_of [(&"read", Read); (&"write", Write); (&"deny", Deny); (&"none", Deny)] |}.
#[export] Instance domain_permission_codec : TomlCodec NetworkDomainPermissionToml :=
  {| to_toml p := TString (match p with TomlAllow => &"allow" | TomlDeny => &"deny" end);
     of_toml := enum_of [(&"allow", TomlAllow); (&"deny", TomlDeny)] |}.
#[export] Instance socket_permission_codec : TomlCodec NetworkUnixSocketPermission :=
  {| to_toml p := TString (match p with SocketAllow => &"allow" | SocketDeny => &"deny" end);
     of_toml := enum_of [(&"allow", SocketAllow); (&"deny", SocketDeny)] |}.
#[export] Instance mode_codec : TomlCodec NetworkMode :=
  {| to_toml m := TString (match m with Limited => &"limited" | Full => &"full" end);
     of_toml := enum_of [(&"limited", Limited); (&"full", Full)] |}.

(** [untagged]: an access mode or a table of them *)
#[export] Instance filesystem_permission_codec : TomlCodec FilesystemPermissionToml :=
  {| to_toml p := match p with Access mode => to_toml mode | Scoped entries => to_toml entries end;
     of_toml v :=
       match of_toml v with
       | Some mode => Some (Access mode)
       | None => Scoped <$> of_toml v
       end |}.

(** [entries] is flattened into the table beside the depth. *)
Definition DEPTH : str := &"glob_scan_max_depth".
#[export] Instance filesystem_codec : TomlCodec FilesystemPermissionsToml :=
  {| to_toml f := TTable (opt_field (TomlCodec0 := usize_codec) DEPTH (glob_scan_max_depth f) ++ encode_entries (btree_list (fs_entries f)));
     of_toml v :=
       match v with
       | TTable t =>
           depth ← get_opt (TomlCodec0 := usize_codec) DEPTH t;
           entries ← decode_entries (tremove DEPTH t);
           Some {| glob_scan_max_depth := depth; fs_entries := list_to_map entries |}
       | _ => None
       end |}.

#[export] Instance injected_header_codec : TomlCodec NetworkMitmInjectedHeaderToml :=
  {| to_toml h := TTable (field (&"name") (t_name h) ++ opt_field (&"secret_env_var") (t_secret_env_var h)
       ++ opt_field (&"secret_file") (t_secret_file h) ++ opt_field (&"prefix") (t_prefix h));
     of_toml v :=
       match v with
       | TTable t =>
           name ← get_default (&"name") [] t; env ← get_opt (&"secret_env_var") t;
           file ← get_opt (&"secret_file") t; prefix ← get_opt (&"prefix") t;
           Some {| t_name := name; t_secret_env_var := env; t_secret_file := file; t_prefix := prefix |}
       | _ => None
       end |}.

#[export] Instance action_codec : TomlCodec NetworkMitmActionToml :=
  {| to_toml a := TTable (field (&"strip_request_headers") (t_strip_request_headers a)
       ++ field (&"inject_request_headers") (t_inject_request_headers a));
     of_toml v :=
       match v with
       | TTable t =>
           strip ← get_default (&"strip_request_headers") [] t; inject ← get_default (&"inject_request_headers") [] t;
           Some {| t_strip_request_headers := strip; t_inject_request_headers := inject |}
       | _ => None
       end |}.

#[export] Instance hook_codec : TomlCodec NetworkMitmHookToml :=
  {| to_toml h := TTable (field (&"host") (t_host h) ++ field (&"methods") (t_methods h)
       ++ field (&"path_prefixes") (t_path_prefixes h) ++ field (&"query") (t_query h) ++ field (&"headers") (t_headers h)
       ++ opt_field (&"body") (t_body h) ++ field (&"action") (t_action h));
     of_toml v :=
       match v with
       | TTable t =>
           host ← get_field (&"host") t; methods ← get_field (&"methods") t; prefixes ← get_field (&"path_prefixes") t;
           query ← get_default (&"query") ∅ t; headers ← get_default (&"headers") ∅ t; body ← get_opt (&"body") t;
           action ← get_field (&"action") t;
           Some {| t_host := host; t_methods := methods; t_path_prefixes := prefixes; t_query := query;
                   t_headers := headers; t_body := body; t_action := action |}
       | _ => None
       end |}.

(** *** Validation of the hooks *)

Definition action_is_empty (a : NetworkMitmActionToml) : bool :=
  match t_strip_request_headers a, t_inject_request_headers a with [], [] => true | _, _ => false end.

Fixpoint first_err {A} (f : A -> comp str unit) (l : list A) : comp str unit :=
  match l with [] => Ok tt | x :: l => let? _ := f x in first_err f l end.

Definition opt_entries {A} (m : option (IndexMap A)) : list (str * A) :=
  match m with Some m => entries_of m | None => [] end.

Definition validate_action_definitions (m : NetworkMitmToml) : comp str unit :=
  let? _ := first_err (fun kv =>
    if action_is_empty kv.2 then Err (&"network.mitm.actions." ++ kv.1 ++ &" must define at least one operation")
    else Ok tt) (opt_entries (t_actions m)) in
  first_err (fun kv =>
    match t_action kv.2 with
    | [] => Err (&"network.mitm.hooks." ++ kv.1 ++ &".action must not be empty")
    | _ => Ok tt
    end) (opt_entries (t_hooks m)).

Definition validate_action_references (m : NetworkMitmToml) (actions_by_name : IndexMap NetworkMitmActionToml)
  : comp str unit :=
  let? _ := validate_action_definitions m in
  first_err (fun kv => first_err (fun action_name =>
    match tget action_name (entries_of actions_by_name) with
    | Some _ => Ok tt
    | None => Err (&"network.mitm.hooks." ++ kv.1 ++ &".action references undefined action `" ++ action_name ++ &"`")
    end) (t_action kv.2)) (opt_entries (t_hooks m)).

(** [deny_unknown_fields], then the validation *)
#[export] Instance mitm_codec : TomlCodec NetworkMitmToml :=
  {| to_toml m := TTable (opt_field (&"hooks") (t_hooks m) ++ opt_field (&"actions") (t_actions m));
     of_toml v :=
       match v with
       | TTable t =>
           if forallb (fun kv => str_eqb kv.1 (&"hooks") || str_eqb kv.1 (&"actions")) t then
             hooks ← get_opt (&"hooks") t; actions ← get_opt (&"actions") t;
             let m := {| t_hooks := hooks; t_actions := actions |} in
             if is_ok (validate_action_definitions m) then Some m else None
           else None
       | _ => None
       end |}.

#[export] Instance network_codec : TomlCodec NetworkToml :=
  {| to_toml n := TTable (opt_field (&"enabled") (t_enabled n) ++ opt_field (&"proxy_url") (t_proxy_url n)
       ++ opt_field (&"enable_socks5") (t_enable_socks5 n) ++ opt_field (&"socks_url") (t_socks_url n)
       ++ opt_field (&"enable_socks5_udp") (t_enable_socks5_udp n)
       ++ opt_field (&"allow_upstream_proxy") (t_allow_upstream_proxy n)
       ++ opt_field (&"dangerously_allow_non_loopback_proxy") (t_dangerously_allow_non_loopback_proxy n)
       ++ opt_field (&"dangerously_allow_all_unix_sockets") (t_dangerously_allow_all_unix_sockets n)
       ++ opt_field (&"mode") (t_mode n) ++ opt_field (&"domains") (t_domains n)
       ++ opt_field (&"unix_sockets") (t_unix_sockets n) ++ opt_field (&"allow_local_binding") (t_allow_local_binding n)
       ++ opt_field (&"mitm") (t_mitm n));
     of_toml v :=
       match v with
       | TTable t =>
           enabled ← get_opt (&"enabled") t; proxy_url ← get_opt (&"proxy_url") t;
           socks5 ← get_opt (&"enable_socks5") t; socks_url ← get_opt (&"socks_url") t;
           udp ← get_opt (&"enable_socks5_udp") t; upstream ← get_opt (&"allow_upstream_proxy") t;
           loopback ← get_opt (&"dangerously_allow_non_loopback_proxy") t;
           all_sockets ← get_opt (&"dangerously_allow_all_unix_sockets") t;
           mode ← get_opt (&"mode") t; domains ← get_opt (&"domains") t; sockets ← get_opt (&"unix_sockets") t;
           binding ← get_opt (&"allow_local_binding") t; mitm ← get_opt (&"mitm") t;
           Some {| t_enabled := enabled; t_proxy_url := proxy_url; t_enable_socks5 := socks5; t_socks_url := socks_url;
                   t_enable_socks5_udp := udp; t_allow_upstream_proxy := upstream;
                   t_dangerously_allow_non_loopback_proxy := loopback;
                   t_dangerously_allow_all_unix_sockets := all_sockets; t_mode := mode; t_domains := domains;
                   t_unix_sockets := sockets; t_allow_local_binding := binding; t_mitm := mitm |}
       | _ => None
       end |}.

#[export] Instance profile_codec : TomlCodec PermissionProfileToml :=
  {| to_toml p := TTable (opt_field (&"description") (p_description p) ++ opt_field (&"extends") (p_extends p)
       ++ opt_field (&"workspace_roots") (p_workspace_roots p) ++ opt_field (&"filesystem") (p_filesystem p)
       ++ opt_field (&"network") (p_network p));
     of_toml v :=
       match v with
       | TTable t =>
           description ← get_opt (&"description") t; extends ← get_opt (&"extends") t;
           roots ← get_opt (&"workspace_roots") t; filesystem ← get_opt (&"filesystem") t;
           network ← get_opt (&"network") t;
           Some {| p_description := description; p_extends := extends; p_workspace_roots := roots;
                   p_filesystem := filesystem; p_network := network |}
       | _ => None
       end |}.

(** [TomlValue::try_from]: an integer beyond [i64] is refused. *)
Definition profile_to_toml (p : PermissionProfileToml) : option toml :=
  let depth := match p_filesystem p with Some f => default 0%N (glob_scan_max_depth f) | None => 0%N end in
  if (Z.of_N depth <=? 2 ^ 63 - 1)%Z then Some (to_toml p) else None.

(** ** Inheritance *)

Notation PermissionsToml := (gmap str PermissionProfileToml).

Inductive PermissionProfileResolutionError :=
| UndefinedProfile (profile_name : str)
| UndefinedParent (profile_name parent_profile_name : str)
| UnsupportedBuiltInParent (profile_name parent_profile_name : str)
| Cycle (cycle : list str)
| SerializeProfileToml
| DeserializeProfileToml.

Record ResolvedPermissionProfileToml := {
  r_profile : PermissionProfileToml;
  inherited_profile_names : list str
}.

Definition network_domains (p : PermissionProfileToml) : option (gmap str NetworkDomainPermissionToml) :=
  match p_network p with Some n => t_domains n | None => None end.

Definition with_toml_domains (d : gmap str NetworkDomainPermissionToml) (n : NetworkToml) : NetworkToml :=
  {| t_enabled := t_enabled n; t_proxy_url := t_proxy_url n; t_enable_socks5 := t_enable_socks5 n;
     t_socks_url := t_socks_url n; t_enable_socks5_udp := t_enable_socks5_udp n;
     t_allow_upstream_proxy := t_allow_upstream_proxy n;
     t_dangerously_allow_non_loopback_proxy := t_dangerously_allow_non_loopback_proxy n;
     t_dangerously_allow_all_unix_sockets := t_dangerously_allow_all_unix_sockets n; t_mode := t_mode n;
     t_domains := Some d; t_unix_sockets := t_unix_sockets n; t_allow_local_binding := t_allow_local_binding n;
     t_mitm := t_mitm n |}.

Definition normalize_domain_map {A} (d : gmap str A) : gmap str A :=
  foldl (fun m kv => <[normalize_host kv.1 := kv.2]> m) ∅ (btree_list d).

Definition normalize_profile_network_domains (p : PermissionProfileToml) : PermissionProfileToml :=
  match p_network p with
  | Some n =>
      match t_domains n with
      | Some d =>
          {| p_description := p_description p; p_extends := p_extends p; p_workspace_roots := p_workspace_roots p;
             p_filesystem := p_filesystem p; p_network := Some (with_toml_domains (normalize_domain_map d) n) |}
      | None => p
      end
  | None => p
  end.

Definition without_metadata (p : PermissionProfileToml) : PermissionProfileToml :=
  {| p_description := None; p_extends := None; p_workspace_roots := p_workspace_roots p;
     p_filesystem := p_filesystem p; p_network := p_network p |}.

Definition merge_permission_profiles (parent child : PermissionProfileToml)
  : comp PermissionProfileResolutionError PermissionProfileToml :=
  let merges_network_domains :=
    match network_domains parent, network_domains child with Some _, Some _ => true | _, _ => false end in
  let parent := without_metadata parent in
  let parent := if merges_network_domains then normalize_profile_network_domains parent else parent in
  let child := if merges_network_domains then normalize_profile_network_domains child else child in
  match profile_to_toml parent, profile_to_toml child with
  | Some merged, Some child =>
      match of_toml (merge_toml_values merged child) with
      | Some p => Ok p
      | None => Err DeserializeProfileToml
      end
  | _, _ => Err SerializeProfileToml
  end.

(** [try_fold] from the parent at the end of the chain back to the selected profile *)
Fixpoint fold_profiles (profile : PermissionProfileToml) (children : list PermissionProfileToml)
  : comp PermissionProfileResolutionError PermissionProfileToml :=
  match children with
  | [] => Ok profile
  | child :: rest => let? merged := merge_permission_profiles profile child in fold_profiles merged rest
  end.

Section resolve.
Context (entries : PermissionsToml) (parent_profile : str -> option PermissionProfileToml).

Definition find_profile (name : str) : option PermissionProfileToml :=
  match entries !! name with Some p => Some p | None => parent_profile name end.

Definition missing_profile (next_profile_name : str) (referenced_by : option str) : PermissionProfileResolutionError :=
  match referenced_by with
  | None => UndefinedProfile next_profile_name
  | Some by_ =>
      if starts_with (&":") next_profile_name then UnsupportedBuiltInParent by_ next_profile_name
      else UndefinedParent by_ next_profile_name
  end.

(** One turn of the loop per profile of the chain *)
Fixpoint resolve_loop (fuel : nat) (profile_names : list str) (profiles : list PermissionProfileToml)
    (next_profile_name : str) (referenced_by : option str)
  : comp PermissionProfileResolutionError ResolvedPermissionProfileToml :=
  match fuel with
  | 0 => Loop
  | S fuel =>
      match position (fun name => str_eqb name next_profile_name) profile_names with
      | Some cycle_start => Err (Cycle (drop cycle_start profile_names ++ [next_profile_name]))
      | None =>
          match find_profile next_profile_name with
          | None => Err (missing_profile next_profile_name referenced_by)
          | Some profile =>
              let profile_names := profile_names ++ [next_profile_name] in
              match p_extends profile with
              | Some parent_profile_name =>
                  resolve_loop fuel profile_names (profiles ++ [profile]) parent_profile_name (Some next_profile_name)
              | None =>
                  let? profile := fold_profiles profile (reverse profiles) in
                  Ok {| r_profile := profile; inherited_profile_names := drop 1 profile_names |}
              end
          end
      end
  end.

(** Every turn but the last takes a profile of the table that was not taken yet. *)
Definition resolve_profile (profile_name : str) : comp PermissionProfileResolutionError ResolvedPermissionProfileToml :=
  resolve_loop (size entries + 2) [] [] profile_name None.
End resolve.

(** ** Walking the tables *)

Definition enabled_roots (roots : gmap str bool) : list str := map fst (List.filter snd (btree_list roots)).

Definition toml_domains_of (is_wanted : NetworkDomainPermissionToml -> bool) (d : gmap str NetworkDomainPermissionToml)
  : option (list str) := non_empty (map fst (List.filter (fun kv => is_wanted kv.2) (btree_list d))).
Definition toml_allowed_domains : gmap str NetworkDomainPermissionToml -> option (list str) :=
  toml_domains_of (fun p => match p with TomlAllow => true | TomlDeny => false end).
Definition toml_denied_domains : gmap str NetworkDomainPermissionToml -> option (list str) :=
  toml_domains_of (fun p => match p with TomlDeny => true | TomlAllow => false end).
Definition toml_allow_unix_sockets (u : gmap str NetworkUnixSocketPermission) : list str :=
  map fst (List.filter (fun kv => match kv.2 with SocketAllow => true | SocketDeny => false end) (btree_list u)).

(** ** The settings of the proxy *)

Definition injected_header_to_runtime (h : NetworkMitmInjectedHeaderToml) : InjectedHeaderConfig :=
  {| ih_name := t_name h; ih_secret_env_var := t_secret_env_var h; ih_secret_file := t_secret_file h;
     ih_prefix := t_prefix h |}.

Definition no_actions : MitmHookActionsConfig := {| hc_strip_request_headers := []; hc_inject_request_headers := [] |}.

Definition selected_actions (h : NetworkMitmHookToml) (actions_by_name : option (IndexMap NetworkMitmActionToml))
  : MitmHookActionsConfig :=
  match actions_by_name with
  | None => no_actions
  | Some actions_by_name =>
      foldl (fun selected action_name =>
        match tget action_name (entries_of actions_by_name) with
        | Some action =>
            {| hc_strip_request_headers := hc_strip_request_headers selected ++ t_strip_request_headers action;
               hc_inject_request_headers := hc_inject_request_headers selected
                 ++ map injected_header_to_runtime (t_inject_request_headers action) |}
        | None => selected
        end) no_actions (t_action h)
  end.

Definition hook_to_runtime (h : NetworkMitmHookToml) (actions_by_name : option (IndexMap NetworkMitmActionToml))
  : MitmHookConfig :=
  {| hc_host := t_host h;
     hc_matcher := {| hc_methods := t_methods h; hc_path_prefixes := t_path_prefixes h; hc_query := btree_list (t_query h);
                      hc_headers := btree_list (t_headers h);
                      hc_body := match t_body h with Some _ => true | None => false end |};
     hc_actions := selected_actions h actions_by_name |}.

Definition to_runtime_hooks (m : NetworkMitmToml) (actions_by_name : option (IndexMap NetworkMitmActionToml))
  : list MitmHookConfig := map (fun kv => hook_to_runtime kv.2 actions_by_name) (opt_entries (t_hooks m)).

Definition overlay_network_domain_permissions (d : gmap str NetworkDomainPermissionToml) (c : NetworkProxySettings)
  : NetworkProxySettings :=
  foldl (fun c kv =>
    let permission := match kv.2 with TomlAllow => DomainAllow | TomlDeny => DomainDeny end in
    upsert_domain_permission kv.1 permission normalize_host c) c (btree_list d).

Definition overlay_unix_sockets (u : gmap str NetworkUnixSocketPermission) (c : NetworkProxySettings)
  : NetworkProxySettings :=
  let all := foldl (fun m kv => <[kv.1 := kv.2]> m) (default ∅ (unix_sockets c)) (btree_list u) in
  with_unix_sockets (if bool_decide (all = ∅) then None else Some all) c.

Definition with_flags (n : NetworkToml) (c : NetworkProxySettings) : NetworkProxySettings :=
  {| enabled := default (enabled c) (t_enabled n); proxy_url := default (proxy_url c) (t_proxy_url n);
     enable_socks5 := default (enable_socks5 c) (t_enable_socks5 n); socks_url := default (socks_url c) (t_socks_url n);
     enable_socks5_udp := default (enable_socks5_udp c) (t_enable_socks5_udp n);
     allow_upstream_proxy := default (allow_upstream_proxy c) (t_allow_upstream_proxy n);
     dangerously_allow_non_loopback_proxy :=
       default (dangerously_allow_non_loopback_proxy c) (t_dangerously_allow_non_loopback_proxy n);
     dangerously_allow_all_unix_sockets :=
       default (dangerously_allow_all_unix_sockets c) (t_dangerously_allow_all_unix_sockets n);
     mode := default (mode c) (t_mode n); domains := domains c; unix_sockets := unix_sockets c;
     allow_local_binding := default (allow_local_binding c) (t_allow_local_binding n);
     mitm := mitm c; mitm_hooks := mitm_hooks c |}.

Definition with_hooks (hooks : list MitmHookConfig) (c : NetworkProxySettings) : NetworkProxySettings :=
  {| enabled := enabled c; proxy_url := proxy_url c; enable_socks5 := enable_socks5 c; socks_url := socks_url c;
     enable_socks5_udp := enable_socks5_udp c; allow_upstream_proxy := allow_upstream_proxy c;
     dangerously_allow_non_loopback_proxy := dangerously_allow_non_loopback_proxy c;
     dangerously_allow_all_unix_sockets := dangerously_allow_all_unix_sockets c; mode := mode c; domains := domains c;
     unix_sockets := unix_sockets c; allow_local_binding := allow_local_binding c; mitm := mitm c; mitm_hooks := hooks |}.

(** [mitm] follows from the mode and the hooks. *)
Definition derive_mitm (c : NetworkProxySettings) : NetworkProxySettings :=
  {| enabled := enabled c; proxy_url := proxy_url c; enable_socks5 := enable_socks5 c; socks_url := socks_url c;
     enable_socks5_udp := enable_socks5_udp c; allow_upstream_proxy := allow_upstream_proxy c;
     dangerously_allow_non_loopback_proxy := dangerously_allow_non_loopback_proxy c;
     dangerously_allow_all_unix_sockets := dangerously_allow_all_unix_sockets c; mode := mode c; domains := domains c;
     unix_sockets := unix_sockets c; allow_local_binding := allow_local_binding c;
     mitm := bool_decide (mode c = Limited) || negb (bool_decide (mitm_hooks c = [])); mitm_hooks := mitm_hooks c |}.

Definition apply_to_network_proxy_config (n : NetworkToml) (c : NetworkProxySettings) : NetworkProxySettings :=
  let c := with_flags n c in
  let c := match t_domains n with Some d => overlay_network_domain_permissions d c | None => c end in
  let c := match t_unix_sockets n with Some u => overlay_unix_sockets u c | None => c end in
  let c := match t_mitm n with Some m => with_hooks (to_runtime_hooks m (t_actions m)) c | None => c end in
  derive_mitm c.

Definition to_network_proxy_config (n : NetworkToml) : NetworkProxySettings :=
  apply_to_network_proxy_config n default_settings.

(** ** Theorems *)

(** *** Resolution ends, and does what the chain of parents says *)

Section resolution.
Context (entries : gmap str PermissionProfileToml) (parent_profile : str -> option PermissionProfileToml).
(** Profiles that are not in the table are the ends of their chains. *)
Context (Hends : forall n p, parent_profile n = Some p -> p_extends p = None).

Local Notation find_profile' := (find_profile entries parent_profile).

(** From a profile to the first without a parent *)
Inductive chain : str -> list (str * PermissionProfileToml) -> str -> PermissionProfileToml -> Prop :=
| chain_end n p : find_profile' n = Some p -> p_extends p = None -> chain n [] n p
| chain_step n q m l last p : find_profile' n = Some q -> p_extends q = Some m -> chain m l last p ->
    chain n ((n, q) :: l) last p.

Definition linked (n m : str) : Prop := exists p, find_profile' n = Some p /\ p_extends p = Some m.
Fixpoint links (c : list str) : Prop :=
  match c with n :: ((m :: _) as rest) => linked n m /\ links rest | _ => True end.
(** A way through parents that comes back to where it began *)
Definition is_cycle (c : list str) : Prop := exists n c', c = n :: c' /\ last c' = Some n /\ links c.

Definition reached (names : list str) (next : str) : Prop := links (names ++ [next]).

Lemma links_app a b : links (a ++ b) -> links b.
Proof. induction a as [|x a IH]; [done|]. intros H. apply IH. simpl in H. destruct (a ++ b); [done|by destruct H]. Qed.

Lemma reached_snoc names next m : reached names next -> linked next m -> reached (names ++ [next]) m.
Proof.
  unfold reached. induction names as [|x names IH]; intros H Hl; [by simpl|]. cbn [app] in *.
  destruct names as [|y names]; simpl in *; [by destruct H|]. destruct H. split; [done|]. by apply IH.
Qed.

Lemma fold_profiles_returns p l : returns (fold_profiles p l).
Proof.
  revert p. induction l as [|c l IH]; intros p; [done|]. simpl. apply returns_bind; [|auto].
  unfold merge_permission_profiles. by repeat case_match.
Qed.

(** What the loop answers *)
Definition resolution (names : list str) (profiles : list PermissionProfileToml) (next : str)
    (r : comp PermissionProfileResolutionError ResolvedPermissionProfileToml) : Prop :=
  (exists l last p, chain next l last p /\
     r = let? q := fold_profiles p (reverse (profiles ++ map snd l)) in
         Ok {| r_profile := q; inherited_profile_names := drop 1 (names ++ map fst l ++ [last]) |}) \/
  (exists c, r = Err (Cycle c) /\ is_cycle c) \/
  (exists n referenced_by, r = Err (missing_profile n referenced_by) /\ find_profile' n = None).

Lemma resolve_loop_spec fuel : forall names profiles next referenced_by,
  reached names next -> NoDup names -> Forall (fun n => is_Some (entries !! n)) names ->
  size entries + 2 <= fuel + length names ->
  resolution names profiles next (resolve_loop entries parent_profile fuel names profiles next referenced_by).
Proof.
  induction fuel as [|fuel IH]; intros names profiles next by_ Hr Hn Hin Hf.
  - assert ((list_to_set names : gset str) ⊆ dom entries) as Hsub%subseteq_size.
    { intros x Hx%elem_of_list_to_set. rewrite Forall_forall in Hin. by apply elem_of_dom, Hin. }
    rewrite size_list_to_set, size_dom in Hsub by done. simpl in Hf. lia.
  - cbn [resolve_loop]. pose proof (first_position (fun name => str_eqb name next) names) as Hpos.
    destruct (position _ names) as [i|].
    { destruct Hpos as (a & x & b & -> & -> & Hx%str_eqb_eq & _). subst x. right. left. eexists. split; [done|].
      rewrite drop_app_length. exists next, (b ++ [next]). split; [done|]. split; [by rewrite last_snoc|].
      unfold reached in Hr. rewrite <- app_assoc in Hr. by apply links_app in Hr. }
    assert (next ∉ names) as Hnew.
    { intros Hx. rewrite Forall_forall in Hpos. specialize (Hpos _ Hx). by rewrite str_eqb_refl in Hpos. }
    destruct (find_profile' next) as [p|] eqn:E; [|right; right; eauto].
    destruct (p_extends p) as [m|] eqn:Ee.
    + assert (is_Some (entries !! next)) as Hs.
      { unfold find_profile in E. destruct (entries !! next); [done|]. apply Hends in E. congruence. }
      destruct (IH (names ++ [next]) (profiles ++ [p]) m (Some next)) as [(l & last & q & Hc & ->)|H].
      * apply reached_snoc; [done|]. by exists p.
      * apply NoDup_app. split; [done|]. split; [set_solver|apply NoDup_singleton].
      * apply Forall_app. by rewrite Forall_singleton.
      * rewrite length_app. simpl. lia.
      * left. exists ((next, p) :: l), last, q. split; [by econstructor|]. simpl. by rewrite <- !app_assoc.
      * by right.
    + left. exists [], next, p. split; [by constructor|]. simpl. by rewrite app_nil_r.
Qed.

Lemma resolve_profile_resolution name : resolution [] [] name (resolve_profile entries parent_profile name).
Proof. apply resolve_loop_spec; [done|apply NoDup_nil_2|constructor|simpl; lia]. Qed.

End resolution.

(** *** The merge of two profiles is their overlay, field by field

    A type that is written as TOML has an overlay when the merge of what two of its values
    are written as reads as the overlay of the two.  The paths of a profile are none of
    those with names or hosts to be replaced. *)

Definition plain_path (path : list str) : Prop :=
  exists k rest, path = k :: rest /\ k <> &"memories" /\ k <> &"permissions".

Class TomlOverlay (A : Type) `{Hcodec : !TomlCodec A} := {
  good : A -> Prop;
  over : A -> A -> A;
  good_unique a : good a -> unique_keys (to_toml a) = true;
  read_back a : good a -> of_toml (to_toml a) = Some a;
  merge_read path a b : plain_path path -> good a -> good b ->
    of_toml (merge_toml_values_at_path (to_toml a) (to_toml b) path) = Some (over a b);
  good_over a b : good a -> good b -> good (over a b)
}.

Definition opt_over {A} `{TomlOverlay A} (a b : option A) : option A :=
  match a, b with Some x, Some y => Some (over x y) | None, _ => b | _, None => a end.
Definition opt_good {A} `{TomlOverlay A} (a : option A) : Prop := forall x, a = Some x -> good x.

Lemma opt_good_over {A} `{TomlOverlay A} a b : opt_good a -> opt_good b -> opt_good (opt_over a b).
Proof. intros Ha Hb x. destruct a, b; simpl; intros; simplify_eq; auto using good_over. Qed.

Lemma plain_app path x : plain_path path -> plain_path (path ++ x).
Proof. intros (k & rest & -> & ?). by exists k, (rest ++ x). Qed.

Lemma plain_settled {A} path (t : Map A) : plain_path path -> NoDup (keys t) -> settled path t = true.
Proof.
  intros (k & rest & -> & Hm & Hp) Hn. apply settled_spec. split; [done|]. split.
  - intros [= -> _]. done.
  - unfold is_permission_network_domains_path. intros E. destruct rest as [|? [|? [|? [|? ?]]]]; try done.
    apply andb_true_iff in E as [[E _]%andb_true_iff _]. by apply str_eqb_eq in E.
Qed.

Lemma plain_canonical v : forall path, plain_path path -> unique_keys v = true -> canonical v path = true.
Proof.
  induction v as [ | | | | |l IH|t IH] using toml_nested_ind; intros path Hp Hu; try done.
  - simpl in *. rewrite forallb_Forall, Forall_forall in *. auto.
  - apply unique_keys_table in Hu as [Hn Hu]. apply canonical_table. split; [by apply plain_settled|].
    rewrite Forall_forall in *. auto using plain_app.
Qed.

(** **** What is not a table is replaced *)
Lemma merge_replaces path a b : plain_path path -> unique_keys b = true -> is_setting b = true ->
  merge_toml_values_at_path a b path = b.
Proof.
  intros Hp Hu Hs. rewrite merge_other; [by apply canonical_normalized, plain_canonical|]. intros ? ? _ ->. done.
Qed.

Program Definition setting_overlay {A} `{!TomlCodec A} (P : A -> Prop) (Hset : forall a, is_setting (to_toml a) = true)
    (Hu : forall a, P a -> unique_keys (to_toml a) = true) (Hr : forall a, P a -> of_toml (to_toml a) = Some a) : TomlOverlay A :=
  {| good := P; over _ b := b |}.
Next Obligation. auto. Qed.
Next Obligation. auto. Qed.
Next Obligation. intros. rewrite merge_replaces; auto. Qed.
Next Obligation. auto. Qed.

#[export] Instance bool_overlay : TomlOverlay bool.
Proof. by apply (setting_overlay (fun _ => True)). Defined.
#[export] Instance str_overlay : TomlOverlay str.
Proof. by apply (setting_overlay (fun _ => True)). Defined.
#[export] Instance mode_overlay : TomlOverlay NetworkMode.
Proof. by apply (setting_overlay (fun _ => True)); try intros []. Defined.
#[export] Instance access_mode_overlay : TomlOverlay FileSystemAccessMode.
Proof. by apply (setting_overlay (fun _ => True)); try intros []. Defined.
#[export] Instance domain_permission_overlay : TomlOverlay NetworkDomainPermissionToml.
Proof. by apply (setting_overlay (fun _ => True)); try intros []. Defined.
#[export] Instance socket_permission_overlay : TomlOverlay NetworkUnixSocketPermission.
Proof. by apply (setting_overlay (fun _ => True)); try intros []. Defined.
Definition usize_overlay : @TomlOverlay N usize_codec.
Proof.
  apply (setting_overlay (TomlCodec0 := usize_codec) (fun _ => True)); [done|done|]. intros n _. simpl.
  rewrite (proj2 (Z.ltb_ge _ _)) by lia. by rewrite N2Z.id.
Defined.

Lemma vec_read_back {A} `{TomlOverlay A} (l : list A) : Forall good l -> mapM of_toml (map to_toml l) = Some l.
Proof. induction 1 as [|x l Hx _ IH]; [done|]. simpl. by rewrite read_back, IH. Qed.

#[export] Instance vec_overlay {A} `{TomlOverlay A} : TomlOverlay (list A).
Proof.
  apply (setting_overlay (fun l => Forall good l)); [done| |apply vec_read_back].
  intros l Hl. simpl. rewrite forallb_Forall, Forall_fmap. eapply Forall_impl; [exact Hl|]. apply good_unique.
Defined.

(** **** Tables *)

Lemma insert_sorted_perm {A} (leb : A -> A -> bool) x l : insert_by leb x l ≡ₚ x :: l.
Proof. induction l as [|y l IH]; simpl; [done|]. destruct (leb x y); [done|]. rewrite IH. apply Permutation_swap. Qed.

Lemma sort_by_perm {A} (leb : A -> A -> bool) l : sort_by leb l ≡ₚ l.
Proof. induction l as [|x l IH]; simpl; [done|]. by rewrite insert_sorted_perm, IH. Qed.

Lemma btree_NoDup {A} (m : gmap str A) : NoDup (keys (btree_list m)).
Proof. unfold keys, btree_list. rewrite sort_by_perm. apply (NoDup_fst_map_to_list m). Qed.

Lemma tget_perm {A} (t u : Map A) k : NoDup (keys t) -> t ≡ₚ u -> tget k t = tget k u.
Proof.
  intros Hn Hp. assert (NoDup (keys u)) as Hu by (unfold keys in *; by rewrite <- Hp). apply option_eq. intros v.
  split; intros E%tget_elem; apply tget_NoDup; try done; [by rewrite <- Hp|by rewrite Hp].
Qed.

Lemma tget_btree {A} (m : gmap str A) k : tget k (btree_list m) = m !! k.
Proof.
  apply option_eq. intros v. rewrite <- elem_of_map_to_list.
  assert ((k, v) ∈ map_to_list m <-> (k, v) ∈ btree_list m) as -> by (unfold btree_list; by rewrite sort_by_perm).
  split; [apply tget_elem|]. apply tget_NoDup, btree_NoDup.
Qed.

Lemma lookup_list_to_map_tget {A} (t : Map A) k : (list_to_map t : gmap str A) !! k = tget k t.
Proof.
  induction t as [|[j v] t IH]; [done|]. simpl. destruct (str_eqb k j) eqn:E.
  - apply str_eqb_eq in E as ->. by rewrite lookup_insert_eq.
  - rewrite lookup_insert_ne, IH; [done|]. intros ->. by rewrite str_eqb_refl in E.
Qed.

Lemma keys_encode {A} `{!TomlCodec A} (t : Map A) : keys (encode_entries t) = keys t.
Proof. unfold encode_entries. apply (keys_map (fun kv => to_toml kv.2)). Qed.

Lemma tget_encode {A} `{!TomlCodec A} (t : Map A) k : tget k (encode_entries t) = to_toml <$> tget k t.
Proof. induction t as [|[j v] t IH]; simpl; [done|]. by destruct (str_eqb k j). Qed.

Lemma encode_unique {A} `{TomlOverlay A} (t : Map A) : NoDup (keys t) -> Forall (fun kv => good kv.2) t ->
  unique_keys (TTable (encode_entries t)) = true.
Proof.
  intros Hn Hg. apply unique_keys_table. rewrite keys_encode. split; [done|]. unfold encode_entries. apply Forall_fmap.
  eapply Forall_impl; [exact Hg|]. intros kv Hk. simpl. by apply good_unique.
Qed.

Lemma decode_spec {A} `{!TomlCodec A} (t : list (str * toml)) :
  (forall k v, (k, v) ∈ t -> is_Some (of_toml (A := A) v)) ->
  exists r : Map A, decode_entries t = Some r /\ keys r = keys t /\ forall k, tget k r = (tget k t ≫= of_toml).
Proof.
  induction t as [|[k v] t IH]; intros Hd; [by exists []|]. destruct IH as (r & E & Hk & Hg); [intros j w Hj; apply (Hd j); set_solver|].
  destruct (Hd k v) as [x Hx]; [set_solver|]. exists ((k, x) :: r). simpl. rewrite Hx, E. split; [done|].
  unfold keys in *. simpl. rewrite Hk. split; [done|]. intros j. rewrite Hg. by destruct (str_eqb j k).
Qed.

Lemma map_ext_keys {A} (a b : Map A) : NoDup (keys a) -> keys a = keys b -> (forall k, tget k a = tget k b) -> a = b.
Proof.
  revert b. induction a as [|[k v] a IH]; intros [|[j w] b] Hn Hk Hg; try done. unfold keys in *. simpl in *. simplify_eq.
  apply NoDup_cons in Hn as [Hj Hn]. pose proof (Hg j) as E. rewrite !str_eqb_refl in E. simplify_eq. f_equal.
  apply IH; [done|done|]. intros k. specialize (Hg k). destruct (str_eqb k j) eqn:Ej; [|done]. apply str_eqb_eq in Ej as ->.
  rewrite !(proj2 (tget_None _ _)); [done|unfold keys; congruence|done].
Qed.

Lemma keys_merge_entries {A B C D} (f : str -> B -> option A -> A) (g : str -> D -> option C -> C) b o b' o' :
  keys b = keys b' -> keys o = keys o' -> keys (merge_entries f b o) = keys (merge_entries g b' o').
Proof.
  revert b b' o'. induction o as [|[k v] o IH]; intros b b' [|[j w] o'] Hb Ho; try done. unfold keys in Ho. simpl in Ho. simplify_eq.
  unfold merge_entries in *. simpl. apply IH; [|done]. by rewrite !keys_insert, Hb.
Qed.

(** The merge of two tables, with values at plain paths *)
Lemma merged_table b o path : canonical (TTable b) path = true -> canonical (TTable o) path = true ->
  exists t, merge_toml_values_at_path (TTable b) (TTable o) path = TTable t /\ NoDup (keys t) /\
    t = merge_entries (merge_key path) b o /\
    forall k, tget k t =
      match tget k o with
      | Some v => Some (match tget k b with Some e => merge_toml_values_at_path e v (path ++ [k]) | None => v end)
      | None => tget k b
      end.
Proof.
  intros Hb Ho. destruct (merge_canonical b o path Hb Ho) as (t & E & Hs & Hg). exists t. split; [done|].
  apply settled_spec in Hs as (Hn & _). split; [done|]. split; [|done].
  rewrite merge_eq, !prepare_settled in E; [by simplify_eq|by apply canonical_table in Ho as [? _]|by apply canonical_table in Hb as [? _]].
Qed.

Lemma merged_read {A} `{TomlOverlay A} (x y : option A) b o t path k :
  (forall k, tget k t = match tget k o with
     | Some v => Some (match tget k b with Some e => merge_toml_values_at_path e v (path ++ [k]) | None => v end)
     | None => tget k b end) ->
  plain_path (path ++ [k]) -> opt_good x -> opt_good y -> tget k b = to_toml <$> x -> tget k o = to_toml <$> y ->
  match tget k t with Some v => of_toml v = opt_over x y /\ is_Some (opt_over x y) | None => opt_over x y = None end.
Proof.
  intros Hg Hp Hx Hy Eb Eo. rewrite Hg, Eb, Eo. unfold opt_good in *. destruct x as [x|], y as [y|]; simpl; [|..|done].
  - rewrite merge_read by auto. eauto.
  - rewrite read_back by auto. eauto.
  - rewrite read_back by auto. eauto.
Qed.

(** **** Maps: the union, with the overlay of what both have *)
Definition map_over {A} `{TomlOverlay A} (a b : Map A) : Map A :=
  merge_entries (fun _ v e => match e with Some x => over x v | None => v end) a b.

Lemma tget_map_over {A} `{TomlOverlay A} (a b : Map A) k : NoDup (keys b) ->
  tget k (map_over a b) = opt_over (tget k a) (tget k b).
Proof.
  intros Hn. unfold map_over. rewrite merge_entries_get by done. unfold opt_over.
  destruct (tget k a), (tget k b); reflexivity.
Qed.

Definition map_good {A} `{TomlOverlay A} (t : Map A) : Prop := NoDup (keys t) /\ Forall (fun kv => good kv.2) t.

Lemma map_good_get {A} `{TomlOverlay A} (t : Map A) k : map_good t -> opt_good (tget k t).
Proof. intros [_ Hg] x E. by eapply (Forall_tget good). Qed.

Lemma map_good_over {A} `{TomlOverlay A} (a b : Map A) : map_good a -> map_good b -> map_good (map_over a b).
Proof.
  intros Ha Hb. split; [apply merge_entries_NoDup; by destruct Ha|]. apply Forall_forall. intros [k v] Hin.
  apply tget_NoDup in Hin; [|apply merge_entries_NoDup; by destruct Ha]. rewrite tget_map_over in Hin by (by destruct Hb).
  simpl. eapply opt_good_over; [apply (map_good_get a), Ha|apply (map_good_get b), Hb|exact Hin].
Qed.

Lemma map_merge_read {A} `{TomlOverlay A} (a b : Map A) path : plain_path path -> map_good a -> map_good b ->
  exists t, merge_toml_values_at_path (TTable (encode_entries a)) (TTable (encode_entries b)) path = TTable t /\
    decode_entries t = Some (map_over a b).
Proof.
  intros Hp Ha Hb. pose proof Ha as [Na Ga]. pose proof Hb as [Nb Gb].
  destruct (merged_table (encode_entries a) (encode_entries b) path) as (t & E & Hn & Ht & Hg);
    [by apply plain_canonical, encode_unique..|]. exists t. split; [done|].
  assert (forall k, match tget k t with
    | Some v => of_toml v = opt_over (tget k a) (tget k b) /\ is_Some (opt_over (tget k a) (tget k b))
    | None => opt_over (tget k a) (tget k b) = None end) as Hr.
  { intros k. apply (merged_read _ _ (encode_entries a) (encode_entries b) t path k);
      auto using plain_app, map_good_get, tget_encode. }
  destruct (decode_spec (A := A) t) as (r & -> & Hk & Hget).
  { intros k v Hin. apply tget_NoDup in Hin; [|done]. specialize (Hr k). rewrite Hin in Hr. destruct Hr as [-> ?]. done. }
  f_equal. apply map_ext_keys.
  - unfold keys in *. by rewrite Hk.
  - rewrite Hk, Ht. apply keys_merge_entries; apply keys_encode.
  - intros k. rewrite Hget, tget_map_over by done. specialize (Hr k). destruct (tget k t); simpl; [by destruct Hr|done].
Qed.

Lemma map_read_back {A} `{TomlOverlay A} (a : Map A) : map_good a -> decode_entries (encode_entries a) = Some a.
Proof.
  intros [_ Hg]. induction Hg as [|[k v] a Hv _ IH]; [done|]. simpl in *. by rewrite read_back, IH.
Qed.

#[export] Instance index_overlay {A} `{TomlOverlay A} : TomlOverlay (IndexMap A).
Proof.
  refine {| good m := map_good (entries_of m); over a b := index_map (map_over (entries_of a) (entries_of b)) |}.
  - intros m [Hn Hg]. by apply encode_unique.
  - intros [m] Hm. simpl. by rewrite map_read_back.
  - intros path a b Hp Ha Hb. destruct (map_merge_read _ _ path Hp Ha Hb) as (t & E & Hd). cbn [to_toml of_toml index_codec] in *.
    rewrite E. cbn. by rewrite Hd.
  - intros a b Ha Hb. by apply map_good_over.
Defined.

Definition btree_over {A} `{TomlOverlay A} (a b : gmap str A) : gmap str A := union_with (fun x y => Some (over x y)) a b.

Lemma btree_map_good {A} `{TomlOverlay A} (m : gmap str A) : map_Forall (fun _ => good) m <-> map_good (btree_list m).
Proof.
  split.
  - intros Hg. split; [apply btree_NoDup|]. apply Forall_forall. intros [k v] Hin. apply tget_NoDup in Hin; [|apply btree_NoDup].
    rewrite tget_btree in Hin. by apply (Hg k).
  - intros [_ Hg] k v E. rewrite <- tget_btree in E. by eapply (Forall_tget good).
Qed.

Lemma lookup_btree_over {A} `{TomlOverlay A} (a b : gmap str A) k : btree_over a b !! k = opt_over (a !! k) (b !! k).
Proof. unfold btree_over. rewrite lookup_union_with. by destruct (a !! k), (b !! k). Qed.

Lemma btree_list_over {A} `{TomlOverlay A} (a b : gmap str A) :
  list_to_map (map_over (btree_list a) (btree_list b)) = btree_over a b.
Proof.
  apply map_eq. intros k. rewrite lookup_list_to_map_tget, tget_map_over, !tget_btree, lookup_btree_over by apply btree_NoDup. done.
Qed.

Lemma btree_good_over {A} `{TomlOverlay A} (a b : gmap str A) : map_Forall (fun _ => good) a -> map_Forall (fun _ => good) b ->
  map_Forall (fun _ => good) (btree_over a b).
Proof.
  intros Ha Hb k v E. rewrite lookup_btree_over in E. eapply opt_good_over; [| |exact E]; intros x Ex; [by apply (Ha k)|by apply (Hb k)].
Qed.

#[export] Instance btree_overlay {A} `{TomlOverlay A} : TomlOverlay (gmap str A).
Proof.
  refine {| good m := map_Forall (fun _ => good) m; over := btree_over |}.
  - intros m [Hn Hg]%btree_map_good. by apply encode_unique.
  - intros m Hm%btree_map_good. simpl. rewrite map_read_back by done. simpl. f_equal. apply map_eq. intros k.
    by rewrite lookup_list_to_map_tget, tget_btree.
  - intros path a b Hp Ha%btree_map_good Hb%btree_map_good. destruct (map_merge_read _ _ path Hp Ha Hb) as (t & E & Hd).
    cbn [to_toml of_toml btree_codec] in *. rewrite E. cbn. rewrite Hd. simpl. by rewrite btree_list_over.
  - apply btree_good_over.
Defined.

(** **** A body, TOML itself *)
Lemma canonical_unique v : forall path, canonical v path = true -> unique_keys v = true.
Proof.
  induction v as [ | | | | |l IH|t IH] using toml_nested_ind; intros path Hc; try done.
  - simpl in *. rewrite forallb_Forall, Forall_forall in *. eauto.
  - apply canonical_table in Hc as [Hs Hc]. apply settled_spec in Hs as (Hn & _). apply unique_keys_table. split; [done|].
    rewrite Forall_forall in *. eauto.
Qed.

(** Where nothing is replaced, the merge is the same at every path. *)
Lemma merge_plain b : forall a p q, plain_path p -> plain_path q -> unique_keys a = true -> unique_keys b = true ->
  merge_toml_values_at_path a b p = merge_toml_values_at_path a b q.
Proof.
  assert (forall b p q, plain_path p -> plain_path q -> unique_keys b = true ->
    normalized_with_key_aliases b p = normalized_with_key_aliases b q) as Hnorm.
  { intros. rewrite !canonical_normalized by (by apply plain_canonical). done. }
  induction b as [ | | | | |l _|o IH] using toml_nested_ind; intros a p q Hp Hq Ha Hb; try (rewrite !merge_other by done; auto; done).
  destruct a as [ | | | | | |t]; try (rewrite !merge_other by done; auto; done).
  pose proof Ha as [Na Ga]%unique_keys_table. pose proof Hb as [Nb Gb]%unique_keys_table.
  rewrite !merge_eq, !prepare_settled by (by apply plain_settled). f_equal.
  apply map_ext_keys; [by apply merge_entries_NoDup|by apply keys_merge_entries|]. intros k.
  rewrite !merge_entries_get by done. destruct (tget k o) as [v|] eqn:E; [|done]. f_equal. rewrite Forall_forall in IH.
  pose proof (Forall_tget (fun v => unique_keys v = true) _ _ _ Gb E). unfold merge_key. destruct (tget k t) as [e|] eqn:Et.
  - apply (IH (k, v)); auto using plain_app, tget_elem. by apply (Forall_tget (fun v => unique_keys v = true) t k).
  - auto using plain_app.
Qed.

Definition body_path : list str := [&"body"].
Lemma body_path_plain : plain_path body_path.
Proof. by exists (&"body"), []. Qed.

#[export] Instance toml_overlay : TomlOverlay toml.
Proof.
  refine {| good v := unique_keys v = true; over a b := merge_toml_values_at_path a b body_path |}; [done|done| |].
  - intros path a b Hp Ha Hb. simpl. f_equal. by apply merge_plain; [|apply body_path_plain| |].
  - intros a b Ha Hb. eapply (canonical_unique _ body_path). apply merge_keeps_canonical; (apply plain_canonical; [apply body_path_plain|done]).
Defined.

(** **** Records: tables with a fixed set of fields *)

Lemma tget_opt {A} `{!TomlCodec A} k j (x : option A) rest : tget k (opt_field j x ++ rest) =
  if str_eqb k j then match x with Some v => Some (to_toml v) | None => tget k rest end else tget k rest.
Proof. destruct x; simpl; [done|]. by destruct (str_eqb k j). Qed.
Lemma tget_opt_last {A} `{!TomlCodec A} k j (x : option A) : tget k (opt_field j x) = if str_eqb k j then to_toml <$> x else None.
Proof. destruct x; simpl; by destruct (str_eqb k j). Qed.
Lemma tget_field {A} `{!TomlCodec A} k j (x : A) rest : tget k (field j x ++ rest) =
  if str_eqb k j then Some (to_toml x) else tget k rest.
Proof. done. Qed.
Lemma tget_field_last {A} `{!TomlCodec A} k j (x : A) : tget k (field j x) = if str_eqb k j then Some (to_toml x) else None.
Proof. done. Qed.

(** Decide the comparisons of field names. *)
Ltac names :=
  repeat match goal with
  | |- context [str_eqb (lit ?a) (lit ?b)] =>
      let r := eval vm_compute in (str_eqb (lit a) (lit b)) in change (str_eqb (lit a) (lit b)) with r
  end; cbv iota.
Ltac fields :=
  repeat (first [rewrite tget_opt | rewrite tget_field | rewrite tget_opt_last | rewrite tget_field_last]; names);
  by repeat case_match.

Lemma unique_opt {A} `{TomlOverlay A} k (x : option A) rest : opt_good x -> tget k rest = None ->
  unique_keys (TTable rest) = true -> unique_keys (TTable (opt_field k x ++ rest)) = true.
Proof.
  intros Hx Hk%tget_None [Hn Hr]%unique_keys_table. destruct x as [x|]; apply unique_keys_table; [|done]. split.
  - by apply NoDup_cons.
  - constructor; [|done]. apply good_unique. auto.
Qed.
Lemma unique_field {A} `{TomlOverlay A} k (x : A) rest : good x -> tget k rest = None ->
  unique_keys (TTable rest) = true -> unique_keys (TTable (field k x ++ rest)) = true.
Proof. intros Hx. apply (unique_opt k (Some x)). by intros ? [= <-]. Qed.
Lemma unique_opt_last {A} `{TomlOverlay A} k (x : option A) : opt_good x -> unique_keys (TTable (opt_field k x)) = true.
Proof. intros Hx. rewrite <- (app_nil_r (opt_field k x)). by apply unique_opt. Qed.
Lemma unique_field_last {A} `{TomlOverlay A} k (x : A) : good x -> unique_keys (TTable (field k x)) = true.
Proof. intros Hx. rewrite <- (app_nil_r (field k x)). by apply unique_field. Qed.

Ltac goods := first [assumption | exact I | by intros ? _; exact I | by apply plain_app].
Ltac unique_record :=
  repeat first [apply unique_opt; [goods|fields|] | apply unique_field; [goods|fields|]
               | apply unique_opt_last; [goods] | apply unique_field_last; [goods] | reflexivity].

Lemma read_opt {A} `{TomlOverlay A} k (x : option A) t : opt_good x -> tget k t = to_toml <$> x -> get_opt k t = Some x.
Proof. intros Hx E. unfold get_opt. rewrite E. destruct x as [x|]; simpl; [|done]. by rewrite read_back by auto. Qed.
Lemma read_field {A} `{TomlOverlay A} k (x : A) t : good x -> tget k t = Some (to_toml x) -> get_field k t = Some x.
Proof. intros Hx E. unfold get_field. rewrite E. by apply read_back. Qed.
Lemma read_default {A} `{TomlOverlay A} k (x d : A) t : good x -> tget k t = Some (to_toml x) -> get_default k d t = Some x.
Proof. intros Hx E. unfold get_default. rewrite E. by apply read_back. Qed.

(** The fields of a merge, where a field of each table is [x] and [y] *)
Section merged.
Context (b o t : list (str * toml)) (path : list str).
Context (Hg : forall k, tget k t = match tget k o with
     | Some v => Some (match tget k b with Some e => merge_toml_values_at_path e v (path ++ [k]) | None => v end)
     | None => tget k b end).

Lemma merged_opt {A} `{TomlOverlay A} k (x y : option A) : plain_path (path ++ [k]) -> opt_good x -> opt_good y ->
  tget k b = to_toml <$> x -> tget k o = to_toml <$> y -> get_opt k t = Some (opt_over x y).
Proof.
  intros Hp Hx Hy Eb Eo. pose proof (merged_read x y b o t path k Hg Hp Hx Hy Eb Eo) as H0. unfold get_opt.
  destruct (tget k t); [|by rewrite H0]. destruct H0 as [-> [z ->]]. done.
Qed.
Lemma merged_field {A} `{TomlOverlay A} k (x y : A) : plain_path (path ++ [k]) -> good x -> good y ->
  tget k b = Some (to_toml x) -> tget k o = Some (to_toml y) -> get_field k t = Some (over x y).
Proof. intros Hp Hx Hy Eb Eo. unfold get_field. rewrite Hg, Eo, Eb. by apply merge_read. Qed.
Lemma merged_default {A} `{TomlOverlay A} k (x y d : A) : plain_path (path ++ [k]) -> good x -> good y ->
  tget k b = Some (to_toml x) -> tget k o = Some (to_toml y) -> get_default k d t = Some (over x y).
Proof. intros Hp Hx Hy Eb Eo. unfold get_default. rewrite Hg, Eo, Eb. by apply merge_read. Qed.
End merged.

#[export] Instance injected_header_overlay : TomlOverlay NetworkMitmInjectedHeaderToml.
Proof.
  refine {| good _ := True;
    over a c := {| t_name := t_name c; t_secret_env_var := opt_over (t_secret_env_var a) (t_secret_env_var c);
      t_secret_file := opt_over (t_secret_file a) (t_secret_file c); t_prefix := opt_over (t_prefix a) (t_prefix c) |} |}.
  - intros h _. cbn [to_toml injected_header_codec]. unique_record.
  - intros [n e f p] _. cbn [to_toml of_toml injected_header_codec t_name t_secret_env_var t_secret_file t_prefix].
    rewrite (read_default _ n), (read_opt (&"secret_env_var") e), (read_opt (&"secret_file") f), (read_opt (&"prefix") p)
      by (goods || fields). done.
  - intros path a c Hp _ _. cbn [to_toml of_toml injected_header_codec].
    match goal with |- context [merge_toml_values_at_path (TTable ?b) (TTable ?o)] =>
      destruct (merged_table b o path) as (t & -> & _ & _ & Hg); [apply plain_canonical; [done|unique_record]..|] end.
    rewrite (merged_default _ _ t path Hg _ (t_name a) (t_name c)) by (goods || fields).
    rewrite (merged_opt _ _ t path Hg (&"secret_env_var") (t_secret_env_var a) (t_secret_env_var c)),
      (merged_opt _ _ t path Hg (&"secret_file") (t_secret_file a) (t_secret_file c)),
      (merged_opt _ _ t path Hg (&"prefix") (t_prefix a) (t_prefix c)) by (goods || fields). done.
  - done.
Defined.

Ltac merge_tables path Hp t Hg :=
  match goal with |- context [merge_toml_values_at_path (TTable ?b) (TTable ?o)] =>
    destruct (merged_table b o path) as (t & -> & _ & _ & Hg); [apply plain_canonical; [exact Hp|unique_record]..|] end.

Lemma good_strings (l : list str) : good l.
Proof. apply Forall_forall. intros x _. exact I. Qed.
Lemma good_string_lists (m : gmap str (list str)) : good m.
Proof. intros k v _. apply good_strings. Qed.
Lemma good_headers (l : list NetworkMitmInjectedHeaderToml) : good l.
Proof. apply Forall_forall. intros x _. exact I. Qed.

Ltac goods ::= first [assumption | exact I | by intros ? _; exact I | by apply plain_app | apply good_strings
                     | apply good_string_lists | apply good_headers].

#[export] Instance action_overlay : TomlOverlay NetworkMitmActionToml.
Proof.
  refine {| good _ := True; over _ c := c |}; [..|done].
  - intros a _. cbn [to_toml action_codec]. unique_record.
  - intros [s i] _. cbn [to_toml of_toml action_codec t_strip_request_headers t_inject_request_headers].
    rewrite (read_default (&"strip_request_headers") s), (read_default (&"inject_request_headers") i) by (goods || fields). done.
  - intros path a [s i] Hp _ _. cbn [to_toml of_toml action_codec]. merge_tables path Hp t Hg.
    rewrite (merged_default _ _ t path Hg (&"strip_request_headers") (t_strip_request_headers a) s),
      (merged_default _ _ t path Hg (&"inject_request_headers") (t_inject_request_headers a) i) by (goods || fields). done.
Defined.

Definition hook_over (a c : NetworkMitmHookToml) : NetworkMitmHookToml :=
  {| t_host := t_host c; t_methods := t_methods c; t_path_prefixes := t_path_prefixes c;
     t_query := btree_over (t_query a) (t_query c); t_headers := btree_over (t_headers a) (t_headers c);
     t_body := opt_over (t_body a) (t_body c); t_action := t_action c |}.

#[export] Instance hook_overlay : TomlOverlay NetworkMitmHookToml.
Proof.
  refine {| good h := opt_good (t_body h); over := hook_over |}.
  - intros h Hb. cbn [to_toml hook_codec]. unique_record.
  - intros [ho me pp qu he bo ac] Hb.
    cbn [to_toml of_toml hook_codec t_host t_methods t_path_prefixes t_query t_headers t_body t_action] in *.
    rewrite (read_field (&"host") ho), (read_field (&"methods") me), (read_field (&"path_prefixes") pp),
      (read_default (&"query") qu), (read_default (&"headers") he), (read_opt (&"body") bo), (read_field (&"action") ac)
      by (goods || fields). done.
  - intros path a c Hp Ha Hc. cbn [to_toml of_toml hook_codec]. merge_tables path Hp t Hg.
    rewrite (merged_field _ _ t path Hg (&"host") (t_host a) (t_host c)),
      (merged_field _ _ t path Hg (&"methods") (t_methods a) (t_methods c)),
      (merged_field _ _ t path Hg (&"path_prefixes") (t_path_prefixes a) (t_path_prefixes c)),
      (merged_default _ _ t path Hg (&"query") (t_query a) (t_query c)),
      (merged_default _ _ t path Hg (&"headers") (t_headers a) (t_headers c)),
      (merged_opt _ _ t path Hg (&"body") (t_body a) (t_body c)),
      (merged_field _ _ t path Hg (&"action") (t_action a) (t_action c)) by (goods || fields). done.
  - intros a c Ha Hc. by apply opt_good_over.
Defined.

Lemma first_err_Ok {A} (f : A -> comp str unit) l : is_ok (first_err f l) = true <-> Forall (fun x => is_ok (f x) = true) l.
Proof.
  induction l as [|x l IH]; simpl; [by split|]. rewrite Forall_cons, <- IH. destruct (f x); simpl; naive_solver.
Qed.

Definition mitm_valid (m : NetworkMitmToml) : Prop :=
  Forall (fun kv => action_is_empty kv.2 = false) (opt_entries (t_actions m)) /\
  Forall (fun kv => t_action kv.2 <> []) (opt_entries (t_hooks m)).

Lemma validate_action_definitions_iff m : is_ok (validate_action_definitions m) = true <-> mitm_valid m.
Proof.
  unfold validate_action_definitions, mitm_valid.
  assert (forall (a b : comp str unit), is_ok (comp_bind a (fun _ => b)) = true <-> is_ok a = true /\ is_ok b = true) as ->.
  { intros [] []; simpl; naive_solver. }
  rewrite !first_err_Ok. f_equiv; apply Forall_iff; intros [k v]; simpl; [by destruct (action_is_empty v)|].
  by destruct (t_action v).
Qed.

Lemma map_over_Forall {A} `{TomlOverlay A} (P : A -> Prop) (a b : Map A) : NoDup (keys a) -> NoDup (keys b) ->
  (forall x y, P y -> P (over x y)) -> Forall (fun kv => P kv.2) a -> Forall (fun kv => P kv.2) b ->
  Forall (fun kv => P kv.2) (map_over a b).
Proof.
  intros Na Nb Hover Ha Hb. apply Forall_forall. intros [k v] Hin. apply tget_NoDup in Hin; [|by apply merge_entries_NoDup].
  rewrite tget_map_over in Hin by done. simpl. destruct (tget k a) as [x|] eqn:Ea, (tget k b) as [y|] eqn:Eb; simplify_eq/=.
  - apply Hover. by apply (Forall_tget P b k).
  - by apply (Forall_tget P a k).
  - by apply (Forall_tget P b k).
Qed.

Definition mitm_over (a c : NetworkMitmToml) : NetworkMitmToml :=
  {| t_hooks := opt_over (t_hooks a) (t_hooks c); t_actions := opt_over (t_actions a) (t_actions c) |}.

Lemma opt_over_Forall {A} `{TomlOverlay A} (P : A -> Prop) (a b : option (IndexMap A)) : opt_good a -> opt_good b ->
  (forall x y, P y -> P (over x y)) -> Forall (fun kv => P kv.2) (opt_entries a) -> Forall (fun kv => P kv.2) (opt_entries b) ->
  Forall (fun kv => P kv.2) (opt_entries (opt_over a b)).
Proof.
  intros Ha Hb Hover Pa Pb. destruct a as [a|], b as [b|]; simpl in *; try done.
  destruct (Ha a eq_refl), (Hb b eq_refl). by apply map_over_Forall.
Qed.

Lemma mitm_over_valid a c : opt_good (t_hooks a) -> opt_good (t_actions a) -> opt_good (t_hooks c) -> opt_good (t_actions c) ->
  mitm_valid a -> mitm_valid c -> mitm_valid (mitm_over a c).
Proof.
  intros ? ? ? ? [? ?] [? ?]. split.
  - by apply (opt_over_Forall (fun x => action_is_empty x = false)).
  - by apply (opt_over_Forall (fun h => t_action h <> [])).
Qed.

#[export] Instance mitm_overlay : TomlOverlay NetworkMitmToml.
Proof.
  refine {| good m := opt_good (t_hooks m) /\ opt_good (t_actions m) /\ mitm_valid m; over := mitm_over |}.
  - intros m (? & ? & _). cbn [to_toml mitm_codec]. unique_record.
  - intros [h ac] (Hh & Ha & Hv). cbn [to_toml of_toml mitm_codec t_hooks t_actions] in *.
    rewrite (proj2 (forallb_Forall _ _)) by (by destruct h, ac; repeat constructor).
    rewrite (read_opt (&"hooks") h), (read_opt (&"actions") ac) by (goods || fields). simpl.
    by rewrite (proj2 (validate_action_definitions_iff _)).
  - intros path a c Hp (Hh & Ha & Hv) (Hh' & Ha' & Hv'). cbn [to_toml of_toml mitm_codec].
    match goal with |- context [merge_toml_values_at_path (TTable ?b) (TTable ?o)] =>
      destruct (merged_table b o path) as (t & -> & Hn & _ & Hg); [apply plain_canonical; [done|unique_record]..|];
      assert (Forall (fun kv => str_eqb kv.1 (&"hooks") || str_eqb kv.1 (&"actions") = true) t) as Hk end.
    { apply Forall_forall. intros [k v] Hin. apply tget_NoDup in Hin; [|done]. rewrite Hg in Hin.
      repeat rewrite ?tget_opt, ?tget_opt_last in Hin. simpl. destruct (str_eqb k (&"hooks")), (str_eqb k (&"actions")); done. }
    rewrite (proj2 (forallb_Forall _ _) Hk).
    rewrite (merged_opt _ _ t path Hg (&"hooks") (t_hooks a) (t_hooks c)),
      (merged_opt _ _ t path Hg (&"actions") (t_actions a) (t_actions c)) by (goods || fields). simpl.
    by rewrite (proj2 (validate_action_definitions_iff _)) by (by apply (mitm_over_valid a c)).
  - intros a c (? & ? & ?) (? & ? & ?). split; [by apply opt_good_over|]. split; [by apply opt_good_over|].
    by apply mitm_over_valid.
Defined.

Definition fs_permission_over (a c : FilesystemPermissionToml) : FilesystemPermissionToml :=
  match a, c with Scoped x, Scoped y => Scoped (btree_over x y) | _, _ => c end.

Lemma good_modes (m : gmap str FileSystemAccessMode) : good m.
Proof. intros k v _. exact I. Qed.

#[export] Instance filesystem_permission_overlay : TomlOverlay FilesystemPermissionToml.
Proof.
  refine {| good _ := True; over := fs_permission_over |}; [..|done].
  - intros [m|m] _; [done|]. apply (good_unique m (good_modes m)).
  - intros [m|m] _; cbn [to_toml of_toml filesystem_permission_codec]; [by rewrite read_back|].
    by rewrite (read_back m (good_modes m)).
  - intros path [a|a] [c|c] Hp _ _; cbn [to_toml of_toml filesystem_permission_codec fs_permission_over].
    + rewrite merge_replaces; try done. by rewrite read_back.
    + rewrite merge_other, canonical_normalized; [by rewrite (read_back c (good_modes c))| |done].
      apply plain_canonical; [done|]. apply good_unique, good_modes.
    + rewrite merge_replaces; try done. by rewrite read_back.
    + pose proof (merge_read path a c Hp (good_modes a) (good_modes c)) as E.
      destruct (map_merge_read (btree_list a) (btree_list c) path Hp) as (t & Et & _);
        [apply btree_map_good, good_modes..|]. cbn [to_toml btree_codec] in *. rewrite Et in *. by rewrite E.
Defined.

Definition fs_over (a c : FilesystemPermissionsToml) : FilesystemPermissionsToml :=
  {| glob_scan_max_depth := match glob_scan_max_depth c with Some d => Some d | None => glob_scan_max_depth a end;
     fs_entries := btree_over (fs_entries a) (fs_entries c) |}.

Lemma good_fs_entries (m : gmap str FilesystemPermissionToml) : map_good (btree_list m).
Proof. apply btree_map_good. intros k v _. exact I. Qed.

Lemma fs_unique f : fs_entries f !! DEPTH = None -> unique_keys (to_toml f) = true.
Proof.
  intros Hd. cbn [to_toml filesystem_codec]. destruct (good_fs_entries (fs_entries f)) as [Hn Hg].
  apply (unique_opt (Hcodec := usize_codec) (H := usize_overlay)); [by intros ? _; exact I| |by apply encode_unique].
  by rewrite tget_encode, tget_btree, Hd.
Qed.

Lemma fs_tget f k : fs_entries f !! DEPTH = None ->
  tget k (opt_field (TomlCodec0 := usize_codec) DEPTH (glob_scan_max_depth f) ++ encode_entries (btree_list (fs_entries f))) =
  if str_eqb k DEPTH then @to_toml _ usize_codec <$> glob_scan_max_depth f else to_toml <$> fs_entries f !! k.
Proof.
  intros Hd. rewrite tget_opt, tget_encode, tget_btree. destruct (str_eqb k DEPTH) eqn:E; [|done]. apply str_eqb_eq in E as ->.
  rewrite Hd. by destruct (glob_scan_max_depth f).
Qed.

(** Reading a table whose entries beside the depth read as those of a map *)
Lemma read_entries (t : list (str * toml)) (m : gmap str FilesystemPermissionToml) : NoDup (keys t) -> m !! DEPTH = None ->
  (forall k, k <> DEPTH -> match tget k t with Some v => of_toml v = m !! k /\ is_Some (m !! k) | None => m !! k = None end) ->
  exists r, decode_entries (tremove DEPTH t) = Some r /\ list_to_map r = m.
Proof.
  intros Hn Hm Ht. assert (forall k, k <> DEPTH -> tget k (tremove DEPTH t) = tget k t) as Hk.
  { intros k Hk. rewrite tget_remove. destruct (str_eqb k DEPTH) eqn:E; [|done]. by apply str_eqb_eq in E. }
  assert (tget DEPTH (tremove DEPTH t) = None) as Hd by (by rewrite tget_remove, str_eqb_refl).
  destruct (decode_spec (A := FilesystemPermissionToml) (tremove DEPTH t)) as (r & -> & _ & Hg).
  - intros k v Hin. apply tget_NoDup in Hin; [|by apply NoDup_remove]. destruct (decide (k = DEPTH)) as [->|Hne]; [congruence|].
    specialize (Ht k Hne). rewrite Hk in Hin by done. rewrite Hin in Ht. destruct Ht as [-> ?]. done.
  - exists r. split; [done|]. apply map_eq. intros k. rewrite lookup_list_to_map_tget, Hg.
    destruct (decide (k = DEPTH)) as [->|Hne]; [by rewrite Hd, Hm|]. rewrite Hk by done. specialize (Ht k Hne).
    destruct (tget k t); simpl; [by destruct Ht|done].
Qed.

#[export] Instance filesystem_overlay : TomlOverlay FilesystemPermissionsToml.
Proof.
  refine {| good f := fs_entries f !! DEPTH = None; over := fs_over |}.
  - apply fs_unique.
  - intros f Hd. pose proof (fs_unique f Hd) as [Hn _]%unique_keys_table. cbn [to_toml of_toml filesystem_codec] in *.
    rewrite (read_opt (H := usize_overlay) DEPTH (glob_scan_max_depth f)); [|by intros ? _; exact I|by rewrite fs_tget, str_eqb_refl].
    edestruct read_entries as (r & E1 & E2); [exact Hn|exact Hd| |by rewrite E1; simpl; rewrite E2; destruct f].
    intros k Hk. rewrite fs_tget by done. destruct (str_eqb k DEPTH) eqn:E; [by apply str_eqb_eq in E|].
    destruct (fs_entries f !! k) as [v|]; cbn [fmap option_fmap option_map]; [|done]. split; [|done].
    apply (read_back v). exact I.
  - intros path a c Hp Ha Hc. pose proof (fs_unique a Ha). pose proof (fs_unique c Hc). cbn [to_toml of_toml filesystem_codec] in *.
    match goal with |- context [merge_toml_values_at_path (TTable ?b) (TTable ?o)] =>
      destruct (merged_table b o path) as (t & -> & Hn & _ & Hg); [by apply plain_canonical..|] end.
    rewrite (merged_opt (H := usize_overlay) _ _ t path Hg DEPTH (glob_scan_max_depth a) (glob_scan_max_depth c));
      [|by apply plain_app|by intros ? _; exact I|by intros ? _; exact I|by rewrite fs_tget, str_eqb_refl..].
    edestruct (read_entries t (btree_over (fs_entries a) (fs_entries c))) as (r & E1 & E2); [exact Hn| | |].
    + by rewrite lookup_btree_over, Ha, Hc.
    + intros k Hk. rewrite lookup_btree_over. eapply (merged_read _ _ _ _ t path k Hg); [by apply plain_app|by intros ? _; exact I..| |];
        (rewrite fs_tget by done; destruct (str_eqb k DEPTH) eqn:E; [by apply str_eqb_eq in E|done]).
    + simpl. rewrite E1. simpl. rewrite E2. unfold fs_over. by destruct (glob_scan_max_depth a), (glob_scan_max_depth c).
  - intros a c Ha Hc. simpl. by rewrite lookup_btree_over, Ha, Hc.
Defined.

Definition network_over (a c : NetworkToml) : NetworkToml :=
  {| t_enabled := opt_over (t_enabled a) (t_enabled c);
     t_proxy_url := opt_over (t_proxy_url a) (t_proxy_url c);
     t_enable_socks5 := opt_over (t_enable_socks5 a) (t_enable_socks5 c);
     t_socks_url := opt_over (t_socks_url a) (t_socks_url c);
     t_enable_socks5_udp := opt_over (t_enable_socks5_udp a) (t_enable_socks5_udp c);
     t_allow_upstream_proxy := opt_over (t_allow_upstream_proxy a) (t_allow_upstream_proxy c);
     t_dangerously_allow_non_loopback_proxy := opt_over (t_dangerously_allow_non_loopback_proxy a) (t_dangerously_allow_non_loopback_proxy c);
     t_dangerously_allow_all_unix_sockets := opt_over (t_dangerously_allow_all_unix_sockets a) (t_dangerously_allow_all_unix_sockets c);
     t_mode := opt_over (t_mode a) (t_mode c);
     t_domains := opt_over (t_domains a) (t_domains c);
     t_unix_sockets := opt_over (t_unix_sockets a) (t_unix_sockets c);
     t_allow_local_binding := opt_over (t_allow_local_binding a) (t_allow_local_binding c);
     t_mitm := opt_over (t_mitm a) (t_mitm c) |}.

Lemma good_domains (m : gmap str NetworkDomainPermissionToml) : good m.
Proof. intros k v _. exact I. Qed.
Lemma good_sockets (m : gmap str NetworkUnixSocketPermission) : good m.
Proof. intros k v _. exact I. Qed.
Lemma good_roots (m : gmap str bool) : good m.
Proof. intros k v _. exact I. Qed.

Ltac goods ::= first [assumption | exact I | by intros ? _; exact I | by apply plain_app | apply good_strings
                     | apply good_string_lists | apply good_headers | intros ? _; apply good_domains
                     | intros ? _; apply good_sockets | intros ? _; apply good_roots].

#[export] Instance network_overlay : TomlOverlay NetworkToml.
Proof.
  refine {| good n := opt_good (t_mitm n); over := network_over |}.
  - intros n Hm. cbn [to_toml network_codec]. unique_record.
  - intros n Hm. cbn [to_toml of_toml network_codec].
    rewrite (read_opt (&"enabled") (t_enabled n)),
      (read_opt (&"proxy_url") (t_proxy_url n)),
      (read_opt (&"enable_socks5") (t_enable_socks5 n)),
      (read_opt (&"socks_url") (t_socks_url n)),
      (read_opt (&"enable_socks5_udp") (t_enable_socks5_udp n)),
      (read_opt (&"allow_upstream_proxy") (t_allow_upstream_proxy n)),
      (read_opt (&"dangerously_allow_non_loopback_proxy") (t_dangerously_allow_non_loopback_proxy n)),
      (read_opt (&"dangerously_allow_all_unix_sockets") (t_dangerously_allow_all_unix_sockets n)),
      (read_opt (&"mode") (t_mode n)),
      (read_opt (&"domains") (t_domains n)),
      (read_opt (&"unix_sockets") (t_unix_sockets n)),
      (read_opt (&"allow_local_binding") (t_allow_local_binding n)),
      (read_opt (&"mitm") (t_mitm n)) by (goods || fields). by destruct n.
  - intros path a c Hp Ha Hc. cbn [to_toml of_toml network_codec]. merge_tables path Hp t Hg.
    rewrite (merged_opt _ _ t path Hg (&"enabled") (t_enabled a) (t_enabled c)),
      (merged_opt _ _ t path Hg (&"proxy_url") (t_proxy_url a) (t_proxy_url c)),
      (merged_opt _ _ t path Hg (&"enable_socks5") (t_enable_socks5 a) (t_enable_socks5 c)),
      (merged_opt _ _ t path Hg (&"socks_url") (t_socks_url a) (t_socks_url c)),
      (merged_opt _ _ t path Hg (&"enable_socks5_udp") (t_enable_socks5_udp a) (t_enable_socks5_udp c)),
      (merged_opt _ _ t path Hg (&"allow_upstream_proxy") (t_allow_upstream_proxy a) (t_allow_upstream_proxy c)),
      (merged_opt _ _ t path Hg (&"dangerously_allow_non_loopback_proxy") (t_dangerously_allow_non_loopback_proxy a) (t_dangerously_allow_non_loopback_proxy c)),
      (merged_opt _ _ t path Hg (&"dangerously_allow_all_unix_sockets") (t_dangerously_allow_all_unix_sockets a) (t_dangerously_allow_all_unix_sockets c)),
      (merged_opt _ _ t path Hg (&"mode") (t_mode a) (t_mode c)),
      (merged_opt _ _ t path Hg (&"domains") (t_domains a) (t_domains c)),
      (merged_opt _ _ t path Hg (&"unix_sockets") (t_unix_sockets a) (t_unix_sockets c)),
      (merged_opt _ _ t path Hg (&"allow_local_binding") (t_allow_local_binding a) (t_allow_local_binding c)),
      (merged_opt _ _ t path Hg (&"mitm") (t_mitm a) (t_mitm c))
      by (goods || fields). done.
  - intros a c Ha Hc. by apply opt_good_over.
Defined.

(** **** Profiles *)

Definition depth_fits (f : FilesystemPermissionsToml) : Prop :=
  forall d, glob_scan_max_depth f = Some d -> (Z.of_N d <= 2 ^ 63 - 1)%Z.

(** What a profile read from a configuration is: no entry of the file system is named as
    the depth, the depth fits TOML, hooks and actions are named once and valid. *)
Definition profile_good (p : PermissionProfileToml) : Prop :=
  opt_good (p_filesystem p) /\ opt_good (p_network p) /\ forall f, p_filesystem p = Some f -> depth_fits f.

(** The profile a child is with what it inherits *)
Definition profile_over (parent child : PermissionProfileToml) : PermissionProfileToml :=
  {| p_description := opt_over (p_description parent) (p_description child);
     p_extends := opt_over (p_extends parent) (p_extends child);
     p_workspace_roots := opt_over (p_workspace_roots parent) (p_workspace_roots child);
     p_filesystem := opt_over (p_filesystem parent) (p_filesystem child);
     p_network := opt_over (p_network parent) (p_network child) |}.

Lemma profile_unique p : profile_good p -> unique_keys (to_toml p) = true.
Proof. intros (Hf & Hn & _). cbn [to_toml profile_codec]. unique_record. Qed.

(** A profile's own table is none of the tables in which names are replaced, and neither are
    those below it. *)
Lemma root_canonical t : unique_keys (TTable t) = true -> &"memories" ∉ keys t -> &"permissions" ∉ keys t ->
  canonical (TTable t) [] = true.
Proof.
  intros [Hn Hu]%unique_keys_table Hm Hp. apply canonical_table. split.
  - apply settled_spec. repeat split; done.
  - apply Forall_forall. intros [k v] Hin. rewrite Forall_forall in Hu. simpl.
    assert (k ∈ keys t) by (apply list_elem_of_fmap; by exists (k, v)).
    apply plain_canonical; [|by apply (Hu _ Hin)]. exists k, []. repeat split; by intros ->.
Qed.

Lemma profile_canonical p : profile_good p -> canonical (to_toml p) [] = true.
Proof.
  intros Hp. apply root_canonical; [by apply profile_unique|apply tget_None; fields..].
Qed.

Lemma profile_read_back p : profile_good p -> of_toml (to_toml p) = Some p.
Proof.
  intros (Hf & Hn & _). cbn [to_toml of_toml profile_codec].
  rewrite (read_opt (&"description") (p_description p)), (read_opt (&"extends") (p_extends p)),
    (read_opt (&"workspace_roots") (p_workspace_roots p)), (read_opt (&"filesystem") (p_filesystem p)),
    (read_opt (&"network") (p_network p)) by (goods || fields). by destruct p.
Qed.

Lemma plain_name k : str_eqb k (&"memories") = false -> str_eqb k (&"permissions") = false -> plain_path ([] ++ [k]).
Proof. intros Hm Hp. exists k, []. repeat split; intros ->; by rewrite str_eqb_refl in *. Qed.

Lemma profile_merge_read a c : profile_good a -> profile_good c ->
  of_toml (merge_toml_values (to_toml a) (to_toml c)) = Some (profile_over a c).
Proof.
  intros Ha Hc. pose proof (profile_canonical a Ha) as Ca. pose proof (profile_canonical c Hc) as Cc.
  destruct Ha as (Hf & Hn & _), Hc as (Hf' & Hn' & _). unfold merge_toml_values. cbn [to_toml of_toml profile_codec] in *.
  destruct (merged_table _ _ [] Ca Cc) as (t & -> & _ & _ & Hg).
  rewrite (merged_opt _ _ t [] Hg (&"description") (p_description a) (p_description c)),
    (merged_opt _ _ t [] Hg (&"extends") (p_extends a) (p_extends c)),
    (merged_opt _ _ t [] Hg (&"workspace_roots") (p_workspace_roots a) (p_workspace_roots c)),
    (merged_opt _ _ t [] Hg (&"filesystem") (p_filesystem a) (p_filesystem c)),
    (merged_opt _ _ t [] Hg (&"network") (p_network a) (p_network c))
    by first [by apply plain_name | goods | fields]. done.
Qed.

Lemma profile_good_over a c : profile_good a -> profile_good c -> profile_good (profile_over a c).
Proof.
  intros (Hf & Hn & Hd) (Hf' & Hn' & Hd'). split; [by apply opt_good_over|]. split; [by apply opt_good_over|].
  intros f E d. simpl in E. destruct (p_filesystem a) as [fa|], (p_filesystem c) as [fc|]; simplify_eq/=; eauto.
  - destruct (glob_scan_max_depth fc) eqn:Ec; intros; simplify_eq; [by eapply (Hd' fc)|by eapply (Hd fa)].
  - by apply (Hd f).
  - by apply (Hd' f).
Qed.

Lemma profile_good_without p : profile_good p -> profile_good (without_metadata p).
Proof. done. Qed.

Lemma profile_good_normalized p : profile_good p -> profile_good (normalize_profile_network_domains p).
Proof.
  intros Hp. unfold normalize_profile_network_domains. destruct (p_network p) as [n|] eqn:E; [|done].
  destruct (t_domains n); [|done]. destruct Hp as (Hf & Hn & Hd). split; [done|]. split; [|done]. intros ? [= <-].
  specialize (Hn n E). exact Hn.
Qed.

Lemma profile_to_toml_good p : profile_good p -> profile_to_toml p = Some (to_toml p).
Proof.
  intros (_ & _ & Hd). unfold profile_to_toml. rewrite (proj2 (Z.leb_le _ _)); [done|].
  destruct (p_filesystem p) as [f|]; simpl; [|lia]. specialize (Hd f eq_refl). unfold depth_fits in Hd.
  destruct (glob_scan_max_depth f); simpl; [by apply Hd|lia].
Qed.

(** Hosts are compared in their normal form where both profiles list some. *)
Definition inherit (parent child : PermissionProfileToml) : PermissionProfileToml :=
  match network_domains parent, network_domains child with
  | Some _, Some _ =>
      profile_over (normalize_profile_network_domains (without_metadata parent)) (normalize_profile_network_domains child)
  | _, _ => profile_over (without_metadata parent) child
  end.

Lemma profile_good_inherit a c : profile_good a -> profile_good c -> profile_good (inherit a c).
Proof.
  intros Ha Hc. unfold inherit. repeat case_match;
    auto using profile_good_over, profile_good_normalized, profile_good_without.
Qed.

Lemma merge_is_inherit parent child : profile_good parent -> profile_good child ->
  merge_permission_profiles parent child = Ok (inherit parent child).
Proof.
  intros Ha Hc. unfold merge_permission_profiles, inherit. pose proof (profile_good_without _ Ha) as Hw.
  pose proof (profile_good_normalized _ Hw). pose proof (profile_good_normalized _ Hc).
  destruct (network_domains parent), (network_domains child); cbv zeta iota;
    rewrite !profile_to_toml_good by done; by rewrite profile_merge_read.
Qed.

Lemma fold_is_inherit l : forall p, profile_good p -> Forall profile_good l -> fold_profiles p l = Ok (foldl inherit p l).
Proof.
  induction l as [|c l IH]; intros p Hp Hl; [done|]. apply Forall_cons in Hl as [Hc Hl]. simpl.
  rewrite merge_is_inherit by done. simpl. apply IH; [|done]. by apply profile_good_inherit.
Qed.

(** C22: the profile a child is with what it inherits, computed by writing both profiles as
    TOML, merging the tables and reading the result, is the overlay of the two field by
    field: entries of tables are united with the child's winning, hooks of the same name
    are overlaid in turn, description and parent are the child's own.  Neither step fails on
    profiles that were read from a configuration, and writing one and reading it gives it
    back. *)
Theorem merged_profile_is_overlay (parent child : PermissionProfileToml) :
  profile_good parent -> profile_good child ->
  merge_permission_profiles parent child = Ok (inherit parent child) /\ profile_good (inherit parent child) /\
  p_description (inherit parent child) = p_description child /\ p_extends (inherit parent child) = p_extends child /\
  exists v, profile_to_toml child = Some v /\ of_toml v = Some child.
Proof.
  intros Hp Hc. split; [by apply merge_is_inherit|]. split; [by apply profile_good_inherit|].
  assert (forall c, p_description (normalize_profile_network_domains c) = p_description c /\
    p_extends (normalize_profile_network_domains c) = p_extends c) as Hn.
  { intros c. unfold normalize_profile_network_domains. by repeat case_match. }
  destruct (Hn child) as [Hd He], (Hn (without_metadata parent)) as [Hd' He'].
  split; [|split].
  - unfold inherit. repeat case_match; cbn [profile_over p_description]; rewrite ?Hd', ?Hd; by destruct (p_description child).
  - unfold inherit. repeat case_match; cbn [profile_over p_extends]; rewrite ?He', ?He; by destruct (p_extends child).
  - exists (to_toml child). split; [by apply profile_to_toml_good|by apply profile_read_back].
Qed.

(** The resolution of a profile ends, with one of three answers: the profile at the end
    of the chain of parents overlaid by its heirs down to the selected one, with the names
    of the parents in order; a way through parents that comes back to where it began; or a
    parent nobody defines. *)
Theorem profile_resolution (entries : PermissionsToml) (parent_profile : str -> option PermissionProfileToml) (name : str) :
  map_Forall (fun _ => profile_good) entries ->
  (forall n p, parent_profile n = Some p -> profile_good p /\ p_extends p = None) ->
  (exists l last p, chain entries parent_profile name l last p /\
     resolve_profile entries parent_profile name =
     Ok {| r_profile := foldl inherit p (reverse (map snd l)); inherited_profile_names := drop 1 (map fst l ++ [last]) |}) \/
  (exists c, resolve_profile entries parent_profile name = Err (Cycle c) /\ is_cycle entries parent_profile c) \/
  (exists n referenced_by, resolve_profile entries parent_profile name = Err (missing_profile n referenced_by) /\
     find_profile entries parent_profile n = None).
Proof.
  intros He Hp. assert (forall n p, find_profile entries parent_profile n = Some p -> profile_good p) as Hgood.
  { intros n p. unfold find_profile. destruct (entries !! n) eqn:E; [intros; simplify_eq; by apply (He n)|]. intros. by apply (Hp n). }
  assert (forall n l last p, chain entries parent_profile n l last p -> profile_good p /\ Forall profile_good (map snd l)) as Hchain.
  { induction 1 as [|n q m l last p Hq _ _ [? ?]]; [eauto|]. simpl. eauto. }
  destruct (resolve_profile_resolution entries parent_profile (fun n p E => proj2 (Hp n p E)) name)
    as [(l & last & p & Hc & ->)|H]; [left|by right].
  exists l, last, p. split; [done|]. apply Hchain in Hc as [? ?]. simpl. rewrite fold_is_inherit; [done|done|].
  by apply Forall_reverse.
Qed.

(** ** Examples *)

Definition no_network : NetworkToml :=
  {| t_enabled := None; t_proxy_url := None; t_enable_socks5 := None; t_socks_url := None; t_enable_socks5_udp := None;
     t_allow_upstream_proxy := None; t_dangerously_allow_non_loopback_proxy := None;
     t_dangerously_allow_all_unix_sockets := None; t_mode := None; t_domains := None; t_unix_sockets := None;
     t_allow_local_binding := None; t_mitm := None |}.
Definition demo_parent : PermissionProfileToml :=
  {| p_description := Some (&"base"); p_extends := None; p_workspace_roots := None;
     p_filesystem := Some {| glob_scan_max_depth := Some 3%N; fs_entries := {[ &"/etc" := Access Read; &"/w" := Scoped {[ &"a" := Read ]} ]} |};
     p_network := Some (with_toml_domains {[ &"Example.com" := TomlDeny ]} no_network) |}.
Definition demo_child : PermissionProfileToml :=
  {| p_description := None; p_extends := Some (&"base"); p_workspace_roots := None;
     p_filesystem := Some {| glob_scan_max_depth := None; fs_entries := {[ &"/w" := Scoped {[ &"b" := Write ]} ]} |};
     p_network := Some (with_toml_domains {[ &"example.com" := TomlAllow ]} no_network) |}.

Lemma demo_good : profile_good demo_parent /\ profile_good demo_child.
Proof.
  split; (split; [intros f [= <-]; by vm_compute|]; split; [intros n [= <-]; by intros ? [=]|]; intros f [= <-] d E; simpl in E; simplify_eq; lia).
Qed.

(** The child's rule for a host replaces its parent's, however the host is spelled. *)
Example demo_inherit : exists p, merge_permission_profiles demo_parent demo_child = Ok p /\
  p_description p = None /\ network_domains p = Some {[ &"example.com" := TomlAllow ]} /\
  p_filesystem p = Some {| glob_scan_max_depth := Some 3%N;
    fs_entries := {[ &"/etc" := Access Read; &"/w" := Scoped {[ &"a" := Read; &"b" := Write ]} ]} |}.
Proof. eexists. split; [by vm_compute|]. by vm_compute. Qed.

Lemma merged_profile_is_overlay_witness : merge_permission_profiles demo_parent demo_child = Ok (inherit demo_parent demo_child).
Proof. apply (merged_profile_is_overlay demo_parent demo_child); apply demo_good. Defined.

(** The selected profile leads to two that extend each other; the cycle is reported
    without the way to it. *)
Definition extending (parent : str) : PermissionProfileToml :=
  {| p_description := None; p_extends := Some parent; p_workspace_roots := None; p_filesystem := None; p_network := None |}.
Definition demo_entries : PermissionsToml :=
  {[ &"dev" := extending (&"a"); &"a" := extending (&"b"); &"b" := extending (&"a") ]}.

Example demo_cycle : resolve_profile demo_entries (fun _ => None) (&"dev") = Err (Cycle [&"a"; &"b"; &"a"]).
Proof. by vm_compute. Qed.

Lemma profile_resolution_witness :
  exists c, resolve_profile demo_entries (fun _ => None) (&"dev") = Err (Cycle c) /\ is_cycle demo_entries (fun _ => None) c.
Proof.
  destruct (profile_resolution demo_entries (fun _ => None) (&"dev")) as [(l & last & p & Hc & E)|[H|(n & b & E & _)]].
  - repeat (apply map_Forall_insert_2; [by repeat split|]). apply map_Forall_empty.
  - done.
  - pose proof demo_cycle as D. rewrite E in D. discriminate.
  - exact H.
  - pose proof demo_cycle as D. rewrite E in D. unfold missing_profile in D. repeat case_match; discriminate.
Defined.
