(* ===== verification/PermissionsConfig.v ===== *)
(** * core/src/config/permissions.rs: from a configured profile to the policies of a sandbox

    On Linux; what the functions do for other platforms is modelled where they take the
    platform as an argument.  The warnings of start-up are returned beside the result.  Of
    the error of an unresolved profile the error itself is kept, not its text. *)
From S2P Require Import Prelude RustStr RustPath AbsolutePath PathPrefix ExecPolicy Permissions PermissionFacts PermissionChanges.
From S2P Require Import Profiles IpAddr DomainPolicy ProxyConfig ConfigLayers PermissionsToml.

Definition BUILT_IN_READ_ONLY_PROFILE : str := &":read-only".
Definition BUILT_IN_WORKSPACE_PROFILE : str := &":workspace".
Definition BUILT_IN_DANGER_FULL_ACCESS_PROFILE : str := &":danger-full-access".

Inductive ConfigError :=
| Unresolved (e : PermissionProfileResolutionError)
| InvalidInput (message : str)
| NotAbsolute.

Definition is_builtin_permission_profile_name (profile_name : str) : bool :=
  str_eqb profile_name BUILT_IN_READ_ONLY_PROFILE || str_eqb profile_name BUILT_IN_WORKSPACE_PROFILE
  || str_eqb profile_name BUILT_IN_DANGER_FULL_ACCESS_PROFILE.

Definition reject_unknown_builtin_permission_profile (profile_name : str) : comp ConfigError unit :=
  if starts_with (&":") profile_name
  then Err (InvalidInput (&"default_permissions refers to unknown built-in profile `" ++ profile_name ++ &"`"))
  else Ok tt.

Definition validate_user_permission_profile_names (permissions : option PermissionsToml) : comp ConfigError unit :=
  match permissions with
  | None => Ok tt
  | Some permissions =>
      match List.find (starts_with (&":")) (map fst (btree_list permissions)) with
      | Some name =>
          Err (InvalidInput (&"permissions profile `" ++ name ++ &"` uses a reserved built-in profile prefix"))
      | None => Ok tt
      end
  end.

(** ** Resolution with the built-in parents *)

Definition extensible_builtin_parent_profile_marker (profile_name : str) : option PermissionProfileToml :=
  if str_eqb profile_name BUILT_IN_READ_ONLY_PROFILE || str_eqb profile_name BUILT_IN_WORKSPACE_PROFILE
  then Some {| p_description := None; p_extends := None; p_workspace_roots := None; p_filesystem := None;
               p_network := None |}
  else None.

Definition resolve_permission_profile (permissions : PermissionsToml) (profile_name : str)
  : comp ConfigError ResolvedPermissionProfileToml :=
  comp_map_err Unresolved (resolve_profile permissions extensible_builtin_parent_profile_marker profile_name).

Definition NEEDS_TABLE : str := &"default_permissions requires a `[permissions]` table".

(** The profile a name stands for that is not built in *)
Definition selected_profile (permissions : option PermissionsToml) (profile_name : str)
  : comp ConfigError ResolvedPermissionProfileToml :=
  let? _ := reject_unknown_builtin_permission_profile profile_name in
  match permissions with
  | None => Err (InvalidInput NEEDS_TABLE)
  | Some permissions => resolve_permission_profile permissions profile_name
  end.

(** ** The proxy *)

Definition with_enabled (b : bool) (c : NetworkProxySettings) : NetworkProxySettings :=
  {| ProxyConfig.enabled := b; proxy_url := proxy_url c; enable_socks5 := enable_socks5 c; socks_url := socks_url c;
     enable_socks5_udp := enable_socks5_udp c; allow_upstream_proxy := allow_upstream_proxy c;
     dangerously_allow_non_loopback_proxy := dangerously_allow_non_loopback_proxy c;
     dangerously_allow_all_unix_sockets := dangerously_allow_all_unix_sockets c; mode := mode c; domains := domains c;
     unix_sockets := unix_sockets c; allow_local_binding := allow_local_binding c; mitm := mitm c;
     mitm_hooks := mitm_hooks c |}.

(** A profile gives the proxy its settings and does not start it. *)
Definition network_proxy_config_from_profile_network (network : option NetworkToml) : NetworkProxySettings :=
  with_enabled false (match network with Some n => to_network_proxy_config n | None => default_settings end).

Definition network_proxy_config_for_profile_selection (permissions : option PermissionsToml) (profile_name : str)
  : comp ConfigError NetworkProxySettings :=
  if is_builtin_permission_profile_name profile_name then Ok default_settings
  else
    let? profile := selected_profile permissions profile_name in
    Ok (network_proxy_config_from_profile_network (p_network (r_profile profile))).

(** [NetworkProxyConfigToml], the settings of the feature: those of a profile less the hooks *)
Record NetworkProxyConfigToml := {
  f_enabled : option bool;
  f_proxy_url : option str;
  f_enable_socks5 : option bool;
  f_socks_url : option str;
  f_enable_socks5_udp : option bool;
  f_allow_upstream_proxy : option bool;
  f_dangerously_allow_non_loopback_proxy : option bool;
  f_dangerously_allow_all_unix_sockets : option bool;
  f_mode : option NetworkMode;
  f_domains : option (gmap str NetworkDomainPermissionToml);
  f_unix_sockets : option (gmap str NetworkUnixSocketPermission);
  f_allow_local_binding : option bool
}.

Definition apply_network_proxy_feature_config (f : NetworkProxyConfigToml) (c : NetworkProxySettings)
  : NetworkProxySettings :=
  apply_to_network_proxy_config
    {| t_enabled := f_enabled f; t_proxy_url := f_proxy_url f; t_enable_socks5 := f_enable_socks5 f;
       t_socks_url := f_socks_url f; t_enable_socks5_udp := f_enable_socks5_udp f;
       t_allow_upstream_proxy := f_allow_upstream_proxy f;
       t_dangerously_allow_non_loopback_proxy := f_dangerously_allow_non_loopback_proxy f;
       t_dangerously_allow_all_unix_sockets := f_dangerously_allow_all_unix_sockets f; t_mode := f_mode f;
       t_domains := f_domains f; t_unix_sockets := f_unix_sockets f; t_allow_local_binding := f_allow_local_binding f;
       t_mitm := None |} c.

(** ** Paths of the file system table *)

Definition is_glob_char (c : char) : bool :=
  (c =? 42)%N || (c =? 63)%N || (c =? open_bracket)%N || (c =? close_bracket)%N.

Definition is_windows_drive_absolute_path (path : str) : bool :=
  match path with
  | a :: b :: c :: _ =>
      (((65 <=? a)%N && (a <=? 90)%N) || ((97 <=? a)%N && (a <=? 122)%N)) && (b =? 58)%N && ((c =? 92)%N || (c =? slash)%N)
  | _ => false
  end.

Definition backslash : char := 92%N.
Definition is_windows_absolute_path (path : str) : bool :=
  is_windows_drive_absolute_path path || starts_with [backslash; backslash] path.

(** the four prefixes of device paths *)
Definition device_prefix (mark : char) (tail : str) : str := [backslash; backslash; mark; backslash] ++ tail.
Definition UNC : str := &"UNC" ++ [backslash].

Definition normalize_windows_device_path (path : str) : option str :=
  let unc mark := (fun unc => [backslash; backslash] ++ unc) <$> strip_prefix (device_prefix mark UNC) path in
  let drive mark := rest ← strip_prefix (device_prefix mark []) path;
                    if is_windows_drive_absolute_path rest then Some rest else None in
  match unc 63%N with
  | Some p => Some p
  | None =>
      match unc dot with
      | Some p => Some p
      | None => match drive 63%N with Some p => Some p | None => drive dot end
      end
  end.

Definition contains_glob_chars_for_platform (path : str) (is_windows : bool) : bool :=
  existsb is_glob_char (default path (if is_windows then normalize_windows_device_path path else None)).
Definition contains_glob_chars (path : str) : bool := contains_glob_chars_for_platform path false.

Definition remove_trailing_glob_suffix (path : str) : str := default path (strip_suffix (&"/**") path).

Definition parse_special_path (path : str) : option FileSystemSpecialPath :=
  if str_eqb path (&":root") then Some Root
  else if str_eqb path (&":minimal") then Some Minimal
  else if str_eqb path (&":workspace_roots") then Some (ProjectRoots None)
  else if str_eqb path (&":tmpdir") then Some Tmpdir
  else if starts_with (&":") path then Some (UnknownPath path None)
  else None.

Definition normalize_absolute_path_for_platform (path : str) (is_windows : bool) : str :=
  if is_windows then default path (normalize_windows_device_path path) else path.
Definition is_absolute_path_for_platform (path normalized_path : str) (is_windows : bool) : bool :=
  if is_windows then is_windows_absolute_path path || is_windows_absolute_path normalized_path
  else is_absolute normalized_path.

Definition compile_read_write_glob_path (path : str) (access : FileSystemAccessMode) : comp ConfigError str :=
  if negb (contains_glob_chars path) then Ok path
  else
    let path_without_trailing_glob := remove_trailing_glob_suffix path in
    if negb (contains_glob_chars path_without_trailing_glob) then Ok path_without_trailing_glob
    else Err (InvalidInput (&"filesystem glob path `" ++ path
      ++ &"` only supports `deny` access; use an exact path or trailing `/**` for `"
      ++ match access with Read => &"read" | Write => &"write" | Deny => &"deny" end ++ &"` subtree access")).

Definition parse_relative_subpath (subpath : str) : comp ConfigError str :=
  if negb (str_eqb subpath []) && forallb (fun c => match c with Normal _ => true | _ => false end) (components subpath)
  then Ok subpath
  else Err (InvalidInput (&"filesystem subpath `" ++ subpath
    ++ &"` must be a descendant path without `.` or `..` components")).

Definition unknown_special_path_warning (special : FileSystemSpecialPath) : list str :=
  match special with
  | UnknownPath path subpath =>
      [match subpath with
       | Some subpath =>
           &"Configured filesystem path `" ++ path ++ &"` with nested entry `" ++ subpath
             ++ &"` is not recognized by this version of Codex and will be ignored. Upgrade Codex if this path is required."
       | None =>
           &"Configured filesystem path `" ++ path
             ++ &"` is not recognized by this version of Codex and will be ignored. Upgrade Codex if this path is required."
       end]
  | _ => []
  end.

Definition no_nested_entries (path : str) : ConfigError :=
  InvalidInput (&"filesystem path `" ++ path ++ &"` does not support nested entries").

Section compile.
Context `{Hfs : !HostFs, Henv : !ProcessEnv}.

Definition parse_absolute_path_for_platform (path : str) (is_windows : bool) : comp ConfigError str :=
  let path_ref := normalize_absolute_path_for_platform path is_windows in
  if negb (is_absolute_path_for_platform path path_ref is_windows) && negb (str_eqb path (&"~"))
     && negb (starts_with (&"~/") path)
  then Err (InvalidInput (&"filesystem path `" ++ path ++ &"` must be absolute, use `~/...`, or start with `:`"))
  else match from_absolute_path path_ref with Some p => Ok p | None => Err NotAbsolute end.
Definition parse_absolute_path (path : str) : comp ConfigError str := parse_absolute_path_for_platform path false.

(** The results below are pairs with the warnings given on the way. *)
Definition compile_filesystem_path (path : str) : comp ConfigError (FileSystemPath * list str) :=
  match parse_special_path path with
  | Some special => Ok (Special special, unknown_special_path_warning special)
  | None => let? path := parse_absolute_path path in Ok (Path path, [])
  end.

Definition compile_filesystem_access_path (path : str) (access : FileSystemAccessMode)
  : comp ConfigError (FileSystemPath * list str) :=
  if negb (contains_glob_chars path) then compile_filesystem_path path
  else if is_deny access then let? pattern := parse_absolute_path path in Ok (GlobPattern pattern, [])
  else
    let? path := compile_read_write_glob_path path access in
    compile_filesystem_path path.

Definition compile_scoped_filesystem_path (path subpath : str) : comp ConfigError (FileSystemPath * list str) :=
  if str_eqb subpath (&".") then compile_filesystem_path path
  else
    match parse_special_path path with
    | Some special =>
        let? subpath := parse_relative_subpath subpath in
        match special with
        | ProjectRoots _ => Ok (Special (ProjectRoots (Some subpath)), [])
        | UnknownPath p _ =>
            let value := UnknownPath p (Some subpath) in Ok (Special value, unknown_special_path_warning value)
        | _ => Err (no_nested_entries path)
        end
    | None =>
        let? subpath := parse_relative_subpath subpath in
        let? base := parse_absolute_path path in
        Ok (Path (resolve_path_against_base subpath base), [])
    end.

Definition compile_scoped_filesystem_pattern (path subpath : str) (access : FileSystemAccessMode) : comp ConfigError str :=
  if negb (is_deny access)
  then Err (InvalidInput (&"filesystem glob subpath `" ++ subpath ++ &"` only supports `deny` access"))
  else
    let? subpath := parse_relative_subpath subpath in
    match parse_special_path path with
    | Some (ProjectRoots _) => Ok (project_roots_glob_pattern subpath)
    | Some _ => Err (no_nested_entries path)
    | None => let? base := parse_absolute_path path in Ok (abs_join base subpath)
    end.

Definition compile_scoped_entry (path subpath : str) (access : FileSystemAccessMode)
  : comp ConfigError (FileSystemSandboxEntry * list str) :=
  let can_compile_as_pattern :=
    match parse_special_path path with Some (ProjectRoots _) | None => true | Some _ => false end in
  if contains_glob_chars subpath && is_deny access && can_compile_as_pattern then
    let? pattern := compile_scoped_filesystem_pattern path subpath access in
    Ok ({| e_path := GlobPattern pattern; e_access := access |}, [])
  else
    let? subpath := compile_read_write_glob_path subpath access in
    let? ' (p, w) := compile_scoped_filesystem_path path subpath in
    Ok ({| e_path := p; e_access := access |}, w).

(** A loop that stops at the first error and collects entries and warnings *)
Fixpoint collect {A} (f : A -> comp ConfigError (list FileSystemSandboxEntry * list str)) (l : list A)
  : comp ConfigError (list FileSystemSandboxEntry * list str) :=
  match l with
  | [] => Ok ([], [])
  | x :: l =>
      let? ' (es, w) := f x in
      let? ' (es', w') := collect f l in
      Ok (es ++ es', w ++ w')
  end.

Definition compile_filesystem_permission (path : str) (permission : FilesystemPermissionToml)
  : comp ConfigError (list FileSystemSandboxEntry * list str) :=
  match permission with
  | Access access =>
      let? ' (p, w) := compile_filesystem_access_path path access in
      Ok ([{| e_path := p; e_access := access |}], w)
  | Scoped scoped_entries =>
      collect (fun kv => let? ' (e, w) := compile_scoped_entry path kv.1 kv.2 in Ok ([e], w)) (btree_list scoped_entries)
  end.

(** ** Warnings *)

Definition unsupported_read_write_glob_paths (filesystem : FilesystemPermissionsToml) : list str :=
  flat_map (fun kv =>
    match kv.2 with
    | Access access =>
        if negb (is_deny access) && contains_glob_chars (remove_trailing_glob_suffix kv.1) then [kv.1] else []
    | Scoped scoped_entries =>
        omap (fun s => if negb (is_deny s.2) && contains_glob_chars (remove_trailing_glob_suffix s.1)
                       then Some (kv.1 ++ [slash] ++ s.1) else None) (btree_list scoped_entries)
    end) (btree_list (fs_entries filesystem)).

Definition unbounded_unreadable_globstar_paths (filesystem : FilesystemPermissionsToml) : list str :=
  match PermissionsToml.glob_scan_max_depth filesystem with
  | Some _ => []
  | None =>
      flat_map (fun kv =>
        match kv.2 with
        | Access access => if is_deny access && contains_str (&"**") kv.1 then [kv.1] else []
        | Scoped scoped_entries =>
            omap (fun s => if is_deny s.2 && contains_str (&"**") s.1 then Some (kv.1 ++ [slash] ++ s.1) else None)
              (btree_list scoped_entries)
        end) (btree_list (fs_entries filesystem))
  end.

Definition unsupported_glob_warning (pattern : str) : str :=
  &"Filesystem glob `" ++ pattern ++ &"` uses `read` or `write` access, which is not fully supported by this platform's sandboxing. Use an exact path or trailing `/**` subtree rule instead. `deny` globs are supported.".
Definition unbounded_glob_warning (pattern : str) : str :=
  &"Filesystem deny-read glob `" ++ pattern ++ &"` uses `**`. Non-macOS sandboxing does not support unbounded `**` natively; set `glob_scan_max_depth` in this filesystem profile to cap Linux glob expansion and silence this warning, or enumerate explicit depths such as `*.env`, `*/*.env`, and `*/*/*.env`.".
Definition missing_filesystem_entries_warning (profile_name : str) : str :=
  &"Permissions profile `" ++ profile_name ++ &"` does not define any recognized filesystem entries for this version of Codex. Filesystem access will remain restricted. Upgrade Codex if this profile expects filesystem permissions.".

Definition validate_glob_scan_max_depth (max_depth : option N) : comp ConfigError (option N) :=
  match max_depth with
  | Some 0%N => Err (InvalidInput (&"glob_scan_max_depth must be at least 1"))
  | _ => Ok max_depth
  end.

(** ** Profiles *)

Definition compile_network_sandbox_policy (network : option NetworkToml) (base : NetworkSandboxPolicy)
  : NetworkSandboxPolicy :=
  match network with
  | None => base
  | Some network =>
      match t_enabled network with
      | Some true => NetworkEnabled
      | Some false => NetworkRestricted
      | None => base
      end
  end.

(** The first built-in profile among the inherited ones *)
Fixpoint base_permissions (inherited : list str) : comp ConfigError (FileSystemSandboxPolicy * NetworkSandboxPolicy) :=
  match inherited with
  | [] => Ok (restricted [], NetworkRestricted)
  | name :: rest =>
      if str_eqb name BUILT_IN_READ_ONLY_PROFILE then Ok (to_runtime_permissions profile_read_only)
      else if str_eqb name BUILT_IN_WORKSPACE_PROFILE then
        let? profile := comp_map_err InvalidInput profile_workspace_write in Ok (to_runtime_permissions profile)
      else base_permissions rest
  end.

Definition fs_is_empty (f : FilesystemPermissionsToml) : bool := bool_decide (fs_entries f = ∅).

Definition compile_filesystem (profile_name : str) (filesystem : option FilesystemPermissionsToml)
    (base : list FileSystemSandboxEntry) : comp ConfigError (list FileSystemSandboxEntry * list str) :=
  let has_base := negb (bool_decide (base = [])) in
  match filesystem with
  | Some filesystem =>
      if fs_is_empty filesystem && negb has_base then Ok (base, [missing_filesystem_entries_warning profile_name])
      else
        let w := map unsupported_glob_warning (unsupported_read_write_glob_paths filesystem)
                   ++ map unbounded_glob_warning (unbounded_unreadable_globstar_paths filesystem) in
        let? ' (es, w') := collect (fun kv => compile_filesystem_permission kv.1 kv.2) (btree_list (fs_entries filesystem)) in
        Ok (base ++ es, w ++ w')
  | None => Ok (base, if has_base then [] else [missing_filesystem_entries_warning profile_name])
  end.

Definition compile_permission_profile (permissions : PermissionsToml) (profile_name : str)
  : comp ConfigError (FileSystemSandboxPolicy * NetworkSandboxPolicy * list str) :=
  let? resolved := resolve_permission_profile permissions profile_name in
  let profile := r_profile resolved in
  let? ' (base_policy, base_network) := base_permissions (inherited_profile_names resolved) in
  let? ' (es, warnings) := compile_filesystem profile_name (p_filesystem profile) (Permissions.entries base_policy) in
  let policy := with_entries es base_policy in
  let? depth := validate_glob_scan_max_depth (f ← p_filesystem profile; PermissionsToml.glob_scan_max_depth f) in
  let policy := match depth with Some d => with_depth (Some d) policy | None => policy end in
  Ok (policy, compile_network_sandbox_policy (p_network profile) base_network, warnings).

(** [SandboxWorkspaceWrite] of config/src/types.rs *)
Record SandboxWorkspaceWrite := {
  s_writable_roots : list str;
  s_network_access : bool;
  s_exclude_tmpdir_env_var : bool;
  s_exclude_slash_tmp : bool
}.

Definition builtin_permission_profile (profile_name : str) (ww : option SandboxWorkspaceWrite)
  : comp str (option PermissionProfile) :=
  if str_eqb profile_name BUILT_IN_READ_ONLY_PROFILE then Ok (Some profile_read_only)
  else if str_eqb profile_name BUILT_IN_WORKSPACE_PROFILE then
    let? p :=
      match ww with
      | Some ww =>
          workspace_write_with [] (if s_network_access ww then NetworkEnabled else NetworkRestricted)
            (s_exclude_tmpdir_env_var ww) (s_exclude_slash_tmp ww)
      | None => profile_workspace_write
      end in
    Ok (Some p)
  else if str_eqb profile_name BUILT_IN_DANGER_FULL_ACCESS_PROFILE then Ok (Some Disabled)
  else Ok None.

Definition compile_permission_profile_selection (permissions : option PermissionsToml) (profile_name : str)
    (ww : option SandboxWorkspaceWrite)
  : comp ConfigError (FileSystemSandboxPolicy * NetworkSandboxPolicy * list str) :=
  let? builtin := comp_map_err InvalidInput (builtin_permission_profile profile_name ww) in
  match builtin with
  | Some permission_profile => Ok (to_runtime_permissions permission_profile, [])
  | None =>
      let? _ := reject_unknown_builtin_permission_profile profile_name in
      match permissions with
      | None => Err (InvalidInput NEEDS_TABLE)
      | Some permissions => compile_permission_profile permissions profile_name
      end
  end.

Definition compile_workspace_roots (workspace_roots : option (gmap str bool)) (policy_cwd : str) : list str :=
  match workspace_roots with
  | None => []
  | Some roots => map (fun path => resolve_path_against_base path policy_cwd) (enabled_roots roots)
  end.

Definition compile_permission_profile_workspace_roots (permissions : option PermissionsToml) (profile_name policy_cwd : str)
  : comp ConfigError (list str) :=
  if is_builtin_permission_profile_name profile_name then Ok []
  else
    let? profile := selected_profile permissions profile_name in
    Ok (compile_workspace_roots (p_workspace_roots (r_profile profile)) policy_cwd).

(** [get_readable_roots_required_for_codex_runtime] *)
Definition get_readable_roots_required_for_codex_runtime (codex_home : str) (zsh_path main_execve_wrapper_exe : option str)
  : list str :=
  let arg0_root := from_absolute_path (path_join (path_join codex_home (&"tmp")) (&"arg0")) in
  let zsh_path := zsh_path ≫= from_absolute_path in
  let execve_wrapper_root :=
    path ← main_execve_wrapper_exe ≫= from_absolute_path;
    match arg0_root with
    | Some arg0_root => if path_starts_with path arg0_root then parent path else Some path
    | None => Some path
    end in
  option_list zsh_path ++ option_list execve_wrapper_root.
End compile.

(** ** Theorems *)

Section theorems.
Context `{Hfs : !HostFs, Henv : !ProcessEnv} `{Hcur : !ProcessEnvOk}.

Lemma parse_absolute_path_normal path q : parse_absolute_path path = Ok q -> normal_absolute q.
Proof.
  unfold parse_absolute_path, parse_absolute_path_for_platform. intros H. case_match; [done|].
  destruct (from_absolute_path _) eqn:E; simplify_eq. by eapply from_absolute_path_result.
Qed.

Definition wf_path (p : FileSystemPath) : Prop := match p with Path q => normal_absolute q | _ => True end.

Lemma compile_filesystem_path_wf path p w : compile_filesystem_path path = Ok (p, w) -> wf_path p.
Proof.
  unfold compile_filesystem_path. destruct (parse_special_path path); intros H; [by simplify_eq|]. inv_comp H. simplify_eq.
  by eapply parse_absolute_path_normal.
Qed.

Lemma access_path_wf path a p w : compile_filesystem_access_path path a = Ok (p, w) -> wf_path p.
Proof.
  unfold compile_filesystem_access_path. intros H. repeat case_match; [by eapply compile_filesystem_path_wf| |].
  - inv_comp H. by simplify_eq.
  - inv_comp H. by eapply compile_filesystem_path_wf.
Qed.

Lemma scoped_path_wf path subpath p w : compile_scoped_filesystem_path path subpath = Ok (p, w) -> wf_path p.
Proof.
  unfold compile_scoped_filesystem_path. intros H. case_match; [by eapply compile_filesystem_path_wf|].
  destruct (parse_special_path path) as [special|].
  - inv_comp H. by destruct special; simplify_eq.
  - inv_comp H. inv_comp H. simplify_eq. apply resolve_base_normal. by eapply parse_absolute_path_normal.
Qed.

Lemma scoped_entry_wf path subpath a e w : compile_scoped_entry path subpath a = Ok (e, w) -> wf_entry e.
Proof.
  unfold compile_scoped_entry. intros H. case_match; inv_comp H; [by simplify_eq|]. inv_comp H.
  match goal with x : FileSystemPath * _ |- _ => destruct x end. simplify_eq. unfold wf_entry. simpl.
  by eapply scoped_path_wf.
Qed.

Lemma collected_entries {A} (f : A -> comp ConfigError (list FileSystemSandboxEntry * list str)) l es w :
  collect f l = Ok (es, w) ->
  (forall x, x ∈ l -> exists es' w', f x = Ok (es', w') /\ es' ⊆ es) /\
  (forall e, e ∈ es -> exists x es' w', x ∈ l /\ f x = Ok (es', w') /\ e ∈ es').
Proof.
  revert es w. induction l as [|x l IH]; intros es w H; simpl in H; [simplify_eq; set_solver|].
  inv_comp H. destruct a as [es1 w1]. inv_comp H. destruct a as [es2 w2]. simplify_eq.
  destruct (IH _ _ Hc0) as [IH1 IH2]. split.
  - intros y [->|Hy]%elem_of_cons; [exists es1, w1; set_solver|]. destruct (IH1 y Hy) as (es' & w' & E & Hs).
    exists es', w'. set_solver.
  - intros e [He|He]%elem_of_app; [exists x, es1, w1; set_solver|]. destruct (IH2 e He) as (y & es' & w' & Hy & E & Hin).
    exists y, es', w'. set_solver.
Qed.

Lemma filesystem_permission_wf path perm es w : compile_filesystem_permission path perm = Ok (es, w) -> Forall wf_entry es.
Proof.
  unfold compile_filesystem_permission. destruct perm as [a|scoped]; intros H.
  - inv_comp H. destruct a0 as [p w']. simplify_eq. apply Forall_singleton. unfold wf_entry. simpl. by eapply access_path_wf.
  - apply collected_entries in H as [_ H]. apply Forall_forall. intros e He. destruct (H e He) as (kv & es' & w' & _ & E & Hin).
    inv_comp E. destruct a as [e' w'']. simplify_eq. apply list_elem_of_singleton in Hin as ->. by eapply scoped_entry_wf.
Qed.

Lemma base_permissions_wf inherited pol net : base_permissions inherited = Ok (pol, net) ->
  wf_policy pol /\ kind pol = Restricted.
Proof.
  induction inherited as [|n rest IH]; simpl; intros H; [by simplify_eq; split; [constructor|]|].
  repeat case_match; [simplify_eq; split; [by repeat constructor|done]| |by apply IH].
  cbn in H. simplify_eq. split; [by repeat constructor|done].
Qed.

Lemma compile_filesystem_spec name fs base es w : compile_filesystem name fs base = Ok (es, w) -> Forall wf_entry base ->
  Forall wf_entry es /\ base ⊆ es /\
  (forall f path perm, fs = Some f -> fs_entries f !! path = Some perm ->
     exists es' w', compile_filesystem_permission path perm = Ok (es', w') /\ es' ⊆ es).
Proof.
  unfold compile_filesystem. intros H Hb. destruct fs as [f|]; [|by simplify_eq]. case_match eqn:Ee.
  - simplify_eq. split; [done|]. split; [done|]. intros ? path perm [= <-] E.
    apply andb_true_iff in Ee as [Ee%bool_decide_eq_true _]. by rewrite Ee in E.
  - inv_comp H. destruct a as [es1 w1]. simplify_eq. apply collected_entries in Hc as [H1 H2]. split; [|split; [set_solver|]].
    + apply Forall_app. split; [done|]. apply Forall_forall. intros e He. destruct (H2 e He) as (kv & es' & w' & _ & E & Hin).
      apply filesystem_permission_wf in E. rewrite Forall_forall in E. auto.
    + intros ? path perm [= <-] E. destruct (H1 (path, perm)) as (es' & w' & E' & Hs); [apply tget_elem; by rewrite tget_btree|].
      exists es', w'. set_solver.
Qed.

(** C24: a profile that compiles gives a restricted policy over normalised paths with
    every entry of the resolved profile in it; so a path the profile denies cannot be read,
    nor anything below it that no deeper entry speaks of, whatever the profile inherits. *)
Theorem compiled_profile_denies (permissions : PermissionsToml) (name : str) (pol : FileSystemSandboxPolicy)
    (net : NetworkSandboxPolicy) (warnings : list str) :
  compile_permission_profile permissions name = Ok (pol, net, warnings) ->
  wf_policy pol /\ kind pol = Restricted /\
  exists resolved, resolve_permission_profile permissions name = Ok resolved /\
    (forall f path perm, p_filesystem (r_profile resolved) = Some f -> fs_entries f !! path = Some perm ->
       exists es w, compile_filesystem_permission path perm = Ok (es, w) /\ es ⊆ Permissions.entries pol) /\
    (forall f path q p cwd, p_filesystem (r_profile resolved) = Some f -> fs_entries f !! path = Some (Access Deny) ->
       compile_filesystem_path path = Ok (Path q, []) -> contains_glob_chars path = false ->
       normal_absolute p -> within p q ->
       (forall e, e ∈ resolved_entries_with_cwd pol cwd -> PermissionFacts.covers e p -> depth (r_path e) <= depth q) ->
       can_read_path_with_cwd pol p cwd = false).
Proof.
  intros H. unfold compile_permission_profile in H. inv_comp H. rename a into resolved. inv_comp H. destruct a as [base bnet].
  inv_comp H. destruct a as [es w]. inv_comp H. rename a into d. injection H as <- <- <-.
  apply base_permissions_wf in Hc0 as [Hb Hk]. apply compile_filesystem_spec in Hc1 as (Hes & _ & Hin); [|done].
  set (pol := match d with Some d => _ | None => _ end).
  assert (Permissions.entries pol = es /\ kind pol = Restricted) as [Ee Ek] by (unfold pol; destruct d; by rewrite <- Hk).
  assert (wf_policy pol) as Hw by (unfold wf_policy; by rewrite Ee). split; [done|]. split; [done|].
  exists resolved. split; [done|]. rewrite Ee. split; [exact Hin|].
  intros f path q p cwd Ef Ep Eq Eg Hp Hpq Hdeep.
  destruct (Hin f path (Access Deny) Ef Ep) as (es' & w' & Ec & Hsub). cbn in Ec.
  unfold compile_filesystem_access_path in Ec. rewrite Eg in Ec. cbn [negb] in Ec. rewrite Eq in Ec. cbn in Ec. simplify_eq.
  unfold can_read_path_with_cwd.
  rewrite (decides_access pol cwd Hw Ek p {| r_path := q; r_access := Deny |}); [done|done|]. split; [|split; [done|]].
  - apply resolved_entries_elem. exists {| e_path := Path q; e_access := Deny |}. rewrite Ee. split; [set_solver|done].
  - intros e He Hce. specialize (Hdeep e He Hce). unfold precedes. simpl. destruct (r_access e); simpl; lia.
Qed.
End theorems.

(** ** Example: a profile on top of [:workspace] that takes a directory away *)
Section example.
#[local] Existing Instance demo_host.
#[local] Existing Instance demo_process.
#[local] Existing Instance demo_process_ok.

Definition demo_permissions : PermissionsToml :=
  {[ &"dev" := {| p_description := None; p_extends := Some BUILT_IN_WORKSPACE_PROFILE; p_workspace_roots := None;
       p_filesystem := Some {| PermissionsToml.glob_scan_max_depth := None;
         fs_entries := {[ &"/w/secret" := Access Deny; &":workspace_roots" := Scoped {[ &"**/*.env" := Deny ]} ]} |};
       p_network := Some no_network |} ]}.

Definition demo_compiled : FileSystemSandboxPolicy :=
  match compile_permission_profile demo_permissions (&"dev") with Ok (pol, _, _) => pol | _ => restricted [] end.

Lemma compiled_profile_denies_witness : can_read_path_with_cwd demo_compiled (&"/w/secret/key") (&"/w") = false.
Proof.
  assert (exists net w, compile_permission_profile demo_permissions (&"dev") = Ok (demo_compiled, net, w)) as (net & w & E)
    by (eexists _, _; by vm_compute).
  destruct (compiled_profile_denies _ _ _ _ _ E) as (_ & _ & resolved & Er & _ & H).
  eapply (H _ (&"/w/secret") (&"/w/secret") (&"/w/secret/key") (&"/w"));
    [| |vm_compute; reflexivity|vm_compute; reflexivity|paths_checked| |].
  - assert (resolve_permission_profile demo_permissions (&"dev") = Ok {| r_profile :=
      {| p_description := None; p_extends := Some BUILT_IN_WORKSPACE_PROFILE; p_workspace_roots := None;
       p_filesystem := Some {| PermissionsToml.glob_scan_max_depth := None;
         fs_entries := {[ &"/w/secret" := Access Deny; &":workspace_roots" := Scoped {[ &"**/*.env" := Deny ]} ]} |};
       p_network := Some no_network |}; inherited_profile_names := [BUILT_IN_WORKSPACE_PROFILE] |}) as E2 by (by vm_compute).
    rewrite E2 in Er. injection Er as <-. reflexivity.
  - by vm_compute.
  - by exists [&"key"].
  - intros e He _.
    assert (forallb (fun e => depth (r_path e) <=? depth (&"/w/secret")) (resolved_entries_with_cwd demo_compiled (&"/w")) = true)
      as Hall by (vm_compute; reflexivity).
    apply forallb_Forall in Hall. rewrite Forall_forall in Hall. apply Nat.leb_le, Hall, He.
Defined.
End example.
