(* ===== verification/NetworkLoader.v ===== *)
(** * core/src/network_proxy_loader.rs: the proxy's state from the layers of configuration

    Settings come from all enabled layers, constraints only from those a user does not
    control, and the rules of the exec policy are laid over the settings.  What the loader
    of the layers and that of the exec policy found is an argument, and so is the time a
    file was modified.  The lock around the recorded times is held while they are read and
    while they are replaced, and not in between. *)
From S2P Require Import Prelude RustStr RustPath AbsolutePath PathPrefix ExecPolicy Permissions Profiles IpAddr DomainPolicy.
From S2P Require Import ProxyConfig MitmHooks ProxyState NetworkProxy ProxyTasks ConfigLayers PermissionsToml PermissionsConfig.

Inductive LoadError :=
| NotLoaded
| BadTables
| BadProfile (e : ConfigError)
| MissingPermissionsTable
| BadHooks (message : str)
| PolicyNotLoaded
| Constraint (field : str)
| NotBuilt (message : str).

(** ** The tables of the network *)

Record NetworkTablesToml := { default_permissions : option str; permissions : option PermissionsToml }.

Definition PermissionsToml_codec : TomlCodec PermissionsToml := btree_codec.

Definition network_tables_from_toml (value : toml) : comp LoadError NetworkTablesToml :=
  let tables :=
    match value with
    | TTable t =>
        default_permissions ← get_opt (&"default_permissions") t;
        permissions ← get_opt (TomlCodec0 := PermissionsToml_codec) (&"permissions") t;
        Some {| default_permissions := default_permissions; permissions := permissions |}
    | _ => None
    end in
  match tables with Some t => Ok t | None => Err BadTables end.

Definition selected_network_from_tables (parsed : NetworkTablesToml) : comp LoadError (option NetworkToml) :=
  match default_permissions parsed with
  | None => Ok None
  | Some name =>
      if is_builtin_permission_profile_name name then Ok None
      else
        let? _ := comp_map_err BadProfile (reject_unknown_builtin_permission_profile name) in
        match permissions parsed with
        | None => Err MissingPermissionsTable
        | Some permissions =>
            let? profile := comp_map_err BadProfile (resolve_permission_profile permissions name) in
            Ok (p_network (r_profile profile))
        end
  end.

(** ** Constraints *)

Definition is_user_controlled_layer (layer : ConfigLayerSource) : bool :=
  match layer with User _ _ | Project _ | SessionFlags => true | _ => false end.

(** [Some] replaces, [None] keeps *)
Definition or_else {A} (new old : option A) : option A := match new with Some x => Some x | None => old end.

Definition apply_network_constraints (network : NetworkToml) (cs : NetworkProxyConstraints) : NetworkProxyConstraints :=
  let lists :=
    match t_domains network with
    | Some domains =>
        let config := default_settings in
        let config := match c_allowed_domains cs with Some allowed => set_allowed_domains allowed config | None => config end in
        let config := match c_denied_domains cs with Some denied => set_denied_domains denied config | None => config end in
        let config := overlay_network_domain_permissions domains config in
        (allowed_domains config, denied_domains config)
    | None => (c_allowed_domains cs, c_denied_domains cs)
    end in
  {| c_enabled := or_else (t_enabled network) (c_enabled cs);
     c_mode := or_else (t_mode network) (c_mode cs);
     c_allow_upstream_proxy := or_else (t_allow_upstream_proxy network) (c_allow_upstream_proxy cs);
     c_dangerously_allow_non_loopback_proxy :=
       or_else (t_dangerously_allow_non_loopback_proxy network) (c_dangerously_allow_non_loopback_proxy cs);
     c_dangerously_allow_all_unix_sockets :=
       or_else (t_dangerously_allow_all_unix_sockets network) (c_dangerously_allow_all_unix_sockets cs);
     c_allowed_domains := lists.1;
     c_allowlist_expansion_enabled := c_allowlist_expansion_enabled cs;
     c_denied_domains := lists.2;
     c_denylist_expansion_enabled := c_denylist_expansion_enabled cs;
     c_allow_unix_sockets := or_else (toml_allow_unix_sockets <$> t_unix_sockets network) (c_allow_unix_sockets cs);
     c_allow_local_binding := or_else (t_allow_local_binding network) (c_allow_local_binding cs) |}.

Definition trusted_layers (s : ConfigLayerStack) : list ConfigLayerEntry :=
  List.filter (fun l => negb (is_user_controlled_layer (l_name l))) (get_layers s LowestPrecedenceFirst false).

Definition network_constraints_from_trusted_layers (s : ConfigLayerStack) : comp LoadError NetworkProxyConstraints :=
  let merged := merge_layers (trusted_layers s) in
  let? parsed := network_tables_from_toml merged in
  let? network := selected_network_from_tables parsed in
  Ok (match network with Some network => apply_network_constraints network no_constraints | None => no_constraints end).

(** ** Settings *)

Record NetworkConfigAccumulator := {
  acc_config : NetworkProxySettings;
  acc_hooks : Map NetworkMitmHookToml;
  acc_actions : Map NetworkMitmActionToml
}.
Definition empty_accumulator : NetworkConfigAccumulator :=
  {| acc_config := default_settings; acc_hooks := []; acc_actions := [] |}.

Definition without_mitm (n : NetworkToml) : NetworkToml :=
  {| t_enabled := t_enabled n; t_proxy_url := t_proxy_url n; t_enable_socks5 := t_enable_socks5 n;
     t_socks_url := t_socks_url n; t_enable_socks5_udp := t_enable_socks5_udp n;
     t_allow_upstream_proxy := t_allow_upstream_proxy n;
     t_dangerously_allow_non_loopback_proxy := t_dangerously_allow_non_loopback_proxy n;
     t_dangerously_allow_all_unix_sockets := t_dangerously_allow_all_unix_sockets n; t_mode := t_mode n;
     t_domains := t_domains n; t_unix_sockets := t_unix_sockets n; t_allow_local_binding := t_allow_local_binding n;
     t_mitm := None |}.

Definition accumulate_network (network : NetworkToml) (acc : NetworkConfigAccumulator) : NetworkConfigAccumulator :=
  let config := apply_to_network_proxy_config (without_mitm network) (acc_config acc) in
  match t_mitm network with
  | None => {| acc_config := config; acc_hooks := acc_hooks acc; acc_actions := acc_actions acc |}
  | Some mitm =>
      {| acc_config := config; acc_hooks := textend (acc_hooks acc) (opt_entries (t_hooks mitm));
         acc_actions := textend (acc_actions acc) (opt_entries (t_actions mitm)) |}
  end.

Definition apply_network_tables (parsed : NetworkTablesToml) (acc : NetworkConfigAccumulator)
  : comp LoadError NetworkConfigAccumulator :=
  let? network := selected_network_from_tables parsed in
  Ok (match network with Some network => accumulate_network network acc | None => acc end).

Definition finish (acc : NetworkConfigAccumulator) : comp LoadError NetworkProxySettings :=
  let? config :=
    match acc_hooks acc with
    | [] => Ok (acc_config acc)
    | _ =>
        let actions := index_map (acc_actions acc) in
        let mitm := {| t_hooks := Some (index_map (acc_hooks acc)); t_actions := Some actions |} in
        let? _ := comp_map_err BadHooks (validate_action_references mitm actions) in
        Ok (with_hooks (to_runtime_hooks mitm (Some actions)) (acc_config acc))
    end in
  Ok (derive_mitm config).

Definition apply_exec_policy_network_rules (exec_policy : Policy) (config : NetworkProxySettings) : NetworkProxySettings :=
  let '(allowed, denied) := compiled_network_domains exec_policy in
  let config := foldl (fun c host => upsert_domain_permission host DomainAllow normalize_host c) config allowed in
  foldl (fun c host => upsert_domain_permission host DomainDeny normalize_host c) config denied.

Definition config_from_layers (s : ConfigLayerStack) (exec_policy : Policy) : comp LoadError NetworkProxySettings :=
  let merged := merge_layers (get_layers s LowestPrecedenceFirst false) in
  let? parsed := network_tables_from_toml merged in
  let? accumulator := apply_network_tables parsed empty_accumulator in
  let? config := finish accumulator in
  Ok (apply_exec_policy_network_rules exec_policy config).

(** ** Files to watch *)

Record LayerMtime := { m_path : str; m_mtime : option Z }.

(** what [load_exec_policy] found *)
Inductive PolicyLoad := PolicyLoaded (p : Policy) | PolicyUnparsable | PolicyFailed.

Section loader.
Context `{Hglob : !GlobSetLib} `{Hurl : !UrlHostLib} `{Hlib : !MitmLib} `{Hmitm : !MitmStateLib} `{Henv : !ProcessEnv}.

Definition CONFIG_TOML_FILE : str := &"config.toml".

Definition watched_path (l : ConfigLayerEntry) : option str :=
  match l_name l with
  | System file | User file _ | LegacyManagedConfigTomlFromFile file => Some file
  | Project dot_codex_folder => Some (resolve_path_against_base CONFIG_TOML_FILE dot_codex_folder)
  | _ => None
  end.

Definition new_layer_mtime (mtime : str -> option Z) (path : str) : LayerMtime := {| m_path := path; m_mtime := mtime path |}.

Definition collect_layer_mtimes (mtime : str -> option Z) (s : ConfigLayerStack) : list LayerMtime :=
  map (new_layer_mtime mtime) (omap watched_path (get_layers s LowestPrecedenceFirst false)).

Definition enforce_trusted_constraints (s : ConfigLayerStack) (config : NetworkProxySettings)
  : comp LoadError NetworkProxyConstraints :=
  let? cs := network_constraints_from_trusted_layers s in
  let? _ := comp_map_err Constraint (validate_policy_against_constraints config cs) in
  Ok cs.

(** A policy file that does not parse counts as empty; any other failure is one. *)
Definition build_config_state_with_mtimes (loaded : option ConfigLayerStack) (policy : ConfigLayerStack -> PolicyLoad)
    (mtime : str -> option Z) : comp LoadError (ConfigState * list LayerMtime) :=
  match loaded with
  | None => Err NotLoaded
  | Some stack =>
      let? exec_policy :=
        match policy stack with
        | PolicyLoaded p => Ok p
        | PolicyUnparsable => Ok empty_policy
        | PolicyFailed => Err PolicyNotLoaded
        end in
      let? config := config_from_layers stack exec_policy in
      let? cs := enforce_trusted_constraints stack config in
      let layer_mtimes := collect_layer_mtimes mtime stack in
      let? state := comp_map_err NotBuilt (build_config_state config cs) in
      Ok (state, layer_mtimes)
  end.

(** ** The reloader *)

Definition layer_changed (mtime : str -> option Z) (layer : LayerMtime) : bool :=
  match mtime (m_path layer), m_mtime layer with
  | Some new_mtime, Some old_mtime => (old_mtime <? new_mtime)%Z
  | Some _, None | None, Some _ => true
  | None, None => false
  end.
Definition needs_reload (mtime : str -> option Z) (layer_mtimes : list LayerMtime) : bool :=
  existsb (layer_changed mtime) layer_mtimes.

(** The answer and the times recorded afterwards; a failed load records nothing.  The
    configuration ([loaded], [policy]) is read first and the times to record afterwards. *)
Definition reload_now (loaded : option ConfigLayerStack) (policy : ConfigLayerStack -> PolicyLoad) (recorded : str -> option Z)
    (layer_mtimes : list LayerMtime) : comp LoadError ConfigState * list LayerMtime :=
  match build_config_state_with_mtimes loaded policy recorded with
  | Ok (state, new_mtimes) => (Ok state, new_mtimes)
  | Err e => (Err e, layer_mtimes)
  | Panic => (Panic, layer_mtimes)
  | Loop => (Loop, layer_mtimes)
  end.
(** The times are looked at before the configuration is read ([checked]) and again after. *)
Definition maybe_reload (checked : str -> option Z) (loaded : option ConfigLayerStack) (policy : ConfigLayerStack -> PolicyLoad)
    (recorded : str -> option Z) (layer_mtimes : list LayerMtime) : comp LoadError (option ConfigState) * list LayerMtime :=
  if negb (needs_reload checked layer_mtimes) then (Ok None, layer_mtimes)
  else
    let '(r, new_mtimes) := reload_now loaded policy recorded layer_mtimes in
    (let? state := r in Ok (Some state), new_mtimes).

(** ** Theorems *)

Lemma filter_implied {A} (f g : A -> bool) l : (forall x, f x = true -> g x = true) ->
  List.filter f (List.filter g l) = List.filter f l.
Proof.
  intros H. induction l as [|x l IH]; [done|]. simpl. destruct (g x) eqn:E; simpl; [by rewrite IH|].
  destruct (f x) eqn:Ef; [|done]. rewrite H in E by done. done.
Qed.

Lemma trusted_layers_same s r : List.filter not_user (layers r) = List.filter not_user (layers s) ->
  trusted_layers r = trusted_layers s.
Proof.
  intros E. assert (forall s, trusted_layers s = List.filter (fun l => negb (is_user_controlled_layer (l_name l)))
    (List.filter (fun l => negb (layer_is_disabled l)) (List.filter not_user (layers s)))) as H.
  { intros t. unfold trusted_layers, get_layers. simpl. induction (layers t) as [|l ls IH]; [done|]. simpl.
    unfold not_user at 1, is_user_layer. destruct (negb (layer_is_disabled l)) eqn:Ed; simpl.
    - destruct (l_name l) eqn:En; simpl; rewrite ?Ed; simpl; rewrite ?En; simpl; by rewrite IH.
    - destruct (l_name l) eqn:En; simpl; rewrite ?Ed; simpl; by rewrite IH. }
  by rewrite !H, E.
Qed.

(** The constraints on the proxy are those of the layers no user controls: whatever is
    written to the user's configuration, and whatever projects and the command line add,
    the constraints stay what they were. *)
Theorem users_cannot_change_constraints (s other : ConfigLayerStack) (file : str) (profile : option str) (cfg : toml) :
  (forall r, r = with_user_config_profile s file profile cfg \/ r = with_user_config s file cfg \/ r = with_user_layer_from s other ->
     network_constraints_from_trusted_layers r = network_constraints_from_trusted_layers s) /\
  (forall below new above,
     (exists f p, l_name new = User f p) \/ (exists f, l_name new = Project f) \/ l_name new = SessionFlags ->
     layers s = below ++ above -> forall r, layers r = below ++ new :: above ->
     network_constraints_from_trusted_layers r = network_constraints_from_trusted_layers s).
Proof.
  split.
  - intros r Hr. unfold network_constraints_from_trusted_layers. rewrite (trusted_layers_same s r); [done|].
    destruct Hr as [ -> |[ -> | -> ]]; [apply with_user_config_profile_same..|apply with_user_layer_from_same].
  - intros below new above Hnew Hs r Hr.
    assert (is_user_controlled_layer (l_name new) = true) as Hn by (destruct Hnew as [(? & ? & ->)|[(? & ->)| ->]]; done). unfold network_constraints_from_trusted_layers.
    assert (trusted_layers r = trusted_layers s) as ->; [|done].
    unfold trusted_layers, get_layers. rewrite Hr, Hs. simpl. rewrite !List.filter_app. simpl.
    destruct (negb (layer_is_disabled new)); simpl; by rewrite ?Hn.
Qed.

(** *** The rules of the exec policy *)

Lemma upsert_all_listed hosts perm c p perm' :
  listed (domain_entries (foldl (fun c host => upsert_domain_permission host perm normalize_host c) c hosts) perm') p <->
  (exists a b, hosts = a ++ p :: b /\ perm' = perm /\ Forall (fun h => normalize_host h <> normalize_host p) b) \/
  Forall (fun h => normalize_host h <> normalize_host p) hosts /\ listed (domain_entries c perm') p.
Proof.
  induction hosts as [|h hosts IH] using rev_ind; simpl.
  - split; [by right|]. intros [(a & b & E & _)|[_ ?]]; [by destruct a|done].
  - rewrite foldl_snoc, upsert_listed. case_bool_decide as Hn.
    + split.
      * intros [-> ->]. left. exists hosts, []. by repeat split.
      * intros [(a & b & E & -> & Hb)|[Hf _]]; [|apply Forall_app in Hf as [_ Hf]; rewrite Forall_singleton in Hf; congruence].
        destruct b as [|x b _] using rev_ind; [by apply app_inj_tail in E as [_ ->]|].
        rewrite app_comm_cons, app_assoc in E. apply app_inj_tail in E as [_ ->].
        apply Forall_app in Hb as [_ Hb]. rewrite Forall_singleton in Hb. congruence.
    + rewrite IH. split.
      * intros [(a & b & -> & -> & Hb)|[Hf Hl]]; [left|right].
        -- exists a, (b ++ [h]). rewrite <- app_assoc. repeat split. apply Forall_app. rewrite Forall_singleton. split; [done|congruence].
        -- split; [|done]. apply Forall_app. rewrite Forall_singleton. split; [done|congruence].
      * intros [(a & b & E & -> & Hb)|[Hf Hl]]; [left|right; by apply Forall_app in Hf as [? _]].
        destruct b as [|x b _] using rev_ind; [apply app_inj_tail in E as [_ ->]; done|].
        rewrite app_comm_cons, app_assoc in E. apply app_inj_tail in E as [-> ->].
        apply Forall_app in Hb as [Hb _]. by exists a, b.
Qed.

(** Laid over any settings, the rules of the exec policy have the last word: a host they
    forbid is on the list of denied domains and no spelling of it on the list of the
    allowed, a host they allow is allowed, and what they do not mention keeps its
    permission. *)
Theorem exec_policy_rules_last_word (exec_policy : Policy) (c : NetworkProxySettings) (allowed denied : list str) (host : str) :
  compiled_network_domains exec_policy = (allowed, denied) ->
  let c' := apply_exec_policy_network_rules exec_policy c in
  (host ∈ denied -> exists h, normalize_host h = normalize_host host /\ listed (denied_domains c') h /\
     forall g, normalize_host g = normalize_host host -> ~ listed (allowed_domains c') g) /\
  (host ∈ allowed -> Forall (fun h => normalize_host h <> normalize_host host) denied ->
     exists h, normalize_host h = normalize_host host /\ listed (allowed_domains c') h) /\
  (Forall (fun h => normalize_host h <> normalize_host host) (allowed ++ denied) ->
     forall perm, listed (domain_entries c' perm) host <-> listed (domain_entries c perm) host).
Proof.
  assert (forall l x, x ∈ l -> exists a h b, l = a ++ h :: b /\ normalize_host h = normalize_host x /\
    Forall (fun y => normalize_host y <> normalize_host x) b) as Hlast.
  { induction l as [|y l IH]; intros x Hx; [by apply not_elem_of_nil in Hx|].
    destruct (decide (Exists (fun z => normalize_host z = normalize_host x) l)) as [He|He].
    - apply Exists_exists in He as (z & Hz & Ez). destruct (IH z Hz) as (a & h & b & -> & Eh & Hb).
      exists (y :: a), h, b. rewrite Ez in *. done.
    - apply elem_of_cons in Hx as [->|Hx]; [|destruct He; apply Exists_exists; by exists x].
      exists [], y, l. split; [done|]. split; [done|]. by apply not_Exists_Forall in He; [|apply _]. }
  intros E c'. unfold c', apply_exec_policy_network_rules, allowed_domains, denied_domains. rewrite E. split; [|split].
  - intros (a & h & b & -> & Eh & Hb)%Hlast. exists h. split; [done|]. split.
    + apply upsert_all_listed. left. exists a, b. rewrite Eh. done.
    + intros g Eg Hl. apply upsert_all_listed in Hl as [(? & ? & _ & [=] & _)|[Hf _]].
      apply Forall_app in Hf as [_ [Hf _]%Forall_cons]. by rewrite Eh, Eg in Hf.
  - intros (a & h & b & -> & Eh & Hb)%Hlast Hd. exists h. split; [done|]. apply upsert_all_listed. right.
    rewrite Eh. split; [done|]. apply upsert_all_listed. left. exists a, b. by rewrite Eh.
  - intros [Ha Hd]%Forall_app perm. rewrite !upsert_all_listed. split.
    + intros [(a & b & -> & _)|[_ [(a & b & -> & _)|[_ ?]]]]; [| |done].
      * apply Forall_app in Hd as [_ [Hd _]%Forall_cons]. done.
      * apply Forall_app in Ha as [_ [Ha _]%Forall_cons]. done.
    + intros ?. right. split; [done|]. by right.
Qed.

(** *** The loaded state *)

(** The state that a stack of layers and the exec policy beside it give: the settings of all
    enabled layers and the rules of the policy, validated against the constraints of the
    trusted layers alone *)
Definition state_of_layers (policy : ConfigLayerStack -> PolicyLoad) (stack : ConfigLayerStack) (state : ConfigState) : Prop :=
  exists rules config,
    (policy stack = PolicyLoaded rules \/ (policy stack = PolicyUnparsable /\ rules = empty_policy)) /\
    config_from_layers stack rules = Ok config /\
    network_constraints_from_trusted_layers stack = Ok (constraints state) /\
    validate_policy_against_constraints config (constraints state) = Ok tt /\
    build_config_state config (constraints state) = Ok state.

Lemma loaded_state loaded policy mtime state mtimes :
  build_config_state_with_mtimes loaded policy mtime = Ok (state, mtimes) ->
  exists stack, loaded = Some stack /\ state_ok state /\ state_of_layers policy stack state /\ mtimes = collect_layer_mtimes mtime stack.
Proof.
  unfold build_config_state_with_mtimes. destruct loaded as [stack|]; [|done]. intros H. inv_comp H. inv_comp H. inv_comp H. inv_comp H.
  simplify_eq. exists stack. split; [done|]. unfold enforce_trusted_constraints in Hc1. inv_comp Hc1. inv_comp Hc1. simplify_eq.
  destruct (validate_policy_against_constraints _ _) as [[]| | |] eqn:Ev; try done.
  destruct (build_config_state _ _) eqn:Eb; try done. simpl in Hc2. simplify_eq.
  destruct (build_config_state_ok _ _ _ Ev Eb) as (Hok & _ & Ecs). split_and!; [done| |done].
  exists a, a0. rewrite Ecs. split_and!; try done. destruct (policy stack); simplify_eq; auto.
Qed.

(** Between two looks at a file nothing counts as a change: it was there neither time, or
    both times and its modification time is not later. *)
Definition not_later (before now : option Z) : Prop :=
  match before, now with
  | None, None => True
  | Some old, Some new => (new <= old)%Z
  | _, _ => False
  end.

Lemma needs_reload_spec mtime times :
  needs_reload mtime times = false <-> forall e, e ∈ times -> not_later (m_mtime e) (mtime (m_path e)).
Proof.
  unfold needs_reload. assert (forall e, layer_changed mtime e = false <-> not_later (m_mtime e) (mtime (m_path e))) as H.
  { intros e. unfold layer_changed, not_later. destruct (mtime (m_path e)), (m_mtime e); try done. apply Z.ltb_ge. }
  split.
  - intros Hn e He. apply H. by apply existsb_none with (x := e) in Hn.
  - intros Ha. apply existsb_none. intros e He. by apply H, Ha.
Qed.

(** The files that the enabled layers of a stack come from *)
Definition watches (stack : ConfigLayerStack) (file : str) : Prop :=
  exists l, l ∈ layers stack /\ l_disabled_reason l = None /\ watched_path l = Some file.

Lemma collect_layer_mtimes_spec mtime stack e :
  e ∈ collect_layer_mtimes mtime stack <-> watches stack (m_path e) /\ m_mtime e = mtime (m_path e).
Proof.
  unfold collect_layer_mtimes, watches, get_layers. rewrite list_elem_of_fmap. simpl. split.
  - intros (file & -> & (l & Hl & Hw)%list_elem_of_omap). split; [|done]. exists l. apply list_elem_of_In, filter_In in Hl as [Hl%list_elem_of_In Hd].
    unfold layer_is_disabled in Hd. by destruct (l_disabled_reason l).
  - intros [(l & Hl & Hd & Hw) Hm]. exists (m_path e). split; [destruct e; simpl in *; unfold new_layer_mtime; by subst|].
    apply list_elem_of_omap. exists l. split; [|done]. apply list_elem_of_In, filter_In. split; [by apply list_elem_of_In|]. unfold layer_is_disabled. by rewrite Hd.
Qed.

(** C23: what the reloader hands to the proxy keeps the proxy's contract.  A state it hands
    out, on demand or after a change, is consistent and is the one of the layers just read:
    their settings with the rules of the exec policy, validated against the constraints of
    exactly the trusted ones.  After that the recorded times are those of the files of the
    enabled layers, as they were after the load.  Asked whether anything changed, it answers
    no exactly when every recorded file is missing as before or is there with a modification
    time that is not later than the recorded one; otherwise it answers what a forced reload
    answers and records the same.  A failed load leaves the recorded times as they are. *)
Theorem reloader_keeps_contract (checked recorded : str -> option Z) (loaded : option ConfigLayerStack)
    (policy : ConfigLayerStack -> PolicyLoad) (times : list LayerMtime) :
  let '(now, times1) := reload_now loaded policy recorded times in
  let '(maybe, times2) := maybe_reload checked loaded policy recorded times in
  (forall state, now = Ok state ->
     exists stack, loaded = Some stack /\ reloadable ok_protocol state /\ state_of_layers policy stack state /\
       forall e, e ∈ times1 <-> watches stack (m_path e) /\ m_mtime e = recorded (m_path e)) /\
  ((forall state, now <> Ok state) -> times1 = times) /\
  ((forall e, e ∈ times -> not_later (m_mtime e) (checked (m_path e))) -> maybe = Ok None /\ times2 = times) /\
  (~ (forall e, e ∈ times -> not_later (m_mtime e) (checked (m_path e))) ->
     maybe = (let? state := now in Ok (Some state)) /\ times2 = times1).
Proof.
  destruct (reload_now loaded policy recorded times) as [now times1] eqn:En.
  destruct (maybe_reload checked loaded policy recorded times) as [maybe times2] eqn:Em.
  unfold maybe_reload in Em. rewrite En in Em. unfold reload_now in En.
  split_and!.
  - intros state ->. destruct (build_config_state_with_mtimes loaded policy recorded) as [[st m]|e| |] eqn:E; simplify_eq.
    destruct (loaded_state _ _ _ _ _ E) as (stack & -> & Hok & Hs & ->). exists stack. split_and!; [done..|].
    intros e. apply collect_layer_mtimes_spec.
  - intros Hn. destruct (build_config_state_with_mtimes loaded policy recorded) as [[st m]|e| |]; simplify_eq; try done. by destruct (Hn st).
  - intros Hsame%needs_reload_spec. rewrite Hsame in Em. by simplify_eq/=.
  - intros Hn. destruct (needs_reload checked times) eqn:Er; [by simplify_eq/=|]. destruct Hn. by apply needs_reload_spec.
Qed.

(** A change of a file between the load and the recording of its time is lost: right after a
    load the reloader finds nothing to do, whatever is on the disk by then. *)
Lemma change_during_load_lost recorded loaded policy times state loaded' policy' recorded' :
  (reload_now loaded policy recorded times).1 = Ok state ->
  (maybe_reload recorded loaded' policy' recorded' (reload_now loaded policy recorded times).2).1 = Ok None.
Proof.
  unfold reload_now at 1 2. destruct (build_config_state_with_mtimes loaded policy recorded) as [[st m]|e| |] eqn:E; [|done..].
  intros _. destruct (loaded_state _ _ _ _ _ E) as (stack & -> & _ & _ & ->). simpl. unfold maybe_reload.
  replace (needs_reload _ _) with false; [done|]. symmetry. apply needs_reload_spec. intros e [_ ->]%collect_layer_mtimes_spec.
  unfold not_later. destruct (recorded (m_path e)); [lia|done].
Qed.

(** A file that is replaced by one with an earlier modification time is not read again. *)
Lemma older_file_not_reloaded loaded policy recorded :
  (maybe_reload (fun _ => Some 6%Z) loaded policy recorded [{| m_path := &"/home/u/.xli/config.toml"; m_mtime := Some 7%Z |}]).1 = Ok None.
Proof. reflexivity. Qed.
End loader.

(** ** Examples *)

Definition demo_policy_rules : Policy := from_parts ∅
  [{| ExecPolicy.host := &"evil.org"; protocol := Https; network_decision := Forbidden; network_justification := None |};
   {| ExecPolicy.host := &"api.foo.org"; protocol := Https; network_decision := Allow; network_justification := None |}] ∅.

Lemma exec_policy_rules_last_word_witness :
  exists h, normalize_host h = &"evil.org" /\
    listed (denied_domains (apply_exec_policy_network_rules demo_policy_rules
      (set_allowed_domains [&"EVIL.org"] default_settings))) h.
Proof.
  destruct (exec_policy_rules_last_word demo_policy_rules (set_allowed_domains [&"EVIL.org"] default_settings)
    [&"api.foo.org"] [&"evil.org"] (&"evil.org")) as [H _]; [vm_compute; reflexivity|].
  destruct H as (h & E & Hl & _); [by constructor|]. exists h. split; [rewrite E; vm_compute; reflexivity|exact Hl].
Defined.

Definition dev_network (network : list (str * toml)) : toml :=
  TTable [(&"default_permissions", TString (&"dev"));
          (&"permissions", TTable [(&"dev", TTable [(&"network", TTable network)])])].
Definition demo_layers (managed user : list (str * toml)) : option ConfigLayerStack :=
  match new_stack [new_entry (User (&"/home/u/.xli/config.toml") None) (dev_network user);
                   new_entry (LegacyManagedConfigTomlFromFile (&"/etc/codex/managed_config.toml")) (dev_network managed)] with
  | Ok s => Some s
  | _ => None
  end.

Definition demo_limited : list (str * toml) :=
  [(&"mode", TString (&"limited")); (&"domains", TTable [(&"*.foo.org", TString (&"allow"))])].

(** A user adds a domain the managed layer does not allow, and one that it does. *)
Example demo_reload :
  let policy _ := PolicyUnparsable in
  let user d := [(&"domains", TTable [(d, TString (&"allow"))])] in
  (reload_now (demo_layers demo_limited (user (&"evil.org"))) policy (fun _ => Some 7%Z) []).1 =
    Err (Constraint (&"network.allowed_domains")) /\
  exists s, reload_now (demo_layers demo_limited (user (&"api.foo.org"))) policy (fun _ => Some 7%Z) [] =
    (Ok s, [{| m_path := &"/home/u/.xli/config.toml"; m_mtime := Some 7%Z |};
            {| m_path := &"/etc/codex/managed_config.toml"; m_mtime := Some 7%Z |}]) /\
    mode (config s) = Limited /\ mitm (config s) = true /\
    c_allowed_domains (constraints s) = Some [&"*.foo.org"] /\
    allowed_domains (config s) = Some [&"*.foo.org"; &"api.foo.org"].
Proof.
  split; [vm_compute; reflexivity|]. eexists. split; [vm_compute; reflexivity|]. vm_compute. repeat split.
Qed.
