(* ===== verification/NetworkApproval.v ===== *)
(** * core/src/tools/network_approval.rs: asking before a host is contacted

    The proxy asks this service about hosts that are on no list.  Requests run at the same
    time; the first one for a host, protocol and port puts the question to the hooks and to
    the reviewer, the others wait for its answer.  A request is a [flow] of critical
    sections on the service and of calls into the session; flows run in pools.  The session's side of an accepted network rule ([persist_network_policy_amendment] of
    core/src/session/mod.rs) is here too. *)
From stdpp Require Import relations.
From S2P Require Import Prelude RustStr RustPath MachineInt ExecPolicy Permissions Profiles ExecApproval Orchestrator IpAddr DomainPolicy.
From S2P Require Import ProxyConfig MitmHooks ProxyState NetworkProxy.

Declare Scope flow_scope.
Delimit Scope flow_scope with flow.
Open Scope flow_scope.

(** ** Data *)

Record GuardianNetworkAccessTrigger := {
  trigger_call_id : str;
  trigger_tool_name : str;
  trigger_command : list str;
  trigger_cwd : str;
  trigger_sandbox_permissions : SandboxPermissions;
  trigger_additional_permissions : option AdditionalPermissionProfile;
  trigger_justification : option str;
  trigger_tty : option bool
}.

Record HostApprovalKey := { key_host : str; key_protocol : str; key_port : N }.

#[export] Instance HostApprovalKey_eq_dec : EqDecision HostApprovalKey.
Proof. solve_decision. Defined.
#[export] Instance HostApprovalKey_countable : Countable HostApprovalKey.
Proof.
  apply (inj_countable' (fun k => (key_host k, key_protocol k, key_port k))
    (fun t => {| key_host := t.1.1; key_protocol := t.1.2; key_port := t.2 |})).
  by intros [].
Defined.

Definition protocol_key_label (protocol : NetworkRuleProtocol) : str :=
  match protocol with
  | Http => &"http" | Https => &"https" | Socks5Tcp => &"socks5-tcp" | Socks5Udp => &"socks5-udp"
  end.

Definition approval_protocol (p : NetworkProtocol) : NetworkRuleProtocol :=
  match p with
  | ProtoHttp => Http | ProtoHttpsConnect => Https | ProtoSocks5Tcp => Socks5Tcp | ProtoSocks5Udp => Socks5Udp
  end.

Definition from_request (request : NetworkPolicyRequest) (protocol : NetworkRuleProtocol) : HostApprovalKey :=
  {| key_host := to_ascii_lowercase (pr_host request); key_protocol := protocol_key_label protocol; key_port := pr_port request |}.

Inductive PendingApprovalDecision := AllowOnce | AllowForSession | PendingDeny.
Inductive NetworkApprovalOutcome := DeniedByUser | DeniedByPolicy (message : str).

(** [Ok(())] is [None]; a rejection carries its message. *)
Definition network_approval_outcome_to_result (outcome : option NetworkApprovalOutcome) : option str :=
  match outcome with
  | Some DeniedByUser => Some (&"rejected by user")
  | Some (DeniedByPolicy message) => Some message
  | None => None
  end.

Definition allows_network_approval_flow (policy : AskForApproval) : bool := match policy with Never => false | _ => true end.
Definition permission_profile_allows_network_approval_flow (profile : PermissionProfile) : bool :=
  match profile with Managed _ _ => true | _ => false end.

(** [NetworkDecision::deny] and [ask] *)
Definition deny (reason : str) : NetworkDecision := deny_with_source reason SourceDecider.
Definition ask (reason : str) : NetworkDecision := ask_with_source reason SourceDecider.

Definition to_network_decision (d : PendingApprovalDecision) : NetworkDecision :=
  match d with AllowOnce | AllowForSession => NetworkAllow | PendingDeny => deny REASON_NOT_ALLOWED end.

(** An answer that is waited for, and how often the waiters were notified *)
Record PendingHostApproval := { decision : option PendingApprovalDecision; notifications : nat }.

(** A cancellation token is a number. *)
Record ActiveNetworkApprovalCall := {
  registration_id : str;
  call_turn_id : str;
  call_trigger : GuardianNetworkAccessTrigger;
  call_command : str;
  call_token : N
}.

Record NetworkApprovalCallState := {
  active_calls : list (str * ActiveNetworkApprovalCall);
  call_outcomes : gmap str NetworkApprovalOutcome
}.

(** The service, with what its [Arc]s point to: the pending answers, the cancelled tokens
    and the results of deferred approvals *)
Record NetworkApprovalService := {
  calls : NetworkApprovalCallState;
  pending_host_approvals : gmap HostApprovalKey nat;
  session_approved_hosts : gset HostApprovalKey;
  session_denied_hosts : gset HostApprovalKey;
  approvals : list PendingHostApproval;
  cancelled : gset N;
  finish_outcomes : list (option (option NetworkApprovalOutcome))
}.

Definition empty_service : NetworkApprovalService :=
  {| calls := {| active_calls := []; call_outcomes := ∅ |}; pending_host_approvals := ∅; session_approved_hosts := ∅;
     session_denied_hosts := ∅; approvals := []; cancelled := ∅; finish_outcomes := [] |}.

Definition with_calls (c : NetworkApprovalCallState) (s : NetworkApprovalService) : NetworkApprovalService :=
  {| calls := c; pending_host_approvals := pending_host_approvals s; session_approved_hosts := session_approved_hosts s;
     session_denied_hosts := session_denied_hosts s; approvals := approvals s; cancelled := cancelled s;
     finish_outcomes := finish_outcomes s |}.
Definition with_pending (p : gmap HostApprovalKey nat) (l : list PendingHostApproval) (s : NetworkApprovalService) : NetworkApprovalService :=
  {| calls := calls s; pending_host_approvals := p; session_approved_hosts := session_approved_hosts s;
     session_denied_hosts := session_denied_hosts s; approvals := l; cancelled := cancelled s; finish_outcomes := finish_outcomes s |}.
Definition with_hosts (approved denied : gset HostApprovalKey) (s : NetworkApprovalService) : NetworkApprovalService :=
  {| calls := calls s; pending_host_approvals := pending_host_approvals s; session_approved_hosts := approved;
     session_denied_hosts := denied; approvals := approvals s; cancelled := cancelled s; finish_outcomes := finish_outcomes s |}.
Definition with_cancelled (c : gset N) (s : NetworkApprovalService) : NetworkApprovalService :=
  {| calls := calls s; pending_host_approvals := pending_host_approvals s; session_approved_hosts := session_approved_hosts s;
     session_denied_hosts := session_denied_hosts s; approvals := approvals s; cancelled := c; finish_outcomes := finish_outcomes s |}.
Definition with_finished (f : list (option (option NetworkApprovalOutcome))) (s : NetworkApprovalService) : NetworkApprovalService :=
  {| calls := calls s; pending_host_approvals := pending_host_approvals s; session_approved_hosts := session_approved_hosts s;
     session_denied_hosts := session_denied_hosts s; approvals := approvals s; cancelled := cancelled s; finish_outcomes := f |}.

(** ** The critical sections on the calls *)

(** [IndexMap::insert], [get] and [shift_remove] *)
Fixpoint index_insert (k : str) (c : ActiveNetworkApprovalCall) (m : list (str * ActiveNetworkApprovalCall))
  : list (str * ActiveNetworkApprovalCall) :=
  match m with
  | [] => [(k, c)]
  | (k', c') :: m => if bool_decide (k' = k) then (k', c) :: m else (k', c') :: index_insert k c m
  end.
Fixpoint index_get (k : str) (m : list (str * ActiveNetworkApprovalCall)) : option ActiveNetworkApprovalCall :=
  match m with [] => None | (k', c) :: m => if bool_decide (k' = k) then Some c else index_get k m end.
Definition index_remove (k : str) (m : list (str * ActiveNetworkApprovalCall)) : list (str * ActiveNetworkApprovalCall) :=
  filter (fun e => e.1 <> k) m.

Definition register_call (call : ActiveNetworkApprovalCall) (s : NetworkApprovalCallState) : unit * NetworkApprovalCallState :=
  (tt, {| active_calls := index_insert (registration_id call) call (active_calls s); call_outcomes := call_outcomes s |}).

Definition resolve_single_active_call (s : NetworkApprovalCallState) : option ActiveNetworkApprovalCall * NetworkApprovalCallState :=
  (match active_calls s with [(_, call)] => Some call | _ => None end, s).

(** The section of [record_call_outcome], with the token that is cancelled after it *)
Definition store_call_outcome (id : str) (outcome : NetworkApprovalOutcome) (s : NetworkApprovalCallState)
  : option N * NetworkApprovalCallState :=
  match index_get id (active_calls s) with
  | None => (None, s)
  | Some call =>
      match call_outcomes s !! id with
      | Some DeniedByUser => (None, s)
      | _ => (Some (call_token call), {| active_calls := active_calls s; call_outcomes := <[id := outcome]> (call_outcomes s) |})
      end
  end.

Definition remove_call (id : str) (s : NetworkApprovalCallState) : option NetworkApprovalOutcome * NetworkApprovalCallState :=
  (call_outcomes s !! id,
   {| active_calls := index_remove id (active_calls s); call_outcomes := delete id (call_outcomes s) |}).

(** [OnceCell::get_or_init] of a deferred approval: whoever is first removes the call. *)
Definition finish_once (cell : nat) (id : str) (s : NetworkApprovalService) : option NetworkApprovalOutcome * NetworkApprovalService :=
  match finish_outcomes s !! cell with
  | Some (Some outcome) => (outcome, s)
  | _ =>
      let '(outcome, c) := remove_call id (calls s) in
      (outcome, with_finished (<[cell := Some outcome]> (finish_outcomes s)) (with_calls c s))
  end.

(** ** The critical sections on the hosts and their pending answers *)

Definition get_or_create_pending_approval (k : HostApprovalKey) (s : NetworkApprovalService) : nat * bool * NetworkApprovalService :=
  match pending_host_approvals s !! k with
  | Some existing => (existing, false, s)
  | None =>
      let created := length (approvals s) in
      (created, true,
       with_pending (<[k := created]> (pending_host_approvals s))
         (approvals s ++ [{| decision := None; notifications := 0 |}]) s)
  end.
Definition remove_pending (k : HostApprovalKey) (s : NetworkApprovalService) : NetworkApprovalService :=
  with_pending (delete k (pending_host_approvals s)) (approvals s) s.

Definition decide_pending (d : PendingApprovalDecision) (p : PendingHostApproval) : PendingHostApproval :=
  {| decision := Some d; notifications := notifications p |}.
Definition notify_waiters (p : PendingHostApproval) : PendingHostApproval :=
  {| decision := decision p; notifications := S (notifications p) |}.
Definition on_pending (f : PendingHostApproval -> PendingHostApproval) (id : nat) (s : NetworkApprovalService) : NetworkApprovalService :=
  with_pending (pending_host_approvals s) (alter f id (approvals s)) s.

Definition approve_host (k : HostApprovalKey) (s : NetworkApprovalService) : NetworkApprovalService :=
  with_hosts ({[k]} ∪ session_approved_hosts s) (session_denied_hosts s) s.
Definition unapprove_host (k : HostApprovalKey) (s : NetworkApprovalService) : NetworkApprovalService :=
  with_hosts (session_approved_hosts s ∖ {[k]}) (session_denied_hosts s) s.
Definition deny_host (k : HostApprovalKey) (s : NetworkApprovalService) : NetworkApprovalService :=
  with_hosts (session_approved_hosts s) ({[k]} ∪ session_denied_hosts s) s.
Definition undeny_host (k : HostApprovalKey) (s : NetworkApprovalService) : NetworkApprovalService :=
  with_hosts (session_approved_hosts s) (session_denied_hosts s ∖ {[k]}) s.

(** [sync_session_approved_hosts_to], for the target, given the hosts of the source *)
Definition replace_approved_hosts (hosts : gset HostApprovalKey) (s : NetworkApprovalService) : NetworkApprovalService :=
  with_hosts hosts (session_denied_hosts s) s.

(** ** Flows *)

(** The turn that is active, as far as it is read here *)
Record ActiveTurn := {
  turn_sub_id : str;
  turn_cwd : str;
  turn_profile : PermissionProfile;
  turn_policy : AskForApproval;
  turn_auto_review : bool
}.

(** [GuardianApprovalRequest::NetworkAccess] *)
Record NetworkAccessRequest := {
  access_id : str;
  access_turn_id : str;
  access_target : str;
  access_host : str;
  access_protocol : NetworkRuleProtocol;
  access_port : N;
  access_trigger : option GuardianNetworkAccessTrigger
}.

(** What a flow does on the service: one critical section, or waiting for a notification
    later than those counted when the wait began *)
Inductive inside : Type -> Type :=
| IsDenied (k : HostApprovalKey) : inside bool
| IsApproved (k : HostApprovalKey) : inside bool
| GetOrCreate (k : HostApprovalKey) : inside (nat * bool)
| CountNotifications (id : nat) : inside nat
| ReadDecision (id : nat) : inside (option PendingApprovalDecision)
| AwaitNotified (id count : nat) : inside unit
| SetDecision (id : nat) (d : PendingApprovalDecision) : inside unit
| NotifyWaiters (id : nat) : inside unit
| RemovePending (k : HostApprovalKey) : inside unit
| ApproveHost (k : HostApprovalKey) : inside unit
| UnapproveHost (k : HostApprovalKey) : inside unit
| DenyHost (k : HostApprovalKey) : inside unit
| UndenyHost (k : HostApprovalKey) : inside unit
| ReplaceApproved (hosts : gset HostApprovalKey) : inside unit
| OnCalls {B : Type} (section : NetworkApprovalCallState -> B * NetworkApprovalCallState) : inside B
| CancelToken (token : N) : inside unit
| FinishOnce (cell : nat) (id : str) : inside (option NetworkApprovalOutcome).

(** [None]: the flow has to wait. *)
Definition run_inside {B : Type} (c : inside B) (s : NetworkApprovalService) : option (B * NetworkApprovalService) :=
  match c in inside B return option (B * NetworkApprovalService) with
  | IsDenied k => Some (bool_decide (k ∈ session_denied_hosts s), s)
  | IsApproved k => Some (bool_decide (k ∈ session_approved_hosts s), s)
  | GetOrCreate k => Some (get_or_create_pending_approval k s)
  | CountNotifications id => p ← approvals s !! id; Some (notifications p, s)
  | ReadDecision id => p ← approvals s !! id; Some (decision p, s)
  | AwaitNotified id count => p ← approvals s !! id; if bool_decide (notifications p = count) then None else Some (tt, s)
  | SetDecision id d => Some (tt, on_pending (decide_pending d) id s)
  | NotifyWaiters id => Some (tt, on_pending notify_waiters id s)
  | RemovePending k => Some (tt, remove_pending k s)
  | ApproveHost k => Some (tt, approve_host k s)
  | UnapproveHost k => Some (tt, unapprove_host k s)
  | DenyHost k => Some (tt, deny_host k s)
  | UndenyHost k => Some (tt, undeny_host k s)
  | ReplaceApproved hosts => Some (tt, replace_approved_hosts hosts s)
  | OnCalls f => let '(b, c) := f (calls s) in Some (b, with_calls c s)
  | CancelToken token => Some (tt, with_cancelled ({[token]} ∪ cancelled s) s)
  | FinishOnce cell id => Some (finish_once cell id s)
  end.

(** What a flow asks of the session *)
Inductive outside : Type -> Type :=
| UpgradeSession : outside bool
| ActiveTurnContext : outside (option ActiveTurn)
| RunPermissionRequestHooks (turn : ActiveTurn) (id command description : str) : outside (option PermissionRequestDecision)
| NewGuardianReviewId : outside str
| ReviewApprovalRequest (turn : ActiveTurn) (review_id : str) (request : NetworkAccessRequest) (retry_reason : str) : outside ReviewDecision
| RequestCommandApproval (turn : ActiveTurn) (id : str) (command : list str) (cwd reason : str) (ctx : NetworkApprovalContext)
  : outside ReviewDecision
| GuardianRejectionMessage (review_id : str) : outside str
| AcquireRefreshLock : outside bool
| CodexHome : outside str
| NetworkProxyStarted : outside bool
| UpdateRuntimeList (action : NetworkPolicyRuleAction) (host : str) : outside (str + unit)
| AppendNetworkRule (codex_home host : str) (rule : ExecPolicyNetworkRuleAmendment) : outside (str + unit)
| RecordAmendmentMessage (sub_id : str) (amendment : NetworkPolicyAmendment) : outside unit
| SendWarning (sub_id message : str) : outside unit
| NewUuid : outside str
| NewToken : outside N.

Inductive flow (A : Type) : Type :=
| Return (a : A)
| Inside {B : Type} (c : inside B) (k : B -> flow A)
| Outside {B : Type} (c : outside B) (k : B -> flow A).
Arguments Return {A} a.
Arguments Inside {A B} c k.
Arguments Outside {A B} c k.

Fixpoint flow_bind {A B : Type} (p : flow A) (f : A -> flow B) : flow B :=
  match p with
  | Return a => f a
  | Inside c k => Inside c (fun b => flow_bind (k b) f)
  | Outside c k => Outside c (fun b => flow_bind (k b) f)
  end.

Definition lock {B : Type} (c : inside B) : flow B := Inside c Return.
Definition session {B : Type} (c : outside B) : flow B := Outside c Return.

Notation "'let!' x := p 'in' q" := (flow_bind p (fun x => q)) (at level 200, x name, p at level 100, q at level 200) : flow_scope.
Notation "'let!' ' x := p 'in' q" := (flow_bind p (fun y => match y with x => q end))
  (at level 200, x pattern, p at level 100, q at level 200) : flow_scope.
Notation "p ;; q" := (flow_bind p (fun _ => q)) (at level 100, q at level 200, right associativity) : flow_scope.

(** ** The operations of the service *)

(** [Loop] says that the rounds ran out. *)
Fixpoint wait_for_decision (fuel : nat) (pending : nat) : flow (comp str PendingApprovalDecision) :=
  match fuel with
  | O => Return Loop
  | S fuel =>
      let! notified := lock (CountNotifications pending) in
      let! d := lock (ReadDecision pending) in
      match d with
      | Some d => Return (Ok d)
      | None => lock (AwaitNotified pending notified) ;; wait_for_decision fuel pending
      end
  end.

Definition set_decision (pending : nat) (d : PendingApprovalDecision) : flow unit :=
  lock (SetDecision pending d) ;; lock (NotifyWaiters pending).

Definition record_call_outcome (id : str) (outcome : NetworkApprovalOutcome) : flow unit :=
  let! token := lock (OnCalls (store_call_outcome id outcome)) in
  match token with Some token => lock (CancelToken token) | None => Return tt end.

Definition record_outcome_for_single_active_call (outcome : NetworkApprovalOutcome) : flow unit :=
  let! owner_call := lock (OnCalls resolve_single_active_call) in
  match owner_call with
  | None => Return tt
  | Some owner_call => record_call_outcome (registration_id owner_call) outcome
  end.

Definition record_outcome_for (owner_call : option ActiveNetworkApprovalCall) (outcome : NetworkApprovalOutcome) : flow unit :=
  match owner_call with Some call => record_call_outcome (registration_id call) outcome | None => Return tt end.

Definition record_blocked_request (blocked : BlockedRequest) : flow unit :=
  match denied_network_policy_message (blocked_host blocked) (blocked_reason blocked) (blocked_decision blocked) with
  | None => Return tt
  | Some message => record_outcome_for_single_active_call (DeniedByPolicy message)
  end.

Definition finish_call (id : str) : flow (option str) :=
  let! outcome := lock (OnCalls (remove_call id)) in Return (network_approval_outcome_to_result outcome).

Definition format_network_target (protocol host : str) (port : N) : str := protocol ++ &"://" ++ host ++ &":" ++ show_N port.
Definition approval_id_for_key (k : HostApprovalKey) : str :=
  &"network#" ++ key_protocol k ++ &"#" ++ key_host k ++ &"#" ++ show_N (key_port k).

Definition routes_approval_to_guardian (turn : ActiveTurn) : bool :=
  match turn_policy turn with OnRequest | Granular _ => turn_auto_review turn | _ => false end.

Definition GUARDIAN_TIMEOUT_INSTRUCTIONS : str :=
  &"The automatic permission approval review did not finish before its deadline. " ++
  &"Do not assume the action is unsafe based on the timeout alone. " ++
  &"You may retry once, or ask the user for guidance or explicit approval.".

(** ** An accepted network rule: core/src/session/mod.rs *)

Definition validated_network_policy_amendment_host (amendment : NetworkPolicyAmendment) (ctx : NetworkApprovalContext) : str + str :=
  let approved_host := normalize_host (ctx_host ctx) in
  if str_eqb (normalize_host (amendment_host amendment)) approved_host then inr approved_host
  else inl (&"network policy amendment host '" ++ amendment_host amendment ++ &"' does not match approved host '" ++ ctx_host ctx ++ &"'").

Definition persist_network_policy_amendment (amendment : NetworkPolicyAmendment) (ctx : NetworkApprovalContext) : flow (str + unit) :=
  let! acquired := session AcquireRefreshLock in
  if negb acquired then Return (inl (&"managed network proxy refresh semaphore closed"))
  else
    match validated_network_policy_amendment_host amendment ctx with
    | inl e => Return (inl e)
    | inr host =>
        let! codex_home := session CodexHome in
        let rule := execpolicy_network_rule_amendment amendment ctx host in
        let! started := session NetworkProxyStarted in
        let! updated := if started : bool then session (UpdateRuntimeList (amendment_action amendment) host) else Return (inr tt) in
        match updated with
        | inl err =>
            let list := match amendment_action amendment with RuleAllow => &"allowlist" | RuleDeny => &"denylist" end in
            Return (inl (&"failed to update runtime " ++ list ++ &": " ++ err))
        | inr _ =>
            let! appended := session (AppendNetworkRule codex_home host rule) in
            match appended with
            | inl err => Return (inl (&"failed to persist network policy amendment to execpolicy: " ++ err))
            | inr _ => Return (inr tt)
            end
        end
    end.

(** An accepted rule is kept; that this failed is only reported. *)
Definition apply_amendment (turn : ActiveTurn) (amendment : NetworkPolicyAmendment) (ctx : NetworkApprovalContext) : flow unit :=
  let! persisted := persist_network_policy_amendment amendment ctx in
  match persisted with
  | inr _ => session (RecordAmendmentMessage (turn_sub_id turn) amendment)
  | inl err => session (SendWarning (turn_sub_id turn) (&"Failed to apply network policy amendment: " ++ err))
  end.

(** ** A request of the proxy *)

(** The early refusals: the answer for the waiters, and the outcome of the call *)
Definition refuse_by_policy (pending : nat) (k : HostApprovalKey) (message : str) : flow (comp str NetworkDecision) :=
  set_decision pending PendingDeny ;;
  lock (RemovePending k) ;;
  record_outcome_for_single_active_call (DeniedByPolicy message) ;;
  Return (Ok (deny REASON_NOT_ALLOWED)).

(** The match on the decision of the reviewer: what it resolves to, and whether the
    session keeps the denial *)
Definition resolve_review (turn : ActiveTurn) (owner_call : option ActiveNetworkApprovalCall) (guardian_review_id : option str)
    (ctx : NetworkApprovalContext) (d : ReviewDecision) : flow (PendingApprovalDecision * bool) :=
  match d with
  | Approved | ApprovedExecpolicyAmendment _ => Return (AllowOnce, false)
  | ApprovedForSession => Return (AllowForSession, false)
  | NetworkPolicyAmended amendment =>
      match amendment_action amendment with
      | RuleAllow => apply_amendment turn amendment ctx ;; Return (AllowForSession, false)
      | RuleDeny =>
          apply_amendment turn amendment ctx ;;
          record_outcome_for owner_call DeniedByUser ;;
          Return (PendingDeny, true)
      end
  | Denied | AbortTurn =>
      match guardian_review_id with
      | Some review_id =>
          match owner_call with
          | Some call =>
              let! message := session (GuardianRejectionMessage review_id) in
              record_call_outcome (registration_id call) (DeniedByPolicy message)
          | None => Return tt
          end
      | None => record_outcome_for owner_call DeniedByUser
      end ;;
      Return (PendingDeny, false)
  | TimedOut =>
      record_outcome_for owner_call (DeniedByPolicy GUARDIAN_TIMEOUT_INSTRUCTIONS) ;;
      Return (PendingDeny, false)
  end.

(** The caches of the session, the answer for the waiters and the one for the proxy *)
Definition settle (pending : nat) (k : HostApprovalKey) (resolved : PendingApprovalDecision) (cache_session_deny : bool)
  : flow (comp str NetworkDecision) :=
  match resolved with
  | AllowForSession => lock (UndenyHost k) ;; lock (ApproveHost k)
  | _ => Return tt
  end ;;
  (if cache_session_deny then lock (UnapproveHost k) ;; lock (DenyHost k) else Return tt) ;;
  set_decision pending resolved ;;
  lock (RemovePending k) ;;
  Return (Ok (to_network_decision resolved)).

Definition target_of (request : NetworkPolicyRequest) (k : HostApprovalKey) : str :=
  format_network_target (key_protocol k) (pr_host request) (key_port k).
Definition denial_message (target : str) : str := &"Network access to " ++ [34%N] ++ target ++ [34%N] ++ &" was blocked by policy.".

(** The guardian or the user *)
Definition ask_reviewer (request : NetworkPolicyRequest) (k : HostApprovalKey) (turn : ActiveTurn)
    (owner_call : option ActiveNetworkApprovalCall) (guardian_review_id : option str) (ctx : NetworkApprovalContext) : flow ReviewDecision :=
  let target := target_of request k in
  match guardian_review_id with
  | Some review_id =>
      session (ReviewApprovalRequest turn review_id
        {| access_id := approval_id_for_key k;
           access_turn_id := match owner_call with Some call => call_turn_id call | None => turn_sub_id turn end;
           access_target := target; access_host := pr_host request; access_protocol := ctx_protocol ctx; access_port := key_port k;
           access_trigger := option_map call_trigger owner_call |}
        (denial_message target))
  | None =>
      session (RequestCommandApproval turn (approval_id_for_key k) [&"network-access"; target] (turn_cwd turn)
        (pr_host request ++ &" is not in the allowed_domains") ctx)
  end.

(** The request that asks, once the turn lets it *)
Definition review_request (request : NetworkPolicyRequest) (k : HostApprovalKey) (pending : nat) (turn : ActiveTurn)
  : flow (comp str NetworkDecision) :=
  let target := target_of request k in
  let! owner_call := lock (OnCalls resolve_single_active_call) in
  let ctx := {| ctx_host := pr_host request; ctx_protocol := approval_protocol (pr_protocol request) |} in
  let command := match owner_call with Some call => call_command call | None => &"network-access" ++ &" " ++ target end in
  let! hooks := session (RunPermissionRequestHooks turn (approval_id_for_key k) command (&"network-access " ++ target)) in
  match hooks with
  | Some HookAllow =>
      set_decision pending AllowOnce ;;
      lock (RemovePending k) ;;
      Return (Ok NetworkAllow)
  | Some (HookDeny message) =>
      record_outcome_for owner_call (DeniedByPolicy message) ;;
      set_decision pending PendingDeny ;;
      lock (RemovePending k) ;;
      Return (Ok (deny REASON_NOT_ALLOWED))
  | None =>
      let! guardian_review_id :=
        if routes_approval_to_guardian turn then let! id := session NewGuardianReviewId in Return (Some id) else Return None in
      let! d := ask_reviewer request k turn owner_call guardian_review_id ctx in
      let! '(resolved, cache_session_deny) := resolve_review turn owner_call guardian_review_id ctx d in
      settle pending k resolved cache_session_deny
  end.

Definition own_request (request : NetworkPolicyRequest) (k : HostApprovalKey) (pending : nat) : flow (comp str NetworkDecision) :=
  let policy_denial_message := denial_message (target_of request k) in
  let! turn := session ActiveTurnContext in
  match turn with
  | None => refuse_by_policy pending k policy_denial_message
  | Some turn =>
      if negb (permission_profile_allows_network_approval_flow (turn_profile turn)) then refuse_by_policy pending k policy_denial_message
      else if negb (allows_network_approval_flow (turn_policy turn)) then refuse_by_policy pending k policy_denial_message
      else review_request request k pending turn
  end.

Definition handle_inline_policy_request (request : NetworkPolicyRequest) : flow (comp str NetworkDecision) :=
  let k := from_request request (approval_protocol (pr_protocol request)) in
  let! denied := lock (IsDenied k) in
  if denied : bool then Return (Ok (deny REASON_NOT_ALLOWED))
  else
    let! approved := lock (IsApproved k) in
    if approved : bool then Return (Ok NetworkAllow)
    else
      let! '(pending, is_owner) := lock (GetOrCreate k) in
      if is_owner : bool then own_request request k pending
      else
        let! d := wait_for_decision 2 pending in
        Return (match d with Ok d => Ok (to_network_decision d) | Err e => Err e | Panic => Panic | Loop => Loop end).

(** [build_network_policy_decider] *)
Definition network_policy_decider (request : NetworkPolicyRequest) : flow (comp str NetworkDecision) :=
  let! alive := session UpgradeSession in
  if alive : bool then handle_inline_policy_request request else Return (Ok (ask REASON_NOT_ALLOWED)).

(** ** Calls with a network approval *)

Record NetworkApprovalSpec := {
  spec_has_network : bool;
  spec_mode : NetworkApprovalMode;
  spec_trigger : GuardianNetworkAccessTrigger;
  spec_command : str
}.
Record ActiveNetworkApproval := { active_registration : option str; active_mode : NetworkApprovalMode; active_token : N }.
Record DeferredNetworkApproval := { deferred_registration : str; deferred_token : N; finish_outcome : nat }.

Definition begin_network_approval (turn_id : str) (managed_network_active : bool) (spec : option NetworkApprovalSpec)
  : flow (option ActiveNetworkApproval) :=
  match spec with
  | None => Return None
  | Some spec =>
      if negb managed_network_active || negb (spec_has_network spec) then Return None
      else
        let! id := session NewUuid in
        let! token := session NewToken in
        lock (OnCalls (register_call {| registration_id := id; call_turn_id := turn_id; call_trigger := spec_trigger spec;
                                        call_command := spec_command spec; call_token := token |})) ;;
        Return (Some {| active_registration := Some id; active_mode := spec_mode spec; active_token := token |})
  end.

Definition finish_immediate_network_approval (active : ActiveNetworkApproval) : flow (option str) :=
  match active_registration active with None => Return None | Some id => finish_call id end.

(** [cell] is the new [OnceCell]. *)
Definition into_deferred (active : ActiveNetworkApproval) (cell : nat) : option DeferredNetworkApproval :=
  match active_mode active, active_registration active with
  | Deferred, Some id => Some {| deferred_registration := id; deferred_token := active_token active; finish_outcome := cell |}
  | _, _ => None
  end.

Definition finish_deferred_network_approval (deferred : option DeferredNetworkApproval) : flow (option str) :=
  match deferred with
  | None => Return None
  | Some d =>
      let! outcome := lock (FinishOnce (finish_outcome d) (deferred_registration d)) in
      Return (network_approval_outcome_to_result outcome)
  end.

(** ** Pools of requests *)

(** The answers of the hooks and of the reviewers, with the turn and the id they were
    asked with *)
Inductive answer :=
| HookAnswer (turn : ActiveTurn) (id : str) (a : option PermissionRequestDecision)
| ReviewAnswer (turn : ActiveTurn) (id : str) (d : ReviewDecision).

Definition logged {B : Type} (c : outside B) : B -> list answer :=
  match c in outside B return B -> list answer with
  | RunPermissionRequestHooks turn id _ _ => fun b => [HookAnswer turn id b]
  | ReviewApprovalRequest turn _ request _ => fun b => [ReviewAnswer turn (access_id request) b]
  | RequestCommandApproval turn id _ _ _ _ => fun b => [ReviewAnswer turn id b]
  | _ => fun _ => []
  end.

(** The id of the question, for a call that asks hooks or a reviewer *)
Definition question {B : Type} (c : outside B) : option str :=
  match c with
  | RunPermissionRequestHooks _ id _ _ | RequestCommandApproval _ id _ _ _ _ => Some id
  | ReviewApprovalRequest _ _ request _ => Some (access_id request)
  | _ => None
  end.

Inductive result := Decided (d : comp str NetworkDecision) | Finished.

(** What can run at the same time on one service *)
Inductive job :=
| Request (request : NetworkPolicyRequest)
| Blocked (blocked : BlockedRequest)
| Begin (turn_id : str) (managed_network_active : bool) (spec : option NetworkApprovalSpec)
| Unregister (id : str)
| FinishImmediate (active : ActiveNetworkApproval)
| FinishDeferred (deferred : option DeferredNetworkApproval)
| SyncFrom (hosts : gset HostApprovalKey).

Definition flow_of (j : job) : flow result :=
  match j with
  | Request request => let! d := network_policy_decider request in Return (Decided d)
  | Blocked blocked => record_blocked_request blocked ;; Return Finished
  | Begin turn_id active spec => begin_network_approval turn_id active spec ;; Return Finished
  | Unregister id => lock (OnCalls (remove_call id)) ;; Return Finished
  | FinishImmediate active => finish_immediate_network_approval active ;; Return Finished
  | FinishDeferred deferred => finish_deferred_network_approval deferred ;; Return Finished
  | SyncFrom hosts => lock (ReplaceApproved hosts) ;; Return Finished
  end.

(** The flows, the service they share, and the answers so far *)
Definition pool : Type := list (flow result) * NetworkApprovalService * list answer.

Inductive pool_step : pool -> pool -> Prop :=
| step_inside B (c : inside B) k b ps i s s' log :
    ps !! i = Some (Inside c k) -> run_inside c s = Some (b, s') ->
    pool_step (ps, s, log) (<[i := k b]> ps, s', log)
| step_outside B (c : outside B) k b ps i s log :
    ps !! i = Some (Outside c k) -> pool_step (ps, s, log) (<[i := k b]> ps, s, log ++ logged c b).

(** ** The outcomes of calls *)

Lemma index_get_insert k k' c m :
  index_get k (index_insert k' c m) = if bool_decide (k' = k) then Some c else index_get k m.
Proof.
  induction m as [|[k0 c0] m IH]; cbn [index_insert index_get]; [done|].
  destruct (bool_decide (k0 = k')) eqn:E; cbn [index_get].
  - apply bool_decide_eq_true in E as ->. by destruct (bool_decide (k' = k)).
  - rewrite IH. destruct (bool_decide (k0 = k)) eqn:E0; [|done]. apply bool_decide_eq_true in E0 as ->.
    rewrite bool_decide_false; [done|]. by apply bool_decide_eq_false in E; intros ->.
Qed.

Lemma index_get_remove k k' m : index_get k (index_remove k' m) = if bool_decide (k' = k) then None else index_get k m.
Proof.
  unfold index_remove. induction m as [|[k0 c0] m IH]; [cbn; by case_bool_decide|]. rewrite filter_cons. cbn [fst].
  destruct (decide (k0 <> k')) as [Hne|He]; cbn [index_get].
  - rewrite IH. destruct (bool_decide (k0 = k)) eqn:E0; [|done]. apply bool_decide_eq_true in E0 as ->.
    by rewrite bool_decide_false by congruence.
  - apply dec_stable in He as ->. rewrite IH. by destruct (bool_decide (k' = k)).
Qed.

(** What the flows do to the calls, as operations in some order *)
Inductive calls_op :=
| RegisterCall (call : ActiveNetworkApprovalCall)
| StoreOutcome (id : str) (outcome : NetworkApprovalOutcome)
| RemoveCall (id : str).

Definition run_calls_op (o : calls_op) (s : NetworkApprovalCallState) : NetworkApprovalCallState :=
  match o with
  | RegisterCall call => (register_call call s).2
  | StoreOutcome id outcome => (store_call_outcome id outcome s).2
  | RemoveCall id => (remove_call id s).2
  end.

(** Outcomes are those of calls that are under way. *)
Definition calls_ok (s : NetworkApprovalCallState) : Prop :=
  forall id, is_Some (call_outcomes s !! id) -> is_Some (index_get id (active_calls s)).

Lemma run_calls_op_ok o s : calls_ok s -> calls_ok (run_calls_op o s).
Proof.
  intros H. destruct o as [call|id outcome|id]; intros id'; cbn [run_calls_op register_call remove_call snd active_calls call_outcomes].
  - rewrite index_get_insert. intros Ho. case_bool_decide; [done|by apply H].
  - unfold store_call_outcome. destruct (index_get id (active_calls s)) as [call|] eqn:E; [|by apply H].
    assert (is_Some (<[id := outcome]> (call_outcomes s) !! id') -> is_Some (index_get id' (active_calls s))) as Hins.
    { destruct (decide (id = id')) as [<-|Hne]; [by rewrite E|]. rewrite lookup_insert_ne by done. apply H. }
    destruct (call_outcomes s !! id) as [[|m]|]; cbn [snd active_calls call_outcomes]; [apply H|done..].
  - rewrite index_get_remove. case_bool_decide as E; [subst; rewrite lookup_delete_eq; by intros []|].
    rewrite lookup_delete_ne by done. apply H.
Qed.

(** A call that the user denied reports so when it is finished, whatever else was recorded
    for it, and the outcomes stay those of calls that are under way. *)
Theorem user_denial_is_reported ops s id :
  calls_ok s -> call_outcomes s !! id = Some DeniedByUser -> RemoveCall id ∉ ops ->
  let s' := fold_left (fun s o => run_calls_op o s) ops s in
  calls_ok s' /\ network_approval_outcome_to_result (remove_call id s').1 = Some (&"rejected by user").
Proof.
  revert s. induction ops as [|o ops IH]; intros s Hok Hd Hn; cbn [fold_left]; [split; [done|]; cbn; by rewrite Hd|].
  apply not_elem_of_cons in Hn as [Ho Hn]. apply IH; [by apply run_calls_op_ok| |done].
  destruct o as [call|id' outcome|id']; cbn [run_calls_op register_call remove_call snd call_outcomes]; [done| |].
  - unfold store_call_outcome. destruct (index_get id' (active_calls s)); [|done].
    destruct (decide (id' = id)) as [->|Hne]; [by rewrite Hd|].
    destruct (call_outcomes s !! id') as [[|m]|]; cbn [snd call_outcomes]; [done|by rewrite lookup_insert_ne..].
  - rewrite lookup_delete_ne; congruence.
Qed.
