(* ===== verification/ApprovalPools.v ===== *)
(** * Requests for network approval that run at the same time

    A program logic for the flows of NetworkApproval.v: [wp] speaks about one flow among
    others, with a claim on the host it asks about and the facts it has seen; the
    invariant of a pool ties claims and facts to the service.  A request passes only if
    somebody was asked and agreed, a host is asked about once at a time, and every request
    ends. *)
From Stdlib Require DecimalString DecimalPos DecimalN.
From stdpp Require Import relations.
From S2P Require Import Prelude RustStr RustPath MachineInt ExecPolicy Permissions Profiles ExecApproval Orchestrator IpAddr DomainPolicy.
From S2P Require Import ProxyConfig MitmHooks ProxyState NetworkProxy NetworkApproval.

(** ** What an answer gives *)

Definition request_key (request : NetworkPolicyRequest) : HostApprovalKey :=
  from_request request (approval_protocol (pr_protocol request)).

Definition may_ask (turn : ActiveTurn) : bool :=
  permission_profile_allows_network_approval_flow (turn_profile turn) && allows_network_approval_flow (turn_policy turn).
Definition for_session (d : ReviewDecision) : bool :=
  match d with
  | ApprovedForSession => true
  | NetworkPolicyAmended a => match amendment_action a with RuleAllow => true | RuleDeny => false end
  | _ => false
  end.

(** Somebody who may be asked said yes to this host, protocol and port. *)
Definition grants_key (k : HostApprovalKey) (a : answer) : bool :=
  match a with
  | HookAnswer turn id answer => may_ask turn && str_eqb id (approval_id_for_key k) && match answer with Some HookAllow => true | _ => false end
  | ReviewAnswer turn id d => may_ask turn && str_eqb id (approval_id_for_key k) && approves d
  end.
(** ... for the rest of the session *)
Definition grants_session (k : HostApprovalKey) (a : answer) : bool :=
  match a with
  | HookAnswer _ _ _ => false
  | ReviewAnswer turn id d => may_ask turn && str_eqb id (approval_id_for_key k) && for_session d
  end.
Definition granted (log : list answer) (k : HostApprovalKey) : Prop := exists a, a ∈ log /\ grants_key k a = true.

Definition allowing (d : PendingApprovalDecision) : bool := match d with PendingDeny => false | _ => true end.

(** ** Flows with a claim *)

(** A flow that creates a pending answer has a claim on its host until it removes it. *)
Inductive phase := Undecided | Chosen | Notified.
Record claim := { claimed : HostApprovalKey; claim_id : nat; claim_phase : phase }.

(** What a flow has seen, and what stays true of it *)
Inductive fact :=
| SawApproved (k : HostApprovalKey)
| Joined (id : nat) (k : HostApprovalKey)
| HasDecision (id : nat)
| Read (id : nat) (d : option PendingApprovalDecision)
| Heard (a : answer).

Section logic.
(** The hosts that other sessions approved *)
Context (base : gset HostApprovalKey).

Definition heard (tr : list fact) (g : answer -> bool) : Prop := exists a, Heard a ∈ tr /\ g a = true.

Definition wp_inside {B : Type} (c : inside B) (o : option claim) (tr : list fact) : (B -> option claim -> list fact -> Prop) -> Prop :=
  match c in inside B return (B -> option claim -> list fact -> Prop) -> Prop with
  | IsDenied _ => fun Q => forall b, Q b o tr
  | IsApproved k => fun Q => Q false o tr /\ Q true o (tr ++ [SawApproved k])
  | GetOrCreate k => fun Q =>
      o = None /\ (forall id, Q (id, true) (Some {| claimed := k; claim_id := id; claim_phase := Undecided |}) tr) /\
      forall id, Q (id, false) o (tr ++ [Joined id k])
  | CountNotifications id => fun Q => (exists k, Joined id k ∈ tr) /\ Q 0 o tr /\ forall n, Q (S n) o (tr ++ [HasDecision id])
  | ReadDecision id => fun Q =>
      (exists k, Joined id k ∈ tr) /\ forall d, (HasDecision id ∈ tr -> d <> None) -> Q d o (tr ++ [Read id d])
  | AwaitNotified id count => fun Q => o = None /\ (exists k, Joined id k ∈ tr) /\ count = 0 /\ Q tt o (tr ++ [HasDecision id])
  | SetDecision id d => fun Q =>
      exists k, o = Some {| claimed := k; claim_id := id; claim_phase := Undecided |} /\
        (allowing d = true -> heard tr (grants_key k)) /\
        Q tt (Some {| claimed := k; claim_id := id; claim_phase := Chosen |}) tr
  | NotifyWaiters id => fun Q =>
      exists k, o = Some {| claimed := k; claim_id := id; claim_phase := Chosen |} /\
        Q tt (Some {| claimed := k; claim_id := id; claim_phase := Notified |}) tr
  | RemovePending k => fun Q =>
      exists id, o = Some {| claimed := k; claim_id := id; claim_phase := Notified |} /\ Q tt None tr
  | ApproveHost k => fun Q => heard tr (grants_session k) /\ Q tt o tr
  | UnapproveHost _ | DenyHost _ | UndenyHost _ | CancelToken _ => fun Q => Q tt o tr
  | ReplaceApproved hosts => fun Q => hosts ⊆ base /\ Q tt o tr
  | OnCalls _ | FinishOnce _ _ => fun Q => forall b, Q b o tr
  end.

Definition wp_outside {B : Type} (c : outside B) (o : option claim) (tr : list fact) (Q : B -> option claim -> list fact -> Prop) : Prop :=
  (forall id, question c = Some id ->
     exists cl r, o = Some cl /\ claimed cl = request_key r /\ id = approval_id_for_key (claimed cl)) /\
  forall b, Q b o (tr ++ map Heard (logged c b)).

Fixpoint wp {A : Type} (p : flow A) (o : option claim) (tr : list fact) (Q : option claim -> list fact -> A -> Prop) : Prop :=
  match p with
  | Return a => Q o tr a
  | Inside c k => wp_inside c o tr (fun b o' tr' => wp (k b) o' tr' Q)
  | Outside c k => wp_outside c o tr (fun b o' tr' => wp (k b) o' tr' Q)
  end.

Lemma inside_mono {B : Type} (c : inside B) o tr (Q Q' : B -> option claim -> list fact -> Prop) :
  wp_inside c o tr Q -> (forall b o' tr', Q b o' tr' -> Q' b o' tr') -> wp_inside c o tr Q'.
Proof. destruct c; simpl; intros H HQ; try (by firstorder); eauto. Qed.

Lemma flow_mono {A : Type} (p : flow A) o tr (Q Q' : option claim -> list fact -> A -> Prop) :
  wp p o tr Q -> (forall o' tr' a, Q o' tr' a -> Q' o' tr' a) -> wp p o tr Q'.
Proof.
  revert o tr. induction p as [a|B c k IH|B c k IH]; intros o tr H HQ; simpl in *; [by apply HQ| |].
  - eapply inside_mono; [exact H|]. intros b o' tr' Hb. by eapply IH.
  - destruct H as [H1 H2]. split; [done|]. intros b. by eapply IH.
Qed.

Lemma flow_wp_bind {A B : Type} (p : flow A) (f : A -> flow B) o tr Q :
  wp p o tr (fun o' tr' a => wp (f a) o' tr' Q) -> wp (flow_bind p f) o tr Q.
Proof.
  revert o tr. induction p as [a|C c k IH|C c k IH]; intros o tr H; simpl in *; [done| |].
  - eapply inside_mono; [exact H|]. intros b o' tr' Hb. by apply IH.
  - destruct H as [H1 H2]. split; [done|]. intros b. by apply IH.
Qed.

(** A flow on the calls alone touches neither claim nor facts. *)
Definition plain {A : Type} (p : flow A) : Prop := forall o tr Q, (forall a, Q o tr a) -> wp p o tr Q.

Lemma plain_bind {A B : Type} (p : flow A) (f : A -> flow B) : plain p -> (forall a, plain (f a)) -> plain (flow_bind p f).
Proof. intros Hp Hf o tr Q HQ. apply flow_wp_bind, Hp. intros a. by apply Hf. Qed.

Lemma plain_return {A : Type} (a : A) : plain (Return a).
Proof. intros o tr Q HQ. apply HQ. Qed.

Lemma plain_session {B : Type} (c : outside B) : question c = None -> (forall b, logged c b = []) -> plain (session c).
Proof.
  intros Hq Hl o tr Q HQ. split; [by rewrite Hq|]. intros b. rewrite Hl, app_nil_r. apply HQ.
Qed.

Lemma plain_calls {B : Type} (f : NetworkApprovalCallState -> B * NetworkApprovalCallState) : plain (lock (OnCalls f)).
Proof. intros o tr Q HQ b. apply HQ. Qed.

Lemma plain_record id outcome : plain (record_call_outcome id outcome).
Proof. intros o tr Q HQ [t|]; apply HQ. Qed.

Lemma plain_record_for owner outcome : plain (record_outcome_for owner outcome).
Proof. destruct owner; [apply plain_record|apply plain_return]. Qed.

Lemma plain_record_single outcome : plain (record_outcome_for_single_active_call outcome).
Proof. apply plain_bind; [apply plain_calls|]. intros [call|]; [apply plain_record|apply plain_return]. Qed.

Lemma plain_persist amendment ctx : plain (persist_network_policy_amendment amendment ctx).
Proof.
  apply plain_bind; [by apply plain_session|]. intros []; [|apply plain_return]. cbn [negb].
  destruct (validated_network_policy_amendment_host amendment ctx); [apply plain_return|].
  apply plain_bind; [by apply plain_session|]. intros home.
  apply plain_bind; [by apply plain_session|]. intros started.
  apply plain_bind; [destruct started; [by apply plain_session|apply plain_return]|]. intros [e|[]]; [apply plain_return|].
  apply plain_bind; [by apply plain_session|]. intros []; apply plain_return.
Qed.

Lemma plain_apply turn amendment ctx : plain (apply_amendment turn amendment ctx).
Proof. apply plain_bind; [apply plain_persist|]. intros []; by apply plain_session. Qed.

Lemma plain_begin turn_id active spec : plain (begin_network_approval turn_id active spec).
Proof.
  destruct spec as [spec|]; [|apply plain_return]. unfold begin_network_approval.
  destruct (negb active || negb (spec_has_network spec)); [apply plain_return|].
  apply plain_bind; [by apply plain_session|]. intros id. apply plain_bind; [by apply plain_session|]. intros token.
  apply plain_bind; [apply plain_calls|]. intros _. apply plain_return.
Qed.

(** *** The requests *)

Definition claims (k : HostApprovalKey) (id : nat) : option claim := Some {| claimed := k; claim_id := id; claim_phase := Undecided |}.

Lemma wp_answer {A : Type} k id d (a : A) tr (Q : option claim -> list fact -> A -> Prop) :
  (allowing d = true -> heard tr (grants_key k)) -> Q None tr a ->
  wp (set_decision id d ;; lock (RemovePending k) ;; Return a) (claims k id) tr Q.
Proof. intros Hd HQ. exists k. split; [done|]. split; [done|]. exists k. split; [done|]. by exists id. Qed.

(** The flow ends without a claim, and lets the request pass only for a reason. *)
Definition passes_for_reason (k : HostApprovalKey) (o : option claim) (tr : list fact) (r : comp str NetworkDecision) : Prop :=
  o = None /\ (exists d, r = Ok d) /\
  (r = Ok NetworkAllow ->
   heard tr (grants_key k) \/ SawApproved k ∈ tr \/ exists id d, Joined id k ∈ tr /\ Read id (Some d) ∈ tr /\ allowing d = true).

Lemma passes_denied k tr : passes_for_reason k None tr (Ok (deny REASON_NOT_ALLOWED)).
Proof. split; [done|]. split; [by eexists|]. done. Qed.

Lemma passes_decision k tr d :
  (allowing d = true -> heard tr (grants_key k)) -> passes_for_reason k None tr (Ok (to_network_decision d)).
Proof. intros H. split; [done|]. split; [by eexists|]. destruct d; [by left; apply H|by left; apply H|done]. Qed.

Lemma wp_refuse k id message tr : wp (refuse_by_policy id k message) (claims k id) tr (passes_for_reason k).
Proof.
  exists k. split; [done|]. split; [done|]. exists k. split; [done|]. exists id. split; [done|].
  change (wp (record_outcome_for_single_active_call (DeniedByPolicy message) ;; Return (Ok (deny REASON_NOT_ALLOWED))) None tr (passes_for_reason k)).
  apply flow_wp_bind, plain_record_single. intros []. apply passes_denied.
Qed.

Lemma heard_last tr a g : g a = true -> heard (tr ++ [Heard a]) g.
Proof. intros H. exists a. split; [set_solver|done]. Qed.

Lemma wp_settle k id resolved cache tr :
  (allowing resolved = true -> heard tr (grants_key k)) -> (resolved = AllowForSession -> heard tr (grants_session k)) ->
  wp (settle id k resolved cache) (claims k id) tr (passes_for_reason k).
Proof.
  intros Hg Hs. unfold settle. apply flow_wp_bind.
  assert (forall tr, (allowing resolved = true -> heard tr (grants_key k)) ->
    wp ((if cache then lock (UnapproveHost k) ;; lock (DenyHost k) else Return tt) ;;
        set_decision id resolved ;; lock (RemovePending k) ;; Return (Ok (to_network_decision resolved)))
      (claims k id) tr (passes_for_reason k)) as Hrest.
  { intros tr' Hg'. destruct cache; apply wp_answer; by try apply passes_decision. }
  destruct resolved; [by apply Hrest| |by apply Hrest]. split; [by apply Hs|]. by apply Hrest.
Qed.

Lemma wp_resolve turn owner review_id ctx d o tr (Q : option claim -> list fact -> PendingApprovalDecision * bool -> Prop) :
  (forall resolved cache, (allowing resolved = true -> approves d = true) -> (resolved = AllowForSession -> for_session d = true) ->
     Q o tr (resolved, cache)) ->
  wp (resolve_review turn owner review_id ctx d) o tr Q.
Proof.
  intros HQ. unfold resolve_review. destruct d as [|am| |am| | |]; try (by apply HQ).
  - cbn [approves for_session] in HQ. destruct (amendment_action am); apply flow_wp_bind, plain_apply; intros []; [by apply HQ|].
    apply flow_wp_bind, plain_record_for. intros []. by apply HQ.
  - apply flow_wp_bind. destruct review_id as [id|]; [destruct owner as [call|]|]; try (apply plain_record_for; intros []); try by apply HQ.
    apply flow_wp_bind, plain_session; [done..|]. intros m. apply plain_record. intros []. by apply HQ.
  - apply flow_wp_bind, plain_record_for. intros []. by apply HQ.
  - apply flow_wp_bind. destruct review_id as [id|]; [destruct owner as [call|]|]; try (apply plain_record_for; intros []); try by apply HQ.
    apply flow_wp_bind, plain_session; [done..|]. intros m. apply plain_record. intros []. by apply HQ.
Qed.

(** A question about the claimed host *)
Lemma wp_question {B : Type} (c : outside B) request id tr (Q : option claim -> list fact -> B -> Prop) :
  question c = Some (approval_id_for_key (request_key request)) ->
  (forall b, Q (claims (request_key request) id) (tr ++ map Heard (logged c b)) b) ->
  wp (session c) (claims (request_key request) id) tr Q.
Proof. intros Hq HQ. split; [|exact HQ]. rewrite Hq. intros ? [= <-]. by eexists _, request. Qed.

(** The reviewer's answer is heard before it is settled. *)
Lemma wp_reviewed request id turn owner review_id ctx d tr :
  may_ask turn = true ->
  wp (let! '(resolved, cache) := resolve_review turn owner review_id ctx d in settle id (request_key request) resolved cache)
    (claims (request_key request) id) (tr ++ [Heard (ReviewAnswer turn (approval_id_for_key (request_key request)) d)])
    (passes_for_reason (request_key request)).
Proof.
  intros Ht. apply flow_wp_bind, wp_resolve. intros resolved cache H1 H2.
  apply wp_settle; intros Hr; apply heard_last; cbn [grants_key grants_session]; rewrite Ht, str_eqb_refl; [by apply H1|by apply H2].
Qed.

Lemma wp_review request id turn tr :
  may_ask turn = true ->
  wp (review_request request (request_key request) id turn) (claims (request_key request) id) tr (passes_for_reason (request_key request)).
Proof.
  intros Ht. apply flow_wp_bind, plain_calls. intros owner. cbv zeta. apply flow_wp_bind, wp_question; [done|].
  intros [[|message]|]; cbn [logged map].
  - set (tr' := tr ++ _). assert (heard tr' (grants_key (request_key request))) as Hh.
    { apply heard_last. cbn [grants_key]. by rewrite Ht, str_eqb_refl. }
    apply (wp_answer _ _ AllowOnce); [done|]. by apply (passes_decision _ _ AllowOnce).
  - apply flow_wp_bind, plain_record_for. intros []. apply wp_answer; [done|apply passes_denied].
  - assert (forall review_id tr, wp (let! d := ask_reviewer request (request_key request) turn owner review_id
        {| ctx_host := pr_host request; ctx_protocol := approval_protocol (pr_protocol request) |} in
      let! '(resolved, cache) := resolve_review turn owner review_id
        {| ctx_host := pr_host request; ctx_protocol := approval_protocol (pr_protocol request) |} d in
      settle id (request_key request) resolved cache) (claims (request_key request) id) tr (passes_for_reason (request_key request))) as Hask.
    { intros [review_id|] tr'; apply flow_wp_bind, wp_question; [done| |done|]; intros d; by apply wp_reviewed. }
    apply flow_wp_bind. destruct (routes_approval_to_guardian turn); [|apply Hask].
    apply flow_wp_bind, plain_session; [done..|]. intros review_id. apply Hask.
Qed.

Lemma wp_own request id tr :
  wp (own_request request (request_key request) id) (claims (request_key request) id) tr (passes_for_reason (request_key request)).
Proof.
  apply flow_wp_bind, plain_session; [done..|]. intros [turn|]; [|apply wp_refuse]. cbv zeta.
  destruct (permission_profile_allows_network_approval_flow (turn_profile turn)) eqn:E1; [|apply wp_refuse].
  destruct (allows_network_approval_flow (turn_policy turn)) eqn:E2; [|apply wp_refuse].
  apply wp_review. unfold may_ask. by rewrite E1, E2.
Qed.

(** Two rounds are enough: who was notified finds a decision. *)
Lemma wp_wait k id tr (Q : option claim -> list fact -> comp str PendingApprovalDecision -> Prop) :
  Joined id k ∈ tr ->
  (forall tr' d, tr ⊆ tr' -> Read id (Some d) ∈ tr' -> Q None tr' (Ok d)) -> wp (wait_for_decision 2 id) None tr Q.
Proof.
  intros Hj HQ.
  assert (forall tr' n, tr ⊆ tr' -> HasDecision id ∈ tr' -> wp (wait_for_decision (S n) id) None tr' Q) as Hlast.
  { intros tr' n Hs Hd.
    assert (forall tr2, tr' ⊆ tr2 -> wp (let! d := lock (ReadDecision id) in match d with
      | Some d => Return (Ok d) | None => lock (AwaitNotified id 0) ;; wait_for_decision n id end) None tr2 Q) as Hread.
    { intros tr2 H2. split; [exists k; set_solver|]. intros [d|] Hn; [|set_solver]. apply HQ; set_solver. }
    split; [exists k; set_solver|]. split; [by apply (Hread tr')|]. intros m.
    split; [exists k; set_solver|]. intros [d|] Hn; [|set_solver]. apply HQ; set_solver. }
  split; [by exists k|]. split.
  - split; [by exists k|]. intros [d|] _; [apply HQ; set_solver|].
    split; [done|]. split; [exists k; set_solver|]. split; [done|]. apply (Hlast _ 0); set_solver.
  - intros n. split; [exists k; set_solver|]. intros [d|] Hn; [apply HQ; set_solver|set_solver].
Qed.

Lemma wp_handle request tr :
  wp (handle_inline_policy_request request) None tr (passes_for_reason (request_key request)).
Proof.
  intros []; [apply passes_denied|]. split.
  2: { split; [done|]. split; [by eexists|]. intros _. right. left. set_solver. }
  split; [done|]. split; intros id; [apply wp_own|].
  change (wp (let! d := wait_for_decision 2 id in
    Return (match d with Ok d => Ok (to_network_decision d) | Err e => Err e | Panic => Panic | Loop => Loop end)) None
    (tr ++ [Joined id (request_key request)]) (passes_for_reason (request_key request))).
  apply flow_wp_bind. apply (wp_wait (request_key request)); [set_solver|]. intros tr' d Hs Hr. split; [done|]. split; [by eexists|].
  intros Hd. right. right. exists id, d. split; [set_solver|]. split; [done|]. by destruct d.
Qed.

Lemma wp_decide request tr : wp (network_policy_decider request) None tr (passes_for_reason (request_key request)).
Proof.
  apply flow_wp_bind, plain_session; [done..|]. intros []; [apply wp_handle|]. split; [done|]. split; [by eexists|]. done.
Qed.

Definition job_post (j : job) (o : option claim) (tr : list fact) (r : result) : Prop :=
  match j with
  | Request request => exists d, r = Decided d /\ passes_for_reason (request_key request) o tr d
  | _ => o = None /\ r = Finished
  end.
Definition job_ok (j : job) : Prop := match j with SyncFrom hosts => hosts ⊆ base | _ => True end.

Lemma wp_job j : job_ok j -> wp (flow_of j) None [] (job_post j).
Proof.
  destruct j; intros Hj.
  - apply flow_wp_bind. eapply flow_mono; [apply wp_decide|]. intros o tr d H. by exists d.
  - apply flow_wp_bind. unfold record_blocked_request.
    destruct (denied_network_policy_message _ _ _); [apply plain_record_single; intros []|]; done.
  - apply flow_wp_bind, plain_begin. done.
  - by intros b.
  - apply flow_wp_bind. unfold finish_immediate_network_approval. destruct (active_registration active); [by intros b|done].
  - apply flow_wp_bind. destruct deferred; [by intros b|done].
  - by split.
Qed.

(** *** The invariant of a pool *)

Definition session_granted (log : list answer) (k : HostApprovalKey) : Prop :=
  k ∈ base \/ exists a, a ∈ log /\ grants_session k a = true.

Definition claim_holds (s : NetworkApprovalService) (c : claim) : Prop :=
  pending_host_approvals s !! claimed c = Some (claim_id c) /\
  exists p, approvals s !! claim_id c = Some p /\
    match claim_phase c with
    | Undecided => notifications p = 0
    | Chosen => decision p <> None /\ notifications p = 0
    | Notified => decision p <> None
    end.

(** [born] tells for which host a pending answer was created, [os] the claims of the flows. *)
Record Inv (log : list answer) (born : list HostApprovalKey) (os : list (option claim)) (s : NetworkApprovalService) : Prop := {
  inv_approved k : k ∈ session_approved_hosts s -> session_granted log k;
  inv_born : length born = length (approvals s);
  inv_pending k id : pending_host_approvals s !! k = Some id -> born !! id = Some k;
  inv_decided id p : approvals s !! id = Some p ->
    (notifications p <> 0 -> decision p <> None) /\
    forall d k, decision p = Some d -> allowing d = true -> born !! id = Some k -> granted log k;
  inv_claims i c : os !! i = Some (Some c) -> claim_holds s c;
  inv_exclusive i j c d : os !! i = Some (Some c) -> os !! j = Some (Some d) -> claimed c = claimed d -> i = j;
  inv_owned id p : approvals s !! id = Some p -> notifications p = 0 ->
    exists i c, os !! i = Some (Some c) /\ claim_id c = id /\ claim_phase c <> Notified
}.

Definition has_decision (s : NetworkApprovalService) (id : nat) : Prop := exists p, approvals s !! id = Some p /\ decision p <> None.

Definition holds (log : list answer) (born : list HostApprovalKey) (s : NetworkApprovalService) (f : fact) : Prop :=
  match f with
  | SawApproved k => session_granted log k
  | Joined id k => born !! id = Some k
  | HasDecision id => has_decision s id
  | Read id d => exists k, born !! id = Some k /\ forall d0, d = Some d0 -> allowing d0 = true -> granted log k
  | Heard a => a ∈ log
  end.

(** What only grows *)
Definition grows (log log' : list answer) (born born' : list HostApprovalKey) (s s' : NetworkApprovalService) : Prop :=
  log ⊆ log' /\ born `prefix_of` born' /\ forall id, has_decision s id -> has_decision s' id.

Lemma grows_refl log born s : grows log log born born s s.
Proof. by split_and!. Qed.

Lemma granted_mono log log' k : log ⊆ log' -> granted log k -> granted log' k.
Proof. intros Hs (a & Ha & Hk). exists a. split; [by apply Hs|done]. Qed.

Lemma session_granted_mono log log' k : log ⊆ log' -> session_granted log k -> session_granted log' k.
Proof. intros Hs [?|(a & Ha & Hk)]; [by left|]. right. exists a. split; [by apply Hs|done]. Qed.

Lemma holds_grows log log' born born' s s' f : grows log log' born born' s s' -> holds log born s f -> holds log' born' s' f.
Proof.
  intros (H1 & H2 & H3). destruct f; simpl.
  - by apply session_granted_mono.
  - intros Hb. by eapply prefix_lookup_Some.
  - apply H3.
  - intros (k & Hb & Hg). exists k. split; [by eapply prefix_lookup_Some|]. intros d0 E Ha. by eapply granted_mono, Hg.
  - apply H1.
Qed.

(** The outcome of a step of the flow [i], for its postcondition [Q] *)
Definition stepped (log : list answer) (born : list HostApprovalKey) (os : list (option claim)) (s s' : NetworkApprovalService)
    (i : nat) (tr : list fact) (Q : option claim -> list fact -> Prop) : Prop :=
  exists born' o' new, Inv log born' (<[i := o']> os) s' /\ grows log log born born' s s' /\
    Forall (holds log born' s') new /\ Q o' (tr ++ new).

Lemma stepped_quiet log born os s s' i o tr new (Q : option claim -> list fact -> Prop) :
  Inv log born os s -> os !! i = Some o -> pending_host_approvals s' = pending_host_approvals s -> approvals s' = approvals s ->
  (forall k, k ∈ session_approved_hosts s' -> session_granted log k) ->
  Forall (holds log born s) new -> Q o (tr ++ new) -> stepped log born os s s' i tr Q.
Proof.
  intros I Hi Ep Ea Hs Hn HQ.
  assert (grows log log born born s s') as Hg by (split_and!; [done|done|]; unfold has_decision; by rewrite Ea).
  exists born, o, new. split_and!; [|done| |done].
  - rewrite list_insert_id by done. destruct I. split; try by rewrite ?Ep, ?Ea.
    intros j c Hj. destruct (inv_claims0 j c Hj) as [H1 H2]. split; [by rewrite Ep|by rewrite Ea].
  - eapply Forall_impl; [exact Hn|]. intros f. by apply holds_grows.
Qed.

Lemma heard_log tr log born s g : Forall (holds log born s) tr -> heard tr g -> exists a, a ∈ log /\ g a = true.
Proof. intros Ht (a & Ha & Hg). exists a. split; [|done]. by apply (proj1 (Forall_forall _ _) Ht _ Ha). Qed.

Lemma insert_claim_cases (os : list (option claim)) i o j d :
  <[i := o]> os !! j = Some (Some d) -> (j = i /\ o = Some d) \/ (j <> i /\ os !! j = Some (Some d)).
Proof. rewrite list_lookup_insert_Some. intros [(-> & E & _)|[Hne H]]; [by left|right; by split]. Qed.

Lemma exclusive_insert (os : list (option claim)) i o :
  (forall i j c d, os !! i = Some (Some c) -> os !! j = Some (Some d) -> claimed c = claimed d -> i = j) ->
  (forall c j d, o = Some c -> j <> i -> os !! j = Some (Some d) -> claimed d <> claimed c) ->
  forall j1 j2 c d, <[i := o]> os !! j1 = Some (Some c) -> <[i := o]> os !! j2 = Some (Some d) -> claimed c = claimed d -> j1 = j2.
Proof.
  intros IE Ho j1 j2 c d [[-> ->]|[N1 H1]]%insert_claim_cases [[-> E2]|[N2 H2]]%insert_claim_cases E; [done| | |by eauto].
  - by destruct (Ho _ _ _ eq_refl N2 H2).
  - subst. by destruct (Ho _ _ _ eq_refl N1 H1).
Qed.

Lemma stepped_create log born os s i k tr (Q : option claim -> list fact -> Prop) :
  Inv log born os s -> os !! i = Some None -> pending_host_approvals s !! k = None ->
  Q (claims k (length (approvals s))) tr ->
  stepped log born os s (with_pending (<[k := length (approvals s)]> (pending_host_approvals s))
    (approvals s ++ [{| decision := None; notifications := 0 |}]) s) i tr Q.
Proof.
  intros I Hi Hk HQ. exists (born ++ [k]), (claims k (length (approvals s))), []. rewrite app_nil_r.
  pose proof (lookup_lt_Some _ _ _ Hi) as Hlt. destruct I as [IA IB IP ID IC IE IO]. split_and!; [|split_and!|done|done].
  - assert (forall d, claim_holds s d -> claimed d <> k) as Hnk.
    { intros d [H _] E. by rewrite E, Hk in H. }
    split; cbn.
    + done.
    + rewrite !length_app. cbn. lia.
    + intros k' id. rewrite lookup_insert_Some. intros [[<- <-]|[Hne H]].
      * rewrite lookup_app_r, IB, Nat.sub_diag by lia. done.
      * by apply lookup_app_l_Some, IP.
    + intros id p. rewrite lookup_app_Some. intros [H|[Hge H]].
      * destruct (ID _ _ H) as [D1 D2]. split; [done|]. intros d k' E Ha Hb. apply (D2 d k' E Ha).
        apply lookup_lt_Some in H. rewrite lookup_app_l in Hb by lia. done.
      * destruct (id - length (approvals s)) as [|n]; [|by destruct n]. injection H as <-. done.
    + intros j c [[-> [= <-]]|[Hne Hj]]%insert_claim_cases.
      * split; cbn; [by rewrite lookup_insert_eq|]. eexists. split; [by apply list_lookup_middle|done].
      * pose proof (IC _ _ Hj) as Hc. pose proof (Hnk _ Hc) as Hk'. destruct Hc as [H1 (p & H2 & H3)].
        split; cbn; [by rewrite lookup_insert_ne|]. exists p. split; [by apply lookup_app_l_Some|done].
    + apply exclusive_insert; [done|]. intros c j d [= <-] _ Hj. by apply Hnk, (IC _ _ Hj).
    + intros id p. rewrite lookup_app_Some. intros [H|[Hge H]] Hn.
      * destruct (IO _ _ H Hn) as (j & c & Hj & E1 & E2). exists j, c. split; [|done]. by rewrite list_lookup_insert_ne by congruence.
      * apply lookup_lt_Some in H as Hl. cbn in Hl. exists i. eexists. split; [by apply list_lookup_insert_eq|]. cbn. split; [lia|done].
  - done.
  - by eexists.
  - intros id (p & H1 & H2). exists p. split; [by apply lookup_app_l_Some|done].
Qed.

Lemma alter_lookup_cases {A : Type} (f : A -> A) (l : list A) i j x :
  alter f i l !! j = Some x -> (i = j /\ exists y, l !! j = Some y /\ x = f y) \/ (i <> j /\ l !! j = Some x).
Proof.
  rewrite list_lookup_alter. case_decide; [|by right]. subst. intros (y & -> & Hy)%fmap_Some. left. split; [done|]. by exists y.
Qed.

(** The flow with the claim [c] changes the answer, and its claim moves to the phase [ph]. *)
Lemma stepped_pending log born os s i c ph f tr (Q : option claim -> list fact -> Prop) :
  Inv log born os s -> os !! i = Some (Some c) -> ph <> Undecided ->
  (forall p, approvals s !! claim_id c = Some p ->
     decision (f p) <> None /\ (notifications (f p) = 0 <-> ph <> Notified) /\
     forall d, decision (f p) = Some d -> decision p = Some d \/ (allowing d = true -> granted log (claimed c))) ->
  Q (Some {| claimed := claimed c; claim_id := claim_id c; claim_phase := ph |}) tr ->
  stepped log born os s (on_pending f (claim_id c) s) i tr Q.
Proof.
  intros I Hi Hph Hf HQ. exists born, (Some {| claimed := claimed c; claim_id := claim_id c; claim_phase := ph |}), [].
  rewrite app_nil_r. pose proof (lookup_lt_Some _ _ _ Hi) as Hlt. destruct I as [IA IB IP ID IC IE IO].
  destruct (IC _ _ Hi) as [Hpend (p0 & Hp0 & _)]. destruct (Hf p0 Hp0) as (F1 & F2 & F3).
  assert (forall j d, os !! j = Some (Some d) -> j <> i -> claim_id d <> claim_id c) as Hother.
  { intros j d Hj Hne E. destruct (IC _ _ Hj) as [Hd _]. apply IP in Hd, Hpend. rewrite E, Hpend in Hd. injection Hd as Hd.
    by apply Hne, (IE _ _ _ _ Hj Hi). }
  split_and!; [|split_and!|done|done].
  - split; cbn; [done|by rewrite length_alter|done|..].
    + intros id p [(<- & q & Hq & ->)|[Hne H]]%alter_lookup_cases; [|by apply ID].
      rewrite Hp0 in Hq. injection Hq as <-. split; [done|]. intros d k E Ha Hb.
      destruct (F3 d E) as [Ed|Hg]; [by eapply (proj2 (ID _ _ Hp0))|]. apply IP in Hpend. rewrite Hpend in Hb. injection Hb as <-. by apply Hg.
    + intros j d [[-> [= <-]]|[Hne H]]%insert_claim_cases.
      * split; [done|]. cbn. exists (f p0). split; [by rewrite list_lookup_alter_eq, Hp0|].
        destruct ph; [done| |done]. split; [done|]. by apply F2.
      * destruct (IC _ _ H) as [H1 (p & H2 & H3)]. split; [done|]. exists p. cbn. split; [|done].
        rewrite list_lookup_alter_ne by (apply not_eq_sym; by eapply Hother). done.
    + apply exclusive_insert; [done|]. intros d0 j d [= <-] Hne Hj E. by apply Hne, (IE _ _ _ _ Hj Hi).
    + intros id p [(<- & q & Hq & ->)|[Hne H]]%alter_lookup_cases Hn.
      * rewrite Hp0 in Hq. injection Hq as <-. exists i. eexists. split; [by apply list_lookup_insert_eq|]. cbn. split; [done|]. by apply F2.
      * destruct (IO _ _ H Hn) as (j & d & Hj & E1 & E2). exists j, d. split; [|done].
        rewrite list_lookup_insert_ne; [done|]. intros <-. rewrite Hi in Hj. injection Hj as <-. done.
  - done.
  - done.
  - intros id (p & H1 & H2). destruct (decide (id = claim_id c)) as [->|Hne].
    + exists (f p0). cbn. by rewrite list_lookup_alter_eq, Hp0.
    + exists p. cbn. by rewrite list_lookup_alter_ne by done.
Qed.

Lemma stepped_remove log born os s i c tr (Q : option claim -> list fact -> Prop) :
  Inv log born os s -> os !! i = Some (Some c) -> claim_phase c = Notified -> Q None tr ->
  stepped log born os s (remove_pending (claimed c) s) i tr Q.
Proof.
  intros I Hi Hph HQ. exists born, None, []. rewrite app_nil_r. destruct I as [IA IB IP ID IC IE IO].
  split_and!; [|by split_and!|done|done]. split; cbn; [done|done| |done|..].
  - intros k id [_ H]%lookup_delete_Some. by apply IP.
  - intros j d [[-> [=]]|[Hne Hj]]%insert_claim_cases. destruct (IC _ _ Hj) as [H1 H2]. split; [|done]. cbn.
    apply lookup_delete_Some. split; [|done]. intros E. by apply Hne, (IE _ _ _ _ Hj Hi).
  - by apply exclusive_insert.
  - intros id p H Hn. destruct (IO _ _ H Hn) as (j & d & Hj & E1 & E2). exists j, d. split; [|done].
    rewrite list_lookup_insert_ne; [done|]. intros <-. congruence.
Qed.

Lemma stepped_read log born os s i o tr id p (Q : option claim -> list fact -> Prop) :
  Inv log born os s -> os !! i = Some o -> Forall (holds log born s) tr -> (exists k, Joined id k ∈ tr) -> approvals s !! id = Some p ->
  ((HasDecision id ∈ tr -> decision p <> None) -> Q o (tr ++ [Read id (decision p)])) -> stepped log born os s s i tr Q.
Proof.
  intros I Hi Ht (k & Hk) Ep HQ. rewrite Forall_forall in Ht.
  eapply (stepped_quiet _ _ _ _ _ _ _ _ [Read id (decision p)]); try done; [apply (inv_approved _ _ _ _ I)| |apply HQ].
  - constructor; [|done]. exists k. split; [by apply (Ht _ Hk)|]. intros d E Ha.
    by apply (proj2 (inv_decided _ _ _ _ I _ _ Ep) d k E Ha), (Ht _ Hk).
  - intros Hd. destruct (Ht _ Hd) as (p' & Hp' & Hn). congruence.
Qed.

Lemma stepped_set log born os s i k id d tr (Q : option claim -> list fact -> Prop) :
  Inv log born os s -> os !! i = Some (claims k id) -> Forall (holds log born s) tr ->
  (allowing d = true -> heard tr (grants_key k)) -> Q (Some {| claimed := k; claim_id := id; claim_phase := Chosen |}) tr ->
  stepped log born os s (on_pending (decide_pending d) id s) i tr Q.
Proof.
  intros I Hi Ht Hg HQ.
  eapply (stepped_pending _ _ _ _ _ {| claimed := k; claim_id := id; claim_phase := Undecided |} Chosen); try done. cbn.
  intros p Hp. split; [done|]. destruct (inv_claims _ _ _ _ I _ _ Hi) as [_ (p' & Hp' & Hn)]. cbn in Hp', Hn.
  assert (p' = p) as -> by congruence. split; [done|]. intros d' [= <-]. right. intros Ha.
  destruct (heard_log _ log born s _ Ht (Hg Ha)) as (a & H1 & H2). by exists a.
Qed.

Lemma stepped_notify log born os s i k id tr (Q : option claim -> list fact -> Prop) :
  Inv log born os s -> os !! i = Some (Some {| claimed := k; claim_id := id; claim_phase := Chosen |}) ->
  Q (Some {| claimed := k; claim_id := id; claim_phase := Notified |}) tr ->
  stepped log born os s (on_pending notify_waiters id s) i tr Q.
Proof.
  intros I Hi HQ.
  eapply (stepped_pending _ _ _ _ _ {| claimed := k; claim_id := id; claim_phase := Chosen |} Notified); try done. cbn.
  intros p Hp. destruct (inv_claims _ _ _ _ I _ _ Hi) as [_ (p' & Hp' & Hd & _)]. cbn in Hp'.
  assert (p' = p) as -> by congruence. split; [done|]. split; [done|]. by left.
Qed.

(** A critical section keeps the invariant. *)
Lemma inside_sound {B : Type} (c : inside B) log born os s i o tr Q b s' :
  Inv log born os s -> os !! i = Some o -> Forall (holds log born s) tr -> wp_inside c o tr Q -> run_inside c s = Some (b, s') ->
  stepped log born os s s' i tr (Q b).
Proof.
  intros I Hi Ht Hw Hr.
  assert (forall new, Forall (holds log born s) new -> Q b o (tr ++ new) -> s' = s -> stepped log born os s s' i tr (Q b)) as Hsame.
  { intros new Hn HQ ->. eapply stepped_quiet; try done. apply (inv_approved _ _ _ _ I). }
  assert (Q b o tr -> pending_host_approvals s' = pending_host_approvals s -> approvals s' = approvals s ->
    (forall k, k ∈ session_approved_hosts s' -> session_granted log k) -> stepped log born os s s' i tr (Q b)) as Hquiet.
  { intros HQ E1 E2 Ha. eapply (stepped_quiet _ _ _ _ _ _ _ _ []); try done. by rewrite app_nil_r. }
  pose proof (inv_approved _ _ _ _ I) as IA. rewrite Forall_forall in Ht.
  assert (forall id p, approvals s !! id = Some p -> notifications p <> 0 -> Forall (holds log born s) [HasDecision id]) as Hdec.
  { intros id p Hp Hn. constructor; [|done]. exists p. split; [done|]. by apply (inv_decided _ _ _ _ I _ _ Hp). }
  destruct c; cbn in Hr, Hw.
  - injection Hr as <- <-. eapply (Hsame []); try done. by rewrite app_nil_r.
  - destruct Hw as [H1 H2]. injection Hr as <- <-. case_bool_decide.
    + eapply (Hsame [SawApproved k]); [|done..]. constructor; [by apply IA|done].
    + eapply (Hsame []); [done| |done]. by rewrite app_nil_r.
  - destruct Hw as (-> & H1 & H2). injection Hr as Hr. unfold get_or_create_pending_approval in Hr.
    destruct (pending_host_approvals s !! k) as [id|] eqn:Ek; injection Hr as <- <-.
    + eapply (Hsame [Joined id k]); [|done..]. constructor; [by apply (inv_pending _ _ _ _ I)|done].
    + eapply stepped_create; eauto.
  - destruct Hw as (_ & H1 & H2). destruct (approvals s !! id) as [p|] eqn:Ep; [|done]. injection Hr as <- <-.
    destruct (notifications p) as [|n] eqn:En; [eapply (Hsame []); [done|by rewrite app_nil_r|done]|].
    eapply (Hsame [HasDecision id]); [|done..]. eapply Hdec; [done|lia].
  - destruct Hw as (Hj & H). destruct (approvals s !! id) as [p|] eqn:Ep; [|done]. injection Hr as <- <-.
    eapply stepped_read; eauto. by apply Forall_forall.
  - destruct Hw as (_ & _ & -> & H). destruct (approvals s !! id) as [p|] eqn:Ep; [|done]. cbn in Hr. case_bool_decide; [done|].
    injection Hr as <- <-. eapply (Hsame [HasDecision id]); [by eapply Hdec|done..].
  - destruct Hw as (k & -> & Hg & HQ). injection Hr as <- <-. eapply stepped_set; eauto. by apply Forall_forall.
  - destruct Hw as (k & -> & HQ). injection Hr as <- <-. by eapply stepped_notify.
  - destruct Hw as (id & -> & HQ). injection Hr as <- <-.
    by eapply (stepped_remove _ _ _ _ _ {| claimed := k; claim_id := id; claim_phase := Notified |}).
  - destruct Hw as (Hg & HQ). injection Hr as <- <-. apply Hquiet; [done..|]. cbn. intros k' [->%elem_of_singleton|H]%elem_of_union; [|by apply IA].
    right. by eapply heard_log; [apply Forall_forall|].
  - injection Hr as <- <-. apply Hquiet; [done..|]. cbn. intros k' [H _]%elem_of_difference. by apply IA.
  - injection Hr as <- <-. by apply Hquiet.
  - injection Hr as <- <-. by apply Hquiet.
  - destruct Hw as (Hb & HQ). injection Hr as <- <-. apply Hquiet; [done..|]. cbn. intros k' H. left. by apply Hb.
  - destruct (section (calls s)) as [b' c']. injection Hr as <- <-. by apply Hquiet.
  - injection Hr as <- <-. by apply Hquiet.
  - injection Hr as Hr. unfold finish_once in Hr. destruct (finish_outcomes s !! cell) as [[out|]|]; cbn in Hr;
      injection Hr as <- <-; by apply Hquiet.
Qed.

(** *** Pools *)

Definition pool_ok (jobs : list job) (x : pool) : Prop :=
  let '(ps, s, log) := x in
  exists born os (trs : list (list fact)), Inv log born os s /\ length os = length ps /\
    forall i p, ps !! i = Some p -> exists j o tr, jobs !! i = Some j /\ os !! i = Some o /\ trs !! i = Some tr /\
      Forall (holds log born s) tr /\ wp p o tr (job_post j).

Lemma inv_log log log' born os s : log ⊆ log' -> Inv log born os s -> Inv log' born os s.
Proof.
  intros Hl []. split; try done.
  - intros k H. eapply session_granted_mono; eauto.
  - intros id p H. destruct (inv_decided0 _ _ H) as [H1 H2]. split; [done|]. intros d k E Ha Hb. eapply granted_mono; eauto.
Qed.

(** One flow went on; the others keep what they know. *)
Lemma pool_ok_step jobs ps s s' log log' born born' os (trs : list (list fact)) i j p' o' tr' :
  Inv log' born' (<[i := o']> os) s' -> grows log log' born born' s s' -> length os = length ps ->
  (forall i p, ps !! i = Some p -> exists j o tr, jobs !! i = Some j /\ os !! i = Some o /\ trs !! i = Some tr /\
     Forall (holds log born s) tr /\ wp p o tr (job_post j)) ->
  is_Some (ps !! i) -> jobs !! i = Some j -> Forall (holds log' born' s') tr' -> wp p' o' tr' (job_post j) ->
  pool_ok jobs (<[i := p']> ps, s', log').
Proof.
  intros I Hg Hl Hps [p Hp] Hj Ht Hw. exists born', (<[i := o']> os), (<[i := tr']> trs). split; [done|]. split; [by rewrite !length_insert|].
  assert (i < length trs) as Hlt. { destruct (Hps _ _ Hp) as (? & ? & ? & _ & _ & H & _). by apply lookup_lt_Some in H. }
  apply lookup_lt_Some in Hp. intros i' q. rewrite list_lookup_insert_Some. intros [(<- & <- & _)|[Hne Hq]].
  - exists j, o', tr'. rewrite !list_lookup_insert_eq by lia. done.
  - destruct (Hps _ _ Hq) as (j' & o & tr & H1 & H2 & H3 & H4 & H5). exists j', o, tr. rewrite !list_lookup_insert_ne by done.
    split_and!; [done..| |done]. eapply Forall_impl; [exact H4|]. intros f. by apply holds_grows.
Qed.

Lemma pool_step_ok jobs x y : pool_step x y -> pool_ok jobs x -> pool_ok jobs y.
Proof.
  intros Hs. inversion Hs as [B c k b ps i s s' log Hi Hr|B c k b ps i s log Hi]; subst; clear Hs;
    intros (born & os & trs & I & Hl & Hps); destruct (Hps _ _ Hi) as (j & o & tr & Hj & Ho & Htr & Ht & Hw).
  - destruct (inside_sound c _ _ _ _ _ _ _ _ _ _ I Ho Ht Hw Hr) as (born' & o' & new & I' & Hg & Hn & HQ).
    eapply (pool_ok_step _ _ _ _ _ _ _ _ _ _ _ _ _ o' (tr ++ new)); eauto. apply Forall_app. split; [|done]. eapply Forall_impl; [exact Ht|]. intros f. by apply holds_grows.
  - destruct Hw as [_ HQ]. assert (log ⊆ log ++ logged c b) as Hlog by set_solver.
    assert (grows log (log ++ logged c b) born born s s) as Hg by by split_and!.
    eapply (pool_ok_step _ _ _ _ _ _ _ _ _ _ _ _ _ o (tr ++ map Heard (logged c b))); eauto.
    + rewrite list_insert_id by done. by eapply inv_log.
    + apply Forall_app. split; [eapply Forall_impl; [exact Ht|]; intros f; by apply holds_grows|].
      apply Forall_map, Forall_forall. intros a Ha. simpl. set_solver.
Qed.

Definition pool_start (jobs : list job) (s : NetworkApprovalService) : pool := (map flow_of jobs, s, []).

(** A service on which no request is pending *)
Definition at_rest (s : NetworkApprovalService) : Prop :=
  pending_host_approvals s = ∅ /\ approvals s = [] /\ session_approved_hosts s ⊆ base.

Lemma pool_start_ok jobs s : at_rest s -> Forall job_ok jobs -> pool_ok jobs (pool_start jobs s).
Proof.
  intros (Ep & Ea & Hs) Hj. exists [], (map (fun _ => None) jobs), (map (fun _ => []) jobs). split_and!.
  - assert (forall i (c : claim), map (fun _ : job => @None claim) jobs !! i <> Some (Some c)) as Hno.
    { intros i c. rewrite list_lookup_fmap. by destruct (jobs !! i). }
    split; rewrite ?Ep, ?Ea; try done; try (intros; by edestruct Hno).
    intros k Hk. left. by apply Hs.
  - by rewrite !length_map.
  - intros i p. rewrite list_lookup_fmap. destruct (jobs !! i) as [j|] eqn:E; [|done]. intros [= <-].
    exists j, None, []. rewrite !list_lookup_fmap, E. split_and!; try done. apply wp_job. by eapply Forall_lookup_1.
Qed.

Lemma pool_reached_ok jobs s x : at_rest s -> Forall job_ok jobs -> rtc pool_step (pool_start jobs s) x -> pool_ok jobs x.
Proof.
  intros Hs Hj Hr. pose proof (pool_start_ok _ _ Hs Hj) as Hok. revert Hok.
  induction Hr as [x|x y z Hxy _ IH]; intros Hok; [done|]. by apply IH, (pool_step_ok _ x).
Qed.

(** *** Who cannot go on waits for somebody who can *)

Lemma joined_pending log born os s tr id : Inv log born os s -> Forall (holds log born s) tr -> (exists k, Joined id k ∈ tr) ->
  exists p, approvals s !! id = Some p.
Proof.
  intros I Ht (k & Hk). apply (proj1 (Forall_forall _ _) Ht) in Hk. apply lookup_lt_is_Some. simpl in Hk.
  apply lookup_lt_Some in Hk. by rewrite <- (inv_born _ _ _ _ I).
Qed.

Lemma inside_runs {B : Type} (c : inside B) log born os s o tr Q :
  Inv log born os s -> Forall (holds log born s) tr -> wp_inside c o tr Q ->
  (exists b s', run_inside c s = Some (b, s')) \/ (o = None /\ exists id p, approvals s !! id = Some p /\ notifications p = 0).
Proof.
  intros I Ht Hw. pose proof (fun id => joined_pending _ _ _ _ _ id I Ht) as Hp.
  destruct c; cbn in Hw |- *; try (left; by eexists _, _).
  - left. destruct (get_or_create_pending_approval k s). by eexists _, _.
  - destruct Hw as (Hj & _). destruct (Hp _ Hj) as [p ->]. left. by eexists _, _.
  - destruct Hw as (Hj & _). destruct (Hp _ Hj) as [p ->]. left. by eexists _, _.
  - destruct Hw as (-> & Hj & -> & _). destruct (Hp _ Hj) as [p E]. rewrite E. cbn. case_bool_decide as Hn; [|left; by eexists _, _].
    right. split; [done|]. by exists id, p.
  - left. destruct (section (calls s)). by eexists _, _.
  - left. destruct (finish_once cell id s). by eexists _, _.
Qed.

Lemma outside_answered {B : Type} (c : outside B) : exists b : B, True.
Proof.
  destruct c; try (by exists tt); try (by exists []); try (by exists true); try (by exists None); try (by exists Denied); try (by exists 0%N);
    by exists (inr tt).
Qed.

(** A pool that cannot go on has answered all. *)
Lemma pool_stuck_done jobs ps s log :
  pool_ok jobs (ps, s, log) -> nf pool_step (ps, s, log) -> forall i p, ps !! i = Some p ->
  exists r j tr, p = Return r /\ jobs !! i = Some j /\ job_post j None tr r.
Proof.
  intros (born & os & trs & I & Hl & Hps) Hnf.
  assert (forall i B (c : outside B) k, ps !! i <> Some (Outside c k)) as Hno.
  { intros i B c k Hi. destruct (outside_answered c) as [b _]. apply Hnf. eexists. by apply (step_outside B c k b). }
  assert (forall i B (c : inside B) k, ps !! i = Some (Inside c k) -> os !! i = Some None /\
    exists id p, approvals s !! id = Some p /\ notifications p = 0) as Hin.
  { intros i B c k Hi. destruct (Hps _ _ Hi) as (j & o & tr & _ & Ho & _ & Ht & Hw).
    destruct (inside_runs c _ _ _ _ _ _ _ I Ht Hw) as [(b & s' & Hr)|[-> H]]; [|done].
    destruct Hnf. eexists. by apply (step_inside B c k b). }
  assert (forall i r, ps !! i = Some (Return r) -> os !! i = Some None) as Hret.
  { intros i r Hi. destruct (Hps _ _ Hi) as (j & o & tr & _ & Ho & _ & _ & Hw).
    destruct j; cbn in Hw; destruct_and?; subst; try done. by destruct Hw as (d & _ & -> & _). }
  intros i p Hi. destruct p as [r|B c k|B c k]; [|exfalso|by destruct (Hno _ _ _ _ Hi)].
  - destruct (Hps _ _ Hi) as (j & o & tr & Hj & Ho & _ & _ & Hw). exists r, j, tr. rewrite (Hret _ _ Hi) in Ho. by injection Ho as <-.
  - destruct (Hin _ _ _ _ Hi) as (_ & id & p & Hp & Hn). destruct (inv_owned _ _ _ _ I _ _ Hp Hn) as (i' & cl & Hi' & _).
    assert (is_Some (ps !! i')) as [q Hq]. { apply lookup_lt_is_Some. rewrite <- Hl. by eapply lookup_lt_Some. }
    destruct q as [r|B' c' k'|B' c' k']; [|destruct (Hin _ _ _ _ Hq)|by destruct (Hno _ _ _ _ Hq)].
    + rewrite (Hret _ _ Hq) in Hi'. done.
    + congruence.
Qed.
End logic.

(** *** Pools end *)

Definition follows (p q : flow result) : Prop :=
  match p with Return _ => False | Inside _ k => exists b, q = k b | Outside _ k => exists b, q = k b end.
Inductive flows_step : list (flow result) -> list (flow result) -> Prop :=
| flows_one p q ps i : ps !! i = Some p -> follows p q -> flows_step ps (<[i := q]> ps).

Lemma flows_sn_cons p ps : sn flows_step ps -> sn flows_step (p :: ps).
Proof.
  revert ps. assert (forall p, (forall q, follows p q -> forall ps, sn flows_step ps -> sn flows_step (q :: ps)) ->
    forall ps, sn flows_step ps -> sn flows_step (p :: ps)) as Hstep.
  { intros q IH ps H. induction H as [ps Hps IHps]. constructor. intros y Hy. unfold flip in *.
    inversion Hy as [p' q' qs i Hi Hf]; subst. destruct i as [|i]; simpl in *.
    - injection Hi as ->. apply IH; [done|]. by constructor.
    - apply IHps. by econstructor. }
  induction p as [r|B c k IH|B c k IH]; apply Hstep; [done|..]; intros q (b & ->); apply IH.
Qed.

Lemma flows_sn ps : sn flows_step ps.
Proof.
  induction ps as [|p ps IH]; [|by apply flows_sn_cons].
  constructor. intros y Hy. unfold flip in Hy. by inversion Hy.
Qed.

Lemma pool_sn (x : pool) : sn pool_step x.
Proof.
  destruct x as [[ps s] log]. revert s log. induction (flows_sn ps) as [ps _ IH]. intros s log. constructor. intros y Hy.
  unfold flip in *. inversion Hy; subst; apply IH; econstructor; try done; by eexists.
Qed.

(** *** The id of a question tells host, protocol and port *)

Lemma lit_inj s1 s2 : lit s1 = lit s2 -> s1 = s2.
Proof.
  revert s2. induction s1 as [|c1 s1 IH]; intros [|c2 s2]; cbn [lit]; try done. intros [= Ec Es].
  f_equal; [|by apply IH]. by rewrite <- (Ascii.ascii_N_embedding c1), <- (Ascii.ascii_N_embedding c2), Ec.
Qed.

Lemma N_to_uint_nonnil n : N.to_uint n <> Decimal.Nil.
Proof. destruct n as [|p]; [done|]. apply DecimalPos.Unsigned.to_uint_nonnil. Qed.

Lemma show_N_inj n m : show_N n = show_N m -> n = m.
Proof.
  intros E%lit_inj. apply (f_equal DecimalString.NilZero.uint_of_string) in E. rewrite !DecimalString.NilZero.usu in E by apply N_to_uint_nonnil.
  injection E as E. by apply DecimalN.Unsigned.to_uint_inj.
Qed.

Lemma show_N_hash n : 35%N ∉ show_N n.
Proof.
  unfold show_N. assert (forall d, 35%N ∉ lit (DecimalString.NilEmpty.string_of_uint d)) as H.
  { intros d. induction d as [|d IH|d IH|d IH|d IH|d IH|d IH|d IH|d IH|d IH|d IH]; [apply not_elem_of_nil|..];
      apply not_elem_of_cons; (split; [by vm_compute|exact IH]). }
  destruct (N.to_uint n) eqn:E; [|exact (H _)..]. by destruct (N_to_uint_nonnil n).
Qed.

Lemma first_hash (p1 p2 r1 r2 : str) (c : char) :
  c ∉ p1 -> c ∉ p2 -> p1 ++ c :: r1 = p2 ++ c :: r2 -> p1 = p2 /\ r1 = r2.
Proof.
  revert p2. induction p1 as [|x p1 IH]; intros [|y p2] H1 H2 E; simpl in E; simplify_eq; try done; try set_solver.
  apply not_elem_of_cons in H1 as [_ H1], H2 as [_ H2]. by destruct (IH p2) as [-> ->].
Qed.

Lemma last_hash (h1 h2 n1 n2 : str) (c : char) :
  c ∉ n1 -> c ∉ n2 -> h1 ++ c :: n1 = h2 ++ c :: n2 -> h1 = h2 /\ n1 = n2.
Proof.
  intros H1 H2 E. apply (f_equal reverse) in E. rewrite !reverse_app, !reverse_cons, <- !app_assoc in E.
  apply first_hash in E as [En Eh]; [|by rewrite elem_of_reverse..].
  split; apply (inj reverse); done.
Qed.

Lemma request_id_inj r1 r2 :
  approval_id_for_key (request_key r1) = approval_id_for_key (request_key r2) -> request_key r1 = request_key r2.
Proof.
  assert (forall r, 35%N ∉ key_protocol (request_key r)) as Hp.
  { intros r. unfold request_key, from_request. cbn. destruct (pr_protocol r); by apply (bool_decide_unpack _). }
  unfold approval_id_for_key. intros E. apply (inj (app _)) in E.
  apply first_hash in E as [E1 E]; [|apply Hp..]. apply last_hash in E as [E2 E3%show_N_inj]; [|apply show_N_hash..].
  destruct (request_key r1), (request_key r2); cbn in *; congruence.
Qed.

(** ** Running a pool *)

Record World := {
  w_alive : bool;
  w_turn : option ActiveTurn;
  w_hooks : option PermissionRequestDecision;
  w_review : ReviewDecision
}.

Definition answered (w : World) {B : Type} (c : outside B) : B :=
  match c in outside B return B with
  | UpgradeSession => w_alive w
  | ActiveTurnContext => w_turn w
  | RunPermissionRequestHooks _ _ _ _ => w_hooks w
  | ReviewApprovalRequest _ _ _ _ | RequestCommandApproval _ _ _ _ _ _ => w_review w
  | NewGuardianReviewId | GuardianRejectionMessage _ | CodexHome | NewUuid => []
  | AcquireRefreshLock | NetworkProxyStarted => true
  | UpdateRuntimeList _ _ | AppendNetworkRule _ _ _ => inr tt
  | RecordAmendmentMessage _ _ | SendWarning _ _ => tt
  | NewToken => 0%N
  end.

(** The flows take turns in the given order; who has to wait is passed over. *)
Fixpoint in_turn (w : World) (order : list nat) (x : pool) : pool :=
  match order with
  | [] => x
  | i :: order =>
      let '(ps, s, log) := x in
      in_turn w order
        match ps !! i with
        | Some (Inside c k) => match run_inside c s with Some (b, s') => (<[i := k b]> ps, s', log) | None => x end
        | Some (Outside c k) => (<[i := k (answered w c)]> ps, s, log ++ logged c (answered w c))
        | _ => x
        end
  end.

Lemma in_turn_reached w order x : rtc pool_step x (in_turn w order x).
Proof.
  revert x. induction order as [|i order IH]; intros [[ps s] log]; [done|]. cbn [in_turn].
  destruct (ps !! i) as [[r|B c k|B c k]|] eqn:Ei; [apply IH| | |apply IH].
  - destruct (run_inside c s) as [[b s']|] eqn:Er; [|apply IH]. eapply rtc_l; [|apply IH]. by eapply step_inside.
  - eapply rtc_l; [|apply IH]. by apply step_outside.
Qed.

(** ** Theorems *)

Lemma granted_for_session log k a : a ∈ log -> grants_session k a = true -> granted log k.
Proof.
  intros Ha Hg. exists a. split; [done|]. destruct a as [|turn id d]; [done|]. cbn in Hg |- *.
  apply andb_true_iff in Hg as [-> Hd]. cbn. destruct d; try done; by destruct (amendment_action amendment).
Qed.

(** C16: In every interleaving of requests of the proxy with each other and with the calls
    that begin, are blocked and finish, a request passes only if its host, protocol and
    port were approved in the beginning or by the parent session, or a hook or a reviewer
    was asked about exactly these, in a turn with a managed profile and a policy that
    allows questions, and agreed. *)
Theorem network_access_was_granted base jobs s ps s' log i request :
  at_rest base s -> Forall (job_ok base) jobs -> rtc pool_step (pool_start jobs s) (ps, s', log) ->
  jobs !! i = Some (Request request) -> ps !! i = Some (Return (Decided (Ok NetworkAllow))) ->
  request_key request ∈ base \/ granted log (request_key request).
Proof.
  intros Hs Hj Hr Hi Hp. destruct (pool_reached_ok base _ _ _ Hs Hj Hr) as (born & os & trs & I & _ & Hps).
  destruct (Hps _ _ Hp) as (j & o & tr & Hj' & _ & _ & Ht & Hw). rewrite Hi in Hj'. injection Hj' as <-.
  destruct Hw as (d & [= <-] & _ & _ & Hpass). destruct (Hpass eq_refl) as [Hh|[Hh|(id & d & H1 & H2 & Ha)]].
  - right. exact (heard_log _ _ _ _ _ _ Ht Hh).
  - rewrite Forall_forall in Ht. destruct (Ht _ Hh) as [?|(a & Ha & Hg)]; [by left|]. right. by eapply granted_for_session.
  - rewrite Forall_forall in Ht. right. destruct (Ht _ H2) as (k & Hk & Hg). pose proof (Ht _ H1) as Hk'. simpl in Hk'.
    rewrite Hk in Hk'. injection Hk' as ->. by eapply Hg.
Qed.

(** The id of the question that a flow puts next *)
Definition open_question (p : flow result) : option str := match p with Outside c _ => question c | _ => None end.

(** Hooks and reviewers are never asked twice at the same time about one host, protocol
    and port, whatever requests run. *)
Theorem one_question_at_a_time base jobs s ps s' log i j id :
  at_rest base s -> Forall (job_ok base) jobs -> rtc pool_step (pool_start jobs s) (ps, s', log) ->
  ps !! i ≫= open_question = Some id -> ps !! j ≫= open_question = Some id -> i = j.
Proof.
  intros Hs Hj Hr Hi Hd. destruct (pool_reached_ok base _ _ _ Hs Hj Hr) as (born & os & trs & I & _ & Hps).
  destruct (ps !! i) as [p|] eqn:Ei; [|done]. destruct (ps !! j) as [q|] eqn:Ej; [|done]. cbn in Hi, Hd.
  destruct p as [|B c k|B c k] eqn:Ep, q as [|C d k'|C d k'] eqn:Eq0; try done. cbn in Hi, Hd. rename Hi into Eq, Hd into Eq'.
  destruct (Hps _ _ Ei) as (j1 & o1 & tr1 & _ & Ho1 & _ & _ & [Q1 _]), (Hps _ _ Ej) as (j2 & o2 & tr2 & _ & Ho2 & _ & _ & [Q2 _]).
  destruct (Q1 _ Eq) as (c1 & r1 & -> & K1 & E1), (Q2 _ Eq') as (c2 & r2 & -> & K2 & E2).
  apply (inv_exclusive _ _ _ _ _ I i j c1 c2 Ho1 Ho2). rewrite K1, K2. apply request_id_inj. congruence.
Qed.

(** C18: No run of the requests goes on for ever, and one that can go no further has answered
    every request: nobody misses the notification he waits for, and two rounds of
    [wait_for_decision] are enough. *)
Theorem network_requests_answered base jobs s ps s' log :
  at_rest base s -> Forall (job_ok base) jobs -> rtc pool_step (pool_start jobs s) (ps, s', log) ->
  sn pool_step (ps, s', log) /\
  (nf pool_step (ps, s', log) -> forall i request, jobs !! i = Some (Request request) ->
   exists d, ps !! i = Some (Return (Decided (Ok d)))).
Proof.
  intros Hs Hj Hr. split; [apply pool_sn|]. intros Hnf i request Hi.
  assert (length ps = length jobs) as Hl.
  { change (length (ps, s', log).1.1 = length jobs). remember (pool_start jobs s) as x eqn:Ex.
    assert (length x.1.1 = length jobs) as H by (rewrite Ex; apply length_map). clear Ex Hnf. revert H.
    induction Hr as [|x y z Hxy _ IH]; intros H; [done|]. apply IH. rewrite <- H. inversion Hxy; subst; apply length_insert. }
  assert (is_Some (ps !! i)) as [p Hp] by (apply lookup_lt_is_Some; rewrite Hl; by eapply lookup_lt_Some).
  destruct (pool_stuck_done base jobs ps s' log (pool_reached_ok base _ _ _ Hs Hj Hr) Hnf _ _ Hp) as (r & j & tr & -> & Hj' & Hpost).
  rewrite Hi in Hj'. injection Hj' as <-. destruct Hpost as (d & -> & _ & (e & ->) & _). by exists e.
Qed.

(** ** A run *)
Module Demo.
Definition turn : ActiveTurn :=
  {| turn_sub_id := &"t"; turn_cwd := &"/w"; turn_profile := Managed (ManagedRestricted [] None) NetworkEnabled; turn_policy := OnRequest;
     turn_auto_review := false |}.
Definition world (review : ReviewDecision) : World :=
  {| w_alive := true; w_turn := Some turn; w_hooks := None; w_review := review |}.
Definition request (host : str) : NetworkPolicyRequest :=
  {| pr_protocol := ProtoHttpsConnect; pr_host := host; pr_port := 443; pr_client_addr := None; pr_method := None; pr_command := None;
     pr_exec_policy_hint := None |}.
(** Two requests for one host, with different letters; the second has to wait. *)
Definition jobs : list job := [Request (request (&"Example.com")); Request (request (&"example.COM"))].
Definition order : list nat := [0; 0; 0; 0; 1; 1; 1; 1; 1; 1; 1; 0; 0; 0; 0; 0; 0; 0; 0; 0; 0; 0; 1; 1; 1; 1; 1; 1].
Definition final (review : ReviewDecision) : pool := in_turn (world review) order (pool_start jobs empty_service).

Definition decisions (x : pool) : list (option (comp str NetworkDecision)) :=
  map (fun p => match p with Return (Decided d) => Some d | _ => None end) x.1.1.
(** Some flow of the pool can go on. *)
Definition runnable (x : pool) : bool :=
  existsb (fun p => match p with
    | Return _ => false
    | Inside c _ => match run_inside c x.1.2 with Some _ => true | None => false end
    | Outside _ _ => true
    end) x.1.1.
End Demo.

Lemma pool_eta (x : pool) : (x.1.1, x.1.2, x.2) = x.
Proof. by destruct x as [[]]. Qed.

Lemma demo_reached review :
  rtc pool_step (pool_start Demo.jobs empty_service) ((Demo.final review).1.1, (Demo.final review).1.2, (Demo.final review).2).
Proof. rewrite pool_eta. exact (in_turn_reached (Demo.world review) Demo.order (pool_start Demo.jobs empty_service)). Qed.

Lemma granted_existsb log k : granted log k -> existsb (grants_key k) log = true.
Proof. intros (a & Ha & Hg). apply existsb_exists. exists a. split; [by apply list_elem_of_In|done]. Qed.

Lemma returned_nf (x : pool) : forallb (fun p => match p with Return _ => true | _ => false end) x.1.1 = true -> nf pool_step x.
Proof.
  intros H [y Hy]. rewrite forallb_forall in H.
  inversion Hy as [B c k b ps i s s' log Hi|B c k b ps i s log Hi]; subst; simpl in H;
    apply list_elem_of_lookup_2, list_elem_of_In in Hi; by apply H in Hi.
Qed.

Example demo_asked_once :
  Demo.decisions (Demo.final Approved) = [Some (Ok NetworkAllow); Some (Ok NetworkAllow)] /\ length (Demo.final Approved).2 = 2 /\
  Demo.decisions (Demo.final Denied) = [Some (Ok (deny REASON_NOT_ALLOWED)); Some (Ok (deny REASON_NOT_ALLOWED))].
Proof. by vm_compute. Qed.

Lemma demo_at_rest : at_rest ∅ empty_service.
Proof. by split_and!. Qed.

Lemma demo_jobs_ok : Forall (job_ok ∅) Demo.jobs.
Proof. by repeat constructor. Qed.

Lemma network_access_was_granted_witness :
  granted (Demo.final Approved).2 (request_key (Demo.request (&"example.COM"))) /\
  ~ granted (Demo.final Denied).2 (request_key (Demo.request (&"example.COM"))).
Proof.
  split.
  - destruct (network_access_was_granted ∅ Demo.jobs empty_service (Demo.final Approved).1.1 (Demo.final Approved).1.2
      (Demo.final Approved).2 1 (Demo.request (&"example.COM"))) as [H|H]; [..|done|exact H].
    + exact demo_at_rest.
    + exact demo_jobs_ok.
    + apply demo_reached.
    + reflexivity.
    + vm_compute. reflexivity.
  - intros H%granted_existsb. by vm_compute in H.
Defined.

Lemma network_requests_answered_witness :
  nf pool_step (Demo.final Approved) /\ exists d, (Demo.final Approved).1.1 !! 1 = Some (Return (Decided (Ok d))).
Proof.
  destruct (network_requests_answered ∅ Demo.jobs empty_service (Demo.final Approved).1.1 (Demo.final Approved).1.2
    (Demo.final Approved).2 demo_at_rest demo_jobs_ok) as [_ H]; [apply demo_reached|].
  assert (nf pool_step (Demo.final Approved)) as Hnf by (apply returned_nf; by vm_compute).
  split; [exact Hnf|]. rewrite pool_eta in H. by apply (H Hnf 1 (Demo.request (&"example.COM"))).
Defined.

(** Two requests that wait for the answers of the hooks; the second one is about another port. *)
Definition two_jobs : list job :=
  [Request (Demo.request (&"a")); Request {| pr_protocol := ProtoHttp; pr_host := &"a"; pr_port := 80; pr_client_addr := None;
       pr_method := None; pr_command := None; pr_exec_policy_hint := None |}].
Definition two_ports : pool := in_turn (Demo.world Approved) (repeat 0 6 ++ repeat 1 6) (pool_start two_jobs empty_service).

Definition two_open : pool := (two_ports.1.1, two_ports.1.2, two_ports.2).

Lemma one_question_at_a_time_witness :
  (forall i, two_open.1.1 !! i ≫= open_question = Some (&"network#https#a#443") -> i = 0) /\
  two_open.1.1 !! 0 ≫= open_question = Some (&"network#https#a#443") /\
  two_open.1.1 !! 1 ≫= open_question = Some (&"network#http#a#80").
Proof.
  split; [|by vm_compute]. intros i Hi.
  apply (one_question_at_a_time ∅ two_jobs empty_service two_open.1.1 two_open.1.2 two_open.2 i 0 (&"network#https#a#443")).
  - exact demo_at_rest.
  - by repeat constructor.
  - unfold two_open. cbn [fst snd]. rewrite pool_eta. exact (in_turn_reached (Demo.world Approved) _ (pool_start two_jobs empty_service)).
  - exact Hi.
  - by vm_compute.
Defined.

(** ** What the code also does *)

(** A rule that the user accepts for another host than the one asked about is not kept, as
    the hosts differ, but the request passes and its host is approved for the session. *)
Lemma mismatched_rule_approves_host :
  let review := NetworkPolicyAmended {| amendment_host := &"other.org"; amendment_action := RuleAllow |} in
  let x := in_turn (Demo.world review) (repeat 0 16) (pool_start [Request (Demo.request (&"example.com"))] empty_service) in
  validated_network_policy_amendment_host {| amendment_host := &"other.org"; amendment_action := RuleAllow |}
    {| ctx_host := &"example.com"; ctx_protocol := Https |} <> inr (&"example.com") /\
  Demo.decisions x = [Some (Ok NetworkAllow)] /\
  bool_decide (request_key (Demo.request (&"example.com")) ∈ session_approved_hosts x.1.2) = true.
Proof. by vm_compute. Qed.

(** When the request that asks is dropped with its connection, the pending answer stays: a
    later request for the host joins it and can never go on. *)
Lemma dropped_request_blocks_host :
  let dropped := in_turn (Demo.world Approved) (repeat 0 5) (pool_start [Request (Demo.request (&"example.com"))] empty_service) in
  let x := in_turn (Demo.world Approved) (repeat 0 20) (pool_start [Request (Demo.request (&"example.com"))] dropped.1.2) in
  Demo.runnable x = false /\ Demo.decisions x = [None].
Proof. by vm_compute. Qed.
