(* ===== verification/SchemaSanitize.v ===== *)
(** * provider-gemini/src/schema_sanitize.rs: schemas of tool parameters

    A JSON Schema becomes one of the subset that Gemini takes: references are inlined, and
    every node down to a depth of 16 is cleaned.  The references end because a chain of
    them never repeats; the result is in the subset, and is not changed by a second pass,
    unless an [allOf] brings in what was stripped before it was merged. *)
From S2P Require Import Prelude RustStr MachineInt Protocol Json.

Definition MAX_DEPTH : nat := 16.

Definition METADATA_KEYS : list str :=
  [&"$schema"; &"$id"; &"$comment"; &"title"; &"examples"; &"readOnly"; &"writeOnly"; &"deprecated"; &"default"].

Definition SUPPORTED_FORMATS : list str :=
  [&"date-time"; &"date"; &"time"; &"duration"; &"email"; &"hostname"; &"ipv4"; &"ipv6"; &"uri"; &"uuid"; &"enum"; &"int32"; &"int64";
   &"float"; &"double"; &"byte"].

Definition object_only : Value := Object [(&"type", VString (&"object"))].

Definition field_remove (key : str) (map : list (str * Value)) : list (str * Value) :=
  List.filter (fun e => negb (str_eqb e.1 key)) map.
(** [if let Some(v) = map.get_mut(key) { f(v) }] *)
Definition on_field (key : str) (f : Value -> Value) (fields : list (str * Value)) : list (str * Value) :=
  map (fun e => if str_eqb e.1 key then (e.1, f e.2) else e) fields.
(** [map.entry(key).or_insert(v)] *)
Definition or_insert (key : str) (v : Value) (fields : list (str * Value)) : list (str * Value) :=
  match field_get key fields with Some _ => fields | None => fields ++ [(key, v)] end.
Definition on_values (f : Value -> Value) (v : Value) : Value :=
  match v with Object fields => Object (map (fun e => (e.1, f e.2)) fields) | _ => v end.
Definition on_items (f : Value -> Value) (v : Value) : Value :=
  match v with Array vs => Array (map f vs) | _ => v end.

(** [==] on values; the order of the entries of objects does not count. *)
Fixpoint value_eqb (a b : Value) : bool :=
  match a, b with
  | Null, Null => true
  | Bool x, Bool y => Bool.eqb x y
  | Number x, Number y => str_eqb x y
  | VString x, VString y => str_eqb x y
  | Array xs, Array ys =>
      (fix go (xs ys : list Value) : bool :=
         match xs, ys with [], [] => true | x :: xs, y :: ys => value_eqb x y && go xs ys | _, _ => false end) xs ys
  | Object xs, Object ys =>
      (length xs =? length ys) &&
      (fix go (xs : list (str * Value)) : bool :=
         match xs with
         | [] => true
         | (k, x) :: xs => match field_get k ys with Some y => value_eqb x y | None => false end && go xs
         end) xs
  | _, _ => false
  end.

(** ** References *)

Definition extract_defs (schema : Value) : option (list (str * Value)) :=
  match schema with
  | Object obj =>
      let defs_val := match field_get (&"$defs") obj with
        | Some v => Some v
        | None => match field_get (&"defs") obj with Some v => Some v | None => field_get (&"definitions") obj end
        end in
      match defs_val with Some (Object defs) => Some defs | _ => None end
  | _ => None
  end.

Definition resolve_ref_path (ref_path : str) (defs : list (str * Value)) : option Value :=
  let name := match strip_prefix (&"#/$defs/") ref_path with
    | Some name => Some name
    | None => match strip_prefix (&"#/defs/") ref_path with Some name => Some name | None => strip_prefix (&"#/definitions/") ref_path end
    end in
  name ≫= fun name => field_get name defs.

(** [for v in map.values_mut()] and [for v in arr.iter_mut()], with a loop that may run out *)
Definition walk_fields (walk : Value -> comp False Value) : list (str * Value) -> comp False (list (str * Value)) :=
  fix go (l : list (str * Value)) :=
    match l with
    | [] => Ok []
    | (k, v) :: l => let? v' := walk v in let? l' := go l in Ok ((k, v') :: l')
    end.
Definition walk_items (walk : Value -> comp False Value) : list Value -> comp False (list Value) :=
  fix go (l : list Value) :=
    match l with
    | [] => Ok []
    | v :: l => let? v' := walk v in let? l' := go l in Ok (v' :: l')
    end.

(** [hops] bounds how many references are followed one inside the other; [Loop] says that
    they ran out. *)
Fixpoint resolve_refs (hops : nat) (defs : list (str * Value)) (chain : gset str) (value : Value) : comp False Value :=
  (fix walk (value : Value) : comp False Value :=
     match value with
     | Object map =>
         match field_get (&"$ref") map ≫= as_str with
         | Some ref_str =>
             if bool_decide (ref_str ∈ chain) then Ok object_only
             else
               match resolve_ref_path ref_str defs with
               | Some resolved => match hops with O => Loop | S hops => resolve_refs hops defs ({[ref_str]} ∪ chain) resolved end
               | None => let? l := walk_fields walk map in Ok (Object l)
               end
         | None => let? l := walk_fields walk map in Ok (Object l)
         end
     | Array arr => let? l := walk_items walk arr in Ok (Array l)
     | v => Ok v
     end) value.

(** Enough for every reference to every definition, in each of the three spellings *)
Definition ref_hops (defs : list (str * Value)) : nat := 3 * length defs.

Definition inline_refs (schema : Value) : comp False Value :=
  match extract_defs schema with
  | Some defs => resolve_refs (ref_hops defs) defs ∅ schema
  | None => Ok schema
  end.

(** ** One node *)

Definition type_strings (types : list Value) : list str := omap as_str types.

Definition rewrite_nullable_type (map : list (str * Value)) : list (str * Value) :=
  match field_get (&"type") map with
  | Some (Array types) =>
      let strings := type_strings types in
      let has_null := existsb (fun t => str_eqb t (&"null")) strings in
      let non_null := List.filter (fun t => negb (str_eqb t (&"null"))) strings in
      if has_null then
        let t := match non_null with [] => &"string" | t :: _ => t end in
        fields_insert (&"nullable") (Bool true) (fields_insert (&"type") (VString t) map)
      else
        match non_null with
        | [] => map
        | t :: _ => fields_insert (&"type") (VString t) map
        end
  | _ => map
  end.

(** One entry of an item of [allOf] *)
Definition merge_all_of_entry (map : list (str * Value)) (e : str * Value) : list (str * Value) :=
  let '(k, v) := e in
  if str_eqb k (&"properties") then
    match v with
    | Object new_props =>
        on_field (&"properties")
          (fun existing => match existing with
             | Object existing_props => Object (fold_left (fun props p => or_insert p.1 p.2 props) new_props existing_props)
             | other => other
             end)
          (or_insert (&"properties") (Object []) map)
    | _ => map
    end
  else if str_eqb k (&"required") then
    match v with
    | Array new_req =>
        on_field (&"required")
          (fun existing => match existing with
             | Array existing_req => Array (fold_left (fun req r => if existsb (value_eqb r) req then req else req ++ [r]) new_req existing_req)
             | other => other
             end)
          (or_insert (&"required") (Array []) map)
    | _ => map
    end
  else or_insert k v map.

Definition merge_all_of_item (map : list (str * Value)) (item : Value) : list (str * Value) :=
  match item with Object sub => fold_left merge_all_of_entry sub map | _ => map end.

Definition normalize_combinators (map : list (str * Value)) (depth : nat) : list (str * Value) :=
  let all_of := field_get (&"allOf") map in
  let map := field_remove (&"allOf") map in
  let map := match all_of with Some (Array items) => fold_left merge_all_of_item items map | _ => map end in
  let one_of := field_get (&"oneOf") map in
  let map := field_remove (&"oneOf") map in
  let map := match one_of with
    | Some (Array arr) => if depth <=? 1 then fields_insert (&"anyOf") (Array arr) map else map
    | _ => map
    end in
  if 2 <? depth then field_remove (&"anyOf") map else map.

Definition strip_keys (keys : list str) (map : list (str * Value)) : list (str * Value) :=
  fold_left (fun map key => field_remove key map) keys map.

Definition filter_format (map : list (str * Value)) : list (str * Value) :=
  match field_get (&"format") map ≫= as_str with
  | Some fmt => if existsb (str_eqb fmt) SUPPORTED_FORMATS then map else field_remove (&"format") map
  | None => map
  end.

(** The node itself, before its children *)
Definition clean_node (depth : nat) (map : list (str * Value)) : list (str * Value) :=
  let map := strip_keys METADATA_KEYS map in
  let map := strip_keys [&"$ref"; &"$defs"; &"defs"; &"definitions"] map in
  let map := rewrite_nullable_type map in
  let map := field_remove (&"pattern") map in
  let map := filter_format map in
  normalize_combinators map depth.

(** The sub-schemas of a node *)
Definition on_children (f : Value -> Value) (map : list (str * Value)) : list (str * Value) :=
  let map := on_field (&"properties") (on_values f) map in
  let map := on_field (&"patternProperties") (on_values f) map in
  let map := on_field (&"items") f map in
  let map := on_field (&"anyOf") (on_items f) map in
  on_field (&"additionalProperties") (fun v => match v with Object _ => f v | _ => v end) map.

(** The depth passes the cap before [fuel] runs out; see [sanitize_node_fuel]. *)
Fixpoint sanitize_node (fuel : nat) (value : Value) (depth : nat) : Value :=
  if MAX_DEPTH <? depth then object_only
  else
    match fuel, value with
    | S fuel, Object map => Object (on_children (fun v => sanitize_node fuel v (depth + 1)) (clean_node depth map))
    | _, _ => value
    end.

Definition root_guard (out : Value) : Value :=
  match out with
  | Object map =>
      match field_get (&"type") map with
      | Some _ => out
      | None =>
          let map := fields_insert (&"type") (VString (&"object")) map in
          Object (or_insert (&"properties") (Object []) map)
      end
  | _ => out
  end.

Definition drop_defs (out : Value) : Value := obj_remove (&"definitions") (obj_remove (&"defs") (obj_remove (&"$defs") out)).

Definition sanitize_for_gemini (schema : Value) : comp False Value :=
  let? out := inline_refs schema in
  Ok (root_guard (sanitize_node (S MAX_DEPTH) (drop_defs out) 0)).

(** ** Induction on values *)

Section value_ind.
Context (P : Value -> Prop).
Hypothesis HNull : P Null.
Hypothesis HBool : forall b, P (Bool b).
Hypothesis HNumber : forall t, P (Number t).
Hypothesis HString : forall s, P (VString s).
Hypothesis HArray : forall vs, Forall P vs -> P (Array vs).
Hypothesis HObject : forall fields, Forall (fun e => P e.2) fields -> P (Object fields).

Fixpoint value_ind (v : Value) : P v :=
  match v with
  | Null => HNull
  | Bool b => HBool b
  | Number t => HNumber t
  | VString s => HString s
  | Array vs => HArray vs ((fix go (l : list Value) : Forall P l :=
      match l with [] => List.Forall_nil _ | v :: l => List.Forall_cons _ _ _ (value_ind v) (go l) end) vs)
  | Object fields => HObject fields ((fix go (l : list (str * Value)) : Forall (fun e => P e.2) l :=
      match l with [] => List.Forall_nil _ | e :: l => List.Forall_cons _ _ _ (value_ind e.2) (go l) end) fields)
  end.
End value_ind.

(** ** The references end *)

Lemma resolve_refs_step hops defs chain value :
  resolve_refs hops defs chain value =
  match value with
  | Object map =>
      match field_get (&"$ref") map ≫= as_str with
      | Some ref_str =>
          if bool_decide (ref_str ∈ chain) then Ok object_only
          else
            match resolve_ref_path ref_str defs with
            | Some resolved => match hops with O => Loop | S hops => resolve_refs hops defs ({[ref_str]} ∪ chain) resolved end
            | None => let? l := walk_fields (resolve_refs hops defs chain) map in Ok (Object l)
            end
      | None => let? l := walk_fields (resolve_refs hops defs chain) map in Ok (Object l)
      end
  | Array arr => let? l := walk_items (resolve_refs hops defs chain) arr in Ok (Array l)
  | v => Ok v
  end.
Proof. by destruct hops, value. Qed.

(** The references that lead to a definition *)
Definition spellings (defs : list (str * Value)) : gset str :=
  list_to_set (concat (map (fun e => [&"#/$defs/" ++ e.1; &"#/defs/" ++ e.1; &"#/definitions/" ++ e.1]) defs)).

Lemma size_list_le (l : list str) : size (list_to_set l : gset str) <= length l.
Proof.
  induction l as [|x l IH]; [done|]. cbn [list_to_set length]. rewrite size_union_alt, size_singleton.
  assert (size ((list_to_set l : gset str) ∖ {[x]}) <= size (list_to_set l : gset str)) by (apply subseteq_size; set_solver). lia.
Qed.

Lemma spellings_size defs : size (spellings defs) <= ref_hops defs.
Proof.
  unfold spellings, ref_hops. etrans; [apply size_list_le|]. induction defs as [|e defs IH]; [done|].
  cbn [map concat length app]. lia.
Qed.

Lemma field_get_elem key x l : field_get key l = Some x -> (key, x) ∈ l.
Proof.
  induction l as [|[k y] l IH]; [done|]. cbn. destruct (str_eqb k key) eqn:E.
  - apply str_eqb_eq in E as ->. intros [= ->]. left.
  - intros H. right. by apply IH.
Qed.

Lemma resolved_spelling r defs v : resolve_ref_path r defs = Some v -> r ∈ spellings defs /\ v ∈ map snd defs.
Proof.
  unfold resolve_ref_path. set (name := match _ with Some _ => _ | None => _ end). destruct name as [n|] eqn:En; [|done]. cbn.
  intros Hf%field_get_elem. split; [|by apply list_elem_of_fmap; exists (n, v)].
  apply elem_of_list_to_set, list_elem_of_In, in_concat. eexists. split; [by apply list_elem_of_In, list_elem_of_fmap; exists (n, v)|]. apply list_elem_of_In. cbn.
  subst name. destruct (strip_prefix (&"#/$defs/") r) eqn:E1; [|destruct (strip_prefix (&"#/defs/") r) eqn:E2].
  - injection En as ->. apply strip_prefix_Some in E1 as ->. set_solver.
  - injection En as ->. apply strip_prefix_Some in E2 as ->. set_solver.
  - apply strip_prefix_Some in En as ->. set_solver.
Qed.

(** No object in the value refers to a definition. *)
Fixpoint inlined (defs : list (str * Value)) (v : Value) : Prop :=
  match v with
  | Object fields =>
      (forall r, field_get (&"$ref") fields ≫= as_str = Some r -> resolve_ref_path r defs = None) /\
      (fix go (l : list (str * Value)) : Prop := match l with [] => True | e :: l => inlined defs e.2 /\ go l end) fields
  | Array vs => (fix go (l : list Value) : Prop := match l with [] => True | x :: l => inlined defs x /\ go l end) vs
  | _ => True
  end.

Lemma inlined_object defs fields :
  inlined defs (Object fields) <->
  (forall r, field_get (&"$ref") fields ≫= as_str = Some r -> resolve_ref_path r defs = None) /\ Forall (fun e => inlined defs e.2) fields.
Proof.
  cbn [inlined]. apply and_iff_compat_l. induction fields as [|e l IH]; [split; auto|].
  rewrite Forall_cons. by rewrite IH.
Qed.

Lemma inlined_array defs vs : inlined defs (Array vs) <-> Forall (inlined defs) vs.
Proof. cbn [inlined]. induction vs as [|e l IH]; [split; auto|]. rewrite Forall_cons. by rewrite IH. Qed.

Definition not_string (v : Value) : Prop := as_str v = None.
(** Definitions are schemas: objects or booleans. *)
Definition defs_ok (defs : list (str * Value)) : Prop := Forall not_string (map snd defs).

(** What following references does to a value *)
Definition resolves (defs : list (str * Value)) (v : Value) (r : comp False Value) : Prop :=
  exists v', r = Ok v' /\ (defs_ok defs -> inlined defs v' /\ as_str v' = as_str v).

Lemma walk_fields_resolves defs f l :
  Forall (fun e => resolves defs e.2 (f e.2)) l ->
  exists l', walk_fields f l = Ok l' /\
    (defs_ok defs -> Forall (fun e => inlined defs e.2) l' /\ forall key, field_get key l' ≫= as_str = field_get key l ≫= as_str).
Proof.
  induction l as [|[k v] l IH]; intros H; [by exists []|]. apply Forall_cons in H as [(v' & E & Hv) H].
  destruct (IH H) as (l' & E' & Hl). exists ((k, v') :: l'). cbn [walk_fields]. cbn in E. rewrite E. cbn. rewrite E'. cbn. split; [done|].
  intros Hd. destruct (Hv Hd) as [H1 H2], (Hl Hd) as [H3 H4]. split; [by constructor|]. intros key. cbn.
  destruct (str_eqb k key); [done|apply H4].
Qed.

Lemma walk_items_resolves defs f l :
  Forall (fun v => resolves defs v (f v)) l ->
  exists l', walk_items f l = Ok l' /\ (defs_ok defs -> Forall (inlined defs) l').
Proof.
  induction l as [|v l IH]; intros H; [by exists []|]. apply Forall_cons in H as [(v' & E & Hv) H].
  destruct (IH H) as (l' & E' & Hl). exists (v' :: l'). cbn [walk_items]. rewrite E. cbn. rewrite E'. cbn. split; [done|].
  intros Hd. constructor; [by apply Hv|by apply Hl].
Qed.

Lemma resolve_refs_ends hops defs chain value :
  size (spellings defs ∖ chain) <= hops -> resolves defs value (resolve_refs hops defs chain value).
Proof.
  revert chain value. induction hops as [hops IHh] using lt_wf_ind. intros chain value Hs.
  assert (forall map, Forall (fun e => resolves defs e.2 (resolve_refs hops defs chain e.2)) map ->
    (forall r, field_get (&"$ref") map ≫= as_str = Some r -> resolve_ref_path r defs = None) ->
    resolves defs (Object map) (let? l := walk_fields (resolve_refs hops defs chain) map in Ok (Object l))) as Hwalk.
  { intros map H Hr. destruct (walk_fields_resolves defs _ _ H) as (l & -> & Hl). exists (Object l). split; [done|].
    intros Hd. destruct (Hl Hd) as [H1 H2]. split; [|done]. apply inlined_object. split; [|done]. by rewrite H2. }
  induction value as [|b|t|s|vs IH|map IH] using value_ind; rewrite resolve_refs_step; try (by eexists).
  - destruct (walk_items_resolves defs _ _ IH) as (l & -> & Hl). exists (Array l). split; [done|]. intros Hd.
    split; [|done]. by apply inlined_array, Hl.
  - destruct (field_get (&"$ref") map ≫= as_str) as [r|] eqn:Er; [|apply Hwalk; [done|]; intros ? E; by rewrite Er in E].
    case_bool_decide as Hc; [exists object_only; split; [done|]; intros _; split; [by split|done]|].
    destruct (resolve_ref_path r defs) as [v|] eqn:Ev; [|apply Hwalk; [done|]; intros ? E; rewrite Er in E; by injection E as <-].
    destruct (resolved_spelling _ _ _ Ev) as [Hsp Hin].
    assert (size (spellings defs ∖ ({[r]} ∪ chain)) < size (spellings defs ∖ chain)) as Hlt by (apply subset_size; set_solver).
    destruct hops as [|hops]; [lia|]. destruct (IHh hops ltac:(lia) ({[r]} ∪ chain) v ltac:(lia)) as (v' & -> & Hv').
    exists v'. split; [done|]. intros Hd. destruct (Hv' Hd) as [H1 H2]. split; [done|]. rewrite H2.
    by apply (proj1 (Forall_forall _ _) Hd).
Qed.

(** ** The accepted subset *)

Definition STRIPPED : list str :=
  [&"$schema"; &"$id"; &"$comment"; &"title"; &"examples"; &"readOnly"; &"writeOnly"; &"deprecated"; &"default";
   &"$ref"; &"$defs"; &"defs"; &"definitions"; &"pattern"; &"allOf"].

(** An entry of a node as it may stay when the node is cleaned *)
Definition entry_good (key : str) (v : Value) : bool :=
  negb (existsb (str_eqb key) STRIPPED) &&
  (negb (str_eqb key (&"type")) || match v with Array types => bool_decide (type_strings types = []) | _ => true end) &&
  (negb (str_eqb key (&"format")) || match as_str v with Some fmt => existsb (str_eqb fmt) SUPPORTED_FORMATS | None => true end).
Definition entry_ok (depth : nat) (key : str) (v : Value) : bool :=
  entry_good key v && negb (str_eqb key (&"oneOf")) && (negb (str_eqb key (&"anyOf")) || (depth <=? 2)).

Definition all_entries (p : str -> Value -> bool) (map : list (str * Value)) : bool :=
  forallb (fun e => match field_get e.1 map with Some v => p e.1 v | None => true end) map.

(** A predicate on the sub-schemas of a node *)
Definition child_ok (p : Value -> bool) (e : str * Value) : bool :=
  if str_eqb e.1 (&"properties") || str_eqb e.1 (&"patternProperties") then
    match e.2 with Object fields => forallb (fun e => p e.2) fields | _ => true end
  else if str_eqb e.1 (&"items") then p e.2
  else if str_eqb e.1 (&"anyOf") then match e.2 with Array vs => forallb p vs | _ => true end
  else if str_eqb e.1 (&"additionalProperties") then match e.2 with Object _ => p e.2 | _ => true end
  else true.

Definition is_object_only (v : Value) : bool :=
  match v with Object [(k, VString s)] => str_eqb k (&"type") && str_eqb s (&"object") | _ => false end.

(** The schema is in the subset that Gemini takes. *)
Fixpoint conforms (fuel : nat) (v : Value) (depth : nat) : bool :=
  if MAX_DEPTH <? depth then is_object_only v
  else
    match fuel, v with
    | S fuel, Object map => all_entries (entry_ok depth) map && forallb (child_ok (fun v => conforms fuel v (depth + 1))) map
    | _, _ => true
    end.

(** Every [allOf] brings in only entries that may stay. *)
Definition harmless (item : Value) : bool :=
  match item with Object sub => forallb (fun e => entry_good e.1 e.2) sub | _ => true end.
Definition all_of_harmless (e : str * Value) : bool :=
  negb (str_eqb e.1 (&"allOf")) || match e.2 with Array items => forallb harmless items | _ => true end.
Fixpoint tame (v : Value) : bool :=
  match v with
  | Object fields => forallb (fun e => all_of_harmless e && tame e.2) fields
  | Array vs => forallb tame vs
  | _ => true
  end.
Definition entry_tame (e : str * Value) : bool := all_of_harmless e && tame e.2.

(** ** Fields *)

Lemma all_entries_spec p map : all_entries p map = true <-> forall key v, field_get key map = Some v -> p key v = true.
Proof.
  unfold all_entries. rewrite forallb_forall. split.
  - intros H key v Hv. pose proof (field_get_elem _ _ _ Hv) as Hin. apply list_elem_of_In in Hin.
    specialize (H _ Hin). cbn in H. by rewrite Hv in H.
  - intros H [k v] _. cbn. destruct (field_get k map) eqn:E; [|done]. by apply H.
Qed.

Lemma field_get_on_field key k f l :
  field_get key (on_field k f l) = if str_eqb k key then f <$> field_get key l else field_get key l.
Proof.
  induction l as [|[k' v] l IH]; cbn; [by destruct (str_eqb k key)|]. destruct (str_eqb k' k) eqn:E; cbn.
  - apply str_eqb_eq in E as ->. destruct (str_eqb k key) eqn:E'; [done|exact IH].
  - destruct (str_eqb k' key) eqn:E'; [|exact IH]. apply str_eqb_eq in E' as ->.
    destruct (str_eqb k key) eqn:E'; [|done]. apply str_eqb_eq in E' as ->. by rewrite str_eqb_refl in E.
Qed.

Lemma field_get_app key l l' : field_get key (l ++ l') = match field_get key l with Some v => Some v | None => field_get key l' end.
Proof. induction l as [|[k v] l IH]; cbn; [done|]. by destruct (str_eqb k key). Qed.

Lemma field_get_or_insert key k v l x :
  field_get key (or_insert k v l) = Some x -> field_get key l = Some x \/ (key = k /\ x = v).
Proof.
  unfold or_insert. destruct (field_get k l); [by left|]. rewrite field_get_app. destruct (field_get key l); [by left|].
  cbn. destruct (str_eqb k key) eqn:E; [|done]. apply str_eqb_eq in E as ->. intros [= ->]. by right.
Qed.

Lemma field_get_insert_cases key k v l x :
  field_get key (fields_insert k v l) = Some x -> (key = k /\ x = v) \/ (key <> k /\ field_get key l = Some x).
Proof.
  destruct (decide (key = k)) as [->|Hne]; [rewrite field_get_insert; intros [= ->]; by left|].
  rewrite field_get_insert_ne by done. by right.
Qed.

Lemma field_get_remove_cases key k l x : field_get key (field_remove k l) = Some x -> key <> k /\ field_get key l = Some x.
Proof.
  unfold field_remove. destruct (decide (key = k)) as [->|Hne]; [by rewrite field_get_remove|]. by rewrite field_get_remove_ne by done.
Qed.

Lemma field_remove_absent key l : field_get key l = None -> field_remove key l = l.
Proof.
  unfold field_remove. induction l as [|[k v] l IH]; [done|]. cbn. destruct (str_eqb k key); [done|]. cbn. intros H. by rewrite IH.
Qed.

Lemma forallb_filter {A} (p q : A -> bool) l : forallb p l = true -> forallb p (List.filter q l) = true.
Proof. rewrite !forallb_forall. intros H x [Hx _]%filter_In. by apply H. Qed.

Lemma forallb_insert p k v l : forallb p l = true -> p (k, v) = true -> forallb p (fields_insert k v l) = true.
Proof.
  intros H Hp. induction l as [|[k' v'] l IH]; cbn in *; [by rewrite Hp|]. apply andb_true_iff in H as [H1 H2].
  destruct (str_eqb k' k); cbn; [by rewrite Hp, H2|]. by rewrite H1, IH.
Qed.

Lemma forallb_or_insert p k v l : forallb p l = true -> p (k, v) = true -> forallb p (or_insert k v l) = true.
Proof. intros H Hp. unfold or_insert. destruct (field_get k l); [done|]. rewrite forallb_app, H. cbn. by rewrite Hp. Qed.

Lemma forallb_on_field p k f l :
  forallb p l = true -> (forall v, p (k, v) = true -> p (k, f v) = true) -> forallb p (on_field k f l) = true.
Proof.
  intros H Hf. unfold on_field. induction l as [|[k' v] l IH]; cbn in *; [done|]. apply andb_true_iff in H as [H1 H2]. rewrite IH by done.
  destruct (str_eqb k' k) eqn:E; cbn; [|by rewrite H1]. apply str_eqb_eq in E as ->. by rewrite Hf.
Qed.

(** ** Cleaning a node *)

Definition scalar (v : Value) : Prop := match v with Array types => type_strings types = [] | _ => True end.
Definition format_ok (v : Value) : Prop := forall fmt, as_str v = Some fmt -> existsb (str_eqb fmt) SUPPORTED_FORMATS = true.

Lemma existsb_str_eqb key l : existsb (str_eqb key) l = true <-> key ∈ l.
Proof.
  rewrite existsb_exists. split.
  - intros (x & Hx & ->%str_eqb_eq). by apply list_elem_of_In.
  - intros H%list_elem_of_In. exists key. by rewrite str_eqb_refl.
Qed.

Lemma entry_good_spec key v :
  entry_good key v = true <-> key ∉ STRIPPED /\ (key = &"type" -> scalar v) /\ (key = &"format" -> format_ok v).
Proof.
  unfold entry_good. rewrite !andb_true_iff, !orb_true_iff, !negb_true_iff, <- not_true_iff_false, existsb_str_eqb, !str_eqb_neq.
  assert ((match v with Array types => bool_decide (type_strings types = []) | _ => true end) = true <-> scalar v) as ->.
  { destruct v; cbn; try done. apply bool_decide_eq_true. }
  assert ((match as_str v with Some fmt => existsb (str_eqb fmt) SUPPORTED_FORMATS | None => true end) = true <-> format_ok v) as ->.
  { unfold format_ok. destruct (as_str v); [|done]. split; [by intros ? ? [= <-]|]. intros H. by apply H. }
  destruct (decide (key = &"type")), (decide (key = &"format")); naive_solver.
Qed.

Lemma strip_keys_get keys key l v : field_get key (strip_keys keys l) = Some v -> key ∉ keys /\ field_get key l = Some v.
Proof.
  revert l. induction keys as [|k keys IH]; intros l H; [by split; [apply not_elem_of_nil|]|]. cbn in H.
  apply IH in H as [H1 [H2 H3]%field_get_remove_cases]. split; [|done]. by apply not_elem_of_cons.
Qed.

Lemma rewrite_type_get key l v :
  field_get key (rewrite_nullable_type l) = Some v ->
  (key = &"type" /\ scalar v) \/ key = &"nullable" \/ (key <> &"type" /\ field_get key l = Some v).
Proof.
  unfold rewrite_nullable_type. destruct (field_get (&"type") l) as [[| | | |types|]|] eqn:Et;
    try (intros H; destruct (decide (key = &"type")) as [->|]; [left; split; [done|]; rewrite Et in H; by simplify_eq|by right; right]).
  destruct (existsb _ (type_strings types)) eqn:En.
  - intros [[-> ->]|[Hn [[-> ->]|[Ht H]]%field_get_insert_cases]]%field_get_insert_cases; [by right; left|by left|by right; right].
  - destruct (List.filter _ (type_strings types)) as [|t ts] eqn:Ef.
    + intros H. destruct (decide (key = &"type")) as [->|]; [|by right; right]. left. split; [done|]. rewrite Et in H. injection H as <-.
      cbn. destruct (type_strings types) as [|s ss]; [done|]. cbn in En, Ef. by destruct (str_eqb s (&"null")).
    + intros [[-> ->]|[Ht H]]%field_get_insert_cases; [by left|by right; right].
Qed.

Lemma filter_format_get key l v :
  field_get key (filter_format l) = Some v -> field_get key l = Some v /\ (key = &"format" -> format_ok v).
Proof.
  unfold filter_format. destruct (field_get (&"format") l) as [f|] eqn:Ef; cbn [mbind option_bind].
  - destruct (as_str f) as [fmt|] eqn:Es.
    + destruct (existsb (str_eqb fmt) SUPPORTED_FORMATS) eqn:Eok.
      * intros H. split; [done|]. intros ->. rewrite Ef in H. injection H as <-. intros ? E. rewrite Es in E. by injection E as <-.
      * intros [Hne H]%field_get_remove_cases. by split.
    + intros H. split; [done|]. intros ->. rewrite Ef in H. injection H as <-. intros ? E. by rewrite Es in E.
  - intros H. split; [done|]. intros ->. by rewrite Ef in H.
Qed.

(** Before the combinators, all but [allOf] may stay. *)
Definition before_combinators (map : list (str * Value)) : list (str * Value) :=
  filter_format (field_remove (&"pattern") (rewrite_nullable_type
    (strip_keys [&"$ref"; &"$defs"; &"defs"; &"definitions"] (strip_keys METADATA_KEYS map)))).

Lemma before_combinators_good map key v :
  field_get key (before_combinators map) = Some v -> key <> &"allOf" -> entry_good key v = true.
Proof.
  intros [[Hp H]%field_get_remove_cases Hf]%filter_format_get Ha. apply entry_good_spec.
  change STRIPPED with (METADATA_KEYS ++ [&"$ref"; &"$defs"; &"defs"; &"definitions"] ++ [&"pattern"; &"allOf"]).
  rewrite !not_elem_of_app.
  assert (key ∉ [&"pattern"; &"allOf"]) as Hlast by (repeat (apply not_elem_of_cons; split; [done|]); apply not_elem_of_nil).
  apply rewrite_type_get in H as [[-> Hs]|[->|[Ht [H2 [H1 _]%strip_keys_get]%strip_keys_get]]].
  - split_and!; [by apply (bool_decide_unpack _)|by apply (bool_decide_unpack _)|done..].
  - split_and!; [by apply (bool_decide_unpack _)|by apply (bool_decide_unpack _)|done| |done].
    intros E. exfalso. revert E. by apply (bool_decide_unpack _).
  - by split_and!.
Qed.

Definition good (map : list (str * Value)) : Prop := forall key v, field_get key map = Some v -> entry_good key v = true.

Lemma good_or_insert k v map : good map -> entry_good k v = true -> good (or_insert k v map).
Proof. intros Hg Hk key x [H|[-> ->]]%field_get_or_insert; [by apply Hg|done]. Qed.

Lemma good_on_field k f map : good map -> (forall v, entry_good k v = true -> entry_good k (f v) = true) -> good (on_field k f map).
Proof.
  intros Hg Hk key x. rewrite field_get_on_field. destruct (str_eqb k key) eqn:E; [|apply Hg]. apply str_eqb_eq in E as ->.
  destruct (field_get key map) as [y|] eqn:Ey; [|done]. cbn. intros [= <-]. by apply Hk, Hg.
Qed.

Lemma good_plain_key k v v' : k ∈ [&"properties"; &"required"; &"anyOf"; &"oneOf"] -> entry_good k v = entry_good k v'.
Proof. intros H. assert (forall v, entry_good k v = true) as Ht; [|by rewrite !Ht]. intros w. repeat (apply elem_of_cons in H as [->|H]; [done|]). by apply elem_of_nil in H. Qed.

Lemma good_merge_entry map e : good map -> entry_good e.1 e.2 = true -> good (merge_all_of_entry map e).
Proof.
  destruct e as [k v]. cbn [fst snd]. intros Hg Hk. unfold merge_all_of_entry. destruct (str_eqb k (&"properties")) eqn:E1.
  { destruct v; try done. apply good_on_field; [by apply good_or_insert|]. intros w. by rewrite (good_plain_key _ w (Object [])) by (by apply (bool_decide_unpack _)). }
  destruct (str_eqb k (&"required")) eqn:E2; [|by apply good_or_insert].
  destruct v; try done. apply good_on_field; [by apply good_or_insert|]. intros w. by rewrite (good_plain_key _ w (Array [])) by (by apply (bool_decide_unpack _)).
Qed.

Lemma good_merge_items items map : good map -> forallb harmless items = true -> good (fold_left merge_all_of_item items map).
Proof.
  revert map. induction items as [|item items IH]; intros map Hg Hh; [done|]. cbn in Hh |- *. apply andb_true_iff in Hh as [H1 H2].
  apply IH; [|done]. destruct item as [| | | | |sub]; try done. cbn in H1 |- *. clear IH H2. revert map Hg H1.
  induction sub as [|e sub IH]; intros map Hg H1; [done|]. cbn in H1 |- *. apply andb_true_iff in H1 as [He H1].
  apply IH; [by apply good_merge_entry|done].
Qed.

(** *** What is tame stays so *)

Lemma tame_fields_get map key v : forallb entry_tame map = true -> field_get key map = Some v -> entry_tame (key, v) = true.
Proof. rewrite forallb_forall. intros H Hv%field_get_elem. by apply H, list_elem_of_In. Qed.

Lemma entry_tame_plain k v : str_eqb k (&"allOf") = false -> tame v = true -> entry_tame (k, v) = true.
Proof. intros Hk Hv. unfold entry_tame, all_of_harmless. cbn [fst snd]. by rewrite Hk, Hv. Qed.

Lemma before_combinators_tame map : forallb entry_tame map = true -> forallb entry_tame (before_combinators map) = true.
Proof.
  intros H. unfold before_combinators.
  assert (forall keys m, forallb entry_tame m = true -> forallb entry_tame (strip_keys keys m) = true) as Hstrip.
  { intros keys. induction keys as [|k keys IH]; intros m Hm; [done|]. by apply IH, forallb_filter. }
  assert (forall m, forallb entry_tame m = true -> forallb entry_tame (rewrite_nullable_type m) = true) as Hrw.
  { intros m Hm. unfold rewrite_nullable_type. destruct (field_get _ m) as [[| | | |types|]|]; try done.
    destruct (existsb _ _); [by repeat apply forallb_insert|]. destruct (List.filter _ _); [done|by apply forallb_insert]. }
  assert (forall m, forallb entry_tame m = true -> forallb entry_tame (filter_format m) = true) as Hff.
  { intros m Hm. unfold filter_format. destruct (_ ≫= as_str); [|done]. destruct (existsb _ _); [done|by apply forallb_filter]. }
  by apply Hff, forallb_filter, Hrw, Hstrip, Hstrip.
Qed.

Lemma tame_merge_props new ex :
  forallb entry_tame new = true -> forallb entry_tame ex = true ->
  forallb entry_tame (fold_left (fun props p => or_insert p.1 p.2 props) new ex) = true.
Proof.
  revert ex. induction new as [|[k v] new IH]; intros ex Hn He; [done|]. cbn in Hn |- *. apply andb_true_iff in Hn as [H1 H2].
  apply IH; [done|]. by apply forallb_or_insert.
Qed.

Lemma tame_merge_required new ex :
  forallb tame new = true -> forallb tame ex = true ->
  forallb tame (fold_left (fun req r => if existsb (value_eqb r) req then req else req ++ [r]) new ex) = true.
Proof.
  revert ex. induction new as [|v new IH]; intros ex Hn He; [done|]. cbn in Hn |- *. apply andb_true_iff in Hn as [H1 H2].
  apply IH; [done|]. destruct (existsb _ _); [done|]. rewrite forallb_app, He. cbn. by rewrite H1.
Qed.

Lemma tame_merge_entry map e :
  forallb entry_tame map = true -> entry_tame e = true -> forallb entry_tame (merge_all_of_entry map e) = true.
Proof.
  destruct e as [k v]. intros Hm He. pose proof He as [_ Hv]%andb_true_iff. cbn [snd] in Hv. unfold merge_all_of_entry.
  destruct (str_eqb k (&"properties")).
  { destruct v as [| | | | |props]; try done. apply forallb_on_field; [by apply forallb_or_insert|].
    intros w [_ Hw]%andb_true_iff. apply entry_tame_plain; [done|]. destruct w; try done. by apply tame_merge_props. }
  destruct (str_eqb k (&"required")); [|by apply forallb_or_insert].
  destruct v as [| | | |reqs|]; try done. apply forallb_on_field; [by apply forallb_or_insert|].
  intros w [_ Hw]%andb_true_iff. apply entry_tame_plain; [done|]. destruct w; try done. by apply tame_merge_required.
Qed.

Lemma tame_merge_items items map :
  forallb entry_tame map = true -> forallb tame items = true -> forallb entry_tame (fold_left merge_all_of_item items map) = true.
Proof.
  revert map. induction items as [|item items IH]; intros map Hm Hi; [done|]. cbn in Hi |- *. apply andb_true_iff in Hi as [H1 H2].
  apply IH; [|done]. destruct item as [| | | | |sub]; try done. cbn [merge_all_of_item tame] in *. clear IH H2. revert map Hm H1.
  induction sub as [|e sub IH]; intros map Hm H1; [done|]. cbn in H1 |- *. apply andb_true_iff in H1 as [He H1].
  apply IH; [by apply tame_merge_entry|done].
Qed.

(** The node after the [allOf]s were merged *)
Definition merged_all_of (map : list (str * Value)) : list (str * Value) :=
  match field_get (&"allOf") map with
  | Some (Array items) => fold_left merge_all_of_item items (field_remove (&"allOf") map)
  | _ => field_remove (&"allOf") map
  end.

Lemma merged_all_of_ok map :
  forallb entry_tame map = true -> (forall key v, field_get key map = Some v -> key <> &"allOf" -> entry_good key v = true) ->
  good (merged_all_of map) /\ forallb entry_tame (merged_all_of map) = true.
Proof.
  intros Ht Hg. assert (good (field_remove (&"allOf") map)) as Hgr.
  { intros key v [Hne H]%field_get_remove_cases. by apply Hg. }
  pose proof (forallb_filter _ (fun e => negb (str_eqb e.1 (&"allOf"))) _ Ht) as Htr. unfold merged_all_of.
  destruct (field_get (&"allOf") map) as [[| | | |items|]|] eqn:Ea; try done.
  pose proof (tame_fields_get _ _ _ Ht Ea) as [Hh Hi]%andb_true_iff. cbn in Hh, Hi.
  split; [by apply good_merge_items|by apply tame_merge_items].
Qed.

Lemma clean_node_ok depth map :
  forallb entry_tame map = true ->
  all_entries (entry_ok depth) (clean_node depth map) = true /\ forallb entry_tame (clean_node depth map) = true.
Proof.
  intros Ht. destruct (merged_all_of_ok (before_combinators map)) as [Hg Hm];
    [by apply before_combinators_tame|apply before_combinators_good|].
  change (clean_node depth map) with (normalize_combinators (before_combinators map) depth). unfold normalize_combinators.
  change (match field_get (&"allOf") (before_combinators map) with Some (Array items) => _ | _ => _ end)
    with (merged_all_of (before_combinators map)).
  set (m := merged_all_of (before_combinators map)) in *. clearbody m. set (m1 := match field_get (&"oneOf") m with Some _ => _ | None => _ end).
  assert ((forall key v, field_get key m1 = Some v -> entry_good key v = true /\ key <> &"oneOf") /\ forallb entry_tame m1 = true) as [Hg1 Hm1].
  { assert (forall key v, field_get key (field_remove (&"oneOf") m) = Some v -> entry_good key v = true /\ key <> &"oneOf") as Hg'.
    { intros key v [Hne H]%field_get_remove_cases. split; [by apply Hg|done]. }
    pose proof (forallb_filter _ (fun e => negb (str_eqb e.1 (&"oneOf"))) _ Hm) as Hm'. subst m1.
    destruct (field_get (&"oneOf") m) as [[| | | |arr|]|] eqn:Eo; try done. destruct (depth <=? 1); [|done]. split.
    - intros key v [[-> ->]|[_ H]]%field_get_insert_cases; [|by apply Hg']. split; [done|by apply (bool_decide_unpack _)].
    - apply forallb_insert; [done|]. pose proof (tame_fields_get _ _ _ Hm Eo) as [_ Ha]%andb_true_iff. by apply entry_tame_plain. }
  clearbody m1. rewrite all_entries_spec. unfold entry_ok. destruct (2 <? depth) eqn:Ed.
  - split; [|by apply forallb_filter]. intros key v [Hne H]%field_get_remove_cases. destruct (Hg1 _ _ H) as [H1 H2].
    by rewrite H1, (proj2 (str_eqb_neq _ _) H2), (proj2 (str_eqb_neq _ _) Hne).
  - split; [|done]. intros key v H. destruct (Hg1 _ _ H) as [H1 H2]. apply Nat.ltb_ge in Ed.
    rewrite H1, (proj2 (str_eqb_neq _ _) H2), (proj2 (Nat.leb_le _ _) Ed). by rewrite orb_true_r.
Qed.

(** ** The children *)

Definition on_child (f : Value -> Value) (e : str * Value) : str * Value :=
  (e.1,
   if str_eqb e.1 (&"properties") || str_eqb e.1 (&"patternProperties") then on_values f e.2
   else if str_eqb e.1 (&"items") then f e.2
   else if str_eqb e.1 (&"anyOf") then on_items f e.2
   else if str_eqb e.1 (&"additionalProperties") then match e.2 with Object _ => f e.2 | _ => e.2 end
   else e.2).

Lemma on_children_map f l : on_children f l = map (on_child f) l.
Proof.
  unfold on_children, on_field. rewrite !map_map. apply map_ext. intros [k v]. unfold on_child. cbn [fst snd].
  destruct (str_eqb k (&"properties")) eqn:E1; [apply str_eqb_eq in E1 as ->; done|]. cbn [fst snd orb].
  destruct (str_eqb k (&"patternProperties")) eqn:E2; [apply str_eqb_eq in E2 as ->; done|]. cbn [fst snd].
  destruct (str_eqb k (&"items")) eqn:E3; [apply str_eqb_eq in E3 as ->; done|]. cbn [fst snd].
  destruct (str_eqb k (&"anyOf")) eqn:E4; [apply str_eqb_eq in E4 as ->; done|]. cbn [fst snd].
  by destruct (str_eqb k (&"additionalProperties")).
Qed.

Lemma field_get_children f key l : field_get key (map (on_child f) l) = (fun v => (on_child f (key, v)).2) <$> field_get key l.
Proof.
  induction l as [|[k v] l IH]; [done|]. cbn [map field_get on_child fst snd]. destruct (str_eqb k key) eqn:E; [|exact IH].
  apply str_eqb_eq in E as ->. done.
Qed.

Lemma children_ok p f l :
  forallb entry_tame l = true -> (forall v, tame v = true -> p (f v) = true) -> forallb (child_ok p) (map (on_child f) l) = true.
Proof.
  intros Hl Hf. apply forallb_forall. intros e (e0 & <- & He)%in_map_iff.
  pose proof (proj1 (forallb_forall _ _) Hl _ He) as [_ Hv]%andb_true_iff. destruct e0 as [k v].
  unfold child_ok, on_child. cbn [fst snd] in *. destruct (str_eqb k (&"properties") || str_eqb k (&"patternProperties")).
  { destruct v as [| | | | |fields]; try done. cbn [on_values tame] in *. apply forallb_forall.
    intros e (e1 & <- & He1)%in_map_iff. cbn. apply Hf.
    pose proof (proj1 (forallb_forall _ _) Hv _ He1) as H1. by apply andb_true_iff in H1 as [_ ?]. }
  destruct (str_eqb k (&"items")); [by apply Hf|]. destruct (str_eqb k (&"anyOf")).
  { destruct v as [| | | |vs|]; try done. cbn [on_items tame] in *. apply forallb_forall. intros x (y & <- & Hy)%in_map_iff.
    apply Hf. by apply (proj1 (forallb_forall _ _) Hv). }
  destruct (str_eqb k (&"additionalProperties")); [|done]. destruct v; try done. pose proof (Hf _ Hv) as H. by destruct (f _).
Qed.

Lemma entry_ok_child depth f key v : entry_ok depth key v = true -> entry_ok depth key (on_child f (key, v)).2 = true.
Proof.
  intros H. assert (key ∉ [&"type"; &"format"] -> entry_ok depth key (on_child f (key, v)).2 = entry_ok depth key v) as Hplain.
  { intros [H1 [H2 _]%not_elem_of_cons]%not_elem_of_cons. unfold entry_ok, entry_good.
    by rewrite !(proj2 (str_eqb_neq _ _) H1), !(proj2 (str_eqb_neq _ _) H2). }
  destruct (decide (key = &"type")) as [->|H1]; [done|]. destruct (decide (key = &"format")) as [->|H2]; [done|].
  rewrite Hplain; [done|]. repeat (apply not_elem_of_cons; split; [done|]). apply not_elem_of_nil.
Qed.

Lemma object_only_conforms v : is_object_only v = true -> v = object_only.
Proof.
  destruct v as [| | | | |fields]; try done. destruct fields as [|[k x] [|]]; cbn; try done; destruct x; try done.
  intros [->%str_eqb_eq ->%str_eqb_eq]%andb_true_iff. done.
Qed.

(** Whatever the fuel, once the depth passes the cap *)
Lemma sanitize_node_fuel fuel fuel' v depth :
  MAX_DEPTH < fuel + depth -> MAX_DEPTH < fuel' + depth -> sanitize_node fuel v depth = sanitize_node fuel' v depth.
Proof.
  revert fuel' v depth. induction fuel as [|fuel IH]; intros fuel' v depth H1 H2.
  - assert ((MAX_DEPTH <? depth) = true) as E by (apply Nat.ltb_lt; lia). destruct fuel'; cbn [sanitize_node]; by rewrite E.
  - cbn [sanitize_node]. destruct (MAX_DEPTH <? depth) eqn:E; [destruct fuel'; cbn [sanitize_node]; by rewrite E|]. apply Nat.ltb_ge in E.
    destruct fuel' as [|fuel']; [lia|]. cbn [sanitize_node]. rewrite (proj2 (Nat.ltb_ge _ _) E). destruct v as [| | | | |m]; try done.
    f_equal. rewrite !on_children_map. apply map_ext. intros [k x].
    assert (forall v, sanitize_node fuel v (depth + 1) = sanitize_node fuel' v (depth + 1)) as Heq by (intros y; apply IH; lia).
    unfold on_child. cbn [fst snd]. f_equal. destruct (_ || _); [destruct x as [| | | | |l]; try done; cbn; f_equal; apply map_ext; intros []; by rewrite Heq|].
    destruct (str_eqb k _); [apply Heq|]. destruct (str_eqb k _); [destruct x as [| | | |l|]; try done; cbn; f_equal; apply map_ext; apply Heq|].
    destruct (str_eqb k _); [|done]. destruct x; first [done|apply Heq].
Qed.

Lemma sanitized_conforms fuel v depth :
  MAX_DEPTH < fuel + depth -> tame v = true -> conforms fuel (sanitize_node fuel v depth) depth = true.
Proof.
  revert v depth. induction fuel as [|fuel IH]; intros v depth Hd Ht; cbn [sanitize_node].
  - assert ((MAX_DEPTH <? depth) = true) as E by (apply Nat.ltb_lt; lia). rewrite E. cbn [conforms]. by rewrite E.
  - destruct (MAX_DEPTH <? depth) eqn:E; [by cbn [conforms]; rewrite E|].
    destruct v as [| | | | |m]; try (cbn [conforms]; by rewrite E). cbn [conforms]. rewrite E.
    cbn [tame] in Ht. destruct (clean_node_ok depth m Ht) as [H1 H2]. rewrite on_children_map. apply andb_true_iff. split.
    + rewrite all_entries_spec in H1 |- *. intros key x. rewrite field_get_children.
      destruct (field_get key (clean_node depth m)) as [y|] eqn:Ey; [|done]. cbn [fmap option_fmap option_map]. intros [= <-].
      by apply entry_ok_child, H1.
    + apply children_ok; [done|]. intros w Hw. apply IH; [unfold MAX_DEPTH in *; lia|done].
Qed.

(** ** What conforms stays as it is *)

Lemma clean_node_id depth map : all_entries (entry_ok depth) map = true -> clean_node depth map = map.
Proof.
  intros H. rewrite all_entries_spec in H.
  assert (forall key, key ∈ STRIPPED -> field_get key map = None) as Habsent.
  { intros key Hk. destruct (field_get key map) as [v|] eqn:E; [|done]. exfalso. specialize (H _ _ E). unfold entry_ok in H.
    rewrite !andb_true_iff in H. destruct H as [[H%entry_good_spec _] _]. by destruct H. }
  assert (forall keys, keys ⊆ STRIPPED -> strip_keys keys map = map) as Hstrip.
  { intros keys. induction keys as [|k keys IH]; intros Hs; [done|]. cbn. rewrite field_remove_absent by (apply Habsent, Hs; left).
    apply IH. intros x Hx. apply Hs. by right. }
  assert (rewrite_nullable_type map = map) as Hrw.
  { unfold rewrite_nullable_type. destruct (field_get (&"type") map) as [[| | | |types|]|] eqn:Et; try done.
    specialize (H _ _ Et). unfold entry_ok in H. rewrite !andb_true_iff in H. destruct H as [[H%entry_good_spec _] _].
    destruct H as (_ & H & _). cbn in H. by rewrite H. }
  assert (filter_format map = map) as Hff.
  { unfold filter_format. destruct (field_get (&"format") map) as [f|] eqn:Ef; [|done]. cbn [mbind option_bind].
    specialize (H _ _ Ef). unfold entry_ok in H. rewrite !andb_true_iff in H. destruct H as [[H%entry_good_spec _] _].
    destruct H as (_ & _ & H). destruct (as_str f) as [fmt|] eqn:Es; [|done]. by rewrite (H eq_refl fmt Es). }
  assert (forall key, entry_ok depth key Null = false -> (forall v, entry_ok depth key v = entry_ok depth key Null) -> field_get key map = None) as Hno.
  { intros key Hn Hv. destruct (field_get key map) as [v|] eqn:E; [|done]. specialize (H _ _ E). congruence. }
  unfold clean_node. rewrite !Hstrip, Hrw by (intros x Hx; change STRIPPED with (METADATA_KEYS ++ [&"$ref"; &"$defs"; &"defs"; &"definitions"] ++ [&"pattern"; &"allOf"]);
    rewrite !elem_of_app; auto).
  assert (field_get (&"pattern") map = None) as Hp by (apply Habsent; by apply (bool_decide_unpack _)).
  assert (field_get (&"allOf") map = None) as Ha by (apply Habsent; by apply (bool_decide_unpack _)).
  assert (field_get (&"oneOf") map = None) as Ho by by apply Hno.
  rewrite (field_remove_absent _ _ Hp), Hff. unfold normalize_combinators.
  rewrite (field_remove_absent _ _ Ha), Ha, (field_remove_absent _ _ Ho), Ho.
  destruct (2 <? depth) eqn:Ed; [|done]. apply field_remove_absent, Hno; unfold entry_ok;
    assert ((depth <=? 2) = false) as -> by (apply Nat.leb_gt, Nat.ltb_lt; done); done.
Qed.

Lemma children_id p f l :
  forallb (child_ok p) l = true -> (forall v, p v = true -> f v = v) -> map (on_child f) l = l.
Proof.
  intros Hl Hf. rewrite <- (map_id l) at 2. apply map_ext_in. intros [k v] He.
  pose proof (proj1 (forallb_forall _ _) Hl _ He) as H. unfold child_ok, on_child in *. cbn [fst snd] in *. f_equal.
  destruct (_ || _).
  { destruct v as [| | | | |fields]; try done. cbn [on_values]. f_equal. rewrite <- (map_id fields) at 2. apply map_ext_in. intros [k' x] Hx.
    cbn. f_equal. by apply Hf, (proj1 (forallb_forall _ _) H (k', x)). }
  destruct (str_eqb k (&"items")); [by apply Hf|]. destruct (str_eqb k (&"anyOf")).
  { destruct v as [| | | |vs|]; try done. cbn [on_items]. f_equal. rewrite <- (map_id vs) at 2. apply map_ext_in. intros x Hx.
    by apply Hf, (proj1 (forallb_forall _ _) H). }
  destruct (str_eqb k (&"additionalProperties")); [|done]. destruct v; try done. by apply Hf.
Qed.

Lemma conforms_fixed fuel v depth : MAX_DEPTH < fuel + depth -> conforms fuel v depth = true -> sanitize_node fuel v depth = v.
Proof.
  revert v depth. induction fuel as [|fuel IH]; intros v depth Hd; cbn [conforms sanitize_node].
  - destruct (MAX_DEPTH <? depth) eqn:E; [|done]. intros H. symmetry. by apply object_only_conforms.
  - destruct (MAX_DEPTH <? depth) eqn:E; [intros H; symmetry; by apply object_only_conforms|].
    destruct v as [| | | | |m]; try done. intros [H1 H2]%andb_true_iff. rewrite clean_node_id by done. rewrite on_children_map.
    f_equal. eapply children_id; [exact H2|]. intros w. apply IH. unfold MAX_DEPTH in *. lia.
Qed.

(** ** Theorems *)

(** Following references ends, whatever refers to whatever, and where definitions are no
    strings nothing in the result refers to one of them. *)
Theorem references_inlined schema :
  exists v, inline_refs schema = Ok v /\ forall defs, extract_defs schema = Some defs -> defs_ok defs -> inlined defs v.
Proof.
  unfold inline_refs. destruct (extract_defs schema) as [defs|] eqn:E; [|by eexists].
  destruct (resolve_refs_ends (ref_hops defs) defs ∅ schema) as (v & -> & Hv).
  - rewrite difference_empty_L. apply spellings_size.
  - exists v. split; [done|]. intros ? [= <-] Hd. by apply Hv.
Qed.

Lemma conforms_get out key depth fuel v :
  conforms (S fuel) out depth = true -> (MAX_DEPTH <? depth) = false -> vget key out = Some v -> entry_ok depth key v = true.
Proof.
  cbn [conforms]. intros H E. rewrite E in H. destruct out as [| | | | |m]; try done. apply andb_true_iff in H as [H _].
  by apply all_entries_spec.
Qed.

Lemma conforms_no_defs out key :
  conforms (S MAX_DEPTH) out 0 = true -> key ∈ STRIPPED -> vget key out = None.
Proof.
  intros H Hk. destruct (vget key out) as [v|] eqn:E; [|done]. pose proof (conforms_get _ _ _ _ _ H eq_refl E) as Ho.
  unfold entry_ok in Ho. rewrite !andb_true_iff in Ho. destruct Ho as [[Ho%entry_good_spec _] _]. by destruct Ho.
Qed.

Lemma root_guard_conforms out : conforms (S MAX_DEPTH) out 0 = true -> conforms (S MAX_DEPTH) (root_guard out) 0 = true.
Proof.
  destruct out as [| | | | |m]; try done. unfold root_guard. destruct (field_get (&"type") m) eqn:Et; [done|].
  change (conforms (S MAX_DEPTH) (Object ?l) 0) with
    (all_entries (entry_ok 0) l && forallb (child_ok (fun v => conforms MAX_DEPTH v (0 + 1))) l).
  intros [H1 H2]%andb_true_iff. apply andb_true_iff. rewrite all_entries_spec in H1 |- *. split.
  - intros key v [[[-> ->]|[_ H]]%field_get_insert_cases|[-> ->]]%field_get_or_insert; [done|by apply H1|done].
  - apply forallb_or_insert; [|done]. by apply forallb_insert.
Qed.

Lemma root_guard_type out : vget (&"type") (root_guard out) <> None \/ root_guard out = out /\ forall m, out <> Object m.
Proof.
  destruct out as [| | | | |m]; try (by right). left. unfold root_guard. destruct (field_get (&"type") m) eqn:Et; [cbn; by rewrite Et|].
  cbn. unfold or_insert. destruct (field_get (&"properties") _); [by rewrite field_get_insert|].
  by rewrite field_get_app, field_get_insert.
Qed.

Lemma root_guard_fixed out : root_guard (root_guard out) = root_guard out.
Proof.
  destruct (root_guard_type out) as [H|[-> H]]; [|destruct out; try done; by destruct (H fields)].
  destruct (root_guard out) as [| | | | |m]; try done. cbn in H |- *. by destruct (field_get (&"type") m).
Qed.

Lemma sanitized_again v : tame v = true ->
  let out := root_guard (sanitize_node (S MAX_DEPTH) (drop_defs v) 0) in
  conforms (S MAX_DEPTH) out 0 = true /\ sanitize_for_gemini out = Ok out.
Proof.
  intros Ht.
  assert (tame (drop_defs v) = true) as Ht'.
  { destruct v as [| | | | |m]; try done. cbn [drop_defs obj_remove tame] in *. by repeat apply forallb_filter. }
  pose proof (sanitized_conforms (S MAX_DEPTH) (drop_defs v) 0 ltac:(lia) Ht') as Hc.
  apply root_guard_conforms in Hc as Hg. set (out := sanitize_node _ _ _) in *. clearbody out. cbv zeta. split; [done|].
  assert (forall key, key ∈ STRIPPED -> vget key (root_guard out) = None) as Hno by (intros; by apply conforms_no_defs).
  assert (vget (&"$defs") (root_guard out) = None) as N1 by (apply Hno; by apply (bool_decide_unpack _)).
  assert (vget (&"defs") (root_guard out) = None) as N2 by (apply Hno; by apply (bool_decide_unpack _)).
  assert (vget (&"definitions") (root_guard out) = None) as N3 by (apply Hno; by apply (bool_decide_unpack _)).
  assert (inline_refs (root_guard out) = Ok (root_guard out)) as Ei.
  { unfold inline_refs, extract_defs. destruct (root_guard out) as [| | | | |m]; try done. cbn in N1, N2, N3. by rewrite N1, N2, N3. }
  unfold sanitize_for_gemini. rewrite Ei. cbn [comp_bind]. unfold drop_defs.
  rewrite (obj_remove_absent _ _ N1), (obj_remove_absent _ _ N2), (obj_remove_absent _ _ N3).
  rewrite (conforms_fixed (S MAX_DEPTH) _ 0 ltac:(lia) Hg). f_equal. apply root_guard_fixed.
Qed.

Lemma sanitized_object v fields : v = Object fields ->
  exists m t, root_guard (sanitize_node (S MAX_DEPTH) (drop_defs v) 0) = Object m /\ field_get (&"type") m = Some t.
Proof.
  intros ->. set (s := sanitize_node _ _ _). assert (exists m, s = Object m) as [m Em] by (by eexists).
  destruct (root_guard_type s) as [Ht|[_ Hn]]; [|by destruct (Hn m)]. rewrite Em in *. unfold root_guard in *.
  destruct (field_get (&"type") m) as [t|] eqn:Et; [by exists m, t|]. eexists. cbn in Ht.
  destruct (field_get (&"type") (or_insert _ _ _)) as [t|] eqn:E; [|done]. by exists t.
Qed.

(** C28: a schema is always sanitised: following its references ends, whatever refers to
    whatever, with a value in which nothing refers to a definition any more (where
    definitions are no strings), and there is a result; if that value is an object, so is
    the result, and it has a type at its root.  When every [allOf], once references are
    followed, brings in only entries that may stay, the result is in the subset that Gemini
    takes: no node that is reached through [properties], [patternProperties], an [items]
    object, [anyOf] or an [additionalProperties] object has metadata, references, patterns,
    [allOf], [oneOf], lists of types, unknown formats or deep [anyOf], nodes
    deeper than sixteen levels are bare objects, and sanitising again changes nothing. *)
Theorem sanitized_schema schema :
  exists v out, inline_refs schema = Ok v /\ sanitize_for_gemini schema = Ok out /\
    (forall defs, extract_defs schema = Some defs -> defs_ok defs -> inlined defs v) /\
    (forall fields, v = Object fields -> exists m t, out = Object m /\ field_get (&"type") m = Some t) /\
    (tame v = true -> conforms (S MAX_DEPTH) out 0 = true /\ sanitize_for_gemini out = Ok out).
Proof.
  destruct (references_inlined schema) as (v & Ev & Hi). exists v. eexists. split; [done|]. split.
  { unfold sanitize_for_gemini. by rewrite Ev. }
  split; [done|]. split; [apply sanitized_object|apply sanitized_again].
Qed.

(** A node that refers to itself, a union of two, and what is stripped *)
Definition demo_schema : Value :=
  Object
    [(&"$defs", Object [(&"Node", Object
       [(&"type", Array [VString (&"object"); VString (&"null")]);
        (&"properties", Object [(&"child", Object [(&"$ref", VString (&"#/$defs/Node"))])])])]);
     (&"title", VString (&"T"));
     (&"properties", Object
       [(&"root", Object [(&"$ref", VString (&"#/$defs/Node"))]);
        (&"title", Object [(&"type", VString (&"string")); (&"pattern", VString (&"a+")); (&"format", VString (&"regex"))])]);
     (&"oneOf", Array [Object [(&"required", Array [VString (&"root")])]; Object [(&"required", Array [VString (&"title")])]]);
     (&"allOf", Array [Object [(&"properties", Object [(&"extra", Object [])]); (&"required", Array [VString (&"extra")])]])].

Definition demo_sanitized : Value :=
  Object
    [(&"properties", Object
       [(&"root", Object
          [(&"type", VString (&"object")); (&"properties", Object [(&"child", Object [(&"type", VString (&"object"))])]);
           (&"nullable", Bool true)]);
        (&"title", Object [(&"type", VString (&"string"))]); (&"extra", Object [])]);
     (&"required", Array [VString (&"extra")]);
     (&"anyOf", Array [Object [(&"required", Array [VString (&"root")])]; Object [(&"required", Array [VString (&"title")])]]);
     (&"type", VString (&"object"))].

Lemma sanitized_schema_witness :
  sanitize_for_gemini demo_schema = Ok demo_sanitized /\ sanitize_for_gemini demo_sanitized = Ok demo_sanitized /\
  conforms (S MAX_DEPTH) demo_sanitized 0 = true.
Proof.
  destruct (sanitized_schema demo_schema) as (v & out & Hv & H1 & _ & _ & Hc).
  assert (tame v = true) as Ht by (vm_compute in Hv; injection Hv as <-; vm_compute; reflexivity).
  destruct (Hc Ht) as [H2 H3].
  assert (sanitize_for_gemini demo_schema = Ok demo_sanitized) as E by (vm_compute; reflexivity).
  rewrite E in H1. injection H1 as <-. exact (conj E (conj H3 H2)).
Defined.

(** ** What the code also does *)

(** Entries are stripped before [allOf] is merged and not again: what an item of [allOf]
    brings in stays, and only a second pass strips it. *)
Lemma all_of_brings_back_pattern :
  let schema := Object [(&"type", VString (&"string")); (&"allOf", Array [Object [(&"pattern", VString (&"a+"))]])] in
  sanitize_for_gemini schema = Ok (Object [(&"type", VString (&"string")); (&"pattern", VString (&"a+"))]) /\
  sanitize_for_gemini (Object [(&"type", VString (&"string")); (&"pattern", VString (&"a+"))]) = Ok (Object [(&"type", VString (&"string"))]).
Proof. by vm_compute. Qed.

(** [oneOf] replaces an [anyOf] beside it. *)
Lemma one_of_replaces_any_of :
  let schema := Object [(&"type", VString (&"object")); (&"anyOf", Array [Object [(&"type", VString (&"string"))]]);
                        (&"oneOf", Array [Object [(&"type", VString (&"integer"))]])] in
  sanitize_for_gemini schema =
  Ok (Object [(&"type", VString (&"object")); (&"anyOf", Array [Object [(&"type", VString (&"integer"))]])]).
Proof. by vm_compute. Qed.
