(* ===== verification/ToolRegistry.v ===== *)
(** * core/src/tools/registry.rs: finding the tool of a call

    Tools are registered under a namespace and a name.  Wires that know only flat names
    lose the split; a call is then found by the spellings that a registered tool may have
    on them.  The index does not depend on the order of the map it is built from, a
    spelling that two tools share is routed to neither, and a call that is read back from
    a flat name reaches its tool when no other tool has that spelling. *)
From S2P Require Import Prelude RustStr MachineInt Protocol StreamText History AnthropicWire McpNames.

(** [ToolName]: the namespace and the name *)
Definition tool_key : Type := option str * str.

Inductive FlatLookup := Unique (canonical : tool_key) | Ambiguous.

#[export] Instance FlatLookup_eq_dec : EqDecision FlatLookup.
Proof. solve_decision. Defined.

(** The closure [insert] of [build_flat_index] *)
Definition index_spelling (canonical : tool_key) (index : gmap str FlatLookup) (key : str) : gmap str FlatLookup :=
  match index !! key with
  | None => <[key := Unique canonical]> index
  | Some (Unique existing) => if decide (existing = canonical) then index else <[key := Ambiguous]> index
  | Some Ambiguous => <[key := Ambiguous]> index
  end.

Definition spellings_of (t : tool_key) : list str :=
  match t with
  | (Some namespace, name) => [namespace ++ &"__" ++ name; namespace ++ name; name]
  | (None, _) => []
  end.

Definition build_flat_index (names : list tool_key) : gmap str FlatLookup :=
  fold_left (fun index canonical => fold_left (index_spelling canonical) (spellings_of canonical) index) names ∅.

Section registry.
Context {T : Type}.

Record ToolRegistry := { tools : gmap tool_key T; flat_index : gmap str FlatLookup }.

(** [tools.keys()] comes in some order. *)
Definition new_registry (tools : gmap tool_key T) : ToolRegistry :=
  {| tools := tools; flat_index := build_flat_index (map fst (map_to_list tools)) |}.

(** A name that is already registered is reported, which panics in a debug build. *)
Fixpoint register (debug : bool) (l : list (tool_key * T)) (tools_by_name : gmap tool_key T) : comp False (gmap tool_key T) :=
  match l with
  | [] => Ok tools_by_name
  | (name, t) :: l =>
      match tools_by_name !! name with
      | Some _ => let? _ := error_or_panic debug in register debug l tools_by_name
      | None => register debug l (<[name := t]> tools_by_name)
      end
  end.
Definition from_tools (debug : bool) (l : list (tool_key * T)) : comp False ToolRegistry :=
  let? tools := register debug l ∅ in Ok (new_registry tools).

Definition flat_candidates (name : tool_key) : list str :=
  List.filter (fun c => negb (bool_decide (c = [])))
    match name with
    | (Some namespace, n) => [namespace ++ &"__" ++ n; namespace ++ n]
    | (None, n) => [n; []]
    end.

Fixpoint first_unique (index : gmap str FlatLookup) (candidates : list str) : option tool_key :=
  match candidates with
  | [] => None
  | c :: rest => match index !! c with Some (Unique canonical) => Some canonical | _ => first_unique index rest end
  end.

Definition resolve_name (r : ToolRegistry) (name : tool_key) : option tool_key :=
  match tools r !! name with
  | Some _ => Some name
  | None => first_unique (flat_index r) (flat_candidates name)
  end.

Definition tool (r : ToolRegistry) (name : tool_key) : option T :=
  match tools r !! name with
  | Some t => Some t
  | None => resolve_name r name ≫= fun resolved => tools r !! resolved
  end.
End registry.
Arguments ToolRegistry : clear implicits.

(** ** The index *)

(** What the index should say of a spelling, given the tools that have it *)
Definition indexed (index : gmap str FlatLookup) (names : list tool_key) : Prop :=
  forall key,
    match index !! key with
    | None => forall t, t ∈ names -> key ∉ spellings_of t
    | Some (Unique t) => t ∈ names /\ key ∈ spellings_of t /\ forall t', t' ∈ names -> key ∈ spellings_of t' -> t' = t
    | Some Ambiguous => exists t t', t ∈ names /\ t' ∈ names /\ t <> t' /\ key ∈ spellings_of t /\ key ∈ spellings_of t'
    end.

(** The same while the spellings [done] of the tool [t] were indexed *)
Definition indexed_upto (index : gmap str FlatLookup) (names : list tool_key) (t : tool_key) (done : list str) : Prop :=
  forall key,
    let has t' := (t' ∈ names /\ key ∈ spellings_of t') \/ (t' = t /\ key ∈ done) in
    match index !! key with
    | None => forall t', ~ has t'
    | Some (Unique c) => has c /\ forall t', has t' -> t' = c
    | Some Ambiguous => exists a b, has a /\ has b /\ a <> b
    end.

Lemma index_spelling_upto index names t done key :
  indexed_upto index names t done -> indexed_upto (index_spelling t index key) names t (done ++ [key]).
Proof.
  intros H key'. specialize (H key'). destruct (decide (key' = key)) as [->|Hne].
  - unfold index_spelling. destruct (index !! key) as [[c|]|] eqn:E.
    + destruct H as [H1 H2]. destruct (decide (c = t)) as [->|Hct].
      * rewrite E. split; [set_solver|]. intros t' [?|[-> _]]; [apply H2; by left|done].
      * rewrite lookup_insert_eq. exists c, t. split; [set_solver|]. split; [right; set_solver|done].
    + rewrite lookup_insert_eq. destruct H as (a & b & Ha & Hb & Hab). exists a, b. set_solver.
    + rewrite lookup_insert_eq. split; [right; set_solver|]. intros t' [?|[-> _]]; [|done]. exfalso. apply (H t'). by left.
  - assert (index_spelling t index key !! key' = index !! key') as ->.
    { unfold index_spelling. destruct (index !! key) as [[c|]|]; [case_decide|..]; by rewrite ?lookup_insert_ne. }
    assert (forall t', (t' ∈ names /\ key' ∈ spellings_of t') \/ (t' = t /\ key' ∈ done ++ [key]) <->
      (t' ∈ names /\ key' ∈ spellings_of t') \/ (t' = t /\ key' ∈ done)) as Hiff by set_solver.
    cbv zeta in *. destruct (index !! key') as [[c|]|].
    + destruct H as [H1 H2]. split; [by apply Hiff|]. intros t' Ht%Hiff. by apply H2.
    + destruct H as (a & b & Ha & Hb & Hab). exists a, b. by rewrite !Hiff.
    + intros t' Ht%Hiff. by apply (H t').
Qed.

Lemma index_spellings_upto index names t keys done :
  indexed_upto index names t done -> indexed_upto (fold_left (index_spelling t) keys index) names t (done ++ keys).
Proof.
  revert index done. induction keys as [|key keys IH]; intros index done H; [by rewrite app_nil_r|].
  cbn [fold_left]. rewrite cons_middle, app_assoc. by apply IH, index_spelling_upto.
Qed.

Lemma indexed_tool index names t :
  indexed index names -> indexed (fold_left (index_spelling t) (spellings_of t) index) (names ++ [t]).
Proof.
  intros H. pose proof (index_spellings_upto index names t (spellings_of t) []) as Hup. cbn [app] in Hup.
  assert (indexed_upto (fold_left (index_spelling t) (spellings_of t) index) names t (spellings_of t)) as H'.
  { apply Hup. intros key. specialize (H key). cbv zeta. destruct (index !! key) as [[c|]|].
    - destruct H as (H1 & H2 & H3). split; [by left|]. intros t' [[? ?]|[_ []%elem_of_nil]]. by apply H3.
    - destruct H as (a & b & ? & ? & ? & ? & ?). exists a, b. split; [by left|]. split; [by left|done].
    - intros t' [[? ?]|[_ []%elem_of_nil]]. by apply (H t'). }
  intros key. specialize (H' key). cbv zeta in H'.
  assert (forall t', (t' ∈ names /\ key ∈ spellings_of t') \/ (t' = t /\ key ∈ spellings_of t) <->
    t' ∈ names ++ [t] /\ key ∈ spellings_of t') as Hiff.
  { intros t'. rewrite elem_of_app, list_elem_of_singleton. split; [intros [[? ?]|[-> ?]]; auto|intros [[?| ->] ?]; auto]. }
  destruct (_ !! key) as [[c|]|].
  - destruct H' as [[H1 H2]%Hiff H3]. split; [done|]. split; [done|]. intros t' Ht' Hk. apply H3, Hiff. by split.
  - destruct H' as (a & b & [? ?]%Hiff & [? ?]%Hiff & ?). by exists a, b.
  - intros t' Ht' Hk. apply (H' t'), Hiff. by split.
Qed.

Lemma build_flat_index_spec names : indexed (build_flat_index names) names.
Proof.
  unfold build_flat_index. assert (forall l index done, indexed index done ->
    indexed (fold_left (fun index canonical => fold_left (index_spelling canonical) (spellings_of canonical) index) l index) (done ++ l)) as H.
  { induction l as [|t l IH]; intros index done Hi; [by rewrite app_nil_r|]. cbn [fold_left].
    rewrite cons_middle, app_assoc. by apply IH, indexed_tool. }
  apply (H names ∅ []). intros key. rewrite lookup_empty. set_solver.
Qed.

Lemma flat_index_tools {T} (m : gmap tool_key T) : indexed (flat_index (new_registry m)) (map fst (map_to_list m)).
Proof. apply build_flat_index_spec. Qed.

Lemma registered_key {T} (m : gmap tool_key T) t : t ∈ map fst (map_to_list m) <-> is_Some (m !! t).
Proof.
  rewrite list_elem_of_fmap. split.
  - intros ([t' x] & -> & H%elem_of_map_to_list). by eexists.
  - intros [x Hx]. exists (t, x). by rewrite elem_of_map_to_list.
Qed.

Lemma first_unique_sound index cs t : first_unique index cs = Some t -> exists c, c ∈ cs /\ index !! c = Some (Unique t).
Proof.
  induction cs as [|c cs IH]; [done|]. cbn. destruct (index !! c) as [[t'|]|] eqn:E.
  - intros [= ->]. exists c. split; [left|done].
  - intros (c' & ? & ?)%IH. exists c'. split; [by right|done].
  - intros (c' & ? & ?)%IH. exists c'. split; [by right|done].
Qed.

(** A flat name, read back, is spelled as it was. *)
Lemma parse_flat_spelling n ns t : parse_flat_mcp_tool_name n = (Some ns, t) -> ns ++ &"__" ++ t = n /\ t <> [].
Proof.
  unfold parse_flat_mcp_tool_name. destruct (strip_prefix LEGACY_MCP_TOOL_NAME_PREFIX n) as [rest|] eqn:Ep; [|done].
  apply strip_prefix_Some in Ep as ->. destruct (find MCP_TOOL_NAME_DELIMITER rest) as [idx|] eqn:Ef; [|done].
  destruct (parse_flat_prefixed rest idx Ef) as (server & tl & -> & <- & _). rewrite take_app_length, drop_app_length, drop_app_length.
  destruct server as [|c server]; [done|]. destruct tl as [|d tl]; [done|]. intros [= <- <-].
  by split.
Qed.

Lemma parse_flat_plain n t : parse_flat_mcp_tool_name n = (None, t) -> t = n.
Proof.
  unfold parse_flat_mcp_tool_name. destruct (strip_prefix _ n) as [rest|]; [|congruence].
  destruct (find _ rest); [|congruence]. destruct (take _ rest); [congruence|]. destruct (drop _ (drop _ rest)); congruence.
Qed.

(** The flat name itself is the first candidate of what is read from it. *)
Lemma parse_flat_candidate n : n <> [] -> exists rest, flat_candidates (parse_flat_mcp_tool_name n) = n :: rest.
Proof.
  intros Hn. destruct (parse_flat_mcp_tool_name n) as [[ns|] t] eqn:E; unfold flat_candidates.
  - apply parse_flat_spelling in E as [<- _]. cbn [List.filter]. rewrite bool_decide_false by done. by eexists.
  - apply parse_flat_plain in E as ->. cbn [List.filter]. rewrite bool_decide_false by done. by eexists.
Qed.

(** ** Theorems *)

(** C29: The tool of a call is found as the call spells it: a name that is registered finds
    its own tool; any other finds a tool only if one of the call's flat spellings is a
    spelling of that tool and of no other registered tool.  In particular a registered
    tool called by a flat spelling of its own, read back as the wires do it, is found
    when no other tool is registered under what was read or has that spelling. *)
Theorem tool_lookup_spec {T} (m : gmap tool_key T) :
  (forall name x, m !! name = Some x -> tool (new_registry m) name = Some x) /\
  (forall name x, m !! name = None -> tool (new_registry m) name = Some x ->
     exists t c, m !! t = Some x /\ c ∈ flat_candidates name /\ c ∈ spellings_of t /\
       forall t', is_Some (m !! t') -> c ∈ spellings_of t' -> t' = t) /\
  (forall t x n, m !! t = Some x -> n ∈ spellings_of t -> n <> [] ->
     (forall t', is_Some (m !! t') -> n ∈ spellings_of t' -> t' = t) ->
     (is_Some (m !! parse_flat_mcp_tool_name n) -> parse_flat_mcp_tool_name n = t) ->
     tool (new_registry m) (parse_flat_mcp_tool_name n) = Some x).
Proof.
  assert (forall name, m !! name = None -> tool (new_registry m) name =
    first_unique (flat_index (new_registry m)) (flat_candidates name) ≫= fun t => m !! t) as Hmiss.
  { intros name Hn. unfold tool, resolve_name. cbn [tools new_registry]. by rewrite Hn. }
  split_and!.
  - intros name x Hx. unfold tool. cbn [tools new_registry]. by rewrite Hx.
  - intros name x Hn. rewrite Hmiss by done. destruct (first_unique _ _) as [t|] eqn:Ef; [|done]. cbn. intros Hx.
    apply first_unique_sound in Ef as (c & Hc & Hi). pose proof (flat_index_tools m c) as Hs. rewrite Hi in Hs.
    destruct Hs as (_ & H2 & H3). exists t, c. split_and!; try done. intros t' Ht'. by apply H3, registered_key.
  - intros t x n Hx Hsp Hne Hother Hp. destruct (m !! parse_flat_mcp_tool_name n) as [y|] eqn:Ey.
    + rewrite (Hp ltac:(by eexists)). unfold tool. cbn [tools new_registry]. by rewrite Hx.
    + rewrite Hmiss by done. destruct (parse_flat_candidate n Hne) as [rest ->]. cbn [first_unique].
      pose proof (flat_index_tools m n) as Hs. assert (t ∈ map fst (map_to_list m)) as Ht by (apply registered_key; by eexists).
      destruct (flat_index (new_registry m) !! n) as [[t'|]|].
      * destruct Hs as (H1 & H2 & _). apply registered_key in H1. by rewrite (Hother t' H1 H2).
      * destruct Hs as (a & b & Ha%registered_key & Hb%registered_key & Hab & Hsa & Hsb).
        by rewrite (Hother _ Ha Hsa), (Hother _ Hb Hsb) in Hab.
      * by destruct (Hs t Ht).
Qed.

(** Two servers; the wires spell a tool with or without a separator. *)
Definition demo_registry : gmap tool_key nat :=
  {[ (Some (&"mcp__fs"), &"read") := 1; (Some (&"mcp__web"), &"read") := 2; (None, &"shell") := 3 ]}.

Lemma tool_lookup_spec_witness :
  tool (new_registry demo_registry) (parse_flat_mcp_tool_name (&"mcp__fsread")) = Some 1 /\
  tool (new_registry demo_registry) (parse_flat_mcp_tool_name (&"read")) = None.
Proof.
  destruct (tool_lookup_spec demo_registry) as (_ & _ & H). split; [|by vm_compute].
  apply (H (Some (&"mcp__fs"), &"read")); [done| |done| |].
  - right. left.
  - intros t' Ht Hs. assert (t' ∈ map fst (map_to_list demo_registry)) as Hin by by apply registered_key.
    assert (forallb (fun t => negb (bool_decide (&"mcp__fsread" ∈ spellings_of t)) || bool_decide (t = (Some (&"mcp__fs"), &"read")))
      (map fst (map_to_list demo_registry)) = true) as Hall by (vm_compute; reflexivity).
    rewrite forallb_forall in Hall. apply list_elem_of_In, Hall in Hin. rewrite bool_decide_true in Hin by done. cbn in Hin.
    by apply bool_decide_eq_true in Hin.
  - intros Hs. assert (bool_decide (is_Some (demo_registry !! parse_flat_mcp_tool_name (&"mcp__fsread"))) = false) as E
      by (vm_compute; reflexivity). apply bool_decide_eq_false in E. done.
Defined.

(** *** Registering *)

Lemma register_release {T} (l : list (tool_key * T)) m : register false l m = Ok (m ∪ list_to_map l).
Proof.
  revert m. induction l as [|[name t] l IH]; intros m; cbn [register];
    [by rewrite list_to_map_nil, map_union_empty|]. rewrite list_to_map_cons. destruct (m !! name) as [x|] eqn:E; cbn [comp_bind error_or_panic]; rewrite IH; f_equal.
  - apply map_eq. intros i. rewrite !lookup_union. destruct (decide (i = name)) as [->|]; [by rewrite E, lookup_insert_eq; destruct (list_to_map l !! name)|].
    by rewrite lookup_insert_ne.
  - by rewrite <- insert_union_l, insert_union_r.
Qed.

(** Of tools with one name the first stays; without such tools no build panics. *)
Theorem registered_tools {T} debug (l : list (tool_key * T)) :
  from_tools false l = Ok (new_registry (list_to_map l)) /\
  (NoDup l.*1 -> from_tools debug l = Ok (new_registry (list_to_map l))).
Proof.
  assert (from_tools false l = Ok (new_registry (list_to_map l))) as Hr.
  { unfold from_tools. by rewrite register_release, map_empty_union. }
  split; [done|]. intros Hn. rewrite <- Hr. unfold from_tools. f_equal.
  assert (forall name, name ∈ l.*1 -> (∅ : gmap tool_key T) !! name = None) as Hfresh by done. revert Hfresh Hn.
  generalize (∅ : gmap tool_key T) as m. clear Hr. induction l as [|[name t] l IH]; intros m Hfresh Hn; cbn [register]; [done|].
  apply NoDup_cons in Hn as [Hni Hn]. rewrite Hfresh by (cbn; set_solver). apply IH; [|done].
  intros n Hin. rewrite lookup_insert_ne; [apply Hfresh; cbn; set_solver|]. intros ->. done.
Qed.

(** ** What the code also does *)

(** A flat name without a separator is read as one with it: the tool [a__b] of the server
    [fs] is declared to Gemini as [mcp__fsa__b], and a call of it reaches the tool [b] of
    the server [fsa]. *)
Lemma gemini_name_reaches_other_server :
  let m : gmap tool_key nat := {[ (Some (&"mcp__fs"), &"a__b") := 1; (Some (&"mcp__fsa"), &"b") := 2 ]} in
  &"mcp__fs" ++ &"a__b" = &"mcp__fsa__b" /\ tool (new_registry m) (parse_flat_mcp_tool_name (&"mcp__fsa__b")) = Some 2.
Proof. by vm_compute. Qed.
