(* ===== verification/GeminiRequest.v ===== *)
(** * provider-gemini/src/request.rs and model.rs: the request of a turn

    A history becomes the [contents] of a [generateContent] request, the tools its
    function declarations (with the names of codex-api/src/wire/tool_name.rs).  Turns
    alternate between user and model, say what the history says and in its order, and in
    the active loop every model turn signs its first function call. *)
From S2P Require Import Prelude RustStr MachineInt Protocol Json AnthropicWire AnthropicRequest SchemaSanitize.

(** ** Parts and turns *)

Definition SYNTHETIC_THOUGHT_SIGNATURE : str := &"skip_thought_signature_validator".

Definition text_part (text : str) : Value := obj [(&"text", VString text)].
Definition call_part (name : str) (args : Value) : Value :=
  obj [(&"functionCall", obj [(&"name", VString name); (&"args", args)])].
Definition response_part (name output : str) : Value :=
  obj [(&"functionResponse", obj [(&"name", VString name); (&"response", obj [(&"output", VString output)])])].
Definition turn (role : str) (parts : list Value) : Value := obj [(&"role", VString role); (&"parts", Array parts)].

Definition extract_function_output_text (output : FunctionCallOutputPayload) : str :=
  match body output with
  | BodyText text => text
  | ContentItems items => join [nl] (omap (fun item => match item with OutInputText text => Some text | _ => None end) items)
  end.

Definition message_parts (content : list ContentItem) : list Value :=
  omap (fun c => match c with InputText text | OutputText text => Some (text_part text) | _ => None end) content.

(** [None]: the message goes into the system instruction. *)
Definition gemini_role (role : str) : option str :=
  if str_eqb role (&"system") || str_eqb role (&"developer") then None
  else if str_eqb role (&"assistant") then Some (&"model") else Some (&"user").

(** ** The contents *)
Section contents.
Context {codec : WireCodec}.

Definition call_id_to_name (input : list ResponseItem) : gmap str str :=
  fold_left (fun m item => match item with FunctionCall _ name _ _ call_id => <[call_id := name]> m | _ => m end) input ∅.

Definition call_args (arguments : str) : Value := default (obj []) (from_str arguments).

(** The inner loops: consecutive calls, and consecutive outputs *)
Fixpoint take_calls (input : list ResponseItem) : list Value * list ResponseItem :=
  match input with
  | FunctionCall _ name _ arguments _ :: rest =>
      let '(parts, rest) := take_calls rest in (call_part name (call_args arguments) :: parts, rest)
  | _ => ([], input)
  end.
Fixpoint take_outputs (names : gmap str str) (input : list ResponseItem) : list Value * list ResponseItem :=
  match input with
  | FunctionCallOutput call_id output :: rest =>
      let '(parts, rest) := take_outputs names rest in
      (response_part (default (&"unknown_function") (names !! call_id)) (extract_function_output_text output) :: parts, rest)
  | _ => ([], input)
  end.

Definition has_function_call (block : Value) : bool := match vget (&"functionCall") block with Some _ => true | None => false end.
Definition skip_call (input : list ResponseItem) : list ResponseItem :=
  match input with FunctionCall _ _ _ _ _ :: rest => rest | _ => input end.

(** [while i < input.len()]; every round takes at least one item. *)
Fixpoint contents_loop (fuel : nat) (names : gmap str str) (input : list ResponseItem) : comp False (list Value) :=
  match input with
  | [] => Ok []
  | item :: rest =>
      match fuel with
      | O => Loop
      | S fuel =>
          match item with
          | Message _ role content _ =>
              match gemini_role role with
              | None => contents_loop fuel names rest
              | Some role =>
                  let? contents := contents_loop fuel names rest in
                  Ok (match message_parts content with [] => contents | parts => turn role parts :: contents end)
              end
          | FunctionCall _ _ _ _ _ =>
              let '(parts, rest) := take_calls input in
              let? contents := contents_loop fuel names rest in
              Ok (turn (&"model") parts :: contents)
          | FunctionCallOutput _ _ =>
              let '(parts, rest) := take_outputs names input in
              let? contents := contents_loop fuel names rest in
              Ok (turn (&"user") parts :: contents)
          | Reasoning _ _ _ _ _ (Some block) =>
              let rest := if has_function_call block then skip_call rest else rest in
              let? contents := contents_loop fuel names rest in
              Ok (turn (&"model") [block] :: contents)
          | _ => contents_loop fuel names rest
          end
      end
  end.
End contents.

Definition same_role (a b : Value) : bool :=
  match vget (&"role") a, vget (&"role") b with
  | Some x, Some y => value_eqb x y
  | None, None => true
  | _, _ => false
  end.

(** [parts] of the second into those of the first *)
Definition take_parts (cur next : Value) : Value :=
  match vget (&"parts") next, cur with
  | Some (Array next_parts), Object fields =>
      Object (on_field (&"parts") (fun v => match v with Array ps => Array (ps ++ next_parts) | _ => v end) fields)
  | _, _ => cur
  end.

(** Every round removes an entry or goes past one. *)
Fixpoint merge_loop (fuel i : nat) (contents : list Value) : comp False (list Value) :=
  match contents !! i, contents !! (i + 1) with
  | Some cur, Some next =>
      match fuel with
      | O => Loop
      | S fuel =>
          if same_role cur next then merge_loop fuel i (delete (i + 1) (<[i := take_parts cur next]> contents))
          else merge_loop fuel (i + 1) contents
      end
  | _, _ => Ok contents
  end.
Definition merge_consecutive_same_role (contents : list Value) : comp False (list Value) := merge_loop (length contents) 0 contents.

Definition has_role (role : str) (content : Value) : bool :=
  match get_str (&"role") content with Some r => str_eqb r role | None => false end.
Definition has_text_part (content : Value) : bool :=
  match vget (&"parts") content with
  | Some (Array parts) => existsb (fun p => match vget (&"text") p with Some _ => true | None => false end) parts
  | _ => false
  end.

(** The scan from the end *)
Fixpoint active_loop_start (contents : list Value) : option nat :=
  match contents with
  | [] => None
  | c :: rest =>
      match active_loop_start rest with
      | Some i => Some (S i)
      | None => if has_role (&"user") c && has_text_part c then Some 0 else None
      end
  end.

Definition sign (part : Value) : Value :=
  match vget (&"thoughtSignature") part with
  | Some _ => part
  | None => obj_insert (&"thoughtSignature") (VString SYNTHETIC_THOUGHT_SIGNATURE) part
  end.
Fixpoint sign_first_call (parts : list Value) : list Value :=
  match parts with
  | [] => []
  | p :: rest => if has_function_call p then sign p :: rest else p :: sign_first_call rest
  end.
Definition sign_turn (content : Value) : Value :=
  match content with
  | Object fields =>
      if has_role (&"model") content then Object (on_field (&"parts") (fun v => match v with Array ps => Array (sign_first_call ps) | _ => v end) fields)
      else content
  | _ => content
  end.

Definition ensure_active_loop_has_thought_signatures (contents : list Value) : list Value :=
  match active_loop_start contents with
  | None => contents
  | Some start => take start contents ++ map sign_turn (drop start contents)
  end.

Definition conversation_to_gemini_contents {codec : WireCodec} (input : list ResponseItem) : comp False (list Value) :=
  let? contents := contents_loop (length input) (call_id_to_name input) input in
  let? contents := merge_consecutive_same_role contents in
  Ok (ensure_active_loop_has_thought_signatures contents).

Definition extract_system_instruction (base_instructions : str) (input : list ResponseItem) : option Value :=
  let base := match base_instructions with [] => [] | _ => [text_part base_instructions] end in
  let parts := base ++ flat_map (fun item => match item with
    | Message _ role content _ =>
        if str_eqb role (&"developer") || str_eqb role (&"system") then
          omap (fun c => match c with InputText ((_ :: _) as text) => Some (text_part text) | _ => None end) content
        else []
    | _ => []
    end) input in
  match parts with [] => None | _ => Some (obj [(&"parts", Array parts)]) end.

(** ** codex-api/src/wire/tool_name.rs *)

(** SHA-256, as the hexadecimal digits of its result *)
Class Sha256 := {
  sha256_hex : str -> str;
  sha256_hex_length : forall s, length (sha256_hex s) = 64;
  sha256_hex_ascii : forall s, Forall (fun c => (c < 128)%N) (sha256_hex s)
}.

Definition OPENAI_MAX_TOOL_NAME_LENGTH : N := 64.
Definition TOOL_NAME_HASH_LENGTH : N := 8.
Definition TOOL_NAME_PREFIX_LENGTH : N := 55.

Section tools.
Context {sha : Sha256} {env : RequestEnv}.

Definition truncate_tool_name (name : str) : comp False str :=
  if (str_len name <=? OPENAI_MAX_TOOL_NAME_LENGTH)%N then Ok name
  else
    let? suffix := unwrap (bytes_to TOOL_NAME_HASH_LENGTH (sha256_hex name)) in
    let? prefix := unwrap (bytes_to TOOL_NAME_PREFIX_LENGTH name) in
    Ok (prefix ++ &"_" ++ suffix).

Fixpoint tool_name_mapping (names : list str) (mapping : gmap str str) : comp False (gmap str str) :=
  match names with
  | [] => Ok mapping
  | original :: names =>
      let? truncated := truncate_tool_name original in
      tool_name_mapping names (if str_eqb truncated original then mapping else <[truncated := original]> mapping)
  end.

Definition restore_original_tool_name (truncated : str) (mapping : gmap str str) : str := default truncated (mapping !! truncated).

Definition restore_original_tool_names_in_item (item : ResponseItem) (mapping : gmap str str) : ResponseItem :=
  if bool_decide (mapping = ∅) then item
  else
    match item with
    | FunctionCall id name (Some ns) arguments call_id =>
        let restored_wire := restore_original_tool_name (ns ++ name) mapping in
        match strip_prefix ns restored_wire with
        | Some name => FunctionCall id name (Some ns) arguments call_id
        | None => FunctionCall id restored_wire None arguments call_id
        end
    | FunctionCall id name None arguments call_id => FunctionCall id (restore_original_tool_name name mapping) None arguments call_id
    | item => item
    end.

(** tools/src/responses_wire.rs *)
Definition gemini_wire_tool_names (tools : list ToolSpec) : list str :=
  flat_map (fun tool => match tool with
    | FunctionTool f => [tool_name f]
    | NamespaceTool ns => map (fun '(NamespaceFunction f) => namespace_name ns ++ tool_name f) (namespace_tools ns)
    | Freeform f => [freeform_name f]
    | _ => []
    end) tools.

(** ** The tools *)

Definition declaration (name description : str) (schema : Value) : comp False Value :=
  let? name := truncate_tool_name name in
  let? params := sanitize_for_gemini schema in
  Ok (obj [(&"name", VString name); (&"description", VString description); (&"parameters", params)]).

Definition freeform_parameters : Value :=
  obj [(&"type", VString (&"object"));
       (&"properties", obj [(&"input", obj [(&"type", VString (&"string")); (&"description", VString (&"The freeform tool content."))])]);
       (&"required", Array [VString (&"input")])].

Definition declarations_of (tool : ToolSpec) : list (comp False Value) :=
  match tool with
  | FunctionTool f => [declaration (tool_name f) (tool_description f) (schema_value (tool_parameters f))]
  | Freeform f => [declaration (freeform_name f) (freeform_description_text f) freeform_parameters]
  | NamespaceTool ns =>
      map (fun '(NamespaceFunction f) =>
        declaration (namespace_name ns ++ tool_name f) (tool_description f) (schema_value (tool_parameters f))) (namespace_tools ns)
  | _ => []
  end.

Fixpoint collect (l : list (comp False Value)) : comp False (list Value) :=
  match l with
  | [] => Ok []
  | c :: l => let? v := c in let? vs := collect l in Ok (v :: vs)
  end.

Definition tools_to_gemini_format (tools : list ToolSpec) (web_search_enabled : bool) : comp False (option (list Value)) :=
  let? declarations := collect (flat_map declarations_of tools) in
  Ok (if bool_decide (declarations = []) && negb web_search_enabled then None
      else Some ((match declarations with [] => [] | _ => [obj [(&"functionDeclarations", Array declarations)]] end) ++
                 (if web_search_enabled then [obj [(&"googleSearch", obj [])]] else []))).

(** ** model.rs and the settings of a request *)

Definition is_gemini_2_5 (slug : str) : bool :=
  let normalized := to_lowercase slug in
  starts_with (&"gemini-2.5") normalized || starts_with (&"gemini-2-5") normalized.
Definition gemini_max_output_tokens (slug : str) : N := if is_gemini_2_5 slug then 65536 else 8192.
Definition supports_thinking (slug : str) : bool := is_gemini_2_5 slug.
Definition supports_grounding (slug : str) : bool :=
  let normalized := to_lowercase slug in
  is_gemini_2_5 slug || starts_with (&"gemini-3-") normalized || starts_with (&"gemini-3.") normalized.

Definition default_gemini_safety_settings : list (str * str) :=
  map (fun category => (category, &"BLOCK_ONLY_HIGH"))
    [&"HARM_CATEGORY_HARASSMENT"; &"HARM_CATEGORY_HATE_SPEECH"; &"HARM_CATEGORY_SEXUALLY_EXPLICIT";
     &"HARM_CATEGORY_DANGEROUS_CONTENT"; &"HARM_CATEGORY_CIVIC_INTEGRITY"].

Definition thinking_config_for_model (slug : str) (effort : option ReasoningEffort) : option Value :=
  if negb (supports_thinking slug) then None
  else
    let budget := match effort with
      | Some EffortLow | Some EffortMinimal => Some 1024%N
      | Some EffortMedium => Some 8192%N
      | Some EffortHigh | None => Some 24576%N
      | Some EffortXHigh | Some EffortMax => Some 65536%N
      | Some EffortNone => None
      end in
    option_map (fun budget => obj [(&"thinkingBudget", Number (show_N budget))]) budget.

Definition calling_config (fields : list (str * Value)) : Value := obj [(&"functionCallingConfig", obj fields)].
Definition tool_choice_to_gemini (tool_choice : option ToolChoice) : option Value :=
  match tool_choice with
  | None | Some ChoiceAuto => None
  | Some ChoiceRequired => Some (calling_config [(&"mode", VString (&"ANY"))])
  | Some ChoiceNone => Some (calling_config [(&"mode", VString (&"NONE"))])
  | Some (ChoiceSpecific name) => Some (calling_config [(&"mode", VString (&"ANY")); (&"allowedFunctionNames", Array [VString name])])
  end.
End tools.

(** ** What the contents say *)

(** Turns as pairs of a role and its parts *)
Definition turn_value (t : str * list Value) : Value := turn t.1 t.2.
Definition said (ts : list (str * list Value)) : list (str * Value) := flat_map (fun t => map (pair t.1) t.2) ts.

Section spoken.
Context {codec : WireCodec} (names : gmap str str).

(** The parts of the items in their order; [skip] is set after a raw block with a call. *)
Fixpoint spoken (skip : bool) (input : list ResponseItem) : list (str * Value) :=
  match input with
  | [] => []
  | Message _ role content _ :: rest =>
      match gemini_role role with Some role => map (pair role) (message_parts content) | None => [] end ++ spoken false rest
  | FunctionCall _ name _ arguments _ :: rest =>
      (if skip then [] else [(&"model", call_part name (call_args arguments))]) ++ spoken false rest
  | FunctionCallOutput call_id output :: rest =>
      (&"user", response_part (default (&"unknown_function") (names !! call_id)) (extract_function_output_text output)) :: spoken false rest
  | Reasoning _ _ _ _ _ (Some block) :: rest => (&"model", block) :: spoken (has_function_call block) rest
  | _ :: rest => spoken false rest
  end.

Lemma take_calls_spoken input :
  spoken false input = map (pair (&"model")) (take_calls input).1 ++ spoken false (take_calls input).2 /\
  length (take_calls input).2 <= length input.
Proof.
  induction input as [|item input IH]; [done|]. destruct item; try (split; [done|cbn; lia]).
  cbn [take_calls]. destruct (take_calls input) as [parts rest] eqn:E. destruct IH as [IH Hl]. cbn in IH, Hl |- *.
  split; [by rewrite IH|lia].
Qed.

Lemma take_outputs_spoken input :
  spoken false input = map (pair (&"user")) (take_outputs names input).1 ++ spoken false (take_outputs names input).2 /\
  length (take_outputs names input).2 <= length input.
Proof.
  induction input as [|item input IH]; [done|]. destruct item; try (split; [done|cbn; lia]).
  cbn [take_outputs]. destruct (take_outputs names input) as [parts rest] eqn:E. destruct IH as [IH Hl]. cbn in IH, Hl |- *.
  split; [by rewrite IH|lia].
Qed.

Definition turn_ok (t : str * list Value) : Prop := (t.1 = &"user" \/ t.1 = &"model") /\ t.2 <> [].

Definition turns_for (input : list ResponseItem) (r : comp False (list Value)) : Prop :=
  exists ts, r = Ok (map turn_value ts) /\ said ts = spoken false input /\ Forall turn_ok ts.

Lemma turns_cons role parts input rest r :
  turns_for rest r -> spoken false input = map (pair role) parts ++ spoken false rest -> role = &"user" \/ role = &"model" -> parts <> [] ->
  turns_for input (let? contents := r in Ok (turn role parts :: contents)).
Proof.
  intros (ts & -> & Hs & Hok) E Hr Hp. exists ((role, parts) :: ts). split; [done|]. split; [by rewrite E, <- Hs|]. by constructor.
Qed.

Lemma gemini_role_two role r : gemini_role role = Some r -> r = &"user" \/ r = &"model".
Proof. unfold gemini_role. destruct (_ || _); [done|]. destruct (str_eqb _ _); intros [= <-]; auto. Qed.

Lemma spoken_skip rest : spoken true rest = spoken false (skip_call rest).
Proof. by destruct rest as [|[] rest]. Qed.

Lemma skip_call_length rest : length (skip_call rest) <= length rest.
Proof. destruct rest as [|[] rest]; cbn; lia. Qed.

Lemma contents_loop_spoken fuel input : length input <= fuel -> turns_for input (contents_loop fuel names input).
Proof.
  revert input. induction fuel as [|fuel IH]; intros input Hf.
  { destruct input; [|cbn in Hf; lia]. by exists []. }
  destruct input as [|item rest]; [by exists []|]. cbn [length] in Hf. assert (length rest <= fuel) as Hr by lia.
  destruct item as [? role content ?|? ? ? ? ? [block|]| | | |call_id output| | | | | | | | |];
    try (destruct (IH rest Hr) as (ts & E & Hs & Hok); exists ts; by split_and!).
  - cbn [contents_loop]. destruct (gemini_role role) as [r|] eqn:Er.
    + destruct (message_parts content) as [|p ps] eqn:Ep.
      * destruct (IH rest Hr) as (ts & E & Hs & Hok). exists ts. rewrite E. cbn [spoken]. rewrite Er, Ep. by split_and!.
      * apply (turns_cons r (p :: ps) _ rest); [by apply IH| |by eapply gemini_role_two|done]. cbn [spoken]. by rewrite Er, Ep.
    + destruct (IH rest Hr) as (ts & E & Hs & Hok). exists ts. cbn [spoken]. rewrite Er. by split_and!.
  - cbn [contents_loop]. destruct (has_function_call block) eqn:Eb.
    + eapply turns_cons; [apply (IH (skip_call rest)); pose proof (skip_call_length rest); lia| |by right|done].
      cbn [spoken map app]. by rewrite Eb, spoken_skip.
    + eapply turns_cons; [by apply (IH rest)| |by right|done]. cbn [spoken map app]. by rewrite Eb.
  - cbn [contents_loop take_calls]. destruct (take_calls rest) as [parts rest'] eqn:E.
    destruct (take_calls_spoken rest) as [Hs Hl]. rewrite E in Hs, Hl. cbn in Hs, Hl.
    apply (turns_cons (&"model") _ _ rest'); [apply IH; lia| |by right|done]. cbn [spoken map app]. by rewrite Hs.
  - cbn [contents_loop take_outputs]. destruct (take_outputs names rest) as [parts rest'] eqn:E.
    destruct (take_outputs_spoken rest) as [Hs Hl]. rewrite E in Hs, Hl. cbn in Hs, Hl.
    apply (turns_cons (&"user") _ _ rest'); [apply IH; lia| |by left|done]. cbn [spoken map app]. by rewrite Hs.
Qed.
End spoken.

(** ** Merging *)

Fixpoint merge_from (role : str) (parts : list Value) (ts : list (str * list Value)) : list (str * list Value) :=
  match ts with
  | [] => [(role, parts)]
  | (r, ps) :: ts => if str_eqb role r then merge_from role (parts ++ ps) ts else (role, parts) :: merge_from r ps ts
  end.

(** Neighbours have different roles. *)
Fixpoint alternates (ts : list (str * list Value)) : Prop :=
  match ts with
  | a :: ((b :: _) as rest) => a.1 <> b.1 /\ alternates rest
  | _ => True
  end.

Lemma same_role_turns a b : same_role (turn_value a) (turn_value b) = str_eqb a.1 b.1.
Proof. done. Qed.

Lemma take_parts_turns r ps b : take_parts (turn_value (r, ps)) (turn_value b) = turn_value (r, ps ++ b.2).
Proof. done. Qed.

Lemma merge_loop_turns fuel done role parts ts :
  length ts <= fuel ->
  merge_loop fuel (length done) (map turn_value (done ++ (role, parts) :: ts)) =
  Ok (map turn_value (done ++ merge_from role parts ts)).
Proof.
  revert fuel done role parts. induction ts as [|[r ps] ts IH]; intros fuel done role parts Hf.
  - assert (map turn_value (done ++ [(role, parts)]) !! (length done + 1) = None) as E.
    { apply lookup_ge_None. rewrite length_map, length_app. cbn. lia. }
    destruct fuel; cbn [merge_loop]; rewrite E; by destruct (_ !! length done).
  - destruct fuel as [|fuel]; [cbn in Hf; lia|]. cbn [length] in Hf.
    assert (map turn_value (done ++ (role, parts) :: (r, ps) :: ts) !! length done = Some (turn_value (role, parts))) as E1.
    { rewrite list_lookup_fmap, list_lookup_middle; done. }
    assert (map turn_value (done ++ (role, parts) :: (r, ps) :: ts) !! (length done + 1) = Some (turn_value (r, ps))) as E2.
    { rewrite list_lookup_fmap, lookup_app_r by lia. replace (length done + 1 - length done) with 1 by lia. done. }
    cbn [merge_loop]. rewrite E1, E2, same_role_turns. cbn [fst merge_from]. destruct (str_eqb role r) eqn:Er.
    + rewrite take_parts_turns. cbn [snd]. rewrite <- (IH fuel done role (parts ++ ps)) by lia. f_equal.
      rewrite !map_app. cbn [map]. rewrite insert_app_r_alt by (rewrite length_map; lia). rewrite length_map, Nat.sub_diag. cbn.
      rewrite delete_take_drop, take_app_ge, drop_app_ge by (rewrite length_map; lia). rewrite !length_map.
      replace (length done + 1 - length done) with 1 by lia. replace (S (length done + 1) - length done) with 2 by lia.
      cbn. by rewrite <- app_assoc.
    + replace (length done + 1) with (length (done ++ [(role, parts)])) by (rewrite length_app; cbn; lia).
      change (done ++ (role, parts) :: (r, ps) :: ts) with (done ++ [(role, parts)] ++ (r, ps) :: ts).
      rewrite app_assoc, IH by lia. by rewrite <- app_assoc.
Qed.

Lemma merge_from_head role parts ts : exists ps rest, merge_from role parts ts = (role, ps) :: rest /\ (parts <> [] -> ps <> []).
Proof.
  revert role parts. induction ts as [|[r ps] ts IH]; intros role parts; [by exists parts, []|]. cbn. destruct (str_eqb role r).
  - destruct (IH role (parts ++ ps)) as (ps' & rest & -> & H). exists ps', rest. split; [done|]. intros Hp. apply H. by destruct parts.
  - by eexists _, _.
Qed.

Lemma merge_from_ok role parts ts :
  turn_ok (role, parts) -> Forall turn_ok ts ->
  alternates (merge_from role parts ts) /\ Forall turn_ok (merge_from role parts ts) /\
  said (merge_from role parts ts) = map (pair role) parts ++ said ts.
Proof.
  revert role parts. induction ts as [|[r ps] ts IH]; intros role parts Hp Hts; cbn [merge_from].
  - split_and!; [done|by constructor|done].
  - apply Forall_cons in Hts as [Hr Hts]. destruct (str_eqb role r) eqn:E.
    + apply str_eqb_eq in E as ->. destruct (IH r (parts ++ ps)) as (H1 & H2 & H3); [|done|].
      { split; [apply Hp|]. destruct Hp as [_ Hp]. by destruct parts. }
      split_and!; [done|done|]. rewrite H3, map_app, <- app_assoc. done.
    + apply str_eqb_neq in E. destruct (IH r ps Hr Hts) as (H1 & H2 & H3).
      destruct (merge_from_head r ps ts) as (ps' & rest & Em & _). split_and!.
      * rewrite Em in H1 |- *. by split.
      * by constructor.
      * cbn [said flat_map fst snd]. fold (said (merge_from r ps ts)). by rewrite H3.
Qed.

Lemma merged_turns ts : Forall turn_ok ts ->
  exists ts', merge_consecutive_same_role (map turn_value ts) = Ok (map turn_value ts') /\
    alternates ts' /\ Forall turn_ok ts' /\ said ts' = said ts.
Proof.
  intros Hok. unfold merge_consecutive_same_role. destruct ts as [|[r ps] ts]; [by exists []|].
  pose proof (merge_loop_turns (length (map turn_value ((r, ps) :: ts))) [] r ps ts) as H. cbn [length app] in H.
  cbn [map length] in H |- *. rewrite H by (rewrite length_map; lia). apply Forall_cons in Hok as [Hr Hok].
  destruct (merge_from_ok r ps ts Hr Hok) as (H1 & H2 & H3). eexists. by split_and!.
Qed.

(** ** Signatures *)

Definition signed_turn (t : str * list Value) : str * list Value := (t.1, if str_eqb t.1 (&"model") then sign_first_call t.2 else t.2).
Definition first_call_signed (parts : list Value) : bool :=
  match List.find has_function_call parts with
  | Some p => match vget (&"thoughtSignature") p with Some _ => true | None => false end
  | None => true
  end.
Definition user_text (t : str * list Value) : bool := has_role (&"user") (turn_value t) && has_text_part (turn_value t).

(** The same part, possibly signed *)
Definition says (x y : str * Value) : Prop := x.1 = y.1 /\ (x.2 = y.2 \/ x.2 = sign y.2).

Lemma sign_turn_value t : sign_turn (turn_value t) = turn_value (signed_turn t).
Proof.
  destruct t as [r ps]. unfold sign_turn, signed_turn, turn_value, turn, obj. cbn [fst snd].
  change (has_role (&"model") (Object [(&"role", VString r); (&"parts", Array ps)])) with (str_eqb r (&"model")).
  by destruct (str_eqb r (&"model")).
Qed.

Lemma sign_call p : has_function_call p = true -> has_function_call (sign p) = true /\ vget (&"thoughtSignature") (sign p) <> None.
Proof.
  unfold has_function_call, sign. destruct (vget (&"thoughtSignature") p) as [s|] eqn:Es; [by rewrite Es|].
  destruct p as [| | | | |fields]; try done. intros H. split.
  - rewrite vget_insert_ne by (by apply (bool_decide_unpack _)). done.
  - cbn. by rewrite field_get_insert.
Qed.

Lemma sign_first_call_signed ps : first_call_signed (sign_first_call ps) = true.
Proof.
  unfold first_call_signed. induction ps as [|p ps IH]; [done|]. cbn [sign_first_call]. destruct (has_function_call p) eqn:E.
  - destruct (sign_call p E) as [H1 H2]. cbn [List.find]. rewrite H1. by destruct (vget _ (sign p)).
  - cbn [List.find]. by rewrite E.
Qed.

Lemma sign_first_call_says r ps : Forall2 says (map (pair r) (sign_first_call ps)) (map (pair r) ps).
Proof.
  assert (forall l, Forall2 says (map (pair r) l) (map (pair r) l)) as Hrefl.
  { intros l. apply Forall2_fmap, Forall_Forall2_diag, Forall_true. intros x. by split; [|left]. }
  induction ps as [|p ps IH]; [done|]. cbn [sign_first_call]. destruct (has_function_call p).
  - constructor; [by split; [|right]|apply Hrefl].
  - constructor; [by split; [|left]|done].
Qed.

Lemma turns_said_app a b : said (a ++ b) = said a ++ said b.
Proof. apply flat_map_app. Qed.

Lemma signed_turns_say ts : Forall2 says (said (map signed_turn ts)) (said ts) /\ Forall2 says (said ts) (said ts).
Proof.
  assert (forall r l, Forall2 says (map (pair r) l) (map (pair r) l)) as Hrefl.
  { intros r l. apply Forall2_fmap, Forall_Forall2_diag, Forall_true. intros x. by split; [|left]. }
  induction ts as [|[r ps] ts [IH1 IH2]]; [done|]. cbn [map said flat_map signed_turn fst snd]. split.
  - apply Forall2_app; [|done]. destruct (str_eqb r (&"model")); [apply sign_first_call_says|apply Hrefl].
  - by apply Forall2_app.
Qed.

Lemma signed_turn_ok t : turn_ok t -> turn_ok (signed_turn t).
Proof.
  intros [Hr Hp]. split; [done|]. destruct t as [r ps]. cbn in *. destruct (str_eqb r _); [|done].
  destruct ps as [|p ps]; [done|]. cbn. by destruct (has_function_call p).
Qed.

Lemma user_text_signed t : user_text (signed_turn t) = user_text t.
Proof.
  destruct t as [r ps]. unfold signed_turn. cbn [fst snd]. destruct (str_eqb r (&"model")) eqn:E; [|done].
  apply str_eqb_eq in E as ->. done.
Qed.

Lemma active_loop_spec ts :
  match active_loop_start (map turn_value ts) with
  | Some i => exists pre u post, ts = pre ++ u :: post /\ length pre = i /\ user_text u = true /\ Forall (fun t => user_text t = false) post
  | None => Forall (fun t => user_text t = false) ts
  end.
Proof.
  induction ts as [|t ts IH]; [by constructor|]. cbn [map active_loop_start].
  destruct (active_loop_start (map turn_value ts)) as [i|].
  - destruct IH as (pre & u & post & -> & <- & Hu & Hp). by exists (t :: pre), u, post.
  - change (has_role (&"user") (turn_value t) && has_text_part (turn_value t)) with (user_text t).
    destruct (user_text t) eqn:E; [by exists [], t, ts|]. by constructor.
Qed.

(** The last turn in which the user says something splits the turns in one way. *)
Lemma last_user_text_unique pre u post pre' u' (post' : list (str * list Value)) :
  pre ++ u :: post = pre' ++ u' :: post' -> user_text u = true -> user_text u' = true ->
  Forall (fun t => user_text t = false) post -> Forall (fun t => user_text t = false) post' -> pre = pre' /\ u = u' /\ post = post'.
Proof.
  assert (forall a b : list (str * list Value), forall x, user_text x = true -> Forall (fun t => user_text t = false) (a ++ x :: b) -> False) as Hno.
  { intros a b x Hx H. apply Forall_app in H as [_ H]. apply Forall_cons in H as [H _]. congruence. }
  revert pre'. induction pre as [|x pre IH]; intros [|x' pre'] E Hu Hu' Hp Hp'; cbn in E; injection E as E1 E2.
  - done.
  - exfalso. subst. by eapply Hno.
  - exfalso. subst. by apply (Hno pre post u).
  - destruct (IH pre' E2 Hu Hu' Hp Hp') as (-> & -> & ->). by subst.
Qed.

Lemma alternates_roles ts ts' : map fst ts = map fst ts' -> alternates ts -> alternates ts'.
Proof.
  revert ts'. induction ts as [|a ts IH]; intros [|a' ts'] E; try done. cbn in E. injection E as E1 E2.
  destruct ts as [|b ts], ts' as [|b' ts']; try done. intros [H1 H2]. split; [|by apply IH].
  cbn in E2. injection E2 as E2 _. congruence.
Qed.

(** C27: For every history the contents are built; they alternate between user and model
    with no empty turn; their parts are those of the items, in order, each with its role,
    except that a call that was recorded in a raw block is not repeated and that parts may
    be signed; and after the last turn in which the user says something, every turn of
    the model has a signature on its first function call. *)
Theorem gemini_contents {codec : WireCodec} input :
  exists ts, conversation_to_gemini_contents input = Ok (map turn_value ts) /\
    alternates ts /\ Forall turn_ok ts /\
    Forall2 says (said ts) (spoken (call_id_to_name input) false input) /\
    forall pre u post, ts = pre ++ u :: post -> user_text u = true -> Forall (fun t => user_text t = false) post ->
      Forall (fun t => t.1 = &"model" -> first_call_signed t.2 = true) post.
Proof.
  unfold conversation_to_gemini_contents.
  destruct (contents_loop_spoken (call_id_to_name input) (length input) input) as (ts0 & -> & Hs0 & Hok0); [done|]. cbn [comp_bind].
  destruct (merged_turns ts0 Hok0) as (ts & -> & Halt & Hok & Hsaid). cbn [comp_bind]. rewrite Hs0 in Hsaid.
  unfold ensure_active_loop_has_thought_signatures. pose proof (active_loop_spec ts) as Hact.
  destruct (active_loop_start (map turn_value ts)) as [i|].
  - destruct Hact as (pre & u & post & -> & <- & Hu & Hp). exists (pre ++ map signed_turn (u :: post)).
    rewrite map_app, take_app_length', drop_app_length' by (by rewrite length_map). rewrite map_app, !map_map.
    split; [by rewrite (map_ext _ _ sign_turn_value)|]. split; [|split; [|split]].
    + eapply alternates_roles; [|exact Halt]. by rewrite !map_app, map_map.
    + apply Forall_app in Hok as [Ho1 Ho2]. apply Forall_app. split; [done|]. apply Forall_fmap. eapply Forall_impl; [exact Ho2|apply signed_turn_ok].
    + rewrite <- Hsaid, !turns_said_app. apply Forall2_app; [apply signed_turns_say|apply signed_turns_say].
    + intros pre' u' post' E Hu' Hp'.
      destruct (last_user_text_unique pre (signed_turn u) (map signed_turn post) pre' u' post') as (_ & _ & <-); try done.
      * by rewrite user_text_signed.
      * apply Forall_fmap. eapply Forall_impl; [exact Hp|]. intros t Ht. cbn. by rewrite user_text_signed.
      * apply Forall_fmap, Forall_true. intros [r ps] Hr. cbn in Hr |- *. subst. apply sign_first_call_signed.
  - exists ts. split_and!; [done|done|done|rewrite <- Hsaid; apply signed_turns_say|].
    intros pre u post -> Hu. apply Forall_app in Hact as [_ H]. apply Forall_cons in H as [H _]. congruence.
Qed.

(** ** Tool names *)
Section names.
Context {sha : Sha256} {env : RequestEnv}.

Lemma tool_name_mapping_spec names mapping m :
  tool_name_mapping names mapping = Ok m ->
  (forall n, n ∈ names -> exists t, truncate_tool_name n = Ok t) /\
  forall t o, m !! t = Some o -> mapping !! t = Some o \/ (o ∈ names /\ truncate_tool_name o = Ok t /\ t <> o).
Proof.
  revert mapping. induction names as [|n names IH]; intros mapping H; [injection H as <-; split; [by intros n []%elem_of_nil|by left]|].
  cbn in H. destruct (truncate_tool_name n) as [t| | |] eqn:Et; try done. cbn in H. apply IH in H as [H1 H2]. split.
  - intros n' [->|Hn]%elem_of_cons; [by exists t|by apply H1].
  - intros t' o Ho. destruct (H2 _ _ Ho) as [Hm|(Hin & ? & ?)]; [|right; split; [by right|done]].
    destruct (str_eqb t n) eqn:E; [by left|]. apply str_eqb_neq in E. apply lookup_insert_Some in Hm as [[<- <-]|[_ Hm]]; [|by left].
    right. split; [left|done].
Qed.

Lemma tool_name_mapping_has names mapping m n t :
  tool_name_mapping names mapping = Ok m -> n ∈ names -> truncate_tool_name n = Ok t -> t <> n -> is_Some (m !! t).
Proof.
  revert mapping. induction names as [|n' names IH]; intros mapping H Hn Ht Hne; [by apply elem_of_nil in Hn|].
  cbn in H. destruct (truncate_tool_name n') as [t'| | |] eqn:Et; try done. cbn in H.
  assert (forall l m0 m1 k, tool_name_mapping l m0 = Ok m1 -> is_Some (m0 !! k) -> is_Some (m1 !! k)) as Hkeep.
  { intros l. induction l as [|x l IHl]; intros m0 m1 k Hm Hk; [by injection Hm as <-|]. cbn in Hm.
    destruct (truncate_tool_name x) as [y| | |]; try done. cbn in Hm. eapply IHl; [exact Hm|]. destruct (str_eqb y x); [done|].
    destruct (decide (y = k)) as [->|]; [by rewrite lookup_insert_eq|by rewrite lookup_insert_ne]. }
  apply elem_of_cons in Hn as [->|Hn]; [|by eapply IH].
  rewrite Ht in Et. injection Et as <-. apply (Hkeep _ _ _ t H). rewrite (proj2 (str_eqb_neq t n') Hne). by rewrite lookup_insert_eq.
Qed.

(** When no two names of a request are cut to the same one, and none is what another is
    cut to, a name read from the wire is the name that was declared. *)
Theorem tool_names_restored names m n t :
  tool_name_mapping names ∅ = Ok m -> n ∈ names -> truncate_tool_name n = Ok t ->
  (forall n', n' ∈ names -> truncate_tool_name n' = Ok t -> n' = n) -> restore_original_tool_name t m = n.
Proof.
  intros Hm Hn Ht Hinj. unfold restore_original_tool_name. destruct (m !! t) as [o|] eqn:Eo; cbn.
  - destruct (proj2 (tool_name_mapping_spec _ _ _ Hm) t o Eo) as [H|(Ho & Hto & _)]; [by rewrite lookup_empty in H|]. by apply Hinj.
  - destruct (decide (t = n)) as [|Hne]; [done|]. destruct (tool_name_mapping_has _ _ _ _ _ Hm Hn Ht Hne). congruence.
Qed.

Lemma bytes_to_len n s p : bytes_to n s = Some p -> str_len p = n.
Proof.
  revert n p. induction s as [|c s IH]; intros n p; destruct n as [|n] using N.peano_ind; cbn [bytes_to]; try (by intros [= <-]); try done.
  - destruct (N.succ n =? 0)%N eqn:E; [apply N.eqb_eq in E; lia|done].
  - destruct (N.succ n =? 0)%N eqn:E; [apply N.eqb_eq in E; lia|]. destruct (char_len c <=? N.succ n)%N eqn:El; [|done].
    destruct (bytes_to (N.succ n - char_len c) s) as [q|] eqn:Eq; [|done]. intros [= <-]. apply IH in Eq. apply N.leb_le in El.
    rewrite str_len_cons. lia.
Qed.

(** A name is at most 64 bytes long when it is declared. *)
Lemma truncate_tool_name_bound name t : truncate_tool_name name = Ok t -> (str_len t <= OPENAI_MAX_TOOL_NAME_LENGTH)%N.
Proof.
  unfold truncate_tool_name. destruct (_ <=? _)%N eqn:E; [intros [= <-]; by apply N.leb_le|].
  destruct (bytes_to TOOL_NAME_HASH_LENGTH _) as [suffix|] eqn:Es; [|done]. cbn [unwrap comp_bind].
  destruct (bytes_to TOOL_NAME_PREFIX_LENGTH name) as [prefix|] eqn:Ep; [|done]. cbn [unwrap comp_bind]. intros Et.
  assert (t = prefix ++ &"_" ++ suffix) as -> by congruence. apply bytes_to_len in Es, Ep. rewrite !str_len_app, Es, Ep. done.
Qed.

Definition short_name (v : Value) : Prop := exists n, vget (&"name") v = Some (VString n) /\ (str_len n <= OPENAI_MAX_TOOL_NAME_LENGTH)%N.

Lemma declaration_short name description schema v : declaration name description schema = Ok v -> short_name v.
Proof.
  unfold declaration. destruct (truncate_tool_name name) as [n| | |] eqn:En; try done. cbn.
  destruct (sanitize_for_gemini schema) as [p| | |]; try done. intros [= <-]. exists n. split; [done|]. by eapply truncate_tool_name_bound.
Qed.

Lemma collect_short l vs : collect l = Ok vs -> Forall (fun c => forall v, c = Ok v -> short_name v) l -> Forall short_name vs.
Proof.
  revert vs. induction l as [|c l IH]; intros vs H Hl; [by injection H as <-|]. apply Forall_cons in Hl as [Hc Hl].
  cbn in H. destruct c as [v| | |]; try done. cbn in H. destruct (collect l) as [vs'| | |]; try done. injection H as <-.
  constructor; [by apply Hc|by apply IH].
Qed.

(** The declarations of a request and the search tool are separate entries, and every
    declared name is short enough. *)
Theorem gemini_tools_declared tools web_search out :
  tools_to_gemini_format tools web_search = Ok (Some out) ->
  exists declarations, Forall short_name declarations /\
    out = match declarations with [] => [] | _ => [obj [(&"functionDeclarations", Array declarations)]] end ++
          (if web_search then [obj [(&"googleSearch", obj [])]] else []) /\
    out <> [].
Proof.
  unfold tools_to_gemini_format. destruct (collect _) as [ds| | |] eqn:E; try done. cbn [comp_bind].
  destruct (bool_decide (ds = []) && negb web_search) eqn:Eb; [done|]. intros [= <-]. exists ds. split_and!; [|done|].
  - eapply collect_short; [exact E|]. apply Forall_flat_map, Forall_true. intros tool.
    destruct tool as [f|ns| | | |f]; cbn [declarations_of]; repeat constructor; try (intros v; apply declaration_short).
    apply Forall_fmap, Forall_true. intros [f] v. apply declaration_short.
  - destruct ds; [|done]. by destruct web_search.
Qed.
End names.

(** ** What the code also does *)

(** Names are cut when they are declared, not in the calls and outputs of the history. *)
Lemma long_names_stay_in_history {codec : WireCodec} {sha : Sha256} id name arguments call_id t :
  (OPENAI_MAX_TOOL_NAME_LENGTH < str_len name)%N -> truncate_tool_name name = Ok t ->
  t <> name /\
  conversation_to_gemini_contents [FunctionCall id name None arguments call_id] =
    Ok [turn (&"model") [call_part name (call_args arguments)]].
Proof.
  intros Hl Ht. split; [|done]. intros ->. apply truncate_tool_name_bound in Ht. lia.
Qed.
