(* ===== verification/GeminiStream.v ===== *)
(** * codex-api/src/sse: the event stream of the generateContent API

    [generate_content_wire_types.rs] and [generate_content.rs]: chunks of a streamed answer
    become response events, the text of the answer gets citation marks.  A stream ends in
    one of three ways, its finished items are those of its parts, and the marks leave the
    text as it is. *)
From Stdlib Require Import Sorting.Sorted.
From stdpp Require Import sorting.
From S2P Require Import Prelude RustStr MachineInt Protocol Json AnthropicWire AnthropicRequest McpNames MessagesSse SchemaSanitize GeminiRequest.

(** ** generate_content_wire_types.rs *)

Record GeminiFunctionCall := { fc_name : str; fc_args : option Value }.

Inductive PartPayload :=
| PartText (text : str)
| PartFunctionCall (fc : GeminiFunctionCall)
| PartFunctionResponse (v : Value)
| PartInlineData (v : Value)
| PartFileData (v : Value)
| PartExecutableCode (v : Value)
| PartCodeExecutionResult (v : Value)
| PartEmpty
| PartUnknown (tag : str) (raw : Value).

Record Part := { payload : PartPayload; thought : bool; thought_signature : option str }.

Definition MODIFIER_KEYS : list str := [&"thought"; &"thoughtSignature"].
Definition PAYLOAD_KEYS : list str :=
  [&"text"; &"functionCall"; &"functionResponse"; &"inlineData"; &"fileData"; &"executableCode"; &"codeExecutionResult"].

Definition de_function_call (v : Value) : option GeminiFunctionCall :=
  match struct_fields 1 [&"name"; &"args"] v with
  | Some [name; args] =>
      name ← field_required as_str name;
      args ← field_default (de_option de_value) None args;
      Some {| fc_name := name; fc_args := args |}
  | _ => None
  end.

(** The payload of an object: the first key that is known *)
Definition payload_of (raw : Value) (fields : list (str * Value)) : PartPayload :=
  match field_get (&"text") fields with
  | Some text => PartText (default [] (as_str text))
  | None =>
  match field_get (&"functionCall") fields with
  | Some fc => match de_function_call fc with Some parsed => PartFunctionCall parsed | None => PartUnknown (&"functionCall") raw end
  | None =>
  match field_get (&"functionResponse") fields with Some v => PartFunctionResponse v | None =>
  match field_get (&"inlineData") fields with Some v => PartInlineData v | None =>
  match field_get (&"fileData") fields with Some v => PartFileData v | None =>
  match field_get (&"executableCode") fields with Some v => PartExecutableCode v | None =>
  match field_get (&"codeExecutionResult") fields with Some v => PartCodeExecutionResult v | None =>
  match List.find (fun e => negb (existsb (str_eqb e.1) MODIFIER_KEYS) && negb (existsb (str_eqb e.1) PAYLOAD_KEYS)) fields with
  | Some (key, _) => PartUnknown key raw
  | None => PartEmpty
  end end end end end end end end.

Definition deserialize_part (raw : Value) : Part :=
  match raw with
  | Object fields =>
      {| payload := payload_of raw fields;
         thought := default false (field_get (&"thought") fields ≫= as_bool);
         thought_signature := field_get (&"thoughtSignature") fields ≫= as_str |}
  | _ => {| payload := PartUnknown (&"<non-object>") raw; thought := false; thought_signature := None |}
  end.

Inductive FinishReason :=
| FinishStop | FinishMaxTokens | FinishSafety | FinishRecitation | FinishLanguage | FinishOther | FinishBlocklist
| FinishProhibitedContent | FinishSpii | FinishMalformedFunctionCall | FinishImageSafety | FinishUnknown (raw : str).

Definition finish_from_wire (s : str) : FinishReason :=
  if str_eqb s (&"STOP") then FinishStop
  else if str_eqb s (&"MAX_TOKENS") then FinishMaxTokens
  else if str_eqb s (&"SAFETY") then FinishSafety
  else if str_eqb s (&"RECITATION") then FinishRecitation
  else if str_eqb s (&"LANGUAGE") then FinishLanguage
  else if str_eqb s (&"OTHER") then FinishOther
  else if str_eqb s (&"BLOCKLIST") then FinishBlocklist
  else if str_eqb s (&"PROHIBITED_CONTENT") then FinishProhibitedContent
  else if str_eqb s (&"SPII") then FinishSpii
  else if str_eqb s (&"MALFORMED_FUNCTION_CALL") then FinishMalformedFunctionCall
  else if str_eqb s (&"IMAGE_SAFETY") then FinishImageSafety
  else FinishUnknown s.

Definition finish_wire_str (r : FinishReason) : str :=
  match r with
  | FinishStop => &"STOP" | FinishMaxTokens => &"MAX_TOKENS" | FinishSafety => &"SAFETY" | FinishRecitation => &"RECITATION"
  | FinishLanguage => &"LANGUAGE" | FinishOther => &"OTHER" | FinishBlocklist => &"BLOCKLIST"
  | FinishProhibitedContent => &"PROHIBITED_CONTENT" | FinishSpii => &"SPII"
  | FinishMalformedFunctionCall => &"MALFORMED_FUNCTION_CALL" | FinishImageSafety => &"IMAGE_SAFETY" | FinishUnknown s => s
  end.

Lemma finish_reason_roundtrip s : finish_wire_str (finish_from_wire s) = s.
Proof.
  unfold finish_from_wire. repeat (destruct (str_eqb s _) eqn:E; [by apply str_eqb_eq in E as ->|clear E]). done.
Qed.

(** ** generate_content.rs: the chunks *)

Record GroundingChunkWeb := { web_uri : str; web_title : option str }.
Record GroundingSegment := { start_index : option N; end_index : option N }.
Record GroundingSupport := { segment : option GroundingSegment; grounding_chunk_indices : list N }.
(** A chunk is its web page, if it has one. *)
Record GroundingMetadata := {
  grounding_chunks : list (option GroundingChunkWeb);
  grounding_supports : list GroundingSupport;
  web_search_queries : list str
}.
Record UsageMetadata := {
  prompt_token_count : option N;
  candidates_token_count : option N;
  total_token_count : option N;
  thoughts_token_count : option N;
  cached_content_token_count : option N;
  tool_use_prompt_token_count : option N
}.
Record SafetyRating := { category : option str; probability : option str; blocked : option bool }.
Record Candidate := {
  content : option (list Part);
  finish_reason : option FinishReason;
  safety_ratings : option (list SafetyRating);
  grounding_metadata : option GroundingMetadata
}.
Record GenerateContentResponse := {
  candidates : list Candidate;
  usage_metadata : option UsageMetadata;
  model_version : option str;
  chunk_response_id : option str
}.

Definition de_u32 (v : Value) : option N := n ← de_u64 v; if (n <? 2 ^ 32)%N then Some n else None.
Definition de_list {A} (f : Value -> option A) (v : Value) : option (list A) :=
  match v with Array vs => mapM f vs | _ => None end.
Definition opt_field {A} (f : Value -> option A) (o : option Value) : option (option A) := field_default (de_option f) None o.

Definition de_web (v : Value) : option GroundingChunkWeb :=
  match struct_fields 1 [&"uri"; &"title"] v with
  | Some [uri; title] =>
      uri ← field_required as_str uri; title ← opt_field as_str title; Some {| web_uri := uri; web_title := title |}
  | _ => None
  end.
Definition de_chunk (v : Value) : option (option GroundingChunkWeb) :=
  match struct_fields 0 [&"web"] v with Some [web] => opt_field de_web web | _ => None end.
Definition de_segment (v : Value) : option GroundingSegment :=
  match struct_fields 0 [&"startIndex"; &"endIndex"] v with
  | Some [s; e] => s ← opt_field de_u32 s; e ← opt_field de_u32 e; Some {| start_index := s; end_index := e |}
  | _ => None
  end.
Definition de_support (v : Value) : option GroundingSupport :=
  match struct_fields 0 [&"segment"; &"groundingChunkIndices"] v with
  | Some [s; i] =>
      s ← opt_field de_segment s; i ← field_default (de_list de_u64) [] i;
      Some {| segment := s; grounding_chunk_indices := i |}
  | _ => None
  end.
Definition de_grounding (v : Value) : option GroundingMetadata :=
  match struct_fields 0 [&"groundingChunks"; &"groundingSupports"; &"webSearchQueries"] v with
  | Some [c; s; q] =>
      c ← field_default (de_list de_chunk) [] c; s ← field_default (de_list de_support) [] s; q ← field_default (de_list as_str) [] q;
      Some {| grounding_chunks := c; grounding_supports := s; web_search_queries := q |}
  | _ => None
  end.
Definition de_usage_metadata (v : Value) : option UsageMetadata :=
  match struct_fields 0 [&"promptTokenCount"; &"candidatesTokenCount"; &"totalTokenCount"; &"thoughtsTokenCount";
                         &"cachedContentTokenCount"; &"toolUsePromptTokenCount"] v with
  | Some [p; c; t; h; a; u] =>
      p ← opt_field de_u32 p; c ← opt_field de_u32 c; t ← opt_field de_u32 t; h ← opt_field de_u32 h; a ← opt_field de_u32 a;
      u ← opt_field de_u32 u;
      Some {| prompt_token_count := p; candidates_token_count := c; total_token_count := t; thoughts_token_count := h;
              cached_content_token_count := a; tool_use_prompt_token_count := u |}
  | _ => None
  end.
Definition de_rating (v : Value) : option SafetyRating :=
  match struct_fields 0 [&"category"; &"probability"; &"blocked"] v with
  | Some [c; p; b] =>
      c ← opt_field as_str c; p ← opt_field as_str p; b ← opt_field as_bool b;
      Some {| category := c; probability := p; blocked := b |}
  | _ => None
  end.
Definition de_content (v : Value) : option (list Part) :=
  match struct_fields 0 [&"role"; &"parts"] v with
  | Some [role; parts] => _ ← opt_field as_str role; field_default (de_list (fun p => Some (deserialize_part p))) [] parts
  | _ => None
  end.
Definition de_candidate (v : Value) : option Candidate :=
  match struct_fields 0 [&"content"; &"finishReason"; &"safetyRatings"; &"groundingMetadata"] v with
  | Some [c; f; s; g] =>
      c ← opt_field de_content c; f ← opt_field (fun v => finish_from_wire <$> as_str v) f; s ← opt_field (de_list de_rating) s;
      g ← opt_field de_grounding g;
      Some {| content := c; finish_reason := f; safety_ratings := s; grounding_metadata := g |}
  | _ => None
  end.
Definition de_response (v : Value) : option GenerateContentResponse :=
  match struct_fields 0 [&"candidates"; &"usageMetadata"; &"modelVersion"; &"responseId"] v with
  | Some [c; u; m; r] =>
      c ← field_default (de_list de_candidate) [] c; u ← opt_field de_usage_metadata u; m ← opt_field as_str m; r ← opt_field as_str r;
      Some {| candidates := c; usage_metadata := u; model_version := m; chunk_response_id := r |}
  | _ => None
  end.

(** ** Citations *)

(** [sort_by_key], which is stable *)
Fixpoint stable_insert {A} (key : A -> N) (x : A) (l : list A) : list A :=
  match l with
  | [] => [x]
  | y :: l' => if (key x <=? key y)%N then x :: l else y :: stable_insert key x l'
  end.
Definition stable_sort {A} (key : A -> N) (l : list A) : list A := foldr (stable_insert key) [] l.

(** [dedup]: of neighbours that are equal the first stays. *)
Fixpoint dedup (l : list N) : list N :=
  match l with
  | x :: ((y :: _) as rest) => if (x =? y)%N then dedup rest else x :: dedup rest
  | _ => l
  end.

Definition segment_end (s : GroundingSupport) : option N := segment s ≫= end_index.

(** The first pass; the next number is one more than the chunks that have one. *)
Definition number_chunk (chunks : nat) (m : gmap N N) (idx : N) : gmap N N :=
  if (idx <? N.of_nat chunks)%N then
    match m !! idx with Some _ => m | None => <[idx := (N.of_nat (size m) + 1)%N]> m end
  else m.
Definition number_chunks (chunks : nat) (supports : list GroundingSupport) : gmap N N :=
  fold_left (fun m s => fold_left (number_chunk chunks) (grounding_chunk_indices s) m) supports ∅.

Definition marker_of (chunks : nat) (nums : gmap N N) (s : GroundingSupport) : str :=
  let cited := omap (fun idx => if (idx <? N.of_nat chunks)%N then nums !! idx else None) (grounding_chunk_indices s) in
  flat_map (fun n => &"[" ++ show_N n ++ &"]") (dedup (stable_sort id cited)).

Definition insertion_of (chunks : nat) (nums : gmap N N) (text_len : N) (s : GroundingSupport) : option (N * str) :=
  match marker_of chunks nums s with
  | [] => None
  | marker => Some (match segment_end s with Some e => (e `min` text_len)%N | None => text_len end, marker)
  end.

(** Markers at the offset of the last one join it; [merged] is reversed here. *)
Definition merge_insertion (merged : list (N * str)) (ins : N * str) : list (N * str) :=
  match merged with
  | (off, marker) :: rest => if (off =? ins.1)%N then (off, marker ++ ins.2) :: rest else ins :: merged
  | [] => [ins]
  end.
Definition merge_insertions (l : list (N * str)) : list (N * str) := rev (fold_left merge_insertion l []).

Definition is_char_boundary (n : N) (s : str) : bool := match bytes_to n s with Some _ => true | None => false end.

(** [(0..=end).rev().find(..)] *)
Fixpoint last_boundary (n : nat) (s : str) : option N :=
  if is_char_boundary (N.of_nat n) s then Some (N.of_nat n)
  else match n with O => None | S n => last_boundary n s end.

Definition safe_end_of (text : str) (off : N) : N :=
  let end_ := (off `min` str_len text)%N in
  if is_char_boundary end_ text then end_ else default end_ (last_boundary (N.to_nat end_) text).

Fixpoint place_markers (text : str) (cursor : N) (merged : list (N * str)) (result : str) : comp False str :=
  match merged with
  | [] =>
      if (cursor <? str_len text)%N then let? rest := unwrap (bytes_from cursor text) in Ok (result ++ rest) else Ok result
  | (off, marker) :: merged =>
      let safe_end := safe_end_of text off in
      let? piece :=
        if (cursor <? safe_end)%N then
          let? rest := unwrap (bytes_from cursor text) in unwrap (bytes_to (safe_end - cursor) rest)
        else Ok [] in
      place_markers text safe_end merged (result ++ piece ++ marker)
  end.

Definition reference_line (e : N * option GroundingChunkWeb) : str :=
  match e.2 with
  | Some web => [nl] ++ &"[" ++ show_N e.1 ++ &"] " ++ default (&"Source") (web_title web) ++ [32%N; 8212%N; 32%N] ++ web_uri web
  | None => []
  end.

(** [meta.grounding_chunks[idx]] for the entries of the map *)
Fixpoint ref_entries (chunks : list (option GroundingChunkWeb)) (l : list (N * N)) : comp False (list (N * option GroundingChunkWeb)) :=
  match l with
  | [] => Ok []
  | (idx, num) :: l =>
      let? chunk := index chunks (N.to_nat idx) in
      let? rest := ref_entries chunks l in
      Ok ((num, chunk) :: rest)
  end.

Definition annotate_with_citations (text : str) (meta : GroundingMetadata) : comp False str :=
  if bool_decide (grounding_chunks meta = []) || bool_decide (grounding_supports meta = []) then Ok text
  else
    let supports := stable_sort (fun s => default 0%N (segment_end s)) (grounding_supports meta) in
    let chunks := length (grounding_chunks meta) in
    let nums := number_chunks chunks supports in
    let insertions := stable_sort fst (omap (insertion_of chunks nums (str_len text)) supports) in
    let? result := place_markers text 0 (merge_insertions insertions) [] in
    let? entries := ref_entries (grounding_chunks meta) (map_to_list nums) in
    Ok (result ++ [nl; nl] ++ &"References:" ++ flat_map reference_line (stable_sort fst entries)).

(** *** Sorting *)

Definition key_le {A} (key : A -> N) (x y : A) : Prop := (key x <= key y)%N.

Lemma stable_insert_perm {A} (key : A -> N) x l : Permutation (stable_insert key x l) (x :: l).
Proof. induction l as [|y l IH]; simpl; [done|]. case_match; [done|]. rewrite IH. apply perm_swap. Qed.

Lemma stable_sort_perm {A} (key : A -> N) l : Permutation (stable_sort key l) l.
Proof. induction l as [|x l IH]; simpl; [done|]. by rewrite stable_insert_perm, IH. Qed.

Lemma stable_insert_sorted {A} (key : A -> N) x l :
  StronglySorted (key_le key) l -> StronglySorted (key_le key) (stable_insert key x l).
Proof.
  induction 1 as [|y l Hl IH Hy]; simpl; [by repeat constructor|]. destruct (N.leb_spec (key x) (key y)) as [Hle|Hlt].
  - constructor; [by constructor|]. constructor; [done|]. eapply Forall_impl; [exact Hy|]. intros z. unfold key_le. lia.
  - constructor; [done|]. rewrite stable_insert_perm. constructor; [unfold key_le; lia|done].
Qed.

Lemma stable_sort_sorted {A} (key : A -> N) l : StronglySorted (key_le key) (stable_sort key l).
Proof. induction l; simpl; [constructor|by apply stable_insert_sorted]. Qed.

Lemma stable_sort_unique {A} (key : A -> N) l l' :
  Permutation l l' -> StronglySorted (key_le key) l' ->
  (forall x y, x ∈ l' -> y ∈ l' -> key x = key y -> x = y) -> stable_sort key l = l'.
Proof.
  intros Hp Hs Hinj. apply (StronglySorted_unique_strong (key_le key)); [|apply stable_sort_sorted|done|by rewrite stable_sort_perm].
  intros x y. rewrite stable_sort_perm, Hp. unfold key_le. intros Hx Hy H1 H2. apply Hinj; [done|done|lia].
Qed.

(** *** The numbers *)

(** The chunks in the order in which they are cited first *)
Definition first_seen (l : list N) : list N :=
  fold_left (fun seen x => if bool_decide (x ∈ seen) then seen else seen ++ [x]) l [].
Definition cited_chunks (chunks : nat) (supports : list GroundingSupport) : list N :=
  first_seen (List.filter (fun idx => (idx <? N.of_nat chunks)%N) (flat_map grounding_chunk_indices supports)).

Definition numbered (order : list N) : list (N * N) := imap (fun i idx => (idx, N.of_nat i + 1)%N) order.
Definition numbers_ok (chunks : nat) (order : list N) (m : gmap N N) : Prop :=
  NoDup order /\ Forall (fun idx => (idx < N.of_nat chunks)%N) order /\ map_to_list m ≡ₚ numbered order.

Lemma numbered_fst order : (numbered order).*1 = order.
Proof. unfold numbered. rewrite fmap_imap. cbn. induction order as [|x order IH] using rev_ind; [done|]. rewrite imap_app, IH. done. Qed.

Lemma numbered_lookup chunks order m idx :
  numbers_ok chunks order m -> is_Some (m !! idx) <-> idx ∈ order.
Proof.
  intros (Hn & _ & Hp). rewrite <- (numbered_fst order). rewrite <- Hp. rewrite list_elem_of_fmap. split.
  - intros [n Hi]. exists (idx, n). by rewrite elem_of_map_to_list.
  - intros ([i n] & -> & Hi). rewrite elem_of_map_to_list in Hi. by exists n.
Qed.

Lemma number_chunk_ok chunks order m idx :
  numbers_ok chunks order m ->
  numbers_ok chunks (if (idx <? N.of_nat chunks)%N then if bool_decide (idx ∈ order) then order else order ++ [idx] else order)
    (number_chunk chunks m idx).
Proof.
  intros Hok. unfold number_chunk. destruct (N.ltb_spec idx (N.of_nat chunks)) as [Hlt|]; [|done].
  pose proof (numbered_lookup _ _ _ idx Hok) as Hi. case_bool_decide as Hin.
  - apply Hi in Hin as [n ->]. done.
  - destruct (m !! idx) as [n|] eqn:E; [exfalso; apply Hin, Hi; by exists n|]. destruct Hok as (Hn & Hf & Hp). split_and!.
    + apply NoDup_app. split_and!; [done| |by apply NoDup_singleton]. intros x Hx ->%list_elem_of_singleton. done.
    + apply Forall_app. split; [done|by constructor].
    + rewrite map_to_list_insert, Hp by done. unfold numbered. rewrite imap_app. cbn [imap].
      rewrite <- Permutation_cons_append, <- length_map_to_list, Hp. unfold numbered. by rewrite length_imap, Nat.add_0_r.
Qed.

Lemma number_fold_ok chunks l order m :
  numbers_ok chunks order m ->
  numbers_ok chunks
    (fold_left (fun seen x => if bool_decide (x ∈ seen) then seen else seen ++ [x]) (List.filter (fun idx => (idx <? N.of_nat chunks)%N) l) order)
    (fold_left (number_chunk chunks) l m).
Proof.
  revert order m. induction l as [|idx l IH]; intros order m Hok; [done|]. cbn [fold_left List.filter].
  pose proof (number_chunk_ok chunks order m idx Hok) as H. destruct (idx <? N.of_nat chunks)%N eqn:E; by apply IH.
Qed.

Lemma fold_left_flat_map {A B C} (f : C -> B -> C) (g : A -> list B) l c :
  fold_left (fun c a => fold_left f (g a) c) l c = fold_left f (flat_map g l) c.
Proof. revert c. induction l as [|a l IH]; intros c; [done|]. cbn [flat_map fold_left]. by rewrite fold_left_app, IH. Qed.

Lemma number_chunks_ok chunks supports : numbers_ok chunks (cited_chunks chunks supports) (number_chunks chunks supports).
Proof.
  unfold number_chunks, cited_chunks, first_seen. rewrite fold_left_flat_map. apply number_fold_ok.
  split_and!; [constructor|constructor|done].
Qed.

(** The chunk of an index; [None] for one out of range *)
Definition chunk_at (chunks : list (option GroundingChunkWeb)) (idx : N) : option GroundingChunkWeb := mjoin (chunks !! N.to_nat idx).

Lemma ref_entries_ok chunks l :
  Forall (fun e => (e.1 < N.of_nat (length chunks))%N) l -> ref_entries chunks l = Ok (map (fun e => (e.2, chunk_at chunks e.1)) l).
Proof.
  induction 1 as [|[idx num] l Hlt Hl IH]; [done|]. cbn [ref_entries map fst snd] in *. unfold index, chunk_at.
  destruct (lookup_lt_is_Some_2 chunks (N.to_nat idx)) as [c E]; [lia|]. rewrite E. cbn. rewrite IH. done.
Qed.

Definition references (chunks : list (option GroundingChunkWeb)) (order : list N) : list (N * option GroundingChunkWeb) :=
  imap (fun i idx => (N.of_nat i + 1, chunk_at chunks idx)%N) order.

Lemma references_sorted chunks order k :
  StronglySorted (key_le fst) (imap (fun i idx => (N.of_nat (k + i) + 1, chunk_at chunks idx)%N) order).
Proof.
  revert k. induction order as [|idx order IH]; intros k; cbn [imap]; [constructor|]. constructor.
  - specialize (IH (S k)). erewrite imap_ext; [exact IH|]. intros i x _. cbn. by rewrite Nat.add_succ_r.
  - apply Forall_forall. intros e (i & x & -> & _)%elem_of_lookup_imap_1. unfold key_le. cbn. lia.
Qed.

Lemma references_listed chunks order m :
  numbers_ok (length chunks) order m ->
  exists entries, ref_entries chunks (map_to_list m) = Ok entries /\ stable_sort fst entries = references chunks order.
Proof.
  intros (Hn & Hf & Hp). eexists. split.
  - apply ref_entries_ok. rewrite Hp. apply Forall_forall. intros e (i & x & -> & Hx)%elem_of_lookup_imap_1. cbn.
    by eapply Forall_lookup_1 in Hf.
  - apply stable_sort_unique.
    + rewrite Hp. unfold numbered, references. change (map ?f ?l) with (f <$> l). by rewrite fmap_imap.
    + exact (references_sorted chunks order 0).
    + intros x y (i & a & -> & Ha)%elem_of_lookup_imap_1 (j & b & -> & Hb)%elem_of_lookup_imap_1. cbn. intros Hij.
      assert (i = j) as -> by lia. by simplify_eq.
Qed.

(** *** The places of the markers *)

Definition markers_in (p : N -> bool) (ins : list (N * str)) : str := flat_map snd (List.filter (fun e => p e.1) ins).

(** The text with the markers of [ins]: before a character those whose offset is inside
    it or at its start, at the end the others.  The text starts at the offset [b]. *)
Fixpoint weave (b : N) (text : str) (ins : list (N * str)) : str :=
  match text with
  | [] => markers_in (fun off => b <=? off)%N ins
  | c :: text => markers_in (fun off => (b <=? off) && (off <? b + char_len c))%N ins ++ c :: weave (b + char_len c) text ins
  end.

(** The offsets that belong to the first place of a text that starts at [b] *)
Definition at_start (b : N) (text : str) (off : N) : Prop :=
  (b <= off)%N /\ match text with [] => True | c :: _ => (off < b + char_len c)%N end.

Lemma markers_none p ins : Forall (fun e => p e.1 = false) ins -> markers_in p ins = [].
Proof. unfold markers_in. induction 1 as [|e ins He _ IH]; [done|]. cbn [List.filter]. by rewrite He. Qed.

Lemma weave_nil b text : weave b text [] = text.
Proof. revert b. induction text as [|c text IH]; intros b; [done|]. cbn [weave]. by rewrite IH. Qed.

Lemma weave_skip b mid text ins :
  Forall (fun e => b + str_len mid <= e.1)%N ins -> weave b (mid ++ text) ins = mid ++ weave (b + str_len mid) text ins.
Proof.
  revert b. induction mid as [|c mid IH]; intros b Hins; [by rewrite N.add_0_r|]. rewrite str_len_cons in Hins |- *. cbn [app weave].
  rewrite markers_none, IH, N.add_assoc.
  - done.
  - eapply Forall_impl; [exact Hins|]. cbn. intros e. lia.
  - eapply Forall_impl; [exact Hins|]. cbn. intros e He. apply andb_false_iff. right. apply N.ltb_ge. lia.
Qed.

Lemma weave_later b text e ins : (e.1 < b)%N -> weave b text (e :: ins) = weave b text ins.
Proof.
  revert b. induction text as [|c text IH]; intros b Hlt; cbn [weave]; unfold markers_in; cbn [List.filter];
    rewrite (proj2 (N.leb_gt _ _)) by done; [done|]. cbn [andb]. rewrite IH by lia. done.
Qed.

Lemma weave_here b text off marker ins : at_start b text off -> weave b text ((off, marker) :: ins) = marker ++ weave b text ins.
Proof.
  intros [Hle Hlt]. destruct text as [|c text]; cbn [weave]; unfold markers_in at 1; cbn [List.filter fst].
  - by rewrite (proj2 (N.leb_le _ _)).
  - rewrite (proj2 (N.leb_le _ _)), (proj2 (N.ltb_lt _ _)) by done. cbn [andb flat_map snd]. by rewrite weave_later, <- app_assoc.
Qed.

(** *** Character boundaries *)

Lemma boundary_at pre text : is_char_boundary (str_len pre) (pre ++ text) = true.
Proof. unfold is_char_boundary. by rewrite bytes_to_app. Qed.

Lemma not_boundary pre c text n :
  (str_len pre < n < str_len pre + char_len c)%N -> is_char_boundary n (pre ++ c :: text) = false.
Proof.
  revert n. induction pre as [|d pre IH]; intros n Hn; unfold is_char_boundary; cbn [app bytes_to].
  - change (str_len []) with 0%N in Hn. rewrite (proj2 (N.eqb_neq _ _)), (proj2 (N.leb_gt _ _)) by lia. done.
  - rewrite str_len_cons in Hn. rewrite (proj2 (N.eqb_neq _ _)), (proj2 (N.leb_le _ _)) by lia.
    specialize (IH (n - char_len d)%N ltac:(lia)). unfold is_char_boundary in IH. by destruct (bytes_to _ (pre ++ c :: text)).
Qed.

Lemma last_boundary_at pre c text k :
  (N.of_nat k < char_len c)%N -> last_boundary (N.to_nat (str_len pre) + k) (pre ++ c :: text) = Some (str_len pre).
Proof.
  induction k as [|k IH]; intros Hk.
  - rewrite Nat.add_0_r. destruct (N.to_nat (str_len pre)) eqn:E; cbn [last_boundary]; rewrite <- E, N2Nat.id, boundary_at; done.
  - rewrite Nat.add_succ_r. cbn [last_boundary]. rewrite not_boundary by lia. apply IH. lia.
Qed.

(** The place of an offset: the last boundary that is not after it *)
Lemma safe_end_place pre rest off :
  (str_len pre <= off <= str_len (pre ++ rest))%N ->
  exists mid rest', rest = mid ++ rest' /\ safe_end_of (pre ++ rest) off = (str_len pre + str_len mid)%N /\
    at_start (str_len pre + str_len mid) rest' off.
Proof.
  revert pre. induction rest as [|c rest IH]; intros pre Hoff.
  - exists [], []. rewrite app_nil_r in Hoff. assert (off = str_len pre) as -> by lia. change (str_len []) with 0%N.
    rewrite N.add_0_r. split_and!; [done| |split; [lia|done]]. unfold safe_end_of.
    rewrite str_len_app, N.min_l by lia. by rewrite boundary_at.
  - destruct (decide (off < str_len pre + char_len c)%N) as [Hlt|Hge].
    + exists [], (c :: rest). change (str_len []) with 0%N. rewrite N.add_0_r. split_and!; [done| |split; [lia|done]].
      unfold safe_end_of. rewrite N.min_l by lia. destruct (decide (off = str_len pre)) as [->|Hne]; [by rewrite boundary_at|].
      rewrite not_boundary by lia. replace (N.to_nat off) with (N.to_nat (str_len pre) + N.to_nat (off - str_len pre)) by lia.
      by rewrite last_boundary_at by lia.
    + destruct (IH (pre ++ [c])) as (mid & rest' & -> & He & Hat).
      { rewrite <- app_assoc. cbn [app]. rewrite str_len_app, str_len_cons. change (str_len []) with 0%N. lia. }
      exists (c :: mid), rest'. rewrite <- app_assoc in He. cbn [app] in He. split_and!; [done| |].
      * rewrite He. rewrite str_len_app, !str_len_cons. change (str_len []) with 0%N. lia.
      * rewrite str_len_app, str_len_cons in Hat. rewrite str_len_cons. change (str_len []) with 0%N in Hat.
        by rewrite N.add_0_r, <- N.add_assoc in Hat.
Qed.

Lemma place_markers_weave ins : forall pre rest result,
  StronglySorted (key_le fst) ins -> Forall (fun e => str_len pre <= e.1 <= str_len (pre ++ rest))%N ins ->
  place_markers (pre ++ rest) (str_len pre) ins result = Ok (result ++ weave (str_len pre) rest ins).
Proof.
  induction ins as [|[off marker] ins IH]; intros pre rest result Hs Hf; cbn [place_markers].
  - rewrite weave_nil, str_len_app. destruct (N.ltb_spec (str_len pre) (str_len pre + str_len rest)) as [|Hge].
    + by rewrite bytes_from_app.
    + rewrite (str_len_nil_inv rest) by lia. by rewrite app_nil_r.
  - apply StronglySorted_cons in Hs as [Hle Hs]. apply Forall_cons in Hf as [Hoff Hf].
    destruct (safe_end_place pre rest off Hoff) as (mid & rest' & -> & He & Hat). rewrite He.
    assert (Forall (fun e => str_len (pre ++ mid) <= e.1 <= str_len ((pre ++ mid) ++ rest'))%N ins) as Hf'.
    { apply Forall_forall. intros e Hin. rewrite Forall_forall in Hle, Hf. specialize (Hle e Hin). specialize (Hf e Hin).
      unfold key_le in Hle. destruct Hat as [Hat _]. rewrite <- app_assoc, (str_len_app pre mid). cbn in *. lia. }
    assert ((if (str_len pre <? str_len pre + str_len mid)%N
             then let? r := unwrap (bytes_from (str_len pre) (pre ++ mid ++ rest')) in unwrap (bytes_to (str_len pre + str_len mid - str_len pre) r)
             else Ok []) = Ok (E := False) mid) as ->.
    { destruct (N.ltb_spec (str_len pre) (str_len pre + str_len mid)) as [|Hge].
      - rewrite bytes_from_app. cbn [unwrap comp_bind]. replace (_ + _ - _)%N with (str_len mid) by lia. by rewrite bytes_to_app.
      - by rewrite (str_len_nil_inv mid) by lia. }
    cbn [comp_bind]. rewrite app_assoc, <- str_len_app, IH by done. f_equal. rewrite <- !app_assoc. f_equal.
    rewrite weave_skip.
    + rewrite <- str_len_app in Hat |- *. by rewrite weave_here.
    + constructor; [by destruct Hat|]. eapply Forall_impl; [exact Hf'|]. cbn. rewrite (str_len_app pre mid). intros e. lia.
Qed.

(** *** Markers at one offset *)

Lemma markers_app p a b : markers_in p (a ++ b) = markers_in p a ++ markers_in p b.
Proof. unfold markers_in. by rewrite List.filter_app, flat_map_app. Qed.

Lemma merge_fold_markers p l merged :
  markers_in p (rev (fold_left merge_insertion l merged)) = markers_in p (rev merged ++ l).
Proof.
  revert merged. induction l as [|ins l IH]; intros merged; [by rewrite app_nil_r|]. cbn [fold_left]. rewrite IH.
  destruct merged as [|[off m] rest]; [done|]. cbn [merge_insertion]. destruct (N.eqb_spec off ins.1) as [->|].
  - cbn [rev]. rewrite <- !app_assoc, !(markers_app _ (rev rest)). f_equal. unfold markers_in. cbn [app List.filter fst].
    destruct (p ins.1); [|done]. cbn [flat_map snd]. by rewrite <- app_assoc.
  - cbn [rev]. by rewrite <- !app_assoc.
Qed.

Lemma merge_fold_sorted l merged :
  StronglySorted (key_le fst) (rev merged ++ l) -> StronglySorted (key_le fst) (rev (fold_left merge_insertion l merged)).
Proof.
  revert merged. induction l as [|ins l IH]; intros merged Hs; [by rewrite app_nil_r in Hs|]. cbn [fold_left]. apply IH.
  destruct merged as [|[off m] rest]; [done|]. cbn [merge_insertion]. destruct (N.eqb_spec off ins.1) as [->|]; cbn [rev] in *;
    rewrite <- !app_assoc in *; [|done]. cbn [app] in *. apply StronglySorted_app in Hs as (Hlt & H1 & H2).
  apply StronglySorted_cons in H2 as [_ [H3 H4]%StronglySorted_cons].
  apply StronglySorted_app. split_and!; [|done|by constructor]. intros x y Hx [->|Hy]%elem_of_cons.
  - apply (Hlt x ins Hx). set_solver.
  - apply (Hlt x y Hx). set_solver.
Qed.

Lemma merge_fold_keys (P : N -> Prop) l merged :
  Forall (fun e => P e.1) merged -> Forall (fun e => P e.1) l -> Forall (fun e => P e.1) (fold_left merge_insertion l merged).
Proof.
  intros Hm Hl. revert merged Hm. induction Hl as [|ins l Hi Hl IH]; intros merged Hm; [done|]. cbn [fold_left]. apply IH.
  destruct Hm as [|[off m] rest]; cbn [merge_insertion]; [by repeat constructor|]. case_match; by repeat constructor.
Qed.

Lemma weave_ext b text ins ins' : (forall p, markers_in p ins = markers_in p ins') -> weave b text ins = weave b text ins'.
Proof. intros H. revert b. induction text as [|c text IH]; intros b; cbn [weave]; [done|]. by rewrite H, IH. Qed.

Lemma merged_weave text ins :
  StronglySorted (key_le fst) ins -> Forall (fun e => e.1 <= str_len text)%N ins ->
  place_markers text 0 (merge_insertions ins) [] = Ok (weave 0 text ins).
Proof.
  intros Hs Hf. change 0%N with (str_len []). change text with ([] ++ text) at 1. unfold merge_insertions.
  rewrite place_markers_weave; [| by apply merge_fold_sorted|].
  - cbn [app]. f_equal. apply weave_ext. intros p. by rewrite merge_fold_markers.
  - apply Forall_rev. apply (merge_fold_keys (fun off => str_len [] <= off <= str_len ([] ++ text))%N); [constructor|].
    eapply Forall_impl; [exact Hf|]. cbn. change (str_len []) with 0%N. intros e. lia.
Qed.

(** *** The annotated text *)

Definition cited_supports (meta : GroundingMetadata) : list GroundingSupport :=
  stable_sort (fun s => default 0%N (segment_end s)) (grounding_supports meta).

(** The offsets and markers of the supports *)
Definition citation_marks (text : str) (meta : GroundingMetadata) : list (N * str) :=
  let chunks := length (grounding_chunks meta) in
  stable_sort fst (omap (insertion_of chunks (number_chunks chunks (cited_supports meta)) (str_len text)) (cited_supports meta)).

Lemma citation_marks_inside text meta : Forall (fun e => e.1 <= str_len text)%N (citation_marks text meta).
Proof.
  unfold citation_marks. rewrite stable_sort_perm. apply Forall_forall. intros e (s & _ & Hs)%list_elem_of_omap.
  unfold insertion_of in Hs. destruct (marker_of _ _ _); [done|]. injection Hs as <-. cbn. destruct (segment_end s); lia.
Qed.

(** The text, and behind it the chunks in the order of their first citation *)
Definition annotated (text : str) (meta : GroundingMetadata) : str :=
  if bool_decide (grounding_chunks meta = []) || bool_decide (grounding_supports meta = []) then text
  else weave 0 text (citation_marks text meta) ++ [nl; nl] ++ &"References:" ++
       flat_map reference_line (references (grounding_chunks meta) (cited_chunks (length (grounding_chunks meta)) (cited_supports meta))).

(** A text with citations is the text with every marker behind its segment, at the last
    character boundary, and the list of the chunks; the number in a marker is the place of
    its chunk in the list. *)
Theorem citations_placed text meta :
  let chunks := length (grounding_chunks meta) in
  annotate_with_citations text meta = Ok (annotated text meta) /\
  (forall idx n, number_chunks chunks (cited_supports meta) !! idx = Some n <->
     exists i, cited_chunks chunks (cited_supports meta) !! i = Some idx /\ n = (N.of_nat i + 1)%N).
Proof.
  intros chunks. pose proof (number_chunks_ok chunks (cited_supports meta)) as Hok. split.
  - unfold annotate_with_citations, annotated. destruct (_ || _); [done|].
    fold (cited_supports meta). fold (citation_marks text meta).
    rewrite (merged_weave text (citation_marks text meta)); [|apply stable_sort_sorted|apply citation_marks_inside].
    destruct (references_listed _ _ _ Hok) as (entries & He & Hr). fold chunks. rewrite He. cbn [comp_bind]. by rewrite Hr.
  - intros idx n. destruct Hok as (_ & _ & Hp). rewrite <- elem_of_map_to_list, Hp. unfold numbered.
    rewrite elem_of_lookup_imap. split; [intros (i & x & [= -> ->] & Hx)|intros (i & Hx & ->)]; eauto.
Qed.

(** ** The stream *)

Definition gemini_finish_to_stop_reason `{RequestEnv} (reason : FinishReason) : str :=
  match reason with
  | FinishStop => &"end_turn"
  | FinishMaxTokens => &"max_tokens"
  | FinishSafety => &"safety"
  | FinishRecitation => &"recitation"
  | FinishMalformedFunctionCall => &"malformed_function_call"
  | FinishLanguage => &"language"
  | FinishOther => &"other"
  | FinishBlocklist => &"blocklist"
  | FinishProhibitedContent => &"prohibited_content"
  | FinishSpii => &"spii"
  | FinishImageSafety => &"image_safety"
  | FinishUnknown other => to_lowercase other
  end.

(** The local variables of the task; [g_calls] counts its calls of [generate_call_id]. *)
Record GeminiState := {
  g_response_id : str;
  g_usage : option WireTokenUsage;
  g_stop : option str;
  g_created : bool;
  g_item_added : bool;
  g_text : str;
  g_reasoning : bool;
  g_grounding : GroundingMetadata;
  g_calls : nat
}.

Definition no_grounding : GroundingMetadata := {| grounding_chunks := []; grounding_supports := []; web_search_queries := [] |}.
Definition gemini_start : GeminiState :=
  {| g_response_id := []; g_usage := None; g_stop := None; g_created := false; g_item_added := false; g_text := [];
     g_reasoning := false; g_grounding := no_grounding; g_calls := 0 |}.

Definition set_reasoning (st : GeminiState) : GeminiState :=
  {| g_response_id := g_response_id st; g_usage := g_usage st; g_stop := g_stop st; g_created := g_created st;
     g_item_added := g_item_added st; g_text := g_text st; g_reasoning := true; g_grounding := g_grounding st; g_calls := g_calls st |}.
Definition set_text (text : str) (st : GeminiState) : GeminiState :=
  {| g_response_id := g_response_id st; g_usage := g_usage st; g_stop := g_stop st; g_created := g_created st;
     g_item_added := true; g_text := text; g_reasoning := g_reasoning st; g_grounding := g_grounding st; g_calls := g_calls st |}.
Definition next_call (st : GeminiState) : GeminiState :=
  {| g_response_id := g_response_id st; g_usage := g_usage st; g_stop := g_stop st; g_created := g_created st;
     g_item_added := g_item_added st; g_text := g_text st; g_reasoning := g_reasoning st; g_grounding := g_grounding st;
     g_calls := S (g_calls st) |}.
Definition set_grounding (g : GroundingMetadata) (st : GeminiState) : GeminiState :=
  {| g_response_id := g_response_id st; g_usage := g_usage st; g_stop := g_stop st; g_created := g_created st;
     g_item_added := g_item_added st; g_text := g_text st; g_reasoning := g_reasoning st; g_grounding := g; g_calls := g_calls st |}.
Definition set_stop (stop : str) (st : GeminiState) : GeminiState :=
  {| g_response_id := g_response_id st; g_usage := g_usage st; g_stop := Some stop; g_created := g_created st;
     g_item_added := g_item_added st; g_text := g_text st; g_reasoning := g_reasoning st; g_grounding := g_grounding st;
     g_calls := g_calls st |}.
Definition set_usage (u : WireTokenUsage) (st : GeminiState) : GeminiState :=
  {| g_response_id := g_response_id st; g_usage := Some u; g_stop := g_stop st; g_created := g_created st;
     g_item_added := g_item_added st; g_text := g_text st; g_reasoning := g_reasoning st; g_grounding := g_grounding st;
     g_calls := g_calls st |}.
(** The first identifier that is not empty stays. *)
Definition first_id (id : str) (o : option str) : str := match id, o with [], Some rid => rid | id, _ => id end.
Definition chunk_seen (rid : option str) (st : GeminiState) : GeminiState :=
  {| g_response_id := first_id (g_response_id st) rid;
     g_usage := g_usage st; g_stop := g_stop st; g_created := true; g_item_added := g_item_added st; g_text := g_text st;
     g_reasoning := g_reasoning st; g_grounding := g_grounding st; g_calls := g_calls st |}.

Definition MAX_ACCUMULATED_BYTES : N := 4 * 1024 * 1024.

(** A piece that does not fit is left out. *)
Definition push_capped (text piece : str) : str :=
  if (str_len text + str_len piece <=? MAX_ACCUMULATED_BYTES)%N then text ++ piece else text.

Definition gemini_reasoning (id : str) (raw : option Value) : ResponseItem := Reasoning (Some id) [] None None None raw.
Definition added (item : ResponseItem) : sent := inr (OutputItemAdded item).
Definition done_ (item : ResponseItem) : sent := inr (OutputItemDone item).
Definition stream_error (message : str) : sent := inl (ApiStream message).

Definition thought_block (text sig : str) : Value := obj [(&"text", VString text); (&"thoughtSignature", VString sig)].
Definition signed_call_block (fc : GeminiFunctionCall) (sig : str) : Value :=
  obj [(&"functionCall", obj [(&"name", VString (fc_name fc)); (&"args", default Null (fc_args fc))]); (&"thoughtSignature", VString sig)].

(** Nothing looks at the result of a send, so a receiver that is gone changes nothing of
    what follows; the lists are what is sent. *)
Section gemini_stream.
Context {codec : ValueText} {env : RequestEnv}.
(** What the [n]-th load and the [n]-th [fetch_add] of this task see of [CALL_COUNTER],
    which all streams of the process share *)
Context (counter_load counter_add : nat -> N).
(** The time in nanoseconds, as sixteen hexadecimal digits *)
Context (now_hex : str).
Context (debug : bool).
(** [serde_json::from_str] of a struct refuses a text that gives a field twice, which the
    [Value] of the text does not show. *)
Context (repeats_field : str -> bool).

Definition call_id_of (n : nat) : str := &"gemini_call_" ++ show_N (counter_add n).
Definition call_arguments (fc : GeminiFunctionCall) : str := match fc_args fc with Some a => value_to_string a | None => &"{}" end.

Definition thought_text (p : Part) : str := match payload p with PartText t => t | _ => [] end.

Definition on_thought (p : Part) (st : GeminiState) : list sent * GeminiState :=
  let text := thought_text p in
  let '(out, st) := match text with
    | [] => ([], st)
    | _ => ((if g_reasoning st then [] else [added (gemini_reasoning (&"gemini_reasoning_0") None)]) ++ [inr (ReasoningSummaryDelta text 0)],
            set_reasoning st)
    end in
  (out ++ match thought_signature p with
          | Some sig => [done_ (gemini_reasoning (&"gemini_reasoning_0") (Some (thought_block text sig)))]
          | None => []
          end, st).

Definition on_text (text : str) (st : GeminiState) : list sent * GeminiState :=
  match text with
  | [] => ([], st)
  | _ => ((if g_item_added st then [] else [added (Message None (&"assistant") [] None)]) ++ [inr (OutputTextDelta text)],
          set_text (push_capped (g_text st) text) st)
  end.

Definition on_function_call (fc : GeminiFunctionCall) (sig : option str) (st : GeminiState) : list sent * GeminiState :=
  let signed := match sig with
    | Some sig =>
        let item := gemini_reasoning (&"gemini_sig_" ++ show_N (counter_load (g_calls st))) (Some (signed_call_block fc sig)) in
        [added item; done_ item]
    | None => []
    end in
  let item := call_item (call_id_of (g_calls st)) (fc_name fc) (call_arguments fc) in
  (signed ++ [added item; done_ item], next_call st).

Definition on_part (p : Part) (st : GeminiState) : list sent * GeminiState :=
  if thought p then on_thought p st
  else
    match payload p with
    | PartText text => on_text text st
    | PartFunctionCall fc => on_function_call fc (thought_signature p) st
    | _ => ([], st)
    end.

Fixpoint on_parts (ps : list Part) (st : GeminiState) : list sent * GeminiState :=
  match ps with
  | [] => ([], st)
  | p :: ps => let '(out, st) := on_part p st in let '(out', st) := on_parts ps st in (out ++ out', st)
  end.

Definition merge_grounding (g new : GroundingMetadata) : GroundingMetadata :=
  {| grounding_chunks := match grounding_chunks new with [] => grounding_chunks g | l => l end;
     grounding_supports := match grounding_supports new with [] => grounding_supports g | l => l end;
     web_search_queries := match web_search_queries new with [] => web_search_queries g | l => l end |}.

Definition is_blocked (r : SafetyRating) : bool := match blocked r with Some true => true | _ => false end.

(** The first rating that blocks *)
Definition safety_block (c : Candidate) : option str :=
  option_map (fun r => &"Gemini safety filter blocked response: " ++ default (&"UNKNOWN") (category r))
    (List.find is_blocked (default [] (safety_ratings c))).

(** What a finish reason leads to: an error, or a stop reason *)
Definition on_finish (c : Candidate) (reason : FinishReason) : str + str :=
  match reason with
  | FinishSafety =>
      inl (match omap category (List.filter is_blocked (default [] (safety_ratings c))) with
           | [] => &"Gemini response blocked: SAFETY"
           | cs => &"Gemini safety filter blocked response (" ++ join (&", ") cs ++ &")"
           end)
  | FinishRecitation | FinishBlocklist | FinishProhibitedContent | FinishSpii | FinishImageSafety =>
      inl (&"Gemini response blocked: " ++ finish_wire_str reason)
  | FinishMalformedFunctionCall => inl (&"Gemini emitted malformed function call (likely schema mismatch)")
  | FinishLanguage => inl (&"Gemini refused: unsupported language")
  | FinishStop | FinishMaxTokens | FinishOther | FinishUnknown _ => inr (gemini_finish_to_stop_reason reason)
  end.

(** The state after the candidate, [None] after a [return] *)
Definition on_candidate (c : Candidate) (st : GeminiState) : list sent * option GeminiState :=
  match safety_block c with
  | Some message => ([stream_error message], None)
  | None =>
      let '(out, st) := match content c with Some parts => on_parts parts st | None => ([], st) end in
      let st := match grounding_metadata c with Some gm => set_grounding (merge_grounding (g_grounding st) gm) st | None => st end in
      match finish_reason c with
      | Some reason =>
          match on_finish c reason with
          | inl message => (out ++ [stream_error message], None)
          | inr stop => (out, Some (set_stop stop st))
          end
      | None => (out, Some st)
      end
  end.

Definition count (o : option N) : Z := Z.of_N (default 0%N o).
Definition raw_usage (u : UsageMetadata) : RawUsage :=
  cache_inclusive_prompt (count (prompt_token_count u)) (count (cached_content_token_count u)) 0 (count (candidates_token_count u))
    (count (thoughts_token_count u)) (count (total_token_count u)).

Definition on_chunk (chunk : GenerateContentResponse) (st : GeminiState) : comp False (list sent * option GeminiState) :=
  let created := if g_created st then [] else [inr Created : sent] in
  let st := chunk_seen (chunk_response_id chunk) st in
  let '(out, st) := match candidates chunk with c :: _ => on_candidate c st | [] => ([], Some st) end in
  match st with
  | None => Ok (created ++ out, None)
  | Some st =>
      match usage_metadata chunk with
      | Some u => let? usage := normalize_token_usage debug (raw_usage u) in Ok (created ++ out, Some (set_usage usage st))
      | None => Ok (created ++ out, Some st)
      end
  end.

(** After the loop *)
Definition gemini_end (st : GeminiState) : comp False (list sent) :=
  let id := match g_response_id st with [] => &"gemini-" ++ now_hex | id => id end in
  let? message := match g_text st with
    | [] => Ok []
    | text =>
        let? final_text := if bool_decide (grounding_chunks (g_grounding st) = []) then Ok text
                           else annotate_with_citations text (g_grounding st) in
        Ok [done_ (text_item final_text)]
    end in
  Ok (message ++ [inr (Completed (g_stop st) id (g_usage st) (option_map (fun r => str_eqb r (&"end_turn")) (g_stop st)))]).

Definition decode_chunk (data : str) : option GenerateContentResponse :=
  if bool_decide (data = []) || str_eqb data (&"[DONE]") || repeats_field data then None
  else value_from_str data ≫= de_response.

Fixpoint gemini_loop (items : list SseItem) (st : GeminiState) : comp False (list sent) :=
  match items with
  | [] => gemini_end st
  | IdleTimeout :: _ =>
      let? out := gemini_end st in
      Ok (match g_stop st with None => [stream_error (&"Gemini stream idle timeout")] | Some _ => [] end ++ out)
  | SseError message :: _ => Ok [stream_error (&"Gemini SSE error: " ++ message)]
  | SseData data :: items =>
      match decode_chunk data with
      | None => gemini_loop items st
      | Some chunk =>
          let? '(out, st) := on_chunk chunk st in
          match st with
          | None => Ok out
          | Some st => let? out' := gemini_loop items st in Ok (out ++ out')
          end
      end
  end.

Definition process_generate_content_sse (items : list SseItem) : comp False (list sent) := gemini_loop items gemini_start.

(** ** What a stream says

    The chunks up to the end, and how it ends *)
Inductive stream_end := AtEof | AtTimeout | AtError (message : str).
Fixpoint read_stream (items : list SseItem) : list GenerateContentResponse * stream_end :=
  match items with
  | [] => ([], AtEof)
  | IdleTimeout :: _ => ([], AtTimeout)
  | SseError message :: _ => ([], AtError message)
  | SseData data :: items =>
      let '(chunks, e) := read_stream items in (match decode_chunk data with Some c => c :: chunks | None => chunks end, e)
  end.

Definition candidate_of (chunk : GenerateContentResponse) : option Candidate := head (candidates chunk).
Definition parts_of (chunk : GenerateContentResponse) : list Part := default [] (candidate_of chunk ≫= content).

(** Why a chunk ends the stream before its parts are heard: its first rating that blocks *)
Fixpoint blocking_category (ratings : list SafetyRating) : option str :=
  match ratings with
  | [] => None
  | r :: rs => match blocked r with Some true => Some (default (&"UNKNOWN") (category r)) | _ => blocking_category rs end
  end.
Definition blocked_before (chunk : GenerateContentResponse) : option str :=
  c ← candidate_of chunk;
  category ← blocking_category (default [] (safety_ratings c));
  Some (&"Gemini safety filter blocked response: " ++ category).

(** The finish reasons that are refusals, and how they are reported; and the stop reasons
    that the others stand for *)
Definition refusal (reason : FinishReason) : option str :=
  match reason with
  | FinishSafety => Some (&"Gemini response blocked: SAFETY")
  | FinishRecitation => Some (&"Gemini response blocked: RECITATION")
  | FinishBlocklist => Some (&"Gemini response blocked: BLOCKLIST")
  | FinishProhibitedContent => Some (&"Gemini response blocked: PROHIBITED_CONTENT")
  | FinishSpii => Some (&"Gemini response blocked: SPII")
  | FinishImageSafety => Some (&"Gemini response blocked: IMAGE_SAFETY")
  | FinishMalformedFunctionCall => Some (&"Gemini emitted malformed function call (likely schema mismatch)")
  | FinishLanguage => Some (&"Gemini refused: unsupported language")
  | FinishStop | FinishMaxTokens | FinishOther | FinishUnknown _ => None
  end.
Definition stop_name (reason : FinishReason) : option str :=
  match reason with
  | FinishStop => Some (&"end_turn")
  | FinishMaxTokens => Some (&"max_tokens")
  | FinishOther => Some (&"other")
  | FinishUnknown other => Some (to_lowercase other)
  | _ => None
  end.
Definition refused_after (chunk : GenerateContentResponse) : option str := c ← candidate_of chunk; finish_reason c ≫= refusal.
Definition stop_of (chunk : GenerateContentResponse) : option str := c ← candidate_of chunk; finish_reason c ≫= stop_name.

Lemma safety_block_category c :
  safety_block c = (category ← blocking_category (default [] (safety_ratings c)); Some (&"Gemini safety filter blocked response: " ++ category)).
Proof.
  unfold safety_block. induction (default [] (safety_ratings c)) as [|r rs IH]; [done|]. cbn [List.find blocking_category].
  unfold is_blocked at 1. destruct (blocked r) as [[]|]; done.
Qed.

(** The categories that the code would name are those of ratings that block, and with such a
    rating the finish reason is not looked at. *)
Lemma on_finish_spec c reason : safety_block c = None ->
  on_finish c reason = match refusal reason, stop_name reason with Some message, _ => inl message | None, Some stop => inr stop | None, None => inr [] end.
Proof.
  intros Hs. destruct reason; try done. unfold on_finish. unfold safety_block in Hs.
  assert (List.filter is_blocked (default [] (safety_ratings c)) = []) as ->; [|done].
  induction (default [] (safety_ratings c)) as [|r rs IH]; [done|]. cbn [List.find List.filter] in *. by destruct (is_blocked r); [|apply IH].
Qed.

(** The parts up to a refusal, and the refusal *)
Fixpoint heard (chunks : list GenerateContentResponse) : list Part * option str :=
  match chunks with
  | [] => ([], None)
  | c :: cs =>
      match blocked_before c, refused_after c with
      | Some message, _ => ([], Some message)
      | None, Some message => (parts_of c, Some message)
      | None, None => let '(ps, r) := heard cs in (parts_of c ++ ps, r)
      end
  end.

(** The items that a part finishes, if [n] calls came before it *)
Definition part_items (n : nat) (p : Part) : list ResponseItem :=
  if thought p then
    match thought_signature p with
    | Some sig => [gemini_reasoning (&"gemini_reasoning_0") (Some (thought_block (thought_text p) sig))]
    | None => []
    end
  else
    match payload p with
    | PartFunctionCall fc =>
        match thought_signature p with
        | Some sig => [gemini_reasoning (&"gemini_sig_" ++ show_N (counter_load n)) (Some (signed_call_block fc sig))]
        | None => []
        end ++ [call_item (call_id_of n) (fc_name fc) (call_arguments fc)]
    | _ => []
    end.
Definition is_call (p : Part) : bool := negb (thought p) && match payload p with PartFunctionCall _ => true | _ => false end.
Definition calls_in (ps : list Part) : nat := length (List.filter is_call ps).
Fixpoint parts_items (n : nat) (ps : list Part) : list ResponseItem :=
  match ps with [] => [] | p :: ps => part_items n p ++ parts_items (n + calls_in [p]) ps end.

(** The text of a part that is not a thought *)
Definition spoken_text (p : Part) : str := if thought p then [] else match payload p with PartText t => t | _ => [] end.
Definition thought_of (p : Part) : str := if thought p then thought_text p else [].

Definition text_delta (x : sent) : str := match x with inr (OutputTextDelta d) => d | _ => [] end.
Definition summary_delta (x : sent) : str := match x with inr (ReasoningSummaryDelta d _) => d | _ => [] end.
(** Neither an error nor the end *)
Definition in_progress (x : sent) : bool := match x with inl _ | inr (Completed _ _ _ _) => false | _ => true end.

(** What events say of parts, the first of which has [n] calls before it *)
Definition tells (n : nat) (ps : list Part) (out : list sent) : Prop :=
  omap item_done out = parts_items n ps /\
  flat_map text_delta out = flat_map spoken_text ps /\
  flat_map summary_delta out = flat_map thought_of ps /\
  forallb in_progress out = true.

Lemma parts_items_app n a b : parts_items n (a ++ b) = parts_items n a ++ parts_items (n + calls_in a) b.
Proof.
  revert n. induction a as [|p a IH]; intros n; cbn [app parts_items]; [by rewrite Nat.add_0_r|].
  rewrite IH, app_assoc. f_equal. f_equal. unfold calls_in. cbn [List.filter]. destruct (is_call p); cbn [length]; lia.
Qed.

Lemma tells_nil n : tells n [] [].
Proof. done. Qed.

Lemma tells_app n a b out out' : tells n a out -> tells (n + calls_in a) b out' -> tells n (a ++ b) (out ++ out').
Proof.
  intros (H1 & H2 & H3 & H4) (G1 & G2 & G3 & G4). unfold tells.
  by rewrite omap_app, parts_items_app, !flat_map_app, forallb_app, H1, H2, H3, H4, G1, G2, G3, G4.
Qed.

(** What a part leaves of the state *)
Definition after_parts (ps : list Part) (st st' : GeminiState) : Prop :=
  g_text st' = foldl push_capped (g_text st) (map spoken_text ps) /\ g_calls st' = g_calls st + calls_in ps /\
  g_response_id st' = g_response_id st /\ g_usage st' = g_usage st /\ g_stop st' = g_stop st /\ g_created st' = g_created st /\
  g_grounding st' = g_grounding st.

Lemma push_nothing text : push_capped text [] = text.
Proof. unfold push_capped. rewrite app_nil_r. by case_match. Qed.

Lemma on_part_tells p st :
  tells (g_calls st) [p] (on_part p st).1 /\ after_parts [p] st (on_part p st).2.
Proof.
  destruct p as [pl th sig]. unfold on_part, tells, after_parts, parts_items, part_items, calls_in, is_call, spoken_text, thought_of, thought_text.
  cbn [thought payload thought_signature flat_map map foldl List.filter]. destruct th; cbn [negb andb].
  - rewrite push_nothing. unfold on_thought, thought_text. cbn [payload thought_signature].
    destruct pl as [[|c t]|fc| | | | | | |]; cbn; rewrite ?Nat.add_0_r, ?app_nil_r;
      try (by destruct sig); destruct (g_reasoning st), sig; cbn; by rewrite ?app_nil_r.
  - destruct pl as [[|c t]|fc| | | | | | |]; cbn; rewrite ?push_nothing, ?Nat.add_0_r; try done.
    + destruct (g_item_added st); cbn; rewrite ?app_nil_r; done.
    + unfold on_function_call. destruct sig; cbn; rewrite ?Nat.add_1_r; done.
Qed.

Lemma on_parts_tells ps st : tells (g_calls st) ps (on_parts ps st).1 /\ after_parts ps st (on_parts ps st).2.
Proof.
  revert st. induction ps as [|p ps IH]; intros st; cbn [on_parts].
  { split; [apply tells_nil|]. unfold after_parts. cbn. by rewrite Nat.add_0_r. }
  destruct (on_part_tells p st) as [Hp Ha]. destruct (on_part p st) as [out st1]. cbn [fst snd] in *.
  destruct (IH st1) as [Ht Hb]. destruct (on_parts ps st1) as [out' st2]. cbn [fst snd] in *.
  destruct Ha as (A1 & A2 & A3 & A4 & A5 & A6 & A7), Hb as (B1 & B2 & B3 & B4 & B5 & B6 & B7). split.
  - change (p :: ps) with ([p] ++ ps). apply tells_app; [done|]. by rewrite <- A2.
  - unfold after_parts. split_and!; try congruence.
    + rewrite B1, A1. done.
    + rewrite B2, A2. unfold calls_in. cbn [List.filter]. destruct (is_call p); cbn [length]; lia.
Qed.

(** *** The values that the end reports *)

(** The last value there is *)
Definition latest {A} (d : option A) (l : list (option A)) : option A :=
  foldl (fun d o => match o with Some _ => o | None => d end) d l.

Definition normalized (u : UsageMetadata) : WireTokenUsage :=
  {| input_tokens := count (prompt_token_count u); cached_input_tokens := count (cached_content_token_count u);
     cache_creation_input_tokens := 0; output_tokens := count (candidates_token_count u);
     reasoning_output_tokens := count (thoughts_token_count u); total_tokens := count (total_token_count u);
     web_search_requests := 0; web_fetch_requests := 0 |}.

Definition small (o : option N) : Prop := match o with Some n => (n < 2 ^ 32)%N | None => True end.
Definition counts_small (chunk : GenerateContentResponse) : Prop :=
  match usage_metadata chunk with
  | Some u => small (prompt_token_count u) /\ small (candidates_token_count u)
  | None => True
  end.

Lemma normalize_small u :
  small (prompt_token_count u) -> small (candidates_token_count u) ->
  normalize_token_usage debug (raw_usage u) = Ok (normalized u).
Proof.
  intros Hp Hc. unfold normalize_token_usage, raw_usage, cache_inclusive_prompt, normalized. cbn.
  assert (forall o, Z.max (count o) 0 = count o) as E by (intros o; unfold count; lia). rewrite !E.
  unfold i64_arith, in_i64, i64_min, i64_max.
  assert (forall o, small o -> 0 <= count o < 2 ^ 32)%Z as Hs by (intros [n|]; unfold small, count; cbn; lia).
  specialize (Hs _ Hp) as Hp'. specialize (Hs _ Hc) as Hc'.
  rewrite (proj2 (Z.leb_le _ _)), (proj2 (Z.leb_le _ _)) by lia. cbn. done.
Qed.


Lemma de_u32_small v n : de_u32 v = Some n -> (n < 2 ^ 32)%N.
Proof. unfold de_u32. destruct (de_u64 v); [|done]. cbn. destruct (N.ltb_spec n0 (2 ^ 32)); [|done]. by intros [= <-]. Qed.

Lemma opt_u32_small v o : opt_field de_u32 v = Some o -> small o.
Proof.
  unfold opt_field, field_default, de_option. destruct v as [v|]; [|by intros [= <-]].
  destruct v; try (by intros [= <-]); intros (n & Hn & ->)%bind_Some || intros (n & Hn & ->)%fmap_Some; by apply de_u32_small in Hn.
Qed.

Lemma de_usage_small v u : de_usage_metadata v = Some u -> small (prompt_token_count u) /\ small (candidates_token_count u).
Proof.
  unfold de_usage_metadata. destruct (struct_fields _ _ _) as [[|p [|c [|t [|h [|a [|x [|]]]]]]]|]; try done.
  intros (p' & Hp & (c' & Hc & (? & _ & (? & _ & (? & _ & (? & _ & [= <-])%bind_Some)%bind_Some)%bind_Some)%bind_Some)%bind_Some)%bind_Some.
  split; by eapply opt_u32_small.
Qed.

Lemma decode_chunk_small data chunk : decode_chunk data = Some chunk -> counts_small chunk.
Proof.
  unfold decode_chunk. destruct (_ || _ || _); [done|]. intros (v & _ & Hv)%bind_Some. unfold de_response in Hv.
  destruct (struct_fields _ _ _) as [[|c [|u [|m [|r [|]]]]]|]; try done.
  apply bind_Some in Hv as (cs & _ & (u' & Hu & (? & _ & (? & _ & [= <-])%bind_Some)%bind_Some)%bind_Some).
  unfold counts_small. cbn. destruct u' as [u'|]; [|done]. unfold opt_field, field_default, de_option in Hu.
  destruct u as [v'|]; [|done]. apply (de_usage_small v'). destruct v'; try done; by apply fmap_Some in Hu as (? & -> & [= ->]).
Qed.

(** *** Chunks *)

Definition grounding_of (chunk : GenerateContentResponse) : option GroundingMetadata := candidate_of chunk ≫= grounding_metadata.
Definition add_grounding (g : GroundingMetadata) (o : option GroundingMetadata) : GroundingMetadata :=
  match o with Some gm => merge_grounding g gm | None => g end.

Definition after_chunk (chunk : GenerateContentResponse) (st st' : GeminiState) : Prop :=
  g_text st' = foldl push_capped (g_text st) (map spoken_text (parts_of chunk)) /\ g_calls st' = g_calls st + calls_in (parts_of chunk) /\
  g_response_id st' = first_id (g_response_id st) (chunk_response_id chunk) /\
  g_usage st' = latest (g_usage st) [normalized <$> usage_metadata chunk] /\ g_stop st' = latest (g_stop st) [stop_of chunk] /\
  g_grounding st' = add_grounding (g_grounding st) (grounding_of chunk).

(** What a chunk leads to *)
Definition chunk_result (chunk : GenerateContentResponse) (st : GeminiState) (r : comp False (list sent * option GeminiState)) : Prop :=
  match blocked_before chunk, refused_after chunk with
  | Some message, _ => exists out, r = Ok (out ++ [stream_error message], None) /\ tells (g_calls st) [] out
  | None, Some message => exists out, r = Ok (out ++ [stream_error message], None) /\ tells (g_calls st) (parts_of chunk) out
  | None, None => exists out st', r = Ok (out, Some st') /\ tells (g_calls st) (parts_of chunk) out /\ after_chunk chunk st st'
  end.

Lemma tells_created n ps out (b : bool) : tells n ps out -> tells n ps ((if b then [] else [inr Created]) ++ out).
Proof. by destruct b. Qed.

Lemma content_tells c st :
  let r := match content c with Some parts => on_parts parts st | None => ([], st) end in
  tells (g_calls st) (default [] (content c)) r.1 /\ after_parts (default [] (content c)) st r.2.
Proof. destruct (content c) as [ps|]; cbn; [apply on_parts_tells|apply (on_parts_tells [])]. Qed.

Definition with_usage (chunk : GenerateContentResponse) (st : GeminiState) : GeminiState :=
  match usage_metadata chunk with Some u => set_usage (normalized u) st | None => st end.

Lemma with_usage_latest chunk st :
  g_usage (with_usage chunk st) = latest (g_usage st) [normalized <$> usage_metadata chunk] /\
  g_text (with_usage chunk st) = g_text st /\ g_calls (with_usage chunk st) = g_calls st /\
  g_response_id (with_usage chunk st) = g_response_id st /\ g_stop (with_usage chunk st) = g_stop st /\
  g_grounding (with_usage chunk st) = g_grounding st.
Proof. unfold with_usage. by destruct (usage_metadata chunk). Qed.

Lemma usage_step chunk out st : counts_small chunk ->
  match usage_metadata chunk with
  | Some u => let? usage := normalize_token_usage debug (raw_usage u) in Ok (out, Some (set_usage usage st))
  | None => Ok (out, Some st)
  end = Ok (E := False) (out : list sent, Some (with_usage chunk st)).
Proof.
  unfold counts_small, with_usage. destruct (usage_metadata chunk) as [u|]; [|done]. intros [Hp Hc]. by rewrite normalize_small.
Qed.

(** The state after the parts, with what the candidate says else *)
Definition settled (chunk : GenerateContentResponse) (st : GeminiState) : GeminiState :=
  let st := match grounding_of chunk with Some gm => set_grounding (merge_grounding (g_grounding st) gm) st | None => st end in
  with_usage chunk (match stop_of chunk with Some stop => set_stop stop st | None => st end).

Lemma settled_after chunk st st' :
  after_parts (parts_of chunk) (chunk_seen (chunk_response_id chunk) st) st' -> after_chunk chunk st (settled chunk st').
Proof.
  intros (A1 & A2 & A3 & A4 & A5 & _ & A7). unfold settled, after_chunk.
  match goal with |- context [with_usage chunk ?s] => destruct (with_usage_latest chunk s) as (-> & -> & -> & -> & -> & ->) end.
  unfold add_grounding. destruct (grounding_of chunk), (stop_of chunk); cbn in *.
  all: rewrite ?A4, ?A5, ?A7; split_and!; done || exact A3.
Qed.

Lemma on_chunk_result chunk st : counts_small chunk -> chunk_result chunk st (on_chunk chunk st).
Proof.
  intros Hs. unfold chunk_result, on_chunk. pose proof (settled_after chunk st) as Hset. unfold settled in Hset.
  unfold blocked_before, refused_after, stop_of, grounding_of, parts_of, candidate_of in *.
  destruct (candidates chunk) as [|c cs]; cbn [head mbind option_bind default] in *.
  - rewrite usage_step by done. eexists _, _. split; [done|]. split; [by apply tells_created|]. apply Hset.
    unfold after_parts. cbn. by rewrite Nat.add_0_r.
  - unfold on_candidate. rewrite <- safety_block_category.
    destruct (safety_block c) as [message|] eqn:Eb; [eexists; split; [done|by destruct (g_created st)]|].
    destruct (content_tells c (chunk_seen (chunk_response_id chunk) st)) as [Ht Ha].
    destruct (match content c with Some parts => _ | None => _ end) as [out st1]. cbn [fst snd] in *.
    destruct (finish_reason c) as [reason|]; cbn [fmap option_fmap option_map mbind option_bind] in *.
    + rewrite (on_finish_spec c reason Eb). destruct (refusal reason) as [message|] eqn:Er.
      * exists ((if g_created st then [] else [inr Created]) ++ out). rewrite <- app_assoc. split; [done|by apply tells_created].
      * destruct (stop_name reason) as [stop|] eqn:Es; [|by destruct reason].
        rewrite usage_step by done. eexists _, _. split; [done|]. split; [by apply tells_created|by apply Hset].
    + rewrite usage_step by done. eexists _, _. split; [done|]. split; [by apply tells_created|by apply Hset].
Qed.

(** *** The whole stream *)

(** The text of the message: the pieces that fit, with citations if there are sources *)
Definition final_text (text : str) (g : GroundingMetadata) : str :=
  if bool_decide (grounding_chunks g = []) then text else annotated text g.

Definition closing (text : str) (g : GroundingMetadata) (stop : option str) (id : str) (usage : option WireTokenUsage) : list sent :=
  match text with [] => [] | _ => [done_ (text_item (final_text text g))] end ++
  [inr (Completed stop (match id with [] => &"gemini-" ++ now_hex | id => id end) usage (option_map (fun r => str_eqb r (&"end_turn")) stop))].

Lemma gemini_end_closing st :
  gemini_end st = Ok (closing (g_text st) (g_grounding st) (g_stop st) (g_response_id st) (g_usage st)).
Proof.
  unfold gemini_end, closing, final_text. destruct (g_response_id st), (g_text st) as [|c t]; try done; (case_bool_decide; [done|]);
    by destruct (citations_placed (c :: t) (g_grounding st)) as [-> _].
Qed.

(** What follows the events of the parts, from a state [st] *)
Definition tail_from (st : GeminiState) (chunks : list GenerateContentResponse) (e : stream_end) : list sent :=
  match heard chunks, e with
  | (_, Some message), _ => [stream_error message]
  | (_, None), AtError message => [stream_error (&"Gemini SSE error: " ++ message)]
  | (ps, None), _ =>
      let stop := latest (g_stop st) (map stop_of chunks) in
      match e, stop with AtTimeout, None => [stream_error (&"Gemini stream idle timeout")] | _, _ => [] end ++
      closing (foldl push_capped (g_text st) (map spoken_text ps)) (foldl add_grounding (g_grounding st) (map grounding_of chunks)) stop
        (foldl first_id (g_response_id st) (map chunk_response_id chunks)) (latest (g_usage st) (map (fun c => normalized <$> usage_metadata c) chunks))
  end.

Lemma latest_cons {A} (d : option A) o l : latest d (o :: l) = latest (latest d [o]) l.
Proof. done. Qed.

Lemma tail_from_cons st st' chunk chunks e :
  blocked_before chunk = None -> refused_after chunk = None -> after_chunk chunk st st' ->
  tail_from st (chunk :: chunks) e = tail_from st' chunks e.
Proof.
  intros Hb Hr (A1 & A2 & A3 & A4 & A5 & A6). unfold tail_from. cbn [heard map foldl]. rewrite Hb, Hr.
  destruct (heard chunks) as [ps [message|]]; [done|]. rewrite map_app, foldl_app, <- A1, (latest_cons _ (stop_of chunk)), <- A5,
    (latest_cons _ (normalized <$> usage_metadata chunk)), <- A4, <- A3, <- A6. done.
Qed.

Lemma gemini_loop_tells items st :
  let '(chunks, e) := read_stream items in
  exists events, gemini_loop items st = Ok (events ++ tail_from st chunks e) /\ tells (g_calls st) (heard chunks).1 events.
Proof.
  revert st. induction items as [|item items IH]; intros st; cbn [read_stream gemini_loop].
  { exists []. rewrite gemini_end_closing. by split; [|apply tells_nil]. }
  destruct item as [data|message|].
  2: { exists []. by split; [|apply tells_nil]. }
  2: { exists []. rewrite gemini_end_closing. cbn [comp_bind]. split; [|apply tells_nil]. unfold tail_from. cbn. by destruct (g_stop st). }
  specialize IH as IH'. destruct (read_stream items) as [chunks e]. destruct (decode_chunk data) as [chunk|] eqn:Ed; [|apply IH'].
  pose proof (on_chunk_result chunk st (decode_chunk_small _ _ Ed)) as Hr. unfold chunk_result in Hr.
  destruct (blocked_before chunk) as [message|] eqn:Eb; [|destruct (refused_after chunk) as [message|] eqn:Er].
  - destruct Hr as (out & -> & Ht). exists out. unfold tail_from. cbn [heard]. rewrite Eb. done.
  - destruct Hr as (out & -> & Ht). exists out. unfold tail_from. cbn [heard]. rewrite Eb, Er. done.
  - destruct Hr as (out & st' & -> & Ht & Ha). destruct (IH' st') as (events & He & Ht'). exists (out ++ events). cbn [comp_bind].
    rewrite He. cbn [comp_bind]. rewrite (tail_from_cons st st'), app_assoc by done. split; [done|]. cbn [heard]. rewrite Eb, Er.
    destruct (heard chunks) as [ps r]. apply tells_app; [done|]. destruct Ha as (_ & <- & _). done.
Qed.
(** *** What the end reports, read off the chunks *)

(** The pieces of a text that fit one after the other; a piece that does not is left out. *)
Fixpoint fitting (room : N) (pieces : list str) : str :=
  match pieces with
  | [] => []
  | piece :: pieces => if (str_len piece <=? room)%N then piece ++ fitting (room - str_len piece) pieces else fitting room pieces
  end.

Definition nonempty {A} (l : list A) : bool := match l with [] => false | _ => true end.

(** The last list that is not empty *)
Definition last_listed {A} (f : GroundingMetadata -> list A) (chunks : list GenerateContentResponse) : list A :=
  default [] (last (List.filter nonempty (map f (omap grounding_of chunks)))).
Definition sources_of (chunks : list GenerateContentResponse) : GroundingMetadata :=
  {| grounding_chunks := last_listed grounding_chunks chunks; grounding_supports := last_listed grounding_supports chunks;
     web_search_queries := last_listed web_search_queries chunks |}.

(** What follows the events of the parts.  A refusal or an error of the stream is the only
    error and the last event; otherwise the message and [Completed] are last, behind an
    error when the stream stalled without a finish reason. *)
Definition stream_tail (chunks : list GenerateContentResponse) (e : stream_end) : list sent :=
  match heard chunks, e with
  | (_, Some message), _ => [stream_error message]
  | (_, None), AtError message => [stream_error (&"Gemini SSE error: " ++ message)]
  | (ps, None), _ =>
      let stop := last (omap stop_of chunks) in
      let text := fitting 4194304 (map spoken_text ps) in
      let sources := sources_of chunks in
      match e, stop with AtTimeout, None => [stream_error (&"Gemini stream idle timeout")] | _, _ => [] end ++
      (if nonempty text then [done_ (text_item (if nonempty (grounding_chunks sources) then annotated text sources else text))] else []) ++
      [inr (Completed stop (default (&"gemini-" ++ now_hex) (head (List.filter nonempty (omap chunk_response_id chunks))))
         (normalized <$> last (omap usage_metadata chunks)) (option_map (fun r => str_eqb r (&"end_turn")) stop))]
  end.

Lemma push_fitting pieces : forall text, (str_len text <= MAX_ACCUMULATED_BYTES)%N ->
  foldl push_capped text pieces = text ++ fitting (MAX_ACCUMULATED_BYTES - str_len text) pieces.
Proof.
  induction pieces as [|piece pieces IH]; intros text Hl; cbn [foldl fitting]; [by rewrite app_nil_r|]. unfold push_capped at 2.
  destruct (N.leb_spec (str_len text + str_len piece) MAX_ACCUMULATED_BYTES);
    destruct (N.leb_spec (str_len piece) (MAX_ACCUMULATED_BYTES - str_len text)); try lia; [|by apply IH].
  rewrite IH by (rewrite str_len_app; lia). rewrite <- app_assoc, str_len_app. do 3 f_equal. lia.
Qed.

Lemma latest_last {A B} (f : A -> option B) l : forall d, latest d (map f l) = match last (omap f l) with Some x => Some x | None => d end.
Proof.
  induction l as [|x l IH]; intros d; [done|]. change (latest d (map f (x :: l))) with (latest (match f x with Some _ => f x | None => d end) (map f l)).
  rewrite IH. cbn [omap list_omap]. destruct (f x); [|done]. rewrite last_cons. by destruct (last _).
Qed.

Lemma first_id_head l : forall id, foldl first_id id l = match id with [] => default [] (head (List.filter nonempty (omap (fun o => o) l))) | _ => id end.
Proof.
  induction l as [|o l IH]; intros id; cbn [foldl]; [by destruct id|]. rewrite IH. destruct id as [|c id]; [|by destruct o].
  by destruct o as [[|]|].
Qed.

Lemma listed_last {A} (f : GroundingMetadata -> list A) :
  (forall g new, f (merge_grounding g new) = match f new with [] => f g | l => l end) ->
  forall chunks g, f (foldl add_grounding g (map grounding_of chunks)) =
    default (f g) (last (List.filter nonempty (map f (omap grounding_of chunks)))).
Proof.
  intros Hf. induction chunks as [|c chunks IH]; intros g; [done|]. cbn [map foldl omap list_omap]. rewrite IH.
  destruct (grounding_of c) as [gm|]; [|done]. cbn [add_grounding map List.filter]. rewrite Hf. destruct (f gm) as [|x l]; [done|].
  cbn [nonempty]. rewrite last_cons. by destruct (last _).
Qed.

Lemma head_nonempty (l : list str) : head (List.filter nonempty l) <> Some [].
Proof. induction l as [|[|c x] l IH]; done. Qed.

Lemma tail_from_start chunks e : tail_from gemini_start chunks e = stream_tail chunks e.
Proof.
  unfold tail_from, stream_tail. destruct (heard chunks) as [ps [message|]]; [done|].
  rewrite push_fitting, (latest_last stop_of), first_id_head by (vm_compute; discriminate).
  cbn [g_text g_stop g_response_id g_usage g_grounding gemini_start app].
  assert (foldl add_grounding no_grounding (map grounding_of chunks) = sources_of chunks) as ->.
  { unfold sources_of, last_listed. pose proof (listed_last grounding_chunks) as H1. pose proof (listed_last grounding_supports) as H2.
    pose proof (listed_last web_search_queries) as H3. specialize (H1 (fun _ _ => eq_refl) chunks no_grounding).
    specialize (H2 (fun _ _ => eq_refl) chunks no_grounding). specialize (H3 (fun _ _ => eq_refl) chunks no_grounding).
    destruct (foldl add_grounding no_grounding _). cbn in *. by subst. }
  assert (latest None (map (fun c => normalized <$> usage_metadata c) chunks) = normalized <$> last (omap usage_metadata chunks)) as ->.
  { rewrite latest_last. rewrite <- fmap_last. assert (omap (fun c => normalized <$> usage_metadata c) chunks = normalized <$> omap usage_metadata chunks) as ->.
    { induction chunks as [|c chunks IH]; [done|]. cbn. by destruct (usage_metadata c); cbn; rewrite IH. } by destruct (last _). }
  assert (omap (fun o => o) (map chunk_response_id chunks) = omap chunk_response_id chunks) as ->.
  { clear. induction chunks as [|c chunks IH]; [done|]. cbn. by destruct (chunk_response_id c); rewrite IH. }
  assert (match last (omap stop_of chunks) with Some x => Some x | None => None end = last (omap stop_of chunks)) as -> by (by destruct (last _)).
  change (MAX_ACCUMULATED_BYTES - str_len [])%N with 4194304%N. unfold closing, final_text. cbv zeta.
  destruct (head (List.filter nonempty (omap chunk_response_id chunks))) as [[|c0 id]|] eqn:Eh; [by apply head_nonempty in Eh|..];
    destruct (fitting 4194304 (map spoken_text ps)) as [|ch text], (grounding_chunks (sources_of chunks)); by destruct e.
Qed.
End gemini_stream.

(** C26: the parser of the Gemini stream returns on every input, and what it sends is fixed
    by the chunks that arrive before the end or a refusal: events of progress, whose
    finished items are those of the parts in their order (a signed call also leaves its raw
    block, ahead of it) and whose deltas are their texts and thoughts, and then the tail.
    After a rating that blocks, a finish reason that refuses or an error of the stream the
    tail is that error alone.  Otherwise it is the message, with the pieces of text that fit
    into 4 MB and the citations of the last sources, and one [Completed] with the last stop
    reason and usage and the first identifier; when the stream stalled without a finish
    reason, the error of the timeout comes before them. *)
Theorem gemini_stream_sends `{ValueText} `{RequestEnv} load add now_hex debug repeats items :
  let '(chunks, e) := read_stream repeats items in
  exists events,
    process_generate_content_sse load add now_hex debug repeats items = Ok (events ++ stream_tail now_hex chunks e) /\
    tells load add 0 (heard chunks).1 events.
Proof.
  pose proof (gemini_loop_tells load add now_hex debug repeats items gemini_start) as H'.
  destruct (read_stream repeats items) as [chunks e]. by rewrite tail_from_start in H'.
Qed.

(** ** The stream and the next request *)

(** What the items of a part say in the history of the next request *)
Definition part_said (p : Part) : list (str * Value) :=
  if thought p then
    match thought_signature p with Some sig => [(&"model", thought_block (thought_text p) sig)] | None => [] end
  else
    match payload p, thought_signature p with
    | PartFunctionCall fc, Some sig => [(&"model", signed_call_block fc sig)]
    | PartFunctionCall fc, None => [(&"model", call_part (parse_flat_mcp_tool_name (fc_name fc)).2 (default (obj []) (fc_args fc)))]
    | _, _ => []
    end.

Lemma part_replayed `{ValueText} `{WireCodec} names load add n p rest :
  (forall v, from_str (value_to_string v) = Some v) -> from_str (&"{}") = Some (obj []) ->
  spoken names false (part_items load add n p ++ rest) = part_said p ++ spoken names false rest.
Proof.
  intros Hrt He. destruct p as [pl [] sig]; unfold part_items, part_said; cbn [thought payload thought_signature].
  { by destruct sig. }
  destruct pl as [|fc| | | | | | |]; try done. unfold call_item. destruct (parse_flat_mcp_tool_name (fc_name fc)) as [ns bare].
  destruct sig as [sig|]; [done|]. cbn [app spoken snd]. unfold call_args, call_arguments.
  destruct (fc_args fc) as [a|]; cbn [default]; [by rewrite Hrt|by rewrite He].
Qed.

(** A model's turn in the next request: every signed part comes back once and as it
    came, and a call that is not signed with its arguments, but under its bare name. *)
Theorem parts_replayed `{ValueText} `{WireCodec} names load add n ps rest :
  (forall v, from_str (value_to_string v) = Some v) -> from_str (&"{}") = Some (obj []) ->
  spoken names false (parts_items load add n ps ++ rest) = flat_map part_said ps ++ spoken names false rest.
Proof.
  intros Hrt He. revert n. induction ps as [|p ps IH]; intros n; cbn [parts_items flat_map]; [done|].
  rewrite <- !app_assoc, (part_replayed names load add n p) by done. by rewrite IH.
Qed.

(** ** What the code also does *)

Definition signed_mcp_call : Part :=
  {| payload := PartFunctionCall {| fc_name := &"mcp__fs__read"; fc_args := Some (obj []) |}; thought := false;
     thought_signature := Some (&"sig") |}.
Definition read_output : ResponseItem :=
  FunctionCallOutput (&"gemini_call_0") {| body := BodyText (&"ok"); success := None |}.

(** The answer to a call of an MCP tool goes out under the bare name of the tool, the call
    itself under the name the model used, with its namespace. *)
Lemma mcp_answer_has_other_name :
  let codec := {| value_from_str := fun _ => None; value_to_string := fun _ => &"{}" |} in
  let _ := plain_codec in
  conversation_to_gemini_contents (@parts_items codec (fun _ => 0%N) (fun _ => 0%N) 0 [signed_mcp_call] ++ [read_output]) =
    Ok [turn (&"model") [signed_call_block {| fc_name := &"mcp__fs__read"; fc_args := Some (obj []) |} (&"sig")];
        turn (&"user") [response_part (&"read") (&"ok")]].
Proof. vm_compute. reflexivity. Qed.

(** A stream that stalls reports an error and after it the end of the turn. *)
Lemma stalled_stream_completes `{ValueText} `{RequestEnv} load add now_hex debug repeats :
  process_generate_content_sse load add now_hex debug repeats [IdleTimeout] =
    Ok [stream_error (&"Gemini stream idle timeout"); inr (Completed None (&"gemini-" ++ now_hex) None None)].
Proof. done. Qed.
